(* ===== verification/_CoqProject ===== *)
-Q . S2P
Prelude.v
Ids.v
Json.v
F64.v
F64Range.v
LakeClock.v
UnionFind.v
Cluster.v
Assertions.v
ShortestPath.v
NeverCut.v
Reconcile.v
DagPolicy.v
Dag.v
Readiness.v
Resume.v
TaskRefs.v
Errors.v
Registry.v
Sql.v
Ledger.v
TaskPg.v
LedgerInv.v
LedgerRuns.v
LedgerMoves.v
LedgerOps.v
LedgerClear.v
Scheduler.v
Eval.v
Versions.v
Text.v
Hash.v
UrlGuard.v
Cron.v
TerminalRecords.v
Classify.v
Satoken.v
Auth.v
Executor.v
ExecutorLoops.v
ExecutorPasses.v
Attempts.v
Reporter.v
EntitySpec.v
EntityGen.v
EntityDiff.v
EntityReconcile.v
EntityRules.v
EntityLint.v
SqlColumns.v
EngineSettings.v
EngineModel.v
EngineDocument.v
Config.v
Compile.v
ConfigCheck.v
Webhooks.v
Provision.v
Plane.v
Datasets.v
Publish.v
Schedules.v
ActiveConfig.v
PublishRuns.v
