(* ===== verification/Prelude.v ===== *)
(** * Entity Resolution Engine: a verification library

    The engine takes records of several sources, decides which of them denote
    the same real-world entity, and keeps the entities stable from run to run.
    A run is a job: a graph of tasks compiled in the process, whose rows a
    dispatcher advances and whose tasks run as pods.  This library models the
    parts of the Rust workspace (src/rust/crates) that decide something, and
    proves them correct.

    ** The parts, and the file that models each

    - Identity, er-ids: [Ids] has record keys, canonical pairs, the id
      factories and the following of redirects; [LakeClock] the lake's
      timestamps, parsed by er-ids and printed by the dispatcher.
    - Clustering, er-reconcile: [UnionFind] has the two union-finds
      (cluster.rs by index, assertions.rs by key with path compression),
      [Cluster] the min-label propagation, [Assertions] the contradiction
      check, [ShortestPath] and [NeverCut] the search and the fixpoint of
      never_cut.rs, [Reconcile] the planner of reconcile.rs.  The solver
      searches a path, cuts its weakest edge and clusters again; the planner
      turns the clusters and the prior membership into assignments, events
      and transitions, with ids of an [Ids.IdFactory].
    - Orchestration, er-dag: [DagPolicy] and [Dag] have policy.rs,
      builder.rs and assembly.rs, [Readiness] readiness.rs and a step
      relation for the run of a job, [Resume] resume.rs, [TaskRefs] the
      durable references of task.rs.
    - Pods, er-k8s: [TerminalRecords] has record.rs and [Classify] classify.rs
      with the snapshots of api.rs.
    - Control plane, er-server: [Registry] has the graph of every kind of
      job and the dispatch of its tasks (dags), [Cron] cron.rs, [UrlGuard]
      urlguard.rs, [Satoken] the verifier of service-account tokens
      (satoken.rs), [Auth] the bearer boundary, the guards, tenants and API
      keys (lib.rs with org.rs, api_key.rs and audit_log.rs of er-entities),
      [Attempts] the reports of a pod and the clear of a task (lib.rs),
      [Reporter] the dispatcher's in-process ledger half (reporter.rs),
      [Webhooks] the outbox of events (webhook.rs with webhook.rs and
      webhook_delivery.rs of er-entities), [Provision] what a tenant is given
      on disk (provision.rs).
    - Datasets, configuration versions and schedules: [Plane] has the three
      tables with their constraints and statements (dataset.rs,
      config_version.rs and schedule.rs of er-entities) and the functions of
      pg.rs over them, [Datasets] the requests of lib.rs on datasets and
      versions, [Publish] the publishing of a version, [Schedules] the
      requests on schedules and the dispatcher's tick.  [ActiveConfig] has
      the invariant of every sequence of requests and ticks, [PublishRuns]
      what a publish leaves behind and runs of it on one tenant.
    - A tenant's configuration: [Config] has the document, its normal form and
      its hash (er-config), [Compile] the compiler to the engine's settings
      (er-compile), [ConfigCheck] the check before a publish
      (er-server/src/config_check.rs, er-cli/src/related.rs).
    - The record-linkage engine, dedupe-core: [SqlColumns] the columns a
      condition uses, [EngineSettings] the settings and their compilation,
      [EngineModel] the scores and the trained model, [EngineDocument] the
      reading and writing of the settings document.  A configuration is
      compiled by [Compile] to a document that [EngineSettings] compiles
      again, and [ConfigCheck] relates the two.
    - The ledger of jobs and tasks: [Sql] says what a statement and a
      transaction are; [Ledger] has the two tables with their constraints and
      every statement on them (er-entities/src/task_instance.rs and job.rs),
      [TaskPg] the transactions of er-server/src/taskpg.rs.  [LedgerInv] has
      the invariant and its preservation statement by statement, [LedgerRuns]
      the runs of transactions from the empty ledger and what every reachable
      ledger satisfies, [LedgerMoves] the moves a row can make, [LedgerOps] a
      failed attempt and [LedgerClear] a clear, branch by branch.
    - The executor, er-server/src/executor.rs: [Scheduler] has the readiness
      transaction, which runs [Readiness.pass] and [Readiness.settle] on the
      rows of a job; [Executor] the watch, the verdicts, the sweeps, planning,
      control tasks and launching, as functions of the ledger and of a cluster
      that answers; [ExecutorLoops] its two claiming loops, [ExecutorPasses]
      a whole iteration.
    - Entity specifications: [EntitySpec] has er-entity-spec (the types, the
      catalog and its loading), [EntityGen] the renderer of er-schema and the
      two statement emitters of er-entity-gen, [EntityDiff] the differ and
      the migration plan of er-entity-diff, [EntityReconcile] its reconciler
      with the ledger of versions (schema_migration.rs), [EntityLint] and
      [EntityRules] the conventions of er-entity-lint.  The linter accepts a
      tree, the differ compares a store with it, the plan is rendered and run,
      and the version recorded.
    - Shared contracts: [Errors] (er-errors), [Versions] (er-versions), [Eval]
      (er-eval), [Hash] (er-hash).
    - Shared vocabulary: [Prelude] (this file), [Text] for the string methods
      the parsers use, [Json] for JSON documents, [F64] and [F64Range] for
      binary64 arithmetic with the bounds the compiler relies on.

    ** How the code is read

    A function of the source is a function here, with the source's name; a
    loop is a [Fixpoint] over what it iterates or over fuel.  A fallible
    function returns a [result].  A panic is [None], and so is fuel that runs
    out, so a theorem that states a [Some] shows both that the loop ends and
    that no index, [expect] or [unreachable!] fails.  The fuel is in the
    definition, not in the statement: [VecUF.find] has one unit per index,
    [MapUF.climb] one per key, [bfs_loop] one per vertex,
    [Ids.resolve_loop] one per allowed hop, the never-cut loop one per round
    of its budget, the searches of [Dag.reaches] and [Resume.clear_closure]
    one per node and pending entry, and the totality theorems show these are
    enough.  The two claiming loops of the executor have their fuel as an
    argument; [control_pass_terminates] and [launch_pass_terminates] bound it
    by the launches and claims the ledger still allows ([budget]).  Machine integers are [Z] or [N] with their bounds written out
    and an overflow is a panic, as in a build with overflow checks;
    probabilities and metrics are the kernel's binary64.  A Rust string is
    the [string] of its UTF-8 bytes, ordered as bytes.  A [BTreeMap] is a
    sorted association list or a [gmap] read in key order, a [HashMap] a
    [gmap] whose order no theorem uses.

    Code outside the repository is a parameter: the SHA-256 digest and the
    normal form of Unicode ([Hash], [Ids], [Dag]), URL parsing and name
    resolution ([UrlGuard]), the JSON codec of a record (the class
    [SerdeRecord] of [TerminalRecords]), the store a reference is probed in
    ([TaskRefs.Prober]), the source of ids (the class [Ids.IdFactory]), the
    database's [hashtext], the answers of the cluster ([Executor.Cluster]), the
    bodies of control tasks, the random tokens, the token decoder and the
    key endpoint ([Satoken]), the database's errors as text and the connector
    ([Reporter]), the YAML parser ([EntitySpec]), the text of the trigger
    function and the types a store reports and the effect of a statement on
    it ([EntityDiff], [EntityReconcile]), the parser of SQL
    conditions ([SqlColumns]), base-two logarithms and powers ([EngineModel],
    [Compile]), the texts of an f64 and of a JSON document, the lower case of
    Unicode, the YAML reader of a configuration ([Config]), the refusals of the
    file system ([Provision]), HMAC and the answers of the network
    ([Webhooks]), the calendar of a moment ([Cron], [Schedules]), the names
    with an active model and the advice read off a profile ([Publish]).  What
    a theorem needs of one is a hypothesis, with a witness that meets it.

    ** What the theorems show

    - Entities: the labels are the connected components and do not depend on
      the order of the input; the contradiction check decides
      satisfiability; the search returns the least shortest path; the
      fixpoint ends, separates what can be separated, cuts nothing that is
      protected; the plan realises the new partition, moves an id with its
      largest fragment, writes only what changed and does not depend on the
      order of the groups.
    - Jobs: assembly accepts exactly the sound graphs, a builder's graph is
      topological, a pass is one consistent sweep, a run cannot get stuck, has one
      writer per lake and loses no failure; the clear closure is the least
      set that leaves no input missing.
    - The ledger: in every reachable ledger the tries of a task are numbered
      without gaps and the last alone is live, a tenant has one pod at most,
      budgets are kept, rows move along the documented state machine, verdicts
      are final; a failure, a clear and a readiness pass do to the rows exactly
      what is stated, and everything the executor does, whatever the cluster
      answers, is a run of those transactions.
    - Credentials: a request acts as exactly the principal its live key or
      token names, an issued key lives until it is revoked, only the pod bound
      to an attempt reports on it.
    - Entity specifications: the linter accepts exactly the trees that keep
      the conventions, and what it accepts can be planned; the tables come in
      an order that respects references; a plan brings a store to the catalog
      and is empty exactly when the store is there; a reconciliation settles,
      records what it did and is undone when refused.
    - Pods: the classifiers decide every case on the stated evidence; the
      record fits the kubelet's cap and reads back.
    - Configuration: the hash identifies the normalised document; the
      settings compile exactly as their reference reads, and survive saving
      and reading back; every configuration the compiler accepts loads in the
      engine, with its constraints enforced under the three-valued logic of
      SQL; the publish check refuses exactly what its rules name and leaves a
      base to every term-frequency adjustment.
    - Requests: whatever came before, the configuration a dataset serves is a
      version of its own that loads, and its versions are numbered without
      gaps; a publish passes exactly its checks and leaves the file, the
      pointers, the schedule and the jobs it announces; a tick fires every due
      schedule once per minute, whoever else ticks; an event is posted
      exactly where it is subscribed, signed, and one dispatcher's outbox
      drains; the places given to two tenants are apart where their derived
      database names are.
    - Contracts: keys, references, timestamps and schedules round-trip, ids
      do not repeat, redirects resolve in bounded hops, hashes identify
      content, metrics count what they say, exit codes follow classes, the
      egress guard refuses exactly the forbidden networks.

    ** Not modelled

    The stages that generate SQL for DuckDB (those of dedupe-core with its
    training loops and session, er-golden, er-standardize, er-match,
    er-ingest) and the read handlers (er-server/src/read.rs, most of er-cli)
    have their meaning in the database, and so have the other tables of
    er-entities.  Of the control plane, the convergence of a provisioned
    dataset, the sweeps that approve merges, report runs and announce jobs,
    the cancelling of a job, tags and staged actions are left out.  The work
    order a pod fetches opens lakes and clusters.  Of the entity
    tooling, the queries of an information schema, the emitters of Rust,
    TypeScript and diagrams, the registry's constant tables and the command
    line are left out.  Of the executor, the announcements
    of a settled job, the credential injected into a manifest and a connection
    that is lost between two statements of a transaction's caller are left
    out; the clock is read once per pass.  er-sql-check reads the syntax tree of a
    third-party parser.  The cluster client, the observer's watch loops and
    the random id factories are input and output. *)

From Stdlib Require Export ZArith Lia.
From stdpp Require Export sorting strings relations option gmap list.

#[global] Open Scope stdpp_scope.

(** ** Results

    Rust's [Result<T, E>].  A Rust panic is never an [Err]: a function whose
    source can panic returns an [option], [None] being the panic. *)

Inductive result (T E : Type) : Type :=
| Ok (v : T)
| Err (e : E).
Arguments Ok {T E} v.
Arguments Err {T E} e.

Declare Scope rust_scope.
Delimit Scope rust_scope with rust.

(** The [?] operator. *)
Notation "x '<-?' m ';' k" :=
  (match m with Ok x => k | Err e => Err e end)
  (at level 20, m at level 100, k at level 200, right associativity,
   only parsing) : rust_scope.

(** ** Tactics *)

(** [lia] with division and remainder by constants. *)
Ltac div_lia := Z.to_euclidean_division_equations; lia.

(** ** The byte order on strings *)

Definition str_ltb (a b : string) : bool := String.ltb a b.

Definition str_lt (a b : string) : Prop := String.compare a b = Lt.

(** ** Iterator adaptors *)

(** [Iterator::find]. *)
Fixpoint find_first {A} (p : A → bool) (l : list A) : option A :=
  match l with [] => None | x :: l => if p x then Some x else find_first p l end.

(** [Iterator::min_by]: the first element no other element is below. *)
Definition min_by {A} (cmp : A → A → comparison) (l : list A) : option A :=
  match l with
  | [] => None
  | x :: l' =>
      Some (foldl (λ best y, match cmp best y with Gt => y | _ => best end) x l')
  end.

(** [min_by] with a [partial_cmp(..).expect(..)]: [None] is the panic. *)
Definition min_by_partial {A} (cmp : A → A → option comparison) (l : list A) :
    option (option A) :=
  match l with
  | [] => Some None
  | x :: l' =>
      Some <$> foldl (λ acc y, best ← acc; c ← cmp best y;
                               Some (match c with Gt => y | _ => best end)) (Some x) l'
  end.

(** [Iterator::enumerate]. *)
Definition enumerate {A} (l : list A) : list (nat * A) := imap pair l.

(** [slice::windows(2)]. *)
Fixpoint windows2 {A} (l : list A) : list (A * A) :=
  match l with
  | x :: (y :: _) as l' => (x, y) :: windows2 l'
  | _ => []
  end.

(** ** Ordered collections

    A [BTreeSet<String>] is a [gset string], a [BTreeMap<String, V>] a
    [gmap string V]; iteration visits the keys in ascending byte order. *)

Definition set_sorted (X : gset string) : list string :=
  merge_sort String.le (elements X).

Definition map_sorted {V} (m : gmap string V) : list (string * V) :=
  omap (λ k, (k,.) <$> m !! k) (set_sorted (dom m)).

(** [Vec::sort] and [sort_by] are stable sorts by the given order. *)
Definition sort_strings (l : list string) : list string := merge_sort String.le l.

(** [Vec::dedup]: drop consecutive repeats. *)
Fixpoint dedup (l : list string) : list string :=
  match l with
  | x :: (y :: _) as l' => if decide (x = y) then dedup l' else x :: dedup l'
  | _ => l
  end.

(** [collect] into a [BTreeMap]: a later entry replaces an earlier one. *)
Definition map_collect `{Countable K} {V} (l : list (K * V)) : gmap K V :=
  foldl (λ m '(k, v), <[k := v]> m) ∅ l.

(** The undirected graph of a list of pairs, and its connectedness. *)
Definition edge_of {A} (es : list (A * A)) : relation A := λ a b, (a, b) ∈ es.

Definition connected {A} (es : list (A * A)) : relation A := rtsc (edge_of es).

(** * Lemmas *)

(** ** The byte order is a strict total order *)

Lemma str_compare_refl a : String.compare a a = Eq.
Proof.
  induction a as [|c a IH]; [done|]; simpl.
  unfold Ascii.compare. by rewrite N.compare_refl.
Qed.

Lemma str_le_iff a b : String.le a b ↔ str_lt a b ∨ a = b.
Proof.
  unfold String.le, str_lt, String.leb.
  destruct (String.compare a b) eqn:E; simpl; split; try by auto.
  - intros _. right. by apply String.compare_eq_iff.
  - intros [?| ->]; [done|]. by rewrite str_compare_refl in E.
Qed.

Lemma str_lt_irrefl a : ¬ str_lt a a.
Proof. unfold str_lt. by rewrite str_compare_refl. Qed.

Lemma str_lt_antisym a b : str_lt a b → ¬ str_lt b a.
Proof. unfold str_lt. rewrite (String.compare_antisym a b). by destruct (String.compare b a). Qed.

Lemma str_lt_le a b : str_lt a b → String.le a b.
Proof. rewrite str_le_iff. auto. Qed.

Lemma str_le_not_lt a b : String.le a b → ¬ str_lt b a.
Proof.
  rewrite str_le_iff. intros [?| ->]; [by apply str_lt_antisym|apply str_lt_irrefl].
Qed.

Lemma str_lt_trans a b c : str_lt a b → str_lt b c → str_lt a c.
Proof.
  intros Hab Hbc. assert (String.le a c) as [?| ->]%str_le_iff; [|done|].
  - etrans; by apply str_lt_le.
  - by destruct (str_lt_antisym _ _ Hab).
Qed.

Lemma str_lt_total a b : str_lt a b ∨ a = b ∨ str_lt b a.
Proof.
  unfold str_lt. rewrite (String.compare_antisym b a).
  destruct (String.compare a b) eqn:E; simpl; [|by auto..].
  right; left. by apply String.compare_eq_iff.
Qed.

Lemma str_not_le a b : ¬ String.le a b → str_lt b a.
Proof.
  rewrite str_le_iff. destruct (str_lt_total a b) as [?|[?|?]]; naive_solver.
Qed.

Lemma str_not_lt a b : ¬ str_lt a b → String.le b a.
Proof.
  rewrite str_le_iff. destruct (str_lt_total a b) as [?|[?|?]]; naive_solver.
Qed.

Lemma str_ltb_lt a b : str_ltb a b = true ↔ str_lt a b.
Proof. unfold str_ltb, str_lt, String.ltb. by destruct (String.compare a b). Qed.

Lemma str_ltb_ge a b : str_ltb a b = false ↔ String.le b a.
Proof.
  rewrite <-not_true_iff_false, str_ltb_lt. split; [apply str_not_lt|apply str_le_not_lt].
Qed.

#[global] Instance str_lt_dec : RelDecision str_lt.
Proof. intros a b. unfold str_lt. solve_decision. Defined.

#[global] Instance str_lt_strict : StrictOrder str_lt.
Proof.
  split; [intros ?; apply str_lt_irrefl|intros ???; apply str_lt_trans].
Qed.

Lemma str_compare_gt a b : String.compare a b = Gt ↔ str_lt b a.
Proof. unfold str_lt. rewrite (String.compare_antisym a b). by destruct (String.compare b a). Qed.

(** ** Sorted listings *)

Lemma elem_of_set_sorted X x : x ∈ set_sorted X ↔ x ∈ X.
Proof. unfold set_sorted. by rewrite merge_sort_Permutation, elem_of_elements. Qed.

Lemma NoDup_set_sorted X : NoDup (set_sorted X).
Proof. unfold set_sorted. rewrite merge_sort_Permutation. apply NoDup_elements. Qed.

Lemma StronglySorted_set_sorted X : StronglySorted String.le (set_sorted X).
Proof. apply (StronglySorted_merge_sort _). Qed.

Lemma StronglySorted_strict l :
  StronglySorted String.le l → NoDup l → StronglySorted str_lt l.
Proof.
  induction 1 as [|x l ? IH HF]; intros HN; [constructor|].
  apply NoDup_cons in HN as [Hx HN]. constructor; [auto|].
  rewrite Forall_forall in HF |- *. intros y Hy.
  destruct (proj1 (str_le_iff x y) (HF y Hy)) as [?| ->]; done.
Qed.

Lemma set_sorted_strict X : StronglySorted str_lt (set_sorted X).
Proof. apply StronglySorted_strict; [apply StronglySorted_set_sorted|apply NoDup_set_sorted]. Qed.

Lemma set_sorted_empty : set_sorted ∅ = [].
Proof. unfold set_sorted. by rewrite elements_empty. Qed.

Lemma set_sorted_nil X : set_sorted X = [] ↔ X = ∅.
Proof.
  split; [|intros ->; apply set_sorted_empty]. intros E.
  apply set_eq. intros x. rewrite <-elem_of_set_sorted, E. set_solver.
Qed.

Lemma set_sorted_unique X l :
  StronglySorted str_lt l → (∀ x, x ∈ l ↔ x ∈ X) → l = set_sorted X.
Proof.
  intros HS Hl.
  assert (NoDup l) as HN.
  { clear Hl. induction HS as [|x l' ? IH HF]; constructor; [|done].
    intros Hx. rewrite Forall_forall in HF. by apply (str_lt_irrefl x), HF. }
  apply (StronglySorted_unique String.le).
  - clear -HS. induction HS as [|x l' ? IH HF]; constructor; [done|].
    eapply Forall_impl; [done|]. intros; by apply str_lt_le.
  - apply StronglySorted_set_sorted.
  - apply NoDup_Permutation; [done|apply NoDup_set_sorted|].
    intros x. by rewrite Hl, elem_of_set_sorted.
Qed.

(** The head of a sorted listing is the minimum. *)
Lemma set_sorted_head X x :
  head (set_sorted X) = Some x ↔ x ∈ X ∧ ∀ y, y ∈ X → String.le x y.
Proof.
  pose proof (StronglySorted_set_sorted X) as HS.
  pose proof (elem_of_set_sorted X) as HX.
  destruct (set_sorted X) as [|z l] eqn:E; simpl.
  - split; [done|]. intros [Hx _]. apply HX in Hx. set_solver.
  - inversion HS as [|?? _ HF]; subst. rewrite Forall_forall in HF. split.
    + intros [= ->]. split; [apply HX; left|]. intros y [->|?]%HX%elem_of_cons; [done|auto].
    + intros [Hx Hmin]. f_equal. apply (anti_symm String.le).
      * apply HX in Hx as [->|?]%elem_of_cons; [done|auto].
      * apply Hmin, HX. left.
Qed.

Lemma set_sorted_head_is_Some X : X ≠ ∅ → is_Some (head (set_sorted X)).
Proof.
  intros HX. destruct (set_sorted X) eqn:E; simpl; [|eauto].
  by apply set_sorted_nil in E.
Qed.

Lemma elem_of_map_sorted {V} (m : gmap string V) k v :
  (k, v) ∈ map_sorted m ↔ m !! k = Some v.
Proof.
  unfold map_sorted. rewrite list_elem_of_omap.
  setoid_rewrite elem_of_set_sorted. setoid_rewrite elem_of_dom. split.
  - intros (k' & _ & (v' & ? & [= -> ->])%fmap_Some). done.
  - intros E. exists k. split; [eauto|]. by rewrite E.
Qed.

Lemma map_sorted_fst {V} (m : gmap string V) : (map_sorted m).*1 = set_sorted (dom m).
Proof.
  unfold map_sorted.
  assert (∀ k, k ∈ set_sorted (dom m) → is_Some (m !! k)) as H.
  { intros k. by rewrite elem_of_set_sorted, elem_of_dom. }
  induction (set_sorted (dom m)) as [|k l IH]; [done|].
  destruct (H k) as [v Hv]; [left|]. csimpl. rewrite Hv. csimpl. f_equal. apply IH.
  intros k' ?. apply H. by right.
Qed.

Lemma NoDup_map_sorted {V} (m : gmap string V) : NoDup (map_sorted m).
Proof. apply (NoDup_fmap_1 fst). rewrite map_sorted_fst. apply NoDup_set_sorted. Qed.

(** ** [min_by] *)

Lemma find_first_Some {A} (p : A → bool) l x : find_first p l = Some x → x ∈ l ∧ p x = true.
Proof.
  induction l as [|y l IH]; simpl; [done|]. destruct (p y) eqn:E.
  - intros [= <-]. split; [apply list_elem_of_here|done].
  - intros [? ?]%IH. split; [by apply list_elem_of_further|done].
Qed.

Lemma find_first_None {A} (p : A → bool) l : find_first p l = None ↔ ∀ x, x ∈ l → p x = false.
Proof.
  induction l as [|y l IH]; simpl.
  - split; [|done]. intros _ x Hx. by apply not_elem_of_nil in Hx.
  - destruct (p y) eqn:E.
    + split; [done|]. intros H. rewrite (H y) in E; [done|apply list_elem_of_here].
    + rewrite IH. split.
      * intros H x [->|Hx]%elem_of_cons; auto.
      * intros H x Hx. apply H. by apply list_elem_of_further.
Qed.

Lemma min_by_elem {A} (cmp : A → A → comparison) l x : min_by cmp l = Some x → x ∈ l.
Proof.
  destruct l as [|z l]; [done|]. unfold min_by. intros [= <-]. revert z.
  induction l as [|y l IH]; intros z; simpl; [set_solver|]. specialize (IH (
    match cmp z y with Gt => y | _ => z end)). destruct (cmp z y); set_solver.
Qed.

Section min_by.
Context {A : Type} (cmp : A → A → comparison) (R : relation A).
Context (HR : ∀ a b, cmp a b ≠ Gt ↔ R a b) `{!PreOrder R, !Total R}.

Lemma min_by_fold_spec l x :
  let m := foldl (λ best y, match cmp best y with Gt => y | _ => best end) x l in
  (m = x ∨ m ∈ l) ∧ R m x ∧ ∀ y, y ∈ l → R m y.
Proof using All.
  revert x. induction l as [|z l IH]; intros x; simpl.
  { split; [by left|]. split; [done|]. intros y Hy. set_solver. }
  set (x' := match cmp x z with Gt => z | _ => x end).
  assert (R x' x ∧ R x' z ∧ (x' = x ∨ x' = z)) as (Hx & Hz & Hor).
  { subst x'. destruct (cmp x z) eqn:E.
    - split; [done|]. split; [apply HR; by rewrite E|auto].
    - split; [done|]. split; [apply HR; by rewrite E|auto].
    - split; [|split; [done|by right]].
      destruct (total R x z) as [H|H]; [|done]. by apply HR in H. }
  destruct (IH x') as (Hm & Hmx & Hmin). split; [|split].
  - rewrite elem_of_cons. destruct Hm as [->|?]; [destruct Hor as [->| ->]|]; auto.
  - by transitivity x'.
  - intros y [->|?]%elem_of_cons; [by transitivity x'|auto].
Qed.

Lemma min_by_Some l x : min_by cmp l = Some x → x ∈ l ∧ ∀ y, y ∈ l → R x y.
Proof using All.
  destruct l as [|z l]; [done|]. unfold min_by. intros [= <-].
  destruct (min_by_fold_spec l z) as (Hm & Hz & Hmin). split.
  - destruct Hm as [->|?]; [left|by right].
  - intros y [->|?]%elem_of_cons; auto.
Qed.
End min_by.

Lemma min_by_is_Some {A} (cmp : A → A → comparison) l :
  is_Some (min_by cmp l) ↔ l ≠ [].
Proof. destruct l; simpl; split; [by intros []|done|done|eauto]. Qed.

Lemma min_by_None {A} (cmp : A → A → comparison) l : min_by cmp l = None ↔ l = [].
Proof. by destruct l. Qed.

(** The partial order is only consulted on the listed elements. *)
Lemma min_by_partial_spec {A} (cmp : A → A → option comparison) (P : A → Prop) l :
  (∀ a b, P a → P b → is_Some (cmp a b)) →
  (∀ a, P a → cmp a a ≠ Some Gt) →
  (∀ a b, P a → P b → cmp a b = Some Gt → cmp b a ≠ Some Gt) →
  (∀ a b c, P a → P b → P c → cmp a b ≠ Some Gt → cmp b c ≠ Some Gt → cmp a c ≠ Some Gt) →
  Forall P l →
  ∃ o, min_by_partial cmp l = Some o ∧
    match o with
    | None => l = []
    | Some x => x ∈ l ∧ ∀ y, y ∈ l → cmp x y ≠ Some Gt
    end.
Proof.
  intros Htot Hrefl Hanti Htrans HF. destruct l as [|x l]; [by exists None|].
  apply Forall_cons in HF as [Hx HF].
  assert (∃ m, foldl (λ acc y, best ← acc; c ← cmp best y;
                               Some (match c with Gt => y | _ => best end)) (Some x) l = Some m
    ∧ m ∈ x :: l ∧ P m ∧ ∀ y, y ∈ x :: l → cmp m y ≠ Some Gt) as (m & E & Hm & _ & Hmin).
  { induction l as [|z l IH] using rev_ind.
    { exists x. split; [done|]. split; [left|]. split; [done|].
      intros y ->%list_elem_of_singleton. auto. }
    apply Forall_app in HF as [HF [Hz _]%Forall_cons]. rewrite foldl_app.
    destruct (IH HF) as (m & -> & Hm & HPm & Hmin). simpl.
    destruct (Htot m z) as [c Hc]; [done..|]. rewrite Hc. simpl. eexists. split; [done|].
    rewrite app_comm_cons. setoid_rewrite elem_of_app. setoid_rewrite list_elem_of_singleton.
    assert (∀ y, y ∈ x :: l → P y) as HP.
    { intros y [->|Hy]%elem_of_cons; [done|]. rewrite Forall_forall in HF. auto. }
    destruct c.
    1,2: split; [by left|split; [done|]]; intros y [?| ->]; [auto|by rewrite Hc].
    split; [by right|split; [done|]]. intros y [Hy| ->]; [|auto]. eapply (Htrans _ m); auto. }
  exists (Some m). unfold min_by_partial. by rewrite E.
Qed.

(** ** Lists *)

Lemma elem_of_enumerate {A} (l : list A) i x : (i, x) ∈ enumerate l ↔ l !! i = Some x.
Proof.
  unfold enumerate. rewrite list_elem_of_lookup. split.
  - intros [j Hj]. rewrite list_lookup_imap in Hj. destruct (l !! j) eqn:E; naive_solver.
  - intros Hx. exists i. by rewrite list_lookup_imap, Hx.
Qed.

Lemma enumerate_snd {A} (l : list A) : (enumerate l).*2 = l.
Proof.
  apply list_eq. intros i. unfold enumerate.
  rewrite list_lookup_fmap, list_lookup_imap. by destruct (l !! i).
Qed.

Lemma enumerate_fst {A} (l : list A) : (enumerate l).*1 = seq 0 (length l).
Proof.
  unfold enumerate. rewrite fmap_imap, <-(list_fmap_id (seq _ _)).
  rewrite <-imap_seq_0. by apply imap_ext.
Qed.

Lemma windows2_cons {A} (x y : A) l : windows2 (x :: y :: l) = (x, y) :: windows2 (y :: l).
Proof. done. Qed.

Lemma elem_of_windows2 {A} (l : list A) p :
  p ∈ windows2 l ↔ ∃ i, l !! i = Some p.1 ∧ l !! S i = Some p.2.
Proof.
  induction l as [|x [|y l] IH]; [set_solver|set_solver|].
  rewrite windows2_cons, elem_of_cons, IH. split.
  - intros [->|(i & ? & ?)]; [by exists 0|by exists (S i)].
  - intros ([|i] & H1 & H2); simplify_eq/=; [left; by destruct p|right; eauto].
Qed.

Lemma filter_all {A} (P : A → Prop) `{∀ x, Decision (P x)} (l : list A) :
  (∀ x, x ∈ l → P x) → filter P l = l.
Proof.
  induction l as [|x l IH]; intros Hl; [done|].
  rewrite filter_cons_True by (apply Hl; left). f_equal. apply IH. intros; apply Hl; by right.
Qed.

Lemma filter_none {A} (P : A → Prop) `{∀ x, Decision (P x)} (l : list A) :
  (∀ x, x ∈ l → ¬ P x) → filter P l = [].
Proof.
  induction l as [|x l IH]; intros Hl; [done|].
  rewrite filter_cons_False by (apply Hl; left). apply IH. intros; apply Hl; by right.
Qed.

Lemma filter_nil_iff {A} (P : A → Prop) `{∀ x, Decision (P x)} (l : list A) :
  filter P l = [] ↔ ∀ x, x ∈ l → ¬ P x.
Proof.
  split.
  - intros H' x Hx HP. by apply (filter_nil_not_elem_of P l x).
  - by apply filter_none.
Qed.

Lemma mapM_omap {A B} (f : A → option B) l :
  (∀ x, x ∈ l → is_Some (f x)) → mapM f l = Some (omap f l).
Proof.
  induction l as [|x l IH]; intros Hl; [done|].
  destruct (Hl x) as [y Hy]; [left|].
  assert (mapM f l = Some (omap f l)) as IH' by (apply IH; intros; apply Hl; by right).
  simpl. by rewrite Hy, IH'.
Qed.

(** A list longer than a set it draws from repeats an element. *)
Lemma NoDup_length_set `{Countable A} (l : list A) (X : gset A) :
  NoDup l → (∀ x, x ∈ l → x ∈ X) → length l ≤ size X.
Proof.
  intros HN HX. rewrite <-(size_list_to_set (C:=gset A)) by done.
  apply subseteq_size. intros x. rewrite elem_of_list_to_set. auto.
Qed.

(** ** Sorting and collecting *)

Lemma elem_of_sort_strings l x : x ∈ sort_strings l ↔ x ∈ l.
Proof. unfold sort_strings. by rewrite merge_sort_Permutation. Qed.

Lemma dedup_cons x y l :
  dedup (x :: y :: l) = if decide (x = y) then dedup (y :: l) else x :: dedup (y :: l).
Proof. done. Qed.

Lemma elem_of_dedup l x : x ∈ dedup l ↔ x ∈ l.
Proof.
  induction l as [|y [|z l] IH]; [done..|]. rewrite dedup_cons. case_decide; subst.
  - rewrite IH, !elem_of_cons. naive_solver.
  - rewrite elem_of_cons, IH, !elem_of_cons. done.
Qed.

Lemma dedup_sorted l : StronglySorted String.le l → StronglySorted str_lt (dedup l).
Proof.
  induction l as [|y [|z l] IH]; intros HS; [constructor|repeat constructor|].
  inversion HS as [|?? HS' HF]; subst. rewrite dedup_cons. case_decide; subst; [auto|].
  constructor; [auto|]. apply Forall_forall. intros x Hx. rewrite elem_of_dedup in Hx.
  rewrite Forall_forall in HF.
  assert (String.le y z) as Hyz by (apply HF; left).
  assert (String.le z x) as Hzx.
  { apply elem_of_cons in Hx as [->|Hx]; [done|].
    inversion HS' as [|?? _ HF']; subst. rewrite Forall_forall in HF'. auto. }
  apply str_le_iff in Hyz as [Hyz| ->]; [|done].
  apply str_le_iff in Hzx as [Hzx| <-]; [by eapply str_lt_trans|done].
Qed.

(** Sorting and deduplicating lists the set. *)
Lemma dedup_sort_strings l :
  dedup (sort_strings l) = set_sorted (list_to_set l).
Proof.
  apply set_sorted_unique.
  - apply dedup_sorted, (StronglySorted_merge_sort _).
  - intros x. by rewrite elem_of_dedup, elem_of_sort_strings, elem_of_list_to_set.
Qed.

Lemma map_collect_app `{Countable K} {V} (l : list (K * V)) k v :
  map_collect (l ++ [(k, v)]) = <[k := v]> (map_collect l).
Proof. unfold map_collect. by rewrite foldl_app. Qed.

Lemma map_collect_dom `{Countable K} {V} (l : list (K * V)) k :
  is_Some (map_collect l !! k) ↔ k ∈ l.*1.
Proof.
  induction l as [|[k' v] l IH] using rev_ind.
  { unfold map_collect; simpl. rewrite lookup_empty. split; [by intros []|set_solver]. }
  rewrite map_collect_app, fmap_app, elem_of_app, <-IH, lookup_insert. simpl.
  rewrite list_elem_of_singleton. case_decide; naive_solver.
Qed.

Lemma map_collect_elem_of `{Countable K} {V} (l : list (K * V)) k v :
  map_collect l !! k = Some v → (k, v) ∈ l.
Proof.
  induction l as [|[k' v'] l IH] using rev_ind; [done|].
  rewrite map_collect_app, lookup_insert, elem_of_app, list_elem_of_singleton.
  case_decide; naive_solver.
Qed.

Lemma map_collect_lookup `{Countable K} {V} (l : list (K * V)) k v :
  NoDup l.*1 → map_collect l !! k = Some v ↔ (k, v) ∈ l.
Proof.
  intros HN. split; [apply map_collect_elem_of|]. intros Hin.
  assert (is_Some (map_collect l !! k)) as [v' Hv'].
  { apply map_collect_dom, list_elem_of_fmap. by exists (k, v). }
  rewrite Hv'. f_equal. apply map_collect_elem_of in Hv'.
  apply list_elem_of_lookup in Hin as [i Hi], Hv' as [j Hj].
  assert (i = j) as ->; [|naive_solver].
  eapply NoDup_lookup; [exact HN|by rewrite list_lookup_fmap, Hi|by rewrite list_lookup_fmap, Hj].
Qed.

(** ** Connectedness *)

#[global] Instance connected_equiv {A} (es : list (A * A)) : Equivalence (connected es).
Proof. unfold connected. split; apply _. Qed.

Lemma connected_edge {A} (es : list (A * A)) a b : (a, b) ∈ es → connected es a b.
Proof. intros. by apply rtsc_lr. Qed.

Lemma connected_mono {A} (es es' : list (A * A)) a b :
  (∀ x y, (x, y) ∈ es → (x, y) ∈ es' ∨ (y, x) ∈ es') →
  connected es a b → connected es' a b.
Proof.
  intros Hsub. apply rtc_subrel. intros x y [Hxy|Hxy]; apply Hsub in Hxy as [?|?];
    [by left|by right|by right|by left].
Qed.

Lemma connected_edge_sym {A} (es : list (A * A)) a b : (b, a) ∈ es → connected es a b.
Proof. intros. symmetry. by apply connected_edge. Qed.

(** A node no edge touches is connected to itself only. *)
Lemma connected_isolated {A} (es : list (A * A)) a b :
  connected es a b → a = b ∨ (∃ c, (a, c) ∈ es ∨ (c, a) ∈ es) ∧ (∃ c, (b, c) ∈ es ∨ (c, b) ∈ es).
Proof.
  intros H. destruct (rtc_inv _ _ H) as [->|(c & Hc & _)]; [by left|].
  destruct (rtc_inv_r _ _ H) as [->|(d & _ & Hd)]; [by left|]. right.
  split; [exists c|exists d]; [destruct Hc|destruct Hd]; unfold edge_of in *; auto.
Qed.

(** ** Automation

    [er] closes the side conditions on sorted listings and on connectedness;
    its rewrites turn membership in a listing into membership in what it lists. *)

Create HintDb er discriminated.
Create Rewrite HintDb er.
#[export] Hint Resolve NoDup_set_sorted NoDup_map_sorted set_sorted_strict : er.
#[export] Hint Resolve NoDup_filter : er.
#[export] Hint Resolve connected_edge connected_edge_sym : er.
#[export] Hint Resolve str_lt_le str_lt_trans : er.
#[export] Hint Rewrite elem_of_set_sorted elem_of_sort_strings elem_of_dedup @elem_of_map_sorted : er.
