(* ===== verification/Ids.v ===== *)
(** * Identity primitives

    [er-ids/src/lib.rs]: record keys, pair canonicalisation, the id factories
    and redirect resolution.  The lake timestamp is in [LakeClock].  The text of
    a ULID, the layout of a UUIDv7 and SHA-256 are third-party code: they are
    arguments of the definitions that use them. *)

From S2P Require Import Prelude.
From Stdlib Require Import Ascii.
From stdpp Require Import pretty.

(** ** Errors *)

(** The two [IdCycle] messages, by what they interpolate: the chain walked, or
    the start, the bound and the id reached. *)
Inductive CycleCause :=
| RedirectCycle (chain : list string)
| HopBound (entity_id : string) (max_hops : nat) (reached : string).

Inductive IdError :=
| EmptySourceSystem
| EmptySourceRecordId
| SeparatorInSourceSystem (s : string)
| SeparatorInSourceRecordId (s : string)
| NoSeparator (s : string)
| EmptySplitSystem (s : string)
| EmptySplitRecordId (s : string)
| PairSameKey (s : string)
| IdCycle (cause : CycleCause)
| BadTimestamp (s : string).

(** ** Strings *)

(** [str::contains(char)] and [str::split_once(char)] for an ASCII character. *)
Fixpoint contains (c : Ascii.ascii) (s : string) : bool :=
  match s with
  | EmptyString => false
  | String c' s => if decide (c' = c) then true else contains c s
  end.

Fixpoint split_once (c : Ascii.ascii) (s : string) : option (string * string) :=
  match s with
  | EmptyString => None
  | String c' s =>
      if decide (c' = c) then Some (EmptyString, s)
      else '(l, r) ← split_once c s; Some (String c' l, r)
  end.

(** [str::split(char)]. *)
Fixpoint split_on (c : Ascii.ascii) (s : string) : list string :=
  match s with
  | EmptyString => [EmptyString]
  | String c' s =>
      if decide (c' = c) then EmptyString :: split_on c s
      else match split_on c s with
           | [] => [String c' EmptyString]
           | w :: ws => String c' w :: ws
           end
  end.

(** ** Record keys *)

Definition RECORD_KEY_SEPARATOR : Ascii.ascii := ":"%char.
Definition separator : string := String RECORD_KEY_SEPARATOR EmptyString.
Definition DEFAULT_MAX_HOPS : nat := 64.

Definition record_key (source_system source_record_id : string) : result string IdError :=
  if decide (source_system = "") then Err EmptySourceSystem
  else if decide (source_record_id = "") then Err EmptySourceRecordId
  else if contains RECORD_KEY_SEPARATOR source_system
  then Err (SeparatorInSourceSystem source_system)
  else if contains RECORD_KEY_SEPARATOR source_record_id
  then Err (SeparatorInSourceRecordId source_record_id)
  else Ok (source_system +:+ separator +:+ source_record_id).

Definition split_record_key (key : string) : result (string * string) IdError :=
  match split_once RECORD_KEY_SEPARATOR key with
  | None => Err (NoSeparator key)
  | Some (EmptyString, _) => Err (EmptySplitSystem key)
  | Some (_, EmptyString) => Err (EmptySplitRecordId key)
  | Some (ss, srid) => Ok (ss, srid)
  end.

Definition canonicalize_pair (a b : string) : result (string * string) IdError :=
  if decide (a = b) then Err (PairSameKey a)
  else Ok (if str_ltb a b then (a, b) else (b, a)).

(** ** Id factories

    [IdFactory::new_id] takes [&self] and mutates a cell: state passing.
    [None] is a panic. *)

Class IdFactory (F : Type) := new_id : F → option (string * F).

(** [n] mints in sequence. *)
Fixpoint mint `{IdFactory F} (n : nat) (f : F) : option (list string * F) :=
  match n with
  | 0 => Some ([], f)
  | S n =>
      '(id, f) ← new_id f;
      '(ids, f) ← mint n f;
      Some (id :: ids, f)
  end.

(** What a factory promises its clients: no id is handed out twice. *)
Class DistinctIds `{IdFactory F} (f : F) : Prop :=
  mint_distinct n ids f' : mint n f = Some (ids, f') → NoDup ids.

Section factories.
Context (ulid_text : Z → string).                 (* [Ulid(value).to_string()] *)
Context (uuid_text : Z → list Z → string).        (* UUIDv7 of a timestamp and 10 random bytes *)

Record CountingIdFactory := mkCounting { counting_next : Z }.

(** [self.next.set(value + 1)] on a [u128] panics at the top of its range. *)
Definition CountingIdFactory_factory : IdFactory CountingIdFactory := λ f,
  let value := counting_next f in
  if decide (value + 1 < 2 ^ 128)%Z
  then Some (ulid_text value, mkCounting (value + 1))
  else None.

(** [u64::to_be_bytes]. *)
Definition to_be_bytes (v : Z) : list Z :=
  (λ i, Z.land (Z.shiftr v (8 * i)) 255) <$> [7; 6; 5; 4; 3; 2; 1; 0]%Z.

(** [deterministic_v7]: two zero bytes, then the counter big-endian. *)
Definition deterministic_v7 (unix_ts_ms counter : Z) : option string :=
  if decide (counter < 2 ^ 62)%Z
  then Some (uuid_text unix_ts_ms ([0; 0]%Z ++ to_be_bytes counter))
  else None.

Record DeterministicV7Factory := mkV7 { unix_ts_ms : Z; v7_next : Z }.

Definition DeterministicV7Factory_factory : IdFactory DeterministicV7Factory := λ f,
  let value := v7_next f in
  id ← deterministic_v7 (unix_ts_ms f) value;
  Some (id, mkV7 (unix_ts_ms f) (value + 1)).
End factories.

(** ** Content-derived ids *)

Definition hex_digit (n : Z) : Ascii.ascii :=
  Ascii.ascii_of_N (Z.to_N (if (n <? 10)%Z then n + 48 else n + 87)).

(** [write!(out, "{byte:02x}")] over the digest bytes. *)
Definition hex_of (digest : list Z) : string :=
  foldr (λ b acc, String (hex_digit (Z.shiftr b 4)) (String (hex_digit (Z.land b 15)) acc))
    EmptyString digest.

(** The bytes [natural_id] feeds the hasher. *)
Definition natural_preimage (relation : string) (parts : list string) : string :=
  foldl (λ acc part, acc +:+ separator +:+ part) relation parts.

Definition natural_id (sha256 : string → list Z) (relation : string) (parts : list string) : string :=
  hex_of (sha256 (natural_preimage relation parts)).

(** ** Redirects *)

(** The loop of [resolve]: [seen] grows by one per hop, and the bound stops it
    after [max_hops], so [S max_hops] turns are enough. *)
Fixpoint resolve_loop (fuel : nat) (entity_id : string) (redirects : gmap string string)
    (max_hops : nat) (seen : list string) (current : string) : option (result string IdError) :=
  match fuel with
  | 0 => None
  | S fuel =>
      match redirects !! current with
      | None => Some (Ok current)
      | Some nxt =>
          if decide (nxt ∈ seen)
          then Some (Err (IdCycle (RedirectCycle (seen ++ [nxt]))))
          else if decide (max_hops < length seen)
          then Some (Err (IdCycle (HopBound entity_id max_hops current)))
          else resolve_loop fuel entity_id redirects max_hops (seen ++ [nxt]) nxt
      end
  end.

Definition resolve (entity_id : string) (redirects : gmap string string) (max_hops : nat) :
    option (result string IdError) :=
  resolve_loop (S max_hops) entity_id redirects max_hops [entity_id] entity_id.

(** The redirect relation, and reaching an entity in [n] hops. *)
Definition redirect (redirects : gmap string string) : relation string :=
  λ a b, redirects !! a = Some b.

(** ** Record-key lemmas *)

Lemma contains_app c a b : contains c (a +:+ b) = contains c a || contains c b.
Proof. induction a as [|c' a IH]; [done|]. simpl. case_decide; [done|]. apply IH. Qed.

Lemma split_once_app c a b :
  contains c a = false → split_once c (a +:+ String c b) = Some (a, b).
Proof.
  induction a as [|c' a IH]; simpl; intros Ha; [by rewrite decide_True|].
  destruct (decide (c' = c)); [done|]. by rewrite IH.
Qed.

Lemma split_once_Some c s a b :
  split_once c s = Some (a, b) → s = a +:+ String c b ∧ contains c a = false.
Proof.
  revert a b. induction s as [|c' s IH]; intros a b; simpl; [done|].
  case_decide as Hc; [intros [= <- <-]; by subst|].
  intros ([a' b'] & E & [= <- <-])%bind_Some. destruct (IH _ _ E) as [-> Ha]. simpl.
  split; [done|]. by rewrite decide_False.
Qed.

Lemma split_once_None c s : split_once c s = None ↔ contains c s = false.
Proof.
  induction s as [|c' s IH]; simpl; [done|]. case_decide; [done|].
  destruct (split_once c s) as [[]|] eqn:E; simpl; rewrite <-IH; done.
Qed.

(** [record_key] and [split_record_key] are mutually inverse: the key of
    [(ss, srid)] is the string that splits back into it with no separator left
    in the record id. *)
Theorem record_key_split_iff ss srid k :
  record_key ss srid = Ok k ↔
    split_record_key k = Ok (ss, srid) ∧ contains RECORD_KEY_SEPARATOR srid = false.
Proof.
  unfold record_key, split_record_key. split.
  - repeat case_decide; try done.
    destruct (contains _ ss) eqn:Hss; [done|]. destruct (contains _ srid) eqn:Hsr; [done|].
    intros [= <-]. split; [|done].
    change (separator +:+ srid) with (String RECORD_KEY_SEPARATOR srid).
    rewrite split_once_app by done. by destruct ss, srid.
  - destruct (split_once _ k) as [[[|c ss'] [|d sr']]|] eqn:E; try by intros [].
    intros [[= <- <-] Hsr]. apply split_once_Some in E as [-> Hss].
    rewrite !decide_False by done. by rewrite Hss, Hsr.
Qed.

Lemma canonicalize_pair_spec a b :
  (∀ x y, canonicalize_pair a b = Ok (x, y) ↔
     str_lt x y ∧ (x = a ∧ y = b ∨ x = b ∧ y = a))
  ∧ (∀ e, canonicalize_pair a b = Err e ↔ a = b ∧ e = PairSameKey a)
  ∧ canonicalize_pair a b = canonicalize_pair b a.
Proof.
  unfold canonicalize_pair. destruct (decide (a = b)) as [->|Hne].
  { rewrite decide_True by done. split; [|naive_solver].
    intros x y. split; [done|]. intros [Hlt ?]. assert (x = y) as -> by naive_solver.
    by apply str_lt_irrefl in Hlt. }
  rewrite decide_False by done.
  destruct (str_ltb a b) eqn:Hab.
  - pose proof (proj1 (str_ltb_lt a b) Hab) as Hlt.
    assert (str_ltb b a = false) as -> by (apply str_ltb_ge; auto with er).
    pose proof (str_lt_antisym a b Hlt). naive_solver.
  - assert (str_lt b a) as Hlt.
    { destruct (str_lt_total a b) as [Hl|[?|?]]; [|done|done].
      apply str_ltb_lt in Hl. congruence. }
    rewrite (proj2 (str_ltb_lt b a) Hlt).
    pose proof (str_lt_antisym b a Hlt). naive_solver.
Qed.

(** [canonicalize_pair] returns the two keys in strict byte order whichever
    way round they are given, and refuses exactly a repeated key. *)
Theorem canonicalize_pair_correct a b :
  (∀ x y, canonicalize_pair a b = Ok (x, y) ↔
     str_lt x y ∧ (x = a ∧ y = b ∨ x = b ∧ y = a))
  ∧ (∀ e, canonicalize_pair a b = Err e ↔ a = b ∧ e = PairSameKey a)
  ∧ canonicalize_pair a b = canonicalize_pair b a.
Proof. apply canonicalize_pair_spec. Qed.

(** ** Redirect lemmas *)

Section redirects.
Context (redirects : gmap string string).
Abbreviation hops := (nsteps (redirect redirects)).

Lemma hops_det n m x e e' :
  hops n x e → hops m x e' → redirects !! e = None → redirects !! e' = None →
  n = m ∧ e = e'.
Proof.
  intros Hn. revert m e'. induction Hn as [x|n x y e Hxy _ IH]; intros m e' Hm He He'.
  - inversion Hm as [|? ? z ? Hz]; subst; [done|]. unfold redirect in Hz. congruence.
  - unfold redirect in Hxy. inversion Hm as [|? ? z ? Hz]; subst; [congruence|].
    unfold redirect in Hz. simplify_eq. edestruct IH; [eassumption|done|done|]. naive_solver.
Qed.

Lemma hops_fun n x y z : hops n x y → hops n x z → y = z.
Proof.
  intros Hy. revert z. induction Hy as [x|n x w y Hxw _ IH]; intros z Hz;
    inversion Hz; subst; [done|]. unfold redirect in *. simplify_eq. auto.
Qed.

(** Any other chain from the same start is a prefix of a terminating one. *)
Lemma hops_prefix n j x y e :
  hops n x e → redirects !! e = None → hops j x y → j ≤ n ∧ hops (n - j) y e.
Proof.
  intros Hn He Hj. destruct (decide (j ≤ n)) as [Hle|Hgt].
  - split; [done|]. replace n with (j + (n - j)) in Hn by lia.
    apply nsteps_add_inv in Hn as (z & Hz & Hze). by rewrite (hops_fun j x y z).
  - exfalso. replace j with (n + S (j - n - 1)) in Hj by lia.
    apply nsteps_add_inv in Hj as (z & Hz & Hzy). rewrite (hops_fun n x z e) in Hzy by done.
    inversion Hzy as [|? ? w ? Hw]; subst. unfold redirect in Hw. congruence.
Qed.

(** A terminating chain never returns to where it was. *)
Lemma hops_no_return n k x e :
  hops n x e → redirects !! e = None → hops (S k) x x → False.
Proof.
  intros Hn He Hk. destruct (hops_det (S k + n) n x e e) as [? _]; [|done..|lia].
  by eapply nsteps_trans.
Qed.

(** What the [seen] vector holds: the chain from the start to the current id. *)
Inductive chain (start : string) : list string → string → Prop :=
| chain_nil : chain start [start] start
| chain_snoc l x y : chain start l x → redirects !! x = Some y → chain start (l ++ [y]) y.

Lemma chain_hops start l x : chain start l x → hops (pred (length l)) start x.
Proof.
  induction 1 as [|l x y Hl IH Hxy]; [constructor|].
  rewrite length_app. simpl. replace (pred (length l + 1)) with (S (pred (length l))).
  - by eapply nsteps_r.
  - assert (0 < length l); [|lia]. inversion Hl; [simpl; lia|]. rewrite length_app; simpl; lia.
Qed.

Lemma chain_elem start l x y :
  chain start l x → y ∈ l → ∃ k, hops k y x.
Proof.
  induction 1 as [|l x z Hl IH Hxz].
  - intros ->%list_elem_of_singleton. exists 0. constructor.
  - intros [Hy| ->%list_elem_of_singleton]%elem_of_app.
    + destruct (IH Hy) as [k Hk]. exists (S k). by eapply nsteps_r.
    + exists 0. constructor.
Qed.

Lemma resolve_loop_spec fuel start max_hops seen current :
  chain start seen current → max_hops + 2 ≤ fuel + length seen → length seen ≤ S max_hops →
  ∃ r, resolve_loop fuel start redirects max_hops seen current = Some r ∧
    match r with
    | Ok e => redirects !! e = None ∧ ∃ n, n + pred (length seen) ≤ max_hops ∧ hops n current e
    | Err (IdCycle (RedirectCycle c)) => ∃ l x y, c = l ++ [y] ∧ chain start l x
                                          ∧ redirects !! x = Some y ∧ y ∈ l
    | Err (IdCycle (HopBound s m x)) => s = start ∧ m = max_hops
        ∧ hops max_hops start x ∧ is_Some (redirects !! x)
    | Err _ => False
    end.
Proof.
  revert seen current. induction fuel as [|fuel IH]; intros seen current Hc Hf Hl; [lia|].
  assert (0 < length seen) as Hpos by (inversion Hc; rewrite ?length_app; simpl; lia).
  simpl. destruct (redirects !! current) as [nxt|] eqn:Hn.
  2: { eexists. split; [done|]. split; [done|]. exists 0. split; [lia|constructor]. }
  case_decide as Hin; [|case_decide as Hlen].
  - eexists. split; [done|]. by exists seen, current, nxt.
  - eexists. split; [done|]. split; [done|]. split; [done|]. split; [|eauto].
    apply chain_hops in Hc. by replace max_hops with (pred (length seen)) by lia.
  - destruct (IH (seen ++ [nxt]) nxt) as (r & -> & Hr).
    + by econstructor.
    + rewrite length_app. simpl. lia.
    + rewrite length_app. simpl. lia.
    + exists r. split; [done|]. destruct r as [e|e]; [|done].
      destruct Hr as (He & n & Hle & Hn'). split; [done|]. exists (S n).
      rewrite length_app in Hle. simpl in Hle. split; [lia|]. by econstructor.
Qed.
End redirects.

(** [resolve] always answers; it answers [Ok e] exactly when following the
    redirects from the id ends at [e] in at most [max_hops] hops. *)
Theorem resolve_ok_iff entity_id redirects max_hops :
  (∃ r, resolve entity_id redirects max_hops = Some r)
  ∧ ∀ e, resolve entity_id redirects max_hops = Some (Ok e) ↔
      redirects !! e = None
      ∧ ∃ n, n ≤ max_hops ∧ nsteps (redirect redirects) n entity_id e.
Proof.
  destruct (resolve_loop_spec redirects (S max_hops) entity_id max_hops [entity_id] entity_id)
    as (r & E & Hr); [constructor|simpl; lia..|].
  unfold resolve. rewrite E. split; [eauto|]. intros e. split.
  - intros [= ->]. destruct Hr as (He & n & Hle & Hn). split; [done|]. exists n.
    simpl in Hle. split; [lia|done].
  - intros (He & n & Hle & Hn). f_equal.
    destruct r as [e'|[| | | | | | | |[c|s m x]|]]; try done.
    + destruct Hr as (He' & m & _ & Hm).
      by destruct (hops_det redirects m n entity_id e' e Hm Hn He' He) as [_ ->].
    + destruct Hr as (l & x & y & -> & Hl & Hxy & Hin). exfalso.
      destruct (chain_elem _ _ _ _ _ Hl Hin) as [k Hk].
      pose proof (nsteps_r _ _ _ _ (chain_hops _ _ _ _ Hl) Hxy) as Hj.
      destruct (hops_prefix redirects n _ entity_id y e Hn He Hj) as [_ Hi].
      eapply (hops_no_return redirects _ k y e); [done..|]. by eapply nsteps_r.
    + destruct Hr as (-> & -> & Hx & [y Hy]). exfalso.
      destruct (hops_prefix redirects n _ entity_id x e Hn He Hx) as [Hm Hi].
      replace (n - max_hops) with 0 in Hi by lia. inversion Hi; subst. congruence.
Qed.

(** ** Content ids *)

Lemma str_app_assoc (a b c : string) : a +:+ (b +:+ c) = (a +:+ b) +:+ c.
Proof. induction a as [|x a IH]; [done|]. unfold String.append in *. fold String.append in *. f_equal. apply IH. Qed.

Lemma str_app_nil_r (a : string) : a +:+ "" = a.
Proof. induction a as [|x a IH]; [done|]. unfold String.append in *. fold String.append in *. f_equal. apply IH. Qed.

(** The part of the preimage after the relation. *)
Definition part_text (parts : list string) : string :=
  foldr (λ part acc, String RECORD_KEY_SEPARATOR (part +:+ acc)) EmptyString parts.

Lemma natural_preimage_text r parts : natural_preimage r parts = r +:+ part_text parts.
Proof.
  unfold natural_preimage. revert r. induction parts as [|p parts IH]; intros r; simpl.
  { by rewrite str_app_nil_r. }
  rewrite IH. rewrite <-!str_app_assoc. done.
Qed.

(** A well-formed record key: what [record_key] produces. *)
Definition is_record_key (k : string) : Prop := ∃ ss srid, record_key ss srid = Ok k.

Lemma is_record_key_split k :
  is_record_key k → ∃ ss srid, k = ss +:+ String RECORD_KEY_SEPARATOR srid
    ∧ contains RECORD_KEY_SEPARATOR ss = false ∧ contains RECORD_KEY_SEPARATOR srid = false.
Proof.
  intros (ss & srid & Hk). unfold record_key in Hk. repeat case_decide; try done.
  destruct (contains _ ss) eqn:?; [done|]. destruct (contains _ srid) eqn:?; [done|].
  simplify_eq. by exists ss, srid.
Qed.

(** Reading one field up to the next separator. *)
Lemma field_inj a b x y :
  contains RECORD_KEY_SEPARATOR a = false → contains RECORD_KEY_SEPARATOR b = false →
  (x = EmptyString ∨ ∃ x', x = String RECORD_KEY_SEPARATOR x') →
  (y = EmptyString ∨ ∃ y', y = String RECORD_KEY_SEPARATOR y') →
  a +:+ x = b +:+ y → a = b ∧ x = y.
Proof.
  intros Ha Hb Hx Hy E.
  assert (∀ a x, contains RECORD_KEY_SEPARATOR a = false →
    (x = EmptyString ∨ ∃ x', x = String RECORD_KEY_SEPARATOR x') →
    split_once RECORD_KEY_SEPARATOR (a +:+ x) =
      match x with EmptyString => None | String _ x' => Some (a, x') end) as Hsplit.
  { clear. intros a x Ha [->|[x' ->]].
    - rewrite str_app_nil_r. by apply split_once_None.
    - by apply split_once_app. }
  pose proof (Hsplit a x Ha Hx) as H1. pose proof (Hsplit b y Hb Hy) as H2.
  rewrite E, H2 in H1.
  destruct Hx as [->|[x' ->]], Hy as [->|[y' ->]]; try done.
  - rewrite !str_app_nil_r in E. done.
  - by simplify_eq.
Qed.

Lemma part_text_shape parts :
  part_text parts = EmptyString ∨ ∃ x', part_text parts = String RECORD_KEY_SEPARATOR x'.
Proof. destruct parts; simpl; eauto. Qed.

Lemma part_text_inj ks ks' :
  Forall is_record_key ks → Forall is_record_key ks' → part_text ks = part_text ks' → ks = ks'.
Proof.
  intros Hks. revert ks'. induction Hks as [|k ks Hk _ IH]; intros ks' Hks' E.
  { by destruct Hks'. }
  destruct Hks' as [|k' ks' Hk' Hks']; [done|]. simpl in E.
  destruct (is_record_key_split k Hk) as (a & b & -> & Ha & Hb).
  destruct (is_record_key_split k' Hk') as (a' & b' & -> & Ha' & Hb').
  rewrite <-!str_app_assoc in E. simpl in E. injection E as E.
  apply field_inj in E as [-> E]; [|done|done|by eauto|by eauto].
  injection E as E. apply field_inj in E as [-> E]; try done; [|apply part_text_shape..].
  by rewrite (IH ks').
Qed.

(** The natural-key recipe is unambiguous on record keys: over relation
    names without a separator, two lists of well-formed record keys that feed
    the hasher the same bytes are the same list of the same relation, although
    every record key itself contains the separator. *)
Theorem natural_preimage_injective r r' ks ks' :
  contains RECORD_KEY_SEPARATOR r = false → contains RECORD_KEY_SEPARATOR r' = false →
  Forall is_record_key ks → Forall is_record_key ks' →
  natural_preimage r ks = natural_preimage r' ks' → r = r' ∧ ks = ks'.
Proof.
  intros Hr Hr' Hks Hks'. rewrite !natural_preimage_text. intros E.
  apply field_inj in E as [-> E]; [|done|done|apply part_text_shape..].
  split; [done|]. by apply part_text_inj.
Qed.

Lemma natural_preimage_injective_witness :
  natural_preimage "review_queue" ["crm:1"; "crm:2"]
    = natural_preimage "review_queue" ["crm:1"; "crm:2"]
  ∧ ("review_queue" = "review_queue" ∧ ["crm:1"; "crm:2"] = ["crm:1"; "crm:2"]).
Proof.
  split; [reflexivity|].
  apply natural_preimage_injective; [reflexivity|reflexivity| | |reflexivity];
    (constructor; [by exists "crm", "1"|]); (constructor; [by exists "crm", "2"|]);
    constructor.
Defined.

(** ** Distinct mints *)

(** The 74 random bits a UUIDv7 keeps of its ten random bytes: the version takes
    the top four bits of the first, the variant the top two of the third. *)
Definition v7_payload (r : list Z) : list Z :=
  match r with
  | b0 :: b1 :: b2 :: r => Z.land b0 15 :: b1 :: Z.land b2 63 :: r
  | _ => r
  end.

Lemma to_be_bytes_payload_inj c c' :
  (0 ≤ c < 2 ^ 62)%Z → (0 ≤ c' < 2 ^ 62)%Z →
  v7_payload ([0; 0]%Z ++ to_be_bytes c) = v7_payload ([0; 0]%Z ++ to_be_bytes c') → c = c'.
Proof.
  intros Hc Hc' E. apply Z.bits_inj'. intros n Hn.
  destruct (decide (62 ≤ n)%Z) as [Hge|Hlt].
  { rewrite !Z.bits_above_log2; [done|lia| |lia|].
    - destruct (decide (c' = 0)%Z) as [->|]; [simpl; lia|]. apply Z.log2_lt_pow2; [lia|].
      assert (2 ^ 62 ≤ 2 ^ n)%Z by (apply Z.pow_le_mono_r; lia). lia.
    - destruct (decide (c = 0)%Z) as [->|]; [simpl; lia|]. apply Z.log2_lt_pow2; [lia|].
      assert (2 ^ 62 ≤ 2 ^ n)%Z by (apply Z.pow_le_mono_r; lia). lia. }
  unfold to_be_bytes in E. simpl in E. injection E as E7 E6 E5 E4 E3 E2 E1 E0.
  assert (∀ i m, (0 ≤ i)%Z → (0 ≤ n - i < m)%Z →
    Z.land (Z.land (Z.shiftr c i) 255) (Z.ones m) = Z.land (Z.land (Z.shiftr c' i) 255) (Z.ones m) →
    (m ≤ 8)%Z → Z.testbit c n = Z.testbit c' n) as Hbit.
  { intros i m Hi Hm Hland Hm8. apply (f_equal (λ z, Z.testbit z (n - i))) in Hland.
    rewrite !Z.land_spec, !Z.shiftr_spec, Z.ones_spec_low in Hland by lia.
    change 255%Z with (Z.ones 8) in Hland. rewrite Z.ones_spec_low in Hland by lia.
    rewrite !andb_true_r in Hland. by replace (n - i + i)%Z with n in Hland by lia. }
  destruct (decide (n < 8)%Z); [apply (Hbit 0 8)%Z; [lia|lia|exact (f_equal (λ z, Z.land z (Z.ones 8)) E0)|lia]|].
  destruct (decide (n < 16)%Z); [apply (Hbit 8 8)%Z; [lia|lia|exact (f_equal (λ z, Z.land z (Z.ones 8)) E1)|lia]|].
  destruct (decide (n < 24)%Z); [apply (Hbit 16 8)%Z; [lia|lia|exact (f_equal (λ z, Z.land z (Z.ones 8)) E2)|lia]|].
  destruct (decide (n < 32)%Z); [apply (Hbit 24 8)%Z; [lia|lia|exact (f_equal (λ z, Z.land z (Z.ones 8)) E3)|lia]|].
  destruct (decide (n < 40)%Z); [apply (Hbit 32 8)%Z; [lia|lia|exact (f_equal (λ z, Z.land z (Z.ones 8)) E4)|lia]|].
  destruct (decide (n < 48)%Z); [apply (Hbit 40 8)%Z; [lia|lia|exact (f_equal (λ z, Z.land z (Z.ones 8)) E5)|lia]|].
  destruct (decide (n < 56)%Z); [apply (Hbit 48 8)%Z; [lia|lia|exact (f_equal (λ z, Z.land z (Z.ones 8)) E6)|lia]|].
  apply (Hbit 56 6)%Z; [lia|lia|exact E7|lia].
Qed.

Section distinct.
Context (uuid_text : Z → list Z → string).
(** RFC 9562: the text of a UUIDv7 determines the random bits it keeps. *)
Context (Huuid : ∀ ts r r', uuid_text ts r = uuid_text ts r' → v7_payload r = v7_payload r').

#[local] Instance v7_factory : IdFactory DeterministicV7Factory :=
  DeterministicV7Factory_factory uuid_text.

Lemma mint_v7_elem n ts v ids f' id :
  (0 ≤ v)%Z → mint n (mkV7 ts v) = Some (ids, f') → id ∈ ids →
  ∃ c, (v ≤ c < 2 ^ 62)%Z ∧ id = uuid_text ts ([0; 0]%Z ++ to_be_bytes c).
Proof.
  revert v ids f'. induction n as [|n IH]; intros v ids f' Hv; simpl; [intros [= <- <-]; set_solver|].
  unfold new_id, v7_factory, DeterministicV7Factory_factory, deterministic_v7; simpl.
  case_decide as Hlt; [|done]. simpl.
  destruct (mint n (mkV7 ts (v + 1))) as [[ids' f]|] eqn:E; [|done]. simpl.
  intros [= <- <-] [->|Hin]%elem_of_cons.
  - exists v. split; [lia|done].
  - destruct (IH (v + 1)%Z ids' f ltac:(lia) E Hin) as (c & ? & ->). exists c. split; [lia|done].
Qed.

Lemma mint_v7_NoDup n ts v ids f' :
  (0 ≤ v)%Z → mint n (mkV7 ts v) = Some (ids, f') → NoDup ids.
Proof using Huuid.
  revert v ids f'. induction n as [|n IH]; intros v ids f' Hv; simpl; [intros [= <- <-]; constructor|].
  unfold new_id, v7_factory, DeterministicV7Factory_factory, deterministic_v7; simpl.
  case_decide as Hlt; [|done]. simpl.
  destruct (mint n (mkV7 ts (v + 1))) as [[ids' f]|] eqn:E; [|done]. simpl.
  intros [= <- <-]. constructor; [|by apply (IH (v + 1)%Z ids' f); [lia|]].
  intros Hin. destruct (mint_v7_elem n ts (v + 1)%Z ids' f _ ltac:(lia) E Hin) as (c & Hc & Heq).
  apply Huuid, to_be_bytes_payload_inj in Heq; [|split; lia|split; lia]. lia.
Qed.
End distinct.

(** The deterministic UUIDv7 stream never repeats an id: whatever the clock
    and the start, every run of mints that does not trip the 62-bit counter
    assertion yields pairwise distinct ids. *)
Theorem deterministic_v7_mints_distinct uuid_text n ts start ids f' :
  (∀ ts r r', uuid_text ts r = uuid_text ts r' → v7_payload r = v7_payload r') →
  (0 ≤ start)%Z →
  @mint _ (DeterministicV7Factory_factory uuid_text) n (mkV7 ts start) = Some (ids, f') →
  NoDup ids.
Proof. intros Huuid Hstart Hmint. by eapply mint_v7_NoDup. Qed.

Lemma deterministic_v7_mints_distinct_witness :
  let text := λ (_ : Z) r, pretty (Npos (encode (v7_payload r))) in
  ∃ ids f', @mint _ (DeterministicV7Factory_factory text) 3 (mkV7 1700000000000 7) = Some (ids, f')
    ∧ NoDup ids.
Proof.
  eexists _, _. split; [reflexivity|].
  eapply (deterministic_v7_mints_distinct
    (λ (_ : Z) r, pretty (Npos (encode (v7_payload r)))) 3 1700000000000 7);
    [|lia|reflexivity].
  intros _ r r' E. apply (inj pretty) in E. injection E as E. by apply (inj encode) in E.
Defined.

Lemma mint_length `{IdFactory F} n (f : F) ids f' : mint n f = Some (ids, f') → length ids = n.
Proof.
  revert f ids. induction n as [|n IH]; intros f ids; simpl; [by intros [= <- <-]|].
  intros ([id f1] & _ & ([ids1 f2] & Hm & [= <- <-])%bind_Some)%bind_Some.
  simpl. f_equal. by eapply IH.
Qed.

(** Both factories keep the promise. *)
Lemma v7_distinct uuid_text ts start :
  (∀ ts r r', uuid_text ts r = uuid_text ts r' → v7_payload r = v7_payload r') →
  (0 ≤ start)%Z →
  @DistinctIds _ (DeterministicV7Factory_factory uuid_text) (mkV7 ts start).
Proof. intros Huuid Hstart n ids f' Hmint. by eapply mint_v7_NoDup. Qed.

Lemma counting_step ulid_text v id f :
  @new_id _ (CountingIdFactory_factory ulid_text) (mkCounting v) = Some (id, f) →
  id = ulid_text v ∧ f = mkCounting (v + 1).
Proof.
  unfold new_id, CountingIdFactory_factory. case_decide; [|done]. by intros [= <- <-].
Qed.

Lemma mint_counting_elem ulid_text n v ids f' id :
  @mint _ (CountingIdFactory_factory ulid_text) n (mkCounting v) = Some (ids, f') →
  id ∈ ids → ∃ w, (v ≤ w)%Z ∧ id = ulid_text w.
Proof.
  revert v ids. induction n as [|n IH]; intros v ids; simpl; [by intros [= <- <-] ?%elem_of_nil|].
  intros ([id0 f0] & [-> ->]%counting_step & ([ids1 f2] & Hm & [= <- <-])%bind_Some)%bind_Some
    [->|Hin]%elem_of_cons.
  - exists v. split; [lia|done].
  - destruct (IH _ _ Hm Hin) as (w & ? & ->). exists w. split; [lia|done].
Qed.

#[global] Instance counting_distinct ulid_text v `{!Inj (=) (=) ulid_text} :
  @DistinctIds _ (CountingIdFactory_factory ulid_text) (mkCounting v).
Proof.
  intros n. revert v. induction n as [|n IH]; intros v ids f'; simpl;
    [intros [= <- <-]; constructor|].
  intros ([id0 f0] & [-> ->]%counting_step & ([ids1 f2] & Hm & [= <- <-])%bind_Some)%bind_Some.
  constructor; [|by eapply IH].
  intros Hin. destruct (mint_counting_elem _ _ _ _ _ _ Hm Hin) as (w & ? & E%(inj _)). lia.
Qed.
