(* ===== verification/Json.v ===== *)
(** * JSON values

    The [serde_json::Value]s the sources build and read.  An object lists its
    fields in key order, as [serde_json]'s map does; a number is an integer
    or an [f64]. *)

From S2P Require Import Prelude.
From Stdlib Require Import SpecFloat.

(** ** Definitions *)

Inductive json :=
| JNull
| JBool (b : bool)
| JInt (z : Z)
| JFloat (f : spec_float)
| JString (s : string)
| JArray (l : list json)
| JObject (fields : list (string * json)).

Definition json_keys (l : list string) : json := JArray (JString <$> l).

Fixpoint field (k : string) (fields : list (string * json)) : option json :=
  match fields with
  | [] => None
  | (k', v) :: fields => if decide (k' = k) then Some v else field k fields
  end.

(** [Value::get] with a string index. *)
Definition json_get (v : json) (k : string) : option json :=
  match v with JObject fields => field k fields | _ => None end.

(** [Value::as_str], [as_i64], [as_u64], [as_bool], [as_array]. *)
Definition as_str (v : json) : option string :=
  match v with JString s => Some s | _ => None end.

Definition as_i64 (v : json) : option Z :=
  match v with
  | JInt z => if decide (- 2 ^ 63 ≤ z < 2 ^ 63)%Z then Some z else None
  | _ => None
  end.

Definition as_u64 (v : json) : option Z :=
  match v with
  | JInt z => if decide (0 ≤ z < 2 ^ 64)%Z then Some z else None
  | _ => None
  end.

Definition as_bool (v : json) : option bool :=
  match v with JBool b => Some b | _ => None end.

Definition as_array (v : json) : option (list json) :=
  match v with JArray l => Some l | _ => None end.

(** The fields of a struct that are not skipped. *)
Definition present (l : list (string * option json)) : list (string * json) :=
  omap (λ '(k, v), (k,.) <$> v) l.

Definition skip_if (b : bool) (v : json) : option json := if b then None else Some v.

(** [Value::from(f64)]: a number that is not finite is [null]. *)
Definition f64_json (x : spec_float) : json :=
  match x with S754_zero _ | S754_finite _ _ _ => JFloat x | _ => JNull end.

(** ** Lemmas *)

Lemma present_keys l k x : k ∉ l.*1 → (k, x) ∉ present l.
Proof.
  intros Hk ([k0 v0] & Hin & Hx)%list_elem_of_omap. apply Hk.
  destruct v0; simpl in Hx; [|done]. injection Hx as -> ->. by apply (list_elem_of_fmap_2 fst) in Hin.
Qed.

Lemma present_cons k v l :
  present ((k, v) :: l) = match v with Some x => (k, x) :: present l | None => present l end.
Proof. by destruct v. Qed.

Lemma present_inj l l' :
  l.*1 = l'.*1 → NoDup l.*1 → present l = present l' → l = l'.
Proof.
  revert l'. induction l as [|[k v] l IH]; intros [|[k' v'] l'] E Hnd Hp; try done.
  rewrite !fmap_cons in E. apply (inj2 cons) in E as [E0 E]. simpl in E0. subst k'.
  rewrite fmap_cons in Hnd. apply NoDup_cons in Hnd as [Hk Hnd]. simpl in Hk. rewrite !present_cons in Hp.
  destruct v as [x|], v' as [x'|].
  - injection Hp as -> Hp. f_equal. by apply IH.
  - destruct (present_keys l' k x); [by rewrite <- E|]. rewrite <- Hp. left.
  - destruct (present_keys l k x'); [done|]. rewrite Hp. left.
  - f_equal. by apply IH.
Qed.

Lemma skip_if_eq b b' v v' :
  skip_if b v = skip_if b' v' ↔ b = b' ∧ (b = false → v = v').
Proof. unfold skip_if. destruct b, b'; naive_solver. Qed.
