(* ===== verification/F64.v ===== *)
(** * Binary64 arithmetic

    The [f64] of the sources is a [spec_float] of the format of 53 bits and
    exponent 1024; the operations are those of [SpecFloat], which round to the
    nearest even as the hardware does.  The decimal literals of the sources are
    written as the binary64 they denote. *)

From S2P Require Import Prelude.
From stdpp Require Import pretty.
From Stdlib Require Export SpecFloat.

(** ** Definitions *)

Definition f64_of (z : Z) : spec_float := binary_normalize 53 1024 z 0 false.
Definition f64_add : spec_float → spec_float → spec_float := SFadd 53 1024.
Definition f64_sub : spec_float → spec_float → spec_float := SFsub 53 1024.
Definition f64_mul : spec_float → spec_float → spec_float := SFmul 53 1024.
Definition f64_div : spec_float → spec_float → spec_float := SFdiv 53 1024.

(** A positive literal. *)
Definition lit64 (m : positive) (e : Z) : spec_float := S754_finite false m e.

Definition is_nan (x : spec_float) : bool :=
  match x with S754_nan => true | _ => false end.

Definition is_finite (x : spec_float) : bool :=
  match x with S754_zero _ | S754_finite _ _ _ => true | _ => false end.

(** [f64::clamp], [f64::min], [f64::max] and [RangeInclusive::contains]. *)
Definition f64_clamp (x lo hi : spec_float) : spec_float :=
  let x := if SFltb x lo then lo else x in if SFltb hi x then hi else x.

Definition f64_min (a b : spec_float) : spec_float :=
  if is_nan a then b else if is_nan b then a else if SFltb b a then b else a.

Definition f64_max (a b : spec_float) : spec_float :=
  if is_nan a then b else if is_nan b then a else if SFltb a b then b else a.

Definition in_range (lo hi x : spec_float) : bool := SFleb lo x && SFleb x hi.

(** [x as i64] of a finite non-negative [x] and [f64::round], half away from
    zero; the remainder of the division by [2 ^ k] decides. *)
Definition round_shift (m k : Z) : Z := ((m + 2 ^ (k - 1)) / 2 ^ k)%Z.

Definition f64_round (x : spec_float) : spec_float :=
  match x with
  | S754_finite s m e =>
      if (0 <=? e)%Z then x
      else
        match round_shift (Zpos m) (- e) with
        | 0%Z => S754_zero s
        | r => let y := f64_of r in if s then SFopp y else y
        end
  | _ => x
  end.

(** The nearest integer of [n / 2 ^ k], half to even. *)
Definition half_even (n k : Z) : Z :=
  let q := (n / 2 ^ k)%Z in
  let r := (n mod 2 ^ k)%Z in
  match (2 * r ?= 2 ^ k)%Z with
  | Lt => q
  | Gt => (q + 1)%Z
  | Eq => if Z.even q then q else (q + 1)%Z
  end.

Definition zeros (n : nat) : string := String.concat "" (replicate n "0").

(** [{:.d}], the exact value to [d] digits after the point. *)
Definition fixed_digits (d : nat) (scaled : Z) : string :=
  let text := pretty scaled in
  match d with
  | 0 => text
  | _ =>
      let padded := zeros (S d - String.length text) +:+ text in
      let whole := String.length padded - d in
      String.substring 0 whole padded +:+ "." +:+ String.substring whole d padded
  end.

Definition fmt_fixed (d : nat) (x : spec_float) : string :=
  match x with
  | S754_nan => "NaN"
  | S754_infinity s => if s then "-inf" else "inf"
  | S754_zero s => (if s then "-" else "") +:+ fixed_digits d 0
  | S754_finite s m e =>
      let n := (Zpos m * 10 ^ Z.of_nat d)%Z in
      (if s then "-" else "")
      +:+ fixed_digits d (if (0 <=? e)%Z then (n * 2 ^ e)%Z else half_even n (- e))
  end.

(** ** Lemmas *)

(** A number that [SFcompare] orders lexicographically. *)
Definition sf_rank (f : spec_float) : option (Z * Z * Z) :=
  match f with
  | S754_nan => None
  | S754_zero _ => Some (0, 0, 0)
  | S754_infinity s => Some (if s then -2 else 2, 0, 0)
  | S754_finite s m e => Some (if s then (-1, -e, Zneg m) else (1, e, Zpos m))
  end%Z.

Definition rank_compare (r s : Z * Z * Z) : comparison :=
  match Z.compare r.1.1 s.1.1 with
  | Eq => match Z.compare r.1.2 s.1.2 with Eq => Z.compare r.2 s.2 | c => c end
  | c => c
  end.

Lemma SFcompare_rank f g r s :
  sf_rank f = Some r → sf_rank g = Some s → SFcompare f g = Some (rank_compare r s).
Proof.
  destruct f as [[]|[]| |[] m e], g as [[]|[]| |[] m' e']; intros [= <-] [= <-]; try done.
  unfold SFcompare, rank_compare; simpl. rewrite Z.compare_opp, (Z.compare_antisym e e').
  by destruct (Z.compare e e').
Qed.

Lemma SFltb_rank f g : SFltb f g = true → is_Some (sf_rank f).
Proof. unfold SFltb, SFcompare. destruct f; simpl; eauto; done. Qed.

Lemma sf_rank_nan f : is_nan f = false ↔ is_Some (sf_rank f).
Proof. destruct f; simpl; split; eauto; try done; by intros []. Qed.

Lemma SFltb_nan_l f g : is_nan f = true → SFltb f g = false.
Proof. by destruct f. Qed.

Lemma SFleb_not_nan f g : SFleb f g = true → is_nan f = false ∧ is_nan g = false.
Proof. by destruct f, g. Qed.

Lemma rank_compare_antisym r s : rank_compare s r = CompOpp (rank_compare r s).
Proof.
  unfold rank_compare. rewrite (Z.compare_antisym r.1.1), (Z.compare_antisym r.1.2), (Z.compare_antisym r.2).
  destruct (Z.compare r.1.1 s.1.1), (Z.compare r.1.2 s.1.2), (Z.compare r.2 s.2); done.
Qed.

Lemma rank_compare_le_trans r s t :
  rank_compare r s ≠ Gt → rank_compare s t ≠ Gt → rank_compare r t ≠ Gt.
Proof.
  unfold rank_compare. intros H1 H2.
  destruct (Z.compare_spec r.1.1 s.1.1), (Z.compare_spec s.1.1 t.1.1), (Z.compare_spec r.1.1 t.1.1);
    try done; try lia;
    destruct (Z.compare_spec r.1.2 s.1.2), (Z.compare_spec s.1.2 t.1.2), (Z.compare_spec r.1.2 t.1.2);
    try done; try lia;
    destruct (Z.compare_spec r.2 s.2), (Z.compare_spec s.2 t.2), (Z.compare_spec r.2 t.2);
    done || lia.
Qed.

Lemma SFleb_rank f g r s :
  sf_rank f = Some r → sf_rank g = Some s → SFleb f g = true ↔ rank_compare r s ≠ Gt.
Proof.
  intros Hf Hg. unfold SFleb. rewrite (SFcompare_rank _ _ _ _ Hf Hg).
  by destruct (rank_compare r s).
Qed.

Lemma SFltb_ge f g : is_nan f = false → is_nan g = false → SFltb f g = false ↔ SFleb g f = true.
Proof.
  intros [r Hr]%sf_rank_nan [s Hs]%sf_rank_nan. unfold SFltb, SFleb.
  rewrite (SFcompare_rank _ _ _ _ Hr Hs), (SFcompare_rank _ _ _ _ Hs Hr), (rank_compare_antisym r s).
  by destruct (rank_compare r s).
Qed.

Lemma SFltb_le f g : SFltb f g = true → SFleb f g = true.
Proof. unfold SFltb, SFleb. by destruct (SFcompare f g) as [[]|]. Qed.

Lemma SFleb_refl f : is_nan f = false → SFleb f f = true.
Proof.
  intros [r Hr]%sf_rank_nan. apply (SFleb_rank f f r r Hr Hr).
  unfold rank_compare. by rewrite !Z.compare_refl.
Qed.

Lemma SFleb_trans f g h : SFleb f g = true → SFleb g h = true → SFleb f h = true.
Proof.
  intros H1 H2. destruct (SFleb_not_nan _ _ H1) as [[r Hr]%sf_rank_nan [s Hs]%sf_rank_nan].
  destruct (SFleb_not_nan _ _ H2) as [_ [t Ht]%sf_rank_nan].
  apply (SFleb_rank _ _ _ _ Hr Ht), (rank_compare_le_trans r s t);
    [by apply (SFleb_rank _ _ _ _ Hr Hs)|by apply (SFleb_rank _ _ _ _ Hs Ht)].
Qed.

(** What lies in a range lies in every wider one. *)
Lemma in_range_widen lo hi lo' hi' x :
  in_range lo hi x = true → SFleb lo' lo = true → SFleb hi hi' = true → in_range lo' hi' x = true.
Proof.
  unfold in_range. rewrite !andb_true_iff. intros [Hl Hh] ??.
  split; by eapply SFleb_trans.
Qed.

Lemma in_range_not_nan lo hi x : in_range lo hi x = true → is_nan x = false.
Proof. unfold in_range. intros [H _]%andb_true_iff. by apply SFleb_not_nan in H as [_ H]. Qed.

Lemma f64_clamp_range x lo hi :
  is_nan x = false → SFleb lo hi = true → in_range lo hi (f64_clamp x lo hi) = true.
Proof.
  intros Hx Hlh. pose proof (SFleb_not_nan _ _ Hlh) as [Hl Hh].
  unfold in_range, f64_clamp. apply andb_true_iff.
  destruct (SFltb x lo) eqn:E1.
  - rewrite (proj2 (SFltb_ge hi lo Hh Hl) Hlh). by split; [apply SFleb_refl|].
  - apply SFltb_ge in E1; [|done..]. destruct (SFltb hi x) eqn:E2; [by split; [|apply SFleb_refl]|].
    split; [done|]. by apply SFltb_ge.
Qed.

Lemma is_finite_not_nan x : is_finite x = true → is_nan x = false.
Proof. by destruct x. Qed.
