(* ===== verification/F64Range.v ===== *)
(** * Magnitudes of binary64 results

    How large the result of an operation of [F64] can be, from the magnitudes of
    its operands: what shows that a computation neither overflows nor yields a
    number that is none. *)

From S2P Require Import Prelude F64.

(** ** Definitions *)

(** A finite number below [2 ^ k]. *)
Definition below (k : Z) (x : spec_float) : Prop :=
  match x with
  | S754_zero _ => True
  | S754_finite _ m e => (Zdigits2 (Zpos m) + e ≤ k)%Z
  | _ => False
  end.

(** A number as the hardware holds it: 53 bits of mantissa. *)
Definition fits64 (x : spec_float) : Prop :=
  match x with S754_finite _ m _ => (Zdigits2 (Zpos m) ≤ 53)%Z | _ => True end.

(** ** Lemmas *)

#[local] Open Scope Z_scope.

Lemma below_finite k x : below k x → is_finite x = true.
Proof. by destruct x. Qed.

Lemma below_mono k k' x : below k x → k ≤ k' → below k' x.
Proof. destruct x; simpl; [done..|lia]. Qed.

Lemma below_opp k x : below k x → below k (SFopp x).
Proof. by destruct x. Qed.

Lemma digits_log2 p : Zdigits2 (Zpos p) = Z.log2 (Zpos p) + 1.
Proof.
  induction p as [p IH|p IH|]; [| |done]; change (Zdigits2 (Zpos p)) with (Zpos (digits2_pos p)) in IH.
  - change (Zdigits2 (Zpos p~1)) with (Zpos (Pos.succ (digits2_pos p))).
    change (Zpos p~1) with (2 * Zpos p + 1). rewrite Z.log2_succ_double by lia. lia.
  - change (Zdigits2 (Zpos p~0)) with (Zpos (Pos.succ (digits2_pos p))).
    change (Zpos p~0) with (2 * Zpos p). rewrite Z.log2_double by lia. lia.
Qed.

Lemma digits_le m k : 0 ≤ m → 0 ≤ k → Zdigits2 m ≤ k ↔ m < 2 ^ k.
Proof.
  intros Hm Hk. destruct m as [|p|p]; [|rewrite digits_log2|lia].
  - simpl. pose proof (Z.pow_pos_nonneg 2 k). lia.
  - rewrite (Z.log2_lt_pow2 (Zpos p) k) by lia. lia.
Qed.

Lemma digits_nonneg m : 0 ≤ Zdigits2 m.
Proof. by destruct m. Qed.

Lemma digits_pos p : 1 ≤ Zdigits2 (Zpos p).
Proof. simpl. lia. Qed.

Lemma digits_div m k : 0 ≤ m → 0 ≤ k → Zdigits2 (m / 2 ^ k) ≤ Z.max (Zdigits2 m - k) 0.
Proof.
  intros Hm Hk. pose proof (digits_nonneg m). pose proof (Z.pow_pos_nonneg 2 k).
  apply digits_le; [by apply Z.div_pos; lia|lia|].
  assert (m < 2 ^ Zdigits2 m) as Hd by (by apply digits_le; lia).
  apply Z.div_lt_upper_bound; [lia|]. rewrite <-Z.pow_add_r by lia.
  eapply Z.lt_le_trans; [exact Hd|]. apply Z.pow_le_mono_r; lia.
Qed.

Lemma digits_mul m n : 0 ≤ m → 0 ≤ n → Zdigits2 (m * n) ≤ Zdigits2 m + Zdigits2 n.
Proof.
  intros Hm Hn. pose proof (digits_nonneg m). pose proof (digits_nonneg n).
  apply digits_le; [lia..|]. rewrite Z.pow_add_r by lia.
  assert (m < 2 ^ Zdigits2 m) by (by apply digits_le; lia).
  assert (n < 2 ^ Zdigits2 n) by (by apply digits_le; lia). nia.
Qed.

(** *** Rounding *)

Lemma shr_1_half r : 0 ≤ shr_m r → shr_m (shr_1 r) = shr_m r / 2 ∧ 0 ≤ shr_m (shr_1 r).
Proof.
  destruct r as [m b c]. simpl. destruct m as [|[p|p|]|p]; [|..|lia]; simpl; intros _; try done.
  - split; [|lia]. apply (Z.div_unique _ _ _ 1); lia.
  - split; [|lia]. apply (Z.div_unique _ _ _ 0); lia.
Qed.

Lemma shr_iter_half p : ∀ r, 0 ≤ shr_m r →
  shr_m (iter_pos shr_1 p r) = shr_m r / 2 ^ Zpos p ∧ 0 ≤ shr_m (iter_pos shr_1 p r).
Proof.
  induction p as [p IH|p IH|]; intros r Hr; simpl.
  - destruct (shr_1_half r Hr) as [E0 H0]. destruct (IH _ H0) as [E1 H1]. destruct (IH _ H1) as [E2 H2].
    split; [|done]. rewrite E2, E1, E0, !Z.div_div by lia.
    f_equal. replace (Zpos p~1) with (1 + Zpos p + Zpos p) by lia. rewrite !Z.pow_add_r by lia. change (2 ^ 1) with 2. ring.
  - destruct (IH _ Hr) as [E1 H1]. destruct (IH _ H1) as [E2 H2].
    split; [|done]. rewrite E2, E1, Z.div_div by lia.
    f_equal. replace (Zpos p~0) with (Zpos p + Zpos p) by lia. rewrite !Z.pow_add_r by lia. done.
  - destruct (shr_1_half r Hr) as [E0 H0]. by split.
Qed.

Lemma shr_fexp_div m e l : 0 ≤ m →
  ∃ r e', shr_fexp 53 1024 m e l = (r, e') ∧ shr_m r = m / 2 ^ (e' - e) ∧ 0 ≤ shr_m r
    ∧ e' = Z.max e (Z.max (Zdigits2 m + e - 53) (-1074)).
Proof.
  intros Hm. unfold shr_fexp, shr, fexp, emin. set (r := shr_record_of_loc m l).
  assert (shr_m r = m) as Hr by (by unfold r; destruct l as [|[]]).
  replace (3 - 1024 - 53) with (-1074) by done.
  destruct (_ - e) as [|p|p] eqn:Ed.
  - eexists _, _. split_and!; [done| |lia|lia]. rewrite Z.sub_diag, Z.div_1_r. done.
  - destruct (shr_iter_half p r) as [E H]; [lia|]. eexists _, _. split_and!; [done| |done|lia].
    rewrite E, Hr. do 2 f_equal. lia.
  - eexists _, _. split_and!; [done| |lia|lia]. rewrite Z.sub_diag, Z.div_1_r. done.
Qed.

Lemma nearest_even_range m l : 0 ≤ m → m ≤ round_nearest_even m l ≤ m + 1.
Proof. unfold round_nearest_even. destruct l as [|[]]; [lia| |lia..]. destruct (Z.even m); lia. Qed.

Lemma round_aux_not_nan s m e l : 0 ≤ m → is_nan (binary_round_aux 53 1024 s m e l) = false.
Proof.
  intros Hm. unfold binary_round_aux.
  destruct (shr_fexp_div m e l Hm) as (r & e' & -> & _ & Hr & _).
  pose proof (nearest_even_range (shr_m r) (loc_of_shr_record r) Hr).
  destruct (shr_fexp_div (round_nearest_even (shr_m r) (loc_of_shr_record r)) e' loc_Exact)
    as (r' & e'' & -> & _ & Hr' & _); [lia|].
  destruct (shr_m r') as [|p|p]; [done| |lia]. by destruct (_ <=? _).
Qed.

Lemma round_aux_below s m e l k :
  0 ≤ m → Zdigits2 m + e ≤ k → -1000 ≤ k ≤ 900 → below (k + 1) (binary_round_aux 53 1024 s m e l).
Proof.
  intros Hm Hk Hr. unfold binary_round_aux. pose proof (digits_nonneg m) as Hd0.
  destruct (shr_fexp_div m e l Hm) as (r & e1 & -> & Em & H0 & He1).
  pose proof (digits_div m (e1 - e) Hm ltac:(lia)) as Hd1. rewrite <-Em in Hd1.
  set (m2 := round_nearest_even _ _).
  assert (shr_m r ≤ m2 ≤ shr_m r + 1) as Hm2 by (by apply nearest_even_range).
  assert (Zdigits2 m2 ≤ Z.max (Zdigits2 m - (e1 - e)) 0 + 1) as Hd2.
  { apply digits_le; [lia..|]. set (d := Z.max _ _) in *.
    apply digits_le in Hd1; [|lia..]. rewrite Z.pow_add_r by lia. lia. }
  destruct (shr_fexp_div m2 e1 loc_Exact) as (r' & e2 & -> & Em' & H0' & He2); [lia|].
  pose proof (digits_div m2 (e2 - e1) ltac:(lia) ltac:(lia)) as Hd3. rewrite <-Em' in Hd3.
  destruct (shr_m r') as [|p|p]; [done| |lia].
  rewrite (proj2 (Z.leb_le _ _)) by lia. simpl in *. lia.
Qed.

Lemma shl_align_digits m e e' :
  ∃ p q, shl_align m e e' = (p, q) ∧ Zdigits2 (Zpos p) + q = Zdigits2 (Zpos m) + e
    ∧ q = (if e' <? e then e' else e).
Proof.
  unfold shl_align. destruct (e' - e) as [|d|d] eqn:Ed.
  - eexists _, _. split_and!; [done..|]. by rewrite (proj2 (Z.ltb_ge _ _)) by lia.
  - eexists _, _. split_and!; [done..|]. by rewrite (proj2 (Z.ltb_ge _ _)) by lia.
  - eexists _, _. split; [done|]. rewrite (proj2 (Z.ltb_lt _ _)) by lia. split; [|done].
    assert (Zdigits2 (Zpos (Pos.iter xO m d)) = Zdigits2 (Zpos m) + Zpos d) as ->; [|lia].
    clear. revert d. apply Pos.peano_ind; [simpl; lia|]. intros d IH.
    rewrite Pos.iter_succ. simpl in *. lia.
Qed.

Lemma binary_round_below s m e k :
  Zdigits2 (Zpos m) + e ≤ k → -1000 ≤ k ≤ 900 → below (k + 1) (binary_round 53 1024 s m e).
Proof.
  intros Hk Hr. unfold binary_round.
  destruct (shl_align_digits m e (fexp 53 1024 (Zpos (digits2_pos m) + e))) as (p & q & -> & Hq & _).
  apply round_aux_below; lia.
Qed.

Lemma normalize_below m e z k :
  Zdigits2 (Z.abs m) + e ≤ k → -1000 ≤ k ≤ 900 → below (k + 1) (binary_normalize 53 1024 m e z).
Proof. destruct m; [done| |]; simpl; intros ??; by apply binary_round_below. Qed.

(** *** Operations *)

Lemma mul_below j k x y :
  below j x → below k y → -1000 ≤ j + k ≤ 900 → below (j + k + 1) (f64_mul x y).
Proof.
  destruct x as [| | |sx mx ex], y as [| | |sy my ey]; try done. intros Hx Hy Hr.
  unfold f64_mul, SFmul. apply round_aux_below; [lia| |lia]. unfold below in Hx, Hy.
  pose proof (digits_mul (Zpos mx) (Zpos my)). simpl in *. lia.
Qed.

Lemma mul_not_nan x y : is_finite x = true → is_finite y = true → is_nan (f64_mul x y) = false.
Proof. destruct x, y; try done. intros _ _. by apply round_aux_not_nan. Qed.

Lemma mul_lit_not_nan m e y : is_nan y = false → is_nan (f64_mul (lit64 m e) y) = false.
Proof. destruct y; try done. intros _. by apply round_aux_not_nan. Qed.

(** The quotient of the mantissas, and how it is scaled. *)
Lemma div_core_digits m1 e1 m2 e2 q e l :
  SFdiv_core_binary 53 1024 (Zpos m1) e1 (Zpos m2) e2 = (q, e, l) →
  0 ≤ q ∧ Zdigits2 q + e ≤ Zdigits2 (Zpos m1) + e1 - e2.
Proof.
  unfold SFdiv_core_binary. set (e' := Z.min _ _).
  assert (0 ≤ e1 - e2 - e') as Hs by lia.
  assert (match e1 - e2 - e' with 0 => Zpos m1 | Zpos _ => Z.shiftl (Zpos m1) (e1 - e2 - e') | Zneg _ => 0 end
          = Zpos m1 * 2 ^ (e1 - e2 - e')) as ->.
  { destruct (e1 - e2 - e') as [|p|p] eqn:E; [lia| |lia]. apply Z.shiftl_mul_pow2. lia. }
  assert (e' = e1 - e2 - (e1 - e2 - e')) as He by lia. revert Hs He.
  generalize (e1 - e2 - e'). intros s Hs He.
  set (n := Zpos m1 * 2 ^ s). pose proof (Z.div_eucl_eq n (Zpos m2) ltac:(lia)) as Hd.
  pose proof (Z_mod_lt n (Zpos m2) ltac:(lia)) as Hm. unfold Z.modulo in Hm.
  destruct (Z.div_eucl n (Zpos m2)) as [q' r]. intros [= <- <- _].
  assert (0 ≤ n) by (pose proof (Z.pow_pos_nonneg 2 s); nia).
  assert (0 ≤ q' ≤ n) as [Hq Hqn] by nia. split; [done|].
  enough (Zdigits2 q' ≤ Zdigits2 (Zpos m1) + s) by lia.
  pose proof (digits_nonneg (Zpos m1)). apply digits_le; [lia..|].
  assert (Zpos m1 < 2 ^ Zdigits2 (Zpos m1)) by (by apply digits_le; lia).
  rewrite Z.pow_add_r by lia. pose proof (Z.pow_pos_nonneg 2 s). nia.
Qed.

Lemma div_below j lo x s m e :
  below j x → lo ≤ e → -1000 ≤ j - lo ≤ 900 → below (j - lo + 1) (f64_div x (S754_finite s m e)).
Proof.
  intros Hx He Hr. destruct x as [| | |sx mx ex]; try done. unfold f64_div, SFdiv.
  destruct (SFdiv_core_binary _ _ _ _ _ _) as [[q eq] l] eqn:E.
  apply div_core_digits in E as [Hq Hd]. unfold below in Hx. apply round_aux_below; lia.
Qed.

Lemma div_lit_not_nan m e y : is_nan y = false → is_nan (f64_div (lit64 m e) y) = false.
Proof.
  destruct y as [| | |s my ey]; try done. intros _. unfold f64_div, lit64, SFdiv.
  destruct (SFdiv_core_binary _ _ _ _ _ _) as [[q eq] l] eqn:E.
  apply div_core_digits in E as [Hq _]. by apply round_aux_not_nan.
Qed.

(** The larger operand's magnitude and one bit, and one for the rounding. *)
Lemma sub_below k x y : below k x → below k y → -900 ≤ k ≤ 800 → below (k + 2) (f64_sub x y).
Proof.
  destruct x as [sx| | |sx mx ex], y as [sy| | |sy my ey]; try done.
  { intros _ _ _. by destruct sx, sy. }
  { simpl. lia. }
  { simpl. lia. }
  intros Hx Hy Hr. unfold f64_sub, SFsub.
  destruct (shl_align_digits mx ex (Z.min ex ey)) as (px & qx & -> & Hqx & Eqx).
  destruct (shl_align_digits my ey (Z.min ex ey)) as (py & qy & -> & Hqy & Eqy).
  assert (qx = Z.min ex ey) as -> by (destruct (Z.ltb_spec (Z.min ex ey) ex); lia).
  assert (qy = Z.min ex ey) as -> by (destruct (Z.ltb_spec (Z.min ex ey) ey); lia).
  unfold below in Hx, Hy. pose proof (digits_pos px). set (e := Z.min ex ey) in *.
  replace (k + 2) with (k + 1 + 1) by lia. apply normalize_below; [|lia].
  enough (Zdigits2 (Z.abs (cond_Zopp sx (Zpos px) - cond_Zopp sy (Zpos py))) ≤ k - e + 1) by (simpl; lia).
  apply digits_le; [lia..|]. rewrite Z.pow_add_r by lia.
  assert (Zpos px < 2 ^ (k - e)) by (apply digits_le; lia).
  assert (Zpos py < 2 ^ (k - e)) by (apply digits_le; lia).
  unfold cond_Zopp. destruct sx, sy; lia.
Qed.

(** *** Whole numbers and bounds *)

Lemma f64_of_exact n : 0 < n < 2 ^ 53 →
  ∃ m e, f64_of n = S754_finite false m e ∧ -52 ≤ e ∧ Zdigits2 (Zpos m) + e ≤ 53.
Proof.
  intros Hn. destruct n as [|p|p]; [lia| |lia].
  assert (Zdigits2 (Zpos p) ≤ 53) as Hd by (apply digits_le; lia). pose proof (digits_pos p).
  unfold f64_of, binary_normalize, binary_round.
  assert (fexp 53 1024 (Zpos (digits2_pos p) + 0) = Zdigits2 (Zpos p) - 53) as ->
    by (unfold fexp, emin; simpl; lia).
  destruct (shl_align_digits p 0 (Zdigits2 (Zpos p) - 53)) as (m & e & -> & Hm & He).
  assert (e = Zdigits2 (Zpos p) - 53) as -> by (destruct (Z.ltb_spec (Zdigits2 (Zpos p) - 53) 0); lia).
  set (e := Zdigits2 (Zpos p) - 53) in *.
  assert (fexp 53 1024 (Zdigits2 (Zpos m) + e) - e = 0) as Hf by (unfold fexp, emin; lia).
  unfold binary_round_aux, shr_fexp. rewrite Hf. simpl shr. cbv iota beta. simpl round_nearest_even.
  change (Zpos (digits2_pos m)) with (Zdigits2 (Zpos m)). rewrite Hf. simpl shr. cbv iota beta.
  simpl shr_m. cbv iota. rewrite (proj2 (Z.leb_le _ _)) by lia. eexists _, _. split_and!; [done|lia..].
Qed.

Lemma f64_of_below n : 0 ≤ n < 2 ^ 53 → below 53 (f64_of n).
Proof.
  intros Hn. destruct (decide (n = 0)) as [->|]; [done|].
  destruct (f64_of_exact n) as (m & e & -> & _ & H); [lia|]. exact H.
Qed.

(** A number of the hardware between zero and a literal. *)
Lemma in_range_below m e x : in_range (f64_of 0) (lit64 m e) x = true → fits64 x → below (53 + e) x.
Proof.
  unfold in_range, SFleb. destruct x as [s|[]| |s mx ex]; try done.
  destruct s; [done|]. cbn. destruct (Z.compare_spec ex e); simpl; lia || done.
Qed.
