(* ===== verification/LakeClock.v ===== *)
(** * The lake timestamp

    The run-logical clock is a [YYYY-MM-DD HH:MM:SS] literal: written by
    [er-server/src/dispatcher.rs::fmt_epoch] (civil-from-days) and read by
    [er-ids/src/lib.rs::parse_lake_timestamp_ms] (days-from-civil).  Integers
    are [Z]; an [i64] operation outside its range is a panic ([None] of the
    outer option), and Rust's [/] and [%] truncate. *)

From S2P Require Import Prelude Ids.
From Stdlib Require Import Ascii.
Local Open Scope Z_scope.

(** ** Definitions *)

Definition i64_ok (z : Z) : bool := (- 2 ^ 63 <=? z) && (z <? 2 ^ 63).

(** A checked [i64] operation. *)
Definition i64 (z : Z) : option Z := if i64_ok z then Some z else None.

Definition digit_of (c : ascii) : option Z :=
  let n := Z.of_N (N_of_ascii c) in
  if (48 <=? n) && (n <=? 57) then Some (n - 48) else None.

(** The digits of [str::parse], most significant first. *)
Fixpoint parse_digits (acc : Z) (s : string) : option Z :=
  match s with
  | EmptyString => Some acc
  | String c s => d ← digit_of c; parse_digits (acc * 10 + d) s
  end.

Definition parse_unsigned (s : string) : option Z :=
  match s with EmptyString => None | _ => parse_digits 0 s end.

(** [str::parse::<i64>]: an optional sign, at least one digit, no overflow. *)
Definition parse_i64 (s : string) : option Z :=
  z ← match s with
      | String "-"%char s => Z.opp <$> parse_unsigned s
      | String "+"%char s => parse_unsigned s
      | _ => parse_unsigned s
      end;
  i64 z.

(** The field check after the six parses. *)
Definition fields_ok (m day hh mm ss : Z) : bool :=
  (1 <=? m) && (m <=? 12) && (1 <=? day) && (day <=? 31)
  && (hh <=? 23) && (mm <=? 59) && (ss <=? 59).

(** Days-from-civil and the seconds, every step checked. *)
Definition civil_secs (y m day hh mm ss : Z) : option Z :=
  y_adj ← if m <=? 2 then i64 (y - 1) else Some y;
  n ← if 0 <=? y_adj then Some y_adj else i64 (y_adj - 399);
  let era := Z.quot n 400 in
  e400 ← i64 (era * 400);
  yoe ← i64 (y_adj - e400);
  let mp := Z.rem (m + 9) 12 in
  let doy := Z.quot (153 * mp + 2) 5 + day - 1 in
  let doe := yoe * 365 + Z.quot yoe 4 - Z.quot yoe 100 + doy in
  era_days ← i64 (era * 146097);
  d ← i64 (era_days + doe);
  days ← i64 (d - 719468);
  day_secs ← i64 (days * 86400);
  h ← i64 (hh * 3600);
  s1 ← i64 (day_secs + h);
  mi ← i64 (mm * 60);
  s2 ← i64 (s1 + mi);
  i64 (s2 + ss).

(** [u64::try_from(secs).ok()?.checked_mul(1000)]. *)
Definition secs_to_ms (secs : Z) : option Z :=
  if (0 <=? secs) && (secs * 1000 <? 2 ^ 64) then Some (secs * 1000) else None.

(** The outer [None] is an overflow panic, the inner one the returned [None]. *)
Definition parse_lake_timestamp_ms (ts : string) : option (option Z) :=
  match split_once " "%char ts with
  | None => Some None
  | Some (date, time) =>
      let d := split_on "-"%char date in
      let c := split_on ":"%char time in
      match (y ← d !! 0%nat; parse_i64 y), (m ← d !! 1%nat; parse_i64 m),
            (day ← d !! 2%nat; parse_i64 day), (hh ← c !! 0%nat; parse_i64 hh),
            (mm ← c !! 1%nat; parse_i64 mm), (ss ← c !! 2%nat; parse_i64 ss) with
      | Some y, Some m, Some day, Some hh, Some mm, Some ss =>
          if negb (fields_ok m day hh mm ss) then Some None
          else secs ← civil_secs y m day hh mm ss; Some (secs_to_ms secs)
      | _, _, _, _, _, _ => Some None
      end
  end.

(** [DeterministicV7Factory::from_lake_timestamp]. *)
Definition from_lake_timestamp (ts : string) (start : Z) :
    option (result DeterministicV7Factory IdError) :=
  o ← parse_lake_timestamp_ms ts;
  Some (match o with Some ms => Ok (mkV7 ms start) | None => Err (BadTimestamp ts) end).

(** Decimal text, most significant digit first: the digits of [n] before [acc]. *)
Fixpoint decimal (fuel : nat) (n : Z) (acc : string) : string :=
  match fuel with
  | 0%nat => acc
  | S fuel =>
      let acc := String (ascii_of_N (Z.to_N (48 + n mod 10))) acc in
      if n / 10 =? 0 then acc else decimal fuel (n / 10) acc
  end.

(** Up to [w] zeros in front. *)
Fixpoint pad (w : nat) (s : string) : string :=
  match w with
  | 0%nat => s
  | S w => if (String.length s <=? w)%nat then String "0"%char (pad w s) else pad w s
  end.

(** [{n:0w}] of a non-negative integer below [2^64]: at most 20 digits. *)
Definition fmt_pad (w : nat) (n : Z) : string := pad w (decimal 20 n EmptyString).

(** Civil-from-days. *)
Definition civil_from_days (days : Z) : Z * Z * Z :=
  let z := days + 719468 in
  let era := Z.quot (if 0 <=? z then z else z - 146096) 146097 in
  let doe := z - era * 146097 in
  let yoe := Z.quot (doe - Z.quot doe 1460 + Z.quot doe 36524 - Z.quot doe 146096) 365 in
  let y := yoe + era * 400 in
  let doy := doe - (365 * yoe + Z.quot yoe 4 - Z.quot yoe 100) in
  let mp := Z.quot (5 * doy + 2) 153 in
  let d := doy - Z.quot (153 * mp + 2) 5 + 1 in
  let m := if mp <? 10 then mp + 3 else mp - 9 in
  let y := if m <=? 2 then y + 1 else y in
  (y, m, d).

(** [fmt_epoch] of a [u64]; [secs / 86400] always fits an [i64]. *)
Definition fmt_epoch (secs : Z) : string :=
  let days := secs / 86400 in
  let rem := secs mod 86400 in
  let hh := rem / 3600 in
  let mm := rem mod 3600 / 60 in
  let ss := rem mod 60 in
  let '(y, m, d) := civil_from_days days in
  fmt_pad 4 y +:+ "-" +:+ fmt_pad 2 m +:+ "-" +:+ fmt_pad 2 d +:+ " "
    +:+ fmt_pad 2 hh +:+ ":" +:+ fmt_pad 2 mm +:+ ":" +:+ fmt_pad 2 ss.

Example fmt_epoch_known : fmt_epoch 1767225600 = "2026-01-01 00:00:00".
Proof. vm_compute. reflexivity. Qed.

Example parse_known :
  parse_lake_timestamp_ms "2026-01-01 00:00:00" = Some (Some 1767225600000)
  ∧ parse_lake_timestamp_ms "2026-13-01 00:00:00" = Some None
  ∧ parse_lake_timestamp_ms "nope" = Some None.
Proof. vm_compute. done. Qed.

(** ** Days and civil dates *)

Lemma i64_Some z : - 2 ^ 63 ≤ z < 2 ^ 63 → i64 z = Some z.
Proof.
  intros Hz. unfold i64, i64_ok.
  rewrite (proj2 (Z.leb_le _ _)), (proj2 (Z.ltb_lt _ _)) by lia. done.
Qed.

(** The Gregorian year of a day of the 400-year era, and the day in it. *)
Lemma year_of_era doe :
  0 ≤ doe < 146097 →
  let yoe := (doe - doe / 1460 + doe / 36524 - doe / 146096) / 365 in
  0 ≤ yoe < 400 ∧ 0 ≤ doe - (365 * yoe + yoe / 4 - yoe / 100) ≤ 365.
Proof.
  intros Hdoe. cbv zeta.
  assert (doe / 146096 = 0 ∨ doe / 146096 = 1) as [Hc|Hc] by div_lia;
  assert (doe / 36524 = 0 ∨ doe / 36524 = 1 ∨ doe / 36524 = 2 ∨ doe / 36524 = 3 ∨ doe / 36524 = 4)
    as [Hb|[Hb|[Hb|[Hb|Hb]]]] by div_lia; rewrite Hb, Hc; div_lia.
Qed.

(** The month (from March) and the day of a day of the year. *)
Lemma month_of_year doy :
  0 ≤ doy ≤ 365 →
  let mp := (5 * doy + 2) / 153 in
  0 ≤ mp ≤ 11 ∧ 1 ≤ doy - (153 * mp + 2) / 5 + 1 ≤ 31.
Proof. intros Hdoy. cbv zeta. div_lia. Qed.

Lemma civil_from_days_spec days :
  0 ≤ days →
  ∃ era yoe mp d, 0 ≤ era ∧ 0 ≤ yoe < 400 ∧ 0 ≤ mp ≤ 11 ∧ 1 ≤ d ≤ 31
    ∧ days + 719468 =
        era * 146097 + (yoe * 365 + yoe / 4 - yoe / 100 + ((153 * mp + 2) / 5 + d - 1))
    ∧ civil_from_days days =
        (if mp <? 10 then yoe + era * 400 else yoe + era * 400 + 1,
         if mp <? 10 then mp + 3 else mp - 9, d).
Proof.
  intros Hdays. unfold civil_from_days. set (z := days + 719468).
  rewrite (proj2 (Z.leb_le 0 z)) by lia.
  rewrite (Z.quot_div_nonneg z) by lia.
  set (era := z / 146097). set (doe := z - era * 146097).
  assert (0 ≤ doe < 146097) as Hdoe by (unfold doe, era; div_lia).
  assert (0 ≤ era) by (unfold era; div_lia).
  rewrite !(Z.quot_div_nonneg doe) by lia.
  destruct (year_of_era doe Hdoe) as [Hyoe Hdoy].
  rewrite (Z.quot_div_nonneg (doe - doe / 1460 + doe / 36524 - doe / 146096)) by div_lia.
  set (yoe := (doe - doe / 1460 + doe / 36524 - doe / 146096) / 365) in *.
  rewrite !(Z.quot_div_nonneg yoe) by lia.
  set (doy := doe - (365 * yoe + yoe / 4 - yoe / 100)) in *.
  destruct (month_of_year doy Hdoy) as [Hmp Hd].
  rewrite (Z.quot_div_nonneg (5 * doy + 2)) by lia. set (mp := (5 * doy + 2) / 153) in *.
  rewrite (Z.quot_div_nonneg (153 * mp + 2)) by lia. set (d := doy - (153 * mp + 2) / 5 + 1) in *.
  exists era, yoe, mp, d. split_and!; try lia.
  f_equal. f_equal. destruct (Z.ltb_spec mp 10).
  - by rewrite (proj2 (Z.leb_gt _ _)) by lia.
  - by rewrite (proj2 (Z.leb_le _ _)) by lia.
Qed.

(** Reading a civil date back, for any day an [i64] of seconds can name. *)
Lemma civil_secs_inverse days y m d hh mm ss :
  0 ≤ days < 2 ^ 45 → civil_from_days days = (y, m, d) →
  0 ≤ hh ≤ 23 → 0 ≤ mm ≤ 59 → 0 ≤ ss ≤ 59 →
  0 ≤ y < 2 ^ 40 ∧ fields_ok m d hh mm ss = true
  ∧ civil_secs y m d hh mm ss = Some (days * 86400 + hh * 3600 + mm * 60 + ss).
Proof.
  intros Hdays Hcivil Hhh Hmm Hss.
  destruct (civil_from_days_spec days) as (era & yoe & mp & d' & Hera & Hyoe & Hmp & Hd & Hsum & Heq);
    [lia|]. rewrite Heq in Hcivil. injection Hcivil as <- <- <-.
  assert (era < 2 ^ 30) by div_lia.
  split; [destruct (mp <? 10); lia|]. split.
  { unfold fields_ok. repeat (apply andb_true_intro; split); try apply Z.leb_le;
      destruct (Z.ltb_spec mp 10); lia. }
  unfold civil_secs.
  assert ((if (if mp <? 10 then mp + 3 else mp - 9) <=? 2
           then i64 ((if mp <? 10 then yoe + era * 400 else yoe + era * 400 + 1) - 1)
           else Some (if mp <? 10 then yoe + era * 400 else yoe + era * 400 + 1))
          = Some (yoe + era * 400)) as ->.
  { destruct (Z.ltb_spec mp 10).
    - by rewrite (proj2 (Z.leb_gt _ _)) by lia.
    - rewrite (proj2 (Z.leb_le _ _)) by lia. rewrite i64_Some by lia. f_equal. lia. }
  assert (Z.rem ((if mp <? 10 then mp + 3 else mp - 9) + 9) 12 = mp) as ->.
  { rewrite Z.rem_mod_nonneg by (destruct (Z.ltb_spec mp 10); lia).
    destruct (Z.ltb_spec mp 10); div_lia. }
  simpl. rewrite (proj2 (Z.leb_le 0 (yoe + era * 400))) by lia. simpl.
  rewrite (Z.quot_div_nonneg (yoe + era * 400)) by lia.
  replace ((yoe + era * 400) / 400) with era by div_lia.
  rewrite (i64_Some (era * 400)) by lia. simpl.
  replace (yoe + era * 400 - era * 400) with yoe by lia.
  rewrite (i64_Some yoe) by lia. simpl.
  rewrite !(Z.quot_div_nonneg yoe), (Z.quot_div_nonneg (153 * mp + 2)) by lia.
  rewrite (i64_Some (era * 146097)) by lia. simpl. rewrite <-Hsum.
  rewrite (i64_Some (days + 719468)) by lia. simpl.
  replace (days + 719468 - 719468) with days by lia.
  rewrite (i64_Some days) by lia. simpl. rewrite (i64_Some (days * 86400)) by lia. simpl.
  rewrite (i64_Some (hh * 3600)) by lia. simpl.
  rewrite (i64_Some (days * 86400 + hh * 3600)) by lia. simpl.
  rewrite (i64_Some (mm * 60)) by lia. simpl.
  rewrite (i64_Some (days * 86400 + hh * 3600 + mm * 60)) by lia. simpl.
  rewrite i64_Some by lia. done.
Qed.

(** ** Decimal text *)

(** A text of decimal digits, at least one. *)
Definition is_digit (c : ascii) : bool := match digit_of c with Some _ => true | None => false end.

Fixpoint all_digits (s : string) : bool :=
  match s with EmptyString => true | String c s => is_digit c && all_digits s end.

Lemma digit_char n : 0 ≤ n ≤ 9 → digit_of (ascii_of_N (Z.to_N (48 + n))) = Some n.
Proof.
  intros Hn. unfold digit_of. rewrite N_ascii_embedding by lia. rewrite Z2N.id by lia.
  rewrite (proj2 (Z.leb_le _ _)), (proj2 (Z.leb_le _ _)) by lia. simpl. f_equal. lia.
Qed.

Lemma decimal_all_digits fuel n acc :
  0 ≤ n → all_digits acc = true → all_digits (decimal fuel n acc) = true.
Proof.
  revert n acc. induction fuel as [|fuel IH]; intros n acc Hn Hacc; [done|].
  cbn [decimal]. assert (all_digits (String (ascii_of_N (Z.to_N (48 + n mod 10))) acc) = true).
  { simpl. unfold is_digit. by rewrite digit_char by div_lia. }
  destruct (n / 10 =? 0); [done|]. apply IH; [div_lia|done].
Qed.

Lemma decimal_parse fuel n acc :
  0 ≤ n < 10 ^ Z.of_nat fuel → parse_digits 0 (decimal fuel n acc) = parse_digits n acc.
Proof.
  revert n acc. induction fuel as [|fuel IH]; intros n acc Hn.
  { simpl in *. by replace n with 0 by lia. }
  cbn [decimal]. rewrite Nat2Z.inj_succ, Z.pow_succ_r in Hn by lia.
  destruct (Z.eqb_spec (n / 10) 0) as [Hz|Hz].
  - cbn [parse_digits]. rewrite digit_char by div_lia. cbn. f_equal. div_lia.
  - rewrite IH by div_lia. cbn [parse_digits]. rewrite digit_char by div_lia. cbn. f_equal. div_lia.
Qed.

Lemma decimal_nonempty fuel n acc : fuel ≠ 0%nat → decimal fuel n acc ≠ EmptyString.
Proof.
  destruct fuel as [|fuel]; [done|]. intros _. cbn [decimal]. destruct (n / 10 =? 0); [done|].
  generalize (n / 10). set (c := ascii_of_N _). intros m. revert m.
  assert (∀ s, s ≠ EmptyString → ∀ m, decimal fuel m s ≠ EmptyString) as H; [|intros; by apply H].
  induction fuel as [|fuel IH]; intros s Hs m; [done|]. cbn [decimal].
  destruct (m / 10 =? 0); [done|]. by apply IH.
Qed.

Lemma pad_all_digits w s : all_digits s = true → all_digits (pad w s) = true.
Proof. induction w as [|w IH]; [done|]. simpl. destruct (_ <=? _)%nat; simpl; auto. Qed.

Lemma pad_parse w s : parse_digits 0 (pad w s) = parse_digits 0 s.
Proof. induction w as [|w IH]; [done|]. simpl. destruct (_ <=? _)%nat; simpl; auto. Qed.

Lemma pad_nonempty w s : s ≠ EmptyString → pad w s ≠ EmptyString.
Proof. induction w as [|w IH]; [done|]. simpl. destruct (_ <=? _)%nat; auto. Qed.

Lemma parse_i64_digits s :
  s ≠ EmptyString → all_digits s = true → parse_i64 s = (z ← parse_digits 0 s; i64 z).
Proof.
  destruct s as [|c s]; [done|]. intros _ Hd. simpl in Hd. apply andb_true_iff in Hd as [Hc _].
  unfold parse_i64. destruct c as [[] [] [] [] [] [] [] []]; try discriminate Hc; reflexivity.
Qed.

Lemma contains_digits c s : is_digit c = false → all_digits s = true → contains c s = false.
Proof.
  intros Hc. induction s as [|c' s IH]; [done|]. simpl. intros [Hc' Hs]%andb_true_iff.
  rewrite decide_False by congruence. auto.
Qed.

(** What the printer writes the parser reads, and it holds digits only. *)
Lemma fmt_pad_spec w n :
  0 ≤ n < 2 ^ 63 → parse_i64 (fmt_pad w n) = Some n ∧ all_digits (fmt_pad w n) = true.
Proof.
  intros Hn. assert (all_digits (fmt_pad w n) = true) as Hd.
  { apply pad_all_digits, decimal_all_digits; [lia|done]. }
  split; [|done]. rewrite parse_i64_digits; [|by apply pad_nonempty, decimal_nonempty|done].
  unfold fmt_pad. rewrite pad_parse, decimal_parse by lia. simpl. apply i64_Some. lia.
Qed.

Lemma split_on_none c s : contains c s = false → split_on c s = [s].
Proof.
  induction s as [|c' s IH]; [done|]. simpl. case_decide; [done|]. intros Hs. by rewrite IH.
Qed.

Lemma split_on_app c a b :
  contains c a = false → split_on c (a +:+ String c b) = a :: split_on c b.
Proof.
  induction a as [|c' a IH]; simpl; [by rewrite decide_True|].
  case_decide; [done|]. intros Ha. by rewrite IH.
Qed.

Lemma str_app_cons c (a b s : string) :
  (a +:+ String c b) +:+ s = a +:+ String c (b +:+ s).
Proof. by rewrite <-str_app_assoc. Qed.

(** ** Properties *)

Lemma parse_fields y m d hh mm ss (sy sm sd sh smi sse : string) :
  parse_i64 sy = Some y → all_digits sy = true →
  parse_i64 sm = Some m → all_digits sm = true →
  parse_i64 sd = Some d → all_digits sd = true →
  parse_i64 sh = Some hh → all_digits sh = true →
  parse_i64 smi = Some mm → all_digits smi = true →
  parse_i64 sse = Some ss → all_digits sse = true →
  parse_lake_timestamp_ms
    (sy +:+ "-" +:+ sm +:+ "-" +:+ sd +:+ " " +:+ sh +:+ ":" +:+ smi +:+ ":" +:+ sse) =
  if negb (fields_ok m d hh mm ss) then Some None
  else secs ← civil_secs y m d hh mm ss; Some (secs_to_ms secs).
Proof.
  intros Hy Dy Hm Dm Hd Dd Hh Dh Hmi Dmi Hs Ds. unfold parse_lake_timestamp_ms.
  assert (∀ c s, is_digit c = false → all_digits s = true → contains c s = false) as Hno
    by apply contains_digits.
  replace (sy +:+ "-" +:+ sm +:+ "-" +:+ sd +:+ " " +:+ sh +:+ ":" +:+ smi +:+ ":" +:+ sse)
    with ((sy +:+ String "-" (sm +:+ String "-" sd)) +:+ String " " (sh +:+ String ":" (smi +:+ String ":" sse))).
  2:{ rewrite !str_app_cons. reflexivity. }
  rewrite split_once_app.
  2:{ rewrite contains_app; simpl. rewrite contains_app; simpl. by rewrite !Hno. }
  rewrite !split_on_app by (apply Hno; done). rewrite !split_on_none by (apply Hno; done).
  simpl. by rewrite Hy, Hm, Hd, Hh, Hmi, Hs.
Qed.

(** The dispatcher's rendering of the clock and the id factory's reading of
    it are inverse: every epoch second whose milliseconds fit a [u64] prints to
    a stamp that parses back, without overflow, to that second. *)
Theorem lake_timestamp_roundtrip secs :
  0 ≤ secs → secs * 1000 < 2 ^ 64 →
  parse_lake_timestamp_ms (fmt_epoch secs) = Some (Some (secs * 1000)).
Proof.
  intros Hlo Hhi. unfold fmt_epoch.
  destruct (civil_from_days (secs / 86400)) as [[y m] d] eqn:Hc.
  destruct (civil_secs_inverse (secs / 86400) y m d (secs mod 86400 / 3600)
    (secs mod 86400 mod 3600 / 60) (secs mod 86400 mod 60)) as (Hy & Hok & Hsecs); [div_lia|done|div_lia..|].
  assert (1 ≤ m ≤ 12 ∧ 1 ≤ d ≤ 31) as [Hm Hd].
  { unfold fields_ok in Hok. rewrite !andb_true_iff, !Z.leb_le in Hok. lia. }
  destruct (fmt_pad_spec 4 y) as [? ?]; [lia|]. destruct (fmt_pad_spec 2 m) as [? ?]; [lia|].
  destruct (fmt_pad_spec 2 d) as [? ?]; [lia|].
  destruct (fmt_pad_spec 2 (secs mod 86400 / 3600)) as [? ?]; [div_lia|].
  destruct (fmt_pad_spec 2 (secs mod 86400 mod 3600 / 60)) as [? ?]; [div_lia|].
  destruct (fmt_pad_spec 2 (secs mod 86400 mod 60)) as [? ?]; [div_lia|].
  rewrite (parse_fields y m d (secs mod 86400 / 3600) (secs mod 86400 mod 3600 / 60)
    (secs mod 86400 mod 60)) by assumption.
  rewrite Hok, Hsecs. simpl. unfold secs_to_ms.
  replace (secs / 86400 * 86400 + secs mod 86400 / 3600 * 3600
    + secs mod 86400 mod 3600 / 60 * 60 + secs mod 86400 mod 60) with secs by div_lia.
  rewrite (proj2 (Z.leb_le _ _)), (proj2 (Z.ltb_lt _ _)) by lia. done.
Qed.

Lemma lake_timestamp_roundtrip_witness :
  parse_lake_timestamp_ms (fmt_epoch 1767225600) = Some (Some (1767225600 * 1000)).
Proof. apply lake_timestamp_roundtrip; lia. Defined.

(** The factory is documented to error on any shape but
    [YYYY-MM-DD HH:MM:SS].  It accepts trailing date and time fields, a negative
    hour and a day its month does not have, each as some other instant. *)
Theorem malformed_timestamps_accepted :
  parse_lake_timestamp_ms "2026-01-01-99 00:00:00:77" = parse_lake_timestamp_ms "2026-01-01 00:00:00"
  ∧ parse_lake_timestamp_ms "2026-01-01 -5:00:00" = parse_lake_timestamp_ms "2025-12-31 19:00:00"
  ∧ parse_lake_timestamp_ms "2026-02-31 00:00:00" = parse_lake_timestamp_ms "2026-03-03 00:00:00"
  ∧ from_lake_timestamp "2026-02-31 00:00:00" 1
      = Some (Ok (mkV7 1772496000000 1)).
Proof. vm_compute. done. Qed.
