(* ===== verification/UnionFind.v ===== *)
(** * Disjoint sets

    The disjoint-set forests of the engine.  [Forest] is the theory both
    share: a parent function, the root a node reaches, and what path
    compression and linking do to the roots.  [VecUF] is the forest over
    indices of [er-reconcile/src/cluster.rs] (struct [UnionFind], repeated
    inside [never_cut.rs::components]): path halving over a [Vec<usize>].
    [MapUF] is the string-keyed forest of [er-reconcile/src/assertions.rs]:
    two-pass compression over a [BTreeMap], keeping the smaller root. *)

From S2P Require Import Prelude.

(** ** Parent functions *)

Module Forest.
Section forest.
Context {K : Type} `{EqDecision K}.
Implicit Types (p : K → option K) (E : relation K).

(** [root_in p n x r]: following parents from [x] for [n] steps ends at the
    root [r], every step moving. *)
Inductive root_in p : nat → K → K → Prop :=
| root_here x : p x = Some x → root_in p 0 x x
| root_up x y r n : p x = Some y → y ≠ x → root_in p n y r → root_in p (S n) x r.

Definition root p (x r : K) : Prop := ∃ n, root_in p n x r.

(** Every node of the forest has a root: there is no cycle. *)
Definition forest p : Prop := ∀ x, is_Some (p x) → ∃ r, root p x r.

Definition same p (x y : K) : Prop := ∃ r, root p x r ∧ root p y r.

(** [p] with the parent of [x] set to [y]. *)
Definition upd p (x y : K) : K → option K :=
  λ z, if decide (z = x) then Some y else p z.

(** The forest represents the partition into the connected components of the
    undirected graph with edges [E]. *)
Definition represents p E : Prop :=
  forest p
  ∧ (∀ x y, E x y → is_Some (p x) ∧ is_Some (p y))
  ∧ ∀ x y, is_Some (p x) → same p x y ↔ rtsc E x y.

(** [E] with one more edge. *)
Definition add_edge E (a b : K) : relation K := λ x y, E x y ∨ (x = a ∧ y = b).

Lemma root_in_det p n m x r s : root_in p n x r → root_in p m x s → n = m ∧ r = s.
Proof.
  intros H. revert m s. induction H; intros m s Hs; inversion Hs; simplify_eq; try done.
  match goal with IH : ∀ _ _, _ → _ |- _ => edestruct IH; [eassumption|] end.
  naive_solver.
Qed.

Lemma root_in_ext p p' n x r :
  (∀ z, p z = p' z) → root_in p n x r → root_in p' n x r.
Proof.
  intros Hext. induction 1; [constructor|eapply root_up]; try done; by rewrite <-Hext.
Qed.

Lemma root_ext p p' x r : (∀ z, p z = p' z) → root p x r ↔ root p' x r.
Proof.
  intros Hext. split; intros [n Hn]; exists n; (eapply root_in_ext; [|done]); done.
Qed.

Lemma represents_fun_ext p p' E :
  (∀ z, p z = p' z) → represents p E → represents p' E.
Proof.
  intros Hext (Hf & HE & Hs).
  assert (∀ x r, root p' x r ↔ root p x r) as Hr by (intros; by symmetry; apply root_ext).
  split; [|split].
  - intros x Hx. rewrite <-Hext in Hx. apply Hf in Hx as [r ?]. exists r. by apply Hr.
  - intros x y. rewrite <-!Hext. apply HE.
  - intros x y. rewrite <-Hext. intros. unfold same. setoid_rewrite Hr. by apply Hs.
Qed.

Lemma root_det p x r s : root p x r → root p x s → r = s.
Proof. intros [n Hn] [m Hm]. by destruct (root_in_det _ _ _ _ _ _ Hn Hm). Qed.

Lemma root_in_root p n x r : root_in p n x r → p r = Some r.
Proof. by induction 1. Qed.

Lemma root_root p x r : root p x r → p r = Some r.
Proof. intros [n ?]. by eapply root_in_root. Qed.

Lemma root_self p r : p r = Some r → root p r r.
Proof. intros. exists 0. by constructor. Qed.

Lemma root_idemp p x r : root p x r → root p r r.
Proof. intros. by eapply root_self, root_root. Qed.

Lemma root_is_Some p x r : root p x r → is_Some (p x).
Proof. intros [n Hn]. destruct Hn; eauto. Qed.

Lemma root_parent p x y r : p x = Some y → root p x r → root p y r.
Proof.
  intros Hx [n Hn]. inversion Hn; simplify_eq; [by apply root_self|eexists; eauto].
Qed.

Lemma root_child p x y r : p x = Some y → root p y r → root p x r.
Proof.
  intros Hx [n Hn]. destruct (decide (y = x)) as [->|]; [by exists n|].
  exists (S n). by eapply root_up.
Qed.

Lemma forest_parent p x y : forest p → p x = Some y → is_Some (p y).
Proof.
  intros Hf Hx. destruct (Hf x) as [r Hr]; [eauto|].
  by eapply root_is_Some, root_parent.
Qed.

Lemma root_in_depth_ne p n m x y r s :
  root_in p n x r → root_in p m y s → n ≠ m → x ≠ y.
Proof. intros Hn Hm Hne ->. by destruct (root_in_det _ _ _ _ _ _ Hn Hm). Qed.

(** The path to the root does not repeat a node. *)
Lemma root_in_path p n x r :
  root_in p n x r →
  ∃ l, length l = S n ∧ NoDup l ∧ ∀ y, y ∈ l → is_Some (p y) ∧ ∃ m, m ≤ n ∧ root_in p m y r.
Proof.
  induction 1 as [x Hx|x y r n Hx Hne Hy (l & Hlen & HN & Hl)].
  - exists [x]. split; [done|]. split; [apply NoDup_singleton|].
    intros y ->%list_elem_of_singleton. split; [eauto|]. exists 0. split; [lia|by constructor].
  - exists (x :: l). split; [simpl; lia|]. split.
    + constructor; [|done]. intros Hin. destruct (Hl x Hin) as (_ & m & Hm & Hroot).
      eapply (root_in_depth_ne p (S n) m x x); [by eapply root_up|done|lia|done].
    + intros z [->|Hz]%elem_of_cons.
      * split; [eauto|]. exists (S n). split; [lia|]. by eapply root_up.
      * destruct (Hl z Hz) as (? & m & ? & ?). split; [done|]. exists m. split; [lia|done].
Qed.

Lemma upd_eq p x y : upd p x y x = Some y.
Proof. unfold upd. by rewrite decide_True. Qed.

Lemma upd_ne p x y z : z ≠ x → upd p x y z = p z.
Proof. intros. unfold upd. by rewrite decide_False. Qed.

Lemma upd_is_Some p x y z : is_Some (p x) → is_Some (upd p x y z) ↔ is_Some (p z).
Proof. unfold upd. case_decide; naive_solver. Qed.

(** Compression: re-parenting a node to a strictly shallower node with the
    same root moves no root and deepens no node. *)
Lemma compress_root_in p x y r n m :
  root_in p n x r → root_in p m y r → m < n →
  ∀ k z s, root_in p k z s → ∃ k', k' ≤ k ∧ root_in (upd p x y) k' z s.
Proof.
  intros Hx Hy Hmn k. induction (lt_wf k) as [k _ IH]. intros z s Hz.
  destruct (decide (z = x)) as [->|Hzx].
  - destruct (root_in_det _ _ _ _ _ _ Hx Hz) as [<- <-].
    destruct (IH m Hmn y r Hy) as (k' & Hk' & Hroot).
    exists (S k'). split; [lia|]. eapply root_up; [apply upd_eq| |done].
    eapply (root_in_depth_ne p m n); [done..|lia].
  - inversion Hz as [? Hp|? y' ? k1 Hp Hne Hz']; subst.
    + exists 0. split; [lia|]. constructor. by rewrite upd_ne.
    + destruct (IH k1 ltac:(lia) y' s Hz') as (k' & Hk' & Hroot).
      exists (S k'). split; [lia|]. eapply root_up; [|done..]. by rewrite upd_ne.
Qed.

Lemma compress_root p x y r n m :
  root_in p n x r → root_in p m y r → m < n →
  ∀ z s, root p z s ↔ root (upd p x y) z s.
Proof.
  intros Hx Hy Hmn z s.
  assert (∀ z s, root p z s → root (upd p x y) z s) as Hfw.
  { intros z' s' [k Hz]. destruct (compress_root_in _ _ _ _ _ _ Hx Hy Hmn _ _ _ Hz)
      as (k' & _ & ?). by exists k'. }
  split; [by auto|]. intros Hz. destruct Hz as [k Hz]. induction Hz as [z Hz|z y' s k Hz Hne _ IH].
  - destruct (decide (z = x)) as [->|Hzx].
    + rewrite upd_eq in Hz. simplify_eq.
      destruct (root_in_det _ _ _ _ _ _ Hx Hy). lia.
    + rewrite upd_ne in Hz by done. by apply root_self.
  - destruct (decide (z = x)) as [->|Hzx].
    + rewrite upd_eq in Hz. simplify_eq.
      assert (r = s) as <- by (eapply root_det; [by exists m|done]). by exists n.
    + rewrite upd_ne in Hz by done. by eapply root_child.
Qed.

(** Linking two distinct roots. *)
Lemma link_root p ra rb z s :
  p ra = Some ra → p rb = Some rb → ra ≠ rb → root p z s →
  root (upd p ra rb) z (if decide (s = ra) then rb else s).
Proof.
  intros Ha Hb Hne [k Hz]. induction Hz as [z Hz|z y s k Hz Hzy _ IH].
  - case_decide as Heq; subst.
    + eapply root_child; [apply upd_eq|]. apply root_self. by rewrite upd_ne.
    + apply root_self. by rewrite upd_ne.
  - eapply root_child; [|exact IH]. rewrite upd_ne; [done|]. intros ->. naive_solver.
Qed.

Lemma link_forest p ra rb :
  p ra = Some ra → p rb = Some rb → ra ≠ rb → forest p → forest (upd p ra rb).
Proof.
  intros Ha Hb Hne Hf x Hx. rewrite upd_is_Some in Hx by eauto.
  destruct (Hf x Hx) as [r Hr]. eexists. by eapply link_root.
Qed.

Lemma link_same p ra rb x y :
  p ra = Some ra → p rb = Some rb → ra ≠ rb → forest p →
  is_Some (p x) → is_Some (p y) →
  same (upd p ra rb) x y ↔
    same p x y ∨ (root p x ra ∧ root p y rb) ∨ (root p x rb ∧ root p y ra).
Proof.
  intros Ha Hb Hne Hf [r Hr]%Hf [s Hs]%Hf.
  pose proof (link_root _ _ _ _ _ Ha Hb Hne Hr) as Hr'.
  pose proof (link_root _ _ _ _ _ Ha Hb Hne Hs) as Hs'.
  assert (same (upd p ra rb) x y ↔
    (if decide (r = ra) then rb else r) = (if decide (s = ra) then rb else s)) as ->.
  { split; [intros (t & Ht1 & Ht2)|intros E].
    - rewrite (root_det _ _ _ _ Hr' Ht1). by rewrite (root_det _ _ _ _ Hs' Ht2).
    - eexists. split; [exact Hr'|]. by rewrite E. }
  assert (∀ t, root p x t ↔ t = r) as Hxr.
  { intros t; split; [|by intros ->]. intros; by eapply root_det. }
  assert (∀ t, root p y t ↔ t = s) as Hyr.
  { intros t; split; [|by intros ->]. intros; by eapply root_det. }
  unfold same. setoid_rewrite Hxr. setoid_rewrite Hyr.
  repeat case_decide; naive_solver.
Qed.

Lemma rtsc_sym' E x y : rtsc E x y → rtsc E y x.
Proof. intros. by symmetry. Qed.

Lemma rtsc_add_edge E a b x y :
  rtsc (add_edge E a b) x y ↔
    rtsc E x y ∨ (rtsc E x a ∧ rtsc E b y) ∨ (rtsc E x b ∧ rtsc E a y).
Proof.
  split.
  - intros H. induction H as [x|x z y Hs _ IH]; [left; reflexivity|].
    assert (rtsc E x z ∨ (x = a ∧ z = b) ∨ (x = b ∧ z = a)) as Hxz.
    { destruct Hs as [[?|?]|[?|?]]; [left; by apply rtsc_lr|naive_solver
        |left; by apply rtsc_rl|naive_solver]. }
    destruct Hxz as [Hxz|[[-> ->]|[-> ->]]].
    + destruct IH as [?|[[? ?]|[? ?]]]; [left|right;left|right;right];
        [|split|split]; try done; by etrans.
    + destruct IH as [?|[[? ?]|[? ?]]].
      * right; left. split; [reflexivity|done].
      * right; left. split; [reflexivity|done].
      * left. done.
    + destruct IH as [?|[[? ?]|[? ?]]].
      * right; right. split; [reflexivity|done].
      * left. done.
      * right; right. split; [reflexivity|done].
  - assert (∀ x y, rtsc E x y → rtsc (add_edge E a b) x y) as Hmono.
    { intros x' y'. apply rtc_subrel. intros u v [?|?]; [left|right]; by left. }
    assert (rtsc (add_edge E a b) a b) as Hab by (apply rtsc_lr; right; done).
    assert (rtsc (add_edge E a b) b a) as Hba by (apply rtsc_rl; right; done).
    intros [?|[[? ?]|[? ?]]]; [auto| |]; (etrans; [eauto|]); (etrans; [|eauto]); done.
Qed.

(** A forest in which every node is a root represents the empty graph. *)
Lemma represents_empty p :
  (∀ x y, p x = Some y → y = x) → represents p (λ _ _, False).
Proof.
  intros Hp. split; [|split; [done|]].
  - intros x [y Hy]. exists x. apply root_self. by rewrite Hy, (Hp _ _ Hy).
  - intros x y [x' Hx]. rewrite (Hp _ _ Hx) in Hx. split.
    + intros (r & Hr1 & Hr2). assert (r = x) as -> by (apply (root_det p x); [done|by apply root_self]).
      destruct Hr2 as [n Hn]. inversion Hn; simplify_eq; [reflexivity|].
      match goal with H : p y = Some _ |- _ => apply Hp in H; done end.
    + intros H. apply rtsc_nf in H; [subst; exists y; eauto using root_self|].
      by intros (? & [?|?]).
Qed.

(** Representation only depends on the roots. *)
Lemma represents_compress p p' E :
  represents p E →
  (∀ x, is_Some (p' x) ↔ is_Some (p x)) →
  (∀ x r, root p x r ↔ root p' x r) →
  represents p' E.
Proof.
  intros (Hf & HE & Hs) Hdom Hroot. split; [|split].
  - intros x Hx. apply Hdom, Hf in Hx as [r Hr]. exists r. by apply Hroot.
  - intros x y Hxy. rewrite !Hdom. by apply HE.
  - intros x y Hx%Hdom. rewrite <-Hs by done. unfold same. by setoid_rewrite Hroot.
Qed.

Lemma represents_ext p E E' :
  (∀ x y, E x y ↔ E' x y) → represents p E → represents p E'.
Proof.
  intros HEE (Hf & HE & Hs). split; [done|]. split.
  - intros x y Hxy%HEE. by apply HE.
  - intros x y Hx. rewrite Hs by done.
    split; apply rtc_subrel; intros u v [?|?]; [left|right|left|right]; by apply HEE.
Qed.

(** Linking the roots of the two ends of an edge adds the edge. *)
Lemma represents_link p E a b ra rb :
  represents p E → root p a ra → root p b rb → ra ≠ rb →
  represents (upd p ra rb) (add_edge E a b).
Proof.
  intros (Hf & HE & Hs) Ha Hb Hne.
  assert (p ra = Some ra) as Hra by by eapply root_root.
  assert (p rb = Some rb) as Hrb by by eapply root_root.
  assert (∀ x, is_Some (p x) → root p x ra ↔ rtsc E x a) as Hxa.
  { intros x Hx. rewrite <-Hs by done. split; [by exists ra|].
    intros (r & Hr & Hr'). by rewrite (root_det _ _ _ _ Ha Hr'). }
  assert (∀ x, is_Some (p x) → root p x rb ↔ rtsc E x b) as Hxb.
  { intros x Hx. rewrite <-Hs by done. split; [by exists rb|].
    intros (r & Hr & Hr'). by rewrite (root_det _ _ _ _ Hb Hr'). }
  split; [by apply link_forest|]. split.
  - intros x y [Hxy|[-> ->]]; rewrite !upd_is_Some by eauto; [by apply HE|].
    split; by eapply root_is_Some.
  - intros x y Hx. rewrite upd_is_Some in Hx by eauto.
    assert (∀ y, rtsc E y a ↔ rtsc E a y) as Hsa by (split; apply rtsc_sym').
    assert (∀ y, rtsc E y b ↔ rtsc E b y) as Hsb by (split; apply rtsc_sym').
    assert (is_Some (p a)) as Hpa by by eapply root_is_Some.
    assert (is_Some (p b)) as Hpb by by eapply root_is_Some.
    assert (∀ z y, is_Some (p z) → rtsc E z y → is_Some (p y)) as Hdom.
    { intros z y' Hz Hzy. apply Hs in Hzy; [|done].
      destruct Hzy as (r & _ & Hr). by eapply root_is_Some. }
    rewrite rtsc_add_edge. split.
    + intros Hxy. assert (is_Some (p y)) as Hy.
      { destruct Hxy as (r & _ & Hr). apply root_is_Some in Hr.
        by rewrite upd_is_Some in Hr by eauto. }
      apply link_same in Hxy; [|done..]. rewrite Hs in Hxy by done.
      rewrite !Hxa, !Hxb in Hxy by done. naive_solver.
    + intros Hxy. assert (is_Some (p y)) as Hy by naive_solver.
      apply link_same; [done..|]. rewrite Hs by done.
      rewrite !Hxa, !Hxb by done. naive_solver.
Qed.

(** An edge inside one component changes nothing. *)
Lemma represents_redundant p E a b r :
  represents p E → root p a r → root p b r → represents p (add_edge E a b).
Proof.
  intros (Hf & HE & Hs) Ha Hb.
  assert (rtsc E a b) as Hab.
  { apply Hs; [by eapply root_is_Some|]. by exists r. }
  split; [done|]. split.
  - intros x y [?|[-> ->]]; [by apply HE|]. split; by eapply root_is_Some.
  - intros x y Hx. rewrite Hs, rtsc_add_edge by done. split; [by left|].
    intros [?|[[? ?]|[? ?]]]; [done| |].
    + transitivity a; [done|]. by transitivity b.
    + transitivity b; [done|]. transitivity a; [by apply rtsc_sym'|done].
Qed.

End forest.
End Forest.

(** ** The index forest of [cluster.rs] *)

Module VecUF.
Import Forest.
Implicit Types (p : list nat).

(** [UnionFind::new]: every index its own parent. *)
Definition new (n : nat) : list nat := seq 0 n.

(** The loop of [UnionFind::find]: halve the path until the root. [None] is an
    index out of range, or the fuel running out. *)
Fixpoint find_loop (fuel : nat) (p : list nat) (x : nat) : option (list nat * nat) :=
  match fuel with
  | 0 => None
  | S fuel =>
      px ← p !! x;
      if decide (px = x) then Some (p, x)
      else
        g ← p !! px;
        let p := <[x := g]> p in
        x ← p !! x;
        find_loop fuel p x
  end.

(** A path is shorter than the vector, so [length p] turns are enough. *)
Definition find (p : list nat) (x : nat) : option (list nat * nat) :=
  find_loop (length p) p x.

(** [UnionFind::union]. *)
Definition union (p : list nat) (a b : nat) : option (list nat) :=
  '(p, ra) ← find p a;
  '(p, rb) ← find p b;
  Some (if decide (ra = rb) then p else <[ra := rb]> p).

(** A sequence of unions, the loop of the callers. *)
Fixpoint union_all (p : list nat) (es : list (nat * nat)) : option (list nat) :=
  match es with
  | [] => Some p
  | (a, b) :: es => p ← union p a b; union_all p es
  end.

(** The forest of a vector. *)
Definition par (p : list nat) : nat → option nat := λ x, p !! x.

Lemma par_insert p x y :
  x < length p → ∀ z, upd (par p) x y z = par (<[x := y]> p) z.
Proof.
  intros Hx z. unfold par, upd. case_decide; subst.
  - by rewrite list_lookup_insert_eq.
  - by rewrite list_lookup_insert_ne.
Qed.

Lemma find_loop_spec fuel p n x r :
  root_in (par p) n x r → n < fuel →
  ∃ p', find_loop fuel p x = Some (p', r) ∧ length p' = length p
    ∧ ∀ z s, root (par p) z s ↔ root (par p') z s.
Proof.
  revert p n x. induction fuel as [|fuel IH]; intros p n x Hx Hn; [lia|]. simpl.
  inversion Hx as [? Hp|? px ? n' Hp Hne Hpx]; subst; unfold par in Hp; rewrite Hp; simpl.
  { rewrite decide_True by done. by exists p. }
  rewrite decide_False by done.
  assert (∃ g m, par p px = Some g ∧ m ≤ n' ∧ root_in (par p) m g r) as (g & m & Hg & Hm & Hgr).
  { inversion Hpx; subst; [exists r, 0|eexists _, _]; (split; [eassumption|]);
      (split; [|eassumption]); lia. }
  assert (par p px = p !! px) as Hpar by done.
  rewrite <-Hpar, Hg. simpl. clear Hpar.
  assert (x < length p) as Hlt by by eapply lookup_lt_Some.
  rewrite list_lookup_insert_eq by done. simpl.
  destruct (compress_root_in _ _ _ _ _ _ Hx Hgr ltac:(lia) _ _ _ Hgr) as (k & Hk & Hgr').
  destruct (IH (<[x := g]> p) k g) as (p' & Hfind & Hlen & Hroot).
  { eapply root_in_ext; [|exact Hgr']. by apply par_insert. }
  { lia. }
  exists p'. rewrite Hfind. split; [done|]. split; [by rewrite Hlen, length_insert|].
  intros z s. rewrite <-Hroot.
  rewrite (compress_root _ _ _ _ _ _ Hx Hgr ltac:(lia)).
  by apply root_ext, par_insert.
Qed.

Lemma root_in_lt_length p n x r : root_in (par p) n x r → n < length p.
Proof.
  intros (l & Hlen & HN & Hl)%root_in_path.
  assert (length l ≤ size (list_to_set (seq 0 (length p)) : gset nat)) as H.
  { apply NoDup_length_set; [done|]. intros y Hy.
    destruct (Hl y Hy) as ([z Hz] & _). apply lookup_lt_Some in Hz.
    rewrite elem_of_list_to_set, elem_of_seq. lia. }
  rewrite size_list_to_set in H by apply NoDup_seq. rewrite length_seq in H. lia.
Qed.

(** [find] returns the root and moves no root. *)
Lemma find_spec p x :
  forest (par p) → x < length p →
  ∃ p' r, find p x = Some (p', r) ∧ root (par p) x r ∧ length p' = length p
    ∧ ∀ z s, root (par p) z s ↔ root (par p') z s.
Proof.
  intros Hf Hx. destruct (Hf x) as [r [n Hn]]; [by apply lookup_lt_is_Some|].
  destruct (find_loop_spec (length p) p n x r Hn) as (p' & ? & ? & ?).
  { by eapply root_in_lt_length. }
  exists p', r. split; [done|]. split; [by exists n|done].
Qed.

Lemma par_is_Some p x : is_Some (par p x) ↔ x < length p.
Proof. apply lookup_lt_is_Some. Qed.

Lemma find_represents p x E :
  represents (par p) E → x < length p →
  ∃ p' r, find p x = Some (p', r) ∧ root (par p') x r ∧ length p' = length p
    ∧ represents (par p') E ∧ ∀ z s, root (par p) z s ↔ root (par p') z s.
Proof.
  intros HE Hx. destruct (find_spec p x) as (p' & r & ? & Hr & Hlen & Hroot);
    [by destruct HE|done|].
  exists p', r. split; [done|]. split; [by apply Hroot|]. split; [done|]. split; [|done].
  eapply represents_compress; [done| |done].
  intros z. rewrite !par_is_Some, Hlen. done.
Qed.

(** [union] adds the edge. *)
Lemma union_represents p a b E :
  represents (par p) E → a < length p → b < length p →
  ∃ p', union p a b = Some p' ∧ length p' = length p
    ∧ represents (par p') (add_edge E a b).
Proof.
  intros HE Ha Hb. unfold union.
  destruct (find_represents p a E) as (p1 & ra & -> & Hra & Hlen1 & HE1 & Hroot1); [done..|].
  simpl. destruct (find_represents p1 b E) as (p2 & rb & -> & Hrb & Hlen2 & HE2 & Hroot2);
    [done|lia|].
  simpl. apply Hroot2 in Hra. eexists. split; [done|]. case_decide as Heq; subst.
  - split; [lia|]. by eapply represents_redundant.
  - split; [rewrite length_insert; lia|].
    eapply represents_fun_ext; [|by eapply represents_link].
    apply par_insert. apply par_is_Some. eapply root_is_Some. by eapply root_idemp.
Qed.

Lemma union_all_represents p es E :
  represents (par p) E → (∀ a b, (a, b) ∈ es → a < length p ∧ b < length p) →
  ∃ p', union_all p es = Some p' ∧ length p' = length p
    ∧ represents (par p') (λ x y, E x y ∨ (x, y) ∈ es).
Proof.
  revert p E. induction es as [|[a b] es IH]; intros p E HE Hes; simpl.
  { exists p. split; [done|]. split; [done|]. eapply represents_ext; [|done]. set_solver. }
  destruct (Hes a b) as [Ha Hb]; [left|].
  destruct (union_represents p a b E) as (p1 & -> & Hlen1 & HE1); [done..|]. simpl.
  destruct (IH p1 _ HE1) as (p' & -> & Hlen & HE').
  { intros. rewrite Hlen1. apply Hes. by right. }
  exists p'. split; [done|]. split; [lia|]. eapply represents_ext; [|done].
  intros x y. rewrite elem_of_cons. unfold add_edge. naive_solver.
Qed.

Lemma new_represents n : represents (par (new n)) (λ _ _, False).
Proof.
  apply represents_empty. intros x y Hy. unfold par, new in Hy.
  apply lookup_seq in Hy. lia.
Qed.

End VecUF.

(** ** The string-keyed forest of [assertions.rs] *)

Module MapUF.
Import Forest.
Implicit Types (parent : gmap string string).

(** First loop of [uf_find]: climb to the root. *)
Fixpoint climb (fuel : nat) (parent : gmap string string) (root : string) : option string :=
  match fuel with
  | 0 => None
  | S fuel =>
      next ← parent !! root;
      if decide (next = root) then Some root else climb fuel parent next
  end.

(** Second loop of [uf_find]: point the path at the root. *)
Fixpoint compress (fuel : nat) (parent : gmap string string) (root cursor : string) :
    option (gmap string string) :=
  match fuel with
  | 0 => None
  | S fuel =>
      next ← parent !! cursor;
      if decide (next = root) then Some parent
      else compress fuel (<[cursor := root]> parent) root next
  end.

(** [uf_find]; a path is shorter than the map, so [size parent] turns are enough. *)
Definition uf_find (parent : gmap string string) (key : string) :
    option (gmap string string * string) :=
  root ← climb (size parent) parent key;
  parent' ← compress (size parent) parent root key;
  Some (parent', root).

(** [uf_union]: the lexically smaller root is kept. *)
Definition uf_union (parent : gmap string string) (a b : string) :
    option (gmap string string) :=
  '(parent, root_a) ← uf_find parent a;
  '(parent, root_b) ← uf_find parent b;
  if decide (root_a = root_b) then Some parent
  else if str_ltb root_b root_a then Some (<[root_a := root_b]> parent)
  else Some (<[root_b := root_a]> parent).

Fixpoint uf_union_all (parent : gmap string string) (es : list (string * string)) :
    option (gmap string string) :=
  match es with
  | [] => Some parent
  | (a, b) :: es => parent ← uf_union parent a b; uf_union_all parent es
  end.

Definition par (parent : gmap string string) : string → option string := λ x, parent !! x.

Lemma map_par_insert parent x y z : upd (par parent) x y z = par (<[x := y]> parent) z.
Proof. unfold par, upd. rewrite lookup_insert. repeat case_decide; naive_solver. Qed.

Lemma par_dom parent x : is_Some (par parent x) ↔ x ∈ dom parent.
Proof. symmetry. apply elem_of_dom. Qed.

Lemma climb_spec fuel parent n x r :
  root_in (par parent) n x r → n < fuel → climb fuel parent x = Some r.
Proof.
  revert n x. induction fuel as [|fuel IH]; intros n x Hx Hn; [lia|]. simpl.
  inversion Hx as [? Hp|? px ? n' Hp Hne Hpx]; subst; unfold par in Hp; rewrite Hp; simpl.
  - by rewrite decide_True.
  - rewrite decide_False by done. eapply IH; [done|lia].
Qed.

Lemma compress_spec fuel parent n x r :
  root_in (par parent) n x r → n < fuel →
  ∃ parent', compress fuel parent r x = Some parent'
    ∧ dom parent' = dom parent
    ∧ ∀ z s, root (par parent) z s ↔ root (par parent') z s.
Proof.
  revert parent n x. induction fuel as [|fuel IH]; intros parent n x Hx Hn; [lia|]. simpl.
  pose proof (root_in_root _ _ _ _ Hx) as Hr.
  assert (∃ px, par parent x = Some px) as [px Hp] by (inversion Hx; eauto).
  unfold par in Hp. rewrite Hp. simpl.
  case_decide as Hpr; [by exists parent|].
  inversion Hx as [? Hp'|? px' ? n' Hp' Hne Hpx]; subst; unfold par in Hp'; [congruence|].
  assert (px' = px) as -> by congruence.
  assert (root_in (par parent) 0 r r) as Hrr by by constructor.
  destruct (compress_root_in _ _ _ _ _ _ Hx Hrr ltac:(lia) _ _ _ Hpx) as (k & Hk & Hpx').
  destruct (IH (<[x := r]> parent) k px) as (parent' & -> & Hdom & Hroot).
  { eapply root_in_ext; [|exact Hpx']. apply map_par_insert. }
  { lia. }
  exists parent'. split; [done|]. split.
  - rewrite Hdom, dom_insert_L. apply elem_of_dom_2 in Hp. set_solver.
  - intros z s. rewrite <-Hroot.
    rewrite (compress_root _ _ _ _ _ _ Hx Hrr ltac:(lia)). apply root_ext, map_par_insert.
Qed.

Lemma root_in_lt_size parent n x r : root_in (par parent) n x r → n < size parent.
Proof.
  intros (l & Hlen & HN & Hl)%root_in_path. rewrite <-size_dom.
  assert (length l ≤ size (dom parent)); [|lia].
  apply NoDup_length_set; [done|]. intros y Hy. apply elem_of_dom. by apply Hl.
Qed.

(** [uf_find] returns the root and moves no root. *)
Lemma uf_find_represents parent x E :
  represents (par parent) E → x ∈ dom parent →
  ∃ parent' r, uf_find parent x = Some (parent', r) ∧ root (par parent') x r
    ∧ dom parent' = dom parent ∧ represents (par parent') E
    ∧ ∀ z s, root (par parent) z s ↔ root (par parent') z s.
Proof.
  intros HE Hx%elem_of_dom. destruct HE as (Hf & HE & Hs).
  destruct (Hf x Hx) as [r [n Hn]]. pose proof (root_in_lt_size _ _ _ _ Hn) as Hlt.
  destruct (compress_spec _ _ _ _ _ Hn Hlt) as (parent' & E2 & Hdom & Hroot).
  exists parent', r. unfold uf_find. rewrite (climb_spec _ _ _ _ _ Hn Hlt). simpl.
  rewrite E2. split; [done|]. split; [apply Hroot; by exists n|]. split; [done|].
  split; [|done]. eapply represents_compress; [done| |done].
  intros z. unfold par. by rewrite <-!elem_of_dom, Hdom.
Qed.

Lemma represents_add_edge_sym (p : string → option string) E a b :
  represents p (add_edge E b a) → represents p (add_edge E a b).
Proof.
  intros (Hf & HE & Hs). split; [done|]. split.
  - intros x y [Hxy|[-> ->]]; [apply HE; by left|]. apply and_comm, HE. by right.
  - intros x y Hx. rewrite Hs, !rtsc_add_edge by done. naive_solver.
Qed.

Lemma uf_union_represents parent a b E :
  represents (par parent) E → a ∈ dom parent → b ∈ dom parent →
  ∃ parent', uf_union parent a b = Some parent' ∧ dom parent' = dom parent
    ∧ represents (par parent') (add_edge E a b).
Proof.
  intros HE Ha Hb. unfold uf_union.
  destruct (uf_find_represents parent a E) as (p1 & ra & -> & Hra & Hd1 & HE1 & Hroot1); [done..|].
  simpl. destruct (uf_find_represents p1 b E) as (p2 & rb & -> & Hrb & Hd2 & HE2 & Hroot2);
    [done|by rewrite Hd1|].
  simpl. apply Hroot2 in Hra.
  assert (ra ∈ dom p2) by (apply par_dom; eapply root_is_Some; by eapply root_idemp).
  assert (rb ∈ dom p2) by (apply par_dom; eapply root_is_Some; by eapply root_idemp).
  case_decide as Heq; subst.
  { eexists. split; [done|]. split; [by rewrite Hd2|]. by eapply represents_redundant. }
  destruct (str_ltb rb ra); eexists; (split; [done|]); (split; [rewrite dom_insert_L; set_solver|]).
  - eapply represents_fun_ext; [|by eapply represents_link]. apply map_par_insert.
  - apply represents_add_edge_sym.
    eapply represents_fun_ext; [|by eapply represents_link]. apply map_par_insert.
Qed.

Lemma uf_union_all_represents parent es E :
  represents (par parent) E → (∀ a b, (a, b) ∈ es → a ∈ dom parent ∧ b ∈ dom parent) →
  ∃ parent', uf_union_all parent es = Some parent' ∧ dom parent' = dom parent
    ∧ represents (par parent') (λ x y, E x y ∨ (x, y) ∈ es).
Proof.
  revert parent E. induction es as [|[a b] es IH]; intros parent E HE Hes; simpl.
  { exists parent. split; [done|]. split; [done|]. eapply represents_ext; [|done]. set_solver. }
  destruct (Hes a b) as [Ha Hb]; [left|].
  destruct (uf_union_represents parent a b E) as (p1 & -> & Hd1 & HE1); [done..|]. simpl.
  destruct (IH p1 _ HE1) as (p' & -> & Hd & HE').
  { intros. rewrite Hd1. apply Hes. by right. }
  exists p'. split; [done|]. split; [by rewrite Hd|]. eapply represents_ext; [|done].
  intros x y. rewrite elem_of_cons. unfold add_edge. naive_solver.
Qed.

End MapUF.
