(* ===== verification/Cluster.v ===== *)
(** * Clustering: min-label propagation

    [er-reconcile/src/cluster.rs], function [label_propagate]: every record is
    labelled with the smallest record key of its connected component.  The
    model follows the source statement by statement: the sorted universe, the
    index map, the unions, the first-seen key per root, the final collect.
    [None] stands for a panic (an index or key that is absent) or a loop that
    does not end; [label_propagate_total] rules both out. *)

From S2P Require Import Prelude UnionFind.
Import Forest.

(** ** Definitions *)

(** The endpoints pushed for the edges. *)
Definition endpoints (edges : list (string * string)) : list string :=
  edges ≫= λ '(a, b), [a; b].

(** [ids]: nodes then endpoints, [sort_unstable], [dedup]. *)
Definition universe (nodes : list string) (edges : list (string * string)) : list string :=
  dedup (sort_strings (nodes ++ endpoints edges)).

(** [index]: key to position. *)
Definition index_of (ids : list string) : gmap string nat :=
  map_collect ((λ '(i, s), (s, i)) <$> enumerate ids).

(** The union loop; [index[a]] panics on an absent key. *)
Fixpoint union_edges (index : gmap string nat) (uf : list nat)
    (edges : list (string * string)) : option (list nat) :=
  match edges with
  | [] => Some uf
  | (a, b) :: edges =>
      ia ← index !! a;
      ib ← index !! b;
      uf ← VecUF.union uf ia ib;
      union_edges index uf edges
  end.

(** The [root_min] loop: [entry(root).or_insert(s)] keeps the first key. *)
Fixpoint root_min_loop (uf : list nat) (root_min : gmap nat string)
    (l : list (nat * string)) : option (list nat * gmap nat string) :=
  match l with
  | [] => Some (uf, root_min)
  | (i, s) :: l =>
      '(uf, root) ← VecUF.find uf i;
      let root_min :=
        match root_min !! root with Some _ => root_min | None => <[root := s]> root_min end in
      root_min_loop uf root_min l
  end.

(** The final map: each id with the minimum of its root. *)
Fixpoint label_loop (uf : list nat) (root_min : gmap nat string)
    (l : list (nat * string)) : option (list (string * string)) :=
  match l with
  | [] => Some []
  | (i, s) :: l =>
      '(uf, root) ← VecUF.find uf i;
      m ← root_min !! root;
      rest ← label_loop uf root_min l;
      Some ((s, m) :: rest)
  end.

Definition label_propagate (nodes : list string) (edges : list (string * string)) :
    option (gmap string string) :=
  let ids := universe nodes edges in
  let index := index_of ids in
  uf ← union_edges index (VecUF.new (length ids)) edges;
  '(uf, root_min) ← root_min_loop uf ∅ (enumerate ids);
  labels ← label_loop uf root_min (enumerate ids);
  Some (map_collect labels).

(** The specification: the label of a record is the least key of its
    component. *)
Definition is_label (edges : list (string * string)) (v l : string) : Prop :=
  connected edges v l ∧ ∀ w, connected edges v w → String.le l w.

(** ** The universe and its index *)

Lemma elem_of_endpoints edges x :
  x ∈ endpoints edges ↔ ∃ y, (x, y) ∈ edges ∨ (y, x) ∈ edges.
Proof.
  unfold endpoints. rewrite list_elem_of_bind. split.
  - intros ([a b] & Hx & Hab). rewrite !elem_of_cons in Hx.
    destruct Hx as [->|[->|?]]; [eauto..|set_solver].
  - intros (y & [?|?]); [exists (x, y)|exists (y, x)]; (split; [|done]); set_solver.
Qed.

Lemma universe_set_sorted nodes edges :
  universe nodes edges = set_sorted (list_to_set (nodes ++ endpoints edges)).
Proof. apply dedup_sort_strings. Qed.

Lemma elem_of_universe nodes edges x :
  x ∈ universe nodes edges ↔ x ∈ nodes ∨ x ∈ endpoints edges.
Proof.
  rewrite universe_set_sorted. autorewrite with er. by rewrite elem_of_list_to_set, elem_of_app.
Qed.

Lemma index_of_lookup ids s i :
  NoDup ids → index_of ids !! s = Some i ↔ ids !! i = Some s.
Proof.
  intros HN. unfold index_of. rewrite map_collect_lookup.
  - rewrite list_elem_of_fmap. split.
    + intros ([j t] & [= -> ->] & Hin). by apply elem_of_enumerate.
    + intros Hi. exists (i, s). split; [done|]. by apply elem_of_enumerate.
  - rewrite <-list_fmap_compose.
    rewrite (list_fmap_ext _ snd) by (by intros ? []). by rewrite enumerate_snd.
Qed.

(** ** The union loop *)

(** The edges as index pairs. *)
Definition index_edges (ids : list string) (edges : list (string * string)) :
    list (nat * nat) :=
  omap (λ '(a, b), ia ← index_of ids !! a; ib ← index_of ids !! b; Some (ia, ib)) edges.

Definition covers (ids : list string) (edges : list (string * string)) : Prop :=
  ∀ x, x ∈ endpoints edges → x ∈ ids.

Lemma covers_index ids a b edges :
  NoDup ids → covers ids ((a, b) :: edges) →
  (∃ ia ib, index_of ids !! a = Some ia ∧ index_of ids !! b = Some ib) ∧ covers ids edges.
Proof.
  intros HN Hc. split.
  - destruct (proj1 (list_elem_of_lookup ids a)) as [ia Hia].
    { apply Hc, elem_of_endpoints. exists b. left. left. }
    destruct (proj1 (list_elem_of_lookup ids b)) as [ib Hib].
    { apply Hc, elem_of_endpoints. exists a. right. left. }
    exists ia, ib. split; by apply index_of_lookup.
  - intros x (y & Hy)%elem_of_endpoints. apply Hc, elem_of_endpoints. exists y.
    rewrite !elem_of_cons. naive_solver.
Qed.

Lemma union_edges_union_all ids uf edges :
  NoDup ids → covers ids edges →
  union_edges (index_of ids) uf edges = VecUF.union_all uf (index_edges ids edges).
Proof.
  intros HN. revert uf. induction edges as [|[a b] edges IH]; intros uf Hc; [done|].
  apply covers_index in Hc as [(ia & ib & Ha & Hb) Hc]; [|done].
  unfold index_edges. simpl. rewrite Ha, Hb. simpl.
  destruct (VecUF.union uf ia ib); simpl; [|done]. by apply IH.
Qed.

Lemma elem_of_index_edges ids edges i j :
  NoDup ids →
  (i, j) ∈ index_edges ids edges ↔
  ∃ a b, (a, b) ∈ edges ∧ ids !! i = Some a ∧ ids !! j = Some b.
Proof.
  intros HN. unfold index_edges. rewrite list_elem_of_omap. split.
  - intros ([a b] & Hab & (ia & Ha & (ib & Hb & [= -> ->])%bind_Some)%bind_Some).
    exists a, b. split; [done|]. split; by apply index_of_lookup.
  - intros (a & b & Hab & Ha%index_of_lookup & Hb%index_of_lookup); [|done..].
    exists (a, b). split; [done|]. by rewrite Ha; simpl; rewrite Hb.
Qed.

(** Connectedness of positions is connectedness of keys. *)
Lemma index_edges_connected ids edges i j s t :
  NoDup ids → covers ids edges → ids !! i = Some s → ids !! j = Some t →
  connected (index_edges ids edges) i j ↔ connected edges s t.
Proof.
  intros HN Hc Hi Hj. split.
  - intros H. revert s Hi. induction H as [i|i k j Hik _ IH]; intros s Hi; [by simplify_eq|].
    assert (∃ u, ids !! k = Some u ∧ connected edges s u) as (u & Hk & Hsu).
    { destruct Hik as [Hik|Hik]; apply elem_of_index_edges in Hik as (a & b & Hab & Ha & Hb);
        try done; simplify_eq; eexists; (split; [done|auto with er]). }
    transitivity u; [done|]. by apply (IH Hj).
  - intros H. revert i Hi. induction H as [s|s u t Hsu _ IH]; intros i Hi.
    { assert (i = j) as -> by by eapply NoDup_lookup. reflexivity. }
    assert (u ∈ ids) as [k Hk]%list_elem_of_lookup.
    { apply Hc, elem_of_endpoints. exists s. destruct Hsu; [by right|by left]. }
    transitivity k; [|by apply (IH Hj)].
    destruct Hsu as [Hsu|Hsu]; [|symmetry]; apply connected_edge, elem_of_index_edges; eauto 10.
Qed.

(** The union loop succeeds and its roots are the components. *)
Lemma union_edges_spec ids edges :
  NoDup ids → covers ids edges →
  ∃ uf, union_edges (index_of ids) (VecUF.new (length ids)) edges = Some uf
    ∧ length uf = length ids ∧ forest (VecUF.par uf)
    ∧ ∀ i j s t, ids !! i = Some s → ids !! j = Some t →
        same (VecUF.par uf) i j ↔ connected edges s t.
Proof.
  intros HN Hc. rewrite union_edges_union_all by done.
  assert (length (VecUF.new (length ids)) = length ids) as Hlen0 by apply length_seq.
  destruct (VecUF.union_all_represents (VecUF.new (length ids)) (index_edges ids edges)
              (λ _ _, False)) as (uf & -> & Hlen & Hrep).
  - apply VecUF.new_represents.
  - intros i j (a & b & _ & ?%lookup_lt_Some & ?%lookup_lt_Some)%elem_of_index_edges; [|done].
    by rewrite Hlen0.
  - rewrite Hlen0 in Hlen. exists uf. split; [done|]. split; [done|].
    split; [by destruct Hrep|].
    intros i j s t Hi Hj. rewrite <-(index_edges_connected ids edges i j) by done.
    assert (represents (VecUF.par uf) (edge_of (index_edges ids edges))) as (_ & _ & Hs).
    { eapply represents_ext; [|done]. unfold edge_of. naive_solver. }
    apply Hs, VecUF.par_is_Some. rewrite Hlen. by eapply lookup_lt_Some.
Qed.

(** ** The two find loops *)

(** Each root maps to the least of the keys seen so far below it. *)
Definition root_min_ok (uf : list nat) (root_min : gmap nat string)
    (seen : list (nat * string)) : Prop :=
  (∀ r m, root_min !! r = Some m →
     (∃ i, (i, m) ∈ seen ∧ root (VecUF.par uf) i r)
     ∧ ∀ j t, (j, t) ∈ seen → root (VecUF.par uf) j r → String.le m t)
  ∧ ∀ i s r, (i, s) ∈ seen → root (VecUF.par uf) i r → is_Some (root_min !! r).

Lemma root_min_ok_roots uf uf' rm seen :
  (∀ z s, root (VecUF.par uf) z s ↔ root (VecUF.par uf') z s) →
  root_min_ok uf rm seen → root_min_ok uf' rm seen.
Proof.
  intros Hr [H1 H2]. split.
  - intros r m (Hi & Hmin)%H1. setoid_rewrite <-Hr. done.
  - intros i s r ? ?%Hr. eauto.
Qed.

Lemma root_min_ok_snoc uf rm seen i s r :
  root_min_ok uf rm seen → root (VecUF.par uf) i r →
  Forall (λ '(_, t), String.le t s) seen →
  root_min_ok uf (match rm !! r with Some _ => rm | None => <[r := s]> rm end) (seen ++ [(i, s)]).
Proof.
  intros [H1 H2] Hi Hle. rewrite Forall_forall in Hle.
  assert (∀ j t r', (j, t) ∈ seen ++ [(i, s)] → root (VecUF.par uf) j r' →
    (j, t) ∈ seen ∨ (t = s ∧ r' = r)) as Hnew.
  { intros j t r' [?|[= -> ->]%list_elem_of_singleton]%elem_of_app ?; [by left|].
    right. split; [done|]. by eapply root_det. }
  destruct (rm !! r) as [m|] eqn:Hm.
  - split.
    + intros r' m' (( j & Hj & Hjr) & Hmin)%H1. split; [exists j; set_solver|].
      intros k t Hk Hkr. destruct (Hnew k t r' Hk Hkr) as [?|[-> ->]]; [eauto|].
      by specialize (Hle _ Hj).
    + intros k t r' Hk Hkr. destruct (Hnew k t r' Hk Hkr) as [?|[-> ->]]; eauto.
  - split.
    + intros r' m'. rewrite lookup_insert. case_decide as E; subst.
      * intros [= <-]. split; [exists i; set_solver|]. intros k t Hk Hkr.
        destruct (Hnew k t r' Hk Hkr) as [Hin|[-> _]]; [|done].
        destruct (H2 k t r' Hin Hkr) as [? ?]. by simplify_eq.
      * intros (( j & Hj & Hjr) & Hmin)%H1. split; [exists j; set_solver|].
        intros k t Hk Hkr. destruct (Hnew k t r' Hk Hkr) as [?|[-> ->]]; [eauto|done].
    + intros k t r' Hk Hkr. rewrite lookup_insert. case_decide; [done|].
      destruct (Hnew k t r' Hk Hkr) as [?|[-> ->]]; [eauto|done].
Qed.

Lemma root_min_loop_spec l seen uf rm :
  forest (VecUF.par uf) → (∀ i s, (i, s) ∈ l → i < length uf) →
  root_min_ok uf rm seen → StronglySorted String.le (seen ++ l).*2 →
  ∃ uf' rm', root_min_loop uf rm l = Some (uf', rm') ∧ length uf' = length uf
    ∧ (∀ z s, root (VecUF.par uf) z s ↔ root (VecUF.par uf') z s)
    ∧ root_min_ok uf' rm' (seen ++ l).
Proof.
  revert seen uf rm. induction l as [|[i s] l IH]; intros seen uf rm Hf Hl Hok HS; simpl.
  { exists uf, rm. rewrite app_nil_r. done. }
  destruct (VecUF.find_spec uf i) as (uf1 & r & -> & Hr & Hlen1 & Hroot1); [done|apply (Hl i s); left|].
  simpl. destruct (IH (seen ++ [(i, s)]) uf1
    (match rm !! r with Some _ => rm | None => <[r := s]> rm end)) as (uf' & rm' & E & Hlen & Hroot & Hok').
  - intros x Hx. destruct (Hf x) as [t Ht].
    { by rewrite VecUF.par_is_Some, <-Hlen1, <-VecUF.par_is_Some. }
    exists t. by apply Hroot1.
  - intros j t Hj. rewrite Hlen1. eapply Hl. by right.
  - apply (root_min_ok_roots uf); [done|]. apply root_min_ok_snoc; [done..|].
    apply Forall_forall. intros [j t] Hj. rewrite fmap_app in HS.
    eapply (StronglySorted_app_1_elem_of _ _ _ _ _ HS); [|left].
    apply list_elem_of_fmap. by exists (j, t).
  - rewrite <-(assoc_L (++)). done.
  - exists uf', rm'. rewrite E. split; [done|]. split; [lia|]. split.
    + intros z t. by rewrite Hroot1, Hroot.
    + by rewrite <-(assoc_L (++)) in Hok'.
Qed.

Lemma label_loop_spec l uf rm :
  forest (VecUF.par uf) → (∀ i s, (i, s) ∈ l → i < length uf) →
  (∀ i s r, (i, s) ∈ l → root (VecUF.par uf) i r → is_Some (rm !! r)) →
  ∃ labels, label_loop uf rm l = Some labels ∧ labels.*1 = l.*2
    ∧ ∀ s m, (s, m) ∈ labels → ∃ i r, (i, s) ∈ l ∧ root (VecUF.par uf) i r ∧ rm !! r = Some m.
Proof.
  revert uf. induction l as [|[i s] l IH]; intros uf Hf Hl Hrm; simpl.
  { exists []. split; [done|]. split; [done|]. set_solver. }
  destruct (VecUF.find_spec uf i) as (uf1 & r & -> & Hr & Hlen1 & Hroot1); [done|apply (Hl i s); left|].
  simpl. destruct (Hrm i s r) as [m Hm]; [left|done|]. rewrite Hm. simpl.
  destruct (IH uf1) as (labels & -> & Hfst & Hlab).
  - intros x Hx. destruct (Hf x) as [t Ht].
    { by rewrite VecUF.par_is_Some, <-Hlen1, <-VecUF.par_is_Some. }
    exists t. by apply Hroot1.
  - intros j t Hj. rewrite Hlen1. eapply Hl. by right.
  - intros j t r' Hj Hjr%Hroot1. eapply (Hrm j t); [by right|done].
  - simpl. eexists. split; [done|]. split; [csimpl; by rewrite Hfst|].
    intros t n [[= -> ->]|Hin]%elem_of_cons.
    + exists i, r. split; [left|done].
    + destruct (Hlab t n Hin) as (j & r' & ? & Hjr%Hroot1 & ?). exists j, r'. split; [by right|done].
Qed.

(** ** Properties *)

Lemma enumerate_lt {A} (l : list A) i x : (i, x) ∈ enumerate l → i < length l.
Proof. intros ?%elem_of_enumerate. by eapply lookup_lt_Some. Qed.

(** The whole function: it returns, it labels exactly the universe, and each
    label is the least key of the component. *)
Lemma label_propagate_spec nodes edges :
  ∃ labels, label_propagate nodes edges = Some labels
    ∧ (∀ v, is_Some (labels !! v) ↔ v ∈ nodes ∨ v ∈ endpoints edges)
    ∧ ∀ v l, labels !! v = Some l → is_label edges v l.
Proof.
  unfold label_propagate. set (ids := universe nodes edges).
  assert (NoDup ids) as HN by (unfold ids; rewrite universe_set_sorted; auto with er).
  assert (covers ids edges) as Hc by (intros x Hx; apply elem_of_universe; by right).
  destruct (union_edges_spec ids edges HN Hc) as (uf & -> & Hlen & Hf & Hsame). simpl.
  destruct (root_min_loop_spec (enumerate ids) [] uf ∅) as (uf1 & rm & -> & Hlen1 & Hroot1 & Hok);
    [done| | | |].
  { intros i s ?%enumerate_lt. by rewrite Hlen. }
  { split; [intros ??; by rewrite lookup_empty|set_solver]. }
  { simpl. rewrite enumerate_snd. unfold ids. rewrite universe_set_sorted.
    apply StronglySorted_set_sorted. }
  simpl in Hok |- *.
  assert (∀ i s r, (i, s) ∈ enumerate ids → root (VecUF.par uf1) i r → is_Some (rm !! r)) as Hrm
    by (intros i s r Hi Hr; by eapply Hok).
  destruct (label_loop_spec (enumerate ids) uf1 rm) as (labels & -> & Hfst & Hlab); [| |done|].
  { intros x Hx. destruct (Hf x) as [t Ht]; [|exists t; by apply Hroot1].
    rewrite VecUF.par_is_Some, <-Hlen1. by apply VecUF.par_is_Some. }
  { intros i s ?%enumerate_lt. by rewrite Hlen1, Hlen. }
  simpl. eexists. split; [done|]. split.
  - intros v. rewrite map_collect_dom, Hfst, enumerate_snd. apply elem_of_universe.
  - intros v l Hv%map_collect_elem_of. destruct (Hlab v l Hv) as (i & r & Hi & Hir & Hrl).
    apply elem_of_enumerate in Hi. destruct Hok as [Hok _].
    destruct (Hok r l Hrl) as ((j & Hj%elem_of_enumerate & Hjr) & Hmin).
    assert (∀ k t, ids !! k = Some t → root (VecUF.par uf1) k r ↔ connected edges v t) as Hk.
    { intros k t Hk. rewrite <-(Hsame i k v t Hi Hk). unfold same. setoid_rewrite Hroot1.
      split; [by exists r|]. intros (r' & ? & ?).
      by rewrite (root_det _ _ _ _ Hir ltac:(done)). }
    split; [by apply (Hk j l)|]. intros w Hvw.
    assert (w ∈ ids) as [k Hkw]%list_elem_of_lookup.
    { apply connected_isolated in Hvw as [<-|[_ (c & Hcw)]].
      - by eapply list_elem_of_lookup_2.
      - apply Hc, elem_of_endpoints. exists c. done. }
    apply (Hmin k w); [by apply elem_of_enumerate|]. by apply (Hk k w).
Qed.

Lemma is_label_unique edges v l l' : is_label edges v l → is_label edges v l' → l = l'.
Proof. intros [? H] [? H']. apply (anti_symm String.le); auto. Qed.

Lemma label_propagate_label nodes edges labels v l :
  label_propagate nodes edges = Some labels → v ∈ nodes ∨ v ∈ endpoints edges →
  labels !! v = Some l ↔ is_label edges v l.
Proof.
  intros E Hv. destruct (label_propagate_spec nodes edges) as (labels' & E' & Hdom & Hlab).
  simplify_eq. split; [apply Hlab|]. intros Hl. apply Hdom in Hv as [l' Hl'].
  rewrite Hl'. f_equal. eapply is_label_unique; [by apply Hlab|done].
Qed.

Lemma label_propagate_iff nodes edges :
  ∃ labels, label_propagate nodes edges = Some labels
    ∧ ∀ v l, labels !! v = Some l ↔
        (v ∈ nodes ∨ v ∈ endpoints edges) ∧ is_label edges v l.
Proof.
  destruct (label_propagate_spec nodes edges) as (labels & E & Hdom & Hlab).
  exists labels. split; [done|]. intros v l. split.
  - intros Hv. split; [apply Hdom; eauto|by apply Hlab].
  - intros [Hv Hl]. by eapply label_propagate_label.
Qed.

(** C5: min-label propagation is total (no panic, every loop ends) and correct:
    it labels exactly the given nodes and the edge endpoints, and the label of
    a record is the least record key of its connected component. *)
Theorem label_propagate_correct nodes edges :
  ∃ labels, label_propagate nodes edges = Some labels
    ∧ ∀ v l, labels !! v = Some l ↔
        (v ∈ nodes ∨ v ∈ endpoints edges) ∧ is_label edges v l.
Proof. apply label_propagate_iff. Qed.

Lemma is_label_edges edges edges' v l :
  (∀ a b, connected edges a b ↔ connected edges' a b) →
  is_label edges v l ↔ is_label edges' v l.
Proof. intros H. unfold is_label. by setoid_rewrite H. Qed.

(** The labels do not depend on the order of the nodes, on the order or
    multiplicity of the edges, or on the orientation of a pair. *)
Theorem label_propagate_order_independent nodes nodes' edges edges' :
  (∀ v, v ∈ nodes ↔ v ∈ nodes') →
  (∀ a b, (a, b) ∈ edges ∨ (b, a) ∈ edges ↔ (a, b) ∈ edges' ∨ (b, a) ∈ edges') →
  label_propagate nodes edges = label_propagate nodes' edges'.
Proof.
  intros Hn He.
  destruct (label_propagate_iff nodes edges) as (m & -> & Hm).
  destruct (label_propagate_iff nodes' edges') as (m' & -> & Hm').
  f_equal. apply map_eq. intros v. apply option_eq. intros l.
  rewrite Hm, Hm', Hn, !elem_of_endpoints.
  rewrite (is_label_edges edges edges').
  - setoid_rewrite He. done.
  - intros a b. split; apply connected_mono; intros x y Hxy; apply He; by left.
Qed.

Lemma label_propagate_order_independent_witness :
  label_propagate ["b"; "a"; "z"] [("c", "b"); ("b", "a")]
  = label_propagate ["a"; "z"; "b"; "a"] [("a", "b"); ("b", "c"); ("b", "a")].
Proof.
  apply label_propagate_order_independent.
  - intros v. rewrite !elem_of_cons, elem_of_nil. tauto.
  - intros a b. rewrite !elem_of_cons, !elem_of_nil, !pair_equal_spec. tauto.
Defined.

(** Two labelled records carry the same label exactly when a chain of edges
    joins them, so the labels are the clustering partition; relabelling a label
    is the identity. *)
Theorem label_propagate_partition nodes edges labels v w lv lw :
  label_propagate nodes edges = Some labels →
  labels !! v = Some lv → labels !! w = Some lw →
  (lv = lw ↔ connected edges v w) ∧ labels !! lv = Some lv.
Proof.
  intros E Hv Hw. destruct (label_propagate_iff nodes edges) as (m & E' & Hm).
  rewrite E in E'. injection E' as <-.
  apply Hm in Hv as (Hvu & Hcv & Hminv), Hw as (Hwu & Hcw & Hminw). split; [split|].
  - intros ->. transitivity lw; [done|by symmetry].
  - intros Hvw. apply (anti_symm String.le).
    + apply Hminv. by transitivity w.
    + apply Hminw. transitivity v; [by symmetry|done].
  - apply Hm. split.
    + destruct (connected_isolated _ _ _ Hcv) as [->|[_ (c & ?)]]; [done|].
      right. apply elem_of_endpoints. by exists c.
    + split; [reflexivity|]. intros x Hx. apply Hminv. by transitivity lv.
Qed.

Lemma label_propagate_partition_witness :
  ∃ labels, label_propagate ["z"] [("c", "b"); ("b", "a")] = Some labels
    ∧ ("a" = "a" ↔ connected [("c", "b"); ("b", "a")] "c" "b") ∧ labels !! "a" = Some "a".
Proof.
  eexists. split; [vm_compute; reflexivity|].
  apply (label_propagate_partition ["z"] [("c", "b"); ("b", "a")] _ "c" "b" "a" "a");
    vm_compute; reflexivity.
Defined.
