(* ===== verification/Assertions.v ===== *)
(** * Steward assertions and their contradictions

    [er-reconcile/src/assertions.rs]: the assertion data and
    [check_contradiction_1], which reports every active [never] pair that the
    active [always] assertions force together.  [None] is a panic (a missing
    map key) or a loop that does not end. *)

From S2P Require Import Prelude UnionFind.
Import Forest.

(** ** Definitions *)

Inductive AssertionKind := Always | Never.

#[global] Instance AssertionKind_eq_dec : EqDecision AssertionKind.
Proof. solve_decision. Defined.

Record Assertion := mkAssertion {
  assertion_id : string;
  rec_a_key : string;
  rec_b_key : string;
  kind : AssertionKind;
  active : bool;
}.

#[global] Instance Assertion_eq_dec : EqDecision Assertion.
Proof. solve_decision. Defined.

Record Contradiction := mkContradiction {
  c_rec_a_key : string;
  c_rec_b_key : string;
  never_assertion_id : string;
  always_assertion_ids : list string;
  component : gset string;
}.

(** The active assertions, and the active [always] ones. *)
Definition active_of (assertions : list Assertion) : list Assertion :=
  filter (λ a, active a = true) assertions.

Definition always_of (assertions : list Assertion) : list Assertion :=
  filter (λ a, kind a = Always) (active_of assertions).

Definition pair_of (a : Assertion) : string * string := (rec_a_key a, rec_b_key a).

(** [parent.entry(key).or_insert_with(|| key.clone())]. *)
Definition or_insert_self (parent : gmap string string) (key : string) : gmap string string :=
  match parent !! key with Some _ => parent | None => <[key := key]> parent end.

Definition init_parent (always : list Assertion) : gmap string string :=
  foldl (λ parent a, or_insert_self (or_insert_self parent (rec_a_key a)) (rec_b_key a))
    ∅ always.

(** [components.entry(root).or_default().insert(key)] over the keys. *)
Fixpoint components_loop (parent : gmap string string)
    (components : gmap string (gset string)) (keys : list string) :
    option (gmap string string * gmap string (gset string)) :=
  match keys with
  | [] => Some (parent, components)
  | key :: keys =>
      '(parent, root) ← MapUF.uf_find parent key;
      let group := default ∅ (components !! root) in
      components_loop parent (<[root := {[key]} ∪ group]> components) keys
  end.

(** [offenders.entry(root).or_default().push(id)] over the [always]. *)
Fixpoint offenders_loop (parent : gmap string string)
    (offenders : gmap string (list string)) (always : list Assertion) :
    option (gmap string string * gmap string (list string)) :=
  match always with
  | [] => Some (parent, offenders)
  | a :: always =>
      '(parent, root) ← MapUF.uf_find parent (rec_a_key a);
      let ids := default [] (offenders !! root) in
      offenders_loop parent (<[root := ids ++ [assertion_id a]]> offenders) always
  end.

(** The loop over the active assertions. *)
Fixpoint found_loop (parent : gmap string string)
    (components : gmap string (gset string)) (offenders : gmap string (list string))
    (l : list Assertion) : option (list Contradiction) :=
  match l with
  | [] => Some []
  | a :: l =>
      if decide (kind a ≠ Never) then found_loop parent components offenders l
      else if decide (rec_a_key a ∉ dom parent ∨ rec_b_key a ∉ dom parent)
      then found_loop parent components offenders l
      else
        '(parent, root) ← MapUF.uf_find parent (rec_a_key a);
        '(parent, root_b) ← MapUF.uf_find parent (rec_b_key a);
        if decide (root ≠ root_b) then found_loop parent components offenders l
        else
          ids ← offenders !! root;
          comp ← components !! root;
          rest ← found_loop parent components offenders l;
          Some ({| c_rec_a_key := rec_a_key a; c_rec_b_key := rec_b_key a;
                   never_assertion_id := assertion_id a;
                   always_assertion_ids := sort_strings ids;
                   component := comp |} :: rest)
  end.

(** The order [found] is sorted by: the pair of keys, lexicographically. *)
Definition pair_le (p q : string * string) : Prop :=
  str_lt p.1 q.1 ∨ (p.1 = q.1 ∧ String.le p.2 q.2).

#[global] Instance pair_le_dec : RelDecision pair_le.
Proof. intros p q. unfold pair_le. apply _. Defined.

Definition c_pair (c : Contradiction) : string * string := (c_rec_a_key c, c_rec_b_key c).

Definition c_le (c d : Contradiction) : Prop := pair_le (c_pair c) (c_pair d).

#[global] Instance c_le_dec : RelDecision c_le.
Proof. intros c d. unfold c_le. apply _. Defined.

Definition check_contradiction_1 (assertions : list Assertion) :
    option (list Contradiction) :=
  let active := active_of assertions in
  let always := always_of assertions in
  parent ← MapUF.uf_union_all (init_parent always) (pair_of <$> always);
  '(parent, components) ← components_loop parent ∅ (set_sorted (dom parent));
  '(parent, offenders) ← offenders_loop parent ∅ always;
  found ← found_loop parent components offenders active;
  Some (merge_sort c_le found).

(** The closure of the active [always] assertions. *)
Definition closure (assertions : list Assertion) : relation string :=
  connected (pair_of <$> always_of assertions).

(** The records the closure speaks of. *)
Definition asserted (assertions : list Assertion) (x : string) : Prop :=
  ∃ a, a ∈ always_of assertions ∧ (x = rec_a_key a ∨ x = rec_b_key a).

(** An active [never] whose ends the closure puts together. *)
Definition offends (assertions : list Assertion) (a : Assertion) : Prop :=
  a ∈ assertions ∧ active a = true ∧ kind a = Never
  ∧ asserted assertions (rec_a_key a) ∧ closure assertions (rec_a_key a) (rec_b_key a).

(** What a finding [c] for the assertion [a] has to say. *)
Definition is_contradiction (assertions : list Assertion) (a : Assertion)
    (c : Contradiction) : Prop :=
  offends assertions a
  ∧ c_pair c = pair_of a ∧ never_assertion_id c = assertion_id a
  ∧ (∀ x, x ∈ component c ↔ closure assertions (rec_a_key a) x)
  ∧ StronglySorted String.le (always_assertion_ids c)
  ∧ always_assertion_ids c ≡ₚ
      assertion_id <$> filter (λ b, rec_a_key b ∈ component c) (always_of assertions).

(** A set of assertions is satisfiable when some partition keeps every
    [always] pair together and every [never] pair apart. *)
Definition satisfiable (assertions : list Assertion) : Prop :=
  ∃ R : relation string, Equivalence R
    ∧ ∀ a, a ∈ assertions → active a = true →
        match kind a with
        | Always => R (rec_a_key a) (rec_b_key a)
        | Never => ¬ R (rec_a_key a) (rec_b_key a)
        end.

(** ** The forest of the [always] assertions *)

Lemma elem_of_active_of assertions a :
  a ∈ active_of assertions ↔ a ∈ assertions ∧ active a = true.
Proof. unfold active_of. rewrite list_elem_of_filter. naive_solver. Qed.

Lemma elem_of_always_of assertions a :
  a ∈ always_of assertions ↔ a ∈ assertions ∧ active a = true ∧ kind a = Always.
Proof. unfold always_of. rewrite list_elem_of_filter, elem_of_active_of. naive_solver. Qed.

Definition keys_of (always : list Assertion) (x : string) : Prop :=
  ∃ a, a ∈ always ∧ (x = rec_a_key a ∨ x = rec_b_key a).

Lemma or_insert_self_lookup parent key x y :
  (∀ x y, parent !! x = Some y → y = x) →
  or_insert_self parent key !! x = Some y ↔ y = x ∧ (x = key ∨ is_Some (parent !! x)).
Proof.
  intros Hp. unfold or_insert_self. destruct (parent !! key) as [z|] eqn:E.
  - split.
    + intros H. split; [by apply Hp|]. eauto.
    + intros [-> [->|[z' Hz]]]; [by rewrite E, (Hp _ _ E)|by rewrite Hz, (Hp _ _ Hz)].
  - rewrite lookup_insert. case_decide; subst; split.
    + intros [= <-]. auto.
    + by intros [-> _].
    + intros Hxy. split; [by apply Hp|]. eauto.
    + intros [-> [?|[z' Hz]]]; [done|]. by rewrite Hz, (Hp _ _ Hz).
Qed.

Lemma init_parent_lookup always x y :
  init_parent always !! x = Some y ↔ y = x ∧ keys_of always x.
Proof.
  unfold init_parent. revert x y. induction always as [|a always IH] using rev_ind; intros x y.
  { simpl. rewrite lookup_empty. unfold keys_of. split; [done|]. set_solver. }
  rewrite foldl_app. simpl. set (p := foldl _ _ always) in *.
  assert (∀ x y, p !! x = Some y → y = x) as Hp by (intros ??; rewrite IH; naive_solver).
  assert (∀ x, is_Some (p !! x) ↔ keys_of always x) as Hdom.
  { intros z. unfold is_Some. setoid_rewrite IH. naive_solver. }
  rewrite or_insert_self_lookup.
  - assert (is_Some (or_insert_self p (rec_a_key a) !! x) ↔
      x = rec_a_key a ∨ is_Some (p !! x)) as ->.
    { unfold is_Some at 1. setoid_rewrite or_insert_self_lookup; [|done]. naive_solver. }
    rewrite Hdom. unfold keys_of. setoid_rewrite elem_of_app.
    setoid_rewrite list_elem_of_singleton. naive_solver.
  - intros x' y'. rewrite or_insert_self_lookup by done. naive_solver.
Qed.

(** A forest with the same nodes and roots. *)
Definition par_equiv (p p' : gmap string string) : Prop :=
  dom p' = dom p ∧ ∀ z s, root (MapUF.par p) z s ↔ root (MapUF.par p') z s.

#[global] Instance par_equiv_equiv : Equivalence par_equiv.
Proof.
  split.
  - by intros p.
  - intros p q [Hd Hr]. split; [done|]. intros; by symmetry.
  - intros p q r [Hd1 Hr1] [Hd2 Hr2]. split; [by rewrite Hd2|].
    intros z s. by rewrite Hr1, Hr2.
Qed.

Section closed.
(** The forest after the unions, the partition it represents. *)
Context (E : relation string).

Lemma find_equiv p x :
  represents (MapUF.par p) E → x ∈ dom p →
  ∃ p' r, MapUF.uf_find p x = Some (p', r) ∧ root (MapUF.par p) x r
    ∧ represents (MapUF.par p') E ∧ par_equiv p p'.
Proof.
  intros HE Hx. destruct (MapUF.uf_find_represents p x E HE Hx)
    as (p' & r & Hf & Hr & Hd & HE' & Hroot).
  exists p', r. split; [done|]. split; [by apply Hroot|]. split; [done|]. by split.
Qed.

Lemma components_loop_spec keys p comps :
  represents (MapUF.par p) E → (∀ x, x ∈ keys → x ∈ dom p) →
  ∃ p' comps', components_loop p comps keys = Some (p', comps')
    ∧ represents (MapUF.par p') E ∧ par_equiv p p'
    ∧ ∀ r, (is_Some (comps' !! r) ↔
              is_Some (comps !! r) ∨ ∃ x, x ∈ keys ∧ root (MapUF.par p) x r)
        ∧ ∀ x, x ∈ default ∅ (comps' !! r) ↔
            x ∈ default ∅ (comps !! r) ∨ (x ∈ keys ∧ root (MapUF.par p) x r).
Proof.
  revert p comps. induction keys as [|key keys IH]; intros p comps HE Hk; simpl.
  { exists p, comps. split; [done|]. split; [done|]. split; [done|]. intros r. split.
    - split; [by left|]. intros [?|(x & Hx & _)]; [done|set_solver].
    - intros x. set_solver. }
  destruct (find_equiv p key) as (p1 & r1 & -> & Hr1 & HE1 & Heq1); [done|set_solver|]. simpl.
  destruct (IH p1 (<[r1 := {[key]} ∪ default ∅ (comps !! r1)]> comps) HE1)
    as (p' & comps' & -> & HE' & Heq' & Hc).
  { intros x Hx. rewrite (proj1 Heq1). set_solver. }
  exists p', comps'. split; [done|]. split; [done|]. split; [by transitivity p1|].
  assert (∀ r, root (MapUF.par p) key r ↔ r = r1) as Hkey.
  { intros r; split; [intros; by eapply root_det|by intros ->]. }
  intros r. destruct (Hc r) as [Hc1 Hc2]. rewrite Hc1. setoid_rewrite Hc2.
  setoid_rewrite <-(proj2 Heq1). rewrite lookup_insert.
  setoid_rewrite elem_of_cons. split; [|intros x]; case_decide; subst; simpl;
    rewrite ?elem_of_union, ?elem_of_singleton; naive_solver.
Qed.

Lemma offenders_loop_spec always p off :
  represents (MapUF.par p) E → (∀ a, a ∈ always → rec_a_key a ∈ dom p) →
  ∃ p' off', offenders_loop p off always = Some (p', off')
    ∧ represents (MapUF.par p') E ∧ par_equiv p p'
    ∧ ∀ r, (is_Some (off' !! r) ↔
              is_Some (off !! r) ∨ ∃ a, a ∈ always ∧ root (MapUF.par p) (rec_a_key a) r)
        ∧ ∀ X : gset string,
            (∀ a, a ∈ always → rec_a_key a ∈ X ↔ root (MapUF.par p) (rec_a_key a) r) →
            default [] (off' !! r) =
              default [] (off !! r) ++
              (assertion_id <$> filter (λ a, rec_a_key a ∈ X) always).
Proof.
  revert p off. induction always as [|a always IH]; intros p off HE Hk; simpl.
  { exists p, off. split; [done|]. split; [done|]. split; [done|]. intros r. split.
    - split; [by left|]. intros [?|(x & Hx & _)]; [done|set_solver].
    - intros X _. by rewrite app_nil_r. }
  destruct (find_equiv p (rec_a_key a)) as (p1 & r1 & -> & Hr1 & HE1 & Heq1);
    [done|apply Hk; left|]. simpl.
  destruct (IH p1 (<[r1 := default [] (off !! r1) ++ [assertion_id a]]> off) HE1)
    as (p' & off' & -> & HE' & Heq' & Hc).
  { intros b Hb. rewrite (proj1 Heq1). apply Hk. by right. }
  exists p', off'. split; [done|]. split; [done|]. split; [by transitivity p1|].
  assert (∀ r, root (MapUF.par p) (rec_a_key a) r ↔ r = r1) as Hkey.
  { intros r; split; [intros; by eapply root_det|by intros ->]. }
  intros r. destruct (Hc r) as [Hc1 Hc2]. split.
  - rewrite Hc1. setoid_rewrite <-(proj2 Heq1). rewrite lookup_insert.
    setoid_rewrite elem_of_cons. case_decide; subst; naive_solver.
  - intros X HX. rewrite (Hc2 X).
    + rewrite lookup_insert, filter_cons. specialize (HX a ltac:(left)).
      rewrite Hkey in HX. case_decide; subst; simpl.
      * rewrite decide_True by naive_solver. by rewrite <-(assoc_L (++)).
      * rewrite decide_False by naive_solver. done.
    + intros b Hb. rewrite <-(proj2 Heq1). apply HX. by right.
Qed.

(** What the last loop pushes for one assertion. *)
Definition finding (p : gmap string string) (comps : gmap string (gset string))
    (off : gmap string (list string)) (a : Assertion) (c : Contradiction) : Prop :=
  kind a = Never ∧ ∃ r ids comp,
    root (MapUF.par p) (rec_a_key a) r ∧ root (MapUF.par p) (rec_b_key a) r
    ∧ off !! r = Some ids ∧ comps !! r = Some comp
    ∧ c = {| c_rec_a_key := rec_a_key a; c_rec_b_key := rec_b_key a;
             never_assertion_id := assertion_id a;
             always_assertion_ids := sort_strings ids; component := comp |}.

Lemma finding_equiv p p' comps off a c :
  par_equiv p p' → finding p' comps off a c ↔ finding p comps off a c.
Proof. intros [_ Hr]. unfold finding. by setoid_rewrite Hr. Qed.

Lemma found_loop_spec l p comps off :
  represents (MapUF.par p) E →
  (∀ x r, root (MapUF.par p) x r → is_Some (off !! r) ∧ is_Some (comps !! r)) →
  ∃ found, found_loop p comps off l = Some found
    ∧ ∀ c, c ∈ found ↔ ∃ a, a ∈ l ∧ finding p comps off a c.
Proof.
  revert p. induction l as [|a l IH]; intros p HE Hok; simpl.
  { exists []. split; [done|]. set_solver. }
  assert (∀ p', represents (MapUF.par p') E → par_equiv p p' →
    ∃ found, found_loop p' comps off l = Some found
      ∧ ∀ c, c ∈ found ↔ ∃ a, a ∈ l ∧ finding p comps off a c) as IH'.
  { intros p' HE' Heq. destruct (IH p') as (found & -> & Hfound); [done| |].
    - intros x r Hx. eapply Hok. by apply (proj2 Heq).
    - exists found. split; [done|]. intros c. rewrite Hfound.
      f_equiv; intros b. by rewrite (finding_equiv p p'). }
  assert ((¬ ∃ c, finding p comps off a c) →
    ∃ found, found_loop p comps off l = Some found
      ∧ ∀ c, c ∈ found ↔ ∃ b, b ∈ a :: l ∧ finding p comps off b c) as Hskip.
  { intros Hno. destruct (IH' p) as (found & -> & Hfound); [done..|].
    exists found. split; [done|]. intros c. rewrite Hfound.
    setoid_rewrite elem_of_cons. naive_solver. }
  case_decide as Hkind; [apply Hskip; unfold finding; naive_solver|].
  case_decide as Hdom.
  { apply Hskip. intros (c & _ & r & ids & comp & Ha%root_is_Some & Hb%root_is_Some & _).
    apply MapUF.par_dom in Ha, Hb. naive_solver. }
  apply Decidable.not_or in Hdom as [Hda%dec_stable Hdb%dec_stable].
  destruct (find_equiv p (rec_a_key a)) as (p1 & ra & -> & Hra & HE1 & Heq1); [done..|]. simpl.
  destruct (find_equiv p1 (rec_b_key a)) as (p2 & rb & -> & Hrb & HE2 & Heq2);
    [done|by rewrite (proj1 Heq1)|]. simpl.
  apply (proj2 Heq1) in Hrb. assert (par_equiv p p2) as Heq by by transitivity p1.
  destruct (IH' p2 HE2 Heq) as (found & -> & Hfound).
  case_decide as Hroot.
  { exists found. split; [done|]. intros c. rewrite Hfound. setoid_rewrite elem_of_cons.
    assert (¬ finding p comps off a c); [|naive_solver].
    intros (_ & r & ids & comp & Ha & Hb & _).
    apply Hroot. rewrite (root_det _ _ _ _ Hra Ha). by eapply root_det. }
  subst rb.
  destruct (Hok _ _ Hra) as [[ids Hids] [comp Hcomp]]. rewrite Hids, Hcomp. simpl.
  eexists. split; [done|]. intros c. rewrite elem_of_cons, Hfound.
  setoid_rewrite elem_of_cons. split.
  - intros [->|?]; [|naive_solver]. exists a. split; [by left|].
    split; [done|]. by exists ra, ids, comp.
  - intros (b & [->|Hb] & Hc); [left|right; eauto].
    destruct Hc as (_ & r & ids' & comp' & Ha & _ & Hi & Hc' & ->).
    rewrite (root_det _ _ _ _ Ha Hra) in Hi, Hc'. by simplify_eq.
Qed.
End closed.

(** ** Properties *)

#[global] Instance pair_le_total : Total pair_le.
Proof.
  intros [a b] [c d]. unfold pair_le; simpl.
  destruct (str_lt_total a c) as [?|[->|?]]; [auto| |auto].
  destruct (total String.le b d); auto.
Qed.

#[global] Instance pair_le_trans : Transitive pair_le.
Proof.
  intros [a b] [c d] [e f]. unfold pair_le; simpl.
  intros [?|[-> ?]] [?|[-> ?]]; [left; by eapply str_lt_trans|by left|by left|].
  right. split; [done|]. by etrans.
Qed.

#[global] Instance c_le_total : Total c_le.
Proof. intros c d. apply (total pair_le). Qed.

#[global] Instance c_le_trans : Transitive c_le.
Proof. intros c d e. apply (transitivity (R:=pair_le)). Qed.

Lemma asserted_keys assertions x : asserted assertions x ↔ keys_of (always_of assertions) x.
Proof. done. Qed.

Lemma closure_asserted assertions x y :
  closure assertions x y → x = y ∨ asserted assertions x ∧ asserted assertions y.
Proof.
  assert (∀ x c, (x, c) ∈ (pair_of <$> always_of assertions)
    ∨ (c, x) ∈ (pair_of <$> always_of assertions) → asserted assertions x) as H.
  { intros z c [(a & [= -> ->] & Ha)%list_elem_of_fmap|(a & [= -> ->] & Ha)%list_elem_of_fmap];
      exists a; auto. }
  intros [->|[[c Hc] [d Hd]]]%connected_isolated; eauto.
Qed.

(** The forest the checker ends its unions with. *)
Lemma always_forest assertions :
  ∃ p, MapUF.uf_union_all (init_parent (always_of assertions)) (pair_of <$> always_of assertions)
         = Some p
    ∧ (∀ x, x ∈ dom p ↔ asserted assertions x)
    ∧ represents (MapUF.par p) (edge_of (pair_of <$> always_of assertions)).
Proof.
  assert (∀ x, x ∈ dom (init_parent (always_of assertions)) ↔ asserted assertions x) as Hdom.
  { intros x. rewrite elem_of_dom. unfold is_Some. setoid_rewrite init_parent_lookup.
    rewrite asserted_keys. naive_solver. }
  destruct (MapUF.uf_union_all_represents (init_parent (always_of assertions))
    (pair_of <$> always_of assertions) (λ _ _, False)) as (p & E & Hd & Hrep).
  - apply represents_empty. intros x y Hy. unfold MapUF.par in Hy.
    apply init_parent_lookup in Hy. naive_solver.
  - intros a b (c & [= -> ->] & Hc)%list_elem_of_fmap. rewrite !Hdom.
    split; exists c; auto.
  - exists p. split; [done|]. split; [by rewrite Hd|].
    eapply represents_ext; [|done]. unfold edge_of. naive_solver.
Qed.

(** The finding of an assertion is determined. *)
Lemma is_contradiction_unique assertions a c d :
  is_contradiction assertions a c → is_contradiction assertions a d → c = d.
Proof.
  destruct c as [ca cb cn ci cc], d as [da db dn di dc].
  unfold is_contradiction, c_pair, pair_of; simpl.
  intros (_ & Hc & -> & Hcc & Hcs & Hcp) (_ & Hd & -> & Hdc & Hds & Hdp). simplify_eq.
  assert (cc = dc) as -> by (apply set_eq; intros x; by rewrite Hcc, Hdc).
  f_equal. apply (StronglySorted_unique String.le); [done..|]. by rewrite Hcp, Hdp.
Qed.

Lemma check_contradiction_1_spec assertions :
  ∃ found, check_contradiction_1 assertions = Some found
    ∧ StronglySorted c_le found
    ∧ (∀ c, c ∈ found ↔ ∃ a, is_contradiction assertions a c)
    ∧ ∀ a, offends assertions a → ∃ c, is_contradiction assertions a c.
Proof.
  unfold check_contradiction_1.
  destruct (always_forest assertions) as (p & -> & Hdom & HE). simpl.
  set (E := edge_of _) in HE.
  assert (∀ x, x ∈ dom p → ∃ r, root (MapUF.par p) x r) as Hforest.
  { intros x Hx%MapUF.par_dom. by apply (proj1 HE). }
  assert (∀ x y r, root (MapUF.par p) x r →
    root (MapUF.par p) y r ↔ closure assertions x y) as Hclo.
  { intros x y r Hx. change (closure assertions x y) with (rtsc E x y).
    rewrite <-(proj2 (proj2 HE) x y) by (by eapply root_is_Some).
    split; [by exists r|]. intros (r' & Hx' & Hy). by rewrite (root_det _ _ _ _ Hx Hx'). }
  assert (∀ x r, root (MapUF.par p) x r → asserted assertions x) as Hass.
  { intros x r Hx%root_is_Some%MapUF.par_dom. by apply Hdom. }
  destruct (components_loop_spec E (set_sorted (dom p)) p ∅) as (p1 & comps & -> & HE1 & Heq1 & Hc);
    [done|intros x; by rewrite elem_of_set_sorted|]. simpl.
  destruct (offenders_loop_spec E (always_of assertions) p1 ∅) as (p2 & off & -> & HE2 & Heq2 & Ho);
    [done| |]; simpl.
  { intros a Ha. rewrite (proj1 Heq1). apply Hdom. exists a. auto. }
  assert (par_equiv p p2) as Heq by by transitivity p1.
  assert (∀ x r, root (MapUF.par p) x r → is_Some (off !! r) ∧ is_Some (comps !! r)) as Hsome.
  { intros x r Hx. rewrite (proj1 (Ho r)), (proj1 (Hc r)). split; right.
    - destruct (Hass x r Hx) as (a & Ha & Hxa). exists a. split; [done|].
      apply (proj2 Heq1). apply (Hclo x); [done|].
      assert (closure assertions (rec_a_key a) (rec_b_key a)).
      { apply connected_edge, list_elem_of_fmap. by exists a. }
      destruct Hxa as [->| ->]; [reflexivity|by symmetry].
    - exists x. split; [|done]. rewrite elem_of_set_sorted.
      by eapply MapUF.par_dom, root_is_Some. }
  destruct (found_loop_spec E (active_of assertions) p2 comps off) as (found & -> & Hfound); [done| |].
  { intros x r Hx%(proj2 Heq). by eapply Hsome. }
  assert (∀ r comp, comps !! r = Some comp → ∀ x, x ∈ comp ↔ root (MapUF.par p) x r) as Hcomp.
  { intros r comp Hr x. pose proof (proj2 (Hc r) x) as Hx. rewrite Hr, lookup_empty in Hx.
    simpl in Hx. rewrite Hx, elem_of_set_sorted. split; [set_solver|]. intros Hxr.
    right. split; [|done]. by eapply MapUF.par_dom, root_is_Some. }
  assert (∀ r ids comp, off !! r = Some ids → comps !! r = Some comp →
    ids = assertion_id <$> filter (λ b, rec_a_key b ∈ comp) (always_of assertions)) as Hids.
  { intros r ids comp Hr Hr'. pose proof (proj2 (Ho r) comp) as Hx.
    rewrite Hr, lookup_empty in Hx. simpl in Hx. apply Hx. intros b Hb.
    rewrite <-(proj2 Heq1). by apply Hcomp. }
  assert (∀ a c, a ∈ active_of assertions → finding p comps off a c →
    is_contradiction assertions a c) as Hsound.
  { intros a c [Ha Hact]%elem_of_active_of
      (Hkind & r & ids & comp & Hra & Hrb & Hi & Hcm & ->).
    unfold is_contradiction, offends. simpl. rewrite (Hids r ids comp) by done.
    repeat split; try done; [by eapply Hass|by apply (Hclo _ _ r)| | | |].
    - intros Hx%(Hcomp r comp); [|done]. by apply (Hclo _ _ r).
    - intros Hx%(Hclo _ _ r); [|done]. by apply (Hcomp r comp).
    - apply (StronglySorted_merge_sort _).
    - apply merge_sort_Permutation. }
  assert (∀ a, offends assertions a →
    a ∈ active_of assertions ∧ ∃ c, finding p comps off a c) as Hcomplete.
  { intros a (Ha & Hact & Hkind & Hass' & Hcl). split; [by apply elem_of_active_of|].
    destruct (Hforest (rec_a_key a)) as [r Hr]; [by apply Hdom|].
    destruct (Hsome _ _ Hr) as [[ids Hi] [comp Hcm]]. eexists. split; [done|].
    exists r, ids, comp. split; [done|]. split; [by apply (Hclo (rec_a_key a))|done]. }
  eexists. split; [done|]. split; [apply (StronglySorted_merge_sort _)|]. split.
  - intros c. rewrite merge_sort_Permutation, Hfound. f_equiv. intros a.
    rewrite (finding_equiv p p2) by done. split; [naive_solver|]. intros Hc'.
    destruct (Hcomplete a) as (Ha & c' & Hf); [by destruct Hc'|]. split; [done|].
    by rewrite (is_contradiction_unique _ _ _ _ Hc' (Hsound a c' Ha Hf)).
  - intros a Ha. destruct (Hcomplete a Ha) as (? & c & ?). eauto.
Qed.

(** The contradiction check is total, and its findings, in canonical-pair
    order, are exactly one per offending active [never] pair: both ends in one
    component of the [always] closure, reported with that component and with
    the sorted ids of the [always] assertions inside it. *)
Theorem check_contradiction_1_correct assertions :
  ∃ found, check_contradiction_1 assertions = Some found
    ∧ StronglySorted c_le found
    ∧ (∀ c, c ∈ found ↔ ∃ a, is_contradiction assertions a c)
    ∧ ∀ a, offends assertions a → ∃ c, is_contradiction assertions a c.
Proof. apply check_contradiction_1_spec. Qed.

(** C38: over assertions on distinct records the check is empty exactly when the
    set is satisfiable, that is when some partition of the records keeps every
    active [always] pair together and every active [never] pair apart. *)
Theorem check_contradiction_1_satisfiable assertions :
  Forall (λ a, rec_a_key a ≠ rec_b_key a) assertions →
  check_contradiction_1 assertions = Some [] ↔ satisfiable assertions.
Proof.
  intros Hne. rewrite Forall_forall in Hne.
  destruct (check_contradiction_1_spec assertions) as (found & -> & _ & Hfound & Hex).
  assert (Some found = Some [] ↔ ∀ c, c ∉ found) as ->.
  { split; [intros [= ->]; set_solver|]. intros Hn. f_equal. destruct found as [|c found]; [done|].
    destruct (Hn c). left. }
  split.
  - intros Hn. exists (closure assertions). split; [apply connected_equiv|].
    intros a Ha Hact. destruct (kind a) eqn:Hk.
    + apply connected_edge, list_elem_of_fmap. exists a. split; [done|].
      by apply elem_of_always_of.
    + intros Hcl. destruct (closure_asserted _ _ _ Hcl) as [?|[Ha1 _]]; [by apply (Hne a)|].
      destruct (Hex a) as [c Hc]; [done|]. apply (Hn c), Hfound. eauto.
  - intros (R & HR & Hsat) c (a & (Ha & Hact & Hk & _ & Hcl) & _)%Hfound.
    pose proof (Hsat a Ha Hact) as Hn. rewrite Hk in Hn. apply Hn.
    clear -Hcl HR Hsat. induction Hcl as [x|x y z Hxy _ IH]; [reflexivity|].
    transitivity y; [|done]. destruct Hxy as [Hxy|Hxy];
      apply list_elem_of_fmap in Hxy as (b & [= -> ->] & (Hb & Hbact & Hbk)%elem_of_always_of);
      pose proof (Hsat b Hb Hbact) as Hr; rewrite Hbk in Hr; [done|by symmetry].
Qed.

Lemma check_contradiction_1_satisfiable_witness :
  let l := [mkAssertion "x1" "a" "b" Always true; mkAssertion "x2" "a" "c" Never true] in
  check_contradiction_1 l = Some [] ∧ satisfiable l.
Proof.
  set (l := [mkAssertion "x1" "a" "b" Always true; mkAssertion "x2" "a" "c" Never true]).
  assert (check_contradiction_1 l = Some []) as H by (vm_compute; reflexivity).
  split; [exact H|].
  apply (check_contradiction_1_satisfiable l); [|exact H].
  repeat constructor; discriminate.
Defined.
