(* ===== verification/ShortestPath.v ===== *)
(** * The never-cut path: fewest hops, then the smallest vertex sequence

    [er-reconcile/src/never_cut.rs], functions [adjacency] and
    [shortest_path].  The breadth-first search is modelled with its three
    maps and its queue; [None] is a panic (a missing map key) or the fuel
    running out, which [shortest_path_correct] excludes. *)

From S2P Require Import Prelude.
From Stdlib Require Import SpecFloat.

(** ** Definitions *)

(** An [f64] is a [spec_float]; [partial_cmp] is [SFcompare]. *)
Definition PathEdge : Type := string * string * spec_float.

Definition edge_pair (e : PathEdge) : string * string := e.1.

Definition pairs (edges : list PathEdge) : list (string * string) := edge_pair <$> edges.

(** [graph.entry(left).or_default().insert(right)]. *)
Definition add_neighbour (graph : gmap string (gset string)) (x y : string) :
    gmap string (gset string) :=
  <[x := {[y]} ∪ default ∅ (graph !! x)]> graph.

(** The loop of [adjacency] over the edges. *)
Definition raw_adjacency (edges : list PathEdge) : gmap string (gset string) :=
  foldl (λ graph e, add_neighbour (add_neighbour graph e.1.1 e.1.2) e.1.2 e.1.1) ∅ edges.

(** [adjacency]: undirected, every neighbour list sorted. *)
Definition adjacency (edges : list PathEdge) : gmap string (list string) :=
  set_sorted <$> raw_adjacency edges.

(** [<] on [Vec<String>]: lexicographic. *)
Fixpoint path_ltb (p q : list string) : bool :=
  match p, q with
  | _, [] => false
  | [], _ :: _ => true
  | x :: p, y :: q =>
      match String.compare x y with
      | Lt => true
      | Eq => path_ltb p q
      | Gt => false
      end
  end.

Record bfs := mkBfs {
  best : gmap string (list string);
  depth : gmap string nat;
  frontier : list string;
}.

(** One neighbour of the node in hand. *)
Definition relax (node_depth : nat) (node_best : list string) (st : bfs)
    (neighbour : string) : option bfs :=
  let candidate := node_best ++ [neighbour] in
  match depth st !! neighbour with
  | None =>
      Some {| best := <[neighbour := candidate]> (best st);
              depth := <[neighbour := S node_depth]> (depth st);
              frontier := frontier st ++ [neighbour] |}
  | Some d =>
      if decide (d = S node_depth) then
        old ← best st !! neighbour;
        if path_ltb candidate old
        then Some {| best := <[neighbour := candidate]> (best st);
                     depth := depth st; frontier := frontier st |}
        else Some st
      else Some st
  end.

Fixpoint relax_all (node_depth : nat) (node_best : list string) (st : bfs)
    (neighbours : list string) : option bfs :=
  match neighbours with
  | [] => Some st
  | n :: neighbours =>
      st ← relax node_depth node_best st n;
      relax_all node_depth node_best st neighbours
  end.

(** The [while let Some(node) = frontier.pop_front()] loop. *)
Fixpoint bfs_loop (fuel : nat) (graph : gmap string (list string)) (st : bfs) :
    option bfs :=
  match frontier st with
  | [] => Some st
  | node :: rest =>
      match fuel with
      | 0 => None
      | S fuel =>
          node_depth ← depth st !! node;
          node_best ← best st !! node;
          neighbours ← graph !! node;
          st ← relax_all node_depth node_best
                 {| best := best st; depth := depth st; frontier := rest |} neighbours;
          bfs_loop fuel graph st
      end
  end.

(** [shortest_path]; every vertex is queued once, so [size graph] turns are
    enough. *)
Definition shortest_path (source target : string) (edges : list PathEdge) :
    option (option (list string)) :=
  if decide (source = target) then Some (Some [source])
  else
    let graph := adjacency edges in
    if decide (source ∉ dom graph ∨ target ∉ dom graph) then Some None
    else
      st ← bfs_loop (size graph) graph
             {| best := {[source := [source]]}; depth := {[source := 0]};
                frontier := [source] |};
      Some (best st !! target).

(** The specification: walks of the undirected graph. *)
Definition adj (edges : list PathEdge) (x y : string) : Prop :=
  (x, y) ∈ pairs edges ∨ (y, x) ∈ pairs edges.

Inductive walk (edges : list PathEdge) (s : string) : list string → string → Prop :=
| walk_nil : walk edges s [s] s
| walk_snoc p u v : walk edges s p u → adj edges u v → walk edges s (p ++ [v]) v.

(** Not lexicographically above. *)
Definition path_le (p q : list string) : Prop := path_ltb q p = false.

(** The S4.4.2 path from [s] to [t]. *)
Definition is_shortest_path (edges : list PathEdge) (s t : string) (p : list string) : Prop :=
  walk edges s p t
  ∧ ∀ q, walk edges s q t → length p < length q ∨ (length p = length q ∧ path_le p q).

(** ** The lexicographic order *)

Lemma path_ltb_irrefl p : path_ltb p p = false.
Proof. induction p as [|x p IH]; [done|]. simpl. by rewrite str_compare_refl. Qed.

Lemma path_le_refl p : path_le p p.
Proof. apply path_ltb_irrefl. Qed.

Lemma path_ltb_antisym p q : path_ltb p q = true → path_ltb q p = false.
Proof.
  revert q. induction p as [|x p IH]; intros [|y q]; simpl; try done.
  rewrite (String.compare_antisym x y). destruct (String.compare y x); simpl; auto.
Qed.

Lemma path_ltb_le p q : path_ltb p q = true → path_le p q.
Proof. apply path_ltb_antisym. Qed.

Lemma path_le_trans p q r : path_le p q → path_le q r → path_le p r.
Proof.
  unfold path_le. revert p r. induction q as [|y q IH]; intros [|x p] [|z r]; simpl; try done.
  destruct (String.compare y x) eqn:Hyx, (String.compare z y) eqn:Hzy; try done.
  - apply String.compare_eq_iff in Hyx as <-. rewrite Hzy. apply IH.
  - apply String.compare_eq_iff in Hyx as <-. by rewrite Hzy.
  - apply String.compare_eq_iff in Hzy as <-. by rewrite Hyx.
  - apply str_compare_gt in Hyx, Hzy.
    assert (String.compare z x = Gt) as ->; [|done].
    apply str_compare_gt. by eapply str_lt_trans.
Qed.

(** Extending two paths of one length by the same vertex. *)
Lemma path_le_snoc p q v : length p = length q → path_le p q → path_le (p ++ [v]) (q ++ [v]).
Proof.
  unfold path_le. revert q. induction p as [|x p IH]; intros [|y q]; simpl; try done.
  - intros _ _. by rewrite str_compare_refl.
  - intros [= Hlen]. destruct (String.compare y x); auto.
Qed.

(** ** The graph *)

Lemma add_neighbour_lookup graph x y z w :
  w ∈ default ∅ (add_neighbour graph x y !! z) ↔
    w ∈ default ∅ (graph !! z) ∨ (z = x ∧ w = y).
Proof.
  unfold add_neighbour. rewrite lookup_insert. case_decide; subst; simpl;
    rewrite ?elem_of_union, ?elem_of_singleton; naive_solver.
Qed.

Lemma add_neighbour_dom graph x y : dom (add_neighbour graph x y) = {[x]} ∪ dom graph.
Proof. unfold add_neighbour. apply dom_insert_L. Qed.

Lemma adj_snoc edges a b v x y :
  adj (edges ++ [(a, b, v)]) x y ↔ adj edges x y ∨ (x = a ∧ y = b) ∨ (x = b ∧ y = a).
Proof.
  unfold adj, pairs. rewrite fmap_app, !elem_of_app. csimpl. unfold edge_pair. simpl.
  rewrite !list_elem_of_singleton. naive_solver.
Qed.

Lemma raw_adjacency_lookup edges x y :
  y ∈ default ∅ (raw_adjacency edges !! x) ↔ adj edges x y.
Proof.
  unfold raw_adjacency. induction edges as [|[[a b] v] edges IH] using rev_ind.
  { unfold adj; simpl. rewrite lookup_empty. set_solver. }
  rewrite foldl_app, adj_snoc. simpl. rewrite !add_neighbour_lookup, IH. naive_solver.
Qed.

Lemma raw_adjacency_dom edges x :
  x ∈ dom (raw_adjacency edges) ↔ ∃ y, adj edges x y.
Proof.
  rewrite elem_of_dom. split.
  - intros [X HX]. unfold raw_adjacency in HX.
    revert X HX. induction edges as [|[[a b] v] edges IH] using rev_ind; intros X; [done|].
    rewrite foldl_app. simpl. intros HX.
    assert (x ∈ ({[b; a]} ∪ dom (raw_adjacency edges))) as Hx.
    { apply elem_of_dom_2 in HX. rewrite !add_neighbour_dom in HX. set_solver. }
    setoid_rewrite adj_snoc.
    apply elem_of_union in Hx as [Hx|[X' HX']%elem_of_dom].
    + apply elem_of_union in Hx as [->%elem_of_singleton| ->%elem_of_singleton];
        [exists a|exists b]; auto.
    + destruct (IH X' HX') as [y Hy]. eauto.
  - intros [y Hy%raw_adjacency_lookup]. destruct (raw_adjacency edges !! x); [eauto|set_solver].
Qed.

Lemma adjacency_lookup edges x ns :
  adjacency edges !! x = Some ns → ∀ y, y ∈ ns ↔ adj edges x y.
Proof.
  unfold adjacency. intros (X & <- & HX)%lookup_fmap_Some y.
  rewrite elem_of_set_sorted, <-raw_adjacency_lookup. by rewrite HX.
Qed.

Lemma adjacency_dom edges x : x ∈ dom (adjacency edges) ↔ ∃ y, adj edges x y.
Proof. unfold adjacency. rewrite dom_fmap. apply raw_adjacency_dom. Qed.

Lemma adj_sym edges x y : adj edges x y → adj edges y x.
Proof. unfold adj. naive_solver. Qed.

(** ** The search invariant *)

Section search.
Context (edges : list PathEdge) (source : string).

(** [D] are the popped vertices, all of depth at most [k]; the queue is a run
    of depth [k] followed by a run of depth [k + 1]. *)
Record core (D : gset string) (k : nat) (l1 l2 : list string) (st : bfs) : Prop := {
  core_frontier : frontier st = l1 ++ l2;
  core_dom : ∀ v, is_Some (best st !! v) ↔ is_Some (depth st !! v);
  core_disc : ∀ v, is_Some (depth st !! v) ↔ v ∈ D ∨ v ∈ frontier st;
  core_nodup : NoDup (frontier st);
  core_disj : ∀ v, v ∈ D → v ∉ frontier st;
  core_source : best st !! source = Some [source];
  core_walk : ∀ v p, best st !! v = Some p →
    ∃ d, depth st !! v = Some d ∧ walk edges source p v ∧ length p = S d;
  core_done : ∀ v, v ∈ D → ∃ d, depth st !! v = Some d ∧ d ≤ k;
  core_l1 : ∀ v, v ∈ l1 → depth st !! v = Some k;
  core_l2 : ∀ v, v ∈ l2 → depth st !! v = Some (S k);
  core_graph : ∀ v, is_Some (depth st !! v) → v ∈ dom (adjacency edges);
}.

(** The edges [(u, w)] already looked at, [u] popped: [w] is discovered at most
    one level below [u], and its path is no worse than the one through [u]. *)
Record relaxed (D : gset string) (seen : relation string) (st : bfs) : Prop := {
  relaxed_done : ∀ u w, seen u w → u ∈ D;
  relaxed_depth : ∀ u w, seen u w →
    ∃ du dw, depth st !! u = Some du ∧ depth st !! w = Some dw ∧ dw ≤ S du;
  relaxed_best : ∀ u w du bu bw, seen u w →
    depth st !! u = Some du → depth st !! w = Some (S du) →
    best st !! u = Some bu → best st !! w = Some bw → path_le bw (bu ++ [w]);
}.

Lemma core_bound D k l1 l2 st v d :
  core D k l1 l2 st → depth st !! v = Some d → d ≤ S k.
Proof.
  intros Hc Hv. destruct (proj1 (core_disc _ _ _ _ _ Hc v)) as [HD|Hf]; [eauto| |].
  - destruct (core_done _ _ _ _ _ Hc v HD) as (d' & ? & ?). simplify_eq. lia.
  - rewrite (core_frontier _ _ _ _ _ Hc), elem_of_app in Hf. destruct Hf as [Hf|Hf].
    + rewrite (core_l1 _ _ _ _ _ Hc v Hf) in Hv. simplify_eq. lia.
    + rewrite (core_l2 _ _ _ _ _ Hc v Hf) in Hv. simplify_eq. lia.
Qed.

(** A vertex seen for the first time. *)
Lemma relax_new D k l1 l2 seen st node nb n :
  core D k l1 l2 st → relaxed D seen st →
  node ∈ D → depth st !! node = Some k → best st !! node = Some nb →
  adj edges node n → depth st !! n = None →
  let st' := {| best := <[n := nb ++ [n]]> (best st);
                depth := <[n := S k]> (depth st);
                frontier := frontier st ++ [n] |} in
  core D k l1 (l2 ++ [n]) st' ∧ relaxed D (λ u w, seen u w ∨ (u = node ∧ w = n)) st'.
Proof.
  intros Hc Hr HD Hk Hnb Hadj Hn st'.
  assert (∀ v, is_Some (depth st !! v) → v ≠ n) as Hne by (intros v [] ->; congruence).
  assert (best st !! n = None) as Hbn.
  { apply eq_None_not_Some. intros ?%(core_dom _ _ _ _ _ Hc). naive_solver. }
  assert (¬ (n ∈ D ∨ n ∈ frontier st)) as [HnD Hnf]%Decidable.not_or.
  { rewrite <-(core_disc _ _ _ _ _ Hc), Hn. by intros []. }
  destruct (core_walk _ _ _ _ _ Hc node nb Hnb) as (d & ? & Hwalk & Hlen). simplify_eq.
  split.
  - split; simpl.
    + rewrite (core_frontier _ _ _ _ _ Hc). by rewrite (assoc_L (++)).
    + intros v. rewrite !lookup_insert. case_decide; [naive_solver|]. apply Hc.
    + intros v. rewrite lookup_insert, elem_of_app, list_elem_of_singleton.
      case_decide; [naive_solver|]. rewrite (core_disc _ _ _ _ _ Hc). naive_solver.
    + apply NoDup_app. split; [apply Hc|]. split; [set_solver|apply NoDup_singleton].
    + intros v Hv. rewrite elem_of_app, list_elem_of_singleton.
      pose proof (core_disj _ _ _ _ _ Hc v Hv). set_solver.
    + rewrite lookup_insert_ne; [apply Hc|]. intros ->.
      rewrite (core_source _ _ _ _ _ Hc) in Hbn. done.
    + intros v p. rewrite !lookup_insert. case_decide; subst.
      * intros [= <-]. exists (S k). split; [done|]. split; [by econstructor|].
        rewrite length_app. simpl. lia.
      * apply Hc.
    + intros v Hv. rewrite lookup_insert_ne by (intros ->; done). by apply Hc.
    + intros v Hv. rewrite lookup_insert_ne; [by apply Hc|]. intros ->.
      apply Hnf. rewrite (core_frontier _ _ _ _ _ Hc). set_solver.
    + intros v [Hv| ->%list_elem_of_singleton]%elem_of_app; [|by rewrite lookup_insert_eq].
      rewrite lookup_insert_ne; [by apply Hc|]. intros ->.
      apply Hnf. rewrite (core_frontier _ _ _ _ _ Hc). set_solver.
    + intros v. rewrite lookup_insert. case_decide; subst; [|apply Hc].
      intros _. apply adjacency_dom. exists node. by apply adj_sym.
  - split; simpl.
    + intros u w [Hs|[-> _]]; [by eapply Hr|done].
    + intros u w [Hs|[-> ->]].
      * destruct (relaxed_depth _ _ _ Hr u w Hs) as (du & dw & Hu & Hw & ?).
        exists du, dw. rewrite !lookup_insert_ne by naive_solver. done.
      * exists k, (S k). rewrite lookup_insert_ne by naive_solver.
        by rewrite lookup_insert_eq.
    + intros u w du bu bw [Hs|[-> ->]].
      * destruct (relaxed_depth _ _ _ Hr u w Hs) as (du' & dw & Hu & Hw & ?).
        rewrite !lookup_insert_ne by naive_solver. by apply Hr.
      * rewrite (lookup_insert_ne (best st)) by naive_solver. rewrite !lookup_insert_eq.
        intros _ _ ? [= <-]. simplify_eq. apply path_le_refl.
Qed.

(** A better path of the same length. *)
Lemma relax_better D k l1 l2 seen st node nb n old :
  core D k l1 l2 st → relaxed D seen st →
  node ∈ D → depth st !! node = Some k → best st !! node = Some nb →
  adj edges node n → depth st !! n = Some (S k) → best st !! n = Some old →
  path_ltb (nb ++ [n]) old = true →
  let st' := {| best := <[n := nb ++ [n]]> (best st);
                depth := depth st; frontier := frontier st |} in
  core D k l1 l2 st' ∧ relaxed D (λ u w, seen u w ∨ (u = node ∧ w = n)) st'.
Proof.
  intros Hc Hr HD Hk Hnb Hadj Hn Hold Hlt st'.
  destruct (core_walk _ _ _ _ _ Hc node nb Hnb) as (d & ? & Hwalk & Hlen). simplify_eq.
  assert (∀ u, u ∈ D → u ≠ n) as HDn.
  { intros u Hu ->. destruct (core_done _ _ _ _ _ Hc n Hu) as (d & ? & ?). simplify_eq. lia. }
  split.
  - destruct Hc; split; simpl; try done.
    + intros v. rewrite lookup_insert. case_decide; subst; naive_solver.
    + rewrite lookup_insert_ne; [done|]. intros ->. rewrite core_source0 in Hold. simplify_eq.
      destruct (core_walk0 _ _ core_source0) as (d & ? & _ & ?). simplify_eq/=.
    + intros v p. rewrite lookup_insert. case_decide; subst; [|auto].
      intros [= <-]. exists (S k). split; [done|]. split; [by econstructor|].
      rewrite length_app. simpl. lia.
  - split; simpl.
    + intros u w [Hs|[-> _]]; [by eapply Hr|done].
    + intros u w [Hs|[-> ->]]; [by apply Hr|]. exists k, (S k). done.
    + intros u w du bu bw [Hs|[-> ->]] Hu Hw.
      * rewrite (lookup_insert_ne _ n u)
          by (intros <-; by eapply HDn; [eapply Hr|]).
        rewrite lookup_insert. case_decide as E; [subst w|by apply (relaxed_best _ _ _ Hr u w du)].
        intros Hbu [= <-]. eapply path_le_trans; [by apply path_ltb_le|].
        by apply (relaxed_best _ _ _ Hr u n du).
      * rewrite (lookup_insert_ne _ n node) by (intros <-; by eapply HDn).
        rewrite lookup_insert_eq. intros ? [= <-]. simplify_eq. apply path_le_refl.
Qed.

Lemma relax_spec D k l1 l2 seen st node nb n :
  core D k l1 l2 st → relaxed D seen st →
  node ∈ D → depth st !! node = Some k → best st !! node = Some nb → adj edges node n →
  ∃ st' l2', relax k nb st n = Some st' ∧ core D k l1 l2' st'
    ∧ relaxed D (λ u w, seen u w ∨ (u = node ∧ w = n)) st'
    ∧ depth st' !! node = Some k ∧ best st' !! node = Some nb.
Proof.
  intros Hc Hr HD Hk Hnb Hadj. unfold relax.
  destruct (depth st !! n) as [d|] eqn:Hn.
  - destruct (proj2 (core_dom _ _ _ _ _ Hc n)) as [old Hold]; [eauto|].
    assert ((d = S k → path_le old (nb ++ [n])) → core D k l1 l2 st ∧
      relaxed D (λ u w, seen u w ∨ (u = node ∧ w = n)) st) as Hkeep.
    { intros Hle. split; [done|]. destruct Hr; split; [naive_solver| |].
      - intros u w [?|[-> ->]]; [auto|]. exists k, d. split; [done|]. split; [done|].
        by eapply core_bound.
      - intros u w du bu bw [?|[-> ->]] ? ? ? ?; [eauto|]. simplify_eq. auto. }
    case_decide as Hd; subst; [rewrite Hold; simpl|].
    + destruct (path_ltb (nb ++ [n]) old) eqn:Hlt; simpl.
      * destruct (relax_better D k l1 l2 seen st node nb n old) as [Hc' Hr']; [done..|].
        eexists _, l2. split; [done|]. split; [done|]. split; [done|]. simpl.
        split; [done|]. rewrite lookup_insert_ne; [done|]. intros ->.
        rewrite Hk in Hn. naive_solver lia.
      * destruct Hkeep; [done|]. by exists st, l2.
    + destruct Hkeep; [done|]. by exists st, l2.
  - destruct (relax_new D k l1 l2 seen st node nb n) as [Hc' Hr']; [done..|].
    eexists _, (l2 ++ [n]). split; [done|]. split; [done|]. split; [done|]. simpl.
    rewrite !lookup_insert_ne by naive_solver. done.
Qed.

Lemma relaxed_ext D seen seen' st :
  (∀ u w, seen u w ↔ seen' u w) → relaxed D seen st → relaxed D seen' st.
Proof.
  intros H [H1 H2 H3]. split.
  - intros u w ?%H. eauto.
  - intros u w ?%H. eauto.
  - intros u w du bu bw ?%H. eauto.
Qed.

Lemma relax_all_spec ns D k l1 l2 seen st node nb :
  core D k l1 l2 st → relaxed D seen st →
  node ∈ D → depth st !! node = Some k → best st !! node = Some nb →
  (∀ n, n ∈ ns → adj edges node n) →
  ∃ st' l2', relax_all k nb st ns = Some st' ∧ core D k l1 l2' st'
    ∧ relaxed D (λ u w, seen u w ∨ (u = node ∧ w ∈ ns)) st'.
Proof.
  revert l2 seen st. induction ns as [|n ns IH]; intros l2 seen st Hc Hr HD Hk Hnb Hns; simpl.
  { exists st, l2. split; [done|]. split; [done|]. eapply relaxed_ext; [|done]. set_solver. }
  destruct (relax_spec D k l1 l2 seen st node nb n) as (st1 & l2' & -> & Hc1 & Hr1 & Hk1 & Hb1);
    [done..|apply Hns; left|]. simpl.
  destruct (IH l2' _ st1 Hc1 Hr1 HD Hk1 Hb1) as (st' & l2'' & -> & Hc' & Hr').
  { intros m Hm. apply Hns. by right. }
  exists st', l2''. split; [done|]. split; [done|]. eapply relaxed_ext; [|done].
  intros u w. simpl. rewrite elem_of_cons. naive_solver.
Qed.

Definition looked_at (D : gset string) : relation string := λ u w, u ∈ D ∧ adj edges u w.

Lemma core_shift D k l2 st : core D k [] l2 st → core D (S k) l2 [] st.
Proof.
  intros Hc. pose proof (core_l2 _ _ _ _ _ Hc) as Hl2.
  destruct Hc; split; try done.
  - by rewrite app_nil_r.
  - intros v Hv. destruct (core_done0 v Hv) as (d & ? & ?). exists d. split; [done|lia].
  - intros v Hv. set_solver.
Qed.

Lemma core_pop D k l1 l2 st node :
  core D k (node :: l1) l2 st →
  core ({[node]} ∪ D) k l1 l2
    {| best := best st; depth := depth st; frontier := l1 ++ l2 |}.
Proof.
  intros Hc. assert (depth st !! node = Some k) as Hk by (apply Hc; left).
  assert (frontier st = node :: (l1 ++ l2)) as Hf by apply Hc.
  destruct Hc; rewrite Hf in *; split; simpl; try done.
  - intros v. rewrite core_disc0, elem_of_cons, elem_of_union, elem_of_singleton. naive_solver.
  - by apply NoDup_cons in core_nodup0 as [_ ?].
  - intros v [->%elem_of_singleton|Hv]%elem_of_union.
    + by apply NoDup_cons in core_nodup0 as [? _].
    + apply core_disj0 in Hv. set_solver.
  - intros v [->%elem_of_singleton|Hv]%elem_of_union; [exists k; auto|auto].
  - intros v Hv. apply core_l3. by right.
Qed.

Lemma relaxed_pop D st node l :
  relaxed D (looked_at D) st →
  relaxed ({[node]} ∪ D) (looked_at D) {| best := best st; depth := depth st; frontier := l |}.
Proof.
  intros [H1 H2 H3]. split; simpl; [|done|done].
  intros u w [? _]. set_solver.
Qed.

Lemma bfs_loop_spec fuel D k l1 l2 st :
  core D k l1 l2 st → relaxed D (looked_at D) st →
  size (dom (adjacency edges)) ≤ fuel + size D →
  ∃ st' D' k', bfs_loop fuel (adjacency edges) st = Some st'
    ∧ core D' k' [] [] st' ∧ relaxed D' (looked_at D') st'.
Proof.
  revert D k l1 l2 st. induction fuel as [|fuel IH]; intros D k l1 l2 st Hc Hr Hfuel.
  - simpl. destruct (frontier st) as [|node rest] eqn:Hf.
    + exists st, D, k. split; [done|]. split; [|done].
      pose proof (core_frontier _ _ _ _ _ Hc) as Hf'. rewrite Hf in Hf'.
      symmetry in Hf'. by apply app_nil in Hf' as [-> ->].
    + exfalso. assert (D ⊆ dom (adjacency edges)) as Hsub.
      { intros v Hv. apply (core_graph _ _ _ _ _ Hc), (core_disc _ _ _ _ _ Hc). by left. }
      assert (node ∈ frontier st) as Hnode by (rewrite Hf; left).
      assert (node ∈ dom (adjacency edges)).
      { apply (core_graph _ _ _ _ _ Hc), (core_disc _ _ _ _ _ Hc). by right. }
      assert (node ∉ D) by (intros ?; by apply (core_disj _ _ _ _ _ Hc node)).
      assert (size ({[node]} ∪ D) ≤ size (dom (adjacency edges))) as Hle
        by (apply subseteq_size; set_solver).
      rewrite size_union, size_singleton in Hle by set_solver. lia.
  - simpl. destruct (frontier st) as [|node rest] eqn:Hf.
    { exists st, D, k. split; [done|]. split; [|done].
      pose proof (core_frontier _ _ _ _ _ Hc) as Hf'. rewrite Hf in Hf'.
      symmetry in Hf'. by apply app_nil in Hf' as [-> ->]. }
    assert (∃ k' l1' l2', core D k' (node :: l1') l2' st ∧ rest = l1' ++ l2')
      as (k' & l1' & l2' & Hc' & ->).
    { pose proof (core_frontier _ _ _ _ _ Hc) as Hf'. rewrite Hf in Hf'.
      destruct l1 as [|x l1]; simplify_eq/=.
      - exists (S k), rest, []. split; [by apply core_shift|by rewrite app_nil_r].
      - by exists k, l1, l2. }
    assert (depth st !! node = Some k') as Hk by (apply Hc'; left).
    destruct (proj2 (core_dom _ _ _ _ _ Hc' node)) as [nb Hnb]; [eauto|].
    destruct (proj1 (elem_of_dom (adjacency edges) node)) as [ns Hns].
    { apply Hc'. eauto. }
    assert (node ∉ D) as HnD.
    { intros HD. apply (core_disj _ _ _ _ _ Hc' node HD). rewrite Hf. left. }
    rewrite Hk, Hnb. simpl. rewrite Hns. simpl.
    destruct (relax_all_spec ns ({[node]} ∪ D) k' l1' l2' (looked_at D)
      {| best := best st; depth := depth st; frontier := l1' ++ l2' |} node nb)
      as (st1 & l2'' & -> & Hc1 & Hr1);
      [by apply core_pop|by apply relaxed_pop|set_solver|done|done| |].
    { intros n. by apply (adjacency_lookup edges node ns). }
    simpl. apply (IH ({[node]} ∪ D) k' l1' l2''); [done| |].
    + eapply relaxed_ext; [|done]. intros u w. unfold looked_at. simpl.
      rewrite (adjacency_lookup edges node ns) by done. set_solver.
    + rewrite size_union, size_singleton by set_solver. lia.
Qed.

(** When the queue is empty the depths are distances and the paths are the
    specified ones. *)
Section final.
Context (st : bfs) (D : gset string) (k : nat).
Context (Hc : core D k [] [] st) (Hr : relaxed D (looked_at D) st).

Lemma final_done v : is_Some (depth st !! v) ↔ v ∈ D.
Proof using Hc.
  clear Hr. rewrite (core_disc _ _ _ _ _ Hc), (core_frontier _ _ _ _ _ Hc). set_solver.
Qed.

Lemma final_depth q v :
  walk edges source q v → ∃ d, depth st !! v = Some d ∧ S d ≤ length q.
Proof using Hc Hr.
  induction 1 as [|q u v Hq (d & Hd & Hle) Hadj].
  - destruct (core_walk _ _ _ _ _ Hc source [source]) as (d & Hd & _ & Hlen); [apply Hc|].
    exists d. simpl in *. split; [done|lia].
  - destruct (relaxed_depth _ _ _ Hr u v) as (du & dv & Hu & Hv & ?).
    { split; [apply final_done; eauto|done]. }
    simplify_eq. exists dv. split; [done|]. rewrite length_app. simpl. lia.
Qed.

Lemma final_best q v p :
  walk edges source q v → best st !! v = Some p →
  length p < length q ∨ (length p = length q ∧ path_le p q).
Proof using Hc Hr.
  intros Hq. revert p. induction Hq as [|q u v Hq IH Hadj]; intros p Hp.
  - rewrite (core_source _ _ _ _ _ Hc) in Hp. simplify_eq. right. split; [done|apply path_le_refl].
  - destruct (core_walk _ _ _ _ _ Hc v p Hp) as (d & Hd & _ & Hlen).
    destruct (final_depth q u Hq) as (du & Hu & Hle).
    assert (looked_at D u v) as Hs by (split; [apply final_done; eauto|done]).
    destruct (relaxed_depth _ _ _ Hr u v Hs) as (du' & dv & ? & ? & Hdv). simplify_eq.
    rewrite length_app. simpl.
    destruct (decide (length p < length q + 1)) as [|Hge]; [by left|right].
    destruct (proj2 (core_dom _ _ _ _ _ Hc u)) as [bu Hbu]; [eauto|].
    destruct (core_walk _ _ _ _ _ Hc u bu Hbu) as (du'' & ? & _ & Hlenu). simplify_eq.
    destruct (IH bu Hbu) as [?|[Hlenq Hleq]]; [lia|]. split; [lia|].
    assert (d = S du) as -> by lia.
    eapply path_le_trans; [by eapply (relaxed_best _ _ _ Hr u v)|].
    by apply path_le_snoc.
Qed.
End final.
End search.

Lemma walk_connected edges s p t : walk edges s p t → connected (pairs edges) s t.
Proof.
  induction 1 as [|p u v _ IH [?|?]]; [reflexivity| |]; (transitivity u; [done|auto with er]).
Qed.

Lemma connected_walk edges s t : connected (pairs edges) s t → ∃ p, walk edges s p t.
Proof.
  revert t. apply rtc_ind_r; [exists [s]; constructor|].
  intros y z _ Hyz [p Hp]. exists (p ++ [z]). econstructor; [done|].
  by destruct Hyz; [left|right].
Qed.

Lemma walk_adj_target edges s p t : walk edges s p t → s ≠ t →
  (∃ y, adj edges s y) ∧ ∃ y, adj edges t y.
Proof.
  intros Hw Hne. destruct (connected_isolated _ _ _ (walk_connected _ _ _ _ Hw)) as [?|[[c Hc] [d Hd]]];
    [done|]. split; [exists c|exists d]; done.
Qed.

(** The search returns, and it returns the specified path if there is one. *)
Lemma shortest_path_spec source target edges :
  ∃ o, shortest_path source target edges = Some o ∧
    match o with
    | Some p => is_shortest_path edges source target p
    | None => ¬ connected (pairs edges) source target
    end.
Proof.
  unfold shortest_path. case_decide as Hst; subst.
  { eexists. split; [done|]. split; [constructor|]. intros q Hq.
    inversion Hq; subst; [right; split; [done|apply path_le_refl]|].
    destruct p as [|y [|z p]]; simpl; [|left; lia..].
    match goal with H : walk _ _ [] _ |- _ => inversion H end.
    all: by destruct p. }
  case_decide as Hdom.
  { eexists. split; [done|]. intros [p Hp]%connected_walk.
    rewrite !adjacency_dom in Hdom.
    destruct (walk_adj_target _ _ _ _ Hp Hst) as [??]. naive_solver. }
  apply Decidable.not_or in Hdom as [Hs%dec_stable Ht%dec_stable].
  destruct (bfs_loop_spec edges source (size (adjacency edges)) ∅ 0 [source] []
    {| best := {[source := [source]]}; depth := {[source := 0]}; frontier := [source] |})
    as (st & D & k & -> & Hc & Hr).
  - split; simpl; try set_solver.
    + intros v. rewrite !lookup_singleton. case_decide; naive_solver.
    + intros v. rewrite lookup_singleton. case_decide; set_solver.
    + apply NoDup_singleton.
    + by rewrite lookup_singleton_eq.
    + intros v p. rewrite lookup_singleton. case_decide; [|done]. intros [= <-]. subst.
      exists 0. rewrite lookup_singleton_eq. split; [done|]. split; [constructor|done].
    + intros v ->%list_elem_of_singleton. by rewrite lookup_singleton_eq.
    + intros v. rewrite lookup_singleton. case_decide; [by subst|by intros []].
  - unfold looked_at. split; set_solver.
  - rewrite size_dom. lia.
  - simpl. eexists. split; [done|]. destruct (best st !! target) as [p|] eqn:Hp.
    + split.
      * by destruct (core_walk _ _ _ _ _ _ _ Hc target p Hp) as (d & _ & ? & _).
      * intros q Hq. by eapply final_best.
    + intros [q Hq]%connected_walk. destruct (final_depth _ _ st D k Hc Hr q target Hq) as (d & Hd & _).
      destruct (proj2 (core_dom _ _ _ _ _ _ _ Hc target)) as [? ?]; [eauto|]. congruence.
Qed.

(** C11: the never-cut search is total, and it returns exactly the S4.4.2 path:
    a walk between the two records with the fewest hops and, among those, the
    lexicographically smallest vertex sequence; [None] exactly when no walk
    joins them. *)
Theorem shortest_path_correct source target edges :
  ∃ o, shortest_path source target edges = Some o ∧
    match o with
    | Some p => is_shortest_path edges source target p
    | None => ¬ connected (pairs edges) source target
    end.
Proof. apply shortest_path_spec. Qed.
