(* ===== verification/NeverCut.v ===== *)
(** * The never-cut fixpoint

    [er-reconcile/src/never_cut.rs], the rest of the file: the choice of the
    edge to cut, the components of the live edges and the round loop.  [None]
    is a panic (an [expect] that fails, an absent index). *)

From S2P Require Import Prelude F64 Ids UnionFind Cluster Assertions ShortestPath.

Import Forest.

(** ** Definitions *)

Record Cut := mkCut {
  cut_rec_a_key : string;
  cut_rec_b_key : string;
  cut_match_probability : spec_float;
  cut_assertion_id : string;
}.

Record CutResult := mkCutResult {
  cuts : list Cut;
  escalations : list (string * string * string);
  iterations : nat;
}.

Inductive NeverCutError :=
| NonConvergence (max_iterations remaining : nat)
| NoProgress (n : nat).

(** [canon]: [expect("distinct endpoints")] panics on a repeated key. *)
Definition canon (a b : string) : option (string * string) :=
  match canonicalize_pair a b with Ok p => Some p | Err _ => None end.

Definition canon_edge (e : PathEdge) : option (string * string) := canon e.1.1 e.1.2.

(** [partial_cmp] of [(probability, rec_a_key, rec_b_key)]. *)
Definition edge_partial_cmp (a b : PathEdge) : option comparison :=
  match SFcompare a.2 b.2 with
  | Some Eq =>
      Some (match String.compare a.1.1 b.1.1 with
            | Eq => String.compare a.1.2 b.1.2
            | c => c
            end)
  | o => o
  end.

(** [probability]: the last edge of a canonical pair wins. *)
Definition probability_map (edges : list PathEdge) :
    option (gmap (string * string) spec_float) :=
  kvs ← mapM (λ e, p ← canon_edge e; Some (p, e.2)) edges;
  Some (map_collect kvs).

(** The [windows(2)] loop. *)
Fixpoint candidates_loop (probability : gmap (string * string) spec_float)
    (cut_protect_probability : spec_float) (protected : gset string)
    (hops : list (string * string)) : option (list PathEdge) :=
  match hops with
  | [] => Some []
  | (x, y) :: hops =>
      pair ← canon x y;
      rest ← candidates_loop probability cut_protect_probability protected hops;
      Some (match probability !! pair with
            | Some value =>
                if SFltb value cut_protect_probability
                   && bool_decide (pair.1 ∉ protected) && bool_decide (pair.2 ∉ protected)
                then (pair, value) :: rest else rest
            | None => rest
            end)
  end.

Definition choose_cut_edge (path : list string) (edges : list PathEdge)
    (cut_protect_probability : spec_float) (protected : gset string) :
    option (option PathEdge) :=
  probability ← probability_map edges;
  candidates ← candidates_loop probability cut_protect_probability protected (windows2 path);
  min_by_partial edge_partial_cmp candidates.

(** The final map of [components]: each id with its root. *)
Fixpoint roots_loop (uf : list nat) (l : list (nat * string)) :
    option (list (string * nat)) :=
  match l with
  | [] => Some []
  | (i, s) :: l =>
      '(uf, root) ← VecUF.find uf i;
      rest ← roots_loop uf l;
      Some ((s, root) :: rest)
  end.

(** [components]: the same union-find as [cluster.rs], over a sorted set. *)
Definition components (edges : list PathEdge) (nodes : gset string) :
    option (gmap string nat) :=
  let ids := set_sorted (nodes ∪ list_to_set (endpoints (pairs edges))) in
  uf ← union_edges (index_of ids) (VecUF.new (length ids)) (pairs edges);
  roots ← roots_loop uf (enumerate ids);
  Some (map_collect roots).

Record cut_state := mkCutState {
  live : list PathEdge;
  cs_cuts : list Cut;
  escalated : list (string * string * string);
  escalated_pairs : gset (string * string);
}.

(** The test of the [violations] filter. *)
Definition is_violation (component : gmap string nat) (pairs : gset (string * string))
    (a : Assertion) : option bool :=
  pair ← canon (rec_a_key a) (rec_b_key a);
  Some (bool_decide (pair ∉ pairs)
        && match component !! rec_a_key a, component !! rec_b_key a with
           | Some x, Some y => bool_decide (x = y)
           | _, _ => false
           end).

Fixpoint violations_loop (component : gmap string nat) (pairs : gset (string * string))
    (l : list Assertion) : option (list Assertion) :=
  match l with
  | [] => Some []
  | a :: l =>
      b ← is_violation component pairs a;
      rest ← violations_loop component pairs l;
      Some (if b : bool then a :: rest else rest)
  end.

(** [live.retain(|(l, r, _)| canon(l, r) != cut_pair)]. *)
Fixpoint retain_loop (cut_pair : string * string) (edges : list PathEdge) :
    option (list PathEdge) :=
  match edges with
  | [] => Some []
  | e :: edges =>
      p ← canon_edge e;
      rest ← retain_loop cut_pair edges;
      Some (if decide (p = cut_pair) then rest else e :: rest)
  end.

(** One violation of a round; the [bool] is [progressed]. *)
Definition cut_step (cut_protect_probability : spec_float) (protected : gset string)
    (st : cut_state) (a : Assertion) : option (cut_state * bool) :=
  path ← shortest_path (rec_a_key a) (rec_b_key a) (live st);
  match path with
  | None => Some (st, false)
  | Some path =>
      choice ← choose_cut_edge path (live st) cut_protect_probability protected;
      match choice with
      | None =>
          pair ← canon (rec_a_key a) (rec_b_key a);
          Some ({| live := live st; cs_cuts := cs_cuts st;
                   escalated := escalated st ++ [(pair, assertion_id a)];
                   escalated_pairs := {[pair]} ∪ escalated_pairs st |}, true)
      | Some edge =>
          live' ← retain_loop edge.1 (live st);
          Some ({| live := live';
                   cs_cuts := cs_cuts st ++ [mkCut edge.1.1 edge.1.2 edge.2 (assertion_id a)];
                   escalated := escalated st;
                   escalated_pairs := escalated_pairs st |}, true)
      end
  end.

Fixpoint cut_round (cut_protect_probability : spec_float) (protected : gset string)
    (st : cut_state) (progressed : bool) (violations : list Assertion) :
    option (cut_state * bool) :=
  match violations with
  | [] => Some (st, progressed)
  | a :: violations =>
      '(st, b) ← cut_step cut_protect_probability protected st a;
      cut_round cut_protect_probability protected st (progressed || b) violations
  end.

(** The [loop]; [remaining] is [max_iterations - iterations]. *)
Fixpoint cut_loop (never : list Assertion) (every_node : gset string)
    (cut_protect_probability : spec_float) (protected : gset string)
    (max_iterations remaining iterations : nat) (st : cut_state) :
    option (result CutResult NeverCutError) :=
  component ← components (live st) every_node;
  violations ← violations_loop component (escalated_pairs st) never;
  match violations with
  | [] => Some (Ok (mkCutResult (cs_cuts st) (escalated st) iterations))
  | _ :: _ =>
      match remaining with
      | 0 => Some (Err (NonConvergence max_iterations (length violations)))
      | S remaining =>
          '(st, progressed) ← cut_round cut_protect_probability protected st false violations;
          if progressed : bool
          then cut_loop never every_node cut_protect_probability protected
                 max_iterations remaining (S iterations) st
          else Some (Err (NoProgress (length never)))
      end
  end.

Definition never_of (assertions : list Assertion) : list Assertion :=
  filter (λ a, kind a = Never ∧ active a = true) assertions.

Definition never_cut_fixpoint (edges : list PathEdge) (assertions : list Assertion)
    (nodes : list string) (cut_protect_probability : spec_float) (protected : gset string)
    (max_iterations : nat) : option (result CutResult NeverCutError) :=
  let never := never_of assertions in
  match never with
  | [] => Some (Ok (mkCutResult [] [] 0))
  | _ :: _ =>
      let every_node := list_to_set nodes ∪ list_to_set (endpoints (pairs edges)) in
      cut_loop never every_node cut_protect_probability protected
        max_iterations max_iterations 0 (mkCutState edges [] [] ∅)
  end.

(** ** Specification *)

(** The probability the fixpoint reads for a canonical pair. *)
Definition pair_prob (edges : list PathEdge) (p : string * string) : option spec_float :=
  snd <$> last (filter (λ e, canon_edge e = Some p) edges).

Section spec.
Context (edges : list PathEdge) (protect : spec_float) (protected : gset string).

(** A pair with probability [v] that the cut may not touch. *)
Definition uncuttable (p : string * string) (v : spec_float) : Prop :=
  SFltb v protect = false ∨ p.1 ∈ protected ∨ p.2 ∈ protected.

Definition cuttable (p : string * string) : Prop :=
  match pair_prob edges p with Some v => ¬ uncuttable p v | None => False end.

Definition solid (p : string * string) : Prop :=
  match pair_prob edges p with Some v => uncuttable p v | None => False end.

#[export] Instance solid_dec p : Decision (solid p).
Proof. unfold solid, uncuttable. destruct (pair_prob edges p); apply _. Defined.

(** The pairs no cut may touch. *)
Definition solid_pairs : list (string * string) :=
  filter solid (omap canon_edge edges).

Definition spared (cut_pairs : list (string * string)) (e : PathEdge) : Prop :=
  match canon_edge e with Some p => p ∉ cut_pairs | None => False end.

#[export] Instance spared_dec cut_pairs e : Decision (spared cut_pairs e).
Proof. unfold spared. destruct (canon_edge e); apply _. Defined.

(** The edges left when the cut pairs are gone. *)
Definition live_after (cut_pairs : list (string * string)) : list PathEdge :=
  filter (spared cut_pairs) edges.
End spec.

Definition cut_pair (c : Cut) : string * string := (cut_rec_a_key c, cut_rec_b_key c).

(** No edge is a self-loop: every [canon] succeeds. *)
Definition proper_edges (edges : list PathEdge) : Prop :=
  ∀ e, e ∈ edges → e.1.1 ≠ e.1.2.

(** ** Canonical pairs *)

Lemma canon_Some a b x y :
  canon a b = Some (x, y) ↔ str_lt x y ∧ (x = a ∧ y = b ∨ x = b ∧ y = a).
Proof.
  unfold canon. destruct (canonicalize_pair_spec a b) as [H _]. rewrite <-H.
  destruct (canonicalize_pair a b); naive_solver.
Qed.

Lemma canon_is_Some a b : is_Some (canon a b) ↔ a ≠ b.
Proof.
  unfold canon. destruct (canonicalize_pair_spec a b) as (_ & H & _).
  destruct (canonicalize_pair a b) as [p|e].
  - split; [|eauto]. intros _ Hab. assert (Ok p = Err (PairSameKey a)) by (by apply H). done.
  - split; [by intros []|]. intros Hne. by destruct (proj1 (H e) eq_refl).
Qed.

Lemma canon_sym a b : canon a b = canon b a.
Proof. unfold canon. by destruct (canonicalize_pair_spec a b) as (_ & _ & ->). Qed.

Lemma canon_connected es a b p : canon a b = Some p → connected es p.1 p.2 ↔ connected es a b.
Proof.
  destruct p as [x y]. intros [_ [[-> ->]|[-> ->]]]%canon_Some; [done|].
  simpl. split; intros; by symmetry.
Qed.

Lemma canon_cases a b p : canon a b = Some p → p = (a, b) ∨ p = (b, a).
Proof. destruct p as [x y]. intros [_ [[-> ->]|[-> ->]]]%canon_Some; auto. Qed.

(** ** The order of the candidates *)

(** The same order as a proposition, the keys breaking ties. *)
Definition rank_le (r s : Z * Z * Z) (p q : string * string) : Prop :=
  (r.1.1 < s.1.1 ∨ r.1.1 = s.1.1 ∧
    (r.1.2 < s.1.2 ∨ r.1.2 = s.1.2 ∧ (r.2 < s.2 ∨ r.2 = s.2 ∧ pair_le p q)))%Z.

Lemma pair_compare_le p q :
  match String.compare p.1 q.1 with Eq => String.compare p.2 q.2 | c => c end ≠ Gt ↔ pair_le p q.
Proof.
  unfold pair_le. unfold str_lt. destruct (String.compare p.1 q.1) eqn:E.
  - apply String.compare_eq_iff in E as ->.
    unfold String.le, String.leb. destruct (String.compare p.2 q.2); naive_solver.
  - naive_solver.
  - split; [done|]. intros [?|[Heq _]]; [done|]. rewrite Heq, str_compare_refl in E. done.
Qed.

Lemma edge_partial_cmp_rank a b r s :
  sf_rank a.2 = Some r → sf_rank b.2 = Some s →
  ∃ c, edge_partial_cmp a b = Some c ∧ (c ≠ Gt ↔ rank_le r s a.1 b.1).
Proof.
  intros Ha Hb. unfold edge_partial_cmp. rewrite (SFcompare_rank _ _ _ _ Ha Hb).
  unfold rank_compare, rank_le.
  destruct (Z.compare_spec r.1.1 s.1.1); [|eexists; split; [done|]; naive_solver lia..].
  destruct (Z.compare_spec r.1.2 s.1.2); [|eexists; split; [done|]; naive_solver lia..].
  destruct (Z.compare_spec r.2 s.2); [|eexists; split; [done|]; naive_solver lia..].
  eexists. split; [done|]. rewrite pair_compare_le. naive_solver lia.
Qed.

Lemma rank_le_total r s p q : rank_le r s p q ∨ rank_le s r q p.
Proof.
  unfold rank_le.
  destruct (Z.lt_trichotomy r.1.1 s.1.1) as [?|[->|?]]; [by auto| |by auto].
  destruct (Z.lt_trichotomy r.1.2 s.1.2) as [?|[->|?]]; [by auto| |by auto].
  destruct (Z.lt_trichotomy r.2 s.2) as [?|[->|?]]; [by auto 10| |by auto 10].
  destruct (total pair_le p q); auto 10.
Qed.

Lemma rank_le_trans r s t p q o : rank_le r s p q → rank_le s t q o → rank_le r t p o.
Proof.
  unfold rank_le.
  intros [?|(? & [?|(? & [?|[? ?]])])] [?|(? & [?|(? & [?|[? ?]])])]; try (left; lia);
    right; (split; [lia|]); try (left; lia); right; (split; [lia|]); try (left; lia);
    right; (split; [lia|]). by transitivity q.
Qed.

(** Every candidate is below the protection level, so it is a number: the
    [expect] in the comparison never fires. *)
Lemma min_by_edges_spec (l : list PathEdge) :
  (∀ e, e ∈ l → is_Some (sf_rank e.2)) →
  ∃ o, min_by_partial edge_partial_cmp l = Some o ∧
    match o with
    | None => l = []
    | Some x => x ∈ l ∧ ∀ y, y ∈ l → edge_partial_cmp x y ≠ Some Gt
    end.
Proof.
  intros Hl. apply (min_by_partial_spec _ (λ e, is_Some (sf_rank e.2))).
  - intros a b [r Hr] [s Hs]. destruct (edge_partial_cmp_rank a b r s) as (c & -> & _); eauto.
  - intros a [r Hr]. destruct (edge_partial_cmp_rank a a r r) as (c & -> & Hc); [done..|].
    rewrite (inj_iff Some), Hc. by destruct (rank_le_total r r a.1 a.1).
  - intros a b [r Hr] [s Hs].
    destruct (edge_partial_cmp_rank a b r s) as (c & -> & Hc); [done..|].
    destruct (edge_partial_cmp_rank b a s r) as (d & -> & Hd); [done..|].
    rewrite !(inj_iff Some), Hd. intros ->. destruct (rank_le_total r s a.1 b.1); naive_solver.
  - intros a b c [r Hr] [s Hs] [t Ht].
    destruct (edge_partial_cmp_rank a b r s) as (c1 & -> & Hc1); [done..|].
    destruct (edge_partial_cmp_rank b c s t) as (c2 & -> & Hc2); [done..|].
    destruct (edge_partial_cmp_rank a c r t) as (c3 & -> & Hc3); [done..|].
    rewrite !(inj_iff Some), Hc1, Hc2, Hc3. apply rank_le_trans.
  - by apply Forall_forall.
Qed.

(** ** Choosing the edge *)

Lemma proper_canon edges e : proper_edges edges → e ∈ edges → is_Some (canon_edge e).
Proof. intros He Hin. apply canon_is_Some. by apply He. Qed.

Lemma pair_prob_snoc edges e p :
  pair_prob (edges ++ [e]) p = if decide (canon_edge e = Some p) then Some e.2 else pair_prob edges p.
Proof.
  unfold pair_prob. rewrite filter_app, filter_cons, filter_nil.
  case_decide; [by rewrite last_snoc|by rewrite app_nil_r].
Qed.

Lemma probability_map_spec edges :
  proper_edges edges →
  ∃ m, probability_map edges = Some m ∧ ∀ p, m !! p = pair_prob edges p.
Proof.
  intros He. unfold probability_map.
  rewrite mapM_omap.
  2:{ intros e Hin. destruct (proper_canon _ _ He Hin) as [p ->]. eauto. }
  eexists. split; [done|]. intros p. clear He.
  induction edges as [|e edges IH] using rev_ind; [done|].
  rewrite omap_app, pair_prob_snoc. csimpl.
  destruct (canon_edge e) as [q|]; csimpl.
  - rewrite map_collect_app, lookup_insert. repeat case_decide; naive_solver.
  - by rewrite app_nil_r.
Qed.

Lemma pair_prob_elem_of edges p v :
  pair_prob edges p = Some v → ∃ e, e ∈ edges ∧ canon_edge e = Some p ∧ e.2 = v.
Proof.
  unfold pair_prob. intros (e & He & ->)%fmap_Some.
  apply last_Some_elem_of, list_elem_of_filter in He as [??]. eauto.
Qed.

Lemma pair_prob_is_Some edges p :
  is_Some (pair_prob edges p) ↔ ∃ e, e ∈ edges ∧ canon_edge e = Some p.
Proof.
  split.
  - intros [v (e & ? & ? & _)%pair_prob_elem_of]. eauto.
  - intros (e & He & Hp). unfold pair_prob. rewrite fmap_is_Some, last_is_Some.
    intros Hnil. assert (e ∈ filter (λ e, canon_edge e = Some p) edges) as Hf
      by by apply list_elem_of_filter.
    rewrite Hnil in Hf. set_solver.
Qed.

Section choose.
Context (edges : list PathEdge) (protect : spec_float) (protected : gset string).

(** A hop of the path that may be cut, with the probability read for it. *)
Definition candidate (path : list string) (e : PathEdge) : Prop :=
  ∃ x y, (x, y) ∈ windows2 path ∧ canon x y = Some e.1
    ∧ pair_prob edges e.1 = Some e.2 ∧ ¬ uncuttable protect protected e.1 e.2.

Lemma candidate_test (p : string * string) v :
  SFltb v protect && bool_decide (p.1 ∉ protected) && bool_decide (p.2 ∉ protected) = true
  ↔ ¬ uncuttable protect protected p v.
Proof.
  unfold uncuttable. rewrite !andb_true_iff, !bool_decide_eq_true.
  destruct (SFltb v protect); naive_solver.
Qed.

Lemma candidates_loop_spec probability hops :
  (∀ p, probability !! p = pair_prob edges p) →
  (∀ x y, (x, y) ∈ hops → x ≠ y) →
  ∃ l, candidates_loop probability protect protected hops = Some l ∧
    ∀ e, e ∈ l ↔ ∃ x y, (x, y) ∈ hops ∧ canon x y = Some e.1
      ∧ pair_prob edges e.1 = Some e.2 ∧ ¬ uncuttable protect protected e.1 e.2.
Proof.
  intros Hp. induction hops as [|[x y] hops IH]; intros Hhops; simpl.
  { exists []. split; [done|]. set_solver. }
  destruct (proj2 (canon_is_Some x y)) as [p Hc]; [apply Hhops; left|]. rewrite Hc. simpl.
  destruct IH as (l & -> & Hl). { intros ???. apply Hhops. by right. }
  simpl. eexists. split; [done|]. intros e. rewrite Hp. setoid_rewrite elem_of_cons.
  destruct (pair_prob edges p) as [v|] eqn:Hv.
  2:{ rewrite Hl. split; [naive_solver|]. intros (x' & y' & [[= -> ->]|?] & Hc' & Hv' & ?).
      - rewrite Hc in Hc'. naive_solver. - eauto 10. }
  destruct (_ && _) eqn:Ht.
  - rewrite elem_of_cons, Hl. apply candidate_test in Ht. split.
    + intros [->|(x' & y' & ?)]; [exists x, y; naive_solver|exists x', y'; naive_solver].
    + intros (x' & y' & [[= -> ->]|?] & Hc' & Hv' & ?); [left|eauto 10].
      destruct e as [q w]. simplify_eq/=. done.
  - rewrite Hl. rewrite <-not_true_iff_false, candidate_test in Ht. split; [naive_solver|].
    intros (x' & y' & [[= -> ->]|?] & Hc' & Hv' & ?); [|eauto 10].
    destruct e as [q w]. simplify_eq/=. naive_solver.
Qed.

Lemma choose_cut_edge_spec path :
  proper_edges edges → (∀ x y, (x, y) ∈ windows2 path → x ≠ y) →
  ∃ o, choose_cut_edge path edges protect protected = Some o ∧
    match o with
    | Some e => candidate path e ∧ ∀ f, candidate path f → edge_partial_cmp e f ≠ Some Gt
    | None => ∀ e, ¬ candidate path e
    end.
Proof.
  intros He Hpath. unfold choose_cut_edge.
  destruct (probability_map_spec edges He) as (m & -> & Hm). simpl.
  destruct (candidates_loop_spec m (windows2 path)) as (l & -> & Hl); [done..|]. simpl.
  destruct (min_by_edges_spec l) as (o & -> & Ho).
  { intros e (x & y & _ & _ & _ & Hu)%Hl. apply (SFltb_rank _ protect).
    apply candidate_test in Hu. by destruct (SFltb _ _). }
  exists o. split; [done|]. destruct o as [e|].
  - destruct Ho as [Hin Hmin]. split; [by apply Hl|]. intros f Hf. by apply Hmin, Hl.
  - intros e Hc. assert (e ∈ l) by by apply Hl. subst. set_solver.
Qed.
End choose.

(** ** Components *)

Lemma roots_loop_spec l uf :
  forest (VecUF.par uf) → (∀ i s, (i, s) ∈ l → i < length uf) →
  ∃ roots, roots_loop uf l = Some roots ∧ roots.*1 = l.*2
    ∧ ∀ s r, (s, r) ∈ roots → ∃ i, (i, s) ∈ l ∧ root (VecUF.par uf) i r.
Proof.
  revert uf. induction l as [|[i s] l IH]; intros uf Hf Hl; simpl.
  { exists []. split; [done|]. split; [done|]. set_solver. }
  destruct (VecUF.find_spec uf i) as (uf' & r & -> & Hr & Hlen & Hroot); [done|apply (Hl i s); left|].
  simpl. destruct (IH uf') as (roots & -> & Hfst & Hroots).
  { intros x Hx. destruct (Hf x) as [t Ht]; [|exists t; by apply Hroot].
    rewrite VecUF.par_is_Some, <-Hlen. by apply VecUF.par_is_Some. }
  { intros j t Hj. rewrite Hlen. apply (Hl j t). by right. }
  simpl. eexists. split; [done|]. split; [csimpl; by rewrite Hfst|].
  intros t u [[= -> ->]|Hin]%elem_of_cons.
  - exists i. split; [left|done].
  - destruct (Hroots t u Hin) as (j & Hj & Hju). exists j. split; [by right|by apply Hroot].
Qed.

Definition same_component (component : gmap string nat) (a b : string) : Prop :=
  ∃ x, component !! a = Some x ∧ component !! b = Some x.

(** Two different records share a component exactly when they are connected. *)
Lemma components_spec edges nodes :
  ∃ component, components edges nodes = Some component ∧
    ∀ a b, a ≠ b → same_component component a b ↔ connected (pairs edges) a b.
Proof.
  unfold components. set (ids := set_sorted _).
  assert (NoDup ids) as HN by (unfold ids; auto with er).
  assert (covers ids (pairs edges)) as Hc.
  { intros x Hx. apply elem_of_set_sorted. set_solver. }
  destruct (union_edges_spec ids (pairs edges) HN Hc) as (uf & -> & Hlen & Hf & Hsame). simpl.
  destruct (roots_loop_spec (enumerate ids) uf) as (roots & -> & Hfst & Hroots); [done| |].
  { intros i s ?%enumerate_lt. by rewrite Hlen. }
  simpl. eexists. split; [done|].
  assert (∀ s r, map_collect roots !! s = Some r ↔
    ∃ i, ids !! i = Some s ∧ root (VecUF.par uf) i r) as Hlook.
  { intros s r. rewrite map_collect_lookup by by rewrite Hfst, enumerate_snd.
    split; [intros (i & ?%elem_of_enumerate & ?)%Hroots; eauto|].
    intros (i & Hi & Hr).
    assert (s ∈ roots.*1) as ([? r'] & ? & Hin)%list_elem_of_fmap.
    { rewrite Hfst, enumerate_snd. by eapply list_elem_of_lookup_2. }
    simplify_eq/=. destruct (Hroots _ _ Hin) as (j & Hj%elem_of_enumerate & Hr').
    assert (i = j) as -> by by eapply NoDup_lookup.
    by rewrite (root_det _ _ _ _ Hr Hr'). }
  intros a b Hab. unfold same_component. setoid_rewrite Hlook. split.
  - intros (r & (i & Hi & Hir) & (j & Hj & Hjr)). apply (Hsame i j a b Hi Hj). by exists r.
  - intros Hcon. destruct (connected_isolated _ _ _ Hcon) as [?|[Ha Hb]]; [done|].
    assert (a ∈ ids) as [i Hi]%list_elem_of_lookup by (apply Hc, elem_of_endpoints; naive_solver).
    assert (b ∈ ids) as [j Hj]%list_elem_of_lookup by (apply Hc, elem_of_endpoints; naive_solver).
    destruct (proj2 (Hsame i j a b Hi Hj) Hcon) as (r & ? & ?). exists r. split; eauto.
Qed.

(** ** Violations *)

Definition violates (edges : list PathEdge) (done : gset (string * string))
    (a : Assertion) : Prop :=
  connected (pairs edges) (rec_a_key a) (rec_b_key a)
  ∧ ∀ p, canon (rec_a_key a) (rec_b_key a) = Some p → p ∉ done.

Lemma violations_loop_spec edges component done l :
  (∀ a b, a ≠ b → same_component component a b ↔ connected (pairs edges) a b) →
  (∀ a, a ∈ l → rec_a_key a ≠ rec_b_key a) →
  ∃ vs, violations_loop component done l = Some vs ∧
    ∀ a, a ∈ vs ↔ a ∈ l ∧ violates edges done a.
Proof.
  intros Hcomp. induction l as [|a l IH]; intros Hl; simpl.
  { exists []. split; [easy|]. set_solver. }
  assert (rec_a_key a ≠ rec_b_key a) as Hne by (apply Hl; left).
  unfold is_violation. destruct (proj2 (canon_is_Some _ _) Hne) as [p Hp]. rewrite Hp. simpl.
  destruct IH as (vs & -> & Hvs). { intros ??. apply Hl. by right. }
  simpl. eexists. split; [reflexivity|]. intros b.
  match goal with |- context [if ?c then _ else _] => assert (c = true ↔ violates edges done a) as Ht end.
  { unfold violates. rewrite andb_true_iff, bool_decide_eq_true, <-(Hcomp _ _ Hne).
    unfold same_component. destruct (component !! rec_a_key a) as [x|]; [|naive_solver].
    destruct (component !! rec_b_key a) as [y|]; [|naive_solver].
    rewrite bool_decide_eq_true. naive_solver. }
  destruct (_ && _).
  - rewrite !elem_of_cons, Hvs. naive_solver.
  - rewrite elem_of_cons, Hvs. naive_solver.
Qed.

(** ** Retaining *)

Lemma retain_loop_spec cp edges :
  proper_edges edges →
  retain_loop cp edges = Some (live_after edges [cp]).
Proof.
  unfold live_after. induction edges as [|e edges IH]; intros He; simpl; [done|].
  destruct (proper_canon _ e He) as [p Hp]; [left|]. rewrite Hp. simpl.
  rewrite IH by (intros ??; apply He; by right). simpl. rewrite filter_cons.
  case_decide as Hd; [rewrite decide_False|rewrite decide_True]; try easy;
    unfold spared; rewrite Hp; set_solver.
Qed.

Lemma live_after_app edges l cp :
  live_after (live_after edges l) [cp] = live_after edges (l ++ [cp]).
Proof.
  unfold live_after. rewrite list_filter_filter. apply list_filter_iff. intros e.
  unfold spared. destruct (canon_edge e); set_solver.
Qed.

Lemma live_after_nil edges : proper_edges edges → live_after edges [] = edges.
Proof.
  intros He. unfold live_after. apply filter_all. intros e Hin.
  unfold spared. destruct (proper_canon _ _ He Hin) as [p ->]. set_solver.
Qed.

Lemma elem_of_live_after edges l e :
  e ∈ live_after edges l ↔ e ∈ edges ∧ ∃ p, canon_edge e = Some p ∧ p ∉ l.
Proof.
  unfold live_after. rewrite list_elem_of_filter. unfold spared.
  destruct (canon_edge e); naive_solver.
Qed.

Lemma proper_live_after edges l : proper_edges edges → proper_edges (live_after edges l).
Proof. intros He e [? _]%elem_of_live_after. auto. Qed.

(** A cut removes every edge of its pair and no other. *)
Lemma pair_prob_live_after edges l p :
  pair_prob (live_after edges l) p = if decide (p ∈ l) then None else pair_prob edges p.
Proof.
  unfold pair_prob, live_after. rewrite list_filter_filter. case_decide as Hp.
  - rewrite filter_none; [easy|]. intros e _.
    unfold spared. intros [-> ?]. easy.
  - do 2 f_equal. apply list_filter_iff. intros e. unfold spared.
    destruct (canon_edge e); naive_solver.
Qed.

(** ** Walks and their hops *)

Lemma windows2_snoc {A} (p : list A) u v :
  last p = Some u → windows2 (p ++ [v]) = windows2 p ++ [(u, v)].
Proof.
  induction p as [|x [|y p] IH]; intros Hl; simplify_eq/=; [easy|].
  f_equal. by apply IH.
Qed.

Lemma walk_last edges s p t : walk edges s p t → last p = Some t.
Proof. destruct 1; [easy|apply last_snoc]. Qed.

Lemma walk_hops_adj edges s p t x y :
  walk edges s p t → (x, y) ∈ windows2 p → adj edges x y.
Proof.
  induction 1 as [|p u v Hw IH Huv]; [set_solver|].
  rewrite (windows2_snoc p u v) by by eapply walk_last.
  rewrite elem_of_app, list_elem_of_singleton. naive_solver.
Qed.

Lemma walk_hops_connected edges es s p t :
  walk edges s p t → (∀ x y, (x, y) ∈ windows2 p → connected es x y) → connected es s t.
Proof.
  induction 1 as [|p u v Hw IH Huv]; intros Hes; [reflexivity|].
  rewrite (windows2_snoc p u v) in Hes by by eapply walk_last.
  transitivity u; [apply IH; intros ???|]; apply Hes; set_solver.
Qed.

Lemma adj_proper edges x y : proper_edges edges → adj edges x y → x ≠ y.
Proof.
  intros He [([[a b] v] & [= -> ->] & Hin)%list_elem_of_fmap
            |([[a b] v] & [= -> ->] & Hin)%list_elem_of_fmap]; apply He in Hin; simpl in Hin; congruence.
Qed.

Lemma adj_canon edges x y p :
  adj edges x y → canon x y = Some p → ∃ e, e ∈ edges ∧ canon_edge e = Some p.
Proof.
  intros [([[a b] v] & [= -> ->] & Hin)%list_elem_of_fmap
         |([[a b] v] & [= -> ->] & Hin)%list_elem_of_fmap] Hp;
    eexists; (split; [done|]); unfold canon_edge; simpl; [done|by rewrite canon_sym].
Qed.

Lemma solid_pairs_connected edges protect protected x y p :
  canon x y = Some p → solid edges protect protected p →
  connected (solid_pairs edges protect protected) x y.
Proof.
  intros Hp Hs. apply (canon_connected _ x y p Hp), connected_edge.
  unfold solid_pairs. rewrite <-surjective_pairing, list_elem_of_filter. split; [done|].
  apply list_elem_of_omap.
  destruct (proj1 (pair_prob_is_Some edges p)) as (e & ? & ?); [|eauto].
  unfold solid in Hs. destruct (pair_prob edges p); [eauto|done].
Qed.

(** ** The run *)

Section run.
Context (edges : list PathEdge) (never : list Assertion).
Context (protect : spec_float) (protected : gset string).
Context (Hedges : proper_edges edges).
Context (Hnever : ∀ a, a ∈ never → rec_a_key a ≠ rec_b_key a).

Record cut_inv (st : cut_state) : Prop := {
  inv_live : live st = live_after edges (cut_pair <$> cs_cuts st);
  inv_nodup : NoDup (cut_pair <$> cs_cuts st);
  inv_cuts : ∀ c, c ∈ cs_cuts st →
    pair_prob edges (cut_pair c) = Some (cut_match_probability c)
    ∧ ¬ uncuttable protect protected (cut_pair c) (cut_match_probability c)
    ∧ ∃ a, a ∈ never ∧ assertion_id a = cut_assertion_id c;
  inv_escalated : ∀ p id, (p, id) ∈ escalated st →
    (∃ a, a ∈ never ∧ canon (rec_a_key a) (rec_b_key a) = Some p ∧ assertion_id a = id)
    ∧ connected (solid_pairs edges protect protected) p.1 p.2;
  inv_pairs : ∀ p, p ∈ escalated_pairs st ↔ p ∈ (escalated st).*1;
}.

Definition pending (done : gset (string * string)) (a : Assertion) : Prop :=
  match canon (rec_a_key a) (rec_b_key a) with Some p => p ∉ done | None => False end.

#[local] Instance pending_dec done a : Decision (pending done a).
Proof. unfold pending. destruct (canon _ _); apply _. Defined.

(** Every round lowers this measure: a cut removes an edge, an escalation
    settles a pair. *)
Definition cut_measure (st : cut_state) : nat :=
  length (live st) + length (filter (pending (escalated_pairs st)) never).

Lemma inv_proper st : cut_inv st → proper_edges (live st).
Proof. intros Hst. rewrite (inv_live _ Hst). by apply proper_live_after. Qed.

(** An escalating path runs over pairs no cut may touch. *)
Lemma no_candidate_solid st path s t :
  cut_inv st → walk (live st) s path t →
  (∀ e, ¬ candidate (live st) protect protected path e) →
  connected (solid_pairs edges protect protected) s t.
Proof.
  intros Hst Hw Hno. eapply walk_hops_connected; [done|]. intros x y Hxy.
  pose proof (walk_hops_adj _ _ _ _ _ _ Hw Hxy) as Hadj.
  destruct (proj2 (canon_is_Some x y)) as [p Hp].
  { eapply adj_proper; [by apply inv_proper|done]. }
  apply (solid_pairs_connected _ _ _ _ _ p Hp).
  destruct (proj2 (pair_prob_is_Some (live st) p)) as [v Hv]; [by eapply adj_canon|].
  assert (pair_prob edges p = Some v) as Hv'.
  { rewrite (inv_live _ Hst), pair_prob_live_after in Hv. by case_decide. }
  unfold solid. rewrite Hv'. destruct (decide (uncuttable protect protected p v)) as [|Hc]; [done|].
  destruct (Hno (p, v)). exists x, y. done.
Qed.

(** The chosen edge is live, and its probability is that of the input. *)
Lemma candidate_live st path e :
  cut_inv st → candidate (live st) protect protected path e →
  (e.1 ∉ (cut_pair <$> cs_cuts st)) ∧ pair_prob edges e.1 = Some e.2
  ∧ ¬ uncuttable protect protected e.1 e.2
  ∧ ∃ f, f ∈ live st ∧ canon_edge f = Some e.1.
Proof.
  intros Hst (x & y & _ & _ & Hp & Hu).
  destruct (proj1 (pair_prob_is_Some (live st) e.1)) as (f & Hf); [eauto|].
  rewrite (inv_live _ Hst), pair_prob_live_after in Hp. case_decide; [done|]. eauto.
Qed.

Lemma escalate_inv st a p :
  cut_inv st → a ∈ never → canon (rec_a_key a) (rec_b_key a) = Some p →
  connected (solid_pairs edges protect protected) (rec_a_key a) (rec_b_key a) →
  cut_inv (mkCutState (live st) (cs_cuts st) (escalated st ++ [(p, assertion_id a)])
             ({[p]} ∪ escalated_pairs st)).
Proof.
  intros [] Ha Hp Hc. split; simpl; try done.
  - intros q id [?|[= -> ->]%list_elem_of_singleton]%elem_of_app; [auto|].
    split; [eauto|]. by apply (canon_connected _ _ _ _ Hp).
  - intros q. rewrite fmap_app, elem_of_app, elem_of_union, inv_pairs0. set_solver.
Qed.

Lemma cut_inv_cut st a e :
  cut_inv st → a ∈ never → e.1 ∉ (cut_pair <$> cs_cuts st) →
  pair_prob edges e.1 = Some e.2 → ¬ uncuttable protect protected e.1 e.2 →
  cut_inv (mkCutState (live_after (live st) [e.1])
             (cs_cuts st ++ [mkCut e.1.1 e.1.2 e.2 (assertion_id a)])
             (escalated st) (escalated_pairs st)).
Proof.
  intros [] Ha Hnew Hp Hu. destruct e as [[x y] v]. simpl in *.
  split; simpl; try done.
  - rewrite inv_live0, live_after_app, fmap_app. done.
  - rewrite fmap_app. apply NoDup_app. split; [done|]. split; [|apply NoDup_singleton].
    intros q Hq ->%list_elem_of_singleton. done.
  - intros c [?| ->%list_elem_of_singleton]%elem_of_app; [auto|]. unfold cut_pair; simpl. eauto.
Qed.

Lemma pending_escalate done p a :
  pending ({[p]} ∪ done) a → pending done a.
Proof. unfold pending. destruct (canon _ _); set_solver. Qed.

Lemma filter_impl_length {A} (P Q : A → Prop) `{∀ x, Decision (P x), ∀ x, Decision (Q x)} l :
  (∀ x, P x → Q x) → length (filter P l) ≤ length (filter Q l)
  ∧ ∀ x, x ∈ l → Q x → ¬ P x → length (filter P l) < length (filter Q l).
Proof.
  intros HPQ. rewrite <-(list_filter_filter_l P Q) by done. split; [apply length_filter|].
  intros x Hx HQ HP. apply (length_filter_lt _ _ x); [|done]. by apply list_elem_of_filter.
Qed.

(** One violation: the invariant is kept; a pending connected pair is progress. *)
Lemma cut_step_spec st a :
  cut_inv st → a ∈ never →
  ∃ st' b, cut_step protect protected st a = Some (st', b) ∧ cut_inv st'
    ∧ cut_measure st' ≤ cut_measure st
    ∧ (violates (live st) (escalated_pairs st) a → b = true ∧ cut_measure st' < cut_measure st).
Proof.
  intros Hst Ha. unfold cut_step.
  destruct (shortest_path_spec (rec_a_key a) (rec_b_key a) (live st)) as (o & -> & Ho). simpl.
  destruct o as [path|].
  2:{ exists st, false. split; [done|]. split; [done|]. split; [done|]. by intros []. }
  destruct Ho as [Hw _].
  destruct (choose_cut_edge_spec (live st) protect protected path) as (c & -> & Hc).
  { by apply inv_proper. }
  { intros x y ?. eapply adj_proper; [by apply inv_proper|by eapply walk_hops_adj]. }
  simpl. destruct c as [e|].
  - destruct Hc as [Hc _]. apply candidate_live in Hc as (Hnew & Hp & Hu & f & Hf & Hfe); [|done].
    rewrite retain_loop_spec by by apply inv_proper. simpl.
    eexists _, true. split; [done|]. split; [by apply cut_inv_cut|].
    assert (length (live_after (live st) [e.1]) < length (live st)) as Hlt.
    { apply (length_filter_lt _ _ f); [done|]. unfold spared. rewrite Hfe. set_solver. }
    unfold cut_measure; simpl. split; [lia|]. intros _. split; [done|]. lia.
  - destruct (proj2 (canon_is_Some _ _) (Hnever a Ha)) as [p Hp]. rewrite Hp. simpl.
    eexists _, true. split; [done|].
    split; [apply escalate_inv; [done..|by eapply no_candidate_solid]|].
    destruct (filter_impl_length (pending ({[p]} ∪ escalated_pairs st))
      (pending (escalated_pairs st)) never (pending_escalate _ p)) as [Hle Hlt].
    unfold cut_measure; simpl. split; [lia|]. intros [_ Hv]. split; [done|].
    assert (length (filter (pending ({[p]} ∪ escalated_pairs st)) never)
      < length (filter (pending (escalated_pairs st)) never)); [|lia].
    apply (Hlt a); [done|..]; unfold pending; rewrite Hp; [by apply Hv|set_solver].
Qed.

Lemma cut_round_keeps st b vs :
  cut_inv st → (∀ a, a ∈ vs → a ∈ never) →
  ∃ st' b', cut_round protect protected st b vs = Some (st', b') ∧ cut_inv st'
    ∧ cut_measure st' ≤ cut_measure st ∧ (b = true → b' = true).
Proof.
  revert st b. induction vs as [|a vs IH]; intros st b Hst Hvs; simpl; [eauto 10|].
  destruct (cut_step_spec st a) as (st1 & b1 & -> & Hst1 & Hle & _); [done|apply Hvs; left|].
  simpl. destruct (IH st1 (b || b1)) as (st' & b' & -> & Hst' & Hle' & Hb);
    [done|intros; apply Hvs; by right|].
  exists st', b'. split; [done|]. split; [done|]. split; [lia|].
  intros ->. by apply Hb.
Qed.

(** A round with a violation makes progress. *)
Lemma cut_round_spec st a vs :
  cut_inv st → (∀ a', a' ∈ a :: vs → a' ∈ never) →
  violates (live st) (escalated_pairs st) a →
  ∃ st', cut_round protect protected st false (a :: vs) = Some (st', true) ∧ cut_inv st'
    ∧ cut_measure st' < cut_measure st.
Proof.
  intros Hst Hvs Hv. simpl.
  destruct (cut_step_spec st a) as (st1 & b1 & -> & Hst1 & _ & Hlt); [done|apply Hvs; left|].
  destruct (Hlt Hv) as [-> Hm]. simpl.
  destruct (cut_round_keeps st1 true vs) as (st' & b' & -> & Hst' & Hle & Hb);
    [done|intros; apply Hvs; by right|].
  rewrite Hb by done. exists st'. split; [done|]. split; [done|lia].
Qed.

#[local] Arguments cut_round : simpl never.

(** A settled state: nobody is left to cut. *)
Definition settled (st : cut_state) : Prop :=
  ∀ a, a ∈ never → ¬ violates (live st) (escalated_pairs st) a.

Lemma cut_loop_spec nodes max remaining iters st :
  cut_inv st →
  ∃ r, cut_loop never nodes protect protected max remaining iters st = Some r ∧
    match r with
    | Ok res => ∃ st' n, cut_inv st' ∧ settled st' ∧ n ≤ remaining
        ∧ res = mkCutResult (cs_cuts st') (escalated st') (iters + n)
    | Err (NonConvergence m n) => m = max ∧ 0 < n ∧ remaining < cut_measure st
    | Err (NoProgress _) => False
    end.
Proof.
  revert iters st. induction remaining as [|k IH]; intros iters st Hst; simpl;
    (destruct (components_spec (live st) nodes) as (comp & -> & Hcomp); simpl);
    (destruct (violations_loop_spec (live st) comp (escalated_pairs st) never Hcomp Hnever)
      as (vs & -> & Hvs); simpl);
    (destruct vs as [|a vs];
      [eexists; split; [done|]; exists st, 0; rewrite Nat.add_0_r; split; [done|];
       split; [intros a Ha Hv; assert (a ∈ []) by (by apply Hvs); set_solver|split; [lia|done]]|]).
  - eexists. split; [done|]. split; [done|]. split; [simpl; lia|].
    destruct (proj1 (Hvs a)) as [Ha Hv]; [left|].
    destruct (cut_round_spec st a []) as (st' & _ & _ & Hm); [done|set_solver|done|lia].
  - destruct (proj1 (Hvs a)) as [Ha Hv]; [left|].
    destruct (cut_round_spec st a vs) as (st1 & Hr & Hst1 & Hm); [done| |done|].
    { intros a' Ha'. by apply Hvs. }
    rewrite Hr. simpl. destruct (IH (S iters) st1 Hst1) as (r & -> & Hrr).
    exists r. split; [done|]. destruct r as [res|[m n|n]]; [|naive_solver lia|done].
    destruct Hrr as (st' & n & ? & ? & ? & ->). exists st', (S n).
    rewrite Nat.add_succ_r. split; [done|]. split; [done|]. split; [lia|done].
Qed.

Lemma cut_inv_init : cut_inv (mkCutState edges [] [] ∅).
Proof using Hedges.
  clear Hnever. split; simpl; try set_solver; [by rewrite live_after_nil|constructor].
Qed.

Lemma cut_measure_init : cut_measure (mkCutState edges [] [] ∅) = length edges + length never.
Proof using Hnever.
  clear Hedges. unfold cut_measure; simpl. rewrite filter_all; [done|]. intros a Ha. unfold pending.
  destruct (proj2 (canon_is_Some _ _) (Hnever a Ha)) as [p ->]. set_solver.
Qed.

(** The solid pairs survive every cut. *)
Lemma solid_live st x y :
  cut_inv st → connected (solid_pairs edges protect protected) x y →
  connected (pairs (live st)) x y.
Proof.
  intros Hst. induction 1 as [x|x z y Hxz _ IH]; [reflexivity|].
  transitivity z; [|done]. clear IH.
  assert (∀ x z, (x, z) ∈ solid_pairs edges protect protected →
    connected (pairs (live st)) x z) as Hpair; [|destruct Hxz; [|symmetry]; auto].
  clear x z y Hxz. intros x z [Hs ([[a b] v] & Hin & Hp)%list_elem_of_omap]%list_elem_of_filter.
  apply (canon_connected _ a b (x, z) Hp), connected_edge, list_elem_of_fmap.
  exists (a, b, v). split; [done|]. rewrite (inv_live _ Hst). apply elem_of_live_after.
  split; [done|]. exists (x, z). split; [done|]. intros (c & Hc & Hcc)%list_elem_of_fmap.
  destruct (inv_cuts _ Hst c Hcc) as (Hpp & Hu & _). rewrite <-Hc in Hpp, Hu.
  unfold solid in Hs. by rewrite Hpp in Hs.
Qed.

(** Escalated, exactly when solid pairs join the records. *)
Lemma settled_escalated st a :
  cut_inv st → settled st → a ∈ never →
  (∃ p id, canon (rec_a_key a) (rec_b_key a) = Some p ∧ (p, id) ∈ escalated st)
  ↔ connected (solid_pairs edges protect protected) (rec_a_key a) (rec_b_key a).
Proof.
  intros Hst Hset Ha. destruct (proj2 (canon_is_Some _ _) (Hnever a Ha)) as [p Hp]. split.
  - intros (q & id & Hq & Hin). rewrite Hp in Hq. injection Hq as <-.
    apply (canon_connected _ _ _ _ Hp). by apply (inv_escalated _ Hst p id).
  - intros Hc%(solid_live st); [|done].
    destruct (decide (p ∈ escalated_pairs st)) as [Hin|Hout].
    + apply (inv_pairs _ Hst), list_elem_of_fmap in Hin as ([q id] & ? & Hin).
      simplify_eq/=. eauto.
    + destruct (Hset a Ha). split; [done|]. intros q Hq. by simplify_eq.
Qed.
End run.

(** ** Properties *)

Lemma never_cut_fixpoint_spec edges assertions nodes protect protected max :
  proper_edges edges →
  (∀ a, a ∈ never_of assertions → rec_a_key a ≠ rec_b_key a) →
  ∃ r, never_cut_fixpoint edges assertions nodes protect protected max = Some r ∧
    match r with
    | Ok res => ∃ st, cut_inv edges (never_of assertions) protect protected st
        ∧ settled (never_of assertions) st ∧ cuts res = cs_cuts st
        ∧ escalations res = escalated st ∧ iterations res ≤ max
    | Err (NonConvergence m n) =>
        m = max ∧ 0 < n ∧ max < length edges + length (never_of assertions)
    | Err (NoProgress _) => False
    end.
Proof.
  intros He Hn. unfold never_cut_fixpoint.
  pose proof (cut_inv_init edges (never_of assertions) protect protected He) as Hinit.
  rewrite <-(cut_measure_init edges (never_of assertions) Hn).
  destruct (cut_loop_spec edges (never_of assertions) protect protected He Hn
    (list_to_set nodes ∪ list_to_set (endpoints (pairs edges))) max max 0 _ Hinit)
    as (r & Hr & Hspec).
  destruct (never_of assertions) as [|a l] eqn:E.
  - eexists. split; [done|]. simpl. exists (mkCutState edges [] [] ∅).
    split; [done|]. split; [intros ??; set_solver|]. split_and!; [done|done|lia].
  - exists r. split; [done|]. destruct r as [res|[]]; [|done|done].
    destruct Hspec as (st & n & ? & ? & ? & ->). exists st. simpl. done.
Qed.

(** The cut is the least candidate.  On a path of distinct neighbours the
    choice never panics, also on a NaN probability; it returns a hop that may
    be cut with the probability of its pair, and no other such hop is below it
    in (probability, keys) order; it returns [None] exactly when no hop of the
    path may be cut. *)
Theorem choose_cut_edge_correct path edges protect protected :
  proper_edges edges → (∀ x y, (x, y) ∈ windows2 path → x ≠ y) →
  ∃ o, choose_cut_edge path edges protect protected = Some o ∧
    match o with
    | Some e => candidate edges protect protected path e
        ∧ ∀ f, candidate edges protect protected path f → edge_partial_cmp e f ≠ Some Gt
    | None => ∀ e, ¬ candidate edges protect protected path e
    end.
Proof. apply choose_cut_edge_spec. Qed.

(** C35: the never-cut loop always answers: with distinct ends on every edge and
    every active [never], it neither panics nor reports [NoProgress], the
    rounds stay within the budget, and a budget of one round per edge and per
    active [never] always settles. *)
Theorem never_cut_fixpoint_terminates edges assertions nodes protect protected max :
  proper_edges edges →
  (∀ a, a ∈ never_of assertions → rec_a_key a ≠ rec_b_key a) →
  ∃ r, never_cut_fixpoint edges assertions nodes protect protected max = Some r ∧
    match r with
    | Ok res => iterations res ≤ max
    | Err (NonConvergence m n) =>
        m = max ∧ 0 < n ∧ max < length edges + length (never_of assertions)
    | Err (NoProgress _) => False
    end.
Proof.
  intros He Hn.
  destruct (never_cut_fixpoint_spec edges assertions nodes protect protected max He Hn)
    as (r & -> & Hr).
  exists r. split; [done|]. destruct r as [res|[]]; [|done|done]. by destruct Hr as (? & ? & ? & ? & ? & ?).
Qed.

(** C3: what a settled run has achieved.  An active [never] pair is escalated
    exactly when pairs that no cut may touch (probability not below the
    protection level, or a protected end) join its records; every other active
    [never] pair is apart in the edges that remain. *)
Theorem never_cut_fixpoint_separates edges assertions nodes protect protected max res a :
  proper_edges edges →
  (∀ a, a ∈ never_of assertions → rec_a_key a ≠ rec_b_key a) →
  never_cut_fixpoint edges assertions nodes protect protected max = Some (Ok res) →
  a ∈ never_of assertions →
  let escalates := ∃ p id, canon (rec_a_key a) (rec_b_key a) = Some p ∧ (p, id) ∈ escalations res in
  (escalates ↔ connected (solid_pairs edges protect protected) (rec_a_key a) (rec_b_key a))
  ∧ (¬ escalates →
     ¬ connected (pairs (live_after edges (cut_pair <$> cuts res))) (rec_a_key a) (rec_b_key a)).
Proof.
  intros He Hn Hrun Ha.
  destruct (never_cut_fixpoint_spec edges assertions nodes protect protected max He Hn)
    as (r & Hr & Hspec). simplify_eq.
  destruct Hspec as (st & Hst & Hset & -> & -> & _). simpl. split.
  - by eapply settled_escalated.
  - intros Hno Hc. apply (Hset a Ha). split; [by rewrite (inv_live _ _ _ _ _ Hst)|].
    intros p Hp Hin. apply Hno. apply (inv_pairs _ _ _ _ _ Hst) in Hin.
    apply list_elem_of_fmap in Hin as ([q id] & -> & Hin). eauto.
Qed.

(** What a run may cut.  No pair is cut twice; each cut names an active
    [never] and a pair of the input with the probability read for it, below
    the protection level and with no protected end; an escalation names an
    active [never] of its pair. *)
Theorem never_cut_fixpoint_cuts edges assertions nodes protect protected max res :
  proper_edges edges →
  (∀ a, a ∈ never_of assertions → rec_a_key a ≠ rec_b_key a) →
  never_cut_fixpoint edges assertions nodes protect protected max = Some (Ok res) →
  NoDup (cut_pair <$> cuts res)
  ∧ (∀ c, c ∈ cuts res →
       pair_prob edges (cut_pair c) = Some (cut_match_probability c)
       ∧ SFltb (cut_match_probability c) protect = true
       ∧ (cut_rec_a_key c ∉ protected) ∧ (cut_rec_b_key c ∉ protected)
       ∧ ∃ a, a ∈ never_of assertions ∧ assertion_id a = cut_assertion_id c)
  ∧ (∀ p id, (p, id) ∈ escalations res → ∃ a, a ∈ never_of assertions
       ∧ canon (rec_a_key a) (rec_b_key a) = Some p ∧ assertion_id a = id).
Proof.
  intros He Hn Hrun.
  destruct (never_cut_fixpoint_spec edges assertions nodes protect protected max He Hn)
    as (r & Hr & Hspec). simplify_eq.
  destruct Hspec as (st & Hst & _ & -> & -> & _). split; [apply Hst|]. split.
  - intros c Hc. destruct (inv_cuts _ _ _ _ _ Hst c Hc) as (? & Hu & ?). split; [done|].
    unfold uncuttable in Hu. simpl in Hu. destruct (SFltb _ protect); naive_solver.
  - intros p id Hp. by apply (inv_escalated _ _ _ _ _ Hst p id).
Qed.

(** ** A run *)

Module Sample.
(** 0.25, 0.5 and 0.75. *)
Definition quarter : spec_float := S754_finite false 4503599627370496 (-54).
Definition half : spec_float := S754_finite false 4503599627370496 (-53).
Definition three_quarters : spec_float := S754_finite false 6755399441055744 (-53).

(** A triangle [a - b - c]; [a] and [d] joined by an uncuttable edge. *)
Definition edges : list PathEdge :=
  [("a", "b", quarter); ("c", "b", half); ("a", "c", half); ("a", "d", three_quarters)].
Definition assertions : list Assertion :=
  [mkAssertion "n1" "c" "a" Never true; mkAssertion "n2" "a" "d" Never true;
   mkAssertion "n3" "b" "c" Never false].

Lemma edges_proper : proper_edges edges.
Proof. unfold proper_edges. apply Forall_forall. unfold edges. repeat constructor; done. Qed.

Lemma never_proper a : a ∈ never_of assertions → rec_a_key a ≠ rec_b_key a.
Proof. revert a. apply Forall_forall. vm_compute. repeat constructor; done. Qed.

Definition run : option (result CutResult NeverCutError) :=
  never_cut_fixpoint edges assertions ["e"] three_quarters ∅ 10.

Definition outcome : CutResult :=
  mkCutResult [mkCut "a" "c" half "n1"; mkCut "a" "b" quarter "n1"] [("a", "d", "n2")] 2.

Example run_outcome : run = Some (Ok outcome).
Proof. vm_compute. reflexivity. Qed.
End Sample.

Lemma choose_cut_edge_correct_witness :
  ∃ o, choose_cut_edge ["a"; "b"; "c"] Sample.edges Sample.half ∅ = Some o ∧
    match o with
    | Some e => candidate Sample.edges Sample.half ∅ ["a"; "b"; "c"] e
        ∧ ∀ f, candidate Sample.edges Sample.half ∅ ["a"; "b"; "c"] f → edge_partial_cmp e f ≠ Some Gt
    | None => ∀ e, ¬ candidate Sample.edges Sample.half ∅ ["a"; "b"; "c"] e
    end.
Proof.
  apply choose_cut_edge_correct; [apply Sample.edges_proper|].
  intros x y Hxy. simpl in Hxy. set_solver.
Defined.

Lemma never_cut_fixpoint_terminates_witness :
  ∃ r, never_cut_fixpoint Sample.edges Sample.assertions ["e"] Sample.half ∅ 10 = Some r ∧
    match r with
    | Ok res => iterations res ≤ 10
    | Err (NonConvergence m n) =>
        m = 10 ∧ 0 < n ∧ 10 < length Sample.edges + length (never_of Sample.assertions)
    | Err (NoProgress _) => False
    end.
Proof.
  apply never_cut_fixpoint_terminates; [apply Sample.edges_proper|apply Sample.never_proper].
Defined.

Lemma never_cut_fixpoint_separates_witness :
  ¬ connected (pairs (live_after Sample.edges (cut_pair <$> cuts Sample.outcome))) "c" "a".
Proof.
  refine (proj2 (never_cut_fixpoint_separates Sample.edges Sample.assertions ["e"]
    Sample.three_quarters ∅ 10 Sample.outcome (mkAssertion "n1" "c" "a" Never true)
    Sample.edges_proper Sample.never_proper Sample.run_outcome _) _).
  - left.
  - intros (p & id & Hp & Hin). vm_compute in Hp, Hin.
    injection Hp as <-. apply list_elem_of_singleton in Hin. discriminate.
Defined.

Lemma never_cut_fixpoint_cuts_witness : NoDup (cut_pair <$> cuts Sample.outcome).
Proof.
  apply (never_cut_fixpoint_cuts Sample.edges Sample.assertions ["e"]
    Sample.three_quarters ∅ 10 Sample.outcome
    Sample.edges_proper Sample.never_proper Sample.run_outcome).
Defined.

(** The [NonConvergence] message calls the failure "a protected-edge cycle
    or a defect, not slow convergence".  Two disjoint unprotected paths and a
    budget of one round are reported with it, and one more round settles. *)
Theorem non_convergence_is_slow_convergence :
  let es := [("a", "b", Sample.half); ("a", "c", Sample.half); ("b", "c", Sample.half)] in
  let never := [mkAssertion "n" "a" "b" Never true] in
  never_cut_fixpoint es never [] Sample.three_quarters ∅ 1 = Some (Err (NonConvergence 1 1))
  ∧ ∃ res, never_cut_fixpoint es never [] Sample.three_quarters ∅ 2 = Some (Ok res)
      ∧ escalations res = [].
Proof. vm_compute. split; [reflexivity|]. eexists. split; reflexivity. Qed.

(** An escalation is documented as "every path between which was fully
    protected"; here the pair escalates over its one-hop protected edge while
    its other path, through [c], has no protected hop. *)
Theorem escalation_with_cuttable_path :
  let es := [("a", "b", Sample.three_quarters); ("a", "c", Sample.half); ("b", "c", Sample.half)] in
  let never := [mkAssertion "n" "a" "b" Never true] in
  never_cut_fixpoint es never [] Sample.three_quarters ∅ 5
    = Some (Ok (mkCutResult [] [("a", "b", "n")] 1))
  ∧ walk es "a" ["a"; "c"; "b"] "b"
  ∧ is_Some (x ← choose_cut_edge ["a"; "c"; "b"] es Sample.three_quarters ∅; x).
Proof.
  split_and!; [vm_compute; reflexivity| |vm_compute; eauto].
  apply (walk_snoc _ _ ["a"; "c"] "c"); [apply (walk_snoc _ _ ["a"] "a"); [constructor|]|];
    unfold adj, pairs, edge_pair; simpl; set_solver.
Qed.
