(* ===== verification/Reconcile.v ===== *)
(** * Reconciling a new partition with the entities

    [er-reconcile/src/reconcile.rs]: the offer/acceptance pass that turns the
    prior membership and the clustering output into assignments, entity
    transitions and events.  The locals of [reconcile_plan] are the fields of
    [stage]; the id factory is any [IdFactory]; [None] is a panic.  The size
    of a set of keys in memory is below [2^63], so [i64::try_from] of it is
    the identity. *)

From S2P Require Import Prelude Ids Json.
From stdpp Require Import pretty.

(** ** Definitions *)

Definition ACTIVE : string := "active".
Definition MERGED : string := "merged".
Definition RETIRED : string := "retired".
Definition CREATED : string := "created".
Definition MEMBER_ADDED : string := "member_added".
Definition MEMBER_REMOVED : string := "member_removed".
Definition SPLIT : string := "split".
Definition RECLUSTER : string := "recluster".

Definition PLANNED_EVENT_ORDER : list string :=
  [CREATED; MEMBER_ADDED; MEMBER_REMOVED; MERGED; SPLIT; RETIRED].

(** [position]: the first index of an element. *)
Fixpoint position (x : string) (l : list string) : option nat :=
  match l with
  | [] => None
  | y :: l => if decide (y = x) then Some 0 else S <$> position x l
  end.

(** [event_rank]; [expect("known event type")] panics. *)
Definition event_rank (event_type : string) : option nat :=
  position event_type PLANNED_EVENT_ORDER.

Record PlannedEvent := mkEvent {
  ev_entity_id : string;
  event_type : string;
  details : json;
  ev_details_hash : string;
}.

Record MembershipAssignment := mkAssign {
  as_record_key : string;
  as_entity_id : string;
}.

Record EntityTransition := mkTransition {
  tr_entity_id : string;
  status : string;
  merged_into : option string;
  is_new : bool;
}.

Record ReconcilePlan := mkPlan {
  assignments : list MembershipAssignment;
  transitions : list EntityTransition;
  events : list PlannedEvent;
  minted : list string;
}.

Definition is_empty (p : ReconcilePlan) : bool :=
  bool_decide (assignments p = []) && bool_decide (transitions p = [])
  && bool_decide (events p = []).

(** [fragment_rank] as an ascending key; [expect] panics on the empty set. *)
Definition fragment_rank (members : gset string) : option (Z * string) :=
  m ← head (set_sorted members);
  Some (- Z.of_nat (size members), m)%Z.

(** [fragment_rank(a).cmp(&fragment_rank(b))]. *)
Definition fragment_cmp (a b : gset string) : option comparison :=
  ra ← fragment_rank a;
  rb ← fragment_rank b;
  Some (match Z.compare ra.1 rb.1 with Eq => String.compare ra.2 rb.2 | c => c end).

(** The order of [sort_planned_events]. *)
Definition event_key_le (x y : nat * PlannedEvent) : Prop :=
  x.1 < y.1 ∨ (x.1 = y.1 ∧ (str_lt (ev_entity_id x.2) (ev_entity_id y.2)
    ∨ (ev_entity_id x.2 = ev_entity_id y.2
       ∧ String.le (ev_details_hash x.2) (ev_details_hash y.2)))).

#[global] Instance event_key_le_dec : RelDecision event_key_le.
Proof. intros x y. unfold event_key_le. apply _. Defined.

(** The comparator, and with it the panic, only runs on two events or more. *)
Definition sort_planned_events (events : list PlannedEvent) : option (list PlannedEvent) :=
  if decide (length events ≤ 1) then Some events
  else
    ranked ← mapM (λ e, r ← event_rank (event_type e); Some (r, e)) events;
    Some (merge_sort event_key_le ranked).*2.

Definition assign_le (a b : MembershipAssignment) : Prop :=
  String.le (as_record_key a) (as_record_key b).

#[global] Instance assign_le_dec : RelDecision assign_le.
Proof. intros x y. unfold assign_le. apply _. Defined.

Definition transition_le (a b : EntityTransition) : Prop :=
  String.le (tr_entity_id a) (tr_entity_id b).

#[global] Instance transition_le_dec : RelDecision transition_le.
Proof. intros x y. unfold transition_le. apply _. Defined.

(** [groups]: the new groups under their least member; an empty one panics. *)
Fixpoint group_loop (groups : gmap string (gset string)) (p_new : list (list string)) :
    option (gmap string (gset string)) :=
  match p_new with
  | [] => Some groups
  | group :: p_new =>
      let set : gset string := list_to_set group in
      key ← head (set_sorted set);
      group_loop (<[key := set]> groups) p_new
  end.

(** One row of the overlap matrix: the non-empty overlaps with [members]. *)
Definition overlaps (old : gmap string (gset string)) (members : gset string) :
    gmap string (gset string) :=
  omap (λ entity_members, let overlap := members ∩ entity_members in
          if decide (overlap = ∅) then None else Some overlap) old.

(** The cells of the matrix in iteration order: group, entity, overlap. *)
Definition cells (matrix : gmap string (gmap string (gset string))) :
    list (string * string * gset string) :=
  map_sorted matrix ≫= λ '(key, row), (λ '(entity, overlap), (key, entity, overlap)) <$> map_sorted row.

(** [fragments]: the matrix by entity. *)
Definition fragments_of (matrix : gmap string (gmap string (gset string))) :
    gmap string (gmap string (gset string)) :=
  foldl (λ fragments '(key, entity, overlap),
           <[entity := <[key := overlap]> (default ∅ (fragments !! entity))]> fragments)
    ∅ (cells matrix).

(** The group an entity offers its id to. *)
Definition offer_of (by_group : gmap string (gset string)) : option string :=
  best ← min_by_partial (λ x y, fragment_cmp x.2 y.2) (map_sorted by_group);
  fst <$> best.

(** [offers]: every entity with a fragment. *)
Fixpoint offers_loop (l : list (string * gmap string (gset string))) :
    option (list (string * string)) :=
  match l with
  | [] => Some []
  | (entity, by_group) :: l =>
      key ← offer_of by_group;
      rest ← offers_loop l;
      Some ((entity, key) :: rest)
  end.

(** [offered]: the entities that offer to each group, in ascending order. *)
Definition offered_of (offers : gmap string string) : gmap string (list string) :=
  foldl (λ offered '(entity, key),
           <[key := default [] (offered !! key) ++ [entity]]> offered)
    ∅ (map_sorted offers).

Definition matrix_at (matrix : gmap string (gmap string (gset string))) (key entity : string) :
    option (gset string) :=
  row ← matrix !! key; row !! entity.

(** The winner among the candidates of a group. *)
Definition accept_of (matrix : gmap string (gmap string (gset string)))
    (key : string) (candidates : list string) : option string :=
  winner ← min_by_partial (λ a b, oa ← matrix_at matrix key a;
                                  ob ← matrix_at matrix key b; fragment_cmp oa ob) candidates;
  winner.

Fixpoint accepted_loop (matrix : gmap string (gmap string (gset string)))
    (l : list (string * list string)) : option (list (string * string)) :=
  match l with
  | [] => Some []
  | (key, candidates) :: l =>
      winner ← accept_of matrix key candidates;
      rest ← accepted_loop matrix l;
      Some ((key, winner) :: rest)
  end.

(** [entity_of_record]: a later entity replaces an earlier one. *)
Definition entity_of_record_of (old : gmap string (gset string)) : gmap string string :=
  foldl (λ m '(entity, members), foldl (λ m r, <[r := entity]> m) m (set_sorted members))
    ∅ (map_sorted old).

Definition clustered_of (groups : gmap string (gset string)) : gset string :=
  foldl (λ acc '(_, group), acc ∪ group) ∅ (map_sorted groups).

(** The locals of [reconcile_plan] before the output is built. *)
Record stage := mkStage {
  old : gmap string (gset string);
  groups : gmap string (gset string);
  matrix : gmap string (gmap string (gset string));
  offers : gmap string string;
  accepted : gmap string string;
  entity_of_record : gmap string string;
  orphans : list string;
  mint_keys : list string;
  minted_ids : gmap string string;
}.

Definition prepare `{IdFactory F} (p_old : gmap string (list string))
    (p_new : list (list string)) (id_factory : F) : option (stage * F) :=
  let old : gmap string (gset string) := list_to_set <$> p_old in
  groups ← group_loop ∅ p_new;
  let matrix := overlaps old <$> groups in
  offers ← map_collect <$> offers_loop (map_sorted (fragments_of matrix));
  accepted ← map_collect <$> accepted_loop matrix (map_sorted (offered_of offers));
  let entity_of_record := entity_of_record_of old in
  let clustered := clustered_of groups in
  let orphans := filter (λ m, m ∉ clustered) (set_sorted (dom entity_of_record)) in
  let mint_keys :=
    sort_strings (filter (λ k, accepted !! k = None) (set_sorted (dom groups)) ++ orphans) in
  '(ids, id_factory) ← mint (length mint_keys) id_factory;
  Some ({| old := old; groups := groups; matrix := matrix; offers := offers;
           accepted := accepted; entity_of_record := entity_of_record;
           orphans := orphans; mint_keys := mint_keys;
           minted_ids := map_collect (zip mint_keys ids) |}, id_factory).

(** What one part of the output pass pushes. *)
Record pushed := mkPushed {
  p_assignments : list MembershipAssignment;
  p_transitions : list EntityTransition;
  p_events : list PlannedEvent;
}.

Definition push_nil : pushed := mkPushed [] [] [].

Definition push_app (x y : pushed) : pushed :=
  {| p_assignments := p_assignments x ++ p_assignments y;
     p_transitions := p_transitions x ++ p_transitions y;
     p_events := p_events x ++ p_events y |}.

Fixpoint push_all {A} (f : A → option pushed) (l : list A) : option pushed :=
  match l with
  | [] => Some push_nil
  | x :: l => px ← f x; rest ← push_all f l; Some (push_app px rest)
  end.

Section output.
Context (details_hash : json → string).   (* SHA-256 of the canonical JSON *)

(** [PlannedEvent::new]. *)
Definition event_new (entity_id event_type : string) (details : json) : PlannedEvent :=
  mkEvent entity_id event_type details (details_hash details).

(** An event only when there are keys to name. *)
Definition event_unless_empty (keys : list string) (e : PlannedEvent) : list PlannedEvent :=
  match keys with [] => [] | _ => [e] end.

(** The body of [for (key, members) in &groups]. *)
Definition push_group (s : stage) (g : string * gset string) : option pushed :=
  let '(key, members) := g in
  let kept := accepted s !! key in
  entity_id ← match kept with Some entity => Some entity | None => minted_ids s !! key end;
  let members_sorted := set_sorted members in
  let assignments :=
    (λ m, mkAssign m entity_id) <$>
      filter (λ m, entity_of_record s !! m ≠ Some entity_id) members_sorted in
  '(transitions, events) ←
    match kept with
    | None =>
        Some ([mkTransition entity_id ACTIVE None true],
              [event_new entity_id CREATED (JObject [("member_keys", json_keys members_sorted)])])
    | Some kept_entity =>
        old_members ← old s !! kept_entity;
        let joined := filter (λ m, entity_of_record s !! m = None) members_sorted in
        let left := set_sorted (old_members ∖ members) in
        Some (if decide (old_members = members) then []
              else [mkTransition entity_id ACTIVE None false],
              event_unless_empty joined
                (event_new entity_id MEMBER_ADDED (JObject [("member_keys", json_keys joined)]))
              ++ event_unless_empty left
                (event_new entity_id MEMBER_REMOVED
                   (JObject [("cause", JString RECLUSTER); ("member_keys", json_keys left)])))
    end;
  row ← matrix s !! key;
  let splits :=
    (λ '(entity, overlap),
       event_new entity_id SPLIT
         (JObject [("member_keys", json_keys (set_sorted overlap)); ("split_from", JString entity)]))
    <$> filter (λ c, offers s !! c.1 ≠ Some key) (map_sorted row) in
  Some (mkPushed assignments transitions (events ++ splits)).

(** The body of [for entity_id in old.keys()]. *)
Definition push_old (s : stage) (e : string * gset string) : option pushed :=
  let '(entity_id, old_members) := e in
  match offers s !! entity_id with
  | None =>
      Some (mkPushed [] [mkTransition entity_id RETIRED None false]
              [event_new entity_id RETIRED
                 (JObject [("member_keys", json_keys (set_sorted old_members))])])
  | Some offered_to =>
      claimant ← accepted s !! offered_to;
      if decide (claimant = entity_id) then Some push_nil
      else
        overlap ← matrix_at (matrix s) offered_to entity_id;
        Some (mkPushed [] [mkTransition entity_id MERGED (Some claimant) false]
                [event_new entity_id MERGED
                   (JObject [("member_keys", json_keys (set_sorted overlap));
                             ("merged_into", JString claimant)])])
  end.

(** The body of [for orphan in &orphans]. *)
Definition push_orphan (s : stage) (orphan : string) : option pushed :=
  entity_id ← minted_ids s !! orphan;
  Some (mkPushed [mkAssign orphan entity_id] [mkTransition entity_id ACTIVE None true]
          [event_new entity_id CREATED (JObject [("member_keys", json_keys [orphan])])]).

Definition reconcile_plan `{IdFactory F} (p_old : gmap string (list string))
    (p_new : list (list string)) (id_factory : F) : option (ReconcilePlan * F) :=
  '(s, id_factory) ← prepare p_old p_new id_factory;
  by_group ← push_all (push_group s) (map_sorted (groups s));
  by_old ← push_all (push_old s) (map_sorted (old s));
  by_orphan ← push_all (push_orphan s) (orphans s);
  let out := push_app by_group (push_app by_old by_orphan) in
  events ← sort_planned_events (p_events out);
  minted ← mapM (λ k, minted_ids s !! k) (mint_keys s);
  Some ({| assignments := merge_sort assign_le (p_assignments out);
           transitions := merge_sort transition_le (p_transitions out);
           events := events; minted := minted |}, id_factory).
End output.

(** ** The fragment order *)

Lemma set_head_elem X k : head (set_sorted X) = Some k → k ∈ X.
Proof. intros [? _]%set_sorted_head. done. Qed.

Lemma fragment_rank_is_Some X : X ≠ ∅ → is_Some (fragment_rank X).
Proof.
  intros HX. unfold fragment_rank. destruct (set_sorted_head_is_Some X HX) as [m ->]. eauto.
Qed.

(** Larger first, then the smaller least member. *)
Definition fragment_le (X Y : gset string) : Prop :=
  size Y < size X ∨ (size X = size Y ∧
    ∃ x y, head (set_sorted X) = Some x ∧ head (set_sorted Y) = Some y ∧ String.le x y).

Lemma fragment_cmp_spec X Y :
  X ≠ ∅ → Y ≠ ∅ → ∃ c, fragment_cmp X Y = Some c ∧ (c ≠ Gt ↔ fragment_le X Y).
Proof.
  intros HX HY. unfold fragment_cmp, fragment_rank, fragment_le.
  destruct (set_sorted_head_is_Some X HX) as [x ->].
  destruct (set_sorted_head_is_Some Y HY) as [y ->]. simpl. eexists. split; [done|].
  destruct (Z.compare_spec (- Z.of_nat (size X)) (- Z.of_nat (size Y))) as [E|E|E].
  - unfold String.le, String.leb. split.
    + intros Hc. right. split; [lia|]. exists x, y. destruct (String.compare x y); done.
    + intros [?|(_ & ? & ? & [= <-] & [= <-] & Hle)]; [lia|].
      destruct (String.compare x y); done.
  - split; [|done]. intros _. left. lia.
  - split; [done|]. intros [?|[? _]]; lia.
Qed.

Lemma fragment_le_total X Y : X ≠ ∅ → Y ≠ ∅ → fragment_le X Y ∨ fragment_le Y X.
Proof.
  intros HX HY. unfold fragment_le.
  destruct (set_sorted_head_is_Some X HX) as [x ->].
  destruct (set_sorted_head_is_Some Y HY) as [y ->].
  destruct (Nat.lt_trichotomy (size X) (size Y)) as [?|[?|?]]; [by auto| |by auto].
  destruct (total String.le x y); [left|right]; right; eauto 10.
Qed.

Lemma fragment_le_trans X Y Z : fragment_le X Y → fragment_le Y Z → fragment_le X Z.
Proof.
  unfold fragment_le.
  intros [?|(? & x & y & Hx & Hy & Hxy)] [?|(? & y' & z & Hy' & Hz & Hyz)]; [left; lia..|].
  rewrite Hy in Hy'. injection Hy' as <-. right. split; [lia|]. exists x, z.
  split; [done|]. split; [done|]. by transitivity y.
Qed.

(** The least fragment of a non-empty list of fragments. *)
Lemma min_fragment_spec {A} (frag : A → option (gset string)) (l : list A) :
  l ≠ [] → (∀ a, a ∈ l → ∃ X, frag a = Some X ∧ X ≠ ∅) →
  ∃ a X, min_by_partial (λ a b, X ← frag a; Y ← frag b; fragment_cmp X Y) l = Some (Some a)
    ∧ a ∈ l ∧ frag a = Some X ∧ ∀ b Y, b ∈ l → frag b = Some Y → fragment_le X Y.
Proof.
  intros Hl Hfrag.
  set (cmp := λ a b, X ← frag a; Y ← frag b; fragment_cmp X Y).
  assert (∀ a b X Y, frag a = Some X → frag b = Some Y → X ≠ ∅ → Y ≠ ∅ →
    is_Some (cmp a b) ∧ (cmp a b ≠ Some Gt ↔ fragment_le X Y)) as Hcmp.
  { intros a b X Y HX HY ??. unfold cmp. rewrite HX; simpl. rewrite HY; simpl.
    destruct (fragment_cmp_spec X Y) as (c & -> & Hc); [done..|]. rewrite (inj_iff Some). eauto. }
  destruct (min_by_partial_spec cmp (λ a, ∃ X, frag a = Some X ∧ X ≠ ∅) l) as (o & Ho & Hspec).
  - intros a b (X & ? & ?) (Y & ? & ?). by apply (Hcmp a b X Y).
  - intros a (X & ? & ?). apply (Hcmp a a X X); [done..|]. by destruct (fragment_le_total X X).
  - intros a b (X & ? & ?) (Y & ? & ?) Hgt. apply (Hcmp b a Y X); [done..|].
    destruct (fragment_le_total X Y) as [Hle|?]; [done..| |done].
    by apply (Hcmp a b X Y) in Hle.
  - intros a b c (X & ? & ?) (Y & ? & ?) (Z & ? & ?) Hab Hbc.
    apply (Hcmp a c X Z); [done..|]. apply (fragment_le_trans X Y Z).
    + by apply (Hcmp a b X Y). + by apply (Hcmp b c Y Z).
  - by apply Forall_forall.
  - destruct o as [a|]; [|done]. destruct Hspec as [Ha Hmin].
    destruct (Hfrag a Ha) as (X & HX & HX0). exists a, X. split; [done|]. split; [done|].
    split; [done|]. intros b Y Hb HY. destruct (Hfrag b Hb) as (Y' & ? & ?). simplify_eq.
    apply (Hcmp a b X Y); [done..|]. by apply Hmin.
Qed.

(** ** The locals *)

Definition groups_ok (groups : gmap string (gset string)) : Prop :=
  ∀ k G, groups !! k = Some G → head (set_sorted G) = Some k.

Lemma groups_nonempty groups k G : groups_ok groups → groups !! k = Some G → k ∈ G.
Proof. intros Hok HG. apply set_head_elem. by apply Hok. Qed.

Lemma group_loop_total groups p_new :
  groups_ok groups → (∀ g, g ∈ p_new → g ≠ []) →
  ∃ groups', group_loop groups p_new = Some groups' ∧ groups_ok groups'
    ∧ ∀ k G, groups' !! k = Some G → groups !! k = Some G ∨ ∃ g, g ∈ p_new ∧ G = list_to_set g.
Proof.
  revert groups. induction p_new as [|g p_new IH]; intros groups Hok Hne; simpl; [eauto 10|].
  destruct (set_sorted_head_is_Some (list_to_set g : gset string)) as [k Hk].
  { assert (g ≠ []) by (apply Hne; left). destruct g; set_solver. }
  rewrite Hk. simpl. destruct (IH (<[k := list_to_set g]> groups)) as (groups' & -> & Hok' & HG).
  { intros k' G. rewrite lookup_insert. case_decide; [by intros [= <-]; subst|apply Hok]. }
  { intros ??. apply Hne. by right. }
  exists groups'. split; [done|]. split; [done|]. intros k' G HG'.
  destruct (HG k' G HG') as [Hl|(h & ? & ?)]; [|right; exists h; set_solver].
  rewrite lookup_insert in Hl. case_decide; simplify_eq; [right; exists g; set_solver|by left].
Qed.

Lemma overlaps_lookup old members e X :
  overlaps old members !! e = Some X ↔
  ∃ O, old !! e = Some O ∧ X = members ∩ O ∧ X ≠ ∅.
Proof.
  unfold overlaps. rewrite lookup_omap. destruct (old !! e) as [O|]; simpl; [|naive_solver].
  case_decide; naive_solver.
Qed.

Lemma matrix_at_spec old groups k e X :
  matrix_at (overlaps old <$> groups) k e = Some X ↔
  ∃ G O, groups !! k = Some G ∧ old !! e = Some O ∧ X = G ∩ O ∧ X ≠ ∅.
Proof.
  unfold matrix_at. rewrite lookup_fmap. destruct (groups !! k) as [G|]; simpl; [|naive_solver].
  rewrite overlaps_lookup. naive_solver.
Qed.

Lemma elem_of_cells mat k e X : (k, e, X) ∈ cells mat ↔ matrix_at mat k e = Some X.
Proof.
  unfold cells, matrix_at. rewrite list_elem_of_bind. split.
  - intros ([k' row] & Hin & Hrow%elem_of_map_sorted). apply list_elem_of_fmap in Hin as ([e' X'] & [= -> -> ->] & HX).
    apply elem_of_map_sorted in HX. rewrite Hrow. done.
  - intros (row & Hrow & HX)%bind_Some. exists (k, row). split; [|by apply elem_of_map_sorted].
    apply list_elem_of_fmap. exists (e, X). split; [done|]. by apply elem_of_map_sorted.
Qed.

(** The matrix by entity. *)
Lemma fragments_fold (l : list (string * string * gset string)) :
  (∀ k e X Y, (k, e, X) ∈ l → (k, e, Y) ∈ l → X = Y) →
  let m := foldl (λ fragments '(key, entity, overlap),
             <[entity := <[key := overlap]> (default ∅ (fragments !! entity))]> fragments)
             (∅ : gmap string (gmap string (gset string))) l in
  ∀ e bg, (m !! e = Some bg → bg ≠ ∅ ∧ ∀ k X, bg !! k = Some X ↔ (k, e, X) ∈ l)
    ∧ (m !! e = None → ∀ k X, (k, e, X) ∉ l).
Proof.
  induction l as [|[[k0 e0] X0] l IH] using rev_ind; intros Hfun; simpl.
  { intros e bg. rewrite lookup_empty. set_solver. }
  rewrite foldl_app. simpl in *. set (m := foldl _ _ l) in *.
  assert (∀ k e X Y, (k, e, X) ∈ l → (k, e, Y) ∈ l → X = Y) as Hfun'
    by (intros k e X Y ??; apply (Hfun k e); set_solver).
  intros e bg. rewrite lookup_insert. setoid_rewrite elem_of_app.
  setoid_rewrite list_elem_of_singleton. case_decide as He.
  - subst e0. split; [|done]. intros [= <-]. split; [apply insert_non_empty|].
    intros k X. rewrite lookup_insert. case_decide as Hk.
    + subst k0. split; [naive_solver|]. intros [Hin|[= ->]]; [|done].
      f_equal. apply (Hfun k e); set_solver.
    + destruct (m !! e) as [bg|] eqn:E; simpl.
      * rewrite (proj2 (proj1 (IH Hfun' e bg) E)). naive_solver.
      * pose proof (proj2 (IH Hfun' e ∅) E k X). rewrite lookup_empty. naive_solver.
  - split.
    + intros Hbg. destruct (proj1 (IH Hfun' e bg) Hbg) as [? Hl]. split; [done|].
      intros k X. rewrite Hl. naive_solver.
    + intros Hn k X. pose proof (proj2 (IH Hfun' e ∅) Hn k X). naive_solver.
Qed.

Lemma fragments_of_spec mat e :
  match fragments_of mat !! e with
  | Some bg => bg ≠ ∅ ∧ ∀ k X, bg !! k = Some X ↔ matrix_at mat k e = Some X
  | None => ∀ k, matrix_at mat k e = None
  end.
Proof.
  unfold fragments_of.
  assert (∀ k e X Y, (k, e, X) ∈ cells mat → (k, e, Y) ∈ cells mat → X = Y) as Hfun.
  { intros k e' X Y ?%elem_of_cells ?%elem_of_cells. congruence. }
  destruct (fragments_fold (cells mat) Hfun e (default ∅ (fragments_of mat !! e))) as [H1 H2].
  unfold fragments_of in *. destruct (foldl _ _ _ !! e) as [bg|]; simpl in *.
  - destruct (H1 eq_refl) as [? Hbg]. split; [done|]. intros k X. by rewrite Hbg, elem_of_cells.
  - intros k. apply eq_None_ne_Some. intros X HX. apply (H2 eq_refl k X). by apply elem_of_cells.
Qed.

Definition matrix_ok (mat : gmap string (gmap string (gset string))) : Prop :=
  ∀ k e X, matrix_at mat k e = Some X → X ≠ ∅.

(** The group an entity offers to, and what it beats. *)
Definition offers_ok (mat : gmap string (gmap string (gset string)))
    (offers : gmap string string) : Prop :=
  (∀ e k, offers !! e = Some k → ∃ X, matrix_at mat k e = Some X
     ∧ ∀ k' Y, matrix_at mat k' e = Some Y → fragment_le X Y)
  ∧ (∀ e k X, matrix_at mat k e = Some X → is_Some (offers !! e)).

Lemma offers_loop_spec mat l :
  matrix_ok mat →
  (∀ e bg, (e, bg) ∈ l → bg ≠ ∅ ∧ ∀ k X, bg !! k = Some X ↔ matrix_at mat k e = Some X) →
  ∃ offers, offers_loop l = Some offers ∧ offers.*1 = l.*1
    ∧ ∀ e k, (e, k) ∈ offers → ∃ X, matrix_at mat k e = Some X
        ∧ ∀ k' Y, matrix_at mat k' e = Some Y → fragment_le X Y.
Proof.
  intros Hmat. induction l as [|[e bg] l IH]; intros Hl; simpl.
  { exists []. split; [done|]. split; [done|]. set_solver. }
  destruct (Hl e bg) as [Hbg Hlook]; [left|].
  destruct (min_fragment_spec (λ x, Some x.2) (map_sorted bg)) as ([k X] & X' & Hmin & Hin & [= <-] & Hle).
  { apply map_choose in Hbg as (k & X & HX). apply elem_of_map_sorted in HX.
    intros E. rewrite E in HX. set_solver. }
  { intros [k X] HX%elem_of_map_sorted%Hlook. exists X. split; [done|]. by eapply Hmat. }
  simpl in Hmin. unfold offer_of. rewrite Hmin. simpl.
  destruct IH as (offers & -> & Hfst & Hoff). { intros ???. apply Hl. by right. }
  simpl. eexists. split; [done|]. split; [csimpl; by rewrite Hfst|].
  intros e' k' [[= -> ->]|?]%elem_of_cons; [|auto]. exists X. split.
  - apply Hlook. by apply elem_of_map_sorted.
  - intros k' Y HY%Hlook. apply (Hle (k', Y) Y); [|done]. by apply elem_of_map_sorted.
Qed.

Lemma offers_spec mat :
  matrix_ok mat →
  ∃ offers, offers_loop (map_sorted (fragments_of mat)) = Some offers
    ∧ offers_ok mat (map_collect offers).
Proof.
  intros Hmat.
  destruct (offers_loop_spec mat (map_sorted (fragments_of mat)) Hmat) as (offers & -> & Hfst & Hoff).
  { intros e bg Hbg%elem_of_map_sorted. pose proof (fragments_of_spec mat e) as Hf.
    by rewrite Hbg in Hf. }
  exists offers. split; [done|]. split.
  - intros e k Hk%map_collect_elem_of. auto.
  - intros e k X HX. apply map_collect_dom. rewrite Hfst, map_sorted_fst, elem_of_set_sorted, elem_of_dom.
    pose proof (fragments_of_spec mat e) as Hf. destruct (fragments_of mat !! e); [eauto|].
    by rewrite Hf in HX.
Qed.

Lemma offered_of_spec offers k e :
  e ∈ default [] (offered_of offers !! k) ↔ offers !! e = Some k.
Proof.
  unfold offered_of. rewrite <-elem_of_map_sorted.
  induction (map_sorted offers) as [|[e0 k0] l IH] using rev_ind; simpl.
  { rewrite lookup_empty. set_solver. }
  rewrite foldl_app. simpl. rewrite lookup_insert, elem_of_app, list_elem_of_singleton, <-IH.
  case_decide; subst; simpl; [|naive_solver].
  rewrite elem_of_app, list_elem_of_singleton. naive_solver.
Qed.

Lemma offered_of_nonempty offers k l : offered_of offers !! k = Some l → l ≠ [].
Proof.
  unfold offered_of. revert l. induction (map_sorted offers) as [|[e0 k0] l' IH] using rev_ind;
    intros l; simpl; [done|].
  rewrite foldl_app. simpl. rewrite lookup_insert. case_decide; [|apply IH].
  intros [= <-] ?%app_nil. naive_solver.
Qed.

(** The winner of each offered-to group. *)
Definition accepted_ok (mat : gmap string (gmap string (gset string)))
    (offers accepted : gmap string string) : Prop :=
  (∀ k e, accepted !! k = Some e → offers !! e = Some k ∧ ∃ X, matrix_at mat k e = Some X
     ∧ ∀ e' Y, offers !! e' = Some k → matrix_at mat k e' = Some Y → fragment_le X Y)
  ∧ (∀ e k, offers !! e = Some k → is_Some (accepted !! k)).

Lemma accepted_loop_spec mat offers l :
  matrix_ok mat → offers_ok mat offers →
  (∀ k cs, (k, cs) ∈ l → cs ≠ [] ∧ ∀ e, e ∈ cs ↔ offers !! e = Some k) →
  ∃ accepted, accepted_loop mat l = Some accepted ∧ accepted.*1 = l.*1
    ∧ ∀ k e, (k, e) ∈ accepted → offers !! e = Some k ∧ ∃ X, matrix_at mat k e = Some X
        ∧ ∀ e' Y, offers !! e' = Some k → matrix_at mat k e' = Some Y → fragment_le X Y.
Proof.
  intros Hmat [Hoff _]. induction l as [|[k cs] l IH]; intros Hl; simpl.
  { exists []. split; [done|]. split; [done|]. set_solver. }
  destruct (Hl k cs) as [Hcs Hk]; [left|].
  destruct (min_fragment_spec (matrix_at mat k) cs) as (e & X & Hmin & Hin & HX & Hle); [done| |].
  { intros e He%Hk. destruct (Hoff e k He) as (X & HX & _). exists X. split; [done|].
    by eapply Hmat. }
  unfold accept_of. rewrite Hmin. simpl.
  destruct IH as (acc & -> & Hfst & Hacc). { intros ???. apply Hl. by right. }
  simpl. eexists. split; [done|]. split; [csimpl; by rewrite Hfst|].
  intros k' e' [[= -> ->]|?]%elem_of_cons; [|auto]. split; [by apply Hk|].
  exists X. split; [done|]. intros e' Y He'. apply Hle. by apply Hk.
Qed.

Lemma accepted_spec mat offers :
  matrix_ok mat → offers_ok mat offers →
  ∃ accepted, accepted_loop mat (map_sorted (offered_of offers)) = Some accepted
    ∧ accepted_ok mat offers (map_collect accepted).
Proof.
  intros Hmat Hoff.
  destruct (accepted_loop_spec mat offers (map_sorted (offered_of offers)) Hmat Hoff)
    as (acc & -> & Hfst & Hacc).
  { intros k cs Hcs%elem_of_map_sorted. split; [by eapply offered_of_nonempty|].
    intros e. rewrite <-offered_of_spec. by rewrite Hcs. }
  exists acc. split; [done|]. split.
  - intros k e Hk%map_collect_elem_of. auto.
  - intros e k He. apply map_collect_dom. rewrite Hfst, map_sorted_fst, elem_of_set_sorted, elem_of_dom.
    apply offered_of_spec in He. destruct (offered_of offers !! k); [eauto|set_solver].
Qed.

(** ** Records *)

Lemma entity_of_record_fold (l : list (string * gset string)) r e :
  foldl (λ m '(entity, members), foldl (λ m r, <[r := entity]> m) m (set_sorted members))
    (∅ : gmap string string) l !! r = Some e → ∃ X, (e, X) ∈ l ∧ r ∈ X.
Proof.
  induction l as [|[e0 X0] l IH] using rev_ind; simpl; [done|].
  rewrite foldl_app. simpl. set (m := foldl _ _ l) in *.
  assert (foldl (λ m r, <[r := e0]> m) m (set_sorted X0) !! r = Some e →
    m !! r = Some e ∨ r ∈ X0 ∧ e = e0) as Hin.
  { assert (∀ x, x ∈ set_sorted X0 → x ∈ X0) as Hs by (intros x; apply elem_of_set_sorted).
    clear IH. induction (set_sorted X0) as [|x l' IH'] using rev_ind; [by left|].
    rewrite foldl_app. simpl. rewrite lookup_insert. case_decide.
    - intros [= <-]. right. split; [|done]. subst. apply Hs. set_solver.
    - intros Hr. apply IH'; [|done]. intros ??. apply Hs. set_solver. }
  intros [H|[? ->]]%Hin; [destruct (IH H) as (X & ? & ?)|]; set_solver.
Qed.

Lemma entity_of_record_dom old r :
  is_Some (entity_of_record_of old !! r) ↔ ∃ e O, old !! e = Some O ∧ r ∈ O.
Proof.
  unfold entity_of_record_of. setoid_rewrite <-(elem_of_map_sorted old).
  induction (map_sorted old) as [|[e0 X0] l IH] using rev_ind; simpl.
  { rewrite lookup_empty. split; [by intros []|set_solver]. }
  rewrite foldl_app. simpl. set (m := foldl _ _ l) in *.
  assert (is_Some (foldl (λ m r, <[r := e0]> m) m (set_sorted X0) !! r) ↔
    is_Some (m !! r) ∨ r ∈ X0) as ->.
  { rewrite <-(elem_of_set_sorted X0). clear IH.
    induction (set_sorted X0) as [|x l' IH'] using rev_ind; [set_solver|].
    rewrite foldl_app. simpl. rewrite lookup_insert. case_decide; [set_solver|].
    rewrite IH'. set_solver. }
  rewrite IH. setoid_rewrite elem_of_app. setoid_rewrite list_elem_of_singleton. split.
  - intros [(e & O & ? & ?)|?]; [by eauto 10|]. exists e0, X0. auto.
  - intros (e & O & [?|[= -> ->]] & ?); eauto 10.
Qed.

(** Each record belongs to one entity only. *)
Definition disjoint_old (old : gmap string (gset string)) : Prop :=
  ∀ e e' O O' r, old !! e = Some O → old !! e' = Some O' → r ∈ O → r ∈ O' → e = e'.

Lemma entity_of_record_spec old r e :
  disjoint_old old →
  entity_of_record_of old !! r = Some e ↔ ∃ O, old !! e = Some O ∧ r ∈ O.
Proof.
  intros Hd. split.
  - intros (X & HX%elem_of_map_sorted & ?)%entity_of_record_fold. eauto.
  - intros (O & HO & Hr). destruct (proj2 (entity_of_record_dom old r)) as [e' He']; [eauto|].
    pose proof He' as (X & HX%elem_of_map_sorted & ?)%entity_of_record_fold.
    rewrite He'. f_equal. by eapply Hd.
Qed.

Lemma clustered_of_spec groups r :
  r ∈ clustered_of groups ↔ ∃ k G, groups !! k = Some G ∧ r ∈ G.
Proof.
  unfold clustered_of. setoid_rewrite <-(elem_of_map_sorted groups).
  induction (map_sorted groups) as [|[k G] l IH] using rev_ind; simpl; [set_solver|].
  rewrite foldl_app. simpl. rewrite elem_of_union, IH.
  setoid_rewrite elem_of_app. setoid_rewrite list_elem_of_singleton. naive_solver.
Qed.

(** ** The stage *)

(** What [prepare] establishes, [ids] being the minted ids in order. *)
Record stage_ok (p_old : gmap string (list string)) (p_new : list (list string))
    (s : stage) (ids : list string) : Prop := {
  so_old : old s = (list_to_set <$> p_old : gmap string (gset string));
  so_loop : group_loop ∅ p_new = Some (groups s);
  so_groups : groups_ok (groups s);
  so_matrix : matrix s = overlaps (old s) <$> groups s;
  so_offers : offers_ok (matrix s) (offers s);
  so_accepted : accepted_ok (matrix s) (offers s) (accepted s);
  so_record : entity_of_record s = entity_of_record_of (old s);
  so_orphans : orphans s =
    filter (λ m, m ∉ clustered_of (groups s)) (set_sorted (dom (entity_of_record s)));
  so_mint : mint_keys s =
    sort_strings (filter (λ k, accepted s !! k = None) (set_sorted (dom (groups s))) ++ orphans s);
  so_length : length ids = length (mint_keys s);
  so_minted : minted_ids s = map_collect (zip (mint_keys s) ids);
}.

Lemma matrix_ok_overlaps old groups : matrix_ok (overlaps old <$> groups).
Proof. intros k e X (? & ? & ? & ? & ? & ?)%matrix_at_spec. done. Qed.

Lemma prepare_spec `{IdFactory F} p_old p_new (f : F) :
  (∀ g, g ∈ p_new → g ≠ []) →
  ∃ st : list string → stage,
    prepare p_old p_new f =
      ('(ids, f') ← mint (length (mint_keys (st []))) f; Some (st ids, f'))
    ∧ ∀ ids, mint_keys (st ids) = mint_keys (st [])
        ∧ (length ids = length (mint_keys (st ids)) → stage_ok p_old p_new (st ids) ids).
Proof.
  intros Hne. unfold prepare.
  destruct (group_loop_total ∅ p_new) as (groups & Hloop & Hgroups & _); [done..|].
  rewrite Hloop. simpl. set (old := list_to_set <$> p_old : gmap string (gset string)).
  pose proof (matrix_ok_overlaps old groups) as Hmat.
  destruct (offers_spec _ Hmat) as (offers & -> & Hoff). simpl.
  destruct (accepted_spec _ _ Hmat Hoff) as (acc & -> & Hacc). simpl.
  eexists (λ ids, mkStage _ _ _ _ _ _ _ _ _). simpl. split; [reflexivity|].
  intros ids. split; [done|]. simpl. intros Hlen. by split.
Qed.

(** A run that returns went through such a stage. *)
Lemma prepare_inv `{IdFactory F} p_old p_new (f f' : F) s :
  (∀ g, g ∈ p_new → g ≠ []) → prepare p_old p_new f = Some (s, f') →
  ∃ ids, stage_ok p_old p_new s ids ∧ mint (length (mint_keys s)) f = Some (ids, f').
Proof.
  intros Hne Hp. destruct (prepare_spec p_old p_new f Hne) as (st & Heq & Hok).
  rewrite Heq in Hp. apply bind_Some in Hp as ([ids f1] & Hm & [= <- <-]).
  destruct (Hok ids) as [Hk Hs]. exists ids. rewrite Hk. split; [|done].
  apply Hs. rewrite Hk. by eapply mint_length.
Qed.

Section stage_facts.
Context (p_old : gmap string (list string)) (p_new : list (list string)).
Context (s : stage) (ids : list string) (Hs : stage_ok p_old p_new s ids).

Lemma stage_cell k e X :
  matrix_at (matrix s) k e = Some X ↔
  ∃ G O, groups s !! k = Some G ∧ old s !! e = Some O ∧ X = G ∩ O ∧ X ≠ ∅.
Proof using Hs. rewrite (so_matrix _ _ _ _ Hs). apply matrix_at_spec. Qed.

Lemma elem_of_orphans r :
  r ∈ orphans s ↔ is_Some (entity_of_record s !! r) ∧ ∀ k G, groups s !! k = Some G → r ∉ G.
Proof using Hs.
  rewrite (so_orphans _ _ _ _ Hs), list_elem_of_filter, elem_of_set_sorted, elem_of_dom.
  rewrite clustered_of_spec. naive_solver.
Qed.

Lemma elem_of_mint_keys k :
  k ∈ mint_keys s ↔ (is_Some (groups s !! k) ∧ accepted s !! k = None) ∨ k ∈ orphans s.
Proof using Hs.
  rewrite (so_mint _ _ _ _ Hs), elem_of_sort_strings, elem_of_app, list_elem_of_filter.
  rewrite elem_of_set_sorted, elem_of_dom. naive_solver.
Qed.

Lemma group_key_not_orphan k : is_Some (groups s !! k) → k ∉ orphans s.
Proof using Hs.
  intros [G HG] [_ Hk]%elem_of_orphans. apply (Hk k G HG).
  eapply groups_nonempty; [apply Hs|done].
Qed.

Lemma NoDup_mint_keys : NoDup (mint_keys s).
Proof using Hs.
  rewrite (so_mint _ _ _ _ Hs). unfold sort_strings. rewrite merge_sort_Permutation.
  apply NoDup_app. split; [auto with er|]. split.
  - intros k [_ Hk%elem_of_set_sorted%elem_of_dom]%list_elem_of_filter.
    by apply group_key_not_orphan.
  - rewrite (so_orphans _ _ _ _ Hs). auto with er.
Qed.

Lemma mint_zip_fst : (zip (mint_keys s) ids).*1 = mint_keys s.
Proof using Hs. apply fst_zip. by rewrite (so_length _ _ _ _ Hs). Qed.

Lemma minted_ids_dom k : is_Some (minted_ids s !! k) ↔ k ∈ mint_keys s.
Proof using Hs. by rewrite (so_minted _ _ _ _ Hs), map_collect_dom, mint_zip_fst. Qed.

Lemma minted_ids_elem k id : minted_ids s !! k = Some id ↔ (k, id) ∈ zip (mint_keys s) ids.
Proof using Hs.
  rewrite (so_minted _ _ _ _ Hs). apply map_collect_lookup. rewrite mint_zip_fst.
  apply NoDup_mint_keys.
Qed.

Lemma minted_ids_in k id : minted_ids s !! k = Some id → id ∈ ids.
Proof using Hs. intros ?%minted_ids_elem. by eapply elem_of_zip_r. Qed.

Lemma minted_ids_inj k k' id :
  NoDup ids → minted_ids s !! k = Some id → minted_ids s !! k' = Some id → k = k'.
Proof using Hs.
  intros Hd Hk%minted_ids_elem Hk'%minted_ids_elem.
  apply list_elem_of_lookup in Hk as [i Hi], Hk' as [j Hj].
  apply lookup_zip_with_Some in Hi as (? & ? & [= <- <-] & Hi1 & Hi2).
  apply lookup_zip_with_Some in Hj as (? & ? & [= <- <-] & Hj1 & Hj2).
  assert (i = j) as -> by by eapply NoDup_lookup. congruence.
Qed.

Lemma mapM_zip_lookup (ks vs : list string) :
  NoDup ks → length vs = length ks →
  mapM (λ k, (map_collect (zip ks vs) : gmap string string) !! k) ks = Some vs.
Proof using.
  intros HN Hlen. apply mapM_Some. apply Forall2_same_length_lookup_2; [done|].
  intros i k v Hk Hv. apply map_collect_lookup.
  - rewrite fst_zip by lia. done.
  - apply list_elem_of_lookup. exists i. apply lookup_zip_with_Some. eauto.
Qed.

(** The ids are returned in mint order. *)
Lemma minted_all : mapM (λ k, minted_ids s !! k) (mint_keys s) = Some ids.
Proof using Hs.
  rewrite (so_minted _ _ _ _ Hs). apply mapM_zip_lookup; [apply NoDup_mint_keys|apply Hs].
Qed.

(** The entity of a group: the accepted one, or a minted one. *)
Definition group_entity (k : string) : option string :=
  match accepted s !! k with Some e => Some e | None => minted_ids s !! k end.

Lemma group_entity_is_Some k : is_Some (groups s !! k) → is_Some (group_entity k).
Proof using Hs.
  intros Hk. unfold group_entity. destruct (accepted s !! k) eqn:E; [eauto|].
  apply minted_ids_dom, elem_of_mint_keys. auto.
Qed.

(** An accepted entity is an old one with a fragment in the group. *)
Lemma accepted_old k e :
  accepted s !! k = Some e →
  offers s !! e = Some k ∧ ∃ G O, groups s !! k = Some G ∧ old s !! e = Some O ∧ G ∩ O ≠ ∅.
Proof using Hs.
  intros Hk. destruct (proj1 (so_accepted _ _ _ _ Hs) k e Hk) as (? & X & HX & _).
  split; [done|]. apply stage_cell in HX as (G & O & ? & ? & -> & ?). eauto.
Qed.

Lemma accepted_dom k : is_Some (accepted s !! k) → is_Some (groups s !! k).
Proof using Hs. intros [e He]. apply accepted_old in He as (_ & G & O & ? & _). eauto. Qed.

Lemma accepted_inj k k' e : accepted s !! k = Some e → accepted s !! k' = Some e → k = k'.
Proof using Hs. intros [? _]%accepted_old [? _]%accepted_old. congruence. Qed.

Context (Hdistinct : NoDup ids) (Hfresh : ∀ id, id ∈ ids → old s !! id = None).

(** Different groups have different entities, and no group shares the entity
    of an orphan. *)
Lemma group_entity_inj k k' e :
  group_entity k = Some e → group_entity k' = Some e → k = k'.
Proof using Hs Hdistinct Hfresh.
  unfold group_entity.
  destruct (accepted s !! k) as [c|] eqn:E, (accepted s !! k') as [c'|] eqn:E'; intros Hk Hk';
    simplify_eq.
  - by eapply accepted_inj.
  - apply accepted_old in E as (_ & G & O & _ & HO & _). apply minted_ids_in, Hfresh in Hk'. congruence.
  - apply accepted_old in E' as (_ & G & O & _ & HO & _). apply minted_ids_in, Hfresh in Hk. congruence.
  - by eapply minted_ids_inj.
Qed.

Lemma group_entity_not_orphan k r e :
  is_Some (groups s !! k) → r ∈ orphans s →
  group_entity k = Some e → minted_ids s !! r ≠ Some e.
Proof using Hs Hdistinct Hfresh.
  intros Hk Hr He Hre. unfold group_entity in He. destruct (accepted s !! k) as [c|] eqn:E.
  - simplify_eq. apply accepted_old in E as (_ & G & O & _ & HO & _).
    apply minted_ids_in, Hfresh in Hre. congruence.
  - assert (k = r) as -> by by eapply minted_ids_inj. by apply (group_key_not_orphan r).
Qed.
End stage_facts.

(** ** The output *)

Lemma push_all_spec {A} (f : A → option pushed) l :
  (∀ x, x ∈ l → is_Some (f x)) →
  ∃ out, push_all f l = Some out
    ∧ p_assignments out = l ≫= (λ x, from_option p_assignments [] (f x))
    ∧ p_transitions out = l ≫= (λ x, from_option p_transitions [] (f x))
    ∧ p_events out = l ≫= (λ x, from_option p_events [] (f x)).
Proof.
  induction l as [|x l IH]; intros Hl; [by exists push_nil|].
  destruct (Hl x) as [px Hx]; [left|]. rewrite !bind_cons, Hx. cbn [from_option].
  destruct IH as (out & Hout & <- & <- & <-); [intros; apply Hl; by right|].
  exists (push_app px out). simpl. by rewrite Hx; simpl; rewrite Hout.
Qed.

Lemma elem_of_bind_option {A B C} (g : B → list C) (f : A → option B) l y :
  y ∈ (l ≫= λ x, from_option g [] (f x)) ↔ ∃ x z, x ∈ l ∧ f x = Some z ∧ y ∈ g z.
Proof.
  rewrite list_elem_of_bind. split.
  - intros (x & Hy & Hx). destruct (f x) as [z|] eqn:E; simpl in Hy; [eauto|set_solver].
  - intros (x & z & Hx & E & Hy). exists x. rewrite E. done.
Qed.

Definition known_event (e : PlannedEvent) : Prop := is_Some (event_rank (event_type e)).

Lemma sort_planned_events_total l :
  Forall known_event l → ∃ l', sort_planned_events l = Some l' ∧ l' ≡ₚ l.
Proof.
  intros Hl. unfold sort_planned_events. case_decide; [eauto|].
  assert (∃ r, mapM (λ e, r ← event_rank (event_type e); Some (r, e)) l = Some r ∧ r.*2 = l)
    as (r & -> & Hr).
  { clear -Hl. induction Hl as [|e l [k Hk] _ (r & IH & Hr)]; [by exists []|].
    exists ((k, e) :: r). split; [|csimpl; by rewrite Hr].
    simpl. rewrite Hk. simpl. by rewrite IH. }
  simpl. eexists. split; [done|]. rewrite merge_sort_Permutation. by rewrite Hr.
Qed.

Section output_facts.
Context (details_hash : json → string).
Context (p_old : gmap string (list string)) (p_new : list (list string)).
Context (s : stage) (ids : list string) (Hs : stage_ok p_old p_new s ids).

Lemma push_group_spec k G :
  groups s !! k = Some G →
  ∃ e out, group_entity s k = Some e ∧ push_group details_hash s (k, G) = Some out
    ∧ p_assignments out =
        (λ m, mkAssign m e) <$> filter (λ m, entity_of_record s !! m ≠ Some e) (set_sorted G)
    ∧ p_transitions out =
        match accepted s !! k with
        | None => [mkTransition e ACTIVE None true]
        | Some c => if decide (old s !! c = Some G) then []
                    else [mkTransition e ACTIVE None false]
        end
    ∧ Forall known_event (p_events out).
Proof using Hs.
  intros HG. destruct (group_entity_is_Some _ _ _ _ Hs k) as [e He]; [eauto|].
  exists e. unfold push_group. fold (group_entity s k). rewrite He. simpl.
  assert (∃ row, matrix s !! k = Some row) as [row ->].
  { rewrite (so_matrix _ _ _ _ Hs), lookup_fmap, HG. eauto. }
  assert (∀ l, Forall known_event ((λ '(entity, overlap),
       event_new details_hash e SPLIT
         (JObject [("member_keys", json_keys (set_sorted overlap)); ("split_from", JString entity)]))
    <$> l)) as Hsplit.
  { intros l. apply Forall_fmap, Forall_forall. intros [? ?] _. eexists. reflexivity. }
  destruct (accepted s !! k) as [c|] eqn:Hc; simpl.
  - destruct (accepted_old _ _ _ _ Hs k c Hc) as (_ & G' & O & _ & HO & _). rewrite HO. simpl.
    eexists. split; [done|]. split; [done|]. simpl. split; [done|]. split.
    { repeat case_decide; naive_solver. }
    assert (∀ l ev, known_event ev → Forall known_event (event_unless_empty l ev)) as Hopt.
    { intros [|] ev ?; repeat constructor; done. }
    repeat apply Forall_app_2; [apply Hopt; eexists; reflexivity..|apply Hsplit].
  - eexists. split; [done|]. split; [done|]. simpl. split; [done|]. split; [done|].
    constructor; [eexists; reflexivity|apply Hsplit].
Qed.

Lemma push_old_spec e O :
  old s !! e = Some O →
  ∃ out, push_old details_hash s (e, O) = Some out ∧ p_assignments out = []
    ∧ p_transitions out =
        match offers s !! e with
        | None => [mkTransition e RETIRED None false]
        | Some k => match accepted s !! k with
                    | Some c => if decide (c = e) then []
                                else [mkTransition e MERGED (Some c) false]
                    | None => []
                    end
        end
    ∧ Forall known_event (p_events out).
Proof using Hs.
  intros HO. unfold push_old. destruct (offers s !! e) as [k|] eqn:Hk; simpl.
  - destruct (proj2 (so_accepted _ _ _ _ Hs) e k Hk) as [c Hc]. rewrite Hc. simpl.
    case_decide; [eexists; split; [done|]; split; [done|]; split; [done|constructor]|].
    destruct (proj1 (so_offers _ _ _ _ Hs) e k Hk) as (X & -> & _). simpl.
    eexists. split; [done|]. split; [done|]. split; [done|]. repeat constructor. eexists; reflexivity.
  - eexists. split; [done|]. split; [done|]. split; [done|]. repeat constructor. eexists; reflexivity.
Qed.

Lemma push_orphan_spec r :
  r ∈ orphans s →
  ∃ e out, minted_ids s !! r = Some e ∧ push_orphan details_hash s r = Some out
    ∧ p_assignments out = [mkAssign r e]
    ∧ p_transitions out = [mkTransition e ACTIVE None true]
    ∧ Forall known_event (p_events out).
Proof using Hs.
  intros Hr. destruct (proj2 (minted_ids_dom _ _ _ _ Hs r)) as [e He].
  { apply (elem_of_mint_keys _ _ _ _ Hs). by right. }
  exists e. unfold push_orphan. rewrite He. simpl. eexists. split; [done|]. split; [done|].
  split; [done|]. split; [done|]. repeat constructor. eexists; reflexivity.
Qed.

(** The output pass returns; its three lists collect what the bodies push. *)
Lemma output_spec :
  ∃ g o r evs,
    push_all (push_group details_hash s) (map_sorted (groups s)) = Some g
    ∧ push_all (push_old details_hash s) (map_sorted (old s)) = Some o
    ∧ push_all (push_orphan details_hash s) (orphans s) = Some r
    ∧ sort_planned_events (p_events (push_app g (push_app o r))) = Some evs
    ∧ evs ≡ₚ p_events (push_app g (push_app o r))
    ∧ p_assignments g = map_sorted (groups s) ≫=
        (λ x, from_option p_assignments [] (push_group details_hash s x))
    ∧ p_transitions g = map_sorted (groups s) ≫=
        (λ x, from_option p_transitions [] (push_group details_hash s x))
    ∧ p_assignments o = map_sorted (old s) ≫=
        (λ x, from_option p_assignments [] (push_old details_hash s x))
    ∧ p_transitions o = map_sorted (old s) ≫=
        (λ x, from_option p_transitions [] (push_old details_hash s x))
    ∧ p_assignments r = orphans s ≫=
        (λ x, from_option p_assignments [] (push_orphan details_hash s x))
    ∧ p_transitions r = orphans s ≫=
        (λ x, from_option p_transitions [] (push_orphan details_hash s x)).
Proof using Hs.
  destruct (push_all_spec (push_group details_hash s) (map_sorted (groups s)))
    as (g & Hg & Hga & Hgt & Hge).
  { intros [k G] HG%elem_of_map_sorted. destruct (push_group_spec k G HG) as (e & out & _ & -> & _). eauto. }
  destruct (push_all_spec (push_old details_hash s) (map_sorted (old s)))
    as (o & Ho & Hoa & Hot & Hoe).
  { intros [e O] HO%elem_of_map_sorted. destruct (push_old_spec e O HO) as (out & -> & _). eauto. }
  destruct (push_all_spec (push_orphan details_hash s) (orphans s))
    as (r & Hr & Hra & Hrt & Hre).
  { intros x Hx. destruct (push_orphan_spec x Hx) as (e & out & _ & -> & _). eauto. }
  destruct (sort_planned_events_total (p_events (push_app g (push_app o r)))) as (evs & Hevs & Hperm).
  { simpl. rewrite Hge, Hoe, Hre. repeat apply Forall_app_2; apply Forall_forall;
      intros ev (x & z & Hx & Hz & Hev)%elem_of_bind_option.
    - destruct x as [k G]. apply elem_of_map_sorted in Hx.
      destruct (push_group_spec k G Hx) as (e & out & _ & ? & _ & _ & HF). simplify_eq.
      rewrite Forall_forall in HF. auto.
    - destruct x as [e O]. apply elem_of_map_sorted in Hx.
      destruct (push_old_spec e O Hx) as (out & ? & _ & _ & HF). simplify_eq.
      rewrite Forall_forall in HF. auto.
    - destruct (push_orphan_spec x Hx) as (e & out & _ & ? & _ & _ & HF). simplify_eq.
      rewrite Forall_forall in HF. auto. }
  exists g, o, r, evs. done.
Qed.
End output_facts.

(** The entity a record ends up in. *)
Definition final (s : stage) (r e : string) : Prop :=
  (∃ k G, groups s !! k = Some G ∧ r ∈ G ∧ group_entity s k = Some e)
  ∨ (r ∈ orphans s ∧ minted_ids s !! r = Some e).

(** The transition an id gets. *)
Inductive transitions_of (s : stage) : EntityTransition → Prop :=
| t_created k G e : groups s !! k = Some G → accepted s !! k = None → minted_ids s !! k = Some e →
    transitions_of s (mkTransition e ACTIVE None true)
| t_changed k G e : groups s !! k = Some G → accepted s !! k = Some e → old s !! e ≠ Some G →
    transitions_of s (mkTransition e ACTIVE None false)
| t_retired e O : old s !! e = Some O → offers s !! e = None →
    transitions_of s (mkTransition e RETIRED None false)
| t_merged e O k c : old s !! e = Some O → offers s !! e = Some k → accepted s !! k = Some c →
    c ≠ e → transitions_of s (mkTransition e MERGED (Some c) false)
| t_orphan r e : r ∈ orphans s → minted_ids s !! r = Some e →
    transitions_of s (mkTransition e ACTIVE None true).

Section plan_facts.
Context (details_hash : json → string).
Context (p_old : gmap string (list string)) (p_new : list (list string)).
Context (s : stage) (ids : list string) (Hs : stage_ok p_old p_new s ids).

Lemma elem_of_group_assignments r e :
  mkAssign r e ∈ (map_sorted (groups s) ≫=
    λ x, from_option p_assignments [] (push_group details_hash s x)) ↔
  entity_of_record s !! r ≠ Some e
  ∧ ∃ k G, groups s !! k = Some G ∧ r ∈ G ∧ group_entity s k = Some e.
Proof using Hs.
  rewrite elem_of_bind_option. split.
  - intros ([k G] & out & HG%elem_of_map_sorted & Hout & Hin).
    destruct (push_group_spec details_hash _ _ _ _ Hs k G HG) as (e' & out' & He & ? & Ha & _).
    simplify_eq. rewrite Ha in Hin.
    apply list_elem_of_fmap in Hin as (m & [= -> ->] & [? ?%elem_of_set_sorted]%list_elem_of_filter).
    eauto 10.
  - intros (Hne & k & G & HG & Hr & He).
    destruct (push_group_spec details_hash _ _ _ _ Hs k G HG) as (e' & out & He' & Hout & Ha & _).
    simplify_eq. exists (k, G), out. split; [by apply elem_of_map_sorted|]. split; [done|].
    rewrite Ha. apply list_elem_of_fmap. exists r. split; [done|].
    by rewrite list_elem_of_filter, elem_of_set_sorted.
Qed.

Lemma elem_of_old_assignments a :
  a ∉ (map_sorted (old s) ≫= λ x, from_option p_assignments [] (push_old details_hash s x)).
Proof using Hs.
  intros ([e O] & out & HO%elem_of_map_sorted & Hout & Hin)%elem_of_bind_option.
  destruct (push_old_spec details_hash _ _ _ _ Hs e O HO) as (? & ? & Ha & _). simplify_eq.
  rewrite Ha in Hin. set_solver.
Qed.

Lemma elem_of_orphan_assignments r e :
  mkAssign r e ∈ (orphans s ≫= λ x, from_option p_assignments [] (push_orphan details_hash s x)) ↔
  r ∈ orphans s ∧ minted_ids s !! r = Some e.
Proof using Hs.
  rewrite elem_of_bind_option. split.
  - intros (x & out & Hx & Hout & Hin).
    destruct (push_orphan_spec details_hash _ _ _ _ Hs x Hx) as (e' & ? & He & ? & Ha & _).
    simplify_eq. rewrite Ha in Hin. apply list_elem_of_singleton in Hin as [= -> ->]. done.
  - intros [Hr He].
    destruct (push_orphan_spec details_hash _ _ _ _ Hs r Hr) as (e' & out & ? & ? & Ha & _).
    simplify_eq. exists r, out. rewrite Ha. set_solver.
Qed.

Lemma elem_of_group_transitions t :
  t ∈ (map_sorted (groups s) ≫= λ x, from_option p_transitions [] (push_group details_hash s x)) ↔
  ∃ k G e, groups s !! k = Some G ∧ group_entity s k = Some e
    ∧ t ∈ match accepted s !! k with
          | None => [mkTransition e ACTIVE None true]
          | Some c => if decide (old s !! c = Some G) then []
                      else [mkTransition e ACTIVE None false]
          end.
Proof using Hs.
  rewrite elem_of_bind_option. split.
  - intros ([k G] & out & HG%elem_of_map_sorted & Hout & Hin).
    destruct (push_group_spec details_hash _ _ _ _ Hs k G HG) as (e & ? & He & ? & _ & Ht & _).
    simplify_eq. rewrite Ht in Hin. eauto 10.
  - intros (k & G & e & HG & He & Hin).
    destruct (push_group_spec details_hash _ _ _ _ Hs k G HG) as (e' & out & He' & Hout & _ & Ht & _).
    simplify_eq. exists (k, G), out. rewrite elem_of_map_sorted, Ht. done.
Qed.

Lemma elem_of_old_transitions t :
  t ∈ (map_sorted (old s) ≫= λ x, from_option p_transitions [] (push_old details_hash s x)) ↔
  ∃ e O, old s !! e = Some O
    ∧ t ∈ match offers s !! e with
          | None => [mkTransition e RETIRED None false]
          | Some k => match accepted s !! k with
                      | Some c => if decide (c = e) then []
                                  else [mkTransition e MERGED (Some c) false]
                      | None => []
                      end
          end.
Proof using Hs.
  rewrite elem_of_bind_option. split.
  - intros ([e O] & out & HO%elem_of_map_sorted & Hout & Hin).
    destruct (push_old_spec details_hash _ _ _ _ Hs e O HO) as (? & ? & _ & Ht & _).
    simplify_eq. rewrite Ht in Hin. eauto 10.
  - intros (e & O & HO & Hin).
    destruct (push_old_spec details_hash _ _ _ _ Hs e O HO) as (out & ? & _ & Ht & _).
    exists (e, O), out. rewrite elem_of_map_sorted, Ht. done.
Qed.

Lemma elem_of_orphan_transitions t :
  t ∈ (orphans s ≫= λ x, from_option p_transitions [] (push_orphan details_hash s x)) ↔
  ∃ r e, r ∈ orphans s ∧ minted_ids s !! r = Some e ∧ t = mkTransition e ACTIVE None true.
Proof using Hs.
  rewrite elem_of_bind_option. split.
  - intros (x & out & Hx & Hout & Hin).
    destruct (push_orphan_spec details_hash _ _ _ _ Hs x Hx) as (e & ? & He & ? & _ & Ht & _).
    simplify_eq. rewrite Ht in Hin. apply list_elem_of_singleton in Hin as ->. eauto 10.
  - intros (r & e & Hr & He & ->).
    destruct (push_orphan_spec details_hash _ _ _ _ Hs r Hr) as (e' & out & ? & ? & _ & Ht & _).
    simplify_eq. exists r, out. rewrite Ht. set_solver.
Qed.

(** The transitions of all three passes. *)
Lemma elem_of_transitions t :
  t ∈ (map_sorted (groups s) ≫= λ x, from_option p_transitions [] (push_group details_hash s x))
  ∨ t ∈ (map_sorted (old s) ≫= λ x, from_option p_transitions [] (push_old details_hash s x))
  ∨ t ∈ (orphans s ≫= λ x, from_option p_transitions [] (push_orphan details_hash s x))
  ↔ transitions_of s t.
Proof using Hs.
  rewrite elem_of_group_transitions, elem_of_old_transitions, elem_of_orphan_transitions. split.
  - intros [(k & G & e & HG & He & Ht)|[(e & O & HO & Ht)|(r & e & Hr & He & ->)]].
    + unfold group_entity in He. destruct (accepted s !! k) as [c|] eqn:Hc; simplify_eq.
      * case_decide; [set_solver|]. apply list_elem_of_singleton in Ht as ->. by eapply t_changed.
      * apply list_elem_of_singleton in Ht as ->. by eapply t_created.
    + destruct (offers s !! e) as [k|] eqn:Hk.
      * destruct (accepted s !! k) as [c|] eqn:Hc; [|set_solver]. case_decide; [set_solver|].
        apply list_elem_of_singleton in Ht as ->. by eapply t_merged.
      * apply list_elem_of_singleton in Ht as ->. by eapply t_retired.
    + by eapply t_orphan.
  - destruct 1 as [k G e HG Hk He|k G e HG Hk Hne|e O HO Hk|e O k c HO Hk Hc Hne|r e Hr He].
    + left. exists k, G, e. unfold group_entity. rewrite Hk. set_solver.
    + left. exists k, G, e. unfold group_entity. rewrite Hk, decide_False by done. set_solver.
    + right; left. exists e, O. rewrite Hk. set_solver.
    + right; left. exists e, O. rewrite Hk, Hc, decide_False by done. set_solver.
    + right; right. eauto 10.
Qed.
End plan_facts.

(** What a plan says, in terms of its stage. *)
Record plan_ok (s : stage) (ids : list string) (plan : ReconcilePlan) : Prop := {
  po_assign : ∀ r e, mkAssign r e ∈ assignments plan ↔
    final s r e ∧ (entity_of_record s !! r ≠ Some e ∨ r ∈ orphans s);
  po_transition : ∀ t, t ∈ transitions plan ↔ transitions_of s t;
  po_minted : minted plan = ids;
  po_assign_sorted : StronglySorted assign_le (assignments plan);
  po_transition_sorted : StronglySorted transition_le (transitions plan);
}.

#[global] Instance assign_le_total : Total assign_le.
Proof. intros a b. apply (total String.le). Qed.

#[global] Instance assign_le_trans : Transitive assign_le.
Proof. intros a b c. apply (transitivity (R:=String.le)). Qed.

#[global] Instance transition_le_total : Total transition_le.
Proof. intros a b. apply (total String.le). Qed.

#[global] Instance transition_le_trans : Transitive transition_le.
Proof. intros a b c. apply (transitivity (R:=String.le)). Qed.

Lemma reconcile_plan_stage details_hash `{IdFactory F} p_old p_new (f f' : F) s ids :
  prepare p_old p_new f = Some (s, f') → stage_ok p_old p_new s ids →
  ∃ plan, reconcile_plan details_hash p_old p_new f = Some (plan, f') ∧ plan_ok s ids plan.
Proof.
  intros Hp Hs. unfold reconcile_plan. rewrite Hp. simpl.
  destruct (output_spec details_hash _ _ _ _ Hs)
    as (g & o & r & evs & Hg & Ho & Hr & Hev & _ & Hga & Hgt & Hoa & Hot & Hra & Hrt).
  rewrite Hg; simpl. rewrite Ho; simpl. rewrite Hr; simpl. simpl in Hev. rewrite Hev; simpl.
  rewrite (minted_all _ _ _ _ Hs). simpl. eexists. split; [done|]. split; simpl; [|..].
  - intros x e. rewrite merge_sort_Permutation, !elem_of_app, Hga, Hoa, Hra.
    rewrite (elem_of_group_assignments _ _ _ _ _ Hs), (elem_of_orphan_assignments _ _ _ _ _ Hs).
    pose proof (elem_of_old_assignments details_hash _ _ _ _ Hs (mkAssign x e)).
    pose proof (elem_of_orphans _ _ _ _ Hs x). unfold final. naive_solver.
  - intros t. rewrite merge_sort_Permutation, !elem_of_app, Hgt, Hot, Hrt.
    apply (elem_of_transitions _ _ _ _ _ Hs).
  - done.
  - apply (StronglySorted_merge_sort _).
  - apply (StronglySorted_merge_sort _).
Qed.

(** A returned plan, and the stage behind it. *)
Lemma reconcile_plan_inv details_hash `{IdFactory F} p_old p_new (f f' : F) plan :
  (∀ g, g ∈ p_new → g ≠ []) →
  reconcile_plan details_hash p_old p_new f = Some (plan, f') →
  ∃ s ids, stage_ok p_old p_new s ids ∧ plan_ok s ids plan
    ∧ mint (length (mint_keys s)) f = Some (ids, f') ∧ prepare p_old p_new f = Some (s, f').
Proof.
  intros Hne Hplan.
  assert (∃ s f1, prepare p_old p_new f = Some (s, f1)) as (s & f1 & Hp).
  { unfold reconcile_plan in Hplan. destruct (prepare p_old p_new f) as [[s f1]|]; [eauto|done]. }
  destruct (prepare_inv p_old p_new f f1 s Hne Hp) as (ids & Hs & Hm).
  destruct (reconcile_plan_stage details_hash p_old p_new f f1 s ids Hp Hs) as (plan' & Hplan' & Hok).
  simplify_eq. eauto 10.
Qed.

(** ** Partitions *)

(** A record has one entity at most. *)
Definition old_partition (p_old : gmap string (list string)) : Prop :=
  ∀ e e' l l' r, p_old !! e = Some l → p_old !! e' = Some l' → r ∈ l → r ∈ l' → e = e'.

(** The new groups are non-empty, and two that meet are the same set. *)
Definition new_partition (p_new : list (list string)) : Prop :=
  (∀ g, g ∈ p_new → g ≠ [])
  ∧ ∀ g h r, g ∈ p_new → h ∈ p_new → r ∈ g → r ∈ h → ∀ x, x ∈ g ↔ x ∈ h.

(** The membership before the run, and after the plan's rows are written. *)
Definition prior (p_old : gmap string (list string)) : gmap string string :=
  entity_of_record_of (list_to_set <$> p_old).

Definition apply_plan (plan : ReconcilePlan) (p_old : gmap string (list string)) :
    gmap string string :=
  map_collect ((λ a, (as_record_key a, as_entity_id a)) <$> assignments plan) ∪ prior p_old.

Lemma group_loop_lookup m p_new m' k X :
  group_loop m p_new = Some m' →
  (∀ g, g ∈ p_new → head (set_sorted (list_to_set g)) = Some k → list_to_set g = X) →
  m !! k = Some X ∨ (∃ g, g ∈ p_new ∧ head (set_sorted (list_to_set g)) = Some k) →
  m' !! k = Some X.
Proof.
  revert m. induction p_new as [|g p_new IH]; intros m; simpl.
  { intros [= <-] _ [?|(g & ? & _)]; [done|set_solver]. }
  intros (kg & Hkg & Hloop)%bind_Some Huniq Hor. apply (IH _ Hloop).
  - intros h ?. apply Huniq. by right.
  - rewrite lookup_insert. case_decide as Hk.
    + subst kg. left. f_equal. apply Huniq; [left|done].
    + destruct Hor as [?|(h & Hin & Hh)]; [by left|].
      apply elem_of_cons in Hin as [->|Hin]; [congruence|]. right. eauto.
Qed.

Section partitions.
Context (p_old : gmap string (list string)) (p_new : list (list string)).
Context (s : stage) (ids : list string) (Hs : stage_ok p_old p_new s ids).
Context (Hold : old_partition p_old) (Hnew : new_partition p_new).

Lemma groups_from k G : groups s !! k = Some G → ∃ g, g ∈ p_new ∧ G = list_to_set g.
Proof using Hs Hnew.
  clear Hold. intros HG. destruct (group_loop_total ∅ p_new) as (m & Hm & _ & Hfrom); [done|apply Hnew|].
  rewrite (so_loop _ _ _ _ Hs) in Hm. simplify_eq. destruct (Hfrom k G HG) as [?|?]; done.
Qed.

Lemma groups_into g : g ∈ p_new → ∃ k, groups s !! k = Some (list_to_set g).
Proof using Hs Hnew.
  clear Hold. intros Hg. destruct Hnew as [Hne Hdisj].
  destruct (set_sorted_head_is_Some (list_to_set g : gset string)) as [k Hk].
  { specialize (Hne g Hg). destruct g; set_solver. }
  exists k. eapply group_loop_lookup; [apply Hs| |by eauto].
  intros h Hh Hkh. apply set_head_elem, elem_of_list_to_set in Hk, Hkh.
  apply set_eq. intros x. rewrite !elem_of_list_to_set. by apply (Hdisj h g k).
Qed.

(** Two groups that meet are one. *)
Lemma groups_disjoint k k' G G' r :
  groups s !! k = Some G → groups s !! k' = Some G' → r ∈ G → r ∈ G' → k = k'.
Proof using Hs Hnew.
  clear Hold. intros HG HG' Hr Hr'.
  destruct (groups_from _ _ HG) as (g & Hg & ->), (groups_from _ _ HG') as (h & Hh & ->).
  apply (so_groups _ _ _ _ Hs) in HG, HG'. rewrite elem_of_list_to_set in Hr, Hr'.
  assert (list_to_set g = (list_to_set h : gset string)) as Heq.
  { apply set_eq. intros x. rewrite !elem_of_list_to_set. by apply (proj2 Hnew g h r). }
  rewrite Heq in HG. congruence.
Qed.

Lemma stage_disjoint_old : disjoint_old (old s).
Proof using Hs Hold.
  intros e e' O O' r. rewrite (so_old _ _ _ _ Hs).
  intros (l & <- & Hl)%lookup_fmap_Some (l' & <- & Hl')%lookup_fmap_Some.
  rewrite !elem_of_list_to_set. by eapply Hold.
Qed.

Lemma stage_record r e :
  entity_of_record s !! r = Some e ↔ ∃ O, old s !! e = Some O ∧ r ∈ O.
Proof using Hs Hold.
  rewrite (so_record _ _ _ _ Hs). apply entity_of_record_spec, stage_disjoint_old.
Qed.

Lemma stage_prior : prior p_old = entity_of_record s.
Proof using Hs. unfold prior. by rewrite (so_record _ _ _ _ Hs), (so_old _ _ _ _ Hs). Qed.

(** Every record ends up in one entity. *)
Lemma final_fun r e e' : final s r e → final s r e' → e = e'.
Proof using Hs Hnew.
  clear Hold. intros [(k & G & HG & Hr & He)|[Ho He]] [(k' & G' & HG' & Hr' & He')|[Ho' He']].
  - rewrite (groups_disjoint k k' G G' r) in He by done. congruence.
  - destruct (proj1 (elem_of_orphans _ _ _ _ Hs r) Ho') as [_ Hout]. by destruct (Hout k G).
  - destruct (proj1 (elem_of_orphans _ _ _ _ Hs r) Ho) as [_ Hout]. by destruct (Hout k' G').
  - congruence.
Qed.

Lemma final_total r :
  (∃ e, final s r e) ↔ is_Some (entity_of_record s !! r) ∨ ∃ k G, groups s !! k = Some G ∧ r ∈ G.
Proof using Hs.
  clear Hold Hnew. split.
  - intros [e [(k & G & HG & Hr & _)|[Ho _]]]; [eauto|].
    left. by apply (elem_of_orphans _ _ _ _ Hs r).
  - intros Hr.
    assert ((∃ k G, groups s !! k = Some G ∧ r ∈ G) ∨ r ∈ orphans s) as [(k & G & HG & Hin)|Ho].
    { destruct (decide (r ∈ clustered_of (groups s))) as [?%clustered_of_spec|Hout]; [by left|].
      rewrite clustered_of_spec in Hout. right. apply (elem_of_orphans _ _ _ _ Hs).
      destruct Hr as [?|?]; [|done]. split; [done|]. naive_solver. }
    + destruct (group_entity_is_Some _ _ _ _ Hs k) as [e He]; [eauto|]. exists e. left. eauto.
    + destruct (proj2 (minted_ids_dom _ _ _ _ Hs r)) as [e He].
      { apply (elem_of_mint_keys _ _ _ _ Hs). by right. }
      exists e. by right.
Qed.

Context (Hfresh : ∀ id, id ∈ ids → old s !! id = None) (Hdistinct : NoDup ids).

(** An orphan always moves: its entity is new. *)
Lemma final_orphan_moves r e :
  final s r e → r ∈ orphans s → entity_of_record s !! r ≠ Some e.
Proof using Hs Hold Hfresh.
  intros [(k & G & HG & Hr & _)|[_ He]] Ho.
  - destruct (proj1 (elem_of_orphans _ _ _ _ Hs r) Ho) as [_ Hout]. by destruct (Hout k G).
  - intros (O & HO & _)%stage_record. eapply minted_ids_in, Hfresh in He; [|done]. congruence.
Qed.

Lemma plan_assign_iff plan r e :
  plan_ok s ids plan →
  mkAssign r e ∈ assignments plan ↔ final s r e ∧ entity_of_record s !! r ≠ Some e.
Proof using Hs Hold Hfresh.
  intros Hp. rewrite (po_assign _ _ _ Hp). pose proof (final_orphan_moves r e). naive_solver.
Qed.

(** The membership after the run is the final one. *)
Lemma apply_plan_final plan r e :
  plan_ok s ids plan → apply_plan plan p_old !! r = Some e ↔ final s r e.
Proof using Hs Hold Hnew Hfresh.
  intros Hp. unfold apply_plan. set (m := map_collect _).
  assert (∀ e', m !! r = Some e' → final s r e') as Hm.
  { intros e' ([r' e''] & [= -> ->] & Hin)%map_collect_elem_of%list_elem_of_fmap.
    by apply (plan_assign_iff plan) in Hin as [? _]. }
  assert (∀ e', final s r e' → entity_of_record s !! r ≠ Some e' → m !! r = Some e') as Hm'.
  { intros e' He' Hne. assert (is_Some (m !! r)) as [e'' He''].
    { apply map_collect_dom. apply list_elem_of_fmap. exists (r, e'). split; [done|]. apply list_elem_of_fmap.
      exists (mkAssign r e'). split; [done|]. by apply plan_assign_iff. }
    rewrite He''. f_equal. eapply final_fun; [by apply Hm|done]. }
  rewrite stage_prior, lookup_union_Some_raw. split.
  - intros [?|[Hnone Hprior]]; [by apply Hm|].
    destruct (proj2 (final_total r)) as [e' He']; [left; eauto|].
    destruct (decide (e = e')) as [->|Hne]; [done|].
    rewrite (Hm' e') in Hnone; [done|done|congruence].
  - intros He. destruct (m !! r) as [e'|] eqn:E.
    + left. f_equal. eapply final_fun; [by apply Hm|done].
    + right. split; [done|].
      destruct (decide (entity_of_record s !! r = Some e)) as [|Hne]; [done|].
      apply (Hm' e He) in Hne. congruence.
Qed.

(** Two records share an entity exactly when they are one, or share a group. *)
Lemma final_same r r' e :
  final s r e → final s r' e ↔ r = r' ∨ ∃ g, g ∈ p_new ∧ r ∈ g ∧ r' ∈ g.
Proof using Hs Hnew Hfresh Hdistinct.
  clear Hold. intros He. split.
  - intros He'. destruct He as [(k & G & HG & Hr & He)|[Ho He]],
      He' as [(k' & G' & HG' & Hr' & He')|[Ho' He']].
    + right. assert (k = k') as -> by (eapply group_entity_inj; eauto). simplify_eq.
      destruct (groups_from _ _ HG) as (g & Hg & ->).
      rewrite elem_of_list_to_set in Hr, Hr'. eauto.
    + destruct (group_entity_not_orphan _ _ _ _ Hs Hdistinct Hfresh k r' e); eauto.
    + destruct (group_entity_not_orphan _ _ _ _ Hs Hdistinct Hfresh k' r e); eauto.
    + left. by eapply minted_ids_inj.
  - intros [->|(g & Hg & Hr & Hr')]; [done|]. destruct (groups_into g Hg) as [k Hk]. left.
    exists k, (list_to_set g). rewrite elem_of_list_to_set. split; [done|]. split; [done|].
    destruct He as [(k' & G' & HG' & Hr'' & He)|[Ho _]].
    + rewrite (groups_disjoint k k' _ _ r Hk HG'); [done|by rewrite elem_of_list_to_set|done].
    + destruct (proj1 (elem_of_orphans _ _ _ _ Hs r) Ho) as [_ Hout].
      destruct (Hout _ _ Hk). by rewrite elem_of_list_to_set.
Qed.
End partitions.

(** ** The set-equal case *)

(** Both partitions have the same member sets. *)
Definition same_partition (p_old : gmap string (list string)) (p_new : list (list string)) : Prop :=
  (∀ e l, p_old !! e = Some l → ∃ g, g ∈ p_new ∧ ∀ x, x ∈ g ↔ x ∈ l)
  ∧ (∀ g, g ∈ p_new → ∃ e l, p_old !! e = Some l ∧ ∀ x, x ∈ g ↔ x ∈ l).

Section set_equal.
Context (details_hash : json → string).
Context (p_old : gmap string (list string)) (p_new : list (list string)).
Context (s : stage) (ids : list string) (Hs : stage_ok p_old p_new s ids).
Context (Hold : old_partition p_old) (Hnew : new_partition p_new).
Context (Hsame : same_partition p_old p_new).

Lemma same_old e O : old s !! e = Some O → ∃ k, groups s !! k = Some O.
Proof using Hs Hnew Hsame.
  clear Hold. rewrite (so_old _ _ _ _ Hs). intros (l & <- & Hl)%lookup_fmap_Some.
  destruct (proj1 Hsame e l Hl) as (g & Hg & Heq).
  destruct (groups_into _ _ _ _ Hs Hnew g Hg) as [k Hk]. exists k. rewrite Hk. f_equal.
  apply set_eq. intros x. by rewrite !elem_of_list_to_set.
Qed.

Lemma same_group k G : groups s !! k = Some G → ∃ e, old s !! e = Some G.
Proof using Hs Hnew Hsame.
  clear Hold. intros (g & Hg & ->)%(groups_from _ _ _ _ Hs Hnew).
  destruct (proj2 Hsame g Hg) as (e & l & Hl & Heq). exists e.
  rewrite (so_old _ _ _ _ Hs), lookup_fmap, Hl. simpl. f_equal.
  apply set_eq. intros x. rewrite !elem_of_list_to_set. by rewrite Heq.
Qed.

(** The overlap matrix is a bijection. *)
Lemma same_cell k e X :
  matrix_at (matrix s) k e = Some X ↔ groups s !! k = Some X ∧ old s !! e = Some X.
Proof using Hs Hnew Hsame.
  clear Hold. rewrite (stage_cell _ _ _ _ Hs). split.
  - intros (G & O & HG & HO & -> & (r & [HrG HrO]%elem_of_intersection)%set_choose_L).
    destruct (same_old e O HO) as [k' Hk'].
    assert (k = k') as -> by by eapply (groups_disjoint _ _ _ _ Hs Hnew _ _ G O r).
    simplify_eq. rewrite (idemp_L (∩)). done.
  - intros [HG HO]. exists X, X. rewrite (idemp_L (∩)). split_and!; [done..|].
    pose proof (groups_nonempty _ _ _ (so_groups _ _ _ _ Hs) HG). set_solver.
Qed.

Lemma same_offer e O : old s !! e = Some O → ∃ k, groups s !! k = Some O ∧ offers s !! e = Some k.
Proof using Hs Hnew Hsame.
  clear Hold. intros HO. destruct (same_old e O HO) as [k Hk].
  destruct (proj2 (so_offers _ _ _ _ Hs) e k O) as [k' Hk']; [by apply same_cell|].
  destruct (proj1 (so_offers _ _ _ _ Hs) e k' Hk') as (X & [? ?]%same_cell & _).
  simplify_eq. eauto.
Qed.

Lemma same_accepted k G :
  groups s !! k = Some G → ∃ e, accepted s !! k = Some e ∧ old s !! e = Some G ∧ offers s !! e = Some k.
Proof using Hs Hold Hnew Hsame.
  intros HG. destruct (same_group k G HG) as [e He].
  destruct (same_offer e G He) as (k' & Hk' & Hoff).
  pose proof (groups_nonempty _ _ _ (so_groups _ _ _ _ Hs) HG) as Hin.
  assert (k' = k) as -> by by eapply (groups_disjoint _ _ _ _ Hs Hnew _ _ G G k).
  destruct (proj2 (so_accepted _ _ _ _ Hs) e k Hoff) as [c Hc].
  destruct (proj1 (so_accepted _ _ _ _ Hs) k c Hc) as (? & X & [? ?]%same_cell & _).
  simplify_eq. assert (c = e) as ->; [|eauto].
  by eapply (stage_disjoint_old _ _ _ _ Hs Hold _ _ G G k).
Qed.

Lemma same_orphans : orphans s = [].
Proof using Hs Hold Hnew Hsame.
  rewrite (so_orphans _ _ _ _ Hs). apply filter_none.
  intros r [e (O & HO & Hr)%(stage_record _ _ _ _ Hs Hold)]%elem_of_set_sorted%elem_of_dom Hout.
  destruct (same_old e O HO) as [k Hk]. apply Hout, clustered_of_spec. eauto.
Qed.

Lemma same_mint_keys : mint_keys s = [].
Proof using Hs Hold Hnew Hsame.
  rewrite (so_mint _ _ _ _ Hs), same_orphans, app_nil_r, filter_none; [done|].
  intros k [G HG]%elem_of_set_sorted%elem_of_dom. destruct (same_accepted k G HG) as (e & -> & _). done.
Qed.

Lemma same_push_group k G :
  groups s !! k = Some G → push_group details_hash s (k, G) = Some push_nil.
Proof using Hs Hold Hnew Hsame.
  intros HG. destruct (same_accepted k G HG) as (e & He & HO & Hoff).
  assert (∀ m, m ∈ set_sorted G → entity_of_record s !! m = Some e) as Hrec.
  { intros m Hm%elem_of_set_sorted. apply (stage_record _ _ _ _ Hs Hold). eauto. }
  unfold push_group. rewrite He; simpl. rewrite HO; simpl.
  assert (∃ row, matrix s !! k = Some row) as [row Hrow].
  { rewrite (so_matrix _ _ _ _ Hs), lookup_fmap, HG. eauto. }
  rewrite Hrow. simpl. rewrite decide_True by done.
  rewrite (filter_none (λ m, entity_of_record s !! m ≠ Some e)) by naive_solver.
  rewrite (filter_none (λ m, entity_of_record s !! m = None)) by (intros m ->%Hrec; done).
  rewrite difference_diag_L, set_sorted_empty. simpl.
  rewrite filter_none; [done|]. intros [e' X] HX%elem_of_map_sorted Hne. apply Hne. simpl.
  assert (matrix_at (matrix s) k e' = Some X) as [? ?]%same_cell
    by (unfold matrix_at; rewrite Hrow; done).
  simplify_eq. destruct (same_offer e' G) as (k' & ? & ->); [done|]. f_equal.
  pose proof (groups_nonempty _ _ _ (so_groups _ _ _ _ Hs) HG).
  by eapply (groups_disjoint _ _ _ _ Hs Hnew _ _ G G k).
Qed.

Lemma same_push_old e O :
  old s !! e = Some O → push_old details_hash s (e, O) = Some push_nil.
Proof using Hs Hold Hnew Hsame.
  intros HO. destruct (same_offer e O HO) as (k & HG & Hoff).
  destruct (same_accepted k O HG) as (c & Hc & HcO & _). unfold push_old.
  rewrite Hoff, Hc. simpl. rewrite decide_True; [done|].
  pose proof (groups_nonempty _ _ _ (so_groups _ _ _ _ Hs) HG).
  by eapply (stage_disjoint_old _ _ _ _ Hs Hold _ _ O O k).
Qed.
End set_equal.

Lemma push_all_nil {A} (f : A → option pushed) l :
  (∀ x, x ∈ l → f x = Some push_nil) → push_all f l = Some push_nil.
Proof.
  induction l as [|x l IH]; intros Hl; [done|]. simpl. rewrite Hl by left. simpl.
  rewrite IH; [done|]. intros; apply Hl; by right.
Qed.

(** One id per group and per prior record is enough. *)
Lemma group_loop_size m p_new m' :
  group_loop m p_new = Some m' → size m' ≤ size m + length p_new.
Proof.
  revert m. induction p_new as [|g p_new IH]; intros m; simpl; [intros [= <-]; lia|].
  intros (k & _ & Hloop)%bind_Some. apply IH in Hloop.
  rewrite map_size_insert in Hloop. destruct (m !! k); simpl in Hloop; lia.
Qed.

Lemma mint_keys_bound p_old p_new s ids :
  stage_ok p_old p_new s ids →
  length (mint_keys s) ≤ length p_new + size (dom (prior p_old)).
Proof.
  intros Hs. transitivity (size (dom (groups s) ∪ dom (entity_of_record s))).
  - apply NoDup_length_set; [by eapply NoDup_mint_keys|].
    intros k [[? _]|[? _]%(elem_of_orphans _ _ _ _ Hs)]%(elem_of_mint_keys _ _ _ _ Hs);
      apply elem_of_union; rewrite !elem_of_dom; auto.
  - rewrite size_union_alt, (stage_prior _ _ _ _ Hs), size_dom.
    pose proof (group_loop_size _ _ _ (so_loop _ _ _ _ Hs)) as Hsize.
    rewrite map_size_empty in Hsize.
    assert (size (dom (entity_of_record s) ∖ dom (groups s)) ≤ size (dom (entity_of_record s)))
      by (apply subseteq_size; set_solver). lia.
Qed.

(** ** Properties *)

Section properties.
Context (details_hash : json → string) `{IdFactory F}.

(** Reconciling never panics, whether the inputs are partitions or not:
    with non-empty new groups and a factory that can serve one id per group
    and per prior record, a plan is returned. *)
Theorem reconcile_plan_total (p_old : gmap string (list string)) p_new (f : F) :
  (∀ g, g ∈ p_new → g ≠ []) →
  (∀ n, n ≤ length p_new + size (dom (prior p_old)) → is_Some (mint n f)) →
  is_Some (reconcile_plan details_hash p_old p_new f).
Proof.
  intros Hne Hmint. destruct (prepare_spec p_old p_new f Hne) as (st & Heq & Hok).
  assert (length (mint_keys (st [])) ≤ length p_new + size (dom (prior p_old))) as Hbound.
  { destruct (Hok (replicate (length (mint_keys (st []))) "")) as [Hk Hs].
    rewrite <-Hk. eapply mint_keys_bound, Hs. by rewrite Hk, length_replicate. }
  destruct (Hmint _ Hbound) as [[ids f'] Hm]. rewrite Hm in Heq. simpl in Heq.
  destruct (Hok ids) as [Hk Hs].
  destruct (reconcile_plan_stage details_hash p_old p_new f f' (st ids) ids) as (plan & -> & _);
    [done| |eauto].
  apply Hs. rewrite Hk. by eapply mint_length.
Qed.

(** C2: the plan realises the new partition.  With its assignments written over
    the prior membership, exactly the prior and the clustered records have an
    entity, and two of them share it exactly when a new group holds both (a
    record the clustering placed nowhere is alone). *)
Theorem reconcile_plan_realises (p_old : gmap string (list string)) p_new (f f' : F) plan :
  old_partition p_old → new_partition p_new → DistinctIds f →
  reconcile_plan details_hash p_old p_new f = Some (plan, f') →
  (∀ id, id ∈ minted plan → p_old !! id = None) →
  let after := apply_plan plan p_old in
  (∀ r, is_Some (after !! r) ↔
     (∃ e l, p_old !! e = Some l ∧ r ∈ l) ∨ ∃ g, g ∈ p_new ∧ r ∈ g)
  ∧ (∀ r r' e, after !! r = Some e →
       after !! r' = Some e ↔ r = r' ∨ ∃ g, g ∈ p_new ∧ r ∈ g ∧ r' ∈ g).
Proof.
  intros Hold Hnew Hd Hplan Hfresh after.
  destruct (reconcile_plan_inv details_hash p_old p_new f f' plan (proj1 Hnew) Hplan)
    as (s & ids & Hs & Hok & Hm & _).
  rewrite (po_minted _ _ _ Hok) in Hfresh.
  assert (∀ id, id ∈ ids → old s !! id = None) as Hfr.
  { intros id Hid. by rewrite (so_old _ _ _ _ Hs), lookup_fmap, Hfresh. }
  pose proof (mint_distinct _ _ _ Hm) as Hdist.
  assert (∀ r e, after !! r = Some e ↔ final s r e) as Hafter
    by (intros; by eapply apply_plan_final).
  split.
  - intros r. transitivity (∃ e, final s r e); [unfold is_Some; by setoid_rewrite Hafter|].
    rewrite (final_total _ _ _ _ Hs). f_equiv.
    + rewrite (so_record _ _ _ _ Hs), entity_of_record_dom, (so_old _ _ _ _ Hs).
      setoid_rewrite lookup_fmap_Some. split.
      * intros (e & O & (l & <- & ?) & ?%elem_of_list_to_set). eauto.
      * intros (e & l & ? & ?). exists e, (list_to_set l). rewrite elem_of_list_to_set. eauto.
    + split.
      * intros (k & G & HG & Hr). apply (groups_from _ _ _ _ Hs Hnew) in HG as (g & Hg & ->).
        rewrite elem_of_list_to_set in Hr. eauto.
      * intros (g & Hg & Hr). destruct (groups_into _ _ _ _ Hs Hnew g Hg) as [k Hk].
        exists k, (list_to_set g). by rewrite elem_of_list_to_set.
  - intros r r' e He%Hafter. rewrite Hafter. by eapply final_same.
Qed.

(** Only changed rows are written: a record is assigned an entity exactly
    when that is its entity afterwards and was not before, and the rows are in
    record-key order. *)
Theorem reconcile_plan_writes_changes (p_old : gmap string (list string)) p_new (f f' : F) plan :
  old_partition p_old → new_partition p_new →
  reconcile_plan details_hash p_old p_new f = Some (plan, f') →
  (∀ id, id ∈ minted plan → p_old !! id = None) →
  (∀ r e, mkAssign r e ∈ assignments plan ↔
     apply_plan plan p_old !! r = Some e ∧ prior p_old !! r ≠ Some e)
  ∧ StronglySorted assign_le (assignments plan).
Proof.
  intros Hold Hnew Hplan Hfresh.
  destruct (reconcile_plan_inv details_hash p_old p_new f f' plan (proj1 Hnew) Hplan)
    as (s & ids & Hs & Hok & _ & _).
  rewrite (po_minted _ _ _ Hok) in Hfresh.
  assert (∀ id, id ∈ ids → old s !! id = None) as Hfr.
  { intros id Hid. by rewrite (so_old _ _ _ _ Hs), lookup_fmap, Hfresh. }
  split; [|apply Hok]. intros r e.
  rewrite (apply_plan_final _ _ _ _ Hs Hold Hnew Hfr plan r e Hok).
  rewrite (stage_prior _ _ _ _ Hs). by eapply plan_assign_iff.
Qed.

(** INV-PERM's set-equal case: when the clustering reproduces the prior
    partition, in whatever order, the plan is empty and no id is taken from
    the factory. *)
Theorem reconcile_plan_set_equal (p_old : gmap string (list string)) p_new (f : F) :
  old_partition p_old → new_partition p_new → same_partition p_old p_new →
  reconcile_plan details_hash p_old p_new f = Some (mkPlan [] [] [] [], f).
Proof.
  intros Hold Hnew Hsame.
  destruct (prepare_spec p_old p_new f (proj1 Hnew)) as (st & Heq & Hok).
  assert (mint_keys (st []) = []) as Hk.
  { destruct (Hok (replicate (length (mint_keys (st []))) "")) as [Hk Hs].
    rewrite <-Hk. eapply same_mint_keys; [|done..]. apply Hs. by rewrite Hk, length_replicate. }
  rewrite Hk in Heq. simpl in Heq. destruct (Hok []) as [_ Hs].
  specialize (Hs ltac:(by rewrite Hk)). unfold reconcile_plan. rewrite Heq. simpl.
  rewrite (push_all_nil (push_group _ _)); simpl.
  2:{ intros [k G] HG%elem_of_map_sorted. by eapply same_push_group. }
  rewrite (push_all_nil (push_old _ _)); simpl.
  2:{ intros [e O] HO%elem_of_map_sorted. by eapply same_push_old. }
  rewrite (same_orphans _ _ _ _ Hs) by done. simpl. by rewrite Hk.
Qed.

(** What each transition says of its id. *)
Lemma transitions_of_fun s (ids : list string) t t' :
  (∀ k id, minted_ids s !! k = Some id → id ∈ ids) →
  (∀ id, id ∈ ids → old s !! id = None) →
  accepted_ok (matrix s) (offers s) (accepted s) →
  (∀ k e, accepted s !! k = Some e → is_Some (old s !! e)) →
  transitions_of s t → transitions_of s t' → tr_entity_id t = tr_entity_id t' → t = t'.
Proof.
  intros Hin Hfresh [Hacc _] Hold.
  assert (∀ k id, minted_ids s !! k = Some id → ¬ is_Some (old s !! id)) as Hnot.
  { intros k id Hid [O HO]. rewrite (Hfresh id) in HO by eauto. done. }
  assert (∀ k e, accepted s !! k = Some e → offers s !! e = Some k) as Hoff
    by (intros k e Hk; by apply Hacc).
  destruct 1; destruct 1; simpl; intros Heq; simplify_eq; try done;
    repeat match goal with
    | Hk : accepted s !! ?k = Some ?e |- _ =>
        lazymatch goal with
        | _ : offers s !! e = Some k |- _ => fail
        | _ => pose proof (Hoff k e Hk); pose proof (Hold k e Hk)
        end
    end; simplify_eq; exfalso; naive_solver.
Qed.

(** The fate of the entities.  No id gets two different transitions; an
    entity is retired exactly when no new group holds any of its records; a
    merged entity names an old entity that stays active, so redirects never
    chain within a plan; new transitions carry minted ids, the others prior
    ones. *)
Theorem reconcile_plan_transitions (p_old : gmap string (list string)) p_new (f f' : F) plan :
  old_partition p_old → new_partition p_new →
  reconcile_plan details_hash p_old p_new f = Some (plan, f') →
  (∀ id, id ∈ minted plan → p_old !! id = None) →
  (∀ t t', t ∈ transitions plan → t' ∈ transitions plan →
     tr_entity_id t = tr_entity_id t' → t = t')
  ∧ (∀ e, mkTransition e RETIRED None false ∈ transitions plan ↔
       ∃ l, p_old !! e = Some l ∧ ∀ r g, r ∈ l → g ∈ p_new → r ∉ g)
  ∧ (∀ t, t ∈ transitions plan → status t = MERGED →
       ∃ c, merged_into t = Some c ∧ is_Some (p_old !! c)
         ∧ ∀ t', t' ∈ transitions plan → tr_entity_id t' = c → status t' = ACTIVE)
  ∧ (∀ t, t ∈ transitions plan →
       if is_new t then tr_entity_id t ∈ minted plan else is_Some (p_old !! tr_entity_id t)).
Proof.
  intros Hold Hnew Hplan Hfresh.
  destruct (reconcile_plan_inv details_hash p_old p_new f f' plan (proj1 Hnew) Hplan)
    as (s & ids & Hs & Hok & _ & _).
  rewrite (po_minted _ _ _ Hok) in *.
  assert (∀ id, old s !! id = list_to_set <$> p_old !! id) as Hlook
    by (intros; by rewrite (so_old _ _ _ _ Hs), lookup_fmap).
  assert (∀ id, is_Some (old s !! id) ↔ is_Some (p_old !! id)) as Hdom
    by (intros id; rewrite Hlook; by rewrite fmap_is_Some).
  assert (∀ k e, accepted s !! k = Some e → is_Some (old s !! e)) as Hacc.
  { intros k e (_ & G & O & _ & ? & _)%(accepted_old _ _ _ _ Hs). eauto. }
  setoid_rewrite (po_transition _ _ _ Hok). split_and!.
  - intros t t'. apply (transitions_of_fun s ids).
    + intros. by eapply minted_ids_in.
    + intros id Hid. by rewrite Hlook, Hfresh.
    + apply Hs.
    + done.
  - intros e. split.
    + inversion 1 as [| |? O HO Hoff| |]; subst. rewrite Hlook in HO.
      apply fmap_Some in HO as (l & Hl & ->). exists l. split; [done|]. intros r g Hr Hg Hrg.
      destruct (groups_into _ _ _ _ Hs Hnew g Hg) as [k Hk].
      destruct (proj2 (so_offers _ _ _ _ Hs) e k (list_to_set g ∩ list_to_set l)); [|congruence].
      apply (stage_cell _ _ _ _ Hs). exists (list_to_set g), (list_to_set l). rewrite Hlook, Hl.
      split_and!; [done..|]. apply (non_empty_inhabited_L r). set_solver.
    + intros (l & Hl & Hout). eapply (t_retired s e (list_to_set l)); [by rewrite Hlook, Hl|].
      apply eq_None_not_Some. intros [k Hk]. destruct (proj1 (so_offers _ _ _ _ Hs) e k Hk) as (X & HX & _).
      apply (stage_cell _ _ _ _ Hs) in HX as (G & O & HG & HO & -> & Hne).
      rewrite Hlook, Hl in HO. simplify_eq/=.
      apply (groups_from _ _ _ _ Hs Hnew) in HG as (g & Hg & ->).
      apply set_choose_L in Hne as [r Hr]. apply (Hout r g); set_solver.
  - intros t Ht Hst. destruct Ht as [| | |e O k c HO Hoff Hc Hne|]; try discriminate Hst.
    simpl. exists c. split; [done|]. split; [apply Hdom; eauto|].
    pose proof (accepted_old _ _ _ _ Hs k c Hc) as [Hcoff _].
    intros t' Ht' <-. destruct Ht'; simpl in *; simplify_eq; done.
  - intros t Ht. destruct Ht; simpl; try (by eapply minted_ids_in); apply Hdom; eauto.
Qed.

(** Among the groups, [g] is where the largest fragment of [l] went. *)
Definition best_group (p_new : list (list string)) (l g : list string) : Prop :=
  g ∈ p_new
  ∧ (list_to_set g ∩ list_to_set l : gset string) ≠ ∅
  ∧ ∀ h, h ∈ p_new → (list_to_set h ∩ list_to_set l : gset string) ≠ ∅ →
      fragment_le (list_to_set g ∩ list_to_set l) (list_to_set h ∩ list_to_set l).

Lemma fragment_le_antisym_meet (X Y : gset string) :
  fragment_le X Y → fragment_le Y X → ∃ r, r ∈ X ∧ r ∈ Y.
Proof.
  intros [?|(? & x & y & Hx & Hy & Hxy)] [?|(? & y' & x' & Hy' & Hx' & Hyx)]; [lia..|].
  simplify_eq. assert (x = y) as -> by (by apply (anti_symm String.le)).
  exists y. split; by apply set_head_elem.
Qed.

Lemma offers_best p_old p_new s ids e l k :
  stage_ok p_old p_new s ids → new_partition p_new → p_old !! e = Some l →
  offers s !! e = Some k ↔ ∃ g, best_group p_new l g ∧ groups s !! k = Some (list_to_set g).
Proof.
  intros Hs Hnew Hl.
  assert (old s !! e = Some (list_to_set l)) as HO by by rewrite (so_old _ _ _ _ Hs), lookup_fmap, Hl.
  assert (∀ k, offers s !! e = Some k →
    ∃ g, best_group p_new l g ∧ groups s !! k = Some (list_to_set g)) as Hfwd.
  { clear k. intros k Hk. destruct (proj1 (so_offers _ _ _ _ Hs) e k Hk) as (X & HX & Hbest).
    apply (stage_cell _ _ _ _ Hs) in HX as (G & O & HG & HO' & -> & Hne). simplify_eq.
    destruct (groups_from _ _ _ _ Hs Hnew k G HG) as (g & Hg & ->). exists g.
    split; [|done]. split; [done|]. split; [done|]. intros h Hh Hhne.
    destruct (groups_into _ _ _ _ Hs Hnew h Hh) as [kh Hkh]. apply (Hbest kh).
    apply (stage_cell _ _ _ _ Hs). eauto 10. }
  split; [apply Hfwd|]. intros (g & (Hg & Hne & Hbest) & HG).
  destruct (proj2 (so_offers _ _ _ _ Hs) e k (list_to_set g ∩ list_to_set l)) as [k' Hk'].
  { apply (stage_cell _ _ _ _ Hs). eauto 10. }
  destruct (Hfwd k' Hk') as (g' & (Hg' & Hne' & Hbest') & HG').
  destruct (fragment_le_antisym_meet (list_to_set g ∩ list_to_set l) (list_to_set g' ∩ list_to_set l))
    as (r & Hr & Hr'); [auto..|]. apply elem_of_intersection in Hr as [Hr _], Hr' as [Hr' _].
  by rewrite (groups_disjoint _ _ _ _ Hs Hnew k k' _ _ r HG HG' Hr Hr').
Qed.

(** A surviving id follows its largest fragment.  A record that ends up in
    a prior entity lies in the group holding that entity's largest fragment
    (ties to the least record key), and of all entities whose largest fragment
    is in this group the survivor has the largest. *)
Theorem reconcile_plan_keeps_largest (p_old : gmap string (list string)) p_new (f f' : F) plan r e l :
  old_partition p_old → new_partition p_new →
  reconcile_plan details_hash p_old p_new f = Some (plan, f') →
  (∀ id, id ∈ minted plan → p_old !! id = None) →
  apply_plan plan p_old !! r = Some e → p_old !! e = Some l →
  ∃ g, r ∈ g ∧ best_group p_new l g
    ∧ ∀ e' l', p_old !! e' = Some l' → best_group p_new l' g →
        fragment_le (list_to_set g ∩ list_to_set l) (list_to_set g ∩ list_to_set l').
Proof.
  intros Hold Hnew Hplan Hfresh Hr Hl.
  destruct (reconcile_plan_inv details_hash p_old p_new f f' plan (proj1 Hnew) Hplan)
    as (s & ids & Hs & Hok & _ & _).
  rewrite (po_minted _ _ _ Hok) in Hfresh.
  assert (∀ id, id ∈ ids → old s !! id = None) as Hfr.
  { intros id Hid. by rewrite (so_old _ _ _ _ Hs), lookup_fmap, Hfresh. }
  assert (∀ k, minted_ids s !! k ≠ Some e) as Hnot.
  { intros k Hk. eapply minted_ids_in, Hfresh in Hk; [|done]. congruence. }
  apply (apply_plan_final _ _ _ _ Hs Hold Hnew Hfr plan r e Hok) in Hr
    as [(k & G & HG & Hin & He)|[_ He]]; [|by destruct (Hnot r)].
  unfold group_entity in He. destruct (accepted s !! k) as [c|] eqn:Hc; [|by destruct (Hnot k)].
  simplify_eq. destruct (proj1 (so_accepted _ _ _ _ Hs) k e Hc) as (Hoff & X & HX & Hbest).
  apply (offers_best _ _ _ _ _ _ _ Hs Hnew Hl) in Hoff as (g & Hg & HG'). simplify_eq.
  exists g. rewrite elem_of_list_to_set in Hin. split; [done|]. split; [done|].
  intros e' l' Hl' Hg'. assert (offers s !! e' = Some k) as Hoff'.
  { apply (offers_best _ _ _ _ _ _ _ Hs Hnew Hl'). eauto. }
  apply (stage_cell _ _ _ _ Hs) in HX as (G & O & ? & HO & -> & _).
  rewrite (so_old _ _ _ _ Hs), lookup_fmap, Hl in HO. simplify_eq/=.
  apply (Hbest e'); [done|]. apply (stage_cell _ _ _ _ Hs).
  eexists _, (list_to_set l'). split; [done|]. split; [by rewrite (so_old _ _ _ _ Hs), lookup_fmap, Hl'|].
  split; [done|]. apply Hg'.
Qed.

Lemma group_loop_iff p_new :
  new_partition p_new →
  ∃ m, group_loop ∅ p_new = Some m
    ∧ ∀ k G, m !! k = Some G ↔
        (∃ g, g ∈ p_new ∧ G = list_to_set g) ∧ head (set_sorted G) = Some k.
Proof.
  intros [Hne Hdisj]. destruct (group_loop_total ∅ p_new) as (m & Hm & Hok & Hfrom); [done..|].
  exists m. split; [done|]. intros k G. split.
  - intros HG. split; [by destruct (Hfrom k G HG)|by apply Hok].
  - intros [(g & Hg & ->) Hk]. eapply group_loop_lookup; [done| |by eauto].
    intros h Hh Hkh. apply set_head_elem, elem_of_list_to_set in Hk, Hkh.
    apply set_eq. intros x. rewrite !elem_of_list_to_set. by apply (Hdisj h g k).
Qed.

(** The order of the groups and of the records in a group does not matter:
    the same member sets give the same plan, the same ids and the same
    factory. *)
Theorem reconcile_plan_order_independent (p_old : gmap string (list string)) p_new p_new' (f : F) :
  new_partition p_new → new_partition p_new' →
  (∀ X : gset string, (∃ g, g ∈ p_new ∧ X = list_to_set g) ↔ ∃ g, g ∈ p_new' ∧ X = list_to_set g) →
  reconcile_plan details_hash p_old p_new f = reconcile_plan details_hash p_old p_new' f.
Proof.
  intros Hnew Hnew' Hsets.
  destruct (group_loop_iff p_new Hnew) as (m & Hm & Hiff).
  destruct (group_loop_iff p_new' Hnew') as (m' & Hm' & Hiff').
  assert (m = m') as <-.
  { apply map_eq. intros k. apply option_eq. intros G. by rewrite Hiff, Hiff', Hsets. }
  unfold reconcile_plan, prepare. by rewrite Hm, Hm'.
Qed.
End properties.

(** ** A run *)

(** Lists without repetition make partitions. *)
Lemma NoDup_bind_inj {A B} (f : A → list B) l a b x :
  NoDup (l ≫= f) → a ∈ l → b ∈ l → x ∈ f a → x ∈ f b → a = b.
Proof.
  induction l as [|c l IH]; [set_solver|]. rewrite bind_cons.
  intros (Hc & Hdisj & Hl)%NoDup_app Ha Hb Hxa Hxb.
  assert (∀ d, d ∈ l → x ∈ f d → x ∈ f c → False) as Hno.
  { intros d Hd Hxd Hxc. apply (Hdisj x Hxc). apply list_elem_of_bind. eauto. }
  apply elem_of_cons in Ha as [->|Ha], Hb as [->|Hb]; [done|..|by apply IH];
    exfalso; eauto.
Qed.

Lemma old_partition_NoDup p_old :
  NoDup (map_to_list p_old ≫= snd) → old_partition p_old.
Proof.
  intros HN e e' l l' r Hl%elem_of_map_to_list Hl'%elem_of_map_to_list Hr Hr'.
  by injection (NoDup_bind_inj snd (map_to_list p_old) (e, l) (e', l') r HN Hl Hl' Hr Hr').
Qed.

Lemma new_partition_NoDup p_new :
  [] ∉ p_new → NoDup (p_new ≫= id) → new_partition p_new.
Proof.
  intros Hne HN. split; [by intros g Hg ->|]. intros g h r Hg Hh Hr Hr' x.
  by rewrite (NoDup_bind_inj id p_new g h r HN Hg Hh Hr Hr').
Qed.

Module SampleRun.
(** The text of an id, for the examples. *)
Definition text (z : Z) : string := pretty z.

Definition factory : IdFactory CountingIdFactory := CountingIdFactory_factory text.

(** [e1] splits, [e2] gains, [e3] merges into [e2], [e4] is lost. *)
Definition p_old : gmap string (list string) :=
  list_to_map [("e1", ["a"; "b"; "c"]); ("e2", ["d"; "e"]); ("e3", ["f"]); ("e4", ["h"])].
Definition p_new : list (list string) := [["f"; "c"; "e"; "d"]; ["b"; "a"]; ["g"]].

Definition hash (_ : json) : string := "digest".

Definition run : option (ReconcilePlan * CountingIdFactory) :=
  @reconcile_plan hash _ factory p_old p_new (mkCounting 7).

Definition plan : ReconcilePlan := default (mkPlan [] [] [] []) (fst <$> run).

Lemma run_plan : run = Some (plan, mkCounting 9).
Proof. vm_compute. reflexivity. Qed.

Lemma text_inj : Inj (=) (=) text.
Proof. unfold text. apply _. Qed.

Lemma old_ok : old_partition p_old.
Proof. apply old_partition_NoDup. apply (bool_decide_unpack _). vm_compute. done. Qed.

Lemma new_ok : new_partition p_new.
Proof.
  apply new_partition_NoDup; apply (bool_decide_unpack _); vm_compute; done.
Qed.

Lemma fresh_ok id : id ∈ minted plan → p_old !! id = None.
Proof.
  revert id. apply Forall_forall. apply (bool_decide_unpack _). vm_compute. done.
Qed.

(** The whole plan. *)
Example plan_rows :
  assignments plan = [mkAssign "c" "e2"; mkAssign "f" "e2"; mkAssign "g" "7"; mkAssign "h" "8"]
  ∧ transitions plan =
      [mkTransition "7" ACTIVE None true; mkTransition "8" ACTIVE None true;
       mkTransition "e1" ACTIVE None false; mkTransition "e2" ACTIVE None false;
       mkTransition "e3" MERGED (Some "e2") false; mkTransition "e4" RETIRED None false]
  ∧ event_type <$> events plan =
      [CREATED; CREATED; MEMBER_REMOVED; MERGED; SPLIT; RETIRED]
  ∧ minted plan = ["7"; "8"].
Proof. vm_compute. done. Qed.
End SampleRun.

Lemma reconcile_plan_total_witness :
  is_Some (@reconcile_plan SampleRun.hash _ SampleRun.factory
    SampleRun.p_old SampleRun.p_new (mkCounting 7)).
Proof.
  apply (@reconcile_plan_total SampleRun.hash _ SampleRun.factory);
    [apply SampleRun.new_ok|].
  intros n Hn. assert (n ≤ 10) as Hle by (etrans; [exact Hn|]; vm_compute; lia). clear Hn.
  do 11 (destruct n as [|n]; [vm_compute; eauto|]). lia.
Defined.

Lemma reconcile_plan_realises_witness :
  apply_plan SampleRun.plan SampleRun.p_old !! "f" = Some "e2"
  ∧ (apply_plan SampleRun.plan SampleRun.p_old !! "d" = Some "e2"
     ↔ "f" = "d" ∨ ∃ g, g ∈ SampleRun.p_new ∧ "f" ∈ g ∧ "d" ∈ g).
Proof.
  assert (apply_plan SampleRun.plan SampleRun.p_old !! "f" = Some "e2") as Hf
    by (vm_compute; reflexivity).
  split; [exact Hf|].
  eapply (@reconcile_plan_realises SampleRun.hash _ SampleRun.factory SampleRun.p_old
    SampleRun.p_new (mkCounting 7) (mkCounting 9) SampleRun.plan SampleRun.old_ok
    SampleRun.new_ok (@counting_distinct SampleRun.text 7 SampleRun.text_inj)
    SampleRun.run_plan SampleRun.fresh_ok).
  exact Hf.
Defined.

Lemma reconcile_plan_writes_changes_witness :
  mkAssign "c" "e2" ∈ assignments SampleRun.plan ↔
    apply_plan SampleRun.plan SampleRun.p_old !! "c" = Some "e2"
    ∧ prior SampleRun.p_old !! "c" ≠ Some "e2".
Proof.
  apply (@reconcile_plan_writes_changes SampleRun.hash _ SampleRun.factory SampleRun.p_old
    SampleRun.p_new (mkCounting 7) (mkCounting 9) SampleRun.plan SampleRun.old_ok
    SampleRun.new_ok SampleRun.run_plan SampleRun.fresh_ok).
Defined.

Lemma reconcile_plan_transitions_witness :
  mkTransition "e4" RETIRED None false ∈ transitions SampleRun.plan ↔
    ∃ l, SampleRun.p_old !! "e4" = Some l
      ∧ ∀ r g, r ∈ l → g ∈ SampleRun.p_new → r ∉ g.
Proof.
  apply (@reconcile_plan_transitions SampleRun.hash _ SampleRun.factory SampleRun.p_old
    SampleRun.p_new (mkCounting 7) (mkCounting 9) SampleRun.plan SampleRun.old_ok
    SampleRun.new_ok SampleRun.run_plan SampleRun.fresh_ok).
Defined.

Lemma reconcile_plan_keeps_largest_witness :
  ∃ g, "b" ∈ g ∧ best_group SampleRun.p_new ["a"; "b"; "c"] g.
Proof.
  destruct (@reconcile_plan_keeps_largest SampleRun.hash _ SampleRun.factory SampleRun.p_old
    SampleRun.p_new (mkCounting 7) (mkCounting 9) SampleRun.plan "b" "e1" ["a"; "b"; "c"]
    SampleRun.old_ok SampleRun.new_ok SampleRun.run_plan SampleRun.fresh_ok)
    as (g & ? & ? & _); [vm_compute; reflexivity..|].
  exists g. split; assumption.
Defined.

Lemma reconcile_plan_set_equal_witness :
  let p_old : gmap string (list string) := list_to_map [("e1", ["a"; "b"]); ("e2", ["c"])] in
  @reconcile_plan SampleRun.hash _ SampleRun.factory p_old [["c"]; ["b"; "a"]] (mkCounting 0)
    = Some (mkPlan [] [] [] [], mkCounting 0).
Proof.
  apply (@reconcile_plan_set_equal SampleRun.hash _ SampleRun.factory).
  - apply old_partition_NoDup, (bool_decide_unpack _). vm_compute. done.
  - apply new_partition_NoDup; apply (bool_decide_unpack _); vm_compute; done.
  - split.
    + intros e l Hl. apply elem_of_list_to_map_2 in Hl.
      apply elem_of_cons in Hl as [[= -> ->]|[= -> ->]%list_elem_of_singleton];
        [exists ["b"; "a"]|exists ["c"]]; set_solver.
    + intros g [->|[->|[]%elem_of_nil]%elem_of_cons]%elem_of_cons;
        [exists "e2", ["c"]|exists "e1", ["a"; "b"]]; (split; [reflexivity|set_solver]).
Defined.

Lemma reconcile_plan_order_independent_witness :
  @reconcile_plan SampleRun.hash _ SampleRun.factory SampleRun.p_old [["a"]; ["c"; "b"]] (mkCounting 0)
  = @reconcile_plan SampleRun.hash _ SampleRun.factory SampleRun.p_old [["b"; "c"]; ["a"]] (mkCounting 0).
Proof.
  apply (@reconcile_plan_order_independent SampleRun.hash _ SampleRun.factory).
  - apply new_partition_NoDup; apply (bool_decide_unpack _); vm_compute; done.
  - apply new_partition_NoDup; apply (bool_decide_unpack _); vm_compute; done.
  - intros X. assert (list_to_set ["c"; "b"] = (list_to_set ["b"; "c"] : gset string)) as E
      by (apply set_eq; set_solver).
    split; intros (g & Hg & ->); rewrite !elem_of_cons, elem_of_nil in Hg;
      destruct Hg as [->|[->|[]]];
      first [exists ["a"]; split; [set_solver|done] | exists ["b"; "c"]; split; [set_solver|done]
            |exists ["c"; "b"]; split; [set_solver|done]].
Defined.
