(* ===== verification/DagPolicy.v ===== *)
(** * Node policy

    [er-dag/src/policy.rs]: resource classes and their escalation ladder,
    backoff, trigger rules, and the policies a task declares. *)

From S2P Require Import Prelude.

(** ** Definitions *)

Inductive ResourceClass := ClassS | ClassM | ClassL.

#[global] Instance ResourceClass_eq_dec : EqDecision ResourceClass.
Proof. solve_decision. Defined.

Definition class_as_str (c : ResourceClass) : string :=
  match c with ClassS => "S" | ClassM => "M" | ClassL => "L" end.

Definition class_parse (s : string) : option ResourceClass :=
  if decide (s = "S") then Some ClassS
  else if decide (s = "M") then Some ClassM
  else if decide (s = "L") then Some ClassL
  else None.

(** The OOM ladder. *)
Definition escalated (c : ResourceClass) : option ResourceClass :=
  match c with ClassS => Some ClassM | ClassM => Some ClassL | ClassL => None end.

Inductive ClassRule := Fixed (c : ResourceClass) | FromRun.

#[global] Instance ClassRule_eq_dec : EqDecision ClassRule.
Proof. solve_decision. Defined.

Record Backoff := mkBackoff { base_secs : Z; cap_secs : Z }.

#[global] Instance Backoff_eq_dec : EqDecision Backoff.
Proof. solve_decision. Defined.

Inductive TriggerRule := AllSucceeded | AllTerminal | AnyFailed.

#[global] Instance TriggerRule_eq_dec : EqDecision TriggerRule.
Proof. solve_decision. Defined.

Definition rule_as_str (r : TriggerRule) : string :=
  match r with
  | AllSucceeded => "all_succeeded"
  | AllTerminal => "all_terminal"
  | AnyFailed => "any_failed"
  end.

Record NodePolicy := mkPolicy {
  retries : Z;
  backoff : Backoff;
  timeout_secs : option Z;
  class_rule : ClassRule;
  escalate_on_oom : bool;
  segment : option string;
  policy_teardown : bool;
  threads : option Z;
}.

#[global] Instance NodePolicy_eq_dec : EqDecision NodePolicy.
Proof. solve_decision. Defined.

(** [NodePolicy::default]. *)
Definition policy_default : NodePolicy :=
  {| retries := 2; backoff := mkBackoff 30 900; timeout_secs := None;
     class_rule := FromRun; escalate_on_oom := false; segment := None;
     policy_teardown := false; threads := None |}.

(** [NodePolicy::control]. *)
Definition policy_control : NodePolicy :=
  {| retries := retries policy_default; backoff := mkBackoff 5 60; timeout_secs := Some 60%Z;
     class_rule := class_rule policy_default;
     escalate_on_oom := escalate_on_oom policy_default; segment := segment policy_default;
     policy_teardown := policy_teardown policy_default; threads := threads policy_default |}.

(** ** Lemmas *)

Lemma class_parse_as_str s c : class_parse s = Some c ↔ s = class_as_str c.
Proof.
  unfold class_parse. split.
  - repeat case_decide; intros [= <-]; done.
  - intros ->. by destruct c.
Qed.

(** The ladder: at most two escalations, and only the top has none. *)
Lemma escalated_chain c :
  escalated c = None ↔ c = ClassL.
Proof. by destruct c. Qed.

Definition class_rank (c : ResourceClass) : nat :=
  match c with ClassS => 0 | ClassM => 1 | ClassL => 2 end.

Lemma escalated_rank c c' : escalated c = Some c' → class_rank c' = S (class_rank c).
Proof. by destruct c; intros [= <-]. Qed.
