(* ===== verification/Dag.v ===== *)
(** * The task graph: building and assembling it

    [er-dag/src/builder.rs] and [er-dag/src/assembly.rs].  A [NodeId] is a
    position; the builder's phantom types have no run-time content, so a
    builder is its name and its nodes, and a handle is a [NodeId].  [None] is
    a search that runs out of fuel, which [reaches_spec] excludes. *)

From S2P Require Import Prelude Ids DagPolicy.
From Stdlib Require Import Ascii.
From stdpp Require Import pretty.

(** ** Definitions *)

Inductive NodeKind := Pod | Control.

Definition kind_as_str (k : NodeKind) : string :=
  match k with Pod => "pod" | Control => "control" end.

Record Node := mkNode {
  task_id : string;
  version : N;
  nkind : NodeKind;
  input_names : list string;
  output_name : string;
  writes_lake : bool;
  trigger_rule : TriggerRule;
  teardown : bool;
  policy : NodePolicy;
  upstream : list nat;
}.

Record Dag := mkDag {
  dag_name : string;
  nodes : list Node;
  structural_fingerprint : string;
  policy_hash : string;
}.

Inductive AssemblyError :=
| EmptyGraph
| DuplicateTaskName (task_id : string)
| TeardownWithInputs (task_id : string)
| EscalateOnFixedL (task_id : string)
| SegmentNotContiguous (segment : string)
| SegmentClassMismatch (segment : string)
| UnorderedLakeWriters (a b : string).

(** *** The graph *)

Definition node_by_task_id (dag : Dag) (id : string) : option (nat * Node) :=
  find_first (λ '(_, n), bool_decide (task_id n = id)) (enumerate (nodes dag)).

Definition downstream_of (dag : Dag) (idx : nat) : list nat :=
  (filter (λ x, idx ∈ upstream x.2) (enumerate (nodes dag))).*1.

(** The [for d in self.downstream_of(i)] loop of [reaches]: [None] is the
    early [return true].  The stack is a list with its top first. *)
Fixpoint reaches_scan (to : nat) (ds : list nat) (seen : gset nat) (frontier : list nat) :
    option (gset nat * list nat) :=
  match ds with
  | [] => Some (seen, frontier)
  | d :: ds =>
      if decide (d = to) then None
      else if decide (d ∈ seen) then reaches_scan to ds seen frontier
      else reaches_scan to ds ({[d]} ∪ seen) (d :: frontier)
  end.

Fixpoint reaches_loop (fuel : nat) (dag : Dag) (to : nat) (seen : gset nat)
    (frontier : list nat) : option bool :=
  match frontier with
  | [] => Some false
  | i :: frontier =>
      match fuel with
      | 0 => None
      | S fuel =>
          match reaches_scan to (downstream_of dag i) seen frontier with
          | None => Some true
          | Some (seen, frontier) => reaches_loop fuel dag to seen frontier
          end
      end
  end.

(** Every node is pushed once, after [from]. *)
Definition reaches (dag : Dag) (from to : nat) : option bool :=
  if decide (from = to) then Some true
  else reaches_loop (S (length (nodes dag))) dag to ∅ [from].

(** *** Fingerprints *)

Definition bool_str (b : bool) : string := if b then "true" else "false".

(** [join(",")]. *)
Fixpoint join_comma (l : list string) : string :=
  match l with
  | [] => ""
  | [s] => s
  | s :: l => s +:+ "," +:+ join_comma l
  end.

Definition structural_line (n : Node) : string :=
  task_id n +:+ "|v" +:+ pretty (version n) +:+ "|" +:+ kind_as_str (nkind n)
    +:+ "|in:" +:+ join_comma (input_names n) +:+ "|out:" +:+ output_name n
    +:+ "|lake:" +:+ bool_str (writes_lake n) +:+ "|rule:" +:+ rule_as_str (trigger_rule n)
    +:+ "|teardown:" +:+ bool_str (teardown n)
    +:+ "|up:" +:+ join_comma (pretty <$> upstream n).

Definition structural_lines (dag : Dag) : list string := structural_line <$> nodes dag.

(** [{:?}] of an option. *)
Definition debug_option {A} (debug : A → string) (o : option A) : string :=
  match o with None => "None" | Some x => "Some(" +:+ debug x +:+ ")" end.

(** [{:?}] of a string: quoted, the special and control characters escaped
    (the segment names are ASCII). *)
Definition debug_char (c : ascii) : string :=
  let n := N_of_ascii c in
  let escaped (e : ascii) := String "\"%char (String e "") in
  if (n =? 34)%N then escaped c
  else if (n =? 92)%N then escaped c
  else if (n =? 10)%N then escaped "n"%char
  else if (n =? 13)%N then escaped "r"%char
  else if (n =? 9)%N then escaped "t"%char
  else if (n =? 0)%N then escaped "0"%char
  else if (n <? 16)%N || (n =? 127)%N || (n <? 32)%N
  then String "\"%char ("u{" +:+
         (if (n <? 16)%N then String (hex_digit (Z.of_N n)) "" else hex_of [Z.of_N n]) +:+ "}")
  else String c "".

Fixpoint debug_chars (s : string) : string :=
  match s with EmptyString => "" | String c s => debug_char c +:+ debug_chars s end.

Definition debug_str (s : string) : string :=
  let quote := ascii_of_nat 34 in
  String quote (debug_chars s +:+ String quote "").

Section fingerprints.
Context (sha256 : string → list Z).   (* SHA-256 *)

Definition policy_line (n : Node) : string :=
  let p := policy n in
  let class := match class_rule p with
               | Fixed c => "fixed:" +:+ class_as_str c
               | FromRun => "from_run"
               end in
  task_id n +:+ "|retries:" +:+ pretty (retries p)
    +:+ "|backoff:" +:+ pretty (base_secs (backoff p)) +:+ "/" +:+ pretty (cap_secs (backoff p))
    +:+ "|timeout:" +:+ debug_option pretty (timeout_secs p) +:+ "|class:" +:+ class
    +:+ "|escalate:" +:+ bool_str (escalate_on_oom p)
    +:+ "|segment:" +:+ debug_option debug_str (segment p) +:+ "|threads:" +:+ debug_option pretty (threads p).

Definition policy_lines (dag : Dag) : list string := policy_line <$> nodes dag.

(** The parts are hashed with a newline after each. *)
Definition sha256_hex (parts : list string) : string :=
  hex_of (sha256 (foldr (λ p acc, p +:+ String "010"%char acc) "" parts)).

(** *** Assembly *)

(** The per-node checks, in registration order. *)
Fixpoint check_nodes (seen : gset string) (l : list Node) : option AssemblyError :=
  match l with
  | [] => None
  | n :: l =>
      if decide (task_id n ∈ seen) then Some (DuplicateTaskName (task_id n))
      else if teardown n && negb (bool_decide (input_names n = []))
      then Some (TeardownWithInputs (task_id n))
      else if escalate_on_oom (policy n) && bool_decide (class_rule (policy n) = Fixed ClassL)
      then Some (EscalateOnFixedL (task_id n))
      else check_nodes ({[task_id n]} ∪ seen) l
  end.

Definition members_of (l : list Node) (seg : string) : list (nat * Node) :=
  filter (λ x, segment (policy x.2) = Some seg) (enumerate l).

Definition check_segment (l : list Node) (seg : string) : option AssemblyError :=
  let members := members_of l seg in
  if negb (forallb (λ '(i, j), bool_decide (j = S i)) (windows2 members.*1))
  then Some (SegmentNotContiguous seg)
  else
    match members with
    | [] => None
    | (_, first) :: _ =>
        if existsb (λ '(_, n), bool_decide (class_rule (policy n) ≠ class_rule (policy first))) members
        then Some (SegmentClassMismatch seg)
        else None
    end.

Fixpoint check_segments (l : list Node) (segs : list string) : option AssemblyError :=
  match segs with
  | [] => None
  | seg :: segs =>
      match check_segment l seg with Some e => Some e | None => check_segments l segs end
  end.

Definition writers_of (l : list Node) : list (nat * Node) :=
  filter (λ x, writes_lake x.2 = true) (enumerate l).

(** One writer [a] against the later ones. *)
Fixpoint check_writer (dag : Dag) (a : nat * Node) (bs : list (nat * Node)) :
    option (option AssemblyError) :=
  match bs with
  | [] => Some None
  | b :: bs =>
      ab ← reaches dag a.1 b.1;
      ba ← if ab : bool then Some true else reaches dag b.1 a.1;
      if negb ab && negb ba
      then Some (Some (UnorderedLakeWriters (task_id a.2) (task_id b.2)))
      else check_writer dag a bs
  end.

Fixpoint check_writers (dag : Dag) (ws : list (nat * Node)) : option (option AssemblyError) :=
  match ws with
  | [] => Some None
  | a :: ws =>
      o ← check_writer dag a ws;
      match o with Some e => Some (Some e) | None => check_writers dag ws end
  end.

Definition assemble (name : string) (l : list Node) : option (result Dag AssemblyError) :=
  if decide (l = []) then Some (Err EmptyGraph)
  else
    match check_nodes ∅ l with
    | Some e => Some (Err e)
    | None =>
        match check_segments l (set_sorted (list_to_set (omap (segment ∘ policy) l))) with
        | Some e => Some (Err e)
        | None =>
            let dag := mkDag name l "" "" in
            o ← check_writers dag (writers_of l);
            match o with
            | Some e => Some (Err e)
            | None =>
                Some (Ok (mkDag name l
                            (sha256_hex (("dag:" +:+ name) :: structural_lines dag))
                            (sha256_hex (policy_lines dag))))
            end
        end
    end.
End fingerprints.

(** *** The builder *)

Record DagBuilder := mkBuilder { builder_name : string; builder_nodes : list Node }.

Definition builder_new (name : string) : DagBuilder := mkBuilder name [].

Definition builder_push (b : DagBuilder) (n : Node) : DagBuilder * nat :=
  (mkBuilder (builder_name b) (builder_nodes b ++ [n]), length (builder_nodes b)).

(** What a [Task] or [ControlTask] type declares. *)
Record TaskDecl := mkTask {
  NAME : string;
  VERSION : N;
  INPUT : list string;      (* the stable names of [T::Input] *)
  OUTPUT : string;
  WRITES_LAKE : bool;
  POLICY : NodePolicy;
}.

Definition builder_then (b : DagBuilder) (t : TaskDecl) (deps : list nat) : DagBuilder * nat :=
  builder_push b
    {| task_id := NAME t; version := VERSION t; nkind := Pod; input_names := INPUT t;
       output_name := OUTPUT t; writes_lake := WRITES_LAKE t; trigger_rule := AllSucceeded;
       teardown := policy_teardown (POLICY t); policy := POLICY t; upstream := deps |}.

Definition builder_source (b : DagBuilder) (t : TaskDecl) : DagBuilder * nat :=
  builder_then b t [].

Definition builder_control (b : DagBuilder) (t : TaskDecl) (deps : list nat) : DagBuilder * nat :=
  builder_push b
    {| task_id := NAME t; version := VERSION t; nkind := Control; input_names := INPUT t;
       output_name := OUTPUT t; writes_lake := false; trigger_rule := AllSucceeded;
       teardown := policy_teardown (POLICY t); policy := POLICY t; upstream := deps |}.

Definition builder_epilogue (b : DagBuilder) (t : TaskDecl) (after : list nat)
    (rule : TriggerRule) : DagBuilder * nat :=
  builder_push b
    {| task_id := NAME t; version := VERSION t; nkind := Pod; input_names := [];
       output_name := OUTPUT t; writes_lake := WRITES_LAKE t; trigger_rule := rule;
       teardown := policy_teardown (POLICY t); policy := POLICY t; upstream := after |}.

Definition builder_build (sha256 : string → list Z) (b : DagBuilder) :
    option (result Dag AssemblyError) := assemble sha256 (builder_name b) (builder_nodes b).

(** ** Specification *)

(** [i] is a direct upstream of [j]. *)
Definition edge (l : list Node) (i j : nat) : Prop :=
  ∃ n, l !! j = Some n ∧ i ∈ upstream n.

(** Every upstream was registered before. *)
Definition topological (l : list Node) : Prop := ∀ i j, edge l i j → i < j.

Record well_formed (l : list Node) : Prop := {
  wf_nonempty : l ≠ [];
  wf_names : NoDup (task_id <$> l);
  wf_teardown : ∀ n, n ∈ l → teardown n = true → input_names n = [];
  wf_escalate : ∀ n, n ∈ l → escalate_on_oom (policy n) = true →
    class_rule (policy n) ≠ Fixed ClassL;
  wf_contiguous : ∀ i j k ni nk s, l !! i = Some ni → l !! k = Some nk → i < j < k →
    segment (policy ni) = Some s → segment (policy nk) = Some s →
    ∃ nj, l !! j = Some nj ∧ segment (policy nj) = Some s;
  wf_class : ∀ m n s, m ∈ l → n ∈ l → segment (policy m) = Some s → segment (policy n) = Some s →
    class_rule (policy m) = class_rule (policy n);
  wf_writers : ∀ i j ni nj, l !! i = Some ni → l !! j = Some nj →
    writes_lake ni = true → writes_lake nj = true →
    rtc (edge l) i j ∨ rtc (edge l) j i;
}.

(** What a refusal reports. *)
Definition defect (l : list Node) (e : AssemblyError) : Prop :=
  match e with
  | EmptyGraph => l = []
  | DuplicateTaskName id => ∃ i j ni nj, i ≠ j ∧ l !! i = Some ni ∧ l !! j = Some nj
      ∧ task_id ni = id ∧ task_id nj = id
  | TeardownWithInputs id => ∃ n, n ∈ l ∧ task_id n = id ∧ teardown n = true ∧ input_names n ≠ []
  | EscalateOnFixedL id => ∃ n, n ∈ l ∧ task_id n = id
      ∧ escalate_on_oom (policy n) = true ∧ class_rule (policy n) = Fixed ClassL
  | SegmentNotContiguous s => ∃ i j k ni nj nk, i < j < k
      ∧ l !! i = Some ni ∧ l !! j = Some nj ∧ l !! k = Some nk
      ∧ segment (policy ni) = Some s ∧ segment (policy nk) = Some s
      ∧ segment (policy nj) ≠ Some s
  | SegmentClassMismatch s => ∃ m n, m ∈ l ∧ n ∈ l
      ∧ segment (policy m) = Some s ∧ segment (policy n) = Some s
      ∧ class_rule (policy m) ≠ class_rule (policy n)
  | UnorderedLakeWriters a b => ∃ i j ni nj, l !! i = Some ni ∧ l !! j = Some nj
      ∧ task_id ni = a ∧ task_id nj = b ∧ writes_lake ni = true ∧ writes_lake nj = true
      ∧ ¬ rtc (edge l) i j ∧ ¬ rtc (edge l) j i
  end.

(** ** Reachability *)

Lemma elem_of_downstream dag i d : d ∈ downstream_of dag i ↔ edge (nodes dag) i d.
Proof.
  unfold downstream_of, edge. rewrite list_elem_of_fmap. split.
  - intros ([j n] & -> & [Hi Hn%elem_of_enumerate]%list_elem_of_filter). eauto.
  - intros (n & Hn & Hi). exists (d, n). split; [done|].
    by rewrite list_elem_of_filter, elem_of_enumerate.
Qed.

Lemma edge_lt l i j : edge l i j → j < length l.
Proof. intros (n & Hn & _). by eapply lookup_lt_Some. Qed.

Lemma reaches_scan_spec to ds seen frontier :
  match reaches_scan to ds seen frontier with
  | None => to ∈ ds
  | Some (seen', frontier') =>
      (to ∉ ds) ∧ seen' = seen ∪ list_to_set ds
      ∧ (∀ x, x ∈ frontier' ↔ x ∈ frontier ∨ (x ∈ ds ∧ x ∉ seen))
      ∧ length frontier' + size seen = length frontier + size seen'
  end.
Proof.
  revert seen frontier. induction ds as [|d ds IH]; intros seen frontier; simpl.
  { split_and!; set_solver. }
  destruct (decide (d = to)) as [->|Hto]; [left|].
  destruct (decide (d ∈ seen)) as [Hseen|Hseen].
  - specialize (IH seen frontier). destruct (reaches_scan _ _ _ _) as [[seen' frontier']|]; [|by right].
    destruct IH as (? & -> & Hf & Hlen). split_and!; [set_solver|set_solver| |done].
    intros x. rewrite Hf. set_solver.
  - specialize (IH ({[d]} ∪ seen) (d :: frontier)).
    destruct (reaches_scan _ _ _ _) as [[seen' frontier']|]; [|by right].
    destruct IH as (? & -> & Hf & Hlen). split_and!; [set_solver|set_solver| |].
    + intros x. rewrite Hf. destruct (decide (x = d)); set_solver.
    + rewrite size_union in Hlen by set_solver. rewrite size_singleton in Hlen. simpl in Hlen. lia.
Qed.

Section reach.
Context (dag : Dag) (from to : nat).

(** Discovered nodes are reachable; a discovered node off the stack has been
    expanded. *)
Record reach_inv (seen : gset nat) (frontier : list nat) : Prop := {
  ri_seen : ∀ x, x ∈ seen → rtc (edge (nodes dag)) from x;
  ri_frontier : ∀ x, x ∈ frontier → x = from ∨ x ∈ seen;
  ri_to : to ∉ seen;
  ri_expanded : ∀ x d, x = from ∨ x ∈ seen → edge (nodes dag) x d → x ∈ frontier ∨ d ∈ seen;
}.

Lemma seen_size (seen : gset nat) frontier :
  reach_inv seen frontier → from ≠ to →
  (∀ x, x ∈ seen → x < length (nodes dag)) → size seen ≤ length (nodes dag).
Proof.
  intros _ _ Hlt. rewrite <-(size_set_seq (C:=gset nat) 0 (length (nodes dag))).
  apply subseteq_size. intros x Hx. apply elem_of_set_seq. specialize (Hlt x Hx). lia.
Qed.

Lemma reaches_loop_spec fuel seen frontier :
  reach_inv seen frontier → from ≠ to →
  (∀ x, x ∈ seen → x < length (nodes dag)) →
  length frontier + length (nodes dag) ≤ fuel + size seen →
  ∃ b, reaches_loop fuel dag to seen frontier = Some b
    ∧ (b = true ↔ rtc (edge (nodes dag)) from to).
Proof.
  revert seen frontier. induction fuel as [|fuel IH]; intros seen frontier Hinv Hne Hlt Hfuel;
    (destruct frontier as [|i frontier]; simpl; [exists false; split; [done|]; split; [done|]|]).
  1,3: intros Hreach; exfalso;
    (assert (∀ x, rtc (edge (nodes dag)) from x → x = from ∨ x ∈ seen) as Hclosed;
     [|by destruct (Hclosed to Hreach) as [?|?%(ri_to _ _ Hinv)]]);
    apply rtc_ind_r; [by left|]; intros y z _ Hyz Hy;
    destruct (ri_expanded _ _ Hinv y z Hy Hyz); [set_solver|by right].
  { pose proof (seen_size seen _ Hinv Hne Hlt). simpl in Hfuel. lia. }
  assert (rtc (edge (nodes dag)) from i) as Hi.
  { destruct (ri_frontier _ _ Hinv i) as [->|?]; [left|done|by apply (ri_seen _ _ Hinv)]. }
  assert (∀ d, d ∈ downstream_of dag i → rtc (edge (nodes dag)) from d) as Hd.
  { intros d Hd%elem_of_downstream. by eapply rtc_r. }
  pose proof (reaches_scan_spec to (downstream_of dag i) seen frontier) as Hscan.
  destruct (reaches_scan _ _ _ _) as [[seen' frontier']|].
  2:{ exists true. split; [done|]. split; [intros _; by apply Hd|done]. }
  destruct Hscan as (Hto & -> & Hf & Hlen). apply IH; [|done|..].
  - split.
    + intros x [?|?%elem_of_list_to_set]%elem_of_union; [by apply (ri_seen _ _ Hinv)|auto].
    + intros x [Hx|[Hx _]]%Hf; [|set_solver].
      destruct (ri_frontier _ _ Hinv x); [by right|by left|set_solver].
    + rewrite elem_of_union, elem_of_list_to_set. intros [?%(ri_to _ _ Hinv)|?]; done.
    + intros x d Hx Hxd.
      destruct (decide (x = i)) as [->|Hxi].
      { right. apply elem_of_union_r, elem_of_list_to_set. by apply elem_of_downstream. }
      assert (x = from ∨ x ∈ seen ∨ (x ∈ downstream_of dag i ∧ x ∉ seen)) as Hx'.
      { destruct (decide (x ∈ seen)); set_solver. }
      destruct Hx' as [Hx'|[Hx'|Hx']]; [..|left; apply Hf; by right];
        (destruct (ri_expanded _ _ Hinv x d) as [Hin|?]; [by auto|done| |set_solver]);
        left; apply Hf; left; set_solver.
  - intros x [?|Hx%elem_of_list_to_set]%elem_of_union; [auto|].
    by eapply edge_lt, elem_of_downstream.
  - simpl in Hfuel. lia.
Qed.
End reach.

(** [reaches] decides reachability, on any graph. *)
Lemma reaches_spec dag from to :
  ∃ b, reaches dag from to = Some b ∧ (b = true ↔ rtc (edge (nodes dag)) from to).
Proof.
  unfold reaches. case_decide as Hne; subst.
  { exists true. split; [done|]. split; [intros _; constructor|done]. }
  apply (reaches_loop_spec dag from to); [|done|set_solver|simpl; lia].
  split; [set_solver|set_solver|set_solver|]. intros x d [->|?]; [left; set_solver|set_solver].
Qed.

(** ** The checks *)

Lemma check_nodes_spec seen l :
  match check_nodes seen l with
  | Some (DuplicateTaskName id) =>
      ∃ l1 n l2, l = l1 ++ n :: l2 ∧ task_id n = id ∧ (id ∈ seen ∨ id ∈ task_id <$> l1)
  | Some (TeardownWithInputs id) =>
      ∃ n, n ∈ l ∧ task_id n = id ∧ teardown n = true ∧ input_names n ≠ []
  | Some (EscalateOnFixedL id) => ∃ n, n ∈ l ∧ task_id n = id
      ∧ escalate_on_oom (policy n) = true ∧ class_rule (policy n) = Fixed ClassL
  | Some _ => False
  | None =>
      NoDup (task_id <$> l) ∧ (∀ n, n ∈ l → task_id n ∉ seen)
      ∧ (∀ n, n ∈ l → teardown n = true → input_names n = [])
      ∧ (∀ n, n ∈ l → escalate_on_oom (policy n) = true → class_rule (policy n) ≠ Fixed ClassL)
  end.
Proof.
  revert seen. induction l as [|n l IH]; intros seen; simpl.
  { split_and!; [constructor|set_solver..]. }
  destruct (decide (task_id n ∈ seen)) as [Hs|Hs]; [by exists [], n, l; auto|].
  destruct (teardown n && _) eqn:Ht.
  { apply andb_true_iff in Ht as [? Ht%negb_true_iff%bool_decide_eq_false].
    exists n. split_and!; [left|done..]. }
  destruct (escalate_on_oom (policy n) && _) eqn:He.
  { apply andb_true_iff in He as [? He%bool_decide_eq_true]. exists n. split_and!; [left|done..]. }
  specialize (IH ({[task_id n]} ∪ seen)).
  destruct (check_nodes _ l) as [[]|]; try done.
  - destruct IH as (l1 & m & l2 & -> & <- & Hor). exists (n :: l1), m, l2.
    split; [done|]. split; [done|]. set_solver.
  - destruct IH as (m & ? & ?). exists m. split; [by right|done].
  - destruct IH as (m & ? & ?). exists m. split; [by right|done].
  - destruct IH as (HN & Hseen & Hteardown & Hesc). split_and!.
    + constructor; [|done]. intros (m & Hm & Hin)%list_elem_of_fmap.
      apply (Hseen m Hin). rewrite Hm. set_solver.
    + intros m [->|Hin]%elem_of_cons; [done|]. intros ?. apply (Hseen m Hin). set_solver.
    + intros m [->|Hin]%elem_of_cons; [|auto]. intros Htm. rewrite Htm in Ht.
      apply negb_false_iff, bool_decide_eq_true in Ht. done.
    + intros m [->|Hin]%elem_of_cons; [|auto]. intros Hem. rewrite Hem in He.
      by apply bool_decide_eq_false in He.
Qed.

(** Increasing positions without a gap. *)
Lemma contiguous_iff (ms : list nat) :
  StronglySorted lt ms →
  forallb (λ '(i, j), bool_decide (j = S i)) (windows2 ms) = true ↔
  ∀ i j k, i ∈ ms → k ∈ ms → i < j < k → j ∈ ms.
Proof.
  induction ms as [|a [|b ms] IH]; intros HS.
  { split; [set_solver|done]. }
  { split; [|done]. intros _ i j k ->%list_elem_of_singleton ->%list_elem_of_singleton. lia. }
  inversion HS as [|?? HS' HF]; subst. rewrite windows2_cons. cbn [forallb].
  rewrite andb_true_iff, bool_decide_eq_true, (IH HS'). clear IH.
  inversion HS' as [|?? _ HF']; subst. rewrite Forall_forall in HF, HF'. split.
  - intros [-> Htail] i j k Hi Hk Hj. rewrite elem_of_cons.
    apply elem_of_cons in Hi as [->|Hi], Hk as [->|Hk]; [lia| | |right; by apply (Htail i j k)].
    + right. destruct (decide (j = S a)) as [->|]; [left|].
      apply (Htail (S a) j k); [left|done|lia].
    + specialize (HF i Hi). lia.
  - intros Hconv. split.
    + assert (a < b) by (apply HF; left). destruct (decide (b = S a)) as [|Hne]; [done|].
      assert (S a ∈ a :: b :: ms) as Hin.
      { apply (Hconv a (S a) b); [left|right; left|lia]. }
      apply elem_of_cons in Hin as [?|[?|Hin]%elem_of_cons]; [lia|done|].
      specialize (HF' _ Hin). lia.
    + intros i j k Hi Hk Hj. assert (j ∈ a :: b :: ms) as [->|?]%elem_of_cons; [|specialize (HF i Hi); lia|done].
      apply (Hconv i j k); [by right..|done].
Qed.

Lemma gap_witness (ms : list nat) :
  StronglySorted lt ms →
  forallb (λ '(i, j), bool_decide (j = S i)) (windows2 ms) = false →
  ∃ i j k, i ∈ ms ∧ k ∈ ms ∧ i < j < k ∧ j ∉ ms.
Proof.
  induction ms as [|a [|b ms] IH]; intros HS; [done..|].
  inversion HS as [|?? HS' HF]; subst. rewrite windows2_cons. cbn [forallb].
  inversion HS' as [|?? _ HF']; subst. rewrite Forall_forall in HF, HF'.
  assert (a < b) by (apply HF; left). intros [Hb%bool_decide_eq_false|Hf]%andb_false_iff.
  - exists a, (S a), b. split_and!; [left|right; left|lia|lia|].
    rewrite !elem_of_cons. intros [?|[?|Hin]]; [lia|lia|]. specialize (HF' _ Hin). lia.
  - destruct (IH HS' Hf) as (i & j & k & Hi & Hk & Hj & Hnj). exists i, j, k.
    split_and!; [by right..|lia|lia|]. rewrite elem_of_cons. intros [->|?]; [|done].
    specialize (HF i Hi). lia.
Qed.

Lemma elem_of_members l seg i n :
  (i, n) ∈ members_of l seg ↔ l !! i = Some n ∧ segment (policy n) = Some seg.
Proof. unfold members_of. rewrite list_elem_of_filter, elem_of_enumerate. naive_solver. Qed.

Lemma members_idx l seg i :
  i ∈ (members_of l seg).*1 ↔ ∃ n, l !! i = Some n ∧ segment (policy n) = Some seg.
Proof.
  rewrite list_elem_of_fmap. split.
  - intros ([? n] & -> & ?%elem_of_members). eauto.
  - intros (n & ?). exists (i, n). split; [done|]. by apply elem_of_members.
Qed.

Lemma filter_fst_sorted {A} (P : nat * A → Prop) `{∀ x, Decision (P x)} (l : list (nat * A)) :
  StronglySorted lt l.*1 → StronglySorted lt (filter P l).*1.
Proof.
  induction l as [|x l IH]; [done|]. intros HS. inversion HS as [|?? HS' HF]; subst.
  rewrite filter_cons. case_decide; [|auto]. csimpl. constructor; [auto|].
  rewrite Forall_forall in HF |- *. intros i (y & -> & [_ Hy]%list_elem_of_filter)%list_elem_of_fmap.
  apply HF, list_elem_of_fmap. eauto.
Qed.

Lemma seq_sorted n m : StronglySorted lt (seq n m).
Proof.
  revert n. induction m as [|m IH]; intros n; simpl; constructor; [done|].
  apply Forall_forall. intros x Hx%elem_of_seq. lia.
Qed.

Lemma members_sorted l seg : StronglySorted lt (members_of l seg).*1.
Proof. apply filter_fst_sorted. rewrite enumerate_fst. apply seq_sorted. Qed.

Lemma check_segment_spec l seg :
  match check_segment l seg with
  | Some e => defect l e
  | None =>
      (∀ i j k ni nk, l !! i = Some ni → l !! k = Some nk → i < j < k →
         segment (policy ni) = Some seg → segment (policy nk) = Some seg →
         ∃ nj, l !! j = Some nj ∧ segment (policy nj) = Some seg)
      ∧ ∀ m n, m ∈ l → n ∈ l → segment (policy m) = Some seg → segment (policy n) = Some seg →
          class_rule (policy m) = class_rule (policy n)
  end.
Proof.
  unfold check_segment. pose proof (contiguous_iff _ (members_sorted l seg)) as Hcont.
  destruct (forallb _ _) eqn:Hf; simpl.
  - assert (∀ i j k ni nk, l !! i = Some ni → l !! k = Some nk → i < j < k →
      segment (policy ni) = Some seg → segment (policy nk) = Some seg →
      ∃ nj, l !! j = Some nj ∧ segment (policy nj) = Some seg) as Hc.
    { intros i j k ni nk Hi Hk Hj Hsi Hsk. apply members_idx.
      apply (proj1 Hcont eq_refl i j k); [apply members_idx; eauto..|done]. }
    assert (∀ n, n ∈ l → segment (policy n) = Some seg → ∃ i, (i, n) ∈ members_of l seg) as Hmem.
    { intros n [i Hi]%list_elem_of_lookup Hn. exists i. by apply elem_of_members. }
    destruct (members_of l seg) as [|[i0 first] ms] eqn:Hms.
    { split; [done|]. intros m n Hm _ Hsm. destruct (Hmem m Hm Hsm). set_solver. }
    assert ((i0, first) ∈ members_of l seg) as [H0 Hs0]%elem_of_members by (rewrite Hms; left).
    destruct (existsb _ _) eqn:He.
    + apply existsb_exists in He as ([i n] & Hin & Hne%bool_decide_eq_true).
      apply list_elem_of_In in Hin. rewrite <-Hms in Hin. apply elem_of_members in Hin as [Hi Hs].
      exists n, first. split_and!; [by eapply list_elem_of_lookup_2..|done|done|done].
    + split; [done|].
      assert (∀ n, n ∈ l → segment (policy n) = Some seg →
        class_rule (policy n) = class_rule (policy first)) as Hcl.
      { intros n Hn Hs. destruct (Hmem n Hn Hs) as [i Hi].
        destruct (decide (class_rule (policy n) = class_rule (policy first))) as [|Hne]; [done|].
        assert (existsb (λ '(_, n), bool_decide (class_rule (policy n) ≠ class_rule (policy first)))
          ((i0, first) :: ms) = true) as Ht; [|congruence].
        apply existsb_exists. exists (i, n). split; [by apply list_elem_of_In|].
        by apply bool_decide_eq_true. }
      intros m n Hm Hn Hsm Hsn. by rewrite (Hcl m Hm Hsm), (Hcl n Hn Hsn).
  - destruct (gap_witness _ (members_sorted l seg) Hf) as (i & j & k & Hi & Hk & Hj & Hnj).
    apply members_idx in Hi as (ni & ? & ?), Hk as (nk & Hk & ?).
    assert (is_Some (l !! j)) as [nj ?].
    { apply lookup_lt_is_Some. apply lookup_lt_Some in Hk. lia. }
    exists i, j, k, ni, nj, nk. split_and!; try done; [lia..|].
    intros ?. apply Hnj, members_idx. eauto.
Qed.

Lemma check_segments_spec l segs :
  match check_segments l segs with
  | Some e => defect l e
  | None => ∀ seg, seg ∈ segs → check_segment l seg = None
  end.
Proof.
  induction segs as [|seg segs IH]; simpl; [set_solver|].
  pose proof (check_segment_spec l seg) as Hseg.
  destruct (check_segment l seg) as [e|] eqn:E; [done|].
  destruct (check_segments l segs); [done|]. intros s [->|?]%elem_of_cons; auto.
Qed.

Lemma elem_of_writers l i n :
  (i, n) ∈ writers_of l ↔ l !! i = Some n ∧ writes_lake n = true.
Proof. unfold writers_of. rewrite list_elem_of_filter, elem_of_enumerate. naive_solver. Qed.

Definition ordered (l : list Node) (i j : nat) : Prop := rtc (edge l) i j ∨ rtc (edge l) j i.

Lemma check_writer_spec dag a bs :
  ∃ o, check_writer dag a bs = Some o ∧
    match o with
    | None => ∀ b, b ∈ bs → ordered (nodes dag) a.1 b.1
    | Some e => ∃ b, b ∈ bs ∧ e = UnorderedLakeWriters (task_id a.2) (task_id b.2)
        ∧ ¬ rtc (edge (nodes dag)) a.1 b.1 ∧ ¬ rtc (edge (nodes dag)) b.1 a.1
    end.
Proof.
  induction bs as [|b bs IH]; simpl; [exists None; set_solver|].
  destruct (reaches_spec dag a.1 b.1) as (ab & -> & Hab). simpl.
  assert (∃ ba, (if ab then Some true else reaches dag b.1 a.1) = Some ba
    ∧ (ab || ba = true ↔ ordered (nodes dag) a.1 b.1)) as (ba & -> & Hor).
  { destruct (reaches_spec dag b.1 a.1) as (ba & -> & Hba). unfold ordered.
    destruct ab; eexists; (split; [done|]); naive_solver. }
  simpl. rewrite <-negb_orb. destruct (ab || ba) eqn:E; simpl.
  - destruct IH as (o & -> & Ho). exists o. split; [done|]. destruct o as [e|].
    + destruct Ho as (c & ? & ?). exists c. split; [by right|done].
    + intros c [->|?]%elem_of_cons; [by apply Hor|auto].
  - eexists. split; [done|]. exists b. split; [left|]. split; [done|].
    unfold ordered in Hor. naive_solver.
Qed.

Lemma check_writers_spec dag ws :
  ∃ o, check_writers dag ws = Some o ∧
    match o with
    | None => ∀ i j a b, ws !! i = Some a → ws !! j = Some b → i < j → ordered (nodes dag) a.1 b.1
    | Some e => ∃ a b, a ∈ ws ∧ b ∈ ws ∧ e = UnorderedLakeWriters (task_id a.2) (task_id b.2)
        ∧ ¬ rtc (edge (nodes dag)) a.1 b.1 ∧ ¬ rtc (edge (nodes dag)) b.1 a.1
    end.
Proof.
  induction ws as [|a ws IH]; simpl; [exists None; by split|].
  destruct (check_writer_spec dag a ws) as (o & -> & Ho). simpl. destruct o as [e|].
  { eexists. split; [done|]. destruct Ho as (b & ? & ?). exists a, b.
    split; [left|]. split; [by right|done]. }
  destruct IH as (o & -> & Hws). exists o. split; [done|]. destruct o as [e|].
  - destruct Hws as (x & y & ? & ? & ?). exists x, y. split; [by right|]. split; [by right|done].
  - intros [|i] [|j] x y Hi Hj Hlt; simplify_eq/=; [lia| |lia|].
    + apply Ho. by eapply list_elem_of_lookup_2.
    + eapply (Hws i j); [done|done|lia].
Qed.

Lemma writers_ordered l :
  (∀ i j a b, writers_of l !! i = Some a → writers_of l !! j = Some b → i < j →
     ordered l a.1 b.1) →
  ∀ i j ni nj, l !! i = Some ni → l !! j = Some nj →
    writes_lake ni = true → writes_lake nj = true → ordered l i j.
Proof.
  intros Hw i j ni nj Hi Hj Hwi Hwj.
  assert ((i, ni) ∈ writers_of l) as [p Hp]%list_elem_of_lookup by by apply elem_of_writers.
  assert ((j, nj) ∈ writers_of l) as [q Hq]%list_elem_of_lookup by by apply elem_of_writers.
  destruct (Nat.lt_trichotomy p q) as [Hlt|[->|Hlt]].
  - by apply (Hw p q (i, ni) (j, nj)).
  - rewrite Hp in Hq. simplify_eq. left. constructor.
  - destruct (Hw q p (j, nj) (i, ni)); [done..|by right|by left].
Qed.

(** ** Properties *)

(** A defect is one. *)
Lemma defect_not_well_formed l e : defect l e → ¬ well_formed l.
Proof.
  intros Hd Hwf. destruct Hwf. destruct e; simpl in Hd.
  - done.
  - destruct Hd as (i & j & ni & nj & Hne & Hi & Hj & <- & Heq). apply Hne.
    eapply NoDup_lookup; [exact wf_names0|..]; rewrite list_lookup_fmap; [by rewrite Hi|].
    rewrite Hj. simpl. by rewrite Heq.
  - destruct Hd as (n & ? & _ & ? & Hne). by apply Hne, wf_teardown0.
  - destruct Hd as (n & ? & _ & ? & ?). by eapply wf_escalate0.
  - destruct Hd as (i & j & k & ni & nj & nk & Hj & Hi & Hlj & Hk & Hsi & Hsk & Hne).
    destruct (wf_contiguous0 i j k ni nk _ Hi Hk Hj Hsi Hsk) as (nj' & ? & ?). simplify_eq.
  - destruct Hd as (m & n & ? & ? & ? & ? & Hne). by eapply Hne, wf_class0.
  - destruct Hd as (i & j & ni & nj & Hi & Hj & _ & _ & Hwi & Hwj & Hn1 & Hn2).
    destruct (wf_writers0 i j ni nj Hi Hj Hwi Hwj); done.
Qed.

Lemma assemble_spec sha256 name l :
  ∃ r, assemble sha256 name l = Some r ∧
    match r with
    | Ok dag => well_formed l ∧ dag_name dag = name ∧ nodes dag = l
    | Err e => defect l e ∧ ¬ well_formed l
    end.
Proof.
  assert (∀ e, defect l e → defect l e ∧ ¬ well_formed l) as Hboth.
  { intros e He. split; [done|]. by eapply defect_not_well_formed. }
  unfold assemble. case_decide as Hne; [eexists; split; [done|]; by apply Hboth|].
  pose proof (check_nodes_spec ∅ l) as Hnodes. destruct (check_nodes ∅ l) as [e|].
  { eexists. split; [done|]. apply Hboth. destruct e; try done.
    destruct Hnodes as (l1 & n & l2 & -> & <- & [?|(m & Hm & [i Hi]%list_elem_of_lookup)%list_elem_of_fmap]);
      [set_solver|].
    exists i, (length l1), m, n. pose proof (lookup_lt_Some _ _ _ Hi). split; [lia|].
    split; [by rewrite lookup_app_l|]. split; [by rewrite list_lookup_middle|done]. }
  destruct Hnodes as (HN & _ & Hteardown & Hesc).
  set (segs := set_sorted _). pose proof (check_segments_spec l segs) as Hsegs.
  destruct (check_segments l segs) as [e|]; [eexists; split; [done|]; by apply Hboth|].
  assert (∀ n s, n ∈ l → segment (policy n) = Some s → check_segment l s = None) as Hseg.
  { intros n s Hn Hs. apply Hsegs, elem_of_set_sorted, elem_of_list_to_set, list_elem_of_omap. eauto. }
  destruct (check_writers_spec (mkDag name l "" "") (writers_of l)) as (o & -> & Ho). simpl.
  destruct o as [e|].
  { eexists. split; [done|]. apply Hboth.
    destruct Ho as ([i ni] & [j nj] & Hi%elem_of_writers & Hj%elem_of_writers & -> & ?).
    simpl. exists i, j, ni, nj. naive_solver. }
  eexists. split; [done|]. split; [|done]. split; try done.
  - intros i j k ni nk s Hi Hk Hj Hsi Hsk. pose proof (check_segment_spec l s) as Hspec.
    rewrite (Hseg ni s) in Hspec; [|by eapply list_elem_of_lookup_2|done].
    by apply (proj1 Hspec i j k ni nk).
  - intros m n s Hm Hn Hsm Hsn. pose proof (check_segment_spec l s) as Hspec.
    rewrite (Hseg m s) in Hspec by done. by apply (proj2 Hspec).
  - apply (writers_ordered l). exact Ho.
Qed.

(** C9: assembly is total and exact.  It accepts exactly the graphs with distinct
    task names, no teardown task with inputs, no OOM escalation from a fixed L
    class, contiguous segments of one class, and a path between any two
    lake-writing tasks; a refusal names a defect the graph has. *)
Theorem assemble_correct sha256 name l :
  ∃ r, assemble sha256 name l = Some r ∧
    match r with
    | Ok dag => well_formed l ∧ dag_name dag = name ∧ nodes dag = l
    | Err e => defect l e ∧ ¬ well_formed l
    end.
Proof. apply assemble_spec. Qed.

(** [Dag::reaches] terminates and decides reachability along edges, also on
    graphs with cycles. *)
Theorem reaches_correct dag from to :
  ∃ b, reaches dag from to = Some b ∧ (b = true ↔ rtc (edge (nodes dag)) from to).
Proof. apply reaches_spec. Qed.

(** ** The builder *)

(** One call on a builder. *)
Inductive call :=
| Source (t : TaskDecl)
| Then (t : TaskDecl) (deps : list nat)
| ControlOf (t : TaskDecl) (deps : list nat)
| Epilogue (t : TaskDecl) (after : list nat) (rule : TriggerRule).

Definition builder_call (b : DagBuilder) (c : call) : DagBuilder * nat :=
  match c with
  | Source t => builder_source b t
  | Then t deps => builder_then b t deps
  | ControlOf t deps => builder_control b t deps
  | Epilogue t after rule => builder_epilogue b t after rule
  end.

Definition call_deps (c : call) : list nat :=
  match c with
  | Source _ => []
  | Then _ deps | ControlOf _ deps | Epilogue _ deps _ => deps
  end.

(** A program that only uses handles its own builder has minted. *)
Fixpoint run_calls (b : DagBuilder) (minted : list nat) (cs : list call) : option DagBuilder :=
  match cs with
  | [] => Some b
  | c :: cs =>
      if decide (Forall (λ d, d ∈ minted) (call_deps c))
      then let '(b, id) := builder_call b c in run_calls b (minted ++ [id]) cs
      else None
  end.

Lemma builder_call_push b c :
  ∃ n, builder_call b c = builder_push b n ∧ upstream n = call_deps c.
Proof. destruct c; eexists; done. Qed.

Lemma topological_snoc l n :
  topological l → (∀ d, d ∈ upstream n → d < length l) → topological (l ++ [n]).
Proof.
  intros Hl Hn i j (m & Hm & Hi). destruct (decide (j < length l)).
  - rewrite lookup_app_l in Hm by done. apply Hl. by exists m.
  - rewrite lookup_app_r in Hm by lia.
    apply list_lookup_singleton_Some in Hm as [Hj <-]. specialize (Hn i Hi). lia.
Qed.

Lemma run_calls_topological b minted cs b' :
  topological (builder_nodes b) → (∀ d, d ∈ minted → d < length (builder_nodes b)) →
  run_calls b minted cs = Some b' → topological (builder_nodes b').
Proof.
  revert b minted. induction cs as [|c cs IH]; intros b minted Ht Hm; simpl; [by intros [= <-]|].
  case_decide as Hdeps; [|done].
  destruct (builder_call_push b c) as (n & -> & Hn). unfold builder_push.
  apply IH; simpl.
  - apply topological_snoc; [done|]. rewrite Hn. rewrite Forall_forall in Hdeps. auto.
  - rewrite length_app. simpl. intros d [?%Hm| ->%list_elem_of_singleton]%elem_of_app; lia.
Qed.

(** Registration order is a topological order: whatever calls are made on a
    builder with the handles it minted itself, every edge of the graph points
    to a later node. *)
Theorem builder_topological name cs b :
  run_calls (builder_new name) [] cs = Some b → topological (builder_nodes b).
Proof.
  apply run_calls_topological; [|set_solver]. intros i j (n & Hn & _). done.
Qed.

Lemma topological_acyclic l i j : topological l → tc (edge l) i j → i < j.
Proof. intros Ht. induction 1 as [i j Hij|i j k Hij _ IH]; apply Ht in Hij; lia. Qed.

Module SampleDag.
Definition task (name : string) (inputs : list string) (writes : bool) : TaskDecl :=
  mkTask name 1 inputs (name +:+ "_out") writes policy_default.

Definition finish : TaskDecl :=
  mkTask "finish" 1 [] "finish_out" false
    {| retries := 2; backoff := mkBackoff 30 900; timeout_secs := None; class_rule := FromRun;
       escalate_on_oom := false; segment := None; policy_teardown := true; threads := None |}.

Definition calls : list call :=
  [Source (task "init" [] false); Then (task "ingest" ["init_out"] true) [0];
   Then (task "score" ["ingest_out"] true) [1];
   Epilogue finish [0; 1; 2] AllTerminal].

Definition built : DagBuilder :=
  default (builder_new "") (run_calls (builder_new "sample") [] calls).

Lemma run_built : run_calls (builder_new "sample") [] calls = Some built.
Proof. vm_compute. reflexivity. Qed.

Lemma built_topological : topological (builder_nodes built).
Proof.
  apply (run_calls_topological (builder_new "sample") [] calls); [|set_solver|exact run_built].
  intros i j (n & Hn & _). done.
Qed.

(** A stand-in digest. *)
Definition sha (s : string) : list Z := [Z.of_nat (String.length s)].

Example built_assembles :
  ∃ dag, assemble sha (builder_name built) (builder_nodes built) = Some (Ok dag)
    ∧ reaches dag 0 3 = Some true ∧ reaches dag 2 1 = Some false
    ∧ structural_lines dag !! 1
        = Some "ingest|v1|pod|in:init_out|out:ingest_out|lake:true|rule:all_succeeded|teardown:false|up:0".
Proof. eexists. vm_compute. done. Qed.

Lemma built_well_formed : well_formed (builder_nodes built).
Proof.
  destruct (assemble_spec sha "sample" (builder_nodes built)) as (r & Hr & Hspec).
  destruct r as [dag|e]; [apply Hspec|]. vm_compute in Hr. discriminate Hr.
Qed.
End SampleDag.

Lemma builder_topological_witness : topological (builder_nodes SampleDag.built).
Proof. exact (builder_topological "sample" SampleDag.calls SampleDag.built SampleDag.run_built). Defined.

(** The module states that a cycle is unwritable because handles are minted
    only by the builder.  A handle does not carry its builder: one minted by
    another builder makes a node its own upstream, and the graph assembles. *)
Theorem foreign_handle_cycle :
  let other := (builder_source (builder_new "other") (SampleDag.task "first" [] false)).2 in
  let b := (builder_then (builder_new "main") (SampleDag.task "loop" ["first_out"] true) [other]).1 in
  edge (builder_nodes b) 0 0
  ∧ ∃ dag, builder_build SampleDag.sha b = Some (Ok dag).
Proof.
  split; [|eexists; vm_compute; reflexivity].
  eexists. split; [reflexivity|]. simpl. left.
Qed.
