(* ===== verification/Readiness.v ===== *)
(** * Readiness, propagation and settling

    [er-dag/src/readiness.rs].  [None] is a panic: a state vector of the wrong
    length, or an upstream position outside it. *)

From S2P Require Import Prelude DagPolicy Dag.

(** ** Definitions *)

Inductive TaskState :=
| SNone | Scheduled | Queued | Running | UpForRetry | Restarting | Canceling
| Succeeded | Skipped | Failed | TimedOut | UpstreamFailed | UpstreamSkipped | Canceled.

#[global] Instance TaskState_eq_dec : EqDecision TaskState.
Proof. solve_decision. Defined.

Inductive StateClass := SuccessLike | SkipLike | FailureLike | StopLike | Pending.

#[global] Instance StateClass_eq_dec : EqDecision StateClass.
Proof. solve_decision. Defined.

Definition ALL : list TaskState :=
  [SNone; Scheduled; Queued; Running; UpForRetry; Restarting; Canceling;
   Succeeded; Skipped; Failed; TimedOut; UpstreamFailed; UpstreamSkipped; Canceled].

Definition state_as_str (s : TaskState) : string :=
  match s with
  | SNone => "none" | Scheduled => "scheduled" | Queued => "queued" | Running => "running"
  | UpForRetry => "up_for_retry" | Restarting => "restarting" | Canceling => "canceling"
  | Succeeded => "succeeded" | Skipped => "skipped" | Failed => "failed"
  | TimedOut => "timed_out" | UpstreamFailed => "upstream_failed"
  | UpstreamSkipped => "upstream_skipped" | Canceled => "canceled"
  end.

Definition state_parse (s : string) : option TaskState :=
  find_first (λ t, bool_decide (state_as_str t = s)) ALL.

Definition class (s : TaskState) : StateClass :=
  match s with
  | Succeeded => SuccessLike
  | Skipped | UpstreamSkipped => SkipLike
  | Failed | TimedOut | UpstreamFailed => FailureLike
  | Canceled => StopLike
  | SNone | Scheduled | Queued | Running | UpForRetry | Restarting | Canceling => Pending
  end.

Definition is_terminal (s : TaskState) : bool := bool_decide (class s ≠ Pending).

Inductive Verdict := Fire | PropagateV (s : TaskState) | Wait.

Definition evaluate (rule : TriggerRule) (upstream : list TaskState) : Verdict :=
  if existsb (λ s, negb (is_terminal s)) upstream then Wait
  else
    match rule with
    | AllSucceeded =>
        let non_success := filter (λ c, c ≠ SuccessLike) (class <$> upstream) in
        if bool_decide (non_success = []) then Fire
        else if forallb (λ c, bool_decide (c = SkipLike)) non_success
        then PropagateV UpstreamSkipped
        else if forallb (λ c, bool_decide (c = StopLike)) non_success
        then PropagateV Canceled
        else PropagateV UpstreamFailed
    | AllTerminal => Fire
    | AnyFailed =>
        if existsb (λ s, bool_decide (class s = FailureLike)) upstream
        then Fire else PropagateV UpstreamSkipped
    end.

Inductive PassAction := Schedule | Propagate (s : TaskState).

#[global] Instance PassAction_eq_dec : EqDecision PassAction.
Proof. solve_decision. Defined.

(** The [for (idx, node)] loop of [pass]; it returns [effective] too. *)
Fixpoint pass_loop (effective : list TaskState) (l : list (nat * Node)) :
    option (list TaskState * list (nat * PassAction)) :=
  match l with
  | [] => Some (effective, [])
  | (idx, node) :: l =>
      s ← effective !! idx;
      if decide (s ≠ SNone) then pass_loop effective l
      else
        up ← mapM (λ u, effective !! u) (upstream node);
        match evaluate (trigger_rule node) up with
        | Fire =>
            '(effective, actions) ← pass_loop effective l;
            Some (effective, (idx, Schedule) :: actions)
        | PropagateV state =>
            '(effective, actions) ← pass_loop (<[idx := state]> effective) l;
            Some (effective, (idx, Propagate state) :: actions)
        | Wait => pass_loop effective l
        end
  end.

Definition pass (dag : Dag) (states : list TaskState) : option (list (nat * PassAction)) :=
  if decide (length states = length (nodes dag))
  then snd <$> pass_loop states (enumerate (nodes dag))
  else None.

Inductive SettleVerdict := NotYet | Settled (s : TaskState) | Deadlock (idx : nat).

(** [upstream.iter().all(|u| states[u.index()].is_terminal())]. *)
Fixpoint all_terminal (states : list TaskState) (us : list nat) : option bool :=
  match us with
  | [] => Some true
  | u :: us =>
      s ← states !! u;
      if is_terminal s then all_terminal states us else Some false
  end.

(** The scan of [settle]: [Some None] when every row is terminal. *)
Fixpoint settle_scan (dag : Dag) (states : list TaskState) (l : list (nat * TaskState)) :
    option (option SettleVerdict) :=
  match l with
  | [] => Some None
  | (idx, state) :: l =>
      if is_terminal state then settle_scan dag states l
      else if decide (state = SNone)
      then
        node ← nodes dag !! idx;
        b ← all_terminal states (upstream node);
        Some (Some (if b : bool then Deadlock idx else NotYet))
      else Some (Some NotYet)
  end.

(** A leaf of the graph less its teardown nodes. *)
Definition is_leaf (dag : Dag) (i : nat) : bool :=
  match nodes dag !! i with
  | Some n =>
      negb (teardown n)
      && forallb (λ d, match nodes dag !! d with Some m => teardown m | None => false end)
           (downstream_of dag i)
  | None => false
  end.

Definition leaves (dag : Dag) : list nat :=
  filter (λ i, is_leaf dag i = true) (seq 0 (length (nodes dag))).

Definition settle (dag : Dag) (states : list TaskState) : option SettleVerdict :=
  if decide (length states = length (nodes dag))
  then
    o ← settle_scan dag states (enumerate states);
    match o with
    | Some v => Some v
    | None =>
        live ← mapM (λ i, states !! i) (leaves dag);
        let classes := class <$> live in
        Some (Settled
          (if bool_decide (FailureLike ∈ classes) then Failed
           else if bool_decide (StopLike ∈ classes) then Canceled
           else Succeeded))
    end
  else None.

(** ** States and rules *)

Lemma is_terminal_spec s : is_terminal s = true ↔ class s ≠ Pending.
Proof. unfold is_terminal. apply bool_decide_eq_true. Qed.

(** Terminal states that no row leaves. *)
Definition terminal (s : TaskState) : Prop := class s ≠ Pending.

#[global] Instance terminal_dec s : Decision (terminal s).
Proof. unfold terminal. apply _. Defined.

Lemma existsb_pending l :
  existsb (λ s, negb (is_terminal s)) l = true ↔ ∃ s, s ∈ l ∧ ¬ terminal s.
Proof.
  rewrite existsb_exists. split; intros (s & Hs & Ht); exists s; rewrite list_elem_of_In in *;
    (split; [done|]).
  - apply negb_true_iff, bool_decide_eq_false in Ht. done.
  - apply negb_true_iff, bool_decide_eq_false. done.
Qed.

Lemma forallb_class (c : StateClass) l :
  forallb (λ c', bool_decide (c' = c)) l = true ↔ ∀ c', c' ∈ l → c' = c.
Proof.
  rewrite forallb_forall. split; intros H x Hx.
  - apply (bool_decide_eq_true (x = c)). apply H. by apply list_elem_of_In.
  - apply bool_decide_eq_true, H. by apply list_elem_of_In.
Qed.

(** What the verdict of a rule means; [only c] says that every upstream that is
    not a success is of class [c]. *)
Definition only (c : StateClass) (up : list TaskState) : Prop :=
  ∀ s, s ∈ up → class s = SuccessLike ∨ class s = c.

Definition verdict_spec (rule : TriggerRule) (up : list TaskState) (v : Verdict) : Prop :=
  match v with
  | Wait => ∃ s, s ∈ up ∧ ¬ terminal s
  | Fire => (∀ s, s ∈ up → terminal s) ∧
      match rule with
      | AllSucceeded => ∀ s, s ∈ up → class s = SuccessLike
      | AllTerminal => True
      | AnyFailed => ∃ s, s ∈ up ∧ class s = FailureLike
      end
  | PropagateV t => (∀ s, s ∈ up → terminal s) ∧
      match rule with
      | AllSucceeded =>
          (∃ s, s ∈ up ∧ class s ≠ SuccessLike) ∧
          (only SkipLike up ∧ t = UpstreamSkipped
           ∨ only StopLike up ∧ t = Canceled
           ∨ ¬ only SkipLike up ∧ ¬ only StopLike up ∧ t = UpstreamFailed)
      | AllTerminal => False
      | AnyFailed => (∀ s, s ∈ up → class s ≠ FailureLike) ∧ t = UpstreamSkipped
      end
  end.

Lemma only_filter c up :
  c ≠ SuccessLike →
  (∀ c', c' ∈ filter (λ c, c ≠ SuccessLike) (class <$> up) → c' = c) ↔ only c up.
Proof.
  intros Hc. unfold only. split.
  - intros H s Hs. destruct (decide (class s = SuccessLike)) as [|Hne]; [by left|]. right.
    apply H, list_elem_of_filter. split; [done|]. apply list_elem_of_fmap. eauto.
  - intros H c' [Hne (s & -> & Hs)%list_elem_of_fmap]%list_elem_of_filter.
    by destruct (H s Hs).
Qed.

Lemma evaluate_spec rule up : verdict_spec rule up (evaluate rule up).
Proof.
  unfold evaluate. destruct (existsb _ up) eqn:Hp; [by apply existsb_pending|].
  assert (∀ s, s ∈ up → terminal s) as Ht.
  { intros s Hs. apply dec_stable. intros Hn.
    assert (existsb (λ s, negb (is_terminal s)) up = true); [|congruence].
    apply existsb_pending. eauto. }
  destruct rule.
  - set (ns := filter _ _). case_bool_decide as Hns.
    + split; [done|]. intros s Hs. apply dec_stable. intros Hne.
      assert (class s ∈ ns) as Hin; [|rewrite Hns in Hin; set_solver].
      apply list_elem_of_filter. split; [done|]. apply list_elem_of_fmap. eauto.
    + assert (∃ s, s ∈ up ∧ class s ≠ SuccessLike) as Hex.
      { destruct ns as [|c ns'] eqn:E; [done|].
        assert (c ∈ ns) as [? (s & -> & ?)%list_elem_of_fmap]%list_elem_of_filter
          by (rewrite E; left). eauto. }
      destruct (forallb (λ c, bool_decide (c = SkipLike)) ns) eqn:E1.
      { split; [done|]. split; [done|]. left. split; [|done].
        apply only_filter; [done|]. by apply forallb_class. }
      destruct (forallb (λ c, bool_decide (c = StopLike)) ns) eqn:E2.
      { split; [done|]. split; [done|]. right; left. split; [|done].
        apply only_filter; [done|]. by apply forallb_class. }
      split; [done|]. split; [done|]. right; right. unfold ns in E1, E2.
      rewrite <-not_true_iff_false, forallb_class, only_filter in E1, E2 by done. done.
  - done.
  - clear Hp. destruct (existsb _ up) eqn:Hf; simpl; split; try done.
    + apply existsb_exists in Hf as (s & Hs & Hc%bool_decide_eq_true). exists s.
      by rewrite list_elem_of_In.
    + split; [|done]. intros s Hs Hc.
      assert (existsb (λ s, bool_decide (class s = FailureLike)) up = true); [|congruence].
      apply existsb_exists. exists s. rewrite <-list_elem_of_In. split; [done|].
      by apply bool_decide_eq_true.
Qed.

(** The rows that matter to a rule are the terminal ones. *)
Definition agree (s t : TaskState) : Prop := s = t ∨ (¬ terminal s ∧ ¬ terminal t).

Lemma evaluate_agree rule up up' :
  Forall2 agree up up' → evaluate rule up = evaluate rule up'.
Proof.
  intros HF. destruct (existsb (λ s, negb (is_terminal s)) up) eqn:E.
  - assert (existsb (λ s, negb (is_terminal s)) up' = true) as E'.
    { apply existsb_pending in E as (s & Hs & Hn). apply existsb_pending.
      apply list_elem_of_lookup in Hs as [i Hi].
      destruct (Forall2_lookup_l _ _ _ _ _ HF Hi) as (t & Ht & [->|[_ ?]]);
        exists t; (split; [by eapply list_elem_of_lookup_2|done]). }
    unfold evaluate. by rewrite E, E'.
  - assert (up = up') as ->; [|done].
    assert (∀ s, s ∈ up → terminal s) as Ht.
    { intros s Hs. apply dec_stable. intros Hn.
      assert (existsb (λ s, negb (is_terminal s)) up = true); [|congruence].
      apply existsb_pending. eauto. }
    clear E. induction HF as [|s t up up' [->|[Hn _]] _ IH]; [done|..].
    + f_equal. apply IH. intros; apply Ht; by right.
    + destruct Hn. apply Ht. left.
Qed.

Lemma evaluate_propagate_terminal rule up t : evaluate rule up = PropagateV t → terminal t.
Proof.
  intros E. pose proof (evaluate_spec rule up) as Hs. rewrite E in Hs.
  destruct Hs as [_ Hs]. destruct rule; [|done|by destruct Hs as [_ ->]].
  destruct Hs as [_ [[_ ->]|[[_ ->]|(_ & _ & ->)]]]; done.
Qed.

(** ** The pass *)

(** What a pass decides for a row, given the states of its upstreams. *)
Definition decide_row (n : Node) (up : list TaskState) (s : TaskState) :
    TaskState * option PassAction :=
  if decide (s ≠ SNone) then (s, None)
  else match evaluate (trigger_rule n) up with
       | Fire => (SNone, Some Schedule)
       | PropagateV t => (t, Some (Propagate t))
       | Wait => (SNone, None)
       end.

Definition row_action (dag_nodes : list Node) (states eff : list TaskState) (i : nat) :
    option PassAction :=
  n ← dag_nodes !! i;
  s ← states !! i;
  up ← mapM (λ u, eff !! u) (upstream n);
  (decide_row n up s).2.

(** The states a pass works with at its end: each row is decided from the final
    states of its upstreams. *)
Record pass_result (dag_nodes : list Node) (states eff : list TaskState)
    (acts : list (nat * PassAction)) : Prop := {
  pr_length : length eff = length dag_nodes;
  pr_row : ∀ i n s, dag_nodes !! i = Some n → states !! i = Some s →
    ∃ up, mapM (λ u, eff !! u) (upstream n) = Some up ∧ eff !! i = Some (decide_row n up s).1;
  pr_acts : ∀ i a, (i, a) ∈ acts ↔ row_action dag_nodes states eff i = Some a;
  pr_sorted : StronglySorted lt acts.*1;
}.

Section pass.
Context (l : list Node) (Ht : topological l).

Lemma upstream_lookup i n (eff : list TaskState) :
  l !! i = Some n → length eff = length l → is_Some (mapM (λ u, eff !! u) (upstream n)).
Proof using Ht.
  intros Hn Hlen. rewrite mapM_omap; [eauto|]. intros u Hu.
  assert (u < i) by (apply Ht; by exists n). apply lookup_lt_is_Some.
  apply lookup_lt_Some in Hn. lia.
Qed.

Lemma upstream_lookup_ext i n (eff eff' : list TaskState) :
  l !! i = Some n → (∀ u, u < i → eff !! u = eff' !! u) →
  mapM (λ u, eff !! u) (upstream n) = mapM (λ u, eff' !! u) (upstream n).
Proof using Ht.
  intros Hn Heq. apply Forall_mapM_ext, Forall_forall. intros u Hu.
  apply Heq, Ht. by exists n.
Qed.

(** The loop body is one decision. *)
Lemma pass_loop_cons k n s eff up rest :
  l !! k = Some n → eff !! k = Some s → mapM (λ u, eff !! u) (upstream n) = Some up →
  pass_loop eff ((k, n) :: rest) =
    ('(eff', acts) ← pass_loop (<[k := (decide_row n up s).1]> eff) rest;
     Some (eff', match (decide_row n up s).2 with Some a => (k, a) :: acts | None => acts end)).
Proof using.
  intros Hn Hs Hup. cbn [pass_loop]. rewrite Hs; cbn. unfold decide_row.
  destruct (decide (s ≠ SNone)) as [Hne|Hne].
  { simpl. rewrite list_insert_id by done. destruct (pass_loop eff rest) as [[]|]; done. }
  apply dec_stable in Hne as ->. rewrite Hup; cbn.
  destruct (evaluate (trigger_rule n) up); simpl; rewrite ?list_insert_id by done;
    by destruct (pass_loop _ rest) as [[]|].
Qed.

Lemma drop_enumerate k n : l !! k = Some n → drop k (enumerate l) = (k, n) :: drop (S k) (enumerate l).
Proof using.
  intros Hn. apply drop_S. unfold enumerate. rewrite list_lookup_imap, Hn. done.
Qed.

Lemma pass_loop_spec k eff :
  length eff = length l →
  ∃ eff' acts, pass_loop eff (drop k (enumerate l)) = Some (eff', acts)
    ∧ length eff' = length l
    ∧ (∀ i, i < k → eff' !! i = eff !! i)
    ∧ (∀ i n s, k ≤ i → l !! i = Some n → eff !! i = Some s →
         ∃ up, mapM (λ u, eff' !! u) (upstream n) = Some up ∧ eff' !! i = Some (decide_row n up s).1)
    ∧ (∀ i a, (i, a) ∈ acts ↔ k ≤ i ∧ row_action l eff eff' i = Some a)
    ∧ StronglySorted lt acts.*1.
Proof using Ht.
  remember (length l - k) as m eqn:Hm. revert k eff Hm.
  induction m as [|m IH]; intros k eff Hm Hlen.
  { rewrite drop_ge by (unfold enumerate; rewrite length_imap; lia).
    exists eff, []. simpl. split_and!; [done..| | |constructor].
    - intros i n s Hi Hn%lookup_lt_Some. lia.
    - intros i a. split; [set_solver|]. unfold row_action.
      intros [Hi (n & Hn%lookup_lt_Some & _)%bind_Some]. lia. }
  destruct (proj2 (lookup_lt_is_Some l k)) as [n Hn]; [lia|].
  destruct (proj2 (lookup_lt_is_Some eff k)) as [s Hs]; [lia|].
  destruct (upstream_lookup k n eff Hn Hlen) as [up Hup].
  rewrite (drop_enumerate k n Hn), (pass_loop_cons k n s eff up _ Hn Hs Hup).
  set (d := decide_row n up s). set (eff1 := <[k := d.1]> eff).
  destruct (IH (S k) eff1) as (eff' & acts & -> & Hlen' & Hlow & Hrow & Hacts & HS).
  { lia. } { unfold eff1. by rewrite length_insert. }
  assert (∀ i, i ≠ k → eff1 !! i = eff !! i) as Heff1 by (intros; by apply list_lookup_insert_ne).
  assert (mapM (λ u, eff' !! u) (upstream n) = Some up) as Hup'.
  { rewrite <-Hup. apply (upstream_lookup_ext k); [done|]. intros u Hu.
    rewrite Hlow by lia. apply Heff1. lia. }
  assert (eff' !! k = Some d.1) as Hk.
  { rewrite Hlow by lia. unfold eff1. apply list_lookup_insert_eq. lia. }
  assert (∀ i, S k ≤ i → row_action l eff1 eff' i = row_action l eff eff' i) as Hra.
  { intros i Hi. unfold row_action. destruct (l !! i); [|done]. simpl. by rewrite Heff1 by lia. }
  simpl. exists eff'. eexists. split; [done|]. split; [done|]. split_and!.
  - intros i Hi. rewrite Hlow by lia. apply Heff1. lia.
  - intros i n' s' Hi Hn' Hs'. destruct (decide (i = k)) as [->|Hne].
    + simplify_eq. eauto.
    + apply Hrow; [lia|done|]. by rewrite Heff1.
  - intros i a. assert ((i, a) ∈ acts ↔ S k ≤ i ∧ row_action l eff eff' i = Some a) as Hin.
    { rewrite Hacts. split; intros [? H]; (split; [done|]); by rewrite Hra in *. }
    assert (row_action l eff eff' k = d.2) as Hrk.
    { unfold row_action. rewrite Hn; simpl. rewrite Hs; simpl. by rewrite Hup'. }
    destruct (decide (i = k)) as [->|Hne].
    + rewrite Hrk. destruct d.2 as [a'|]; rewrite ?elem_of_cons, Hin; naive_solver lia.
    + destruct d.2 as [a'|]; rewrite ?elem_of_cons, Hin; naive_solver lia.
  - destruct d.2 as [a|]; [|done]. csimpl. constructor; [done|]. apply Forall_forall.
    intros i ([? a'] & -> & [? _]%Hacts)%list_elem_of_fmap. simpl. lia.
Qed.

(** A pass over a topological graph returns, and each row is decided by the
    final states of its upstreams. *)
Lemma pass_spec dag states :
  nodes dag = l → length states = length l →
  ∃ eff acts, pass dag states = Some acts ∧ pass_result l states eff acts.
Proof using Ht.
  intros Hdag Hlen. unfold pass. rewrite Hdag, decide_True by done.
  destruct (pass_loop_spec 0 states Hlen) as (eff & acts & Hp & Hl & _ & Hrow & Hacts & HS).
  rewrite drop_0 in Hp. rewrite Hp. exists eff, acts. split; [done|]. split; [done| | |done].
  - intros i n s Hn Hs. apply Hrow; [lia|done..].
  - intros i a. rewrite Hacts. naive_solver lia.
Qed.
End pass.

(** ** Recording the verdicts *)

Definition action_state (a : PassAction) : TaskState :=
  match a with Schedule => Scheduled | Propagate s => s end.

(** The rows after [mark_scheduled] and [propagate] are recorded. *)
Definition apply_pass (states : list TaskState) (acts : list (nat * PassAction)) :
    list TaskState :=
  foldl (λ st '(i, a), <[i := action_state a]> st) states acts.

Lemma apply_pass_length states acts : length (apply_pass states acts) = length states.
Proof.
  unfold apply_pass. revert states. induction acts as [|[i a] acts IH]; intros states; [done|].
  simpl. rewrite IH. apply length_insert.
Qed.

Lemma apply_pass_lookup states acts i :
  NoDup acts.*1 → i < length states →
  apply_pass states acts !! i =
    match (list_to_map acts : gmap nat PassAction) !! i with
    | Some a => Some (action_state a)
    | None => states !! i
    end.
Proof.
  revert states. unfold apply_pass.
  induction acts as [|[j a] acts IH]; intros states HN Hi; [done|].
  csimpl in HN. apply NoDup_cons in HN as [Hj HN]. simpl.
  rewrite IH by (rewrite ?length_insert; done). rewrite lookup_insert.
  case_decide as Hij; subst.
  - rewrite (not_elem_of_list_to_map_1 acts i) by done. by rewrite list_lookup_insert_eq.
  - destruct (_ !! i); [done|]. by rewrite list_lookup_insert_ne.
Qed.

Lemma sorted_NoDup (l : list nat) : StronglySorted lt l → NoDup l.
Proof.
  induction 1 as [|x l _ IH HF]; constructor; [|done]. intros Hx.
  rewrite Forall_forall in HF. specialize (HF x Hx). lia.
Qed.

Section recorded.
Context (dag : Dag) (Ht : topological (nodes dag)).
Context (states : list TaskState) (Hlen : length states = length (nodes dag)).
Context (eff : list TaskState) (acts : list (nat * PassAction)).
Context (Hpr : pass_result (nodes dag) states eff acts).

(** The recorded row is the one the pass worked with, or a scheduled one. *)
Lemma recorded_row i n s :
  nodes dag !! i = Some n → states !! i = Some s →
  ∃ up, mapM (λ u, eff !! u) (upstream n) = Some up
    ∧ eff !! i = Some (decide_row n up s).1
    ∧ apply_pass states acts !! i =
        Some (match (decide_row n up s).2 with Some a => action_state a | None => s end).
Proof using Hlen Hpr.
  intros Hn Hs. destruct (pr_row _ _ _ _ Hpr i n s Hn Hs) as (up & Hup & Heff).
  exists up. split; [done|]. split; [done|].
  rewrite apply_pass_lookup; [|apply sorted_NoDup, Hpr|by eapply lookup_lt_Some].
  assert (∀ a, (list_to_map acts : gmap nat PassAction) !! i = Some a ↔
    (decide_row n up s).2 = Some a) as Hla.
  { intros a. rewrite <-elem_of_list_to_map by apply sorted_NoDup, Hpr.
    rewrite (pr_acts _ _ _ _ Hpr). unfold row_action. rewrite Hn; simpl. rewrite Hs; simpl.
    by rewrite Hup. }
  destruct (decide_row n up s).2 as [a|].
  - by rewrite (proj2 (Hla a)).
  - destruct ((list_to_map acts : gmap nat PassAction) !! i) as [a|] ; [|done].
    by specialize (proj1 (Hla a) eq_refl).
Qed.

Lemma recorded_agree i s t :
  eff !! i = Some s → apply_pass states acts !! i = Some t → agree s t.
Proof using Hlen Hpr.
  intros Hs Happ.
  destruct (proj2 (lookup_lt_is_Some (nodes dag) i)) as [n Hn].
  { rewrite <-(pr_length _ _ _ _ Hpr). by eapply lookup_lt_Some. }
  destruct (proj2 (lookup_lt_is_Some states i)) as [s0 Hs0].
  { rewrite Hlen. by eapply lookup_lt_Some. }
  destruct (recorded_row i n s0 Hn Hs0) as (up & _ & Heff & Hrec).
  rewrite Heff in Hs. rewrite Hrec in Happ. simplify_eq. unfold agree, decide_row.
  case_decide; [by left|]. destruct (evaluate _ _) eqn:E; simpl; [|by left|].
  - right. split; intros []; done.
  - subst. by left.
Qed.

Lemma recorded_upstream n up :
  mapM (λ u, eff !! u) (upstream n) = Some up →
  ∃ up', mapM (λ u, apply_pass states acts !! u) (upstream n) = Some up' ∧ Forall2 agree up up'.
Proof using Hlen Hpr.
  revert up. induction (upstream n) as [|u us IH]; intros up Hup.
  { exists []. injection Hup as <-. split; [done|constructor]. }
  apply mapM_Some in Hup. inversion Hup as [|? s ? up1 Hs Hrest]; subst.
  apply mapM_Some in Hrest. destruct (IH up1 Hrest) as (up' & Hup' & HF).
  destruct (proj2 (lookup_lt_is_Some (apply_pass states acts) u)) as [t Htt].
  { rewrite apply_pass_length, Hlen, <-(pr_length _ _ _ _ Hpr). by eapply lookup_lt_Some. }
  exists (t :: up'). split; [|constructor; [by eapply recorded_agree|done]].
  simpl. rewrite Htt. simpl. by rewrite Hup'.
Qed.

(** A row that is still [none] waits on a pending upstream. *)
Lemma recorded_none_waits i n :
  nodes dag !! i = Some n → apply_pass states acts !! i = Some SNone →
  ∃ u t, u ∈ upstream n ∧ apply_pass states acts !! u = Some t ∧ ¬ terminal t.
Proof using Hlen Hpr.
  intros Hn Hi. destruct (proj2 (lookup_lt_is_Some states i)) as [s Hs].
  { rewrite Hlen. by eapply lookup_lt_Some. }
  destruct (recorded_row i n s Hn Hs) as (up & Hup & _ & Hrec). rewrite Hrec in Hi.
  destruct (recorded_upstream n up Hup) as (up' & Hup' & HF).
  unfold decide_row in Hi. case_decide as Hne; simpl in Hi; [by simplify_eq|].
  subst s. destruct (evaluate _ up) as [|t|] eqn:E; simplify_eq/=.
  { apply evaluate_propagate_terminal in E. done. }
  rewrite (evaluate_agree _ _ _ HF) in E.
  pose proof (evaluate_spec (trigger_rule n) up') as Hspec. rewrite E in Hspec.
  destruct Hspec as (t & Htin & Hnt). apply mapM_Some in Hup'.
  apply list_elem_of_lookup in Htin as [j Hj].
  destruct (Forall2_lookup_r _ _ _ _ _ Hup' Hj) as (u & Hu & Hut).
  exists u, t. split; [by eapply list_elem_of_lookup_2|done].
Qed.

(** A row the pass took out of [none] has only terminal upstreams. *)
Lemma recorded_started i n t :
  nodes dag !! i = Some n → states !! i = Some SNone →
  apply_pass states acts !! i = Some t → t ≠ SNone →
  (∀ u, u ∈ upstream n → ∃ s, apply_pass states acts !! u = Some s ∧ terminal s)
  ∧ ∃ up, mapM (λ u, apply_pass states acts !! u) (upstream n) = Some up
      ∧ match evaluate (trigger_rule n) up with
        | Fire => t = Scheduled
        | PropagateV s => t = s
        | Wait => False
        end.
Proof using Hlen Hpr.
  intros Hn Hs Hi Hne. destruct (recorded_row i n SNone Hn Hs) as (up & Hup & _ & Hrec).
  rewrite Hrec in Hi. destruct (recorded_upstream n up Hup) as (up' & Hup' & HF).
  unfold decide_row in Hi. rewrite decide_False in Hi by (intros H; by apply H).
  rewrite (evaluate_agree _ _ _ HF) in Hi.
  pose proof (evaluate_spec (trigger_rule n) up') as Hspec.
  assert (∀ s, s ∈ up' → terminal s) as Hterm.
  { destruct (evaluate _ up'); [by destruct Hspec|by destruct Hspec|by simplify_eq/=]. }
  split.
  - intros u Hu. apply list_elem_of_lookup in Hu as [j Hj].
    apply mapM_Some in Hup'. destruct (Forall2_lookup_l _ _ _ _ _ Hup' Hj) as (s & Hs' & ?).
    exists s. split; [done|]. apply Hterm. by eapply list_elem_of_lookup_2.
  - exists up'. split; [done|]. destruct (evaluate _ up'); by simplify_eq/=.
Qed.

Lemma recorded_kept i s :
  states !! i = Some s → s ≠ SNone → apply_pass states acts !! i = Some s.
Proof using Hlen Hpr.
  intros Hs Hne. destruct (proj2 (lookup_lt_is_Some (nodes dag) i)) as [n Hn].
  { rewrite <-Hlen. by eapply lookup_lt_Some. }
  destruct (recorded_row i n s Hn Hs) as (up & _ & _ & Hrec). rewrite Hrec.
  unfold decide_row. by rewrite decide_True.
Qed.
End recorded.

(** ** Settling *)

Lemma all_terminal_spec states us :
  (∀ u, u ∈ us → is_Some (states !! u)) →
  ∃ b, all_terminal states us = Some b
    ∧ (b = true ↔ ∀ u, u ∈ us → ∃ s, states !! u = Some s ∧ terminal s).
Proof.
  induction us as [|u us IH]; intros Hus; simpl; [exists true; set_solver|].
  destruct (Hus u) as [s Hs]; [left|]. rewrite Hs. simpl.
  destruct (is_terminal s) eqn:E.
  - destruct IH as (b & -> & Hb); [intros; apply Hus; by right|]. exists b. split; [done|].
    rewrite Hb. setoid_rewrite elem_of_cons. apply is_terminal_spec in E. naive_solver.
  - exists false. split; [done|]. split; [done|]. intros H. destruct (H u) as (? & ? & Hterm); [left|].
    simplify_eq. apply is_terminal_spec in Hterm. congruence.
Qed.

Lemma settle_scan_spec dag states l :
  topological (nodes dag) → length states = length (nodes dag) →
  (∀ i s, (i, s) ∈ l → states !! i = Some s) →
  ∃ o, settle_scan dag states l = Some o ∧
    match o with
    | None => ∀ i s, (i, s) ∈ l → terminal s
    | Some NotYet => ∃ i s, states !! i = Some s ∧ ¬ terminal s
    | Some (Deadlock i) => ∃ n, nodes dag !! i = Some n ∧ states !! i = Some SNone
        ∧ ∀ u, u ∈ upstream n → ∃ s, states !! u = Some s ∧ terminal s
    | Some (Settled _) => False
    end.
Proof.
  intros Ht Hlen. induction l as [|[i s] l IH]; intros Hl; simpl; [exists None; set_solver|].
  destruct (is_terminal s) eqn:E.
  { destruct IH as (o & -> & Ho); [intros; apply Hl; by right|]. exists o. split; [done|].
    destruct o as [[]|]; [done..|]. intros j t [[= -> ->]|?]%elem_of_cons; [|eauto].
    by apply is_terminal_spec. }
  assert (states !! i = Some s) as Hs by (apply Hl; left).
  assert (¬ terminal s) as Hns by (intros H%is_terminal_spec; congruence).
  case_decide; [|eexists; split; [done|]; by exists i, s]. subst s.
  destruct (proj2 (lookup_lt_is_Some (nodes dag) i)) as [n Hn].
  { rewrite <-Hlen. by eapply lookup_lt_Some. }
  rewrite Hn. simpl. destruct (all_terminal_spec states (upstream n)) as (b & -> & Hb).
  { intros u Hu. apply lookup_lt_is_Some. rewrite Hlen. pose proof (lookup_lt_Some _ _ _ Hn).
    assert (u < i) by (apply Ht; by exists n). lia. }
  simpl. eexists. split; [done|]. destruct b; [|by exists i, SNone]. exists n.
  split; [done|]. split; [done|]. by apply Hb.
Qed.

(** The outcome of a job, from its leaves. *)
Definition outcome_spec (dag : Dag) (states : list TaskState) (o : TaskState) : Prop :=
  let has c := ∃ i s, i ∈ leaves dag ∧ states !! i = Some s ∧ class s = c in
  (o = Failed ∧ has FailureLike)
  ∨ (o = Canceled ∧ ¬ has FailureLike ∧ has StopLike)
  ∨ (o = Succeeded ∧ ¬ has FailureLike ∧ ¬ has StopLike).

Lemma mapM_class_elem (states live : list TaskState) (ids : list nat) c :
  mapM (λ i, states !! i) ids = Some live →
  c ∈ class <$> live ↔ ∃ i s, i ∈ ids ∧ states !! i = Some s ∧ class s = c.
Proof.
  intros HF%mapM_Some. rewrite list_elem_of_fmap. split.
  - intros (s & -> & [j Hj]%list_elem_of_lookup).
    destruct (Forall2_lookup_r _ _ _ _ _ HF Hj) as (i & Hi & ?). exists i, s.
    split; [by eapply list_elem_of_lookup_2|done].
  - intros (i & s & [j Hj]%list_elem_of_lookup & Hs & <-). exists s. split; [done|].
    destruct (Forall2_lookup_l _ _ _ _ _ HF Hj) as (s' & Hs' & ?). simplify_eq.
    by eapply list_elem_of_lookup_2.
Qed.

Lemma settle_spec dag states :
  topological (nodes dag) → length states = length (nodes dag) →
  ∃ v, settle dag states = Some v ∧
    match v with
    | NotYet => ∃ i s, states !! i = Some s ∧ ¬ terminal s
    | Deadlock i => ∃ n, nodes dag !! i = Some n ∧ states !! i = Some SNone
        ∧ ∀ u, u ∈ upstream n → ∃ s, states !! u = Some s ∧ terminal s
    | Settled o => (∀ i s, states !! i = Some s → terminal s) ∧ outcome_spec dag states o
    end.
Proof.
  intros Ht Hlen. unfold settle. rewrite decide_True by done.
  destruct (settle_scan_spec dag states (enumerate states) Ht Hlen) as (o & -> & Ho).
  { intros i s. apply elem_of_enumerate. }
  simpl. destruct o as [v|]; [exists v; split; [done|]; by destruct v|].
  rewrite mapM_omap.
  2:{ intros i [_ Hi%elem_of_seq]%list_elem_of_filter. apply lookup_lt_is_Some. lia. }
  simpl. eexists. split; [done|]. split.
  { intros i s Hs. eapply Ho. by apply elem_of_enumerate. }
  assert (mapM (λ i, states !! i) (leaves dag) = Some (omap (λ i, states !! i) (leaves dag))) as HM.
  { apply mapM_omap. intros i [_ Hi%elem_of_seq]%list_elem_of_filter.
    apply lookup_lt_is_Some. lia. }
  unfold outcome_spec. setoid_rewrite <-(mapM_class_elem states _ (leaves dag) _ HM).
  repeat case_bool_decide; naive_solver.
Qed.

Lemma evaluate_wait rule up t : t ∈ up → ¬ terminal t → evaluate rule up = Wait.
Proof.
  intros Hin Ht. unfold evaluate.
  by rewrite (proj2 (existsb_pending up)) by eauto.
Qed.

(** ** Properties *)

(** The trigger rules.  A node waits exactly while some upstream is pending;
    then it fires or propagates as the rule's row of the table says: for
    [all_succeeded], fire when all succeeded, [upstream_skipped] when the rest
    were only skipped, [canceled] when they were only stopped, otherwise
    [upstream_failed]. *)
Theorem evaluate_correct rule up v : evaluate rule up = v ↔ verdict_spec rule up v.
Proof.
  split; [intros <-; apply evaluate_spec|]. intros Hv.
  pose proof (evaluate_spec rule up) as He.
  assert (∀ c c', c ≠ c' → c ≠ SuccessLike → c' ≠ SuccessLike →
    (∃ s, s ∈ up ∧ class s ≠ SuccessLike) → only c up → only c' up → False) as Hexcl.
  { intros c c' Hcc Hc Hc' (s & Hs & Hn) H1 H2. destruct (H1 s Hs), (H2 s Hs); congruence. }
  destruct (evaluate rule up) as [|t|], v as [|t'|]; simpl in *; try done;
    try (destruct rule; naive_solver).
  destruct rule; [|naive_solver|naive_solver].
  destruct He as (_ & Hex & He), Hv as (_ & _ & Hv).
  pose proof (Hexcl SkipLike StopLike). pose proof (Hexcl StopLike SkipLike). naive_solver.
Qed.

(** A pass is one consistent sweep.  Over a topological graph it returns, in
    node order, an action exactly for the [none] rows whose rule, evaluated on
    the upstream states the pass itself leaves, fires or propagates: a failure
    deadens a whole chain at once. *)
Theorem pass_correct dag states :
  topological (nodes dag) → length states = length (nodes dag) →
  ∃ eff acts, pass dag states = Some acts ∧ pass_result (nodes dag) states eff acts.
Proof. intros Ht Hlen. by apply pass_spec. Qed.

(** A [none] row with every upstream terminal cannot survive a pass: settling
    after a recorded pass never reports a deadlock, and a second pass finds
    nothing left to do. *)
Theorem pass_no_deadlock dag states acts :
  topological (nodes dag) → pass dag states = Some acts →
  (∀ i, settle dag (apply_pass states acts) ≠ Some (Deadlock i))
  ∧ pass dag (apply_pass states acts) = Some [].
Proof.
  intros Ht Hp. assert (length states = length (nodes dag)) as Hlen.
  { unfold pass in Hp. by case_decide. }
  destruct (pass_spec (nodes dag) Ht dag states eq_refl Hlen) as (eff & acts' & Hp' & Hpr).
  simplify_eq. pose proof (apply_pass_length states acts) as Hlen'. rewrite Hlen in Hlen'.
  assert (∀ i n, nodes dag !! i = Some n → apply_pass states acts !! i = Some SNone →
    ∃ u t, u ∈ upstream n ∧ apply_pass states acts !! u = Some t ∧ ¬ terminal t) as Hwait
    by (intros i n; by eapply recorded_none_waits).
  split.
  - intros i Hd. destruct (settle_spec dag (apply_pass states acts) Ht Hlen') as (v & Hv & Hspec).
    simplify_eq. destruct Hspec as (n & Hn & Hi & Hall).
    destruct (Hwait i n Hn Hi) as (u & t & Hu & Hut & Hnt).
    destruct (Hall u Hu) as (t' & ? & ?). by simplify_eq.
  - destruct (pass_spec (nodes dag) Ht dag _ eq_refl Hlen') as (eff2 & acts2 & Hp2 & Hpr2).
    rewrite Hp2. f_equal. destruct acts2 as [|[i a] acts2]; [done|exfalso].
    assert (row_action (nodes dag) (apply_pass states acts) eff2 i = Some a) as Ha
      by (apply (pr_acts _ _ _ _ Hpr2); left).
    apply bind_Some in Ha as (n & Hn & Ha). apply bind_Some in Ha as (s & Hs & Ha).
    apply bind_Some in Ha as (up & Hup & Ha). unfold decide_row in Ha.
    case_decide as Hne; [done|]. subst s.
    (* the least row with an action has unchanged upstreams *)
    destruct (Hwait i n Hn Hs) as (u & t & Hu & Hut & Hnt).
    assert (u < i) as Hui by (apply Ht; by exists n).
    destruct (proj2 (lookup_lt_is_Some (nodes dag) u)) as [m Hm].
    { apply lookup_lt_Some in Hn. lia. }
    destruct (pr_row _ _ _ _ Hpr2 u m t Hm Hut) as (upu & Hupu & Hequ).
    assert (∀ b, (u, b) ∉ (i, a) :: acts2) as Hnone.
    { intros b [[= -> ->]|Hin]%elem_of_cons; [lia|].
      pose proof (pr_sorted _ _ _ _ Hpr2) as HS. csimpl in HS.
      inversion HS as [|?? _ HF]; subst. rewrite Forall_forall in HF.
      assert (i < u); [|lia]. apply HF, list_elem_of_fmap. by exists (u, b). }
    assert ((decide_row m upu t).2 = None) as Hact.
    { destruct (decide_row m upu t).2 as [b|] eqn:E; [|done]. destruct (Hnone b).
      apply (pr_acts _ _ _ _ Hpr2). unfold row_action. rewrite Hm; simpl.
      rewrite Hut; simpl. rewrite Hupu; simpl. done. }
    assert ((decide_row m upu t).1 = t) as Hstay.
    { revert Hact. unfold decide_row. case_decide; [done|]. subst t.
      destruct (evaluate (trigger_rule m) upu); simpl; congruence. }
    rewrite Hstay in Hequ.
    assert (evaluate (trigger_rule n) up = Wait) as Hw; [|by rewrite Hw in Ha].
    apply (evaluate_wait _ _ t); [|done].
    apply mapM_Some in Hup. apply list_elem_of_lookup in Hu as [j Hj].
    destruct (Forall2_lookup_l _ _ _ _ _ Hup Hj) as (t' & Ht' & ?). simplify_eq.
    by eapply list_elem_of_lookup_2.
Qed.

(** A job is settled exactly when every row is terminal, failed if a
    non-teardown leaf is failure-like, else canceled if one is stop-like, else
    succeeded; the check itself never panics. *)
Theorem settle_correct dag states :
  topological (nodes dag) → length states = length (nodes dag) →
  ∃ v, settle dag states = Some v ∧
    match v with
    | NotYet => ∃ i s, states !! i = Some s ∧ ¬ terminal s
    | Deadlock i => ∃ n, nodes dag !! i = Some n ∧ states !! i = Some SNone
        ∧ ∀ u, u ∈ upstream n → ∃ s, states !! u = Some s ∧ terminal s
    | Settled o => (∀ i s, states !! i = Some s → terminal s) ∧ outcome_spec dag states o
    end.
Proof. apply settle_spec. Qed.

(** The wire names of the states are distinct and parse back. *)
Theorem state_parse_correct s t : state_parse s = Some t ↔ s = state_as_str t.
Proof.
  split; [|intros ->; by destruct t]. unfold state_parse, ALL. simpl.
  repeat (case_bool_decide; [by intros [= <-]|]). done.
Qed.

(** ** Runs *)

(** A job advances by recorded passes and by the work on its started rows,
    which never go back to [none]. *)
Inductive run_step (dag : Dag) : relation (list TaskState) :=
| step_pass states acts :
    pass dag states = Some acts → run_step dag states (apply_pass states acts)
| step_work states i s s' :
    states !! i = Some s → s ≠ SNone → ¬ terminal s → s' ≠ SNone →
    run_step dag states (<[i := s']> states).

Definition fresh_run (dag : Dag) (states : list TaskState) : Prop :=
  rtc (run_step dag) (replicate (length (nodes dag)) SNone) states.

(** A started row has terminal upstreams, and carries a failure on. *)
Record run_inv (dag : Dag) (states : list TaskState) : Prop := {
  rv_length : length states = length (nodes dag);
  rv_started : ∀ i n s, nodes dag !! i = Some n → states !! i = Some s → s ≠ SNone →
    ∀ u, u ∈ upstream n → ∃ t, states !! u = Some t ∧ terminal t;
  rv_failed : ∀ i n s u t, nodes dag !! i = Some n → trigger_rule n = AllSucceeded →
    states !! i = Some s → s ≠ SNone → u ∈ upstream n → states !! u = Some t →
    class t = FailureLike → s = UpstreamFailed;
}.

Lemma evaluate_failed up t :
  t ∈ up → class t = FailureLike → evaluate AllSucceeded up ≠ Wait →
  evaluate AllSucceeded up = PropagateV UpstreamFailed.
Proof.
  intros Hin Hc Hw. pose proof (evaluate_spec AllSucceeded up) as He.
  destruct (evaluate AllSucceeded up) as [|s|]; [|f_equal|done].
  - destruct He as [_ He]. specialize (He t Hin). congruence.
  - destruct He as (_ & _ & [[H _]|[[H _]|(_ & _ & ->)]]); [..|done];
      destruct (H t Hin); congruence.
Qed.

Lemma run_step_inv dag states states' :
  topological (nodes dag) → run_inv dag states → run_step dag states states' →
  run_inv dag states'.
Proof.
  intros Ht [Hlen Hst Hfail] Hstep.
  destruct Hstep as [states acts Hp|states i0 s0 s1 Hi0 Hne0 Hnt0 Hne1].
  - destruct (pass_spec (nodes dag) Ht dag states eq_refl Hlen) as (eff & acts' & Hp' & Hpr).
    simplify_eq.
    assert (∀ u t, states !! u = Some t → terminal t → apply_pass states acts !! u = Some t) as Hkeep.
    { intros u t Hu Htt. eapply recorded_kept; [done..|]. intros ->. by apply Htt. }
    assert (∀ i n s, nodes dag !! i = Some n → apply_pass states acts !! i = Some s → s ≠ SNone →
      states !! i = Some s ∨ states !! i = Some SNone) as Hor.
    { intros i n s Hn Hs Hne. destruct (proj2 (lookup_lt_is_Some states i)) as [s0 Hs0].
      { rewrite Hlen. by eapply lookup_lt_Some. }
      destruct (decide (s0 = SNone)) as [->|Hne0]; [by right|]. left.
      rewrite (recorded_kept dag states Hlen eff acts Hpr i s0 Hs0 Hne0) in Hs. by simplify_eq. }
    split.
    + by rewrite apply_pass_length.
    + intros i n s Hn Hs Hne u Hu. destruct (Hor i n s Hn Hs Hne) as [Hi|Hi].
      * destruct (Hst i n s Hn Hi Hne u Hu) as (t & ? & ?). eauto.
      * by eapply recorded_started.
    + intros i n s u t Hn Hrule Hs Hne Hu Hut Hc. destruct (Hor i n s Hn Hs Hne) as [Hi|Hi].
      * destruct (Hst i n s Hn Hi Hne u Hu) as (t' & Ht' & Htt').
        pose proof (Hkeep u t' Ht' Htt'). simplify_eq. by eapply Hfail.
      * destruct (recorded_started dag states Hlen eff acts Hpr i n s Hn Hi Hs Hne)
          as (_ & up & Hup & Hev). rewrite Hrule in Hev.
        assert (t ∈ up) as Hin.
        { apply mapM_Some in Hup. apply list_elem_of_lookup in Hu as [j Hj].
          destruct (Forall2_lookup_l _ _ _ _ _ Hup Hj) as (t' & ? & ?). simplify_eq.
          by eapply list_elem_of_lookup_2. }
        rewrite (evaluate_failed up t Hin Hc) in Hev; [done|]. intros E. by rewrite E in Hev.
  - assert (∀ i s, <[i0 := s1]> states !! i = Some s → s ≠ SNone →
      ∃ s', states !! i = Some s' ∧ s' ≠ SNone ∧ (s' = s ∨ i = i0)) as Hold.
    { intros i s Hs Hne. destruct (decide (i = i0)) as [->|Hii]; [eauto|].
      rewrite list_lookup_insert_ne in Hs by done. eauto. }
    assert (∀ i u n, nodes dag !! i = Some n → u ∈ upstream n → ∀ s, states !! i = Some s →
      s ≠ SNone → u ≠ i0) as Hnot.
    { intros i u n Hn Hu s Hs Hne ->. destruct (Hst i n s Hn Hs Hne i0 Hu) as (t & ? & ?). by simplify_eq. }
    split.
    + by rewrite length_insert.
    + intros i n s Hn Hs Hne u Hu. destruct (Hold i s Hs Hne) as (s' & Hs' & Hne' & _).
      destruct (Hst i n s' Hn Hs' Hne' u Hu) as (t & ? & ?). exists t.
      rewrite list_lookup_insert_ne; [done|]. intros ->. by eapply (Hnot i u).
    + intros i n s u t Hn Hrule Hs Hne Hu Hut Hc.
      destruct (Hold i s Hs Hne) as (s' & Hs' & Hne' & Hor).
      rewrite list_lookup_insert_ne in Hut by (intros ->; by eapply (Hnot i u)).
      pose proof (Hfail i n s' u t Hn Hrule Hs' Hne' Hu Hut Hc) as ->.
      destruct Hor as [<-| ->]; [done|]. simplify_eq. by destruct Hnt0.
Qed.

Lemma fresh_run_inv dag states :
  topological (nodes dag) → fresh_run dag states → run_inv dag states.
Proof.
  intros Ht. unfold fresh_run. revert states. apply rtc_ind_r.
  - split; [by rewrite length_replicate|..];
      intros i n s; intros; exfalso; repeat match goal with
      | H : replicate _ _ !! _ = Some _ |- _ => apply lookup_replicate in H as [? _]
      end; naive_solver.
  - intros states states' _ Hstep Hinv. by eapply run_step_inv.
Qed.

(** A path of edges from [i] to a started row: [i] is terminal. *)
Lemma ancestor_terminal dag states i j s :
  run_inv dag states → tc (edge (nodes dag)) i j → states !! j = Some s → s ≠ SNone →
  ∃ t, states !! i = Some t ∧ terminal t.
Proof.
  intros Hinv Hij. revert s. induction Hij as [i j (n & Hn & Hu)|i k j (n & Hn & Hu) _ IH]; intros s Hs Hne.
  - by eapply (rv_started _ _ Hinv).
  - destruct (IH s Hs Hne) as (t & Ht & Htt).
    eapply (rv_started _ _ Hinv k n t); [done..| |done]. intros ->. by apply Htt.
Qed.

(** C7: one writer per lake.  In a run of an assembled graph from its start, two
    lake-writing tasks are never under way at once, whatever the workers do. *)
Theorem single_lake_writer dag states i j ni nj si sj :
  topological (nodes dag) → well_formed (nodes dag) → fresh_run dag states →
  nodes dag !! i = Some ni → nodes dag !! j = Some nj →
  writes_lake ni = true → writes_lake nj = true →
  states !! i = Some si → si ≠ SNone → ¬ terminal si →
  states !! j = Some sj → sj ≠ SNone → ¬ terminal sj → i = j.
Proof.
  intros Ht Hwf Hrun Hi Hj Hwi Hwj Hsi Hnei Hti Hsj Hnej Htj.
  pose proof (fresh_run_inv dag states Ht Hrun) as Hinv.
  destruct (wf_writers _ Hwf i j ni nj Hi Hj Hwi Hwj) as [Hij|Hij];
    apply rtc_tc in Hij as [?|Hij]; try done; exfalso.
  - destruct (ancestor_terminal dag states i j sj Hinv Hij Hsj Hnej) as (t & ? & ?). by simplify_eq.
  - destruct (ancestor_terminal dag states j i si Hinv Hij Hsi Hnei) as (t & ? & ?). by simplify_eq.
Qed.

Lemma forallb_false_witness {A} (f : A → bool) l :
  forallb f l = false → ∃ x, x ∈ l ∧ f x = false.
Proof.
  induction l as [|x l IH]; [done|]. simpl. intros [Hx|Hl]%andb_false_iff.
  - exists x. split; [left|done].
  - destruct (IH Hl) as (y & ? & ?). exists y. split; [by right|done].
Qed.

(** No failure is lost.  When a run settles and every non-teardown node has
    the default rule, a failed non-teardown row makes the job's outcome
    [Failed]. *)
Theorem failure_reaches_outcome dag states o i n s :
  topological (nodes dag) →
  (∀ m, m ∈ nodes dag → teardown m = false → trigger_rule m = AllSucceeded) →
  fresh_run dag states → settle dag states = Some (Settled o) →
  nodes dag !! i = Some n → teardown n = false →
  states !! i = Some s → class s = FailureLike → o = Failed.
Proof.
  intros Ht Hrules Hrun Hset Hn Htd Hs Hc.
  pose proof (fresh_run_inv dag states Ht Hrun) as Hinv.
  destruct (settle_spec dag states Ht (rv_length _ _ Hinv)) as (v & Hv & Hspec). simplify_eq.
  destruct Hspec as [Hterm Hout].
  assert (∃ k t, k ∈ leaves dag ∧ states !! k = Some t ∧ class t = FailureLike) as Hleaf.
  { remember (length (nodes dag) - i) as m eqn:Hm. revert i n s Hn Htd Hs Hc Hm.
    induction m as [m IH] using lt_wf_ind. intros i n s Hn Htd Hs Hc ->.
    destruct (is_leaf dag i) eqn:Hl.
    { exists i, s. split; [|done]. apply list_elem_of_filter. split; [done|].
      apply elem_of_seq. apply lookup_lt_Some in Hn. lia. }
    unfold is_leaf in Hl. rewrite Hn, Htd in Hl. simpl in Hl.
    apply forallb_false_witness in Hl as (d & Hd & Hdt).
    apply elem_of_downstream in Hd. pose proof (Ht i d Hd) as Hlt.
    destruct Hd as (md & Hmd & Hu). rewrite Hmd in Hdt.
    destruct (proj2 (lookup_lt_is_Some states d)) as [sd Hsd].
    { rewrite (rv_length _ _ Hinv). by eapply lookup_lt_Some. }
    assert (sd = UpstreamFailed) as ->.
    { eapply (rv_failed _ _ Hinv d md sd i s); try done.
      - apply Hrules; [by eapply list_elem_of_lookup_2|done].
      - intros ->. by destruct (Hterm d SNone Hsd). }
    apply (IH (length (nodes dag) - d)) with (i := d) (n := md) (s := UpstreamFailed); try done.
    apply lookup_lt_Some in Hmd. lia. }
  destruct Hout as [[? _]|[(_ & Hno & _)|(_ & Hno & _)]]; [done|by destruct Hno..].
Qed.

(** C37: a job cannot get stuck: when a pass has nothing to do and no row is
    under way, every row is terminal. *)
Theorem run_progress dag states :
  topological (nodes dag) → pass dag states = Some [] →
  (∀ i s, states !! i = Some s → s = SNone ∨ terminal s) →
  ∀ i s, states !! i = Some s → terminal s.
Proof.
  intros Ht Hp Hidle. assert (length states = length (nodes dag)) as Hlen.
  { unfold pass in Hp. by case_decide. }
  destruct (pass_spec (nodes dag) Ht dag states eq_refl Hlen) as (eff & acts & Hp' & Hpr).
  simplify_eq. intros i. induction i as [i IH] using lt_wf_ind. intros s Hs.
  destruct (Hidle i s Hs) as [->|?]; [|done].
  destruct (proj2 (lookup_lt_is_Some (nodes dag) i)) as [n Hn].
  { rewrite <-Hlen. by eapply lookup_lt_Some. }
  destruct (recorded_none_waits dag states Hlen eff [] Hpr i n Hn Hs) as (u & t & Hu & Hut & Hnt).
  destruct Hnt. apply (IH u); [apply Ht; by exists n|done].
Qed.

(** ** A run *)

Lemma step_pass_eq dag states acts states' :
  pass dag states = Some acts → apply_pass states acts = states' → run_step dag states states'.
Proof. intros ? <-. by constructor. Qed.

Lemma step_work_eq dag states i s s' states' :
  states !! i = Some s → s ≠ SNone → is_terminal s = false → s' ≠ SNone →
  <[i := s']> states = states' → run_step dag states states'.
Proof.
  intros ? ? Hs ? <-. econstructor; [done..| |done].
  intros ?%is_terminal_spec. congruence.
Qed.

Module SampleRows.
Definition dag : Dag := mkDag "sample" (builder_nodes SampleDag.built) "" "".

Lemma dag_topological : topological (nodes dag).
Proof. exact SampleDag.built_topological. Qed.

(** [ingest] fails under way; the pass deadens [score] and schedules [finish]. *)
Definition failed : list TaskState := [Succeeded; Failed; SNone; SNone].
Definition swept : list TaskState := [Succeeded; Failed; UpstreamFailed; Scheduled].
Definition over : list TaskState := [Succeeded; Failed; UpstreamFailed; Succeeded].

Example failed_pass :
  pass dag failed = Some [(2, Propagate UpstreamFailed); (3, Schedule)]
  ∧ apply_pass failed [(2, Propagate UpstreamFailed); (3, Schedule)] = swept
  ∧ settle dag swept = Some NotYet ∧ settle dag over = Some (Settled Failed).
Proof. vm_compute. done. Qed.

Lemma run_failed : fresh_run dag failed.
Proof.
  eapply (rtc_l _ _ [Scheduled; SNone; SNone; SNone]).
  { by apply (step_pass_eq _ _ [(0, Schedule)]); vm_compute. }
  eapply (rtc_l _ _ [Succeeded; SNone; SNone; SNone]).
  { by apply (step_work_eq _ _ 0 Scheduled Succeeded). }
  eapply (rtc_l _ _ [Succeeded; Scheduled; SNone; SNone]).
  { by apply (step_pass_eq _ _ [(1, Schedule)]); vm_compute. }
  eapply (rtc_l _ _ failed); [|constructor].
  by apply (step_work_eq _ _ 1 Scheduled Failed).
Qed.

Lemma run_over : fresh_run dag over.
Proof.
  unfold fresh_run. etrans; [exact run_failed|].
  eapply (rtc_l _ _ swept).
  { by apply (step_pass_eq _ _ [(2, Propagate UpstreamFailed); (3, Schedule)]); vm_compute. }
  eapply (rtc_l _ _ over); [|constructor].
  by apply (step_work_eq _ _ 3 Scheduled Succeeded).
Qed.
End SampleRows.

Lemma pass_correct_witness :
  ∃ eff acts, pass SampleRows.dag SampleRows.failed = Some acts
    ∧ pass_result (nodes SampleRows.dag) SampleRows.failed eff acts.
Proof. apply pass_correct; [exact SampleRows.dag_topological|reflexivity]. Defined.

Lemma pass_no_deadlock_witness :
  pass SampleRows.dag SampleRows.swept = Some [].
Proof.
  apply (pass_no_deadlock SampleRows.dag SampleRows.failed
    [(2, Propagate UpstreamFailed); (3, Schedule)] SampleRows.dag_topological).
  vm_compute. reflexivity.
Defined.

Lemma settle_correct_witness :
  ∃ v, settle SampleRows.dag SampleRows.over = Some v ∧
    match v with
    | NotYet => ∃ i s, SampleRows.over !! i = Some s ∧ ¬ terminal s
    | Deadlock i => ∃ n, nodes SampleRows.dag !! i = Some n ∧ SampleRows.over !! i = Some SNone
        ∧ ∀ u, u ∈ upstream n → ∃ s, SampleRows.over !! u = Some s ∧ terminal s
    | Settled o => (∀ i s, SampleRows.over !! i = Some s → terminal s)
        ∧ outcome_spec SampleRows.dag SampleRows.over o
    end.
Proof. apply settle_correct; [exact SampleRows.dag_topological|reflexivity]. Defined.

Lemma single_lake_writer_witness :
  let states := [Succeeded; Scheduled; SNone; SNone] in
  fresh_run SampleRows.dag states ∧ ∀ j nj sj,
    nodes SampleRows.dag !! j = Some nj → writes_lake nj = true →
    states !! j = Some sj → sj ≠ SNone → ¬ terminal sj → 1 = j.
Proof.
  set (states := [Succeeded; Scheduled; SNone; SNone]). cbv zeta.
  assert (fresh_run SampleRows.dag states) as Hrun.
  { eapply (rtc_l _ _ [Scheduled; SNone; SNone; SNone]).
    { by apply (step_pass_eq _ _ [(0, Schedule)]); vm_compute. }
    eapply (rtc_l _ _ [Succeeded; SNone; SNone; SNone]).
    { by apply (step_work_eq _ _ 0 Scheduled Succeeded). }
    eapply (rtc_l _ _ states); [|constructor].
    by apply (step_pass_eq _ _ [(1, Schedule)]); vm_compute. }
  split; [exact Hrun|]. intros j nj sj Hj Hw Hs Hne Ht.
  eapply (single_lake_writer SampleRows.dag states 1 j _ nj Scheduled sj SampleRows.dag_topological
    SampleDag.built_well_formed Hrun);
    [reflexivity|exact Hj|reflexivity|exact Hw|reflexivity|done| |exact Hs|exact Hne|exact Ht].
  intros H. by apply H.
Defined.

Lemma failure_reaches_outcome_witness :
  ∃ o, settle SampleRows.dag SampleRows.over = Some (Settled o) ∧ o = Failed.
Proof.
  assert (∃ o, settle SampleRows.dag SampleRows.over = Some (Settled o)) as [o Ho].
  { eexists. vm_compute. reflexivity. }
  exists o. split; [exact Ho|].
  eapply (failure_reaches_outcome SampleRows.dag SampleRows.over o 1 _ Failed
    SampleRows.dag_topological); [|exact SampleRows.run_over|exact Ho|reflexivity..].
  apply (proj1 (Forall_forall (λ m, teardown m = false → trigger_rule m = AllSucceeded) _)).
  vm_compute. repeat constructor; done.
Defined.

Lemma run_progress_witness :
  pass SampleRows.dag SampleRows.over = Some []
  ∧ (∀ i s, SampleRows.over !! i = Some s → terminal s).
Proof.
  split; [vm_compute; reflexivity|].
  apply (run_progress SampleRows.dag SampleRows.over SampleRows.dag_topological).
  - vm_compute. reflexivity.
  - intros i s Hs. apply list_elem_of_lookup_2 in Hs. revert s Hs.
    apply Forall_forall, (bool_decide_unpack _). vm_compute. done.
Defined.
