(* ===== verification/Resume.v ===== *)
(** * The clear closure

    [er-dag/src/resume.rs].  Both work lists are stacks, top first; a [usize]
    set iterates in ascending order, so popping from its end starts at the
    largest.  [None] is an index out of range or the fuel running out. *)

From S2P Require Import Prelude DagPolicy Dag.

(** ** Definitions *)

Inductive ReferenceExistence := Present | Missing.

#[global] Instance ReferenceExistence_eq_dec : EqDecision ReferenceExistence.
Proof. solve_decision. Defined.

Record ClearPlan := mkClearPlan {
  must_run : gset nat;
  demanded_upstream : gset nat;
}.

(** [set.iter().copied().collect()] as a stack. *)
Definition stack_of (X : gset nat) : list nat := reverse (merge_sort le (elements X)).

(** [for d in ...: if must_run.insert(d) { frontier.push(d) }]. *)
Fixpoint down_scan (ds : list nat) (must_run : gset nat) (frontier : list nat) :
    gset nat * list nat :=
  match ds with
  | [] => (must_run, frontier)
  | d :: ds =>
      if decide (d ∈ must_run) then down_scan ds must_run frontier
      else down_scan ds ({[d]} ∪ must_run) (d :: frontier)
  end.

Fixpoint down_loop (fuel : nat) (dag : Dag) (must_run : gset nat) (frontier : list nat) :
    option (gset nat) :=
  match frontier with
  | [] => Some must_run
  | i :: frontier =>
      match fuel with
      | 0 => None
      | S fuel =>
          let '(must_run, frontier) := down_scan (downstream_of dag i) must_run frontier in
          down_loop fuel dag must_run frontier
      end
  end.

(** The upward scan over one node's upstreams. *)
Fixpoint up_scan (probe : nat → ReferenceExistence) (us : list nat)
    (must_run demanded : gset nat) (frontier : list nat) : gset nat * gset nat * list nat :=
  match us with
  | [] => (must_run, demanded, frontier)
  | u :: us =>
      if decide (u ∈ must_run) then up_scan probe us must_run demanded frontier
      else if decide (probe u = Missing)
      then up_scan probe us ({[u]} ∪ must_run) ({[u]} ∪ demanded) (u :: frontier)
      else up_scan probe us must_run demanded frontier
  end.

Fixpoint up_loop (fuel : nat) (dag : Dag) (probe : nat → ReferenceExistence)
    (must_run demanded : gset nat) (frontier : list nat) : option ClearPlan :=
  match frontier with
  | [] => Some (mkClearPlan must_run demanded)
  | i :: frontier =>
      match fuel with
      | 0 => None
      | S fuel =>
          node ← nodes dag !! i;
          let '(must_run, demanded, frontier) :=
            up_scan probe (upstream node) must_run demanded frontier in
          up_loop fuel dag probe must_run demanded frontier
      end
  end.

(** A node enters each work list once. *)
Definition clear_closure (dag : Dag) (seeds : list nat) (include_downstream : bool)
    (probe : nat → ReferenceExistence) : option ClearPlan :=
  let X : gset nat := list_to_set seeds in
  must_run ←
    (if include_downstream
     then down_loop (size X + length (nodes dag)) dag X (stack_of X)
     else Some X);
  up_loop (size must_run + length (nodes dag)) dag probe must_run ∅ (stack_of must_run).

(** ** Specification *)

(** The operator's selection: the seeds, with all they reach. *)
Definition selected (l : list Node) (seeds : list nat) (include_downstream : bool) (x : nat) : Prop :=
  if include_downstream then ∃ s, s ∈ seeds ∧ rtc (edge l) s x else x ∈ seeds.

(** What has to run: the selection, and every upstream a running node demands
    whose output is gone. *)
Inductive must (l : list Node) (sel : nat → Prop) (probe : nat → ReferenceExistence) : nat → Prop :=
| must_selected x : sel x → must l sel probe x
| must_demanded u i : must l sel probe i → edge l u i → probe u = Missing → must l sel probe u.

(** ** Work lists *)

Lemma elem_of_stack_of X x : x ∈ stack_of X ↔ x ∈ X.
Proof.
  unfold stack_of. by rewrite elem_of_reverse, merge_sort_Permutation, elem_of_elements.
Qed.

Lemma length_stack_of X : length (stack_of X) = size X.
Proof. unfold stack_of. rewrite length_reverse, merge_sort_Permutation. done. Qed.

Lemma size_below (X : gset nat) n : (∀ x, x ∈ X → x < n) → size X ≤ n.
Proof.
  intros HX. rewrite <-(size_set_seq (C:=gset nat) 0 n). apply subseteq_size.
  intros x Hx. apply elem_of_set_seq. specialize (HX x Hx). lia.
Qed.

Lemma down_scan_spec ds X frontier :
  ∃ X' frontier', down_scan ds X frontier = (X', frontier')
    ∧ X' = X ∪ list_to_set ds
    ∧ (∀ x, x ∈ frontier' ↔ x ∈ frontier ∨ (x ∈ ds ∧ x ∉ X))
    ∧ length frontier' + size X = length frontier + size X'.
Proof.
  revert X frontier. induction ds as [|d ds IH]; intros X frontier; simpl.
  { eexists _, _. split; [done|]. split_and!; set_solver. }
  destruct (decide (d ∈ X)) as [Hd|Hd].
  - destruct (IH X frontier) as (X' & f' & -> & -> & Hf & Hlen).
    eexists _, _. split; [done|]. split_and!; [set_solver| |done].
    intros x. rewrite Hf. set_solver.
  - destruct (IH ({[d]} ∪ X) (d :: frontier)) as (X' & f' & -> & -> & Hf & Hlen).
    eexists _, _. split; [done|]. split_and!; [set_solver| |].
    + intros x. rewrite Hf. destruct (decide (x = d)); set_solver.
    + rewrite size_union in Hlen by set_solver. rewrite size_singleton in Hlen. simpl in Hlen. lia.
Qed.

(** The upward scan is a downward scan over the missing upstreams. *)
Lemma up_scan_spec probe us X D frontier :
  ∃ X' D' frontier', up_scan probe us X D frontier = (X', D', frontier')
    ∧ (X', frontier') = down_scan (filter (λ u, probe u = Missing) us) X frontier
    ∧ (∀ x, x ∈ D' ↔ x ∈ D ∨ (x ∈ X' ∧ x ∉ X)).
Proof.
  revert X D frontier. induction us as [|u us IH]; intros X D frontier; simpl.
  { eexists _, _, _. split; [done|]. split; [done|]. set_solver. }
  rewrite filter_cons. destruct (decide (u ∈ X)) as [Hu|Hu].
  - destruct (IH X D frontier) as (X' & D' & f' & -> & Heq & HD).
    eexists _, _, _. split; [done|]. split; [|done].
    case_decide; [|done]. cbn [down_scan]. by rewrite decide_True.
  - case_decide as Hp.
    + destruct (IH ({[u]} ∪ X) ({[u]} ∪ D) (u :: frontier)) as (X' & D' & f' & -> & Heq & HD).
      eexists _, _, _. split; [done|]. cbn [down_scan]. rewrite decide_False by done.
      split; [done|]. intros x. rewrite HD.
      destruct (down_scan_spec (filter (λ u, probe u = Missing) us) ({[u]} ∪ X) (u :: frontier))
        as (? & ? & Heq' & -> & _). rewrite Heq' in Heq. simplify_eq.
      destruct (decide (x = u)); set_solver.
    + destruct (IH X D frontier) as (X' & D' & f' & -> & Heq & HD). eexists _, _, _. done.
Qed.

(** ** The closures *)

(** [X] closes [A] under [R] once nothing is left on the stack. *)
Record closing (R : relation nat) (A : nat → Prop) (n : nat) (X : gset nat) (frontier : list nat) :
    Prop := {
  cl_start : ∀ x, A x → x ∈ X;
  cl_sound : ∀ x, x ∈ X → ∃ a, A a ∧ rtc R a x;
  cl_frontier : ∀ x, x ∈ frontier → x ∈ X;
  cl_expanded : ∀ x y, x ∈ X → R x y → x ∈ frontier ∨ y ∈ X;
  cl_bound : ∀ x, x ∈ X → x < n;
}.

Lemma closing_step R A n X frontier i ds X' frontier' :
  closing R A n X (i :: frontier) →
  (∀ y, y ∈ ds ↔ R i y) → (∀ y, y ∈ ds → y < n) →
  X' = X ∪ list_to_set ds →
  (∀ x, x ∈ frontier' ↔ x ∈ frontier ∨ (x ∈ ds ∧ x ∉ X)) →
  closing R A n X' frontier'.
Proof.
  intros [Hst Hso Hfr Hex Hb] Hds Hbd -> Hf. split.
  - set_solver.
  - intros x [Hx|Hx%elem_of_list_to_set]%elem_of_union; [auto|].
    destruct (Hso i) as (a & ? & ?); [apply Hfr; left|]. exists a. split; [done|].
    eapply rtc_r; [done|]. by apply Hds.
  - intros x [Hx|[Hx _]]%Hf; [|set_solver]. apply elem_of_union_l, Hfr. by right.
  - intros x y Hx Hxy. destruct (decide (x = i)) as [->|Hxi].
    { right. apply elem_of_union_r, elem_of_list_to_set. by apply Hds. }
    destruct (decide (x ∈ X)) as [HxX|HxX].
    + destruct (Hex x y HxX Hxy) as [[->|Hin]%elem_of_cons|?]; [done| |set_solver].
      left. apply Hf. by left.
    + left. apply Hf. right. set_solver.
  - intros x [Hx|Hx%elem_of_list_to_set]%elem_of_union; auto.
Qed.

Lemma closing_done R A n X x :
  closing R A n X [] → x ∈ X ↔ ∃ a, A a ∧ rtc R a x.
Proof.
  intros [Hst Hso _ Hex _]. split; [apply Hso|]. intros (a & Ha & Hax).
  apply Hst in Ha. induction Hax as [|a b x Hab _ IH]; [done|]. apply IH.
  destruct (Hex a b Ha Hab); [set_solver|done].
Qed.

Lemma closing_init R (A : nat → Prop) n (X : gset nat) :
  (∀ x, x ∈ X ↔ A x) → (∀ x, A x → x < n) → closing R A n X (stack_of X).
Proof.
  intros HX Hn. split.
  - intros x. by rewrite HX.
  - intros x Hx%HX. exists x. split; [done|constructor].
  - intros x. by rewrite elem_of_stack_of.
  - intros x y Hx _. left. by apply elem_of_stack_of.
  - intros x Hx%HX. auto.
Qed.

Lemma down_loop_spec fuel dag A X frontier :
  closing (edge (nodes dag)) A (length (nodes dag)) X frontier →
  length frontier + length (nodes dag) ≤ fuel + size X →
  ∃ X', down_loop fuel dag X frontier = Some X'
    ∧ ∀ x, x ∈ X' ↔ ∃ a, A a ∧ rtc (edge (nodes dag)) a x.
Proof.
  revert X frontier. induction fuel as [|fuel IH]; intros X frontier Hc Hfuel;
    (destruct frontier as [|i frontier]; simpl;
     [exists X; split; [done|]; intros x; by eapply closing_done|]).
  { pose proof (size_below X _ (cl_bound _ _ _ _ _ Hc)). simpl in Hfuel. lia. }
  destruct (down_scan_spec (downstream_of dag i) X frontier) as (X' & f' & -> & HX & Hf & Hlen).
  apply IH; [|simpl in Hfuel; lia].
  eapply closing_step; [done| | |done|done].
  - intros y. apply elem_of_downstream.
  - intros y Hy%elem_of_downstream. by eapply edge_lt.
Qed.

(** [u] is demanded by [i]. *)
Definition demands (l : list Node) (probe : nat → ReferenceExistence) (i u : nat) : Prop :=
  edge l u i ∧ probe u = Missing.

Lemma up_loop_spec fuel dag probe A X D frontier :
  topological (nodes dag) →
  closing (demands (nodes dag) probe) A (length (nodes dag)) X frontier →
  (∀ x, x ∈ D ↔ x ∈ X ∧ ¬ A x) →
  length frontier + length (nodes dag) ≤ fuel + size X →
  ∃ plan, up_loop fuel dag probe X D frontier = Some plan
    ∧ (∀ x, x ∈ must_run plan ↔ ∃ a, A a ∧ rtc (demands (nodes dag) probe) a x)
    ∧ ∀ x, x ∈ demanded_upstream plan ↔ x ∈ must_run plan ∧ ¬ A x.
Proof.
  intros Ht. revert X D frontier.
  induction fuel as [|fuel IH]; intros X D frontier Hc HD Hfuel;
    (destruct frontier as [|i frontier]; simpl;
     [eexists; split; [done|]; split; [intros x; by eapply closing_done|exact HD]|]).
  { pose proof (size_below X _ (cl_bound _ _ _ _ _ Hc)). simpl in Hfuel. lia. }
  assert (i < length (nodes dag)) as Hi.
  { apply (cl_bound _ _ _ _ _ Hc), (cl_frontier _ _ _ _ _ Hc). left. }
  destruct (proj2 (lookup_lt_is_Some (nodes dag) i) Hi) as [n Hn]. rewrite Hn. simpl.
  destruct (up_scan_spec probe (upstream n) X D frontier) as (X' & D' & f' & -> & Heq & HD').
  destruct (down_scan_spec (filter (λ u, probe u = Missing) (upstream n)) X frontier)
    as (X'' & f'' & Heq' & HX & Hf & Hlen). rewrite Heq' in Heq. injection Heq as -> ->.
  assert (∀ y, y ∈ filter (λ u, probe u = Missing) (upstream n) ↔ demands (nodes dag) probe i y) as Hds.
  { intros y. rewrite list_elem_of_filter. unfold demands, edge. naive_solver. }
  apply IH; [| |simpl in Hfuel; lia].
  - eapply closing_step; [done|exact Hds| |done|done].
    intros y [Hy _]%Hds. apply Ht in Hy. lia.
  - intros x. rewrite HD', HD. subst X''.
    pose proof (cl_start _ _ _ _ _ Hc x) as Hstart.
    destruct (decide (x ∈ X)); set_solver.
Qed.

Lemma must_rtc l sel probe x :
  must l sel probe x ↔ ∃ a, sel a ∧ rtc (demands l probe) a x.
Proof.
  split.
  - induction 1 as [x Hx|u i _ (a & Ha & Hai) Hui Hp]; [exists x; split; [done|constructor]|].
    exists a. split; [done|]. eapply rtc_r; [done|]. by split.
  - intros (a & Ha & Hax). revert Hax. apply rtc_ind_r; [by constructor|].
    intros y z _ [Hyz Hp] Hy. by eapply must_demanded.
Qed.

(** ** Properties *)

Lemma clear_closure_spec dag seeds include_downstream probe :
  topological (nodes dag) → (∀ s, s ∈ seeds → s < length (nodes dag)) →
  let sel := selected (nodes dag) seeds include_downstream in
  ∃ plan, clear_closure dag seeds include_downstream probe = Some plan
    ∧ (∀ x, x ∈ must_run plan ↔ must (nodes dag) sel probe x)
    ∧ (∀ x, x ∈ demanded_upstream plan ↔ must (nodes dag) sel probe x ∧ ¬ sel x)
    ∧ ∀ i u, i ∈ must_run plan → edge (nodes dag) u i → u ∈ must_run plan ∨ probe u = Present.
Proof.
  intros Ht Hseeds sel. unfold clear_closure.
  assert (∃ X : gset nat, (if include_downstream
    then down_loop (size (list_to_set seeds : gset nat) + length (nodes dag)) dag
           (list_to_set seeds) (stack_of (list_to_set seeds))
    else Some (list_to_set seeds)) = Some X ∧ ∀ x, x ∈ X ↔ sel x) as (X & -> & HX).
  { unfold sel, selected. destruct include_downstream.
    - apply (down_loop_spec _ _ (λ s, s ∈ seeds)); [|rewrite length_stack_of; lia].
      apply closing_init; [|done]. intros x. apply elem_of_list_to_set.
    - eexists. split; [done|]. intros x. apply elem_of_list_to_set. }
  assert (∀ x, sel x → x < length (nodes dag)) as Hbound.
  { unfold sel, selected. destruct include_downstream; [|done].
    intros x (s & Hs & [->|(y & _ & Hyx)]%rtc_inv_r); [auto|by eapply edge_lt]. }
  simpl. destruct (up_loop_spec (size X + length (nodes dag)) dag probe sel X ∅ (stack_of X))
    as (plan & -> & Hmust & Hdem); [done|by apply closing_init|set_solver|rewrite length_stack_of; lia|].
  exists plan. split; [done|].
  assert (∀ x, x ∈ must_run plan ↔ must (nodes dag) sel probe x) as Hm
    by (intros x; by rewrite Hmust, must_rtc).
  split; [done|]. split; [intros x; by rewrite Hdem, Hm|].
  intros i u Hi%Hm Hui. destruct (probe u) eqn:Hp; [by right|left].
  apply Hm. by eapply must_demanded.
Qed.

(** The clear closure is exact.  With seeds in the graph it returns; the
    must-run set is the least one that holds the selection (the seeds, with
    all they reach when downstream is included) and every upstream of a
    must-run node whose output is gone; the demanded set is what lies outside
    the selection; so every input of a node that re-runs is re-made or still
    present. *)
Theorem clear_closure_correct dag seeds include_downstream probe :
  topological (nodes dag) → (∀ s, s ∈ seeds → s < length (nodes dag)) →
  let sel := selected (nodes dag) seeds include_downstream in
  ∃ plan, clear_closure dag seeds include_downstream probe = Some plan
    ∧ (∀ x, x ∈ must_run plan ↔ must (nodes dag) sel probe x)
    ∧ (∀ x, x ∈ demanded_upstream plan ↔ must (nodes dag) sel probe x ∧ ¬ sel x)
    ∧ ∀ i u, i ∈ must_run plan → edge (nodes dag) u i → u ∈ must_run plan ∨ probe u = Present.
Proof. apply clear_closure_spec. Qed.

Lemma clear_closure_correct_witness :
  let dag := mkDag "sample" (builder_nodes SampleDag.built) "" "" in
  let probe u := if decide (u = 0) then Missing else Present in
  ∃ plan, clear_closure dag [1] true probe = Some plan ∧ 0 ∈ demanded_upstream plan.
Proof.
  intros dag probe.
  destruct (clear_closure_correct dag [1] true probe) as (plan & Hplan & _ & _ & _).
  - exact SampleDag.built_topological.
  - intros s ->%list_elem_of_singleton. vm_compute. lia.
  - exists plan. split; [exact Hplan|]. vm_compute in Hplan. injection Hplan as <-.
    apply (bool_decide_unpack _). vm_compute. exact I.
Defined.
