(* ===== verification/TaskRefs.v ===== *)
(** * Durable references

    [er-dag/src/task.rs]: what crosses a pod boundary.  A [DurableOutput] is a
    class whose law is that a serialized reference rehydrates; [LakeRef] and
    [Plan] are its instances.  The lake edge and the plan document are the
    leaf binary's: an edge is its stable name, a plan document a [PlanDoc]
    instance. *)

From S2P Require Import Prelude Json Resume.

(** ** Definitions *)

Inductive RefError :=
| Malformed (expected : string)
| Serialize (what : string)
| Probe (snapshot : Z).

(** [Prober::snapshot_exists]. *)
Definition Prober : Type := Z → result bool RefError.

(** The trait, with the law its users rely on. *)
Class DurableOutput (T : Type) := {
  STABLE_NAME : string;
  serialize_reference : T → result json RefError;
  rehydrate : json → result T RefError;
  probe : T → Prober → result ReferenceExistence RefError;
  durable_ok : T → Prop;
  rehydrate_serialize x v :
    durable_ok x → serialize_reference x = Ok v → rehydrate v = Ok x;
}.

Definition ok_or {A E} (o : option A) (e : E) : result A E :=
  match o with Some x => Ok x | None => Err e end.

(** *** A lake reference *)

Record LakeRef := mkLakeRef { snapshot_end : Z; rows : Z }.

#[global] Instance LakeRef_eq_dec : EqDecision LakeRef.
Proof. solve_decision. Defined.

Section lake.
Context (edge_name : string).      (* [E::STABLE_NAME] *)

Definition lake_serialize (r : LakeRef) : result json RefError :=
  Ok (JObject [("edge", JString edge_name); ("rows", JInt (rows r));
               ("snapshot_end", JInt (snapshot_end r))]).

Definition lake_rehydrate (v : json) : result LakeRef RefError :=
  if decide ((e ← json_get v "edge"; as_str e) ≠ Some edge_name)
  then Err (Malformed edge_name)
  else
    match ok_or (x ← json_get v "snapshot_end"; as_i64 x) (Malformed edge_name) with
    | Err e => Err e
    | Ok snapshot_end =>
        match ok_or (x ← json_get v "rows"; as_i64 x) (Malformed edge_name) with
        | Err e => Err e
        | Ok rows => Ok (mkLakeRef snapshot_end rows)
        end
    end.

Definition lake_probe (r : LakeRef) (prober : Prober) : result ReferenceExistence RefError :=
  match prober (snapshot_end r) with
  | Err e => Err e
  | Ok b => Ok (if b : bool then Present else Missing)
  end.

(** Both fields are [i64]s. *)
Definition lake_ok (r : LakeRef) : Prop :=
  (- 2 ^ 63 ≤ snapshot_end r < 2 ^ 63)%Z ∧ (- 2 ^ 63 ≤ rows r < 2 ^ 63)%Z.
End lake.

(** *** A plan document *)

(** [PlanDoc]: serde's two conversions and the name. *)
Class PlanDoc (P : Type) := {
  PLAN_NAME : string;
  to_value : P → option json;
  from_value : json → option P;
  from_to_value p v : to_value p = Some v → from_value v = Some p;
}.

Section plan.
Context `{PlanDoc P}.

Definition plan_serialize (p : P) : result json RefError :=
  match to_value p with
  | None => Err (Serialize PLAN_NAME)
  | Some doc => Ok (JObject [("doc", doc); ("plan", JString PLAN_NAME)])
  end.

Definition plan_rehydrate (v : json) : result P RefError :=
  if decide ((e ← json_get v "plan"; as_str e) ≠ Some PLAN_NAME)
  then Err (Malformed PLAN_NAME)
  else
    match ok_or (json_get v "doc") (Malformed PLAN_NAME) with
    | Err e => Err e
    | Ok doc => ok_or (from_value doc) (Malformed PLAN_NAME)
    end.

Definition plan_probe (p : P) (prober : Prober) : result ReferenceExistence RefError := Ok Present.
End plan.

(** *** Cells shared with the heartbeat and signal threads *)

(** [CounterSink]: the last value set wins. *)
Record CounterSink := mkSink { latest : option json }.

Definition sink_set (s : CounterSink) (v : json) : CounterSink := mkSink (Some v).
Definition sink_snapshot (s : CounterSink) : option json := latest s.

(** [CancelToken]: set once, never cleared. *)
Record CancelToken := mkToken { flag : bool }.

Definition cancel (t : CancelToken) : CancelToken := mkToken true.
Definition is_canceled (t : CancelToken) : bool := flag t.

(** ** Properties *)

(** What a document must hold to be a reference of this edge. *)
Lemma lake_rehydrate_spec edge_name v r :
  lake_rehydrate edge_name v = Ok r ↔
  json_get v "edge" = Some (JString edge_name)
  ∧ json_get v "snapshot_end" = Some (JInt (snapshot_end r))
  ∧ json_get v "rows" = Some (JInt (rows r)) ∧ lake_ok r.
Proof.
  assert (∀ k s, (e ← json_get v k; as_str e) = Some s ↔ json_get v k = Some (JString s)) as Hstr.
  { intros k s. destruct (json_get v k) as [[]|]; simpl; naive_solver. }
  assert (∀ k z, (e ← json_get v k; as_i64 e) = Some z ↔
    json_get v k = Some (JInt z) ∧ (- 2 ^ 63 ≤ z < 2 ^ 63)%Z) as Hint.
  { intros k z. destruct (json_get v k) as [[]|]; cbn -[Z.pow]; try naive_solver.
    case_decide; naive_solver. }
  unfold lake_rehydrate, lake_ok. rewrite <-Hstr. case_decide as He.
  { split; [done|]. intros (? & _). done. }
  destruct (e ← json_get v "snapshot_end"; as_i64 e) as [s|] eqn:Es; simpl.
  2:{ split; [done|]. intros (_ & Hs & _ & ? & _).
      assert ((e ← json_get v "snapshot_end"; as_i64 e) = Some (snapshot_end r)) by by apply Hint.
      congruence. }
  apply Hint in Es as [Es ?].
  destruct (e ← json_get v "rows"; as_i64 e) as [n|] eqn:En; simpl.
  2:{ split; [done|]. intros (_ & _ & Hs & _ & ?).
      assert ((e ← json_get v "rows"; as_i64 e) = Some (rows r)) by by apply Hint.
      congruence. }
  apply Hint in En as [En ?]. rewrite Es, En. split.
  - intros [= <-]. done.
  - intros (_ & [= ->] & [= ->] & _). by destruct r.
Qed.

Lemma lake_roundtrip edge_name r v :
  lake_ok r → lake_serialize edge_name r = Ok v → lake_rehydrate edge_name v = Ok r.
Proof. intros Hr [= <-]. by apply lake_rehydrate_spec. Qed.

Lemma plan_roundtrip `{PlanDoc P} (p : P) v :
  plan_serialize p = Ok v → plan_rehydrate v = Ok p.
Proof.
  unfold plan_serialize, plan_rehydrate. destruct (to_value p) as [doc|] eqn:E; [|done].
  intros [= <-]. simpl. rewrite decide_False by (intros H'; by apply H').
  simpl. by rewrite (from_to_value _ _ E).
Qed.

(** Both references are durable outputs. *)
#[global] Instance LakeRef_durable edge_name : DurableOutput LakeRef := {|
  STABLE_NAME := edge_name;
  serialize_reference := lake_serialize edge_name;
  rehydrate := lake_rehydrate edge_name;
  probe := lake_probe;
  durable_ok := lake_ok;
  rehydrate_serialize := lake_roundtrip edge_name;
|}.

#[global] Instance Plan_durable `{PlanDoc P} : DurableOutput P := {|
  STABLE_NAME := PLAN_NAME;
  serialize_reference := plan_serialize;
  rehydrate := plan_rehydrate;
  probe := plan_probe;
  durable_ok := λ _, True;
  rehydrate_serialize := λ p v _, plan_roundtrip p v;
|}.

(** A stored lake reference rehydrates to itself under its own edge, and to
    nothing under any other: the documents accepted for an edge are exactly
    those that name it and carry two [i64]s. *)
Theorem lake_ref_roundtrip edge_name r v :
  lake_ok r → lake_serialize edge_name r = Ok v →
  (∀ other s, lake_rehydrate other v = Ok s ↔ other = edge_name ∧ s = r).
Proof.
  intros Hr [= <-] other s. rewrite lake_rehydrate_spec. simpl. split.
  - intros ([= ->] & [= Hs] & [= Hn] & _). split; [done|]. destruct r, s. simpl in *. congruence.
  - intros [-> ->]. done.
Qed.

Lemma lake_ref_roundtrip_witness :
  let v := JObject [("edge", JString "scores"); ("rows", JInt 10); ("snapshot_end", JInt 41)] in
  lake_rehydrate "scores" v = Ok (mkLakeRef 41 10)
  ∧ lake_rehydrate "landed" v ≠ Ok (mkLakeRef 41 10).
Proof.
  intros v.
  assert (lake_ok (mkLakeRef 41 10)) as Hok by (split; simpl; lia).
  split; [|intros H]; [|apply (lake_ref_roundtrip "scores" _ v Hok eq_refl) in H as [? _]; done].
  by apply (lake_ref_roundtrip "scores" _ v Hok eq_refl).
Defined.
