(* ===== verification/Errors.v ===== *)
(** * The failure taxonomy

    [er-errors/src/lib.rs]: error classes, exit codes, and the error the CLI
    turns into an exit status. *)

From S2P Require Import Prelude.
Local Open Scope Z_scope.

(** ** Definitions *)

Inductive ExitCode := Success | StageFailure | ExitConfig | ExitPrecondition | NothingToDo.

Definition exit_code_code (e : ExitCode) : Z :=
  match e with
  | Success => 0
  | StageFailure => 1
  | ExitConfig => 2
  | ExitPrecondition => 3
  | NothingToDo => 10
  end.

Inductive ErrorClass :=
| TransientIo | LockConflict | Precondition | Config | Contradiction | NonConvergence | Data.

#[global] Instance ErrorClass_eq_dec : EqDecision ErrorClass.
Proof. solve_decision. Defined.

Definition UNCLASSIFIED : ErrorClass := Data.

Definition error_classes : list ErrorClass :=
  [TransientIo; LockConflict; Precondition; Config; Contradiction; NonConvergence; Data].

Definition error_class_as_str (c : ErrorClass) : string :=
  match c with
  | TransientIo => "transient_io"
  | LockConflict => "lock_conflict"
  | Precondition => "precondition"
  | Config => "config"
  | Contradiction => "contradiction"
  | NonConvergence => "non_convergence"
  | Data => "data"
  end.

Definition class_exit_code (c : ErrorClass) : ExitCode :=
  match c with
  | LockConflict | Precondition => ExitPrecondition
  | Config => ExitConfig
  | TransientIo | Contradiction | NonConvergence | Data => StageFailure
  end.

Definition class_retryable (c : ErrorClass) : bool :=
  match c with TransientIo | LockConflict => true | _ => false end.

Record ErError := mkErError {
  message : string;
  error_class : option ErrorClass;
  error_detail : string;
  unclassified_exit : ExitCode;
}.

Definition er_error_new (message : string) (c : option ErrorClass) (exit : ExitCode) : ErError :=
  mkErError message c message exit.

Definition stage_failure (m : string) : ErError := er_error_new m (Some Data) StageFailure.
Definition non_convergence (m : string) : ErError :=
  er_error_new m (Some NonConvergence) StageFailure.
Definition precondition (m : string) : ErError := er_error_new m (Some Precondition) StageFailure.
Definition config (m : string) : ErError := er_error_new m (Some Config) StageFailure.
Definition nothing_to_do (m : string) : ErError := er_error_new m None NothingToDo.

Definition with_class (c : ErrorClass) (e : ErError) : ErError :=
  mkErError (message e) (Some c) (error_detail e) (unclassified_exit e).

Definition with_detail (d : string) (e : ErError) : ErError :=
  mkErError (message e) (error_class e) d (unclassified_exit e).

Definition er_error_code (e : ErError) : Z :=
  match error_class e with
  | Some c => exit_code_code (class_exit_code c)
  | None => exit_code_code (unclassified_exit e)
  end.

Definition er_error_retryable (e : ErError) : bool :=
  match error_class e with Some c => class_retryable c | None => false end.

Definition classify (e : ErError) : ErrorClass := default UNCLASSIFIED (error_class e).

Definition KNOWN : list Z := [0; 1; 2; 3; 10].

Definition exit_code_for (code : option Z) : Z :=
  match code with
  | Some c => if decide (c ∈ KNOWN) then c else exit_code_code StageFailure
  | None => exit_code_code StageFailure
  end.

(** The errors the public constructors and builders make. *)
Inductive built : ErError → Prop :=
| built_stage m : built (stage_failure m)
| built_non_convergence m : built (non_convergence m)
| built_precondition m : built (precondition m)
| built_config m : built (config m)
| built_nothing m : built (nothing_to_do m)
| built_class c e : built e → built (with_class c e)
| built_detail d e : built e → built (with_detail d e).

(** ** Properties *)

(** An unclassified error is the no-op. *)
Lemma built_unclassified e : built e → error_class e = None → unclassified_exit e = NothingToDo.
Proof. induction 1; simpl; auto; done. Qed.

(** Every error the crate can build exits with a known failure status, never
    [0]; the status is [10], the successful no-op, exactly for an error without
    a class; a status the crate yields passes through [exit_code_for]; and a
    classified error's status is the one of the class it is recorded under. *)
Theorem built_exit_status e :
  built e →
  er_error_code e ∈ [1; 2; 3; 10]
  ∧ (er_error_code e = 10 ↔ error_class e = None)
  ∧ exit_code_for (Some (er_error_code e)) = er_error_code e
  ∧ (error_class e ≠ None → er_error_code e = exit_code_code (class_exit_code (classify e))).
Proof.
  intros He. pose proof (built_unclassified e He) as Hnone.
  unfold er_error_code, classify. destruct (error_class e) as [c|].
  - destruct c; vm_compute; repeat split; try done; set_solver.
  - rewrite Hnone by done. vm_compute. repeat split; try done; set_solver.
Qed.

Lemma built_exit_status_witness :
  let e := with_detail "lake locked" (with_class LockConflict (stage_failure "commit failed")) in
  er_error_code e = 3 ∧ exit_code_for (Some (er_error_code e)) = 3.
Proof.
  intros e. split; [reflexivity|].
  assert (built e) as He by repeat constructor.
  rewrite (proj1 (proj2 (proj2 (built_exit_status e He)))). reflexivity.
Defined.
