(* ===== verification/Registry.v ===== *)
(** * The compiled graphs of the job kinds

    [er-server/src/dags]: the closed set of job kinds, the tasks with what
    they declare, the graph of each kind, and the two dispatch tables that
    turn a row's task name back into a body.  The bodies themselves (they open
    a lake or a database) are the parameter [body] of the dispatch; what a
    plan document deserializes to is the parameter [decodes]. *)

From S2P Require Import Prelude Json Ids DagPolicy Dag TaskRefs Errors.
From stdpp Require Import pretty.

(** ** Definitions *)

Inductive JobKind :=
| RunAllFull | RunAllIncremental | Correct | KTrain | LakeMaintain | KProfile | LakeMigrate
| Provision | DatasetProvision | ApplyCorrections | ApplyApproved.

#[global] Instance JobKind_eq_dec : EqDecision JobKind.
Proof. solve_decision. Defined.

Definition KINDS : list JobKind :=
  [RunAllFull; RunAllIncremental; Correct; KTrain; LakeMaintain; KProfile; LakeMigrate;
   Provision; DatasetProvision; ApplyCorrections; ApplyApproved].

Definition job_kind_as_str (k : JobKind) : string :=
  match k with
  | RunAllFull => "run_all_full"
  | RunAllIncremental => "run_all_incremental"
  | Correct => "correct"
  | KTrain => "train"
  | LakeMaintain => "lake_maintain"
  | KProfile => "profile"
  | LakeMigrate => "lake_migrate"
  | Provision => "provision"
  | DatasetProvision => "dataset_provision"
  | ApplyCorrections => "apply_corrections"
  | ApplyApproved => "apply_approved"
  end.

Definition job_kind_parse (s : string) : option JobKind :=
  find_first (λ k, bool_decide (job_kind_as_str k = s)) KINDS.

Definition kind_dag_name (k : JobKind) : string :=
  match k with
  | RunAllFull | RunAllIncremental => "run_all"
  | other => job_kind_as_str other
  end.

(** *** The edges *)

(** A [LakeRef<E>] or a [Plan<D>], by the stable name of [E] or [D]. *)
Inductive Edge := LakeE (name : string) | PlanE (name : string).

#[global] Instance Edge_eq_dec : EqDecision Edge.
Proof. solve_decision. Defined.

Definition edge_stable_name (e : Edge) : string :=
  match e with LakeE name | PlanE name => name end.

Definition Landed : Edge := LakeE "landed".
Definition Standardized : Edge := LakeE "standardized".
Definition Scored : Edge := LakeE "scored".
Definition Resolved : Edge := LakeE "resolved".
Definition Assembled : Edge := LakeE "assembled".
Definition Profiled : Edge := LakeE "profiled".

Definition RunPlan : Edge := PlanE "run_plan".
Definition DrainedActions : Edge := PlanE "drained_actions".
Definition SchemaReconciled : Edge := PlanE "schema_reconciled".
Definition TrainedModel : Edge := PlanE "trained_model".
Definition ModelRegistered : Edge := PlanE "model_registered".
Definition MaintenanceReport : Edge := PlanE "maintenance_report".
Definition CatalogCreated : Edge := PlanE "catalog_created".
Definition LakeInitialized : Edge := PlanE "lake_initialized".
Definition OrgActivated : Edge := PlanE "org_activated".
Definition SettledActions : Edge := PlanE "settled_actions".
Definition StagedApplied : Edge := PlanE "staged_applied".
Definition StagedApproved : Edge := PlanE "staged_approved".
Definition FinishReport : Edge := PlanE "finish_report".

(** *** The tasks *)

(** A pod task: the associated items of [impl Task]. *)
Definition pod_task (name : string) (input : list Edge) (output : Edge) (lake : bool)
    (p : NodePolicy) : TaskDecl :=
  mkTask name 1 (edge_stable_name <$> input) (edge_stable_name output) lake p.

(** A control task: [impl ControlTask], which has no lake. *)
Definition control_task (name : string) (input : list Edge) (output : Edge) : TaskDecl :=
  mkTask name 1 (edge_stable_name <$> input) (edge_stable_name output) false policy_control.

(** [NodePolicy { escalate_on_oom: true, ..NodePolicy::default() }]. *)
Definition policy_escalating : NodePolicy :=
  {| retries := retries policy_default; backoff := backoff policy_default;
     timeout_secs := timeout_secs policy_default; class_rule := class_rule policy_default;
     escalate_on_oom := true; segment := segment policy_default;
     policy_teardown := policy_teardown policy_default; threads := threads policy_default |}.

(** [NodePolicy { teardown: true, ..NodePolicy::default() }]. *)
Definition policy_finish : NodePolicy :=
  {| retries := retries policy_default; backoff := backoff policy_default;
     timeout_secs := timeout_secs policy_default; class_rule := class_rule policy_default;
     escalate_on_oom := escalate_on_oom policy_default; segment := segment policy_default;
     policy_teardown := true; threads := threads policy_default |}.

Definition Init : TaskDecl := pod_task "init" [] RunPlan true policy_default.
Definition Ingest : TaskDecl := pod_task "ingest" [RunPlan] Landed true policy_default.
Definition Standardize : TaskDecl :=
  pod_task "standardize" [RunPlan; Landed] Standardized true policy_default.
Definition Match_ : TaskDecl :=
  pod_task "match" [RunPlan; Standardized] Scored true policy_escalating.
Definition Reconcile_ : TaskDecl :=
  pod_task "reconcile" [RunPlan; Scored] Resolved true policy_escalating.
Definition Assemble : TaskDecl :=
  pod_task "assemble" [RunPlan; Resolved] Assembled true policy_default.
Definition Finish : TaskDecl := pod_task "finish" [] FinishReport true policy_finish.
Definition CorrectReconcile : TaskDecl :=
  pod_task "reconcile" [RunPlan] Resolved true policy_escalating.
Definition CorrectionsInit : TaskDecl :=
  pod_task "init" [DrainedActions] RunPlan true policy_default.
Definition ApplyStaged : TaskDecl :=
  pod_task "apply_staged" [RunPlan] StagedApplied true policy_default.
Definition CorrectionsReconcile : TaskDecl :=
  pod_task "reconcile" [RunPlan; StagedApplied] Resolved true policy_escalating.
Definition ReconcileSchema : TaskDecl :=
  pod_task "reconcile_schema" [] SchemaReconciled true policy_default.
Definition ProfileCorpus : TaskDecl :=
  pod_task "profile" [SchemaReconciled] Profiled true policy_default.
Definition Maintain : TaskDecl :=
  pod_task "maintain" [SchemaReconciled] MaintenanceReport true policy_default.
Definition Train : TaskDecl :=
  pod_task "train" [SchemaReconciled] TrainedModel false policy_default.
Definition LakeInit : TaskDecl :=
  pod_task "lake_init" [CatalogCreated] LakeInitialized true policy_default.

Definition CreateCatalog : TaskDecl := control_task "create_catalog" [] CatalogCreated.
Definition Activate : TaskDecl := control_task "activate" [LakeInitialized] OrgActivated.
Definition RegisterModel : TaskDecl :=
  control_task "register_model" [TrainedModel] ModelRegistered.
Definition DrainActions : TaskDecl := control_task "drain_actions" [] DrainedActions.
Definition SettleActions : TaskDecl :=
  control_task "settle_actions" [StagedApplied; Assembled] SettledActions.
Definition StageApproved : TaskDecl := control_task "stage_approved" [] StagedApproved.

(** *** The graphs *)

Definition run_all : DagBuilder :=
  let d := builder_new (kind_dag_name RunAllFull) in
  let '(d, plan) := builder_source d Init in
  let '(d, raw) := builder_then d Ingest [plan] in
  let '(d, std) := builder_then d Standardize [plan; raw] in
  let '(d, scored) := builder_then d Match_ [plan; std] in
  let '(d, ents) := builder_then d Reconcile_ [plan; scored] in
  let '(d, done) := builder_then d Assemble [plan; ents] in
  (builder_epilogue d Finish [done] AllTerminal).1.

Definition correct : DagBuilder :=
  let d := builder_new (kind_dag_name Correct) in
  let '(d, plan) := builder_source d Init in
  let '(d, ents) := builder_then d CorrectReconcile [plan] in
  let '(d, done) := builder_then d Assemble [plan; ents] in
  (builder_epilogue d Finish [done] AllTerminal).1.

Definition train : DagBuilder :=
  let d := builder_new (kind_dag_name KTrain) in
  let '(d, schema) := builder_source d ReconcileSchema in
  let '(d, model) := builder_then d Train [schema] in
  (builder_control d RegisterModel [model]).1.

Definition lake_maintain : DagBuilder :=
  let d := builder_new (kind_dag_name LakeMaintain) in
  let '(d, schema) := builder_source d ReconcileSchema in
  (builder_then d Maintain [schema]).1.

Definition profile : DagBuilder :=
  let d := builder_new (kind_dag_name KProfile) in
  let '(d, schema) := builder_source d ReconcileSchema in
  (builder_then d ProfileCorpus [schema]).1.

Definition lake_migrate : DagBuilder :=
  let d := builder_new (kind_dag_name LakeMigrate) in
  (builder_source d ReconcileSchema).1.

Definition provision : DagBuilder :=
  let d := builder_new (kind_dag_name Provision) in
  let '(d, catalog) := builder_control d CreateCatalog [] in
  let '(d, lake) := builder_then d LakeInit [catalog] in
  (builder_control d Activate [lake]).1.

Definition dataset_provision : DagBuilder :=
  let d := builder_new (kind_dag_name DatasetProvision) in
  let '(d, catalog) := builder_control d CreateCatalog [] in
  let '(d, lake) := builder_then d LakeInit [catalog] in
  (builder_control d Activate [lake]).1.

Definition apply_corrections : DagBuilder :=
  let d := builder_new (kind_dag_name ApplyCorrections) in
  let '(d, drained) := builder_control d DrainActions [] in
  let '(d, plan) := builder_then d CorrectionsInit [drained] in
  let '(d, applied) := builder_then d ApplyStaged [plan] in
  let '(d, ents) := builder_then d CorrectionsReconcile [plan; applied] in
  let '(d, done) := builder_then d Assemble [plan; ents] in
  let '(d, settled) := builder_control d SettleActions [applied; done] in
  (builder_epilogue d Finish [settled] AllTerminal).1.

Definition apply_approved : DagBuilder :=
  let d := builder_new (kind_dag_name ApplyApproved) in
  (builder_control d StageApproved []).1.

Definition builder_for (kind : JobKind) : DagBuilder :=
  match kind with
  | RunAllFull | RunAllIncremental => run_all
  | Correct => correct
  | KTrain => train
  | LakeMaintain => lake_maintain
  | KProfile => profile
  | LakeMigrate => lake_migrate
  | Provision => provision
  | DatasetProvision => dataset_provision
  | ApplyCorrections => apply_corrections
  | ApplyApproved => apply_approved
  end.

(** [.build().expect(..)]: [None] is the panic. *)
Definition dag_for (sha256 : string → list Z) (kind : JobKind) : option Dag :=
  match builder_build sha256 (builder_for kind) with
  | Some (Ok d) => Some d
  | _ => None
  end.

(** The boot check: every graph is assembled, in the order of [JobKind::ALL]. *)
Definition verify_all (sha256 : string → list Z) : option (list Dag) :=
  mapM (dag_for sha256) KINDS.

(** *** The dispatch tables *)

Inductive TaskError := TaskFailed (e : ErError) | TaskSkip.

(** [Outcome<O>], the output already passed through [serialize_reference]. *)
Inductive Outcome :=
| Done (output : result json RefError) (counters : json)
| NoOp (output : result json RefError).

Record PodTaskRun := mkRun {
  run_skipped : bool;
  run_outcome : string;
  run_output : json;
  run_counters : option json;
}.

(** [errfmt::chain] and [Display] of a [RefError]; the text of the source of
    a failed serialization, which [RefError] does not keep, is left out. *)
Definition ref_error_text (e : RefError) : string :=
  match e with
  | Malformed expected => "malformed " +:+ expected +:+ " reference"
  | Serialize what => "serializing " +:+ what +:+ " reference"
  | Probe snapshot => "probing lake snapshot " +:+ pretty snapshot
  end.

Definition completed (o : Outcome) : result PodTaskRun TaskError :=
  let '(name, output, counters) :=
    match o with
    | Done o c => ("done", o, Some c)
    | NoOp o => ("no_op", o, None)
    end in
  match output with
  | Err e => Err (TaskFailed (stage_failure
      ("serializing the task's output reference: " +:+ ref_error_text e)))
  | Ok output =>
      Ok (mkRun false name output
            (c ← counters; match c with JNull => None | _ => Some c end))
  end.

Section dispatch.
(** Whether the document type of a plan name accepts a document
    ([serde_json::from_value] at that type). *)
Context (decodes : string → json → bool).

(** [T::rehydrate(v)], keeping the document it was read from. *)
Definition edge_rehydrate (e : Edge) (v : json) : result json RefError :=
  match e with
  | LakeE name => match lake_rehydrate name v with Ok _ => Ok v | Err e => Err e end
  | PlanE name =>
      if decide ((p ← json_get v "plan"; as_str p) ≠ Some name) then Err (Malformed name)
      else match json_get v "doc" with
           | Some doc => if decodes name doc then Ok v else Err (Malformed name)
           | None => Err (Malformed name)
           end
  end.

(** [ctx.order.input.get("pins").and_then(|p| p.get(index))]. *)
Definition pin_slot (input : json) (index : nat) : option json :=
  pins ← json_get input "pins"; l ← as_array pins; l !! index.

Definition pin (input : json) (index : nat) (e : Edge) : result json TaskError :=
  match pin_slot input index with
  | None => Err (TaskFailed (precondition ("the work order carries no input pin "
      +:+ pretty index +:+ " for " +:+ edge_stable_name e)))
  | Some slot =>
      match edge_rehydrate e slot with
      | Ok v => Ok v
      | Err err => Err (TaskFailed (precondition
          ("input pin " +:+ pretty index +:+ ": " +:+ ref_error_text err)))
      end
  end.

Definition control_pin (input : json) (index : nat) (e : Edge) : result json TaskError :=
  match pin_slot input index with
  | None => Err (TaskFailed (precondition
      ("control input pin " +:+ pretty index +:+ " is missing from the work order")))
  | Some v =>
      match edge_rehydrate e v with
      | Ok v => Ok v
      | Err err => Err (TaskFailed (precondition ("control input pin " +:+ pretty index
          +:+ " is not the declared shape: " +:+ ref_error_text err)))
      end
  end.

(** The pins an arm reads, in order: [pin(ctx, 0)?], [pin(ctx, 1)?], .. *)
Fixpoint read_pins (pin : nat → Edge → result json TaskError) (index : nat)
    (edges : list Edge) : result (list json) TaskError :=
  match edges with
  | [] => Ok []
  | e :: edges =>
      match pin index e with
      | Err err => Err err
      | Ok v =>
          match read_pins pin (S index) edges with
          | Err err => Err err
          | Ok vs => Ok (v :: vs)
          end
      end
  end.

(** An arm of a dispatch: the kinds and the task name it matches, the body it
    runs and the types of the pins it reads. *)
Record Arm := mkArm {
  arm_kinds : list JobKind;
  arm_task : string;
  arm_body : TaskDecl;
  arm_pins : list Edge;
}.

Definition arm_for (arms : list Arm) (kind : JobKind) (task : string) : option Arm :=
  find_first (λ a, bool_decide (kind ∈ arm_kinds a) && bool_decide (arm_task a = task)) arms.

Definition control_arms : list Arm :=
  [ mkArm [Provision; DatasetProvision] "create_catalog" CreateCatalog [];
    mkArm [Provision; DatasetProvision] "activate" Activate [LakeInitialized];
    mkArm [ApplyApproved] "stage_approved" StageApproved [];
    mkArm [ApplyCorrections] "drain_actions" DrainActions [];
    mkArm [ApplyCorrections] "settle_actions" SettleActions [StagedApplied; Assembled];
    mkArm [KTrain] "register_model" RegisterModel [TrainedModel] ].

Definition pod_arms : list Arm :=
  [ mkArm [LakeMaintain; LakeMigrate; KTrain] "reconcile_schema" ReconcileSchema [];
    mkArm [LakeMaintain] "maintain" Maintain [SchemaReconciled];
    mkArm [Provision; DatasetProvision] "lake_init" LakeInit [CatalogCreated];
    mkArm [ApplyCorrections] "init" CorrectionsInit [DrainedActions];
    mkArm [ApplyCorrections] "apply_staged" ApplyStaged [RunPlan];
    mkArm [ApplyCorrections] "reconcile" CorrectionsReconcile [RunPlan; StagedApplied];
    mkArm [KTrain] "train" Train [SchemaReconciled];
    mkArm [KProfile] "profile" ProfileCorpus [SchemaReconciled];
    mkArm [RunAllFull; RunAllIncremental] "init" Init [];
    mkArm [RunAllFull; RunAllIncremental] "ingest" Ingest [RunPlan];
    mkArm [RunAllFull; RunAllIncremental] "standardize" Standardize [RunPlan; Landed];
    mkArm [RunAllFull; RunAllIncremental] "match" Match_ [RunPlan; Standardized];
    mkArm [RunAllFull; RunAllIncremental] "reconcile" Reconcile_ [RunPlan; Scored];
    mkArm [RunAllFull; RunAllIncremental; Correct; ApplyCorrections] "assemble" Assemble
      [RunPlan; Resolved];
    mkArm [RunAllFull; RunAllIncremental; Correct; ApplyCorrections] "finish" Finish [];
    mkArm [Correct] "init" Init [];
    mkArm [Correct] "reconcile" CorrectReconcile [RunPlan] ].

(** What a body does with its rehydrated inputs. *)
Context (body : TaskDecl → list json → result Outcome TaskError).

Definition run_body (t : TaskDecl) (inputs : result (list json) TaskError) :
    result PodTaskRun TaskError :=
  match inputs with
  | Err e => Err e
  | Ok vs => match body t vs with Err e => Err e | Ok o => completed o end
  end.

Definition run_control_task (kind : JobKind) (task_id : string) (input : json) :
    result PodTaskRun TaskError :=
  match arm_for control_arms kind task_id with
  | Some a => run_body (arm_body a) (read_pins (control_pin input) 0 (arm_pins a))
  | None => Err (TaskFailed (precondition
      ("the dispatcher does not yet run control task '" +:+ task_id +:+ "' of kind '"
       +:+ job_kind_as_str kind
       +:+ "' — the remaining control bodies arrive with the rest of Phase 3")))
  end.

Definition run_pod_task (kind : JobKind) (task_id : string) (input : json) :
    result PodTaskRun TaskError :=
  match arm_for pod_arms kind task_id with
  | Some a => run_body (arm_body a) (read_pins (pin input) 0 (arm_pins a))
  | None => Err (TaskFailed (precondition
      ("the executor does not yet run task '" +:+ task_id +:+ "' of kind '"
       +:+ job_kind_as_str kind
       +:+ "' — its body arrives with the remaining Phase 3 kinds of batch-orchestration-design.md")))
  end.
End dispatch.

(** ** Specification *)

(** The outputs a graph's tasks can hand over. *)
Definition EDGES : list Edge :=
  [Landed; Standardized; Scored; Resolved; Assembled; Profiled; RunPlan; DrainedActions;
   SchemaReconciled; TrainedModel; ModelRegistered; MaintenanceReport; CatalogCreated;
   LakeInitialized; OrgActivated; SettledActions; StagedApplied; StagedApproved; FinishReport].

Definition output_edge (n : Node) : option Edge :=
  find_first (λ e, bool_decide (edge_stable_name e = output_name n)) EDGES.

(** The types a node may expect of its pins: what its upstreams hand over, in
    order; nothing for a teardown. *)
Definition pin_edges (l : list Node) (n : Node) : option (list Edge) :=
  if teardown n then Some []
  else mapM (λ u, l !! u ≫= output_edge) (upstream n).

Definition arms_of (n : Node) : list Arm :=
  match nkind n with Pod => pod_arms | Control => control_arms end.

(** The dispatch of the half that runs a node. *)
Definition run_node (decodes : string → json → bool)
    (body : TaskDecl → list json → result Outcome TaskError) (kind : JobKind) (n : Node)
    (input : json) : result PodTaskRun TaskError :=
  match nkind n with
  | Pod => run_pod_task decodes body kind (task_id n) input
  | Control => run_control_task decodes body kind (task_id n) input
  end.

(** The node declares what the body it is dispatched to declares. *)
Definition same_decl (t : TaskDecl) (n : Node) : Prop :=
  NAME t = task_id n ∧ VERSION t = version n ∧ INPUT t = input_names n
  ∧ OUTPUT t = output_name n ∧ WRITES_LAKE t = writes_lake n ∧ POLICY t = policy n.

#[global] Instance same_decl_dec t n : Decision (same_decl t n).
Proof. unfold same_decl. apply _. Defined.

(** ** Lemmas *)

Lemma job_kind_known k : k ∈ KINDS.
Proof. apply (bool_decide_unpack _). by destruct k. Qed.

Lemma job_kind_parse_spec s k : job_kind_parse s = Some k ↔ s = job_kind_as_str k.
Proof.
  split; [|intros ->; by destruct k].
  unfold job_kind_parse. generalize KINDS. intros l. induction l as [|k' l IH]; simpl; [done|].
  case_bool_decide as E; [by intros [= <-]|done].
Qed.

Definition topologicalb (l : list Node) : bool :=
  forallb (λ '(j, n), forallb (λ u, u <? j)%nat (upstream n)) (enumerate l).

Lemma topologicalb_sound l : topologicalb l = true → topological l.
Proof.
  unfold topologicalb. rewrite forallb_forall. intros H i j (n & Hn & Hi).
  specialize (H (j, n)). simpl in H. rewrite forallb_forall in H.
  apply Nat.ltb_lt, H; [|by apply list_elem_of_In].
  by apply list_elem_of_In, elem_of_enumerate.
Qed.

(** Everything the graphs are checked for beyond assembly. *)
Definition wiredb (l : list Node) : bool :=
  forallb (λ n, bool_decide ((fmap edge_stable_name) <$> pin_edges l n = Some (input_names n))) l.

Definition dispatchedb (kind : JobKind) : bool :=
  let l := builder_nodes (builder_for kind) in
  forallb (λ n,
    bool_decide ((kind, task_id n) = (KProfile, "reconcile_schema"))
    || match arm_for (arms_of n) kind (task_id n) with
       | Some a => bool_decide (same_decl (arm_body a) n)
                   && bool_decide (pin_edges l n = Some (arm_pins a))
       | None => false
       end) l.

Lemma wired_spec l n : wiredb l = true → n ∈ l →
  ∃ es, pin_edges l n = Some es ∧ edge_stable_name <$> es = input_names n.
Proof.
  unfold wiredb. rewrite forallb_forall. intros H Hn.
  specialize (H n (proj1 (list_elem_of_In _ _) Hn)). apply bool_decide_eq_true in H.
  destruct (pin_edges l n) as [es|]; naive_solver.
Qed.

Lemma dispatched_spec kind n :
  n ∈ builder_nodes (builder_for kind) → (kind, task_id n) ≠ (KProfile, "reconcile_schema") →
  ∃ a, arm_for (arms_of n) kind (task_id n) = Some a ∧ same_decl (arm_body a) n
    ∧ pin_edges (builder_nodes (builder_for kind)) n = Some (arm_pins a).
Proof.
  intros Hn Hk. assert (dispatchedb kind = true) as H by by destruct kind; vm_compute.
  unfold dispatchedb in H. rewrite forallb_forall in H.
  specialize (H n (proj1 (list_elem_of_In _ _) Hn)). apply orb_true_iff in H as [H|H].
  { by apply bool_decide_eq_true in H. }
  destruct (arm_for _ _ _) as [a|]; [|done]. apply andb_true_iff in H as [H1 H2].
  apply bool_decide_eq_true in H1. apply bool_decide_eq_true in H2. eauto.
Qed.

Lemma dag_for_spec sha256 kind :
  ∃ d, dag_for sha256 kind = Some d ∧ dag_name d = kind_dag_name kind
    ∧ nodes d = builder_nodes (builder_for kind) ∧ well_formed (nodes d).
Proof.
  assert (∃ d, dag_for sha256 kind = Some d) as [d Hd].
  { destruct kind; eexists; vm_compute; reflexivity. }
  exists d. split; [done|]. unfold dag_for, builder_build in Hd.
  destruct (assemble_spec sha256 (builder_name (builder_for kind))
    (builder_nodes (builder_for kind))) as (r & Hr & Hspec).
  rewrite Hr in Hd. destruct r as [d'|]; [|done]. injection Hd as ->.
  destruct Hspec as (Hwf & Hname & Hnodes). rewrite Hnodes, Hname. split; [by destruct kind|done].
Qed.

Lemma dag_for_topological sha256 kind d :
  dag_for sha256 kind = Some d → topological (nodes d) ∧ NoDup (task_id <$> nodes d).
Proof.
  intros Hd. destruct (dag_for_spec sha256 kind) as (d' & Hd' & _ & Hnodes & Hwf).
  rewrite Hd in Hd'. injection Hd' as <-. split; [|apply (wf_names _ Hwf)].
  rewrite Hnodes. apply topologicalb_sound. by destruct kind.
Qed.

(** The pins of an arm are read when the order carries acceptable ones first. *)
Lemma read_pins_spec decodes (pin_at : nat → Edge → result json TaskError) input es vs pins i :
  (∀ j e v, pin_slot input j = Some v → edge_rehydrate decodes e v = Ok v → pin_at j e = Ok v) →
  (∀ j, pin_slot input (i + j) = pins !! j) →
  Forall2 (λ e v, edge_rehydrate decodes e v = Ok v) es vs → vs `prefix_of` pins →
  read_pins pin_at i es = Ok vs.
Proof.
  intros Hpin Hslot Hall [rest ->]. revert i Hslot.
  induction Hall as [|e v es vs Hv _ IH]; intros i Hslot; [done|]. simpl.
  rewrite (Hpin i e v), IH; [done| |by rewrite <-(Nat.add_0_r i), Hslot|done].
  intros j. replace (S i + j) with (i + S j) by lia. apply (Hslot (S j)).
Qed.

Lemma pin_ok decodes input j e v :
  pin_slot input j = Some v → edge_rehydrate decodes e v = Ok v →
  pin decodes input j e = Ok v ∧ control_pin decodes input j e = Ok v.
Proof. intros Hs Hv. unfold pin, control_pin. by rewrite Hs, Hv. Qed.

(** ** Properties *)

(** C39: every job kind has a graph. [dag_for] never panics, so the boot check
    passes; the graph carries the kind's name, is well-formed and listed in
    topological order, and is wired: the inputs a task declares are, in order,
    the outputs of its upstreams (a teardown declares none). *)
Theorem dag_for_correct sha256 kind :
  ∃ d, dag_for sha256 kind = Some d ∧ dag_name d = kind_dag_name kind
    ∧ well_formed (nodes d) ∧ topological (nodes d)
    ∧ ∀ n, n ∈ nodes d → ∃ es, pin_edges (nodes d) n = Some es
        ∧ edge_stable_name <$> es = input_names n.
Proof.
  destruct (dag_for_spec sha256 kind) as (d & Hd & Hname & Hnodes & Hwf). exists d.
  split; [done|]. split; [done|]. split; [done|]. rewrite Hnodes. split.
  - apply topologicalb_sound. by destruct kind.
  - intros n Hn. apply wired_spec; [|done]. by destruct kind; vm_compute.
Qed.

(** The dispatch tables agree with the graphs. Every task of every kind,
    the schema reconciliation of [profile] apart, is dispatched to the body
    whose declaration its node carries, and the body is given the first pins
    of the work order whenever these are references of the types the node's
    upstreams hand over, in order. *)
Theorem dispatch_correct decodes body kind n :
  n ∈ builder_nodes (builder_for kind) → (kind, task_id n) ≠ (KProfile, "reconcile_schema") →
  ∃ t es, same_decl t n ∧ pin_edges (builder_nodes (builder_for kind)) n = Some es
    ∧ ∀ input pins vs, json_get input "pins" = Some (JArray pins) →
        Forall2 (λ e v, edge_rehydrate decodes e v = Ok v) es vs → vs `prefix_of` pins →
        run_node decodes body kind n input = run_body body t (Ok vs).
Proof.
  intros Hn Hk. destruct (dispatched_spec kind n Hn Hk) as (a & Ha & Hdecl & Hes).
  exists (arm_body a), (arm_pins a). split; [done|]. split; [done|].
  intros input pins vs Hp Hall Hpre.
  assert (∀ j, pin_slot input (0 + j) = pins !! j) as Hslot.
  { intros j. unfold pin_slot. by rewrite Hp. }
  unfold run_node, run_pod_task, run_control_task. unfold arms_of in Ha.
  destruct (nkind n); rewrite Ha; f_equal;
    apply (read_pins_spec decodes _ input _ vs pins); try done;
    intros; by apply pin_ok.
Qed.

(** A [profile] job cannot run. Its graph starts with the schema
    reconciliation, as those of [lake_maintain] and [train] do, but the
    dispatch has no arm for it under this kind: whatever the work order, the
    task is refused with an error that is not retried, although every task is
    said to have a body. *)
Theorem profile_schema_refused decodes body input :
  ∃ n, builder_nodes profile !! 0 = Some n ∧ task_id n = "reconcile_schema"
    ∧ nkind n = Pod
    ∧ ∃ e, run_node decodes body KProfile n input = Err (TaskFailed e)
        ∧ er_error_retryable e = false.
Proof.
  eexists. split; [vm_compute; reflexivity|]. split; [done|]. split; [done|].
  unfold run_node. simpl. eexists. split; [vm_compute; reflexivity|done].
Qed.

(** A document accepted for every lake edge of [Standardize]'s order. *)
Module SampleOrder.
Definition decodes (name : string) (doc : json) : bool := bool_decide (name = "run_plan").
Definition body (t : TaskDecl) (vs : list json) : result Outcome TaskError :=
  Ok (NoOp (Ok (JArray vs))).
Definition plan_doc : json := JObject [("doc", JNull); ("plan", JString "run_plan")].
Definition landed_doc : json :=
  JObject [("edge", JString "landed"); ("rows", JInt 3); ("snapshot_end", JInt 7)].
Definition input : json := JObject [("pins", JArray [plan_doc; landed_doc])].
End SampleOrder.

Lemma dispatch_correct_witness :
  ∃ n, builder_nodes run_all !! 2 = Some n
    ∧ run_node SampleOrder.decodes SampleOrder.body RunAllFull n SampleOrder.input
      = Ok (mkRun false "no_op" (JArray [SampleOrder.plan_doc; SampleOrder.landed_doc]) None).
Proof.
  eexists. split; [vm_compute; reflexivity|].
  match goal with |- run_node _ _ _ ?n _ = _ =>
    destruct (dispatch_correct SampleOrder.decodes SampleOrder.body RunAllFull n)
      as (t & es & Hdecl & Hes & Hrun) end.
  - apply (list_elem_of_lookup_2 _ 2). vm_compute. reflexivity.
  - done.
  - rewrite (Hrun SampleOrder.input [SampleOrder.plan_doc; SampleOrder.landed_doc]
      [SampleOrder.plan_doc; SampleOrder.landed_doc]); [done|done| |done].
    vm_compute in Hes. injection Hes as <-. repeat constructor.
Defined.
