(* ===== verification/Sql.v ===== *)
(** * Statements and transactions

    How the database is modelled.  A table is the list of its rows, in no
    particular order.  A statement is atomic: it computes the new table and
    either installs it, when the table's constraints hold of it, or fails and
    changes nothing.  A transaction is a sequence of statements; its first
    failure rolls back all of them.  [NULL] is [None]: [col = $v] is unknown,
    hence not true, on it, [IS NOT DISTINCT FROM] is equality of options.

    The file also has functional record update for the wide rows. *)

From S2P Require Import Prelude.

(** ** Record update *)

(** The identity of a record type, written out field by field. *)
Class Etable (R : Type) := eta : R → R.

Class Settable {R T : Type} (proj : R → T) := set_field : T → R → R.

(** Abstracts the projection out of the expansion. *)
Ltac derive_settable :=
  match goal with
  | |- @Settable ?R ?T ?proj =>
      let inst := constr:(_ : Etable R) in
      let inst := eval red in inst in
      let e := eval pattern proj in inst in
      match e with ?f _ => exact (λ (v : T) (r : R), f (λ _, v) r) end
  end.
#[global] Hint Extern 0 (Settable _) => derive_settable : typeclass_instances.

Declare Scope record_scope.
Delimit Scope record_scope with record.
#[global] Open Scope record_scope.
#[warnings="-postfix-notation-not-level-1"]
Notation "r <| f := v |>" := (set_field (proj:=f) v r)
  (at level 12, f at next level, v at level 200, left associativity,
   format "r  <| f  :=  v |>") : record_scope.

(** ** Comparisons with [NULL] *)

(** [col = $v]. *)
Definition sql_eq {A} `{EqDecision A} (col : option A) (v : A) : bool := bool_decide (col = Some v).

(** [col IS NOT DISTINCT FROM $v]. *)
Definition not_distinct {A} `{EqDecision A} (col v : option A) : bool := bool_decide (col = v).

(** [col IS TRUE]. *)
Definition is_true (col : option bool) : bool := bool_decide (col = Some true).

Definition coalesce {A} (a b : option A) : option A := match a with Some _ => a | None => b end.

(** [now() + make_interval(secs => n)], in microseconds. *)
Definition after_secs (now n : Z) : Z := now + n * 1000000.

(** ** The statement monad *)

(** Why a statement fails: a unique index, or anything else ([CHECK], a
    reference, arithmetic). *)
Inductive DbError := UniqueViolation | OtherError.

Definition stmt (S A : Type) : Type := S → result (A * S) DbError.

#[global] Instance stmt_ret {S} : MRet (stmt S) := λ A x s, Ok (x, s).
#[global] Instance stmt_bind {S} : MBind (stmt S) := λ A B k m s,
  match m s with Ok (x, s) => k x s | Err e => Err e end.

Definition get {S} : stmt S S := λ s, Ok (s, s).
Definition fail_with {S A} (e : DbError) : stmt S A := λ _, Err e.

(** Commit on success; roll back, reporting the failure, otherwise. *)
Definition transaction {S A} (m : stmt S A) (s : S) : result A DbError * S :=
  match m s with Ok (x, s) => (Ok x, s) | Err e => (Err e, s) end.

(** Install a new table if its constraints hold. *)
Definition install {S A} (valid uniq : bool) (x : A) (s' : S) : result (A * S) DbError :=
  if negb valid then Err OtherError else if negb uniq then Err UniqueViolation else Ok (x, s').

(** [UPDATE .. SET .. WHERE .. RETURNING ..] on the rows of a table. *)
Definition update_rows {R} (where_ : R → bool) (set : R → R) (l : list R) : list R * list R :=
  ((λ r, if where_ r then set r else r) <$> l, set <$> filter (λ r, Is_true (where_ r)) l).

(** A unique index on [key] over the rows of a predicate. *)
Definition unique {R K} `{EqDecision K} (p : R → bool) (key : R → K) (l : list R) : bool :=
  bool_decide (NoDup (key <$> filter (λ r, Is_true (p r)) l)).

(** ** Lemmas *)

Lemma elem_of_update_rows {R} (p : R → bool) f l r' :
  r' ∈ (update_rows p f l).1 ↔ ∃ r, r ∈ l ∧ r' = if p r then f r else r.
Proof. simpl. rewrite list_elem_of_fmap. naive_solver. Qed.

Lemma elem_of_returned {R} (p : R → bool) f l r' :
  r' ∈ (update_rows p f l).2 ↔ ∃ r, r ∈ l ∧ p r = true ∧ r' = f r.
Proof.
  simpl. rewrite list_elem_of_fmap. setoid_rewrite list_elem_of_filter.
  setoid_rewrite Is_true_true. naive_solver.
Qed.

Lemma length_update_rows {R} (p : R → bool) f l : length (update_rows p f l).1 = length l.
Proof. apply length_fmap. Qed.

(** An update that keeps a column keeps the column of the table. *)
Lemma update_rows_fmap {R K} (p : R → bool) f (g : R → K) l :
  (∀ r, r ∈ l → p r = true → g (f r) = g r) → g <$> (update_rows p f l).1 = g <$> l.
Proof.
  intros H. simpl. rewrite <-list_fmap_compose. apply list_fmap_ext. intros i r Hr.
  apply list_elem_of_lookup_2 in Hr. simpl. destruct (p r) eqn:E; auto.
Qed.

Lemma bind_stmt {S A B} (m : stmt S A) (k : A → stmt S B) s y s'' :
  (m ≫= k) s = Ok (y, s'') ↔ ∃ x s', m s = Ok (x, s') ∧ k x s' = Ok (y, s'').
Proof. unfold mbind, stmt_bind. destruct (m s) as [[x s']|]; naive_solver. Qed.

Lemma bind_stmt_ok {S A B} (m : stmt S A) (k : A → stmt S B) s x s' :
  m s = Ok (x, s') → (m ≫= k) s = k x s'.
Proof. unfold mbind, stmt_bind. by intros ->. Qed.

Lemma bind_stmt_err {S A B} (m : stmt S A) (k : A → stmt S B) s e :
  m s = Err e → (m ≫= k) s = Err e.
Proof. unfold mbind, stmt_bind. by intros ->. Qed.

Lemma install_ok {S A} valid uniq (x y : A) (s s' : S) :
  install valid uniq x s = Ok (y, s') ↔ valid = true ∧ uniq = true ∧ x = y ∧ s = s'.
Proof. unfold install. destruct valid, uniq; naive_solver. Qed.

(** *** Unique indexes *)

Lemma NoDup_fmap_eq {A B} (f : A → B) l x y :
  NoDup (f <$> l) → x ∈ l → y ∈ l → f x = f y → x = y.
Proof.
  intros Hnd [i Hi]%list_elem_of_lookup [j Hj]%list_elem_of_lookup Hf.
  assert (i = j) as <-; [|congruence].
  eapply NoDup_lookup; [exact Hnd| |]; rewrite list_lookup_fmap; [by rewrite Hi|].
  by rewrite Hj, Hf.
Qed.

Lemma unique_spec {R K} `{EqDecision K} (p : R → bool) (key : R → K) l r s :
  unique p key l = true → r ∈ l → s ∈ l → p r = true → p s = true → key r = key s → r = s.
Proof.
  unfold unique. intros Hu%bool_decide_eq_true Hr Hs Hpr Hps Hk.
  eapply NoDup_fmap_eq; [exact Hu| | |done]; apply list_elem_of_filter; by rewrite Is_true_true.
Qed.

Lemma filter_is_true {R} (l : list R) : filter (λ _, Is_true true) l = l.
Proof. induction l as [|x l IH]; [done|]. by rewrite filter_cons_True, IH. Qed.

Lemma NoDup_fmap_filter_fmap {A K} (P : A → Prop) `{∀ x, Decision (P x)} (key : A → K)
    (f : A → A) l :
  NoDup (key <$> filter P l) →
  (∀ x, x ∈ l → P (f x) → P x ∧ key (f x) = key x) → NoDup (key <$> filter P (f <$> l)).
Proof.
  induction l as [|x l IH]; intros Hnd Hf; [done|].
  assert (NoDup (key <$> filter P (f <$> l))) as Htl.
  { apply IH; [|intros y Hy; apply Hf; set_solver].
    rewrite filter_cons in Hnd. case_decide; [by apply NoDup_cons in Hnd as [_ ?]|done]. }
  rewrite fmap_cons, filter_cons. case_decide as Hp; [|done].
  destruct (Hf x) as [Hx Hk]; [set_solver|done|]. apply NoDup_cons. split; [|done].
  rewrite filter_cons_True in Hnd by done. apply NoDup_cons in Hnd as [Hnd _].
  rewrite Hk. intros (y' & Hy & Hin)%list_elem_of_fmap. apply Hnd.
  apply list_elem_of_filter in Hin as [Hpy (y & -> & Hyl)%list_elem_of_fmap].
  destruct (Hf y) as [Hpy' Hky]; [set_solver|done|]. rewrite Hy, Hky.
  apply list_elem_of_fmap_2, list_elem_of_filter. done.
Qed.

(** An update that takes rows into an index under no new key keeps it. *)
Lemma unique_fmap {R K} `{EqDecision K} (p : R → bool) (key : R → K) (f : R → R) l :
  unique p key l = true →
  (∀ r, r ∈ l → p (f r) = true → p r = true ∧ key (f r) = key r) →
  unique p key (f <$> l) = true.
Proof.
  unfold unique. rewrite !bool_decide_eq_true. intros Hu Hf.
  apply NoDup_fmap_filter_fmap; [done|]. intros x Hx. rewrite !Is_true_true. by apply Hf.
Qed.

Lemma unique_snoc {R K} `{EqDecision K} (p : R → bool) (key : R → K) l s :
  unique p key l = true →
  (p s = true → ∀ r, r ∈ l → p r = true → key r ≠ key s) → unique p key (l ++ [s]) = true.
Proof.
  unfold unique. rewrite !bool_decide_eq_true. intros Hu Hs.
  rewrite filter_app, fmap_app. apply NoDup_app. split; [done|]. split.
  - intros k (r & -> & [Hp Hr]%list_elem_of_filter)%list_elem_of_fmap Hin.
    apply list_elem_of_fmap in Hin as (s' & Hk & [Hps Hs']%list_elem_of_filter).
    apply list_elem_of_singleton in Hs' as ->. by eapply Hs; [apply Is_true_true|..|apply Is_true_true|].
  - rewrite filter_cons. case_decide; simpl; [apply NoDup_singleton|constructor].
Qed.

(** *** Transactions *)

(** A transaction that fails leaves the state as it was. *)
Lemma transaction_spec {S A} (m : stmt S A) s :
  match transaction m s with
  | (Ok x, s') => m s = Ok (x, s')
  | (Err e, s') => m s = Err e ∧ s' = s
  end.
Proof. unfold transaction. by destruct (m s) as [[]|]. Qed.

(** A property of the state that a statement keeps. *)
Definition preserves {S A} (I : S → Prop) (m : stmt S A) : Prop :=
  ∀ s x s', I s → m s = Ok (x, s') → I s'.

Lemma preserves_ret {S A} (I : S → Prop) (x : A) : preserves I (mret x).
Proof. intros s y s' Hs [= _ <-]. done. Qed.

Lemma preserves_fail {S A} (I : S → Prop) e : preserves (A:=A) I (fail_with e).
Proof. intros s y s' _ [=]. Qed.

Lemma preserves_bind {S A B} (I : S → Prop) (m : stmt S A) (k : A → stmt S B) :
  preserves I m → (∀ x, preserves I (k x)) → preserves I (m ≫= k).
Proof.
  intros Hm Hk s y s'' Hs (x & s' & Hx & Hy)%bind_stmt.
  exact (Hk x s' y s'' (Hm s x s' Hs Hx) Hy).
Qed.

Lemma preserves_get {S A} (I : S → Prop) (k : S → stmt S A) :
  (∀ s x s', I s → k s s = Ok (x, s') → I s') → preserves I (get ≫= k).
Proof. intros Hk s x s' Hs (? & ? & [= <- <-] & H)%bind_stmt. eauto. Qed.

Lemma preserves_transaction {S A} (I : S → Prop) (m : stmt S A) s :
  preserves I m → I s → I (transaction m s).2.
Proof. intros Hm Hs. unfold transaction. destruct (m s) as [[x s']|] eqn:E; eauto. Qed.

#[export] Hint Resolve preserves_ret preserves_fail preserves_bind preserves_get : er.
