(* ===== verification/Ledger.v ===== *)
(** * The task ledger

    The rows the dispatcher schedules from: [public.task_instances] and
    [public.jobs], with every statement declared on them
    ([er-entities/src/task_instance.rs] and [er-entities/src/job.rs], whose
    queries are generated from the SQL under [entities/]).  A statement is a
    [stmt] over the two tables: its [WHERE] is the predicate of the update, its
    [SET] the function, its result the [RETURNING] rows.

    Columns with a [CHECK (.. IN ..)] have a type with these values ([state],
    [kind], [archived_reason], the classes) or a test in [row_ok].  A
    timestamp counts microseconds, and [now] is the transaction's [now()].
    [SKIP LOCKED] skips the ids a concurrent transaction holds, a parameter of
    the two claims.  SHA-256 and Postgres's [hashtext] are parameters. *)

From S2P Require Import Prelude Json Ids DagPolicy Dag Readiness Sql.
From stdpp Require Import pretty.

#[local] Open Scope Z_scope.

(** ** Rows *)

Inductive ArchivedReason := Retry | Cleared | Restarted.

#[global] Instance ArchivedReason_eq_dec : EqDecision ArchivedReason.
Proof. solve_decision. Defined.

#[global] Instance NodeKind_eq_dec : EqDecision NodeKind.
Proof. solve_decision. Defined.

Record TaskInstance := mkTaskInstance {
  ti_id : string;
  ti_org_id : string;
  ti_dataset_id : option string;
  ti_job_id : string;
  ti_task_id : string;
  ti_seq : Z;
  ti_try_number : Z;
  ti_live : option bool;
  ti_archived_reason : option ArchivedReason;
  ti_kind : NodeKind;
  ti_state : TaskState;
  ti_trigger_rule : TriggerRule;
  ti_upstream : json;
  ti_teardown : bool;
  ti_segment : option string;
  ti_resource_class : option ResourceClass;
  ti_next_resource_class : option ResourceClass;
  ti_escalated_from : option ResourceClass;
  ti_max_tries : Z;
  ti_launches : Z;
  ti_max_launches : Z;
  ti_not_before : option Z;
  ti_input : option json;
  ti_output : option json;
  ti_outcome : option string;
  ti_exit_code : option Z;
  ti_termination_reason : option string;
  ti_error_class : option string;
  ti_error_detail : option string;
  ti_owner_epoch : option string;
  ti_k8s_job_name : option string;
  ti_pod_name : option string;
  ti_pod_uid : option string;
  ti_node_name : option string;
  ti_image_digest : option string;
  ti_snapshot_start : option Z;
  ti_snapshot_end : option Z;
  ti_counters : option json;
  ti_trace_context : option string;
  ti_token_hash : option string;
  ti_scheduled_at : option Z;
  ti_queued_at : option Z;
  ti_started_at : option Z;
  ti_heartbeat_at : option Z;
  ti_finished_at : option Z;
  ti_created_at : Z;
  ti_updated_at : Z;
}.

#[global] Instance TaskInstance_eta : Etable TaskInstance := λ r, mkTaskInstance
    (ti_id r) (ti_org_id r) (ti_dataset_id r) (ti_job_id r) (ti_task_id r)
    (ti_seq r) (ti_try_number r) (ti_live r) (ti_archived_reason r) (ti_kind r)
    (ti_state r) (ti_trigger_rule r) (ti_upstream r) (ti_teardown r) (ti_segment r)
    (ti_resource_class r) (ti_next_resource_class r) (ti_escalated_from r)
    (ti_max_tries r) (ti_launches r) (ti_max_launches r) (ti_not_before r)
    (ti_input r) (ti_output r) (ti_outcome r) (ti_exit_code r)
    (ti_termination_reason r) (ti_error_class r) (ti_error_detail r)
    (ti_owner_epoch r) (ti_k8s_job_name r) (ti_pod_name r) (ti_pod_uid r)
    (ti_node_name r) (ti_image_digest r) (ti_snapshot_start r) (ti_snapshot_end r)
    (ti_counters r) (ti_trace_context r) (ti_token_hash r) (ti_scheduled_at r)
    (ti_queued_at r) (ti_started_at r) (ti_heartbeat_at r) (ti_finished_at r)
    (ti_created_at r) (ti_updated_at r).

Record Job := mkJob {
  job_id : string;
  job_org_id : string;
  job_dataset_id : option string;
  job_kind : string;
  job_params : json;
  job_state : string;
  job_priority : Z;
  job_idempotency_key : option string;
  job_run_id : option string;
  job_attempt : Z;
  job_max_attempts : Z;
  job_error_class : option string;
  job_error_detail : option string;
  job_not_before : option Z;
  job_created_by : option string;
  job_schedule_id : option string;
  job_resource_class : option string;
  job_trace_context : option string;
  job_structural_fingerprint : option string;
  job_policy_hash : option string;
  job_image_digest : option string;
  job_clear_number : option Z;
  job_owner_epoch : option string;
  job_created_at : Z;
  job_updated_at : Z;
  job_started_at : option Z;
  job_finished_at : option Z;
}.

#[global] Instance Job_eta : Etable Job := λ r, mkJob
    (job_id r) (job_org_id r) (job_dataset_id r) (job_kind r) (job_params r)
    (job_state r) (job_priority r) (job_idempotency_key r) (job_run_id r)
    (job_attempt r) (job_max_attempts r) (job_error_class r) (job_error_detail r)
    (job_not_before r) (job_created_by r) (job_schedule_id r) (job_resource_class r)
    (job_trace_context r) (job_structural_fingerprint r) (job_policy_hash r)
    (job_image_digest r) (job_clear_number r) (job_owner_epoch r) (job_created_at r)
    (job_updated_at r) (job_started_at r) (job_finished_at r).

(** The two tables, and the tenants' own cap on concurrent jobs. *)
Record Db := mkDb {
  task_instances : list TaskInstance;
  jobs : list Job;
  max_concurrent_jobs : string → option Z;
}.

#[global] Instance Db_eta : Etable Db :=
  λ d, mkDb (task_instances d) (jobs d) (max_concurrent_jobs d).

(** ** Constraints *)

Definition is_live (r : TaskInstance) : bool := is_true (ti_live r).

Definition state_in (l : list TaskState) (r : TaskInstance) : bool := bool_decide (ti_state r ∈ l).

Definition is_pod (r : TaskInstance) : bool := bool_decide (ti_kind r = Pod).

(** The predicate of the one-pod indexes. *)
Definition active_pod (r : TaskInstance) : bool :=
  is_live r && is_pod r && state_in [Queued; Running; Restarting; Canceling] r.

Definition ERROR_CLASSES : list string :=
  ["transient_io"; "lock_conflict"; "precondition"; "config"; "contradiction";
   "non_convergence"; "data"; "internal"; "infrastructure"; "resources"; "timeout"].

Definition bigint (z : Z) : bool := bool_decide (- 2 ^ 63 ≤ z < 2 ^ 63)%Z.

(** The [CHECK]s no type carries, and the range of the computed columns. *)
Definition row_ok (r : TaskInstance) : bool :=
  bool_decide (ti_escalated_from r ≠ Some ClassL)
  && match ti_outcome r with Some o => bool_decide (o ∈ ["done"; "no_op"]) | None => true end
  && match ti_error_class r with Some c => bool_decide (c ∈ ERROR_CLASSES) | None => true end
  && bigint (ti_try_number r) && bigint (ti_max_tries r) && bigint (ti_launches r).

Definition attempt_key (r : TaskInstance) : string * string * Z :=
  (ti_job_id r, ti_task_id r, ti_try_number r).

(** [CREATE TABLE public.task_instances]: checks and the reference to the job. *)
Definition rows_ok (jobs : list Job) (l : list TaskInstance) : bool :=
  forallb row_ok l && forallb (λ r, bool_decide (ti_job_id r ∈ job_id <$> jobs)) l.

(** Its keys and unique indexes. *)
Definition rows_unique (l : list TaskInstance) : bool :=
  unique (λ _, true) ti_id l
  && unique (λ _, true) attempt_key l
  && unique is_live (λ r, (ti_job_id r, ti_task_id r)) l
  && unique (λ r, active_pod r && bool_decide (is_Some (ti_dataset_id r))) ti_dataset_id l
  && unique (λ r, active_pod r && bool_decide (ti_dataset_id r = None)) ti_org_id l.

Definition active_states : list string := ["dispatching"; "running"; "canceling"].

Definition active_job (j : Job) : bool := bool_decide (job_state j ∈ active_states).

(** [CREATE TABLE public.jobs] with its unique indexes. *)
Definition jobs_ok (l : list Job) : bool :=
  unique (λ _, true) job_id l
  && unique (λ j, bool_decide (is_Some (job_idempotency_key j)))
       (λ j, (job_org_id j, job_idempotency_key j)) l
  && unique (λ j, active_job j && bool_decide (is_Some (job_dataset_id j))) job_dataset_id l
  && unique (λ j, active_job j && bool_decide (job_dataset_id j = None)) job_org_id l.

(** ** Statements *)

Definition update_tis (where_ : Db → TaskInstance → bool) (set : TaskInstance → TaskInstance) :
    stmt Db (list TaskInstance) := λ d,
  let '(l, ret) := update_rows (where_ d) set (task_instances d) in
  install (rows_ok (jobs d) l) (rows_unique l) ret (d <| task_instances := l |>).

Definition insert_tis (new : list TaskInstance) : stmt Db (list TaskInstance) := λ d,
  let l := task_instances d ++ new in
  install (rows_ok (jobs d) l) (rows_unique l) new (d <| task_instances := l |>).

Definition update_jobs (where_ : Db → Job → bool) (set : Job → Job) : stmt Db (list Job) := λ d,
  let '(l, ret) := update_rows (where_ d) set (jobs d) in
  install true (jobs_ok l) ret (d <| jobs := l |>).

(** The [SELECT .. FROM public.jobs j WHERE j.id = ..] of a guard. *)
Definition job_of (d : Db) (id : string) : option Job :=
  find_first (λ j, bool_decide (job_id j = id)) (jobs d).

(** [(SELECT COALESCE(j.clear_number, 0) FROM .. WHERE j.id = job_id) = $n]. *)
Definition clear_number_is (d : Db) (r : TaskInstance) (n : Z) : bool :=
  match job_of d (ti_job_id r) with
  | Some j => bool_decide (default 0%Z (job_clear_number j) = n)
  | None => false
  end.

(** [j.state = 'running' OR (j.state = 'canceling' AND t.teardown)]. *)
Definition job_admits (j : Job) (r : TaskInstance) : bool :=
  bool_decide (job_state j = "running")
  || (bool_decide (job_state j = "canceling") && ti_teardown r).

Section statements.
Context (sha256 : string → list Z) (hashtext : string → Z) (now : Z).

(** The SQL recipe of a successor's id. *)
Definition sql_attempt_id (job_id task_id : string) (try_number : Z) : string :=
  hex_of (sha256 ("task_instances:" +:+ job_id +:+ ":" +:+ task_id +:+ ":" +:+ pretty try_number)).

(** The columns of an [INSERT] that lists none of the others. *)
Definition new_row (id org_id : string) (dataset_id : option string) (job_id task_id : string)
    (seq try_number : Z) (kind : NodeKind) (state : TaskState) (rule : TriggerRule)
    (upstream : json) (teardown : bool) (segment : option string)
    (resource_class : option ResourceClass) (max_tries max_launches : Z)
    (image_digest trace_context : option string) : TaskInstance :=
  {| ti_id := id; ti_org_id := org_id; ti_dataset_id := dataset_id; ti_job_id := job_id;
     ti_task_id := task_id; ti_seq := seq; ti_try_number := try_number; ti_live := Some true;
     ti_archived_reason := None; ti_kind := kind; ti_state := state; ti_trigger_rule := rule;
     ti_upstream := upstream; ti_teardown := teardown; ti_segment := segment;
     ti_resource_class := resource_class; ti_next_resource_class := None;
     ti_escalated_from := None; ti_max_tries := max_tries; ti_launches := 0;
     ti_max_launches := max_launches; ti_not_before := None; ti_input := None;
     ti_output := None; ti_outcome := None; ti_exit_code := None;
     ti_termination_reason := None; ti_error_class := None; ti_error_detail := None;
     ti_owner_epoch := None; ti_k8s_job_name := None; ti_pod_name := None; ti_pod_uid := None;
     ti_node_name := None; ti_image_digest := image_digest; ti_snapshot_start := None;
     ti_snapshot_end := None; ti_counters := None; ti_trace_context := trace_context;
     ti_token_hash := None; ti_scheduled_at := None; ti_queued_at := None;
     ti_started_at := None; ti_heartbeat_at := None; ti_finished_at := None;
     ti_created_at := now; ti_updated_at := now |}.

(** *** [create] *)

(** No live row of the same job and task. *)
Definition no_live_sibling (l : list TaskInstance) (r : TaskInstance) : bool :=
  forallb (λ s, negb (bool_decide (ti_job_id s = ti_job_id r)
                      && bool_decide (ti_task_id s = ti_task_id r) && is_live s)) l.

Definition cleared_successor (resource_class : option ResourceClass) (retries : Z)
    (image_digest : option string) (r : TaskInstance) : TaskInstance :=
  new_row (sql_attempt_id (ti_job_id r) (ti_task_id r) (ti_try_number r + 1)) (ti_org_id r)
    (ti_dataset_id r) (ti_job_id r) (ti_task_id r) (ti_seq r) (ti_try_number r + 1) (ti_kind r)
    SNone (ti_trigger_rule r) (ti_upstream r) (ti_teardown r) (ti_segment r)
    (coalesce resource_class (coalesce (ti_next_resource_class r) (ti_resource_class r)))
    (ti_try_number r + retries) (ti_max_launches r) image_digest (ti_trace_context r).

Definition insert_cleared_try (resource_class : option ResourceClass) (retries : Z)
    (image_digest : option string) (task_instance_id : string) : stmt Db (list TaskInstance) :=
  d ← get;
  insert_tis (cleared_successor resource_class retries image_digest <$>
    filter (λ r, Is_true (bool_decide (ti_id r = task_instance_id)
                   && bool_decide (ti_live r = None)
                   && bool_decide (ti_archived_reason r ∈ [Some Cleared; Some Restarted])
                   && no_live_sibling (task_instances d) r)) (task_instances d)).

(** [least(cap, base * power(2, try_number - 1))::int]. *)
Definition retry_delay (cap base try_number : Z) : Z :=
  Z.min cap (base * 2 ^ (try_number - 1)).

Definition retry_jitter (r : TaskInstance) (delay : Z) : Z :=
  Z.abs (hashtext (ti_job_id r +:+ "#" +:+ ti_task_id r +:+ "#" +:+ pretty (ti_try_number r)))
    `mod` delay.

(** The class a retry runs at. *)
Definition retry_class (escalate : bool) (c : option ResourceClass) : option ResourceClass :=
  match c with
  | Some ClassS => if escalate then Some ClassM else c
  | Some ClassM => if escalate then Some ClassL else c
  | _ => c
  end.

Definition retry_successor (escalate : bool) (cap base : Z) (r : TaskInstance) : TaskInstance :=
  let delay := retry_delay cap base (ti_try_number r) in
  new_row (sql_attempt_id (ti_job_id r) (ti_task_id r) (ti_try_number r + 1)) (ti_org_id r)
    (ti_dataset_id r) (ti_job_id r) (ti_task_id r) (ti_seq r) (ti_try_number r + 1) (ti_kind r)
    UpForRetry (ti_trigger_rule r) (ti_upstream r) (ti_teardown r)
    (if escalate then None else ti_segment r) (retry_class escalate (ti_resource_class r))
    (ti_max_tries r) (ti_max_launches r) (ti_image_digest r) (ti_trace_context r)
  <| ti_escalated_from := if escalate then ti_resource_class r else None |>
  <| ti_not_before := Some (after_secs now (delay + retry_jitter r delay)) |>
  <| ti_input := ti_input r |>.

(** [mod] by zero and [power] past the range of a [double precision] fail. *)
Definition retry_computes (cap base : Z) (r : TaskInstance) : bool :=
  bool_decide (retry_delay cap base (ti_try_number r) ≠ 0)%Z
  && bool_decide (ti_try_number r - 1 < 1024)%Z.

Definition insert_retry_try (escalate : bool) (backoff_cap backoff_base : Z)
    (task_instance_id : string) : stmt Db (list TaskInstance) :=
  d ← get;
  let rows :=
    filter (λ r, Is_true (bool_decide (ti_id r = task_instance_id)
                   && bool_decide (ti_live r = None)
                   && bool_decide (ti_archived_reason r = Some Retry)
                   && no_live_sibling (task_instances d) r)) (task_instances d) in
  if forallb (retry_computes backoff_cap backoff_base) rows
  then insert_tis (retry_successor escalate backoff_cap backoff_base <$> rows)
  else fail_with OtherError.

(** [create/plan]: [ON CONFLICT (job_id, task_id, try_number) DO NOTHING]. *)
Definition insert_planned (row : TaskInstance) : stmt Db (list TaskInstance) :=
  d ← get;
  if bool_decide (attempt_key row ∈ attempt_key <$> task_instances d) then mret []
  else insert_tis [row].

(** *** [read] *)

Definition by_job_le (a b : TaskInstance) : Prop :=
  (ti_seq a < ti_seq b ∨ ti_seq a = ti_seq b ∧ ti_try_number a ≤ ti_try_number b)%Z.

#[global] Instance by_job_le_dec a b : Decision (by_job_le a b).
Proof. unfold by_job_le. apply _. Defined.

Definition by_job (org_id job_id : string) (d : Db) : list TaskInstance :=
  merge_sort by_job_le
    (filter (λ r, ti_org_id r = org_id ∧ ti_job_id r = job_id) (task_instances d)).

Definition claimed_le (a b : TaskInstance) : Prop :=
  str_lt (ti_job_id a) (ti_job_id b)
  ∨ ti_job_id a = ti_job_id b ∧ (ti_seq a ≤ ti_seq b)%Z.

#[global] Instance claimed_le_dec a b : Decision (claimed_le a b).
Proof. unfold claimed_le, str_lt. apply _. Defined.

Definition live_claimed_pods (d : Db) : list TaskInstance :=
  merge_sort claimed_le
    (filter (λ r, Is_true (active_pod r) ∧ ti_k8s_job_name r ≠ Some "inproc") (task_instances d)).

(** The recursive query walks back over the tries archived for a retry; the
    try numbers decrease, so one turn per row of the table is enough. *)
Fixpoint lineage (fuel : nat) (l : list TaskInstance) (r : TaskInstance) : list TaskInstance :=
  match fuel with
  | O => [r]
  | S fuel =>
      r :: (p ← filter (λ p, ti_job_id p = ti_job_id r ∧ ti_task_id p = ti_task_id r
                        ∧ ti_try_number p = (ti_try_number r - 1)%Z
                        ∧ ti_live p = None ∧ ti_archived_reason p = Some Retry) l;
            lineage fuel l p)
  end.

(** [ORDER BY try_number DESC]: the walk's own order. *)
Definition retry_lineage (task_instance_id : string) (d : Db) : list TaskInstance :=
  r ← filter (λ r, ti_id r = task_instance_id) (task_instances d);
  lineage (length (task_instances d)) (task_instances d) r.

Definition heartbeat_le (a b : TaskInstance) : Prop :=
  (default 0 (ti_heartbeat_at a) ≤ default 0 (ti_heartbeat_at b))%Z.

#[global] Instance heartbeat_le_dec a b : Decision (heartbeat_le a b).
Proof. unfold heartbeat_le. apply _. Defined.

Definition stale_heartbeats (owner_epoch : string) (stale_secs : Z) (d : Db) :
    list TaskInstance :=
  merge_sort heartbeat_le
    (filter (λ r, Is_true (is_live r && is_pod r && state_in [Running] r)
               ∧ ti_k8s_job_name r ≠ Some "inproc" ∧ ti_owner_epoch r = Some owner_epoch
               ∧ Is_true (match ti_heartbeat_at r with
                          | Some t => (t <? after_secs now (- stale_secs))%Z
                          | None => false
                          end)) (task_instances d)).

(** *** [update] *)

Definition touch (r : TaskInstance) : TaskInstance := r <| ti_updated_at := now |>.

Definition adopt (owner_epoch : string) : stmt Db (list TaskInstance) :=
  update_tis (λ _ r, is_live r && state_in [Queued; Running; Restarting; Canceling] r)
    (λ r, touch (r <| ti_owner_epoch := Some owner_epoch |>)).

Definition advance_segment (k8s_job_name owner_epoch : string) (pod_name : option string)
    (pod_uid : string) (node_name image_digest : option string) (input : json)
    (next_task_instance_id job_id segment : string) (resource_class : ResourceClass)
    (clear_number : Z) : stmt Db (list TaskInstance) :=
  update_tis (λ d r,
      bool_decide (ti_id r = next_task_instance_id) && is_live r && is_pod r
      && state_in [SNone] r && bool_decide (ti_job_id r = job_id)
      && sql_eq (ti_segment r) segment && sql_eq (ti_resource_class r) resource_class
      && clear_number_is d r clear_number)
    (λ r, touch (r <| ti_state := Running |> <| ti_k8s_job_name := Some k8s_job_name |>
      <| ti_owner_epoch := Some owner_epoch |> <| ti_pod_name := pod_name |>
      <| ti_pod_uid := Some pod_uid |> <| ti_node_name := node_name |>
      <| ti_image_digest := image_digest |> <| ti_input := Some input |> <| ti_launches := 1 |>
      <| ti_scheduled_at := Some now |> <| ti_queued_at := Some now |>
      <| ti_started_at := Some now |> <| ti_heartbeat_at := Some now |>)).

Definition terminal_states : list TaskState :=
  [Succeeded; Skipped; Failed; TimedOut; UpstreamFailed; UpstreamSkipped; Canceled].

(** A row of the job and of one of the listed tasks, live and in a state. *)
Definition in_clear (org_id job_id : string) (task_ids : list string) (states : list TaskState)
    (r : TaskInstance) : bool :=
  bool_decide (ti_org_id r = org_id) && bool_decide (ti_job_id r = job_id) && is_live r
  && state_in states r && bool_decide (ti_task_id r ∈ task_ids).

Definition archive_cleared (org_id job_id : string) (task_ids : list string) :
    stmt Db (list TaskInstance) :=
  update_tis (λ _, in_clear org_id job_id task_ids terminal_states)
    (λ r, touch (r <| ti_live := None |> <| ti_archived_reason := Some Cleared |>)).

Definition archive_restarted (exit_code : option Z) (termination_reason : option string)
    (task_instance_id : string) (k8s_job_name : option string) : stmt Db (list TaskInstance) :=
  update_tis (λ _ r,
      bool_decide (ti_id r = task_instance_id) && is_live r && state_in [Restarting] r
      && not_distinct (ti_k8s_job_name r) k8s_job_name)
    (λ r, touch (r <| ti_state := Failed |> <| ti_live := None |>
      <| ti_archived_reason := Some Restarted |> <| ti_exit_code := exit_code |>
      <| ti_termination_reason := termination_reason |> <| ti_finished_at := Some now |>)).

Definition archive_try (terminal_state : TaskState) (retryable : bool) (exit_code : option Z)
    (termination_reason error_class error_detail : option string) (task_instance_id : string)
    (k8s_job_name : option string) : stmt Db (list TaskInstance) :=
  update_tis (λ d r,
      bool_decide (ti_id r = task_instance_id) && is_live r && state_in [Queued; Running] r
      && not_distinct (ti_k8s_job_name r) k8s_job_name
      && existsb (λ j, bool_decide (job_id j = ti_job_id r) && job_admits j r) (jobs d))
    (λ r,
      let again := retryable && (ti_try_number r <=? ti_max_tries r)%Z in
      touch (r <| ti_state := terminal_state |>
        <| ti_live := if again then None else Some true |>
        <| ti_archived_reason := if again then Some Retry else ti_archived_reason r |>
        <| ti_exit_code := exit_code |> <| ti_termination_reason := termination_reason |>
        <| ti_error_class := error_class |> <| ti_error_detail := error_detail |>
        <| ti_finished_at := Some now |>)).

Definition of_job (org_id job_id : string) (r : TaskInstance) : bool :=
  bool_decide (ti_org_id r = org_id) && bool_decide (ti_job_id r = job_id).

Definition cancel_live (org_id job_id : string) : stmt Db (list TaskInstance) :=
  update_tis (λ _ r, of_job org_id job_id r && is_live r
                     && state_in [Queued; Running; Restarting] r && negb (ti_teardown r))
    (λ r, touch (r <| ti_state := Canceling |>)).

Definition cancel_pending (org_id job_id : string) : stmt Db (list TaskInstance) :=
  update_tis (λ _ r, of_job org_id job_id r && is_live r
                     && state_in [SNone; Scheduled; UpForRetry] r && negb (ti_teardown r))
    (λ r, touch (r <| ti_state := Canceled |> <| ti_finished_at := Some now |>)).

Definition capacity_wait (wait_secs : Z) (termination_reason : option string)
    (task_instance_id k8s_job_name : string) : stmt Db (list TaskInstance) :=
  update_tis (λ _ r,
      bool_decide (ti_id r = task_instance_id) && is_live r && state_in [Queued] r
      && sql_eq (ti_k8s_job_name r) k8s_job_name && (0 <? ti_launches r)%Z)
    (λ r, touch (r <| ti_state := Scheduled |> <| ti_launches := ti_launches r - 1 |>
      <| ti_k8s_job_name := None |> <| ti_pod_name := None |> <| ti_pod_uid := None |>
      <| ti_not_before := Some (after_secs now wait_secs) |>
      <| ti_termination_reason := termination_reason |>)).

(** A row a claim may take: live, due, of a job that admits it. *)
Definition claimable (kind : NodeKind) (locked : gset string) (t : TaskInstance) (j : Job) : bool :=
  bool_decide (job_id j = ti_job_id t) && is_live t && bool_decide (ti_kind t = kind)
  && state_in [Scheduled; UpForRetry] t
  && match ti_not_before t with None => true | Some b => (b <=? now)%Z end
  && job_admits j t && bool_decide (ti_id t ∉ locked).

(** [ORDER BY j.priority DESC, j.id, t.seq]. *)
Definition claim_cmp (a b : TaskInstance * Job) : comparison :=
  match Z.compare (job_priority b.2) (job_priority a.2) with
  | Eq => match String.compare (job_id a.2) (job_id b.2) with
          | Eq => Z.compare (ti_seq a.1) (ti_seq b.1)
          | c => c
          end
  | c => c
  end.

(** The [SELECT t.id .. LIMIT 1] of a claim. *)
Definition claim_pick (admits : TaskInstance → bool) (kind : NodeKind) (locked : gset string)
    (d : Db) : option string :=
  best ← min_by claim_cmp
    (filter (λ p, Is_true (claimable kind locked p.1 p.2 && admits p.1))
       (t ← task_instances d; j ← jobs d; [(t, j)]));
  Some (ti_id best.1).

Definition claim_control (locked : gset string) (owner_epoch : string) :
    stmt Db (list TaskInstance) :=
  d ← get;
  update_tis (λ _ r, bool_decide (claim_pick (λ _, true) Control locked d = Some (ti_id r)))
    (λ r, touch (r <| ti_state := Running |> <| ti_started_at := Some now |>
      <| ti_heartbeat_at := Some now |> <| ti_owner_epoch := Some owner_epoch |>)).

(** The tenant has no pod, and the fleet is below the cap. *)
Definition launch_admits (in_flight_cap : Z) (d : Db) (t : TaskInstance) : bool :=
  forallb (λ a, negb (bool_decide (ti_org_id a = ti_org_id t) && active_pod a)) (task_instances d)
  && (Z.of_nat (length (filter (λ c, Is_true (is_live c && is_pod c && state_in [Queued; Running] c)
                                     ∧ ti_k8s_job_name c ≠ Some "inproc") (task_instances d)))
      <? in_flight_cap)%Z.

Definition launch_name (r : TaskInstance) : string :=
  "er-t-" +:+ String.substring 0 20 (ti_id r) +:+ "-l" +:+ pretty (ti_launches r + 1)%Z.

Definition claim_launch_stmt (locked : gset string) (owner_epoch : string)
    (k8s_job_name token_hash : option string) (in_flight_cap : Z) : stmt Db (list TaskInstance) :=
  d ← get;
  update_tis (λ _ r,
      bool_decide (claim_pick (launch_admits in_flight_cap d) Pod locked d = Some (ti_id r)))
    (λ r, touch (r <| ti_state := Queued |> <| ti_queued_at := Some now |>
      <| ti_owner_epoch := Some owner_epoch |> <| ti_launches := ti_launches r + 1 |>
      <| ti_k8s_job_name := coalesce k8s_job_name (Some (launch_name r)) |>
      <| ti_token_hash := token_hash |>)).

Definition finish (skipped : bool) (outcome : string) (output : option json)
    (snapshot_start snapshot_end : option Z) (counters : option json) (exit_code : option Z)
    (task_instance_id pod_uid : string) : stmt Db (list TaskInstance) :=
  update_tis (λ _ r,
      bool_decide (ti_id r = task_instance_id) && is_live r && state_in [Running] r
      && sql_eq (ti_pod_uid r) pod_uid)
    (λ r, touch (r <| ti_state := if skipped then Skipped else Succeeded |>
      <| ti_outcome := Some outcome |> <| ti_output := output |>
      <| ti_snapshot_start := snapshot_start |> <| ti_snapshot_end := snapshot_end |>
      <| ti_counters := coalesce counters (ti_counters r) |> <| ti_exit_code := exit_code |>
      <| ti_token_hash := None |> <| ti_finished_at := Some now |>)).

Definition finish_control (skipped : bool) (outcome : string) (output counters : option json)
    (task_instance_id owner_epoch : string) : stmt Db (list TaskInstance) :=
  update_tis (λ _ r,
      bool_decide (ti_id r = task_instance_id) && is_live r && state_in [Running] r
      && bool_decide (ti_kind r = Control) && sql_eq (ti_owner_epoch r) owner_epoch)
    (λ r, touch (r <| ti_state := if skipped then Skipped else Succeeded |>
      <| ti_outcome := Some outcome |> <| ti_output := output |>
      <| ti_counters := coalesce counters (ti_counters r) |> <| ti_finished_at := Some now |>)).

Definition heartbeat (counters : option json) (task_instance_id pod_uid : string) :
    stmt Db (list TaskInstance) :=
  update_tis (λ _ r,
      bool_decide (ti_id r = task_instance_id) && is_live r && state_in [Running] r
      && sql_eq (ti_pod_uid r) pod_uid)
    (λ r, touch (r <| ti_heartbeat_at := Some now |>
      <| ti_counters := coalesce counters (ti_counters r) |>)).

Definition mark_scheduled (input : json) (task_instance_id : string) (clear_number : Z) :
    stmt Db (list TaskInstance) :=
  update_tis (λ d r,
      bool_decide (ti_id r = task_instance_id) && is_live r && state_in [SNone] r
      && clear_number_is d r clear_number)
    (λ r, touch (r <| ti_state := Scheduled |> <| ti_scheduled_at := Some now |>
      <| ti_input := Some input |>)).

Definition note_interruption (termination_reason : string) (counters : option json)
    (task_instance_id pod_uid : string) : stmt Db (list TaskInstance) :=
  update_tis (λ _ r,
      bool_decide (ti_id r = task_instance_id) && is_live r
      && state_in [Running; Restarting; Canceling] r && sql_eq (ti_pod_uid r) pod_uid)
    (λ r, touch (r <| ti_termination_reason := Some termination_reason |>
      <| ti_counters := coalesce counters (ti_counters r) |>)).

Definition propagate (state : TaskState) (task_instance_id : string) (clear_number : Z) :
    stmt Db (list TaskInstance) :=
  update_tis (λ d r,
      bool_decide (ti_id r = task_instance_id) && is_live r && state_in [SNone] r
      && clear_number_is d r clear_number)
    (λ r, touch (r <| ti_state := state |> <| ti_finished_at := Some now |>)).

Definition record_evidence (exit_code : option Z) (termination_reason : option string)
    (task_instance_id pod_uid k8s_job_name : string) : stmt Db (list TaskInstance) :=
  update_tis (λ _ r,
      bool_decide (ti_id r = task_instance_id) && sql_eq (ti_pod_uid r) pod_uid
      && sql_eq (ti_k8s_job_name r) k8s_job_name && state_in [Succeeded; Skipped] r)
    (λ r, touch (r <| ti_exit_code := exit_code |>
      <| ti_termination_reason := termination_reason |>)).

Definition requeue_launch (wait_secs : Z) (termination_reason : option string)
    (task_instance_id k8s_job_name : string) : stmt Db (list TaskInstance) :=
  update_tis (λ _ r,
      bool_decide (ti_id r = task_instance_id) && is_live r && state_in [Queued; Running] r
      && sql_eq (ti_k8s_job_name r) k8s_job_name && (ti_launches r <? ti_max_launches r)%Z)
    (λ r, touch (r <| ti_state := Scheduled |> <| ti_k8s_job_name := None |>
      <| ti_pod_name := None |> <| ti_pod_uid := None |> <| ti_node_name := None |>
      <| ti_not_before := Some (after_secs now wait_secs) |>
      <| ti_termination_reason := termination_reason |>)).

Definition reset_pending (retries : Z) (resource_class : option ResourceClass)
    (image_digest : option string) (org_id job_id : string) (task_ids : list string) :
    stmt Db (list TaskInstance) :=
  update_tis (λ _, in_clear org_id job_id task_ids [SNone; Scheduled; UpForRetry])
    (λ r, touch (r <| ti_state := SNone |> <| ti_input := None |> <| ti_not_before := None |>
      <| ti_scheduled_at := None |> <| ti_max_tries := ti_try_number r - 1 + retries |>
      <| ti_resource_class := coalesce resource_class (ti_resource_class r) |>
      <| ti_image_digest := image_digest |>)).

Definition restart_cleared (resource_class : option ResourceClass) (org_id job_id : string)
    (task_ids : list string) : stmt Db (list TaskInstance) :=
  update_tis (λ _, in_clear org_id job_id task_ids [Queued; Running])
    (λ r, touch (r <| ti_state := Restarting |> <| ti_next_resource_class := resource_class |>)).

Definition settle_canceled (exit_code : option Z) (termination_reason : option string)
    (task_instance_id : string) (k8s_job_name : option string) : stmt Db (list TaskInstance) :=
  update_tis (λ _ r,
      bool_decide (ti_id r = task_instance_id) && is_live r && state_in [Canceling] r
      && not_distinct (ti_k8s_job_name r) k8s_job_name)
    (λ r, touch (r <| ti_state := Canceled |> <| ti_exit_code := exit_code |>
      <| ti_termination_reason := termination_reason |> <| ti_finished_at := Some now |>)).

Definition start (pod_name : option string) (pod_uid : string)
    (node_name image_digest : option string) (task_instance_id k8s_job_name : string) :
    stmt Db (list TaskInstance) :=
  update_tis (λ _ r,
      bool_decide (ti_id r = task_instance_id) && is_live r && state_in [Queued] r
      && sql_eq (ti_k8s_job_name r) k8s_job_name)
    (λ r, touch (r <| ti_state := Running |> <| ti_pod_name := pod_name |>
      <| ti_pod_uid := Some pod_uid |> <| ti_node_name := node_name |>
      <| ti_image_digest := image_digest |> <| ti_started_at := Some now |>
      <| ti_heartbeat_at := Some now |>)).

(** *** Jobs *)

Definition job_touch (j : Job) : Job := j <| job_updated_at := now |>.

(** The row of an [INSERT], with the defaults of the columns it leaves out. *)
Definition new_job (id org_id : string) (dataset_id : option string) (kind : string)
    (priority : Z) (idempotency_key : option string) (params : option json)
    (created_by schedule_id trace_context : option string) : Job :=
  {| job_id := id; job_org_id := org_id; job_dataset_id := dataset_id; job_kind := kind;
     job_params := default (JObject []) params; job_state := "queued"; job_priority := priority;
     job_idempotency_key := idempotency_key; job_run_id := None; job_attempt := 0;
     job_max_attempts := 3; job_error_class := None; job_error_detail := None;
     job_not_before := None; job_created_by := created_by; job_schedule_id := schedule_id;
     job_resource_class := None; job_trace_context := trace_context;
     job_structural_fingerprint := None; job_policy_hash := None; job_image_digest := None;
     job_clear_number := None; job_owner_epoch := None; job_created_at := now;
     job_updated_at := now; job_started_at := None; job_finished_at := None |}.

(** [ON CONFLICT (org_id, idempotency_key) ..]: an existing row of the same
    tenant and key is returned instead, only its clock moved. *)
Definition insert_job (row : Job) : stmt Db (list Job) :=
  d ← get;
  let dup j := bool_decide (job_org_id j = job_org_id row)
               && bool_decide (is_Some (job_idempotency_key row))
               && bool_decide (job_idempotency_key j = job_idempotency_key row) in
  if existsb dup (jobs d) then update_jobs (λ _, dup) job_touch
  else
    let l := jobs d ++ [row] in
    λ d, install true (jobs_ok l) [row] (d <| jobs := l |>).

Definition enqueue (id org_id : string) (dataset_id : option string) (kind : string)
    (priority : Z) (idempotency_key : option string) (params : option json)
    (created_by trace_context : option string) : stmt Db (list Job) :=
  insert_job (new_job id org_id dataset_id kind priority idempotency_key params created_by None
    trace_context).

Definition enqueue_scheduled (id org_id : string) (dataset_id : option string) (kind : string)
    (priority : Z) (idempotency_key : option string) (params : option json)
    (schedule_id : string) (trace_context : option string) : stmt Db (list Job) :=
  insert_job (new_job id org_id dataset_id kind priority idempotency_key params
    (Some "scheduler") (Some schedule_id) trace_context).

Definition job_adopt (owner_epoch : string) : stmt Db (list Job) :=
  update_jobs (λ _ j, bool_decide (job_state j ∈ ["running"; "canceling"]))
    (λ j, job_touch (j <| job_owner_epoch := Some owner_epoch |>)).

Definition job_cancel (id org_id : string) : stmt Db (list Job) :=
  update_jobs (λ _ j, bool_decide (job_id j = id) && bool_decide (job_org_id j = org_id)
                      && bool_decide (job_state j ∈ ["queued"; "dispatching"; "running"]))
    (λ j,
      let queued := bool_decide (job_state j = "queued") in
      job_touch (j <| job_state := if queued then "canceled" else "canceling" |>
        <| job_finished_at := if queued then Some now else job_finished_at j |>)).

(** The writer lock: no active job of the same dataset, none of the tenant's
    own level beside it, and nothing of the tenant beside a tenant-level job. *)
Definition writer_conflict (j a : Job) : bool :=
  active_job a
  && match job_dataset_id j with
     | Some ds => bool_decide (job_dataset_id a = Some ds)
                  || bool_decide (job_org_id a = job_org_id j)
                     && bool_decide (job_dataset_id a = None)
     | None => bool_decide (job_org_id a = job_org_id j)
     end.

Definition job_claimable (default_cap : Z) (locked : gset string) (d : Db) (j : Job) : bool :=
  bool_decide (job_state j = "queued")
  && match job_not_before j with None => true | Some b => (b <=? now)%Z end
  && forallb (λ a, negb (writer_conflict j a)) (jobs d)
  && (Z.of_nat (length (filter (λ c, job_org_id c = job_org_id j ∧ Is_true (active_job c)) (jobs d)))
      <? default default_cap (max_concurrent_jobs d (job_org_id j)))%Z
  && bool_decide (job_id j ∉ locked).

Definition job_cmp (a b : Job) : comparison :=
  match Z.compare (job_priority b) (job_priority a) with
  | Eq => String.compare (job_id a) (job_id b)
  | c => c
  end.

Definition job_claim (default_cap : Z) (locked : gset string) : stmt Db (list Job) :=
  d ← get;
  update_jobs (λ _ j,
      bool_decide ((job_id <$> min_by job_cmp
        (filter (λ j, Is_true (job_claimable default_cap locked d j)) (jobs d)))
                   = Some (job_id j)))
    (λ j, job_touch (j <| job_state := "dispatching" |> <| job_started_at := Some now |>
      <| job_attempt := job_attempt j + 1 |>)).

Definition job_fail_or_retry (retryable : bool) (error_class error_detail : option string)
    (id : string) : stmt Db (list Job) :=
  update_jobs (λ _ j, bool_decide (job_id j = id))
    (λ j,
      let again := retryable && (job_attempt j <? job_max_attempts j)%Z in
      job_touch (j <| job_state := if again then "queued" else "failed" |>
        <| job_not_before :=
             if again
             then Some (after_secs now (Z.min 300 (5 * 2 ^ Z.max (job_attempt j - 1) 0)))
             else job_not_before j |>
        <| job_started_at := if again then None else job_started_at j |>
        <| job_finished_at := if again then None else Some now |>
        <| job_error_class := error_class |> <| job_error_detail := error_detail |>)).

Definition job_mark (state id : string) : stmt Db nat :=
  rows ← update_jobs (λ _ j, bool_decide (job_id j = id))
    (λ j,
      let succeeded := bool_decide (state = "succeeded") in
      job_touch (j <| job_state := state |>
        <| job_error_class := if succeeded then None else job_error_class j |>
        <| job_error_detail := if succeeded then None else job_error_detail j |>
        <| job_finished_at := if bool_decide (state ∈ ["succeeded"; "failed"; "canceled"])
                              then Some now else job_finished_at j |>));
  mret (length rows).

Definition job_plan (structural_fingerprint policy_hash : string) (image_digest : option string)
    (owner_epoch id : string) : stmt Db (list Job) :=
  update_jobs (λ _ j, bool_decide (job_id j = id) && bool_decide (job_state j = "dispatching"))
    (λ j, job_touch (j <| job_state := "running" |> <| job_run_id := Some (job_id j) |>
      <| job_structural_fingerprint := Some structural_fingerprint |>
      <| job_policy_hash := Some policy_hash |> <| job_image_digest := image_digest |>
      <| job_owner_epoch := Some owner_epoch |>)).

Definition job_refuse_plan (error_class error_detail : option string) (id : string) :
    stmt Db (list Job) :=
  update_jobs (λ _ j, bool_decide (job_id j = id) && bool_decide (job_state j = "dispatching"))
    (λ j, job_touch (j <| job_state := "failed" |> <| job_error_class := error_class |>
      <| job_error_detail := error_detail |> <| job_finished_at := Some now |>)).

Definition finished_states : list string := ["succeeded"; "failed"; "canceled"].

Definition job_reopen (id org_id : string) : stmt Db (list Job) :=
  update_jobs (λ _ j, bool_decide (job_id j = id) && bool_decide (job_org_id j = org_id))
    (λ j, job_touch (j <| job_clear_number := Some (default 0%Z (job_clear_number j) + 1)%Z |>
      <| job_state := if bool_decide (job_state j ∈ finished_states) then "queued"
                      else job_state j |>
      <| job_finished_at := None |> <| job_error_class := None |>
      <| job_error_detail := None |> <| job_not_before := Some now |>)).

Definition job_resume (org_id id : string) : stmt Db nat :=
  rows ← update_jobs (λ _ j, bool_decide (job_org_id j = org_id) && bool_decide (job_id j = id)
                      && bool_decide (job_state j ∈ ["failed"; "canceled"]))
    (λ j, job_touch (j <| job_state := "queued" |> <| job_not_before := Some now |>
      <| job_finished_at := None |>));
  mret (length rows).

Definition job_settle (state : string) (error_class error_detail : option string) (id : string) :
    stmt Db (list Job) :=
  update_jobs (λ _ j, bool_decide (job_id j = id)
                      && bool_decide (job_state j ∈ ["running"; "canceling"]))
    (λ j,
      let succeeded := bool_decide (state = "succeeded") in
      job_touch (j <| job_state := state |>
        <| job_error_class := if succeeded then None
                              else coalesce error_class (job_error_class j) |>
        <| job_error_detail := if succeeded then None
                               else coalesce error_detail (job_error_detail j) |>
        <| job_finished_at := Some now |>)).

Definition job_by_id (org_id id : string) (d : Db) : list Job :=
  filter (λ j, job_org_id j = org_id ∧ job_id j = id) (jobs d).

Definition job_by_idempotency_key (org_id key : string) (d : Db) : list Job :=
  filter (λ j, job_org_id j = org_id ∧ job_idempotency_key j = Some key) (jobs d).

(** [ORDER BY id DESC]. *)
Definition job_newest (a b : Job) : Prop :=
  String.le (job_id b) (job_id a).

#[global] Instance job_newest_dec a b : Decision (job_newest a b).
Proof. unfold job_newest. apply _. Defined.

(** The queue view; an absent filter admits every job. *)
Definition job_list (org_id state : option string) (limit : Z) (d : Db) : list Job :=
  take (Z.to_nat limit) (merge_sort job_newest
    (filter (λ j, (org_id = None ∨ org_id = Some (job_org_id j))
                  ∧ (state = None ∨ state = Some (job_state j))) (jobs d))).

(** [SELECT .. WHERE id = $job_id FOR UPDATE]. *)
Definition job_lock (id : string) (d : Db) : list Job :=
  filter (λ j, job_id j = id) (jobs d).
End statements.
