(* ===== verification/TaskPg.v ===== *)
(** * Ledger decisions of more than one statement

    [er-server/src/taskpg.rs]: planning, [fail_or_retry], [clear] and the
    fused finish-and-advance, each one transaction over the statements of
    [Ledger].  A function takes the database and returns its result with the
    database after it; a transaction that is not committed changes nothing. *)

From S2P Require Import Prelude Json Ids DagPolicy Dag Readiness Errors Registry Sql Ledger.
From Stdlib Require Import Ascii.
From stdpp Require Import pretty.

#[local] Open Scope Z_scope.

(** ** Definitions *)

Definition DEFAULT_MAX_LAUNCHES : Z := 3.
Definition POD_BACKOFF : Z * Z := (30, 900).
Definition CONTROL_BACKOFF : Z * Z := (5, 60).

(** [s.chars().take(n)]: a byte [10xxxxxx] continues the character before it. *)
Fixpoint take_chars (n : nat) (s : string) : string :=
  match s with
  | EmptyString => EmptyString
  | String c s =>
      if (N_of_ascii c / 64 =? 2)%N then String c (take_chars n s)
      else match n with
           | O => EmptyString
           | S n => String c (take_chars n s)
           end
  end.

Record TaskFailure := mkFailure {
  tf_terminal_state : TaskState;
  tf_retryable : bool;
  tf_escalate : bool;
  tf_exit_code : option Z;
  tf_termination_reason : option string;
  tf_error_class : option string;
  tf_error_detail : option string;
  tf_k8s_job_name : option string;
  tf_backoff : Z * Z;
}.

(** How a control body's error becomes a ledger failure. *)
Definition control_failure (error : TaskError) : TaskFailure :=
  match error with
  | TaskSkip =>
      mkFailure Skipped false false None (Some "skipped") None None None CONTROL_BACKOFF
  | TaskFailed e =>
      mkFailure Failed (er_error_retryable e) false (Some (er_error_code e))
        (Some "control_error") (Some (error_class_as_str (classify e))) None None CONTROL_BACKOFF
  end.

Record ClearResult := mkCleared {
  restarting : list TaskInstance;
  rotated : list TaskInstance;
  reset : list TaskInstance;
  reopened : option Job;
}.

Inductive ClearError := ClearCanceling | ClearPg (e : DbError).

Record AdvanceArgs := mkAdvance {
  next_task_instance_id : string;
  adv_job_id : string;
  adv_segment : string;
  adv_resource_class : ResourceClass;
  adv_clear_number : Z;
  adv_input : json;
}.

(** A loop of statements, its results appended. *)
Fixpoint each {A B} (f : A → stmt Db (list B)) (l : list A) : stmt Db (list B) :=
  match l with
  | [] => mret []
  | x :: l => xs ← f x; rest ← each f l; mret (xs ++ rest)
  end.

Section taskpg.
Context (sha256 : string → list Z) (hashtext : string → Z) (now : Z).

Definition attempt_id (job_id task_id : string) (try_number : Z) : string :=
  natural_id sha256 "task_instances" [job_id; task_id; pretty try_number].

(** *** Planning *)

(** The [upstream] projection; [None] is an index out of range. *)
Definition upstream_names (dag : Dag) (n : Node) : option json :=
  names ← mapM (λ u, task_id <$> nodes dag !! u) (upstream n);
  Some (json_keys names).

Definition planned_class (job : Job) (n : Node) : option ResourceClass :=
  match nkind n with
  | Control => None
  | Pod =>
      Some (match class_rule (policy n) with
            | Fixed c => c
            | FromRun => default ClassM (job_resource_class job ≫= class_parse)
            end)
  end.

Definition planned_row (job : Job) (image_digest : option string) (seq : nat) (n : Node)
    (upstream : json) : TaskInstance :=
  new_row now (attempt_id (job_id job) (task_id n) 1) (job_org_id job) (job_dataset_id job)
    (job_id job) (task_id n) (Z.of_nat seq) 1 (nkind n) SNone (trigger_rule n) upstream
    (teardown n) (segment (policy n)) (planned_class job n) (retries (policy n))
    DEFAULT_MAX_LAUNCHES image_digest (job_trace_context job).

Definition planned_rows (job : Job) (dag : Dag) (image_digest : option string) :
    option (list TaskInstance) :=
  mapM (λ '(seq, n), planned_row job image_digest seq n <$> upstream_names dag n)
    (enumerate (nodes dag)).

(** [None] is the panic of an index out of range; no rows from [job/plan]
    means no commit. *)
Definition plan (job : Job) (dag : Dag) (owner_epoch : string) (image_digest : option string)
    (d : Db) : option (result (option Job) DbError * Db) :=
  rows ← planned_rows job dag image_digest;
  let body :=
    _ ← each insert_planned rows;
    job_plan now (structural_fingerprint dag) (policy_hash dag) image_digest owner_epoch
      (job_id job) in
  Some match body d with
       | Err e => (Err e, d)
       | Ok ([], _) => (Ok None, d)
       | Ok (j :: _, d) => (Ok (Some j), d)
       end.

Definition refuse_plan (id error_class error_detail : string) (d : Db) :
    result (option Job) DbError * Db :=
  transaction (rows ← job_refuse_plan now (Some error_class)
                        (Some (take_chars 2000 error_detail)) id;
               mret (head rows)) d.

(** *** Failing *)

Definition fail_or_retry_stmts (task_instance_id : string) (failure : TaskFailure) :
    stmt Db (option TaskInstance * option TaskInstance) :=
  rows ← archive_try now (tf_terminal_state failure) (tf_retryable failure)
    (tf_exit_code failure) (tf_termination_reason failure) (tf_error_class failure)
    (take_chars 2000 <$> tf_error_detail failure) task_instance_id (tf_k8s_job_name failure);
  match head rows with
  | Some row =>
      match ti_live row with
      | None =>
          successors ← insert_retry_try sha256 hashtext now (tf_escalate failure)
            (tf_backoff failure).2 (tf_backoff failure).1 task_instance_id;
          mret (Some row, head successors)
      | Some _ => mret (Some row, None)
      end
  | None => mret (None, None)
  end.

Definition fail_or_retry_task (task_instance_id : string) (failure : TaskFailure) :
    Db → result (option TaskInstance * option TaskInstance) DbError * Db :=
  transaction (fail_or_retry_stmts task_instance_id failure).

(** *** Clearing *)

Definition clear_stmts (org_id job_id : string) (task_ids : list string) (retries : Z)
    (resource_class : option ResourceClass) (image_digest : option string) :
    stmt Db ClearResult :=
  restarting ← restart_cleared now resource_class org_id job_id task_ids;
  archived ← archive_cleared now org_id job_id task_ids;
  rotated ← each (λ row, insert_cleared_try sha256 now resource_class retries image_digest
                           (ti_id row)) archived;
  reset ← reset_pending now retries resource_class image_digest org_id job_id task_ids;
  jobs ← job_reopen now job_id org_id;
  mret (mkCleared restarting rotated reset (head jobs)).

Definition clear (org_id job_id : string) (task_ids : list string) (retries : Z)
    (resource_class : option ResourceClass) (image_digest : option string) (d : Db) :
    result ClearResult ClearError * Db :=
  match head (job_lock job_id d) with
  | None => (Ok (mkCleared [] [] [] None), d)
  | Some job =>
      if decide (job_state job = "canceling") then (Err ClearCanceling, d)
      else
        match clear_stmts org_id job_id task_ids retries resource_class image_digest d with
        | Err e => (Err (ClearPg e), d)
        | Ok (c, d) => (Ok c, d)
        end
  end.

(** *** The fused hand-off *)

Definition finish_and_advance (finished_id pod_uid : string) (skipped : bool) (outcome : string)
    (output : option json) (snapshots : option Z * option Z) (counters : option json)
    (exit_code : option Z) (next : option AdvanceArgs) :
    Db → result (option TaskInstance * option TaskInstance) DbError * Db :=
  transaction
    (finished ← finish now skipped outcome output snapshots.1 snapshots.2 counters exit_code
       finished_id pod_uid;
     match head finished, next with
     | Some row, Some advance =>
         advanced ← advance_segment now (default "" (ti_k8s_job_name row))
           (default "" (ti_owner_epoch row)) (ti_pod_name row) pod_uid (ti_node_name row)
           (ti_image_digest row) (adv_input advance) (next_task_instance_id advance)
           (adv_job_id advance) (adv_segment advance) (adv_resource_class advance)
           (adv_clear_number advance);
         mret (Some row, head advanced)
     | done, _ => mret (done, None)
     end).

(** *** Claiming *)

(** A unique violation is "nothing to claim". *)
Definition claim_launch (locked : gset string) (owner_epoch : string)
    (k8s_job_name token_hash : option string) (in_flight_cap : Z) (d : Db) :
    result (option TaskInstance) DbError * Db :=
  match claim_launch_stmt now locked owner_epoch k8s_job_name token_hash in_flight_cap d with
  | Ok (rows, d) => (Ok (head rows), d)
  | Err UniqueViolation => (Ok None, d)
  | Err e => (Err e, d)
  end.
End taskpg.
