(* ===== verification/LedgerInv.v ===== *)
(** * The invariant of the task ledger

    What holds of the two tables between transactions, whatever statements
    ran: the tries of a task are numbered without gaps, the last one alone is
    live, a tenant has at most one pod, and the budgets are kept.  The
    statements that rewrite rows in place share one lemma ([update_inv]), the
    ones that add a try another ([insert_inv]). *)

From S2P Require Import Prelude Json Ids DagPolicy Dag Readiness Errors Registry Sql Ledger TaskPg.
From stdpp Require Import pretty.

#[local] Open Scope Z_scope.

(** ** Definitions *)

(** [s] is the next try of the task of [r]. *)
Definition next_try (r s : TaskInstance) : Prop :=
  ti_job_id r = ti_job_id s ∧ ti_task_id r = ti_task_id s
  ∧ ti_try_number s = ti_try_number r + 1.

Definition same_task (r s : TaskInstance) : Prop :=
  ti_job_id r = ti_job_id s ∧ ti_task_id r = ti_task_id s.

(** What holds of a row by itself. *)
Record row_inv (r : TaskInstance) : Prop := {
  ri_live : ti_live r = Some true ∧ ti_archived_reason r = None
            ∨ ti_live r = None ∧ is_Some (ti_archived_reason r) ∧ terminal (ti_state r);
  ri_try : 1 ≤ ti_try_number r;
  ri_launches : 0 ≤ ti_launches r ≤ ti_max_launches r;
  ri_pending : ti_state r ∈ [SNone; Scheduled; UpForRetry] → ti_launches r < ti_max_launches r;
  ri_name : active_pod r = true → is_Some (ti_k8s_job_name r);
  ri_max_launches : 1 ≤ ti_max_launches r;
  ri_retried : ti_archived_reason r = Some Retry → ti_try_number r ≤ ti_max_tries r;
  ri_control : ti_kind r = Control → ti_pod_uid r = None ∧ ti_state r ≠ Queued;
}.

(** [Open r] allows the archived row [r] to wait for its successor. *)
Record ledger_inv (Open : TaskInstance → Prop) (d : Db) : Prop := {
  li_row r : r ∈ task_instances d → row_inv r;
  li_ok : rows_ok (jobs d) (task_instances d) = true;
  li_unique : rows_unique (task_instances d) = true;
  li_next r : r ∈ task_instances d → ti_live r = None →
    (∃ s, s ∈ task_instances d ∧ next_try r s)
    ∨ ti_archived_reason r = Some Restarted ∨ Open r;
  li_last r s : r ∈ task_instances d → s ∈ task_instances d → ti_live r = Some true →
    ¬ next_try r s;
  li_prev r : r ∈ task_instances d → ti_try_number r ≠ 1 →
    ∃ p, p ∈ task_instances d ∧ next_try p r;
  li_pod r s : r ∈ task_instances d → s ∈ task_instances d → active_pod r = true →
    active_pod s = true → ti_org_id r = ti_org_id s → r = s;
  li_org r j : r ∈ task_instances d → j ∈ jobs d → job_id j = ti_job_id r →
    ti_org_id r = job_org_id j;
  li_jobs : jobs_ok (jobs d) = true;
}.

Definition closed : TaskInstance → Prop := λ _, False.

(** ** The constraints, as propositions *)

Section unique.
Context (l : list TaskInstance) (Hu : rows_unique l = true).

Lemma unique_id r s : r ∈ l → s ∈ l → ti_id r = ti_id s → r = s.
Proof using Hu.
  unfold rows_unique in Hu. rewrite !andb_true_iff in Hu. destruct Hu as [[[[H1 _] _] _] _].
  intros. by eapply unique_spec.
Qed.

Lemma unique_key r s : r ∈ l → s ∈ l → attempt_key r = attempt_key s → r = s.
Proof using Hu.
  unfold rows_unique in Hu. rewrite !andb_true_iff in Hu. destruct Hu as [[[[_ H2] _] _] _].
  intros. by eapply unique_spec.
Qed.

Lemma unique_live r s : r ∈ l → s ∈ l → ti_live r = Some true → ti_live s = Some true →
  same_task r s → r = s.
Proof using Hu.
  unfold rows_unique in Hu. rewrite !andb_true_iff in Hu. destruct Hu as [[[[_ _] H3] _] _].
  intros ?? Hr Hs [??]. eapply unique_spec; [exact H3|done|done| | |congruence];
    unfold is_live, is_true; by apply bool_decide_eq_true.
Qed.

(** At most one row has a given id. *)
Lemma filter_id (P : TaskInstance → Prop) `{∀ r, Decision (P r)} x :
  (∀ r, P r → ti_id r = x) →
  filter P l = [] ∨ ∃ r, filter P l = [r] ∧ r ∈ l ∧ P r.
Proof using Hu.
  intros HP. destruct (filter P l) as [|r f] eqn:E; [by left|right]. exists r.
  assert (∀ s, s ∈ filter P l → s ∈ l ∧ P s) as Hin.
  { intros s Hs. apply list_elem_of_filter in Hs. tauto. }
  rewrite E in Hin. destruct (Hin r) as [Hr HPr]; [set_solver|].
  split; [|done]. destruct f as [|s f]; [done|]. exfalso.
  destruct (Hin s) as [Hs HPs]; [set_solver|].
  assert (r = s) as <-. { apply unique_id; [done..|]. by rewrite (HP r), (HP s). }
  assert (NoDup (filter P l)) as Hnd.
  { apply NoDup_filter. unfold rows_unique in Hu. rewrite !andb_true_iff in Hu.
    destruct Hu as [[[[H1 _] _] _] _]. apply bool_decide_eq_true in H1.
    apply (NoDup_fmap_1 ti_id). by rewrite filter_is_true in H1. }
  rewrite E in Hnd. apply NoDup_cons in Hnd as [Hnd _]. set_solver.
Qed.
End unique.

Lemma is_live_true r : is_live r = true ↔ ti_live r = Some true.
Proof. apply bool_decide_eq_true. Qed.

Lemma state_in_true l r : state_in l r = true ↔ ti_state r ∈ l.
Proof. apply bool_decide_eq_true. Qed.

Lemma is_pod_true r : is_pod r = true ↔ ti_kind r = Pod.
Proof. apply bool_decide_eq_true. Qed.

Lemma active_pod_true r :
  active_pod r = true ↔ ti_live r = Some true ∧ ti_kind r = Pod
    ∧ ti_state r ∈ [Queued; Running; Restarting; Canceling].
Proof.
  unfold active_pod. rewrite !andb_true_iff, is_live_true, is_pod_true, state_in_true. tauto.
Qed.

(** Turns the guard of a statement into propositions. *)
Ltac guards :=
  repeat match goal with
  | H : _ && _ = true |- _ => apply andb_true_iff in H as [? ?]
  | H : negb _ = true |- _ => apply negb_true_iff in H
  | H : is_live _ = true |- _ => apply is_live_true in H
  | H : is_pod _ = true |- _ => apply is_pod_true in H
  | H : state_in _ _ = true |- _ => apply state_in_true in H
  | H : sql_eq _ _ = true |- _ => apply bool_decide_eq_true in H
  | H : not_distinct _ _ = true |- _ => apply bool_decide_eq_true in H
  | H : bool_decide _ = true |- _ => apply bool_decide_eq_true in H
  | H : of_job _ _ _ = true |- _ => unfold of_job in H
  | H : in_clear _ _ _ _ _ = true |- _ => unfold in_clear in H
  | H : (_ <? _) = true |- _ => apply Z.ltb_lt in H
  | H : (_ <=? _) = true |- _ => apply Z.leb_le in H
  end.

(** ** Rewriting rows in place *)

(** [r'] is [r] after a statement; an archived [r'] is [Restarted], or one of
    those the transaction still owes a successor. *)
Record row_step (Open : TaskInstance → Prop) (r r' : TaskInstance) : Prop := {
  rs_id : ti_id r' = ti_id r;
  rs_org : ti_org_id r' = ti_org_id r;
  rs_job : ti_job_id r' = ti_job_id r;
  rs_task : ti_task_id r' = ti_task_id r;
  rs_try : ti_try_number r' = ti_try_number r;
  rs_inv : row_inv r';
  rs_live : ti_live r' = ti_live r ∧ ti_archived_reason r' = ti_archived_reason r
            ∨ ti_live r = Some true ∧ ti_live r' = None
              ∧ (ti_archived_reason r' = Some Restarted ∨ Open r');
}.

Lemma row_step_refl r : row_inv r → row_step closed r r.
Proof. intros H. split; auto. Qed.

Lemma row_step_mono (P Q : TaskInstance → Prop) r r' :
  (∀ r, P r → Q r) → row_step P r r' → row_step Q r r'.
Proof. intros HPQ []. split; try done. naive_solver. Qed.

Lemma update_tis_ok where_ set d ret d' :
  update_tis where_ set d = Ok (ret, d') →
  ret = (update_rows (where_ d) set (task_instances d)).2
  ∧ task_instances d' = (update_rows (where_ d) set (task_instances d)).1
  ∧ jobs d' = jobs d ∧ rows_ok (jobs d) (task_instances d') = true
  ∧ rows_unique (task_instances d') = true.
Proof.
  unfold update_tis. destruct (update_rows _ _ _) as [l ret']. rewrite install_ok.
  intros (? & ? & <- & <-). done.
Qed.

Lemma next_try_step Open r r' s s' :
  row_step Open r r' → row_step Open s s' → next_try r' s' ↔ next_try r s.
Proof.
  intros Hr Hs. unfold next_try.
  by rewrite (rs_job _ _ _ Hr), (rs_task _ _ _ Hr), (rs_try _ _ _ Hr),
    (rs_job _ _ _ Hs), (rs_task _ _ _ Hs), (rs_try _ _ _ Hs).
Qed.

Lemma step_rows_inv Open d d' (f : TaskInstance → TaskInstance) :
  ledger_inv closed d → task_instances d' = f <$> task_instances d → jobs d' = jobs d →
  rows_ok (jobs d) (task_instances d') = true → rows_unique (task_instances d') = true →
  (∀ r, r ∈ task_instances d → row_step Open r (f r)) →
  (∀ r s, r ∈ task_instances d → s ∈ task_instances d → active_pod (f r) = true →
     active_pod (f s) = true → ti_org_id r = ti_org_id s → r = s) →
  ledger_inv Open d'.
Proof.
  intros Hd Hrows Hjobs Hok Huniq Hstep Hpod.
  assert (∀ r', r' ∈ task_instances d' → ∃ r, r' = f r ∧ r ∈ task_instances d) as Hin.
  { intros r'. rewrite Hrows, list_elem_of_fmap. done. }
  assert (∀ r, r ∈ task_instances d → f r ∈ task_instances d') as Hin'.
  { intros r Hr. rewrite Hrows. by apply list_elem_of_fmap_2. }
  split.
  - intros r' (r & -> & Hr)%Hin. apply (rs_inv _ _ _ (Hstep r Hr)).
  - by rewrite Hjobs.
  - done.
  - intros r' (r & -> & Hr)%Hin Hl.
    destruct (rs_live _ _ _ (Hstep r Hr)) as [[El Ea]|(_ & _ & ?)]; [|by right].
    rewrite El in Hl. rewrite Ea. destruct (li_next _ _ Hd r Hr Hl) as [(s & Hs & Hn)|[?|[]]].
    + left. exists (f s). split; [auto|]. by apply (next_try_step Open r _ s); auto.
    + auto.
  - intros r' s' (r & -> & Hr)%Hin (s & -> & Hs)%Hin Hl Hn.
    rewrite (next_try_step Open r _ s) in Hn by auto.
    destruct (rs_live _ _ _ (Hstep r Hr)) as [[El _]|(_ & El & _)]; [|congruence].
    rewrite El in Hl. by apply (li_last _ _ Hd r s).
  - intros r' (r & -> & Hr)%Hin Ht. rewrite (rs_try _ _ _ (Hstep r Hr)) in Ht.
    destruct (li_prev _ _ Hd r Hr Ht) as (p & Hp & Hn). exists (f p). split; [auto|].
    by apply (next_try_step Open p _ r); auto.
  - intros r' s' (r & -> & Hr)%Hin (s & -> & Hs)%Hin Ar As Ho. f_equal.
    rewrite (rs_org _ _ _ (Hstep r Hr)), (rs_org _ _ _ (Hstep s Hs)) in Ho.
    by apply Hpod.
  - intros r' j (r & -> & Hr)%Hin Hj. rewrite Hjobs in Hj.
    rewrite (rs_job _ _ _ (Hstep r Hr)), (rs_org _ _ _ (Hstep r Hr)). by apply (li_org _ _ Hd).
  - rewrite Hjobs. apply (li_jobs _ _ Hd).
Qed.

Lemma update_inv Open where_ set d ret d' :
  ledger_inv closed d → update_tis where_ set d = Ok (ret, d') →
  (∀ r, r ∈ task_instances d → where_ d r = true → row_inv r → row_step Open r (set r)) →
  (∀ r s, r ∈ task_instances d → s ∈ task_instances d →
     active_pod (if where_ d r then set r else r) = true →
     active_pod (if where_ d s then set s else s) = true → ti_org_id r = ti_org_id s → r = s) →
  ledger_inv Open d'.
Proof.
  intros Hd (-> & Hrows & Hjobs & Hok & Huniq)%update_tis_ok Hset Hpod. simpl in Hrows.
  eapply step_rows_inv; [exact Hd|exact Hrows|done..| |exact Hpod].
  intros r Hr. pose proof (li_row _ _ Hd r Hr) as Hri. simpl.
  destruct (where_ d r) eqn:E; [by apply Hset|].
  by apply (row_step_mono closed), row_step_refl.
Qed.

(** No row becomes an active pod. *)
Lemma update_inv_passive Open where_ set d ret d' :
  ledger_inv closed d → update_tis where_ set d = Ok (ret, d') →
  (∀ r, r ∈ task_instances d → where_ d r = true → set r ∈ ret → row_inv r →
     row_step Open r (set r) ∧ (active_pod (set r) = true → active_pod r = true)) →
  ledger_inv Open d'.
Proof.
  intros Hd Hu Hset'. assert (∀ r, r ∈ task_instances d → where_ d r = true → row_inv r →
    row_step Open r (set r) ∧ (active_pod (set r) = true → active_pod r = true)) as Hset.
  { intros r Hr Hw Hri. apply Hset'; [done..| |done].
    apply update_tis_ok in Hu as (-> & _). apply elem_of_returned. eauto. }
  clear Hset'. assert (∀ r, r ∈ task_instances d →
    active_pod (if where_ d r then set r else r) = true → active_pod r = true) as Ha.
  { intros r Hr. destruct (where_ d r) eqn:E; [|done]. apply Hset; [done..|].
    by apply (li_row _ _ Hd). }
  eapply update_inv; [exact Hd|exact Hu| |].
  - intros r Hr Hw Hri. by apply Hset.
  - intros r s Hr Hs ?%Ha ?%Ha; auto. by apply (li_pod _ _ Hd).
Qed.

(** A statement that keeps every row in its place keeps the invariant. *)
Lemma update_preserves where_ set :
  (∀ d r, where_ d r = true → row_inv r →
     row_step closed r (set r) ∧ (active_pod (set r) = true → active_pod r = true)) →
  preserves (ledger_inv closed) (update_tis where_ set).
Proof. intros H d ret d' Hd Hu. eapply update_inv_passive; eauto. Qed.

(** ** Adding a try *)

Lemma insert_tis_ok new d ret d' :
  insert_tis new d = Ok (ret, d') →
  ret = new ∧ task_instances d' = task_instances d ++ new ∧ jobs d' = jobs d
  ∧ rows_ok (jobs d) (task_instances d') = true ∧ rows_unique (task_instances d') = true.
Proof. unfold insert_tis. rewrite install_ok. intros (? & ? & <- & <-). done. Qed.

Lemma insert_inv Open s d ret d' :
  ledger_inv Open d → insert_tis [s] d = Ok (ret, d') →
  row_inv s → ti_live s = Some true → active_pod s = false →
  (∀ r, r ∈ task_instances d → same_task r s → ti_live r ≠ Some true) →
  (ti_try_number s ≠ 1 → ∃ p, p ∈ task_instances d ∧ next_try p s) →
  (∀ j, j ∈ jobs d → job_id j = ti_job_id s → ti_org_id s = job_org_id j) →
  ledger_inv (λ r, Open r ∧ ¬ next_try r s) d'.
Proof.
  intros Hd (-> & Hrows & Hjobs & Hok & Huniq)%insert_tis_ok Hs Hl Ha Hsib Hprev Horg.
  assert (∀ r, r ∈ task_instances d' ↔ r ∈ task_instances d ∨ r = s) as Hin.
  { intros r. rewrite Hrows, elem_of_app. set_solver. }
  assert (∀ r, ¬ next_try r r) as Hirr by (unfold next_try; lia).
  assert (∀ p, p ∈ task_instances d → attempt_key p ≠ attempt_key s) as Hkey.
  { intros p Hp Hk. assert (p = s) as ->; [|by apply (Hsib s)].
    apply (unique_key _ Huniq); [|by apply Hin; right|done]. apply Hin. by left. }
  split.
  - intros r [?| ->]%Hin; [by apply (li_row _ _ Hd)|done].
  - by rewrite Hjobs.
  - done.
  - intros r [Hr| ->]%Hin Hlr; [|congruence].
    destruct (li_next _ _ Hd r Hr Hlr) as [(t & Ht & Hn)|[?|HO]]; [..|auto|].
    { left. exists t. rewrite Hin. auto. }
    destruct (decide (next_try r s)) as [Hn|Hn]; [|auto].
    left. exists s. rewrite Hin. auto.
  - intros r t [Hr| ->]%Hin [Ht| ->]%Hin Hlr Hn.
    + by apply (li_last _ _ Hd r t).
    + destruct Hn as (? & ? & _). by apply (Hsib r).
    + destruct (li_prev _ _ Hd t Ht) as (p & Hp & Hnp).
      { destruct Hn as (_ & _ & ->). pose proof (ri_try _ Hs). lia. }
      apply (Hkey p Hp). unfold attempt_key, next_try in *.
      destruct_and?. f_equal; [f_equal|]; [congruence..|lia].
    + by apply Hirr in Hn.
  - intros r [Hr| ->]%Hin Ht.
    + destruct (li_prev _ _ Hd r Hr Ht) as (p & Hp & ?). exists p. rewrite Hin. auto.
    + destruct (Hprev Ht) as (p & Hp & ?). exists p. rewrite Hin. auto.
  - intros r t [Hr| ->]%Hin [Ht| ->]%Hin Ar At Ho; try congruence. by apply (li_pod _ _ Hd).
  - intros r j Hr Hj. rewrite Hjobs in Hj. apply Hin in Hr as [Hr| ->];
      [by apply (li_org _ _ Hd)|auto].
  - rewrite Hjobs. apply (li_jobs _ _ Hd).
Qed.

(** ** Each statement *)

(** Case analysis on the membership of a state in a list of states. *)
Ltac states :=
  repeat match goal with
  | H : _ ∈ _ :: _ |- _ => apply elem_of_cons in H as [H|H]
  | H : _ ∈ [] |- _ => apply not_elem_of_nil in H; destruct H
  | H : context [if ?b then _ else _] |- _ => destruct b
  | |- context [if ?b then _ else _] => destruct b
  end.

(** A column of a row whose guard is known, the state it was in included. *)
Ltac column :=
  rewrite ?active_pod_true; simpl; intros; destruct_and?; states; simplify_eq;
  repeat match goal with
  | H : ti_state ?r = _ |- _ => rewrite H in *; clear H
  end;
  try first
  [ split_and?; first [done|lia|congruence|match goal with |- _ ∈ _ => set_solver end]
  | match goal with
    | H : _ → is_Some _ |- is_Some _ => apply H; split_and!; first [done|set_solver]
    | H : _ ∈ _ → _ < _ |- _ < _ => apply H; set_solver
    | H : ti_live _ = Some true → _ |- _ => by apply H
    | H : ti_kind _ = Control → _ |- _ =>
        destruct H; [done|]; split_and?; first [done|congruence]
    end ].

(** A statement that leaves [live] alone: the identity of the row by
    computation, the row's invariant column by column. *)
Ltac step_stays Hr :=
  pose proof Hr as [Hlive Htry Hlaunch Hpend Hname Hmax Hretried Hctl];
  rewrite active_pod_true in Hname;
  try match type of Hr with row_inv ?r =>
    assert (ti_archived_reason r = None) by (destruct Hlive as [[_ ?]|(? & _)]; congruence)
  end;
  split; try done; try (by left);
  split; simpl; try done;
  match goal with
  | |- _ ∨ _ => destruct Hlive as [?|(? & _)]; [by left|congruence]
  | _ => column
  end.

Ltac row_stays :=
  intros ? r Hw Hr; cbv beta in Hw; guards; split; [step_stays Hr|try done; column].

Section statements.
Context (sha256 : string → list Z) (hashtext : string → Z) (now : Z).

Lemma adopt_inv epoch : preserves (ledger_inv closed) (adopt now epoch).
Proof. apply update_preserves. row_stays. Qed.

Lemma heartbeat_inv c i u : preserves (ledger_inv closed) (heartbeat now c i u).
Proof. apply update_preserves. row_stays. Qed.

Lemma note_interruption_inv t c i u : preserves (ledger_inv closed) (note_interruption now t c i u).
Proof. apply update_preserves. row_stays. Qed.

Lemma record_evidence_inv x t i u k : preserves (ledger_inv closed) (record_evidence now x t i u k).
Proof. apply update_preserves. row_stays. Qed.

Lemma cancel_live_inv o j : preserves (ledger_inv closed) (cancel_live now o j).
Proof. apply update_preserves. row_stays. Qed.

Lemma cancel_pending_inv o j : preserves (ledger_inv closed) (cancel_pending now o j).
Proof. apply update_preserves. row_stays. Qed.

Lemma capacity_wait_inv w t i k : preserves (ledger_inv closed) (capacity_wait now w t i k).
Proof. apply update_preserves. row_stays. Qed.

Lemma requeue_launch_inv w t i k : preserves (ledger_inv closed) (requeue_launch now w t i k).
Proof. apply update_preserves. row_stays. Qed.

Lemma finish_inv s o x a b c e i p : preserves (ledger_inv closed) (finish now s o x a b c e i p).
Proof. apply update_preserves. row_stays. Qed.

Lemma finish_control_inv s o x c i e :
  preserves (ledger_inv closed) (finish_control now s o x c i e).
Proof. apply update_preserves. row_stays. Qed.

Lemma start_inv n u m g i k : preserves (ledger_inv closed) (start now n u m g i k).
Proof. apply update_preserves. row_stays. Qed.

Lemma mark_scheduled_inv v i n : preserves (ledger_inv closed) (mark_scheduled now v i n).
Proof. apply update_preserves. row_stays. Qed.

Lemma propagate_inv s i n :
  terminal s → preserves (ledger_inv closed) (propagate now s i n).
Proof. intros Hs. apply update_preserves. row_stays; destruct s; try done; column. Qed.

Lemma reset_pending_inv k c g o j l :
  preserves (ledger_inv closed) (reset_pending now k c g o j l).
Proof. apply update_preserves. row_stays. Qed.

Lemma restart_cleared_inv c o j l : preserves (ledger_inv closed) (restart_cleared now c o j l).
Proof. apply update_preserves. row_stays. Qed.

Lemma settle_canceled_inv x t i k : preserves (ledger_inv closed) (settle_canceled now x t i k).
Proof. apply update_preserves. row_stays. Qed.

Lemma claim_pick_spec admits kind locked d x :
  claim_pick now admits kind locked d = Some x →
  ∃ t j, t ∈ task_instances d ∧ j ∈ jobs d ∧ ti_id t = x
    ∧ claimable now kind locked t j = true ∧ admits t = true.
Proof.
  unfold claim_pick. intros ([t j] & Hmin & [= <-])%bind_Some.
  apply min_by_elem, list_elem_of_filter in Hmin as [Hc Hin]. simpl in Hc.
  rewrite Is_true_true, andb_true_iff in Hc.
  apply list_elem_of_bind in Hin as (t' & Hin & Ht).
  apply list_elem_of_bind in Hin as (j' & Hin & Hj).
  apply list_elem_of_singleton in Hin. simplify_eq. exists t', j'. naive_solver.
Qed.

(** What a claimed row was. *)
Lemma claimable_spec kind locked t j :
  claimable now kind locked t j = true →
  job_id j = ti_job_id t ∧ ti_live t = Some true ∧ ti_kind t = kind
  ∧ ti_state t ∈ [Scheduled; UpForRetry] ∧ job_admits j t = true.
Proof. unfold claimable. intros. guards. done. Qed.

Lemma claim_control_inv locked epoch :
  preserves (ledger_inv closed) (claim_control now locked epoch).
Proof.
  apply preserves_get. intros d ret d' Hd Hu. eapply update_inv_passive; [exact Hd|exact Hu|].
  intros r Hr Hw _ Hri. cbv beta in Hw. guards.
  destruct (claim_pick_spec _ _ _ _ _ Hw) as (t & j & Ht & _ & Hid & Hc & _).
  assert (t = r) as -> by (by apply (unique_id _ (li_unique _ _ Hd))).
  destruct (claimable_spec _ _ _ _ Hc) as (_ & Hl & Hk & Hs & _). clear Hw Hc Hid Ht Hr.
  split; [step_stays Hri|column].
Qed.

Lemma launch_admits_spec cap d t a :
  launch_admits cap d t = true → a ∈ task_instances d → ti_org_id a = ti_org_id t →
  active_pod a = true → False.
Proof.
  unfold launch_admits. intros [Hall _]%andb_true_iff Ha Ho Hp. rewrite forallb_forall in Hall.
  specialize (Hall a (proj1 (list_elem_of_In _ _) Ha)). rewrite Hp, bool_decide_eq_true_2 in Hall;
    done.
Qed.

Lemma claim_launch_stmt_inv locked epoch name token cap :
  preserves (ledger_inv closed) (claim_launch_stmt now locked epoch name token cap).
Proof.
  apply preserves_get. intros d ret d' Hd Hu.
  assert (∀ r, r ∈ task_instances d →
    claim_pick now (launch_admits cap d) Pod locked d = Some (ti_id r) →
    ti_live r = Some true ∧ ti_kind r = Pod ∧ ti_state r ∈ [Scheduled; UpForRetry]
    ∧ launch_admits cap d r = true) as Hpick.
  { intros r Hr Hw. destruct (claim_pick_spec _ _ _ _ _ Hw) as (t & j & Ht & _ & Hid & Hc & Ha).
    assert (t = r) as -> by (by apply (unique_id _ (li_unique _ _ Hd))).
    destruct (claimable_spec _ _ _ _ Hc) as (_ & Hl & Hk & Hs & _). done. }
  eapply update_inv; [exact Hd|exact Hu| |].
  - intros r Hr Hw Hri. cbv beta in Hw. guards.
    destruct (Hpick r Hr Hw) as (Hl & Hk & Hs & _). clear Hpick Hw Hr Hd Hu.
    assert (ti_launches r < ti_max_launches r) by (apply (ri_pending _ Hri); set_solver).
    step_stays Hri; by destruct name; eauto.
  - intros r s Hr Hs. cbv beta. do 2 case_bool_decide; intros Ar As Ho; [..|by apply (li_pod _ _ Hd)].
    + apply (unique_id _ (li_unique _ _ Hd)); [done..|congruence].
    + destruct (Hpick r) as (_ & _ & _ & Ha); [done..|].
      by destruct (launch_admits_spec _ _ _ s Ha).
    + destruct (Hpick s) as (_ & _ & _ & Ha); [done..|].
      by destruct (launch_admits_spec _ _ _ r Ha).
Qed.

(** ** Archiving, and the successor *)

(** Archives the rows it matches. *)
Ltac step_archives Hr :=
  pose proof Hr as [Hlive Htry Hlaunch Hpend Hname Hmax Hretried Hctl];
  rewrite active_pod_true in Hname;
  split; try done;
  [ split; simpl; try done; match goal with
    | |- _ ∨ _ => right; split; [done|]; split; [by eauto|]
    | _ => column
    end
  | simpl; right; split; [done|]; split; [done|] ].

Lemma archive_restarted_inv x t i k :
  preserves (ledger_inv closed) (archive_restarted now x t i k).
Proof.
  apply update_preserves. intros ? r Hw Hr. cbv beta in Hw. guards.
  split; [step_archives Hr; [done|by left]|column].
Qed.

Lemma terminal_states_spec s : s ∈ terminal_states ↔ terminal s.
Proof.
  split; [|intros H; by destruct s; try (apply (bool_decide_unpack _); vm_compute)].
  unfold terminal_states. intros Hs. states; by subst.
Qed.

(** Every archived row is owed a successor. *)
Lemma archive_cleared_inv o j l d ret d' :
  ledger_inv closed d → archive_cleared now o j l d = Ok (ret, d') →
  ledger_inv (λ r, r ∈ ret) d'.
Proof.
  intros Hd Hu. eapply update_inv_passive; [exact Hd|exact Hu|].
  intros r Hr' Hw Hin Hr. clear Hu.
  cbv beta in Hw. guards. split; [step_archives Hr|column].
  - by apply terminal_states_spec.
  - right. exact Hin.
Qed.

(** The row is failed for good, or archived and owed a successor. *)
Lemma archive_try_inv s b x t c e i k d ret d' :
  terminal s → ledger_inv closed d → archive_try now s b x t c e i k d = Ok (ret, d') →
  ledger_inv (λ r, r ∈ ret) d'.
Proof.
  intros Hs Hd Hu. eapply update_inv_passive; [exact Hd|exact Hu|].
  intros r Hr' Hw Hin Hr. clear Hu.
  cbv beta in Hw. guards. revert Hin. cbv beta zeta.
  destruct (b && (ti_try_number r <=? ti_max_tries r)) eqn:Ha; intros Hin; guards.
  - destruct s; try (by destruct Hs);
      (split; [step_archives Hr; first [done|right; exact Hin]|column]).
  - destruct s; try (by destruct Hs); (split; [step_stays Hr|column]).
Qed.

(** *** The try after *)

(** Between two tries of a task there is no gap. *)
Lemma task_chain Open d r t :
  ledger_inv Open d → r ∈ task_instances d → t ∈ task_instances d → same_task r t →
  ti_try_number r < ti_try_number t → ∃ v, v ∈ task_instances d ∧ next_try r v.
Proof.
  intros Hd Hr. remember (Z.to_nat (ti_try_number t)) as n eqn:Hn. revert t Hn.
  induction n as [n IH] using lt_wf_ind. intros t -> Ht [Hj Ht'] Hlt.
  pose proof (ri_try _ (li_row _ _ Hd r Hr)).
  destruct (li_prev _ _ Hd t Ht) as (p & Hp & Hn); [lia|].
  destruct (decide (ti_try_number p = ti_try_number r)) as [E|E].
  - exists t. split; [done|]. destruct Hn as (_ & _ & ?). split_and!; [done..|lia].
  - destruct Hn as (Hpj & Hpt & Hpn). apply (IH (Z.to_nat (ti_try_number p)) ltac:(lia) p);
      [done..|split; congruence|lia].
Qed.

(** A row with a live sibling has a successor, or is the sibling. *)
Lemma sibling_next Open d r t :
  ledger_inv Open d → r ∈ task_instances d → t ∈ task_instances d → same_task r t →
  ti_live r = None → ti_live t = Some true → ∃ v, v ∈ task_instances d ∧ next_try r v.
Proof.
  intros Hd Hr Ht Hrt Hlr Hlt.
  destruct (Z.lt_trichotomy (ti_try_number r) (ti_try_number t)) as [?|[E|?]].
  - by eapply task_chain.
  - assert (r = t) as ->; [|congruence]. apply (unique_key _ (li_unique _ _ Hd)); [done..|].
    unfold attempt_key. destruct Hrt. congruence.
  - destruct (task_chain Open d t r) as (v & Hv & Hn); [done..| |lia|].
    { destruct Hrt. by split. }
    by destruct (li_last _ _ Hd t v).
Qed.

Lemma no_live_sibling_spec l r :
  no_live_sibling l r = true ↔ ∀ s, s ∈ l → same_task s r → ti_live s ≠ Some true.
Proof.
  unfold no_live_sibling. rewrite forallb_forall. split.
  - intros H s Hs [? ?] Hl. specialize (H s (proj1 (list_elem_of_In _ _) Hs)).
    rewrite !bool_decide_eq_true_2 in H by done. by rewrite (proj2 (is_live_true s) Hl) in H.
  - intros H s Hs%list_elem_of_In. apply negb_true_iff, not_true_iff_false. intros Hc. guards.
    by eapply H.
Qed.

(** The successor of the one archived row with an id. *)
Definition succeeding (i : string) (rs : TaskInstance → bool) (d : Db) : list TaskInstance :=
  filter (λ r, Is_true (bool_decide (ti_id r = i) && bool_decide (ti_live r = None) && rs r
                        && no_live_sibling (task_instances d) r)) (task_instances d).

Lemma ledger_inv_weaken (P Q : TaskInstance → Prop) d :
  ledger_inv P d →
  (∀ r, r ∈ task_instances d → ti_live r = None → P r →
     (∃ s, s ∈ task_instances d ∧ next_try r s) ∨ Q r) → ledger_inv Q d.
Proof.
  intros [] HPQ. split; try done. intros r Hr Hl.
  destruct (li_next0 r Hr Hl) as [?|[?|HP]]; [auto..|]. destruct (HPQ r Hr Hl HP); auto.
Qed.

Lemma insert_nothing d ret d' : insert_tis [] d = Ok (ret, d') → d' = d.
Proof.
  unfold insert_tis. rewrite app_nil_r, install_ok. intros (_ & _ & _ & <-). by destruct d.
Qed.

Lemma succession Open (rs : TaskInstance → bool) f i d ret d' :
  ledger_inv Open d → (∀ r, Open r → rs r = true) →
  (∀ r, row_inv r → ti_live r = None → rs r = true →
     row_inv (f r) ∧ next_try r (f r) ∧ ti_live (f r) = Some true
     ∧ active_pod (f r) = false ∧ ti_org_id (f r) = ti_org_id r) →
  insert_tis (f <$> succeeding i rs d) d = Ok (ret, d') →
  ledger_inv (λ r, Open r ∧ ti_id r ≠ i) d'.
Proof.
  intros Hd Hrs Hf Hins. unfold succeeding in Hins.
  destruct (filter_id _ (li_unique _ _ Hd)
    (λ r, Is_true (bool_decide (ti_id r = i) && bool_decide (ti_live r = None) && rs r
                   && no_live_sibling (task_instances d) r)) i) as [E|(r & E & Hr & Hg)].
  { intros r Hr. apply Is_true_true in Hr. by guards. }
  - rewrite E in Hins. apply insert_nothing in Hins as ->.
    eapply ledger_inv_weaken; [exact Hd|]. intros r Hr Hl HO.
    destruct (decide (ti_id r = i)) as [Hi|Hi]; [left|by right].
    destruct (no_live_sibling (task_instances d) r) eqn:Hs.
    { assert (r ∈ ([] : list TaskInstance)) as []%not_elem_of_nil. rewrite <-E.
      apply list_elem_of_filter. split; [|done]. apply Is_true_true.
      by rewrite !bool_decide_eq_true_2, Hrs, Hs by done. }
    unfold no_live_sibling in Hs. apply forallb_false_witness in Hs as (s & Hs1 & Hs2).
    apply negb_false_iff in Hs2. guards. by apply (sibling_next Open d r s).
  - rewrite E in Hins. simpl in Hins. apply Is_true_true in Hg. guards.
    destruct (Hf r) as (Hi & Hn & Hl & Ha & Ho); [by apply (li_row _ _ Hd)|done..|].
    assert (ledger_inv (λ x, Open x ∧ ¬ next_try x (f r)) d') as Hd'.
    { eapply insert_inv; [exact Hd|exact Hins|done..| | |].
      - intros s Hs Hst. apply (proj1 (no_live_sibling_spec (task_instances d) r)); [done..|].
        destruct Hst, Hn as (? & ? & _). split; congruence.
      - intros _. by exists r.
      - intros j Hj Hjid. rewrite Ho. apply (li_org _ _ Hd); [done..|].
        destruct Hn as (? & _). congruence. }
    apply insert_tis_ok in Hins as (-> & Hrows & _).
    eapply ledger_inv_weaken; [exact Hd'|]. intros s Hs Hls [HO Hnn].
    right. split; [done|]. intros Hsi. rewrite Hrows, elem_of_app, list_elem_of_singleton in Hs.
    destruct Hs as [Hs| ->]; [|congruence].
    assert (s = r) as ->; [|done]. apply (unique_id _ (li_unique _ _ Hd)); [done..|congruence].
Qed.

(** A fresh row: pending, with its whole launch budget. *)
Ltac new_try :=
  split; [split; simpl; try done; try lia; [by left|..]|];
  [rewrite active_pod_true; simpl; set_solver|];
  split; [by repeat split|]; split; [done|]; split; [|done];
  apply not_true_iff_false; rewrite active_pod_true; simpl; set_solver.

Lemma insert_cleared_try_inv Open c k g i d ret d' :
  ledger_inv Open d → (∀ r, Open r → ti_archived_reason r = Some Cleared) →
  insert_cleared_try sha256 now c k g i d = Ok (ret, d') →
  ledger_inv (λ r, Open r ∧ ti_id r ≠ i) d'.
Proof.
  intros Hd HO (? & ? & [= <- <-] & Hins)%bind_stmt.
  eapply (succession Open (λ r, bool_decide (ti_archived_reason r ∈ [Some Cleared; Some Restarted])));
    [exact Hd| |  |exact Hins].
  - intros r Hr. apply bool_decide_eq_true. rewrite (HO r Hr). set_solver.
  - intros r [] _ _. new_try.
Qed.

Lemma insert_retry_try_inv Open b c k i d ret d' :
  ledger_inv Open d → (∀ r, Open r → ti_archived_reason r = Some Retry) →
  insert_retry_try sha256 hashtext now b c k i d = Ok (ret, d') →
  ledger_inv (λ r, Open r ∧ ti_id r ≠ i) d'.
Proof.
  intros Hd HO (? & ? & [= <- <-] & Hins)%bind_stmt. cbv zeta in Hins.
  destruct (forallb _ _); [|done].
  eapply (succession Open (λ r, bool_decide (ti_archived_reason r = Some Retry)));
    [exact Hd| |  |exact Hins].
  - intros r Hr. apply bool_decide_eq_true. by apply HO.
  - intros r [] _ Hre. apply bool_decide_eq_true in Hre. specialize (ri_retried0 Hre).
    new_try.
Qed.

(** *** Planning *)

(** Every task of the ledger has its first try there. *)
Lemma first_try Open d r :
  ledger_inv Open d → r ∈ task_instances d →
  ∃ t, t ∈ task_instances d ∧ same_task t r ∧ ti_try_number t = 1.
Proof.
  intros Hd. remember (Z.to_nat (ti_try_number r)) as n eqn:Hn. revert r Hn.
  induction n as [n IH] using lt_wf_ind. intros r -> Hr.
  pose proof (ri_try _ (li_row _ _ Hd r Hr)).
  destruct (decide (ti_try_number r = 1)) as [E|E]; [by exists r|].
  destruct (li_prev _ _ Hd r Hr E) as (p & Hp & Hpj & Hpt & Hpn).
  pose proof (ri_try _ (li_row _ _ Hd p Hp)).
  destruct (IH (Z.to_nat (ti_try_number p)) ltac:(lia) p) as (t & Ht & [? ?] & ?); [done..|].
  exists t. split; [done|]. split; [|done]. split; congruence.
Qed.

Lemma insert_planned_inv s d ret d' :
  ledger_inv closed d → insert_planned s d = Ok (ret, d') →
  row_inv s → ti_live s = Some true → active_pod s = false → ti_try_number s = 1 →
  (∀ j, j ∈ jobs d → job_id j = ti_job_id s → ti_org_id s = job_org_id j) →
  ledger_inv closed d' ∧ jobs d' = jobs d.
Proof.
  intros Hd (? & ? & [= <- <-] & Hins)%bind_stmt Hs Hl Ha H1 Hj.
  case_bool_decide as Hkey; [by injection Hins as _ <-|].
  pose proof Hins as (_ & _ & Hjobs & _)%insert_tis_ok. split; [|done].
  eapply ledger_inv_weaken; [eapply insert_inv; [exact Hd|exact Hins|done..| |done|done]|].
  - intros r Hr [? ?] _. apply Hkey. destruct (first_try _ _ r Hd Hr) as (t & Ht & [? ?] & ?).
    apply list_elem_of_fmap. exists t. split; [|done]. unfold attempt_key. congruence.
  - by intros r _ _ [[] _].
Qed.

(** *** Jobs *)

Lemma update_jobs_inv Open where_ set d ret d' :
  ledger_inv Open d → update_jobs where_ set d = Ok (ret, d') →
  (∀ j, job_id (set j) = job_id j ∧ job_org_id (set j) = job_org_id j) → ledger_inv Open d'.
Proof.
  unfold update_jobs. intros Hd Hu Hset.
  destruct (update_rows (where_ d) set (jobs d)) as [l ret'] eqn:E.
  apply install_ok in Hu as (_ & Hok & -> & <-).
  assert (job_id <$> l = job_id <$> jobs d) as Hids.
  { replace l with (update_rows (where_ d) set (jobs d)).1 by by rewrite E.
    apply update_rows_fmap. intros j _ _. apply Hset. }
  assert (∀ j, j ∈ l → ∃ j', j' ∈ jobs d ∧ job_id j' = job_id j ∧ job_org_id j' = job_org_id j)
    as Hl.
  { intros j Hj. replace l with (update_rows (where_ d) set (jobs d)).1 in Hj by by rewrite E.
    apply elem_of_update_rows in Hj as (j' & Hj' & ->). exists j'. split; [done|].
    destruct (where_ d j'); [|done]. by destruct (Hset j'). }
  destruct Hd. split; try done; simpl.
  - unfold rows_ok in *. by rewrite Hids.
  - intros r j Hr (j' & Hj' & <- & <-)%Hl. auto.
Qed.

Lemma update_jobs_preserves where_ set :
  (∀ j, job_id (set j) = job_id j ∧ job_org_id (set j) = job_org_id j) →
  preserves (ledger_inv closed) (update_jobs where_ set).
Proof. intros H d ret d' Hd Hu. by eapply update_jobs_inv. Qed.

Lemma insert_job_inv j : preserves (ledger_inv closed) (insert_job now j).
Proof.
  apply preserves_get. intros d ret d' Hd Hins. cbv zeta in Hins.
  destruct (existsb _ _).
  { by eapply (update_jobs_preserves _ (job_touch now)); [|exact Hd|exact Hins]. }
  apply install_ok in Hins as (_ & Hok & <- & <-).
  assert (NoDup (job_id <$> jobs d ++ [j])) as Hnd.
  { unfold jobs_ok in Hok. rewrite !andb_true_iff in Hok. destruct Hok as [[[Hok _] _] _].
    apply bool_decide_eq_true in Hok. by rewrite filter_is_true in Hok. }
  pose proof (li_ok _ _ Hd) as [Hrow Hfk]%andb_true_iff. rewrite forallb_forall in Hfk.
  destruct Hd. split; try done; simpl.
  - unfold rows_ok. rewrite Hrow. apply forallb_forall. intros r Hr. specialize (Hfk r Hr).
    apply bool_decide_eq_true in Hfk. apply bool_decide_eq_true.
    rewrite fmap_app, elem_of_app. by left.
  - intros r j' Hr. rewrite elem_of_app, list_elem_of_singleton. intros [Hj| ->]; [auto|].
    intros Hid. exfalso. rewrite fmap_app in Hnd. apply NoDup_app in Hnd as (_ & Hdis & _).
    apply (Hdis (job_id j)); [|simpl; set_solver]. rewrite Hid.
    specialize (Hfk r (proj1 (list_elem_of_In _ _) Hr)). by apply bool_decide_eq_true in Hfk.
Qed.
End statements.
