(* ===== verification/LedgerRuns.v ===== *)
(** * Runs of the ledger

    The transactions of [TaskPg] keep the invariant of [LedgerInv], so it
    holds in every state the dispatcher, the pods' reports, the watch and the
    operators can bring the ledger to. *)

From S2P Require Import Prelude Json Ids DagPolicy Dag Readiness Errors Registry Sql Ledger TaskPg.
From S2P Require Import LedgerInv.
From Stdlib Require Import Ascii.
From stdpp Require Import pretty.

#[local] Open Scope Z_scope.

Section transactions.
Context (sha256 : string → list Z) (hashtext : string → Z) (now : Z).

(** ** Failing *)

(** The rows [archive_try] returns: the one row of the id, archived for a
    retry or still live. *)
Lemma archive_try_ret s b x t c e i k d ret d' r :
  archive_try now s b x t c e i k d = Ok (ret, d') → r ∈ ret →
  r ∈ task_instances d' ∧ ti_id r = i ∧ (ti_live r = None → ti_archived_reason r = Some Retry).
Proof.
  intros (-> & Hrows & _)%update_tis_ok (r0 & Hr0 & Hw & ->)%elem_of_returned. split_and!.
  - rewrite Hrows. apply elem_of_update_rows. exists r0. by rewrite Hw.
  - cbv beta in Hw. guards. done.
  - cbv beta zeta. by destruct (b && _).
Qed.

Lemma fail_or_retry_inv i failure :
  terminal (tf_terminal_state failure) →
  preserves (ledger_inv closed) (fail_or_retry_stmts sha256 hashtext now i failure).
Proof.
  intros Hs d x d'' Hd (rows & d' & Ha & Hrest)%bind_stmt.
  assert (ledger_inv (λ r, r ∈ rows) d') as Hd'.
  { eapply archive_try_inv; [exact Hs|exact Hd|exact Ha]. }
  assert (∀ r, r ∈ rows → r ∈ task_instances d' ∧ ti_id r = i
    ∧ (ti_live r = None → ti_archived_reason r = Some Retry)) as Hret
    by (intros r Hr; exact (archive_try_ret _ _ _ _ _ _ _ _ _ _ _ r Ha Hr)). clear Ha Hd.
  destruct rows as [|row rows]; simpl in Hrest.
  { injection Hrest as _ <-. eapply ledger_inv_weaken; [exact Hd'|]. set_solver. }
  assert (∀ r, r ∈ row :: rows → r = row) as Hone.
  { intros r Hr. destruct (Hret r Hr) as (? & ? & _).
    destruct (Hret row (list_elem_of_here _ _)) as (? & ? & _).
    apply (unique_id _ (li_unique _ _ Hd')); [done..|congruence]. }
  destruct (ti_live row) as [b|] eqn:Hl.
  { injection Hrest as _ <-. eapply ledger_inv_weaken; [exact Hd'|].
    intros r _ Hlr ->%Hone. congruence. }
  apply bind_stmt in Hrest as (succ & d3 & Hins & [= _ <-]).
  eapply ledger_inv_weaken; [eapply (insert_retry_try_inv sha256 hashtext now (λ r, r ∈ row :: rows));
    [exact Hd'| |exact Hins]|].
  - intros r Hr. apply Hret; [done|]. by rewrite (Hone r Hr).
  - intros r _ _ [Hr Hi]. exfalso. by apply Hi, Hret.
Qed.

(** ** Clearing *)

Lemma each_cleared_inv Open c k g l d ret d' :
  ledger_inv Open d → (∀ r, Open r → ti_archived_reason r = Some Cleared) →
  each (λ row, insert_cleared_try sha256 now c k g (ti_id row)) l d = Ok (ret, d') →
  ledger_inv (λ r, Open r ∧ ti_id r ∉ ti_id <$> l) d'.
Proof.
  revert Open d ret. induction l as [|x l IH]; intros Open d ret Hd HO; simpl.
  { intros [= _ <-]. eapply ledger_inv_weaken; [exact Hd|]. set_solver. }
  intros (xs & d1 & Hx & Hrest)%bind_stmt. apply bind_stmt in Hrest as (rs & d2 & Hr & [= _ <-]).
  eapply ledger_inv_weaken; [eapply (IH (λ r, Open r ∧ ti_id r ≠ ti_id x)); [| |exact Hr]|].
  - by eapply insert_cleared_try_inv.
  - naive_solver.
  - set_solver.
Qed.

(** Once the archived rows have their successors, none is owed. *)
Lemma clear_rotate_inv o j l k c g d rs d1 arch d2 rot d3 :
  ledger_inv closed d → restart_cleared now c o j l d = Ok (rs, d1) →
  archive_cleared now o j l d1 = Ok (arch, d2) →
  each (λ row, insert_cleared_try sha256 now c k g (ti_id row)) arch d2 = Ok (rot, d3) →
  ledger_inv closed d3.
Proof.
  intros Hd H1 H2 H3. apply restart_cleared_inv in H1; [|done]. pose proof H2 as Hret.
  apply archive_cleared_inv in H2; [|done]. apply (each_cleared_inv (λ r, r ∈ arch)) in H3; [|done|].
  2:{ intros r Hr. apply update_tis_ok in Hret as (-> & _).
      by apply elem_of_returned in Hr as (r0 & _ & _ & ->). }
  eapply ledger_inv_weaken; [exact H3|]. intros r _ _ [Hr Hn]. exfalso. apply Hn.
  by apply list_elem_of_fmap_2.
Qed.

Lemma clear_inv o j l k c g :
  preserves (ledger_inv closed) (clear_stmts sha256 now o j l k c g).
Proof.
  intros d x d' Hd (rs & d1 & H1 & H)%bind_stmt.
  apply bind_stmt in H as (arch & d2 & H2 & H). apply bind_stmt in H as (rot & d3 & H3 & H).
  apply bind_stmt in H as (rst & d4 & H4 & H). apply bind_stmt in H as (js & d5 & H5 & [= _ <-]).
  assert (ledger_inv closed d3) as Hd3 by (by eapply clear_rotate_inv).
  apply reset_pending_inv in H4; [|done].
  eapply update_jobs_inv; [exact H4|exact H5|]. by intros.
Qed.

(** ** Planning *)

Lemma planned_row_inv job g seq n v :
  let s := planned_row sha256 now job g seq n v in
  row_inv s ∧ ti_live s = Some true ∧ active_pod s = false ∧ ti_try_number s = 1
  ∧ ti_job_id s = job_id job ∧ ti_org_id s = job_org_id job.
Proof.
  intros s. subst s. unfold planned_row. split; [|split; [done|split; [|done]]].
  - split; simpl; try done; try lia; [by left|]. rewrite active_pod_true. simpl. set_solver.
  - apply not_true_iff_false. rewrite active_pod_true. simpl. set_solver.
Qed.

Lemma each_planned_inv rows d ret d' :
  ledger_inv closed d → each insert_planned rows d = Ok (ret, d') →
  (∀ s, s ∈ rows → row_inv s ∧ ti_live s = Some true ∧ active_pod s = false
     ∧ ti_try_number s = 1
     ∧ ∀ j, j ∈ jobs d → job_id j = ti_job_id s → ti_org_id s = job_org_id j) →
  ledger_inv closed d'.
Proof.
  revert d ret. induction rows as [|s rows IH]; intros d ret Hd; simpl; [by intros [= _ <-]|].
  intros (xs & d1 & Hx & Hrest)%bind_stmt Hrows.
  apply bind_stmt in Hrest as (rs & d2 & Hr & [= _ <-]).
  destruct (Hrows s) as (? & ? & ? & ? & ?); [set_solver|].
  destruct (insert_planned_inv s d xs d1) as [Hd1 Hjobs]; [done..|].
  eapply IH; [exact Hd1|exact Hr|]. intros s' Hs'. rewrite Hjobs. apply Hrows. set_solver.
Qed.

Lemma plan_inv job dag epoch g d res d' :
  ledger_inv closed d → plan sha256 now job dag epoch g d = Some (res, d') →
  (∃ j, j ∈ jobs d ∧ job_id j = job_id job ∧ job_org_id j = job_org_id job) →
  ledger_inv closed d'.
Proof.
  intros Hd (rows & Hrows & Hplan)%bind_Some (j0 & Hj0 & Hid & Horg).
  assert (∀ s, s ∈ rows → row_inv s ∧ ti_live s = Some true ∧ active_pod s = false
    ∧ ti_try_number s = 1
    ∧ ∀ j, j ∈ jobs d → job_id j = ti_job_id s → ti_org_id s = job_org_id j) as Hall.
  { intros s Hs. apply mapM_Some in Hrows.
    apply list_elem_of_lookup in Hs as [i Hi].
    destruct (Forall2_lookup_r _ _ _ _ _ Hrows Hi) as ([seq n] & Hn & Hs). clear Hi.
    destruct (upstream_names dag n) as [v|]; [|done]. injection Hs as <-.
    apply list_elem_of_lookup_2, elem_of_enumerate, list_elem_of_lookup_2 in Hn.
    destruct (planned_row_inv job g seq n v) as (? & ? & ? & ? & Hj & Ho).
    split_and!; [done..|]. intros j Hjin Hjid. rewrite Ho, <-Horg. f_equal.
    eapply (unique_spec (λ _, true) job_id (jobs d)); [|done..|congruence].
    pose proof (li_jobs _ _ Hd) as Hok. unfold jobs_ok in Hok.
    rewrite !andb_true_iff in Hok. apply Hok. }
  injection Hplan as Hplan. match type of Hplan with match ?b with _ => _ end = _ =>
    destruct b as [[js d2]|] eqn:E end; [|by injection Hplan as _ <-].
  destruct js as [|j js]; injection Hplan as <- <-; [done|].
  apply bind_stmt in E as (xs & d1 & H1 & H2).
  eapply update_jobs_inv; [by eapply each_planned_inv|exact H2|by intros].
Qed.

(** ** The fused hand-off *)

(** Rows of one job are of one tenant. *)
Lemma job_one_org Open d r s :
  ledger_inv Open d → r ∈ task_instances d → s ∈ task_instances d →
  ti_job_id r = ti_job_id s → ti_org_id r = ti_org_id s.
Proof.
  intros Hd Hr Hs Hj. pose proof (li_ok _ _ Hd) as [_ Hfk]%andb_true_iff.
  rewrite forallb_forall in Hfk. specialize (Hfk r (proj1 (list_elem_of_In _ _) Hr)).
  apply bool_decide_eq_true, list_elem_of_fmap in Hfk as (j & Hjr & Hjin).
  transitivity (job_org_id j); [|symmetry]; apply (li_org _ _ Hd); try done; by rewrite <-Hjr.
Qed.

(** The tenant's pod slot is free once its running pod has reported. *)
Lemma finish_frees b o v a z c x i u d ret d' r s :
  ledger_inv closed d → finish now b o v a z c x i u d = Ok (ret, d') →
  r ∈ ret → s ∈ task_instances d' → ti_org_id s = ti_org_id r → active_pod s = false.
Proof.
  intros Hd (-> & Hrows & _)%update_tis_ok (r0 & Hr0 & Hw & ->)%elem_of_returned Hs Ho.
  apply not_true_iff_false. intros As. rewrite Hrows in Hs.
  apply elem_of_update_rows in Hs as (s0 & Hs0 & ->). generalize Hw. cbv beta in Hw. guards.
  intros Hw.
  assert (active_pod r0 = true) as Ar.
  { apply active_pod_true. split_and!; [done| |set_solver].
    destruct (ti_kind r0) eqn:Hk; [done|].
    destruct (ri_control _ (li_row _ _ Hd r0 Hr0) Hk). congruence. }
  match type of As with active_pod (if ?w then _ else _) = true => destruct w eqn:Ew end.
  - apply active_pod_true in As as (_ & _ & As). simpl in As. destruct b; set_solver.
  - assert (s0 = r0) as -> by (by apply (li_pod _ _ Hd)). cbv beta in Ew, Hw. congruence.
Qed.

Lemma advance_segment_inv k e n u m g v i j sg c cn d ret d' :
  ledger_inv closed d → advance_segment now k e n u m g v i j sg c cn d = Ok (ret, d') →
  (∀ r s, r ∈ task_instances d → s ∈ task_instances d → ti_job_id r = j →
     ti_org_id s = ti_org_id r → active_pod s = false) →
  ledger_inv closed d'.
Proof.
  intros Hd Hu Hfree. eapply update_inv; [exact Hd|exact Hu| |].
  - intros r Hr Hw Hri. cbv beta in Hw. guards. clear Hfree Hu Hd Hr. step_stays Hri.
  - intros r s Hr Hs. cbv beta.
    match goal with |- context [if ?w then _ else r] => destruct w eqn:Er end;
    match goal with |- context [if ?w then _ else s] => destruct w eqn:Es end;
      intros Ar As Ho; guards.
    + apply (unique_id _ (li_unique _ _ Hd)); [done..|congruence].
    + rewrite (Hfree r s) in As; done.
    + rewrite (Hfree s r) in Ar; done.
    + by apply (li_pod _ _ Hd).
Qed.

Lemma finish_and_advance_inv i u b o v a c x next d :
  ledger_inv closed d →
  (∀ r args, r ∈ task_instances d → ti_id r = i → next = Some args →
     ti_job_id r = adv_job_id args) →
  ledger_inv closed (finish_and_advance now i u b o v a c x next d).2.
Proof.
  intros Hd Hjob. unfold finish_and_advance, transaction.
  match goal with |- context [match ?m with Ok _ => _ | Err _ => _ end] =>
    destruct m as [[y d2]|] eqn:E end; [|done].
  apply bind_stmt in E as (rows & d1 & H1 & H2). simpl.
  assert (ledger_inv closed d1) as Hd1 by (eapply finish_inv; [exact Hd|exact H1]).
  destruct rows as [|row rows]; simpl in H2; [by injection H2 as _ <-|].
  destruct next as [args|]; [|by injection H2 as _ <-].
  apply bind_stmt in H2 as (adv & d3 & H2 & [= _ <-]).
  assert (row ∈ task_instances d1 ∧ ti_job_id row = adv_job_id args) as [Hrow Hrj].
  { pose proof H1 as (Eret & Hrows & _)%update_tis_ok.
    assert (row ∈ row :: rows) as Hin by set_solver. rewrite Eret in Hin.
    apply elem_of_returned in Hin as (r0 & Hr0 & Hw & ->). split.
    - rewrite Hrows. apply elem_of_update_rows. exists r0. by rewrite Hw.
    - cbv beta in Hw. guards. simpl. by apply (Hjob r0 args). }
  eapply advance_segment_inv; [exact Hd1|exact H2|]. intros r s Hr Hs Hj Ho.
  eapply finish_frees; [exact Hd|exact H1| |exact Hs|]; [apply list_elem_of_here|].
  rewrite Ho. by eapply job_one_org; [exact Hd1|..|congruence].
Qed.
(** ** The transactions of the system *)

(** The statements that run by themselves, and the fixed sequences that run
    as one transaction.  What the callers guarantee of the arguments: a
    verdict is a terminal state. *)
Inductive ledger_txn : ∀ A, stmt Db A → Prop :=
| TEnqueue i o s k p y v u t : ledger_txn _ (enqueue now i o s k p y v u t)
| TEnqueueScheduled i o s k p y v u t : ledger_txn _ (enqueue_scheduled now i o s k p y v u t)
| TJobAdopt e : ledger_txn _ (job_adopt now e)
| TJobCancel i o : ledger_txn _ (job_cancel now i o)
| TJobClaim c l : ledger_txn _ (job_claim now c l)
| TJobFailOrRetry b c e i : ledger_txn _ (job_fail_or_retry now b c e i)
| TJobMark s i : ledger_txn _ (job_mark now s i)
| TJobRefusePlan c e i : ledger_txn _ (job_refuse_plan now c e i)
| TJobResume o i : ledger_txn _ (job_resume now o i)
| TJobSettle s c e i : ledger_txn _ (job_settle now s c e i)
| TAdopt e : ledger_txn _ (adopt now e)
| TArchiveRestarted x t i k : ledger_txn _ (archive_restarted now x t i k)
| TInsertClearedTry c k g i : ledger_txn _ (insert_cleared_try sha256 now c k g i)
| TCancelLive o j : ledger_txn _ (cancel_live now o j)
| TCancelPending o j : ledger_txn _ (cancel_pending now o j)
| TCapacityWait w t i k : ledger_txn _ (capacity_wait now w t i k)
| TClaimControl l e : ledger_txn _ (claim_control now l e)
| TClaimLaunch l e k t c : ledger_txn _ (claim_launch_stmt now l e k t c)
| TFinish b o v a z c x i u : ledger_txn _ (finish now b o v a z c x i u)
| TFinishControl b o v c i e : ledger_txn _ (finish_control now b o v c i e)
| THeartbeat c i u : ledger_txn _ (heartbeat now c i u)
| TMarkScheduled v i n : ledger_txn _ (mark_scheduled now v i n)
| TNoteInterruption t c i u : ledger_txn _ (note_interruption now t c i u)
| TPropagate s i n : terminal s → ledger_txn _ (propagate now s i n)
| TRecordEvidence x t i u k : ledger_txn _ (record_evidence now x t i u k)
| TRequeueLaunch w t i k : ledger_txn _ (requeue_launch now w t i k)
| TSettleCanceled x t i k : ledger_txn _ (settle_canceled now x t i k)
| TStart n u m g i k : ledger_txn _ (start now n u m g i k)
| TFailOrRetry i f :
    terminal (tf_terminal_state f) → ledger_txn _ (fail_or_retry_stmts sha256 hashtext now i f)
| TClear o j l k c g : ledger_txn _ (clear_stmts sha256 now o j l k c g).

Lemma insert_cleared_try_closed c k g i :
  preserves (ledger_inv closed) (insert_cleared_try sha256 now c k g i).
Proof.
  intros d x d' Hd Hins. eapply ledger_inv_weaken.
  - by apply (insert_cleared_try_inv sha256 hashtext now closed c k g i d x d').
  - by intros r _ _ [[] _].
Qed.

Lemma ledger_txn_inv A (m : stmt Db A) : ledger_txn A m → preserves (ledger_inv closed) m.
Proof.
  destruct 1; eauto using insert_job_inv, adopt_inv, archive_restarted_inv,
    insert_cleared_try_closed, cancel_live_inv, cancel_pending_inv, capacity_wait_inv,
    claim_control_inv, claim_launch_stmt_inv, finish_inv, finish_control_inv, heartbeat_inv,
    mark_scheduled_inv, note_interruption_inv, propagate_inv, record_evidence_inv,
    requeue_launch_inv, settle_canceled_inv, start_inv, fail_or_retry_inv, clear_inv;
    try (by apply update_jobs_preserves).
  - apply preserves_bind; [by apply update_jobs_preserves|auto with er].
  - apply preserves_bind; [by apply update_jobs_preserves|auto with er].
Qed.
End transactions.

Section runs.
Context (sha256 : string → list Z) (hashtext : string → Z).

(** One transaction, committed at [now]. *)
Inductive ledger_step (d : Db) : Db → Prop :=
| step_txn now A (m : stmt Db A) x d' :
    ledger_txn sha256 hashtext now A m → m d = Ok (x, d') → ledger_step d d'
| step_plan now job dag epoch g res d' :
    (∃ j, j ∈ jobs d ∧ job_id j = job_id job ∧ job_org_id j = job_org_id job) →
    plan sha256 now job dag epoch g d = Some (res, d') → ledger_step d d'
| step_advance now i u b o v a c x next res d' :
    (∀ r args, r ∈ task_instances d → ti_id r = i → next = Some args →
       ti_job_id r = adv_job_id args) →
    finish_and_advance now i u b o v a c x next d = (res, d') → ledger_step d d'.

(** The states the empty ledger can come to. *)
Inductive reachable : Db → Prop :=
| reachable_init caps : reachable (mkDb [] [] caps)
| reachable_step d d' : reachable d → ledger_step d d' → reachable d'.

Lemma ledger_step_inv d d' : ledger_inv closed d → ledger_step d d' → ledger_inv closed d'.
Proof.
  intros Hd [|?????????|now i u b o v a c x next res d'' Hjob Hf].
  - by eapply ledger_txn_inv.
  - by eapply plan_inv.
  - apply (f_equal snd) in Hf. simpl in Hf. subst d''. by apply finish_and_advance_inv.
Qed.

Lemma empty_inv caps : ledger_inv closed (mkDb [] [] caps).
Proof. split; try done; simpl; intros; set_solver. Qed.

Lemma reachable_inv d : reachable d → ledger_inv closed d.
Proof. induction 1; eauto using empty_inv, ledger_step_inv. Qed.
End runs.

(** ** What the runs guarantee *)

(** Every number below a try's is the number of one. *)
Lemma earlier_try Open d r k :
  ledger_inv Open d → r ∈ task_instances d → 1 ≤ k ≤ ti_try_number r →
  ∃ p, p ∈ task_instances d ∧ same_task p r ∧ ti_try_number p = k.
Proof.
  intros Hd. remember (Z.to_nat (ti_try_number r)) as n eqn:Hn. revert r Hn.
  induction n as [n IH] using lt_wf_ind. intros r -> Hr Hk.
  destruct (decide (ti_try_number r = k)) as [E|E]; [by exists r|].
  destruct (li_prev _ _ Hd r Hr) as (p & Hp & Hpj & Hpt & Hpn); [lia|].
  destruct (IH (Z.to_nat (ti_try_number p)) ltac:(lia) p) as (t & Ht & [? ?] & ?); [done|done|lia|].
  exists t. split; [done|]. split; [|done]. split; congruence.
Qed.

(** C4: the history of a task, in every ledger a run can come to: its tries
    are numbered 1, 2, 3, .. without a gap or a repetition, a live try is the
    last one, so no two are live, and every archived try is terminal and has a
    next try, unless it was archived for a restart, whose successor is
    inserted by a statement of its own. *)
Theorem ledger_history sha256 hashtext d r :
  reachable sha256 hashtext d → r ∈ task_instances d →
  (∀ k, 1 ≤ k ≤ ti_try_number r →
     exists! p, p ∈ task_instances d ∧ same_task p r ∧ ti_try_number p = k)
  ∧ (ti_live r = Some true → ∀ s, s ∈ task_instances d → same_task s r →
       ti_try_number s ≤ ti_try_number r ∧ (ti_live s = Some true → s = r))
  ∧ (ti_live r ≠ Some true → terminal (ti_state r)
       ∧ ((∃ s, s ∈ task_instances d ∧ next_try r s) ∨ ti_archived_reason r = Some Restarted)).
Proof.
  intros Hd%reachable_inv Hr. pose proof (ri_live _ (li_row _ _ Hd r Hr)) as Hl. split_and!.
  - intros k Hk. destruct (earlier_try _ _ r k Hd Hr Hk) as (p & Hp & Hpr & Hpk).
    exists p. split; [done|]. intros q (Hq & [??] & Hqk). destruct Hpr.
    apply (unique_key _ (li_unique _ _ Hd)); [done..|]. unfold attempt_key. congruence.
  - intros Hlr s Hs [Hj Ht]. split.
    + destruct (decide (ti_try_number s ≤ ti_try_number r)) as [|Hgt]; [done|]. exfalso.
      destruct (task_chain _ _ r s Hd) as (v & Hv & Hn); [done..|by split|lia|].
      by apply (li_last _ _ Hd r v).
    + intros Hls. by apply (unique_live _ (li_unique _ _ Hd)).
  - intros Hn. destruct Hl as [[? _]|(Hl & _ & Hterm)]; [done|]. split; [done|].
    destruct (li_next _ _ Hd r Hr Hl) as [?|[?|[]]]; auto.
Qed.

(** C6: the budgets, in every ledger a run can come to: a tenant has at most
    one pod queued, running, restarting or canceling, across all its jobs, and
    the ledger knows its name; no row is launched more often than its budget;
    a try is retried only while the task has retries left. *)
Theorem ledger_budgets sha256 hashtext d r :
  reachable sha256 hashtext d → r ∈ task_instances d →
  (active_pod r = true → is_Some (ti_k8s_job_name r)
     ∧ ∀ s, s ∈ task_instances d → active_pod s = true → ti_org_id s = ti_org_id r → s = r)
  ∧ 0 ≤ ti_launches r ≤ ti_max_launches r
  ∧ (ti_archived_reason r = Some Retry → ti_try_number r ≤ ti_max_tries r).
Proof.
  intros Hd%reachable_inv Hr. pose proof (li_row _ _ Hd r Hr) as Hri. split_and!; [|apply Hri..].
  intros Ha. split; [by apply Hri|]. intros s Hs Has Ho. by apply (li_pod _ _ Hd).
Qed.

(** ** A sample run *)

Module SampleLedger.

Definition sha (s : string) : list Z := (λ c, Z.of_N (N_of_ascii c)) <$> String.list_ascii_of_string s.
Definition hash (s : string) : Z := Z.of_nat (String.length s).

Definition node (rule : ClassRule) (id : string) (us : list nat) : Node :=
  mkNode id 1 Pod [] "out" true AllSucceeded false
    (mkPolicy 2 (mkBackoff 30 900) None rule false None false None) us.

Definition dag (rule : ClassRule) : Dag :=
  mkDag "sample" [node rule "init" []; node rule "load" [0%nat]] "f" "p".

(** Runs a transaction that must commit; on failure nothing changes. *)
Definition commit {A} (m : stmt Db A) (d : Db) : Db :=
  match m d with Ok (_, d) => d | Err _ => d end.

Lemma commit_reachable now A (m : stmt Db A) d :
  reachable sha hash d → ledger_txn sha hash now A m → reachable sha hash (commit m d).
Proof.
  intros Hd Hm. unfold commit. destruct (m d) as [[x d']|] eqn:E; [|done].
  eapply reachable_step; [exact Hd|]. by eapply step_txn.
Qed.

Definition queued : Db :=
  commit (enqueue 0 "j" "acme" None "run" 0 None None None None) (mkDb [] [] (λ _, None)).

Definition claimed : Db := commit (job_claim 0 4 ∅) queued.

Definition planned_with (rule : ClassRule) : Db :=
  match head (jobs claimed) with
  | Some job => default claimed (snd <$> plan sha 0 job (dag rule) "epoch" None claimed)
  | None => claimed
  end.

Definition planned : Db := planned_with FromRun.

Definition init_id : string := attempt_id sha "j" "init" 1.

Definition launched_with (rule : ClassRule) : Db :=
  commit (claim_launch_stmt 0 ∅ "epoch" None None 10)
    (commit (mark_scheduled 0 (JObject []) init_id 0) (planned_with rule)).

Definition launched : Db := launched_with FromRun.

Definition oom : TaskFailure :=
  mkFailure Failed true true (Some 137) (Some "OOMKilled") (Some "resources") None
    (launch_name <$> find_first (λ r, bool_decide (ti_id r = init_id)) (task_instances planned))
    POD_BACKOFF.

Definition retried : Db := commit (fail_or_retry_stmts sha hash 0 init_id oom) launched.

Lemma planned_reachable rule : reachable sha hash (planned_with rule).
Proof.
  assert (reachable sha hash claimed) as Hc.
  { unfold claimed, queued. apply (commit_reachable 0); [|apply TJobClaim].
    apply (commit_reachable 0); [|apply TEnqueue]. apply reachable_init. }
  unfold planned_with. destruct (head (jobs claimed)) as [job|] eqn:Ej; [|done].
  destruct (plan sha 0 job (dag rule) "epoch" None claimed) as [[res d']|] eqn:E; [|done].
  eapply reachable_step; [exact Hc|]. eapply step_plan; [|exact E].
  exists job. split; [|done]. destruct (jobs claimed) as [|? ?]; [done|].
  injection Ej as ->. apply list_elem_of_here.
Qed.

Lemma launched_reachable rule : reachable sha hash (launched_with rule).
Proof.
  unfold launched_with. apply (commit_reachable 0); [|apply TClaimLaunch].
  apply (commit_reachable 0); [|apply TMarkScheduled]. apply planned_reachable.
Qed.

Lemma retried_reachable : reachable sha hash retried.
Proof.
  unfold retried. apply (commit_reachable 0); [|by apply TFailOrRetry]. apply launched_reachable.
Qed.

(** Two tasks planned, the first retried: its tries 1 and 2. *)
Example retried_rows :
  (λ r, (ti_task_id r, ti_try_number r, ti_live r, ti_state r, ti_resource_class r,
         ti_not_before r)) <$> task_instances retried
  = [("init", 1, None, Failed, Some ClassM, None);
     ("load", 1, Some true, SNone, Some ClassM, None);
     ("init", 2, Some true, UpForRetry, Some ClassL, Some 38000000)].
Proof. vm_compute. reflexivity. Qed.
End SampleLedger.

(** The retry of the sample run. *)
Lemma sample_retry : ∃ r, r ∈ task_instances SampleLedger.retried ∧ ti_try_number r = 2
  ∧ ti_live r = Some true.
Proof.
  destruct (task_instances SampleLedger.retried !! 2%nat) as [r|] eqn:E;
    [|by vm_compute in E]. exists r. split; [by eapply list_elem_of_lookup_2|].
  assert ((λ r, (ti_try_number r, ti_live r)) <$> task_instances SampleLedger.retried !! 2%nat
    = Some (2, Some true)) as H by (vm_compute; reflexivity).
  rewrite E in H. clear E. injection H as Ht Hl. exact (conj Ht Hl).
Qed.

Lemma ledger_history_witness :
  ∃ r, r ∈ task_instances SampleLedger.retried ∧ ti_try_number r = 2 ∧
    exists! p, p ∈ task_instances SampleLedger.retried ∧ same_task p r ∧ ti_try_number p = 1.
Proof.
  destruct sample_retry as (r & Hr & Ht & _). exists r. split; [exact Hr|]. split; [exact Ht|].
  apply (ledger_history SampleLedger.sha SampleLedger.hash SampleLedger.retried r
    SampleLedger.retried_reachable Hr). rewrite Ht. lia.
Defined.

Lemma ledger_budgets_witness :
  ∃ r, r ∈ task_instances SampleLedger.retried ∧ ti_live r = Some true
    ∧ 0 ≤ ti_launches r ≤ ti_max_launches r.
Proof.
  destruct sample_retry as (r & Hr & _ & Hl). exists r. split; [exact Hr|]. split; [exact Hl|].
  exact (proj1 (proj2 (ledger_budgets SampleLedger.sha SampleLedger.hash SampleLedger.retried r
    SampleLedger.retried_reachable Hr))).
Defined.
