(* ===== verification/LedgerMoves.v ===== *)
(** * The state machine of a task row

    Which states a statement can take a row from and to, and that a verdict,
    once written, is final. *)

From S2P Require Import Prelude Json Ids DagPolicy Dag Readiness Errors Registry Sql Ledger TaskPg.
From S2P Require Import LedgerInv LedgerRuns.

#[local] Open Scope Z_scope.

(** ** Definitions *)

(** The edges of the machine. *)
Definition moves (s s' : TaskState) : bool :=
  match s with
  | SNone => bool_decide (s' ∈ [Scheduled; Running]) || is_terminal s'
  | Scheduled | UpForRetry => bool_decide (s' ∈ [SNone; Queued; Running; Canceled])
  | Queued => bool_decide (s' ∈ [Running; Scheduled; Restarting; Canceling]) || is_terminal s'
  | Running => bool_decide (s' ∈ [Scheduled; Restarting; Canceling]) || is_terminal s'
  | Restarting => bool_decide (s' ∈ [Canceling; Failed])
  | Canceling => bool_decide (s' = Canceled)
  | _ => false
  end.

(** What a finished row says of its run. *)
Definition verdict (r : TaskInstance) :=
  (ti_state r, ti_outcome r, ti_output r, ti_error_class r, ti_error_detail r,
   (ti_snapshot_start r, ti_snapshot_end r, ti_counters r, ti_finished_at r)).

Record row_moves (r r' : TaskInstance) : Prop := {
  rm_id : ti_id r' = ti_id r;
  rm_key : attempt_key r' = attempt_key r;
  rm_state : ti_state r' = ti_state r ∨ moves (ti_state r) (ti_state r') = true;
  rm_verdict : terminal (ti_state r) → verdict r' = verdict r;
}.

(** The id of a row is the one its key determines. *)
Definition named_by_key (sha256 : string → list Z) (r : TaskInstance) : Prop :=
  ti_id r = attempt_id sha256 (ti_job_id r) (ti_task_id r) (ti_try_number r).

(** A row as it is inserted. *)
Definition fresh_row (sha256 : string → list Z) (r : TaskInstance) : Prop :=
  ti_live r = Some true ∧ ti_launches r = 0 ∧ ti_state r ∈ [SNone; UpForRetry]
  ∧ named_by_key sha256 r.

(** The rows of a table stay in their place, moved, and fresh ones follow. *)
Definition table_moves (sha256 : string → list Z) (l l' : list TaskInstance) : Prop :=
  ∃ old new, l' = old ++ new ∧ Forall2 row_moves l old ∧ Forall (fresh_row sha256) new.

(** Every statement on the table, whether it runs by itself or in a
    transaction. *)
Inductive row_stmt (sha256 : string → list Z) (hashtext : string → Z) (now : Z) :
  stmt Db (list TaskInstance) → Prop :=
| SInsertPlanned s : fresh_row sha256 s → row_stmt sha256 hashtext now (insert_planned s)
| SInsertClearedTry c k g i : row_stmt sha256 hashtext now (insert_cleared_try sha256 now c k g i)
| SInsertRetryTry b c k i :
    row_stmt sha256 hashtext now (insert_retry_try sha256 hashtext now b c k i)
| SAdopt e : row_stmt sha256 hashtext now (adopt now e)
| SAdvanceSegment k e n u m g v i j sg c cn :
    row_stmt sha256 hashtext now (advance_segment now k e n u m g v i j sg c cn)
| SArchiveCleared o j l : row_stmt sha256 hashtext now (archive_cleared now o j l)
| SArchiveRestarted x t i k : row_stmt sha256 hashtext now (archive_restarted now x t i k)
| SArchiveTry s b x t c e i k :
    terminal s → row_stmt sha256 hashtext now (archive_try now s b x t c e i k)
| SCancelLive o j : row_stmt sha256 hashtext now (cancel_live now o j)
| SCancelPending o j : row_stmt sha256 hashtext now (cancel_pending now o j)
| SCapacityWait w t i k : row_stmt sha256 hashtext now (capacity_wait now w t i k)
| SClaimControl l e : row_stmt sha256 hashtext now (claim_control now l e)
| SClaimLaunch l e k t c : row_stmt sha256 hashtext now (claim_launch_stmt now l e k t c)
| SFinish b o v a z c x i u : row_stmt sha256 hashtext now (finish now b o v a z c x i u)
| SFinishControl b o v c i e : row_stmt sha256 hashtext now (finish_control now b o v c i e)
| SHeartbeat c i u : row_stmt sha256 hashtext now (heartbeat now c i u)
| SMarkScheduled v i n : row_stmt sha256 hashtext now (mark_scheduled now v i n)
| SNoteInterruption t c i u : row_stmt sha256 hashtext now (note_interruption now t c i u)
| SPropagate s i n : terminal s → row_stmt sha256 hashtext now (propagate now s i n)
| SRecordEvidence x t i u k : row_stmt sha256 hashtext now (record_evidence now x t i u k)
| SRequeueLaunch w t i k : row_stmt sha256 hashtext now (requeue_launch now w t i k)
| SResetPending k c g o j l : row_stmt sha256 hashtext now (reset_pending now k c g o j l)
| SRestartCleared c o j l : row_stmt sha256 hashtext now (restart_cleared now c o j l)
| SSettleCanceled x t i k : row_stmt sha256 hashtext now (settle_canceled now x t i k)
| SStart n u m g i k : row_stmt sha256 hashtext now (start now n u m g i k).

(** Which statement it is, by its name alone. *)
Create HintDb row_stmt discriminated.
#[export] Hint Constants Opaque : row_stmt.
#[export] Hint Constructors row_stmt : row_stmt.

(** ** Lemmas *)

Lemma row_moves_refl r : row_moves r r.
Proof. split; auto. Qed.

Lemma update_moves sha256 where_ set d ret d' :
  update_tis where_ set d = Ok (ret, d') →
  (∀ r, r ∈ task_instances d → where_ d r = true → row_moves r (set r)) →
  table_moves sha256 (task_instances d) (task_instances d').
Proof.
  intros (_ & Hrows & _)%update_tis_ok Hset. exists (task_instances d'), []. split_and!.
  - by rewrite app_nil_r.
  - rewrite Hrows. simpl. apply Forall2_fmap_r, Forall_Forall2_diag, Forall_forall.
    intros r Hr. simpl. destruct (where_ d r) eqn:E; [by apply Hset|apply row_moves_refl].
  - done.
Qed.

Lemma insert_moves sha256 new d ret d' :
  insert_tis new d = Ok (ret, d') → Forall (fresh_row sha256) new →
  table_moves sha256 (task_instances d) (task_instances d').
Proof.
  intros (_ & Hrows & _)%insert_tis_ok Hnew. exists (task_instances d), new.
  split_and!; [done| |done]. apply Forall_Forall2_diag, Forall_forall.
  intros r _. apply row_moves_refl.
Qed.

Lemma same_moves sha256 l : table_moves sha256 l l.
Proof.
  exists l, []. rewrite app_nil_r. split_and!; [done| |done].
  apply Forall_Forall2_diag, Forall_forall. intros r _. apply row_moves_refl.
Qed.

(** A row whose state the guard gives. *)
Ltac row_goes :=
  split; [done|done| |]; cbv beta zeta; simpl;
  first
  [ by left
  | by intros _
  | states; repeat match goal with H : ti_state _ = _ |- _ => rewrite H; clear H end;
    first [by right|by left|by intros []] ].

Ltac stmt_goes :=
  eapply update_moves; [eassumption|]; intros r Hr Hw; cbv beta in Hw; guards; row_goes.

Section moves.
Context (sha256 : string → list Z) (hashtext : string → Z) (now : Z).

(** The two recipes of an attempt's id. *)
Lemma sql_attempt_id_eq j t n : sql_attempt_id sha256 j t n = attempt_id sha256 j t n.
Proof.
  unfold sql_attempt_id, attempt_id, natural_id, natural_preimage. do 2 f_equal. simpl foldl.
  by rewrite !str_app_assoc.
Qed.

(** What the claims take was waiting. *)
Lemma claim_waits admits kind locked d r :
  rows_unique (task_instances d) = true → r ∈ task_instances d →
  claim_pick now admits kind locked d = Some (ti_id r) → ti_state r ∈ [Scheduled; UpForRetry].
Proof.
  intros Hu Hr (t & j & Ht & _ & Hid & Hc & _)%claim_pick_spec.
  assert (t = r) as -> by (by apply (unique_id _ Hu)). by apply claimable_spec in Hc as (_ & _ & _ & ? & _).
Qed.

Lemma row_stmt_moves m d x d' :
  row_stmt sha256 hashtext now m → rows_unique (task_instances d) = true →
  m d = Ok (x, d') → table_moves sha256 (task_instances d) (task_instances d').
Proof.
  intros Hm Hu He. destruct Hm; try (by stmt_goes).
  - apply bind_stmt in He as (? & ? & [= <- <-] & He).
    case_bool_decide; [injection He as _ <-; apply same_moves|].
    eapply insert_moves; [exact He|by constructor].
  - apply bind_stmt in He as (? & ? & [= <- <-] & He).
    eapply insert_moves; [exact He|]. apply Forall_fmap, Forall_true. intros r. simpl.
    split_and!; [done|done|set_solver|apply sql_attempt_id_eq].
  - apply bind_stmt in He as (? & ? & [= <- <-] & He). cbv zeta in He.
    destruct (forallb _ _); [|done].
    eapply insert_moves; [exact He|]. apply Forall_fmap, Forall_true. intros r. simpl.
    split_and!; [done|done|set_solver|apply sql_attempt_id_eq].
  - destruct s; try (by destruct H); stmt_goes.
  - apply bind_stmt in He as (? & ? & [= <- <-] & He). eapply update_moves; [exact He|].
    intros r Hr Hw. apply bool_decide_eq_true, claim_waits in Hw; [|done..]. row_goes.
  - apply bind_stmt in He as (? & ? & [= <- <-] & He). eapply update_moves; [exact He|].
    intros r Hr Hw. apply bool_decide_eq_true, claim_waits in Hw; [|done..]. row_goes.
  - destruct s; try (by destruct H); stmt_goes.
Qed.

(** *** Verdicts *)

(** Every row is still there, and says the same if it was finished. *)
Definition keeps_verdicts (d d' : Db) : Prop :=
  ∀ r, r ∈ task_instances d → ∃ r', r' ∈ task_instances d' ∧ ti_id r' = ti_id r
    ∧ (terminal (ti_state r) → verdict r' = verdict r).

#[global] Instance keeps_verdicts_preorder : PreOrder keeps_verdicts.
Proof.
  split; [intros d r Hr; by exists r|]. intros d1 d2 d3 H12 H23 r Hr.
  destruct (H12 r Hr) as (r2 & Hr2 & Hi2 & Hv2). destruct (H23 r2 Hr2) as (r3 & Hr3 & Hi3 & Hv3).
  exists r3. split; [done|]. split; [congruence|]. intros Ht. specialize (Hv2 Ht).
  rewrite Hv3; [done|]. by injection Hv2 as -> _.
Qed.

Lemma table_moves_keeps d d' :
  table_moves sha256 (task_instances d) (task_instances d') → keeps_verdicts d d'.
Proof.
  intros (old & new & Hl & Hold & _) r [i Hi]%list_elem_of_lookup.
  destruct (Forall2_lookup_l _ _ _ _ _ Hold Hi) as (r' & Hi' & []). exists r'. split; [|done].
  rewrite Hl, elem_of_app. left. by eapply list_elem_of_lookup_2.
Qed.

Lemma jobs_keep where_ set d x d' : update_jobs where_ set d = Ok (x, d') → keeps_verdicts d d'.
Proof.
  unfold update_jobs. destruct (update_rows _ _ _) as [l ret]. intros (_ & _ & _ & <-)%install_ok.
  intros r Hr. by exists r.
Qed.

Definition all_named (d : Db) : Prop := ∀ r, r ∈ task_instances d → named_by_key sha256 r.

Lemma table_moves_named d d' :
  table_moves sha256 (task_instances d) (task_instances d') → all_named d → all_named d'.
Proof.
  intros (old & new & Hl & Hold & Hnew) Hd r. rewrite Hl, elem_of_app.
  rewrite Forall_forall in Hnew. intros [[i Hi]%list_elem_of_lookup|(_ & _ & _ & ?)%Hnew]; [|done].
  destruct (Forall2_lookup_r _ _ _ _ _ Hold Hi) as (r0 & Hi0 & [Hid Hkey _ _]).
  apply list_elem_of_lookup_2, Hd in Hi0. unfold named_by_key in *. injection Hkey as -> -> ->.
  congruence.
Qed.

(** A statement that, on the unique tables it succeeds on, keeps the verdicts
    and the names. *)
Definition verdict_safe {A} (m : stmt Db A) : Prop :=
  ∀ d x d', rows_unique (task_instances d) = true → m d = Ok (x, d') →
    keeps_verdicts d d' ∧ rows_unique (task_instances d') = true
    ∧ (all_named d → all_named d').

Lemma verdict_safe_ret {A} (x : A) : verdict_safe (mret x).
Proof. intros d y d' Hu [= _ <-]. done. Qed.

Lemma verdict_safe_bind {A B} (m : stmt Db A) (k : A → stmt Db B) :
  verdict_safe m → (∀ x, verdict_safe (k x)) → verdict_safe (m ≫= k).
Proof.
  intros Hm Hk d y d'' Hu (x & d' & Hx & Hy)%bind_stmt.
  destruct (Hm d x d' Hu Hx) as (H1 & Hu' & Hn').
  destruct (Hk x d' y d'' Hu' Hy) as (H2 & Hu'' & Hn'').
  split; [by transitivity d'|]. auto.
Qed.

Lemma row_stmt_unique m d x d' :
  row_stmt sha256 hashtext now m → rows_unique (task_instances d) = true →
  m d = Ok (x, d') → rows_unique (task_instances d') = true.
Proof.
  intros Hm Hu He. destruct Hm; try (by apply update_tis_ok in He as (_ & _ & _ & _ & ?));
    apply bind_stmt in He as (? & ? & [= <- <-] & He);
    try (by apply update_tis_ok in He as (_ & _ & _ & _ & ?));
    try (by apply insert_tis_ok in He as (_ & _ & _ & _ & ?)).
  - case_bool_decide; [by injection He as _ <-|].
    by apply insert_tis_ok in He as (_ & _ & _ & _ & ?).
  - cbv zeta in He. destruct (forallb _ _); [|done].
    by apply insert_tis_ok in He as (_ & _ & _ & _ & ?).
Qed.

Lemma row_stmt_safe m : row_stmt sha256 hashtext now m → verdict_safe m.
Proof.
  intros Hm d x d' Hu He. assert (table_moves sha256 (task_instances d) (task_instances d'))
    by (by eapply row_stmt_moves).
  split_and!; [by apply table_moves_keeps|by eapply row_stmt_unique|by apply table_moves_named].
Qed.

Lemma each_safe {B} (f : B → stmt Db (list TaskInstance)) l :
  (∀ y, y ∈ l → verdict_safe (f y)) → verdict_safe (each f l).
Proof.
  induction l as [|y l IH]; simpl; intros Hf; [apply verdict_safe_ret|].
  apply verdict_safe_bind; [apply Hf; set_solver|]. intros xs.
  apply verdict_safe_bind; [apply IH; set_solver|]. intros ys. apply verdict_safe_ret.
Qed.

Lemma jobs_safe where_ set : verdict_safe (update_jobs where_ set).
Proof.
  intros d x d' Hu He. split; [by eapply jobs_keep|].
  unfold update_jobs in He. destruct (update_rows _ _ _) as [l ret].
  by apply install_ok in He as (_ & _ & _ & <-).
Qed.

Lemma insert_job_safe j : verdict_safe (insert_job now j).
Proof.
  intros d x d' Hu (? & ? & [= <- <-] & He)%bind_stmt. cbv zeta in He.
  destruct (existsb _ _); [by eapply jobs_safe|].
  apply install_ok in He as (_ & _ & _ & <-). split; [|done]. intros r Hr. by exists r.
Qed.

Lemma fail_or_retry_safe i f :
  terminal (tf_terminal_state f) → verdict_safe (fail_or_retry_stmts sha256 hashtext now i f).
Proof.
  intros Hs. apply verdict_safe_bind; [by apply row_stmt_safe, SArchiveTry|].
  intros rows. destruct (head rows) as [row|]; [|apply verdict_safe_ret].
  destruct (ti_live row); [apply verdict_safe_ret|].
  apply verdict_safe_bind; [apply row_stmt_safe, SInsertRetryTry|].
  intros ?. apply verdict_safe_ret.
Qed.

Lemma clear_safe o j l k c g : verdict_safe (clear_stmts sha256 now o j l k c g).
Proof.
  apply verdict_safe_bind; [apply row_stmt_safe, SRestartCleared|]. intros ?.
  apply verdict_safe_bind; [apply row_stmt_safe, SArchiveCleared|]. intros ?.
  apply verdict_safe_bind; [apply each_safe; intros; apply row_stmt_safe, SInsertClearedTry|].
  intros ?. apply verdict_safe_bind; [apply row_stmt_safe, SResetPending|]. intros ?.
  apply verdict_safe_bind; [apply jobs_safe|]. intros ?. apply verdict_safe_ret.
Qed.

Lemma ledger_txn_safe A (m : stmt Db A) : ledger_txn sha256 hashtext now A m → verdict_safe m.
Proof.
  destruct 1; try (apply row_stmt_safe; solve [auto with row_stmt]);
    try apply insert_job_safe; try apply jobs_safe;
    try (apply verdict_safe_bind; [apply jobs_safe|intros ?; apply verdict_safe_ret]).
  - by apply fail_or_retry_safe.
  - apply clear_safe.
Qed.
End moves.

Lemma planned_fresh sha256 now job dag g rows s :
  planned_rows sha256 now job dag g = Some rows → s ∈ rows → fresh_row sha256 s.
Proof.
  intros Hrows%mapM_Some [i Hi]%list_elem_of_lookup.
  destruct (Forall2_lookup_r _ _ _ _ _ Hrows Hi) as ([seq n] & _ & Hs).
  destruct (upstream_names dag n); [|done]. injection Hs as <-.
  split_and!; [done..| |done]. simpl. set_solver.
Qed.

Lemma safe_keeps {A} sha256 (m : stmt Db A) d x d' :
  ledger_inv closed d → verdict_safe sha256 m → m d = Ok (x, d') →
  keeps_verdicts d d' ∧ (all_named sha256 d → all_named sha256 d').
Proof. intros Hd Hm He. by destruct (Hm d x d' (li_unique _ _ Hd) He) as (? & _ & ?). Qed.

(** Planning and the fused hand-off included. *)
Lemma ledger_step_keeps sha256 hashtext d d' :
  ledger_inv closed d → ledger_step sha256 hashtext d d' →
  keeps_verdicts d d' ∧ (all_named sha256 d → all_named sha256 d').
Proof.
  intros Hd [now A m x d'' Hm He|now job dag epoch g res d'' _ Hp
            |now i u b o v a c x next res d'' _ Hf].
  - eapply safe_keeps; [exact Hd|by eapply ledger_txn_safe|exact He].
  - apply bind_Some in Hp as (rows & Hrows & Hp). injection Hp as Hp.
    match type of Hp with match ?b with _ => _ end = _ =>
      destruct b as [[js d2]|] eqn:E end; [|by injection Hp as _ <-].
    destruct js as [|j js]; injection Hp as _ <-; [done|].
    eapply safe_keeps; [exact Hd| |exact E]. apply verdict_safe_bind.
    + apply each_safe. intros s Hs. apply (row_stmt_safe sha256 hashtext now), SInsertPlanned.
      by eapply planned_fresh.
    + intros ?. apply jobs_safe.
  - unfold finish_and_advance, transaction in Hf.
    match type of Hf with match ?b with _ => _ end = _ =>
      destruct b as [[js d2]|] eqn:E end; injection Hf as _ <-; [|done].
    eapply safe_keeps; [exact Hd| |exact E].
    apply verdict_safe_bind; [apply (row_stmt_safe sha256 hashtext now), SFinish|].
    intros rows. simpl. destruct (head rows); [|apply verdict_safe_ret].
    destruct next; [|apply verdict_safe_ret].
    apply verdict_safe_bind; [|intros ?; apply verdict_safe_ret].
    apply (row_stmt_safe sha256 hashtext now), SAdvanceSegment.
Qed.

(** ** The properties *)

(** C36: the state machine.  A statement moves each row of the table along an
    edge of [moves] or leaves its state; it never removes a row, nor changes
    its id, job, task or number; the rows it adds are live, unlaunched and
    wait, and a finished row keeps its verdict. *)
Theorem ledger_state_machine sha256 hashtext now m d x d' :
  row_stmt sha256 hashtext now m → rows_unique (task_instances d) = true →
  m d = Ok (x, d') → table_moves sha256 (task_instances d) (task_instances d').
Proof. apply row_stmt_moves. Qed.

(** A verdict is final.  Whatever runs after it, a finished row stays in
    the ledger under its id with the same state, outcome, output, error,
    snapshots, counters and finish time. *)
Theorem verdict_final sha256 hashtext d d' r :
  reachable sha256 hashtext d → rtc (ledger_step sha256 hashtext) d d' →
  r ∈ task_instances d → terminal (ti_state r) →
  ∃ r', r' ∈ task_instances d' ∧ ti_id r' = ti_id r ∧ verdict r' = verdict r.
Proof.
  intros Hd Hrun Hr Ht.
  assert (keeps_verdicts d d') as Hk.
  { apply reachable_inv in Hd. clear Hr. induction Hrun as [|d d1 d2 Hs _ IH]; [done|].
    transitivity d1; [by eapply ledger_step_keeps|]. apply IH. by eapply ledger_step_inv. }
  destruct (Hk r Hr) as (r' & Hr' & Hi & Hv). exists r'. auto.
Qed.

(** An attempt's id is a function of its key.  In every ledger a run can
    come to, the id of a row, whether planned by the dispatcher or computed in
    SQL for a successor, is [attempt_id] of its job, task and number. *)
Theorem attempt_ids sha256 hashtext d r :
  reachable sha256 hashtext d → r ∈ task_instances d →
  ti_id r = attempt_id sha256 (ti_job_id r) (ti_task_id r) (ti_try_number r).
Proof.
  intros Hd. revert r. change (all_named sha256 d).
  induction Hd as [|d d' Hd IH Hs]; [intros r Hr; by apply not_elem_of_nil in Hr|].
  apply reachable_inv in Hd. by eapply ledger_step_keeps.
Qed.

(** ** Witnesses *)

Lemma attempt_ids_witness :
  ∃ r, r ∈ task_instances SampleLedger.retried ∧ ti_try_number r = 2
    ∧ ti_id r = attempt_id SampleLedger.sha (ti_job_id r) (ti_task_id r) (ti_try_number r).
Proof.
  destruct sample_retry as (r & Hr & Ht & _). exists r. split; [exact Hr|]. split; [exact Ht|].
  exact (attempt_ids SampleLedger.sha SampleLedger.hash SampleLedger.retried r
    SampleLedger.retried_reachable Hr).
Defined.

Lemma ledger_state_machine_witness :
  ∃ x d', mark_scheduled 0 (JObject []) SampleLedger.init_id 0 SampleLedger.planned = Ok (x, d')
    ∧ length x = 1%nat
    ∧ table_moves SampleLedger.sha (task_instances SampleLedger.planned) (task_instances d').
Proof.
  destruct (mark_scheduled 0 (JObject []) SampleLedger.init_id 0 SampleLedger.planned)
    as [[x d']|e] eqn:E; [|vm_compute in E; discriminate E].
  exists x, d'. split; [reflexivity|]. split.
  - assert (match mark_scheduled 0 (JObject []) SampleLedger.init_id 0 SampleLedger.planned with
            | Ok (x, _) => length x | Err _ => 0%nat end = 1%nat) as H by (vm_compute; reflexivity).
    rewrite E in H. exact H.
  - apply (ledger_state_machine SampleLedger.sha SampleLedger.hash 0
      (mark_scheduled 0 (JObject []) SampleLedger.init_id 0) SampleLedger.planned x d');
      [apply SMarkScheduled|vm_compute; reflexivity|exact E].
Defined.

Lemma verdict_final_witness :
  ∃ r, r ∈ task_instances SampleLedger.retried ∧ ti_state r = Failed ∧
  ∃ x d', job_cancel 1 "j" "acme" SampleLedger.retried = Ok (x, d') ∧
  ∃ r', r' ∈ task_instances d' ∧ ti_id r' = ti_id r ∧ verdict r' = verdict r.
Proof.
  destruct (task_instances SampleLedger.retried !! 0%nat) as [r|] eqn:Er;
    [|vm_compute in Er; discriminate Er].
  assert (ti_state <$> task_instances SampleLedger.retried !! 0%nat = Some Failed) as Hs
    by (vm_compute; reflexivity).
  rewrite Er in Hs. injection Hs as Hs. apply list_elem_of_lookup_2 in Er.
  exists r. split; [exact Er|]. split; [exact Hs|].
  destruct (job_cancel 1 "j" "acme" SampleLedger.retried) as [[x d']|e] eqn:E;
    [|vm_compute in E; discriminate E].
  exists x, d'. split; [reflexivity|].
  apply (verdict_final SampleLedger.sha SampleLedger.hash SampleLedger.retried d' r
    SampleLedger.retried_reachable); [|exact Er|rewrite Hs; discriminate].
  apply rtc_once. exact (step_txn _ _ _ 1 _ _ x d' (TJobCancel _ _ _ "j" "acme") E).
Defined.
