(* ===== verification/LedgerOps.v ===== *)
(** * What the ledger's transactions do

    The effect of [fail_or_retry] on every branch, the delay and the class of
    the try it adds, and the two recipes of an attempt's id. *)

From S2P Require Import Prelude Json Ids DagPolicy Dag Readiness Errors Registry Sql Ledger TaskPg.
From S2P Require Import LedgerInv LedgerRuns.
From stdpp Require Import pretty.

#[local] Open Scope Z_scope.

(** ** Writing one row *)

Definition write_row (r' : TaskInstance) (l : list TaskInstance) : list TaskInstance :=
  (λ x, if bool_decide (ti_id x = ti_id r') then r' else x) <$> l.

(** A statement that selects by id touches one row. *)
Lemma update_one where_ set d r :
  rows_unique (task_instances d) = true → r ∈ task_instances d → where_ d r = true →
  (∀ x, where_ d x = true → ti_id x = ti_id r) → ti_id (set r) = ti_id r →
  update_tis where_ set d =
    install (rows_ok (jobs d) (write_row (set r) (task_instances d)))
      (rows_unique (write_row (set r) (task_instances d))) [set r]
      (d <| task_instances := write_row (set r) (task_instances d) |>).
Proof.
  intros Hu Hr Hw Hid Hset. unfold update_tis.
  assert (update_rows (where_ d) set (task_instances d)
    = (write_row (set r) (task_instances d), [set r])) as ->; [|done].
  unfold update_rows. f_equal.
  - apply list_fmap_ext. intros j x Hx%list_elem_of_lookup_2. rewrite Hset. simpl.
    destruct (where_ d x) eqn:E.
    + rewrite bool_decide_eq_true_2 by auto. f_equal. apply (unique_id _ Hu); auto.
    + rewrite bool_decide_eq_false_2; [done|]. intros Hxr.
      assert (x = r) as -> by (by apply (unique_id _ Hu)). congruence.
  - destruct (filter_id _ Hu (λ x, Is_true (where_ d x)) (ti_id r)) as [E|(x & E & Hx & Hwx)].
    + intros x Hx. by apply Hid, Is_true_true.
    + assert (r ∈ ([] : list TaskInstance)) as []%not_elem_of_nil. rewrite <-E.
      apply list_elem_of_filter. by rewrite Is_true_true.
    + rewrite E. simpl. assert (x = r) as ->; [|done]. apply (unique_id _ Hu); [done..|].
      by apply Hid, Is_true_true.
Qed.

Lemma elem_of_write_row r' l x :
  x ∈ write_row r' l → x = r' ∨ x ∈ l ∧ ti_id x ≠ ti_id r'.
Proof.
  intros (y & -> & Hy)%list_elem_of_fmap. case_bool_decide; auto.
Qed.

(** The constraints of a table in which one row left the pods, or stayed. *)
Lemma write_row_unique l r r' :
  rows_unique l = true → r ∈ l → ti_id r' = ti_id r → attempt_key r' = attempt_key r →
  (is_live r' = true → is_live r = true) → active_pod r' = false →
  rows_unique (write_row r' l) = true.
Proof.
  intros Hu Hr Hi Hk Hl Ha. pose proof Hu as Hu'. unfold rows_unique in Hu' |- *.
  rewrite !andb_true_iff in Hu' |- *. destruct Hu' as [[[[H1 H2] H3] H4] H5].
  assert (∀ x, x ∈ l → ti_id x = ti_id r' → x = r) as Hx.
  { intros x Hx Hid. apply (unique_id _ Hu); [done..|congruence]. }
  split_and!; apply unique_fmap; try done; intros x Hxl;
    case_bool_decide as Hid; try done; apply Hx in Hid as ->; try done.
  - intros ?%Hl. split; [done|]. unfold attempt_key in Hk. congruence.
  - by rewrite Ha.
  - by rewrite Ha.
Qed.

Lemma write_row_ok js l r' :
  rows_ok js l = true → row_ok r' = true → (∃ r, r ∈ l ∧ ti_job_id r' = ti_job_id r) →
  rows_ok js (write_row r' l) = true.
Proof.
  unfold rows_ok. rewrite !andb_true_iff, !forallb_forall. intros [H1 H2] Hr' (r & Hr & Hj).
  assert (∀ x, In x (write_row r' l) → x = r' ∨ In x l) as Hin.
  { intros x. rewrite <-!list_elem_of_In. intros [?|[? _]]%elem_of_write_row; auto. }
  split; intros x [-> |?]%Hin; auto. rewrite Hj. apply H2. by apply list_elem_of_In.
Qed.

(** The constraints of a table with one more row that waits. *)
Lemma snoc_unique l s :
  rows_unique l = true → (∀ r, r ∈ l → ti_id r ≠ ti_id s) →
  (∀ r, r ∈ l → attempt_key r ≠ attempt_key s) →
  (∀ r, r ∈ l → is_live r = true → ¬ same_task r s) → active_pod s = false →
  rows_unique (l ++ [s]) = true.
Proof.
  intros Hu Hi Hk Hl Ha. unfold rows_unique in *. rewrite !andb_true_iff in *.
  destruct Hu as [[[[H1 H2] H3] H4] H5].
  split_and!; apply unique_snoc; try done; try (by rewrite Ha); auto.
  intros _ r Hr Hlr [= Hj Ht]. by apply (Hl r).
Qed.

Lemma snoc_ok js l s :
  rows_ok js l = true → row_ok s = true → (∃ r, r ∈ l ∧ ti_job_id s = ti_job_id r) →
  rows_ok js (l ++ [s]) = true.
Proof.
  unfold rows_ok. rewrite !forallb_app. simpl. rewrite !andb_true_iff. intros [H1 H2] Hs (r & Hr & Hj).
  split_and!; try done. rewrite Hj. rewrite forallb_forall in H2. by apply H2, list_elem_of_In.
Qed.

(** ** Failing and retrying *)

(** The row a report of failure is about: claimed, not being canceled or
    restarted, of the launch the report names, of a job that still runs it. *)
Record failing (d : Db) (r : TaskInstance) (f : TaskFailure) : Prop := {
  fa_row : r ∈ task_instances d;
  fa_live : ti_live r = Some true;
  fa_state : ti_state r ∈ [Queued; Running];
  fa_launch : ti_k8s_job_name r = tf_k8s_job_name f;
  fa_job : ∃ j, j ∈ jobs d ∧ job_id j = ti_job_id r ∧ job_admits j r = true;
  fa_verdict : terminal (tf_terminal_state f);
  fa_class : match tf_error_class f with Some c => c ∈ ERROR_CLASSES | None => True end;
}.

(** Whether the failure is retried. *)
Definition retries_again (f : TaskFailure) (r : TaskInstance) : bool :=
  tf_retryable f && (ti_try_number r <=? ti_max_tries r).

(** The columns the failure writes. *)
Record failed_as (now : Z) (f : TaskFailure) (r r' : TaskInstance) : Prop := {
  fs_id : ti_id r' = ti_id r;
  fs_key : attempt_key r' = attempt_key r;
  fs_state : ti_state r' = tf_terminal_state f;
  fs_live : ti_live r' = if retries_again f r then None else Some true;
  fs_reason : ti_archived_reason r' = if retries_again f r then Some Retry
                                      else ti_archived_reason r;
  fs_exit : ti_exit_code r' = tf_exit_code f;
  fs_class : ti_error_class r' = tf_error_class f;
  fs_detail : ti_error_detail r' = take_chars 2000 <$> tf_error_detail f;
  fs_finished : ti_finished_at r' = Some now;
  fs_rest : (ti_org_id r', ti_kind r', ti_resource_class r', ti_max_tries r', ti_launches r',
             ti_input r', ti_output r', ti_outcome r')
          = (ti_org_id r, ti_kind r, ti_resource_class r, ti_max_tries r, ti_launches r,
             ti_input r, ti_output r, ti_outcome r);
}.

(** The try that follows. *)
Record retried_as (now : Z) (f : TaskFailure) (r s : TaskInstance) : Prop := {
  rt_next : next_try r s;
  rt_state : ti_live s = Some true ∧ ti_state s = UpForRetry ∧ ti_launches s = 0;
  rt_budget : ti_max_tries s = ti_max_tries r;
  rt_input : ti_input s = ti_input r;
  rt_class : ti_resource_class s =
    if tf_escalate f then (λ c, default c (escalated c)) <$> ti_resource_class r
    else ti_resource_class r;
  rt_segment : ti_segment s = if tf_escalate f then None else ti_segment r;
  rt_waits : ∃ wait, ti_not_before s = Some (now + wait * 1000000)
    ∧ (let '(base, cap) := tf_backoff f in
       let delay := Z.min cap (base * 2 ^ (ti_try_number r - 1)) in
       0 < delay → delay ≤ wait < 2 * delay);
}.

(** What a retry needs of the row to be stored. *)
Record retry_fits (sha256 : string → list Z) (d : Db) (r : TaskInstance) (f : TaskFailure) :
  Prop := {
  rf_backoff : 0 < (tf_backoff f).1 ∧ 0 < (tf_backoff f).2;
  rf_tries : ti_max_tries r < 1024;
  rf_class : tf_escalate f = true → ti_resource_class r ≠ Some ClassL;
  rf_id : sql_attempt_id sha256 (ti_job_id r) (ti_task_id r) (ti_try_number r + 1)
          ∉ ti_id <$> task_instances d;
}.

Section failing.
Context (sha256 : string → list Z) (hashtext : string → Z) (now : Z).

Lemma retry_successor_spec f r :
  retried_as now f r (retry_successor sha256 hashtext now (tf_escalate f) (tf_backoff f).2
    (tf_backoff f).1 r).
Proof.
  unfold retry_successor. split; try done.
  - simpl. by destruct (ti_resource_class r) as [[]|], (tf_escalate f).
  - eexists. split; [done|]. destruct (tf_backoff f) as [base cap]. simpl. intros Hd.
    unfold retry_jitter. fold (retry_delay cap base (ti_try_number r)) in *.
    pose proof (Z.mod_pos_bound (Z.abs (hashtext (ti_job_id r +:+ "#" +:+ ti_task_id r +:+ "#"
      +:+ pretty (ti_try_number r)))) (retry_delay cap base (ti_try_number r)) Hd). lia.
Qed.

Lemma archive_try_commits d r f :
  ledger_inv closed d → failing d r f →
  ∃ r', failed_as now f r r' ∧ rows_ok (jobs d) (write_row r' (task_instances d)) = true
    ∧ rows_unique (write_row r' (task_instances d)) = true
    ∧ archive_try now (tf_terminal_state f) (tf_retryable f) (tf_exit_code f)
        (tf_termination_reason f) (tf_error_class f) (take_chars 2000 <$> tf_error_detail f)
        (ti_id r) (tf_k8s_job_name f) d
      = Ok ([r'], d <| task_instances := write_row r' (task_instances d) |>).
Proof.
  intros Hd [Hr Hl Hs Hn (j & Hj & Hjid & Hadm) Ht Hc]. pose proof (li_unique _ _ Hd) as Hu.
  unfold archive_try. rewrite (update_one _ _ d r Hu Hr); [|..|done].
  2:{ cbv beta. rewrite bool_decide_eq_true_2 by done. rewrite (proj2 (is_live_true r) Hl).
      rewrite (proj2 (state_in_true _ r) Hs). unfold not_distinct. rewrite bool_decide_eq_true_2 by done.
      simpl. apply existsb_exists. exists j. rewrite <-list_elem_of_In. split; [done|].
      by rewrite bool_decide_eq_true_2. }
  2:{ intros x Hx. cbv beta in Hx. by guards. }
  cbv beta zeta. fold (retries_again f r).
  match goal with |- context [install _ _ [?x] _] => set (r' := x) end.
  exists r'. rewrite install_ok. split; [by split|].
  assert (rows_ok (jobs d) (write_row r' (task_instances d)) = true) as H1.
  { apply write_row_ok; [apply (li_ok _ _ Hd)| |by exists r].
    pose proof (li_ok _ _ Hd) as [Hok _]%andb_true_iff. rewrite forallb_forall in Hok.
    specialize (Hok r (proj1 (list_elem_of_In _ _) Hr)). unfold row_ok in Hok |- *. simpl.
    guards. repeat (rewrite andb_true_iff; split); try done.
    - by apply bool_decide_eq_true.
    - destruct (tf_error_class f); [|done]. by apply bool_decide_eq_true. }
  assert (rows_unique (write_row r' (task_instances d)) = true) as H2; [|done].
  apply (write_row_unique _ r); [done..| |].
  - intros _. by apply is_live_true.
  - apply not_true_iff_false. rewrite active_pod_true. simpl. intros (_ & _ & Hst).
    destruct (tf_terminal_state f); try (by destruct Ht); set_solver.
Qed.

(** After the archiving: the row is there, and its task has no live row. *)
Lemma archived_alone d r f r' :
  ledger_inv closed d → failing d r f → retries_again f r = true → failed_as now f r r' →
  r' ∈ write_row r' (task_instances d)
  ∧ ∀ x, x ∈ write_row r' (task_instances d) → same_task x r → ti_live x ≠ Some true.
Proof.
  intros Hd Hf Ha Hr'. split.
  - apply list_elem_of_fmap. exists r. split; [|apply Hf].
    by rewrite bool_decide_eq_true_2 by (by rewrite (fs_id _ _ _ _ Hr')).
  - intros x [-> |[Hx Hid]]%elem_of_write_row Hsame Hl.
    + rewrite (fs_live _ _ _ _ Hr'), Ha in Hl. done.
    + apply Hid. rewrite (fs_id _ _ _ _ Hr').
      by rewrite (unique_live _ (li_unique _ _ Hd) x r Hx (fa_row _ _ _ Hf) Hl (fa_live _ _ _ Hf)).
Qed.

Lemma retry_computes_spec d r f r' :
  ledger_inv closed d → failing d r f → retries_again f r = true →
  0 < (tf_backoff f).1 ∧ 0 < (tf_backoff f).2 → ti_max_tries r < 1024 →
  failed_as now f r r' → retry_computes (tf_backoff f).2 (tf_backoff f).1 r' = true.
Proof.
  intros Hd Hf [_ Hle]%andb_true_iff [Hb Hc] Hm [_ Hk _ _ _ _ _ _ _ _].
  pose proof (ri_try _ (li_row _ _ Hd r (fa_row _ _ _ Hf))). apply Z.leb_le in Hle.
  injection Hk as _ _ Hk. unfold retry_computes, retry_delay. rewrite Hk.
  pose proof (Z.pow_pos_nonneg 2 (ti_try_number r - 1)).
  rewrite !bool_decide_eq_true_2; [done|lia|nia].
Qed.

(** The constraints of the try itself. *)
Lemma retry_row_ok d r f r' :
  ledger_inv closed d → failing d r f → retries_again f r = true → retry_fits sha256 d r f →
  failed_as now f r r' →
  row_ok (retry_successor sha256 hashtext now (tf_escalate f) (tf_backoff f).2
    (tf_backoff f).1 r') = true.
Proof.
  intros Hd Hf [_ Hle]%andb_true_iff [_ Hm Hc _] [_ Hk _ _ _ _ _ _ _ Hrest].
  pose proof (ri_try _ (li_row _ _ Hd r (fa_row _ _ _ Hf))). apply Z.leb_le in Hle.
  injection Hk as _ _ Hk. injection Hrest as _ _ Hcl Hmt _ _ _ _.
  unfold row_ok, bigint. simpl. rewrite Hk, Hcl, Hmt.
  rewrite !(bool_decide_eq_true_2 (_ ≤ _ < _)) by lia.
  rewrite bool_decide_eq_true_2; [done|]. destruct (tf_escalate f); [auto|done].
Qed.

(** The one row the insertion reads. *)
Lemma retry_source d r f r' :
  ledger_inv closed d → failing d r f → retries_again f r = true → failed_as now f r r' →
  rows_unique (write_row r' (task_instances d)) = true →
  filter (λ x, Is_true (bool_decide (ti_id x = ti_id r) && bool_decide (ti_live x = None)
    && bool_decide (ti_archived_reason x = Some Retry)
    && no_live_sibling (write_row r' (task_instances d)) x)) (write_row r' (task_instances d))
  = [r'].
Proof.
  intros Hd Hf Ha Hr' Hu. destruct (archived_alone d r f r' Hd Hf Ha Hr') as [Hin Halone].
  destruct Hr' as [Hi Hk _ Hl Hre _ _ _ _ _]. injection Hk as Hj Ht _. rewrite Ha in Hl, Hre.
  match goal with |- filter ?P _ = _ =>
    destruct (filter_id _ Hu P (ti_id r)) as [E|(x & E & Hx & Hg)] end.
  - intros x Hx%Is_true_true. by guards.
  - exfalso. apply (not_elem_of_nil r'). rewrite <-E. apply list_elem_of_filter.
    split; [|done]. apply Is_true_true. rewrite !bool_decide_eq_true_2 by done.
    apply no_live_sibling_spec. intros y Hy [??]. apply (Halone y Hy). split; congruence.
  - rewrite E. f_equal. apply Is_true_true in Hg. guards.
    apply (unique_id _ Hu); [done..|congruence].
Qed.

(** The insertion is of the successor of the archived row. *)
Lemma insert_retry_try_reads d r f r' :
  ledger_inv closed d → failing d r f → retries_again f r = true →
  0 < (tf_backoff f).1 ∧ 0 < (tf_backoff f).2 → ti_max_tries r < 1024 →
  failed_as now f r r' → rows_unique (write_row r' (task_instances d)) = true →
  let d' := d <| task_instances := write_row r' (task_instances d) |> in
  insert_retry_try sha256 hashtext now (tf_escalate f) (tf_backoff f).2 (tf_backoff f).1 (ti_id r)
    d'
  = insert_tis [retry_successor sha256 hashtext now (tf_escalate f) (tf_backoff f).2
      (tf_backoff f).1 r'] d'.
Proof.
  intros Hd Hf Ha Hb Hm Hr' Hu d'. unfold insert_retry_try, mbind, stmt_bind, get.
  cbv beta iota zeta.
  match goal with |- context [filter ?P ?l] =>
    assert (filter P l = [r']) as -> by exact (retry_source d r f r' Hd Hf Ha Hr' Hu) end.
  cbn [forallb]. by rewrite (retry_computes_spec d r f r') by done.
Qed.

(** The try is inserted: no other has its number, its task has no live row. *)
Lemma insert_retry_try_commits d r f r' :
  ledger_inv closed d → failing d r f → retries_again f r = true → retry_fits sha256 d r f →
  failed_as now f r r' →
  rows_ok (jobs d) (write_row r' (task_instances d)) = true →
  rows_unique (write_row r' (task_instances d)) = true →
  let s := retry_successor sha256 hashtext now (tf_escalate f) (tf_backoff f).2
             (tf_backoff f).1 r' in
  insert_retry_try sha256 hashtext now (tf_escalate f) (tf_backoff f).2 (tf_backoff f).1 (ti_id r)
    (d <| task_instances := write_row r' (task_instances d) |>)
  = Ok ([s], d <| task_instances := write_row r' (task_instances d) ++ [s] |>).
Proof.
  intros Hd Hf Ha Hfits Hr' Hok Hu s.
  destruct (archived_alone d r f r' Hd Hf Ha Hr') as [Hin Halone].
  pose proof (fs_key _ _ _ _ Hr') as Hk. injection Hk as Hj Ht Hn.
  assert (∀ x, x ∈ write_row r' (task_instances d) →
    ∃ y, y ∈ task_instances d ∧ ti_id y = ti_id x ∧ attempt_key y = attempt_key x) as Hold.
  { intros x [-> |[Hx _]]%elem_of_write_row; [|by exists x].
    exists r. split; [apply Hf|]. split; [by rewrite (fs_id _ _ _ _ Hr')|].
    by rewrite (fs_key _ _ _ _ Hr'). }
  rewrite (insert_retry_try_reads d r f r') by (done || apply Hfits).
  unfold insert_tis. apply install_ok. simpl. split_and!; [|..|done|done].
  - apply snoc_ok; [done|by eapply retry_row_ok|by exists r'].
  - apply snoc_unique; [done|..].
    + intros x (y & Hy & <- & _)%Hold Hid. apply (rf_id _ _ _ _ Hfits).
      apply list_elem_of_fmap. exists y. split; [|done]. simpl in Hid. by rewrite Hid, Hj, Ht, Hn.
    + intros x (y & Hy & _ & <-)%Hold Hkey. injection Hkey as ???.
      apply (li_last _ _ Hd r y); [apply Hf|done|apply Hf|]. split_and!; congruence.
    + intros x Hx Hl%is_live_true [??]. apply (Halone x Hx); [|done].
      split; simpl in *; congruence.
    + apply not_true_iff_false. rewrite active_pod_true. simpl. set_solver.
Qed.
End failing.


(** A retry that escalates a row already at the top class is refused.  The
    new row would carry [escalated_from = 'L'], which the table's check does
    not admit, so the transaction fails as a whole and the failure is not
    recorded: the row stays claimed. *)
Theorem escalating_L_refused sha256 hashtext now d r f :
  reachable sha256 hashtext d → failing d r f → retries_again f r = true →
  0 < (tf_backoff f).1 ∧ 0 < (tf_backoff f).2 → ti_max_tries r < 1024 →
  tf_escalate f = true → ti_resource_class r = Some ClassL →
  fail_or_retry_task sha256 hashtext now (ti_id r) f d = (Err OtherError, d).
Proof.
  intros Hd%reachable_inv Hf Ha Hb Hm Hesc Hcl.
  destruct (archive_try_commits now d r f Hd Hf) as (r' & Hr' & Hok & Hu & Harch).
  pose proof (insert_retry_try_reads sha256 hashtext now d r f r' Hd Hf Ha Hb Hm Hr' Hu) as Hins.
  assert (fail_or_retry_stmts sha256 hashtext now (ti_id r) f d = Err OtherError) as He.
  { unfold fail_or_retry_stmts. rewrite (bind_stmt_ok _ _ _ _ _ Harch). cbn [head].
    rewrite (fs_live _ _ _ _ Hr'), Ha. apply bind_stmt_err. rewrite Hins.
    unfold insert_tis, install. simpl jobs. simpl task_instances.
    assert (rows_ok (jobs d) (write_row r' (task_instances d)
      ++ [retry_successor sha256 hashtext now (tf_escalate f) (tf_backoff f).2
            (tf_backoff f).1 r']) = false) as ->; [|done].
    unfold rows_ok. rewrite forallb_app. simpl. unfold row_ok. simpl. rewrite Hesc.
    pose proof (fs_rest _ _ _ _ Hr') as Hrest. injection Hrest as _ _ -> _ _ _ _ _. rewrite Hcl.
    by rewrite andb_false_r. }
  unfold fail_or_retry_task, transaction. by rewrite He.
Qed.

(** ** Witnesses *)

(** The row the sample launches at a class. *)
Definition launched_at (c : ResourceClass) (d : Db) (r : TaskInstance) : bool :=
  bool_decide (ti_id r = SampleLedger.init_id)
  && bool_decide (ti_live r = Some true) && bool_decide (ti_state r = Queued)
  && bool_decide (ti_k8s_job_name r = tf_k8s_job_name SampleLedger.oom)
  && existsb (λ j, bool_decide (job_id j = ti_job_id r) && job_admits j r) (jobs d)
  && retries_again SampleLedger.oom r && (ti_max_tries r <? 1024)
  && bool_decide (ti_resource_class r = Some c)
  && bool_decide (sql_attempt_id SampleLedger.sha (ti_job_id r) (ti_task_id r)
       (ti_try_number r + 1) ∉ ti_id <$> task_instances d).

Lemma sample_launched c d :
  existsb (launched_at c d) (task_instances d) = true →
  ∃ r, failing d r SampleLedger.oom ∧ retries_again SampleLedger.oom r = true
    ∧ ti_max_tries r < 1024 ∧ ti_resource_class r = Some c
    ∧ (c ≠ ClassL → retry_fits SampleLedger.sha d r SampleLedger.oom).
Proof.
  intros (r & Hr%list_elem_of_In & H)%existsb_exists.
  unfold launched_at in H. rewrite !andb_true_iff, !bool_decide_eq_true in H.
  destruct H as ((((((((Hi & Hl) & Hs) & Hn) & Hj) & Ha) & Hm%Z.ltb_lt) & Hc) & Hid).
  apply existsb_exists in Hj as (j & Hj%list_elem_of_In & [Hji Hadm]%andb_true_iff).
  exists r. split_and!; try assumption.
  - split; try assumption; [rewrite Hs; apply list_elem_of_here| |discriminate|].
    + exists j. apply bool_decide_eq_true in Hji. auto.
    + apply (bool_decide_unpack _). vm_compute. exact I.
  - intros HL. split; [split; reflexivity|assumption| |assumption].
    intros _. rewrite Hc. congruence.
Qed.


Lemma escalating_L_refused_witness :
  ∃ r, r ∈ task_instances (SampleLedger.launched_with (Fixed ClassL)) ∧
    fail_or_retry_task SampleLedger.sha SampleLedger.hash 0 (ti_id r) SampleLedger.oom
      (SampleLedger.launched_with (Fixed ClassL))
    = (Err OtherError, SampleLedger.launched_with (Fixed ClassL)).
Proof.
  destruct (sample_launched ClassL (SampleLedger.launched_with (Fixed ClassL)))
    as (r & Hf & Ha & Hm & Hc & _); [vm_compute; reflexivity|].
  exists r. split; [exact (fa_row _ _ _ Hf)|].
  apply (escalating_L_refused SampleLedger.sha SampleLedger.hash 0
    (SampleLedger.launched_with (Fixed ClassL)) r SampleLedger.oom
    (SampleLedger.launched_reachable (Fixed ClassL)) Hf Ha);
    [split; reflexivity|exact Hm|reflexivity|exact Hc].
Defined.
