(* ===== verification/LedgerClear.v ===== *)
(** * What a clear does

    [clear] of [er-server/src/taskpg.rs], row by row: what is running will be
    restarted, what is finished is archived and tried again, what waits starts
    over, each with the retries the clear grants; the job is reopened. *)

From S2P Require Import Prelude Json Ids DagPolicy Dag Readiness Errors Registry Sql Ledger TaskPg.
From S2P Require Import LedgerInv LedgerRuns LedgerMoves LedgerOps.

#[local] Open Scope Z_scope.

(** ** Definitions *)

(** A live row of the job and of one of the tasks. *)
Definition cleared_row (org job : string) (l : list string) (r : TaskInstance) : Prop :=
  ti_org_id r = org ∧ ti_job_id r = job ∧ ti_live r = Some true ∧ ti_task_id r ∈ l.

(** A try that starts over with [k] retries. *)
Definition starts_over (k : Z) (r : TaskInstance) : Prop :=
  ti_live r = Some true ∧ ti_state r = SNone ∧ ti_input r = None ∧ ti_not_before r = None
  ∧ ti_max_tries r - (ti_try_number r - 1) = k.

(** What becomes of a row. *)
Definition clear_spec (org job : string) (l : list string) (k : Z) (d' : Db) (r : TaskInstance) :
    Prop :=
  if decide (cleared_row org job l r) then
    match ti_state r with
    | SNone | Scheduled | UpForRetry =>
        ∃ r', r' ∈ task_instances d' ∧ ti_id r' = ti_id r ∧ attempt_key r' = attempt_key r
          ∧ starts_over k r'
    | Queued | Running =>
        ∃ r', r' ∈ task_instances d' ∧ ti_id r' = ti_id r ∧ attempt_key r' = attempt_key r
          ∧ ti_live r' = Some true ∧ ti_state r' = Restarting
    | Restarting | Canceling => r ∈ task_instances d'
    | _ =>
        ∃ r' s, r' ∈ task_instances d' ∧ ti_id r' = ti_id r ∧ attempt_key r' = attempt_key r
          ∧ ti_live r' = None ∧ ti_archived_reason r' = Some Cleared ∧ verdict r' = verdict r
          ∧ s ∈ task_instances d' ∧ next_try r s ∧ starts_over k s
    end
  else r ∈ task_instances d'.

#[global] Instance cleared_row_dec org job l r : Decision (cleared_row org job l r).
Proof. unfold cleared_row. apply _. Defined.

(** ** Lemmas *)

Lemma in_clear_true org job l states r :
  in_clear org job l states r = true ↔ cleared_row org job l r ∧ ti_state r ∈ states.
Proof.
  unfold in_clear, cleared_row. rewrite !andb_true_iff, !bool_decide_eq_true, is_live_true,
    state_in_true. tauto.
Qed.

Section clear.
Context (sha256 : string → list Z) (hashtext : string → Z) (now : Z).
Context (org job : string) (l : list string) (k : Z) (cls : option ResourceClass).
Context (img : option string).

(** The three updates, on one row. *)
Definition restart_one (r : TaskInstance) : TaskInstance :=
  if in_clear org job l [Queued; Running] r
  then touch now (r <| ti_state := Restarting |> <| ti_next_resource_class := cls |>) else r.

Definition archive_one (r : TaskInstance) : TaskInstance :=
  if in_clear org job l terminal_states r
  then touch now (r <| ti_live := None |> <| ti_archived_reason := Some Cleared |>) else r.

Definition reset_one (r : TaskInstance) : TaskInstance :=
  if in_clear org job l [SNone; Scheduled; UpForRetry] r
  then touch now (r <| ti_state := SNone |> <| ti_input := None |> <| ti_not_before := None |>
      <| ti_scheduled_at := None |> <| ti_max_tries := ti_try_number r - 1 + k |>
      <| ti_resource_class := coalesce cls (ti_resource_class r) |>
      <| ti_image_digest := img |>)
  else r.

Lemma each_cleared_rows rows d x d' :
  each (λ row, insert_cleared_try sha256 now cls k img (ti_id row)) rows d = Ok (x, d') →
  ∃ news, task_instances d' = task_instances d ++ news ∧ jobs d' = jobs d
    ∧ ∀ s, s ∈ news → ∃ r, s = cleared_successor sha256 now cls k img r.
Proof.
  revert d x. induction rows as [|row rows IH]; intros d x; simpl.
  { intros [= _ <-]. exists []. rewrite app_nil_r. split_and!; [done..|]. set_solver. }
  intros (x1 & d1 & H1 & H)%bind_stmt. apply bind_stmt in H as (x2 & d2 & H2 & [= _ <-]).
  destruct (IH _ _ H2) as (news & Hrows & Hjobs & Hnews).
  apply bind_stmt in H1 as (? & ? & [= <- <-] & H1). apply insert_tis_ok in H1 as (_ & H1 & Hj1 & _).
  rewrite H1 in Hrows. eexists. rewrite Hrows, <-app_assoc. split; [done|].
  split; [congruence|]. intros s [(r & -> & _)%list_elem_of_fmap|Hs]%elem_of_app; eauto.
Qed.

(** The updates keep what names a row. *)
Lemma stages_key r : attempt_key (archive_one (restart_one r)) = attempt_key r.
Proof. unfold archive_one, restart_one. do 2 case_match; done. Qed.

Lemma next_try_stages r s : next_try r (archive_one (restart_one s)) ↔ next_try r s.
Proof. unfold next_try, archive_one, restart_one. do 2 case_match; done. Qed.

Lemma stages_org r : ti_org_id (archive_one (restart_one r)) = ti_org_id r.
Proof. unfold archive_one, restart_one. do 2 case_match; done. Qed.

(** The table after the clear. *)
Lemma clear_stmts_rows d c d' :
  ledger_inv closed d → clear_stmts sha256 now org job l k cls img d = Ok (c, d') →
  ∃ news, task_instances d' = reset_one <$> ((archive_one ∘ restart_one <$> task_instances d) ++ news)
    ∧ (∀ s, s ∈ news → ∃ r, s = cleared_successor sha256 now cls k img r)
    ∧ (∀ r s, r ∈ task_instances d → s ∈ (archive_one ∘ restart_one <$> task_instances d) ++ news →
         ti_job_id r = ti_job_id s → ti_org_id r = ti_org_id s)
    ∧ (∀ r, r ∈ task_instances d → ti_live (archive_one (restart_one r)) = None →
         ti_archived_reason (archive_one (restart_one r)) = Some Cleared →
         ∃ s, s ∈ (archive_one ∘ restart_one <$> task_instances d) ++ news ∧ next_try r s).
Proof.
  intros Hd (rs & d1 & H1 & H)%bind_stmt.
  apply bind_stmt in H as (arch & d2 & H2 & H). apply bind_stmt in H as (rot & d3 & H3 & H).
  apply bind_stmt in H as (rst & d4 & H4 & H). apply bind_stmt in H as (js & d5 & H5 & [= _ <-]).
  assert (ledger_inv closed d3) as Hd3 by (by eapply (clear_rotate_inv sha256 hashtext now)).
  apply update_tis_ok in H1 as (_ & H1 & _). apply update_tis_ok in H2 as (_ & H2 & _).
  destruct (each_cleared_rows _ _ _ _ H3) as (news & Hnews & _ & Hs).
  apply update_tis_ok in H4 as (_ & H4 & _).
  assert (task_instances d2 = archive_one ∘ restart_one <$> task_instances d) as E2.
  { rewrite H2. simpl. rewrite H1. simpl. by rewrite <-list_fmap_compose. }
  exists news. split_and!; [|exact Hs| |].
  - unfold job_reopen, update_jobs in H5. destruct (update_rows _ _ (jobs d4)).
    apply install_ok in H5 as (_ & _ & _ & <-). simpl. rewrite H4. simpl.
    by rewrite Hnews, E2.
  - intros r s Hr Hs' Hj. rewrite <-(stages_org r). eapply job_one_org; [exact Hd3|..|].
    + rewrite Hnews, E2, elem_of_app. left. by apply (list_elem_of_fmap_2 (archive_one ∘ restart_one)).
    + by rewrite Hnews, E2.
    + rewrite <-Hj. apply (f_equal (λ k, k.1.1) (stages_key r)).
  - intros r Hr Hl Hre.
    assert (archive_one (restart_one r) ∈ task_instances d3) as Hr3.
    { rewrite Hnews, E2, elem_of_app. left. by apply (list_elem_of_fmap_2 (archive_one ∘ restart_one)). }
    rewrite <-E2, <-Hnews. destruct (li_next _ _ Hd3 _ Hr3 Hl) as [(s & Hs3 & Hn)|[?|[]]];
      [|congruence]. exists s. split; [done|]. destruct Hn as (Hj & Ht & Hk').
    pose proof (stages_key r) as Hkey. injection Hkey as ???. split_and!; congruence.
Qed.

(** A stage, by the state of the row. *)
Lemma in_clear_state states r :
  in_clear org job l states r = bool_decide (cleared_row org job l r) && state_in states r.
Proof.
  apply eq_true_iff_eq. rewrite in_clear_true, andb_true_iff, bool_decide_eq_true, state_in_true.
  done.
Qed.

Lemma stage_out r :
  ¬ cleared_row org job l r → archive_one (restart_one r) = r ∧ reset_one r = r.
Proof.
  intros Hn. assert (∀ states, in_clear org job l states r = false) as Hf.
  { intros states. rewrite in_clear_state, bool_decide_eq_false_2; done. }
  unfold restart_one. rewrite Hf. unfold archive_one, reset_one. by rewrite !Hf.
Qed.

Lemma stage_in states r :
  cleared_row org job l r → in_clear org job l states r = state_in states r.
Proof. intros Hr. by rewrite in_clear_state, bool_decide_eq_true_2. Qed.

(** What the stages make of a row of the clear. *)
Definition clear_stages (r : TaskInstance) : Prop :=
  let a := archive_one (restart_one r) in
  let r' := reset_one a in
  ti_id r' = ti_id r ∧ attempt_key r' = attempt_key r ∧
  match ti_state r with
  | SNone | Scheduled | UpForRetry => starts_over k r'
  | Queued | Running => ti_live r' = Some true ∧ ti_state r' = Restarting
  | Restarting | Canceling => r' = r
  | _ => ti_live a = None ∧ ti_archived_reason a = Some Cleared ∧ r' = a
           ∧ verdict r' = verdict r
  end.

Definition restarted (r : TaskInstance) : TaskInstance :=
  touch now (r <| ti_state := Restarting |> <| ti_next_resource_class := cls |>).

Definition archived (r : TaskInstance) : TaskInstance :=
  touch now (r <| ti_live := None |> <| ti_archived_reason := Some Cleared |>).

Lemma reset_restarted r : reset_one (restarted r) = restarted r.
Proof. unfold reset_one. by rewrite in_clear_state, andb_false_r. Qed.

Lemma archive_restarted_row r : archive_one (restarted r) = restarted r.
Proof. unfold archive_one. by rewrite in_clear_state, andb_false_r. Qed.

Lemma reset_archived r : reset_one (archived r) = archived r.
Proof.
  unfold reset_one. rewrite in_clear_state, bool_decide_eq_false_2; [done|].
  by intros (_ & _ & [=] & _).
Qed.

Lemma stages_running r :
  cleared_row org job l r → state_in [Queued; Running] r = true →
  archive_one (restart_one r) = restarted r.
Proof. intros Hr Hs. unfold restart_one. rewrite stage_in, Hs by done. apply archive_restarted_row. Qed.

Lemma stages_finished r :
  cleared_row org job l r → state_in [Queued; Running] r = false →
  state_in terminal_states r = true → archive_one (restart_one r) = archived r.
Proof.
  intros Hr H1 H2. unfold restart_one. rewrite stage_in, H1 by done.
  unfold archive_one. by rewrite stage_in, H2 by done.
Qed.

Lemma stages_waiting r :
  cleared_row org job l r → state_in [Queued; Running] r = false →
  state_in terminal_states r = false → archive_one (restart_one r) = r.
Proof.
  intros Hr H1 H2. unfold restart_one. rewrite stage_in, H1 by done.
  unfold archive_one. by rewrite stage_in, H2 by done.
Qed.

Lemma clear_stages_row r : cleared_row org job l r → clear_stages r.
Proof.
  intros Hr. pose proof Hr as (_ & _ & Hl & _). unfold clear_stages.
  destruct (ti_state r) eqn:E;
    first [ rewrite (stages_running r Hr) by (unfold state_in; rewrite E; reflexivity);
            rewrite reset_restarted; done
          | rewrite (stages_finished r Hr) by (unfold state_in; rewrite E; reflexivity);
            rewrite reset_archived; done
          | rewrite (stages_waiting r Hr) by (unfold state_in; rewrite E; reflexivity);
            unfold reset_one; rewrite (stage_in _ r Hr); unfold state_in; rewrite E ].
  all: match goal with
       | |- context [bool_decide ?P] =>
           first [ rewrite (bool_decide_eq_true_2 P) by set_solver
                 | rewrite (bool_decide_eq_false_2 P) by set_solver ]
       end.
  all: split_and!; try done. all: unfold starts_over; split_and!; try done; simpl; lia.
Qed.

Lemma stages_finished_row r :
  cleared_row org job l r → ti_state r ∈ terminal_states → archive_one (restart_one r) = archived r.
Proof.
  intros Hr Hs. apply stages_finished; [done| |by apply state_in_true].
  apply not_true_iff_false. rewrite state_in_true. intros Hq.
  apply terminal_states_spec in Hs. destruct (ti_state r); try done; set_solver.
Qed.

(** A successor is reset by the statement that follows its insertion. *)
Lemma successor_starts_over r x :
  cleared_row org job l r → next_try r (cleared_successor sha256 now cls k img x) →
  ti_org_id r = ti_org_id x →
  let s := reset_one (cleared_successor sha256 now cls k img x) in
  next_try r s ∧ starts_over k s.
Proof.
  intros (Ho & Hj & _ & Ht) Hn Hox s. subst s. pose proof Hn as (Hnj & Hnt & _).
  assert (cleared_row org job l (cleared_successor sha256 now cls k img x)) as Hc.
  { split_and!; [by rewrite <-Ho|by rewrite <-Hnj|done|by rewrite <-Hnt]. }
  unfold reset_one. rewrite (stage_in _ _ Hc). simpl. split; [done|].
  split_and!; try done. simpl. lia.
Qed.

(** The clear, on each row. *)
Lemma clear_row d c d' r :
  ledger_inv closed d → clear_stmts sha256 now org job l k cls img d = Ok (c, d') →
  r ∈ task_instances d → clear_spec org job l k d' r.
Proof.
  intros Hd H Hr. destruct (clear_stmts_rows _ _ _ Hd H) as (news & E & Hnews & Horg & Hnext).
  assert (∀ x, x ∈ (archive_one ∘ restart_one <$> task_instances d) ++ news →
    reset_one x ∈ task_instances d') as Hin.
  { intros x Hx. rewrite E. by apply list_elem_of_fmap_2. }
  assert (reset_one (archive_one (restart_one r)) ∈ task_instances d') as Hr'.
  { apply Hin, elem_of_app. left. by apply (list_elem_of_fmap_2 (archive_one ∘ restart_one)). }
  unfold clear_spec. case_decide as Hc.
  2:{ destruct (stage_out r Hc) as [E1 E2]. by rewrite E1, E2 in Hr'. }
  pose proof (clear_stages_row r Hc) as (Hid & Hkey & Hs).
  assert (ti_state r ∈ terminal_states → ∃ s, s ∈ task_instances d' ∧ next_try r s
    ∧ starts_over k s) as Hsucc.
  { intros Hf. pose proof (stages_finished_row r Hc Hf) as Ha.
    destruct (Hnext r Hr) as (s & Hs' & Hn); [by rewrite Ha..|].
    assert (s ∈ news) as Hsn.
    { apply elem_of_app in Hs' as [(s0 & -> & Hs0)%list_elem_of_fmap|]; [|done]. exfalso.
      apply (li_last _ _ Hd r s0); [done..|by apply Hc|].
      exact (proj1 (next_try_stages r s0) Hn). }
    destruct (Hnews s Hsn) as [x ->]. exists (reset_one (cleared_successor sha256 now cls k img x)).
    split; [by apply Hin|].
    apply successor_starts_over; [exact Hc|exact Hn|]. exact (Horg _ _ Hr Hs' (proj1 Hn)). }
  destruct (ti_state r) eqn:Est;
    try (by eexists; split_and!; [exact Hr'|..]; auto; apply Hs); try (by rewrite Hs in Hr').
  all: destruct Hs as (Hl & Hre & Hsame & Hv); rewrite <-Hsame in Hl, Hre;
    (destruct Hsucc as (s & Hs & Hn & Hk); [by apply (bool_decide_unpack _)|]);
    exists (reset_one (archive_one (restart_one r))), s;
    exact (conj Hr' (conj Hid (conj Hkey (conj Hl (conj Hre (conj Hv (conj Hs (conj Hn Hk)))))))).
Qed.

(** The job, reopened. *)
Definition reopened (j : Job) : Job :=
  job_touch now (j <| job_clear_number := Some (default 0 (job_clear_number j) + 1) |>
    <| job_state := if bool_decide (job_state j ∈ finished_states) then "queued"
                    else job_state j |>
    <| job_finished_at := None |> <| job_error_class := None |>
    <| job_error_detail := None |> <| job_not_before := Some now |>).

Lemma clear_jobs d c d' :
  clear_stmts sha256 now org job l k cls img d = Ok (c, d') →
  jobs d' = (λ j, if bool_decide (job_id j = job) && bool_decide (job_org_id j = org)
                  then reopened j else j) <$> jobs d.
Proof.
  intros (rs & d1 & H1 & H)%bind_stmt.
  apply bind_stmt in H as (arch & d2 & H2 & H). apply bind_stmt in H as (rot & d3 & H3 & H).
  apply bind_stmt in H as (rst & d4 & H4 & H). apply bind_stmt in H as (js & d5 & H5 & [= _ <-]).
  apply update_tis_ok in H1 as (_ & _ & J1 & _). apply update_tis_ok in H2 as (_ & _ & J2 & _).
  destruct (each_cleared_rows _ _ _ _ H3) as (_ & _ & J3 & _).
  apply update_tis_ok in H4 as (_ & _ & J4 & _). rewrite <-J1, <-J2, <-J3, <-J4.
  unfold job_reopen, update_jobs in H5. apply install_ok in H5 as (_ & _ & _ & <-). done.
Qed.
End clear.

(** ** Correctness *)

(** C8: a clear, on every branch, in every ledger a run can come to.  Of an
    unknown job it is empty; a job being canceled is refused, with its error;
    a statement that fails leaves the ledger as it was.  Otherwise every row
    of the ledger is accounted for: a live row of the job and the tasks that
    waits starts over under its own id and number with exactly the retries of
    the clear, one whose pod runs is marked to be restarted, one that
    restarts or cancels is untouched, and a finished one is archived as
    cleared with its verdict unchanged and followed by a new live try that
    starts over; every other row is still there, unchanged.  Only the job of
    the clear, in its tenant, is reopened. *)
Theorem clear_correct sha256 hashtext now org job l k cls img d :
  reachable sha256 hashtext d →
  match head (job_lock job d), clear sha256 now org job l k cls img d with
  | None, res => res = (Ok (mkCleared [] [] [] None), d)
  | Some j, (Err e, d') =>
      d' = d ∧ (e = ClearCanceling ↔ job_state j = "canceling")
  | Some j, (Ok c, d') =>
      job_state j ≠ "canceling"
      ∧ (∀ r, r ∈ task_instances d → clear_spec org job l k d' r)
      ∧ jobs d' = (λ j, if bool_decide (job_id j = job) && bool_decide (job_org_id j = org)
                        then reopened now j else j) <$> jobs d
  end.
Proof.
  intros Hd%reachable_inv. unfold clear.
  destruct (head (job_lock job d)) as [j|]; [|done].
  case_decide as Hc; [done|].
  destruct (clear_stmts sha256 now org job l k cls img d) as [[c d']|e] eqn:E; [|by split].
  split; [done|]. split; [intros r Hr; by eapply clear_row|by eapply clear_jobs].
Qed.

(** One task of the sample run is launched, one waits; the clear commits. *)
Lemma clear_correct_witness :
  ∃ c d', clear SampleLedger.sha 0 "acme" "j" ["init"; "load"] 3 None None SampleLedger.launched
            = (Ok c, d')
    ∧ ∀ r, r ∈ task_instances SampleLedger.launched →
        clear_spec "acme" "j" ["init"; "load"] 3 d' r.
Proof.
  pose proof (clear_correct SampleLedger.sha SampleLedger.hash 0 "acme" "j" ["init"; "load"] 3
    None None SampleLedger.launched (SampleLedger.launched_reachable FromRun)) as H.
  destruct (head (job_lock "j" SampleLedger.launched)) as [j|] eqn:Ej;
    [|clear H; vm_compute in Ej; discriminate Ej].
  destruct (clear _ _ _ _ _ _ _ _ _) as [[c|e] d'] eqn:Ec; clear Ej.
  - exists c, d'. exact (conj eq_refl (proj1 (proj2 H))).
  - clear H. apply (f_equal (λ p, match p.1 with Ok _ => true | Err _ => false end)) in Ec.
    vm_compute in Ec. discriminate Ec.
Defined.
