(* ===== verification/Scheduler.v ===== *)
(** * The readiness pass on the ledger

    [readiness_for] of [er-server/src/executor.rs]: one transaction that reads
    the live rows of a job, decides them with [pass], records each verdict and
    settles the job with [settle].  [None] is a panic (an index out of range);
    a transaction that is dropped changes nothing. *)

From S2P Require Import Prelude Json Ids DagPolicy Dag Readiness Errors Registry Sql Ledger TaskPg.
From S2P Require Import LedgerInv LedgerRuns LedgerMoves LedgerOps.

#[local] Open Scope Z_scope.

(** ** Definitions *)

Definition live_rows (rows : list TaskInstance) : gmap string TaskInstance :=
  map_collect ((λ r, (ti_task_id r, r)) <$> filter (λ r, ti_live r = Some true) rows).

(** [live.get(n.task_id)..unwrap_or(TaskState::None)]. *)
Definition node_state (live : gmap string TaskInstance) (n : Node) : TaskState :=
  match live !! task_id n with Some r => ti_state r | None => SNone end.

Definition leaf_states (dag : Dag) (live : gmap string TaskInstance) : gmap string json :=
  map_collect (omap (λ n, if teardown n then None
    else (λ r, (task_id n, JString (state_as_str (ti_state r)))) <$> live !! task_id n)
    (nodes dag)).

Definition compose_input (dag : Dag) (idx : nat) (live : gmap string TaskInstance) (job : Job) :
    option json :=
  node ← nodes dag !! idx;
  pins ← mapM (λ u, n ← nodes dag !! u;
    Some (default JNull (live !! task_id n ≫= ti_output))) (upstream node);
  Some (JObject ((if teardown node then [("leaves", JObject (map_sorted (leaf_states dag live)))]
                  else []) ++ [("params", job_params job); ("pins", JArray pins)])).

(** The class and the detail of the first failed row. *)
Fixpoint failure_text (dag : Dag) (live : gmap string TaskInstance) (l : list (nat * TaskState)) :
    option (option string * option string) :=
  match l with
  | [] => Some (None, None)
  | (idx, s) :: l =>
      if decide (class s = FailureLike) then
        n ← nodes dag !! idx;
        match live !! task_id n with
        | Some row =>
            Some (coalesce (ti_error_class row) (Some "internal"),
                  coalesce (ti_error_detail row)
                    (Some ("task '" +:+ ti_task_id row +:+ "' " +:+ state_as_str (ti_state row))))
        | None => failure_text dag live l
        end
      else failure_text dag live l
  end.

Section scheduler.
Context (now : Z).

(** The loop over the pass's actions; [None] in the result is the early
    return on a verdict that hit no row. *)
Fixpoint record_actions (dag : Dag) (live : gmap string TaskInstance) (job : Job)
    (clear_number : Z) (actions : list (nat * PassAction)) (effective : list TaskState) (d : Db) :
    option (result (option (list TaskState) * Db) DbError) :=
  match actions with
  | [] => Some (Ok (Some effective, d))
  | (idx, action) :: actions =>
      node ← nodes dag !! idx;
      match live !! task_id node with
      | None => record_actions dag live job clear_number actions effective d
      | Some row =>
          update ← match action with
                   | Schedule =>
                       input ← compose_input dag idx live job;
                       Some (mark_scheduled now input (ti_id row) clear_number)
                   | Propagate s => Some (propagate now s (ti_id row) clear_number)
                   end;
          match update d with
          | Err e => Some (Err e)
          | Ok ([], _) => Some (Ok (None, d))
          | Ok (_ :: _, d) =>
              record_actions dag live job clear_number actions
                (<[idx := action_state action]> effective) d
          end
      end
  end.

Definition outcome_str (outcome : TaskState) : string :=
  match outcome with Failed => "failed" | Canceled => "canceled" | _ => "succeeded" end.

(** The last step of the pass. *)
Definition settle_stmt (dag : Dag) (live : gmap string TaskInstance) (job : Job)
    (effective : list TaskState) : option (stmt Db (list Job)) :=
  v ← settle dag effective;
  match v with
  | NotYet => Some (mret [])
  | Settled outcome =>
      '(class, detail) ← failure_text dag live (enumerate effective);
      Some (job_settle now (outcome_str outcome) class detail (job_id job))
  | Deadlock idx =>
      n ← nodes dag !! idx;
      Some (job_settle now "failed" (Some "internal")
        (Some ("task '" +:+ task_id n +:+ "' is pending with every upstream terminal — a scheduler bug (Airflow's deadlock branch)"))
        (job_id job))
  end.

(** The states the pass reads. *)
Definition job_states (dag : Dag) (job : Job) (d : Db) : list TaskState :=
  node_state (live_rows (by_job (job_org_id job) (job_id job) d)) <$> nodes dag.

(** Whether it worked, with the job it settled. *)
Definition readiness_for (sha256 : string → list Z) (job : Job) (d : Db) :
    option (result (bool * option Job) DbError * Db) :=
  match job_kind_parse (job_kind job) with
  | None => Some (Ok (false, None), d)
  | Some kind =>
      dag ← dag_for sha256 kind;
      match head (job_lock (job_id job) d) with
      | None => Some (Ok (false, None), d)
      | Some locked =>
          let clear_number := default 0 (job_clear_number locked) in
          let live := live_rows (by_job (job_org_id job) (job_id job) d) in
          let states := node_state live <$> nodes dag in
          actions ← pass dag states;
          recorded ← record_actions dag live job clear_number actions states d;
          match recorded with
          | Err e => Some (Err e, d)
          | Ok (None, _) => Some (Ok (false, None), d)
          | Ok (Some effective, d1) =>
              update ← settle_stmt dag live job effective;
              match update d1 with
              | Err e => Some (Err e, d)
              | Ok (js, d2) =>
                  Some (Ok (negb (bool_decide (actions = [])) || bool_decide (is_Some (head js)),
                            head js), d2)
              end
          end
      end
  end.
End scheduler.

(** ** The rows a pass reads *)

(** The live row of each task, whatever the order of the query. *)
Lemma live_rows_spec org job d t r :
  rows_unique (task_instances d) = true →
  live_rows (by_job org job d) !! t = Some r ↔
    r ∈ task_instances d ∧ ti_org_id r = org ∧ ti_job_id r = job ∧ ti_live r = Some true
    ∧ ti_task_id r = t.
Proof.
  intros Hu. assert (∀ x, x ∈ by_job org job d ↔
    x ∈ task_instances d ∧ ti_org_id x = org ∧ ti_job_id x = job) as Hby.
  { intros x. unfold by_job. rewrite merge_sort_Permutation, list_elem_of_filter. tauto. }
  unfold live_rows. rewrite map_collect_lookup.
  - rewrite list_elem_of_fmap. setoid_rewrite list_elem_of_filter. setoid_rewrite Hby.
    naive_solver.
  - rewrite <-list_fmap_compose. apply NoDup_fmap_2_strong.
    + intros x y [Hlx Hx]%list_elem_of_filter [Hly Hy]%list_elem_of_filter Hxy.
      apply Hby in Hx as (Hx & _ & Hjx), Hy as (Hy & _ & Hjy).
      apply (unique_live _ Hu); [done..|]. split; [congruence|done].
    + apply NoDup_filter. unfold by_job. rewrite merge_sort_Permutation.
      apply NoDup_filter, (NoDup_fmap_1 ti_id).
      unfold rows_unique in Hu. rewrite !andb_true_iff in Hu. destruct Hu as [[[[Hu _] _] _] _].
      apply bool_decide_eq_true in Hu. by rewrite filter_is_true in Hu.
Qed.

(** The guard of a verdict holds of the job that was locked. *)
Lemma clear_number_locked d r job locked :
  head (job_lock (job_id job) d) = Some locked → ti_job_id r = job_id job →
  clear_number_is d r (default 0 (job_clear_number locked)) = true.
Proof.
  intros Hl Hr. unfold clear_number_is. assert (job_of d (ti_job_id r) = Some locked) as ->.
  { rewrite Hr. unfold job_lock in Hl. unfold job_of. revert Hl.
    induction (jobs d) as [|j l IH]; simpl; [done|]. rewrite filter_cons.
    destruct (decide (job_id j = job_id job)) as [E|E].
    - intros [= ->]. by rewrite bool_decide_eq_true_2.
    - rewrite bool_decide_eq_false_2 by done. exact IH. }
  by apply bool_decide_eq_true.
Qed.

(** A verdict on a waiting row. *)
Record verdict_written (s : TaskState) (r r' : TaskInstance) : Prop := {
  vw_id : ti_id r' = ti_id r;
  vw_key : attempt_key r' = attempt_key r;
  vw_live : ti_live r' = ti_live r;
  vw_org : ti_org_id r' = ti_org_id r;
  vw_state : ti_state r' = s;
}.

Definition sound_table (d : Db) : Prop :=
  rows_ok (jobs d) (task_instances d) = true ∧ rows_unique (task_instances d) = true.

Lemma verdict_commits where_ set d r s :
  sound_table d → r ∈ task_instances d → ti_live r = Some true → where_ d r = true →
  (∀ x, where_ d x = true → ti_id x = ti_id r) → verdict_written s r (set r) →
  row_ok (set r) = row_ok r → s ∉ [Queued; Running; Restarting; Canceling] →
  let d' := d <| task_instances := write_row (set r) (task_instances d) |> in
  update_tis where_ set d = Ok ([set r], d') ∧ sound_table d'.
Proof.
  intros [Hok Hu] Hr Hl Hw Hid [Hi Hk Hlive _ Hs] Hrow Hns d'.
  rewrite (update_one where_ set d r) by done.
  assert (sound_table d') as [Hok' Hu'].
  { split.
    - apply write_row_ok; [done| |exists r; split; [done|by injection Hk]]. rewrite Hrow.
      apply andb_true_iff in Hok as [Hok _]. rewrite forallb_forall in Hok.
      by apply Hok, list_elem_of_In.
    - apply (write_row_unique _ r); [done..| |].
      + intros _. by apply is_live_true.
      + apply not_true_iff_false. rewrite active_pod_true, Hs. naive_solver. }
  split; [|by split]. by apply install_ok.
Qed.

Section verdicts.
Context (now : Z).

(** The two verdicts of a pass. *)
Context (d : Db) (r : TaskInstance) (n : Z).
Context (Hd : sound_table d) (Hr : r ∈ task_instances d) (Hl : ti_live r = Some true).
Context (Hs : ti_state r = SNone) (Hn : clear_number_is d r n = true).

(** The statement of a verdict, its premises by computation. *)
Ltac verdict st :=
  match goal with |- context [update_tis ?w ?f] =>
    exists (f r); split; [by split|]; split; [done|];
    apply (verdict_commits w f d r st); [done..| | |by split|done|]
  end;
  [ cbv beta; rewrite bool_decide_eq_true_2, (proj2 (is_live_true r) Hl), Hn by done;
    unfold state_in; by rewrite Hs
  | intros x Hx; cbv beta in Hx; by guards |].


Lemma mark_scheduled_commits input :
  ∃ r', verdict_written Scheduled r r' ∧ ti_input r' = Some input
    ∧ let d' := d <| task_instances := write_row r' (task_instances d) |> in
      mark_scheduled now input (ti_id r) n d = Ok ([r'], d') ∧ sound_table d'.
Proof using Hd Hr Hl Hs Hn. unfold mark_scheduled. verdict Scheduled. set_solver. Qed.

Lemma propagate_commits s :
  terminal s →
  ∃ r', verdict_written s r r' ∧ ti_input r' = ti_input r
    ∧ let d' := d <| task_instances := write_row r' (task_instances d) |> in
      propagate now s (ti_id r) n d = Ok ([r'], d') ∧ sound_table d'.
Proof using Hd Hr Hl Hs Hn.
  intros Ht. unfold propagate. verdict s. destruct s; try (by destruct Ht); set_solver.
Qed.
End verdicts.

(** ** The loop *)

Section pass.
Context (now : Z) (job locked : Job) (dag : Dag) (d0 : Db).
Context (Hd0 : sound_table d0) (Hlock : head (job_lock (job_id job) d0) = Some locked).
Context (Htop : topological (nodes dag)) (Hnames : NoDup (task_id <$> nodes dag)).
Let live := live_rows (by_job (job_org_id job) (job_id job) d0).
Let number := default 0 (job_clear_number locked).
Context (Hlive : ∀ n, n ∈ nodes dag → is_Some (live !! task_id n)).

(** A live row of the job that waits. *)
Definition waiting (x : TaskInstance) : Prop :=
  ti_state x = SNone ∧ ti_live x = Some true ∧ ti_job_id x = job_id job.

(** The table in the middle of the pass: every row in its place, as [g] wrote
    it. *)
Record pass_inv (g : TaskInstance → TaskInstance) (d : Db) : Prop := {
  pi_rows : task_instances d = g <$> task_instances d0;
  pi_jobs : jobs d = jobs d0;
  pi_sound : sound_table d;
  pi_row x : x ∈ task_instances d0 → verdict_written (ti_state (g x)) x (g x);
  pi_waiting x : x ∈ task_instances d0 → g x = x ∨ waiting x;
}.

Lemma live_row t r :
  live !! t = Some r → r ∈ task_instances d0 ∧ ti_org_id r = job_org_id job
    ∧ ti_job_id r = job_id job ∧ ti_live r = Some true ∧ ti_task_id r = t.
Proof using Hd0. intros H. by apply live_rows_spec in H; [|apply Hd0]. Qed.

Lemma compose_input_total i n :
  nodes dag !! i = Some n → is_Some (compose_input dag i live job).
Proof using Htop.
  intros Hn. unfold compose_input. rewrite Hn. simpl.
  match goal with |- is_Some (mapM ?f ?l ≫= _) => assert (is_Some (mapM f l)) as [pins ->] end.
  { apply mapM_is_Some, Forall_forall. intros u Hu.
    assert (u < i)%nat as H by (apply Htop; by exists n).
    destruct (lookup_lt_is_Some_2 (nodes dag) u) as [m Hm].
    { apply lookup_lt_Some in Hn. clear -H Hn. lia. }
    simpl. rewrite Hm. by eexists. }
  by eexists.
Qed.

(** One verdict. *)
Lemma record_one g d i n r a acts eff :
  pass_inv g d → nodes dag !! i = Some n → live !! task_id n = Some r → g r = r →
  ti_state r = SNone → terminal (action_state a) ∨ a = Schedule →
  ∃ g1 d1, pass_inv g1 d1
    ∧ record_actions now dag live job number ((i, a) :: acts) eff d
      = record_actions now dag live job number acts (<[i := action_state a]> eff) d1
    ∧ (∀ x, x ∈ task_instances d0 → x ≠ r → g1 x = g x) ∧ ti_state (g1 r) = action_state a
    ∧ (a = Schedule → ti_input (g1 r) = compose_input dag i live job).
Proof using Hd0 Hlock Htop.
  intros Hg Hn Hr Hgr Hs Ha. pose proof (live_row _ _ Hr) as (Hin & Ho & Hj & Hl & _).
  assert (r ∈ task_instances d) as Hin'.
  { rewrite (pi_rows _ _ Hg), <-Hgr. by apply list_elem_of_fmap_2. }
  assert (clear_number_is d r number = true) as Hc.
  { apply (clear_number_locked _ _ job); [|done]. unfold job_lock. by rewrite (pi_jobs _ _ Hg). }
  destruct (compose_input_total i n Hn) as [input Hinput].
  assert (∃ r', verdict_written (action_state a) r r'
    ∧ (a = Schedule → ti_input r' = Some input)
    ∧ let d' := d <| task_instances := write_row r' (task_instances d) |> in
      sound_table d' ∧ record_actions now dag live job number ((i, a) :: acts) eff d
        = record_actions now dag live job number acts (<[i := action_state a]> eff) d')
    as (r' & Hw & Hi & Hsound & Hrec).
  { simpl. rewrite Hn. simpl. rewrite Hr. destruct a as [|s].
    - destruct (mark_scheduled_commits now d r number (pi_sound _ _ Hg) Hin' Hl Hs Hc input)
        as (r' & ? & ? & He & ?). exists r'. rewrite Hinput. simpl. by rewrite He.
    - destruct Ha as [Ha|[=]].
      destruct (propagate_commits now d r number (pi_sound _ _ Hg) Hin' Hl Hs Hc s Ha)
        as (r' & ? & ? & He & ?). exists r'. simpl. by rewrite He. }
  assert (∀ x, x ∈ task_instances d0 → ti_id x = ti_id r → x = r) as Huniq.
  { intros x Hx Hid. by apply (unique_id _ (proj2 Hd0)). }
  exists (λ x, if bool_decide (ti_id x = ti_id r) then r' else g x),
    (d <| task_instances := write_row r' (task_instances d) |>).
  split; [split|split; [exact Hrec|split_and!]].
  - simpl. rewrite (pi_rows _ _ Hg). unfold write_row. rewrite <-list_fmap_compose.
    apply list_fmap_ext. intros k x Hx%list_elem_of_lookup_2. simpl.
    by rewrite (vw_id _ _ _ Hw), (vw_id _ _ _ (pi_row _ _ Hg x Hx)).
  - apply (pi_jobs _ _ Hg).
  - exact Hsound.
  - intros x Hx. case_bool_decide as Hid; [|by apply Hg].
    apply Huniq in Hid as ->; [|done]. by rewrite (vw_state _ _ _ Hw).
  - intros x Hx. case_bool_decide as Hid; [|by apply Hg].
    apply Huniq in Hid as ->; [|done]. by right.
  - intros x Hx Hne. rewrite bool_decide_eq_false_2; [done|]. auto.
  - rewrite bool_decide_eq_true_2 by done. apply Hw.
  - intros Hsch. rewrite bool_decide_eq_true_2, Hinput by done. auto.
Qed.

(** Nodes have rows of their own. *)
Lemma live_inj i j n m r :
  nodes dag !! i = Some n → nodes dag !! j = Some m → live !! task_id n = Some r →
  live !! task_id m = Some r → i = j.
Proof using Hd0 Hnames.
  intros Hi Hj (_ & _ & _ & _ & Hn)%live_row (_ & _ & _ & _ & Hm)%live_row.
  eapply NoDup_lookup; [exact Hnames|rewrite list_lookup_fmap, Hi; done|].
  rewrite list_lookup_fmap, Hj. simpl. congruence.
Qed.

Lemma record_actions_spec acts g d eff :
  pass_inv g d → NoDup acts.*1 →
  (∀ i a, (i, a) ∈ acts → ∃ n r, nodes dag !! i = Some n ∧ live !! task_id n = Some r
     ∧ g r = r ∧ ti_state r = SNone ∧ (terminal (action_state a) ∨ a = Schedule)) →
  (∀ i n r, nodes dag !! i = Some n → live !! task_id n = Some r →
     eff !! i = Some (ti_state (g r))) →
  ∃ g' d', record_actions now dag live job number acts eff d
             = Some (Ok (Some (apply_pass eff acts), d'))
    ∧ pass_inv g' d'
    ∧ (∀ i n r, nodes dag !! i = Some n → live !! task_id n = Some r →
         apply_pass eff acts !! i = Some (ti_state (g' r)) ∧ (i ∉ acts.*1 → g' r = g r)
         ∧ ((i, Schedule) ∈ acts → ti_input (g' r) = compose_input dag i live job)).
Proof using Hd0 Hlock Htop Hnames Hlive.
  revert g d eff. induction acts as [|[i a] acts IH]; intros g d eff Hg Hnd Hacts Heff.
  { exists g, d. split; [done|]. split; [done|]. intros i n r Hi Hr. split; [by eapply Heff|].
    split; [done|]. set_solver. }
  destruct (Hacts i a) as (n & r & Hn & Hr & Hgr & Hs & Ha); [set_solver|].
  simpl in Hnd. apply NoDup_cons in Hnd as [Hi Hnd].
  destruct (record_one g d i n r a acts eff) as (g1 & d1 & Hg1 & -> & Hother & Hst & Hin); [done..|].
  assert (∀ j m x, nodes dag !! j = Some m → live !! task_id m = Some x → j ≠ i → g1 x = g x)
    as Hsame.
  { intros j m x Hm Hx Hji. apply Hother; [by eapply live_row|]. intros ->.
    apply Hji. by eapply live_inj. }
  destruct (IH g1 d1 (<[i:=action_state a]> eff)) as (g' & d' & Hrec & Hg' & Hall); [done|done|..].
  { intros j b Hb. destruct (Hacts j b) as (m & x & Hm & Hx & Hgx & ? & ?); [set_solver|].
    exists m, x. split_and!; try done. rewrite (Hsame j m x Hm Hx); [done|].
    intros ->. apply Hi. apply list_elem_of_fmap. by exists (i, b). }
  { intros j m x Hm Hx. destruct (decide (j = i)) as [->|Hji].
    - rewrite Hn in Hm. injection Hm as <-. rewrite Hr in Hx. injection Hx as <-.
      rewrite Hst. apply list_lookup_insert_eq. by eapply lookup_lt_Some, Heff.
    - rewrite list_lookup_insert_ne by done. rewrite (Hsame j m x) by done. by eapply Heff. }
  exists g', d'. split; [exact Hrec|]. split; [done|]. intros j m x Hm Hx.
  destruct (Hall j m x Hm Hx) as (H1 & H2 & H3). split; [exact H1|]. simpl. split.
  - intros [Hji Hj]%not_elem_of_cons. rewrite H2 by done. by eapply Hsame.
  - intros [[= -> <-]|Hj]%elem_of_cons; [|by apply H3].
    rewrite H2 by done. rewrite Hn in Hm. injection Hm as <-. rewrite Hr in Hx. injection Hx as <-.
    auto.
Qed.

(** The live rows after the loop are the ones it wrote. *)
Lemma live_after g d t r :
  pass_inv g d → live !! t = Some r →
  live_rows (by_job (job_org_id job) (job_id job) d) !! t = Some (g r).
Proof using Hd0.
  intros Hg Hr. apply live_row in Hr as (Hin & Ho & Hj & Hl & Ht).
  destruct (pi_row _ _ Hg r Hin) as [_ Hk Hlive' Ho' _]. injection Hk as Hj' Ht' _.
  apply live_rows_spec; [apply (pi_sound _ _ Hg)|].
  rewrite (pi_rows _ _ Hg). split_and!; [by apply list_elem_of_fmap_2|congruence..].
Qed.

Lemma states_after g d eff :
  pass_inv g d → length eff = length (nodes dag) →
  (∀ i n r, nodes dag !! i = Some n → live !! task_id n = Some r →
     eff !! i = Some (ti_state (g r))) →
  job_states dag job d = eff.
Proof using Hd0 Hlive.
  intros Hg Hlen Heff. apply list_eq. intros i. unfold job_states. rewrite list_lookup_fmap.
  destruct (nodes dag !! i) as [n|] eqn:Hn; simpl.
  - destruct (Hlive n) as [r Hr]; [by eapply list_elem_of_lookup_2|].
    rewrite (Heff i n r) by done. f_equal. unfold node_state. by rewrite (live_after g d _ r).
  - symmetry. apply lookup_ge_None. rewrite Hlen. by apply lookup_ge_None.
Qed.

(** The whole loop, on what [pass] returned. *)
Lemma record_pass acts :
  pass dag (job_states dag job d0) = Some acts →
  ∃ g d, record_actions now dag live job number acts (job_states dag job d0) d0
           = Some (Ok (Some (apply_pass (job_states dag job d0) acts), d))
    ∧ pass_inv g d
    ∧ job_states dag job d = apply_pass (job_states dag job d0) acts
    ∧ (∀ i n r, (i, Schedule) ∈ acts → nodes dag !! i = Some n → live !! task_id n = Some r →
         ti_input (g r) = compose_input dag i live job).
Proof using Hd0 Hlock Htop Hnames Hlive.
  intros Hp. set (states := job_states dag job d0) in *.
  assert (length states = length (nodes dag)) as Hlen by apply length_fmap.
  assert (∀ i n r, nodes dag !! i = Some n → live !! task_id n = Some r →
    states !! i = Some (ti_state r)) as Hst.
  { intros i n r Hn Hr. unfold states, job_states. rewrite list_lookup_fmap, Hn. simpl. f_equal.
    unfold node_state. fold live. by rewrite Hr. }
  destruct (pass_spec (nodes dag) Htop dag states eq_refl Hlen) as (eff & acts' & Hp' & Hpr).
  rewrite Hp in Hp'. injection Hp' as <-.
  destruct (record_actions_spec acts id d0 states) as (g & d & Hrec & Hg & Hall).
  - split; [by rewrite list_fmap_id|done|done|intros x _; by split|by left].
  - apply sorted_NoDup, Hpr.
  - intros i a Hia. apply (pr_acts _ _ _ _ Hpr) in Hia. unfold row_action in Hia.
    apply bind_Some in Hia as (n & Hn & Hia). apply bind_Some in Hia as (s & Hs & Hia).
    apply bind_Some in Hia as (up & _ & Hia).
    destruct (Hlive n) as [r Hr]; [by eapply list_elem_of_lookup_2|].
    rewrite (Hst i n r) in Hs by done. injection Hs as <-. exists n, r.
    unfold decide_row in Hia. case_decide as Hnone; [done|].
    split_and!; try done. destruct (evaluate _ up) eqn:E; simpl in Hia; simplify_eq; [by right|].
    left. by eapply evaluate_propagate_terminal.
  - exact Hst.
  - exists g, d. split; [exact Hrec|]. split; [done|]. split.
    + apply (states_after g); [done|by rewrite apply_pass_length|].
      intros i n r Hn Hr. by apply (Hall i n r).
    + intros i n r Hia Hn Hr. by apply (Hall i n r).
Qed.
End pass.

(** ** Settling *)

Lemma failure_text_total dag live states :
  length states = length (nodes dag) → is_Some (failure_text dag live (enumerate states)).
Proof.
  intros Hlen. assert (∀ l, (∀ i s, (i, s) ∈ l → (i < length (nodes dag))%nat) →
    is_Some (failure_text dag live l)) as H.
  { induction l as [|[i s] l IH]; intros Hl; simpl; [by eexists|].
    assert (is_Some (failure_text dag live l)) as IHl.
    { apply IH. intros j t Hj. apply (Hl j t). set_solver. }
    case_decide; [|done].
    destruct (lookup_lt_is_Some_2 (nodes dag) i) as [n ->]; [apply (Hl i s); set_solver|].
    simpl. destruct (live !! task_id n); [by eexists|done]. }
  apply H. intros i s His%elem_of_enumerate%lookup_lt_Some. by rewrite <-Hlen.
Qed.

(** Closing a job takes it out of the indexes of the active ones. *)
Lemma job_settle_commits now state class detail id d j :
  jobs_ok (jobs d) = true → j ∈ jobs d → job_id j = id →
  job_state j ∈ ["running"; "canceling"] → state ∈ finished_states →
  ∃ j' js d', job_settle now state class detail id d = Ok (j' :: js, d')
    ∧ j' ∈ jobs d' ∧ job_id j' = id ∧ job_state j' = state ∧ job_finished_at j' = Some now
    ∧ task_instances d' = task_instances d.
Proof.
  intros Hok Hj Hid Hs Hst. unfold job_settle, update_jobs.
  match goal with |- context [update_rows ?w ?f _] => set (where_ := w); set (set_ := f) end.
  assert (where_ j = true) as Hw.
  { apply andb_true_iff. by rewrite !bool_decide_eq_true. }
  destruct (update_rows where_ set_ (jobs d)) as [l ret] eqn:E.
  assert (jobs_ok l = true) as Hok'.
  { replace l with (update_rows where_ set_ (jobs d)).1 by by rewrite E.
    unfold jobs_ok in Hok |- *. rewrite !andb_true_iff in Hok |- *. destruct Hok as [[[H1 H2] H3] H4].
    assert (∀ x, active_job (if where_ x then set_ x else x) = true → where_ x = false) as Ha.
    { intros x. destruct (where_ x); [|done]. unfold active_job. rewrite bool_decide_eq_true.
      unfold set_. simpl. intros Hx. unfold finished_states in Hst. set_unfold in Hst.
      set_unfold in Hx. naive_solver. }
    split_and!; apply unique_fmap; try done; intros x _ Hx.
    - by destruct (where_ x).
    - by destruct (where_ x).
    - apply andb_true_iff in Hx as [Hx Hx']. pose proof (Ha x Hx) as Ew.
      rewrite Ew in Hx, Hx' |- *. by rewrite Hx, Hx'.
    - apply andb_true_iff in Hx as [Hx Hx']. pose proof (Ha x Hx) as Ew.
      rewrite Ew in Hx, Hx' |- *. by rewrite Hx, Hx'. }
  assert (set_ j ∈ ret) as Hret.
  { replace ret with (update_rows where_ set_ (jobs d)).2 by by rewrite E.
    apply elem_of_returned. by exists j. }
  destruct ret as [|j' js]; [by apply not_elem_of_nil in Hret|].
  assert (j' ∈ (update_rows where_ set_ (jobs d)).2) as Hj' by (rewrite E; apply list_elem_of_here).
  apply elem_of_returned in Hj' as (j0 & Hj0 & Hw0 & ->).
  exists (set_ j0), js. eexists. rewrite install_ok. split; [by split_and!|]. split_and!; try done.
  - simpl. replace l with (update_rows where_ set_ (jobs d)).1 by by rewrite E.
    apply elem_of_update_rows. exists j0. by rewrite Hw0.
  - simpl. unfold where_ in Hw0. apply andb_true_iff in Hw0 as [Hw0 _].
    by apply bool_decide_eq_true in Hw0.
Qed.

(** What the last step did to the job. *)
Definition job_settled (now : Z) (job : Job) (v : SettleVerdict) (settled : option Job) (d d' : Db) :
    Prop :=
  match v with
  | Settled o => ∃ j, settled = Some j ∧ j ∈ jobs d' ∧ job_id j = job_id job
                   ∧ job_state j = outcome_str o ∧ job_finished_at j = Some now
  | NotYet => settled = None ∧ jobs d' = jobs d
  | Deadlock _ => False
  end.

Lemma settle_stmt_commits now dag live job eff v d :
  length eff = length (nodes dag) → settle dag eff = Some v → (∀ i, v ≠ Deadlock i) →
  jobs_ok (jobs d) = true → job ∈ jobs d → job_state job ∈ ["running"; "canceling"] →
  ∃ m js d', settle_stmt now dag live job eff = Some m ∧ m d = Ok (js, d')
    ∧ job_settled now job v (head js) d d' ∧ task_instances d' = task_instances d.
Proof.
  intros Hlen Hv Hnd Hok Hj Hs. unfold settle_stmt. rewrite Hv. simpl.
  destruct v as [|o|i]; [by exists (mret []), [], d| |by destruct (Hnd i)].
  destruct (failure_text_total dag live eff Hlen) as [[class detail] ->]. simpl.
  destruct (job_settle_commits now (outcome_str o) class detail (job_id job) d job)
    as (j & js & d' & He & Hjd & ? & ? & ? & Hrows); [done..| |].
  { destruct o; vm_compute; set_solver. }
  eexists _, (j :: js), d'. split; [done|]. split; [exact He|]. split; [|done]. by exists j.
Qed.

(** The job that was locked is the one the caller has. *)
Lemma job_locked d job :
  jobs_ok (jobs d) = true → job ∈ jobs d → head (job_lock (job_id job) d) = Some job.
Proof.
  intros Hok Hj. unfold jobs_ok in Hok. rewrite !andb_true_iff in Hok.
  destruct Hok as [[[Hu _] _] _]. unfold job_lock.
  destruct (filter (λ j, job_id j = job_id job) (jobs d)) as [|j l] eqn:E.
  - exfalso. apply (not_elem_of_nil job). rewrite <-E. by apply list_elem_of_filter.
  - simpl. f_equal. assert (j ∈ filter (λ j, job_id j = job_id job) (jobs d)) as Hin
      by (rewrite E; apply list_elem_of_here).
    apply list_elem_of_filter in Hin as [? ?]. by eapply (unique_spec (λ _, true) job_id).
Qed.

(** Every task of the graph has a live row in the ledger. *)
Definition planned_rows_live (dag : Dag) (job : Job) (d : Db) : Prop :=
  ∀ n, n ∈ nodes dag → ∃ r, r ∈ task_instances d ∧ ti_job_id r = job_id job
    ∧ ti_live r = Some true ∧ ti_task_id r = task_id n.

(** C1: the readiness transaction implements the readiness check.  For a
    running or canceling job all of whose tasks have a live row, in any ledger
    a run can come to, it commits without an error or a panic; the states of
    the job's live rows become those [pass] decides, the rows it schedules
    carry their composed input, and no other row of the table changes.  The
    job is settled exactly when [settle] says so of the new states, with the
    outcome it says, and never as a deadlock. *)
Theorem readiness_for_correct sha256 hashtext now kind job d :
  reachable sha256 hashtext d → job ∈ jobs d → job_kind_parse (job_kind job) = Some kind →
  job_state job ∈ ["running"; "canceling"] →
  (∀ dag, dag_for sha256 kind = Some dag → planned_rows_live dag job d) →
  ∃ dag acts v worked settled d',
    dag_for sha256 kind = Some dag
    ∧ pass dag (job_states dag job d) = Some acts
    ∧ readiness_for now sha256 job d = Some (Ok (worked, settled), d')
    ∧ job_states dag job d' = apply_pass (job_states dag job d) acts
    ∧ Forall2 (λ x y, y = x ∨ waiting job x ∧ verdict_written (ti_state y) x y)
        (task_instances d) (task_instances d')
    ∧ (∀ i n, (i, Schedule) ∈ acts → nodes dag !! i = Some n →
         ∃ r, live_rows (by_job (job_org_id job) (job_id job) d') !! task_id n = Some r
           ∧ ti_input r = compose_input dag i
               (live_rows (by_job (job_org_id job) (job_id job) d)) job)
    ∧ settle dag (job_states dag job d') = Some v ∧ job_settled now job v settled d d'.
Proof.
  intros Hd%reachable_inv Hjob Hkind Hstate Hplanned.
  destruct (dag_for_spec sha256 kind) as (dag & Hdag & _). specialize (Hplanned dag Hdag).
  destruct (dag_for_topological sha256 kind dag Hdag) as [Htop Hnames].
  pose proof (job_locked d job (li_jobs _ _ Hd) Hjob) as Hlock.
  assert (sound_table d) as Hsound by (split; [apply (li_ok _ _ Hd)|apply (li_unique _ _ Hd)]).
  set (live := live_rows (by_job (job_org_id job) (job_id job) d)).
  assert (∀ n, n ∈ nodes dag → is_Some (live !! task_id n)) as Hlive.
  { intros n Hn. destruct (Hplanned n Hn) as (r & Hr & Hj & Hl & Ht). exists r.
    apply live_rows_spec; [apply Hsound|]. split_and!; try done.
    by apply (li_org _ _ Hd). }
  assert (length (job_states dag job d) = length (nodes dag)) as Hlen by apply length_fmap.
  destruct (pass_spec (nodes dag) Htop dag _ eq_refl Hlen) as (_ & acts & Hp & _).
  destruct (record_pass now job job dag d Hsound Hlock Htop Hnames Hlive acts Hp)
    as (g & d1 & Hrec & Hg & Hst & Hin).
  destruct (pass_no_deadlock dag _ acts Htop Hp) as [Hnd _]. rewrite <-Hst in Hnd.
  assert (length (job_states dag job d1) = length (nodes dag)) as Hlen1 by apply length_fmap.
  destruct (settle_spec dag (job_states dag job d1) Htop Hlen1) as (v & Hv & _).
  destruct (settle_stmt_commits now dag live job (job_states dag job d1) v d1)
    as (m & js & d2 & Hm & He & Hset & Hrows); [done|done|intros i ->; by apply (Hnd i)| | |done|].
  { rewrite (pi_jobs _ _ _ _ Hg). apply (li_jobs _ _ Hd). }
  { by rewrite (pi_jobs _ _ _ _ Hg). }
  assert (∀ dag, job_states dag job d2 = job_states dag job d1) as Hst2
    by (intros dag'; unfold job_states, by_job; by rewrite Hrows).
  do 3 eexists. eexists _, (head js), d2. split_and!; try done.
  - unfold readiness_for. rewrite Hkind, Hdag. simpl. rewrite Hlock.
    fold live. change (node_state live <$> nodes dag) with (job_states dag job d).
    rewrite Hp. simpl. fold live in Hrec. rewrite Hrec. simpl. rewrite <-Hst, Hm. simpl.
    by rewrite He.
  - by rewrite Hst2.
  - rewrite Hrows, (pi_rows _ _ _ _ Hg). apply Forall2_fmap_r, Forall_Forall2_diag, Forall_forall.
    intros x Hx. destruct (pi_waiting _ _ _ _ Hg x Hx) as [?|?]; [by left|].
    right. split; [done|]. by apply (pi_row _ _ _ _ Hg).
  - intros i n Hi Hn. destruct (Hlive n) as [r Hr]; [by eapply list_elem_of_lookup_2|].
    exists (g r). split; [|by eapply Hin].
    unfold by_job. rewrite Hrows. by apply (live_after job d Hsound g d1).
  - by rewrite Hst2.
  - destruct v; simpl in *; [destruct Hset as [? ->]; split; [done|]; apply (pi_jobs _ _ _ _ Hg)|done..].
Qed.

(** ** A sample *)

Module SampleJob.
Import SampleLedger.

Definition claimed (kind : string) : Db :=
  commit (job_claim 0 4 ∅)
    (commit (enqueue 0 "j" "acme" None kind 0 None None None None) (mkDb [] [] (λ _, None))).

Definition dag (kind : string) : option Dag := job_kind_parse kind ≫= dag_for sha.

Definition planned (kind : string) : Db :=
  match head (jobs (claimed kind)), dag kind with
  | Some job, Some dag =>
      default (claimed kind) (snd <$> plan sha 0 job dag "epoch" None (claimed kind))
  | _, _ => claimed kind
  end.

Lemma job_planned_reachable kind : reachable sha hash (planned kind).
Proof.
  assert (reachable sha hash (claimed kind)) as Hc.
  { unfold claimed. apply (commit_reachable 0); [|apply TJobClaim].
    apply (commit_reachable 0); [|apply TEnqueue]. apply reachable_init. }
  unfold planned. destruct (head (jobs (claimed kind))) as [job|] eqn:Ej; [|exact Hc].
  destruct (dag kind) as [dag'|] eqn:Ed; [|exact Hc].
  destruct (plan sha 0 job dag' "epoch" None (claimed kind)) as [[res d']|] eqn:E; [|exact Hc].
  eapply reachable_step; [exact Hc|]. eapply step_plan; [|exact E].
  exists job. split; [|done]. destruct (jobs (claimed kind)) as [|? ?]; [done|].
  injection Ej as ->. apply list_elem_of_here.
Qed.
End SampleJob.

Lemma readiness_for_correct_witness :
  ∃ job worked settled d', job ∈ jobs (SampleJob.planned "train") ∧
    readiness_for 0 SampleLedger.sha job (SampleJob.planned "train") = Some (Ok (worked, settled), d').
Proof.
  assert (existsb (λ j, bool_decide (job_kind j = "train") && bool_decide (job_state j = "running")
    && match SampleJob.dag "train" with
       | Some dag => forallb (λ n, existsb (λ r, bool_decide (ti_job_id r = job_id j)
           && bool_decide (ti_live r = Some true) && bool_decide (ti_task_id r = task_id n))
           (task_instances (SampleJob.planned "train"))) (nodes dag)
       | None => false
       end) (jobs (SampleJob.planned "train")) = true) as H by (vm_compute; reflexivity).
  apply existsb_exists in H as (job & Hjob%list_elem_of_In & H).
  rewrite !andb_true_iff, !bool_decide_eq_true in H. destruct H as [[Hkind Hstate] Hrows].
  assert (∃ kind, job_kind_parse "train" = Some kind) as [kind Hparse] by (eexists; reflexivity).
  destruct (readiness_for_correct SampleLedger.sha SampleLedger.hash 0 kind job (SampleJob.planned "train")
    (SampleJob.job_planned_reachable "train") Hjob) as (_ & _ & _ & worked & settled & d' & _ & _ & He & _).
  - rewrite Hkind. exact Hparse.
  - rewrite Hstate. apply list_elem_of_here.
  - intros dag Hdag n Hn. assert (SampleJob.dag "train" = Some dag) as Hd.
    { unfold SampleJob.dag. rewrite Hparse. exact Hdag. }
    rewrite Hd in Hrows. rewrite forallb_forall in Hrows. apply list_elem_of_In in Hn.
    apply Hrows, existsb_exists in Hn as (r & Hr%list_elem_of_In & Hc).
    rewrite !andb_true_iff, !bool_decide_eq_true in Hc. destruct Hc as [[? ?] ?].
    exists r. auto.
  - exists job, worked, settled, d'. auto.
Defined.
