(* ===== verification/Eval.v ===== *)
(** * Pairwise quality metrics

    [er-eval/src/lib.rs].  A [BTreeSet<Pair>] is a [gset] listed in
    lexicographic order; an [f64] is a [spec_float]; a [u64] sum past its range
    is a panic ([None]). *)

From S2P Require Import Prelude F64 Ids Assertions.

(** ** Definitions *)

Definition Pair : Type := string * string.

Record PairwiseMetrics := mkMetrics {
  tp : Z; fp : Z; fn : Z;
  precision : spec_float; recall : spec_float; f1 : spec_float;
}.

Inductive MetricsError :=
| NonCanonical (name a b : string)
| PredictedOutsideUniverse (count : nat) (example : Pair)
| TruthOutsideUniverse (count : nat) (example : Pair)
| DuplicateMembership (key first second : string).

Definition u64_add (a b : Z) : option Z := if (a + b <? 2 ^ 64)%Z then Some (a + b)%Z else None.

(** [tp / (tp + other)], [1.0] when there is nothing to divide. *)
Definition ratio (tp other : Z) : option spec_float :=
  n ← u64_add tp other;
  Some (if (n =? 0)%Z then f64_of 1 else f64_div (f64_of tp) (f64_of n)).

Definition f1_of (precision recall : spec_float) : spec_float :=
  if SFeqb (f64_add precision recall) (f64_of 0) then f64_of 0
  else f64_div (f64_mul (f64_mul (f64_of 2) precision) recall) (f64_add precision recall).

Definition pairwise_metrics_from_counts (tp fp fn : Z) : option PairwiseMetrics :=
  precision ← ratio tp fp;
  recall ← ratio tp fn;
  Some (mkMetrics tp fp fn precision recall (f1_of precision recall)).

(** The elements of a set of pairs, in order. *)
Definition pairs_sorted (X : gset Pair) : list Pair := merge_sort pair_le (elements X).

Fixpoint first_non_canonical (name : string) (l : list Pair) : option MetricsError :=
  match l with
  | [] => None
  | (a, b) :: l =>
      if str_ltb a b then first_non_canonical name l else Some (NonCanonical name a b)
  end.

Definition require_canonical (name : string) (pairs : gset Pair) : option MetricsError :=
  first_non_canonical name (pairs_sorted pairs).

Definition pairwise_metrics (predicted truth universe : gset Pair) :
    option (result PairwiseMetrics MetricsError) :=
  match require_canonical "predicted" predicted, require_canonical "truth" truth,
        require_canonical "universe" universe with
  | Some e, _, _ | None, Some e, _ | None, None, Some e => Some (Err e)
  | None, None, None =>
      let stray_predicted := pairs_sorted (predicted ∖ universe) in
      let stray_truth := pairs_sorted (truth ∖ universe) in
      match stray_predicted, stray_truth with
      | example :: _, _ =>
          Some (Err (PredictedOutsideUniverse (length stray_predicted) example))
      | [], example :: _ => Some (Err (TruthOutsideUniverse (length stray_truth) example))
      | [], [] =>
          let tp := Z.of_nat (length (pairs_sorted (predicted ∩ truth))) in
          let fp := Z.of_nat (length (pairs_sorted (predicted ∖ truth))) in
          let fn := Z.of_nat (length (pairs_sorted (truth ∖ predicted))) in
          m ← pairwise_metrics_from_counts tp fp fn; Some (Ok m)
      end
  end.

(** The loop over the rows: [seen] and [grouped] grow together. *)
Fixpoint membership_loop (seen : gmap string string) (grouped : gmap string (gset string))
    (rows : list (string * string)) : result (gmap string (gset string)) MetricsError :=
  match rows with
  | [] => Ok grouped
  | (record_key, entity_id) :: rows =>
      let next :=
        membership_loop (<[record_key := entity_id]> seen)
          (<[entity_id := default ∅ (grouped !! entity_id) ∪ {[record_key]}]> grouped) rows in
      match seen !! record_key with
      | Some prev =>
          if decide (prev = entity_id) then next
          else Err (DuplicateMembership record_key prev entity_id)
      | None => next
      end
  end.

Definition membership_partition (rows : list (string * string)) :
    result (gmap string (gset string)) MetricsError := membership_loop ∅ ∅ rows.

(** The pairs [i < j] of a listing. *)
Fixpoint ordered_pairs (l : list string) : list Pair :=
  match l with
  | [] => []
  | x :: l => (pair x <$> l) ++ ordered_pairs l
  end.

Definition cluster_closure_pairs (rows : list (string * string)) :
    result (gset Pair) MetricsError :=
  match membership_partition rows with
  | Err e => Err e
  | Ok grouped =>
      Ok (list_to_set (map_sorted grouped ≫= λ '(_, members), ordered_pairs (set_sorted members)))
  end.

(** ** Lemmas *)

Lemma elem_of_pairs_sorted X p : p ∈ pairs_sorted X ↔ p ∈ X.
Proof. unfold pairs_sorted. by rewrite merge_sort_Permutation, elem_of_elements. Qed.

Lemma length_pairs_sorted X : length (pairs_sorted X) = size X.
Proof. unfold pairs_sorted. by rewrite merge_sort_Permutation. Qed.

Lemma pairs_sorted_head X p l :
  pairs_sorted X = p :: l → p ∈ X ∧ ∀ q, q ∈ X → pair_le p q.
Proof.
  intros E. assert (StronglySorted pair_le (pairs_sorted X)) as HS
    by apply (StronglySorted_merge_sort _).
  split; [apply elem_of_pairs_sorted; rewrite E; left|]. intros q Hq.
  apply elem_of_pairs_sorted in Hq. rewrite E in Hq, HS.
  inversion HS as [|?? _ HF]; subst. rewrite Forall_forall in HF.
  apply elem_of_cons in Hq as [->|Hq]; [|auto]. right. split; [done|reflexivity].
Qed.

Lemma pairs_sorted_nil X : pairs_sorted X = [] ↔ X = ∅.
Proof.
  split; [|by intros ->; unfold pairs_sorted; rewrite elements_empty]. intros E. apply set_eq.
  intros p. rewrite <-elem_of_pairs_sorted, E. set_solver.
Qed.

Lemma first_non_canonical_spec name l :
  match first_non_canonical name l with
  | None => ∀ a b, (a, b) ∈ l → str_lt a b
  | Some e => ∃ a b, e = NonCanonical name a b ∧ (a, b) ∈ l ∧ ¬ str_lt a b
  end.
Proof.
  induction l as [|[a b] l IH]; simpl; [set_solver|].
  destruct (str_ltb a b) eqn:E.
  - apply str_ltb_lt in E. destruct (first_non_canonical name l) as [e|].
    + destruct IH as (a' & b' & ? & ? & ?). exists a', b'. split; [done|]. split; [by right|done].
    + intros a' b' [[= -> ->]|?]%elem_of_cons; auto.
  - exists a, b. split; [done|]. split; [left|]. by rewrite <-str_ltb_lt, E.
Qed.

(** All pairs of a set are in canonical order. *)
Definition canonical (X : gset Pair) : Prop := ∀ a b, (a, b) ∈ X → str_lt a b.

Lemma require_canonical_spec name X :
  match require_canonical name X with
  | None => canonical X
  | Some e => ∃ a b, e = NonCanonical name a b ∧ (a, b) ∈ X ∧ ¬ str_lt a b
  end.
Proof.
  unfold require_canonical. pose proof (first_non_canonical_spec name (pairs_sorted X)) as H.
  destruct (first_non_canonical _ _); [|intros a b Hab; by apply H, elem_of_pairs_sorted].
  destruct H as (a & b & -> & Hab & ?). exists a, b. by rewrite <-elem_of_pairs_sorted.
Qed.

Lemma ratio_Some a b : (a + b < 2 ^ 64)%Z → is_Some (ratio a b).
Proof. intros H. unfold ratio, u64_add. by rewrite (proj2 (Z.ltb_lt _ _)). Qed.

Lemma from_counts_spec a b c :
  (0 ≤ a)%Z → (0 ≤ b)%Z → (0 ≤ c)%Z → (a + b < 2 ^ 64)%Z → (a + c < 2 ^ 64)%Z →
  ∃ m, pairwise_metrics_from_counts a b c = Some m
    ∧ tp m = a ∧ fp m = b ∧ fn m = c
    ∧ precision m = (if decide (a + b = 0)%Z then f64_of 1 else f64_div (f64_of a) (f64_of (a + b)))
    ∧ recall m = (if decide (a + c = 0)%Z then f64_of 1 else f64_div (f64_of a) (f64_of (a + c)))
    ∧ f1 m = f1_of (precision m) (recall m).
Proof.
  intros Ha Hb Hc Hab Hac. unfold pairwise_metrics_from_counts, ratio, u64_add.
  rewrite !(proj2 (Z.ltb_lt _ _)) by done. simpl. eexists. split; [done|]. simpl.
  repeat split; (destruct (Z.eqb_spec (a + b) 0), (Z.eqb_spec (a + c) 0);
    repeat case_decide; done || lia).
Qed.

(** ** Membership *)

(** What the loop has read. *)
Record membership_inv (rows : list (string * string)) (seen : gmap string string)
    (grouped : gmap string (gset string)) : Prop := {
  mi_seen k e : seen !! k = Some e ↔ (k, e) ∈ rows;
  mi_grouped e k : (∃ X, grouped !! e = Some X ∧ k ∈ X) ↔ (k, e) ∈ rows;
  mi_nonempty e X : grouped !! e = Some X → X ≠ ∅;
}.

Lemma membership_inv_empty : membership_inv [] ∅ ∅.
Proof.
  split.
  - intros k e. rewrite lookup_empty. split; [done|]. by intros ?%elem_of_nil.
  - intros e k. setoid_rewrite lookup_empty. split; [by intros (? & ? & _)|].
    by intros ?%elem_of_nil.
  - intros e X. by rewrite lookup_empty.
Qed.

Lemma membership_inv_step rows seen grouped k e :
  membership_inv rows seen grouped → (∀ e', (k, e') ∈ rows → e' = e) →
  membership_inv (rows ++ [(k, e)]) (<[k := e]> seen)
    (<[e := default ∅ (grouped !! e) ∪ {[k]}]> grouped).
Proof.
  intros [Hs Hg Hn] Hk. split.
  - intros k' e'. rewrite lookup_insert, elem_of_app, list_elem_of_singleton.
    case_decide as Hkk; [subst k'|rewrite Hs; naive_solver].
    split; [naive_solver|]. intros [?%Hk|?]; naive_solver.
  - intros e' k'. rewrite elem_of_app, list_elem_of_singleton.
    setoid_rewrite lookup_insert. case_decide as He; [subst e'|].
    + assert (k' ∈ default ∅ (grouped !! e) ↔ (k', e) ∈ rows) as Hd.
      { rewrite <-Hg. destruct (grouped !! e) as [X|]; simpl; [naive_solver|].
        split; [by intros ?%elem_of_empty|naive_solver]. }
      rewrite <-Hd. split.
      * intros (X & [= <-] & Hin). apply elem_of_union in Hin as [?|Hin]; [by left|right].
        apply elem_of_singleton in Hin. by subst.
      * intros Hin. eexists. split; [done|]. apply elem_of_union.
        destruct Hin as [?|[= ->]]; [by left|right]. by apply elem_of_singleton.
    + rewrite <-Hg. naive_solver.
  - intros e' X. rewrite lookup_insert. case_decide; [|apply Hn]. intros [= <-]. set_solver.
Qed.

(** A record under two entities. *)
Definition double_booked (rows : list (string * string)) (k e e' : string) : Prop :=
  (k, e) ∈ rows ∧ (k, e') ∈ rows ∧ e ≠ e'.

Lemma membership_loop_spec rows done seen grouped :
  membership_inv done seen grouped →
  match membership_loop seen grouped rows with
  | Ok g => membership_inv (done ++ rows) (map_collect (done ++ rows)) g
  | Err x => ∃ k e e', x = DuplicateMembership k e e' ∧ double_booked (done ++ rows) k e e'
  end.
Proof.
  revert done seen grouped. induction rows as [|[k e] rows IH]; intros done seen grouped Hi; simpl.
  { rewrite app_nil_r. destruct Hi as [Hs Hg Hn]. split; [|done|done].
    intros k e. split; [apply map_collect_elem_of|]. intros Hke.
    destruct (map_collect done !! k) as [e'|] eqn:E.
    - apply map_collect_elem_of, Hs in E. apply Hs in Hke. congruence.
    - assert (is_Some (map_collect done !! k)) as [? ?]; [|congruence].
      apply map_collect_dom, list_elem_of_fmap. by exists (k, e). }
  assert ((∀ e', (k, e') ∈ done → e' = e) →
    match membership_loop (<[k := e]> seen)
            (<[e := default ∅ (grouped !! e) ∪ {[k]}]> grouped) rows with
    | Ok g => membership_inv (done ++ (k, e) :: rows) (map_collect (done ++ (k, e) :: rows)) g
    | Err x => ∃ k0 e0 e', x = DuplicateMembership k0 e0 e'
        ∧ double_booked (done ++ (k, e) :: rows) k0 e0 e'
    end) as Hnext.
  { intros Hk. specialize (IH (done ++ [(k, e)]) _ _ (membership_inv_step _ _ _ _ _ Hi Hk)).
    by rewrite <-app_assoc in IH. }
  destruct (seen !! k) as [prev|] eqn:E.
  - case_decide as Hp; subst.
    + apply Hnext. intros e' He'. apply (mi_seen _ _ _ Hi) in He'. congruence.
    + apply (mi_seen _ _ _ Hi) in E. exists k, prev, e. split; [done|].
      split; [apply elem_of_app; by left|]. split; [|done]. apply elem_of_app. right. left.
  - apply Hnext. intros e' He'. apply (mi_seen _ _ _ Hi) in He'. congruence.
Qed.

Lemma elem_of_ordered_pairs l a b :
  StronglySorted str_lt l → (a, b) ∈ ordered_pairs l ↔ a ∈ l ∧ b ∈ l ∧ str_lt a b.
Proof.
  induction 1 as [|x l HS IH HF]; simpl; [set_solver|].
  rewrite Forall_forall in HF.
  rewrite elem_of_app, IH, list_elem_of_fmap, !elem_of_cons. split.
  - intros [(y & [= -> ->] & Hy)|(? & ? & ?)]; [split_and!; auto|split_and!; auto].
  - intros ([->|Ha] & [->|Hb] & Hlt).
    + by apply str_lt_irrefl in Hlt.
    + left. eauto.
    + exfalso. by apply (str_lt_antisym _ _ Hlt), HF.
    + right. auto.
Qed.

(** ** Properties *)

(** The metrics of three pair sets are always produced.  The first pair out
    of canonical order is reported with the set it is in; then the predicted
    pairs outside the universe, and then the truth pairs, with their number and
    the smallest of them.  Otherwise the counts partition both sets: true and
    false positives are the predicted pairs, true positives and false negatives
    the true ones; precision and recall are the [f64] quotients, [1.0] when
    nothing was predicted or there is nothing to find. *)
Theorem pairwise_metrics_correct predicted truth universe :
  (Z.of_nat (size predicted) < 2 ^ 64)%Z → (Z.of_nat (size truth) < 2 ^ 64)%Z →
  ∃ r, pairwise_metrics predicted truth universe = Some r
    ∧ match r with
      | Ok m =>
          canonical predicted ∧ canonical truth ∧ canonical universe
          ∧ predicted ⊆ universe ∧ truth ⊆ universe
          ∧ tp m = Z.of_nat (size (predicted ∩ truth))
          ∧ (tp m + fp m)%Z = Z.of_nat (size predicted)
          ∧ (tp m + fn m)%Z = Z.of_nat (size truth)
          ∧ precision m = (if decide (predicted = ∅) then f64_of 1
                           else f64_div (f64_of (tp m)) (f64_of (Z.of_nat (size predicted))))
          ∧ recall m = (if decide (truth = ∅) then f64_of 1
                        else f64_div (f64_of (tp m)) (f64_of (Z.of_nat (size truth))))
      | Err (NonCanonical name a b) =>
          ¬ str_lt a b ∧ ((name = "predicted" ∧ (a, b) ∈ predicted)
            ∨ (name = "truth" ∧ (a, b) ∈ truth) ∨ (name = "universe" ∧ (a, b) ∈ universe))
      | Err (PredictedOutsideUniverse n p) =>
          n = size (predicted ∖ universe) ∧ p ∈ predicted ∖ universe
          ∧ ∀ q, q ∈ predicted ∖ universe → pair_le p q
      | Err (TruthOutsideUniverse n p) =>
          predicted ⊆ universe ∧ n = size (truth ∖ universe) ∧ p ∈ truth ∖ universe
          ∧ ∀ q, q ∈ truth ∖ universe → pair_le p q
      | Err (DuplicateMembership _ _ _) => False
      end.
Proof.
  intros Hsp Hst. unfold pairwise_metrics.
  pose proof (require_canonical_spec "predicted" predicted) as Cp.
  pose proof (require_canonical_spec "truth" truth) as Ct.
  pose proof (require_canonical_spec "universe" universe) as Cu.
  destruct (require_canonical "predicted" predicted) as [?|];
    [destruct Cp as (a & b & -> & ? & ?); eexists; split; [done|]; naive_solver|].
  destruct (require_canonical "truth" truth) as [?|];
    [destruct Ct as (a & b & -> & ? & ?); eexists; split; [done|]; naive_solver|].
  destruct (require_canonical "universe" universe) as [?|];
    [destruct Cu as (a & b & -> & ? & ?); eexists; split; [done|]; naive_solver|].
  destruct (pairs_sorted (predicted ∖ universe)) as [|p l] eqn:Ep.
  2:{ eexists; split; [done|]. rewrite <-Ep, length_pairs_sorted.
      split; [done|]. by eapply pairs_sorted_head. }
  apply pairs_sorted_nil in Ep. assert (predicted ⊆ universe) as Hpu by set_solver.
  destruct (pairs_sorted (truth ∖ universe)) as [|p l] eqn:Et.
  2:{ eexists; split; [done|]. rewrite <-Et, length_pairs_sorted.
      split; [done|]. split; [done|]. by eapply pairs_sorted_head. }
  apply pairs_sorted_nil in Et. rewrite !length_pairs_sorted.
  assert (size (predicted ∩ truth) + size (predicted ∖ truth) = size predicted) as E1.
  { rewrite <-size_union by set_solver. f_equal. apply set_eq. intros x.
    destruct (decide (x ∈ truth)); set_solver. }
  assert (size (predicted ∩ truth) + size (truth ∖ predicted) = size truth) as E2.
  { rewrite <-size_union by set_solver. f_equal. apply set_eq. intros x.
    destruct (decide (x ∈ predicted)); set_solver. }
  destruct (from_counts_spec (Z.of_nat (size (predicted ∩ truth)))
    (Z.of_nat (size (predicted ∖ truth))) (Z.of_nat (size (truth ∖ predicted))))
    as (m & -> & Htp & Hfp & Hfn & Hp & Hr & _); [lia..|].
  exists (Ok m). split; [done|]. cbv beta iota. rewrite Hp, Hr, Htp, Hfp, Hfn, <-!Nat2Z.inj_add, E1, E2.
  assert (∀ X : gset Pair, Z.of_nat (size X) = 0%Z ↔ X = ∅) as H0.
  { intros X. rewrite <-(leibniz_equiv_iff X ∅), <-size_empty_iff. lia. }
  do 3 (split; [done|]). split; [done|]. split; [set_solver|].
  do 3 (split; [done|]).
  split; repeat case_decide; try done; exfalso; naive_solver.
Qed.

Lemma pairwise_metrics_correct_witness :
  let predicted : gset Pair := {[ ("s:a", "s:b"); ("s:a", "s:c") ]} in
  let truth : gset Pair := {[ ("s:a", "s:b"); ("s:b", "s:c") ]} in
  let universe : gset Pair := {[ ("s:a", "s:b"); ("s:a", "s:c"); ("s:b", "s:c") ]} in
  ∃ m, pairwise_metrics predicted truth universe = Some (Ok m)
    ∧ (tp m + fp m)%Z = 2%Z ∧ (tp m + fn m)%Z = 2%Z
    ∧ precision m = S754_finite false 4503599627370496 (-53)
    ∧ f1 m = S754_finite false 4503599627370496 (-53).
Proof.
  intros predicted truth universe.
  destruct (pairwise_metrics_correct predicted truth universe) as (r & Hr & Hm);
    [vm_compute; reflexivity..|].
  vm_compute in Hr. injection Hr as <-. eexists. split; [vm_compute; reflexivity|].
  split; [apply Hm|]. split; [apply Hm|]. done.
Defined.

(** The closure of a membership is the pairs of distinct records that share
    an entity, each in canonical order; it is refused exactly when some record
    is under two entities, and the refusal names one and both entities. *)
Theorem cluster_closure_pairs_correct rows :
  match cluster_closure_pairs rows with
  | Ok pairs =>
      (∀ k e e', ¬ double_booked rows k e e')
      ∧ ∀ a b, (a, b) ∈ pairs ↔ str_lt a b ∧ ∃ e, (a, e) ∈ rows ∧ (b, e) ∈ rows
  | Err x => ∃ k e e', x = DuplicateMembership k e e' ∧ double_booked rows k e e'
  end.
Proof.
  unfold cluster_closure_pairs, membership_partition.
  pose proof (membership_loop_spec rows [] ∅ ∅ membership_inv_empty) as H.
  destruct (membership_loop ∅ ∅ rows) as [g|x]; [|done]. destruct H as [Hs Hg _]. simpl in *.
  split.
  - intros k e e' (H1 & H2 & Hne). apply Hs in H1, H2. congruence.
  - intros a b. rewrite elem_of_list_to_set, list_elem_of_bind. split.
    + intros ([e X] & Hab & HX). apply elem_of_map_sorted in HX.
      apply elem_of_ordered_pairs in Hab as (Ha & Hb & Hlt); [|auto with er].
      rewrite !elem_of_set_sorted in Ha, Hb. split; [done|]. exists e.
      split; apply Hg; eauto.
    + intros (Hlt & e & Ha & Hb). apply Hg in Ha as (X & HX & Ha), Hb as (X' & HX' & Hb).
      simplify_eq. exists (e, X). split; [|by apply elem_of_map_sorted].
      apply elem_of_ordered_pairs; [auto with er|]. by rewrite !elem_of_set_sorted.
Qed.
