(* ===== verification/Versions.v ===== *)
(** * The config-drift guard

    [er-versions/src/lib.rs]: the run fingerprint, the mode precondition and
    the rebuild reason.  [None] is the [expect] of [field_value]. *)

From S2P Require Import Prelude.
From Stdlib Require Import Ascii.

(** ** Definitions *)

Definition MODE_INCREMENTAL : string := "incremental".
Definition MODE_FULL : string := "full".
Definition MODE_CORRECTION_PASS : string := "correction_pass".

Definition REBUILD_STD_VERSION_BUMP : string := "std_version_bump".
Definition REBUILD_SURVIVORSHIP_VERSION_BUMP : string := "survivorship_version_bump".
Definition REBUILD_CORRECTION_PASS : string := "correction_pass".
Definition REBUILD_OPERATOR : string := "operator".
Definition REBUILD_LEXICON_CHANGE : string := "lexicon_change".

Definition FINGERPRINT_FIELDS : list string :=
  ["config_hash"; "model_version"; "std_version"; "survivorship_version"; "lexicon_hash"].

Definition UNSET_VALUE : string := "(unset)".

Definition REFUSAL_MESSAGE : string :=
  "incremental run refused: the run fingerprint differs from the last successful run: {drift}. Re-run with --mode full, or with --allow-escalate to promote this run to --mode full.".
Definition ESCALATION_MESSAGE : string :=
  "--allow-escalate: the run fingerprint differs from the last successful run: {drift}. Promoting this run to --mode full.".

Inductive VersionsError := UnknownField (field : string) | UnknownMode (mode : string).

Record RunFingerprint := mkFingerprint {
  config_hash : string;
  model_version : option string;
  std_version : string;
  survivorship_version : string;
  lexicon_hash : option string;
}.

Definition fp_value (fp : RunFingerprint) (field : string) : result (option string) VersionsError :=
  if decide (field = "config_hash") then Ok (Some (config_hash fp))
  else if decide (field = "model_version") then Ok (model_version fp)
  else if decide (field = "std_version") then Ok (Some (std_version fp))
  else if decide (field = "survivorship_version") then Ok (Some (survivorship_version fp))
  else if decide (field = "lexicon_hash") then Ok (lexicon_hash fp)
  else Err (UnknownField field).

Definition field_value (fp : RunFingerprint) (field : string) : option (option string) :=
  match fp_value fp field with Ok v => Some v | Err _ => None end.

Definition rendered (value : option string) : string := default UNSET_VALUE value.

Record FieldDrift := mkDrift { drift_field : string; drift_prior : option string;
                               drift_current : option string }.

(** [impl Display for FieldDrift]. *)
Definition drift_str (d : FieldDrift) : string :=
  drift_field d +:+ " last=" +:+ rendered (drift_prior d) +:+ " now=" +:+ rendered (drift_current d).

Inductive ModeOutcome := Proceed | Escalate | Refuse.

Definition outcome_as_str (o : ModeOutcome) : string :=
  match o with Proceed => "proceed" | Escalate => "escalate" | Refuse => "refuse" end.

Record ModeDecision := mkDecision {
  outcome : ModeOutcome; decided_mode : string; drift : list FieldDrift; message : string;
}.

Definition refused (d : ModeDecision) : bool :=
  match outcome d with Refuse => true | _ => false end.
Definition was_escalated (d : ModeDecision) : bool :=
  match outcome d with Escalate => true | _ => false end.

(** [str::replace]: the occurrences from the left; [skip] bytes are still part
    of the last one. *)
Fixpoint str_replace (from to : string) (skip : nat) (s : string) : string :=
  match s with
  | EmptyString => EmptyString
  | String c s' =>
      match skip with
      | S skip => str_replace from to skip s'
      | 0 =>
          if String.prefix from s then to +:+ str_replace from to (String.length from - 1) s'
          else String c (str_replace from to 0 s')
      end
  end.

(** [[String]::join]. *)
Fixpoint join_with (sep : string) (l : list string) : string :=
  match l with
  | [] => EmptyString
  | [s] => s
  | s :: l => s +:+ sep +:+ join_with sep l
  end.

(** The filtered fields, in order. *)
Fixpoint drift_of (prior current : RunFingerprint) (fields : list string) :
    option (list FieldDrift) :=
  match fields with
  | [] => Some []
  | name :: fields =>
      a ← field_value prior name; b ← field_value current name;
      rest ← drift_of prior current fields;
      Some (if decide (a = b) then rest else mkDrift name a b :: rest)
  end.

Definition proceed (mode : string) : ModeDecision := mkDecision Proceed mode [] "".

Definition check_mode_preconditions (prior : option RunFingerprint) (current : RunFingerprint)
    (mode : string) (allow_escalate : bool) : option (result ModeDecision VersionsError) :=
  if decide (mode ≠ MODE_INCREMENTAL ∧ mode ≠ MODE_FULL) then Some (Err (UnknownMode mode))
  else
    match prior with
    | None => Some (Ok (proceed mode))
    | Some prior =>
        if decide (mode = MODE_INCREMENTAL) then
          drift ← drift_of prior current FINGERPRINT_FIELDS;
          match drift with
          | [] => Some (Ok (proceed mode))
          | _ =>
              let rendered_drift := join_with "; " (drift_str <$> drift) in
              Some (Ok (if allow_escalate
                        then mkDecision Escalate MODE_FULL drift
                               (str_replace "{drift}" rendered_drift 0 ESCALATION_MESSAGE)
                        else mkDecision Refuse mode drift
                               (str_replace "{drift}" rendered_drift 0 REFUSAL_MESSAGE)))
          end
        else Some (Ok (proceed mode))
    end.

Definition rebuild_reason_for (prior : option RunFingerprint) (current : RunFingerprint)
    (mode : option string) (operator : bool) : option string :=
  if decide (mode = Some MODE_CORRECTION_PASS) then Some REBUILD_CORRECTION_PASS
  else if operator then Some REBUILD_OPERATOR
  else
    prior ← prior;
    if decide (std_version prior ≠ std_version current) then Some REBUILD_STD_VERSION_BUMP
    else if decide (survivorship_version prior ≠ survivorship_version current)
    then Some REBUILD_SURVIVORSHIP_VERSION_BUMP
    else if decide (lexicon_hash prior ≠ lexicon_hash current) then Some REBUILD_LEXICON_CHANGE
    else None.

(** ** Lemmas *)

Lemma field_value_known fp name : name ∈ FINGERPRINT_FIELDS → is_Some (field_value fp name).
Proof.
  unfold FINGERPRINT_FIELDS. rewrite !elem_of_cons.
  intros [->|[->|[->|[->|[->|H]]]]]; [by eexists..|]. by apply elem_of_nil in H.
Qed.

(** The fields compared are all the fields there are. *)
Lemma fingerprint_ext a b :
  (∀ name, name ∈ FINGERPRINT_FIELDS → field_value a name = field_value b name) → a = b.
Proof.
  intros H. destruct a as [a1 a2 a3 a4 a5], b as [b1 b2 b3 b4 b5].
  pose proof (H "config_hash" ltac:(set_solver)) as [= ->].
  pose proof (H "model_version" ltac:(set_solver)) as [= ->].
  pose proof (H "std_version" ltac:(set_solver)) as [= ->].
  pose proof (H "survivorship_version" ltac:(set_solver)) as [= ->].
  pose proof (H "lexicon_hash" ltac:(set_solver)) as [= ->]. done.
Qed.

Lemma drift_of_spec prior current fields :
  (∀ name, name ∈ fields → name ∈ FINGERPRINT_FIELDS) →
  ∃ ds, drift_of prior current fields = Some ds
    ∧ ∀ d, d ∈ ds ↔ drift_field d ∈ fields
        ∧ field_value prior (drift_field d) = Some (drift_prior d)
        ∧ field_value current (drift_field d) = Some (drift_current d)
        ∧ drift_prior d ≠ drift_current d.
Proof.
  induction fields as [|name fields IH]; intros Hf; simpl.
  { exists []. split; [done|]. set_solver. }
  destruct (field_value_known prior name) as [a Ha]; [apply Hf; left|].
  destruct (field_value_known current name) as [b Hb]; [apply Hf; left|].
  destruct IH as (ds & -> & Hds); [intros ??; apply Hf; by right|].
  rewrite Ha, Hb. simpl. eexists. split; [done|]. intros d. case_decide as Hab; subst.
  - rewrite Hds, elem_of_cons. split; [naive_solver|].
    intros ([->|?] & H1 & H2 & H3); [congruence|done].
  - rewrite !elem_of_cons, Hds. split.
    + intros [->|?]; simpl; naive_solver.
    + destruct d as [f p c]; simpl. intros ([->|?] & H1 & H2 & H3); [left|right; done].
      congruence.
Qed.

(** ** Properties *)

(** The guard is exact.  An unknown mode is the only error.  A run is
    refused, or promoted to a full run when escalation is allowed, exactly when
    it is incremental, there is a prior run and the two fingerprints are not
    the same; a run that proceeds keeps its mode.  The reported drift is exactly
    the fields that moved, with both values. *)
Theorem check_mode_preconditions_correct prior current mode allow :
  ∃ r, check_mode_preconditions prior current mode allow = Some r
    ∧ match r with
      | Err e => e = UnknownMode mode ∧ mode ≠ MODE_INCREMENTAL ∧ mode ≠ MODE_FULL
      | Ok d =>
          let guarded := mode = MODE_INCREMENTAL ∧ ∃ p, prior = Some p ∧ p ≠ current in
          (mode = MODE_INCREMENTAL ∨ mode = MODE_FULL)
          ∧ (outcome d = Refuse ↔ guarded ∧ allow = false)
          ∧ (outcome d = Escalate ↔ guarded ∧ allow = true)
          ∧ decided_mode d = (match outcome d with Escalate => MODE_FULL | _ => mode end)
          ∧ ∀ f a b, mkDrift f a b ∈ drift d ↔
              mode = MODE_INCREMENTAL ∧ ∃ p, prior = Some p ∧ f ∈ FINGERPRINT_FIELDS
                ∧ field_value p f = Some a ∧ field_value current f = Some b ∧ a ≠ b
      end.
Proof.
  unfold check_mode_preconditions. case_decide as Hmode; [by eexists|].
  assert (mode = MODE_INCREMENTAL ∨ mode = MODE_FULL) as Hm.
  { destruct (decide (mode = MODE_INCREMENTAL)); [by left|].
    destruct (decide (mode = MODE_FULL)); [by right|]. naive_solver. }
  destruct prior as [p|]; [|eexists; split; [done|]; simpl; set_solver].
  case_decide as Hinc; [|eexists; split; [done|]; simpl; set_solver].
  destruct (drift_of_spec p current FINGERPRINT_FIELDS) as (ds & -> & Hds); [done|].
  cbn [mbind option_bind].
  assert (ds = [] ↔ p = current) as Hnil.
  { split.
    - intros ->. apply fingerprint_ext. intros name Hname.
      destruct (field_value_known p name Hname) as [a Ha].
      destruct (field_value_known current name Hname) as [b Hb].
      destruct (decide (a = b)) as [->|Hab]; [congruence|].
      exfalso. by apply (not_elem_of_nil (mkDrift name a b)), Hds.
    - intros ->. destruct ds as [|d ds]; [done|].
      destruct (proj1 (Hds d)) as (_ & H1 & H2 & H3); [left|]. congruence. }
  assert (∀ f a b, mkDrift f a b ∈ ds ↔ mode = MODE_INCREMENTAL ∧ ∃ p0, Some p = Some p0 ∧
    f ∈ FINGERPRINT_FIELDS ∧ field_value p0 f = Some a ∧ field_value current f = Some b ∧ a ≠ b)
    as Hd by (intros f a b; rewrite (Hds (mkDrift f a b)); naive_solver).
  destruct ds as [|d ds].
  - eexists. split; [done|]. simpl. destruct Hnil as [Hnil _].
    split; [done|]. split; [naive_solver|]. split; [naive_solver|]. done.
  - assert (p ≠ current) as Hne by (intros ->; naive_solver).
    eexists. split; [done|]. destruct allow; simpl.
    all: split; [done|]; split; [naive_solver|]; split; [naive_solver|]; done.
Qed.

(** Without a correction pass or an operator, a rebuild reason is given
    exactly when the standardisation, the survivorship or the lexicon moved
    since the prior run, in that order of precedence. *)
Theorem rebuild_reason_for_correct prior current mode :
  mode ≠ Some MODE_CORRECTION_PASS →
  ∀ reason, rebuild_reason_for prior current mode false = Some reason ↔
    ∃ p, prior = Some p ∧
      (std_version p ≠ std_version current ∧ reason = REBUILD_STD_VERSION_BUMP
       ∨ std_version p = std_version current
         ∧ survivorship_version p ≠ survivorship_version current
         ∧ reason = REBUILD_SURVIVORSHIP_VERSION_BUMP
       ∨ std_version p = std_version current
         ∧ survivorship_version p = survivorship_version current
         ∧ lexicon_hash p ≠ lexicon_hash current ∧ reason = REBUILD_LEXICON_CHANGE).
Proof.
  intros Hm reason. unfold rebuild_reason_for. rewrite decide_False by done.
  destruct prior as [p|]; simpl; [|naive_solver].
  repeat case_decide; naive_solver.
Qed.

Module SampleFingerprint.
Definition before : RunFingerprint := mkFingerprint "c0" (Some "m1") "s1" "v1" (Some "l1").
Definition after : RunFingerprint := mkFingerprint "c1" None "s1" "v2" (Some "l1").

Example refused_message :
  check_mode_preconditions (Some before) after "incremental" false
  = Some (Ok (mkDecision Refuse "incremental"
      [mkDrift "config_hash" (Some "c0") (Some "c1"); mkDrift "model_version" (Some "m1") None;
       mkDrift "survivorship_version" (Some "v1") (Some "v2")]
      "incremental run refused: the run fingerprint differs from the last successful run: config_hash last=c0 now=c1; model_version last=m1 now=(unset); survivorship_version last=v1 now=v2. Re-run with --mode full, or with --allow-escalate to promote this run to --mode full.")).
Proof. vm_compute. reflexivity. Qed.
End SampleFingerprint.

Lemma rebuild_reason_for_correct_witness :
  rebuild_reason_for (Some SampleFingerprint.before) SampleFingerprint.after None false
  = Some REBUILD_SURVIVORSHIP_VERSION_BUMP.
Proof.
  apply rebuild_reason_for_correct; [done|]. exists SampleFingerprint.before.
  split; [done|]. right; left. vm_compute. done.
Defined.
