(* ===== verification/Text.v ===== *)
(** * UTF-8 text

    A [str] is the string of its UTF-8 bytes.  The operations of [core::str]
    the sources use that look at characters: white space, [split_whitespace],
    [trim], [is_char_boundary] and [truncate]. *)

From S2P Require Import Prelude Ids LakeClock.
From Stdlib Require Import Ascii.

(** ** Definitions *)

Definition byte_in (lo hi : N) (c : ascii) : bool :=
  ((lo <=? N_of_ascii c) && (N_of_ascii c <=? hi))%N.

Definition ascii_space (c : ascii) : bool := byte_in 9 13 c || byte_in 32 32 c.

(** The two- and three-byte encodings of [char::is_whitespace]: U+0085, U+00A0;
    U+1680, U+2000..200A, U+2028, U+2029, U+202F, U+205F, U+3000. *)
Definition space2 (a b : ascii) : bool :=
  byte_in 194 194 a && (byte_in 133 133 b || byte_in 160 160 b).

Definition space3 (a b c : ascii) : bool :=
  byte_in 225 225 a && byte_in 154 154 b && byte_in 128 128 c
  || byte_in 226 226 a && byte_in 128 128 b
     && (byte_in 128 138 c || byte_in 168 169 c || byte_in 175 175 c)
  || byte_in 226 226 a && byte_in 129 129 b && byte_in 159 159 c
  || byte_in 227 227 a && byte_in 128 128 b && byte_in 128 128 c.

(** The length of the white-space character a text starts with, or zero. *)
Definition ws_len (s : string) : nat :=
  match s with
  | EmptyString => 0
  | String a s =>
      if ascii_space a then 1
      else match s with
           | EmptyString => 0
           | String b s =>
               if space2 a b then 2
               else match s with
                    | EmptyString => 0
                    | String c _ => if space3 a b c then 3 else 0
                    end
           end
  end.

(** [str::to_ascii_lowercase]. *)
Definition ascii_lower (c : ascii) : ascii :=
  if byte_in 65 90 c then ascii_of_N (N_of_ascii c + 32) else c.

Fixpoint to_ascii_lowercase (s : string) : string :=
  match s with
  | EmptyString => EmptyString
  | String c s => String (ascii_lower c) (to_ascii_lowercase s)
  end.

(** [str::split_whitespace]: [cur] is the word being read, [skip] the bytes
    left of the white-space character being passed. *)
Fixpoint split_whitespace (skip : nat) (cur s : string) : list string :=
  match s with
  | EmptyString => match cur with EmptyString => [] | _ => [cur] end
  | String c s' =>
      match skip with
      | S skip => split_whitespace skip cur s'
      | 0 =>
          match ws_len s with
          | S n => match cur with
                   | EmptyString => split_whitespace n EmptyString s'
                   | _ => cur :: split_whitespace n EmptyString s'
                   end
          | 0 => split_whitespace 0 (cur +:+ String c EmptyString) s'
          end
      end
  end.

(** [str::trim_start] and [str::trim_end]: a white-space character with nothing
    but white space after it is dropped. *)
Fixpoint trim_start (skip : nat) (s : string) : string :=
  match s with
  | EmptyString => EmptyString
  | String _ s' =>
      match skip with
      | S skip => trim_start skip s'
      | 0 => match ws_len s with S n => trim_start n s' | 0 => s end
      end
  end.

Fixpoint trim_end (s : string) : string :=
  match s with
  | EmptyString => EmptyString
  | String c s' =>
      match trim_start 0 s with
      | EmptyString => EmptyString
      | _ => String c (trim_end s')
      end
  end.

Definition trim (s : string) : string := trim_end (trim_start 0 s).

(** [[String]::join] with a separator of one byte. *)
Fixpoint join_char (sep : ascii) (l : list string) : string :=
  match l with
  | [] => EmptyString
  | [t] => t
  | t :: l => t +:+ String sep (join_char sep l)
  end.

(** [str::strip_prefix], [bytes().all(..)] and [bytes().any(..)]. *)
Fixpoint strip_prefix (pat s : string) : option string :=
  match pat, s with
  | EmptyString, _ => Some s
  | String a pat, String b s => if decide (a = b) then strip_prefix pat s else None
  | _, EmptyString => None
  end.

Fixpoint all_bytes (p : ascii → bool) (s : string) : bool :=
  match s with EmptyString => true | String c s => p c && all_bytes p s end.

Fixpoint any_byte (p : ascii → bool) (s : string) : bool :=
  match s with EmptyString => false | String c s => p c || any_byte p s end.

(** [str::splitn(n, char)]. *)
Fixpoint splitn (n : nat) (c : ascii) (s : string) : list string :=
  match n with
  | O => []
  | S O => [s]
  | S n => match split_once c s with Some (a, s) => a :: splitn n c s | None => [s] end
  end.

(** [str::is_char_boundary]: the ends, and before a byte that does not continue
    a character. *)
Definition is_char_boundary (s : string) (i : nat) : bool :=
  (i =? 0) || (i =? String.length s)
  || match String.get i s with Some c => negb (byte_in 128 191 c) | None => false end.

(** [String::truncate]: a cut inside a character is a panic. *)
Definition truncate (s : string) (i : nat) : option string :=
  if String.length s <? i then Some s
  else if is_char_boundary s i then Some (String.substring 0 i s) else None.

(** ** Lemmas *)

(** An ASCII character that is not white space. *)
Definition word_char (c : ascii) : Prop := ascii_space c = false ∧ byte_in 0 127 c = true.

Lemma byte_in_ascii lo hi c : byte_in 0 127 c = true → (128 ≤ lo)%N → byte_in lo hi c = false.
Proof.
  unfold byte_in. rewrite andb_true_iff, andb_false_iff, N.leb_le, N.leb_le, N.leb_gt. lia.
Qed.

Lemma ws_len_word c s : word_char c → ws_len (String c s) = 0.
Proof.
  intros [H1 H2]. cbn [ws_len]. rewrite H1.
  destruct s as [|b [|d s]]; unfold space2, space3;
    rewrite ?(byte_in_ascii _ _ c) by (done || lia); done.
Qed.

Definition word (s : string) : Prop := ∀ c, ¬ word_char c → contains c s = false.

#[global] Instance word_char_dec c : Decision (word_char c).
Proof. unfold word_char. solve_decision. Defined.

Lemma word_cons c s : word (String c s) → word_char c ∧ word s.
Proof.
  intros Hw. split.
  - destruct (decide (word_char c)) as [|Hn]; [done|]. specialize (Hw c Hn). simpl in Hw.
    by rewrite decide_True in Hw.
  - intros d Hd. specialize (Hw d Hd). simpl in Hw. by case_decide.
Qed.

(** A space ends a word. *)
Lemma split_whitespace_word cur w :
  word w →
  (∀ s, cur +:+ w ≠ EmptyString →
     split_whitespace 0 cur (w +:+ String " " s) = (cur +:+ w) :: split_whitespace 0 EmptyString s)
  ∧ (cur +:+ w ≠ EmptyString → split_whitespace 0 cur w = [cur +:+ w]).
Proof.
  revert cur. induction w as [|c w IH]; intros cur Hw.
  { rewrite str_app_nil_r. split; [intros s|]; intros Hne; by destruct cur. }
  apply word_cons in Hw as [Hc Hw].
  destruct (IH (cur +:+ String c EmptyString) Hw) as [H1 H2].
  assert ((cur +:+ String c EmptyString) +:+ w = cur +:+ String c w) as Happ
    by by rewrite <-str_app_assoc.
  rewrite Happ in H1, H2.
  change (String c w +:+ ?s) with (String c (w +:+ s)). cbn [split_whitespace].
  split; [intros s|]; rewrite ws_len_word by done; auto.
Qed.

Lemma trim_start_word c s : word_char c → trim_start 0 (String c s) = String c s.
Proof. intros Hc. cbn [trim_start]. by rewrite ws_len_word. Qed.

(** White space stops before a word character. *)
Lemma ws_len_app s c : word_char c → ws_len (s +:+ String c EmptyString) ≤ String.length s.
Proof.
  intros Hc. destruct s as [|x s].
  { change (EmptyString +:+ ?t) with t. by rewrite (ws_len_word c EmptyString). }
  change (String x s +:+ ?t) with (String x (s +:+ t)). cbn [ws_len String.length].
  destruct (ascii_space x); [lia|]. destruct Hc as [_ Hc].
  destruct s as [|y s]; simpl; [unfold space2; rewrite !(byte_in_ascii _ _ c) by (done || lia)|].
  { rewrite andb_false_r. lia. }
  destruct (space2 x y); [lia|].
  destruct s as [|z s]; simpl; [unfold space3; rewrite !(byte_in_ascii _ _ c) by (done || lia)|].
  { rewrite !andb_false_r. simpl. lia. }
  destruct (space3 x y z); lia.
Qed.

Lemma trim_start_nonempty s c skip :
  word_char c → skip ≤ String.length s → trim_start skip (s +:+ String c EmptyString) ≠ EmptyString.
Proof.
  intros Hc. revert skip. induction s as [|d s IH]; intros skip Hskip.
  { simpl in Hskip. replace skip with 0 by lia. change (EmptyString +:+ ?t) with t.
    by rewrite (trim_start_word c EmptyString). }
  pose proof (ws_len_app (String d s) c Hc) as Hlen.
  change (String d s +:+ ?t) with (String d (s +:+ t)) in *. cbn [trim_start String.length] in *.
  destruct skip as [|skip]; [|apply IH; lia].
  destruct (ws_len _) as [|n]; [done|]. apply IH. lia.
Qed.

Lemma trim_end_word s c :
  word_char c → trim_end (s +:+ String c EmptyString) = s +:+ String c EmptyString.
Proof.
  intros Hc. induction s as [|d s IH].
  { change (EmptyString +:+ ?t) with t. cbn [trim_end].
    by rewrite (trim_start_word c EmptyString). }
  pose proof (trim_start_nonempty (String d s) c 0 Hc ltac:(lia)) as Hne.
  change (String d s +:+ ?t) with (String d (s +:+ t)) in *. cbn [trim_end].
  destruct (trim_start 0 _); [done|]. by rewrite IH.
Qed.

(** A text between two word characters is its own trim. *)
Lemma trim_word c s d :
  word_char c → word_char d →
  trim (String c (s +:+ String d EmptyString)) = String c (s +:+ String d EmptyString).
Proof.
  intros Hc Hd. unfold trim. rewrite trim_start_word by done.
  apply (trim_end_word (String c s) d Hd).
Qed.

(** ** Joining and splitting *)

Lemma join_char_cons sep s s' l :
  join_char sep (s :: s' :: l) = s +:+ String sep (join_char sep (s' :: l)).
Proof. done. Qed.

Lemma join_char_contains sep c l :
  c ≠ sep → Forall (λ s, contains c s = false) l → contains c (join_char sep l) = false.
Proof.
  intros Hc. induction 1 as [|s [|s' l] Hs HF IH]; [done..|].
  rewrite join_char_cons, contains_app, Hs. cbn [contains]. by rewrite decide_False.
Qed.

Lemma split_on_join_char sep l :
  l ≠ [] → Forall (λ s, contains sep s = false) l → split_on sep (join_char sep l) = l.
Proof.
  intros Hl HF. induction HF as [|s [|s' l] Hs HF IH]; [done|by apply split_on_none|].
  rewrite join_char_cons, split_on_app by done. by rewrite IH.
Qed.

Lemma str_app_inj (a a' b b' : string) :
  String.length a = String.length a' → a +:+ b = a' +:+ b' → a = a' ∧ b = b'.
Proof.
  revert a'. induction a as [|c a IH]; intros [|c' a'] Hl E; simpl in Hl; try done.
  change (String c (a +:+ b) = String c' (a' +:+ b')) in E. injection E as -> E.
  apply IH in E as [-> ->]; [done|lia].
Qed.

(** ** Cuts *)

Lemma strip_prefix_Some pat s t : strip_prefix pat s = Some t ↔ s = pat +:+ t.
Proof.
  revert s. induction pat as [|a pat IH]; intros s; simpl; [naive_solver|].
  destruct s as [|b s]; [split; [done|intros E; discriminate E]|].
  case_decide as E.
  - rewrite IH. subst. split; [by intros ->|]. by intros [= ->].
  - split; [done|]. intros [= -> _]. done.
Qed.

Lemma all_bytes_app p a b : all_bytes p (a +:+ b) = all_bytes p a && all_bytes p b.
Proof. induction a as [|c a IH]; simpl; [done|]. by rewrite IH, andb_assoc. Qed.

(** No byte outside the ones tested. *)
Lemma all_bytes_contains p c s : all_bytes p s = true → p c = false → contains c s = false.
Proof.
  intros Hs Hc. induction s as [|d s IH]; [done|]. simpl in *.
  apply andb_true_iff in Hs as [Hd Hs]. case_decide; [congruence|auto].
Qed.

Lemma all_bytes_impl (p q : ascii → bool) s :
  (∀ c, p c = true → q c = true) → all_bytes p s = true → all_bytes q s = true.
Proof.
  intros Hpq. induction s as [|c s IH]; simpl; [done|].
  rewrite !andb_true_iff. intros [??]. auto.
Qed.

Lemma str_length_app (a b : string) :
  String.length (a +:+ b) = (String.length a + String.length b)%nat.
Proof. induction a as [|x a IH]; [done|]. simpl. by rewrite IH. Qed.

Lemma length_substring s i : i ≤ String.length s → String.length (String.substring 0 i s) = i.
Proof.
  revert i. induction s as [|c s IH]; intros [|i] Hi; simpl in *; [done|lia|done|].
  f_equal. apply IH. lia.
Qed.

Lemma substring_prefix s i : ∃ t, s = String.substring 0 i s +:+ t.
Proof.
  revert i. induction s as [|c s IH]; intros i; [by exists EmptyString; destruct i|].
  destruct i as [|i]; simpl; [by exists (String c s)|].
  destruct (IH i) as [t Ht]. exists t. change (String c ?a +:+ t) with (String c (a +:+ t)).
  by rewrite <-Ht.
Qed.
