(* ===== verification/Hash.v ===== *)
(** * Content hashes

    [er-hash/src/lib.rs] and [er-hash/src/std_hash.rs].  SHA-256 and Unicode
    normalisation are parameters; [hex::encode] is the lowercase hex of
    [Ids.hex_of]. *)

From S2P Require Import Prelude Ids LakeClock Text.
From Stdlib Require Import Ascii.

(** ** Definitions *)

Definition UNIT_SEPARATOR : ascii := "031".

Section digest.
Context (sha256 : string → list Z) (nfc : string → string).

Definition hash_hex (bytes : string) : string := hex_of (sha256 bytes).

(** A column that is absent or NULL encodes as the empty string. *)
Definition column_value (row : gmap string (option string)) (column : string) : string :=
  match row !! column with Some (Some value) => nfc value | _ => EmptyString end.

Definition content_preimage (row : gmap string (option string)) (columns : list string) : string :=
  join_char UNIT_SEPARATOR (column_value row <$> columns).

(** One metadata column: the name's digest, a presence tag, the value's digest. *)
Definition extra (row : gmap string (option string)) (name : string) : string :=
  hash_hex name +:+
  match mjoin (row !! name) with
  | None => "N"
  | Some value => String "V" (hash_hex value)
  end.

Definition extras_of (row : gmap string (option string)) (metadata_columns : list string) : string :=
  foldr (λ name acc, extra row name +:+ acc) EmptyString (dedup (sort_strings metadata_columns)).

Definition content_hash (row : gmap string (option string)) (columns metadata_columns : list string) :
    string :=
  let digest := hash_hex (content_preimage row columns) in
  match metadata_columns with
  | [] => digest
  | _ =>
      hash_hex (digest +:+ String UNIT_SEPARATOR ("metadata-v1" +:+
        String UNIT_SEPARATOR (extras_of row metadata_columns)))
  end.

Definition STD_HASH_COLUMNS : list string :=
  ["record_key"; "std_version"; "given_name"; "family_name"; "name_variants"; "email";
   "email_valid"; "phone_e164"; "phone_valid"; "addr_number"; "addr_street"; "addr_unit";
   "addr_city"; "addr_region"; "addr_postal"; "birth_date"; "updated_at_source"; "content_hash"].

Inductive StdValue := StdNull | StdText (s : string) | StdBool (b : bool) | StdList (items : list string).

Definition render (v : StdValue) : string :=
  match v with
  | StdNull => EmptyString
  | StdText s => s
  | StdBool true => "true"
  | StdBool false => "false"
  | StdList items => join_char UNIT_SEPARATOR items
  end.

Inductive StdHashError := MissingColumns (missing : list string) (total : nat).

(** [row[column]] panics on an absent column: [None]. *)
Definition table_content_hash (row : gmap string StdValue) : option (result string StdHashError) :=
  match filter (λ column, row !! column = None) STD_HASH_COLUMNS with
  | [] =>
      kvs ← mapM (λ column, v ← row !! column; Some (column, Some (render v))) STD_HASH_COLUMNS;
      Some (Ok (content_hash (map_collect kvs) STD_HASH_COLUMNS []))
  | missing => Some (Err (MissingColumns missing (length STD_HASH_COLUMNS)))
  end.

(** ** What the hasher is fed *)

(** Every text hashed for a row. *)
Definition hashed_texts (row : gmap string (option string)) (columns metadata_columns : list string) :
    list string :=
  content_preimage row columns
    :: (hash_hex (content_preimage row columns) +:+ String UNIT_SEPARATOR ("metadata-v1" +:+
          String UNIT_SEPARATOR (extras_of row metadata_columns)))
    :: metadata_columns ++ omap (λ name, mjoin (row !! name)) metadata_columns.

(** No two of the given texts collide. *)
Definition collision_free (texts : list string) : Prop :=
  Forall (λ x, Forall (λ y, sha256 x = sha256 y → x = y) texts) texts.

(** A digest is 32 bytes. *)
Definition digest_ok : Prop :=
  ∀ x, length (sha256 x) = 32 ∧ Forall (λ b, 0 ≤ b < 256)%Z (sha256 x).

(** What two rows must share to have the same hash. *)
Definition same_content (row row' : gmap string (option string))
    (columns metadata_columns : list string) : Prop :=
  (∀ c, c ∈ columns → column_value row c = column_value row' c)
  ∧ (∀ c, c ∈ metadata_columns → mjoin (row !! c) = mjoin (row' !! c)).

(** A row whose values cannot be mistaken for two. *)
Definition separated (row : gmap string (option string)) (columns : list string) : Prop :=
  Forall (λ c, contains UNIT_SEPARATOR (column_value row c) = false) columns.
End digest.

(** ** Lemmas *)

Lemma hex_digit_inj a b : (0 ≤ a < 16)%Z → (0 ≤ b < 16)%Z → hex_digit a = hex_digit b → a = b.
Proof.
  intros Ha Hb E. apply (f_equal N_of_ascii) in E. unfold hex_digit in E.
  rewrite !N_ascii_embedding in E by (destruct (Z.ltb_spec a 10), (Z.ltb_spec b 10); lia).
  destruct (Z.ltb_spec a 10), (Z.ltb_spec b 10); lia.
Qed.

Lemma hex_of_length d : String.length (hex_of d) = 2 * length d.
Proof.
  induction d as [|b d IH]; [done|]. unfold hex_of in *. cbn [foldr String.length length].
  rewrite IH. lia.
Qed.

Lemma hex_of_inj d d' :
  Forall (λ b, 0 ≤ b < 256)%Z d → Forall (λ b, 0 ≤ b < 256)%Z d' → hex_of d = hex_of d' → d = d'.
Proof.
  intros Hd. revert d'. induction Hd as [|b d Hb _ IH]; intros [|b' d'] Hd' E; try done.
  apply Forall_cons in Hd' as [Hb' Hd']. simpl in E. injection E as E1 E2 E3.
  rewrite !(Z.shiftr_div_pow2 _ 4) in E1 by lia.
  change 15%Z with (Z.ones 4) in E2. rewrite !Z.land_ones in E2 by lia.
  apply hex_digit_inj in E1, E2; [|change (2 ^ 4)%Z with 16%Z; div_lia..].
  f_equal; [|by apply IH]. change (2 ^ 4)%Z with 16%Z in *. div_lia.
Qed.

Section content.
Context (sha256 : string → list Z) (nfc : string → string) (Hsha : digest_ok sha256).
Implicit Types (row : gmap string (option string)).

Lemma hash_hex_length x : String.length (hash_hex sha256 x) = 64.
Proof using Hsha. unfold hash_hex. rewrite hex_of_length. by rewrite (proj1 (Hsha x)). Qed.

Lemma hash_hex_inj texts x y :
  collision_free sha256 texts → x ∈ texts → y ∈ texts →
  hash_hex sha256 x = hash_hex sha256 y → x = y.
Proof using Hsha.
  intros Hc Hx Hy E. apply hex_of_inj in E; [|apply Hsha..].
  unfold collision_free in Hc. rewrite Forall_forall in Hc. specialize (Hc x Hx).
  rewrite Forall_forall in Hc. by apply Hc.
Qed.

(** Equal extras of the same names hold the same values. *)
Lemma extras_inj texts row row' names :
  collision_free sha256 texts →
  (∀ n x, n ∈ names → mjoin (row !! n) = Some x ∨ mjoin (row' !! n) = Some x → x ∈ texts) →
  foldr (λ name acc, extra sha256 row name +:+ acc) EmptyString names
    = foldr (λ name acc, extra sha256 row' name +:+ acc) EmptyString names →
  ∀ n, n ∈ names → mjoin (row !! n) = mjoin (row' !! n).
Proof using Hsha.
  intros Hc Ht E. induction names as [|n names IH]; [by intros ? ?%elem_of_nil|].
  cbn [foldr] in E. unfold extra in E. rewrite <-!str_app_assoc in E.
  apply str_app_inj in E as [_ E]; [|by rewrite !hash_hex_length].
  assert (mjoin (row !! n) = mjoin (row' !! n) ∧
    foldr (λ name acc, extra sha256 row name +:+ acc) EmptyString names
    = foldr (λ name acc, extra sha256 row' name +:+ acc) EmptyString names) as [Hn E'].
  { destruct (mjoin (row !! n)) as [x|] eqn:Ex, (mjoin (row' !! n)) as [y|] eqn:Ey.
    - change (String ?c ?a +:+ ?b) with (String c (a +:+ b)) in E. injection E as E.
      apply str_app_inj in E as [E ?]; [|by rewrite !hash_hex_length]. split; [|done]. f_equal.
      apply (hash_hex_inj texts); [done|apply (Ht n); [left|auto]..|done].
    - done.
    - done.
    - change (String ?c ?a +:+ ?b) with (String c (a +:+ b)) in E. by injection E. }
  intros n' [->|?]%elem_of_cons; [done|]. apply IH; [|done|done].
  intros m x Hm. apply Ht. by right.
Qed.

Lemma content_preimage_inj row row' columns :
  separated nfc row columns → separated nfc row' columns →
  content_preimage nfc row columns = content_preimage nfc row' columns →
  ∀ c, c ∈ columns → column_value nfc row c = column_value nfc row' c.
Proof using Type.
  intros Hs Hs' E c Hc. unfold content_preimage in E.
  apply (f_equal (split_on UNIT_SEPARATOR)) in E.
  assert (columns ≠ []) as Hne by by intros ->; apply elem_of_nil in Hc.
  rewrite !split_on_join_char in E by (by apply Forall_fmap || by destruct columns).
  apply list_elem_of_lookup in Hc as [i Hi].
  apply (f_equal (.!! i)) in E. rewrite !list_lookup_fmap, Hi in E. by injection E.
Qed.

Lemma same_content_extras row row' columns names :
  same_content nfc row row' columns names →
  extras_of sha256 row names = extras_of sha256 row' names.
Proof using Type.
  intros [_ Hm]. unfold extras_of.
  assert (∀ n, n ∈ dedup (sort_strings names) → mjoin (row !! n) = mjoin (row' !! n)) as H.
  { intros n. autorewrite with er. apply Hm. }
  induction (dedup (sort_strings names)) as [|n l IH]; [done|]. cbn [foldr]. unfold extra at 1 3.
  rewrite (H n) by left. f_equal. apply IH. intros m ?. apply H. by right.
Qed.
End content.

Lemma filter_columns_ext (row row' : gmap string StdValue) (l : list string) :
  (∀ c, c ∈ l → row !! c = None ↔ row' !! c = None) →
  filter (λ c, row !! c = None) l = filter (λ c, row' !! c = None) l.
Proof.
  induction l as [|c l IH]; intros H; [done|].
  assert (row !! c = None ↔ row' !! c = None) as Hc by (apply H; left).
  rewrite !filter_cons. rewrite IH by (intros; apply H; by right). repeat case_decide; tauto.
Qed.

Lemma render_columns_ext (row row' : gmap string StdValue) (l : list string) :
  (∀ c, c ∈ l → render <$> row !! c = render <$> row' !! c) →
  mapM (λ c, v ← row !! c; Some (c, Some (render v))) l
  = mapM (λ c, v ← row' !! c; Some (c, Some (render v))) l.
Proof.
  induction l as [|c l IH]; intros H; [done|].
  assert (render <$> row !! c = render <$> row' !! c) as Hc by (apply H; left).
  simpl. rewrite IH by (intros; apply H; by right).
  destruct (row !! c), (row' !! c); simpl in *; [injection Hc as Hc; by rewrite Hc|done..].
Qed.

(** ** Properties *)

(** The content hash identifies the content.  Two rows hash alike exactly
    when every declared column has the same normalised value (NULL, absent and
    empty being one) and every metadata column the same verbatim value (NULL and
    empty being different); no other key of a row matters.  The digest is taken
    to be 32 bytes and free of collisions among the texts the two rows hash, and
    the declared values not to hold the unit separator. *)
Theorem content_hash_correct sha256 nfc row row' columns metadata_columns :
  digest_ok sha256 →
  separated nfc row columns → separated nfc row' columns →
  collision_free sha256 (hashed_texts sha256 nfc row columns metadata_columns
                         ++ hashed_texts sha256 nfc row' columns metadata_columns) →
  content_hash sha256 nfc row columns metadata_columns
    = content_hash sha256 nfc row' columns metadata_columns
  ↔ same_content nfc row row' columns metadata_columns.
Proof.
  intros Hsha Hs Hs' Hc. split.
  - intros E.
    assert (hash_hex sha256 (content_preimage nfc row columns)
            = hash_hex sha256 (content_preimage nfc row' columns) ∧
      extras_of sha256 row metadata_columns = extras_of sha256 row' metadata_columns) as [E1 E2].
    { unfold content_hash in E. destruct metadata_columns as [|n names] eqn:En; [done|].
      rewrite <-En in *. eapply (hash_hex_inj sha256 Hsha) in E; [|exact Hc| |].
      - apply str_app_inj in E as [? E]; [|by rewrite !hash_hex_length].
        by injection E as E.
      - apply elem_of_app. left. right. left.
      - apply elem_of_app. right. right. left. }
    split.
    + eapply (hash_hex_inj sha256 Hsha) in E1;
        [|exact Hc|apply elem_of_app; left; left|apply elem_of_app; right; left].
      by apply content_preimage_inj.
    + intros c Hcm. eapply (extras_inj sha256 Hsha); [exact Hc| |exact E2|by autorewrite with er].
      intros n x. autorewrite with er. intros Hn Hx. apply elem_of_app.
      destruct Hx as [Hx|Hx]; [left|right]; do 2 right; apply elem_of_app; right;
        apply list_elem_of_omap; eauto.
  - intros Hsame. pose proof Hsame as [Hcols _]. unfold content_hash.
    assert (content_preimage nfc row columns = content_preimage nfc row' columns) as ->.
    { unfold content_preimage. f_equal. apply list_fmap_ext. intros i c Hi. apply Hcols.
      by eapply list_elem_of_lookup_2. }
    by rewrite (same_content_extras sha256 nfc row row' columns).
Qed.

(** The standardised-row hash covers its eighteen columns and nothing else:
    it is refused exactly when one is absent, naming all that are, and rows that
    render alike on these columns hash alike. *)
Theorem table_content_hash_correct sha256 nfc row :
  ∃ r, table_content_hash sha256 nfc row = Some r
    ∧ match r with
      | Err (MissingColumns missing total) =>
          total = 18 ∧ missing ≠ []
          ∧ ∀ c, c ∈ missing ↔ c ∈ STD_HASH_COLUMNS ∧ row !! c = None
      | Ok _ => ∀ c, c ∈ STD_HASH_COLUMNS → is_Some (row !! c)
      end
    ∧ ∀ row', (∀ c, c ∈ STD_HASH_COLUMNS → render <$> row' !! c = render <$> row !! c) →
        table_content_hash sha256 nfc row' = Some r.
Proof.
  assert (∀ row', (∀ c, c ∈ STD_HASH_COLUMNS → render <$> row' !! c = render <$> row !! c) →
    table_content_hash sha256 nfc row' = table_content_hash sha256 nfc row) as Hext.
  { intros row' Hr. unfold table_content_hash.
    assert (filter (λ c, row' !! c = None) STD_HASH_COLUMNS
            = filter (λ c, row !! c = None) STD_HASH_COLUMNS) as ->.
    { apply filter_columns_ext. intros c Hc. specialize (Hr c Hc).
      destruct (row' !! c), (row !! c); naive_solver. }
    destruct (filter _ _); [|done]. by rewrite (render_columns_ext row' row). }
  cut (∃ r, table_content_hash sha256 nfc row = Some r ∧ match r with
      | Err (MissingColumns missing total) =>
          total = 18 ∧ missing ≠ []
          ∧ ∀ c, c ∈ missing ↔ c ∈ STD_HASH_COLUMNS ∧ row !! c = None
      | Ok _ => ∀ c, c ∈ STD_HASH_COLUMNS → is_Some (row !! c)
      end).
  { intros (r & Hr & Hm). exists r. split; [done|]. split; [done|]. intros row' ?.
    by rewrite Hext. }
  unfold table_content_hash.
  assert (∀ c, c ∈ filter (λ c, row !! c = None) STD_HASH_COLUMNS ↔
    c ∈ STD_HASH_COLUMNS ∧ row !! c = None) as Hf by (intros c; rewrite list_elem_of_filter; tauto).
  destruct (filter _ _) as [|m ms].
  - assert (∀ c, c ∈ STD_HASH_COLUMNS → is_Some (row !! c)) as Hall.
    { intros c Hc. destruct (row !! c) eqn:E; [by eexists|].
      exfalso. by apply (not_elem_of_nil c), Hf. }
    rewrite mapM_omap; [by eexists|]. intros c Hc. destruct (Hall c Hc) as [v ->]. by eexists.
  - eexists. split; [done|]. done.
Qed.

(** A digest of 32 bytes for the examples: a polynomial over the bytes. *)
Module SampleDigest.

Fixpoint poly (acc : Z) (s : string) : Z :=
  match s with
  | EmptyString => acc
  | String c s => poly ((acc * 1000003 + Z.of_N (N_of_ascii c) + 1) mod 2 ^ 256) s
  end.

Fixpoint bytes (n : nat) (z : Z) : list Z :=
  match n with 0 => [] | S n => (z mod 256)%Z :: bytes n (z / 256)%Z end.

Definition sha (s : string) : list Z := bytes 32 (poly 0 s).

Lemma sha_ok : digest_ok sha.
Proof.
  intros x. unfold sha. generalize (poly 0 x). intros z. split; [done|].
  generalize 32. intros n. revert z. induction n as [|n IH]; intros z; simpl; [constructor|].
  constructor; [div_lia|apply IH].
Qed.

Definition row (last : option string) (extra : gmap string (option string)) :
    gmap string (option string) :=
  <["first_name" := Some "Ada"]> (<["last_name" := last]> extra).

Definition collision_freeb (texts : list string) : bool :=
  forallb (λ x, forallb (λ y,
    negb (bool_decide (sha x = sha y)) || bool_decide (x = y)) texts) texts.

Lemma collision_freeb_sound texts : collision_freeb texts = true → collision_free sha texts.
Proof.
  unfold collision_freeb, collision_free. rewrite forallb_forall. intros H.
  apply Forall_forall. intros x Hx%list_elem_of_In. specialize (H x Hx).
  rewrite forallb_forall in H. apply Forall_forall. intros y Hy%list_elem_of_In E.
  specialize (H y Hy). rewrite (bool_decide_eq_true_2 _ E) in H. by apply bool_decide_eq_true in H.
Qed.
End SampleDigest.

Lemma content_hash_correct_witness :
  let columns := ["first_name"; "last_name"] in
  let plain := SampleDigest.row None (<["notes" := None]> ∅) in
  let empty := SampleDigest.row (Some "") (<["notes" := Some ""]> ∅) in
  let hash r metadata := content_hash SampleDigest.sha id r columns metadata in
  hash plain [] = hash empty [] ∧ hash plain ["notes"] ≠ hash empty ["notes"].
Proof.
  intros columns plain empty hash. split.
  - apply (content_hash_correct SampleDigest.sha id plain empty columns []);
      [apply SampleDigest.sha_ok|repeat constructor; vm_compute; reflexivity..| |].
    + apply SampleDigest.collision_freeb_sound. vm_compute. reflexivity.
    + split; [|by intros ? ?%elem_of_nil]. intros c Hc. unfold columns in Hc.
      rewrite !elem_of_cons in Hc. destruct Hc as [->|[->|Hc]]; [vm_compute; reflexivity..|].
      by apply elem_of_nil in Hc.
  - intros E. apply (content_hash_correct SampleDigest.sha id plain empty columns ["notes"]) in E;
      [|apply SampleDigest.sha_ok|repeat constructor; vm_compute; reflexivity..|].
    + destruct E as [_ E]. specialize (E "notes" ltac:(left)). vm_compute in E. discriminate E.
    + apply SampleDigest.collision_freeb_sound. vm_compute. reflexivity.
Defined.
