(* ===== verification/UrlGuard.v ===== *)
(** * The outbound-URL guard

    [er-server/src/urlguard.rs].  The URL parser and the resolver are
    parameters; [core::net]'s addresses and their text are modelled: an IPv4
    address is a [u32] and an IPv6 address a [u128], both as [Z]. *)

From S2P Require Import Prelude Ids LakeClock Text.
From Stdlib Require Import Ascii.
Local Open Scope Z_scope.

(** ** Definitions *)

Inductive IpAddr := V4 (n : Z) | V6 (n : Z).

#[global] Instance IpAddr_eq_dec : EqDecision IpAddr.
Proof. solve_decision. Defined.

(** [Ipv4Addr::octets] and [Ipv6Addr::segments], by position. *)
Definition octet (n : Z) (i : Z) : Z := Z.land (Z.shiftr n (24 - 8 * i)) 255.
Definition segment (n : Z) (i : Z) : Z := Z.land (Z.shiftr n (112 - 16 * i)) 65535.

(** The predicates of [Ipv4Addr]. *)
Definition v4_loopback (n : Z) : bool := octet n 0 =? 127.
Definition v4_link_local (n : Z) : bool := (octet n 0 =? 169) && (octet n 1 =? 254).
Definition v4_private (n : Z) : bool :=
  (octet n 0 =? 10)
  || (octet n 0 =? 172) && (16 <=? octet n 1) && (octet n 1 <=? 31)
  || (octet n 0 =? 192) && (octet n 1 =? 168).
Definition v4_broadcast (n : Z) : bool := n =? 2 ^ 32 - 1.
Definition v4_multicast (n : Z) : bool := (224 <=? octet n 0) && (octet n 0 <=? 239).
Definition unspecified (n : Z) : bool := n =? 0.

(** The predicates of [Ipv6Addr]. *)
Definition v6_loopback (n : Z) : bool := n =? 1.
Definition v6_multicast (n : Z) : bool := Z.shiftr n 120 =? 255.

(** [to_ipv4_mapped().or_else(|| to_ipv4())]: [::ffff:a.b.c.d] and [::a.b.c.d]. *)
Definition to_ipv4_mapped (n : Z) : option Z :=
  if Z.shiftr n 32 =? 65535 then Some (Z.land n (2 ^ 32 - 1)) else None.
Definition to_ipv4 (n : Z) : option Z :=
  if (Z.shiftr n 32 =? 0) || (Z.shiftr n 32 =? 65535) then Some (Z.land n (2 ^ 32 - 1)) else None.

Definition unwrap_v4 (addr : IpAddr) : IpAddr :=
  match addr with
  | V6 n =>
      match to_ipv4_mapped n with
      | Some v => V4 v
      | None => match to_ipv4 n with Some v => V4 v | None => V6 n end
      end
  | V4 n => V4 n
  end.

Definition v4_reason (n : Z) : option string :=
  if v4_loopback n then Some "a loopback address"
  else if v4_link_local n then Some "a link-local address"
  else if v4_private n then Some "a private address"
  else if unspecified n then Some "the unspecified address"
  else if v4_broadcast n || v4_multicast n then Some "a broadcast or multicast address"
  else if (octet n 0 =? 100) && ((64 <=? octet n 1) && (octet n 1 <? 128))
  then Some "a carrier-grade NAT address"
  else None.

Definition v6_reason (n : Z) : option string :=
  if v6_loopback n then Some "a loopback address"
  else if unspecified n then Some "the unspecified address"
  else if v6_multicast n then Some "a multicast address"
  else if Z.land (segment n 0) 65472 =? 65152 then Some "a link-local address"
  else if Z.land (segment n 0) 65024 =? 64512 then Some "a unique-local address"
  else None.

Definition blocked_reason (addr : IpAddr) : option string :=
  let early :=
    match addr with
    | V6 n => if v6_loopback n then Some "a loopback address"
              else if unspecified n then Some "the unspecified address" else None
    | V4 _ => None
    end in
  match early with
  | Some reason => Some reason
  | None => match unwrap_v4 addr with V4 n => v4_reason n | V6 n => v6_reason n end
  end.

(** *** The text of an address: [IpAddr::from_str]

    A reader takes the text left and gives a value and the rest; a reader that
    fails consumes nothing. *)

Definition reader (A : Type) : Type := string → option (A * string).

Definition to_digit (radix : Z) (c : ascii) : option Z :=
  let n := Z.of_N (N_of_ascii c) in
  let d := if (48 <=? n) && (n <=? 57) then n - 48
           else if (97 <=? n) && (n <=? 122) then n - 87
           else if (65 <=? n) && (n <=? 90) then n - 55 else radix in
  if d <? radix then Some d else None.

(** The digits ahead: their value, their number, the rest; [None] past the
    maximum. *)
Fixpoint read_digits (radix : Z) (max_digits count : nat) (acc : Z) (s : string) :
    option (Z * nat * string) :=
  match s with
  | EmptyString => Some (acc, count, s)
  | String c s' =>
      match to_digit radix c with
      | None => Some (acc, count, s)
      | Some d =>
          if (max_digits <? S count)%nat then None
          else read_digits radix max_digits (S count) (acc * radix + d) s'
      end
  end.

Definition read_number (radix : Z) (max_digits : nat) (allow_zero_prefix : bool) (bound : Z) :
    reader Z := λ s,
  let leading := match s with String "0" _ => true | _ => false end in
  '(v, count, rest) ← read_digits radix max_digits 0 0 s;
  if (count =? 0)%nat then None
  else if negb allow_zero_prefix && leading && (1 <? count)%nat then None
  else if v <? bound then Some (v, rest) else None.

Definition read_char (c : ascii) : reader unit := λ s,
  match s with String c' s => if decide (c' = c) then Some (tt, s) else None | _ => None end.

(** A separator before every item but the first. *)
Definition read_separator {A} (c : ascii) (i : nat) (inner : reader A) : reader A := λ s,
  if (i =? 0)%nat then inner s else '(_, s) ← read_char c s; inner s.

Definition read_octet (i : nat) : reader Z :=
  read_separator "." i (read_number 10 3 false 256).

Definition read_ipv4 : reader Z := λ s,
  '(a, s) ← read_octet 0 s; '(b, s) ← read_octet 1 s;
  '(c, s) ← read_octet 2 s; '(d, s) ← read_octet 3 s;
  Some (((a * 256 + b) * 256 + c) * 256 + d, s).

(** Up to [left] groups from position [i]: the groups, whether an IPv4 address
    ended them, the rest. *)
Fixpoint read_groups (left i : nat) (s : string) : list Z * bool * string :=
  match left with
  | 0%nat => ([], false, s)
  | S left' =>
      match (if (1 <? left)%nat then read_separator ":" i read_ipv4 s else None) with
      | Some (v4, s) => ([v4 / 65536; v4 mod 65536], true, s)
      | None =>
          match read_separator ":" i (read_number 16 4 true 65536) s with
          | Some (g, s) => let '(gs, b, s) := read_groups left' (S i) s in (g :: gs, b, s)
          | None => ([], false, s)
          end
      end
  end.

Definition of_groups (gs : list Z) : Z := foldl (λ acc g, acc * 65536 + g) 0 gs.

Definition read_ipv6 : reader Z := λ s,
  let '(head, head_ipv4, s) := read_groups 8 0 s in
  if (length head =? 8)%nat then Some (of_groups head, s)
  else if head_ipv4 : bool then None
  else
    '(_, s) ← read_char ":" s; '(_, s) ← read_char ":" s;
    let '(tail, _, s) := read_groups (7 - length head) 0 s in
    Some (of_groups (head ++ replicate (8 - length head - length tail) 0 ++ tail), s).

Definition parse_ip (s : string) : option IpAddr :=
  let all {A} (r : option (A * string)) : option A :=
    match r with Some (v, EmptyString) => Some v | _ => None end in
  match read_ipv4 s with
  | Some r => V4 <$> all (Some r)
  | None => V6 <$> all (read_ipv6 s)
  end.

(** *** The guard *)

Inductive Egress := Guarded | Unguarded.

Inductive UrlRejection :=
| Unparseable
| Scheme (scheme : string)
| Credentials
| NoHost
| BlockedAddress (host : string) (addr : IpAddr) (reason : string).

(** What the guard reads of a parsed [reqwest::Url]. *)
Record Url := mkUrl {
  scheme : string;
  username : string;
  password : option string;
  host_str : option string;
  port_or_known_default : option Z;
}.

(** [trim_start_matches(char)] and [trim_end_matches(char)]. *)
Fixpoint trim_start_char (c : ascii) (s : string) : string :=
  match s with
  | String c' s' => if decide (c' = c) then trim_start_char c s' else s
  | EmptyString => s
  end.

Fixpoint trim_end_char (c : ascii) (s : string) : string :=
  match s with
  | EmptyString => s
  | String c' s' =>
      match trim_end_char c s' with
      | EmptyString => if decide (c' = c) then EmptyString else String c' EmptyString
      | t => String c' t
      end
  end.

Section guard.
Context (parse_url : string → option Url)                     (* [reqwest::Url::parse] *)
        (lookup_host : string → Z → option (list IpAddr)).     (* [tokio::net::lookup_host] *)

Definition check_static (url : string) : result Url UrlRejection :=
  match parse_url (trim url) with
  | None => Err Unparseable
  | Some parsed =>
      if decide (scheme parsed ≠ "https") then Err (Scheme (scheme parsed))
      else if decide (username parsed ≠ EmptyString ∨ password parsed ≠ None) then Err Credentials
      else match host_str parsed with
           | None | Some EmptyString => Err NoHost
           | Some _ => Ok parsed
           end
  end.

(** The loop over the resolved addresses. *)
Fixpoint first_blocked (host : string) (addrs : list IpAddr) : result unit UrlRejection :=
  match addrs with
  | [] => Ok tt
  | addr :: addrs =>
      match blocked_reason addr with
      | Some reason => Err (BlockedAddress host addr reason)
      | None => first_blocked host addrs
      end
  end.

Definition host_of (parsed : Url) : string :=
  trim_end_char "]" (trim_start_char "[" (default EmptyString (host_str parsed))).

Definition check (url : string) (egress : Egress) : result unit UrlRejection :=
  match egress with
  | Unguarded => Ok tt
  | Guarded =>
      match check_static url with
      | Err e => Err e
      | Ok parsed =>
          let host := host_of parsed in
          match parse_ip host with
          | Some addr =>
              match blocked_reason addr with
              | Some reason => Err (BlockedAddress host addr reason)
              | None => Ok tt
              end
          | None =>
              match lookup_host host (default 443 (port_or_known_default parsed)) with
              | None => Ok tt
              | Some addrs => first_blocked host addrs
              end
          end
      end
  end.
End guard.

Example parse_ip_known :
  parse_ip "169.254.169.254" = Some (V4 2852039166)
  ∧ parse_ip "::1" = Some (V6 1) ∧ parse_ip "::" = Some (V6 0)
  ∧ parse_ip "::ffff:127.0.0.1" = Some (V6 (65535 * 2 ^ 32 + 2130706433))
  ∧ parse_ip "fe80::1:2" = Some (V6 (65152 * 2 ^ 112 + 65536 + 2))
  ∧ parse_ip "1:2:3:4:5:6:7:8" = Some (V6 5192455318486707404433266433261576)
  ∧ parse_ip "1:2:3:4:5:6:7::" = Some (V6 5192455318486707404433266433261568)
  ∧ parse_ip "010.0.0.1" = None ∧ parse_ip "256.0.0.1" = None ∧ parse_ip "1.2.3" = None
  ∧ parse_ip "::1.2.3.4:5" = None ∧ parse_ip "example.com" = None.
Proof. vm_compute. repeat split. Qed.

(** ** The forbidden networks *)

(** [n] is in the network of the first [len] bits of [base], of [w]. *)
Definition in_net (w : Z) (net : Z * Z) (n : Z) : Prop :=
  n / 2 ^ (w - net.2) = net.1 / 2 ^ (w - net.2).

Definition v4 (a b c d : Z) : Z := ((a * 256 + b) * 256 + c) * 256 + d.

Definition V4_NETS : list (Z * Z) :=
  [(v4 127 0 0 0, 8); (v4 169 254 0 0, 16); (v4 10 0 0 0, 8); (v4 172 16 0 0, 12);
   (v4 192 168 0 0, 16); (v4 0 0 0 0, 32); (v4 255 255 255 255, 32); (v4 224 0 0 0, 4);
   (v4 100 64 0 0, 10)].

(** [fe80::/10], [fc00::/7] and [ff00::/8]. *)
Definition V6_NETS : list (Z * Z) :=
  [(65152 * 2 ^ 112, 10); (64512 * 2 ^ 112, 7); (65280 * 2 ^ 112, 8)].

(** [::/96] and [::ffff:0:0/96]: an IPv4 address in an IPv6 one. *)
Definition EMBEDDED : list (Z * Z) := [(0, 96); (65535 * 2 ^ 32, 96)].

Definition v4_forbidden (n : Z) : Prop := ∃ net, net ∈ V4_NETS ∧ in_net 32 net n.

Definition forbidden (addr : IpAddr) : Prop :=
  match addr with
  | V4 n => v4_forbidden n
  | V6 n =>
      n = 0 ∨ n = 1
      ∨ (∃ net, net ∈ V6_NETS ∧ in_net 128 net n)
      ∨ (∃ net, net ∈ EMBEDDED ∧ in_net 128 net n) ∧ v4_forbidden (n mod 2 ^ 32)
  end.

Definition addr_ok (addr : IpAddr) : Prop :=
  match addr with V4 n => 0 ≤ n < 2 ^ 32 | V6 n => 0 ≤ n < 2 ^ 128 end.

(** ** Lemmas *)

Lemma octet_0 n : 0 ≤ n < 2 ^ 32 → octet n 0 = n / 2 ^ 24.
Proof.
  intros Hn. unfold octet. rewrite Z.shiftr_div_pow2 by lia.
  change 255 with (Z.ones 8). rewrite Z.land_ones by lia.
  change (24 - 8 * 0) with 24. apply Z.mod_small.
  change (2 ^ 24) with 16777216. change (2 ^ 32) with 4294967296 in Hn.
  change (2 ^ 8) with 256. div_lia.
Qed.

Lemma octet_1 n : octet n 1 = (n / 2 ^ 16) mod 256.
Proof.
  unfold octet. rewrite Z.shiftr_div_pow2 by lia. change 255 with (Z.ones 8).
  by rewrite Z.land_ones by lia.
Qed.

(** A quotient is an interval. *)
Lemma div_eq_iff n k b : 0 < k → n / k = b ↔ b * k ≤ n < (b + 1) * k.
Proof.
  intros Hk. pose proof (Z.div_mod n k) as Hd. pose proof (Z.mod_pos_bound n k Hk). split.
  - intros <-. lia.
  - intros Hb. nia.
Qed.

Lemma in_net_iff w base len n :
  0 ≤ len ≤ w → in_net w (base, len) n ↔
  base / 2 ^ (w - len) * 2 ^ (w - len) ≤ n < (base / 2 ^ (w - len) + 1) * 2 ^ (w - len).
Proof. intros Hl. unfold in_net. simpl. apply div_eq_iff. apply Z.pow_pos_nonneg; lia. Qed.

(** Evaluate the bounds of literal networks. *)
Ltac eval_nets :=
  repeat match goal with
  | |- context [?base / 2 ^ (?w - ?l) * 2 ^ (?w - ?l)] =>
      let t := constr:(base / 2 ^ (w - l) * 2 ^ (w - l)) in
      let v := eval vm_compute in t in replace t with v by (vm_compute; reflexivity)
  | |- context [(?base / 2 ^ (?w - ?l) + 1) * 2 ^ (?w - ?l)] =>
      let t := constr:((base / 2 ^ (w - l) + 1) * 2 ^ (w - l)) in
      let v := eval vm_compute in t in replace t with v by (vm_compute; reflexivity)
  end.

(** The two leading octets as quotients. *)
Lemma octets n :
  0 ≤ n < 2 ^ 32 →
  octet n 0 * 16777216 + octet n 1 * 65536 ≤ n < octet n 0 * 16777216 + (octet n 1 + 1) * 65536
  ∧ 0 ≤ octet n 0 < 256 ∧ 0 ≤ octet n 1 < 256.
Proof.
  intros Hn. rewrite octet_0, octet_1 by done.
  change (2 ^ 32) with 4294967296 in Hn. change (2 ^ 24) with 16777216. change (2 ^ 16) with 65536.
  div_lia.
Qed.

Lemma v4_reason_spec n : 0 ≤ n < 2 ^ 32 → v4_reason n ≠ None ↔ v4_forbidden n.
Proof.
  intros Hn.
  assert (v4_reason n ≠ None ↔
    (v4_loopback n || v4_link_local n || v4_private n || unspecified n || v4_broadcast n
     || v4_multicast n || (octet n 0 =? 100) && ((64 <=? octet n 1) && (octet n 1 <? 128))) = true)
    as ->.
  { unfold v4_reason. destruct (v4_loopback n), (v4_link_local n), (v4_private n),
      (unspecified n), (v4_broadcast n), (v4_multicast n), (_ && _); simpl; by split. }
  unfold v4_forbidden, V4_NETS, v4_loopback, v4_link_local, v4_private, unspecified,
    v4_broadcast, v4_multicast.
  repeat first [rewrite orb_true_iff|rewrite andb_true_iff].
  rewrite !Z.eqb_eq, !Z.leb_le, Z.ltb_lt.
  rewrite <-Exists_exists, !Exists_cons, Exists_nil, !in_net_iff by lia.
  eval_nets. change (2 ^ 32) with 4294967296 in *.
  pose proof (octets n Hn) as (Ho & H0 & H1). generalize dependent (octet n 0). intros a.
  generalize dependent (octet n 1). intros b. lia.
Qed.

(** Masking the low bits of a segment leaves its quotient. *)
Lemma land_high x k :
  0 ≤ k ≤ 16 → 0 ≤ x < 2 ^ 16 →
  Z.land x (Z.shiftl (Z.ones (16 - k)) k) = x / 2 ^ k * 2 ^ k.
Proof.
  intros Hk Hx. rewrite <-(Z.shiftl_mul_pow2 (x / 2 ^ k)), <-Z.shiftr_div_pow2 by lia.
  assert (Z.shiftr x k = Z.land (Z.shiftr x k) (Z.ones (16 - k))) as ->.
  { rewrite Z.land_ones, Z.shiftr_div_pow2 by lia. symmetry. apply Z.mod_small.
    assert (2 ^ 16 = 2 ^ k * 2 ^ (16 - k)) as E by (rewrite <-Z.pow_add_r by lia; f_equal; lia).
    split; [apply Z.div_pos; [lia|apply Z.pow_pos_nonneg; lia]|].
    apply Z.div_lt_upper_bound; [apply Z.pow_pos_nonneg; lia|lia]. }
  apply Z.bits_inj'. intros i Hi. rewrite Z.land_spec, !Z.shiftl_spec, Z.land_spec by lia.
  destruct (Z_lt_le_dec i k).
  - rewrite !(Z.testbit_neg_r _ (i - k)) by lia. by rewrite andb_false_r.
  - rewrite Z.shiftr_spec by lia. by replace (i - k + k) with i by lia.
Qed.

Lemma segment_0 n : 0 ≤ n < 2 ^ 128 → segment n 0 = n / 2 ^ 112 ∧ 0 ≤ segment n 0 < 2 ^ 16.
Proof.
  intros Hn. unfold segment. rewrite Z.shiftr_div_pow2 by lia. change 65535 with (Z.ones 16).
  rewrite Z.land_ones by lia. change (112 - 16 * 0) with 112.
  assert (0 ≤ n / 2 ^ 112 < 2 ^ 16) as H.
  { split; [apply Z.div_pos; lia|]. apply Z.div_lt_upper_bound; [lia|].
    change (2 ^ 112 * 2 ^ 16) with (2 ^ 128). lia. }
  by rewrite Z.mod_small.
Qed.

Lemma v6_reason_spec n :
  0 ≤ n < 2 ^ 128 →
  v6_reason n ≠ None ↔ n = 0 ∨ n = 1 ∨ ∃ net, net ∈ V6_NETS ∧ in_net 128 net n.
Proof.
  intros Hn.
  assert (v6_reason n ≠ None ↔
    (v6_loopback n || unspecified n || v6_multicast n || (Z.land (segment n 0) 65472 =? 65152)
     || (Z.land (segment n 0) 65024 =? 64512)) = true) as ->.
  { unfold v6_reason. destruct (v6_loopback n), (unspecified n), (v6_multicast n),
      (_ =? 65152), (_ =? 64512); simpl; by split. }
  unfold v6_loopback, unspecified, v6_multicast, V6_NETS.
  rewrite !orb_true_iff, !Z.eqb_eq, <-Exists_exists, !Exists_cons, Exists_nil.
  destruct (segment_0 n Hn) as [Hseg Hb].
  change 65472 with (Z.shiftl (Z.ones (16 - 6)) 6). change 65024 with (Z.shiftl (Z.ones (16 - 9)) 9).
  rewrite !land_high, Z.shiftr_div_pow2, !in_net_iff, (div_eq_iff n (2 ^ 120)) by lia. eval_nets.
  assert (segment n 0 * 2 ^ 112 ≤ n < (segment n 0 + 1) * 2 ^ 112) as Hq
    by (apply div_eq_iff; [lia|done]).
  generalize dependent (segment n 0). intros q _ Hb Hq.
  assert (q / 2 ^ 6 * 2 ^ 6 = 65152 ↔ 65152 ≤ q < 65216) as ->
    by (change (2 ^ 6) with 64; div_lia).
  assert (q / 2 ^ 9 * 2 ^ 9 = 64512 ↔ 64512 ≤ q < 65024) as ->
    by (change (2 ^ 9) with 512; div_lia).
  change (2 ^ 112) with 5192296858534827628530496329220096 in Hq.
  change (2 ^ 120) with 1329227995784915872903807060280344576. lia.
Qed.

(** Unwrapping finds the embedded IPv4 address. *)
Lemma unwrap_v4_spec n :
  0 ≤ n < 2 ^ 128 →
  (∃ net, net ∈ EMBEDDED ∧ in_net 128 net n) ∧ unwrap_v4 (V6 n) = V4 (n mod 2 ^ 32)
  ∨ (¬ ∃ net, net ∈ EMBEDDED ∧ in_net 128 net n) ∧ unwrap_v4 (V6 n) = V6 n.
Proof.
  intros Hn. unfold unwrap_v4, to_ipv4_mapped, to_ipv4.
  rewrite Z.shiftr_div_pow2 by lia. change (2 ^ 32 - 1) with (Z.ones 32).
  rewrite Z.land_ones by lia.
  assert ((∃ net, net ∈ EMBEDDED ∧ in_net 128 net n) ↔ n / 2 ^ 32 = 0 ∨ n / 2 ^ 32 = 65535) as ->.
  { unfold EMBEDDED. rewrite <-Exists_exists, !Exists_cons, Exists_nil. unfold in_net; simpl.
    change (128 - 96) with 32. rewrite Z.div_mul by lia. rewrite Z.div_0_l by lia. tauto. }
  destruct (Z.eqb_spec (n / 2 ^ 32) 65535); [left; auto|].
  destruct (Z.eqb_spec (n / 2 ^ 32) 0); simpl; [left; auto|right; split; [lia|done]].
Qed.

Lemma blocked_reason_spec addr : addr_ok addr → blocked_reason addr ≠ None ↔ forbidden addr.
Proof.
  unfold blocked_reason. destruct addr as [n|n]; intros Hn; simpl in Hn.
  { by apply v4_reason_spec. }
  unfold forbidden, v6_loopback, unspecified.
  destruct (Z.eqb_spec n 1) as [->|H1]; [by split; auto|].
  destruct (Z.eqb_spec n 0) as [->|H0]; [by split; auto|].
  destruct (unwrap_v4_spec n Hn) as [[He ->]|[He ->]].
  - rewrite v4_reason_spec by (apply Z.mod_pos_bound; lia).
    assert (¬ ∃ net, net ∈ V6_NETS ∧ in_net 128 net n) as Hno; [|tauto].
    intros Hnet. rewrite <-Exists_exists in He, Hnet. unfold EMBEDDED, V6_NETS in *.
    rewrite !Exists_cons, Exists_nil, !in_net_iff in He by lia.
    rewrite !Exists_cons, Exists_nil, !in_net_iff in Hnet by lia. revert He Hnet. eval_nets. lia.
  - rewrite v6_reason_spec by done. tauto.
Qed.

Lemma first_blocked_spec host addrs :
  match first_blocked host addrs with
  | Ok _ => ∀ a, a ∈ addrs → blocked_reason a = None
  | Err e => ∃ l a l' r, e = BlockedAddress host a r ∧ addrs = l ++ a :: l'
      ∧ blocked_reason a = Some r ∧ ∀ b, b ∈ l → blocked_reason b = None
  end.
Proof.
  induction addrs as [|a addrs IH]; simpl; [by intros ? ?%elem_of_nil|].
  destruct (blocked_reason a) as [r|] eqn:E.
  - exists [], a, addrs, r. split_and!; try done. by intros ? ?%elem_of_nil.
  - destruct (first_blocked host addrs).
    + intros b [->|?]%elem_of_cons; auto.
    + destruct IH as (l & a' & l' & r & -> & -> & ? & Hl). exists (a :: l), a', l', r.
      split_and!; try done. intros b [->|?]%elem_of_cons; auto.
Qed.

(** ** Properties *)

(** An address is refused exactly when it is in a forbidden network:
    loopback, link-local, the private ranges, the unspecified and broadcast
    addresses, multicast and carrier-grade NAT for IPv4; loopback, unspecified,
    multicast, link-local and unique-local for IPv6; and an IPv6 address that
    is IPv4-mapped or IPv4-compatible is judged by the IPv4 address in it. *)
Theorem blocked_reason_correct addr :
  addr_ok addr → is_Some (blocked_reason addr) ↔ forbidden addr.
Proof. intros Hok. rewrite <-blocked_reason_spec by done. by rewrite not_eq_None_Some. Qed.

Lemma blocked_reason_correct_witness :
  forbidden (V6 (65535 * 2 ^ 32 + v4 169 254 169 254)) ∧ ¬ forbidden (V4 (v4 93 184 216 34)).
Proof.
  split.
  - apply blocked_reason_correct; [vm_compute; done|]. vm_compute. by eexists.
  - intros Hf. apply blocked_reason_correct in Hf; [|vm_compute; done].
    vm_compute in Hf. by destruct Hf.
Defined.

(** A guarded destination passes exactly when its URL parses, is https,
    carries no credentials and names a host, and then no address it stands for
    is blocked: the address itself when the host is an address literal, brackets
    aside, and otherwise every address the host resolves to (none when it does
    not resolve).  A rejection for an address names the first blocked one. *)
Theorem check_correct parse_url lookup_host url :
  match check parse_url lookup_host url Guarded with
  | Ok _ =>
      ∃ u, parse_url (trim url) = Some u ∧ scheme u = "https" ∧ username u = EmptyString
        ∧ password u = None ∧ (∃ c h, host_str u = Some (String c h))
        ∧ match parse_ip (host_of u) with
          | Some a => blocked_reason a = None
          | None => ∀ addrs a,
              lookup_host (host_of u) (default 443 (port_or_known_default u)) = Some addrs →
              a ∈ addrs → blocked_reason a = None
          end
  | Err Unparseable => parse_url (trim url) = None
  | Err (Scheme s) => ∃ u, parse_url (trim url) = Some u ∧ s = scheme u ∧ s ≠ "https"
  | Err Credentials => ∃ u, parse_url (trim url) = Some u ∧ scheme u = "https"
      ∧ (username u ≠ EmptyString ∨ password u ≠ None)
  | Err NoHost => ∃ u, parse_url (trim url) = Some u ∧ scheme u = "https"
      ∧ (host_str u = None ∨ host_str u = Some EmptyString)
  | Err (BlockedAddress h a r) =>
      blocked_reason a = Some r ∧ ∃ u, parse_url (trim url) = Some u ∧ h = host_of u
        ∧ (parse_ip h = Some a
           ∨ parse_ip h = None ∧ ∃ l l',
               lookup_host h (default 443 (port_or_known_default u)) = Some (l ++ a :: l')
               ∧ ∀ b, b ∈ l → blocked_reason b = None)
  end.
Proof.
  unfold check, check_static. destruct (parse_url (trim url)) as [u|]; [|done].
  case_decide as Hs; [by exists u|]. apply dec_stable in Hs || idtac.
  case_decide as Hc; [by exists u|].
  assert (username u = EmptyString ∧ password u = None) as [Hu Hp].
  { destruct (decide (username u = EmptyString)), (password u); naive_solver. }
  destruct (host_str u) as [[|c h]|] eqn:Eh; [exists u; auto| |exists u; auto].
  destruct (parse_ip (host_of u)) as [a|] eqn:Ei.
  - destruct (blocked_reason a) as [r|] eqn:Eb.
    + split; [done|]. exists u. auto.
    + exists u. rewrite Ei. split_and!; eauto.
  - destruct (lookup_host _ _) as [addrs|] eqn:El.
    2:{ exists u. rewrite Ei. split_and!; eauto. intros ? ? Hl. congruence. }
    pose proof (first_blocked_spec (host_of u) addrs) as Hf.
    destruct (first_blocked (host_of u) addrs) as [?|e].
    + exists u. rewrite Ei. split_and!; eauto. intros addrs' a Hl. rewrite El in Hl.
      injection Hl as <-. auto.
    + destruct Hf as (l & a & l' & r & -> & -> & Hr & Hl). split; [done|]. exists u.
      split; [done|]. split; [done|]. right. split; [done|]. exists l, l'. auto.
Qed.

(** The guard unwraps the mapped and the compatible form only.  The NAT64
    form [64:ff9b::a.b.c.d] and the 6to4 form [2002:a.b:c.d::] of the metadata
    address pass, though the documentation speaks of IPv4-in-IPv6 forms as
    such. *)
Theorem nat64_metadata_passes :
  parse_ip "64:ff9b::169.254.169.254" = Some (V6 (100 * 2 ^ 112 + 65435 * 2 ^ 96 + v4 169 254 169 254))
  ∧ blocked_reason (V6 (100 * 2 ^ 112 + 65435 * 2 ^ 96 + v4 169 254 169 254)) = None
  ∧ blocked_reason (V6 (8194 * 2 ^ 112 + v4 169 254 169 254 * 2 ^ 80)) = None
  ∧ is_Some (blocked_reason (V4 (v4 169 254 169 254))).
Proof. vm_compute. repeat split; by eexists. Qed.
