(* ===== verification/Cron.v ===== *)
(** * Cron expressions

    [er-server/src/cron.rs].  A [u32] is a [Z]; an addition past its range is
    a panic ([None]), as in a build with overflow checks. *)

From S2P Require Import Prelude Ids LakeClock Text.
From Stdlib Require Import Ascii.
Local Open Scope Z_scope.

(** ** Definitions *)

(** [mask] has bit [i] set when [min + i] matches. *)
Record Field := mkField { mask : Z; wildcard : bool }.

Definition field_matches (f : Field) (value min : Z) : bool :=
  if value <? min then false
  else let offset := value - min in (offset <? 64) && Z.testbit (mask f) offset.

Record Cron := mkCron {
  minute : Field; hour : Field; day_of_month : Field; month : Field; day_of_week : Field;
}.

Inductive CronError :=
| FieldCount (got : nat)
| BadField (field value : string)
| Range (field value : string) (min max : Z)
| ZeroStep (field value : string).

(** [str::parse::<u32>]: an optional plus, digits, no overflow. *)
Definition parse_u32 (s : string) : option Z :=
  z ← match s with String "+"%char s => parse_unsigned s | _ => parse_unsigned s end;
  if z <? 2 ^ 32 then Some z else None.

(** One comma-separated term: wildcard, low, high and step. *)
Definition parse_term (spec field : string) (min max : Z) (term : string) :
    result (bool * Z * Z * Z) CronError :=
  let bad := BadField field spec in
  if decide (term = EmptyString) then Err bad
  else
    match
      match split_once "/"%char term with
      | Some (r, s) =>
          match parse_u32 s with
          | None => Err bad
          | Some step => if step =? 0 then Err (ZeroStep field spec) else Ok (r, step)
          end
      | None => Ok (term, 1)
      end
    with
    | Err e => Err e
    | Ok (range_part, step) =>
        match
          if decide (range_part = "*") then Ok (true, min, max)
          else
            match split_once "-"%char range_part with
            | Some (a, b) =>
                match parse_u32 a, parse_u32 b with
                | Some a, Some b => if b <? a then Err bad else Ok (false, a, b)
                | _, _ => Err bad
                end
            | None =>
                match parse_u32 range_part with
                | Some v => Ok (false, v, v)
                | None => Err bad
                end
            end
        with
        | Err e => Err e
        | Ok (wild, lo, hi) =>
            let '(lo, hi) :=
              if decide (field = "day-of-week")
              then (if lo =? 7 then 0 else lo, if hi =? 7 then 0 else hi)
              else (lo, hi) in
            if (lo <? min) || (max <? hi) then Err (Range field spec min max)
            else Ok (wild, lo, hi, step)
        end
    end.

(** [while v <= hi { mask |= 1 << (v - min); v += step; }]. *)
Fixpoint fill (fuel : nat) (mask v hi step min : Z) : option Z :=
  if v <=? hi then
    match fuel with
    | 0%nat => None
    | S fuel =>
        let mask := Z.lor mask (Z.shiftl 1 (v - min)) in
        if v + step <? 2 ^ 32 then fill fuel mask (v + step) hi step min else None
    end
  else Some mask.

(** The loop over the terms. *)
Fixpoint parse_terms (spec field : string) (min max : Z) (mask : Z) (wildcard : bool)
    (terms : list string) : option (result (Z * bool) CronError) :=
  match terms with
  | [] => Some (Ok (mask, wildcard))
  | term :: terms =>
      match parse_term spec field min max term with
      | Err e => Some (Err e)
      | Ok (wild, lo, hi, step) =>
          mask ← fill (Z.to_nat (hi - lo + 1)) mask lo hi step min;
          parse_terms spec field min max mask (wildcard || wild) terms
      end
  end.

Definition parse_field (spec field : string) (min max : Z) : option (result Field CronError) :=
  r ← parse_terms spec field min max 0 false (split_on ","%char spec);
  Some (match r with
        | Err e => Err e
        | Ok (mask, wildcard) =>
            if mask =? 0 then Err (BadField field spec) else Ok (mkField mask wildcard)
        end).

(** [Cron::parse]: the first field that fails stops it. *)
Definition parse (expr : string) : option (result Cron CronError) :=
  match split_whitespace 0 EmptyString expr with
  | [f0; f1; f2; f3; f4] =>
      r0 ← parse_field f0 "minute" 0 59;
      match r0 with
      | Err e => Some (Err e)
      | Ok minute =>
          r1 ← parse_field f1 "hour" 0 23;
          match r1 with
          | Err e => Some (Err e)
          | Ok hour =>
              r2 ← parse_field f2 "day-of-month" 1 31;
              match r2 with
              | Err e => Some (Err e)
              | Ok day_of_month =>
                  r3 ← parse_field f3 "month" 1 12;
                  match r3 with
                  | Err e => Some (Err e)
                  | Ok month =>
                      r4 ← parse_field f4 "day-of-week" 0 6;
                      match r4 with
                      | Err e => Some (Err e)
                      | Ok day_of_week =>
                          Some (Ok (mkCron minute hour day_of_month month day_of_week))
                      end
                  end
              end
          end
      end
  | fields => Some (Err (FieldCount (length fields)))
  end.

Definition cron_matches (c : Cron) (mi h dom mo dow : Z) : bool :=
  if negb (field_matches (minute c) mi 0) || negb (field_matches (hour c) h 0)
     || negb (field_matches (month c) mo 1)
  then false
  else
    let by_month_day := field_matches (day_of_month c) dom 1 in
    let by_week_day := field_matches (day_of_week c) dow 0 in
    match wildcard (day_of_month c), wildcard (day_of_week c) with
    | false, false => by_month_day || by_week_day
    | _, _ => by_month_day && by_week_day
    end.

(** [Cron::matches_at]: chrono's calendar accessors are parameters. *)
Definition matches_at {DateTime} (at_minute at_hour at_day at_month at_weekday : DateTime → Z)
    (c : Cron) (at_ : DateTime) : bool :=
  cron_matches c (at_minute at_) (at_hour at_) (at_day at_) (at_month at_) (at_weekday at_).

Example weekday_mornings :
  ∃ c, parse "*/15 8-10 * * 1-5" = Some (Ok c)
    ∧ cron_matches c 30 9 14 7 2 = true ∧ cron_matches c 31 9 14 7 2 = false
    ∧ cron_matches c 30 9 14 7 6 = false.
Proof. eexists. vm_compute. done. Qed.

(** Both day fields restricted: either one is enough. *)
Example either_day :
  ∃ c, parse "0 0 13 * 5" = Some (Ok c)
    ∧ cron_matches c 0 0 13 7 2 = true ∧ cron_matches c 0 0 14 7 5 = true
    ∧ cron_matches c 0 0 14 7 2 = false.
Proof. eexists. vm_compute. done. Qed.

(** ** The documented grammar and its meaning *)

Inductive CronRange := Star | One (a : Z) | Span (a b : Z).

(** A term: a range and the text after its slash, if any. *)
Definition CronTerm : Type := CronRange * option Z.

Definition print_u32 (n : Z) : string := decimal 20 n EmptyString.

Definition print_range (r : CronRange) : string :=
  match r with
  | Star => "*"
  | One a => print_u32 a
  | Span a b => print_u32 a +:+ String "-" (print_u32 b)
  end.

Definition print_term (t : CronTerm) : string :=
  match t.2 with
  | None => print_range t.1
  | Some step => print_range t.1 +:+ String "/" (print_u32 step)
  end.

Definition print_field (ts : list CronTerm) : string := join_char "," (print_term <$> ts).

(** The bounds of a field and of its terms; [7] is a Sunday. *)
Definition range_wf (field : string) (min max : Z) (r : CronRange) : Prop :=
  match r with
  | Star => True
  | One a => min ≤ a ≤ max ∨ field = "day-of-week" ∧ a = 7
  | Span a b => min ≤ a ≤ b ∧ b ≤ max
  end.

Definition term_wf (field : string) (min max : Z) (t : CronTerm) : Prop :=
  range_wf field min max t.1 ∧ ∀ step, t.2 = Some step → 1 ≤ step < 2 ^ 32 - 64.

Definition term_step (t : CronTerm) : Z := default 1 t.2.

(** The values a term admits. *)
Definition term_admits (field : string) (min max : Z) (t : CronTerm) (v : Z) : Prop :=
  match t.1 with
  | Star => min ≤ v ≤ max ∧ (term_step t | v - min)
  | One a => v = if decide (field = "day-of-week" ∧ a = 7) then 0 else a
  | Span a b => a ≤ v ≤ b ∧ (term_step t | v - a)
  end.

Definition is_star (t : CronTerm) : bool := match t.1 with Star => true | _ => false end.

(** A field is a non-empty list of terms. *)
Definition field_wf (field : string) (min max : Z) (ts : list CronTerm) : Prop :=
  ts ≠ [] ∧ Forall (term_wf field min max) ts.

Definition admits (field : string) (min max : Z) (ts : list CronTerm) (v : Z) : Prop :=
  ∃ t, t ∈ ts ∧ term_admits field min max t v.

Record CronExpr := mkExpr {
  e_minute : list CronTerm; e_hour : list CronTerm; e_dom : list CronTerm;
  e_month : list CronTerm; e_dow : list CronTerm;
}.

Definition print_cron (e : CronExpr) : string :=
  join_char " " (print_field <$> [e_minute e; e_hour e; e_dom e; e_month e; e_dow e]).

Definition expr_wf (e : CronExpr) : Prop :=
  field_wf "minute" 0 59 (e_minute e) ∧ field_wf "hour" 0 23 (e_hour e)
  ∧ field_wf "day-of-month" 1 31 (e_dom e) ∧ field_wf "month" 1 12 (e_month e)
  ∧ field_wf "day-of-week" 0 6 (e_dow e).

(** cron(8)'s firing rule. *)
Definition fires (e : CronExpr) (mi h dom mo dow : Z) : Prop :=
  let by_dom := admits "day-of-month" 1 31 (e_dom e) dom in
  let by_dow := admits "day-of-week" 0 6 (e_dow e) dow in
  admits "minute" 0 59 (e_minute e) mi ∧ admits "hour" 0 23 (e_hour e) h
  ∧ admits "month" 1 12 (e_month e) mo
  ∧ if existsb is_star (e_dom e) || existsb is_star (e_dow e)
    then by_dom ∧ by_dow else by_dom ∨ by_dow.

(** ** The mask loop *)

Lemma fill_spec fuel mask v hi step min :
  0 ≤ min ≤ v → 0 < step → hi + step < 2 ^ 32 → hi - v < Z.of_nat fuel →
  ∃ m, fill fuel mask v hi step min = Some m
    ∧ ∀ i, 0 ≤ i → Z.testbit m i = true ↔
        Z.testbit mask i = true ∨ v ≤ i + min ≤ hi ∧ (step | i + min - v).
Proof.
  revert mask v. induction fuel as [|fuel IH]; intros mask v Hv Hs Hhi Hf; simpl.
  { destruct (Z.leb_spec v hi); [lia|]. exists mask. split; [done|].
    intros i _. split; [by left|]. intros [?|[? _]]; [done|lia]. }
  destruct (Z.leb_spec v hi) as [Hle|].
  2:{ exists mask. split; [done|]. intros i _. split; [by left|]. intros [?|[? _]]; [done|lia]. }
  destruct (Z.ltb_spec (v + step) (2 ^ 32)); [|lia].
  edestruct (IH (Z.lor mask (Z.shiftl 1 (v - min))) (v + step)) as (m & -> & Hm); [lia..|].
  exists m. split; [done|]. intros i Hi. rewrite Hm by done.
  rewrite Z.lor_spec, orb_true_iff, Z.shiftl_spec by done.
  replace (Z.testbit 1 (i - (v - min))) with (i - (v - min) =? 0).
  2:{ destruct (Z.eqb_spec (i - (v - min)) 0) as [->|]; [done|].
      destruct (Z_lt_le_dec (i - (v - min)) 0); [by rewrite Z.testbit_neg_r|].
      rewrite Z.bits_above_log2; simpl; lia. }
  split.
  - intros [[?|E]|[? [k Hk]]]; [by left|right|right].
    + apply Z.eqb_eq in E. split; [lia|]. exists 0. lia.
    + split; [lia|]. exists (k + 1). lia.
  - intros [?|[? [k Hk]]]; [by auto|].
    destruct (Z.eq_dec k 0) as [->|].
    + left; right. apply Z.eqb_eq. lia.
    + right. assert (0 ≤ k) by nia. split; [nia|]. exists (k - 1). lia.
Qed.

(** What a parsed term puts into the mask. *)
Definition term_bits (p : bool * Z * Z * Z) (v : Z) : Prop :=
  let '(_, lo, hi, step) := p in lo ≤ v ≤ hi ∧ (step | v - lo).

Definition parsed_ok (min max : Z) (p : bool * Z * Z * Z) : Prop :=
  let '(_, lo, hi, step) := p in min ≤ lo ∧ hi ≤ max ∧ 0 < step < 2 ^ 32 - 64.

Lemma parse_terms_spec spec field min max mask wild terms ps :
  0 ≤ min → max < 64 →
  Forall2 (λ t p, parse_term spec field min max t = Ok p ∧ parsed_ok min max p) terms ps →
  ∃ m, parse_terms spec field min max mask wild terms
      = Some (Ok (m, wild || existsb (λ p, p.1.1.1) ps))
    ∧ ∀ i, 0 ≤ i → Z.testbit m i = true ↔
        Z.testbit mask i = true ∨ ∃ p, p ∈ ps ∧ term_bits p (i + min).
Proof.
  intros Hmin Hmax HF. revert mask wild.
  induction HF as [|t [[[w lo] hi] step] ts ps [E (Hlo & Hhi & Hst)] _ IH]; intros mask wild.
  { exists mask. simpl. rewrite orb_false_r. split; [done|]. intros. set_solver. }
  simpl. rewrite E.
  destruct (fill_spec (Z.to_nat (hi - lo + 1)) mask lo hi step min) as (m & -> & Hm); [lia..|].
  simpl. destruct (IH m (wild || w)) as (m' & -> & Hm').
  exists m'. split; [by rewrite orb_assoc|]. intros i Hi. rewrite Hm', Hm by done.
  setoid_rewrite elem_of_cons. split.
  - intros [[?|?]|(p & ? & ?)]; [by left|right; by eexists; split; [left|]|right; eauto].
  - intros [?|(p & [->|?] & ?)]; [by auto|by auto|right; eauto].
Qed.

(** ** The text of a term *)

Lemma print_u32_spec n :
  0 ≤ n < 2 ^ 32 →
  parse_u32 (print_u32 n) = Some n ∧ all_digits (print_u32 n) = true ∧ print_u32 n ≠ EmptyString.
Proof.
  intros Hn. unfold print_u32.
  assert (all_digits (decimal 20 n "") = true) as Hd by (apply decimal_all_digits; [lia|done]).
  assert (decimal 20 n "" ≠ EmptyString) as Hne by (apply decimal_nonempty; discriminate).
  split; [|split; assumption]. pose proof (decimal_parse 20 n EmptyString) as Hp.
  specialize (Hp ltac:(lia)).
  generalize dependent (decimal 20 n ""). intros [|c s] Hd Hne Hp; [done|]. simpl in Hd. apply andb_true_iff in Hd as [Hc _].
  assert (parse_u32 (String c s) = (z ← parse_digits 0 (String c s);
    if z <? 2 ^ 32 then Some z else None)) as ->.
  { unfold parse_u32. destruct c as [[] [] [] [] [] [] [] []]; try discriminate Hc; reflexivity. }
  rewrite Hp. simpl. by destruct (Z.ltb_spec n (2 ^ 32)); [|lia].
Qed.

Lemma print_u32_nonempty n : print_u32 n ≠ EmptyString.
Proof. apply decimal_nonempty. discriminate. Qed.

#[local] Opaque print_u32.

Lemma print_u32_contains c n : 0 ≤ n < 2 ^ 32 → is_digit c = false → contains c (print_u32 n) = false.
Proof. intros Hn Hc. apply contains_digits; [done|]. by apply print_u32_spec. Qed.

(** What [parse_term] makes of a printed term. *)
Definition parsed_of (field : string) (min max : Z) (t : CronTerm) : bool * Z * Z * Z :=
  match t.1 with
  | Star => (true, min, max, term_step t)
  | One a =>
      let a := if decide (field = "day-of-week" ∧ a = 7) then 0 else a in
      (false, a, a, term_step t)
  | Span a b => (false, a, b, term_step t)
  end.

(** The bounds of the five fields. *)
Definition bounds_ok (field : string) (min max : Z) : Prop :=
  0 ≤ min ≤ max ∧ max < 64 ∧ (field = "day-of-week" → min = 0 ∧ max = 6).

Lemma print_range_contains field min max r c :
  bounds_ok field min max → range_wf field min max r →
  is_digit c = false → c ≠ "*"%char → c ≠ "-"%char → contains c (print_range r) = false.
Proof.
  intros (Hb1 & Hb2 & Hb3) Hwf Hc Hc1 Hc2. destruct r as [|a|a b]; simpl in *.
  - by rewrite decide_False.
  - apply print_u32_contains; [|done]. lia.
  - rewrite contains_app. simpl. rewrite decide_False by done.
    rewrite !print_u32_contains; first [done|lia].
Qed.

Lemma print_range_nonempty r : print_range r ≠ EmptyString.
Proof.
  destruct r as [|a|a b]; simpl; [done|apply print_u32_nonempty|].
  pose proof (print_u32_nonempty a). by destruct (print_u32 a).
Qed.

Lemma print_u32_not_star n : 0 ≤ n < 2 ^ 32 → print_u32 n ≠ "*".
Proof. intros Hn E. pose proof (print_u32_contains "*" n Hn eq_refl) as H. by rewrite E in H. Qed.

(** The range part alone, with the step read already. *)
Lemma parse_range_spec spec field min max r step :
  bounds_ok field min max → range_wf field min max r → 1 ≤ step < 2 ^ 32 - 64 →
  match
    if decide (print_range r = "*") then Ok (true, min, max)
    else
      match split_once "-"%char (print_range r) with
      | Some (a, b) =>
          match parse_u32 a, parse_u32 b with
          | Some a, Some b => if b <? a then Err (BadField field spec) else Ok (false, a, b)
          | _, _ => Err (BadField field spec)
          end
      | None =>
          match parse_u32 (print_range r) with
          | Some v => Ok (false, v, v)
          | None => Err (BadField field spec)
          end
      end
  with
  | Err e => Err e
  | Ok (wild, lo, hi) =>
      let '(lo, hi) :=
        if decide (field = "day-of-week")
        then (if lo =? 7 then 0 else lo, if hi =? 7 then 0 else hi)
        else (lo, hi) in
      if (lo <? min) || (max <? hi) then Err (Range field spec min max)
      else Ok (wild, lo, hi, step)
  end = Ok (parsed_of field min max (r, Some step)).
Proof.
  intros (Hmin & Hmax & Hdow) Hwf Hs. destruct r as [|a|a b]; simpl in *.
  - unfold parsed_of, term_step; simpl.
    case_decide as Hf.
    + destruct (Hdow Hf) as [-> ->]. done.
    + by destruct (Z.ltb_spec min min), (Z.ltb_spec max max); try lia.
  - assert (0 ≤ a < 2 ^ 32) as Ha by lia.
    rewrite decide_False by by apply print_u32_not_star.
    rewrite (proj2 (split_once_None _ _)) by by apply print_u32_contains.
    destruct (print_u32_spec a Ha) as [-> _]. unfold parsed_of, term_step; simpl.
    destruct (decide (field = "day-of-week")) as [Hf|Hf].
    + destruct (Hdow Hf) as [-> ->]. destruct (Z.eqb_spec a 7) as [->|].
      * by rewrite decide_True.
      * rewrite decide_False by naive_solver.
        by destruct (Z.ltb_spec a 0), (Z.ltb_spec 6 a); try lia.
    + rewrite decide_False by naive_solver.
      by destruct (Z.ltb_spec a min), (Z.ltb_spec max a); try (exfalso; naive_solver lia).
  - assert (0 ≤ a < 2 ^ 32 ∧ 0 ≤ b < 2 ^ 32) as [Ha Hb] by lia.
    rewrite decide_False.
    2:{ intros E. apply (f_equal (contains "-"%char)) in E. rewrite contains_app in E.
        simpl in E. by rewrite orb_true_r in E. }
    rewrite split_once_app by by apply print_u32_contains.
    destruct (print_u32_spec a Ha) as [-> _], (print_u32_spec b Hb) as [-> _].
    destruct (Z.ltb_spec b a); [lia|]. unfold parsed_of, term_step; simpl.
    assert (∀ lo hi, lo = a → hi = b →
      (if (lo <? min) || (max <? hi) then Err (Range field spec min max)
       else Ok (false, lo, hi, step)) = Ok (false, a, b, step)) as Hfin.
    { intros ?? -> ->. by destruct (Z.ltb_spec a min), (Z.ltb_spec max b); try lia. }
    case_decide as Hf; [|by apply Hfin].
    destruct (Hdow Hf) as [-> ->].
    by destruct (Z.eqb_spec a 7), (Z.eqb_spec b 7); try lia; apply Hfin.
Qed.

Lemma parse_term_print spec field min max t :
  bounds_ok field min max → term_wf field min max t →
  parse_term spec field min max (print_term t) = Ok (parsed_of field min max t).
Proof.
  intros Hb [Hr Hs]. destruct t as [r [step|]]; simpl in Hr, Hs; unfold print_term; simpl.
  - specialize (Hs step eq_refl). unfold parse_term.
    rewrite decide_False.
    2:{ pose proof (print_range_nonempty r). by destruct (print_range r). }
    rewrite split_once_app by by eapply print_range_contains.
    destruct (print_u32_spec step) as [-> _]; [lia|]. destruct (Z.eqb_spec step 0); [lia|].
    by apply parse_range_spec.
  - unfold parse_term. rewrite decide_False by apply print_range_nonempty.
    rewrite (proj2 (split_once_None _ _)) by by eapply print_range_contains.
    by apply (parse_range_spec spec field min max r 1).
Qed.

(** ** The text of a field and of an expression *)

Lemma print_term_contains field min max t c :
  bounds_ok field min max → term_wf field min max t →
  is_digit c = false → c ≠ "*"%char → c ≠ "-"%char → c ≠ "/"%char →
  contains c (print_term t) = false.
Proof.
  intros Hb [Hr Hs] ????. destruct t as [r [step|]]; simpl in Hr, Hs; unfold print_term; simpl;
    [|by eapply print_range_contains].
  specialize (Hs step eq_refl). rewrite contains_app. simpl. rewrite decide_False by done.
  rewrite (print_range_contains field min max) by done.
  apply print_u32_contains; [lia|done].
Qed.

Lemma split_whitespace_join_char l :
  Forall (λ w, word w ∧ w ≠ EmptyString) l →
  split_whitespace 0 EmptyString (join_char " " l) = l.
Proof.
  induction 1 as [|w [|w' l] [Hw Hne] HF IH]; [done|by apply split_whitespace_word|].
  rewrite join_char_cons.
  rewrite (proj1 (split_whitespace_word EmptyString w Hw)) by done. by rewrite IH.
Qed.

Lemma not_word_char c :
  ¬ word_char c → is_digit c = false ∧ c ≠ "*"%char ∧ c ≠ "-"%char ∧ c ≠ "/"%char ∧ c ≠ ","%char.
Proof. unfold word_char. destruct c as [[] [] [] [] [] [] [] []]; vm_compute; naive_solver. Qed.

Lemma print_field_word field min max ts :
  bounds_ok field min max → field_wf field min max ts →
  word (print_field ts) ∧ print_field ts ≠ EmptyString.
Proof.
  intros Hb [Hne HF]. split.
  - intros c (? & ? & ? & ? & ?)%not_word_char. apply join_char_contains; [done|].
    apply Forall_fmap. eapply Forall_impl; [done|]. intros t Ht. by eapply print_term_contains.
  - destruct ts as [|t ts]; [done|].
    assert (print_term t ≠ EmptyString) as Ht.
    { unfold print_term. pose proof (print_range_nonempty t.1).
      destruct t.2; [|done]. by destruct (print_range t.1). }
    unfold print_field. destruct ts as [|t' ts]; simpl; [done|]. by destruct (print_term t).
Qed.

Lemma parsed_of_bits field min max t v :
  bounds_ok field min max → term_wf field min max t →
  parsed_ok min max (parsed_of field min max t)
  ∧ (parsed_of field min max t).1.1.1 = is_star t
  ∧ (term_bits (parsed_of field min max t) v ↔ term_admits field min max t v)
  ∧ (term_admits field min max t v → min ≤ v ≤ max).
Proof.
  intros (Hb1 & Hb2 & Hb3) [Hr Hs].
  assert (0 < term_step t < 2 ^ 32 - 64) as Hst.
  { unfold term_step. destruct t.2 as [s|]; simpl; [specialize (Hs s eq_refl)|]; lia. }
  unfold parsed_of, is_star, term_admits, parsed_ok, term_bits.
  destruct t.1 as [|a|a b]; simpl in Hr.
  - repeat split; lia || tauto.
  - case_decide as Hc.
    + destruct Hc as [Hf ->]. destruct (Hb3 Hf) as [-> ->]. repeat split; try lia.
      exists 0. lia.
    + assert (min ≤ a ≤ max) by naive_solver. repeat split; try lia. exists 0. lia.
  - repeat split; lia || tauto.
Qed.

Lemma parse_field_print field min max ts :
  bounds_ok field min max → field_wf field min max ts →
  ∃ f, parse_field (print_field ts) field min max = Some (Ok f)
    ∧ wildcard f = existsb is_star ts
    ∧ ∀ v, field_matches f v min = true ↔ admits field min max ts v.
Proof.
  intros Hb [Hne HF]. pose proof Hb as (Hb1 & Hb2 & _). unfold parse_field.
  assert (split_on "," (print_field ts) = print_term <$> ts) as ->.
  { apply split_on_join_char; [by destruct ts|].
    apply Forall_fmap. eapply Forall_impl; [done|]. intros t Ht. by eapply print_term_contains. }
  assert (∀ t, t ∈ ts → term_wf field min max t) as HF' by by apply Forall_forall.
  edestruct (parse_terms_spec (print_field ts) field min max 0 false (print_term <$> ts)
    (parsed_of field min max <$> ts)) as (m & -> & Hm); [lia..| |].
  { apply Forall2_fmap, Forall_Forall2_diag, Forall_forall. intros t Ht.
    split; [apply parse_term_print|apply (parsed_of_bits field min max t 0)]; auto. }
  assert (existsb (λ p : bool * Z * Z * Z, p.1.1.1) (parsed_of field min max <$> ts)
          = existsb is_star ts) as ->.
  { clear -Hb HF'. induction ts as [|t ts IH]; [done|]. simpl.
    destruct (parsed_of_bits field min max t 0) as (_ & -> & _); [done|apply HF'; left|].
    f_equal. apply IH. intros t' ?. apply HF'. by right. }
  assert (∀ v, (0 ≤ v - min ∧ Z.testbit m (v - min) = true) ↔ admits field min max ts v) as Hbits.
  { intros v. unfold admits. split.
    - intros [Hv Hbit]. rewrite Hm in Hbit by lia. destruct Hbit as [Hbit|(p & Hp & Hbit)].
      + by rewrite Z.bits_0 in Hbit.
      + apply list_elem_of_fmap in Hp as (t & -> & Ht). exists t. split; [done|].
        apply parsed_of_bits; auto. by replace v with (v - min + min) by lia.
    - intros (t & Ht & Hadm). destruct (parsed_of_bits field min max t v) as (_ & _ & Hi & Hr);
        [by auto..|]. specialize (Hr Hadm). split; [lia|]. apply Hm; [lia|]. right.
      exists (parsed_of field min max t). split; [by apply list_elem_of_fmap; eauto|].
      replace (v - min + min) with v by lia. by apply Hi. }
  assert (∃ v, admits field min max ts v) as [v0 Hv0].
  { destruct ts as [|t ts]; [done|]. specialize (HF' t (list_elem_of_here _ _)) as [Hr _].
    unfold admits, term_admits. destruct t.1 as [|a|a b] eqn:E; simpl in Hr.
    - exists min, t. split; [left|]. rewrite E. split; [lia|]. exists 0. lia.
    - eexists _, t. split; [left|]. by rewrite E.
    - exists a, t. split; [left|]. rewrite E. split; [lia|]. exists 0. lia. }
  simpl. destruct (Z.eqb_spec m 0) as [->|].
  { apply Hbits in Hv0 as [_ Hv0]. by rewrite Z.bits_0 in Hv0. }
  eexists. split; [done|]. split; [done|]. intros v. rewrite <-Hbits. unfold field_matches. simpl.
  destruct (Z.ltb_spec v min); [split; [done|]; lia|].
  destruct (Z.ltb_spec (v - min) 64); simpl;
    [split; [intros; split; [lia|done]|by intros [_ ?]]|].
  split; [done|]. intros Hv. apply Hbits in Hv as (t & Ht & Hadm).
  destruct (parsed_of_bits field min max t v) as (_ & _ & _ & Hr); [by auto..|].
  specialize (Hr Hadm). lia.
Qed.

(** ** Properties *)

Lemma fields_bounds :
  bounds_ok "minute" 0 59 ∧ bounds_ok "hour" 0 23 ∧ bounds_ok "day-of-month" 1 31
  ∧ bounds_ok "month" 1 12 ∧ bounds_ok "day-of-week" 0 6.
Proof. unfold bounds_ok. repeat split; try lia; done. Qed.

(** Every expression of the documented grammar ([*], [a], [a-b], each with
    an optional step, in comma-separated lists, [7] being a Sunday) parses, and
    the parsed expression fires exactly in the minutes cron(8) prescribes: every
    field admits its value, except that when neither day field is written with
    a star either day field is enough. *)
Theorem cron_parse_correct e :
  expr_wf e →
  ∃ c, parse (print_cron e) = Some (Ok c)
    ∧ ∀ mi h dom mo dow, cron_matches c mi h dom mo dow = true ↔ fires e mi h dom mo dow.
Proof.
  intros (H0 & H1 & H2 & H3 & H4). pose proof fields_bounds as (B0 & B1 & B2 & B3 & B4).
  destruct (parse_field_print _ _ _ _ B0 H0) as (f0 & E0 & _ & M0).
  destruct (parse_field_print _ _ _ _ B1 H1) as (f1 & E1 & _ & M1).
  destruct (parse_field_print _ _ _ _ B2 H2) as (f2 & E2 & W2 & M2).
  destruct (parse_field_print _ _ _ _ B3 H3) as (f3 & E3 & _ & M3).
  destruct (parse_field_print _ _ _ _ B4 H4) as (f4 & E4 & W4 & M4).
  exists (mkCron f0 f1 f2 f3 f4). split.
  - unfold parse, print_cron. rewrite split_whitespace_join_char.
    + simpl. rewrite E0; simpl. rewrite E1; simpl. rewrite E2; simpl. rewrite E3; simpl.
      by rewrite E4.
    + apply Forall_fmap. unfold compose.
      repeat first [apply Forall_nil_2|apply Forall_cons_2; [by eauto using print_field_word|]].
  - intros mi h dom mo dow. unfold cron_matches, fires; simpl.
    specialize (M0 mi). specialize (M1 h). specialize (M2 dom). specialize (M3 mo).
    specialize (M4 dow). rewrite <-W2, <-W4.
    destruct (field_matches f0 mi 0), (field_matches f1 h 0), (field_matches f3 mo 1); simpl;
      try (split; [done|tauto]).
    destruct (wildcard f2), (wildcard f4); simpl; rewrite ?orb_true_iff, ?andb_true_iff; tauto.
Qed.

Lemma cron_parse_correct_witness :
  let e := mkExpr [(Star, Some 15)] [(Span 8 10, None)] [(One 13, None)] [(Star, None)]
                  [(One 7, None); (Span 1 5, Some 2)] in
  print_cron e = "*/15 8-10 13 * 7,1-5/2"
  ∧ ∃ c, parse (print_cron e) = Some (Ok c)
    ∧ ∀ mi h dom mo dow, cron_matches c mi h dom mo dow = true ↔ fires e mi h dom mo dow.
Proof.
  intros e. split; [vm_compute; reflexivity|]. apply (cron_parse_correct e).
  assert (∀ field min max r s, range_wf field min max r → 1 ≤ s < 2 ^ 32 - 64 →
    term_wf field min max (r, Some s)) as Hs by (split; [done|]; simpl; by intros ? [= <-]).
  assert (∀ field min max r, range_wf field min max r → term_wf field min max (r, None)) as Hn
    by by split.
  repeat split; try done;
    repeat first [apply Forall_nil_2|apply Forall_cons_2|apply Hs|apply Hn]; simpl;
    done || lia || by right.
Defined.

(** A day-of-week range that ends in [7] does not mean what the module
    documentation says of [7]: [0-7] fires on Sundays only, [5-7] is rejected
    as an invalid field, and in [1,5-7] the range is dropped without an error,
    so the expression fires on Mondays only. *)
Theorem sunday_range_lost :
  (∃ c, parse "0 0 * * 0-7" = Some (Ok c)
     ∧ ∀ dow, 0 ≤ dow ≤ 6 → cron_matches c 0 0 1 1 dow = (dow =? 0))
  ∧ parse "0 0 * * 5-7" = Some (Err (BadField "day-of-week" "5-7"))
  ∧ (∃ c, parse "0 0 * * 1,5-7" = Some (Ok c)
     ∧ ∀ dow, 0 ≤ dow ≤ 6 → cron_matches c 0 0 1 1 dow = (dow =? 1)).
Proof.
  split; [|split]; [|vm_compute; reflexivity|];
    (eexists; split; [vm_compute; reflexivity|]; intros dow Hdow;
     assert (dow = 0 ∨ dow = 1 ∨ dow = 2 ∨ dow = 3 ∨ dow = 4 ∨ dow = 5 ∨ dow = 6) as Hd by lia;
     destruct Hd as [->|[->|[->|[->|[->|[->| ->]]]]]]; vm_compute; reflexivity).
Qed.

(** The step is read as any [u32], and the loop adds it before it compares:
    a step close to [2^32] overflows the addition, which panics in a build with
    overflow checks instead of returning a [CronError]. *)
Theorem huge_step_overflows :
  parse "5/4294967295 * * * *" = None ∧ parse "5/4294967290 * * * *" ≠ None.
Proof. split; vm_compute; [reflexivity|discriminate]. Qed.
