(* ===== verification/TerminalRecords.v ===== *)
(** * Terminal records

    [er-k8s/src/record.rs]: the record a pod leaves in its termination message,
    shed down to the kubelet's cap.  [serde_json] is a parameter: [to_string]
    (with its error) and [from_str]. *)

From S2P Require Import Prelude Ids Json Text.
From Stdlib Require Import Ascii.

(** ** Definitions *)

Definition TERMINATION_MESSAGE_CAP : nat := 4096.

Inductive TerminalState := Succeeded | Skipped | Failed | Interrupted.

#[global] Instance TerminalState_eq_dec : EqDecision TerminalState.
Proof. solve_decision. Defined.

Record TerminalRecord := mkTerminal {
  v : Z; attempt : string; state : TerminalState; exit : Z;
  error_class : option string; termination_reason : option string; detail : option string;
  output : option json; snapshot_start : option Z; snapshot_end : option Z;
  counters : option json;
}.

Definition set_detail (d : option string) (r : TerminalRecord) : TerminalRecord :=
  mkTerminal (v r) (attempt r) (state r) (exit r) (error_class r) (termination_reason r) d
    (output r) (snapshot_start r) (snapshot_end r) (counters r).

Definition drop_output (r : TerminalRecord) : TerminalRecord :=
  mkTerminal (v r) (attempt r) (state r) (exit r) (error_class r) (termination_reason r)
    (detail r) None (snapshot_start r) (snapshot_end r) (counters r).

Definition drop_counters (r : TerminalRecord) : TerminalRecord :=
  mkTerminal (v r) (attempt r) (state r) (exit r) (error_class r) (termination_reason r)
    (detail r) (output r) (snapshot_start r) (snapshot_end r) None.

(** [while cut > 0 && !detail.is_char_boundary(cut) { cut -= 1; }]. *)
Fixpoint boundary_below (s : string) (cut : nat) : nat :=
  match cut with
  | 0 => 0
  | S cut' => if is_char_boundary s cut then cut else boundary_below s cut'
  end.

(** What a record can shed: the bytes of its detail, its output, its counters. *)
Definition weight (r : TerminalRecord) : nat :=
  match detail r with Some d => String.length d | None => 0 end
  + match output r with Some _ => 1 | None => 0 end
  + match counters r with Some _ => 1 | None => 0 end.

Section serde.
Context (to_string : TerminalRecord → option string) (from_str : string → option TerminalRecord).

(** The document of one round and the record it leaves; [None] is the [expect]. *)
Definition serialize_or_shed (record : TerminalRecord) : option (string * TerminalRecord) :=
  match to_string record with
  | Some json => Some (json, record)
  | None =>
      let record := drop_output record in
      json ← to_string record; Some (json, record)
  end.

(** The loop: [None] is a panic, or fuel that ran out. *)
Fixpoint cap_loop (fuel : nat) (record : TerminalRecord) : option string :=
  match fuel with
  | 0 => None
  | S fuel =>
      '(json, record) ← serialize_or_shed record;
      if String.length json <=? TERMINATION_MESSAGE_CAP then Some json
      else
        let shed :=
          match output record, counters record with
          | Some _, _ => cap_loop fuel (drop_output record)
          | None, Some _ => cap_loop fuel (drop_counters record)
          | None, None => Some json
          end in
        match detail record with
        | Some (String _ _ as detail) =>
            let overflow := String.length json - TERMINATION_MESSAGE_CAP in
            let cut := String.length detail - (overflow + 64) in
            detail ← truncate detail (boundary_below detail cut);
            cap_loop fuel (set_detail (Some detail) record)
        | _ => shed
        end
  end.

(** Every round but the last sheds weight. *)
Definition to_capped_json (r : TerminalRecord) : option string := cap_loop (S (weight r)) r.

Definition parse (message : string) : option TerminalRecord :=
  record ← from_str (trim message);
  if (v record =? 1)%Z then Some record else None.

End serde.

(** ** Lemmas *)

(** Everything a reader decides on. *)
Definition same_verdict (r r' : TerminalRecord) : Prop :=
  v r' = v r ∧ attempt r' = attempt r ∧ state r' = state r ∧ exit r' = exit r
  ∧ error_class r' = error_class r ∧ termination_reason r' = termination_reason r
  ∧ snapshot_start r' = snapshot_start r ∧ snapshot_end r' = snapshot_end r.

(** A detail cut at its end. *)
Definition cut_of (d d' : option string) : Prop :=
  match d, d' with
  | None, None => True
  | Some s, Some s' => ∃ t, s = s' +:+ t
  | _, _ => False
  end.

(** [r'] is [r] with some of its weight shed: counters go last. *)
Definition shed_of (r r' : TerminalRecord) : Prop :=
  same_verdict r r' ∧ cut_of (detail r) (detail r')
  ∧ (output r' = output r ∨ output r' = None)
  ∧ (counters r' = counters r
     ∨ counters r' = None ∧ output r' = None ∧ (detail r' = None ∨ detail r' = Some EmptyString)).

(** Nothing left to shed. *)
Definition bare (r : TerminalRecord) : Prop :=
  (detail r = None ∨ detail r = Some EmptyString) ∧ output r = None ∧ counters r = None.

#[global] Instance same_verdict_equiv : Equivalence same_verdict.
Proof.
  split; [done|intros x y ?|intros x y z ??]; unfold same_verdict in *; destruct_and!;
    repeat split; congruence.
Qed.

Lemma cut_of_refl d : cut_of d d.
Proof. destruct d as [s|]; simpl; [|done]. exists EmptyString. by rewrite str_app_nil_r. Qed.

Lemma cut_of_trans a b c : cut_of a b → cut_of b c → cut_of a c.
Proof.
  destruct a as [x|], b as [y|], c as [z|]; simpl; try done.
  intros [t ->] [u ->]. exists (u +:+ t). by rewrite str_app_assoc.
Qed.

Lemma cut_of_empty a b :
  cut_of a b → a = None ∨ a = Some EmptyString → b = None ∨ b = Some EmptyString.
Proof.
  destruct a as [x|], b as [y|]; simpl; [|done|done|by left].
  intros [t ->] [?|[= E]]; [done|]. right. by destruct y.
Qed.

Lemma shed_of_refl r : shed_of r r.
Proof. split; [done|]. split; [apply cut_of_refl|auto]. Qed.

Lemma shed_of_trans r1 r2 r3 : shed_of r1 r2 → shed_of r2 r3 → shed_of r1 r3.
Proof.
  intros (V1 & D1 & O1 & C1) (V2 & D2 & O2 & C2). split; [by transitivity r2|].
  split; [by eapply cut_of_trans|]. split; [destruct O1, O2; auto with congruence|].
  destruct C2 as [C2|C2]; [|by right]. rewrite C2. destruct C1 as [C1|(C1 & O & D)]; [by left|].
  right. split; [done|]. split; [destruct O2; congruence|]. by eapply cut_of_empty.
Qed.

Lemma drop_output_shed r : shed_of r (drop_output r).
Proof. split; [done|]. split; [apply cut_of_refl|]. simpl. auto. Qed.

Lemma boundary_below_le s cut : boundary_below s cut ≤ cut.
Proof. induction cut; simpl; [done|]. destruct (is_char_boundary s _); lia. Qed.

Lemma boundary_below_boundary s cut : is_char_boundary s (boundary_below s cut) = true.
Proof. induction cut; simpl; [done|]. by destruct (is_char_boundary s (S cut)) eqn:E. Qed.

(** Cutting a detail at a boundary never panics and leaves a prefix. *)
Lemma truncate_boundary s cut :
  cut ≤ String.length s →
  ∃ s', truncate s (boundary_below s cut) = Some s' ∧ String.length s' ≤ cut ∧ ∃ t, s = s' +:+ t.
Proof.
  intros Hcut. pose proof (boundary_below_le s cut) as Hle. unfold truncate.
  rewrite (proj2 (Nat.ltb_ge _ _)) by lia. rewrite boundary_below_boundary.
  eexists. split; [done|]. rewrite length_substring by lia. split; [done|apply substring_prefix].
Qed.

Section capping.
Context (to_string : TerminalRecord → option string).
(** What the code relies on: a record without output serializes. *)
Context (Hser : ∀ r, output r = None → is_Some (to_string r)).

Lemma serialize_or_shed_spec r :
  ∃ j r', serialize_or_shed to_string r = Some (j, r') ∧ to_string r' = Some j ∧ shed_of r r'
    ∧ weight r' ≤ weight r.
Proof using Hser.
  unfold serialize_or_shed. destruct (to_string r) as [j|] eqn:E.
  { exists j, r. split; [done|]. split; [done|]. split; [apply shed_of_refl|done]. }
  destruct (Hser (drop_output r) eq_refl) as [j Hj]. exists j, (drop_output r).
  rewrite Hj. split; [done|]. split; [done|]. split; [apply drop_output_shed|].
  unfold weight. simpl. lia.
Qed.

Lemma cap_loop_spec fuel r :
  weight r < fuel →
  ∃ j r', cap_loop to_string fuel r = Some j ∧ to_string r' = Some j ∧ shed_of r r'
    ∧ (String.length j ≤ TERMINATION_MESSAGE_CAP ∨ bare r').
Proof using Hser.
  revert r. induction fuel as [|fuel IH]; intros r Hw; [lia|]. cbn [cap_loop].
  destruct (serialize_or_shed_spec r) as (j & r1 & -> & Hj & Hs & Hw1). cbn [mbind option_bind].
  assert (∀ r2, shed_of r1 r2 → weight r2 < weight r1 → ∃ j r', cap_loop to_string fuel r2 = Some j
    ∧ to_string r' = Some j ∧ shed_of r r'
    ∧ (String.length j ≤ TERMINATION_MESSAGE_CAP ∨ bare r')) as Hnext.
  { intros r2 Hs2 Hw2. destruct (IH r2) as (j' & r' & ? & ? & ? & ?); [lia|].
    exists j', r'. split; [done|]. split; [done|]. split; [|done].
    do 2 (eapply shed_of_trans; [done|]). done. }
  destruct (Nat.leb_spec (String.length j) TERMINATION_MESSAGE_CAP) as [|Hlong].
  { exists j, r1. auto. }
  clear IH. destruct (decide (detail r1 = None ∨ detail r1 = Some EmptyString)) as [Hd|Hd].
  - assert (∀ A (x : A) y, match detail r1 with Some (String _ _ as d) => y d | _ => x end = x) as ->
      by by intros; destruct Hd as [-> | ->].
    destruct (output r1) eqn:Ho; [|destruct (counters r1) eqn:Hc].
    + apply Hnext; [apply drop_output_shed|]. unfold weight. simpl. rewrite Ho. lia.
    + apply Hnext.
      * split; [done|]. split; [apply cut_of_refl|]. simpl. auto.
      * unfold weight. simpl. rewrite Hc. lia.
    + exists j, r1. split; [done|]. split; [done|]. split; [done|]. right. by repeat split.
  - destruct (detail r1) as [[|c d]|] eqn:E; [naive_solver| |naive_solver]. clear Hd.
    set (d0 := String c d) in *.
    destruct (truncate_boundary d0
      (String.length d0 - (String.length j - TERMINATION_MESSAGE_CAP + 64)))
      as (d' & -> & Hlen & Hpre); [lia|]. cbn [mbind option_bind].
    apply Hnext.
    + split; [done|]. simpl. rewrite E. auto.
    + unfold weight. simpl. rewrite E. assert (0 < String.length d0) by (simpl; lia). lia.
Qed.

End capping.

(** ** What the code relies on of [serde_json]

    A record without output serializes; the document is an object; what was
    written reads back with the same scalar fields. *)

Class SerdeRecord (to_string : TerminalRecord → option string)
    (from_str : string → option TerminalRecord) : Prop := {
  ser_no_output r : output r = None → is_Some (to_string r);
  ser_shape r j : to_string r = Some j → ∃ s, j = String "{" (s +:+ String "}" EmptyString);
  ser_readback r j : to_string r = Some j → ∃ r', from_str j = Some r' ∧ same_verdict r r';
}.

(** ** Properties *)

Section properties.
Context (to_string : TerminalRecord → option string) (from_str : string → option TerminalRecord).
Context `{!SerdeRecord to_string from_str}.

(** The capped document is always produced: the loop ends and no cut
    splits a character.  It is the document of a record that differs from the
    given one by a shorter detail, a dropped output and, once both are gone,
    dropped counters; it is within the kubelet's cap whenever the record with
    all of these shed is; a document that fits as it is stays as it is; and
    the watch reads it back with the verdict the pod wrote. *)
Theorem to_capped_json_correct r :
  ∃ j r', to_capped_json to_string r = Some j ∧ to_string r' = Some j ∧ shed_of r r'
    ∧ ((∀ r0 j0, shed_of r r0 → bare r0 → to_string r0 = Some j0 →
          String.length j0 ≤ TERMINATION_MESSAGE_CAP) →
       String.length j ≤ TERMINATION_MESSAGE_CAP)
    ∧ (∀ j0, to_string r = Some j0 → String.length j0 ≤ TERMINATION_MESSAGE_CAP → j = j0)
    ∧ (v r = 1%Z → ∃ rr, parse from_str j = Some rr ∧ same_verdict r rr).
Proof using All.
  destruct (cap_loop_spec to_string ser_no_output (S (weight r)) r)
    as (j & r' & Hcap & Hj & Hs & Hlen); [lia|].
  exists j, r'. split; [done|]. split; [done|]. split; [done|]. split; [|split].
  - intros Hbare. destruct Hlen as [|Hb]; [done|by eapply Hbare].
  - intros j0 Hj0 Hfit. cbn [cap_loop] in Hcap. unfold serialize_or_shed in Hcap.
    rewrite Hj0 in Hcap. cbn [mbind option_bind] in Hcap.
    rewrite (proj2 (Nat.leb_le _ _)) in Hcap by done. by injection Hcap.
  - intros Hv. destruct (ser_readback r' j Hj) as (rr & Hrr & Hsame).
    exists rr. assert (same_verdict r rr) as Hall by (transitivity r'; [apply Hs|done]).
    split; [|done]. unfold parse. destruct (ser_shape r' j Hj) as [s ->].
    rewrite trim_word by done. rewrite Hrr. simpl.
    destruct Hall as [-> _]. by rewrite Hv.
Qed.
End properties.

(** ** A concrete codec *)

Module SampleCodec.

Definition verdict (r : TerminalRecord) :=
  (v r, attempt r, match state r with Succeeded => 0 | Skipped => 1 | Failed => 2 | _ => 3 end,
   exit r, error_class r, termination_reason r, snapshot_start r, snapshot_end r).

Fixpoint bits (p : positive) : string :=
  match p with
  | xH => ","
  | xO p => String "0" (bits p)
  | xI p => String "1" (bits p)
  end.

Fixpoint read_bits (s : string) : option positive :=
  match s with
  | String "0" s => xO <$> read_bits s
  | String "1" s => xI <$> read_bits s
  | String "," _ => Some xH
  | _ => None
  end.

Definition to_string (r : TerminalRecord) : option string :=
  let rest := match output r with Some _ => "+output" | None => "" end
              +:+ match counters r with Some _ => "+counters" | None => "" end in
  Some (String "{" (bits (encode (verdict r)) +:+ default "" (detail r) +:+ rest
                    +:+ String "}" EmptyString)).

Definition of_verdict x : TerminalRecord :=
  let '(v, a, s, e, c, t, ss, se) := x in
  mkTerminal v a (match s with 0 => Succeeded | 1 => Skipped | 2 => Failed | _ => Interrupted end)
    e c t None None ss se None.

Definition from_str (s : string) : option TerminalRecord :=
  match s with
  | String "{" s => p ← read_bits s; x ← decode p; Some (of_verdict x)
  | _ => None
  end.

#[global] Instance sample_serde : SerdeRecord to_string from_str.
Proof.
  split.
  - intros r _. by eexists.
  - intros r j [= <-]. eexists. by rewrite !str_app_assoc.
  - intros r j [= <-]. unfold from_str. exists (of_verdict (verdict r)). split.
    + assert (∀ p s, read_bits (bits p +:+ s) = Some p) as ->.
      { intros p s. induction p as [p IH|p IH|]; simpl; [by rewrite IH..|done]. }
      cbn [mbind option_bind]. by rewrite decode_encode.
    + unfold same_verdict. simpl. by destruct (state r).
Qed.

Definition long_detail : string := Nat.iter 5000 (String "x") EmptyString.

Definition record : TerminalRecord :=
  mkTerminal 1 "a" Failed 1 (Some "data") None (Some long_detail) (Some JNull) None (Some 7%Z)
    (Some JNull).

(** The document is shed to the cap, and still carries the verdict. *)
Example record_capped :
  ∃ j, to_capped_json to_string record = Some j
    ∧ String.length j ≤ TERMINATION_MESSAGE_CAP
    ∧ (state <$> parse from_str j) = Some Failed.
Proof. eexists. split; [vm_compute; reflexivity|]. split; [apply Nat.leb_le|]; vm_compute; reflexivity. Qed.

End SampleCodec.

Lemma to_capped_json_correct_witness :
  ∃ j rr, to_capped_json SampleCodec.to_string SampleCodec.record = Some j
    ∧ parse SampleCodec.from_str j = Some rr ∧ same_verdict SampleCodec.record rr.
Proof.
  destruct (to_capped_json_correct SampleCodec.to_string SampleCodec.from_str SampleCodec.record)
    as (j & r' & Hj & _ & _ & _ & _ & Hp).
  destruct (Hp eq_refl) as (rr & ? & ?). exists j, rr. auto.
Defined.
