(* ===== verification/Classify.v ===== *)
(** * Pod evidence classifiers

    [er-k8s/src/classify.rs] and the snapshots of [er-k8s/src/api.rs] it reads.
    [TerminalRecord::parse] comes from [TerminalRecords]; its [serde_json]
    reader stays a parameter.  [None] is the [unreachable!]. *)

From S2P Require Import Prelude Ids Json Text TerminalRecords.
Local Open Scope Z_scope.

(** ** Definitions *)

Record JobSnapshot := mkJob {
  job_name : string; job_labels : gmap string string; job_annotations : gmap string string;
  active : Z; succeeded : Z; failed : Z;
  failed_deadline : bool; failed_backoff : bool; deletion_timestamp : bool;
}.

Inductive PodPhase := PodPending | PodRunning | PodSucceeded | PodFailed | PodUnknown.

Record PodSnapshot := mkPod {
  pod_name : string; uid : string; node_name : option string;
  pod_labels : gmap string string; pod_annotations : gmap string string;
  phase : PodPhase;
  waiting_reason : option string;
  terminated_exit_code : option Z;
  terminated_reason : option string;
  termination_message : option string;
  disruption_target : option string;
  status_reason : option string;
  unschedulable : bool;
  scheduling_message : option string;
  node_not_ready : bool;
}.

Definition pod_is_terminal (p : PodSnapshot) : bool :=
  match phase p with PodSucceeded | PodFailed => true | _ => false end.

Definition FATAL_WAIT_BOUND_SECS : Z := 60.
Definition UNSCHEDULABLE_BOUND_SECS : Z := 600.
Definition NO_POD_BOUND_SECS : Z := 60.
Definition NO_RECORD_BOUND_SECS : Z := 60.

Definition FATAL_WAITING_REASONS : list string :=
  ["ImagePullBackOff"; "ErrImagePull"; "CreateContainerConfigError"; "InvalidImageName"].

Inductive RowState := Queued | Running | Restarting | Canceling.

#[global] Instance RowState_eq_dec : EqDecision RowState.
Proof. solve_decision. Defined.

Inductive PreStartVerdict :=
| Wait
| RequeueLaunch (reason : string) (detail : option string)
| CapacityWait (reason : string) (detail : option string).

(** [str::contains(&str)]. *)
Fixpoint contains_str (s needle : string) : bool :=
  String.prefix needle s
  || match s with EmptyString => false | String _ s => contains_str s needle end.

Definition pre_start (pod : option PodSnapshot) (job : JobSnapshot)
    (newest_failed_create : option string)
    (fatal_waiting_secs unschedulable_secs no_pod_secs : Z) : PreStartVerdict :=
  match pod with
  | Some pod =>
      match waiting_reason pod ≫= λ r, if decide (r ∈ FATAL_WAITING_REASONS) then Some r else None with
      | Some reason =>
          if FATAL_WAIT_BOUND_SECS <=? fatal_waiting_secs then RequeueLaunch reason None else Wait
      | None =>
          if unschedulable pod then
            if UNSCHEDULABLE_BOUND_SECS <=? unschedulable_secs
            then CapacityWait "Unschedulable" (scheduling_message pod)
            else Wait
          else Wait
      end
  | None =>
      if (active job =? 0) && (NO_POD_BOUND_SECS <=? no_pod_secs) then
        match newest_failed_create with
        | Some message =>
            if contains_str message "exceeded quota" then CapacityWait "quota" (Some message)
            else RequeueLaunch "FailedCreate" (Some message)
        | None => RequeueLaunch "no_pod_created" None
        end
      else Wait
  end.

Inductive TerminalVerdict :=
| TWait
| RecordEvidence (exit_code : option Z) (reason : option string)
| ApplyRecord (record : TerminalRecord)
| FailNoRecord
| TimedOut
| FailResources (reason : string) (detail : option string)
| Requeue (reason : string)
| SettleCanceled (exit_code : option Z) (reason : option string)
| CompleteRestart (exit_code : option Z) (reason : option string).

Record RowView := mkRow { row_state : RowState; finish_landed : bool }.

Definition exit_code_of (pod : option PodSnapshot) : option Z := p ← pod; terminated_exit_code p.
Definition reason_of (pod : option PodSnapshot) : option string := p ← pod; terminated_reason p.

Section terminal.
Context (from_str : string → option TerminalRecord).

Definition record_of (pod : option PodSnapshot) : option TerminalRecord :=
  p ← pod; m ← termination_message p; parse from_str m.

(** The end of [terminal]: no record, the row queued or running. *)
Definition no_record_verdict (row : RowView) (pod : option PodSnapshot) (job : JobSnapshot)
    (deleted : bool) (no_record_secs : Z) : option TerminalVerdict :=
  if decide (reason_of pod = Some "OOMKilled") then Some (FailResources "OOMKilled" None)
  else
    let by_pod :=
      p ← pod;
      if decide (status_reason p = Some "Evicted" ∧ disruption_target p = None)
      then Some (FailResources "Evicted" (termination_message p))
      else Requeue <$> disruption_target p in
    match by_pod with
    | Some verdict => Some verdict
    | None =>
        if failed_deadline job then Some TimedOut
        else if decide (exit_code_of pod = Some 137) then Some (Requeue "sigkill")
        else if deleted
        then Some (Requeue (default "vanished" (p ← pod; status_reason p)))
        else
          match row_state row with
          | Running =>
              Some (if NO_RECORD_BOUND_SECS <=? no_record_secs then FailNoRecord else TWait)
          | Queued => Some (Requeue "no_terminal_record")
          | Restarting | Canceling => None
          end
    end.

(** An interrupted record defers to the platform's evidence. *)
Definition interrupted_verdict (pod : option PodSnapshot) (job : JobSnapshot) (deleted : bool) :
    TerminalVerdict :=
  if failed_deadline job then TimedOut
  else match (p ← pod; disruption_target p) with
       | Some target => Requeue target
       | None =>
           if decide (deleted = true ∨ (p ← pod; status_reason p) = Some "NodeLost")
           then Requeue "vanished" else Requeue "sigterm"
       end.

Definition terminal_evidence (pod : option PodSnapshot) (deleted : bool) : bool :=
  deleted || match pod with Some p => pod_is_terminal p | None => false end.

Definition terminal (row : RowView) (pod : option PodSnapshot) (job : JobSnapshot)
    (deleted : bool) (no_record_secs : Z) : option TerminalVerdict :=
  if finish_landed row then Some (RecordEvidence (exit_code_of pod) (reason_of pod))
  else if negb (terminal_evidence pod deleted) then
    if failed_deadline job && bool_decide (pod = None) then
      Some (match row_state row with
            | Canceling => SettleCanceled None (Some "DeadlineExceeded")
            | Restarting => CompleteRestart None (Some "DeadlineExceeded")
            | _ => TimedOut
            end)
    else Some TWait
  else
    match row_state row with
    | Canceling => Some (SettleCanceled (exit_code_of pod) (reason_of pod))
    | Restarting => Some (CompleteRestart (exit_code_of pod) (reason_of pod))
    | Queued | Running =>
        match record_of pod with
        | Some record =>
            if decide (state record = Interrupted)
            then Some (interrupted_verdict pod job deleted)
            else if decide (termination_reason record = Some "control_plane_unreachable")
            then Some (Requeue "control_plane_unreachable")
            else Some (ApplyRecord record)
        | None => no_record_verdict row pod job deleted no_record_secs
        end
    end.
End terminal.

(** ** Lemmas *)

(** The row is live and the pod provably over: only then is the pod read. *)
Definition live (row : RowView) (pod : option PodSnapshot) (deleted : bool) : Prop :=
  finish_landed row = false ∧ terminal_evidence pod deleted = true
  ∧ (row_state row = Queued ∨ row_state row = Running).

(** The platform's own word for an end of the pod without a record. *)
Definition platform_word (pod : option PodSnapshot) (job : JobSnapshot) (deleted : bool) : Prop :=
  reason_of pod = Some "OOMKilled" ∨ (∃ p, pod = Some p ∧
    (status_reason p = Some "Evicted" ∨ is_Some (disruption_target p)))
  ∨ failed_deadline job = true ∨ exit_code_of pod = Some 137 ∨ deleted = true.

#[global] Instance live_dec row pod deleted : Decision (live row pod deleted).
Proof. unfold live. solve_decision. Defined.

(** A pod the kubelet evicted for its own local storage. *)
Definition evicted (p : PodSnapshot) : Prop :=
  status_reason p = Some "Evicted" ∧ disruption_target p = None.

Section lemmas.
Context (from_str : string → option TerminalRecord).
Implicit Types (row : RowView) (pod : option PodSnapshot) (job : JobSnapshot).

(** [terminal] on a live row. *)
Lemma terminal_live row pod job deleted secs :
  live row pod deleted →
  terminal from_str row pod job deleted secs =
    match record_of from_str pod with
    | Some record =>
        if decide (state record = Interrupted)
        then Some (interrupted_verdict pod job deleted)
        else if decide (termination_reason record = Some "control_plane_unreachable")
        then Some (Requeue "control_plane_unreachable")
        else Some (ApplyRecord record)
    | None => no_record_verdict row pod job deleted secs
    end.
Proof.
  intros (H1 & H2 & H3). unfold terminal. rewrite H1, H2. simpl. by destruct H3 as [-> | ->].
Qed.

(** A row that is not live never reads the pod's own report. *)
Lemma terminal_not_live row pod job deleted secs :
  ¬ live row pod deleted →
  ∃ vd, terminal from_str row pod job deleted secs = Some vd
    ∧ match vd with
      | TWait | TimedOut => finish_landed row = false
      | RecordEvidence e r => finish_landed row = true ∧ e = exit_code_of pod ∧ r = reason_of pod
      | SettleCanceled _ _ => finish_landed row = false ∧ row_state row = Canceling
      | CompleteRestart _ _ => finish_landed row = false ∧ row_state row = Restarting
      | _ => False
      end.
Proof.
  intros Hl. unfold terminal. destruct (finish_landed row) eqn:E1; [by eexists|].
  destruct (terminal_evidence pod deleted) eqn:E2; simpl.
  - destruct (row_state row) eqn:E3; try (by eexists); destruct Hl; unfold live; auto.
  - destruct (_ && _); [|by eexists]. eexists; split; [done|]. by destruct (row_state row).
Qed.

Lemma no_record_verdict_spec row pod job deleted secs :
  row_state row = Queued ∨ row_state row = Running →
  ∃ vd, no_record_verdict row pod job deleted secs = Some vd
    ∧ (∀ e r, vd ≠ RecordEvidence e r) ∧ (∀ r, vd ≠ ApplyRecord r)
    ∧ (∀ e r, vd ≠ SettleCanceled e r) ∧ (∀ e r, vd ≠ CompleteRestart e r)
    ∧ (∀ x d, vd = FailResources x d ↔
         reason_of pod = Some "OOMKilled" ∧ x = "OOMKilled" ∧ d = None
         ∨ reason_of pod ≠ Some "OOMKilled" ∧
           ∃ p, pod = Some p ∧ evicted p ∧ x = "Evicted" ∧ d = termination_message p)
    ∧ (vd = FailNoRecord ↔ row_state row = Running ∧ NO_RECORD_BOUND_SECS ≤ secs
         ∧ ¬ platform_word pod job deleted).
Proof.
  intros Hrow. unfold no_record_verdict, platform_word, evicted.
  destruct (decide (reason_of pod = Some "OOMKilled")) as [Ho|Ho].
  { eexists; split; [done|]. repeat split; naive_solver. }
  destruct (p ← pod; _) as [vd|] eqn:Ep.
  { eexists; split; [done|]. apply bind_Some in Ep as (p & -> & Ep). case_decide as He.
    - injection Ep as <-. repeat split; naive_solver.
    - apply fmap_Some in Ep as (t & Ht & ->). repeat split; naive_solver. }
  assert (∀ p, pod = Some p → status_reason p ≠ Some "Evicted" ∧ disruption_target p = None) as Hp.
  { intros p ->. simpl in Ep. case_decide as He; [done|].
    destruct (disruption_target p) eqn:Hd; [done|]. naive_solver. }
  clear Ep. assert (∀ x d, ¬ (∃ p, pod = Some p ∧ (status_reason p = Some "Evicted" ∧
    disruption_target p = None) ∧ x = "Evicted" ∧ d = termination_message p)) as Hne.
  { intros x d (p & -> & [He _] & _). by apply (Hp p eq_refl). }
  destruct (failed_deadline job) eqn:Hdl; [eexists; split; [done|]; repeat split; naive_solver|].
  destruct (decide (exit_code_of pod = Some 137)) as [H137|H137];
    [eexists; split; [done|]; repeat split; naive_solver|].
  destruct deleted; [eexists; split; [done|]; repeat split; naive_solver|].
  assert (¬ (reason_of pod = Some "OOMKilled" ∨ (∃ p, pod = Some p ∧
    (status_reason p = Some "Evicted" ∨ is_Some (disruption_target p)))
    ∨ false = true ∨ exit_code_of pod = Some 137 ∨ false = true)) as Hno.
  { intros [?|[(p & -> & [?|[? Hd]])|[?|[?|?]]]]; try done; destruct (Hp p eq_refl) as [? Hd'];
      [done|congruence]. }
  destruct Hrow as [-> | ->]; [eexists; split; [done|]; repeat split; naive_solver|].
  eexists; split; [done|]. destruct (Z.leb_spec NO_RECORD_BOUND_SECS secs);
    (do 4 (split; [done|])); (split;
      [intros x d; split; [done|intros [[? _]|[_ ?]]; [done|by destruct (Hne x d)]]|]).
  - by repeat split.
  - split; [done|]. intros (_ & ? & _). lia.
Qed.
End lemmas.

(** ** Properties *)

(** The classifier decides every case, never reaching its [unreachable!],
    and each verdict is given exactly on its evidence.  A landed finish is only
    annotated.  A verdict that reads the pod (a record, a failure, a relaunch)
    needs a live row and a pod in a terminal phase or deleted.  A record is
    applied exactly when it parses, was not interrupted and does not report an
    unreachable control plane.  A resource failure is an [OOMKilled] reason or
    an eviction without a disruption target, never the exit code, and a running
    row fails without a record exactly when the bound has passed and the
    platform has no word of its own. *)
Theorem terminal_correct from_str row pod job deleted secs :
  ∃ vd, terminal from_str row pod job deleted secs = Some vd
    ∧ (∀ e r, vd = RecordEvidence e r ↔
         finish_landed row = true ∧ e = exit_code_of pod ∧ r = reason_of pod)
    ∧ (∀ rec, vd = ApplyRecord rec ↔
         live row pod deleted ∧ record_of from_str pod = Some rec ∧ state rec ≠ Interrupted
         ∧ termination_reason rec ≠ Some "control_plane_unreachable")
    ∧ (∀ x d, vd = FailResources x d ↔
         live row pod deleted ∧ record_of from_str pod = None
         ∧ (reason_of pod = Some "OOMKilled" ∧ x = "OOMKilled" ∧ d = None
            ∨ reason_of pod ≠ Some "OOMKilled" ∧
              ∃ p, pod = Some p ∧ evicted p ∧ x = "Evicted" ∧ d = termination_message p))
    ∧ (vd = FailNoRecord ↔
         live row pod deleted ∧ record_of from_str pod = None ∧ row_state row = Running
         ∧ NO_RECORD_BOUND_SECS ≤ secs ∧ ¬ platform_word pod job deleted)
    ∧ (∀ r, vd = Requeue r → live row pod deleted)
    ∧ (∀ e r, vd = SettleCanceled e r → row_state row = Canceling)
    ∧ (∀ e r, vd = CompleteRestart e r → row_state row = Restarting).
Proof.
  destruct (decide (live row pod deleted)) as [Hl|Hl].
  2:{ destruct (terminal_not_live from_str row pod job deleted secs Hl) as (vd & -> & Hvd).
      exists vd. split; [done|]. destruct vd; repeat split; try naive_solver;
        intros (? & _); destruct_and?; congruence. }
  rewrite terminal_live by done. pose proof Hl as (Hfin & _ & Hrow).
  destruct (record_of from_str pod) as [rec|] eqn:Hrec.
  - assert (interrupted_verdict pod job deleted = TimedOut ∨
      ∃ r, interrupted_verdict pod job deleted = Requeue r) as Hint.
    { unfold interrupted_verdict. repeat (case_match || case_decide); eauto. }
    repeat case_decide; [destruct Hint as [-> | [r ->]]|..];
      (eexists; split; [done|]; split; [|split; [|split; [|split; [|done]]]]);
      try (intros; split; [done|]; intros (? & ? & ?); congruence);
      (intros r0; split; [by intros [= <-]|]; intros (_ & [= <-] & ? & ?); done).
  - destruct (no_record_verdict_spec from_str row pod job deleted secs Hrow)
      as (vd & -> & H1 & H2 & H3 & H4 & H5 & H6).
    exists vd. split; [done|]. split; [|split; [|split; [|split; [|split; [|split]]]]].
    + intros e r. split; [by intros ?%H1|]. intros (? & _). congruence.
    + intros r. split; [by intros ?%H2|naive_solver].
    + intros x d. rewrite H5. tauto.
    + rewrite H6. tauto.
    + done.
    + by intros e r ?%H3.
    + by intros e r ?%H4.
Qed.

(** A pre-start verdict is given only once its bound has passed and is
    stable: with every clock later it is the same.  When the clocks pass all
    bounds, the dispatcher keeps waiting exactly for a pod that is neither
    fatally waiting nor unschedulable, or for a job that still counts an active
    pod. *)
Theorem pre_start_correct pod job ev f u n :
  (pre_start pod job ev f u n ≠ Wait →
     ∀ f' u' n', f ≤ f' → u ≤ u' → n ≤ n' →
       pre_start pod job ev f' u' n' = pre_start pod job ev f u n)
  ∧ (FATAL_WAIT_BOUND_SECS ≤ f → UNSCHEDULABLE_BOUND_SECS ≤ u → NO_POD_BOUND_SECS ≤ n →
     pre_start pod job ev f u n = Wait ↔
       match pod with
       | Some p => (∀ r, waiting_reason p = Some r → r ∉ FATAL_WAITING_REASONS)
                   ∧ unschedulable p = false
       | None => active job ≠ 0
       end).
Proof.
  unfold pre_start. destruct pod as [p|].
  - destruct (waiting_reason p) as [r|]; [simpl; case_decide as Hr; simpl|simpl].
    + split.
      * intros Hw f' u' n' ???. repeat case_match; try done; lia.
      * intros. case_match; [|lia]. split; [done|]. intros [Hn _]. by destruct (Hn r).
    + split.
      * intros Hw f' u' n' ???. repeat case_match; try done; lia.
      * intros. repeat case_match; try lia; split; try done; [by intros [_ ?]|].
        intros _. split; [|done]. by intros ? [= <-].
    + split.
      * intros Hw f' u' n' ???. repeat case_match; try done; lia.
      * intros. repeat case_match; try lia; split; try done; by intros [_ ?].
  - split.
    + destruct (Z.eqb_spec (active job) 0); simpl; [|done].
      intros Hw f' u' n' ? ? ?. destruct (Z.leb_spec NO_POD_BOUND_SECS n); [|done].
      by destruct (Z.leb_spec NO_POD_BOUND_SECS n'); [|lia].
    + intros. destruct (Z.eqb_spec (active job) 0); simpl; [|done].
      destruct (Z.leb_spec NO_POD_BOUND_SECS n); [|lia]. repeat case_match; done.
Qed.

Module SampleEvidence.
Definition pod (ph : PodPhase) (code : option Z) (wait : option string) : PodSnapshot :=
  mkPod "er-t" "uid-1" None ∅ ∅ ph wait code None None None None false None false.
Definition job : JobSnapshot := mkJob "er-t" ∅ ∅ 0 0 0 false false false.
Definition running : RowView := mkRow Running false.
End SampleEvidence.

Lemma pre_start_correct_witness :
  pre_start (Some (SampleEvidence.pod PodPending None (Some "ErrImagePull"))) SampleEvidence.job
    None 3600 0 0 = RequeueLaunch "ErrImagePull" None
  ∧ pre_start None SampleEvidence.job None 60 600 60 ≠ Wait.
Proof.
  split.
  - rewrite (proj1 (pre_start_correct _ SampleEvidence.job None 60 0 0)); [|vm_compute; done|lia..].
    vm_compute. reflexivity.
  - intros H. apply (proj2 (pre_start_correct None SampleEvidence.job None 60 600 60)) in H; [done|by vm_compute..].
Defined.

(** The exit code is an input of the classifier, which its documentation
    rules out: two pods that differ in the exit code alone, both failed without
    a record and without a reason, get a relaunch and a failure. *)
Theorem exit_code_classifies from_str :
  terminal from_str SampleEvidence.running (Some (SampleEvidence.pod PodFailed (Some 137) None))
    SampleEvidence.job false 60 = Some (Requeue "sigkill")
  ∧ terminal from_str SampleEvidence.running (Some (SampleEvidence.pod PodFailed (Some 1) None))
      SampleEvidence.job false 60 = Some FailNoRecord.
Proof. split; vm_compute; reflexivity. Qed.
