(* ===== verification/Satoken.v ===== *)
(** * Service-account tokens

    [er-server/src/satoken.rs]: the verifier of the tokens Kubernetes gives to
    pods, with its cache of the cluster's keys.  What the JSON Web Token library
    does (the header, the signature with its audience and validity) and the
    documents of the key set are parameters; time is in seconds. *)

From S2P Require Import Prelude.
From Stdlib Require Import Ascii.

#[local] Open Scope Z_scope.

(** ** Definitions *)

Definition AUDIENCE : string := "er-control-plane".
Definition LEEWAY_SECS : Z := 30.
Definition REFRESH_AFTER : Z := 3600.
Definition UNKNOWN_KID_FETCH_FLOOR : Z := 60.

Record PodClaims := mkPodClaims {
  claims_namespace : string;
  claims_pod_name : string;
  claims_pod_uid : string;
  claims_service_account : string;
}.

Inductive Algorithm := RS256 | ES256 | OtherAlgorithm.

#[global] Instance Algorithm_eq_dec : EqDecision Algorithm.
Proof. solve_decision. Defined.

Inductive VerifyError :=
| BadHeader
| NoKid
| BadAlgorithm (alg : Algorithm)
| UnknownKid (kid : string)
| FetchFailed (why : string)
| Invalid
| NoPod.

(** The decoded header, and the claims this server reads. *)
Record Header := mkHeader { header_alg : Algorithm; header_kid : option string }.

Record TokenClaims := mkTokenClaims {
  k8s_namespace : string;
  k8s_pod : option (string * string);
  k8s_serviceaccount : option string;
}.

(** A key of the set: its id, the key when the library can build one, and the
    algorithm of its parameters. *)
Record Jwk (Key : Type) := mkJwk {
  jwk_kid : option string;
  jwk_key : option Key;
  jwk_alg : Algorithm;
}.
Arguments mkJwk {Key} _ _ _.
Arguments jwk_kid {Key} _.
Arguments jwk_key {Key} _.
Arguments jwk_alg {Key} _.

Record Cache (Key : Type) := mkCache {
  cache_keys : list (string * Key * Algorithm);
  fetched_at : option Z;
}.
Arguments mkCache {Key} _ _.
Arguments cache_keys {Key} _.
Arguments fetched_at {Key} _.

Section verifier.
Context {Key : Type}.
(** [decode_header], [decode] and the parsing of a fetched body. *)
Context (decode_header : string → option Header).
Context (decode : string → Key → Algorithm → string → Z → Z → option TokenClaims).
Context (parse_set : string → result (list (Jwk Key)) string).

(** The keys a set yields: one with no id, with no key, or of another kind is
    passed over. *)
Definition keys_of (set_ : list (Jwk Key)) : list (string * Key * Algorithm) :=
  omap (λ jwk,
    match jwk_kid jwk, jwk_key jwk, jwk_alg jwk with
    | Some kid, Some key, RS256 => Some (kid, key, RS256)
    | Some kid, Some key, ES256 => Some (kid, key, ES256)
    | _, _, _ => None
    end) set_.

(** One fetch, answered by [body]; a failure leaves the cache. *)
Definition refresh (now : Z) (body : result string string) (cache : Cache Key) :
    result (Cache Key) VerifyError :=
  match body with
  | Err e => Err (FetchFailed e)
  | Ok body =>
      match parse_set body with
      | Err e => Err (FetchFailed e)
      | Ok set_ => Ok (mkCache (keys_of set_) (Some now))
      end
  end.

Definition has_kid (kid : string) (cache : Cache Key) : bool :=
  existsb (λ '(k, _, _), bool_decide (k = kid)) (cache_keys cache).

Definition find_kid (kid : string) (cache : Cache Key) : option (string * Key * Algorithm) :=
  find_first (λ '(k, _, _), bool_decide (k = kid)) (cache_keys cache).

Definition stale (now : Z) (cache : Cache Key) : bool :=
  match fetched_at cache with Some at_ => REFRESH_AFTER <=? now - at_ | None => true end.

Definition recently (now : Z) (cache : Cache Key) : bool :=
  match fetched_at cache with
  | Some at_ => now - at_ <? UNKNOWN_KID_FETCH_FLOOR
  | None => false
  end.

Definition claims_of (data : TokenClaims) : result PodClaims VerifyError :=
  match k8s_pod data with
  | None => Err NoPod
  | Some (name, uid) =>
      Ok (mkPodClaims (k8s_namespace data) name uid (default "" (k8s_serviceaccount data)))
  end.

(** A refresh under [need], with the times it fetched; the answers of the
    source are consumed in order. *)
Definition refresh_if (need : bool) (now : Z) (bodies : list (result string string))
    (cache : Cache Key) :
    result (Cache Key) VerifyError * Cache Key * list (result string string) * nat :=
  if need then
    match bodies with
    | [] => (Err (FetchFailed ""), cache, [], 1%nat)
    | body :: bodies =>
        match refresh now body cache with
        | Ok cache' => (Ok cache', cache', bodies, 1%nat)
        | Err e => (Err e, cache, bodies, 1%nat)
        end
    end
  else (Ok cache, cache, bodies, 0%nat).

(** The check under the cache's lock, once the key set is current. *)
Definition verify_with (now : Z) (token kid : string) (cache : Cache Key) :
    result PodClaims VerifyError :=
  match find_kid kid cache with
  | None => Err (UnknownKid kid)
  | Some (_, key, alg) =>
      match decode token key alg AUDIENCE LEEWAY_SECS now with
      | None => Err Invalid
      | Some data => claims_of data
      end
  end.

(** The verdict, the cache after it and the number of fetches. *)
Definition verify (now : Z) (token : string) (bodies : list (result string string))
    (cache : Cache Key) : result PodClaims VerifyError * Cache Key * nat :=
  match decode_header token with
  | None => (Err BadHeader, cache, 0%nat)
  | Some header =>
      match header_alg header with
      | OtherAlgorithm => (Err (BadAlgorithm OtherAlgorithm), cache, 0%nat)
      | _ =>
          match header_kid header with
          | None => (Err NoKid, cache, 0%nat)
          | Some kid =>
              match refresh_if (stale now cache) now bodies cache with
              | (Err e, cache, _, n) => (Err e, cache, n)
              | (Ok _, cache, bodies, n) =>
                  match refresh_if (negb (has_kid kid cache) && negb (recently now cache))
                          now bodies cache with
                  | (Err e, cache, _, m) => (Err e, cache, (n + m)%nat)
                  | (Ok _, cache, _, m) => (verify_with now token kid cache, cache, (n + m)%nat)
                  end
              end
          end
      end
  end.

(** A run of the verifier: each call comes with its time, its token and what
    the source would answer; the times of the fetches that succeeded. *)
Record Call := mkCall { call_at : Z; call_token : string; call_bodies : list (result string string) }.

Definition fetched_now (now : Z) (cache cache' : Cache Key) (n : nat) : list Z :=
  if bool_decide (n ≠ 0%nat) && bool_decide (fetched_at cache' = Some now) then [now] else [].

Fixpoint run_calls (calls : list Call) (cache : Cache Key) : list Z :=
  match calls with
  | [] => []
  | c :: calls =>
      let '(_, cache', n) := verify (call_at c) (call_token c) (call_bodies c) cache in
      fetched_now (call_at c) cache cache' n ++ run_calls calls cache'
  end.

Fixpoint count_dots (s : string) : nat :=
  match s with
  | EmptyString => 0
  | String c s => if Ascii.eqb c "."%char then S (count_dots s) else count_dots s
  end.

Definition looks_like_jwt (token : string) : bool :=
  (count_dots token =? 2)%nat && bool_decide (is_Some (decode_header token)).
End verifier.

(** ** Lemmas *)

Section lemmas.
Context {Key : Type}.
Context (decode_header : string → option Header).
Context (decode : string → Key → Algorithm → string → Z → Z → option TokenClaims).
Context (parse_set : string → result (list (Jwk Key)) string).

#[local] Abbreviation verify := (verify decode_header decode parse_set).

(** Keys are of the two algorithms the header may name. *)
Definition keys_ok (cache : Cache Key) : Prop :=
  ∀ kid key alg, (kid, key, alg) ∈ cache_keys cache → alg = RS256 ∨ alg = ES256.

Lemma keys_of_ok set_ kid key alg :
  (kid, key, alg) ∈ keys_of (Key := Key) set_ → alg = RS256 ∨ alg = ES256.
Proof.
  unfold keys_of. rewrite list_elem_of_omap. intros (jwk & _ & H).
  destruct (jwk_kid jwk), (jwk_key jwk), (jwk_alg jwk); simplify_eq; auto.
Qed.

Lemma find_kid_spec kid (cache : Cache Key) k key alg :
  find_kid kid cache = Some (k, key, alg) → k = kid ∧ (kid, key, alg) ∈ cache_keys cache.
Proof.
  unfold find_kid. intros [Hin Hk]%find_first_Some. apply bool_decide_eq_true in Hk as ->. done.
Qed.

(** What a call does to the cache: nothing, or one fetch that succeeds. *)
Inductive cache_step (now : Z) (cache : Cache Key) : Cache Key → nat → Prop :=
| step_keep : cache_step now cache cache 0
| step_failed : stale now cache = true ∨ recently now cache = false → cache_step now cache cache 1
| step_fetch set_ :
    stale now cache = true ∨ recently now cache = false →
    cache_step now cache (mkCache (keys_of set_) (Some now)) 1.

Lemma recently_fresh now keys : recently now (mkCache (Key := Key) keys (Some now)) = true.
Proof. unfold recently. simpl. apply Z.ltb_lt. unfold UNKNOWN_KID_FETCH_FLOOR. lia. Qed.

Lemma stale_not_recently now (cache : Cache Key) :
  stale now cache = true → recently now cache = false.
Proof.
  unfold stale, recently, REFRESH_AFTER, UNKNOWN_KID_FETCH_FLOOR.
  destruct (fetched_at cache); [|done]. rewrite Z.leb_le, Z.ltb_ge. lia.
Qed.

(** One refresh, and what its answer can be. *)
Lemma refresh_if_spec need now bodies cache r cache' rest n :
  refresh_if parse_set need now bodies cache = (r, cache', rest, n) →
  (need = false ∧ r = Ok cache ∧ cache' = cache ∧ n = 0%nat)
  ∨ need = true ∧ n = 1%nat
    ∧ ((∃ e, r = Err (FetchFailed e) ∧ cache' = cache)
       ∨ ∃ set_, r = Ok cache' ∧ cache' = mkCache (keys_of set_) (Some now)).
Proof.
  unfold refresh_if, refresh. destruct need; [|intros [= <- <- <- <-]; by left].
  destruct bodies as [|[body|e] bodies].
  - intros [= <- <- <- <-]. right. eauto 6.
  - destruct (parse_set body); intros [= <- <- <- <-]; right; eauto 6.
  - intros [= <- <- <- <-]. right. eauto 6.
Qed.

Lemma verify_spec now token bodies cache r cache' n :
  verify now token bodies cache = (r, cache', n) →
  cache_step now cache cache' n
  ∧ ∀ claims, r = Ok claims →
      stale now cache' = false
      ∧ ∃ header kid key alg data,
          decode_header token = Some header ∧ header_alg header ≠ OtherAlgorithm
          ∧ header_kid header = Some kid ∧ (kid, key, alg) ∈ cache_keys cache'
          ∧ decode token key alg AUDIENCE LEEWAY_SECS now = Some data
          ∧ claims_of data = Ok claims.
Proof.
  unfold Satoken.verify. intros H.
  destruct (decode_header token) as [header|]; [|simplify_eq; by split; [constructor|]].
  destruct (decide (header_alg header = OtherAlgorithm)) as [E|E].
  { rewrite E in H. simplify_eq. by split; [constructor|]. }
  assert (∀ A (x y : A), match header_alg header with OtherAlgorithm => x | _ => y end = y) as Halg
    by (intros; by destruct (header_alg header)).
  rewrite Halg in H. clear Halg.
  destruct (header_kid header) as [kid|] eqn:Ekid; [|simplify_eq; by split; [constructor|]].
  destruct (refresh_if _ (stale now cache) _ _ _) as [[[r1 c1] b1] n1] eqn:E1.
  apply refresh_if_spec in E1.
  destruct r1 as [c1'|e1].
  2:{ destruct E1 as [(? & ? & _)|(Hs & -> & [(e & [= ->] & ->)|(? & ? & _)])]; [done| |done].
      simplify_eq. split; [by constructor; left|done]. }
  destruct (refresh_if _ _ now b1 c1) as [[[r2 c2] b2] n2] eqn:E2.
  apply refresh_if_spec in E2.
  assert (cache_step now cache c2 (n1 + n2) ∧ ∀ x, r2 = Ok x → stale now c2 = false) as [Hstep Hst].
  { destruct E1 as [(Hs & _ & -> & ->)|(Hs & -> & [(? & ? & _)|(set1 & _ & ->)])]; [|done|].
    - destruct E2 as [(_ & _ & -> & ->)|(Hn & -> & [(e & -> & ->)|(set2 & _ & ->)])]; simpl.
      + split; [constructor|done].
      + apply andb_true_iff in Hn as [_ Hn%negb_true_iff]. split; [by constructor; right|done].
      + apply andb_true_iff in Hn as [_ Hn%negb_true_iff]. split; [by constructor; right|].
        intros _ _. unfold stale. simpl. apply Z.leb_gt. unfold REFRESH_AFTER. lia.
    - rewrite recently_fresh, andb_false_r in E2.
      destruct E2 as [(_ & _ & -> & ->)|(? & _)]; [|done]. simpl. split; [by constructor; left|].
      intros _ _. unfold stale. simpl. apply Z.leb_gt. unfold REFRESH_AFTER. lia. }
  destruct r2 as [x|e]; simplify_eq; split; try done.
  intros claims Hv. split; [by eapply Hst|]. unfold verify_with in Hv.
  destruct (find_kid kid cache') as [[[k key] alg]|] eqn:Ef; [|done].
  apply find_kid_spec in Ef as [-> Hin].
  destruct (decode _ _ _ _ _ _) as [data|] eqn:Ed; [|done].
  exists header, kid, key, alg, data. done.
Qed.

(** The keys a call leaves are of the two algorithms, if those it found were. *)
Lemma cache_step_ok now cache cache' n : cache_step now cache cache' n → keys_ok cache → keys_ok cache'.
Proof. destruct 1; auto. intros _ kid key alg. simpl. apply keys_of_ok. Qed.

(** C34: a token the verifier accepts is one the cluster vouches for.  Its
    header names RS256 or ES256 and a key id; the key is in the cache under that
    id, and the cache is younger than the refresh period; the library accepted
    the token under that key with the key's own algorithm, not the one the
    header asks for, for this server's audience; and the claims are those of
    the pod the token is bound to. *)
Theorem verify_accepts now token bodies cache cache' n claims :
  keys_ok cache → verify now token bodies cache = (Ok claims, cache', n) →
  (∃ at_, fetched_at cache' = Some at_ ∧ now - at_ < REFRESH_AFTER)
  ∧ ∃ header kid key alg data name uid,
      decode_header token = Some header ∧ header_alg header ∈ [RS256; ES256]
      ∧ header_kid header = Some kid ∧ (kid, key, alg) ∈ cache_keys cache'
      ∧ alg ∈ [RS256; ES256]
      ∧ decode token key alg AUDIENCE LEEWAY_SECS now = Some data
      ∧ k8s_pod data = Some (name, uid)
      ∧ claims_pod_name claims = name ∧ claims_pod_uid claims = uid
      ∧ claims_namespace claims = k8s_namespace data.
Proof.
  intros Hok [Hstep Hv]%verify_spec.
  destruct (Hv claims eq_refl) as (Hst & header & kid & key & alg & data & Hh & Ha & Hk & Hin & Hd & Hc).
  split.
  - unfold stale in Hst. destruct (fetched_at cache') as [at_|]; [|done].
    exists at_. split; [done|]. by apply Z.leb_gt.
  - unfold claims_of in Hc. destruct (k8s_pod data) as [[name uid]|] eqn:Hp; [|done].
    injection Hc as <-. exists header, kid, key, alg, data, name, uid.
    assert (alg ∈ [RS256; ES256]).
    { destruct (cache_step_ok _ _ _ _ Hstep Hok kid key alg Hin) as [->| ->]; set_solver. }
    split_and!; try done. destruct (header_alg header); [set_solver..|done].
Qed.

(** Calls in the order of time. *)
Definition in_order (calls : list Call) : Prop := Sorted (λ a b, call_at a ≤ call_at b) calls.

Lemma cache_step_age now cache cache' n :
  cache_step now cache cache' n → (∀ at_, fetched_at cache = Some at_ → at_ ≤ now) →
  (cache' = cache ∧ (n = 0%nat ∨ fetched_at cache ≠ Some now))
  ∨ fetched_at cache' = Some now
    ∧ ∀ at_, fetched_at cache = Some at_ → UNKNOWN_KID_FETCH_FLOOR ≤ now - at_.
Proof.
  intros Hs Hle. assert (stale now cache = true ∨ recently now cache = false →
    ∀ at_, fetched_at cache = Some at_ → UNKNOWN_KID_FETCH_FLOOR ≤ now - at_) as Hage.
  { intros [Hst%stale_not_recently|Hr] at_ E; unfold recently in *; rewrite E in *; by apply Z.ltb_ge. }
  destruct Hs as [|H|set_ H]; [by left; auto| |right; auto].
  left. split; [done|]. right. intros E. specialize (Hage H now E). revert Hage.
  unfold UNKNOWN_KID_FETCH_FLOOR. lia.
Qed.

Lemma run_calls_floored calls cache :
  in_order calls →
  (∀ c at_, c ∈ calls → fetched_at cache = Some at_ → at_ ≤ call_at c) →
  Sorted (λ a b, UNKNOWN_KID_FETCH_FLOOR ≤ b - a)
    (match fetched_at cache with Some a => [a] | None => [] end
     ++ run_calls decode_header decode parse_set calls cache).
Proof.
  revert cache. induction calls as [|c calls IH]; intros cache Hord Hle; simpl.
  { rewrite app_nil_r. destruct (fetched_at cache); repeat constructor. }
  destruct (verify (call_at c) (call_token c) (call_bodies c) cache) as [[r cache'] n] eqn:E.
  apply verify_spec in E as [Hs _]. inversion Hord as [|? ? Hord' Hhd]; subst.
  apply Sorted_StronglySorted in Hord as Hstr; [|intros ???; lia].
  inversion Hstr as [|? ? _ Hall]; subst. rewrite Forall_forall in Hall.
  assert (∀ at_, fetched_at cache = Some at_ → at_ ≤ call_at c) as Hc.
  { intros at_. apply Hle, list_elem_of_here. }
  unfold fetched_now.
  destruct (cache_step_age _ _ _ _ Hs Hc) as [[-> Hn]|[Hf Hage]].
  - assert (bool_decide (n ≠ 0%nat) && bool_decide (fetched_at cache = Some (call_at c)) = false) as ->.
    { apply andb_false_iff. destruct Hn as [->|Hn]; [by left|right; by apply bool_decide_eq_false]. }
    simpl. apply IH; [done|]. intros c' at_ Hc'. apply Hle. by apply list_elem_of_further.
  - specialize (IH cache'). rewrite Hf in IH. simpl in IH.
    assert (Sorted (λ a b, UNKNOWN_KID_FETCH_FLOOR ≤ b - a)
      (call_at c :: run_calls decode_header decode parse_set calls cache')) as Hrest.
    { apply IH; [done|]. intros c' at_ Hc' [= <-]. by apply Hall. }
    destruct (decide (n = 0%nat)) as [->|Hn].
    { inversion Hs; subst. rewrite Hf in *. simpl. exact Hrest. }
    rewrite bool_decide_eq_true_2, Hf, bool_decide_eq_true_2 by done. simpl.
    destruct (fetched_at cache) as [a|]; simpl; [|done]. constructor; [done|].
    constructor. by apply Hage.
Qed.

(** Rotation does not hammer the API server.  Over any sequence of calls in
    the order of time, whatever their tokens, the fetches that succeed are a
    minute or more apart. *)
Theorem fetches_floored calls :
  in_order calls →
  Sorted (λ a b, UNKNOWN_KID_FETCH_FLOOR ≤ b - a)
    (run_calls decode_header decode parse_set calls (mkCache [] None)).
Proof. intros H. by apply (run_calls_floored calls (mkCache [] None)). Qed.
End lemmas.

(** ** Samples *)

Module SampleTokens.

(** A token is the id of its key; the key set is one key. *)
Definition header (token : string) : option Header := Some (mkHeader RS256 (Some token)).
Definition decode (token : string) (key : unit) (_ : Algorithm) (_ : string) (_ _ : Z) :
    option TokenClaims := Some (mkTokenClaims "er" (Some ("pod-" +:+ token, "uid")) None).
Definition set (body : string) : result (list (Jwk unit)) string :=
  Ok [mkJwk (Some body) (Some tt) RS256].

Definition calls : list Call :=
  [mkCall 0 "k1" [Ok "k1"]; mkCall 10 "k2" [Ok "k2"]; mkCall 60 "k2" [Ok "k2"]].
End SampleTokens.

(** A fetch that fails is not floored: every call with an unknown key id makes
    another one, in the same second. *)
Example failed_fetches_repeat :
  (λ _, (verify SampleTokens.header SampleTokens.decode SampleTokens.set 0 "k" [Err "down"]
           (mkCache [] None)).2) <$> [1; 2; 3]%nat = [1; 1; 1]%nat
  ∧ (verify SampleTokens.header SampleTokens.decode SampleTokens.set 0 "k" [Err "down"]
       (mkCache [] None)).1.2 = mkCache [] None.
Proof. by vm_compute. Qed.

Lemma verify_accepts_witness :
  ∃ claims cache' n,
    verify SampleTokens.header SampleTokens.decode SampleTokens.set 0 "k1" [Ok "k1"] (mkCache [] None)
      = (Ok claims, cache', n)
    ∧ ∃ at_, fetched_at cache' = Some at_ ∧ 0 - at_ < REFRESH_AFTER.
Proof.
  do 3 eexists. split; [reflexivity|].
  refine (proj1 (verify_accepts SampleTokens.header SampleTokens.decode SampleTokens.set 0 "k1"
    [Ok "k1"] (mkCache [] None) _ _ _ _ eq_refl)).
  intros kid key alg H. by apply not_elem_of_nil in H.
Defined.

Lemma fetches_floored_witness :
  run_calls SampleTokens.header SampleTokens.decode SampleTokens.set SampleTokens.calls (mkCache [] None)
    = [0; 60]
  ∧ Sorted (λ a b, UNKNOWN_KID_FETCH_FLOOR ≤ b - a)
      (run_calls SampleTokens.header SampleTokens.decode SampleTokens.set SampleTokens.calls
         (mkCache [] None)).
Proof.
  split; [reflexivity|].
  apply (fetches_floored SampleTokens.header SampleTokens.decode SampleTokens.set SampleTokens.calls).
  repeat constructor; simpl; lia.
Defined.
