(* ===== verification/Auth.v ===== *)
(** * Credentials, roles and API keys

    The bearer boundary of [er-server/src/lib.rs]: who a request's credential
    makes it, what a role may do, how the audit trail names the caller; and the
    life of the API keys it reads, from [er-server/src/pg.rs] with the
    statements of [er-entities/src/api_key.rs] and [er-entities/src/org.rs].
    The hash is a parameter, as is the outcome of connecting; the history
    tables the database's triggers write are not modelled. *)

From S2P Require Import Prelude Ids Text Json Sql.
From Stdlib Require Import Ascii.

#[local] Open Scope Z_scope.

(** ** Definitions *)

(** *** Responses *)

Definition Response : Type := Z * json.

Definition detail_err (code : Z) (msg : string) : Response :=
  (code, JObject [("detail", JString msg)]).

Definition unauthorized (msg : string) : Response := detail_err 401 msg.

(** [db_text] is the database's own wording of a failure. *)
Definition pg_err (db_text : DbError → string) (e : DbError) : Response :=
  detail_err 500 ("db: " +:+ db_text e).

(** *** Roles *)

Inductive Role := Viewer | Steward | Admin | Operator.

#[global] Instance Role_eq_dec : EqDecision Role.
Proof. solve_decision. Defined.

(** The derived order. *)
Definition rank (r : Role) : Z :=
  match r with Viewer => 0 | Steward => 1 | Admin => 2 | Operator => 3 end.

Definition role_as_str (r : Role) : string :=
  match r with
  | Viewer => "viewer" | Steward => "steward" | Admin => "admin" | Operator => "operator"
  end.

Definition role_parse (s : string) : option Role :=
  if decide (s = "viewer") then Some Viewer
  else if decide (s = "steward") then Some Steward
  else if decide (s = "admin") then Some Admin
  else if decide (s = "operator") then Some Operator
  else None.

Definition parse_key_role (s : string) : option Role :=
  r ← role_parse s;
  match r with Operator => None | r => Some r end.

(** *** Comparing secrets *)

(** Every byte of both is read, and the differences are gathered. *)
Definition ct_eq (a b : string) : bool :=
  if negb (String.length a =? String.length b)%nat then false
  else
    (foldl (λ diff '(x, y), N.lor diff (N.lxor (N_of_ascii x) (N_of_ascii y))) 0%N
       (zip (String.list_ascii_of_string a) (String.list_ascii_of_string b)) =? 0)%N.

Definition hash_secret (sha256 : string → list Z) (secret : string) : string :=
  hex_of (sha256 secret).

(** *** The caller *)

Record Principal := mkPrincipal {
  actor : string;
  p_org : option string;
  p_role : Role;
  trace_context : option string;
}.

(** The first value of a header, when it is text. *)
Definition Headers : Type := string → option string.

Definition ACTING_USER_MAX : nat := 128.
Definition TRACEPARENT_LEN : nat := 55.

Definition is_ascii_graphic : ascii → bool := byte_in 33 126.

Definition acceptable_actor (raw : string) : bool :=
  negb (bool_decide (raw = "")) && (String.length raw <=? ACTING_USER_MAX)%nat
  && all_bytes (λ c, is_ascii_graphic c && negb (bool_decide (c = "034"%char))
                     && negb (bool_decide (c = "092"%char))) raw.

Definition forwarded_actor (h : Headers) : option string :=
  raw ← trim <$> h "x-acting-user";
  if acceptable_actor raw then Some raw else None.

Definition is_hexdigit (c : ascii) : bool :=
  byte_in 48 57 c || byte_in 97 102 c || byte_in 65 70 c.

Definition hex (s : string) (n : nat) : bool :=
  (String.length s =? n)%nat && all_bytes is_hexdigit s.

Definition lower (s : string) : bool := all_bytes (λ c, negb (byte_in 65 90 c)) s.

Definition nonzero (s : string) : bool := any_byte (λ c, negb (bool_decide (c = "0"%char))) s.

Definition acceptable_traceparent (raw : string) : bool :=
  if negb (String.length raw =? TRACEPARENT_LEN)%nat then false
  else
    match split_on "-" raw with
    | [version; trace_id; span_id; flags] =>
        hex version 2 && bool_decide (version = "00") && hex trace_id 32 && nonzero trace_id
        && hex span_id 16 && nonzero span_id && hex flags 2 && lower raw
    | _ => false
    end.

Definition forwarded_traceparent (h : Headers) : option string :=
  raw ← trim <$> h "traceparent";
  if acceptable_traceparent raw then Some raw else None.

Definition compose_actor (credential : string) (user : option string) : string :=
  match user with
  | Some user => "user:" +:+ user +:+ " via " +:+ credential
  | None => credential
  end.

(** *** The tables *)

Record OrgRow := mkOrg {
  o_id : string;
  o_name : string;
  o_config_path : string;
  o_env : json;
  o_drop_root : option string;
  o_s3_ingest_bucket : option string;
  o_s3_ingest_prefix : option string;
  o_active_config_version : option Z;
  o_state : string;
  o_max_concurrent_jobs : option Z;
  o_created_at : Z;
  o_updated_at : Z;
}.

#[global] Instance OrgRow_eta : Etable OrgRow :=
  λ o, mkOrg (o_id o) (o_name o) (o_config_path o) (o_env o) (o_drop_root o)
    (o_s3_ingest_bucket o) (o_s3_ingest_prefix o) (o_active_config_version o) (o_state o)
    (o_max_concurrent_jobs o) (o_created_at o) (o_updated_at o).

Record ApiKey := mkKey {
  k_id : string;
  k_org_id : string;
  k_role : string;
  k_key_hash : string;
  k_created_at : Z;
  k_revoked_at : option Z;
  k_updated_at : Z;
}.

#[global] Instance ApiKey_eta : Etable ApiKey :=
  λ k, mkKey (k_id k) (k_org_id k) (k_role k) (k_key_hash k) (k_created_at k) (k_revoked_at k)
    (k_updated_at k).

Record AuditRow := mkAudit {
  a_actor : string;
  a_org : option string;
  a_dataset : option string;
  a_action : string;
  a_detail : json;
  a_trace_id : option string;
}.

(** The tables of the control database this part reads and writes. *)
Record ControlDb := mkControl {
  orgs : list OrgRow;
  api_keys : list ApiKey;
  audit_log : list AuditRow;
}.

#[global] Instance ControlDb_eta : Etable ControlDb :=
  λ c, mkControl (orgs c) (api_keys c) (audit_log c).

Definition KEY_ROLES : list string := ["admin"; "steward"; "viewer"].
Definition ORG_STATES : list string := ["provisioning"; "active"; "suspended"; "purging"].

(** [CREATE TABLE public.orgs], [public.api_keys]. *)
Definition orgs_valid (l : list OrgRow) : bool :=
  forallb (λ o, bool_decide (o_state o ∈ ORG_STATES)) l.

Definition orgs_unique (l : list OrgRow) : bool :=
  unique (λ _, true) o_id l && unique (λ _, true) o_name l.

Definition keys_valid (os : list OrgRow) (l : list ApiKey) : bool :=
  forallb (λ k, bool_decide (k_role k ∈ KEY_ROLES) && bool_decide (k_org_id k ∈ o_id <$> os)) l.

Definition keys_unique (l : list ApiKey) : bool := unique (λ _, true) k_id l.

Section tables.
Context (now : Z).

Definition update_orgs (where_ : OrgRow → bool) (set : OrgRow → OrgRow) :
    stmt ControlDb (list OrgRow) := λ c,
  let '(l, ret) := update_rows where_ set (orgs c) in
  install (orgs_valid l) (orgs_unique l) ret (c <| orgs := l |>).

(** [api_key/create/issue], [read/live_by_id], [update/revoke]. *)
Definition issue (key_id org_id role key_hash : string) : stmt ControlDb nat := λ c,
  let l := api_keys c ++ [mkKey key_id org_id role key_hash now None now] in
  install (keys_valid (orgs c) l) (keys_unique l) 1%nat (c <| api_keys := l |>).

Definition live_by_id (key_id : string) (c : ControlDb) : list ApiKey :=
  filter (λ k, k_id k = key_id ∧ k_revoked_at k = None) (api_keys c).

Definition revoke (key_id org_id : string) : stmt ControlDb nat := λ c,
  let '(l, ret) := update_rows
    (λ k, bool_decide (k_id k = key_id) && bool_decide (k_org_id k = org_id)
          && bool_decide (k_revoked_at k = None))
    (λ k, k <| k_revoked_at := Some now |> <| k_updated_at := now |>) (api_keys c) in
  install (keys_valid (orgs c) l) (keys_unique l) (length ret) (c <| api_keys := l |>).

(** [org/read/by_id], [by_name], [org/create/upsert_byo], [org/update/set_state]. *)
Definition org_by_id (id : string) (c : ControlDb) : list OrgRow :=
  filter (λ o, o_id o = id) (orgs c).

Definition org_by_name (name : string) (c : ControlDb) : list OrgRow :=
  filter (λ o, o_name o = name) (orgs c).

Definition upsert_byo (id name config_path : string) (env : json)
    (drop_root s3_ingest_bucket s3_ingest_prefix : option string) : stmt ControlDb nat :=
  c ← get;
  if existsb (λ o, bool_decide (o_name o = name)) (orgs c) then
    ret ← update_orgs (λ o, bool_decide (o_name o = name))
      (λ o, o <| o_config_path := config_path |> <| o_env := env |>
        <| o_drop_root := drop_root |> <| o_s3_ingest_bucket := s3_ingest_bucket |>
        <| o_s3_ingest_prefix := s3_ingest_prefix |> <| o_updated_at := now |>);
    mret (length ret)
  else λ c,
    let l := orgs c ++ [mkOrg id name config_path env drop_root s3_ingest_bucket
                          s3_ingest_prefix None "active" None now now] in
    install (orgs_valid l) (orgs_unique l) 1%nat (c <| orgs := l |>).

Definition set_state (new_state name expected : string) : stmt ControlDb nat :=
  ret ← update_orgs (λ o, bool_decide (o_name o = name) && bool_decide (o_state o = expected))
    (λ o, o <| o_state := new_state |> <| o_updated_at := now |>);
  mret (length ret).

Definition set_active_config (version : Z) (name : string) : stmt ControlDb nat :=
  ret ← update_orgs (λ o, bool_decide (o_name o = name))
    (λ o, o <| o_active_config_version := Some version |> <| o_updated_at := now |>);
  mret (length ret).

(** [env || $1], with [jsonb]'s own concatenation. *)
Definition merge_env (concat : json → json → json) (updates : json) (name : string) :
    stmt ControlDb nat :=
  ret ← update_orgs (λ o, bool_decide (o_name o = name))
    (λ o, o <| o_env := concat (o_env o) updates |> <| o_updated_at := now |>);
  mret (length ret).

(** [audit_log/create/append]. *)
Definition append (row : AuditRow) (c : ControlDb) : ControlDb :=
  c <| audit_log := audit_log c ++ [row] |>.

(** *** [pg.rs] *)

Context (sha256 : string → list Z).

(** The identifier and the 24 random bytes are drawn outside. *)
Definition issue_key (key_id : string) (buf : list Z) (org_id role : string) :
    stmt ControlDb (string * string) :=
  let secret := hex_of buf in
  _ ← issue key_id org_id role (hash_secret sha256 secret);
  mret (key_id, "erk_" +:+ key_id +:+ "_" +:+ secret).

Definition pg_revoke_key (key_id org_id : string) : stmt ControlDb bool :=
  n ← revoke key_id org_id; mret (n =? 1)%nat.

Definition lookup_key (key_id : string) (c : ControlDb) : option (string * string * string) :=
  (λ k, (k_org_id k, k_role k, k_key_hash k)) <$> head (live_by_id key_id c).

Definition get_org_by_id (id : string) (c : ControlDb) : option OrgRow := head (org_by_id id c).
Definition get_org (name : string) (c : ControlDb) : option OrgRow := head (org_by_name name c).

Definition set_org_state (name new_state expected : string) : stmt ControlDb bool :=
  n ← set_state new_state name expected; mret (n =? 1)%nat.
End tables.

(** *** The boundary *)

Record AppState := mkState {
  operator_token : string;
  dsn : option string;
}.

Section boundary.
Context (sha256 : string → list Z) (db_text : DbError → string).
(** Connecting to a database, or the wording of the failure. *)
Context (connect : string → result unit string).

Definition bearer (h : Headers) : option string :=
  credential ← trim <$> (h "authorization" ≫= strip_prefix "Bearer ");
  if decide (credential = "") then None else Some credential.

Definition db_connect (e : string) : Response := detail_err 500 ("db connect: " +:+ e).

Definition from_request_parts (st : AppState) (h : Headers) (c : ControlDb) :
    result Principal Response :=
  match bearer h with
  | None => Err (unauthorized "missing bearer credential")
  | Some credential =>
      if negb (bool_decide (operator_token st = "")) && ct_eq credential (operator_token st) then
        Ok (mkPrincipal (compose_actor "operator" (forwarded_actor h)) None Operator
              (forwarded_traceparent h))
      else
        match splitn 3 "_" credential with
        | [erk; key_id; secret] =>
            if negb (bool_decide (erk = "erk")) then Err (unauthorized "invalid credential")
            else
              match connect <$> dsn st with
              | None => Err (unauthorized "invalid credential")
              | Some (Err e) => Err (db_connect e)
              | Some (Ok _) =>
                  match lookup_key key_id c with
                  | Some (org_id, role, key_hash) =>
                      if ct_eq key_hash (hash_secret sha256 secret) then
                        match get_org_by_id org_id c with
                        | Some o =>
                            Ok (mkPrincipal
                                  (compose_actor ("key:" +:+ key_id) (forwarded_actor h))
                                  (Some (o_name o)) (default Viewer (role_parse role))
                                  (forwarded_traceparent h))
                        | None => Err (unauthorized "invalid credential")
                        end
                      else Err (unauthorized "invalid credential")
                  | None => Err (unauthorized "invalid credential")
                  end
              end
        | _ => Err (unauthorized "invalid credential")
        end
  end.

Definition no_org (org : string) : Response := detail_err 404 ("no org '" +:+ org +:+ "'").

Definition guard (p : Principal) (org : string) (minimum : Role) : result unit Response :=
  if decide (p_role p = Operator) then Ok tt
  else if negb (bool_decide (p_org p = Some org)) then Err (no_org org)
  else if rank (p_role p) <? rank minimum then
    Err (detail_err 403 ("requires " +:+ role_as_str minimum +:+ " role"))
  else Ok tt.

Definition operator_only (p : Principal) : result unit Response :=
  if decide (p_role p = Operator) then Ok tt else Err (detail_err 403 "requires operator role").

Definition org_or_404 (org : string) (c : ControlDb) : result OrgRow Response :=
  match get_org org c with Some row => Ok row | None => Err (no_org org) end.

(** [connect_pg] behind the [dsn]; [missing] is the answer without one. *)
Definition connected (st : AppState) (missing : string) : result unit Response :=
  match dsn st with
  | None => Err (detail_err 501 missing)
  | Some d => match connect d with Ok _ => Ok tt | Err e => Err (db_connect e) end
  end.

#[local] Open Scope rust_scope.

(** [pg::audit], with the ambient trace id. *)
Definition audit (trace : option string) (p : Principal) (org : string) (action : string)
    (detail : json) : ControlDb → ControlDb :=
  append (mkAudit (actor p) (Some org) None action detail trace).

(** A handler's refusals come before it touches the tables. *)
Definition answer (checked : result (Response * ControlDb) Response) (c : ControlDb) :
    Response * ControlDb :=
  match checked with Ok rc => rc | Err r => (r, c) end.

Definition create_key (now : Z) (trace : option string) (mint_id : string) (buf : list Z)
    (st : AppState) (p : Principal) (org body_role : string) (c : ControlDb) :
    Response * ControlDb :=
  answer
    (_ <-? operator_only p;
     role <-? match parse_key_role body_role with
              | Some r => Ok r
              | None => Err (detail_err 422 ("invalid role '" +:+ body_role +:+ "'"))
              end;
     _ <-? connected st "api keys require Postgres";
     org_row <-? org_or_404 org c;
     match transaction (issue_key now sha256 mint_id buf (o_id org_row) (role_as_str role)) c with
     | (Ok (key_id, key), c) =>
         Ok ((201, JObject [("id", JString key_id); ("key", JString key);
                            ("role", JString (role_as_str role))]),
             audit trace p org "key.issue"
               (JObject [("key_id", JString key_id); ("role", JString (role_as_str role))]) c)
     | (Err e, c) => Ok (pg_err db_text e, c)
     end) c.

Definition revoke_key (now : Z) (trace : option string) (st : AppState) (p : Principal)
    (org key_id : string) (c : ControlDb) : Response * ControlDb :=
  answer
    (_ <-? operator_only p;
     _ <-? connected st "api keys require Postgres";
     org_row <-? org_or_404 org c;
     match transaction (pg_revoke_key now key_id (o_id org_row)) c with
     | (Ok revoked, c) =>
         Ok ((200, JObject [("revoked", JBool revoked)]),
             audit trace p org "key.revoke"
               (JObject [("key_id", JString key_id); ("revoked", JBool revoked)]) c)
     | (Err e, c) => Ok (pg_err db_text e, c)
     end) c.

Definition transition_org (now : Z) (trace : option string) (st : AppState) (p : Principal)
    (org new_state expected not_in_expected : string) (c : ControlDb) : Response * ControlDb :=
  answer
    (_ <-? guard p org Operator;
     _ <-? connected st "org registry requires Postgres";
     _ <-? org_or_404 org c;
     match transaction (set_org_state now org new_state expected) c with
     | (Ok true, c) =>
         Ok ((200, JObject [("name", JString org); ("state", JString new_state)]),
             audit trace p org
               (if decide (new_state = "suspended") then "org.suspend" else "org.resume")
               (JObject []) c)
     | (Ok false, c) => Ok (detail_err 409 not_in_expected, c)
     | (Err e, c) => Ok (pg_err db_text e, c)
     end) c.

Definition suspend_org (now : Z) (trace : option string) (st : AppState) (p : Principal)
    (org : string) : ControlDb → Response * ControlDb :=
  transition_org now trace st p org "suspended" "active"
    ("org '" +:+ org +:+ "' is not active; only active orgs suspend").

Definition resume_org (now : Z) (trace : option string) (st : AppState) (p : Principal)
    (org : string) : ControlDb → Response * ControlDb :=
  transition_org now trace st p org "active" "suspended"
    ("org '" +:+ org +:+ "' is not suspended; nothing to resume").

(** [refuse_unless_active]. *)
Definition refuse_unless_active (o : OrgRow) (what : string) : result unit Response :=
  if decide (o_state o = "active") then Ok tt
  else Err (detail_err 409 ("org '" +:+ o_name o +:+ "' is " +:+ o_state o +:+ "; " +:+ what
                            +:+ " are accepted only when active")).

(** How [provision_org] records the tenant it is about to provision. *)
Definition provision_record (now : Z) (id name config_path : string) (env : json)
    (drop_root : string) (c : ControlDb) : result unit Response * ControlDb :=
  match transaction (upsert_byo now id name config_path env (Some drop_root) None None) c with
  | (Err e, c) => (Err (pg_err db_text e), c)
  | (Ok _, c) => (Ok tt, (transaction (set_org_state now name "provisioning" "active") c).2)
  end.

(** What is done to these tables, one request or statement at a time. *)
Inductive control_step (c : ControlDb) : ControlDb → Prop :=
| step_create_key now trace id buf st p org role :
    control_step c (create_key now trace id buf st p org role c).2
| step_revoke_key now trace st p org id :
    control_step c (revoke_key now trace st p org id c).2
| step_suspend now trace st p org : control_step c (suspend_org now trace st p org c).2
| step_resume now trace st p org : control_step c (resume_org now trace st p org c).2
| step_upsert now id name path env root bucket prefix :
    control_step c (transaction (upsert_byo now id name path env root bucket prefix) c).2
| step_set_state now org state expected :
    control_step c (transaction (set_org_state now org state expected) c).2
| step_issue now id buf org role :
    control_step c (transaction (issue_key now sha256 id buf org role) c).2
| step_set_active_config now version name :
    control_step c (transaction (set_active_config now version name) c).2
| step_merge_env now concat updates name :
    control_step c (transaction (merge_env now concat updates name) c).2.
End boundary.

Definition valid_org_name (s : string) : bool :=
  let tail c := byte_in 97 122 c || byte_in 48 57 c || bool_decide (c = "_"%char)
                || bool_decide (c = "-"%char) in
  match s with
  | EmptyString => false
  | String c _ =>
      negb (128 <? String.length s)%nat && (byte_in 97 122 c || byte_in 48 57 c) && all_bytes tail s
  end.

(** ** Lemmas *)

Lemma ct_fold d l :
  (foldl (λ diff '(x, y), N.lor diff (N.lxor (N_of_ascii x) (N_of_ascii y))) d l =? 0)%N = true
  ↔ d = 0%N ∧ Forall (λ '(x, y), x = y) l.
Proof.
  revert d. induction l as [|[x y] l IH]; intros d; simpl.
  { rewrite N.eqb_eq. split; [by intros ->|by intros [? _]]. }
  rewrite IH, Forall_cons, N.lor_eq_0_iff, N.lxor_eq_0_iff. split.
  - intros [[? E] ?]. split_and!; [done| |done].
    rewrite <-(ascii_N_embedding x), <-(ascii_N_embedding y). by rewrite E.
  - by intros (? & -> & ?).
Qed.

Lemma ct_eq_spec a b : ct_eq a b = bool_decide (a = b).
Proof.
  unfold ct_eq. destruct (Nat.eqb_spec (String.length a) (String.length b)) as [E|E]; simpl.
  2:{ rewrite bool_decide_eq_false_2; [done|]. by intros ->. }
  apply eq_true_iff_eq. rewrite ct_fold, bool_decide_eq_true. split.
  - intros [_ H]. revert b E H. induction a as [|x a IH]; intros [|y b] E H; try done.
    simpl in H. apply Forall_cons in H as [-> H]. f_equal. apply IH; [by injection E|done].
  - intros <-. split; [done|]. clear E. induction a as [|x a IH]; simpl; by constructor.
Qed.

Lemma role_parse_key k r : k ∈ KEY_ROLES → role_parse k = Some r → r ≠ Operator.
Proof. unfold KEY_ROLES. rewrite !elem_of_cons. intros [->|[->|[->|[]%elem_of_nil]]]; by intros [= <-]. Qed.

Lemma parse_key_role_spec s r :
  parse_key_role s = Some r ↔ r ≠ Operator ∧ s = role_as_str r.
Proof.
  unfold parse_key_role, role_parse. split.
  - intros (r' & Hr & Hs)%bind_Some. repeat case_decide; simplify_eq/=; done.
  - intros [Hr ->]. by destruct r.
Qed.

Lemma role_as_str_key r : r ≠ Operator → role_as_str r ∈ KEY_ROLES.
Proof. intros Hr. unfold KEY_ROLES. destruct r; [set_solver..|done]. Qed.

Lemma role_parse_as_str r : role_parse (role_as_str r) = Some r.
Proof. by destruct r. Qed.

Lemma head_filter_Some {A} (P : A → Prop) `{∀ x, Decision (P x)} l x :
  head (filter P l) = Some x → P x ∧ x ∈ l.
Proof.
  intros Hx. apply (list_elem_of_filter P). destruct (filter P l) as [|y l']; [done|].
  injection Hx as ->. left.
Qed.

(** The one element of a key, among the rows that satisfy [P]. *)
Lemma head_filter_key {A K} (key : A → K) (P : A → Prop) `{∀ x, Decision (P x)} l x :
  NoDup (key <$> l) → x ∈ l → P x → (∀ y, P y → key y = key x) → head (filter P l) = Some x.
Proof.
  intros Hnd Hx HP Hkey. assert (x ∈ filter P l) as Hin by (by apply list_elem_of_filter).
  destruct (filter P l) as [|y l'] eqn:E; [by apply elem_of_nil in Hin|]. simpl. f_equal.
  assert (y ∈ filter P l) as [HPy Hy]%list_elem_of_filter by (rewrite E; left).
  by apply (NoDup_fmap_eq key l); auto.
Qed.

Lemma splitn3 ch s a b d :
  splitn 3 ch s = [a; b; d] ↔
  s = a +:+ String ch (b +:+ String ch d) ∧ contains ch a = false ∧ contains ch b = false.
Proof.
  simpl. split.
  - destruct (split_once ch s) as [[a' s']|] eqn:E; [|done].
    destruct (split_once ch s') as [[b' s'']|] eqn:E'; [|done]. intros [= -> -> ->].
    apply split_once_Some in E as [-> ?]. by apply split_once_Some in E' as [-> ?].
  - intros (-> & Ha & Hb). rewrite split_once_app by done. by rewrite split_once_app by done.
Qed.

(** What holds of the tables in every state. *)
Record control_ok (c : ControlDb) : Prop := {
  co_orgs : orgs_unique (orgs c) = true;
  co_keys : keys_unique (api_keys c) = true;
  co_valid : keys_valid (orgs c) (api_keys c) = true;
}.

Lemma unique_all {R K} `{EqDecision K} (key : R → K) l :
  unique (λ _, true) key l = true ↔ NoDup (key <$> l).
Proof. unfold unique. by rewrite bool_decide_eq_true, filter_is_true. Qed.

Lemma keys_valid_spec os l k :
  keys_valid os l = true → k ∈ l → k_role k ∈ KEY_ROLES ∧ k_org_id k ∈ o_id <$> os.
Proof.
  unfold keys_valid. rewrite forallb_forall. intros Hv Hk%list_elem_of_In%Hv.
  by rewrite andb_true_iff, !bool_decide_eq_true in Hk.
Qed.

Lemma org_found c id : control_ok c → id ∈ o_id <$> orgs c →
  ∃ o, get_org_by_id id c = Some o ∧ o ∈ orgs c ∧ o_id o = id.
Proof.
  intros [Ho _ _] (o & -> & Hin)%list_elem_of_fmap. exists o. split_and!; [|done..].
  unfold orgs_unique in Ho. rewrite andb_true_iff, !unique_all in Ho. destruct Ho as [Ho _].
  apply (head_filter_key o_id); auto.
Qed.

Lemma key_found c k : control_ok c → k ∈ api_keys c →
  lookup_key (k_id k) c
  = if decide (k_revoked_at k = None) then Some (k_org_id k, k_role k, k_key_hash k) else None.
Proof.
  intros [_ Hk _] Hin. unfold lookup_key, live_by_id, keys_unique in *.
  rewrite unique_all in Hk. case_decide as Hr.
  - erewrite (head_filter_key k_id) by naive_solver. done.
  - destruct (head _) as [k'|] eqn:E; [|done]. exfalso.
    apply (head_filter_Some (λ k0, k_id k0 = k_id k ∧ k_revoked_at k0 = None)) in E as [[Hid Hr'] Hin'].
    apply Hr. rewrite <-Hr'. f_equal. by apply (NoDup_fmap_eq k_id (api_keys c)).
Qed.

(** ** Who a credential is *)

(** The static token, or a live key with its secret, of the tenant that owns
    the key. *)
Inductive authenticates (sha256 : string → list Z) (connect : string → result unit string)
    (st : AppState) (c : ControlDb) (credential : string) : option string → Role → string → Prop :=
| auth_operator :
    credential = operator_token st →
    authenticates sha256 connect st c credential None Operator "operator"
| auth_key k o secret d r :
    k ∈ api_keys c → k_revoked_at k = None → contains "_" (k_id k) = false →
    credential = "erk_" +:+ k_id k +:+ "_" +:+ secret → k_key_hash k = hash_secret sha256 secret →
    credential ≠ operator_token st → dsn st = Some d → connect d = Ok tt →
    o ∈ orgs c → o_id o = k_org_id k → k_role k = role_as_str r →
    authenticates sha256 connect st c credential (Some (o_name o)) r ("key:" +:+ k_id k).

Lemma bearer_nonempty h credential : bearer h = Some credential → credential ≠ "".
Proof. unfold bearer. intros (t & _ & Ht)%bind_Some. case_decide; by simplify_eq. Qed.

Section credentials.
Context (sha256 : string → list Z) (connect : string → result unit string).
Context (st : AppState) (c : ControlDb) (Hc : control_ok c).

Lemma lookup_key_Some id org role hash :
  lookup_key id c = Some (org, role, hash) → ∃ k, k ∈ api_keys c ∧ k_revoked_at k = None
    ∧ k_id k = id ∧ k_org_id k = org ∧ k_role k = role ∧ k_key_hash k = hash.
Proof.
  unfold lookup_key, live_by_id. intros (k & Hk & E)%fmap_Some. injection E as -> -> ->.
  apply (head_filter_Some (λ k, k_id k = id ∧ k_revoked_at k = None)) in Hk as [[Hid Hr] Hin].
  by exists k.
Qed.

Lemma key_role_of k : k ∈ api_keys c → ∃ r, k_role k = role_as_str r ∧ r ≠ Operator.
Proof.
  intros [Hr _]%(keys_valid_spec _ _ _ (co_valid _ Hc)). unfold KEY_ROLES in Hr.
  rewrite !elem_of_cons, elem_of_nil in Hr.
  destruct Hr as [->|[->|[->|[]]]]; [by exists Admin|by exists Steward|by exists Viewer].
Qed.

Lemma parts_sound h p :
  from_request_parts sha256 connect st h c = Ok p →
  ∃ credential label, bearer h = Some credential
    ∧ authenticates sha256 connect st c credential (p_org p) (p_role p) label
    ∧ p = mkPrincipal (compose_actor label (forwarded_actor h)) (p_org p) (p_role p)
            (forwarded_traceparent h).
Proof.
  unfold from_request_parts. destruct (bearer h) as [cred|]; [|done].
  rewrite !ct_eq_spec. case_bool_decide as Ht; simpl negb; simpl andb.
  all: try case_bool_decide as Hop.
  all: try (intros [= <-]; exists cred, "operator"; split_and!; [done|by constructor|done]).
  all: destruct (splitn 3 "_" cred) as [|erk [|id [|secret [|]]]] eqn:Hs; try done.
  all: case_bool_decide as He; simpl; [subst erk|done].
  all: destruct (dsn st) as [d|] eqn:Hd; simpl; [|done].
  all: destruct (connect d) as [[]|e] eqn:Hcon; [|done].
  all: destruct (lookup_key id c) as [[[org role] hash]|] eqn:Hk; [|done].
  all: rewrite ct_eq_spec; case_bool_decide as Hh; [|done].
  all: destruct (get_org_by_id org c) as [o|] eqn:Ho; [|done]; intros [= <-].
  all: apply lookup_key_Some in Hk as (k & Hk & Hr & <- & <- & <- & <-).
  all: apply (head_filter_Some (λ o, o_id o = k_org_id k)) in Ho as [Hoid Hoin].
  all: apply splitn3 in Hs as (Hcred & _ & Hid); destruct (key_role_of k Hk) as (r & Hkr & _).
  all: exists cred, ("key:" +:+ k_id k); split_and!; [done| |done].
  all: simpl; rewrite Hkr, role_parse_as_str; simpl; eapply auth_key; eauto.
  all: first [exact Hcred | rewrite Hcred, Ht; intros E; discriminate E].
Qed.

Lemma parts_complete h credential org r label :
  bearer h = Some credential → authenticates sha256 connect st c credential org r label →
  from_request_parts sha256 connect st h c
  = Ok (mkPrincipal (compose_actor label (forwarded_actor h)) org r (forwarded_traceparent h)).
Proof.
  unfold from_request_parts. intros Hb Ha. rewrite Hb, !ct_eq_spec.
  destruct Ha as [Hop|k o secret d r Hk Hr Hid Hcr Hh Hne Hd Hcon Hoin Ho Hkr].
  - rewrite <-Hop. rewrite (bool_decide_eq_true_2 (credential = credential)) by done.
    rewrite bool_decide_eq_false_2; [done|].
    by apply (bearer_nonempty h).
  - rewrite (bool_decide_eq_false_2 _ Hne), andb_false_r.
    assert (splitn 3 "_" credential = ["erk"; k_id k; secret]) as ->
      by (apply splitn3; by rewrite Hcr).
    rewrite (bool_decide_eq_true_2 ("erk" = "erk")), Hd by done. simpl. rewrite Hcon.
    rewrite (key_found c k Hc Hk), decide_True, ct_eq_spec, bool_decide_eq_true_2 by done.
    destruct (org_found c (k_org_id k) Hc) as (o' & Hget & Hin' & Ho').
    { by apply (keys_valid_spec _ _ _ (co_valid _ Hc)). }
    rewrite Hget, Hkr, role_parse_as_str. simpl. assert (o' = o) as ->; [|done].
    pose proof (co_orgs _ Hc) as Hu. unfold orgs_unique in Hu.
    rewrite andb_true_iff, !unique_all in Hu. destruct Hu as [Hu _].
    apply (NoDup_fmap_eq o_id (orgs c)); congruence.
Qed.
End credentials.

(** C22: the bearer boundary admits exactly the static operator token and the
    live API keys presented with their secret: the caller's role and tenant
    are those of the credential, for a key the ones stored with it and never
    the operator's, and no other header changes them. *)
Theorem principal_exact sha256 connect st c h p :
  control_ok c →
  from_request_parts sha256 connect st h c = Ok p ↔
  ∃ credential label, bearer h = Some credential
    ∧ authenticates sha256 connect st c credential (p_org p) (p_role p) label
    ∧ p = mkPrincipal (compose_actor label (forwarded_actor h)) (p_org p) (p_role p)
            (forwarded_traceparent h).
Proof.
  intros Hc. split; [by apply parts_sound|].
  intros (cred & label & Hb & Ha & Hp).
  pose proof (parts_complete sha256 connect st c Hc h cred _ _ label Hb Ha) as ->.
  f_equal. symmetry. exact Hp.
Qed.

(** What a role may do in a tenant: the operator everything, a key of the
    tenant what its role ranks for; the answer to a key of another tenant is
    the answer for a tenant that does not exist, so scope errors do not
    enumerate tenants. *)
Theorem guard_exact p org minimum :
  match guard p org minimum with
  | Ok _ => p_role p = Operator ∨ (p_org p = Some org ∧ rank minimum ≤ rank (p_role p))
  | Err r =>
      p_role p ≠ Operator
      ∧ (p_org p ≠ Some org → ∀ c, get_org org c = None → Err r = org_or_404 org c)
      ∧ (p_org p = Some org → rank (p_role p) < rank minimum ∧ r.1 = 403)
  end.
Proof.
  unfold guard. case_decide as Hr; [by left|]. case_bool_decide as Ho; simpl.
  - destruct (Z.ltb_spec (rank (p_role p)) (rank minimum)); [|by right].
    split_and!; [done| |done]. by intros [].
  - split_and!; [done| |done]. intros _ c Hn. unfold org_or_404. by rewrite Hn.
Qed.

(** *** Names in the audit trail *)

Lemma split_at_space u l u' l' :
  contains " " u = false → contains " " u' = false →
  u +:+ " via " +:+ l = u' +:+ " via " +:+ l' → u = u' ∧ l = l'.
Proof.
  intros Hu Hu' E.
  assert (split_once " " (u +:+ String " " ("via " +:+ l))
          = split_once " " (u' +:+ String " " ("via " +:+ l'))) as Es by (f_equal; exact E).
  rewrite !split_once_app in Es by done. injection Es as -> El. done.
Qed.

Lemma compose_actor_inj l u l' u' :
  strip_prefix "user:" l = None → strip_prefix "user:" l' = None →
  (∀ w, u = Some w → contains " " w = false) → (∀ w, u' = Some w → contains " " w = false) →
  compose_actor l u = compose_actor l' u' → l = l' ∧ u = u'.
Proof.
  intros Hl Hl' Hu Hu' E. destruct u as [w|], u' as [w'|]; simpl compose_actor in E.
  - assert (w +:+ " via " +:+ l = w' +:+ " via " +:+ l') as Ew by (by injection E).
    apply split_at_space in Ew as [-> ->]; auto.
  - rewrite <-E in Hl'. discriminate Hl'.
  - rewrite E in Hl. discriminate Hl.
  - done.
Qed.

Lemma forwarded_actor_no_space h w : forwarded_actor h = Some w → contains " " w = false.
Proof.
  unfold forwarded_actor. intros (raw & _ & Hraw)%bind_Some.
  destruct (acceptable_actor raw) eqn:Ha; [|done]. injection Hraw as <-.
  unfold acceptable_actor in Ha. apply andb_true_iff in Ha as [_ Ha].
  by eapply all_bytes_contains; [exact Ha|].
Qed.

Lemma label_not_user sha256 connect st c cred o r l :
  authenticates sha256 connect st c cred o r l → strip_prefix "user:" l = None.
Proof. by destruct 1. Qed.

(** The audit trail's name of a caller cannot hide the credential: two
    requests that are recorded under one actor presented the operator's token
    both, or keys of one id both, so they had one role and one tenant, and they
    forwarded the same person, or none both. *)
Theorem actor_exact sha256 connect st c h h' p p' :
  control_ok c →
  from_request_parts sha256 connect st h c = Ok p →
  from_request_parts sha256 connect st h' c = Ok p' → actor p = actor p' →
  p_role p = p_role p' ∧ p_org p = p_org p' ∧ forwarded_actor h = forwarded_actor h'.
Proof.
  intros Hc (cr & l & _ & Ha & Hp)%parts_sound (cr' & l' & _ & Ha' & Hp')%parts_sound E; [|done..].
  rewrite Hp, Hp' in E. simpl in E. apply compose_actor_inj in E as [El Eu];
    [|by eapply label_not_user|by eapply label_not_user|by apply forwarded_actor_no_space
     |by apply forwarded_actor_no_space].
  split_and!; [| |done]; clear Hp Hp'.
  all: destruct Ha as [|k o s d r Hk Hr Hid Hcr Hh Hne Hd Hcon Hoin Ho Hkr],
    Ha' as [|k' o' s' d' r' Hk' Hr' Hid' Hcr' Hh' Hne' Hd' Hcon' Hoin' Ho' Hkr']; try done.
  all: assert (k_id k = k_id k') as Ek by (by injection El).
  all: pose proof (co_keys _ Hc) as Hu; unfold keys_unique in Hu; rewrite unique_all in Hu.
  all: assert (k = k') as <- by (by apply (NoDup_fmap_eq k_id (api_keys c))).
  - rewrite Hkr in Hkr'. by destruct r, r'.
  - pose proof (co_orgs _ Hc) as Hu'. unfold orgs_unique in Hu'.
    rewrite andb_true_iff, !unique_all in Hu'. destruct Hu' as [Hu' _].
    do 2 f_equal. apply (NoDup_fmap_eq o_id (orgs c)); congruence.
Qed.

(** *** Trace contexts *)

Lemma split_on_cons ch s : ∃ w ws, split_on ch s = w :: ws.
Proof.
  destruct s as [|a s]; simpl; [eauto|]. case_decide; [eauto|].
  destruct (split_on ch s); eauto.
Qed.

Lemma join_split_on ch s : join_char ch (split_on ch s) = s.
Proof.
  induction s as [|a s IH]; [done|]. simpl.
  destruct (split_on_cons ch s) as (w & ws & E). rewrite E in *. case_decide as Ha.
  - subst a. rewrite join_char_cons, IH. done.
  - rewrite <-IH. by destruct ws.
Qed.

(** The alphabet of the fields. *)
Definition is_lower_hex (c : ascii) : bool := byte_in 48 57 c || byte_in 97 102 c.

Lemma lower_hex s : all_bytes is_lower_hex s = all_bytes is_hexdigit s && lower s.
Proof.
  unfold lower. induction s as [|c s IH]; [done|]. simpl. rewrite IH.
  assert (is_lower_hex c = is_hexdigit c && negb (byte_in 65 90 c)) as ->.
  { destruct c as [[][][][][][][][]]; reflexivity. }
  destruct (is_hexdigit c), (byte_in 65 90 c); simpl; rewrite ?andb_false_r; done.
Qed.

Definition trace_field (n : nat) (s : string) : bool :=
  (String.length s =? n)%nat && all_bytes is_lower_hex s.

Lemma lower_app a b : lower (a +:+ b) = lower a && lower b.
Proof. apply all_bytes_app. Qed.

(** The trace contexts the boundary stores are those of version 00, with a
    trace id of 32 and a span id of 16 lowercase hexadecimal digits, neither
    all zero, and two digits of flags. *)
Theorem acceptable_traceparent_exact raw :
  acceptable_traceparent raw = true ↔
  ∃ trace_id span_id flags, raw = "00-" +:+ trace_id +:+ "-" +:+ span_id +:+ "-" +:+ flags
    ∧ trace_field 32 trace_id = true ∧ nonzero trace_id = true
    ∧ trace_field 16 span_id = true ∧ nonzero span_id = true ∧ trace_field 2 flags = true.
Proof.
  unfold acceptable_traceparent, trace_field, hex. split.
  - destruct (String.length raw =? TRACEPARENT_LEN)%nat; [|done]. simpl negb. cbv iota.
    destruct (split_on "-" raw) as [|v [|t [|s [|f []]]]] eqn:E; try done.
    assert (raw = v +:+ String "-" (t +:+ String "-" (s +:+ String "-" f))) as ->
      by (by rewrite <-(join_split_on "-" raw), E).
    rewrite !andb_true_iff, bool_decide_eq_true. cbn [lower all_bytes].
    intros [[[[[[[[? ?] ->] [? ?]] ?] [? ?]] ?] [? ?]] Hl].
    assert (lower t = true ∧ lower s = true ∧ lower f = true) as (? & ? & ?).
    { unfold lower in *. repeat (rewrite all_bytes_app in Hl; cbn [all_bytes] in Hl).
      rewrite !andb_true_iff in Hl. naive_solver. }
    exists t, s, f. rewrite !lower_hex, !andb_true_iff. done.
  - intros (t & s & f & -> & Ht & Hnt & Hs & Hns & Hf).
    rewrite !lower_hex, !andb_true_iff in Ht, Hs, Hf.
    destruct Ht as (Ht & Htx & Htl), Hs as (Hs & Hsx & Hsl), Hf as (Hf & Hfx & Hfl).
    assert (∀ x, all_bytes is_hexdigit x = true → contains "-" x = false) as Hno
      by (intros x Hx; by eapply all_bytes_contains).
    assert (split_on "-" ("00-" +:+ t +:+ "-" +:+ s +:+ "-" +:+ f) = ["00"; t; s; f]) as ->.
    { apply (split_on_join_char "-" ["00"; t; s; f]); [done|].
      repeat (constructor; [by auto|]). constructor. }
    rewrite !str_length_app. apply Nat.eqb_eq in Ht, Hs, Hf. rewrite Ht, Hs, Hf.
    simpl. rewrite Htx, Hsx, Hfx, Hnt, Hns. unfold lower in *.
    repeat (cbn [all_bytes]; rewrite all_bytes_app). rewrite Htl. simpl.
    repeat (cbn [all_bytes]; rewrite all_bytes_app). by rewrite Hsl, Hfl.
Qed.

(** ** The life of a key *)

(** What no request takes away: tenants keep their id and name, keys their
    tenant, role and hash, and a revoked key stays revoked. *)
Record keeps (c c' : ControlDb) : Prop := {
  ke_orgs : ∀ o, o ∈ orgs c → ∃ o', o' ∈ orgs c' ∧ o_id o' = o_id o ∧ o_name o' = o_name o;
  ke_keys : ∀ k, k ∈ api_keys c → ∃ k', k' ∈ api_keys c' ∧ k_id k' = k_id k
    ∧ k_org_id k' = k_org_id k ∧ k_role k' = k_role k ∧ k_key_hash k' = k_key_hash k
    ∧ (k_revoked_at k ≠ None → k_revoked_at k' = k_revoked_at k);
}.

#[global] Instance keeps_preorder : PreOrder keeps.
Proof.
  split.
  - intros c. split; [intros o Ho; by exists o|intros k Hk; by exists k].
  - intros c1 c2 c3 [Ho Hk] [Ho' Hk']. split.
    + intros o (o2 & (o3 & ? & ? & ?)%Ho' & ? & ?)%Ho. exists o3. split_and!; congruence.
    + intros k (k2 & (k3 & ? & ? & ? & ? & ? & Hr')%Hk' & ? & ? & ? & ? & Hr)%Hk. exists k3.
      split_and!; try congruence. intros Hn. rewrite Hr'; [by apply Hr|]. by rewrite Hr.
Qed.

(** A statement on the tables that is safe in this sense. *)
Definition control_safe {A} (m : stmt ControlDb A) : Prop :=
  ∀ c x c', control_ok c → m c = Ok (x, c') → control_ok c' ∧ keeps c c'.

Lemma control_safe_ret {A} (x : A) : control_safe (mret x).
Proof. by intros c y c' Hc [= _ <-]. Qed.

Lemma control_safe_bind {A B} (m : stmt ControlDb A) (k : A → stmt ControlDb B) :
  control_safe m → (∀ x, control_safe (k x)) → control_safe (m ≫= k).
Proof.
  intros Hm Hk c y c'' Hc (x & c' & Hx & Hy)%bind_stmt.
  destruct (Hm c x c' Hc Hx) as [Hc' H1]. destruct (Hk x c' y c'' Hc' Hy) as [Hc'' H2].
  split; [done|]. by transitivity c'.
Qed.

Lemma control_safe_transaction {A} (m : stmt ControlDb A) c :
  control_safe m → control_ok c →
  control_ok (transaction m c).2 ∧ keeps c (transaction m c).2.
Proof.
  intros Hm Hc. unfold transaction. destruct (m c) as [[x c']|] eqn:E; [by eapply Hm|].
  by split.
Qed.

Lemma keys_valid_orgs os os' l :
  (∀ o, o ∈ os → ∃ o', o' ∈ os' ∧ o_id o' = o_id o) → keys_valid os l = true →
  keys_valid os' l = true.
Proof.
  unfold keys_valid. rewrite !forallb_forall. intros Ho Hv k Hk%Hv.
  rewrite !andb_true_iff, !bool_decide_eq_true in *. destruct Hk as [? (o & -> & Hin)%list_elem_of_fmap].
  split; [done|]. destruct (Ho o Hin) as (o' & Ho' & <-). by apply list_elem_of_fmap_2.
Qed.

Lemma orgs_install_safe {A} (x y : A) l c c' :
  control_ok c → install (orgs_valid l) (orgs_unique l) x (c <| orgs := l |>) = Ok (y, c') →
  (∀ o, o ∈ orgs c → ∃ o', o' ∈ l ∧ o_id o' = o_id o ∧ o_name o' = o_name o) →
  control_ok c' ∧ keeps c c'.
Proof.
  intros [_ Hk Hv] (_ & Hu & _ & <-)%install_ok Ho. split; split; try done; simpl.
  - eapply keys_valid_orgs; [|done]. intros o (o' & ? & ? & _)%Ho. eauto.
  - intros k Hin. by exists k.
Qed.

Lemma update_orgs_safe where_ set :
  (∀ o, o_id (set o) = o_id o ∧ o_name (set o) = o_name o) →
  control_safe (update_orgs where_ set).
Proof.
  intros Hs c x c' Hc H. unfold update_orgs in H. destruct (update_rows _ _ _) as [l ret] eqn:E.
  eapply orgs_install_safe; [done|exact H|]. intros o Ho.
  exists (if where_ o then set o else o). split.
  - replace l with (update_rows where_ set (orgs c)).1 by (by rewrite E).
    apply elem_of_update_rows. by exists o.
  - destruct (where_ o); [apply Hs|done].
Qed.

Lemma upsert_byo_safe now id name path env root bucket prefix :
  control_safe (upsert_byo now id name path env root bucket prefix).
Proof.
  intros c x c' Hc (? & ? & E & H)%bind_stmt. injection E as <- <-. destruct (existsb _ _).
  - revert H. apply (control_safe_bind _ (λ ret, mret (length ret))); [|intros ?; apply control_safe_ret|done].
    by apply update_orgs_safe.
  - eapply orgs_install_safe; [done|exact H|]. intros o Ho. exists o. set_solver.
Qed.

Lemma keys_install_safe {A} (x y : A) l c c' :
  control_ok c → install (keys_valid (orgs c) l) (keys_unique l) x (c <| api_keys := l |>) = Ok (y, c') →
  (∀ k, k ∈ api_keys c → ∃ k', k' ∈ l ∧ k_id k' = k_id k
    ∧ k_org_id k' = k_org_id k ∧ k_role k' = k_role k ∧ k_key_hash k' = k_key_hash k
    ∧ (k_revoked_at k ≠ None → k_revoked_at k' = k_revoked_at k)) →
  control_ok c' ∧ keeps c c'.
Proof.
  intros [Ho _ _] (Hv & Hu & _ & <-)%install_ok Hk. split; split; try done; simpl.
  intros o Hin. by exists o.
Qed.

Lemma issue_safe now id org role hash : control_safe (issue now id org role hash).
Proof.
  intros c x c' Hc H. eapply keys_install_safe; [done|exact H|]. intros k Hk. exists k. set_solver.
Qed.

Lemma revoke_safe now id org : control_safe (revoke now id org).
Proof.
  intros c x c' Hc H. unfold revoke in H. destruct (update_rows _ _ _) as [l ret] eqn:E.
  eapply keys_install_safe; [done|exact H|]. intros k Hk. eexists. split.
  - replace l with (update_rows (λ k, bool_decide (k_id k = id) && bool_decide (k_org_id k = org)
      && bool_decide (k_revoked_at k = None)) (λ k, k <| k_revoked_at := Some now |> <| k_updated_at := now |>)
      (api_keys c)).1 by (by rewrite E).
    apply elem_of_update_rows. by exists k.
  - destruct (decide (k_revoked_at k = None)) as [Hr|Hr]; [by destruct (_ && _)|].
    by rewrite (bool_decide_eq_false_2 _ Hr), andb_false_r.
Qed.

Lemma append_safe row c : control_ok c → control_ok (append row c) ∧ keeps c (append row c).
Proof. intros [? ? ?]. split; split; try done; simpl; intros x Hx; by exists x. Qed.

Section lifecycle.
Context (sha256 : string → list Z) (db_text : DbError → string) (connect : string → result unit string).

Lemma issue_key_safe now id buf org role : control_safe (issue_key now sha256 id buf org role).
Proof. apply control_safe_bind; [apply issue_safe|intros ?; apply control_safe_ret]. Qed.

Lemma pg_revoke_key_safe now id org : control_safe (pg_revoke_key now id org).
Proof. apply control_safe_bind; [apply revoke_safe|intros ?; apply control_safe_ret]. Qed.

Lemma set_org_state_safe now name new old : control_safe (set_org_state now name new old).
Proof.
  apply control_safe_bind; [|intros ?; apply control_safe_ret].
  apply control_safe_bind; [by apply update_orgs_safe|intros ?; apply control_safe_ret].
Qed.

Lemma audited c c' trace p org action detail :
  control_ok c' → keeps c c' →
  control_ok (audit trace p org action detail c') ∧ keeps c (audit trace p org action detail c').
Proof.
  intros Hc' Hk. unfold audit. edestruct append_safe as [H1 H2]; [exact Hc'|].
  split; [exact H1|]. by transitivity c'.
Qed.

Lemma transition_org_safe now trace st p org new old msg c :
  control_ok c →
  control_ok (transition_org db_text connect now trace st p org new old msg c).2
  ∧ keeps c (transition_org db_text connect now trace st p org new old msg c).2.
Proof.
  intros Hc. unfold transition_org, answer. destruct (guard _ _ _); [|done].
  destruct (connected _ _ _); [|done]. destruct (org_or_404 _ _); [|done].
  destruct (control_safe_transaction _ c (set_org_state_safe now org new old) Hc) as [H1 H2].
  destruct (transaction _ c) as [[[]|e] c']; simpl in *; [|done|done].
  by apply audited.
Qed.

Lemma control_step_safe c c' :
  control_step sha256 db_text connect c c' → control_ok c → control_ok c' ∧ keeps c c'.
Proof.
  intros Hs Hc. destruct Hs.
  - unfold create_key, answer. destruct (operator_only _); [|done].
    destruct (parse_key_role _) as [r|]; [|done]. destruct (connected _ _ _); [|done].
    destruct (org_or_404 _ _) as [o|]; [|done].
    destruct (control_safe_transaction _ c
      (issue_key_safe now id buf (o_id o) (role_as_str r)) Hc) as [H1 H2].
    destruct (transaction _ c) as [[[]|e] c']; simpl in *; [|done].
    by apply audited.
  - unfold revoke_key, answer. destruct (operator_only _); [|done].
    destruct (connected _ _ _); [|done]. destruct (org_or_404 _ _) as [o|]; [|done].
    destruct (control_safe_transaction _ c (pg_revoke_key_safe now id (o_id o)) Hc) as [H1 H2].
    destruct (transaction _ c) as [[b|e] c']; simpl in *; [|done].
    by apply audited.
  - by apply transition_org_safe.
  - by apply transition_org_safe.
  - by apply control_safe_transaction; [apply upsert_byo_safe|].
  - by apply control_safe_transaction; [apply set_org_state_safe|].
  - by apply control_safe_transaction; [apply issue_key_safe|].
  - apply control_safe_transaction; [|done].
    apply control_safe_bind; [by apply update_orgs_safe|intros ?; apply control_safe_ret].
  - apply control_safe_transaction; [|done].
    apply control_safe_bind; [by apply update_orgs_safe|intros ?; apply control_safe_ret].
Qed.

Lemma control_steps_safe c c' :
  rtc (control_step sha256 db_text connect) c c' → control_ok c → control_ok c' ∧ keeps c c'.
Proof.
  induction 1 as [c|c c1 c' H1 _ IH]; intros Hc; [by split|].
  destruct (control_step_safe _ _ H1 Hc) as [Hc1 Hk1]. destruct (IH Hc1) as [Hc' Hk'].
  split; [done|]. by transitivity c1.
Qed.
End lifecycle.

Lemma hex_of_last buf :
  buf ≠ [] → ∃ s d, hex_of buf = s +:+ String d EmptyString ∧ word_char d.
Proof.
  induction buf as [|b buf IH]; [done|]. intros _. destruct buf as [|b' buf].
  - exists (String (hex_digit (Z.shiftr b 4)) EmptyString), (hex_digit (Z.land b 15)).
    split; [done|]. change 15 with (Z.ones 4). rewrite Z.land_ones by lia.
    pose proof (Z.mod_pos_bound b (2 ^ 4) ltac:(lia)) as Hn. revert Hn. change (2 ^ 4) with 16.
    generalize (b mod 16). intros n Hn.
    assert (n ∈ [0; 1; 2; 3; 4; 5; 6; 7; 8; 9; 10; 11; 12; 13; 14; 15]) as Hin.
    { rewrite !elem_of_cons. lia. }
    clear Hn. revert n Hin. apply Forall_forall. repeat constructor.
  - destruct IH as (s & d & E & Hd); [done|].
    exists (String (hex_digit (Z.shiftr b 4)) (String (hex_digit (Z.land b 15)) s)), d.
    split; [|done]. unfold hex_of in *. cbn [foldr] in *. by rewrite E.
Qed.

(** The credential of a key is its own trim. *)
Lemma key_bearer h id buf :
  buf ≠ [] → h "authorization" = Some ("Bearer " +:+ "erk_" +:+ id +:+ "_" +:+ hex_of buf) →
  bearer h = Some ("erk_" +:+ id +:+ "_" +:+ hex_of buf).
Proof.
  intros (s & d & E & Hd)%hex_of_last Hh. unfold bearer. rewrite Hh.
  set (key := "erk_" +:+ id +:+ "_" +:+ hex_of buf). cbn [mbind option_bind].
  rewrite (proj2 (strip_prefix_Some "Bearer " _ key)) by done. cbn [fmap option_fmap option_map].
  assert (key = String "e" (("rk_" +:+ id +:+ "_" +:+ s) +:+ String d EmptyString)) as Ek.
  { subst key. rewrite E. by rewrite <-!str_app_assoc. }
  by rewrite Ek, trim_word.
Qed.

Section persistence.
Context (sha256 : string → list Z) (connect : string → result unit string).

Lemma parts_revoked st h c k secret :
  control_ok c → bearer h = Some ("erk_" +:+ k_id k +:+ "_" +:+ secret) →
  contains "_" (k_id k) = false → "erk_" +:+ k_id k +:+ "_" +:+ secret ≠ operator_token st →
  (∃ d, dsn st = Some d ∧ connect d = Ok tt) → k ∈ api_keys c → k_revoked_at k ≠ None →
  from_request_parts sha256 connect st h c = Err (unauthorized "invalid credential").
Proof.
  intros Hc Hb Hid Hne (d & Hd & Hcon) Hk Hr. unfold from_request_parts.
  rewrite Hb, ct_eq_spec, (bool_decide_eq_false_2 _ Hne), andb_false_r.
  assert (splitn 3 "_" ("erk_" +:+ k_id k +:+ "_" +:+ secret) = ["erk"; k_id k; secret]) as ->
    by (apply splitn3; done).
  rewrite bool_decide_eq_true_2, Hd by done. simpl.
  by rewrite Hcon, (key_found c k Hc Hk), decide_False.
Qed.

(** A key of a kept state authenticates until it is revoked. *)
Lemma key_persists st h c c1 k o r secret :
  control_ok c1 → keeps c c1 → k ∈ api_keys c → o ∈ orgs c → o_id o = k_org_id k →
  k_role k = role_as_str r → k_key_hash k = hash_secret sha256 secret →
  bearer h = Some ("erk_" +:+ k_id k +:+ "_" +:+ secret) →
  contains "_" (k_id k) = false → "erk_" +:+ k_id k +:+ "_" +:+ secret ≠ operator_token st →
  (∃ d, dsn st = Some d ∧ connect d = Ok tt) →
  ∃ k1, k1 ∈ api_keys c1 ∧ k_id k1 = k_id k ∧ k_org_id k1 = k_org_id k ∧
    from_request_parts sha256 connect st h c1
    = if decide (k_revoked_at k1 = None) then
        Ok (mkPrincipal (compose_actor ("key:" +:+ k_id k) (forwarded_actor h)) (Some (o_name o)) r
              (forwarded_traceparent h))
      else Err (unauthorized "invalid credential").
Proof.
  intros Hc1 [Ho Hk] Hkin Hoin Hoid Hkr Hkh Hb Hid Hne Hd.
  destruct (Hk k Hkin) as (k1 & Hk1 & Hi & Hg & Hr & Hh & _). exists k1. split_and!; [done..|].
  destruct (Ho o Hoin) as (o1 & Ho1 & Hoi & Hon). rewrite <-Hon, <-Hi in *.
  case_decide as Hrev; [|by eapply parts_revoked].
  destruct Hd as (d & Hd & Hcon). eapply parts_complete; [done|done|].
  eapply auth_key; [done|done|done|done|congruence|done|done|done|done|congruence|congruence].
Qed.
End persistence.

Section revoking.
Context (sha256 : string → list Z) (db_text : DbError → string) (connect : string → result unit string).

Definition revoked_row (now : Z) (id org : string) (k : ApiKey) : ApiKey :=
  if bool_decide (k_id k = id) && bool_decide (k_org_id k = org)
     && bool_decide (k_revoked_at k = None)
  then k <| k_revoked_at := Some now |> <| k_updated_at := now |> else k.

Lemma revoke_commits now id org c :
  control_ok c →
  ∃ n, revoke now id org c = Ok (n, c <| api_keys := revoked_row now id org <$> api_keys c |>).
Proof.
  intros [_ Hk Hv]. unfold revoke, update_rows. eexists. apply install_ok. split_and!; [| |done|done].
  - unfold keys_valid in *. rewrite forallb_forall in *.
    intros k' Hk'%list_elem_of_In. apply list_elem_of_fmap in Hk' as (k & -> & Hin%list_elem_of_In%Hv).
    by destruct (bool_decide (k_id k = id) && _ && _).
  - unfold keys_unique in *. rewrite unique_all in *.
    rewrite <-list_fmap_compose. erewrite list_fmap_ext; [exact Hk|].
    intros i k _. simpl. by destruct (bool_decide (k_id k = id) && _ && _).
Qed.

(** After the operator's revocation of a key of the tenant, its row is
    revoked. *)
Lemma revoke_key_revokes now trace st p org o id c k :
  control_ok c → p_role p = Operator → (∃ d, dsn st = Some d ∧ connect d = Ok tt) →
  o ∈ orgs c → o_name o = org → k ∈ api_keys c → k_id k = id → k_org_id k = o_id o →
  ∃ k', k' ∈ api_keys (revoke_key db_text connect now trace st p org id c).2
    ∧ k_id k' = id ∧ k_revoked_at k' ≠ None.
Proof.
  intros Hc Hp (d & Hd & Hcon) Hoin Hon Hk Hid Hko.
  assert (get_org org c = Some o) as Hget.
  { pose proof (co_orgs _ Hc) as Hu. unfold orgs_unique in Hu.
    rewrite andb_true_iff, !unique_all in Hu. destruct Hu as [_ Hu].
    apply (head_filter_key o_name); naive_solver. }
  unfold revoke_key, answer, operator_only, connected, org_or_404.
  rewrite decide_True, Hd, Hcon, Hget by done.
  destruct (revoke_commits now id (o_id o) c Hc) as [n Hn].
  unfold transaction, pg_revoke_key. rewrite (bind_stmt_ok _ _ _ _ _ Hn). simpl.
  exists (revoked_row now id (o_id o) k). split; [by apply list_elem_of_fmap_2|].
  unfold revoked_row. rewrite !(bool_decide_eq_true_2 (_ = _)) by done. simpl.
  by case_bool_decide.
Qed.

(** What a 201 says was stored. *)
Lemma create_key_created now trace id buf st p org body_role c body c' key :
  control_ok c →
  create_key sha256 db_text connect now trace id buf st p org body_role c = ((201, body), c') →
  json_get body "key" = Some (JString key) →
  ∃ o r k, o ∈ orgs c' ∧ o_name o = org ∧ k ∈ api_keys c' ∧ k_id k = id ∧ k_org_id k = o_id o
    ∧ k_role k = role_as_str r ∧ body_role = role_as_str r ∧ r ≠ Operator
    ∧ k_key_hash k = hash_secret sha256 (hex_of buf)
    ∧ key = "erk_" +:+ id +:+ "_" +:+ hex_of buf ∧ control_ok c'.
Proof.
  intros Hc Hcr Hkey.
  assert (control_ok c') as Hc'.
  { destruct (control_step_safe sha256 db_text connect c _
      (step_create_key _ _ _ c now trace id buf st p org body_role) Hc) as [H _].
    by rewrite Hcr in H. }
  revert Hcr. unfold create_key, answer, operator_only. case_decide; [|by intros [=]].
  destruct (parse_key_role body_role) as [r|] eqn:Hr; [|by intros [=]].
  destruct (connected _ _ _) as [?|e] eqn:Hcn.
  2:{ unfold connected in Hcn. destruct (dsn st) as [d|]; [destruct (connect d)|]; simplify_eq;
      by intros [=]. }
  destruct (org_or_404 org c) as [o|] eqn:Ho; [|unfold org_or_404 in Ho; destruct (get_org org c); by simplify_eq].
  unfold org_or_404 in Ho. destruct (get_org org c) as [o'|] eqn:Hg; [|done]. injection Ho as ->.
  apply (head_filter_Some (λ o, o_name o = org)) in Hg as [Hon Hoin].
  unfold transaction. destruct (issue_key _ _ _ _ _ _ c) as [[[kid key'] c1]|e] eqn:Hi; [|by intros [=]].
  apply bind_stmt in Hi as (n & c2 & Hi & [= <- <- <-]). intros [= <- <-].
  injection Hkey as <-. unfold issue in Hi. apply install_ok in Hi as (_ & _ & _ & <-).
  apply parse_key_role_spec in Hr as [Hr Hbr].
  exists o, r, (mkKey id (o_id o) (role_as_str r) (hash_secret sha256 (hex_of buf)) now None now).
  split_and!; try done. simpl. set_solver.
Qed.
End revoking.

(** The life of an API key, whatever is done to the tables between: the key the
    operator is given once authenticates as its tenant with the role asked for
    (never the operator's), in every later state of the tables, until it is
    revoked; the operator's revocation through the tenant ends it for good. *)
Theorem issued_key_lives sha256 db_text connect now trace id buf st p org body_role c body c' key
    st' h :
  control_ok c → contains "_" id = false → buf ≠ [] →
  create_key sha256 db_text connect now trace id buf st p org body_role c = ((201, body), c') →
  json_get body "key" = Some (JString key) →
  h "authorization" = Some ("Bearer " +:+ key) → key ≠ operator_token st' →
  (∃ d, dsn st' = Some d ∧ connect d = Ok tt) →
  ∃ r, role_as_str r = body_role ∧ r ≠ Operator
  ∧ (∀ c1, rtc (control_step sha256 db_text connect) c' c1 → ∃ k, k ∈ api_keys c1 ∧ k_id k = id
      ∧ from_request_parts sha256 connect st' h c1
        = if decide (k_revoked_at k = None) then
            Ok (mkPrincipal (compose_actor ("key:" +:+ id) (forwarded_actor h)) (Some org) r
                  (forwarded_traceparent h))
          else Err (unauthorized "invalid credential"))
  ∧ (∀ now1 trace1 p1 c1 c2, rtc (control_step sha256 db_text connect) c' c1 →
       p_role p1 = Operator →
       rtc (control_step sha256 db_text connect)
         (revoke_key db_text connect now1 trace1 st' p1 org id c1).2 c2 →
       from_request_parts sha256 connect st' h c2 = Err (unauthorized "invalid credential")).
Proof.
  intros Hc Hid Hbuf Hcr Hkey Hh Hne Hd.
  destruct (create_key_created sha256 db_text connect now trace id buf st p org body_role c body c' key)
    as (o & r & k & Ho & Hon & Hk & Hki & Hko & Hkr & Hbr & Hr & Hkh & Hkey' & Hc'); [done..|].
  subst key. apply key_bearer in Hh; [|done]. rewrite <-Hki in Hid, Hh, Hne.
  assert (∀ c1, rtc (control_step sha256 db_text connect) c' c1 → control_ok c1 ∧ keeps c' c1)
    as Hsafe by (intros; by eapply control_steps_safe).
  exists r. split_and!; [done|done| |].
  - intros c1 [Hc1 Hke]%Hsafe.
    destruct (key_persists sha256 connect st' h c' c1 k o r (hex_of buf))
      as (k1 & ? & ? & _ & Hk1); [done..|]. exists k1. rewrite <-Hki, <-Hon. done.
  - intros now1 trace1 p1 c1 c2 H1 Hp1 H2. destruct (Hsafe c1 H1) as [Hc1 [Ho1 Hk1]].
    destruct (Ho1 o Ho) as (o1 & Ho1in & Hoi & Hon1).
    destruct (Hk1 k Hk) as (k1 & Hk1in & Hi1 & Hg1 & _).
    destruct (revoke_key_revokes sha256 db_text connect now1 trace1 st' p1 org o1 id c1 k1)
      as (k2 & Hk2 & Hi2 & Hr2); [done|done|done|done|congruence|done|congruence|congruence|].
    assert (control_step sha256 db_text connect c1
      (revoke_key db_text connect now1 trace1 st' p1 org id c1).2) as Hstep by constructor.
    destruct (control_step_safe _ _ _ _ _ Hstep Hc1) as [Hc3 _].
    destruct (control_steps_safe _ _ _ _ _ H2 Hc3) as [Hc2 [_ Hke]].
    destruct (Hke k2 Hk2) as (k3 & Hk3 & Hi3 & _ & _ & _ & Hr3).
    assert (k_id k3 = k_id k) as E by congruence. rewrite <-E in Hid, Hh, Hne.
    apply (parts_revoked sha256 connect st' h c2 k3 (hex_of buf)); try done.
    by rewrite Hr3.
Qed.

(** ** A sample *)

Module SampleAuth.

Definition sha (s : string) : list Z :=
  (λ c, Z.of_N (N_of_ascii c)) <$> String.list_ascii_of_string s.

Definition connect (_ : string) : result unit string := Ok tt.
Definition db_text (_ : DbError) : string := "refused".
Definition state : AppState := mkState "let-me-in" (Some "postgres://").

(** The headers of a request with a credential, and with an acting user. *)
Definition headers (credential : string) (user : option string) : Headers := λ name,
  if decide (name = "authorization") then Some ("Bearer " +:+ credential)
  else if decide (name = "x-acting-user") then user else None.

Definition operator : Principal := mkPrincipal "operator" None Operator None.

Definition acme : OrgRow :=
  mkOrg "o1" "acme" "/etc/acme.yaml" (JObject []) None None None None "active" None 0 0.

Definition start : ControlDb := mkControl [acme] [] [].

Definition issued : Response * ControlDb :=
  create_key sha db_text connect 1 None "k1" [171; 205] state operator "acme" "steward" start.

Definition key : string := "erk_k1_abcd".

Lemma start_ok : control_ok start.
Proof. by split. Qed.

Lemma issued_ok : control_ok issued.2.
Proof. by split. Qed.

Definition steward : Principal :=
  mkPrincipal "user:ann@acme via key:k1" (Some "acme") Steward None.

Lemma steward_admitted :
  from_request_parts sha connect state (headers key (Some "ann@acme")) issued.2 = Ok steward.
Proof. vm_compute. reflexivity. Qed.

(** Provisioning again under the name of an active tenant takes it back to
    [provisioning], from which neither suspending nor resuming leads. *)
Definition again : ControlDb :=
  (provision_record db_text 2 "o2" "acme" "/new.yaml" (JObject []) "/drop" start).2.

Example reprovision_deactivates :
  o_state <$> get_org "acme" again = Some "provisioning"
  ∧ (suspend_org db_text connect 3 None state operator "acme" again).1.1 = 409
  ∧ (resume_org db_text connect 3 None state operator "acme" again).1.1 = 409.
Proof. vm_compute. done. Qed.
End SampleAuth.

Lemma principal_exact_witness :
  ∃ credential label, bearer (SampleAuth.headers SampleAuth.key (Some "ann@acme")) = Some credential
    ∧ authenticates SampleAuth.sha SampleAuth.connect SampleAuth.state SampleAuth.issued.2 credential
        (Some "acme") Steward label
    ∧ SampleAuth.steward
      = mkPrincipal (compose_actor label (Some "ann@acme")) (Some "acme") Steward None.
Proof.
  exact (proj1 (principal_exact SampleAuth.sha SampleAuth.connect SampleAuth.state
    SampleAuth.issued.2 (SampleAuth.headers SampleAuth.key (Some "ann@acme")) SampleAuth.steward
    SampleAuth.issued_ok) SampleAuth.steward_admitted).
Defined.

Lemma actor_exact_witness :
  p_role SampleAuth.steward = p_role SampleAuth.steward
  ∧ p_org SampleAuth.steward = p_org SampleAuth.steward
  ∧ forwarded_actor (SampleAuth.headers SampleAuth.key (Some "ann@acme"))
    = forwarded_actor (SampleAuth.headers SampleAuth.key (Some "ann@acme")).
Proof.
  exact (actor_exact SampleAuth.sha SampleAuth.connect SampleAuth.state SampleAuth.issued.2 _ _ _ _
    SampleAuth.issued_ok SampleAuth.steward_admitted SampleAuth.steward_admitted eq_refl).
Defined.

Lemma issued_key_lives_witness :
  from_request_parts SampleAuth.sha SampleAuth.connect SampleAuth.state
    (SampleAuth.headers SampleAuth.key None)
    (revoke_key SampleAuth.db_text SampleAuth.connect 2 None SampleAuth.state SampleAuth.operator
       "acme" "k1" SampleAuth.issued.2).2
  = Err (unauthorized "invalid credential").
Proof.
  destruct (issued_key_lives SampleAuth.sha SampleAuth.db_text SampleAuth.connect 1 None "k1"
    [171; 205] SampleAuth.state SampleAuth.operator "acme" "steward" SampleAuth.start
    (SampleAuth.issued.1.2) SampleAuth.issued.2 SampleAuth.key SampleAuth.state
    (SampleAuth.headers SampleAuth.key None)) as (r & _ & _ & _ & Hrev).
  - exact SampleAuth.start_ok.
  - reflexivity.
  - discriminate.
  - vm_compute. reflexivity.
  - vm_compute. reflexivity.
  - reflexivity.
  - discriminate.
  - exists "postgres://". split; reflexivity.
  - exact (Hrev 2 None SampleAuth.operator SampleAuth.issued.2 _ (rtc_refl _ _) eq_refl
      (rtc_refl _ _)).
Defined.
