(* ===== verification/Executor.v ===== *)
(** * The executor

    [er-server/src/executor.rs]: what the dispatcher does with a watch frame,
    a resync, a claimed job and its sweeps.  The state is the ledger, the
    calls made to the cluster so far and the launches whose pod has not
    started.  The cluster answers from the history of the calls; its answers
    to label patches and deletes are ignored by the code.  A handler reads one
    clock, and the database answers every statement: a connection that breaks
    between two statements is a handler cut short there.

    Not modelled: webhooks and traces, and what a control body does outside
    the two tables. *)

From S2P Require Auth.
From S2P Require Import Prelude Json Ids DagPolicy Dag Readiness Errors Registry Sql Ledger TaskPg.
From S2P Require Import LedgerInv LedgerRuns LedgerMoves LedgerOps Scheduler.
From S2P Require TerminalRecords Classify.
From Stdlib Require Import Ascii.
From stdpp Require Import pretty.

#[local] Open Scope Z_scope.

(** ** Definitions *)

Definition ZOMBIE_STALE_SECS : Z := 300.
Definition QUOTA_WAIT_SECS : Z := 30.
Definition NO_RECORD_GRACE : Z := Classify.NO_RECORD_BOUND_SECS.
Definition INPROC : string := "inproc".
Definition OWNER_LABEL : string := "er.dupezero.com/owner".
Definition DONE_LABEL : string := "er.dupezero.com/done".
Definition REVOKED : string := "revoked".
Definition TASK_INSTANCE_ANNOTATION : string := "er.dupezero.com/task-instance-id".
Definition FINGERPRINT_ANNOTATION : string := "er.dupezero.com/structural-fingerprint".

Inductive ObjectKind := ObjJob | ObjPod.

Record EventSnapshot := mkEvent { event_reason : string; event_message : string }.

Record Listing := mkListing {
  listed_jobs : list Classify.JobSnapshot;
  listed_pods : list Classify.PodSnapshot;
}.

Inductive WatchFrame :=
| FJob (job : Classify.JobSnapshot)
| FJobDeleted (job : Classify.JobSnapshot)
| FPod (pod : Classify.PodSnapshot)
| FPodDeleted (pod : Classify.PodSnapshot)
| Resync.

(** The writes to the cluster; a created Job is its rendered manifest with the
    launch's name and token. *)
Inductive ApiCall :=
| PatchLabels (kind : ObjectKind) (name : string) (labels : list (string * option string))
| DeleteJob (name : string)
| CreateJob (manifest name token : string).

Inductive ApiError :=
| Quota (message : string) | AlreadyExists | RateLimited (retry_after_secs : option Z) | ApiOther.

(** What the cluster answers after a history of calls; an error of a read is
    an absent answer. *)
Record Cluster := mkCluster {
  get_job : list ApiCall → string → option Classify.JobSnapshot;
  list_managed : list ApiCall → option Listing;
  list_events : list ApiCall → string → list EventSnapshot;
  create_job : list ApiCall → option ApiError;
}.

Record Exec := mkExec {
  ex_db : Db;
  ex_calls : list ApiCall;
  pending_since : gmap string Z;
}.

#[global] Instance Exec_eta : Etable Exec :=
  λ s, mkExec (ex_db s) (ex_calls s) (pending_since s).

(** A statement by itself. *)
Definition run {A} (m : stmt Db A) (s : Exec) : result A DbError * Exec :=
  let '(r, d) := transaction m (ex_db s) in (r, s <| ex_db := d |>).

(** [let _ = ..]: the result is ignored. *)
Definition run_ {A} (m : stmt Db A) (s : Exec) : Exec := (run m s).2.

Definition call (c : ApiCall) (s : Exec) : Exec := s <| ex_calls := ex_calls s ++ [c] |>.

Definition api_delete (job_name : string) : Exec → Exec := call (DeleteJob job_name).

Definition revoke_and_delete (job_name : string) (s : Exec) : Exec :=
  api_delete job_name (call (PatchLabels ObjJob job_name [(OWNER_LABEL, Some REVOKED)]) s).

Definition tombstone (job_name : string) (pod_name : option string) (s : Exec) : Exec :=
  let s := call (PatchLabels ObjJob job_name [(DONE_LABEL, Some "true")]) s in
  let s := match pod_name with
           | Some pod => call (PatchLabels ObjPod pod [(DONE_LABEL, Some "true")]) s
           | None => s
           end in
  api_delete job_name s.

Definition forget (job_name : string) (s : Exec) : Exec :=
  s <| pending_since := delete job_name (pending_since s) |>.

Definition class_default_timeout (class : option ResourceClass) : Z :=
  match class with
  | Some ClassS => 2 * 3600
  | Some ClassL => 24 * 3600
  | _ => 6 * 3600
  end.

Definition row_view (row : TaskInstance) : option Classify.RowView :=
  match ti_state row with
  | Queued => Some (Classify.mkRow Classify.Queued false)
  | Running => Some (Classify.mkRow Classify.Running false)
  | Restarting => Some (Classify.mkRow Classify.Restarting false)
  | Canceling => Some (Classify.mkRow Classify.Canceling false)
  | Succeeded | Skipped => Some (Classify.mkRow Classify.Running true)
  | _ => None
  end.

(** [JobKind::parse_row_kind]. *)
Definition row_kind (d : Db) (row : TaskInstance) : option JobKind :=
  j ← head (job_by_id (ti_org_id row) (ti_job_id row) d); job_kind_parse (job_kind j).

(** The row an annotation names: the first of its lineage. *)
Definition fresh_row (id : string) (d : Db) : option TaskInstance := head (retry_lineage id d).

Definition row_for_annotation (annotations : gmap string string) (d : Db) : option TaskInstance :=
  id ← annotations !! TASK_INSTANCE_ANNOTATION; fresh_row id d.

(** *** Rendering ([er-k8s/src/manifest.rs]) *)

Fixpoint drop_bytes (n : nat) (s : string) : string :=
  match n, s with
  | O, _ => s
  | S n, String _ s => drop_bytes n s
  | S _, EmptyString => EmptyString
  end.

(** [str::replace] of a non-empty pattern, left to right; each turn consumes a
    byte at least. *)
Fixpoint replace_loop (fuel : nat) (pat by_ s : string) : string :=
  match fuel, s with
  | O, _ | _, EmptyString => s
  | S fuel, String c rest =>
      if String.prefix pat s
      then by_ +:+ replace_loop fuel pat by_ (drop_bytes (String.length pat) s)
      else String c (replace_loop fuel pat by_ rest)
  end.

Definition replace (pat by_ s : string) : string := replace_loop (String.length s) pat by_ s.

Inductive RenderError := Unsubstituted (placeholder : string) | ParseError.

(** The text from the first placeholder left over. *)
Fixpoint find_placeholder (s : string) : option string :=
  if String.prefix "${ER_" s then Some s
  else match s with EmptyString => None | String _ s => find_placeholder s end.

Fixpoint until_brace (s : string) : string :=
  match s with
  | EmptyString => "}"
  | String c s => if Ascii.eqb c "}"%char then "}" else String c (until_brace s)
  end.

Definition render_job (parses : string → bool) (template : string)
    (attempt : list (string * string)) : result string RenderError :=
  let rendered := foldl (λ s '(pat, by_), replace pat by_ s) template attempt in
  match find_placeholder rendered with
  | Some tail => Err (Unsubstituted (until_brace tail))
  | None => if parses rendered then Ok rendered else Err ParseError
  end.

Section executor.
Context (sha256 : string → list Z) (hashtext : string → Z) (now : Z).
Context (epoch : string) (image_digest : option string) (dag_kinds : gset string).
Context (cluster : Cluster).
Context (from_str : string → option TerminalRecords.TerminalRecord).

Definition handles (kind : string) : bool := bool_decide (kind ∈ dag_kinds).

(** [dag_for] never panics. *)
Definition escalates (kind : option JobKind) (task_id : string) : bool :=
  match (k ← kind; dag ← dag_for sha256 k; node_by_task_id dag task_id) with
  | Some (_, n) => escalate_on_oom (policy n)
  | None => false
  end.

Definition fail (row : TaskInstance) (failure : TaskFailure) (s : Exec) : Exec :=
  run_ (fail_or_retry_stmts sha256 hashtext now (ti_id row) failure) s.

(** *** Launches that did not run *)

Definition requeue (row : TaskInstance) (job_name reason : string) (wait : Z) (s : Exec) : Exec :=
  let '(requeued, s) := run (requeue_launch now wait (Some reason) (ti_id row) job_name) s in
  let s :=
    match requeued with
    | Ok [] =>
        match fresh_row (ti_id row) (ex_db s) with
        | Some fresh =>
            if is_live fresh && state_in [Queued; Running] fresh
               && (ti_max_launches fresh <=? ti_launches fresh)
            then fail row (mkFailure Failed true false None (Some reason) (Some "infrastructure")
                   (Some "the infrastructure budget is spent: three launches never ran user code (§5.5)")
                   (Some job_name) POD_BACKOFF) s
            else s
        | None => s
        end
    | _ => s
    end in
  forget job_name s.

Definition wait_capacity (row : TaskInstance) (job_name reason detail : string) (s : Exec) : Exec :=
  let s := api_delete job_name s in
  let s := run_ (capacity_wait now QUOTA_WAIT_SECS (Some (reason +:+ ": " +:+ detail))
                   (ti_id row) job_name) s in
  forget job_name s.

(** *** Verdicts *)

(** [archive_restarted], then, in a statement of its own, the new try. *)
Definition rotate (row : TaskInstance) (exit_code : option Z) (reason : option string)
    (job_name : string) (s : Exec) : Exec :=
  match run (archive_restarted now exit_code reason (ti_id row) (Some job_name)) s with
  | (Ok (_ :: _), s) => run_ (insert_cleared_try sha256 now None 2 image_digest (ti_id row)) s
  | (_, s) => s
  end.

Definition RETRYABLE_CLASSES : list string :=
  ["transient_io"; "lock_conflict"; "infrastructure"; "resources"].

Definition record_failure (kind : option JobKind) (row : TaskInstance) (job_name : string)
    (record : TerminalRecords.TerminalRecord) : TaskFailure :=
  let class := default "internal" (TerminalRecords.error_class record) in
  mkFailure Failed (bool_decide (class ∈ RETRYABLE_CLASSES))
    (bool_decide (class = "resources") && escalates kind (ti_task_id row))
    (Some (TerminalRecords.exit record)) (TerminalRecords.termination_reason record)
    (Some class) (TerminalRecords.detail record) (Some job_name) POD_BACKOFF.

Definition apply_record (kind : option JobKind) (row : TaskInstance) (job_name : string)
    (record : TerminalRecords.TerminalRecord) (s : Exec) : Exec :=
  let finish_as skipped :=
    run_ (finish now skipped "done" (TerminalRecords.output record)
      (TerminalRecords.snapshot_start record) (TerminalRecords.snapshot_end record)
      (TerminalRecords.counters record) (Some (TerminalRecords.exit record)) (ti_id row)
      (default "" (ti_pod_uid row))) s in
  match TerminalRecords.state record with
  | TerminalRecords.Succeeded => finish_as false
  | TerminalRecords.Skipped => finish_as true
  | TerminalRecords.Failed => fail row (record_failure kind row job_name record) s
  | TerminalRecords.Interrupted => s
  end.

Definition no_record_failure (job_name : string) : TaskFailure :=
  mkFailure Failed false false None (Some "no_terminal_record") (Some "internal")
    (Some "the pod reached a terminal phase with no terminal record; never a success and never retryable (§6.5)")
    (Some job_name) POD_BACKOFF.

Definition deadline_failure (job_name : string) : TaskFailure :=
  mkFailure TimedOut false false None (Some "DeadlineExceeded") (Some "timeout")
    (Some "the Job's activeDeadlineSeconds fired; a longer timeout is a policy change the operator applies by clearing (§5.5)")
    (Some job_name) POD_BACKOFF.

Definition resources_failure (kind : option JobKind) (row : TaskInstance) (job_name reason : string)
    (detail : option string) : TaskFailure :=
  mkFailure Failed true
    (escalates kind (ti_task_id row) && negb (bool_decide (ti_resource_class row = Some ClassL)))
    None (Some reason) (Some "resources") detail (Some job_name) POD_BACKOFF.

Definition apply_verdict (row : TaskInstance) (job_name : string)
    (verdict : Classify.TerminalVerdict) (s : Exec) : Exec :=
  let kind := row_kind (ex_db s) row in
  match verdict with
  | Classify.TWait => s
  | Classify.RecordEvidence exit_code reason =>
      tombstone job_name None
        (run_ (record_evidence now exit_code reason (ti_id row) (default "" (ti_pod_uid row))
                 job_name) s)
  | Classify.ApplyRecord record => tombstone job_name None (apply_record kind row job_name record s)
  | Classify.FailNoRecord => tombstone job_name None (fail row (no_record_failure job_name) s)
  | Classify.TimedOut => tombstone job_name None (fail row (deadline_failure job_name) s)
  | Classify.FailResources reason detail =>
      tombstone job_name None (fail row (resources_failure kind row job_name reason detail) s)
  | Classify.Requeue reason =>
      requeue row job_name reason QUOTA_WAIT_SECS (api_delete job_name s)
  | Classify.SettleCanceled exit_code reason =>
      tombstone job_name None
        (run_ (settle_canceled now exit_code reason (ti_id row) (Some job_name)) s)
  | Classify.CompleteRestart exit_code reason =>
      tombstone job_name None (rotate row exit_code reason job_name s)
  end.

(** *** The watch *)

(** [JobSnapshot::default()]. *)
Definition default_job : Classify.JobSnapshot :=
  Classify.mkJob "" ∅ ∅ 0 0 0 false false false.

Definition apply_job (job : Classify.JobSnapshot) (s : Exec) : option Exec :=
  if negb (Classify.failed_deadline job) then Some s
  else
    match row_for_annotation (Classify.job_annotations job) (ex_db s) with
    | None => Some s
    | Some row =>
        if decide (ti_k8s_job_name row ≠ Some (Classify.job_name job)) then Some s
        else
          match row_view row with
          | None => Some s
          | Some view =>
              verdict ← Classify.terminal from_str view None job false 0;
              Some (apply_verdict row (Classify.job_name job) verdict s)
          end
    end.

(** A revoked pod whose row says [heartbeat_timeout] is charged to the try. *)
Definition zombie_override (row : TaskInstance) (pod : Classify.PodSnapshot)
    (verdict : Classify.TerminalVerdict) : Classify.TerminalVerdict :=
  match verdict with
  | Classify.Requeue _ =>
      if decide (ti_termination_reason row = Some "heartbeat_timeout") then
        Classify.ApplyRecord (TerminalRecords.mkTerminal 1 (ti_id row) TerminalRecords.Failed
          (default 1 (Classify.terminated_exit_code pod)) (Some "infrastructure")
          (Some "heartbeat_timeout")
          (Some "no heartbeat for 5 minutes; something ran and the outcome is unknown")
          None None None None)
      else verdict
  | _ => verdict
  end.

Definition apply_pod (pod : Classify.PodSnapshot) (deleted : bool) (s : Exec) : option Exec :=
  match row_for_annotation (Classify.pod_annotations pod) (ex_db s) with
  | None => Some s
  | Some row =>
      match ti_k8s_job_name row with
      | None => Some s
      | Some job_name =>
          if negb (String.prefix job_name (Classify.pod_name pod)) then Some s
          else
            let s := match Classify.phase pod with
                     | Classify.PodRunning => forget job_name s
                     | _ => s
                     end in
            match row_view row with
            | None =>
                (* [row_view] covers the finished states: nothing to annotate *)
                if state_in [Succeeded; Skipped] row then
                  Some (tombstone job_name (Some (Classify.pod_name pod))
                    (run_ (record_evidence now (Classify.terminated_exit_code pod)
                             (Classify.terminated_reason pod) (ti_id row)
                             (default (Classify.uid pod) (ti_pod_uid row)) job_name) s))
                else Some s
            | Some view =>
                let job := default default_job (get_job cluster (ex_calls s) job_name) in
                verdict ← Classify.terminal from_str view (Some pod) job deleted NO_RECORD_GRACE;
                Some (apply_verdict row job_name (zombie_override row pod verdict) s)
            end
      end
  end.

(** *** Resync *)

Definition find_job (l : list Classify.JobSnapshot) (name : string) : option Classify.JobSnapshot :=
  find_first (λ j, bool_decide (Classify.job_name j = name)) l.

Definition build_skew_failure (job_name : string) : TaskFailure :=
  mkFailure Failed false false None (Some "build_skew") (Some "internal")
    (Some "the running Job was launched from a different build's graph") (Some job_name)
    POD_BACKOFF.

Definition reconcile_row (listing : Listing) (row : TaskInstance) (s : Exec) : Exec :=
  match ti_k8s_job_name row with
  | None => s
  | Some job_name =>
      match ti_state row, find_job (listed_jobs listing) job_name with
      | Restarting, None => rotate row None (Some "no_pod") job_name s
      | Canceling, None =>
          run_ (settle_canceled now None (Some "vanished") (ti_id row) (Some job_name)) s
      | Canceling, Some _ => revoke_and_delete job_name s
      | (Queued | Running), Some job =>
          let ours := k ← row_kind (ex_db s) row; structural_fingerprint <$> dag_for sha256 k in
          if decide (ours = (Classify.job_annotations job !! FINGERPRINT_ANNOTATION))
          then call (PatchLabels ObjJob job_name [(OWNER_LABEL, Some epoch)]) s
          else fail row (build_skew_failure job_name) (tombstone job_name None s)
      | Running, None => requeue row job_name "vanished" QUOTA_WAIT_SECS s
      | Queued, None => requeue row job_name "adoption_relaunch" 0 s
      | _, _ => s
      end
  end.

Definition reconcile_stray (names : list (option string)) (job : Classify.JobSnapshot) (s : Exec) :
    Exec :=
  if decide ((Some (Classify.job_name job) ∉ names) ∧ (Classify.job_labels job !! DONE_LABEL) = None)
  then tombstone (Classify.job_name job) None s
  else s.

Definition reconcile (s : Exec) : Exec :=
  let rows := live_claimed_pods (ex_db s) in
  match list_managed cluster (ex_calls s) with
  | None => s
  | Some listing =>
      let s := foldl (λ s row, reconcile_row listing row s) s rows in
      foldl (λ s job, reconcile_stray (ti_k8s_job_name <$> rows) job s) s (listed_jobs listing)
  end.

Definition apply_frame (frame : WatchFrame) (s : Exec) : option Exec :=
  match frame with
  | Resync => Some (reconcile s)
  | FPod pod => apply_pod pod false s
  | FPodDeleted pod => apply_pod pod true s
  | FJob job | FJobDeleted job => apply_job job s
  end.

(** *** Planning a claimed job *)

Definition plan_claimed (job : Job) (s : Exec) : option Exec :=
  let refuse detail := Some (s <| ex_db := (refuse_plan now (job_id job) "config" detail (ex_db s)).2 |>) in
  match job_kind_parse (job_kind job) with
  | None => refuse ("kind '" +:+ job_kind job +:+ "' does not parse into the DAG registry")
  | Some kind =>
      dag ← dag_for sha256 kind;
      match job_structural_fingerprint job with
      | Some fp =>
          if decide (fp ≠ structural_fingerprint dag) then
            refuse ("the job was planned against structural fingerprint " +:+ fp
              +:+ "; this build compiles " +:+ structural_fingerprint dag
              +:+ " — clear into a new job rather than mixing graphs (§9.4)")
          else '(_, d) ← plan sha256 now job dag epoch image_digest (ex_db s); Some (s <| ex_db := d |>)
      | None => '(_, d) ← plan sha256 now job dag epoch image_digest (ex_db s); Some (s <| ex_db := d |>)
      end
  end.

(** *** Sweeps *)

Definition dag_jobs (state : string) (d : Db) : list Job :=
  filter (λ j, handles (job_kind j) = true) (job_list None (Some state) 200 d).

(** The jobs are read first; a failed check is logged. *)
Definition readiness_step (acc : option (bool * Exec)) (job : Job) : option (bool * Exec) :=
  '(worked, s) ← acc;
  '(r, d) ← readiness_for now sha256 job (ex_db s);
  Some (match r with Ok (did, _) => worked || did | Err _ => worked end, s <| ex_db := d |>).

Definition readiness_pass (s : Exec) : option (bool * Exec) :=
  foldl readiness_step (Some (false, s))
    (dag_jobs "running" (ex_db s) ++ dag_jobs "canceling" (ex_db s)).

(** One row of a job being canceled; [None] is the early return on an error. *)
Definition cancel_row (acc : bool * Exec) (row : TaskInstance) : bool * Exec :=
  let '(ok, s) := acc in
  if negb ok then acc
  else if bool_decide (ti_kind row = Control) || bool_decide (ti_k8s_job_name row = Some INPROC)
  then match run (settle_canceled now None (Some "canceled") (ti_id row) (ti_k8s_job_name row)) s with
       | (Ok _, s) => (true, s)
       | (Err _, s) => (false, s)
       end
  else match ti_k8s_job_name row with
       | Some name => (true, revoke_and_delete name s)
       | None => (true, s)
       end.

Definition cancel_job (acc : bool * Exec) (job : Job) : bool * Exec :=
  let '(ok, s) := acc in
  if negb ok then acc
  else
    match run (cancel_pending now (job_org_id job) (job_id job)) s with
    | (Err _, s) => (false, s)
    | (Ok _, s) =>
        match run (cancel_live now (job_org_id job) (job_id job)) s with
        | (Err _, s) => (false, s)
        | (Ok live, s) => foldl cancel_row (true, s) live
        end
    end.

(** Whether it ended without an error. *)
Definition cancel_sweep (s : Exec) : bool * Exec :=
  foldl cancel_job (true, s) (dag_jobs "canceling" (ex_db s)).

Definition zombie_row (listing : Listing) (s : Exec) (row : TaskInstance) : Exec :=
  let pod := find_first (λ p, bool_decide (Some (Classify.pod_name p) = ti_pod_name row))
               (listed_pods listing) in
  let stand_down :=
    match pod with
    | Some p => Classify.node_not_ready p || bool_decide (is_Some (Classify.disruption_target p))
    | None => false
    end in
  if stand_down then s
  else
    let s := match ti_pod_uid row with
             | Some pod_uid =>
                 run_ (note_interruption now "heartbeat_timeout" None (ti_id row) pod_uid) s
             | None => s
             end in
    match ti_k8s_job_name row with Some name => revoke_and_delete name s | None => s end.

Definition zombie_sweep (s : Exec) : Exec :=
  match stale_heartbeats now epoch ZOMBIE_STALE_SECS (ex_db s) with
  | [] => s
  | stale =>
      match list_managed cluster (ex_calls s) with
      | None => s
      | Some listing => foldl (zombie_row listing) s stale
      end
  end.

(** The seconds since the launch was first observed. *)
Definition pending_age (job_name : string) (s : Exec) : Z :=
  match pending_since s !! job_name with
  | Some t => Z.max 0 ((now - t) / 1000000)
  | None => 0
  end.

(** The newest of the [FailedCreate] events, listed newest last. *)
Definition newest_failed_create (events : list EventSnapshot) : option string :=
  event_message <$> find_first (λ e, bool_decide (event_reason e = "FailedCreate")) (rev events).

Definition stuck_row (listing : Listing) (s : Exec) (row : TaskInstance) : Exec :=
  match ti_k8s_job_name row with
  | None => s
  | Some job_name =>
      let job := find_job (listed_jobs listing) job_name in
      let pod := find_first (λ p, String.prefix job_name (Classify.pod_name p)
                   && match Classify.phase p with Classify.PodPending => true | _ => false end)
                   (listed_pods listing) in
      let age := pending_age job_name s in
      let failed_create :=
        match job, pod with
        | Some j, None =>
            if Classify.active j =? 0
            then newest_failed_create (list_events cluster (ex_calls s) job_name) else None
        | _, _ => None
        end in
      match Classify.pre_start pod (default default_job job) failed_create age age age with
      | Classify.Wait => s
      | Classify.RequeueLaunch reason detail =>
          requeue row job_name
            (match detail with Some d => reason +:+ ": " +:+ d | None => reason end)
            QUOTA_WAIT_SECS (api_delete job_name s)
      | Classify.CapacityWait reason detail =>
          wait_capacity row job_name reason (default reason detail) (api_delete job_name s)
      end
  end.

Definition stuck_pending_sweep (s : Exec) : Exec :=
  match filter (λ r, ti_state r = Queued) (live_claimed_pods (ex_db s)) with
  | [] => s
  | queued =>
      match list_managed cluster (ex_calls s) with
      | None => s
      | Some listing => foldl (stuck_row listing) s queued
      end
  end.

(** Adoption: the job rows, then the task rows. *)
Definition adopt_all (s : Exec) : Exec := run_ (adopt now epoch) (run_ (job_adopt now epoch) s).

(** *** Control tasks *)

(** What a control body returns ([Registry.run_control_task] on its order). *)
Context (control : JobKind → TaskInstance → result PodTaskRun TaskError).
(** The rows other transactions hold. *)
Context (locked : gset string).

Definition unknown_kind_failure : TaskFailure :=
  mkFailure Failed false false None (Some "config") (Some "config")
    (Some "the job's kind does not parse into the DAG registry") None POD_BACKOFF.

Definition run_one_control (row : TaskInstance) (s : Exec) : Exec :=
  match row_kind (ex_db s) row with
  | None => fail row unknown_kind_failure s
  | Some kind =>
      match control kind row with
      | Ok r => run_ (finish_control now (run_skipped r) (run_outcome r) (Some (run_output r))
                        (run_counters r) (ti_id row) epoch) s
      | Err e => fail row (control_failure e) s
      end
  end.

(** [None] is out of fuel. *)
Fixpoint control_pass (fuel : nat) (worked : bool) (s : Exec) :
    option (result bool DbError * Exec) :=
  match fuel with
  | O => None
  | S fuel =>
      match run (claim_control now locked epoch) s with
      | (Err e, s) => Some (Err e, s)
      | (Ok [], s) => Some (Ok worked, s)
      | (Ok (row :: _), s) => control_pass fuel true (run_one_control row s)
      end
  end.

(** *** Launching *)

Context (template : string) (in_flight_cap : Z).
(** The random token of a turn, and whether a rendered text parses into a
    Job. *)
Context (mint_token : nat → string).
Context (parses : string → bool).

Definition render_attempt (dag : Dag) (row : TaskInstance) (job_name : string) :
    list (string * string) :=
  let timeout := default (class_default_timeout (ti_resource_class row))
    ('(_, n) ← node_by_task_id dag (ti_task_id row); timeout_secs (policy n)) in
  [("${ER_JOB_NAME}", job_name);
   ("${ER_TASK_INSTANCE_ID}", ti_id row);
   ("${ER_TASK_ID}", ti_task_id row);
   ("${ER_JOB_ID}", ti_job_id row);
   ("${ER_TRY_NUMBER}", pretty (ti_try_number row));
   ("${ER_RESOURCE_CLASS}", default "M" (class_as_str <$> ti_resource_class row));
   ("${ER_OWNER_EPOCH}", epoch);
   ("${ER_STRUCTURAL_FINGERPRINT}", structural_fingerprint dag);
   ("${ER_POLICY_HASH}", policy_hash dag);
   ("${ER_ACTIVE_DEADLINE_SECONDS}", pretty (if timeout <? 2 ^ 63 then timeout else 21600));
   ("${ER_THROUGH_TASK}", ti_task_id row);
   ("${ER_IMAGE_DIGEST}", default "" image_digest)].

Definition owned (dag : Dag) (row : TaskInstance) (found : Classify.JobSnapshot) : bool :=
  bool_decide ((Classify.job_annotations found !! TASK_INSTANCE_ANNOTATION) = Some (ti_id row))
  && bool_decide ((Classify.job_annotations found !! FINGERPRINT_ANNOTATION)
                  = Some (structural_fingerprint dag))
  && negb (Classify.deletion_timestamp found)
  && bool_decide ((Classify.job_labels found !! DONE_LABEL) = None).

Definition created (dag : Dag) (row : TaskInstance) (job_name : string) (s : Exec) : Exec :=
  match create_job cluster (ex_calls s) with
  | None => s <| pending_since := <[job_name := now]> (pending_since s) |>
  | Some (Quota message) => wait_capacity row job_name "quota" message s
  | Some AlreadyExists =>
      match get_job cluster (ex_calls s) job_name with
      | Some found =>
          if owned dag row found
          then call (PatchLabels ObjJob job_name [(OWNER_LABEL, Some epoch)]) s
          else requeue row job_name "foreign_job_name" QUOTA_WAIT_SECS s
      | None => requeue row job_name "foreign_job_name" QUOTA_WAIT_SECS s
      end
  | Some (RateLimited retry_after_secs) =>
      let wait := match retry_after_secs with
                  | Some secs => if secs <? 2 ^ 63 then secs else QUOTA_WAIT_SECS
                  | None => QUOTA_WAIT_SECS
                  end in
      requeue row job_name "rate_limited" wait s
  | Some ApiOther =>
      match get_job cluster (ex_calls s) job_name with
      | Some _ => s
      | None => requeue row job_name "create_failed" QUOTA_WAIT_SECS s
      end
  end.

(** An attempt that cannot be rendered is logged and stays queued. *)
Definition create_for (row : TaskInstance) (token : string) (s : Exec) : Exec :=
  match ti_k8s_job_name row, (k ← row_kind (ex_db s) row; dag_for sha256 k) with
  | Some job_name, Some dag =>
      match render_job parses template (render_attempt dag row job_name) with
      | Err _ => s
      | Ok manifest => created dag row job_name (call (CreateJob manifest job_name token) s)
      end
  | _, _ => s
  end.

(** The re-read before a create. *)
Definition still_ours (row : TaskInstance) (d : Db) : bool :=
  match fresh_row (ti_id row) d with
  | Some f => state_in [Queued] f && bool_decide (ti_try_number f = ti_try_number row)
              && sql_eq (ti_owner_epoch f) epoch
  | None => false
  end.

Fixpoint launch_pass (fuel turn : nat) (worked : bool) (s : Exec) :
    option (result bool DbError * Exec) :=
  match fuel with
  | O => None
  | S fuel =>
      let token := mint_token turn in
      let '(claimed, d) :=
        claim_launch now locked epoch None (Some (Auth.hash_secret sha256 token)) in_flight_cap (ex_db s) in
      let s := s <| ex_db := d |> in
      match claimed with
      | Err e => Some (Err e, s)
      | Ok None => Some (Ok worked, s)
      | Ok (Some row) =>
          launch_pass fuel (S turn) true
            (if still_ours row (ex_db s) then create_for row token s else s)
      end
  end.
End executor.

(** ** The executor moves the ledger by its transactions *)

(** Which transaction it is, by its name alone. *)
Create HintDb ledger_txn discriminated.
#[export] Hint Constants Opaque : ledger_txn.
#[export] Hint Constructors ledger_txn : ledger_txn.
#[export] Hint Extern 1 (terminal _) => done : ledger_txn.
#[export] Hint Extern 1 (_ ≤ _) => lia : ledger_txn.

Section steps.
#[local] Set Default Proof Using "Type".
Context (sha256 : string → list Z) (hashtext : string → Z) (now : Z).
Context (epoch : string) (image_digest : option string) (dag_kinds : gset string).
Context (cluster : Cluster).
Context (from_str : string → option TerminalRecords.TerminalRecord).
Context (control : JobKind → TaskInstance → result PodTaskRun TaskError) (locked : gset string).
Context (template : string) (in_flight_cap : Z) (mint_token : nat → string).
Context (parses : string → bool).

Definition steps (s s' : Exec) : Prop := rtc (ledger_step sha256 hashtext) (ex_db s) (ex_db s').

#[local] Instance steps_preorder : PreOrder steps.
Proof.
  split; [intros s; unfold steps; reflexivity|].
  intros s1 s2 s3 H12 H23. unfold steps in *. by transitivity (ex_db s2).
Qed.

Lemma call_steps c s s' : steps s s' → steps s (call c s').
Proof. done. Qed.

Lemma forget_steps j s s' : steps s s' → steps s (forget j s').
Proof. done. Qed.

Lemma tombstone_steps j p s s' : steps s s' → steps s (tombstone j p s').
Proof. intros H. unfold tombstone. destruct p; exact H. Qed.

Lemma transaction_steps {A} (m : stmt Db A) d :
  ledger_txn sha256 hashtext now A m →
  rtc (ledger_step sha256 hashtext) d (transaction m d).2.
Proof.
  intros Hm. unfold transaction. destruct (m d) as [[x d']|] eqn:E; [|reflexivity].
  apply rtc_once. by eapply step_txn.
Qed.

Lemma run_steps {A} (m : stmt Db A) s r s' :
  ledger_txn sha256 hashtext now A m → run m s = (r, s') → steps s s'.
Proof.
  unfold run. intros Hm. pose proof (transaction_steps m (ex_db s) Hm) as Ht.
  destruct (transaction m (ex_db s)) as [r' d]. intros [= _ <-]. exact Ht.
Qed.

Lemma run__steps {A} (m : stmt Db A) s s' :
  ledger_txn sha256 hashtext now A m → steps s s' → steps s (run_ m s').
Proof.
  intros Hm Hs. transitivity s'; [done|]. unfold run_.
  destruct (run m s') as [r s''] eqn:E. by eapply run_steps.
Qed.

Lemma fail_steps row f s s' :
  terminal (tf_terminal_state f) → steps s s' → steps s (fail sha256 hashtext now row f s').
Proof. intros Hf. by apply run__steps, TFailOrRetry. Qed.

(** Closes a goal about a handler that is a sequence of calls and statements. *)
Ltac handler :=
  repeat first
  [ done | apply tombstone_steps | apply call_steps | apply forget_steps
  | apply fail_steps; [done|] | apply run__steps; [solve [auto with ledger_txn]|] ].

Lemma requeue_steps row j reason wait s s' :
  steps s s' → steps s (requeue sha256 hashtext now row j reason wait s').
Proof.
  intros Hs. transitivity s'; [done|]. unfold requeue.
  destruct (run _ s') as [r s1] eqn:E. apply run_steps in E; [|apply TRequeueLaunch].
  apply forget_steps. destruct r as [[|? ?]|]; [|done..].
  destruct (fresh_row _ _) as [fresh|]; [|done].
  destruct (_ && _); [|done]. by apply fail_steps.
Qed.

Lemma rotate_steps row x reason j s s' :
  steps s s' → steps s (rotate sha256 now image_digest row x reason j s').
Proof.
  intros Hs. transitivity s'; [done|]. unfold rotate.
  destruct (run _ s') as [r s1] eqn:E. apply run_steps in E; [|apply TArchiveRestarted].
  destruct r as [[|? ?]|]; [done| |done]. handler.
Qed.

Lemma control_failure_terminal e : terminal (tf_terminal_state (control_failure e)).
Proof. by destruct e. Qed.

Lemma apply_verdict_steps row j v s s' :
  steps s s' → steps s (apply_verdict sha256 hashtext now image_digest row j v s').
Proof.
  intros Hs. unfold apply_verdict. destruct v; try (by handler).
  - apply tombstone_steps. unfold apply_record. destruct (TerminalRecords.state record); handler.
  - by apply requeue_steps, call_steps.
  - by apply tombstone_steps, rotate_steps.
Qed.

Lemma apply_job_steps job s s' :
  apply_job sha256 hashtext now image_digest from_str job s = Some s' → steps s s'.
Proof.
  unfold apply_job. destruct (negb _); [by intros [= <-]|].
  destruct (row_for_annotation _ _) as [row|]; [|by intros [= <-]].
  case_decide; [by intros [= <-]|]. destruct (row_view row); [|by intros [= <-]].
  intros (v & _ & [= <-])%bind_Some. by apply apply_verdict_steps.
Qed.

Lemma apply_pod_steps pod deleted s s' :
  apply_pod sha256 hashtext now image_digest cluster from_str pod deleted s = Some s' → steps s s'.
Proof.
  unfold apply_pod. destruct (row_for_annotation _ _) as [row|]; [|by intros [= <-]].
  destruct (ti_k8s_job_name row) as [j|]; [|by intros [= <-]].
  destruct (negb _); [by intros [= <-]|]. cbv zeta.
  match goal with |- context [match Classify.phase pod with _ => _ end] =>
    set (s1 := match Classify.phase pod with Classify.PodRunning => forget j s | _ => s end) end.
  assert (steps s s1) as Hs1 by (subst s1; destruct (Classify.phase pod); handler).
  clearbody s1. destruct (row_view row).
  - intros (v & _ & [= <-])%bind_Some. by apply apply_verdict_steps.
  - destruct (state_in _ _); intros [= <-]; handler.
Qed.

Lemma foldl_steps {A} (f : Exec → A → Exec) l s s' :
  (∀ s x, steps s (f s x)) → steps s s' → steps s (foldl f s' l).
Proof.
  intros Hf. revert s'. induction l as [|x l IH]; intros s' Hs; [done|]. simpl. apply IH.
  transitivity s'; auto.
Qed.

Lemma reconcile_row_steps listing row s :
  steps s (reconcile_row sha256 hashtext now epoch image_digest listing row s).
Proof.
  unfold reconcile_row. destruct (ti_k8s_job_name row) as [j|]; [|done].
  destruct (ti_state row), (find_job (listed_jobs listing) j); try done; try (by handler);
    try (by apply requeue_steps); try (by apply rotate_steps); case_decide; handler.
Qed.

Lemma reconcile_steps s : steps s (reconcile sha256 hashtext now epoch image_digest cluster s).
Proof.
  unfold reconcile. destruct (list_managed _ _) as [listing|]; [|done].
  apply foldl_steps; [|apply foldl_steps; [|done]].
  - intros s1 job. unfold reconcile_stray. case_decide; handler.
  - intros. apply reconcile_row_steps.
Qed.

Lemma apply_frame_steps frame s s' :
  apply_frame sha256 hashtext now epoch image_digest cluster from_str frame s = Some s' →
  steps s s'.
Proof.
  destruct frame as [job|job|pod|pod|]; simpl;
    [apply apply_job_steps..|apply apply_pod_steps|apply apply_pod_steps|].
  intros [= <-]. apply reconcile_steps.
Qed.

Lemma refuse_plan_steps i c e d :
  rtc (ledger_step sha256 hashtext) d (refuse_plan now i c e d).2.
Proof.
  unfold refuse_plan, transaction.
  match goal with |- context [match ?m with Ok _ => _ | Err _ => _ end] =>
    destruct m as [[x d']|] eqn:E end; [|reflexivity].
  apply bind_stmt in E as (rows & d1 & E & [= _ <-]). apply rtc_once.
  eapply step_txn; [apply TJobRefusePlan|exact E].
Qed.

Lemma plan_claimed_steps job s s' :
  job ∈ jobs (ex_db s) →
  plan_claimed sha256 now epoch image_digest job s = Some s' → steps s s'.
Proof.
  intros Hj. unfold plan_claimed. destruct (job_kind_parse (job_kind job)) as [kind|].
  2:{ intros [= <-]. apply refuse_plan_steps. }
  intros (dag & Hdag & H)%bind_Some.
  assert (∀ s', ('(_, d) ← plan sha256 now job dag epoch image_digest (ex_db s);
    Some (s <| ex_db := d |>)) = Some s' → steps s s') as Hplan.
  { intros s1 ([r d] & Hp & [= <-])%bind_Some. apply rtc_once.
    eapply step_plan; [by exists job|exact Hp]. }
  destruct (job_structural_fingerprint job); [|by apply Hplan].
  case_decide; [|by apply Hplan]. injection H as <-. apply refuse_plan_steps.
Qed.

(** *** The passes *)

Lemma pass_terminal dag states acts i t :
  topological (nodes dag) → pass dag states = Some acts → (i, Propagate t) ∈ acts → terminal t.
Proof.
  intros Htop Hp Hi. assert (length states = length (nodes dag)) as Hlen.
  { unfold pass in Hp. by case_decide. }
  destruct (pass_spec (nodes dag) Htop dag states eq_refl Hlen) as (eff & acts' & Hp' & Hpr).
  rewrite Hp in Hp'. injection Hp' as <-. apply (pr_acts _ _ _ _ Hpr) in Hi.
  unfold row_action in Hi. apply bind_Some in Hi as (n & _ & Hi).
  apply bind_Some in Hi as (st & _ & Hi). apply bind_Some in Hi as (up & _ & Hi).
  unfold decide_row in Hi. case_decide; [done|]. destruct (evaluate _ up) eqn:E; simpl in Hi; simplify_eq.
  by eapply evaluate_propagate_terminal.
Qed.

Lemma record_actions_steps dag live job number acts eff d eff' d' :
  (∀ i t, (i, Propagate t) ∈ acts → terminal t) →
  record_actions now dag live job number acts eff d = Some (Ok (Some eff', d')) →
  rtc (ledger_step sha256 hashtext) d d'.
Proof.
  revert eff d. induction acts as [|[i a] acts IH]; intros eff d Ha; simpl.
  { intros [= <- <-]. reflexivity. }
  intros (n & _ & H)%bind_Some. destruct (live !! task_id n) as [row|].
  2:{ eapply IH; [|exact H]. intros j t Hj. by apply (Ha j t), list_elem_of_further. }
  apply bind_Some in H as (m & Hm & H).
  assert (ledger_txn sha256 hashtext now _ m) as Htxn.
  { destruct a as [|t].
    - apply bind_Some in Hm as (input & _ & [= <-]). apply TMarkScheduled.
    - injection Hm as <-. apply TPropagate, (Ha i t), list_elem_of_here. }
  destruct (m d) as [[[|r rs] d1]|] eqn:E; [done| |done].
  eapply rtc_l; [by eapply step_txn|]. eapply IH; [|exact H].
  intros j t Hj. by apply (Ha j t), list_elem_of_further.
Qed.

Lemma readiness_for_steps job d r d' :
  readiness_for now sha256 job d = Some (r, d') → rtc (ledger_step sha256 hashtext) d d'.
Proof.
  unfold readiness_for. destruct (job_kind_parse _) as [kind|]; [|by intros [= _ <-]].
  intros (dag & Hdag & H)%bind_Some. destruct (head _) as [lck|]; [|by injection H as _ <-].
  apply bind_Some in H as (acts & Hp & H). apply bind_Some in H as (rec & Hrec & H).
  destruct rec as [[[eff|] d1]|]; [|by injection H as _ <-..].
  apply bind_Some in H as (m & Hm & H).
  assert (rtc (ledger_step sha256 hashtext) d d1) as H1.
  { eapply record_actions_steps; [|exact Hrec]. intros i t. eapply pass_terminal; [|exact Hp].
    by eapply dag_for_topological. }
  destruct (m d1) as [[js d2]|] eqn:E; [|by injection H as _ <-]. injection H as _ <-.
  transitivity d1; [done|]. unfold settle_stmt in Hm. apply bind_Some in Hm as (v & _ & Hm).
  destruct v as [|o|i].
  - injection Hm as <-. by injection E as _ <-.
  - apply bind_Some in Hm as ([c e] & _ & [= <-]).
    apply rtc_once. eapply step_txn; [apply TJobSettle|exact E].
  - apply bind_Some in Hm as (n & _ & [= <-]).
    apply rtc_once. eapply step_txn; [apply TJobSettle|exact E].
Qed.

Lemma readiness_pass_steps s w s' :
  readiness_pass sha256 now dag_kinds s = Some (w, s') → steps s s'.
Proof.
  unfold readiness_pass. generalize (dag_jobs dag_kinds "running" (ex_db s)
    ++ dag_jobs dag_kinds "canceling" (ex_db s)) as l.
  assert (∀ l acc, foldl (readiness_step sha256 now) acc l = Some (w, s') →
    ∃ w0 s0, acc = Some (w0, s0) ∧ steps s0 s') as H.
  { induction l as [|job l IH]; intros acc Hf; simpl in Hf; [by exists w, s'|].
    destruct (IH _ Hf) as (w1 & s1 & H1 & Hs1). apply bind_Some in H1 as ([w0 s0] & -> & H1).
    apply bind_Some in H1 as ([r d] & Hr & [= _ <-]). exists w0, s0. split; [done|].
    etransitivity; [|exact Hs1]. by eapply readiness_for_steps. }
  intros l (w0 & s0 & [= _ <-] & ?)%H. done.
Qed.

Lemma cancel_row_steps acc row s :
  steps s acc.2 → steps s (cancel_row now acc row).2.
Proof.
  destruct acc as [ok s1]. unfold cancel_row. intros Hs. destruct (negb ok); [done|].
  destruct (_ || _).
  - destruct (run _ s1) as [r s2] eqn:E. apply run_steps in E; [|apply TSettleCanceled].
    destruct r; simpl; by transitivity s1.
  - destruct (ti_k8s_job_name row); [|done]. simpl. unfold revoke_and_delete, api_delete. handler.
Qed.

Lemma cancel_job_steps acc job s :
  steps s acc.2 → steps s (cancel_job now acc job).2.
Proof.
  destruct acc as [ok s1]. unfold cancel_job. intros Hs. destruct (negb ok); [done|].
  destruct (run (cancel_pending _ _ _) s1) as [[?|] s2] eqn:E;
    (apply run_steps in E; [|apply TCancelPending]); [|by transitivity s1].
  destruct (run (cancel_live _ _ _) s2) as [[live|] s3] eqn:E';
    (apply run_steps in E'; [|apply TCancelLive]);
    [|simpl; transitivity s1; [done|]; by transitivity s2].
  assert (∀ l acc, steps s acc.2 → steps s (foldl (cancel_row now) acc l).2) as H.
  { induction l as [|row l IH]; intros acc Hacc; simpl; [done|]. by apply IH, cancel_row_steps. }
  apply H. simpl. transitivity s1; [done|]. by transitivity s2.
Qed.

Lemma cancel_sweep_steps s : steps s (cancel_sweep now dag_kinds s).2.
Proof.
  unfold cancel_sweep. generalize (dag_jobs dag_kinds "canceling" (ex_db s)) as l.
  assert (∀ l acc, steps s acc.2 → steps s (foldl (cancel_job now) acc l).2) as H.
  { induction l as [|job l IH]; intros acc Hacc; simpl; [done|]. by apply IH, cancel_job_steps. }
  intros l. by apply H.
Qed.

Lemma zombie_sweep_steps s : steps s (zombie_sweep now epoch cluster s).
Proof.
  unfold zombie_sweep. destruct (stale_heartbeats _ _ _ _) as [|row rows]; [done|].
  destruct (list_managed _ _) as [listing|]; [|done].
  apply foldl_steps; [|done]. intros s1 x. unfold zombie_row, revoke_and_delete, api_delete.
  destruct (find_first _ _) as [p|]; [destruct (_ || _); [done|]|];
    destruct (ti_pod_uid x), (ti_k8s_job_name x); handler.
Qed.

Lemma wait_capacity_steps row j reason detail s s' :
  steps s s' → steps s (wait_capacity now row j reason detail s').
Proof. intros Hs. unfold wait_capacity, api_delete. handler. Qed.

Lemma stuck_pending_sweep_steps s :
  steps s (stuck_pending_sweep sha256 hashtext now cluster s).
Proof.
  unfold stuck_pending_sweep. destruct (filter _ _) as [|row rows]; [done|].
  destruct (list_managed _ _) as [listing|]; [|done].
  apply foldl_steps; [|done]. intros s1 x. unfold stuck_row.
  destruct (ti_k8s_job_name x) as [j|]; [|done].
  destruct (Classify.pre_start _ _ _ _ _ _); [done|..].
  - apply requeue_steps. unfold api_delete. handler.
  - apply wait_capacity_steps. unfold api_delete. handler.
Qed.

Lemma adopt_all_steps s : steps s (adopt_all now epoch s).
Proof. unfold adopt_all. handler. Qed.

Lemma run_one_control_steps row s s' :
  steps s s' → steps s (run_one_control sha256 hashtext now epoch control row s').
Proof.
  intros Hs. unfold run_one_control. destruct (row_kind _ _) as [kind|]; [|handler].
  destruct (control kind row); [handler|]. apply fail_steps; [apply control_failure_terminal|done].
Qed.

Lemma control_pass_steps fuel w s r s' :
  control_pass sha256 hashtext now epoch control locked fuel w s = Some (r, s') → steps s s'.
Proof.
  revert w s. induction fuel as [|fuel IH]; intros w s; simpl; [done|].
  destruct (run _ s) as [c s1] eqn:E. apply run_steps in E; [|apply TClaimControl].
  destruct c as [[|row rows]|]; [by intros [= _ <-]| |by intros [= _ <-]].
  intros H%IH. transitivity s1; [done|]. etransitivity; [|exact H]. by apply run_one_control_steps.
Qed.

Lemma create_for_steps row token s s' :
  steps s s' →
  steps s (create_for sha256 hashtext now epoch image_digest cluster template parses row token s').
Proof.
  intros Hs. unfold create_for. destruct (ti_k8s_job_name row) as [j|]; [|done].
  destruct (_ ≫= _) as [dag|]; [|done]. destruct (render_job _ _ _) as [m|]; [|done].
  assert (steps s (call (CreateJob m j token) s')) as H by done. revert H.
  generalize (call (CreateJob m j token) s') as s1. intros s1 H. unfold created.
  destruct (create_job _ _) as [[| | |]|]; [by apply wait_capacity_steps|..|done].
  - destruct (get_job _ _ _) as [found|]; [|by apply requeue_steps].
    destruct (owned _ _ _); [handler|by apply requeue_steps].
  - by apply requeue_steps.
  - destruct (get_job _ _ _); [done|by apply requeue_steps].
Qed.

Lemma launch_pass_steps fuel turn w s r s' :
  launch_pass sha256 hashtext now epoch image_digest cluster locked template in_flight_cap
    mint_token parses fuel turn w s = Some (r, s') → steps s s'.
Proof.
  revert turn w s. induction fuel as [|fuel IH]; intros turn w s; simpl; [done|].
  unfold claim_launch. match goal with |- context [claim_launch_stmt ?a ?b ?c ?d ?e ?f ?g] =>
    destruct (claim_launch_stmt a b c d e f g) as [[rows d1]|e1] eqn:E end.
  2:{ destruct e1; intros [= _ <-]; unfold steps; reflexivity. }
  assert (steps s (s <| ex_db := d1 |>)) as H1.
  { apply rtc_once. eapply step_txn; [apply TClaimLaunch|exact E]. }
  destruct (head rows) as [row|]; [|by intros [= _ <-]].
  intros H%IH. etransitivity; [exact H1|]. etransitivity; [|exact H].
  destruct (still_ours _ _ _); [by apply create_for_steps|done].
Qed.
End steps.

(** ** The refinement *)

(** One piece of work of the executor: the watch delivers a frame, the
    dispatcher hands over a job it claimed, a pass or a sweep runs, a new
    process adopts the ledger. *)
Inductive exec_step (sha256 : string → list Z) (hashtext : string → Z) (s : Exec) : Exec → Prop :=
| exec_frame now epoch image_digest cluster from_str frame s' :
    apply_frame sha256 hashtext now epoch image_digest cluster from_str frame s = Some s' →
    exec_step sha256 hashtext s s'
| exec_plan now epoch image_digest job s' :
    job ∈ jobs (ex_db s) → plan_claimed sha256 now epoch image_digest job s = Some s' →
    exec_step sha256 hashtext s s'
| exec_readiness now dag_kinds w s' :
    readiness_pass sha256 now dag_kinds s = Some (w, s') → exec_step sha256 hashtext s s'
| exec_cancel now dag_kinds : exec_step sha256 hashtext s (cancel_sweep now dag_kinds s).2
| exec_zombie now epoch cluster : exec_step sha256 hashtext s (zombie_sweep now epoch cluster s)
| exec_stuck now cluster :
    exec_step sha256 hashtext s (stuck_pending_sweep sha256 hashtext now cluster s)
| exec_control now epoch control locked fuel w r s' :
    control_pass sha256 hashtext now epoch control locked fuel w s = Some (r, s') →
    exec_step sha256 hashtext s s'
| exec_launch now epoch image_digest cluster locked template cap mint_token parses fuel n w r s' :
    launch_pass sha256 hashtext now epoch image_digest cluster locked template cap mint_token
      parses fuel n w s = Some (r, s') → exec_step sha256 hashtext s s'
| exec_adopt now epoch : exec_step sha256 hashtext s (adopt_all now epoch s).


