(* ===== verification/ExecutorLoops.v ===== *)
(** * The executor's loops end

    [control_pass] and [launch_pass] claim until nothing is claimable.  Each
    turn uses up a part of a budget that nothing in the turn gives back: a
    claimed row waits no more, a row it puts back has one launch less left, and
    a retry waits for a time to come. *)

From S2P Require Auth.
From S2P Require Import Prelude Json Ids DagPolicy Dag Readiness Errors Registry Sql Ledger TaskPg.
From S2P Require Import LedgerInv LedgerRuns LedgerMoves LedgerOps Scheduler Executor.
From S2P Require TerminalRecords Classify.
From stdpp Require Import pretty.

#[local] Open Scope Z_scope.

(** ** The budget *)

(** A row a claim may take now. *)
Definition waits_now (now : Z) (kind : NodeKind) (r : TaskInstance) : bool :=
  is_live r && bool_decide (ti_kind r = kind) && state_in [Scheduled; UpForRetry] r
  && match ti_not_before r with None => true | Some b => b <=? now end.

Definition weight (now : Z) (kind : NodeKind) (r : TaskInstance) : nat :=
  if waits_now now kind r then S (Z.to_nat (ti_max_launches r - ti_launches r)) else 0.

Definition budget (now : Z) (kind : NodeKind) (d : Db) : nat :=
  sum_list (weight now kind <$> task_instances d).

(** ** Lemmas *)

Lemma sum_fmap_le {A} (f g : A → nat) l :
  (∀ x, x ∈ l → (f x ≤ g x)%nat) → (sum_list (f <$> l) ≤ sum_list (g <$> l))%nat.
Proof.
  induction l as [|x l IH]; intros H; csimpl; [done|].
  assert (f x ≤ g x)%nat by (apply H; set_solver).
  assert (sum_list (f <$> l) ≤ sum_list (g <$> l))%nat by (apply IH; set_solver). lia.
Qed.

Lemma sum_fmap_lt {A} (f g : A → nat) l y k :
  (∀ x, x ∈ l → (f x ≤ g x)%nat) → y ∈ l → (f y + k ≤ g y)%nat →
  (sum_list (f <$> l) + k ≤ sum_list (g <$> l))%nat.
Proof.
  intros H. induction l as [|x l IH]; intros Hy Hk; [by apply not_elem_of_nil in Hy|].
  assert (sum_list (f <$> l) ≤ sum_list (g <$> l))%nat by (apply sum_fmap_le; set_solver).
  assert (f x ≤ g x)%nat by (apply H; set_solver).
  apply elem_of_cons in Hy as [->|Hy]; csimpl; [lia|].
  assert (sum_list (f <$> l) + k ≤ sum_list (g <$> l))%nat by (apply IH; set_solver). lia.
Qed.

Section budget.
Context (now : Z) (kind : NodeKind).
Let w := weight now kind.

Lemma weight_state r : ti_state r ∉ [Scheduled; UpForRetry] → w r = 0%nat.
Proof.
  intros Hs. unfold w, weight, waits_now. unfold state_in.
  rewrite (bool_decide_eq_false_2 (ti_state r ∈ _)) by done. by rewrite !andb_false_r.
Qed.

Lemma update_budget where_ set d ret d' :
  update_tis where_ set d = Ok (ret, d') →
  (∀ r, r ∈ task_instances d → where_ d r = true → (w (set r) ≤ w r)%nat) →
  (budget now kind d' ≤ budget now kind d)%nat.
Proof.
  intros (_ & Hrows & _)%update_tis_ok Hset. unfold budget. rewrite Hrows. simpl.
  rewrite <-list_fmap_compose. apply sum_fmap_le. intros r Hr. simpl.
  destruct (where_ d r) eqn:E; [by apply Hset|done].
Qed.

(** A statement that takes one waiting row. *)
Lemma update_budget_lt where_ set d ret d' r k :
  update_tis where_ set d = Ok (ret, d') →
  (∀ r, r ∈ task_instances d → where_ d r = true → (w (set r) ≤ w r)%nat) →
  r ∈ task_instances d → where_ d r = true → (w (set r) + k ≤ w r)%nat →
  (budget now kind d' + k ≤ budget now kind d)%nat.
Proof.
  intros (_ & Hrows & _)%update_tis_ok Hset Hr Hw Hk. unfold budget. rewrite Hrows. simpl.
  rewrite <-list_fmap_compose. eapply sum_fmap_lt; [|exact Hr|]; simpl.
  - intros x Hx. destruct (where_ d x) eqn:E; [by apply Hset|done].
  - by rewrite Hw.
Qed.

Lemma insert_budget new d ret d' :
  insert_tis new d = Ok (ret, d') → (∀ r, r ∈ new → w r = 0%nat) →
  budget now kind d' = budget now kind d.
Proof.
  intros (_ & Hrows & _)%insert_tis_ok Hnew. unfold budget. rewrite Hrows, fmap_app.
  assert (sum_list (w <$> new) = 0%nat) as H.
  { clear Hrows. induction new as [|r new IH]; simpl; [done|].
    rewrite (Hnew r) by set_solver. apply IH. set_solver. }
  fold w. rewrite sum_list_with_app, H. lia.
Qed.
End budget.

Section turns.
Context (sha256 : string → list Z) (hashtext : string → Z) (now : Z).

Lemma retry_not_due kind b base cap r :
  1 ≤ base → 1 ≤ cap → 1 ≤ ti_try_number r →
  weight now kind (retry_successor sha256 hashtext now b cap base r) = 0%nat.
Proof.
  intros Hb Hc Ht. unfold weight, waits_now. simpl.
  assert (1 ≤ retry_delay cap base (ti_try_number r)) as Hd.
  { unfold retry_delay. pose proof (Z.pow_pos_nonneg 2 (ti_try_number r - 1)). nia. }
  unfold retry_jitter, after_secs.
  pose proof (Z.mod_pos_bound (Z.abs (hashtext (ti_job_id r +:+ "#" +:+ ti_task_id r +:+ "#"
    +:+ pretty (ti_try_number r)))) (retry_delay cap base (ti_try_number r))).
  rewrite (proj2 (Z.leb_gt _ now)) by lia. by rewrite !andb_false_r.
Qed.

(** A failure gives nothing back: the row is over, its retry is for later. *)
Lemma fail_budget kind i f d x d' :
  ledger_inv closed d → terminal (tf_terminal_state f) →
  1 ≤ (tf_backoff f).1 → 1 ≤ (tf_backoff f).2 →
  fail_or_retry_stmts sha256 hashtext now i f d = Ok (x, d') →
  (budget now kind d' ≤ budget now kind d)%nat.
Proof.
  intros Hd Ht Hb Hc (rows & d1 & Ha & H)%bind_stmt.
  assert (budget now kind d1 ≤ budget now kind d)%nat as H1.
  { eapply update_budget; [exact Ha|]. intros r _ _. rewrite weight_state; [lia|].
    cbv beta zeta. simpl. destruct (tf_terminal_state f); try (by destruct Ht); set_solver. }
  assert (ledger_inv (λ r, r ∈ rows) d1) as Hd1 by (by eapply archive_try_inv).
  destruct rows as [|row rows]; cbn [head] in H; [by injection H as _ <-|].
  destruct (ti_live row); [by injection H as _ <-|].
  apply bind_stmt in H as (succ & d2 & Hins & [= _ <-]).
  apply bind_stmt in Hins as (? & ? & [= <- <-] & Hins). cbv zeta in Hins.
  destruct (forallb _ _); [|done].
  rewrite (insert_budget now kind _ _ _ _ Hins); [done|].
  intros s (r & -> & Hr)%list_elem_of_fmap. apply list_elem_of_filter in Hr as [_ Hr].
  apply retry_not_due; [done..|]. apply (li_row _ _ Hd1 r Hr).
Qed.

Lemma run_budget {A} kind (m : stmt Db A) s :
  (∀ x d', m (ex_db s) = Ok (x, d') → (budget now kind d' ≤ budget now kind (ex_db s))%nat) →
  (budget now kind (ex_db (run_ m s)) ≤ budget now kind (ex_db s))%nat.
Proof.
  intros H. unfold run_, run, transaction. destruct (m (ex_db s)) as [[x d']|] eqn:E; simpl.
  - by eapply H.
  - done.
Qed.

(** What all failures of the executor satisfy. *)
Definition bounded_failure (f : TaskFailure) : Prop :=
  terminal (tf_terminal_state f) ∧ 1 ≤ (tf_backoff f).1 ∧ 1 ≤ (tf_backoff f).2.

Lemma fail_exec_budget kind row f s :
  ledger_inv closed (ex_db s) → bounded_failure f →
  (budget now kind (ex_db (fail sha256 hashtext now row f s)) ≤ budget now kind (ex_db s))%nat.
Proof. intros Hd (Ht & Hb & Hc). apply run_budget. intros x d'. by apply fail_budget. Qed.

Lemma control_failure_bounded e : bounded_failure (control_failure e).
Proof. by destruct e. Qed.

(** *** Control tasks *)

Lemma claim_control_budget locked epoch d row rows d' :
  ledger_inv closed d → claim_control now locked epoch d = Ok (row :: rows, d') →
  (S (budget now Control d') ≤ budget now Control d)%nat.
Proof.
  intros Hd (? & ? & [= <- <-] & Hu)%bind_stmt. pose proof (li_unique _ _ Hd) as Huniq.
  assert (∀ r, weight now Control (touch now (r <| ti_state := Running |>
    <| ti_started_at := Some now |> <| ti_heartbeat_at := Some now |>
    <| ti_owner_epoch := Some epoch |>)) = 0%nat) as H0.
  { intros r. apply weight_state. simpl. set_solver. }
  pose proof Hu as (Hret & _)%update_tis_ok.
  assert (row ∈ row :: rows) as Hin by apply list_elem_of_here. rewrite Hret in Hin.
  apply elem_of_returned in Hin as (r & Hr & Hw & _). pose proof Hw as Hp.
  apply bool_decide_eq_true, claim_pick_spec in Hp as (t & j & Ht & _ & Hid & Hc & _).
  assert (t = r) as -> by (by apply (unique_id _ Huniq)).
  replace (S (budget now Control d')) with (budget now Control d' + 1)%nat by lia.
  eapply update_budget_lt; [exact Hu| |exact Hr|exact Hw|].
  - intros x _ _. cbv beta; rewrite H0. lia.
  - cbv beta; rewrite H0. unfold weight. assert (waits_now now Control r = true) as ->; [|lia].
    unfold claimable in Hc. unfold waits_now. rewrite !andb_true_iff in *. tauto.
Qed.

Lemma run_one_control_budget epoch control row s :
  ledger_inv closed (ex_db s) →
  (budget now Control (ex_db (run_one_control sha256 hashtext now epoch control row s))
     ≤ budget now Control (ex_db s))%nat.
Proof.
  intros Hd. unfold run_one_control. destruct (row_kind _ _) as [kind|].
  - destruct (control kind row) as [r|e].
    + apply run_budget. intros x d' Hu. eapply update_budget; [exact Hu|]. intros y _ _.
      cbv beta. rewrite weight_state; [lia|]. simpl. destruct (run_skipped r); set_solver.
    + apply fail_exec_budget; [done|apply control_failure_bounded].
  - by apply fail_exec_budget.
Qed.

(** *** Launches *)

(** One row may gain [k]. *)
Lemma sum_fmap_one {A} (p : A → bool) (f g : A → nat) l k :
  (length (filter (λ x, Is_true (p x)) l) ≤ 1)%nat →
  (∀ x, x ∈ l → p x = false → (f x ≤ g x)%nat) →
  (∀ x, x ∈ l → p x = true → (f x ≤ g x + k)%nat) →
  (sum_list (f <$> l) ≤ sum_list (g <$> l) + k)%nat.
Proof.
  induction l as [|x l IH]; intros Hone H0 H1; csimpl; [lia|].
  rewrite filter_cons in Hone. destruct (p x) eqn:E; simpl in Hone.
  - assert (sum_list (f <$> l) ≤ sum_list (g <$> l))%nat.
    { apply sum_fmap_le. intros y Hy. apply H0; [set_solver|].
      apply not_true_iff_false. intros Hp.
      assert (y ∈ filter (λ x, Is_true (p x)) l) as Hin
        by (apply list_elem_of_filter; by rewrite Hp).
      destruct (filter (λ x, Is_true (p x)) l); [by apply not_elem_of_nil in Hin|simpl in Hone; lia]. }
    assert (f x ≤ g x + k)%nat by (apply H1; set_solver). lia.
  - assert (sum_list (f <$> l) ≤ sum_list (g <$> l) + k)%nat by (apply IH; set_solver).
    assert (f x ≤ g x)%nat by (apply H0; set_solver). lia.
Qed.

(** The launches a row has left, with the one its row stands for. *)
Definition left_of (row : TaskInstance) : nat :=
  S (Z.to_nat (ti_max_launches row - ti_launches row)).

Lemma requeue_launch_budget kind wait reason row j d x d' :
  ledger_inv closed d → row ∈ task_instances d →
  requeue_launch now wait reason (ti_id row) j d = Ok (x, d') →
  (budget now kind d' ≤ budget now kind d + left_of row)%nat.
Proof.
  intros Hd Hrow (_ & Hrows & _)%update_tis_ok. pose proof (li_unique _ _ Hd) as Hu.
  unfold budget. rewrite Hrows. simpl. rewrite <-list_fmap_compose.
  apply (sum_fmap_one (λ x, bool_decide (ti_id x = ti_id row))).
  - destruct (filter_id _ Hu (λ x, Is_true (bool_decide (ti_id x = ti_id row))) (ti_id row))
      as [->|(r & -> & _)]; simpl; [|lia..]. intros r Hr. by apply bool_decide_unpack in Hr.
  - intros r Hr Hi. simpl. by rewrite Hi.
  - intros r Hr Hi%bool_decide_eq_true. assert (r = row) as -> by (by apply (unique_id _ Hu)).
    simpl. destruct (_ && _); [|lia]. unfold weight, left_of. destruct (waits_now _ _ _); simpl; lia.
Qed.

Lemma requeue_budget kind row j reason wait s :
  ledger_inv closed (ex_db s) → row ∈ task_instances (ex_db s) →
  (budget now kind (ex_db (requeue sha256 hashtext now row j reason wait s))
     ≤ budget now kind (ex_db s) + left_of row)%nat.
Proof.
  intros Hd Hrow. unfold requeue, run, transaction.
  destruct (requeue_launch now wait (Some reason) (ti_id row) j (ex_db s)) as [[rows d1]|] eqn:E.
  2:{ simpl. lia. }
  pose proof (requeue_launch_budget kind _ _ _ _ _ _ _ Hd Hrow E) as Hb.
  apply requeue_launch_inv in E; [|exact Hd]. destruct rows as [|? ?]; [|exact Hb].
  cbv beta iota zeta. simpl ex_db. destruct (fresh_row (ti_id row) d1) as [fresh|]; [|exact Hb].
  destruct (_ && _); [|exact Hb]. etransitivity; [|exact Hb].
  change d1 with (ex_db (s <| ex_db := d1 |>)) at 2. by apply fail_exec_budget.
Qed.

Lemma wait_capacity_budget kind row j reason detail s :
  (budget now kind (ex_db (wait_capacity now row j reason detail s))
     ≤ budget now kind (ex_db s))%nat.
Proof.
  unfold wait_capacity.
  change (ex_db s) with (ex_db (api_delete j s)). simpl ex_db at 1.
  apply run_budget. intros x d' Hu. eapply update_budget; [exact Hu|]. intros y _ _.
  cbv beta. unfold weight at 1, waits_now. simpl. unfold after_secs, QUOTA_WAIT_SECS.
  rewrite (proj2 (Z.leb_gt _ now)) by lia. rewrite !andb_false_r. lia.
Qed.

Lemma create_for_budget epoch image_digest cluster template parses row token s :
  ledger_inv closed (ex_db s) → row ∈ task_instances (ex_db s) →
  (budget now Pod (ex_db (create_for sha256 hashtext now epoch image_digest cluster template parses
     row token s)) ≤ budget now Pod (ex_db s) + left_of row)%nat.
Proof.
  intros Hd Hrow. unfold create_for. destruct (ti_k8s_job_name row) as [j|]; [|lia].
  destruct (_ ≫= _) as [dag|]; [|lia]. destruct (render_job _ _ _) as [m|]; [|lia].
  set (s1 := call (CreateJob m j token) s). change (ex_db s) with (ex_db s1) in *.
  unfold created. destruct (create_job _ _) as [[| | |]|].
  - pose proof (wait_capacity_budget Pod row j "quota" message s1). lia.
  - destruct (get_job _ _ _) as [found|]; [|by apply requeue_budget].
    destruct (owned _ _ _); [simpl; lia|by apply requeue_budget].
  - by apply requeue_budget.
  - destruct (get_job _ _ _); [lia|by apply requeue_budget].
  - simpl. lia.
Qed.

(** A claim takes the row's budget and gives the launch it stands for. *)
Lemma claim_launch_budget locked epoch name token cap d row rows d' :
  ledger_inv closed d →
  claim_launch_stmt now locked epoch name token cap d = Ok (row :: rows, d') →
  row ∈ task_instances d' ∧ (S (budget now Pod d' + left_of row) ≤ budget now Pod d)%nat.
Proof.
  intros Hd Hall. assert (ledger_inv closed d') as Hd' by (by eapply claim_launch_stmt_inv).
  apply bind_stmt in Hall as (? & ? & [= <- <-] & Hu). pose proof (li_unique _ _ Hd) as Huniq.
  pose proof Hu as (Hret & Hrows & _)%update_tis_ok.
  assert (row ∈ row :: rows) as Hin by apply list_elem_of_here. rewrite Hret in Hin.
  apply elem_of_returned in Hin as (r & Hr & Hw & Hrow).
  assert (row ∈ task_instances d') as Hrow'.
  { rewrite Hrows. apply elem_of_update_rows. exists r. by rewrite Hw. }
  split; [exact Hrow'|]. pose proof Hw as Hp.
  apply bool_decide_eq_true, claim_pick_spec in Hp as (t & j & Ht & _ & Hid & Hc & _).
  assert (t = r) as -> by (by apply (unique_id _ Huniq)).
  replace (S (budget now Pod d' + left_of row))
    with (budget now Pod d' + S (left_of row))%nat by lia.
  pose proof (ri_launches _ (li_row _ _ Hd' row Hrow')) as Hl.
  eapply update_budget_lt; [exact Hu| |exact Hr|exact Hw|].
  - intros x _ _. cbv beta. rewrite weight_state; [lia|]. simpl. set_solver.
  - cbv beta. rewrite weight_state by (simpl; set_solver).
    unfold weight, left_of. assert (waits_now now Pod r = true) as ->.
    { unfold claimable in Hc. unfold waits_now. rewrite !andb_true_iff in *. tauto. }
    subst row. simpl in Hl |- *. lia.
Qed.
End turns.

(** ** The theorems *)

Section loops.
Context (sha256 : string → list Z) (hashtext : string → Z).

Lemma steps_reachable s s' :
  reachable sha256 hashtext (ex_db s) → steps sha256 hashtext s s' →
  reachable sha256 hashtext (ex_db s').
Proof.
  unfold steps. generalize (ex_db s) (ex_db s'). intros d d' Hd Hs.
  induction Hs as [|d d1 d2 Hd1 _ IH]; [done|]. by apply IH, (reachable_step _ _ d).
Qed.

Lemma steps_refl s : steps sha256 hashtext s s.
Proof. unfold steps. reflexivity. Qed.

(** A statement that returns no row leaves the table as it was. *)
Lemma update_none where_ set d d' :
  update_tis where_ set d = Ok ([], d') → d' = d ∧ ∀ r, r ∈ task_instances d → where_ d r = false.
Proof.
  intros Hu. pose proof Hu as (Hret & _)%update_tis_ok.
  assert (∀ r, r ∈ task_instances d → where_ d r = false) as Hnone.
  { intros r Hr. apply not_true_iff_false. intros Hw. apply (not_elem_of_nil (set r)).
    rewrite Hret. apply elem_of_returned. by exists r. }
  split; [|done]. unfold update_tis in Hu. apply install_ok in Hu as (_ & _ & _ & <-).
  destruct d as [l js caps]. simpl. unfold set_field. simpl. f_equal. simpl in Hnone.
  rewrite <-(list_fmap_id l) at 2. apply list_fmap_ext. intros i r Hr%list_elem_of_lookup_2.
  by rewrite (Hnone r Hr).
Qed.

Lemma claim_control_none now locked epoch d d' :
  claim_control now locked epoch d = Ok ([], d') →
  d' = d ∧ claim_pick now (λ _, true) Control locked d = None.
Proof.
  intros (? & ? & [= <- <-] & Hu)%bind_stmt. apply update_none in Hu as [-> Hnone].
  split; [done|]. destruct (claim_pick _ _ _ _ d) as [i|] eqn:E; [|done]. exfalso.
  pose proof E as (t & j & Ht & _ & Hid & _)%claim_pick_spec.
  specialize (Hnone t Ht). apply bool_decide_eq_false in Hnone. congruence.
Qed.

(** The control pass ends.  From any ledger a run can come to, some
    number of turns is enough: the pass then returns, and unless a statement
    failed no control task is left to run. *)
Theorem control_pass_terminates now epoch control locked fuel worked s :
  reachable sha256 hashtext (ex_db s) → (budget now Control (ex_db s) < fuel)%nat →
  ∃ r s', control_pass sha256 hashtext now epoch control locked fuel worked s = Some (r, s')
    ∧ (∀ w, r = Ok w → claim_pick now (λ _, true) Control locked (ex_db s') = None).
Proof.
  revert worked s. induction fuel as [|fuel IH]; intros worked s Hs Hb; [lia|].
  pose proof (reachable_inv _ _ _ Hs) as Hd. simpl. unfold run at 1, transaction.
  destruct (claim_control now locked epoch (ex_db s)) as [[[|row rows] d1]|e] eqn:E.
  - apply claim_control_none in E as [-> Hnone]. exists (Ok worked), s. simpl.
    split; [|by intros]. destruct s. done.
  - set (s1 := s <| ex_db := d1 |>).
    assert (reachable sha256 hashtext d1) as Hs1.
    { eapply reachable_step; [exact Hs|]. eapply step_txn; [apply TClaimControl|exact E]. }
    apply (claim_control_budget sha256 hashtext) in E; [|done].
    apply (IH true (run_one_control sha256 hashtext now epoch control row s1)).
    + apply (steps_reachable s1); [exact Hs1|apply run_one_control_steps, steps_refl].
    + pose proof (run_one_control_budget sha256 hashtext now epoch control row s1
        (reachable_inv _ _ _ Hs1)) as Hr. simpl in Hr. lia.
  - by exists (Err e), (s <| ex_db := ex_db s |>).
Qed.

Lemma claim_launch_none now locked epoch token cap d d' :
  claim_launch_stmt now locked epoch None token cap d = Ok ([], d') →
  d' = d ∧ claim_pick now (launch_admits cap d) Pod locked d = None.
Proof.
  intros (? & ? & [= <- <-] & Hu)%bind_stmt. apply update_none in Hu as [-> Hnone].
  split; [done|]. destruct (claim_pick _ _ _ _ d) as [i|] eqn:E; [|done]. exfalso.
  pose proof E as (t & j & Ht & _ & Hid & _)%claim_pick_spec.
  specialize (Hnone t Ht). apply bool_decide_eq_false in Hnone. congruence.
Qed.

(** The launcher ends, whatever the cluster answers to its creates.  From
    any ledger a run can come to, some number of turns is enough; when the
    launcher returns with no error, no row may be launched, or the database
    refused the last claim as a second pod of the same tenant. *)
Theorem launch_pass_terminates now epoch image_digest cluster locked template cap mint_token parses
    fuel turn worked s :
  reachable sha256 hashtext (ex_db s) → (budget now Pod (ex_db s) < fuel)%nat →
  ∃ r s', launch_pass sha256 hashtext now epoch image_digest cluster locked template cap mint_token
            parses fuel turn worked s = Some (r, s')
    ∧ (∀ w, r = Ok w →
         claim_pick now (launch_admits cap (ex_db s')) Pod locked (ex_db s') = None
         ∨ ∃ token, claim_launch_stmt now locked epoch None token cap (ex_db s')
                    = Err UniqueViolation).
Proof.
  revert turn worked s. induction fuel as [|fuel IH]; intros turn worked s Hs Hb; [lia|].
  pose proof (reachable_inv _ _ _ Hs) as Hd. cbn [launch_pass]. unfold claim_launch.
  set (token := Some (Auth.hash_secret sha256 (mint_token turn))).
  destruct (claim_launch_stmt now locked epoch None token cap (ex_db s)) as [[[|row rows] d1]|e]
    eqn:E.
  - apply claim_launch_none in E as [-> Hnone]. do 2 eexists. split; [done|].
    intros w _. by left.
  - cbn [head]. set (s1 := s <| ex_db := d1 |>).
    assert (reachable sha256 hashtext d1) as Hs1.
    { eapply reachable_step; [exact Hs|]. eapply step_txn; [apply TClaimLaunch|exact E]. }
    apply (claim_launch_budget sha256 hashtext) in E as [Hrow E]; [|done].
    apply (IH (S turn) true); destruct (still_ours epoch row (ex_db s1)); try done.
    + apply (steps_reachable s1); [exact Hs1|apply create_for_steps, steps_refl].
    + pose proof (create_for_budget sha256 hashtext now epoch image_digest cluster template parses
        row (mint_token turn) s1 (reachable_inv _ _ _ Hs1) Hrow) as Hr. simpl in Hr. lia.
    + simpl. lia.
  - destruct e; do 2 eexists; (split; [done|]); intros w [= _]. right. by exists token.
Qed.
End loops.

(** ** Witnesses *)

(** The rows the readiness pass schedules first. *)
Definition sample_scheduled (kind : string) : Exec :=
  match readiness_pass SampleLedger.sha 0 {[kind]} (mkExec (SampleJob.planned kind) [] ∅) with
  | Some (_, s) => s
  | None => mkExec (SampleJob.planned kind) [] ∅
  end.

Lemma sample_scheduled_reachable kind :
  reachable SampleLedger.sha SampleLedger.hash (ex_db (sample_scheduled kind)).
Proof.
  unfold sample_scheduled.
  destruct (readiness_pass _ _ _ _) as [[w s]|] eqn:E; [|apply SampleJob.job_planned_reachable].
  apply (steps_reachable _ _ (mkExec (SampleJob.planned kind) [] ∅));
    [apply SampleJob.job_planned_reachable|by eapply readiness_pass_steps].
Qed.

Example sample_control_waits : budget 0 Control (ex_db (sample_scheduled "provision")) = 4%nat.
Proof. vm_compute. reflexivity. Qed.

Lemma control_pass_terminates_witness :
  ∃ r s', control_pass SampleLedger.sha SampleLedger.hash 0 "epoch" (λ _ _, Err TaskSkip) ∅ 5 false
            (sample_scheduled "provision") = Some (r, s').
Proof.
  destruct (control_pass_terminates SampleLedger.sha SampleLedger.hash 0 "epoch"
    (λ _ _, Err TaskSkip) ∅ 5 false (sample_scheduled "provision")
    (sample_scheduled_reachable "provision")) as (r & s' & He & _);
    [rewrite sample_control_waits; lia|].
  exists r, s'. exact He.
Defined.

Example sample_pod_waits : budget 0 Pod (ex_db (sample_scheduled "train")) = 4%nat.
Proof. vm_compute. reflexivity. Qed.

Lemma launch_pass_terminates_witness :
  ∃ r s', launch_pass SampleLedger.sha SampleLedger.hash 0 "epoch" None
            (mkCluster (λ _ _, None) (λ _, None) (λ _ _, []) (λ _, Some (RateLimited (Some 0))))
            ∅ "template" 10 (λ n, pretty n) (λ _, true) 5 0 false (sample_scheduled "train")
          = Some (r, s').
Proof.
  destruct (launch_pass_terminates SampleLedger.sha SampleLedger.hash 0 "epoch" None
    (mkCluster (λ _ _, None) (λ _, None) (λ _ _, []) (λ _, Some (RateLimited (Some 0))))
    ∅ "template" 10 (λ n, pretty n) (λ _, true) 5 0 false (sample_scheduled "train")
    (sample_scheduled_reachable "train")) as (r & s' & He & _); [rewrite sample_pod_waits; lia|].
  exists r, s'. exact He.
Defined.

(** ** A crash inside a restart *)

Module SampleRestart.
Import SampleLedger.

Definition launched : Db := commit (claim_launch_stmt 0 ∅ "epoch" None None 10)
  (ex_db (sample_scheduled "train")).

(** The launched row, once the operator cleared it. *)
Definition cleared : Db := commit (clear_stmts sha 0 "acme" "j" (ti_task_id <$> task_instances launched) 2 None None) launched.

Definition restarting : option TaskInstance :=
  find_first (λ r, bool_decide (ti_state r = Restarting)) (task_instances cleared).

(** The archiving ran, the insertion of the new try did not. *)
Definition gap : Db :=
  match restarting with
  | Some r => commit (archive_restarted 0 None None (ti_id r) (ti_k8s_job_name r)) cleared
  | None => cleared
  end.

Lemma gap_reachable : reachable sha hash gap.
Proof.
  assert (reachable sha hash cleared) as Hc.
  { unfold cleared, launched. apply (commit_reachable 0); [|by apply TClear].
    apply (commit_reachable 0); [apply sample_scheduled_reachable|apply TClaimLaunch]. }
  unfold gap. destruct restarting as [r|]; [|exact Hc].
  apply (commit_reachable 0); [exact Hc|apply TArchiveRestarted].
Qed.
End SampleRestart.

