(* ===== verification/ExecutorPasses.v ===== *)
(** * An iteration of the executor

    [passes] of [er-server/src/executor.rs]: the sweeps and passes the
    dispatcher runs between two ticks, composed in the code's order, each at
    its own time.  A pass that fails is logged and the next one runs; whether
    any pass found work is not modelled. *)

From S2P Require Import Prelude Json Ids DagPolicy Dag Readiness Errors Registry Sql Ledger TaskPg.
From S2P Require Import LedgerInv LedgerRuns LedgerMoves LedgerOps Scheduler Executor ExecutorLoops.
From stdpp Require Import pretty.

#[local] Open Scope Z_scope.

(** ** Definitions *)

Section passes.
Context (sha256 : string → list Z) (hashtext : string → Z).
(** The time each of the six starts at. *)
Context (at_ : nat → Z).
Context (epoch : string) (image_digest : option string) (dag_kinds : gset string).
Context (cluster : Cluster).
Context (control : JobKind → TaskInstance → result PodTaskRun TaskError) (locked : gset string).
Context (template : string) (in_flight_cap : Z) (mint_token : nat → string).
Context (parses : string → bool).

(** [None] is a panic or too little fuel for the two loops. *)
Definition passes (fuel : nat) (s : Exec) : option Exec :=
  let s := (cancel_sweep (at_ 0) dag_kinds s).2 in
  '(_, s) ← readiness_pass sha256 (at_ 1) dag_kinds s;
  '(_, s) ← control_pass sha256 hashtext (at_ 2) epoch control locked fuel false s;
  '(_, s) ← launch_pass sha256 hashtext (at_ 3) epoch image_digest cluster locked template
              in_flight_cap mint_token parses fuel 0 false s;
  Some (stuck_pending_sweep sha256 hashtext (at_ 5) cluster
          (zombie_sweep (at_ 4) epoch cluster s)).
End passes.

(** ** The readiness pass never panics *)

Lemma row_action_lt l states eff i a :
  row_action l states eff i = Some a → (i < length l)%nat.
Proof. unfold row_action. intros (n & Hn & _)%bind_Some. by eapply lookup_lt_Some. Qed.

Section total.
Context (sha256 : string → list Z) (now : Z).

Lemma record_actions_total dag job d0 number acts eff d :
  topological (nodes dag) → (∀ i a, (i, a) ∈ acts → (i < length (nodes dag))%nat) →
  ∃ r, record_actions now dag (live_rows (by_job (job_org_id job) (job_id job) d0)) job number
         acts eff d = Some r
    ∧ ∀ eff' d', r = Ok (Some eff', d') → length eff' = length eff.
Proof.
  intros Htop. revert eff d. induction acts as [|[i a] acts IH]; intros eff d Hlt.
  { eexists. split; [done|]. by intros eff' d' [= <- _]. }
  destruct (lookup_lt_is_Some_2 (nodes dag) i) as [n Hn]; [by eapply Hlt, list_elem_of_here|].
  assert (∀ j b, (j, b) ∈ acts → (j < length (nodes dag))%nat) as Hlt'
    by (intros j b Hj; by eapply Hlt, list_elem_of_further).
  simpl. rewrite Hn. simpl.
  destruct (live_rows _ !! task_id n) as [row|]; [|by apply IH].
  destruct (compose_input_total job dag d0 Htop i n Hn) as [input Hi].
  assert (∀ m : stmt Db (list TaskInstance), ∃ r,
    match m d with
    | Ok ([], _) => Some (Ok (None, d))
    | Ok (_ :: _, d1) => record_actions now dag (live_rows (by_job (job_org_id job) (job_id job) d0))
                           job number acts (<[i := action_state a]> eff) d1
    | Err e => Some (Err e)
    end = Some r ∧ ∀ eff' d', r = Ok (Some eff', d') → length eff' = length eff) as Hrest.
  { intros m. destruct (m d) as [[[|x xs] d1]|e].
    - eexists. split; [done|]. by intros eff' d' [=].
    - destruct (IH (<[i:=action_state a]> eff) d1 Hlt') as (r & Hr & Hlen). exists r.
      split; [done|]. intros eff' d' E. rewrite (Hlen eff' d' E). apply length_insert.
    - eexists. split; [done|]. by intros eff' d' [=]. }
  destruct a; simpl; [rewrite Hi|]; apply Hrest.
Qed.

Lemma settle_stmt_total dag live job eff :
  topological (nodes dag) → length eff = length (nodes dag) →
  is_Some (settle_stmt now dag live job eff).
Proof.
  intros Htop Hlen. unfold settle_stmt.
  destruct (settle_spec dag eff Htop Hlen) as (v & -> & Hv). simpl. destruct v as [|o|i].
  - by eexists.
  - destruct (failure_text_total dag live eff Hlen) as [[c e] ->]. by eexists.
  - destruct Hv as (n & -> & _). by eexists.
Qed.

Lemma readiness_for_total job d : is_Some (readiness_for now sha256 job d).
Proof.
  unfold readiness_for. destruct (job_kind_parse _) as [kind|]; [|by eexists].
  destruct (dag_for_spec sha256 kind) as (dag & Hdag & _). rewrite Hdag. simpl.
  destruct (head _) as [lck|]; [|by eexists].
  destruct (dag_for_topological _ _ _ Hdag) as [Htop _].
  match goal with |- context [pass dag ?x] => set (states := x) end.
  assert (length states = length (nodes dag)) as Hlen by apply length_fmap.
  destruct (pass_spec (nodes dag) Htop dag states eq_refl Hlen) as (eff & acts & -> & Hpr). simpl.
  destruct (record_actions_total dag job d (default 0 (job_clear_number lck)) acts states d Htop)
    as (r & -> & Hr).
  { intros i a Ha. apply (pr_acts _ _ _ _ Hpr) in Ha. by eapply row_action_lt. }
  simpl. destruct r as [[[eff'|] d1]|e]; [|by eexists..].
  destruct (settle_stmt_total dag (live_rows (by_job (job_org_id job) (job_id job) d)) job eff' Htop)
    as [m ->]; [by rewrite (Hr _ _ eq_refl)|].
  simpl. destruct (m d1) as [[js d2]|e]; by eexists.
Qed.

Lemma readiness_pass_total dag_kinds s : ∃ w s', readiness_pass sha256 now dag_kinds s = Some (w, s').
Proof.
  unfold readiness_pass.
  generalize (dag_jobs dag_kinds "running" (ex_db s) ++ dag_jobs dag_kinds "canceling" (ex_db s)) as l.
  intros l. generalize false as w. generalize s at 1. induction l as [|job l IH]; intros s0 w; [by eauto|].
  simpl. destruct (readiness_for_total job (ex_db s0)) as [[r d] ->]. simpl. apply IH.
Qed.
End total.

(** ** More fuel changes nothing *)

Lemma control_pass_mono sha256 hashtext now epoch control locked fuel k w s x :
  control_pass sha256 hashtext now epoch control locked fuel w s = Some x →
  control_pass sha256 hashtext now epoch control locked (fuel + k) w s = Some x.
Proof.
  revert w s. induction fuel as [|fuel IH]; intros w s H; [done|]. simpl in *.
  destruct (run _ s) as [[[|row rows]|e] s']; auto.
Qed.

Lemma launch_pass_mono sha256 hashtext now epoch image_digest cluster locked template cap mint_token
    parses fuel k turn w s x :
  launch_pass sha256 hashtext now epoch image_digest cluster locked template cap mint_token parses
    fuel turn w s = Some x →
  launch_pass sha256 hashtext now epoch image_digest cluster locked template cap mint_token parses
    (fuel + k) turn w s = Some x.
Proof.
  revert turn w s. induction fuel as [|fuel IH]; intros turn w s H; [done|].
  cbn [launch_pass Nat.add] in *.
  destruct (claim_launch _ _ _ _ _ _ _) as [[[row|]|e] d]; [|done..]. by apply IH.
Qed.

(** C32: an iteration of the executor ends.  From any ledger a run can come to
    and whatever the cluster answers, no pass panics, and with enough turns for
    its two loops the iteration returns, the same whatever more it is given;
    it is a run of the ledger's transactions. *)
Theorem passes_return sha256 hashtext at_ epoch image_digest dag_kinds cluster control locked
    template cap mint_token parses s :
  reachable sha256 hashtext (ex_db s) →
  ∃ n s', (∀ fuel, (n ≤ fuel)%nat →
      passes sha256 hashtext at_ epoch image_digest dag_kinds cluster control locked template cap
        mint_token parses fuel s = Some s')
    ∧ rtc (ledger_step sha256 hashtext) (ex_db s) (ex_db s')
    ∧ reachable sha256 hashtext (ex_db s').
Proof.
  intros Hs. set (s1 := (cancel_sweep (at_ 0%nat) dag_kinds s).2).
  assert (steps sha256 hashtext s s1) as H1 by apply cancel_sweep_steps.
  destruct (readiness_pass_total sha256 (at_ 1%nat) dag_kinds s1) as (w2 & s2 & E2).
  pose proof (readiness_pass_steps sha256 hashtext _ _ _ _ _ E2) as H2.
  assert (reachable sha256 hashtext (ex_db s2)) as Hs2.
  { eapply steps_reachable; [|exact H2]. by eapply steps_reachable. }
  destruct (control_pass_terminates sha256 hashtext (at_ 2%nat) epoch control locked
    (S (budget (at_ 2%nat) Control (ex_db s2))) false s2 Hs2) as (r3 & s3 & E3 & _); [lia|].
  pose proof (control_pass_steps sha256 hashtext _ _ _ _ _ _ _ _ _ E3) as H3.
  assert (reachable sha256 hashtext (ex_db s3)) as Hs3 by (by eapply steps_reachable).
  destruct (launch_pass_terminates sha256 hashtext (at_ 3%nat) epoch image_digest cluster locked
    template cap mint_token parses (S (budget (at_ 3%nat) Pod (ex_db s3))) 0 false s3 Hs3)
    as (r4 & s4 & E4 & _); [lia|].
  pose proof (launch_pass_steps sha256 hashtext _ _ _ _ _ _ _ _ _ _ _ _ _ _ _ E4) as H4.
  exists (S (budget (at_ 2%nat) Control (ex_db s2)) + S (budget (at_ 3%nat) Pod (ex_db s3)))%nat.
  eexists. split.
  - intros fuel Hfuel. unfold passes. fold s1. rewrite E2. cbn [mbind option_bind].
    destruct (Nat.le_exists_sub (S (budget (at_ 2%nat) Control (ex_db s2))) fuel) as (k & -> & _); [lia|].
    rewrite Nat.add_comm, (control_pass_mono _ _ _ _ _ _ _ k _ _ _ E3). cbn [mbind option_bind].
    destruct (Nat.le_exists_sub (S (budget (at_ 3%nat) Pod (ex_db s3)))
      (S (budget (at_ 2%nat) Control (ex_db s2)) + k)) as (k' & -> & _); [lia|].
    rewrite Nat.add_comm, (launch_pass_mono _ _ _ _ _ _ _ _ _ _ _ _ k' _ _ _ _ E4). done.
  - assert (steps sha256 hashtext s (stuck_pending_sweep sha256 hashtext (at_ 5%nat) cluster
      (zombie_sweep (at_ 4%nat) epoch cluster s4))) as Hall.
    { pose proof (zombie_sweep_steps sha256 hashtext (at_ 4%nat) epoch cluster s4) as H5.
      pose proof (stuck_pending_sweep_steps sha256 hashtext (at_ 5%nat) cluster
        (zombie_sweep (at_ 4%nat) epoch cluster s4)) as H6.
      unfold steps in *. etransitivity; [exact H1|]. etransitivity; [exact H2|].
      etransitivity; [exact H3|]. etransitivity; [exact H4|]. etransitivity; [exact H5|exact H6]. }
    split; [exact Hall|exact (steps_reachable sha256 hashtext _ _ Hs Hall)].
Qed.

Lemma passes_return_witness :
  ∃ n s', passes SampleLedger.sha SampleLedger.hash (λ _, 0) "epoch" None {["train"]}
      (mkCluster (λ _ _, None) (λ _, None) (λ _ _, []) (λ _, Some (RateLimited (Some 0))))
      (λ _ _, Err TaskSkip) ∅ "template" 10 (λ n, pretty n) (λ _, true) n
      (sample_scheduled "train") = Some s'
    ∧ reachable SampleLedger.sha SampleLedger.hash (ex_db s').
Proof.
  destruct (passes_return SampleLedger.sha SampleLedger.hash (λ _, 0) "epoch" None {["train"]}
    (mkCluster (λ _ _, None) (λ _, None) (λ _ _, []) (λ _, Some (RateLimited (Some 0))))
    (λ _ _, Err TaskSkip) ∅ "template" 10 (λ n, pretty n) (λ _, true)
    (sample_scheduled "train") (sample_scheduled_reachable "train")) as (n & s' & H & _ & Hr).
  exists n, s'. exact (conj (H n (le_n n)) Hr).
Defined.
