(* ===== verification/Attempts.v ===== *)
(** * The attempt channel

    [er-server/src/lib.rs]: what a pod reports about its attempt (start,
    heartbeat, finish), how the reporter is authenticated, and the operator's
    clear of a task.  A handler reads one clock and its transactions run on
    the ledger as it is when the handler runs; the outcome of connecting, the
    token verifier's verdict (the one of [Satoken]) and the datasets of a
    tenant are parameters.  The report of a tenant's schema that a finished
    [reconcile_schema] leaves in another table is not modelled, nor is the work
    order, which only reads. *)

From S2P Require Satoken Executor.
From S2P Require Import Prelude Json Ids DagPolicy Dag Readiness Resume Errors Registry Sql Ledger.
From S2P Require Import TaskPg LedgerInv LedgerRuns LedgerMoves LedgerOps LedgerClear Auth Text.

#[local] Open Scope Z_scope.
#[local] Open Scope rust_scope.

(** ** Definitions *)

Inductive AttemptIdentity :=
| Fallback
| PodIdentity (claims : Satoken.PodClaims).

Definition identity_pod_uid (who : AttemptIdentity) (from_body : string) : string :=
  match who with
  | PodIdentity claims => Satoken.claims_pod_uid claims
  | Fallback => from_body
  end.

Record AttemptStart := mkStart {
  st_k8s_job_name : string;
  st_pod_uid : string;
  st_pod_name : option string;
  st_node_name : option string;
  st_image_digest : option string;
}.

Record AttemptHeartbeat := mkHeartbeat { hb_pod_uid : string; hb_counters : option json }.

Record AttemptFinish := mkFinish {
  af_state : string;
  af_pod_uid : string;
  af_outcome : option string;
  af_output : option json;
  af_snapshot_start : option Z;
  af_snapshot_end : option Z;
  af_counters : option json;
  af_exit_code : option Z;
  af_error_class : option string;
  af_error_detail : option string;
  af_termination_reason : option string;
}.

Record ClearIn := mkClearIn { ci_retries : option Z; ci_resource_class : option string }.

(** The body of an answer: a document, a row, or a failed try with its
    successor. *)
Inductive Body :=
| BJson (v : json)
| BRow (row : TaskInstance)
| BFailed (archived : TaskInstance) (retry : option TaskInstance).

Definition Reply : Type := Z * Body.

Definition refused (r : Response) : Reply := (r.1, BJson r.2).

Section attempts.
Context (sha256 : string → list Z) (hashtext : string → Z) (now : Z).
Context (db_text : DbError → string) (connect : string → result unit string).
Context (decode_header : string → option Satoken.Header).
(** The verdict on a token at this moment, when the server holds a verifier. *)
Context (sa_verifier : option (string → result Satoken.PodClaims Satoken.VerifyError)).

(** The token's pod is one of the launch's job. *)
Definition bound (current : TaskInstance) (claims : Satoken.PodClaims) : bool :=
  match ti_k8s_job_name current with
  | Some job =>
      negb (bool_decide (job = Executor.INPROC))
      && String.prefix (job +:+ "-") (Satoken.claims_pod_name claims)
  | None => false
  end.

Definition attempt_authorized (attempt_id : string) (h : Headers) (d : Db) :
    result (TaskInstance * list TaskInstance * AttemptIdentity) Response :=
  match bearer h with
  | None => Err (unauthorized "missing attempt token")
  | Some token =>
      match retry_lineage attempt_id d with
      | [] => Err (detail_err 404 "no such attempt")
      | current :: older =>
          if Satoken.looks_like_jwt decode_header token then
            match sa_verifier with
            | None => Err (unauthorized "a ServiceAccount token was presented, but this server holds no cluster key set")
            | Some verify =>
                match verify token with
                | Err _ => Err (unauthorized "the ServiceAccount token does not verify")
                | Ok claims =>
                    if bound current claims then Ok (current, older, PodIdentity claims)
                    else Err (unauthorized "the token's pod is not this attempt's launch")
                end
            end
          else
            match ti_token_hash current with
            | Some stored =>
                if ct_eq stored (hash_secret sha256 token) then Ok (current, older, Fallback)
                else Err (unauthorized "the attempt token does not match this attempt")
            | None => Err (unauthorized "the attempt token does not match this attempt")
            end
      end
  end.

(** A statement whose first row is the answer; no row is [stale]. *)
Definition first_row (m : stmt Db (list TaskInstance)) (stale : string) (d : Db) : Reply * Db :=
  match transaction m d with
  | (Ok (row :: _), d) => ((200, BRow row), d)
  | (Ok [], d) => (refused (detail_err 409 stale), d)
  | (Err e, d) => (refused (pg_err db_text e), d)
  end.

Definition channel (st : AppState) (attempt_id : string) (h : Headers)
    (body : TaskInstance → AttemptIdentity → Db → Reply * Db) (d : Db) : Reply * Db :=
  match connected connect st "the attempt channel requires Postgres" with
  | Err r => (refused r, d)
  | Ok _ =>
      match attempt_authorized attempt_id h d with
      | Err r => (refused r, d)
      | Ok (current, _, who) => body current who d
      end
  end.

Definition attempt_start (st : AppState) (attempt_id : string) (h : Headers)
    (body : AttemptStart) : Db → Reply * Db :=
  channel st attempt_id h (λ _ who,
    let '(pod_name, pod_uid) :=
      match who with
      | PodIdentity claims =>
          (Some (Satoken.claims_pod_name claims), Satoken.claims_pod_uid claims)
      | Fallback => (st_pod_name body, st_pod_uid body)
      end in
    first_row (start now pod_name pod_uid (st_node_name body) (st_image_digest body) attempt_id
                 (st_k8s_job_name body))
      "stale start: the attempt is not queued under this launch").

Definition attempt_heartbeat (st : AppState) (attempt_id : string) (h : Headers)
    (body : AttemptHeartbeat) : Db → Reply * Db :=
  channel st attempt_id h (λ _ who,
    first_row (heartbeat now (hb_counters body) attempt_id
                 (identity_pod_uid who (hb_pod_uid body)))
      "fenced: the attempt is no longer running as this pod").

(** The failure a pod reports. *)
Definition reported_failure (current : TaskInstance) (body : AttemptFinish) : TaskFailure :=
  let class := default "internal" (af_error_class body) in
  {| tf_terminal_state := if decide (class = "timeout") then TimedOut else Failed;
     tf_retryable :=
       bool_decide (class ∈ ["transient_io"; "lock_conflict"; "infrastructure"; "resources"]);
     tf_escalate := bool_decide (class = "resources");
     tf_exit_code := af_exit_code body;
     tf_termination_reason := af_termination_reason body;
     tf_error_class := Some class;
     tf_error_detail := af_error_detail body;
     tf_k8s_job_name := ti_k8s_job_name current;
     tf_backoff := if decide (ti_kind current = Control) then CONTROL_BACKOFF else POD_BACKOFF |}.

Definition finish_body (attempt_id : string) (body : AttemptFinish) (current : TaskInstance)
    (who : AttemptIdentity) (d : Db) : Reply * Db :=
  let uid := identity_pod_uid who (af_pod_uid body) in
  if decide (af_state body ∈ ["succeeded"; "skipped"]) then
    first_row (finish now (bool_decide (af_state body = "skipped"))
                 (default "done" (af_outcome body)) (af_output body) (af_snapshot_start body)
                 (af_snapshot_end body) (af_counters body) (af_exit_code body) attempt_id uid)
      "stale finish: the attempt is no longer running as this pod" d
  else if decide (af_state body = "failed") then
    match fail_or_retry_task sha256 hashtext now attempt_id (reported_failure current body) d with
    | (Ok (Some archived, successor), d) => ((200, BFailed archived successor), d)
    | (Ok (None, _), d) =>
        (refused (detail_err 409 "stale failure report: the attempt is not live under this launch"), d)
    | (Err e, d) => (refused (pg_err db_text e), d)
    end
  else if decide (af_state body = "interrupted") then
    first_row (note_interruption now (default "sigterm" (af_termination_reason body))
                 (af_counters body) attempt_id uid)
      "stale interruption: the attempt is not live as this pod" d
  else (refused (detail_err 422 ("unknown terminal state '" +:+ af_state body +:+ "'")), d).

Definition attempt_finish (st : AppState) (attempt_id : string) (h : Headers)
    (body : AttemptFinish) : Db → Reply * Db :=
  channel st attempt_id h (finish_body attempt_id body).

(** What a pod can send. *)
Inductive Report :=
| RStart (body : AttemptStart)
| RHeartbeat (body : AttemptHeartbeat)
| RFinish (body : AttemptFinish).

Definition report (st : AppState) (attempt_id : string) (h : Headers) (r : Report) :
    Db → Reply * Db :=
  match r with
  | RStart body => attempt_start st attempt_id h body
  | RHeartbeat body => attempt_heartbeat st attempt_id h body
  | RFinish body => attempt_finish st attempt_id h body
  end.

(** *** Clearing a task *)

(** The rows a clear writes. *)
Definition clearable : list TaskState :=
  [Queued; Running] ++ terminal_states ++ [SNone; Scheduled; UpForRetry].

(** A class outside the vocabulary fails the [CHECK] of the first row it is
    written to. *)
Definition clear_named (org_id job_id : string) (task_ids : list string) (retries : Z)
    (resource_class image_digest : option string) (d : Db) : result ClearResult ClearError * Db :=
  match head (job_lock job_id d), resource_class with
  | Some j, Some c =>
      if bool_decide (job_state j ≠ "canceling") && bool_decide (class_parse c = None)
         && existsb (in_clear org_id job_id task_ids clearable) (task_instances d)
      then (Err (ClearPg OtherError), d)
      else clear sha256 now org_id job_id task_ids retries (class_parse c) image_digest d
  | _, _ => clear sha256 now org_id job_id task_ids retries None image_digest d
  end.

Definition clear_reply (closure : list string) (demanded : list string) (cleared : ClearResult) :
    Reply :=
  (202, BJson (JObject
    [("cleared", json_keys closure);
     ("demanded_upstream", json_keys demanded);
     ("reopened", JBool (bool_decide (is_Some (TaskPg.reopened cleared))));
     ("reset", JInt (Z.of_nat (length (TaskPg.reset cleared))));
     ("restarting", JInt (Z.of_nat (length (TaskPg.restarting cleared))));
     ("rotated", JInt (Z.of_nat (length (TaskPg.rotated cleared))))])).

(** The names of a set of nodes, ascending; [None] is an index out of range. *)
Definition names_of (dag : Dag) (X : gset nat) : option (list string) :=
  mapM (λ i, task_id <$> nodes dag !! i) (merge_sort le (elements X)).

(** The refusals, in the code's order, and the job with its graph and the
    node's index. *)
Definition clear_target (st : AppState) (p : Principal) (dataset_exists : string → string → bool)
    (org ds id task : string) (c : ControlDb) (d : Db) :
    option (result (OrgRow * Job * Dag * nat) Response) :=
  match (_ <-? guard p org Steward;
         _ <-? connected connect st "the task ledger requires Postgres";
         org_row <-? org_or_404 org c;
         _ <-? (if dataset_exists (o_id org_row) ds then Ok tt
                else Err (detail_err 404 ("no dataset '" +:+ ds +:+ "' in org '"
                                          +:+ o_name org_row +:+ "'")));
         job <-? match head (job_by_id (o_id org_row) id d) with
                 | Some j => Ok j
                 | None => Err (detail_err 404 "no such job")
                 end;
         kind <-? match job_kind_parse (job_kind job) with
                  | Some k => Ok k
                  | None => Err (detail_err 409
                      "this job's kind has no compiled graph, so it has no task to clear")
                  end;
         Ok (org_row, job, kind)) with
  | Err r => Some (Err r)
  | Ok (org_row, job, kind) =>
      dag ← dag_for sha256 kind;
      Some match list_find (λ n, task_id n = task) (nodes dag) with
           | Some (i, _) => Ok (org_row, job, dag, i)
           | None => Err (detail_err 404 ("'" +:+ task +:+ "' is not a task of kind '"
                                          +:+ job_kind job +:+ "'"))
           end
  end.

(** [None] is a panic. *)
Definition clear_job_task (st : AppState) (p : Principal)
    (dataset_exists : string → string → bool) (org ds id task : string) (input : option ClearIn)
    (c : ControlDb) (d : Db) : option (Reply * Db) :=
  target ← clear_target st p dataset_exists org ds id task c d;
  match target with
  | Err r => Some (refused r, d)
  | Ok (org_row, job, dag, i) =>
      plan ← clear_closure dag [i] true (λ _, Present);
      closure ← names_of dag (must_run plan);
      demanded ← names_of dag (demanded_upstream plan);
      Some match clear_named (o_id org_row) id closure
                   (default 0 (input ≫= ci_retries)) (input ≫= ci_resource_class)
                   (job_image_digest job) d with
           | (Ok cleared, d) => (clear_reply closure demanded cleared, d)
           | (Err ClearCanceling, d) =>
               (refused (detail_err 409 "the job is canceling; a clear under a cancel is refused"), d)
           | (Err (ClearPg e), d) => (refused (pg_err db_text e), d)
           end
  end.
End attempts.

(** ** Specification *)

(** What the caller proved: the token of the launch, or that its pod belongs to
    the launch's job. *)
Definition authenticated (sha256 : string → list Z)
    (decode_header : string → option Satoken.Header)
    (sa_verifier : option (string → result Satoken.PodClaims Satoken.VerifyError))
    (h : Headers) (current : TaskInstance) (who : AttemptIdentity) : Prop :=
  ∃ token, bearer h = Some token ∧
    match who with
    | Fallback =>
        Satoken.looks_like_jwt decode_header token = false
        ∧ ti_token_hash current = Some (hash_secret sha256 token)
    | PodIdentity claims =>
        Satoken.looks_like_jwt decode_header token = true
        ∧ (∃ verify, sa_verifier = Some verify ∧ verify token = Ok claims)
        ∧ ∃ job suffix, ti_k8s_job_name current = Some job ∧ job ≠ Executor.INPROC
            ∧ Satoken.claims_pod_name claims = job +:+ "-" +:+ suffix
    end.

(** Nothing but the row of an id is written, apart from its task's next try. *)
Record only_attempt (current : TaskInstance) (d d' : Db) : Prop := {
  oa_others : ∀ r, r ∈ task_instances d → ti_id r ≠ ti_id current → r ∈ task_instances d';
  oa_rows : ∀ r, r ∈ task_instances d' →
    ti_id r = ti_id current ∨ r ∈ task_instances d ∨ next_try current r;
  oa_jobs : jobs d' = jobs d;
}.

(** ** Lemmas *)

Lemma only_attempt_refl current d : only_attempt current d d.
Proof. split; auto. Qed.

Lemma only_attempt_trans current d d' d'' :
  only_attempt current d d' → only_attempt current d' d'' → only_attempt current d d''.
Proof.
  intros [Ho Hr Hj] [Ho' Hr' Hj']. split; [auto| |congruence].
  intros r [?|[[?|[?|?]]%Hr|?]]%Hr'; auto.
Qed.

Lemma update_tis_nothing where_ set d d' : update_tis where_ set d = Ok ([], d') → d' = d.
Proof.
  unfold update_tis, update_rows. intros (_ & _ & Hret & <-)%install_ok.
  apply fmap_nil_inv in Hret. destruct d as [l js m]. unfold set_field. simpl in *. f_equal.
  rewrite <-(list_fmap_id l) at 2. apply list_fmap_ext. intros i r Hr%list_elem_of_lookup_2.
  destruct (where_ _ r) eqn:E; [|done]. exfalso.
  apply (not_elem_of_nil r). rewrite <-Hret. apply list_elem_of_filter. by rewrite E.
Qed.

(** The row a fenced statement wrote. *)
Lemma update_tis_hit where_ set d row rows d' current :
  rows_unique (task_instances d) = true → current ∈ task_instances d →
  (∀ d r, where_ d r = true → ti_id r = ti_id current ∧ ti_live r = Some true) →
  (∀ r, ti_id (set r) = ti_id r) →
  update_tis where_ set d = Ok (row :: rows, d') →
  where_ d current = true ∧ ti_live current = Some true ∧ only_attempt current d d'.
Proof.
  intros Hu Hc Hw Hs (Hret & Hrows & Hjobs & _)%update_tis_ok.
  assert (row ∈ row :: rows) as Hin by (by left). rewrite Hret in Hin.
  apply elem_of_returned in Hin as (r & Hr & Hwr & _). destruct (Hw d r Hwr) as [Hid Hl].
  assert (r = current) as -> by (by apply (unique_id _ Hu)). split_and!; [done..|].
  split; [| |done].
  - intros x Hx Hn. rewrite Hrows. apply elem_of_update_rows. exists x. split; [done|].
    destruct (where_ d x) eqn:E; [|done]. by destruct (Hw d x E).
  - intros x. rewrite Hrows. intros (y & Hy & ->)%elem_of_update_rows.
    destruct (where_ d y) eqn:E; [|auto]. left. rewrite Hs. by destruct (Hw d y E).
Qed.

Lemma retry_lineage_head id d current older :
  retry_lineage id d = current :: older → current ∈ task_instances d ∧ ti_id current = id.
Proof.
  unfold retry_lineage. intros E. assert (current ∈ filter (λ r, ti_id r = id) (task_instances d))
    as [? ?]%list_elem_of_filter; [|done].
  destruct (filter _ _) as [|r l]; [done|]. cbn [mbind list_bind] in E.
  assert (∃ t, lineage (length (task_instances d)) (task_instances d) r = r :: t) as [t Ht]
    by (destruct (length _); eexists; reflexivity).
  rewrite Ht in E. injection E as -> _. left.
Qed.

Lemma prefix_Some a b : String.prefix a b = true → ∃ t, b = a +:+ t.
Proof.
  intros E%String.prefix_correct. destruct (substring_prefix b (String.length a)) as [t Ht].
  exists t. by rewrite E in Ht.
Qed.

Section channel.
Context (sha256 : string → list Z) (hashtext : string → Z) (now : Z).
Context (db_text : DbError → string) (connect : string → result unit string).
Context (decode_header : string → option Satoken.Header).
Context (sa_verifier : option (string → result Satoken.PodClaims Satoken.VerifyError)).

Lemma attempt_authorized_Ok id h d current older who :
  attempt_authorized sha256 decode_header sa_verifier id h d = Ok (current, older, who) →
  current ∈ task_instances d ∧ ti_id current = id
  ∧ authenticated sha256 decode_header sa_verifier h current who.
Proof.
  unfold attempt_authorized, authenticated. destruct (bearer h) as [token|]; [|done].
  destruct (retry_lineage id d) as [|cur old] eqn:Hl; [done|]. apply retry_lineage_head in Hl as [Hin Hid].
  destruct (Satoken.looks_like_jwt decode_header token) eqn:Hj.
  - destruct sa_verifier as [verify|]; [|done]. destruct (verify token) as [claims|] eqn:Hv; [|done].
    unfold bound. destruct (ti_k8s_job_name cur) as [job|] eqn:Hjob; [|done].
    case_bool_decide as Hi; [done|]. simpl. destruct (String.prefix _ _) eqn:Hp; [|done].
    intros [= <- <- <-]. split_and!; [done..|]. exists token. split_and!; [done..|by exists verify|].
    apply prefix_Some in Hp as [t Ht]. exists job, t. split_and!; [done..|]. by rewrite Ht, <-str_app_assoc.
  - destruct (ti_token_hash cur) as [stored|] eqn:Ht; [|done]. rewrite ct_eq_spec.
    case_bool_decide; [|done]. intros [= <- <- <-]. split_and!; [done..|]. exists token. naive_solver.
Qed.

(** What a part of a handler does to the ledger it finds: its transactions
    run; on 200 the authenticated row was live and is the one written; any
    other answer leaves the ledger. *)
Definition reports (current : TaskInstance) (d : Db) (out : Reply * Db) : Prop :=
  rtc (ledger_step sha256 hashtext) d out.2
  ∧ (out.1.1 ≠ 200 → out.2 = d)
  ∧ (out.1.1 = 200 → ti_live current = Some true ∧ only_attempt current d out.2).

Lemma reports_refused current d r : r.1 ≠ 200 → reports current d (refused r, d).
Proof. intros Hr. split; [apply rtc_refl|]. split; [done|]. intros E. by destruct Hr. Qed.

Lemma first_row_reports where_ set stale d current :
  rows_unique (task_instances d) = true → current ∈ task_instances d →
  (∀ d r, where_ d r = true → ti_id r = ti_id current ∧ ti_live r = Some true) →
  (∀ r, ti_id (set r) = ti_id r) →
  ledger_txn sha256 hashtext now _ (update_tis where_ set) →
  reports current d (first_row db_text (update_tis where_ set) stale d).
Proof.
  intros Hu Hc Hw Hs Hm. unfold first_row, transaction.
  destruct (update_tis where_ set d) as [[[|row rows] d']|e] eqn:E; [| |by apply reports_refused].
  - apply update_tis_nothing in E as ->. by apply reports_refused.
  - split; [by eapply rtc_once, step_txn|]. split; [done|]. intros _.
    by destruct (update_tis_hit _ _ _ _ _ _ _ Hu Hc Hw Hs E) as (_ & ? & ?).
Qed.

Lemma insert_retry_only b cap base current d x d' :
  (∀ r, r ∈ task_instances d → ti_id r = ti_id current → attempt_key r = attempt_key current) →
  insert_retry_try sha256 hashtext now b cap base (ti_id current) d = Ok (x, d') →
  only_attempt current d d'.
Proof.
  intros Hkey (? & ? & E & He)%bind_stmt. injection E as <- <-. cbv zeta in He.
  destruct (forallb _ _); [|done]. apply insert_tis_ok in He as (_ & Hrows & Hjobs & _).
  split; [| |done].
  - intros r Hr _. rewrite Hrows. apply elem_of_app. by left.
  - intros r. rewrite Hrows, elem_of_app.
    intros [?|(y & -> & [Hy Hin]%list_elem_of_filter)%list_elem_of_fmap]; [auto|].
    right. right. apply Is_true_true in Hy. guards.
    assert (attempt_key y = attempt_key current) as Hk by by apply Hkey. injection Hk as Hj Ht Hn.
    unfold next_try. simpl. by rewrite Hj, Ht, Hn.
Qed.

Lemma fail_or_retry_reports d current f stale :
  rows_unique (task_instances d) = true → current ∈ task_instances d →
  terminal (tf_terminal_state f) → stale.1 ≠ 200 →
  reports current d
    match fail_or_retry_task sha256 hashtext now (ti_id current) f d with
    | (Ok (Some archived, successor), d) => ((200, BFailed archived successor), d)
    | (Ok (None, _), d) => (refused stale, d)
    | (Err e, d) => (refused (pg_err db_text e), d)
    end.
Proof.
  intros Hu Hc Hf Hstale. unfold fail_or_retry_task, transaction.
  destruct (fail_or_retry_stmts sha256 hashtext now (ti_id current) f d) as [[[[row|] succ] d']|e] eqn:E;
    [| |by apply reports_refused].
  - split; [eapply rtc_once, step_txn, E; by constructor|]. split; [done|]. intros _.
    apply bind_stmt in E as (rows & d1 & Ha & E). destruct rows as [|row' rows]; [by injection E|].
    pose proof Ha as (_ & Hrows1 & _ & _)%update_tis_ok. pose proof Ha as Hhit.
    eapply (update_tis_hit _ _ _ _ _ _ current) in Hhit as (_ & Hl & Hone); [|done|done| |by intros].
    2:{ intros d0 r Hw. cbv beta in Hw. guards. done. }
    split; [done|]. eapply only_attempt_trans; [exact Hone|]. simpl in E.
    destruct (ti_live row') as [b|]; [injection E as _ _ <-; apply only_attempt_refl|].
    apply bind_stmt in E as (xs & d2 & Hins & E). injection E as _ _ <-.
    eapply insert_retry_only; [|exact Hins]. intros r Hr Hid. rewrite Hrows1 in Hr.
    apply elem_of_update_rows in Hr as (y & Hy & ->).
    assert (y = current) as -> by (apply (unique_id _ Hu); [done..|]; by destruct (_ && _)).
    by destruct (_ && _).
  - apply bind_stmt in E as (rows & d1 & Ha & E).
    destruct rows as [|row' rows]; simpl in E.
    { injection E as _ <-. apply update_tis_nothing in Ha as ->. by apply reports_refused. }
    destruct (ti_live row'); [done|]. by apply bind_stmt in E as (xs & d2 & _ & E).
Qed.

Lemma reported_failure_terminal current body :
  terminal (tf_terminal_state (reported_failure current body)).
Proof. unfold reported_failure. simpl. by case_decide. Qed.

Lemma channel_reports st id h body d :
  (∀ current who, current ∈ task_instances d → ti_id current = id →
     reports current d (body current who d)) →
  match channel sha256 connect decode_header sa_verifier st id h body d with
  | (reply, d') =>
      rtc (ledger_step sha256 hashtext) d d' ∧ (reply.1 ≠ 200 → d' = d)
      ∧ (reply.1 = 200 → ∃ current who, current ∈ task_instances d ∧ ti_id current = id
           ∧ ti_live current = Some true
           ∧ authenticated sha256 decode_header sa_verifier h current who
           ∧ only_attempt current d d')
  end.
Proof.
  intros Hbody. unfold channel.
  assert (∀ r : Response, r.1 ≠ 200 →
    rtc (ledger_step sha256 hashtext) d d ∧ ((refused r).1 ≠ 200 → d = d)
    ∧ ((refused r).1 = 200 → ∃ current who, current ∈ task_instances d ∧ ti_id current = id
         ∧ ti_live current = Some true
         ∧ authenticated sha256 decode_header sa_verifier h current who
         ∧ only_attempt current d d)) as Hno.
  { intros r Hr. split; [apply rtc_refl|]. split; [done|]. intros E. by destruct Hr. }
  destruct (connected _ _ _) as [?|r] eqn:Hcon.
  2:{ apply Hno. unfold connected in Hcon. destruct (dsn st) as [ds|]; [destruct (connect ds)|]; by simplify_eq. }
  destruct (attempt_authorized _ _ _ _ _ _) as [[[current older] who]|r] eqn:Ha.
  - apply attempt_authorized_Ok in Ha as (Hin & Hid & Hauth).
    specialize (Hbody current who Hin Hid). destruct (body current who d) as [reply d'].
    destruct Hbody as (H1 & H2 & H3). split; [done|]. split; [done|].
    intros [? ?]%H3. by exists current, who.
  - apply Hno. unfold attempt_authorized in Ha.
    repeat (case_match; simplify_eq; try done).
Qed.
End channel.

(** C23: the channel a pod reports on.  A report is a run of the ledger's
    transactions.  Unless the answer is 200 the ledger is as it was; on 200
    the attempt was live, the caller held the token of its launch or a verified
    service-account token of a pod of the launch's job (a bearer of the shape
    of such a token is never taken for the other kind), and nothing but the
    attempt's row was written, apart from the next try of its task. *)
Theorem report_correct sha256 hashtext now db_text connect decode_header sa_verifier st id h r d :
  rows_unique (task_instances d) = true →
  match report sha256 hashtext now db_text connect decode_header sa_verifier st id h r d with
  | (reply, d') =>
      rtc (ledger_step sha256 hashtext) d d' ∧ (reply.1 ≠ 200 → d' = d)
      ∧ (reply.1 = 200 → ∃ current who, current ∈ task_instances d ∧ ti_id current = id
           ∧ ti_live current = Some true
           ∧ authenticated sha256 decode_header sa_verifier h current who
           ∧ only_attempt current d d')
  end.
Proof.
  intros Hu. destruct r as [body|body|body]; apply channel_reports; intros current who Hc <-.
  - destruct (match who with PodIdentity _ => _ | Fallback => _ end) as [pod_name pod_uid].
    apply (first_row_reports _ _ now); [done|done| |reflexivity|apply TStart].
    intros d0 r Hw. cbv beta in Hw. guards. done.
  - apply (first_row_reports _ _ now); [done|done| |reflexivity|apply THeartbeat].
    intros d0 r Hw. cbv beta in Hw. guards. done.
  - unfold finish_body. case_decide; [|case_decide; [|case_decide]].
    + apply (first_row_reports _ _ now); [done|done| |reflexivity|apply TFinish].
      intros d0 r Hw. cbv beta in Hw. guards. done.
    + apply (fail_or_retry_reports _ _ now); [done|done|apply reported_failure_terminal|done].
    + apply (first_row_reports _ _ now); [done|done| |reflexivity|apply TNoteInterruption].
      intros d0 r Hw. cbv beta in Hw. guards. done.
    + by apply reports_refused.
Qed.

(** ** Clearing *)

Lemma names_of_spec dag X :
  (∀ i, i ∈ X → (i < length (nodes dag))%nat) →
  ∃ l, names_of dag X = Some l
    ∧ ∀ t, t ∈ l ↔ ∃ i n, i ∈ X ∧ nodes dag !! i = Some n ∧ task_id n = t.
Proof.
  intros HX. unfold names_of. set (l := merge_sort le (elements X)).
  assert (∀ i, i ∈ l ↔ i ∈ X) as Hl by (intros i; unfold l; by rewrite merge_sort_Permutation, elem_of_elements).
  destruct (mapM (λ i, task_id <$> nodes dag !! i) l) as [names|] eqn:E.
  - exists names. split; [done|]. apply mapM_Some in E. intros t. split.
    + intros [k Hk]%list_elem_of_lookup. destruct (Forall2_lookup_r _ _ _ _ _ E Hk) as (i & Hi & Ht).
      apply fmap_Some in Ht as (n & Hn & ->). exists i, n. split_and!; [|done..].
      apply Hl. by eapply list_elem_of_lookup_2.
    + intros (i & n & [k Hk]%Hl%list_elem_of_lookup & Hn & <-).
      destruct (Forall2_lookup_l _ _ _ _ _ E Hk) as (t & Ht & Hit). rewrite Hn in Hit.
      injection Hit as <-. by eapply list_elem_of_lookup_2.
  - exfalso. apply mapM_None, Exists_exists in E as (i & Hi%Hl%HX & Hn).
    apply lookup_lt_is_Some in Hi as [n Hi]. by rewrite Hi in Hn.
Qed.

Lemma clear_named_rows sha256 now org job l k cls img d c d' :
  ledger_inv closed d → is_Some (head (job_lock job d)) →
  clear_named sha256 now org job l k cls img d = (Ok c, d') →
  ∀ r, r ∈ task_instances d → clear_spec org job l k d' r.
Proof.
  intros Hd [j Hj] Hc r Hr. unfold clear_named in Hc. rewrite Hj in Hc.
  assert (∃ cls', clear sha256 now org job l k cls' img d = (Ok c, d')) as (cls' & Hc').
  { destruct cls as [s|]; [|by exists None]. destruct (_ && _ && _); [done|by eexists]. }
  unfold clear in Hc'. rewrite Hj in Hc'. case_decide; [done|].
  destruct (clear_stmts sha256 now org job l k cls' img d) as [[c' d'']|] eqn:E; [|done].
  injection Hc' as -> ->. by eapply clear_row.
Qed.

Lemma clear_named_refused sha256 now org job l k cls img d e d' :
  clear_named sha256 now org job l k cls img d = (Err e, d') → d' = d.
Proof.
  unfold clear_named, clear. intros H.
  destruct (head (job_lock job d)) as [j|]; [|by injection H].
  destruct cls as [s|]; [destruct (_ && _ && _); [by injection H|]|];
    (case_decide; [by injection H|]); destruct (clear_stmts _ _ _ _ _ _ _ _ _) as [[]|];
    try discriminate H; by injection H.
Qed.

Lemma clear_named_steps sha256 hashtext now org job l k cls img d c d' :
  clear_named sha256 now org job l k cls img d = (Ok c, d') →
  rtc (ledger_step sha256 hashtext) d d'.
Proof.
  intros H.
  assert (∃ cls', clear sha256 now org job l k cls' img d = (Ok c, d')) as (cls' & Hc').
  { unfold clear_named in H. destruct (head _), cls as [s|]; try (by exists None).
    destruct (_ && _ && _); [done|by eexists]. }
  clear H. unfold clear in Hc'. destruct (head _); [|injection Hc' as _ <-; apply rtc_refl].
  case_decide; [done|].
  destruct (clear_stmts sha256 now org job l k cls' img d) as [[c' d'']|] eqn:E; [|done].
  injection Hc' as -> ->. eapply rtc_once, step_txn, E. apply TClear.
Qed.

Lemma clear_target_spec sha256 connect st p ex org ds id task c d :
  ∃ t, clear_target sha256 connect st p ex org ds id task c d = Some t ∧
    match t with
    | Err r => r.1 ≠ 202
    | Ok (org_row, job, dag, i) =>
        guard p org Steward = Ok tt ∧ get_org org c = Some org_row
        ∧ job ∈ jobs d ∧ job_id job = id ∧ job_org_id job = o_id org_row
        ∧ ∃ kind n, job_kind_parse (job_kind job) = Some kind ∧ dag_for sha256 kind = Some dag
            ∧ nodes dag !! i = Some n ∧ task_id n = task
    end.
Proof.
  unfold clear_target, org_or_404.
  destruct (guard p org Steward) as [[]|r] eqn:Hg.
  2:{ eexists. split; [done|]. unfold guard in Hg. repeat case_match; by simplify_eq. }
  destruct (connected connect st _) as [[]|r] eqn:Hcon.
  2:{ eexists. split; [done|]. unfold connected in Hcon. repeat case_match; by simplify_eq. }
  destruct (get_org org c) as [o|] eqn:Ho; [|by eexists].
  destruct (ex (o_id o) ds); [|by eexists].
  destruct (head (job_by_id (o_id o) id d)) as [j|] eqn:Hj; [|by eexists].
  apply (head_filter_Some (λ j, job_org_id j = o_id o ∧ job_id j = id)) in Hj as [[Hjo Hji] Hjin].
  destruct (job_kind_parse (job_kind j)) as [kind|] eqn:Hk; [|by eexists].
  destruct (dag_for_spec sha256 kind) as (dag & Hdag & _). rewrite Hdag. simpl.
  destruct (list_find _ _) as [[i n]|] eqn:Hf; [|by eexists].
  apply list_find_Some in Hf as (Hn & Ht & _). eexists. split; [done|].
  split_and!; try done. by exists kind, n.
Qed.

(** Clearing a task through the API, in every ledger a run can come to:
    the handler returns; unless it answers 202 the ledger is as it was.  On
    202 the caller was an operator, or a steward or admin of the tenant; the
    tasks cleared are the named one and everything downstream of it in the
    job's own graph, no more; and every row of the ledger is what [clear_spec]
    makes of it, a run of the ledger's transactions. *)
Theorem clear_job_task_correct sha256 hashtext now db_text connect st p ex org ds id task input c d :
  reachable sha256 hashtext d →
  ∃ reply d', clear_job_task sha256 now db_text connect st p ex org ds id task input c d
              = Some (reply, d')
    ∧ rtc (ledger_step sha256 hashtext) d d'
    ∧ (reply.1 ≠ 202 → d' = d)
    ∧ (reply.1 = 202 → guard p org Steward = Ok tt
         ∧ ∃ org_row job kind dag i n closure,
             get_org org c = Some org_row ∧ job ∈ jobs d ∧ job_id job = id
             ∧ job_org_id job = o_id org_row ∧ job_kind_parse (job_kind job) = Some kind
             ∧ dag_for sha256 kind = Some dag ∧ nodes dag !! i = Some n ∧ task_id n = task
             ∧ (∀ t, t ∈ closure ↔
                  ∃ j m, nodes dag !! j = Some m ∧ task_id m = t ∧ rtc (edge (nodes dag)) i j)
             ∧ ∀ r, r ∈ task_instances d →
                 clear_spec (o_id org_row) id closure (default 0 (input ≫= ci_retries)) d' r).
Proof.
  intros Hd%reachable_inv. unfold clear_job_task.
  destruct (clear_target_spec sha256 connect st p ex org ds id task c d) as (t & -> & Ht).
  simpl. destruct t as [[[[o j] dag] i]|r].
  2:{ exists (refused r), d. split_and!; [done|apply rtc_refl|done|]. intros E. by destruct Ht. }
  destruct Ht as (Hg & Ho & Hjin & Hji & Hjo & kind & n & Hk & Hdag & Hn & Htask).
  destruct (dag_for_topological _ _ _ Hdag) as [Htop _].
  assert (∀ s, s ∈ [i] → (s < length (nodes dag))%nat) as Hseeds.
  { intros s ->%list_elem_of_singleton. by eapply lookup_lt_Some. }
  destruct (clear_closure_spec dag [i] true (λ _, Present) Htop Hseeds) as (plan & -> & Hmust & Hdem & _).
  simpl.
  assert (∀ x, must (nodes dag) (selected (nodes dag) [i] true) (λ _, Present) x
    ↔ rtc (edge (nodes dag)) i x) as Hsel.
  { intros x. split; [|intros; constructor; exists i; set_solver].
    destruct 1 as [x (s & ->%list_elem_of_singleton & Hs)|]; done. }
  assert (∀ x, rtc (edge (nodes dag)) i x → (x < length (nodes dag))%nat) as Hlt.
  { intros x [->|(y & _ & Hyx)]%rtc_inv_r; [by eapply lookup_lt_Some|by eapply edge_lt]. }
  destruct (names_of_spec dag (must_run plan)) as (closure & -> & Hclosure).
  { intros x Hx%Hmust%Hsel. auto. }
  destruct (names_of_spec dag (demanded_upstream plan)) as (demanded & -> & _).
  { intros x [Hx%Hsel _]%Hdem. auto. }
  simpl. destruct (clear_named _ _ _ _ _ _ _ _ _) as [[cl|[|e]] d'] eqn:E.
  - eexists _, d'. split; [done|]. split; [by eapply clear_named_steps|]. split; [done|].
    intros _. split; [done|]. exists o, j, kind, dag, i, n, closure. split_and!; try done.
    + intros t. rewrite Hclosure. split.
      * intros (x & m & Hx%Hmust%Hsel & Hm & Hmt). by exists x, m.
      * intros (x & m & Hm & Hmt & Hx). exists x, m. split_and!; [by apply Hmust, Hsel|done..].
    + eapply clear_named_rows; [done| |exact E]. unfold job_lock.
      assert (j ∈ filter (λ j, job_id j = id) (jobs d)) as Hin by (by apply list_elem_of_filter).
      destruct (filter _ _); [by apply elem_of_nil in Hin|done].
  - apply clear_named_refused in E as ->. eexists _, d. split_and!; [done|apply rtc_refl|done|done].
  - apply clear_named_refused in E as ->. eexists _, d. split_and!; [done|apply rtc_refl|done|done].
Qed.

(** ** A sample *)

Module SampleAttempt.
Import SampleLedger.

Definition launched : Db :=
  commit (claim_launch_stmt 0 ∅ "epoch" None (Some (hash_secret sha "tok")) 10)
    (commit (mark_scheduled 0 (JObject []) init_id 0) planned).

Lemma claimed_reachable : reachable sha hash launched.
Proof.
  unfold launched. apply (commit_reachable 0); [|apply TClaimLaunch].
  apply (commit_reachable 0); [|apply TMarkScheduled]. apply planned_reachable.
Qed.

Definition launch : string :=
  default "" (r ← head (retry_lineage init_id launched); ti_k8s_job_name r).

Definition started (token : string) : Reply * Db :=
  report sha hash 1 SampleAuth.db_text SampleAuth.connect (λ _, None) None SampleAuth.state init_id
    (SampleAuth.headers token None) (RStart (mkStart launch "uid" None None None)) launched.

(** The token of the launch starts the attempt, any other is refused. *)
Example started_rows :
  (λ r, (ti_task_id r, ti_state r, ti_pod_uid r)) <$> task_instances (started "tok").2
    = [("init", Running, Some "uid"); ("load", SNone, None)]
  ∧ (started "tik").1.1 = 401.
Proof. vm_compute. done. Qed.

(** A planned job of a compiled kind. *)
Definition run : Db :=
  commit (job_claim 0 4 ∅)
    (commit (enqueue 0 "j" "acme" None "run_all_full" 0 None None None None) (mkDb [] [] (λ _, None))).

Definition run_planned : Db :=
  match head (jobs run), dag_for sha RunAllFull with
  | Some job, Some dag => default run (snd <$> plan sha 0 job dag "epoch" None run)
  | _, _ => run
  end.

Lemma run_planned_reachable : reachable sha hash run_planned.
Proof.
  assert (reachable sha hash run) as Hr.
  { unfold run. apply (commit_reachable 0); [|apply TJobClaim].
    apply (commit_reachable 0); [|apply TEnqueue]. apply reachable_init. }
  unfold run_planned. destruct (head (jobs run)) as [job|] eqn:Ej; [|done].
  destruct (dag_for sha RunAllFull) as [dag|]; [|done].
  destruct (plan sha 0 job dag "epoch" None run) as [[res d']|] eqn:E; [|done].
  eapply reachable_step; [exact Hr|]. eapply step_plan; [|exact E].
  exists job. split; [|done]. destruct (jobs run) as [|? ?]; [done|].
  injection Ej as ->. apply list_elem_of_here.
Qed.

Definition tables : ControlDb :=
  mkControl [mkOrg "acme" "acme" "" JNull None None None None "active" None 0 0] [] [].
End SampleAttempt.

Lemma report_correct_witness :
  ∃ current who, ti_id current = SampleLedger.init_id ∧ ti_live current = Some true
    ∧ authenticated SampleLedger.sha (λ _, None) None (SampleAuth.headers "tok" None) current who
    ∧ only_attempt current SampleAttempt.launched (SampleAttempt.started "tok").2.
Proof.
  pose proof (report_correct SampleLedger.sha SampleLedger.hash 1 SampleAuth.db_text
    SampleAuth.connect (λ _, None) None SampleAuth.state SampleLedger.init_id
    (SampleAuth.headers "tok" None) (RStart (mkStart SampleAttempt.launch "uid" None None None))
    SampleAttempt.launched (li_unique _ _ (reachable_inv _ _ _ SampleAttempt.claimed_reachable))) as H.
  change (report _ _ _ _ _ _ _ _ _ _ _ _) with (SampleAttempt.started "tok") in H.
  assert ((SampleAttempt.started "tok").1.1 = 200) as E by (vm_compute; reflexivity).
  destruct (SampleAttempt.started "tok") as [reply d'].
  destruct (proj2 (proj2 H) E) as (current & who & _ & Hid & Hl & Ha & Ho).
  exists current, who. exact (conj Hid (conj Hl (conj Ha Ho))).
Defined.

Lemma clear_job_task_correct_witness :
  ∃ reply d', clear_job_task SampleLedger.sha 1 SampleAuth.db_text SampleAuth.connect
      SampleAuth.state SampleAuth.operator (λ _ _, true) "acme" "main" "j" "match" None
      SampleAttempt.tables
      SampleAttempt.run_planned = Some (reply, d')
    ∧ reply.1 = 202 ∧ rtc (ledger_step SampleLedger.sha SampleLedger.hash) SampleAttempt.run_planned d'.
Proof.
  destruct (clear_job_task_correct SampleLedger.sha SampleLedger.hash 1 SampleAuth.db_text
    SampleAuth.connect SampleAuth.state SampleAuth.operator (λ _ _, true) "acme" "main" "j" "match" None
    SampleAttempt.tables
    SampleAttempt.run_planned SampleAttempt.run_planned_reachable) as (reply & d' & H & Hs & _).
  exists reply, d'. split; [exact H|]. split; [|exact Hs]. clear Hs.
  apply (f_equal (λ o, match o with Some x => x.1.1 | None => 0 end)) in H. 
  vm_compute in H. symmetry. exact H.
Defined.
