(* ===== verification/Reporter.v ===== *)
(** * The in-process reporter

    [er-server/src/reporter.rs]: how the dispatcher's in-process arm keeps the
    ledger of a job it runs itself, under the launch name [inproc], and the
    classification of a failure's text ([er-server/src/pg.rs]).  Every
    operation is best effort: a statement that fails leaves the ledger, and the
    operation goes on or stops as the code does.  An operation reads one clock. *)

From S2P Require Executor.
From S2P Require Import Prelude Json Ids DagPolicy Dag Readiness Errors Registry Sql Ledger TaskPg.
From S2P Require Import LedgerInv LedgerRuns LedgerMoves LedgerOps LedgerClear Scheduler Text.
From Stdlib Require Import Ascii.

#[local] Open Scope Z_scope.

(** ** Definitions *)

(** *** Failure texts *)

Inductive FailureClass := FPrecondition | FTransientIo | FConfig | FInternal.

#[global] Instance FailureClass_eq_dec : EqDecision FailureClass.
Proof. solve_decision. Defined.

Definition failure_as_str (c : FailureClass) : string :=
  match c with
  | FPrecondition => "precondition"
  | FTransientIo => "transient_io"
  | FConfig => "config"
  | FInternal => "internal"
  end.

Definition failure_retryable (c : FailureClass) : bool := bool_decide (c = FTransientIo).

(** [str::contains] with a pattern. *)
Fixpoint contains_str (pat s : string) : bool :=
  String.prefix pat s
  || match s with EmptyString => false | String _ s => contains_str pat s end.

Definition PRECONDITION_TEXTS : list string :=
  ["org env missing"; "no prior run"; "no source deliveries"; "no trained model"; "no model yet";
   "has no drop_root"; "param:"].

Definition TRANSIENT_TEXTS : list string :=
  ["open lake"; "read model"; "connection"; "timed out"; "timeout"; "temporarily"; "i/o error"].

Definition classify (message : string) : FailureClass :=
  let m := to_ascii_lowercase message in
  if existsb (λ t, contains_str t m) PRECONDITION_TEXTS then FPrecondition
  else if String.prefix "config:" m || contains_str "read config" m then FConfig
  else if existsb (λ t, contains_str t m) TRANSIENT_TEXTS then FTransientIo
  else FInternal.

(** *** The run *)

Record PlannedRun := mkRun {
  run_kind : JobKind;
  run_job_id : string;
  run_org_id : string;
  run_clear_number : Z;
  run_rows : gmap string (string * NodeKind);
}.

Inductive StageEvent :=
| Started (stage : string)
| StageSucceeded (stage : string) (snapshot_end : option Z)
| StageFailed (stage detail : string).

Definition has_task (run : PlannedRun) (task : string) : bool :=
  bool_decide (is_Some (run_rows run !! task)).

Definition row_id (run : PlannedRun) (task : string) : option string := fst <$> run_rows run !! task.

Definition inproc_input : json := JObject [("inproc", JBool true)].

Section reporter.
Context (sha256 : string → list Z) (hashtext : string → Z) (now : Z).
(** The reporter's own epoch, and the rows other transactions hold. *)
Context (epoch : string) (locked : gset string).

(** A statement whose result is dropped. *)
Definition best {A} (m : stmt Db A) (d : Db) : Db := (transaction m d).2.

(** The live rows by task. *)
Definition rows_of (rows : list TaskInstance) : gmap string (string * NodeKind) :=
  foldl (λ m r, <[ti_task_id r := (ti_id r, ti_kind r)]> m) ∅
    (filter (λ r, ti_live r = Some true) rows).

(** [None] is a panic; a failure of the database is an [Err]. *)
Definition plan_inner (job : Job) (d : Db) : option (result (option PlannedRun) DbError * Db) :=
  match job_kind_parse (job_kind job) with
  | None => Some (Ok None, d)
  | Some kind =>
      dag ← dag_for sha256 kind;
      let other :=
        match job_structural_fingerprint job with
        | Some fp => negb (bool_decide (fp = structural_fingerprint dag))
        | None => false
        end in
      if other then Some (Ok None, d)
      else
        let cleared :=
          match by_job (job_org_id job) (job_id job) d with
          | [] => (Ok tt, d)
          | _ =>
              match clear sha256 now (job_org_id job) (job_id job) (task_id <$> nodes dag) 2
                      None None d with
              | (Ok _, d) => (Ok tt, d)
              | (Err e, d) => (Err e, d)
              end
          end in
        match cleared with
        | (Err ClearCanceling, d) => Some (Ok None, d)
        | (Err (ClearPg e), d) => Some (Err e, d)
        | (Ok _, d) =>
            '(planned, d) ← plan sha256 now job dag epoch None d;
            Some match planned with
                 | Err e => (Err e, d)
                 | Ok None => (Ok None, d)
                 | Ok (Some planned_job) =>
                     (Ok (Some (mkRun kind (job_id job) (job_org_id job)
                                  (default 0 (job_clear_number planned_job))
                                  (rows_of (by_job (job_org_id job) (job_id job) d)))), d)
                 end
        end
  end.

Definition report_plan (job : Job) (d : Db) : option (option PlannedRun * Db) :=
  '(r, d) ← plan_inner job d;
  Some (match r with Ok planned => planned | Err _ => None end, d).

(** [claim_launch] under the synthetic name. *)
Definition claim_inproc : Db → result (option TaskInstance) DbError * Db :=
  claim_launch now locked epoch (Some Executor.INPROC) None 1000000.

Definition mark_inproc (run : PlannedRun) (id : string) : stmt Db (list TaskInstance) :=
  mark_scheduled now inproc_input id (run_clear_number run).

(** The first failure ends it. *)
Definition pod_started_inner (run : PlannedRun) (id : string) (d : Db) : Db :=
  match transaction (mark_inproc run id) d with
  | (Err _, d) => d
  | (Ok _, d) =>
      match claim_inproc d with
      | (Err _, d) => d
      | (Ok _, d) => best (start now None epoch None None id Executor.INPROC) d
      end
  end.

Definition with_row (run : PlannedRun) (task : string) (f : string → Db → Db) (d : Db) : Db :=
  match row_id run task with Some id => f id d | None => d end.

Definition pod_started (run : PlannedRun) (task : string) : Db → Db :=
  with_row run task (pod_started_inner run).

Definition pod_succeeded (run : PlannedRun) (task : string) (snapshot_end : option Z) : Db → Db :=
  with_row run task (λ id,
    best (finish now false "done" None None snapshot_end None None id epoch)).

Definition inproc_failure (detail : string) (k8s_job_name : option string) (backoff : Z * Z) :
    TaskFailure :=
  mkFailure Failed false false None None (Some (failure_as_str (classify detail))) (Some detail)
    k8s_job_name backoff.

Definition pod_failed (run : PlannedRun) (task detail : string) : Db → Db :=
  with_row run task (λ id d,
    best (fail_or_retry_stmts sha256 hashtext now id
            (inproc_failure detail (Some Executor.INPROC) POD_BACKOFF))
      (claim_inproc (best (mark_inproc run id) d)).2).

Definition control_started (run : PlannedRun) (task : string) : Db → Db :=
  with_row run task (λ id d, best (claim_control now locked epoch) (best (mark_inproc run id) d)).

Definition control_succeeded (run : PlannedRun) (task : string) (output : option json) : Db → Db :=
  with_row run task (λ id, best (finish_control now false "done" output None id epoch)).

Definition control_failed (run : PlannedRun) (task detail : string) : Db → Db :=
  with_row run task (λ id d,
    best (fail_or_retry_stmts sha256 hashtext now id (inproc_failure detail None CONTROL_BACKOFF))
      (best (claim_control now locked epoch) (best (mark_inproc run id) d))).

Definition apply (run : PlannedRun) (event : StageEvent) : Db → Db :=
  match event with
  | Started stage => pod_started run stage
  | StageSucceeded stage snapshot_end => pod_succeeded run stage snapshot_end
  | StageFailed stage detail => pod_failed run stage detail
  end.

(** The state the reporter reads of a node. *)
Definition reported_state (rows : list TaskInstance) (n : Node) : TaskState :=
  match find_first (λ r, bool_decide (ti_task_id r = task_id n)
                         && bool_decide (ti_live r = Some true)) rows with
  | Some r => ti_state r
  | None => SNone
  end.

(** What a settlement writes for an action. *)
Definition settled_state (action : PassAction) : TaskState :=
  match action with Propagate s => s | Schedule => Canceled end.

(** The loop over the actions; a failed statement ends it, what it wrote before
    stays. *)
Fixpoint settle_loop (run : PlannedRun) (dag : Dag) (actions : list (nat * PassAction)) (d : Db) :
    option Db :=
  match actions with
  | [] => Some d
  | (idx, action) :: actions =>
      n ← nodes dag !! idx;
      match row_id run (task_id n) with
      | None => settle_loop run dag actions d
      | Some id =>
          match transaction (propagate now (settled_state action) id (run_clear_number run)) d with
          | (Err _, d) => Some d
          | (Ok _, d) => settle_loop run dag actions d
          end
      end
  end.

Definition settle (run : PlannedRun) (d : Db) : option Db :=
  dag ← dag_for sha256 (run_kind run);
  let rows := by_job (run_org_id run) (run_job_id run) d in
  actions ← pass dag (reported_state rows <$> nodes dag);
  settle_loop run dag actions d.
End reporter.

(** What the in-process arm does to the ledger, one operation at a time. *)
Inductive reporter_step (sha256 : string → list Z) (hashtext : string → Z) (d : Db) : Db → Prop :=
| rep_plan now epoch job r d' :
    job ∈ jobs d → plan_inner sha256 now epoch job d = Some (r, d') →
    reporter_step sha256 hashtext d d'
| rep_apply now epoch locked run event :
    reporter_step sha256 hashtext d (apply sha256 hashtext now epoch locked run event d)
| rep_control_started now epoch locked run task :
    reporter_step sha256 hashtext d (control_started now epoch locked run task d)
| rep_control_succeeded now epoch run task output :
    reporter_step sha256 hashtext d (control_succeeded now epoch run task output d)
| rep_control_failed now epoch locked run task detail :
    reporter_step sha256 hashtext d (control_failed sha256 hashtext now epoch locked run task detail d)
| rep_settle now run d' :
    settle sha256 now run d = Some d' → reporter_step sha256 hashtext d d'.

(** ** Lemmas *)

Section refines.
Context (sha256 : string → list Z) (hashtext : string → Z) (now : Z).
Context (epoch : string) (locked : gset string).

#[local] Abbreviation runs := (rtc (ledger_step sha256 hashtext)).

Lemma best_steps {A} (m : stmt Db A) d d' :
  ledger_txn sha256 hashtext now A m → runs d d' → runs d (best m d').
Proof.
  intros Hm Hd. etransitivity; [exact Hd|]. by apply (Executor.transaction_steps sha256 hashtext now).
Qed.

Lemma claim_inproc_steps d d' : runs d d' → runs d (claim_inproc now epoch locked d').2.
Proof.
  intros Hd. unfold claim_inproc, claim_launch.
  destruct (claim_launch_stmt _ _ _ _ _ _ d') as [[rows d1]|[|]] eqn:E; [|done..].
  etransitivity; [exact Hd|]. eapply rtc_once, step_txn, E. apply TClaimLaunch.
Qed.

Lemma with_row_steps run task f d :
  (∀ id, runs d (f id d)) → runs d (with_row run task f d).
Proof. intros Hf. unfold with_row. by destruct (row_id run task). Qed.

Lemma pod_started_inner_steps run id d : runs d (pod_started_inner now epoch locked run id d).
Proof.
  unfold pod_started_inner.
  pose proof (Executor.transaction_steps sha256 hashtext now (mark_inproc now run id) d) as H1.
  destruct (transaction (mark_inproc now run id) d) as [[x|e] d1];
    specialize (H1 (TMarkScheduled _ _ _ _ _ _)); simpl in H1; [|done].
  pose proof (claim_inproc_steps d d1 H1) as H2.
  destruct (claim_inproc now epoch locked d1) as [[y|e] d2]; simpl in H2; [|done].
  apply best_steps; [apply TStart|done].
Qed.

Lemma inproc_failure_steps id detail name backoff d d' :
  runs d d' →
  runs d (best (fail_or_retry_stmts sha256 hashtext now id (inproc_failure detail name backoff)) d').
Proof. intros Hd. apply best_steps; [by apply TFailOrRetry|done]. Qed.

Lemma apply_steps run event d : runs d (apply sha256 hashtext now epoch locked run event d).
Proof.
  destruct event; apply with_row_steps; intros id.
  - apply pod_started_inner_steps.
  - apply best_steps; [apply TFinish|reflexivity].
  - apply inproc_failure_steps, claim_inproc_steps, best_steps; [apply TMarkScheduled|reflexivity].
Qed.

Lemma clear_steps org job l k cls img d r d' :
  clear sha256 now org job l k cls img d = (r, d') → runs d d'.
Proof.
  unfold clear. destruct (head _); [|intros [= _ <-]; reflexivity].
  case_decide; [intros [= _ <-]; reflexivity|].
  destruct (clear_stmts sha256 now org job l k cls img d) as [[c d'']|] eqn:E;
    intros [= _ <-]; [|reflexivity]. eapply rtc_once, step_txn, E. apply TClear.
Qed.

Lemma clear_keeps_job org job l k cls img d r d' j :
  clear sha256 now org job l k cls img d = (r, d') → j ∈ jobs d →
  ∃ j', j' ∈ jobs d' ∧ job_id j' = job_id j ∧ job_org_id j' = job_org_id j.
Proof.
  intros H Hj. unfold clear in H. destruct (head _); [|injection H as _ <-; by exists j].
  case_decide; [injection H as _ <-; by exists j|].
  destruct (clear_stmts sha256 now org job l k cls img d) as [[c d'']|] eqn:E;
    injection H as _ <-; [|by exists j].
  apply clear_jobs in E. rewrite E.
  eexists. split; [by apply list_elem_of_fmap_2|]. simpl. by case_match.
Qed.

Lemma plan_inner_steps job r d d' :
  job ∈ jobs d → plan_inner sha256 now epoch job d = Some (r, d') → runs d d'.
Proof.
  intros Hj. unfold plan_inner. destruct (job_kind_parse _) as [kind|]; [|intros [= _ <-]; reflexivity].
  intros (dag & _ & H)%bind_Some. cbv zeta in H.
  destruct (match job_structural_fingerprint job with Some _ => _ | None => _ end);
    [injection H as _ <-; reflexivity|].
  set (cleared := match by_job _ _ d with [] => _ | _ => _ end) in H.
  assert (runs d cleared.2 ∧ ∃ j', j' ∈ jobs cleared.2 ∧ job_id j' = job_id job
    ∧ job_org_id j' = job_org_id job) as [Hc Hj'].
  { unfold cleared. destruct (by_job _ _ d); [split; [reflexivity|by exists job]|].
    destruct (clear _ _ _ _ _ _ _ _ _) as [c d1] eqn:E.
    pose proof (clear_steps _ _ _ _ _ _ _ _ _ E). pose proof (clear_keeps_job _ _ _ _ _ _ _ _ _ _ E Hj).
    by destruct c. }
  destruct cleared as [[?|[|e]] d1]; simpl in *; [|by injection H as _ <-..].
  apply bind_Some in H as ([planned d2] & Hp & H).
  assert (runs d1 d2) as H2 by (eapply rtc_once, step_plan; [exact Hj'|exact Hp]).
  transitivity d1; [done|]. destruct planned as [[?|]|]; by injection H as _ <-.
Qed.

Lemma settle_loop_steps run dag actions d d' :
  (∀ i t, (i, Propagate t) ∈ actions → terminal t) →
  settle_loop now run dag actions d = Some d' → runs d d'.
Proof.
  revert d. induction actions as [|[i a] actions IH]; intros d Ha H; simpl in H.
  { injection H as <-. reflexivity. }
  assert (∀ i t, (i, Propagate t) ∈ actions → terminal t) as Ha'
    by (intros j t Hj; by eapply Ha, list_elem_of_further).
  apply bind_Some in H as (n & _ & H). destruct (row_id run (task_id n)) as [id|]; [|by apply IH].
  assert (terminal (settled_state a)) as Ht.
  { destruct a; [done|]. simpl. by eapply Ha, list_elem_of_here. }
  pose proof (Executor.transaction_steps sha256 hashtext now
    (propagate now (settled_state a) id (run_clear_number run)) d (TPropagate _ _ _ _ _ _ Ht)) as H1.
  destruct (transaction _ d) as [[x|e] d1]; simpl in H1; [|by injection H as <-].
  transitivity d1; [done|]. by apply IH.
Qed.

Lemma settle_steps run d d' : settle sha256 now run d = Some d' → runs d d'.
Proof.
  unfold settle. intros (dag & Hdag & H)%bind_Some. apply bind_Some in H as (acts & Hp & H).
  eapply settle_loop_steps; [|exact H]. intros i t. eapply Executor.pass_terminal; [|exact Hp].
  by eapply dag_for_topological.
Qed.
End refines.


(** The class a failure is recorded under is one the table's [CHECK] knows. *)
Lemma failure_class_known c : failure_as_str c ∈ ERROR_CLASSES.
Proof. apply (bool_decide_unpack _). by destruct c. Qed.

(** ** A sample *)

Module SampleReporter.
Import SampleLedger.

(** Claims a queued job and plans its rows, as either executor does. *)
Definition plan_next (d : Db) : Db :=
  let d := commit (job_claim 0 4 ∅) d in
  match find_first (λ j, bool_decide (job_state j = "dispatching")) (jobs d) with
  | Some job => default d (snd <$> plan sha 0 job (SampleLedger.dag FromRun) "epoch" None d)
  | None => d
  end.

(** A job of the tenant [zeta], one of whose tasks waits to be launched in a
    pod, and a job of [acme], which runs in process. *)
Definition zeta : Db :=
  plan_next (commit (enqueue 0 "k" "zeta" None "run" 5 None None None None) (mkDb [] [] (λ _, None))).

Definition both : Db :=
  plan_next (commit (enqueue 0 "j" "acme" None "run" 0 None None None None)
    (commit (mark_scheduled 0 (JObject []) (attempt_id sha "k" "init" 1) 0) zeta)).

Definition run : PlannedRun :=
  mkRun RunAllFull "j" "acme" 0 {["init" := (attempt_id sha "j" "init" 1, Pod)]}.

Definition view (d : Db) : list (string * string * TaskState * option string) :=
  (λ r, (ti_org_id r, ti_task_id r, ti_state r, ti_k8s_job_name r)) <$>
    filter (λ r, ti_task_id r = "init") (task_instances d).

(** Alone, the started stage is the row that runs. *)
Example started_alone :
  view (pod_started 0 "rep" ∅ run "init" (commit (job_mark 0 "succeeded" "k") both))
  = [("zeta", "init", Scheduled, None); ("acme", "init", Running, Some "inproc")].
Proof. vm_compute. reflexivity. Qed.

(** With another tenant's row due, the claim takes that row: it is queued
    under [inproc], a name no sweep looks at, and the reported row does not
    run. *)
Example started_claims_other :
  let d := pod_started 0 "rep" ∅ run "init" both in
  view d = [("zeta", "init", Queued, Some "inproc"); ("acme", "init", Scheduled, None)]
  ∧ live_claimed_pods d = [] ∧ stale_heartbeats 1000000000 "rep" 0 d = [].
Proof. vm_compute. done. Qed.
End SampleReporter.

