(* ===== verification/EntitySpec.v ===== *)
(** * Entity specifications and their catalog

    [er-entity-spec]: the closed vocabulary of column types and stores
    ([types.rs]), the parsed entity ([entity.rs]) and the catalog with the
    validation a catalog is loaded under ([catalog.rs]).  A directory of
    entities is its listing with the text of each [entity.yaml]; the YAML
    parser is a parameter. *)

From S2P Require Dag.
From S2P Require Import Prelude Ids Text.
From Stdlib Require Import Ascii.

#[local] Open Scope rust_scope.

(** ** Definitions *)

(** *** Types *)

Inductive ColumnType :=
| Varchar | Bigint | Double | Boolean | Date | Timestamp | Json | ListVarchar.

#[global] Instance ColumnType_eq_dec : EqDecision ColumnType.
Proof. solve_decision. Defined.

Definition as_yaml (t : ColumnType) : string :=
  match t with
  | Varchar => "varchar"
  | Bigint => "bigint"
  | Double => "double"
  | Boolean => "boolean"
  | Date => "date"
  | Timestamp => "timestamp"
  | Json => "json"
  | ListVarchar => "list<varchar>"
  end.

Definition ducklake_type (t : ColumnType) : string :=
  match t with
  | Varchar => "VARCHAR"
  | Bigint => "BIGINT"
  | Double => "DOUBLE"
  | Boolean => "BOOLEAN"
  | Date => "DATE"
  | Timestamp => "TIMESTAMP"
  | Json => "JSON"
  | ListVarchar => "LIST(VARCHAR)"
  end.

Definition postgres_type (t : ColumnType) : string :=
  match t with
  | Varchar => "text"
  | Bigint => "bigint"
  | Double => "double precision"
  | Boolean => "boolean"
  | Date => "date"
  | Timestamp => "timestamptz"
  | Json => "jsonb"
  | ListVarchar => "text[]"
  end.

Definition rust_type (t : ColumnType) : string :=
  match t with
  | Varchar => "String"
  | Bigint => "i64"
  | Double => "f64"
  | Boolean => "bool"
  | Date => "::chrono::NaiveDate"
  | Timestamp => "::chrono::DateTime<::chrono::Utc>"
  | Json => "::serde_json::Value"
  | ListVarchar => "Vec<String>"
  end.

Definition typescript_type (t : ColumnType) : string :=
  match t with
  | Bigint | Double => "number"
  | Boolean => "boolean"
  | Varchar | Date | Timestamp => "string"
  | Json => "unknown"
  | ListVarchar => "string[]"
  end.

(** [filter(|c| !c.is_whitespace())] on the characters; [skip] counts the
    bytes left of a white-space character. *)
Fixpoint remove_whitespace (skip : nat) (s : string) : string :=
  match s with
  | EmptyString => EmptyString
  | String c s' =>
      match skip with
      | S skip => remove_whitespace skip s'
      | 0 =>
          match ws_len s with
          | S n => remove_whitespace n s'
          | 0 => String c (remove_whitespace 0 s')
          end
      end
  end.

Definition COLUMN_TYPES : list ColumnType :=
  [Varchar; Bigint; Double; Boolean; Date; Timestamp; Json; ListVarchar].

(** The arms of the match, in order; the error carries the spelling. *)
Definition from_str (s : string) : result ColumnType string :=
  let normalized := remove_whitespace 0 s in
  match find_first (λ t, bool_decide (normalized = as_yaml t)) COLUMN_TYPES with
  | Some t => Ok t
  | None => Err s
  end.

Inductive Store := Duckdb | Postgres.
Inductive Language := Rust | Typescript.
Inductive Wire := WireArrow | WireJson.

#[global] Instance Store_eq_dec : EqDecision Store.
Proof. solve_decision. Defined.
#[global] Instance Language_eq_dec : EqDecision Language.
Proof. solve_decision. Defined.
#[global] Instance Wire_eq_dec : EqDecision Wire.
Proof. solve_decision. Defined.

Definition qualifier (s : Store) : string :=
  match s with Duckdb => "lake.main" | Postgres => "public" end.

(** *** Entities *)

Record GenerateBlock := mkGenerate {
  stores : list Store;
  languages : list Language;
  wire : list Wire;
  history : bool;
  append_ : bool;
}.

Record Reference := mkReference { r_relation : string; r_column : string }.

Record Column := mkColumn {
  c_name : string;
  col_type : ColumnType;
  nullable : bool;
  c_description : string;
  volatile : bool;
  c_default : option string;
  serial : bool;
  references : option Reference;
  accepted_values : option (list string);
}.

Record Index := mkIndex {
  i_name : string;
  i_columns : list string;
  unique_ : bool;
  where_ : option string;
}.

Record Entity := mkEntity {
  e_kind : string;
  e_version : Z;
  e_name : string;
  relation_ : string;
  e_description : string;
  key : list string;
  natural_key : list string;
  generate : GenerateBlock;
  columns : list Column;
  indexes : list Index;
}.

#[global] Instance GenerateBlock_eq_dec : EqDecision GenerateBlock.
Proof. solve_decision. Defined.
#[global] Instance Reference_eq_dec : EqDecision Reference.
Proof. solve_decision. Defined.
#[global] Instance Column_eq_dec : EqDecision Column.
Proof. solve_decision. Defined.
#[global] Instance Index_eq_dec : EqDecision Index.
Proof. solve_decision. Defined.
#[global] Instance Entity_eq_dec : EqDecision Entity.
Proof. solve_decision. Defined.

(** [str::strip_suffix]. *)
Definition strip_suffix (suffix s : string) : option string :=
  let n := String.length s - String.length suffix in
  if decide (String.substring n (String.length suffix) s = suffix
             ∧ String.length suffix ≤ String.length s)
  then Some (String.substring 0 n s) else None.

(** The loop over the suffixes that lose their [es]. *)
Fixpoint es_loop (suffixes : list string) (relation : string) : option string :=
  match suffixes with
  | [] => None
  | suffix :: suffixes =>
      match strip_suffix suffix relation with
      | Some stem => Some (stem +:+ String.substring 0 (String.length suffix - 2) suffix)
      | None => es_loop suffixes relation
      end
  end.

Definition singular (relation : string) : string :=
  match strip_suffix "ies" relation with
  | Some stem => stem +:+ "y"
  | None =>
      match es_loop ["ses"; "xes"; "zes"; "ches"; "shes"] relation with
      | Some s => s
      | None =>
          match strip_suffix "s" relation, strip_suffix "ss" relation with
          | Some stem, None => stem
          | _, _ => relation
          end
      end
  end.

Definition column_names (e : Entity) : list string := c_name <$> columns e.

Definition column (e : Entity) (name : string) : option Column :=
  find_first (λ c, bool_decide (c_name c = name)) (columns e).

Definition has_store (e : Entity) (s : Store) : bool := bool_decide (s ∈ stores (generate e)).
Definition has_language (e : Entity) (l : Language) : bool :=
  bool_decide (l ∈ languages (generate e)).
Definition has_wire (e : Entity) (w : Wire) : bool := bool_decide (w ∈ wire (generate e)).

Definition qualify (s : Store) (relation : string) : string := qualifier s +:+ "." +:+ relation.
Definition qualified_name (e : Entity) (s : Store) : string := qualify s (relation_ e).

(** *** The catalog *)

Inductive SpecError :=
| ReadRoot (path : string)
| ReadFile (path : string)
| Parse (path : string)
| Invalid (entity message : string)
| DuplicateRelation (qualified first second : string).

Record Catalog := mkCatalog { entities : list Entity; sources : gmap string string }.

Definition invalid (e : Entity) (message : string) : SpecError := Invalid (e_name e) message.

(** [s.trim().is_empty()]. *)
Definition blank (s : string) : bool := bool_decide (trim s = "").

(** The loop over the columns; [names] are the columns seen. *)
Fixpoint validate_columns (e : Entity) (names : gset string) (l : list Column) :
    result (gset string) SpecError :=
  match l with
  | [] => Ok names
  | c :: l =>
      if decide (c_name c ∈ names) then
        Err (invalid e ("duplicate column " +:+ Dag.debug_str (c_name c)))
      else if blank (c_description c) then
        Err (invalid e ("column " +:+ Dag.debug_str (c_name c) +:+ " needs a description"))
      else if serial c && negb (bool_decide (col_type c = Bigint)) then
        Err (invalid e ("serial column " +:+ Dag.debug_str (c_name c) +:+ " must be of type bigint"))
      else validate_columns e ({[c_name c]} ∪ names) l
  end.

(** The first name that is not a column. *)
Fixpoint validate_names (e : Entity) (what : string) (names : gset string) (l : list string) :
    result unit SpecError :=
  match l with
  | [] => Ok tt
  | c :: l =>
      if decide (c ∈ names) then validate_names e what names l
      else Err (invalid e (what +:+ " column " +:+ Dag.debug_str c +:+ " is not a column"))
  end.

Fixpoint validate_indexes (e : Entity) (names : gset string) (l : list Index) :
    result unit SpecError :=
  match l with
  | [] => Ok tt
  | i :: l => _ <-? validate_names e "index" names (i_columns i); validate_indexes e names l
  end.

Definition validate (e : Entity) : result unit SpecError :=
  if negb (bool_decide (e_kind e = "entity")) then
    Err (invalid e ("kind must be " +:+ Dag.debug_str "entity" +:+ ", got "
                    +:+ Dag.debug_str (e_kind e)))
  else if blank (e_description e) then Err (invalid e "a table description is required")
  else if decide (stores (generate e) = []) then
    Err (invalid e "generate.stores must list at least one store")
  else if decide (languages (generate e) = []) then
    Err (invalid e "generate.languages must list at least one language")
  else if decide (columns e = []) then
    Err (invalid e "an entity must declare at least one column")
  else
    names <-? validate_columns e ∅ (columns e);
    if decide (key e = []) then Err (invalid e "key must name at least one column")
    else
      _ <-? validate_names e "key" names (key e);
      validate_indexes e names (indexes e).

Fixpoint validate_all (l : list Entity) : result unit SpecError :=
  match l with [] => Ok tt | e :: l => _ <-? validate e; validate_all l end.

(** Each relation an entity claims, with the entity's name, in order. *)
Definition claims (l : list Entity) : list (string * string) :=
  e ← l; s ← stores (generate e); [(qualified_name e s, e_name e)].

Fixpoint relations_loop (seen : gmap string string) (l : list (string * string)) :
    result unit SpecError :=
  match l with
  | [] => Ok tt
  | (qualified, name) :: l =>
      match seen !! qualified with
      | Some first => Err (DuplicateRelation qualified first name)
      | None => relations_loop (<[qualified := name]> seen) l
      end
  end.

Definition from_entities (l : list Entity) : result Catalog SpecError :=
  _ <-? validate_all l;
  _ <-? relations_loop ∅ (claims l);
  Ok (mkCatalog l ∅).

Definition by_name (c : Catalog) (name : string) : option Entity :=
  find_first (λ e, bool_decide (e_name e = name)) (entities c).

Definition by_qualified_name (c : Catalog) (s : Store) (relation : string) : option Entity :=
  find_first (λ e, has_store e s && bool_decide (relation_ e = relation)) (entities c).

Definition for_store (c : Catalog) (s : Store) : list Entity :=
  filter (λ e, has_store e s = true) (entities c).

Section load.
(** The YAML parser, and the directory read. *)
Context (from_yaml : string → option Entity) (root : string).

(** A directory below the root: its name and its [entity.yaml], absent, or its
    text, or unreadable. *)
Definition DirEntry : Type := string * option (option string).

Definition yaml_path (dir : string) : string := root +:+ "/" +:+ dir +:+ "/entity.yaml".

Fixpoint load_loop (dirs : list DirEntry) (es : list Entity) (srcs : gmap string string) :
    result (list Entity * gmap string string) SpecError :=
  match dirs with
  | [] => Ok (es, srcs)
  | (_, None) :: dirs => load_loop dirs es srcs
  | (dir, Some None) :: _ => Err (ReadFile (yaml_path dir))
  | (dir, Some (Some text)) :: dirs =>
      match from_yaml text with
      | None => Err (Parse (yaml_path dir))
      | Some e => load_loop dirs (es ++ [e]) (<[e_name e := text]> srcs)
      end
  end.

Definition dir_le (a b : DirEntry) : Prop := String.le a.1 b.1.

#[global] Instance dir_le_dec : RelDecision dir_le.
Proof. intros a b. unfold dir_le. apply _. Defined.

(** [None] is a root that cannot be read. *)
Definition load_dir (listing : option (list DirEntry)) : result Catalog SpecError :=
  match listing with
  | None => Err (ReadRoot root)
  | Some dirs =>
      loaded <-? load_loop (merge_sort dir_le dirs) [] ∅;
      catalog <-? from_entities loaded.1;
      Ok (mkCatalog (entities catalog) loaded.2)
  end.
End load.

(** ** Specification *)

(** What a catalog's consumers rely on, of one entity. *)
Record well_formed (e : Entity) : Prop := {
  wf_kind : e_kind e = "entity";
  wf_description : blank (e_description e) = false;
  wf_stores : stores (generate e) ≠ [];
  wf_languages : languages (generate e) ≠ [];
  wf_columns : columns e ≠ [];
  wf_unique : NoDup (column_names e);
  wf_described : ∀ c, c ∈ columns e → blank (c_description c) = false;
  wf_serial : ∀ c, c ∈ columns e → serial c = true → col_type c = Bigint;
  wf_key : key e ≠ [];
  wf_key_columns : ∀ k, k ∈ key e → k ∈ column_names e;
  wf_index_columns : ∀ i k, i ∈ indexes e → k ∈ i_columns i → k ∈ column_names e;
}.

(** ** Lemmas *)

Lemma as_yaml_inj t u : as_yaml t = as_yaml u → t = u.
Proof. by destruct t, u. Qed.

Lemma elem_of_COLUMN_TYPES t : t ∈ COLUMN_TYPES.
Proof. apply (bool_decide_unpack _). by destruct t. Qed.

Lemma from_str_Ok s t : from_str s = Ok t ↔ remove_whitespace 0 s = as_yaml t.
Proof.
  unfold from_str. destruct (find_first _ _) as [u|] eqn:E.
  - apply find_first_Some in E as [_ Hu%bool_decide_eq_true]. rewrite Hu. split.
    + by intros [= ->].
    + by intros ->%as_yaml_inj.
  - split; [done|]. intros H. rewrite find_first_None in E.
    specialize (E t (elem_of_COLUMN_TYPES t)). by rewrite bool_decide_eq_false in E.
Qed.

Lemma validate_columns_spec e names l :
  match validate_columns e names l with
  | Ok names' =>
      NoDup (c_name <$> l) ∧ names' = list_to_set (c_name <$> l) ∪ names
      ∧ ∀ c, c ∈ l → c_name c ∉ names ∧ blank (c_description c) = false
             ∧ (serial c = true → col_type c = Bigint)
  | Err err =>
      (∃ m, err = invalid e m)
      ∧ ¬ (NoDup (c_name <$> l)
           ∧ ∀ c, c ∈ l → c_name c ∉ names ∧ blank (c_description c) = false
                  ∧ (serial c = true → col_type c = Bigint))
  end.
Proof.
  revert names. induction l as [|c l IH]; intros names; simpl.
  { split_and!; [constructor|set_solver|]. intros c []%not_elem_of_nil. }
  destruct (decide _) as [Hin|Hin].
  { split; [eauto|]. intros [_ H]. destruct (H c) as [? _]; [left|done]. }
  destruct (blank _) eqn:Hb.
  { split; [eauto|]. intros [_ H]. destruct (H c) as (_ & ? & _); [left|congruence]. }
  destruct (serial c && _) eqn:Hs.
  { split; [eauto|]. intros [_ H]. destruct (H c) as (_ & _ & Ht); [left|].
    apply andb_true_iff in Hs as [Hs Hn]. rewrite (bool_decide_eq_true_2 _ (Ht Hs)) in Hn. done. }
  assert (serial c = true → col_type c = Bigint) as Ht.
  { intros Hc. rewrite Hc in Hs. simpl in Hs. by apply negb_false_iff, bool_decide_eq_true in Hs. }
  specialize (IH ({[c_name c]} ∪ names)). destruct (validate_columns _ _ _) as [names'|err].
  - destruct IH as (Hnd & -> & H). split_and!.
    + constructor; [|done]. intros (c' & Hc' & Hl)%list_elem_of_fmap.
      destruct (H c' Hl) as [Hn _]. apply Hn. rewrite <- Hc'. set_solver.
    + set_solver.
    + intros c' [->|Hl]%elem_of_cons; [done|]. destruct (H c' Hl) as (? & ? & ?).
      split_and!; [set_solver|done|done].
  - destruct IH as [He Hn]. split; [done|]. intros [Hnd H]. apply Hn.
    apply NoDup_cons in Hnd as [Hc Hnd]. split; [done|]. intros c' Hl.
    destruct (H c') as (Hc' & ? & ?); [by right|]. split_and!; [|done|done].
    rewrite not_elem_of_union, not_elem_of_singleton. split; [|done].
    intros Heq. apply Hc. rewrite <- Heq. by apply list_elem_of_fmap_2.
Qed.

Lemma validate_names_spec e what names l :
  match validate_names e what names l with
  | Ok _ => ∀ k, k ∈ l → k ∈ names
  | Err err => (∃ m, err = invalid e m) ∧ ∃ k, k ∈ l ∧ k ∉ names
  end.
Proof.
  induction l as [|k l IH]; simpl; [by intros k []%not_elem_of_nil|].
  destruct (decide _) as [Hk|Hk]; [|split; [eauto|]; exists k; split; [left|done]].
  destruct (validate_names _ _ _ _) as [?|err].
  - intros k' [->|?]%elem_of_cons; [done|by apply IH].
  - destruct IH as [He (k' & Hl & Hn)]. split; [done|]. exists k'. split; [by right|done].
Qed.

Lemma validate_indexes_spec e names l :
  match validate_indexes e names l with
  | Ok _ => ∀ i k, i ∈ l → k ∈ i_columns i → k ∈ names
  | Err err => (∃ m, err = invalid e m) ∧ ∃ i k, i ∈ l ∧ k ∈ i_columns i ∧ k ∉ names
  end.
Proof.
  induction l as [|i l IH]; simpl; [by intros i k []%not_elem_of_nil|].
  pose proof (validate_names_spec e "index" names (i_columns i)) as Hn.
  destruct (validate_names _ _ _ _) as [?|err].
  - destruct (validate_indexes _ _ _) as [?|err].
    + intros i' k [->|?]%elem_of_cons; [by apply Hn|by apply IH].
    + destruct IH as [He (i' & k & Hl & Hk & Hnk)]. split; [done|].
      exists i', k. split_and!; [by right|done|done].
  - destruct Hn as [He (k & Hk & Hnk)]. split; [done|]. exists i, k. split_and!; [left|done|done].
Qed.

Lemma validate_spec e :
  match validate e with
  | Ok _ => well_formed e
  | Err err => (∃ m, err = invalid e m) ∧ ¬ well_formed e
  end.
Proof.
  unfold validate. destruct (bool_decide (e_kind e = _)) eqn:Hk; simpl negb; cbn iota;
    [|split; [eauto|]; intros []; by apply bool_decide_eq_false in Hk].
  apply bool_decide_eq_true in Hk.
  destruct (blank (e_description e)) eqn:Hd; [split; [eauto|]; intros []; congruence|].
  do 3 (destruct (decide _) as [?|?]; [split; [eauto|]; by intros []|]).
  pose proof (validate_columns_spec e ∅ (columns e)) as Hc.
  destruct (validate_columns _ _ _) as [names|err].
  2:{ destruct Hc as [He Hn]. split; [done|]. intros []. apply Hn. split; [done|].
      intros c Hl. split_and!; [set_solver|by auto|by auto]. }
  destruct Hc as (Hnd & -> & Hc). rewrite (right_id_L ∅ (∪)).
  destruct (decide (key e = [])) as [?|?]; [split; [eauto|]; by intros []|].
  pose proof (validate_names_spec e "key" (list_to_set (c_name <$> columns e)) (key e)) as Hkey.
  destruct (validate_names _ _ _ _) as [?|err].
  2:{ destruct Hkey as [He (k & Hl & Hn)]. split; [done|]. intros [].
      apply Hn, elem_of_list_to_set. auto. }
  pose proof (validate_indexes_spec e (list_to_set (c_name <$> columns e)) (indexes e)) as Hi.
  destruct (validate_indexes _ _ _) as [?|err].
  - constructor; try done.
    + intros c Hl. apply Hc, Hl.
    + intros c Hl. apply Hc, Hl.
    + intros k Hl. by apply (elem_of_list_to_set (C := gset string)), Hkey.
    + intros i k Hl Hk'. by apply (elem_of_list_to_set (C := gset string)), (Hi i k).
  - destruct Hi as [He (i & k & Hl & Hk' & Hn)]. split; [done|]. intros [].
    apply Hn, elem_of_list_to_set. eauto.
Qed.

Lemma validate_all_spec l :
  match validate_all l with
  | Ok _ => Forall well_formed l
  | Err err => ∃ e m, e ∈ l ∧ ¬ well_formed e ∧ err = invalid e m
  end.
Proof.
  induction l as [|e l IH]; simpl; [constructor|].
  pose proof (validate_spec e) as He. destruct (validate e) as [?|err].
  - destruct (validate_all l) as [?|err]; [by constructor|].
    destruct IH as (e' & m & Hl & H). exists e', m. split; [by right|done].
  - destruct He as [[m ->] Hn]. exists e, m. split_and!; [left|done|done].
Qed.

Lemma relations_loop_spec seen l :
  match relations_loop seen l with
  | Ok _ => NoDup l.*1 ∧ ∀ q, q ∈ l.*1 → seen !! q = None
  | Err err => ∃ q a b l1 l2,
      err = DuplicateRelation q a b ∧ l = l1 ++ (q, b) :: l2
      ∧ (seen !! q = Some a ∨ (q, a) ∈ l1)
  end.
Proof.
  revert seen. induction l as [|[q n] l IH]; intros seen; simpl.
  { split; [constructor|]. by intros q []%not_elem_of_nil. }
  destruct (seen !! q) as [a|] eqn:Hq.
  { exists q, a, n, [], l. split_and!; [done|done|by left]. }
  specialize (IH (<[q := n]> seen)). destruct (relations_loop _ _) as [?|err].
  - destruct IH as [Hnd Hs]. split.
    + constructor; [|done]. intros Hl. specialize (Hs q Hl). by rewrite lookup_insert_eq in Hs.
    + intros q' [->|Hl]%elem_of_cons; [done|]. specialize (Hs q' Hl).
      by apply lookup_insert_None in Hs as [? _].
  - destruct IH as (q' & a & b & l1 & l2 & -> & -> & H). exists q', a, b, ((q, n) :: l1), l2.
    split_and!; [done|done|]. destruct H as [H|H]; [|right; by right].
    apply lookup_insert_Some in H as [[<- <-]|[_ H]]; [right; left|by left].
Qed.

Lemma from_entities_Ok l c :
  from_entities l = Ok c
  ↔ c = mkCatalog l ∅ ∧ Forall well_formed l ∧ NoDup (claims l).*1.
Proof.
  unfold from_entities. pose proof (validate_all_spec l) as Hv.
  pose proof (relations_loop_spec ∅ (claims l)) as Hr.
  destruct (validate_all l) as [?|err].
  - destruct (relations_loop _ _) as [?|err].
    + destruct Hr as [Hnd _]. split; [intros [= <-]; by split_and!|by intros (-> & _)].
    + split; [done|]. intros (_ & _ & Hnd). destruct Hr as (q & a & b & l1 & l2 & _ & E & H).
      rewrite E, fmap_app, fmap_cons in Hnd. apply NoDup_app in Hnd as (_ & Hd & _).
      destruct H as [H|H]; [by rewrite lookup_empty in H|].
      destruct (Hd q); [|left]. by apply (list_elem_of_fmap_2 fst) in H.
  - split; [done|]. intros (_ & Hw & _). destruct Hv as (e & m & Hl & Hn & _).
    rewrite Forall_forall in Hw. by destruct Hn; apply Hw.
Qed.

Lemma elem_of_claims l q n :
  (q, n) ∈ claims l ↔ ∃ e s, e ∈ l ∧ has_store e s = true ∧ q = qualified_name e s ∧ n = e_name e.
Proof.
  unfold claims. rewrite list_elem_of_bind. split.
  - intros (e & H & Hl). apply list_elem_of_bind in H as (s & H & Hs).
    apply list_elem_of_singleton in H as [= -> ->]. exists e, s. unfold has_store.
    by rewrite bool_decide_eq_true.
  - intros (e & s & Hl & Hs & -> & ->). exists e. split; [|done].
    apply list_elem_of_bind. exists s. split; [by apply list_elem_of_singleton|].
    by apply bool_decide_eq_true in Hs.
Qed.

(** The relations of one store are pairwise distinct. *)
Lemma for_store_NoDup l s :
  NoDup (claims l).*1 → NoDup (relation_ <$> for_store (mkCatalog l ∅) s).
Proof.
  unfold for_store. simpl. induction l as [|e l IH]; [constructor|].
  intros Hnd. unfold claims in Hnd. rewrite bind_cons, fmap_app in Hnd.
  fold (claims l) in Hnd. apply NoDup_app in Hnd as (He & Hd & Hnd). specialize (IH Hnd).
  rewrite filter_cons. destruct (decide _) as [Hs|Hs]; [|done]. rewrite fmap_cons.
  constructor; [|done]. intros (e' & Hr & [Hs' Hl]%list_elem_of_filter)%list_elem_of_fmap.
  apply (Hd (qualified_name e s)).
  - apply (list_elem_of_fmap_2' fst _ (qualified_name e s, e_name e)); [|done].
    apply list_elem_of_bind. exists s. split; [by left|]. by apply bool_decide_eq_true in Hs.
  - unfold qualified_name. rewrite Hr.
    apply (list_elem_of_fmap_2' fst _ (qualified_name e' s, e_name e')); [|done].
    apply elem_of_claims. by exists e', s.
Qed.

Section load.
Context (from_yaml : string → option Entity) (root : string).

#[local] Abbreviation load_loop := (load_loop from_yaml root).
#[local] Abbreviation load_dir := (load_dir from_yaml root).

Definition loads (dirs : list DirEntry) (e : Entity) (text : string) : Prop :=
  (∃ d, (d, Some (Some text)) ∈ dirs) ∧ from_yaml text = Some e.

Lemma load_loop_spec dirs es srcs es' srcs' :
  load_loop dirs es srcs = Ok (es', srcs') →
  (∀ e, e ∈ es' ↔ e ∈ es ∨ ∃ text, loads dirs e text)
  ∧ ∀ n text, srcs' !! n = Some text →
      srcs !! n = Some text ∨ ∃ e, loads dirs e text ∧ e_name e = n.
Proof.
  revert es srcs. induction dirs as [|[d [[text|]|]] dirs IH]; intros es srcs; simpl.
  - intros [= <- <-]. split; [|by left]. intros e. split; [by left|].
    intros [?|(t & (d & []%not_elem_of_nil) & _)]. done.
  - destruct (from_yaml text) as [e0|] eqn:Hy; [|done]. intros [He Hs]%IH. split.
    + intros e. rewrite He, elem_of_app, list_elem_of_singleton. unfold loads.
      setoid_rewrite elem_of_cons. naive_solver.
    + intros n t [H|(e & H & Hn)]%Hs; [|right; unfold loads in *; set_solver].
      apply lookup_insert_Some in H as [[<- <-]|[_ H]]; [|by left].
      right. exists e0. split; [|done]. split; [|done]. exists d. left.
  - done.
  - intros [He Hs]%IH. split.
    + intros e. rewrite He. unfold loads. setoid_rewrite elem_of_cons. naive_solver.
    + intros n t [H|(e & [[d' H] Hy] & Hn)]%Hs; [by left|]. right. exists e.
      split; [|done]. split; [|done]. exists d'. by right.
Qed.

#[global] Instance dir_le_total : Total dir_le.
Proof. intros a b. unfold dir_le. apply (total String.le). Qed.

#[global] Instance dir_le_trans : Transitive dir_le.
Proof. intros a b c. unfold dir_le. apply transitivity. Qed.

Lemma merge_sort_dirs dirs dirs' :
  NoDup dirs.*1 → dirs' ≡ₚ dirs → merge_sort dir_le dirs' = merge_sort dir_le dirs.
Proof.
  intros Hnd Hp. apply (StronglySorted_unique_strong dir_le).
  - intros [x1 v1] [x2 v2]. rewrite !merge_sort_Permutation, Hp. intros H1 H2 H3 H4.
    assert (x1 = x2) as -> by (by apply (anti_symm String.le)).
    apply list_elem_of_lookup in H1 as [i Hi]. apply list_elem_of_lookup in H2 as [j Hj].
    assert (i = j) as ->.
    { apply (NoDup_lookup _ i j x2 Hnd); apply list_lookup_fmap_Some; [by exists (x2, v1)|by exists (x2, v2)]. }
    congruence.
  - apply (StronglySorted_merge_sort dir_le).
  - apply (StronglySorted_merge_sort dir_le).
  - by rewrite !merge_sort_Permutation.
Qed.
End load.

(** ** Properties *)

(** A spelling parses to a type exactly when it is that type's YAML spelling
    with white space inserted, so every type round-trips through its spelling
    and a ninth type is refused, with the text as it was written. *)
Theorem column_type_roundtrip s t :
  (from_str s = Ok t ↔ remove_whitespace 0 s = as_yaml t)
  ∧ from_str (as_yaml t) = Ok t
  ∧ (∀ e, from_str s = Err e ↔ e = s ∧ ∀ u, remove_whitespace 0 s ≠ as_yaml u).
Proof.
  split_and!; [apply from_str_Ok|by destruct t|]. intros e. split.
  - intros H. split; [|intros u Hu%from_str_Ok; congruence].
    unfold from_str in H. destruct (find_first _ _); congruence.
  - intros [-> H]. destruct (from_str s) as [u|e] eqn:E.
    + apply from_str_Ok in E. by apply H in E.
    + unfold from_str in E. destruct (find_first _ _); congruence.
Qed.

(** A catalog loads exactly when every entity is well formed and no two
    claims are on the same relation of a store; an error names an entity that is
    not well formed, or two entities that claim the relation it names. *)
Theorem from_entities_correct l :
  (∀ c, from_entities l = Ok c
        ↔ c = mkCatalog l ∅ ∧ Forall well_formed l ∧ NoDup (claims l).*1)
  ∧ ∀ err, from_entities l = Err err →
      (∃ e m, e ∈ l ∧ ¬ well_formed e ∧ err = Invalid (e_name e) m)
      ∨ ∃ q a b, err = DuplicateRelation q a b ∧ (q, a) ∈ claims l ∧ (q, b) ∈ claims l.
Proof.
  split; [apply from_entities_Ok|]. intros err. unfold from_entities.
  pose proof (validate_all_spec l) as Hv. destruct (validate_all l) as [?|e].
  - pose proof (relations_loop_spec ∅ (claims l)) as Hr.
    destruct (relations_loop _ _) as [?|e]; [done|]. intros [= <-].
    destruct Hr as (q & a & b & l1 & l2 & -> & E & H). right. exists q, a, b.
    rewrite E, !elem_of_app. destruct H as [H|H]; [by rewrite lookup_empty in H|].
    split_and!; [done|by left|right; by left].
  - intros [= <-]. left. destruct Hv as (e' & m & Hl & Hn & ->). by exists e', m.
Qed.

(** The order in which a directory is listed does not matter: the same
    entries load the same catalog, which holds the entities of exactly the
    directories with an [entity.yaml], well formed, with the text of one behind
    each name. *)
Theorem load_dir_correct from_yaml root dirs :
  NoDup dirs.*1 →
  (∀ dirs', dirs' ≡ₚ dirs → load_dir from_yaml root (Some dirs') = load_dir from_yaml root (Some dirs))
  ∧ ∀ c, load_dir from_yaml root (Some dirs) = Ok c →
      Forall well_formed (entities c) ∧ NoDup (claims (entities c)).*1
      ∧ (∀ e, e ∈ entities c ↔ ∃ text, loads from_yaml dirs e text)
      ∧ ∀ n text, sources c !! n = Some text → ∃ e, loads from_yaml dirs e text ∧ e_name e = n.
Proof.
  intros Hnd. split.
  { intros dirs' Hp. unfold load_dir. by rewrite (merge_sort_dirs dirs dirs'). }
  intros c. unfold load_dir.
  destruct (load_loop _ _ _ _ _) as [[es srcs]|err] eqn:E; [|done]. simpl.
  destruct (from_entities es) as [c'|err] eqn:F; [|done]. intros [= <-]. simpl.
  apply from_entities_Ok in F as (-> & Hw & Hc). apply load_loop_spec in E as [He Hs].
  assert (∀ e t, loads from_yaml (merge_sort dir_le dirs) e t ↔ loads from_yaml dirs e t) as Hl.
  { intros e t. unfold loads. by setoid_rewrite merge_sort_Permutation. }
  split_and!; [done|done| |].
  - intros e. simpl. rewrite He. setoid_rewrite Hl. split; [|by right].
    by intros [[]%not_elem_of_nil|?].
  - intros n t [H|(e & H & Hn)]%Hs; [by rewrite lookup_empty in H|]. exists e. by rewrite <- Hl.
Qed.

(** ** Samples *)

Module SampleSpec.

Definition col (name : string) (t : ColumnType) (null : bool) : Column :=
  mkColumn name t null "A column." false None false None None.

Definition entity (name relation : string) (cols : list Column) : Entity :=
  mkEntity "entity" 1 name relation "A table." ["id"] []
    (mkGenerate [Postgres] [Rust] [] false false) cols [].

Definition orgs : Entity :=
  entity "org" "orgs" [col "id" Varchar false; col "name" Varchar false].

Definition jobs : Entity :=
  entity "job" "jobs" [col "id" Varchar false; col "state" Varchar true].

(** The text is the relation. *)
Definition yaml (text : string) : option Entity :=
  find_first (λ e, bool_decide (relation_ e = text)) [orgs; jobs].

Definition listing : list DirEntry :=
  [("org", Some (Some "orgs")); ("notes", None); ("job", Some (Some "jobs"))].

Lemma sample_loads :
  load_dir yaml "entities" (Some listing)
  = Ok (mkCatalog [jobs; orgs] {["org" := "orgs"; "job" := "jobs"]}).
Proof. vm_compute. reflexivity. Qed.
End SampleSpec.

Lemma load_dir_correct_witness :
  NoDup SampleSpec.listing.*1
  ∧ Forall well_formed [SampleSpec.jobs; SampleSpec.orgs].
Proof.
  assert (NoDup SampleSpec.listing.*1) as Hnd by (by apply (bool_decide_unpack _)).
  split; [exact Hnd|].
  destruct (load_dir_correct SampleSpec.yaml "entities" SampleSpec.listing Hnd) as [_ H].
  destruct (H _ SampleSpec.sample_loads) as [Hw _]. exact Hw.
Defined.

(** The comment on the parser has every spelling but the list's exact; white
    space is dropped from all of them. *)
Example spaced_spellings_accepted : from_str "big int" = Ok Bigint.
Proof. reflexivity. Qed.

(** Two directories may declare entities of one name: only relations are
    checked, the text of the first is lost and a lookup by name answers one. *)
Example duplicate_names_load :
  let second := SampleSpec.entity "job" "tasks" (columns SampleSpec.jobs) in
  from_entities [SampleSpec.jobs; second] = Ok (mkCatalog [SampleSpec.jobs; second] ∅)
  ∧ by_name (mkCatalog [SampleSpec.jobs; second] ∅) "job" = Some SampleSpec.jobs.
Proof. vm_compute. split; reflexivity. Qed.
