(* ===== verification/EntityGen.v ===== *)
(** * The statements generated from an entity

    The relation registry's types and renderer ([er-schema/src/model.rs]) and
    the emitters of [er-entity-gen] that the differ calls: the conversion of an
    entity into a registry row ([convert.rs]), the lake's [CREATE TABLE]
    ([ddl.rs]) and the control plane's, with indexes and the history companion
    ([pg_ddl.rs]). *)

From S2P Require Import Prelude Versions EntitySpec.
From Stdlib Require Import Ascii.

#[local] Open Scope rust_scope.

(** ** Definitions *)

(** *** The registry's types *)

Definition SCHEMA_QUALIFIER : string := "lake.main".
Definition LIST_VARCHAR : string := "LIST(VARCHAR)".

Definition S5_TYPES : list string :=
  ["VARCHAR"; "BIGINT"; "DOUBLE"; "BOOLEAN"; "DATE"; "TIMESTAMP"; "JSON"; LIST_VARCHAR].

Definition is_valid_type (type_ : string) : bool := bool_decide (type_ ∈ S5_TYPES).

Inductive Owner := Ddl | Stage.

#[global] Instance Owner_eq_dec : EqDecision Owner.
Proof. solve_decision. Defined.

Inductive SchemaError :=
| BadType (column type_ : string)
| DuplicateColumn (relation : string)
| KeyColumnMissing (relation column : string)
| EnumColumnMissing (relation column : string)
| StageOwnedDdl (relation : string).

Record SchemaColumn := mkSchemaColumn { sc_name : string; sc_type : string; sc_nullable : bool }.

Record LogicalKey := mkLogicalKey { lk_columns : list string; lk_where : option string }.

Record TableSpec := mkTableSpec {
  ts_name : string;
  ts_owner : Owner;
  ts_columns : list SchemaColumn;
  ts_keys : list LogicalKey;
  ts_enums : gmap string (gset string);
}.

Definition column_new (name type_ : string) (null : bool) : result SchemaColumn SchemaError :=
  if is_valid_type type_ then Ok (mkSchemaColumn name type_ null) else Err (BadType name type_).

Definition column_sql (c : SchemaColumn) : string :=
  sc_name c +:+ " " +:+ (if decide (sc_type c = LIST_VARCHAR) then "VARCHAR[]" else sc_type c)
  +:+ (if sc_nullable c then "" else " NOT NULL").

(** The first name of [l] that is not among [names]. *)
Definition missing (names l : list string) : option string :=
  find_first (λ c, negb (bool_decide (c ∈ names))) l.

Fixpoint check_keys (names : list string) (keys : list LogicalKey) : option string :=
  match keys with
  | [] => None
  | k :: keys =>
      match missing names (lk_columns k) with
      | Some c => Some c
      | None => check_keys names keys
      end
  end.

Definition table_spec_new (name : string) (owner : Owner) (cols : list SchemaColumn)
    (keys : list LogicalKey) (enums : gmap string (gset string)) : result TableSpec SchemaError :=
  let names := sc_name <$> cols in
  if negb (bool_decide (size (list_to_set names : gset string) = length names)) then
    Err (DuplicateColumn name)
  else
    match check_keys names keys with
    | Some c => Err (KeyColumnMissing name c)
    | None =>
        match missing names (set_sorted (dom enums)) with
        | Some c => Err (EnumColumnMissing name c)
        | None => Ok (mkTableSpec name owner cols keys enums)
        end
    end.

(** A line break, and the text between two columns. *)
Definition newline : string := String (ascii_of_nat 10) EmptyString.
Definition comma_line : string := "," +:+ newline.

Definition registry_table_sql (spec : TableSpec) : result string SchemaError :=
  if negb (bool_decide (ts_owner spec = Ddl)) then Err (StageOwnedDdl (ts_name spec))
  else
    let body := join_with comma_line ((λ c, "  " +:+ column_sql c) <$> ts_columns spec) in
    Ok ("CREATE TABLE IF NOT EXISTS " +:+ SCHEMA_QUALIFIER +:+ "." +:+ ts_name spec +:+ " ("
        +:+ newline +:+ body +:+ newline +:+ ");").

(** *** Conversion *)

Inductive ConvertError :=
| WrongStore (entity : string) (s : Store)
| Schema (e : SchemaError).

(** [collect] into a [Result]: the first error wins. *)
Fixpoint columns_new (l : list Column) : result (list SchemaColumn) SchemaError :=
  match l with
  | [] => Ok []
  | c :: l =>
      x <-? column_new (c_name c) (ducklake_type (col_type c)) (nullable c);
      xs <-? columns_new l;
      Ok (x :: xs)
  end.

Definition logical_keys (e : Entity) : list LogicalKey :=
  mkLogicalKey (key e) None
  :: (if decide (natural_key e = []) then [] else [mkLogicalKey (natural_key e) None]).

Definition enums_of (e : Entity) : gmap string (gset string) :=
  foldl (λ m c, match accepted_values c with
                | Some values => <[c_name c := list_to_set values]> m
                | None => m
                end) ∅ (columns e).

(** An error of the registry, as the conversion's. *)
Definition schema {T} (r : result T SchemaError) : result T ConvertError :=
  match r with Ok x => Ok x | Err e => Err (Schema e) end.

Definition to_lake_table_spec (e : Entity) : result TableSpec ConvertError :=
  if negb (has_store e Duckdb) then Err (WrongStore (e_name e) Duckdb)
  else
    cols <-? schema (columns_new (columns e));
    schema (table_spec_new (relation_ e) Ddl cols (logical_keys e) (enums_of e)).

(** *** Emitters *)

Definition emit_lake_ddl (e : Entity) : result string ConvertError :=
  spec <-? to_lake_table_spec e;
  schema (registry_table_sql spec).

(** [str::replace] of a one-character pattern. *)
Fixpoint replace_char (c : ascii) (by_ s : string) : string :=
  match s with
  | EmptyString => EmptyString
  | String d s => (if decide (d = c) then by_ else String d EmptyString) +:+ replace_char c by_ s
  end.

Definition quoted (v : string) : string := "'" +:+ replace_char "'" "''" v +:+ "'".

Definition pg_column (c : Column) : string :=
  "  " +:+ c_name c +:+ " " +:+ (if serial c then "bigserial" else postgres_type (col_type c))
  +:+ (if nullable c then "" else " NOT NULL")
  +:+ match c_default c with Some d => " DEFAULT " +:+ d | None => "" end
  +:+ match references c with
      | Some r => " REFERENCES " +:+ r_relation r +:+ "(" +:+ r_column r +:+ ")"
      | None => ""
      end
  +:+ match accepted_values c with
      | Some values =>
          " CHECK (" +:+ c_name c +:+ " IN (" +:+ join_with ", " (quoted <$> values) +:+ "))"
      | None => ""
      end.

Definition pg_index (e : Entity) (i : Index) : string :=
  "CREATE " +:+ (if unique_ i then "UNIQUE " else "") +:+ "INDEX IF NOT EXISTS " +:+ i_name i
  +:+ " ON public." +:+ relation_ e +:+ " (" +:+ join_with ", " (i_columns i) +:+ ")"
  +:+ match where_ i with Some w => " WHERE " +:+ w | None => "" end +:+ ";" +:+ newline.

Definition history_relation (relation : string) : string := relation +:+ "_history".

Definition emit_history_companion_ddl (e : Entity) : option string :=
  if negb (history (generate e)) then None
  else
    let r := relation_ e in
    Some ("CREATE TABLE IF NOT EXISTS public." +:+ r +:+ "_history (" +:+ newline
          +:+ "  history_id bigserial NOT NULL," +:+ newline
          +:+ "  row_id text NOT NULL," +:+ newline
          +:+ "  op text NOT NULL CHECK (op IN ('insert', 'update', 'delete'))," +:+ newline
          +:+ "  changed_at timestamptz NOT NULL DEFAULT now()," +:+ newline
          +:+ "  actor text NOT NULL," +:+ newline
          +:+ "  old_row jsonb," +:+ newline
          +:+ "  new_row jsonb," +:+ newline
          +:+ "  PRIMARY KEY (history_id)" +:+ newline +:+ ");" +:+ newline
          +:+ "CREATE INDEX IF NOT EXISTS " +:+ r +:+ "_history_row_id ON public." +:+ r
          +:+ "_history (row_id);" +:+ newline
          +:+ "CREATE INDEX IF NOT EXISTS " +:+ r +:+ "_history_changed_at ON public." +:+ r
          +:+ "_history (changed_at);" +:+ newline
          +:+ "CREATE OR REPLACE TRIGGER er_history_" +:+ r +:+ newline
          +:+ "  AFTER INSERT OR UPDATE OR DELETE ON public." +:+ r +:+ newline
          +:+ "  FOR EACH ROW EXECUTE FUNCTION public.er_history('" +:+ r +:+ "_history');"
          +:+ newline).

Definition pg_lines (e : Entity) : list string :=
  (pg_column <$> columns e)
  ++ ["  PRIMARY KEY (" +:+ join_with ", " (key e) +:+ ")"]
  ++ (if decide (natural_key e = []) then []
      else ["  UNIQUE (" +:+ join_with ", " (natural_key e) +:+ ")"]).

Definition emit_postgres_ddl (e : Entity) : result string ConvertError :=
  if negb (has_store e Postgres) then Err (WrongStore (e_name e) Postgres)
  else
    Ok ("CREATE TABLE IF NOT EXISTS public." +:+ relation_ e +:+ " (" +:+ newline
        +:+ join_with comma_line (pg_lines e) +:+ newline +:+ ");" +:+ newline
        +:+ join_with "" (pg_index e <$> indexes e)
        +:+ default "" (emit_history_companion_ddl e)).

(** ** Specification *)

(** A column of the lake's table, as DuckDB spells it. *)
Definition lake_column (c : Column) : SchemaColumn :=
  mkSchemaColumn (c_name c) (ducklake_type (col_type c)) (nullable c).

Definition lake_text (e : Entity) : string :=
  "CREATE TABLE IF NOT EXISTS lake.main." +:+ relation_ e +:+ " (" +:+ newline
  +:+ join_with comma_line ((λ c, "  " +:+ column_sql (lake_column c)) <$> columns e)
  +:+ newline +:+ ");".

Definition natural_key_ok (e : Entity) : Prop := ∀ k, k ∈ natural_key e → k ∈ column_names e.

(** ** Lemmas *)

Lemma missing_None names l : missing names l = None ↔ ∀ c, c ∈ l → c ∈ names.
Proof.
  unfold missing. rewrite find_first_None. split; intros H c Hc; specialize (H c Hc).
  - by apply negb_false_iff, bool_decide_eq_true in H.
  - by rewrite bool_decide_eq_true_2.
Qed.

Lemma columns_new_Ok l : columns_new l = Ok (lake_column <$> l).
Proof.
  induction l as [|c l IH]; simpl; [done|]. unfold column_new.
  assert (is_valid_type (ducklake_type (col_type c)) = true) as -> by (by destruct (col_type c)).
  by rewrite IH.
Qed.

Lemma enums_of_dom e c : c ∈ dom (enums_of e) → c ∈ column_names e.
Proof.
  unfold enums_of, column_names. induction (columns e) as [|x l IH] using rev_ind.
  { simpl. rewrite dom_empty_L. set_solver. }
  rewrite foldl_app, fmap_app, elem_of_app. simpl. destruct (accepted_values x).
  - rewrite dom_insert_L, elem_of_union, elem_of_singleton, list_elem_of_singleton. naive_solver.
  - auto.
Qed.

Lemma to_lake_table_spec_eq e :
  well_formed e → has_store e Duckdb = true →
  to_lake_table_spec e
  = match missing (column_names e) (natural_key e) with
    | Some k => Err (Schema (KeyColumnMissing (relation_ e) k))
    | None =>
        Ok (mkTableSpec (relation_ e) Ddl (lake_column <$> columns e) (logical_keys e) (enums_of e))
    end.
Proof.
  intros Hw Hs. unfold to_lake_table_spec. rewrite Hs, columns_new_Ok. simpl.
  unfold table_spec_new.
  assert (sc_name <$> (lake_column <$> columns e) = column_names e) as ->
    by (symmetry; exact (list_fmap_compose lake_column sc_name (columns e))).
  rewrite bool_decide_eq_true_2 by apply size_list_to_set, Hw. simpl negb. cbn iota.
  assert (check_keys (column_names e) (logical_keys e) = missing (column_names e) (natural_key e))
    as ->.
  { unfold logical_keys. simpl. rewrite (proj2 (missing_None _ (key e))) by apply Hw.
    destruct (decide _) as [->|]; [done|]. simpl. by destruct (missing _ _). }
  destruct (missing _ (natural_key e)); [done|].
  rewrite (proj2 (missing_None _ (set_sorted _))); [done|].
  intros c. rewrite elem_of_set_sorted. apply enums_of_dom.
Qed.

Lemma emit_lake_ddl_eq e :
  well_formed e → has_store e Duckdb = true →
  emit_lake_ddl e
  = match missing (column_names e) (natural_key e) with
    | Some k => Err (Schema (KeyColumnMissing (relation_ e) k))
    | None => Ok (lake_text e)
    end.
Proof.
  intros Hw Hs. unfold emit_lake_ddl. rewrite to_lake_table_spec_eq by done.
  destruct (missing _ _); [done|]. unfold registry_table_sql, lake_text, schema.
  cbn [ts_owner ts_name ts_columns]. by rewrite <- list_fmap_compose.
Qed.

(** ** Properties *)

(** The lake statement of a well-formed entity is its columns in declaration
    order with their types and [NOT NULL]s; it is refused exactly when the
    entity is not on the lake or its natural key names a column it has not, which
    the catalog does not check: the first such column is named. *)
Theorem emit_lake_ddl_correct e :
  well_formed e →
  (emit_lake_ddl e = Err (WrongStore (e_name e) Duckdb) ↔ has_store e Duckdb = false)
  ∧ (∀ text, emit_lake_ddl e = Ok text
             ↔ has_store e Duckdb = true ∧ natural_key_ok e ∧ text = lake_text e)
  ∧ (∀ k, emit_lake_ddl e = Err (Schema (KeyColumnMissing (relation_ e) k)) →
      k ∈ natural_key e ∧ k ∉ column_names e).
Proof.
  intros Hw. destruct (has_store e Duckdb) eqn:Hs.
  - rewrite (emit_lake_ddl_eq e Hw Hs).
    assert (natural_key_ok e ↔ missing (column_names e) (natural_key e) = None) as Hn
      by (symmetry; apply missing_None).
    setoid_rewrite Hn.
    destruct (missing _ _) as [k|] eqn:Hm; split_and!; try naive_solver.
    intros k' [= <-]. unfold missing in Hm. apply find_first_Some in Hm as [Hk Hm]. split; [done|].
    by apply negb_true_iff, bool_decide_eq_false in Hm.
  - unfold emit_lake_ddl, to_lake_table_spec. rewrite Hs. simpl. naive_solver.
Qed.

Module SampleGen.

Definition runs : Entity :=
  mkEntity "entity" 1 "run" "runs" "A run." ["id"] ["mode"]
    (mkGenerate [Duckdb] [Rust] [] false false)
    [SampleSpec.col "id" Varchar false; SampleSpec.col "mode" Varchar true] [].

Lemma runs_well_formed : well_formed runs.
Proof.
  pose proof (validate_spec runs) as H. assert (validate runs = Ok tt) as E by reflexivity.
  by rewrite E in H.
Qed.
End SampleGen.

Lemma emit_lake_ddl_correct_witness :
  well_formed SampleGen.runs ∧ has_store SampleGen.runs Duckdb = true
  ∧ emit_lake_ddl SampleGen.runs = Ok (lake_text SampleGen.runs).
Proof.
  split_and!; [exact SampleGen.runs_well_formed|reflexivity|].
  apply (emit_lake_ddl_correct SampleGen.runs SampleGen.runs_well_formed).
  split_and!; [reflexivity| |reflexivity].
  intros k Hk. apply (bool_decide_unpack _). revert k Hk.
  assert (Forall (λ k, bool_decide (k ∈ column_names SampleGen.runs)) (natural_key SampleGen.runs)) as H
    by (apply (bool_decide_unpack _); reflexivity).
  by rewrite Forall_forall in H.
Defined.

(** A natural key that names no column passes the catalog and leaves the lake's
    plan with an empty statement, which applies and is recorded. *)
Definition misspelt : Entity :=
  mkEntity "entity" 1 "run" "runs" "A run." ["id"] ["mood"]
    (mkGenerate [Duckdb] [Rust] [] false false) (columns SampleGen.runs) [].

Example misspelt_natural_key_loads :
  from_entities [misspelt] = Ok (mkCatalog [misspelt] ∅)
  ∧ emit_lake_ddl misspelt = Err (Schema (KeyColumnMissing "runs" "mood")).
Proof. split; reflexivity. Qed.
