(* ===== verification/EntityDiff.v ===== *)
(** * The catalog differ and its migration plans

    [er-entity-diff]: the comparison of a live store with the catalog
    ([lib.rs]), the order of the created tables and the plan of safe statements
    ([migrate.rs]) and the types a live read reports ([postgres.rs],
    [lake.rs]).  A live store is the map from its relations to the columns its
    information schema lists.

    The specification gives each planned statement the effect its text has on
    the columns a store reports, so that applying a plan can be spoken of. *)

From S2P Require Import Prelude Ids Sql Text EntitySpec EntityGen.
From Stdlib Require Import Ascii.

(** ** Definitions *)

(** *** The differ *)

Record LiveColumn := mkLive { l_name : string; type_name : string; l_nullable : bool }.

Inductive Severity := Safe | Breaking | Ahead.

#[global] Instance Severity_eq_dec : EqDecision Severity.
Proof. solve_decision. Defined.

Record DiffItem := mkDiff { d_relation : string; severity : Severity; message : string }.

#[local] Abbreviation Live := (gmap string (list LiveColumn)).

Definition normalize_pg_type (data_type : string) : string :=
  if decide (data_type = "timestamp with time zone") then "timestamptz"
  else if decide (data_type = "timestamp without time zone") then "timestamp"
  else if decide (data_type = "character varying") then "text"
  else if decide (data_type = "ARRAY") then "text[]"
  else data_type.

Definition normalize_lake_type (data_type : string) : string :=
  if decide (data_type = "VARCHAR[]") then "LIST(VARCHAR)" else data_type.

Definition expected_pg_type (c : Column) : string := postgres_type (col_type c).

Definition expected_type (s : Store) (c : Column) : string :=
  match s with Postgres => expected_pg_type c | Duckdb => ducklake_type (col_type c) end.

Definition live_by_name (live_cols : list LiveColumn) : gmap string LiveColumn :=
  map_collect ((λ c, (l_name c, c)) <$> live_cols).

Definition diff_column (s : Store) (e : Entity) (by_name : gmap string LiveColumn) (c : Column) :
    list DiffItem :=
  let item sev msg := mkDiff (qualify s (relation_ e)) sev msg in
  match by_name !! c_name c with
  | None =>
      [item (if nullable c then Safe else Breaking)
         ("column " +:+ c_name c +:+ " is absent; add column")]
  | Some live =>
      (if decide (type_name live = expected_type s c) then []
       else [item Breaking ("column " +:+ c_name c +:+ ": type " +:+ type_name live
                            +:+ " -> " +:+ expected_type s c)])
      ++ (if l_nullable live && negb (nullable c)
          then [item Breaking ("column " +:+ c_name c +:+ ": nullable -> NOT NULL")] else [])
  end.

Definition diff_extra (s : Store) (e : Entity) (live : LiveColumn) : list DiffItem :=
  if decide (l_name live ∈ column_names e) then []
  else [mkDiff (qualify s (relation_ e)) Ahead
          ("column " +:+ l_name live +:+ " is in the live store but not declared")].

Definition diff_entity (s : Store) (e : Entity) (live_cols : list LiveColumn) : list DiffItem :=
  (columns e ≫= diff_column s e (live_by_name live_cols)) ++ (live_cols ≫= diff_extra s e).

Definition diff_relation (s : Store) (live : Live) (e : Entity) : list DiffItem :=
  match live !! relation_ e with
  | None =>
      [mkDiff (qualify s (relation_ e)) Safe
         ("relation " +:+ relation_ e +:+ " is absent; create table")]
  | Some live_cols => diff_entity s e live_cols
  end.

Definition diff_companion (s : Store) (live : Live) (e : Entity) : list DiffItem :=
  if negb (history (generate e)) then []
  else
    let companion := history_relation (relation_ e) in
    match live !! companion with
    | Some _ => []
    | None =>
        [mkDiff (qualify s companion) Safe
           ("history companion " +:+ companion +:+ " is absent; create companion + trigger")]
    end.

Definition diff_store (c : Catalog) (s : Store) (live : Live) : list DiffItem :=
  (for_store c s ≫= diff_relation s live)
  ++ (if decide (s = Postgres) then for_store c s ≫= diff_companion s live else []).

Definition postgres_relations (c : Catalog) : list string :=
  e ← for_store c Postgres;
  relation_ e :: (if history (generate e) then [history_relation (relation_ e)] else []).

Definition catalog_without (c : Catalog) (s : Store) (skip : gset string) :
    result Catalog SpecError :=
  from_entities (filter (λ e, relation_ e ∉ skip) (for_store c s)).

(** *** The order of the tables *)

Definition by_relation (l : list Entity) : gmap string Entity :=
  map_collect ((λ e, (relation_ e, e)) <$> l).

Section visit.
Context (by_rel : gmap string Entity).

Definition Visit : Type := gset string * list Entity.

(** The loop over the columns, with the recursive call it makes. *)
Fixpoint visit_columns (visit : Entity → Visit → option Visit) (cols : list Column) (st : Visit) :
    option Visit :=
  match cols with
  | [] => Some st
  | c :: cols =>
      st ← match references c ≫= λ r, by_rel !! r_relation r with
           | Some dep => visit dep st
           | None => Some st
           end;
      visit_columns visit cols st
  end.

(** [None] is the recursion bound, which [topo_order] never meets. *)
Fixpoint visit (fuel : nat) (e : Entity) (st : Visit) : option Visit :=
  match fuel with
  | 0 => None
  | S fuel =>
      if decide (relation_ e ∈ st.1) then Some st
      else
        st ← visit_columns (visit fuel) (columns e) ({[relation_ e]} ∪ st.1, st.2);
        Some (st.1, st.2 ++ [e])
  end.

Fixpoint visit_all (fuel : nat) (l : list Entity) (st : Visit) : option Visit :=
  match l with
  | [] => Some st
  | e :: l => st ← visit fuel e st; visit_all fuel l st
  end.
End visit.

Definition topo_order (l : list Entity) : option (list Entity) :=
  let by_rel := by_relation l in
  snd <$> visit_all by_rel (S (size by_rel)) l (∅, []).

(** *** The plan *)

Record Planned := mkPlanned { p_relation : string; sql : string }.

Record MigrationPlan := mkPlan {
  statements : list Planned;
  breaking : list DiffItem;
  ahead : list DiffItem;
}.

Definition is_empty (p : MigrationPlan) : bool :=
  match statements p, breaking p with [], [] => true | _, _ => false end.

Definition add_column_sql (s : Store) (relation : string) (c : Column) : string :=
  match s with
  | Duckdb =>
      "ALTER TABLE lake.main." +:+ relation +:+ " ADD COLUMN " +:+ c_name c +:+ " "
      +:+ ducklake_type (col_type c) +:+ ";"
  | Postgres =>
      "ALTER TABLE public." +:+ relation +:+ " ADD COLUMN " +:+ c_name c +:+ " "
      +:+ postgres_type (col_type c)
      +:+ match c_default c with Some d => " DEFAULT " +:+ d | None => "" end +:+ ";"
  end.

Definition create_table_sql (s : Store) (e : Entity) : string :=
  match s with
  | Duckdb => match emit_lake_ddl e with Ok text => text +:+ ";" | Err _ => "" end
  | Postgres => match emit_postgres_ddl e with Ok text => text | Err _ => "" end
  end.

(** The columns a plan adds to a live relation. *)
Definition to_add (e : Entity) (cols : list LiveColumn) : list Column :=
  filter (λ c, c_name c ∉ l_name <$> cols ∧ nullable c = true) (columns e).

(** Whether the history companion of a live entity is missing. *)
Definition lacks_companion (s : Store) (live : Live) (e : Entity) : bool :=
  bool_decide (s = Postgres) && history (generate e)
  && bool_decide (live !! history_relation (relation_ e) = None).

(** One turn of the loop: the statements, and whether they call the trigger
    function. *)
Definition plan_entity (s : Store) (live : Live) (e : Entity) : list Planned * bool :=
  match live !! relation_ e with
  | None =>
      ([mkPlanned (qualify s (relation_ e)) (create_table_sql s e)],
       bool_decide (s = Postgres) && history (generate e))
  | Some cols =>
      let added :=
        (λ c, mkPlanned (qualify s (relation_ e)) (add_column_sql s (relation_ e) c))
          <$> to_add e cols in
      match (if lacks_companion s live e then emit_history_companion_ddl e else None) with
      | Some companion =>
          (added ++ [mkPlanned (qualify s (history_relation (relation_ e))) companion], true)
      | None => (added, false)
      end
  end.

Section plan.
(** The text of the trigger function every companion calls. *)
Context (history_prelude : string).

Definition prelude_statement : Planned := mkPlanned "public.er_history()" history_prelude.

Definition plan_migration (c : Catalog) (s : Store) (live : Live) : option MigrationPlan :=
  ordered ← topo_order (for_store c s);
  let diffs := filter (λ d, severity d ≠ Safe) (diff_store c s live) in
  let planned := plan_entity s live <$> ordered in
  let body := mjoin (fst <$> planned) in
  Some (mkPlan
          (if existsb snd planned then prelude_statement :: body else body)
          (filter (λ d, severity d = Breaking) diffs)
          (filter (λ d, severity d ≠ Breaking) diffs)).
End plan.

(** ** Lemmas: the order of the tables *)

Lemma by_relation_lookup l r e :
  NoDup (relation_ <$> l) → by_relation l !! r = Some e ↔ e ∈ l ∧ relation_ e = r.
Proof.
  intros Hnd. unfold by_relation. rewrite map_collect_lookup.
  - rewrite list_elem_of_fmap. split.
    + by intros (x & [= -> ->] & ?).
    + intros [Hl <-]. by exists e.
  - by rewrite <- list_fmap_compose.
Qed.

(** [y] is another table of the map that a column of [x] references. *)
Definition dep (by_rel : gmap string Entity) (x y : Entity) : Prop :=
  ∃ c r, c ∈ columns x ∧ references c = Some r ∧ by_rel !! r_relation r = Some y ∧ y ≠ x.

Definition acyclic (by_rel : gmap string Entity) : Prop := ∀ x, ¬ tc (dep by_rel) x x.

Lemma acyclic_rank by_rel (rank : Entity → nat) :
  (∀ x y, dep by_rel x y → rank y < rank x) → acyclic by_rel.
Proof.
  intros H. assert (∀ x y, tc (dep by_rel) x y → rank y < rank x) as Hr.
  { intros x y. induction 1 as [x y Hd|x y z Hd _ IH]; [by apply H|]. apply H in Hd. lia. }
  intros x Hx. specialize (Hr x x Hx). lia.
Qed.

Section visit.
Context (by_rel : gmap string Entity).
Hypothesis by_rel_key : ∀ r e, by_rel !! r = Some e → relation_ e = r.

Definition known (e : Entity) : Prop := by_rel !! relation_ e = Some e.

(** Every table of the list comes after the tables it references. *)
Definition referenced_first (l : list Entity) : Prop :=
  ∀ l1 x l2, l = l1 ++ x :: l2 → ∀ y, dep by_rel x y → y ∈ l1.

Definition rels (l : list Entity) : gset string := list_to_set (relation_ <$> l).

(** What one visit, or a loop of visits, does to the state. *)
Definition visits (st : Visit) (res : option Visit) (marked : gset string) : Prop :=
  ∃ new, res = Some (st.1 ∪ rels new, st.2 ++ new)
    ∧ NoDup (relation_ <$> new) ∧ (∀ r, r ∈ rels new → r ∉ st.1) ∧ Forall known new
    ∧ marked ⊆ st.1 ∪ rels new
    ∧ (acyclic by_rel → referenced_first st.2 → referenced_first (st.2 ++ new)).

(** Under [e], a marked relation is either listed or still open. *)
Definition open_under (e : Entity) (st : Visit) : Prop :=
  ∀ r, r ∈ st.1 → r ∈ rels st.2 ∨ ∃ x, by_rel !! r = Some x ∧ tc (dep by_rel) x e.

Lemma elem_of_rels l r : r ∈ rels l ↔ ∃ e, relation_ e = r ∧ e ∈ l.
Proof.
  unfold rels. rewrite elem_of_list_to_set, list_elem_of_fmap. naive_solver.
Qed.

Lemma rels_app l1 l2 : rels (l1 ++ l2) = rels l1 ∪ rels l2.
Proof. unfold rels. by rewrite fmap_app, list_to_set_app_L. Qed.

Lemma known_inj x y : known x → known y → relation_ x = relation_ y → x = y.
Proof. unfold known. intros Hx Hy E. rewrite E in Hx. congruence. Qed.

Lemma dep_known x y : dep by_rel x y → known y.
Proof.
  intros (c & r & _ & _ & H & _). unfold known. by rewrite (by_rel_key _ _ H).
Qed.

Lemma referenced_first_snoc l x :
  referenced_first l → (∀ y, dep by_rel x y → y ∈ l) → referenced_first (l ++ [x]).
Proof.
  intros Hl Hx l1 z l2 E y Hy. destruct l2 as [|w l2 _] using rev_ind.
  - apply app_inj_tail in E as [-> ->]. by apply Hx.
  - rewrite app_comm_cons, app_assoc in E. apply app_inj_tail in E as [-> _].
    by apply (Hl l1 z l2).
Qed.

Lemma tc_known x y : tc (dep by_rel) x y → known y.
Proof. induction 1 as [x y Hd|x y z _ _ IH]; [by apply (dep_known x)|done]. Qed.

Lemma visits_nothing st marked : marked ⊆ st.1 → visits st (Some st) marked.
Proof.
  intros H. exists []. destruct st as [V O]. simpl in *.
  change (rels []) with (∅ : gset string). rewrite (right_id_L ∅ (∪)), app_nil_r.
  split_and!; [done|constructor|set_solver|constructor|done|auto].
Qed.

Lemma visits_seq st res f marked marked' :
  visits st res marked →
  (∀ new, res = Some (st.1 ∪ rels new, st.2 ++ new) → Forall known new →
     visits (st.1 ∪ rels new, st.2 ++ new) (f (st.1 ∪ rels new, st.2 ++ new)) marked') →
  visits st (res ≫= f) (marked ∪ marked').
Proof.
  intros (new & -> & Hnd & Hf & Hk & Hm & Hc) Hn.
  destruct (Hn new eq_refl Hk) as (new' & E & Hnd' & Hf' & Hk' & Hm' & Hc').
  cbn [mbind option_bind]. rewrite E. exists (new ++ new'). cbn [fst snd] in *.
  rewrite rels_app, (assoc_L (∪)), (assoc_L (++)). split_and!; [done| | | | |auto].
  - rewrite fmap_app. apply NoDup_app. split_and!; [done| |done].
    intros r Hr Hr'. apply (Hf' r); [by apply elem_of_list_to_set|].
    apply elem_of_union_r. by apply elem_of_list_to_set.
  - intros r [Hr|Hr]%elem_of_union; [by apply Hf|]. apply Hf' in Hr. set_solver.
  - by apply Forall_app.
  - set_solver.
Qed.

(** The tables the references of some columns lead to. *)
Definition targets (cols : list Column) : gset string :=
  list_to_set (omap (λ c, r ← references c; relation_ <$> by_rel !! r_relation r) cols).

Lemma target_of_dep x y : dep by_rel x y → relation_ y ∈ targets (columns x).
Proof.
  intros (c & r & Hc & Hr & Hy & _). apply elem_of_list_to_set, list_elem_of_omap.
  exists c. split; [done|]. rewrite Hr. simpl. by rewrite Hy.
Qed.

Definition open_in (e : Entity) (st : Visit) : Prop :=
  ∀ r, r ∈ st.1 →
    r ∈ rels st.2 ∨ ∃ x, by_rel !! r = Some x ∧ (x = e ∨ tc (dep by_rel) x e).

Lemma open_in_app e V O new :
  open_in e (V, O) → open_in e (V ∪ rels new, O ++ new).
Proof.
  intros H r. cbn [fst snd]. rewrite rels_app. intros [Hr|Hr]%elem_of_union.
  - destruct (H r Hr) as [?|?]; [left; set_solver|by right].
  - left. set_solver.
Qed.

Lemma open_in_under e y st : dep by_rel e y → open_in e st → open_under y st.
Proof.
  intros Hd H r Hr. destruct (H r Hr) as [?|(x & Hx & Ht)]; [by left|]. right. exists x.
  split; [done|]. destruct Ht as [->|Ht]; [by constructor|]. by eapply tc_r.
Qed.

Lemma visit_columns_spec v e V0 cols st :
  known e → relation_ e ∈ V0 → V0 ⊆ st.1 → (∀ c, c ∈ cols → c ∈ columns e) → open_in e st →
  Forall known st.2 →
  (∀ y st', known y → V0 ⊆ st'.1 → Forall known st'.2 → relation_ y ∈ st'.1 ∨ open_under y st' →
     visits st' (v y st') {[relation_ y]}) →
  visits st (visit_columns by_rel v cols st) (targets cols).
Proof.
  intros He HeV. revert st. induction cols as [|c cols IH]; intros [V O] HV Hcols Ho HO Hv.
  { by apply visits_nothing. }
  set (first := match references c ≫= λ r, by_rel !! r_relation r with
                | Some dep => v dep (V, O) | None => Some (V, O) end).
  assert (visits (V, O) first
            (default ∅ (r ← references c; singleton ∘ relation_ <$> by_rel !! r_relation r)))
    as Hfirst.
  { unfold first. destruct (references c) as [r|] eqn:Hr; simpl; [|by apply visits_nothing].
    destruct (by_rel !! r_relation r) as [y|] eqn:Hy; simpl; [|by apply visits_nothing].
    assert (known y) as Hky by (unfold known; by rewrite (by_rel_key _ _ Hy)).
    apply Hv; [done|done|done|]. destruct (decide (y = e)) as [->|Hne]; [left; set_solver|].
    right. apply (open_in_under e); [|done]. exists c, r. split_and!; [|done|done|done].
    apply Hcols. by left. }
  replace (targets (c :: cols))
    with (default ∅ (r ← references c; singleton ∘ relation_ <$> by_rel !! r_relation r)
          ∪ targets cols).
  2:{ unfold targets. simpl. destruct (references c) as [r|]; simpl; [|set_solver].
      destruct (by_rel !! r_relation r); simpl; [done|set_solver]. }
  apply (visits_seq _ _ (visit_columns by_rel v cols) _ _ Hfirst). intros new _ Hnew. apply IH.
  - set_solver.
  - intros c' Hc'. apply Hcols. by right.
  - by apply open_in_app.
  - by apply Forall_app.
  - done.
Qed.

Lemma size_unmarked V r :
  r ∈ (dom by_rel : gset string) → r ∉ V →
  size (dom by_rel ∖ ({[r]} ∪ V)) < size (dom by_rel ∖ V).
Proof. intros Hd HV. apply subset_size. set_solver. Qed.

Lemma visit_spec fuel e st :
  known e → size (dom by_rel ∖ st.1) < fuel → relation_ e ∈ st.1 ∨ open_under e st →
  Forall known st.2 →
  visits st (visit by_rel fuel e st) {[relation_ e]}.
Proof.
  revert e st. induction fuel as [|fuel IH]; intros e [V O] He Hfuel Ho HO; [lia|]. simpl.
  destruct (decide _) as [HV|HV]; [apply visits_nothing; set_solver|].
  destruct Ho as [?|Ho]; [done|]. simpl in *.
  assert (open_in e ({[relation_ e]} ∪ V, O)) as Hoi.
  { intros r. cbn [fst snd]. intros [->%elem_of_singleton|Hr]%elem_of_union.
    - right. exists e. by split; [|left].
    - destruct (Ho r Hr) as [?|(x & Hx & Ht)]; [by left|]. right. exists x. by split; [|right]. }
  assert (visits ({[relation_ e]} ∪ V, O)
            (visit_columns by_rel (visit by_rel fuel) (columns e) ({[relation_ e]} ∪ V, O))
            (targets (columns e))) as Hc.
  { eapply (visit_columns_spec _ e ({[relation_ e]} ∪ V));
      [done|set_solver|done|done|done|done|].
    intros y st' Hy HV' HO' Hoy. apply IH; [done| |done|done].
    pose proof (size_unmarked V (relation_ e) ltac:(by apply elem_of_dom_2 in He) HV).
    pose proof (subseteq_size (dom by_rel ∖ st'.1) (dom by_rel ∖ ({[relation_ e]} ∪ V)) ltac:(set_solver)).
    lia. }
  destruct Hc as (new & -> & Hnd & Hf & Hk & Hm & Hcl). cbn [mbind option_bind fst snd] in *.
  exists (new ++ [e]). cbn [fst snd]. rewrite rels_app, (assoc_L (++)).
  change (rels [e]) with ({[relation_ e]} ∪ ∅ : gset string). split_and!.
  - f_equal. f_equal. set_solver.
  - rewrite fmap_app. apply NoDup_app. split_and!; [done| |apply NoDup_singleton].
    intros r Hr ->%list_elem_of_singleton. apply (Hf (relation_ e)); [|set_solver].
    by apply elem_of_list_to_set.
  - intros r [Hr|Hr]%elem_of_union; [apply Hf in Hr|]; set_solver.
  - apply Forall_app. split; [done|]. by constructor.
  - set_solver.
  - intros Ha HO1. specialize (Hcl Ha HO1). apply referenced_first_snoc; [done|].
    intros y Hy. pose proof (dep_known _ _ Hy) as Hky.
    assert (relation_ y ∈ {[relation_ e]} ∪ V ∪ rels new) as Hin.
    { apply Hm. by apply target_of_dep. }
    destruct (open_in_app _ _ _ new Hoi _ Hin) as [Hl|(x & Hx & Ht)].
    + apply elem_of_rels in Hl as (x & Hx & Hl). cbn [snd] in Hl.
      replace y with x; [done|]. apply known_inj; [|done|done].
      assert (Forall known (O ++ new)) as Hall by (by apply Forall_app).
      rewrite Forall_forall in Hall. by apply Hall.
    + rewrite Hky in Hx. injection Hx as ->. destruct Ht as [->|Ht].
      * by destruct Hy as (c & r & _ & _ & _ & ?).
      * destruct (Ha e). by eapply tc_l.
Qed.

Lemma visit_all_spec fuel l st :
  Forall known l → size (dom by_rel) < fuel → Forall known st.2 → st.1 ⊆ rels st.2 →
  visits st (visit_all by_rel fuel l st) (rels l).
Proof.
  revert st. induction l as [|e l IH]; intros [V O] Hl Hf HO HV; [by apply visits_nothing|].
  apply Forall_cons in Hl as [He Hl].
  change (rels (e :: l)) with ({[relation_ e]} ∪ rels l).
  change (visit_all by_rel fuel (e :: l) (V, O))
    with (visit by_rel fuel e (V, O) ≫= visit_all by_rel fuel l).
  apply visits_seq.
  - apply visit_spec; [done| | |done].
    + pose proof (subseteq_size (dom by_rel ∖ V) (dom by_rel) ltac:(set_solver)). simpl. lia.
    + right. intros r Hr. left. by apply HV.
  - intros new _ Hnew. apply IH; [done|done|by apply Forall_app|].
    cbn [fst snd] in *. rewrite rels_app. set_solver.
Qed.
End visit.

Lemma topo_order_spec l :
  NoDup (relation_ <$> l) →
  ∃ l', topo_order l = Some l' ∧ l' ≡ₚ l
        ∧ (acyclic (by_relation l) → referenced_first (by_relation l) l').
Proof.
  intros Hnd. pose proof (by_relation_lookup l) as Hl.
  destruct (visit_all_spec (by_relation l)) with (fuel := S (size (by_relation l))) (l := l)
    (st := (∅ : gset string, @nil Entity)) as (l' & E & Hnd' & _ & Hk & Hm & Hc).
  - by intros r e [_ ?]%Hl.
  - apply Forall_forall. intros e He. by apply Hl.
  - rewrite size_dom. lia.
  - constructor.
  - set_solver.
  - exists l'. cbn [fst snd] in *. unfold topo_order. rewrite E. split_and!; [done| |].
    + apply NoDup_Permutation; [by apply NoDup_fmap_1 in Hnd'|by apply NoDup_fmap_1 in Hnd|].
      intros e. rewrite Forall_forall in Hk. split.
      * intros He%Hk. by apply Hl in He as [? _].
      * intros He. assert (relation_ e ∈ rels l) as Hr by (apply elem_of_rels; by exists e).
        apply Hm, elem_of_union in Hr as [[]%not_elem_of_empty|Hr].
        apply elem_of_rels in Hr as (x & Hx & Hin). replace e with x; [done|].
        apply (known_inj (by_relation l)); [by apply Hk|by apply Hl|done].
    + intros Ha. apply Hc; [done|]. intros l1 x l2 H. by destruct l1.
Qed.

(** ** Specification: the effect of the statements

    The name a store's information schema has for a declared type is a
    parameter; the two normalisations are assumed to take it back. *)

(** A store: the columns of its relations and whether it has the trigger
    function. *)
Record StoreDb := mkStoreDb { tables : Live; has_er_history : bool }.

(** What a planned statement is. *)
Inductive Op :=
| CreatePrelude
| CreateTable (e : Entity)
| AddColumn (e : Entity) (c : Column)
| CreateCompanion (e : Entity).

Section effects.
Context (data_type : Store → ColumnType → string).

Definition normalize (s : Store) : string → string :=
  match s with Postgres => normalize_pg_type | Duckdb => normalize_lake_type end.

Definition reads_back : Prop :=
  ∀ s c, normalize s (data_type s (col_type c)) = expected_type s c.

Definition reported (s : Store) (c : Column) (null : bool) : LiveColumn :=
  mkLive (c_name c) (normalize s (data_type s (col_type c))) null.

(** A primary key and a serial column are [NOT NULL] in Postgres. *)
Definition created (s : Store) (e : Entity) : list LiveColumn :=
  (λ c, reported s c (nullable c && negb (bool_decide (s = Postgres)
                       && (serial c || bool_decide (c_name c ∈ key e))))) <$> columns e.

Definition companion_columns : list LiveColumn :=
  [mkLive "history_id" "bigint" false; mkLive "row_id" "text" false; mkLive "op" "text" false;
   mkLive "changed_at" "timestamptz" false; mkLive "actor" "text" false;
   mkLive "old_row" "jsonb" true; mkLive "new_row" "jsonb" true].

(** [CREATE TABLE IF NOT EXISTS]. *)
Definition create_if_absent (r : string) (cols : list LiveColumn) (t : Live) : Live :=
  match t !! r with Some _ => t | None => <[r := cols]> t end.

(** The target of a foreign key: another table of the store, or the table being
    created. *)
Definition reference_ok (t : Live) (e : Entity) (r : Reference) : bool :=
  (bool_decide (r_relation r = relation_ e) && bool_decide (r_column r ∈ column_names e))
  || match t !! r_relation r with
     | Some cols => bool_decide (r_column r ∈ l_name <$> cols)
     | None => false
     end.

Definition references_ok (s : Store) (t : Live) (e : Entity) : bool :=
  match s with
  | Duckdb => true
  | Postgres =>
      forallb (λ c, match references c with Some r => reference_ok t e r | None => true end)
        (columns e)
  end.

(** The companion and its trigger: the function must exist, and the table. *)
Definition create_companion (e : Entity) (db : StoreDb) : option StoreDb :=
  if has_er_history db then
    match tables db !! relation_ e with
    | Some _ =>
        Some (mkStoreDb (create_if_absent (history_relation (relation_ e)) companion_columns
                           (tables db)) true)
    | None => None
    end
  else None.

(** [None] is a statement the store refuses. *)
Definition exec (s : Store) (op : Op) (db : StoreDb) : option StoreDb :=
  match op with
  | CreatePrelude => Some (mkStoreDb (tables db) true)
  | CreateTable e =>
      if decide (create_table_sql s e = "") then Some db
      else if negb (references_ok s (tables db) e) then None
      else
        let db := mkStoreDb (create_if_absent (relation_ e) (created s e) (tables db))
                    (has_er_history db) in
        if bool_decide (s = Postgres) && history (generate e) then create_companion e db
        else Some db
  | AddColumn e c =>
      cols ← tables db !! relation_ e;
      if decide (c_name c ∈ l_name <$> cols) then None
      else Some (mkStoreDb (<[relation_ e := cols ++ [reported s c true]]> (tables db))
                   (has_er_history db))
  | CreateCompanion e => create_companion e db
  end.

Fixpoint exec_all (s : Store) (ops : list Op) (db : StoreDb) : option StoreDb :=
  match ops with [] => Some db | op :: ops => db ← exec s op db; exec_all s ops db end.

(** The text of an operation, with the relation the ledger records. *)
Definition render (history_prelude : string) (s : Store) (op : Op) : Planned :=
  match op with
  | CreatePrelude => prelude_statement history_prelude
  | CreateTable e => mkPlanned (qualify s (relation_ e)) (create_table_sql s e)
  | AddColumn e c => mkPlanned (qualify s (relation_ e)) (add_column_sql s (relation_ e) c)
  | CreateCompanion e =>
      mkPlanned (qualify s (history_relation (relation_ e)))
        (default "" (emit_history_companion_ddl e))
  end.

Definition entity_ops (s : Store) (live : Live) (e : Entity) : list Op :=
  match live !! relation_ e with
  | None => [CreateTable e]
  | Some cols =>
      (AddColumn e <$> to_add e cols)
      ++ (if lacks_companion s live e then [CreateCompanion e] else [])
  end.

Definition needs_prelude (s : Store) (live : Live) (e : Entity) : bool :=
  match live !! relation_ e with
  | None => bool_decide (s = Postgres) && history (generate e)
  | Some _ => lacks_companion s live e
  end.

Definition plan_ops (s : Store) (live : Live) (ordered : list Entity) : list Op :=
  (if existsb (needs_prelude s live) ordered then [CreatePrelude] else [])
  ++ (ordered ≫= entity_ops s live).

(** The operations a plan for a catalog can hold. *)
Definition op_of (c : Catalog) (s : Store) (op : Op) : Prop :=
  match op with
  | CreatePrelude => True
  | CreateTable e => e ∈ for_store c s
  | AddColumn e col => e ∈ for_store c s ∧ col ∈ columns e
  | CreateCompanion e => e ∈ for_store c s ∧ history (generate e) = true
  end.

(** A live store conforms: every declared relation has every declared column
    with its type, none nullable against its declaration, and every history
    companion is there. *)
Definition column_conforms (s : Store) (cols : list LiveColumn) (c : Column) : Prop :=
  ∃ l, live_by_name cols !! c_name c = Some l ∧ type_name l = expected_type s c
       ∧ (l_nullable l = true → nullable c = true).

Definition conforms (c : Catalog) (s : Store) (live : Live) : Prop :=
  ∀ e, e ∈ for_store c s →
    (∃ cols, live !! relation_ e = Some cols ∧ ∀ col, col ∈ columns e → column_conforms s cols col)
    ∧ (s = Postgres → history (generate e) = true →
         is_Some (live !! history_relation (relation_ e))).
End effects.

(** ** Lemmas: plans *)

Lemma plan_entity_spec history_prelude s live e :
  plan_entity s live e
  = (render history_prelude s <$> entity_ops s live e, needs_prelude s live e).
Proof.
  unfold plan_entity, entity_ops, needs_prelude.
  destruct (live !! relation_ e) as [cols|]; [|done].
  rewrite fmap_app, <- list_fmap_compose.
  destruct (lacks_companion s live e) eqn:Hl; [|by rewrite app_nil_r].
  unfold lacks_companion in Hl. apply andb_true_iff in Hl as [Hl _].
  apply andb_true_iff in Hl as [_ Hh]. unfold emit_history_companion_ddl at 1.
  rewrite Hh. simpl. unfold emit_history_companion_ddl. by rewrite Hh.
Qed.

Lemma plan_migration_ops history_prelude c s live ordered :
  topo_order (for_store c s) = Some ordered →
  ∃ p, plan_migration history_prelude c s live = Some p
    ∧ statements p = render history_prelude s <$> plan_ops s live ordered
    ∧ breaking p = filter (λ d, severity d = Breaking) (diff_store c s live)
    ∧ ahead p = filter (λ d, severity d = Ahead) (diff_store c s live).
Proof.
  intros Ho. unfold plan_migration. rewrite Ho. eexists. split; [reflexivity|]. cbn [statements breaking ahead].
  split_and!.
  - unfold plan_ops.
    replace (plan_entity s live <$> ordered)
      with ((λ e, (render history_prelude s <$> entity_ops s live e, needs_prelude s live e))
              <$> ordered)
      by (apply list_fmap_ext; intros ? ? _; by rewrite (plan_entity_spec history_prelude)).
    assert (existsb snd ((λ e, (render history_prelude s <$> entity_ops s live e,
                                needs_prelude s live e)) <$> ordered)
            = existsb (needs_prelude s live) ordered) as ->.
    { clear Ho. induction ordered as [|e l IH]; [done|]. simpl. f_equal. exact IH. }
    rewrite fmap_app. assert (∀ l, mjoin (fst <$> ((λ e, (render history_prelude s <$> entity_ops s live e,
         needs_prelude s live e)) <$> l)) = render history_prelude s <$> (l ≫= entity_ops s live)) as ->.
    { clear. intros l. induction l as [|e l IH]; [done|]. rewrite bind_cons, fmap_app, <- IH. done. }
    by destruct (existsb _ _).
  - rewrite list_filter_filter. apply list_filter_iff. intros d. destruct (severity d); intuition congruence.
  - rewrite list_filter_filter. apply list_filter_iff. intros d. destruct (severity d); intuition congruence.
Qed.

Lemma live_by_name_is_Some cols n : is_Some (live_by_name cols !! n) ↔ n ∈ l_name <$> cols.
Proof. unfold live_by_name. by rewrite map_collect_dom, <- list_fmap_compose. Qed.

Lemma live_by_name_None cols n : live_by_name cols !! n = None ↔ n ∉ l_name <$> cols.
Proof. by rewrite eq_None_not_Some, live_by_name_is_Some. Qed.

Lemma live_by_name_snoc cols x :
  live_by_name (cols ++ [x]) = <[l_name x := x]> (live_by_name cols).
Proof. unfold live_by_name. by rewrite fmap_app, <- map_collect_app. Qed.

Lemma live_by_name_old cols extra n :
  n ∉ l_name <$> extra → live_by_name (cols ++ extra) !! n = live_by_name cols !! n.
Proof.
  induction extra as [|x extra IH] using rev_ind; [by rewrite app_nil_r|].
  rewrite fmap_app, not_elem_of_app. intros [Hn Hx].
  rewrite (assoc_L (++)), live_by_name_snoc, lookup_insert_ne; [by apply IH|].
  intros <-. by destruct Hx; left.
Qed.

Lemma live_by_name_new cols extra x :
  NoDup (l_name <$> extra) → x ∈ extra → live_by_name (cols ++ extra) !! l_name x = Some x.
Proof.
  induction extra as [|y extra IH] using rev_ind; [by intros _ []%not_elem_of_nil|].
  rewrite fmap_app, NoDup_app. intros (Hnd & Hd & _) Hx.
  rewrite (assoc_L (++)), live_by_name_snoc.
  apply elem_of_app in Hx as [Hx|Hx]; [|apply list_elem_of_singleton in Hx as ->; by rewrite lookup_insert_eq].
  rewrite lookup_insert_ne; [by apply IH|]. intros E. apply (Hd (l_name x)).
  - by apply list_elem_of_fmap_2.
  - rewrite <- E. by left.
Qed.

Definition entity_conforms (s : Store) (live : Live) (e : Entity) : Prop :=
  (∃ cols, live !! relation_ e = Some cols ∧ ∀ col, col ∈ columns e → column_conforms s cols col)
  ∧ (s = Postgres → history (generate e) = true →
       is_Some (live !! history_relation (relation_ e))).

Lemma diff_column_spec s e cols c :
  (∀ d, d ∈ diff_column s e (live_by_name cols) c → severity d ≠ Ahead)
  ∧ (diff_column s e (live_by_name cols) c = [] ↔ column_conforms s cols c)
  ∧ ((∀ d, d ∈ diff_column s e (live_by_name cols) c → severity d ≠ Breaking) ↔
     column_conforms s cols c ∨ c_name c ∉ l_name <$> cols ∧ nullable c = true).
Proof.
  unfold diff_column, column_conforms. rewrite <- live_by_name_None.
  destruct (live_by_name cols !! c_name c) as [l|].
  - assert ((∃ l0, Some l = Some l0 ∧ type_name l0 = expected_type s c
              ∧ (l_nullable l0 = true → nullable c = true))
            ↔ type_name l = expected_type s c ∧ (l_nullable l = true → nullable c = true)) as ->
      by naive_solver.
    destruct (decide _) as [Ht|Ht], (l_nullable l), (nullable c); simpl;
      repeat setoid_rewrite elem_of_cons; repeat setoid_rewrite elem_of_nil.
    all: split_and!; [naive_solver|intuition congruence|].
    all: split; [|intuition congruence].
    all: try (intros; left; split; [done|]; intros; congruence).
    all: intros H; exfalso; eapply H; [by left|done].
  - split_and!.
    + intros d ->%list_elem_of_singleton. by destruct (nullable c).
    + naive_solver.
    + setoid_rewrite list_elem_of_singleton. destruct (nullable c); naive_solver.
Qed.

Lemma diff_extra_ahead s e cols d : d ∈ (cols ≫= diff_extra s e) → severity d = Ahead.
Proof.
  intros (l & H & _)%list_elem_of_bind. unfold diff_extra in H. destruct (decide _).
  - by apply not_elem_of_nil in H.
  - by apply list_elem_of_singleton in H as ->.
Qed.

Lemma diff_relation_no_breaking s live e :
  (∀ d, d ∈ diff_relation s live e → severity d ≠ Breaking)
  ↔ ∀ cols c, live !! relation_ e = Some cols → c ∈ columns e →
      column_conforms s cols c ∨ c_name c ∉ l_name <$> cols ∧ nullable c = true.
Proof.
  unfold diff_relation. destruct (live !! relation_ e) as [cols|].
  - unfold diff_entity. setoid_rewrite elem_of_app. split.
    + intros H cols' c [= <-] Hc. apply (diff_column_spec s e cols c). intros d Hd. apply H. left.
      apply list_elem_of_bind. by exists c.
    + intros H d [(c & Hd & Hc)%list_elem_of_bind|Hd].
      * specialize (H cols c eq_refl Hc). revert d Hd. by apply diff_column_spec.
      * apply diff_extra_ahead in Hd. congruence.
  - split; [done|]. intros _ d Hd. apply list_elem_of_singleton in Hd as ->. done.
Qed.

Lemma diff_relation_ahead s live e :
  (∀ d, d ∈ diff_relation s live e → severity d = Ahead)
  ↔ ∃ cols, live !! relation_ e = Some cols ∧ ∀ c, c ∈ columns e → column_conforms s cols c.
Proof.
  unfold diff_relation. destruct (live !! relation_ e) as [cols|].
  - unfold diff_entity. setoid_rewrite elem_of_app. split.
    + intros H. exists cols. split; [done|]. intros c Hc. apply (diff_column_spec s e cols c).
      destruct (diff_column s e (live_by_name cols) c) as [|d l] eqn:E; [done|]. exfalso.
      assert (d ∈ diff_column s e (live_by_name cols) c) as Hd by (rewrite E; left).
      pose proof (proj1 (diff_column_spec s e cols c) d Hd) as Hn. apply Hn, H. left.
      apply list_elem_of_bind. by exists c.
    + intros (cols' & [= <-] & H) d [(c & Hd & Hc)%list_elem_of_bind|Hd].
      * apply H, (diff_column_spec s e cols c) in Hc. rewrite Hc in Hd. by apply not_elem_of_nil in Hd.
      * by eapply diff_extra_ahead.
  - split; [|by intros (cols & ? & _)]. intros H. exfalso.
    specialize (H _ (list_elem_of_here _ _)). discriminate H.
Qed.

Lemma diff_companion_spec s live e d :
  d ∈ diff_companion s live e →
  severity d = Safe ∧ history (generate e) = true ∧ live !! history_relation (relation_ e) = None.
Proof.
  unfold diff_companion. destruct (history _); simpl; [|by intros []%not_elem_of_nil].
  destruct (live !! _); [by intros []%not_elem_of_nil|]. by intros ->%list_elem_of_singleton.
Qed.

Lemma diff_companion_nil s live e :
  diff_companion s live e = []
  ↔ (history (generate e) = true → is_Some (live !! history_relation (relation_ e))).
Proof.
  unfold diff_companion. destruct (history _); simpl; [|naive_solver].
  destruct (live !! _) eqn:E; split; [by eauto|done|done|]. intros H. by destruct (H eq_refl).
Qed.

Lemma elem_of_diff_store c s live d :
  d ∈ diff_store c s live
  ↔ ∃ e, e ∈ for_store c s
         ∧ (d ∈ diff_relation s live e ∨ s = Postgres ∧ d ∈ diff_companion s live e).
Proof.
  unfold diff_store. rewrite elem_of_app, list_elem_of_bind. split.
  - intros [(e & ? & ?)|H]; [exists e; auto|]. destruct (decide _) as [->|]; [|by apply not_elem_of_nil in H].
    apply list_elem_of_bind in H as (e & ? & ?). exists e. auto.
  - intros (e & He & [Hd|[-> Hd]]); [left; eauto|right]. rewrite decide_True by done.
    apply list_elem_of_bind. eauto.
Qed.

Lemma breaking_nil c s live :
  filter (λ d, severity d = Breaking) (diff_store c s live) = []
  ↔ ∀ e, e ∈ for_store c s → ∀ d, d ∈ diff_relation s live e → severity d ≠ Breaking.
Proof.
  rewrite filter_nil_iff. setoid_rewrite elem_of_diff_store. split.
  - intros H e He d Hd. apply H. exists e. auto.
  - intros H d (e & He & [Hd|[_ Hd]]); [by apply (H e)|]. apply diff_companion_spec in Hd as [-> _]. done.
Qed.

Lemma lacks_companion_false s live e :
  lacks_companion s live e = false
  ↔ (s = Postgres → history (generate e) = true →
       is_Some (live !! history_relation (relation_ e))).
Proof.
  unfold lacks_companion. rewrite !andb_false_iff, !bool_decide_eq_false, <- not_eq_None_Some.
  destruct (decide (s = Postgres)), (history (generate e)); intuition congruence.
Qed.

Lemma to_add_nil e cols :
  to_add e cols = [] ↔ ∀ c, c ∈ columns e → c_name c ∈ l_name <$> cols ∨ nullable c = false.
Proof.
  unfold to_add. rewrite filter_nil_iff. split.
  - intros H c Hc. specialize (H c Hc). destruct (decide (c_name c ∈ l_name <$> cols)); [by left|].
    right. destruct (nullable c); [|done]. by destruct H.
  - intros H c Hc [Hn Ht]. destruct (H c Hc); congruence.
Qed.

Lemma entity_ops_nil s live e :
  entity_ops s live e = []
  ↔ (∃ cols, live !! relation_ e = Some cols ∧ to_add e cols = [])
    ∧ lacks_companion s live e = false.
Proof.
  unfold entity_ops. destruct (live !! relation_ e) as [cols|].
  2:{ split; [done|]. by intros [(cols & ? & _) _]. }
  rewrite app_nil. destruct (lacks_companion s live e); [by split; intros [_ ?]|]. split.
  - intros [H _]. split; [|done]. exists cols. split; [done|]. by destruct (to_add e cols).
  - by intros [(cols' & [= <-] & ->) _].
Qed.

Lemma needs_prelude_ops s live e : entity_ops s live e = [] → needs_prelude s live e = false.
Proof.
  intros [(cols & H & _) Hl]%entity_ops_nil. unfold needs_prelude. by rewrite H.
Qed.

Lemma plan_ops_nil s live l :
  plan_ops s live l = [] ↔ ∀ e, e ∈ l → entity_ops s live e = [].
Proof.
  unfold plan_ops. rewrite app_nil. split.
  - intros [_ H] e He. destruct (entity_ops s live e) as [|o ops] eqn:E; [done|].
    assert (o ∈ l ≫= entity_ops s live) as Ho.
    { apply list_elem_of_bind. exists e. rewrite E. split; [left|done]. }
    rewrite H in Ho. by apply not_elem_of_nil in Ho.
  - intros H. split.
    + destruct (existsb _ l) eqn:E; [|done]. apply existsb_exists in E as (e & He & Hn).
      rewrite needs_prelude_ops in Hn; [done|]. by apply H, list_elem_of_In.
    + induction l as [|e l IH]; [done|]. rewrite bind_cons, H by left. apply IH.
      intros e' He'. apply H. by right.
Qed.

(** An entity that needs no statement and has no breaking difference conforms. *)
Lemma entity_settled s live e :
  entity_ops s live e = []
  ∧ (∀ d, d ∈ diff_relation s live e → severity d ≠ Breaking)
  ↔ entity_conforms s live e.
Proof.
  rewrite entity_ops_nil, lacks_companion_false, diff_relation_no_breaking. unfold entity_conforms.
  split.
  - intros [[(cols & Hl & Ha) Hc] Hb]. split; [|done]. exists cols. split; [done|]. intros c Hin.
    destruct (Hb cols c Hl Hin) as [?|[Hn Hnull]]; [done|]. rewrite to_add_nil in Ha.
    destruct (Ha c Hin); congruence.
  - intros [(cols & Hl & Ha) Hc]. split; [split; [|done]|].
    + exists cols. split; [done|]. apply to_add_nil. intros c Hin. left.
      destruct (Ha c Hin) as (l & Hl' & _). apply live_by_name_is_Some. by exists l.
    + intros cols' c Hl' Hin. rewrite Hl in Hl'. injection Hl' as <-. left. by apply Ha.
Qed.

Lemma diff_conforms c s live :
  (∀ d, d ∈ diff_store c s live → severity d = Ahead) ↔ conforms c s live.
Proof.
  setoid_rewrite elem_of_diff_store. unfold conforms. split.
  - intros H e He. split.
    + apply diff_relation_ahead. intros d Hd. apply H. exists e. auto.
    + intros -> Hh. apply (diff_companion_nil Postgres live e); [|done].
      destruct (diff_companion Postgres live e) as [|d l] eqn:E; [done|].
      assert (d ∈ diff_companion Postgres live e) as Hd by (rewrite E; left).
      assert (severity d = Ahead) as Ha by (apply H; exists e; auto).
      apply diff_companion_spec in Hd as [Hs _]. congruence.
  - intros H d (e & He & [Hd|[-> Hd]]); destruct (H e He) as [Hcols Hcomp].
    + revert d Hd. by apply diff_relation_ahead.
    + apply diff_companion_spec in Hd as (_ & Hh & Hn). destruct (Hcomp eq_refl Hh). congruence.
Qed.

Lemma lacks_companion_history s live e :
  lacks_companion s live e = true → history (generate e) = true.
Proof. unfold lacks_companion. by destruct (history _); rewrite ?andb_false_r. Qed.

Lemma plan_ops_of c s live l op :
  (∀ e, e ∈ l → e ∈ for_store c s) → op ∈ plan_ops s live l → op_of c s op.
Proof.
  intros Hl. unfold plan_ops. rewrite elem_of_app, list_elem_of_bind.
  intros [Hop|(e & Hop & He%Hl)].
  - destruct (existsb _ l); [|by apply not_elem_of_nil in Hop].
    by apply list_elem_of_singleton in Hop as ->.
  - unfold entity_ops in Hop. destruct (live !! relation_ e) as [cols|].
    + apply elem_of_app in Hop as [(c' & -> & [_ Hc]%list_elem_of_filter)%list_elem_of_fmap|Hop]; [done|].
      destruct (lacks_companion s live e) eqn:Hh; [|by apply not_elem_of_nil in Hop].
      apply list_elem_of_singleton in Hop as ->. split; [done|]. by eapply lacks_companion_history.
    + by apply list_elem_of_singleton in Hop as ->.
Qed.

(** *** Applying a plan *)

Lemma l_name_created data_type s e : l_name <$> created data_type s e = column_names e.
Proof. unfold created. by rewrite <- list_fmap_compose. Qed.

Section apply.
Context (data_type : Store → ColumnType → string) (s : Store) (live : Live).
Hypothesis types_read_back : reads_back data_type.

#[local] Abbreviation exec := (exec data_type s).
#[local] Abbreviation exec_all := (exec_all data_type s).
#[local] Abbreviation created := (created data_type s).
#[local] Abbreviation reported := (reported data_type s).

(** What the plan leaves an entity's relation with. *)
Definition final_cols (e : Entity) : list LiveColumn :=
  match live !! relation_ e with
  | None => created e
  | Some cols => cols ++ ((λ c, reported c true) <$> to_add e cols)
  end.

Lemma exec_all_app ops1 ops2 db : exec_all (ops1 ++ ops2) db = exec_all ops1 db ≫= exec_all ops2.
Proof.
  revert db. induction ops1 as [|op ops IH]; intros db; [done|]. simpl.
  destruct (exec op db); simpl; [apply IH|done].
Qed.

Lemma l_name_reported b (l : list Column) : l_name <$> ((λ c, reported c b) <$> l) = c_name <$> l.
Proof. by rewrite <- list_fmap_compose. Qed.

Lemma exec_adds e l cols db :
  tables db !! relation_ e = Some cols → NoDup (c_name <$> l) →
  (∀ c, c ∈ l → c_name c ∉ l_name <$> cols) →
  exec_all (AddColumn e <$> l) db
  = Some (mkStoreDb (<[relation_ e := cols ++ ((λ c, reported c true) <$> l)]> (tables db))
            (has_er_history db)).
Proof.
  revert cols db. induction l as [|c l IH]; intros cols db Ht Hnd Hn; simpl.
  { rewrite app_nil_r, insert_id by done. by destruct db. }
  apply NoDup_cons in Hnd as [Hc Hnd]. rewrite Ht. simpl.
  rewrite decide_False by (by apply Hn; left). simpl.
  rewrite (IH (cols ++ [reported c true])).
  - simpl. rewrite insert_insert_eq, <- (assoc_L (++)). done.
  - simpl. by rewrite lookup_insert_eq.
  - done.
  - intros c' Hc'. rewrite fmap_app, not_elem_of_app. split; [apply Hn; by right|].
    simpl. rewrite list_elem_of_singleton. intros E. apply Hc. rewrite <- E.
    by apply list_elem_of_fmap_2.
Qed.

Lemma NoDup_to_add e cols : NoDup (column_names e) → NoDup (c_name <$> to_add e cols).
Proof. intros Hnd. eapply sublist_NoDup; [exact Hnd|]. apply fmap_sublist, sublist_filter. Qed.

Lemma elem_of_to_add e cols c :
  c ∈ to_add e cols ↔ (c_name c ∉ l_name <$> cols ∧ nullable c = true) ∧ c ∈ columns e.
Proof. unfold to_add. by rewrite list_elem_of_filter. Qed.

(** The relation a plan leaves conforms, if its differences were not breaking. *)
Lemma final_conforms e c :
  NoDup (column_names e) → c ∈ columns e →
  (∀ d, d ∈ diff_relation s live e → severity d ≠ Breaking) →
  column_conforms s (final_cols e) c.
Proof.
  intros Hnd Hc Hb. unfold final_cols, column_conforms. rewrite diff_relation_no_breaking in Hb.
  destruct (live !! relation_ e) as [cols|].
  - destruct (Hb cols c eq_refl Hc) as [(l & Hl & Ht & Hn)|[Habs Hnull]].
    + exists l. rewrite live_by_name_old; [done|]. rewrite l_name_reported.
      intros (c' & E & Hc')%list_elem_of_fmap. apply elem_of_to_add in Hc' as [[Ha _] _].
      apply Ha. rewrite <- E. apply live_by_name_is_Some. by exists l.
    + exists (reported c true). split_and!; [|apply types_read_back|done].
      apply (live_by_name_new cols _ (reported c true)).
      * rewrite l_name_reported. by apply NoDup_to_add.
      * apply (list_elem_of_fmap_2 (λ c, reported c true)), elem_of_to_add. done.
  - set (b := nullable c && negb (bool_decide (s = Postgres)
                && (serial c || bool_decide (c_name c ∈ key e)))).
    exists (reported c b). split_and!; [|apply types_read_back|].
    + apply (live_by_name_new [] (created e) (reported c b)); [by rewrite l_name_created|].
      apply list_elem_of_fmap. by exists c.
    + simpl. unfold b. by intros [? _]%andb_true_iff.
Qed.

Lemma final_names e k :
  (∀ d, d ∈ diff_relation s live e → severity d ≠ Breaking) → NoDup (column_names e) →
  k ∈ column_names e → k ∈ l_name <$> final_cols e.
Proof.
  intros Hb Hnd (c & -> & Hc)%list_elem_of_fmap.
  destruct (final_conforms e c Hnd Hc Hb) as (l & Hl & _).
  apply live_by_name_is_Some. by exists l.
Qed.

Lemma history_relation_ne r : history_relation r ≠ r.
Proof.
  unfold history_relation. intros E. apply (f_equal String.length) in E.
  rewrite str_length_app in E. simpl in E. lia.
Qed.

(** A relation other than the entity's is left as it is, unless it is the
    companion and was missing. *)
Definition spares (e : Entity) (t t' : Live) : Prop :=
  ∀ r, r ≠ relation_ e →
    t' !! r = t !! r
    ∨ r = history_relation (relation_ e) ∧ history (generate e) = true ∧ t !! r = None.

Lemma spares_trans e t1 t2 t3 : spares e t1 t2 → spares e t2 t3 → spares e t1 t3.
Proof.
  intros H12 H23 r Hr. destruct (H23 r Hr) as [->|(-> & Hh & E)]; [by apply H12|].
  right. split_and!; [done|done|]. destruct (H12 _ Hr) as [E2|(_ & _ & ?)]; congruence.
Qed.

Lemma create_companion_spec e db cols :
  has_er_history db = true → history (generate e) = true → tables db !! relation_ e = Some cols →
  ∃ t, create_companion e db = Some (mkStoreDb t true) ∧ spares e (tables db) t
       ∧ t !! relation_ e = Some cols ∧ is_Some (t !! history_relation (relation_ e)).
Proof.
  intros Hf Hh Ht. unfold create_companion, create_if_absent. rewrite Hf, Ht.
  destruct (tables db !! history_relation (relation_ e)) eqn:Hc; eexists; (split; [reflexivity|]).
  - split_and!; [by intros r _; left|done|by eexists].
  - split_and!.
    + intros r _. destruct (decide (r = history_relation (relation_ e))) as [->|Hr]; [by right|].
      left. by rewrite lookup_insert_ne.
    + rewrite lookup_insert_ne; [done|apply history_relation_ne].
    + rewrite lookup_insert_eq. by eexists.
Qed.

(** The statements planned for one entity apply, and do their work. *)
Lemma exec_entity e db :
  NoDup (column_names e) →
  tables db !! relation_ e = live !! relation_ e →
  (needs_prelude s live e = true → has_er_history db = true) →
  (live !! relation_ e = None →
     create_table_sql s e ≠ "" ∧ references_ok s (tables db) e = true) →
  ∃ t, exec_all (entity_ops s live e) db = Some (mkStoreDb t (has_er_history db))
    ∧ t !! relation_ e = Some (final_cols e) ∧ spares e (tables db) t
    ∧ (needs_prelude s live e = true → is_Some (t !! history_relation (relation_ e))).
Proof.
  intros Hnd Ht Hf Hc. unfold entity_ops, needs_prelude, final_cols in *.
  destruct (live !! relation_ e) as [cols|] eqn:Hl.
  - rewrite exec_all_app, (exec_adds e _ cols db Ht).
    2:{ by apply NoDup_to_add. }
    2:{ by intros c [[? _] _]%elem_of_to_add. }
    cbn [mbind option_bind].
    set (db' := mkStoreDb _ _).
    assert (tables db' !! relation_ e = Some (cols ++ ((λ c, reported c true) <$> to_add e cols))) as Ht'
      by apply lookup_insert_eq.
    assert (spares e (tables db) (tables db')) as Hsp.
    { intros r Hr. left. apply lookup_insert_ne. congruence. }
    destruct (lacks_companion s live e) eqn:Hlack.
    + assert (history (generate e) = true) as Hh.
      { by eapply lacks_companion_history. }
      destruct (create_companion_spec e db' _ (Hf eq_refl) Hh Ht') as (t & E & Hst & Hte & Hhr).
      exists t. simpl. rewrite E. split_and!; [by rewrite Hf|done|by eapply spares_trans|done].
    + exists (tables db'). by split_and!.
  - destruct (Hc eq_refl) as [Hsql Href]. simpl. rewrite decide_False, Href by done. simpl.
    set (db' := mkStoreDb _ _).
    assert (tables db' = <[relation_ e := created e]> (tables db)) as Et.
    { unfold db', create_if_absent. by rewrite Ht. }
    assert (tables db' !! relation_ e = Some (created e)) as Ht' by (by rewrite Et, lookup_insert_eq).
    assert (spares e (tables db) (tables db')) as Hsp.
    { intros r Hr. left. by rewrite Et, lookup_insert_ne. }
    destruct (bool_decide (s = Postgres) && history (generate e)) eqn:Hp.
    + apply andb_true_iff in Hp as [_ Hh].
      destruct (create_companion_spec e db' _ (Hf eq_refl) Hh Ht') as (t & E & Hst & Hte & Hhr).
      exists t. rewrite E. simpl. split_and!; [by rewrite Hf|done|by eapply spares_trans|done].
    + exists (tables db'). by split_and!.
Qed.

Section loop.
Context (ordered : list Entity).
Hypothesis relations_distinct : NoDup (relation_ <$> ordered).
Hypothesis columns_distinct : ∀ e, e ∈ ordered → NoDup (column_names e).
Hypothesis not_breaking :
  ∀ e, e ∈ ordered → ∀ d, d ∈ diff_relation s live e → severity d ≠ Breaking.
Hypothesis companions_free :
  ∀ e e', e ∈ ordered → e' ∈ ordered → history (generate e) = true →
    history_relation (relation_ e) ≠ relation_ e'.
Hypothesis references_resolve :
  s = Postgres → ∀ e c r, e ∈ ordered → c ∈ columns e → references c = Some r →
    ∃ t, t ∈ ordered ∧ relation_ t = r_relation r ∧ r_column r ∈ column_names t.
Hypothesis statements_exist : ∀ e, e ∈ ordered → create_table_sql s e ≠ "".
Context (by_rel : gmap string Entity).
Hypothesis by_rel_lookup : ∀ r e, by_rel !! r = Some e ↔ e ∈ ordered ∧ relation_ e = r.
Hypothesis in_order : referenced_first by_rel ordered.

(** After the entities [P]: they are done, the others as they were. *)
Record applied (P : list Entity) (t : Live) : Prop := {
  ap_done : ∀ e, e ∈ P → t !! relation_ e = Some (final_cols e);
  ap_companion : ∀ e, e ∈ P → s = Postgres → history (generate e) = true →
    is_Some (t !! history_relation (relation_ e));
  ap_todo : ∀ e, e ∈ ordered → e ∉ P → t !! relation_ e = live !! relation_ e;
  ap_kept : ∀ r cols, live !! r = Some cols → ∃ extra, t !! r = Some (cols ++ extra);
}.

Lemma relation_distinct e e' :
  e ∈ ordered → e' ∈ ordered → relation_ e = relation_ e' → e = e'.
Proof.
  intros He He' E. apply (NoDup_fmap_eq relation_ ordered); done.
Qed.

Lemma references_ready P e Q t :
  ordered = P ++ e :: Q → applied P t → references_ok s t e = true.
Proof.
  intros Eo Hap. unfold references_ok.
  enough (s = Postgres → forallb (λ c, match references c with
                                       | Some r => reference_ok t e r | None => true end)
                           (columns e) = true) as H by (destruct s; [done|by apply H]).
  intros Hs. apply forallb_forall. intros c Hc%list_elem_of_In. destruct (references c) as [r|] eqn:Hr; [|done].
  assert (e ∈ ordered) as He by (rewrite Eo; set_solver).
  destruct (references_resolve Hs e c r He Hc Hr) as (x & Hx & Hxr & Hxc).
  unfold reference_ok. apply orb_true_iff. destruct (decide (x = e)) as [->|Hne].
  { left. by rewrite !bool_decide_eq_true_2. }
  right. assert (x ∈ P) as HP.
  { apply (in_order _ _ _ Eo). exists c, r. split_and!; [done|done|by apply by_rel_lookup|done]. }
  rewrite <- Hxr, (ap_done _ _ Hap x HP). apply bool_decide_eq_true.
  apply final_names; [by apply not_breaking|by apply columns_distinct|done].
Qed.

Lemma applied_step P e Q t t' :
  ordered = P ++ e :: Q → applied P t →
  t' !! relation_ e = Some (final_cols e) → spares e t t' →
  (needs_prelude s live e = true → is_Some (t' !! history_relation (relation_ e))) →
  applied (P ++ [e]) t'.
Proof.
  intros Eo [Hdone Hcomp Htodo Hkept] Hfin Hsp Hneed.
  assert (e ∈ ordered) as He by (rewrite Eo; set_solver).
  assert (∀ x, x ∈ ordered → x ≠ e → t' !! relation_ x = t !! relation_ x) as Hother.
  { intros x Hx Hne. destruct (Hsp (relation_ x)) as [?|(E & Hh & _)]; [|done|].
    - intros E. by apply Hne, relation_distinct.
    - by destruct (companions_free e x He Hx Hh). }
  assert (∀ x, x ∈ P → x ∈ ordered ∧ x ≠ e) as HP.
  { intros x Hx. split; [rewrite Eo; set_solver|]. intros ->.
    rewrite Eo, fmap_app, fmap_cons in relations_distinct.
    apply NoDup_app in relations_distinct as (_ & Hd & _). apply (Hd (relation_ e)); [|left].
    by apply list_elem_of_fmap_2. }
  assert (∀ r cols, live !! r = Some cols → ∃ extra, t' !! r = Some (cols ++ extra)) as Hkept'.
  { intros r cols Hr. destruct (decide (r = relation_ e)) as [->|Hne].
    - rewrite Hfin. unfold final_cols. rewrite Hr. by eexists.
    - destruct (Hkept r cols Hr) as [extra E].
      destruct (Hsp r Hne) as [->|(_ & _ & ?)]; [by eexists|congruence]. }
  split; [| | |exact Hkept'].
  - intros x. rewrite elem_of_app, list_elem_of_singleton. intros [Hx| ->]; [|done].
    destruct (HP x Hx). rewrite Hother by done. by apply Hdone.
  - intros x. rewrite elem_of_app, list_elem_of_singleton. intros [Hx| ->] Hs Hh.
    + destruct (HP x Hx) as [Hxo _]. pose proof (Hcomp x Hx Hs Hh) as [cols Hcols].
      destruct (Hsp (history_relation (relation_ x))) as [->|(_ & _ & ?)]; [|by eexists|congruence].
      by apply companions_free.
    + destruct (needs_prelude s live e) eqn:Hn; [by apply Hneed|]. unfold needs_prelude in Hn.
      rewrite Hs, bool_decide_eq_true_2, Hh in Hn by done.
      destruct (live !! relation_ e); [|done]. rewrite lacks_companion_false in Hn.
      destruct (Hn eq_refl Hh) as [cols Hc]. destruct (Hkept' _ _ Hc) as [extra ->]. by eexists.
  - intros x Hx Hn. rewrite Hother; [|done|set_solver]. apply Htodo; [done|set_solver].
Qed.

Lemma exec_loop Q P db :
  ordered = P ++ Q → applied P (tables db) →
  (∀ e, e ∈ ordered → needs_prelude s live e = true → has_er_history db = true) →
  ∃ db', exec_all (Q ≫= entity_ops s live) db = Some db' ∧ applied ordered (tables db').
Proof.
  revert P db. induction Q as [|e Q IH]; intros P db Eo Hap Hf.
  { rewrite app_nil_r in Eo. subst P. by exists db. }
  assert (e ∈ ordered) as He by (rewrite Eo; set_solver).
  rewrite bind_cons, exec_all_app.
  destruct (exec_entity e db) as (t & -> & Hfin & Hsp & Hneed).
  - by apply columns_distinct.
  - apply (ap_todo _ _ Hap); [done|]. intros HP.
    rewrite Eo, fmap_app, fmap_cons in relations_distinct.
    apply NoDup_app in relations_distinct as (_ & Hd & _). apply (Hd (relation_ e)); [|left].
    by apply list_elem_of_fmap_2.
  - by apply Hf.
  - intros _. split; [by apply statements_exist|by eapply references_ready].
  - cbn [mbind option_bind]. apply (IH (P ++ [e])).
    + by rewrite <- (assoc_L (++)).
    + by eapply applied_step.
    + done.
Qed.

Lemma exec_plan b :
  ∃ db', exec_all (plan_ops s live ordered) (mkStoreDb live b) = Some db'
         ∧ applied ordered (tables db').
Proof.
  unfold plan_ops. rewrite exec_all_app.
  set (needs := existsb (needs_prelude s live) ordered).
  assert (exec_all (if needs then [CreatePrelude] else []) (mkStoreDb live b)
          = Some (mkStoreDb live (needs || b))) as -> by (by destruct needs).
  cbn [mbind option_bind]. apply (exec_loop ordered []); [done| |].
  - split; [by intros e []%not_elem_of_nil|by intros e []%not_elem_of_nil|done|].
    intros r cols Hr. exists []. by rewrite app_nil_r.
  - intros e He Hn. simpl. apply orb_true_iff. left. apply existsb_exists. exists e.
    split; [by apply list_elem_of_In|done].
Qed.

Lemma applied_conforms t :
  applied ordered t → ∀ e, e ∈ ordered → entity_conforms s t e.
Proof.
  intros Hap e He. split.
  - exists (final_cols e). split; [by apply (ap_done _ _ Hap)|]. intros c Hc.
    apply final_conforms; [by apply columns_distinct|done|by apply not_breaking].
  - by apply (ap_companion _ _ Hap).
Qed.
End loop.
End apply.

(** ** Properties *)

Lemma loaded_distinct l c s :
  from_entities l = Ok c → NoDup (relation_ <$> for_store c s).
Proof. intros (-> & _ & Hnd)%from_entities_Ok. by apply for_store_NoDup. Qed.

Lemma loaded_well_formed l c s e : from_entities l = Ok c → e ∈ for_store c s → well_formed e.
Proof.
  intros (-> & Hw & _)%from_entities_Ok [_ He]%list_elem_of_filter.
  rewrite Forall_forall in Hw. by apply Hw.
Qed.

(** What the conventions add to a loaded catalog: references resolve without
    cycles, the names of history companions are free and natural keys name
    columns. *)
Record plannable (c : Catalog) (s : Store) : Prop := {
  pl_references : s = Postgres → ∀ e col r,
    e ∈ for_store c s → col ∈ columns e → references col = Some r →
    ∃ t, t ∈ for_store c s ∧ relation_ t = r_relation r ∧ r_column r ∈ column_names t;
  pl_acyclic : acyclic (by_relation (for_store c s));
  pl_companions : ∀ e e', e ∈ for_store c s → e' ∈ for_store c s →
    history (generate e) = true → history_relation (relation_ e) ≠ relation_ e';
  pl_natural : s = Duckdb → ∀ e, e ∈ for_store c s → natural_key_ok e;
}.

Lemma statement_exists l c s e :
  from_entities l = Ok c → plannable c s → e ∈ for_store c s → create_table_sql s e ≠ "".
Proof.
  intros Hc Hp He. assert (has_store e s = true) as Hs.
  { unfold for_store in He. by apply list_elem_of_filter in He as [? _]. }
  unfold create_table_sql. destruct s.
  - rewrite emit_lake_ddl_eq; [|by eapply loaded_well_formed|done].
    rewrite (proj2 (missing_None _ _) (pl_natural _ _ Hp eq_refl e He)). done.
  - unfold emit_postgres_ddl. by rewrite Hs.
Qed.

(** The order of the created tables exists for every catalog that loads and
    is a permutation of its tables; when the references have no cycle, every
    table comes after the tables it references. *)
Theorem topo_order_correct l c s :
  from_entities l = Ok c →
  ∃ ordered, topo_order (for_store c s) = Some ordered ∧ ordered ≡ₚ for_store c s
    ∧ (acyclic (by_relation (for_store c s)) →
       referenced_first (by_relation (for_store c s)) ordered).
Proof. intros H. by eapply topo_order_spec, loaded_distinct. Qed.

Lemma plan_empty_spec history_prelude l c s live :
  from_entities l = Ok c →
  ∃ p, plan_migration history_prelude c s live = Some p
    ∧ (is_empty p = true ↔ conforms c s live)
    ∧ (conforms c s live ↔ ∀ d, d ∈ diff_store c s live → severity d = Ahead).
Proof.
  intros Hc. destruct (topo_order_spec (for_store c s)) as (ordered & Ho & Hp & _);
    [by eapply loaded_distinct|].
  destruct (plan_migration_ops history_prelude c s live ordered Ho) as (p & Ep & Es & Eb & _).
  exists p. split; [done|]. split; [|symmetry; apply diff_conforms].
  assert (is_empty p = true ↔ plan_ops s live ordered = []
            ∧ filter (λ d, severity d = Breaking) (diff_store c s live) = []) as ->.
  { rewrite <- Eb. unfold is_empty. rewrite Es. destruct (plan_ops s live ordered), (breaking p);
      naive_solver. }
  rewrite plan_ops_nil, breaking_nil. split.
  - intros [H1 H2] e He. apply entity_settled. split; [apply H1; by rewrite Hp|by apply H2].
  - intros H. split; intros e He; [rewrite Hp in He|]; by apply (entity_settled s live e), H.
Qed.

(** The plan and the differ agree: a plan always exists, it has nothing to
    do and nothing to refuse exactly when the live store conforms to the catalog,
    which is when every difference the differ reports is a column the store has
    beyond it. *)
Theorem plan_empty_iff history_prelude l c s live :
  from_entities l = Ok c →
  ∃ p, plan_migration history_prelude c s live = Some p
    ∧ (is_empty p = true ↔ conforms c s live)
    ∧ (conforms c s live ↔ ∀ d, d ∈ diff_store c s live → severity d = Ahead).
Proof. apply plan_empty_spec. Qed.

Lemma plan_applies_spec data_type history_prelude l c s live b :
  reads_back data_type → from_entities l = Ok c → plannable c s →
  ∃ p ops, (∀ op, op ∈ ops → op_of c s op) ∧ plan_migration history_prelude c s live = Some p
    ∧ statements p = render history_prelude s <$> ops
    ∧ (breaking p = [] →
       ∃ db p', exec_all data_type s ops (mkStoreDb live b) = Some db
         ∧ conforms c s (tables db)
         ∧ plan_migration history_prelude c s (tables db) = Some p' ∧ is_empty p' = true
         ∧ ∀ r cols, live !! r = Some cols → ∃ extra, tables db !! r = Some (cols ++ extra)).
Proof.
  intros Hback Hc Hpl. pose proof (loaded_distinct l c s Hc) as Hnd.
  destruct (topo_order_spec (for_store c s) Hnd) as (ordered & Ho & Hp & Hfirst).
  destruct (plan_migration_ops history_prelude c s live ordered Ho) as (p & Ep & Es & Eb & _).
  exists p, (plan_ops s live ordered). split_and!; [|done|done|].
  { intros op. apply plan_ops_of. intros e. by rewrite Hp. }
  rewrite Eb, breaking_nil.
  intros Hbr.
  assert (∀ e, e ∈ ordered → NoDup (column_names e)) as Hcols.
  { intros e He. rewrite Hp in He. eapply wf_unique, loaded_well_formed; done. }
  destruct (exec_plan data_type s live Hback ordered) with (by_rel := by_relation (for_store c s)) (b := b)
    as (db & Hexec & Hap); [by rewrite Hp|done| | | | | |by apply Hfirst, pl_acyclic|].
  - intros e He. rewrite Hp in He. by apply Hbr.
  - intros e e' He He'. rewrite Hp in He, He'. by apply (pl_companions _ _ Hpl).
  - intros Hs e col r He. rewrite Hp in He. setoid_rewrite Hp. by apply (pl_references _ _ Hpl Hs).
  - intros e He. rewrite Hp in He. by apply (statement_exists l c s e).
  - intros r e. rewrite Hp. by apply by_relation_lookup.
  - assert (conforms c s (tables db)) as Hconf.
    { intros e He. rewrite <- Hp in He. revert e He.
      apply (applied_conforms data_type s live Hback ordered Hcols); [|done].
      intros e He. rewrite Hp in He. by apply Hbr. }
    destruct (plan_empty_spec history_prelude l c s (tables db) Hc) as (p' & Ep' & Hempty & _).
    exists db, p'. split_and!; [done|done|done|by apply Hempty|apply (ap_kept _ _ _ _ _ _ Hap)].
Qed.

(** C12: one reconciliation is enough: when a plan has no breaking difference,
    each of its statements applies in its order, foreign keys and trigger
    functions included, the store conforms to the catalog afterwards, so that the
    next plan is empty, and no live column is lost or moved. *)
Theorem plan_applies data_type history_prelude l c s live b :
  reads_back data_type → from_entities l = Ok c → plannable c s →
  ∃ p ops, plan_migration history_prelude c s live = Some p
    ∧ statements p = render history_prelude s <$> ops
    ∧ (breaking p = [] →
       ∃ db p', exec_all data_type s ops (mkStoreDb live b) = Some db
         ∧ conforms c s (tables db)
         ∧ plan_migration history_prelude c s (tables db) = Some p' ∧ is_empty p' = true
         ∧ ∀ r cols, live !! r = Some cols → ∃ extra, tables db !! r = Some (cols ++ extra)).
Proof.
  intros Hback Hc Hpl.
  destruct (plan_applies_spec data_type history_prelude l c s live b) as (p & ops & _ & H); eauto.
Qed.

(** ** Checking a catalog *)

(** [plannable] as a computation; the absence of cycles is read off the order
    the plan itself computes. *)
Fixpoint referenced_first_check (by_rel : gmap string Entity) (before l : list Entity) : bool :=
  match l with
  | [] => true
  | e :: l =>
      forallb (λ c, match r ← references c; by_rel !! r_relation r with
                    | Some t => bool_decide (t = e) || bool_decide (t ∈ before)
                    | None => true
                    end) (columns e)
      && referenced_first_check by_rel (before ++ [e]) l
  end.

Definition resolves (es : list Entity) (r : Reference) : bool :=
  existsb (λ t, bool_decide (relation_ t = r_relation r) && bool_decide (r_column r ∈ column_names t)) es.

Definition plannable_check (c : Catalog) (s : Store) : bool :=
  let es := for_store c s in
  let rel := list_to_set (relation_ <$> es) : gset string in
  (bool_decide (s = Duckdb)
   || forallb (λ e, forallb (λ col, match references col with
                                    | Some r => resolves es r
                                    | None => true
                                    end) (columns e)) es)
  && match topo_order es with
     | Some ordered => referenced_first_check (by_relation es) [] ordered
     | None => false
     end
  && forallb (λ e, negb (history (generate e))
                   || negb (bool_decide (history_relation (relation_ e) ∈ rel))) es
  && (bool_decide (s = Postgres)
      || forallb (λ e, forallb (λ k, bool_decide (k ∈ column_names e)) (natural_key e)) es).

Lemma referenced_first_check_sound by_rel before l :
  referenced_first_check by_rel before l = true → referenced_first by_rel before →
  referenced_first by_rel (before ++ l).
Proof.
  revert before. induction l as [|e l IH]; intros before; simpl; [by rewrite app_nil_r|].
  intros [He Hl]%andb_true_iff Hb. rewrite cons_middle, (assoc_L (++)). apply IH; [done|].
  apply referenced_first_snoc; [done|]. intros y (c & r & Hc & Hr & Hy & Hne).
  rewrite forallb_forall in He. specialize (He c). rewrite Hr in He. simpl in He. rewrite Hy in He.
  specialize (He ltac:(by apply list_elem_of_In)).
  apply orb_true_iff in He as [He%bool_decide_eq_true|He%bool_decide_eq_true]; done.
Qed.

(** An order with every reference first rules cycles out. *)
Lemma referenced_first_acyclic by_rel l :
  (∀ r e, by_rel !! r = Some e → relation_ e = r) → (∀ e, known by_rel e → e ∈ l) → NoDup l →
  referenced_first by_rel l → acyclic by_rel.
Proof.
  intros Hkey Hall Hnd Hl.
  assert (∀ x y, tc (dep by_rel) x y → ∀ l1 l2, l = l1 ++ x :: l2 → y ∈ l1) as Hbefore.
  { intros x y. induction 1 as [x y Hd|x y z Hd _ IH]; intros l1 l2 E; [by apply (Hl _ _ _ E)|].
    pose proof (Hl _ _ _ E y Hd) as Hy. apply list_elem_of_split in Hy as (a & b & ->).
    rewrite <- app_assoc in E. apply elem_of_app. left. by eapply IH. }
  intros x Hx. pose proof (Hall x (tc_known _ Hkey _ _ Hx)) as Hin.
  apply list_elem_of_split in Hin as (a & b & E). pose proof (Hbefore x x Hx a b E) as Ha.
  rewrite E in Hnd. apply NoDup_app in Hnd as (_ & Hd & _). apply (Hd x Ha). left.
Qed.

Lemma plannable_check_sound l c s :
  from_entities l = Ok c → plannable_check c s = true → plannable c s.
Proof.
  intros Hc. pose proof (loaded_distinct l c s Hc) as Hnd. unfold plannable_check.
  rewrite !andb_true_iff. intros [[[Href Hord] Hcomp] Hnat]. split.
  - intros -> e col r He Hcol Hr. simpl in Href. rewrite forallb_forall in Href.
    specialize (Href e ltac:(by apply list_elem_of_In)). rewrite forallb_forall in Href.
    specialize (Href col ltac:(by apply list_elem_of_In)). rewrite Hr in Href.
    apply existsb_exists in Href as (t & Ht%list_elem_of_In & Hb).
    apply andb_true_iff in Hb as [?%bool_decide_eq_true ?%bool_decide_eq_true]. by exists t.
  - destruct (topo_order_spec _ Hnd) as (ordered & Ho & Hp & _). rewrite Ho in Hord.
    apply (referenced_first_acyclic _ ordered).
    + by intros r e [_ ?]%by_relation_lookup.
    + intros e He. rewrite Hp. by apply (by_relation_lookup _ (relation_ e)) in He as [? _].
    + rewrite Hp. by apply NoDup_fmap_1 in Hnd.
    + apply (referenced_first_check_sound _ []); [done|]. intros l1 x l2 E. by destruct l1.
  - intros e e' He He' Hh E. rewrite forallb_forall in Hcomp.
    specialize (Hcomp e ltac:(by apply list_elem_of_In)). rewrite Hh in Hcomp. simpl in Hcomp.
    apply negb_true_iff, bool_decide_eq_false in Hcomp. apply Hcomp.
    apply elem_of_list_to_set. rewrite E. by apply list_elem_of_fmap_2.
  - intros -> e He k Hk. simpl in Hnat. rewrite forallb_forall in Hnat.
    specialize (Hnat e ltac:(by apply list_elem_of_In)). rewrite forallb_forall in Hnat.
    specialize (Hnat k ltac:(by apply list_elem_of_In)). by apply bool_decide_eq_true in Hnat.
Qed.

(** ** A sample *)

Module SampleDiff.
Import SampleSpec.

(** The names the information schemas report, as their manuals have them. *)
Definition data_type (s : Store) (t : ColumnType) : string :=
  match s, t with
  | Postgres, Timestamp => "timestamp with time zone"
  | Postgres, ListVarchar => "ARRAY"
  | Postgres, t => postgres_type t
  | Duckdb, ListVarchar => "VARCHAR[]"
  | Duckdb, t => ducklake_type t
  end.

Lemma data_type_ok : reads_back data_type.
Proof. intros [] c; unfold expected_type, expected_pg_type; by destruct (col_type c). Qed.

(** A table that references [orgs], with a history. *)
Definition tickets : Entity :=
  mkEntity "entity" 1 "ticket" "tickets" "A table." ["id"] []
    (mkGenerate [Postgres] [Rust] [] true false)
    [col "id" Varchar false;
     mkColumn "org_id" Varchar false "The tenant." false None false
       (Some (mkReference "orgs" "id")) None;
     col "tags" ListVarchar true] [].

Definition tenants : Entity :=
  entity "org" "orgs" [col "id" Varchar false; col "name" Varchar true].

(** Declared before the table it references. *)
Definition catalog : Catalog := mkCatalog [tickets; tenants] ∅.

Lemma catalog_loads : from_entities [tickets; tenants] = Ok catalog.
Proof. reflexivity. Qed.

Lemma catalog_plannable : plannable catalog Postgres.
Proof. apply (plannable_check_sound _ _ _ catalog_loads). vm_compute. reflexivity. Qed.

(** [orgs] is live without its name and with a column of its own. *)
Definition live : gmap string (list LiveColumn) :=
  {["orgs" := [mkLive "id" "text" false; mkLive "slug" "text" true]]}.

Definition planned : option MigrationPlan := plan_migration "fn" catalog Postgres live.

Lemma planned_relations :
  (λ p, (p_relation <$> statements p, breaking p, d_relation <$> ahead p)) <$> planned
  = Some (["public.er_history()"; "public.orgs"; "public.tickets"], [], ["public.orgs"]).
Proof. vm_compute. reflexivity. Qed.
End SampleDiff.

Lemma topo_order_correct_witness :
  from_entities [SampleDiff.tickets; SampleDiff.tenants] = Ok SampleDiff.catalog
  ∧ ∃ ordered, topo_order (for_store SampleDiff.catalog Postgres) = Some ordered
      ∧ referenced_first (by_relation (for_store SampleDiff.catalog Postgres)) ordered.
Proof.
  split; [exact SampleDiff.catalog_loads|].
  destruct (topo_order_correct _ _ Postgres SampleDiff.catalog_loads) as (ordered & Ho & _ & H).
  exists ordered. split; [exact Ho|]. apply H, (pl_acyclic _ _ SampleDiff.catalog_plannable).
Defined.

Lemma plan_empty_iff_witness :
  from_entities [SampleDiff.tickets; SampleDiff.tenants] = Ok SampleDiff.catalog
  ∧ ¬ conforms SampleDiff.catalog Postgres SampleDiff.live.
Proof.
  split; [exact SampleDiff.catalog_loads|].
  destruct (plan_empty_iff "fn" _ _ Postgres SampleDiff.live SampleDiff.catalog_loads)
    as (p & Hp & Hc & _).
  intros H. apply Hc in H. pose proof SampleDiff.planned_relations as E.
  unfold SampleDiff.planned in E. rewrite Hp in E. unfold is_empty in H. simpl in E.
  destruct (statements p); [discriminate E|discriminate H].
Defined.

Lemma plan_applies_witness :
  ∃ db p', conforms SampleDiff.catalog Postgres (tables db)
    ∧ plan_migration "fn" SampleDiff.catalog Postgres (tables db) = Some p' ∧ is_empty p' = true.
Proof.
  destruct (plan_applies SampleDiff.data_type "fn" _ _ Postgres SampleDiff.live false
              SampleDiff.data_type_ok SampleDiff.catalog_loads SampleDiff.catalog_plannable)
    as (p & ops & Hp & _ & H).
  destruct H as (db & p' & _ & Hc & Hp' & He & _).
  - pose proof SampleDiff.planned_relations as E. unfold SampleDiff.planned in E. rewrite Hp in E.
    simpl in E. injection E as _ E _. exact E.
  - exists db, p'. split; [exact Hc|]. split; [exact Hp'|exact He].
Defined.

(** A column added by a plan carries neither its reference nor its accepted
    values, which the table's own statement has; the differ compares names,
    types and nullability and is satisfied. *)
Example added_column_unconstrained :
  let c := mkColumn "org_id" Varchar true "The tenant." false None false
             (Some (mkReference "orgs" "id")) (Some ["a"]) in
  pg_column c = "  org_id text REFERENCES orgs(id) CHECK (org_id IN ('a'))"
  ∧ add_column_sql Postgres "tickets" c = "ALTER TABLE public.tickets ADD COLUMN org_id text;".
Proof. split; reflexivity. Qed.
