(* ===== verification/EntityReconcile.v ===== *)
(** * The schema reconciler

    [er-entity-diff/src/reconcile.rs]: making a store match the catalog and
    writing its ledger ([schema_migrations]), with the catalog's version hash
    ([lib.rs]).  A store is a parameter: the columns it reports and the effect
    of a statement's text, [None] being an error.  The control database is
    reconciled in one transaction under an advisory lock, whose rows carry the
    time the transaction began; a lake commits its statements first and then
    writes its ledger row by row. *)

From S2P Require Hash.
From S2P Require Import Prelude Ids Versions Text EntitySpec EntityGen EntityDiff.
From stdpp Require Import pretty.

#[local] Open Scope Z_scope.
#[local] Abbreviation Live := (gmap string (list LiveColumn)).

(** ** Definitions *)

(** *** The catalog's version *)

Definition relation_le (a b : Entity) : Prop := String.le (relation_ a) (relation_ b).

#[global] Instance relation_le_dec : RelDecision relation_le.
Proof. intros a b. unfold relation_le. apply _. Defined.

Definition NUL : string := String Ascii.zero EmptyString.

(** The generated text of an entity; an error is the empty text. *)
Definition ddl_of (s : Store) (e : Entity) : string :=
  match s with
  | Duckdb => match emit_lake_ddl e with Ok text => text | Err _ => "" end
  | Postgres => match emit_postgres_ddl e with Ok text => text | Err _ => "" end
  end.

(** The bytes fed to the hasher, entity by entity. *)
Definition hash_preimage (s : Store) (l : list Entity) : string :=
  foldl (λ acc e, acc +:+ relation_ e +:+ NUL +:+ ddl_of s e +:+ NUL) "" l.

Definition catalog_hash (sha256 : string → list Z) (c : Catalog) (s : Store) : string :=
  hex_of (sha256 (hash_preimage s (merge_sort relation_le (for_store c s)))).

(** *** The outcome *)

Inductive ReconcileError :=
| EBreaking (items : list DiffItem)
| EPostgres
| EDuckdb
| ESpec (e : SpecError).

Record Reconciled := mkReconciled {
  r_hash : string;
  r_applied : list Planned;
  r_ahead : list DiffItem;
  ledger_was_current : bool;
}.

Definition render_items (items : list DiffItem) : string :=
  foldl (λ out d, out +:+ newline +:+ "  " +:+ d_relation d +:+ ": " +:+ message d) "" items.

Definition status (r : Reconciled) : string :=
  match r_applied r with [] => "current" | _ => "migrated" end.

Definition detail (r : Reconciled) : string :=
  let applied :=
    match r_applied r with
    | [] => "nothing pending"
    | l =>
        "applied " +:+ pretty (length l) +:+ ": "
        +:+ join_with ", " (set_sorted (list_to_set (p_relation <$> l)))
    end in
  let ahead :=
    match r_ahead r with
    | [] => []
    | l =>
        ["ahead: " +:+ join_with "; "
           ((λ d, d_relation d +:+ " (" +:+ message d +:+ ")") <$> l)]
    end in
  join_with "; " (applied :: ahead).

Definition ledger_kind (applied : bool) : string := if applied then "applied" else "verified".

(** *** The ledger *)

(** A row of [schema_migrations]; the control plane's has no snapshot. *)
Record LedgerRow := mkLedgerRow {
  g_id : string;
  g_created_at : Z;
  g_catalog_hash : string;
  g_kind : string;
  g_relation : option string;
  g_statement : option string;
  g_applied_by : string;
  g_snapshot_id : option Z;
}.

(** [create::record]; the id is the primary key. *)
Definition record (row : LedgerRow) (ledger : list LedgerRow) : option (list LedgerRow) :=
  if decide (g_id row ∈ g_id <$> ledger) then None else Some (ledger ++ [row]).

(** [ORDER BY created_at DESC, id DESC LIMIT 1]. *)
Definition newest_first (a b : LedgerRow) : comparison :=
  match g_created_at b ?= g_created_at a with
  | Eq => String.compare (g_id b) (g_id a)
  | o => o
  end.

Definition latest (ledger : list LedgerRow) : option LedgerRow := min_by newest_first ledger.

(** The rows one reconciliation writes; [ids] are the ids it mints. *)
Definition ledger_rows (hash applied_by : string) (now : Z) (snapshot : option Z)
    (ids : nat → string) (was_current : bool) (stmts : list Planned) : list LedgerRow :=
  match stmts with
  | [] =>
      if was_current then []
      else [mkLedgerRow (ids 0%nat) now hash (ledger_kind false) None None applied_by snapshot]
  | _ =>
      imap (λ i p, mkLedgerRow (ids i) now hash (ledger_kind true) (Some (p_relation p))
                     (Some (sql p)) applied_by snapshot) stmts
  end.

(** The rows are recorded one by one; what was written before an error is
    returned with it. *)
Fixpoint record_all (rows ledger : list LedgerRow) : bool * list LedgerRow :=
  match rows with
  | [] => (true, ledger)
  | row :: rows =>
      match record row ledger with
      | None => (false, ledger)
      | Some ledger => record_all rows ledger
      end
  end.

Section reconcile.
Context {S : Type} (read : S → Live) (run : string → S → option S).
Context (sha256 : string → list Z) (history_prelude : string).

Record ReconcileDb := mkReconcileDb { store : S; ledger : list LedgerRow }.

(** [read_postgres_columns] and [read_lake_columns] of the named relations. *)
Definition read_columns (relations : list string) (st : S) : Live :=
  filter (λ p, p.1 ∈ relations) (read st).

Fixpoint run_all (stmts : list Planned) (st : S) : option S :=
  match stmts with [] => Some st | p :: stmts => st ← run (sql p) st; run_all stmts st end.

Definition is_current (hash : string) (ledger : list LedgerRow) : bool :=
  bool_decide (g_catalog_hash <$> latest ledger = Some hash).

(** [None] is the planner's recursion bound, which is never met. *)
Definition reconcile_postgres (c : Catalog) (applied_by : string) (now : Z) (ids : nat → string)
    (db : ReconcileDb) : option (result Reconciled ReconcileError * ReconcileDb) :=
  let hash := catalog_hash sha256 c Postgres in
  plan ← plan_migration history_prelude c Postgres
           (read_columns (postgres_relations c) (store db));
  Some match breaking plan with
       | [] =>
           match run_all (statements plan) (store db) with
           | None => (Err EPostgres, db)
           | Some st =>
               let current := is_current hash (ledger db) in
               let rows := ledger_rows hash applied_by now None ids current (statements plan) in
               match record_all rows (ledger db) with
               | (false, _) => (Err EPostgres, db)
               | (true, l) =>
                   (Ok (mkReconciled hash (statements plan) (ahead plan) current),
                    mkReconcileDb st l)
               end
           end
       | items => (Err (EBreaking items), db)
       end.

Definition lake_relations (stage : gset string) (c : Catalog) : list string :=
  relation_ <$> filter (λ e, relation_ e ∉ stage) (for_store c Duckdb).

(** [snapshot_of] is the newest snapshot of a lake. *)
Definition reconcile_lake (stage : gset string) (snapshot_of : S → option Z) (c : Catalog)
    (applied_by : string) (now : Z) (ids : nat → string) (db : ReconcileDb) :
    option (result Reconciled ReconcileError * ReconcileDb) :=
  match catalog_without c Duckdb stage with
  | Err e => Some (Err (ESpec e), db)
  | Ok owned =>
      let hash := catalog_hash sha256 c Duckdb in
      plan ← plan_migration history_prelude owned Duckdb
               (read_columns (relation_ <$> for_store owned Duckdb) (store db));
      Some match breaking plan with
           | [] =>
               match run_all (statements plan) (store db) with
               | None => (Err EDuckdb, db)
               | Some st =>
                   let current := is_current hash (ledger db) in
                   let rows := ledger_rows hash applied_by now (snapshot_of st) ids current
                                 (statements plan) in
                   match record_all rows (ledger db) with
                   | (false, l) => (Err EDuckdb, mkReconcileDb st l)
                   | (true, l) =>
                       (Ok (mkReconciled hash (statements plan) (ahead plan) current),
                        mkReconcileDb st l)
                   end
               end
           | items => (Err (EBreaking items), db)
           end
  end.
End reconcile.
Arguments mkReconcileDb {S}.
Arguments store {S}.
Arguments ledger {S}.

(** ** Lemmas *)

(** *** The newest row *)

Lemma latest_new old new now :
  new ≠ [] → (∀ r, r ∈ old → g_created_at r < now) → (∀ r, r ∈ new → g_created_at r = now) →
  ∃ r, latest (old ++ new) = Some r ∧ r ∈ new.
Proof.
  intros Hne Hold Hnew.
  assert (∀ l x, x ∈ new → (∀ r, r ∈ l → r ∈ new) →
    foldl (λ b y, match newest_first b y with Gt => y | _ => b end) x l ∈ new) as Hstay.
  { induction l as [|y l IH]; intros x Hx Hl; [done|]. simpl.
    destruct (newest_first x y); apply IH; set_solver. }
  assert (∀ l x, x ∈ old → (∀ r, r ∈ l → r ∈ old) →
    foldl (λ b y, match newest_first b y with Gt => y | _ => b end) x l ∈ old) as Hgo.
  { induction l as [|y l IH]; intros x Hx Hl; [done|]. simpl.
    destruct (newest_first x y); apply IH; set_solver. }
  destruct new as [|n new]; [done|]. destruct old as [|o old]; simpl.
  { eexists. split; [reflexivity|]. apply Hstay; set_solver. }
  eexists. split; [reflexivity|]. rewrite foldl_app. simpl.
  set (b := foldl _ o old).
  assert (b ∈ o :: old) as Hb by (apply Hgo; set_solver).
  assert (newest_first b n = Gt) as ->.
  { unfold newest_first. specialize (Hold b Hb). specialize (Hnew n ltac:(left)).
    rewrite (proj2 (Z.compare_gt_iff _ _)); [done|lia]. }
  apply Hstay; set_solver.
Qed.

(** *** The rows written *)

Lemma record_all_spec rows l :
  (∃ l1, l1 `prefix_of` rows ∧ (record_all rows l).2 = l ++ l1)
  ∧ ((record_all rows l).1 = true → (record_all rows l).2 = l ++ rows)
  ∧ (NoDup (g_id <$> rows) → (∀ i, i ∈ g_id <$> rows → i ∉ g_id <$> l) →
     (record_all rows l).1 = true).
Proof.
  revert l. induction rows as [|row rows IH]; intros l; simpl.
  { split_and!; [exists []; by rewrite app_nil_r|by rewrite app_nil_r|done]. }
  unfold record. destruct (decide _) as [Hin|Hin]; simpl.
  - split_and!; [exists []; rewrite app_nil_r; split; [apply prefix_nil|done]|done|].
    intros _ H. by destruct (H (g_id row)); [left|].
  - destruct (IH (l ++ [row])) as ((l1 & Hp & E) & Ht & Hok). split_and!.
    + exists (row :: l1). split; [by apply prefix_cons|]. by rewrite E, <- (assoc_L (++)).
    + intros H. by rewrite Ht, <- (assoc_L (++)).
    + intros [Hrow Hnd]%NoDup_cons H. apply Hok; [done|]. intros i Hi.
      rewrite fmap_app, not_elem_of_app. split; [apply H; by right|].
      simpl. intros ->%list_elem_of_singleton. done.
Qed.

Lemma ledger_rows_created hash by_ now snapshot ids current stmts r :
  r ∈ ledger_rows hash by_ now snapshot ids current stmts →
  g_created_at r = now ∧ g_catalog_hash r = hash.
Proof.
  unfold ledger_rows. destruct stmts as [|p stmts].
  - destruct current; [by intros []%not_elem_of_nil|]. by intros ->%list_elem_of_singleton.
  - intros (i & x & -> & _)%elem_of_lookup_imap. done.
Qed.

Lemma ledger_rows_ids hash by_ now snapshot ids current stmts :
  g_id <$> ledger_rows hash by_ now snapshot ids current stmts
  = ids <$> seq 0 (length (ledger_rows hash by_ now snapshot ids current stmts)).
Proof.
  unfold ledger_rows. destruct stmts as [|p stmts]; [by destruct current|].
  rewrite fmap_imap, length_imap. clear. generalize (p :: stmts). intros l.
  apply list_eq. intros i. rewrite list_lookup_imap, list_lookup_fmap.
  destruct (l !! i) eqn:E; simpl.
  - rewrite lookup_seq_lt; [done|]. by eapply lookup_lt_Some.
  - rewrite lookup_seq_ge; [done|]. by apply lookup_ge_None.
Qed.

(** *** What a plan reads *)

Lemma bind_ext_in {A B} (f g : A → list B) l :
  (∀ x, x ∈ l → f x = g x) → l ≫= f = l ≫= g.
Proof.
  induction l as [|x l IH]; intros H; [done|]. rewrite !bind_cons, H by left.
  f_equal. apply IH. intros y Hy. apply H. by right.
Qed.

(** Two readings agree on what the catalog declares. *)
Definition same_reading (c : Catalog) (s : Store) (live live' : Live) : Prop :=
  ∀ e, e ∈ for_store c s →
    live !! relation_ e = live' !! relation_ e
    ∧ (s = Postgres → history (generate e) = true →
       live !! history_relation (relation_ e) = live' !! history_relation (relation_ e)).

Lemma diff_store_ext c s live live' :
  same_reading c s live live' → diff_store c s live = diff_store c s live'.
Proof.
  intros H. unfold diff_store. f_equal.
  - apply bind_ext_in. intros e He. unfold diff_relation. by rewrite (proj1 (H e He)).
  - destruct (decide (s = Postgres)) as [Hs|]; [|done]. apply bind_ext_in. intros e He.
    unfold diff_companion. destruct (history (generate e)) eqn:Hh; [|done]. simpl.
    by rewrite (proj2 (H e He) Hs Hh).
Qed.

Lemma plan_migration_ext prelude l c s live live' :
  from_entities l = Ok c → same_reading c s live live' →
  plan_migration prelude c s live = plan_migration prelude c s live'.
Proof.
  intros Hc H. unfold plan_migration. rewrite (diff_store_ext c s live live' H).
  destruct (topo_order_spec (for_store c s)) as (ordered & -> & Hp & _);
    [by eapply loaded_distinct|]. simpl.
  assert (plan_entity s live <$> ordered = plan_entity s live' <$> ordered) as ->; [|done].
  apply list_fmap_ext. intros i e He%list_elem_of_lookup_2. rewrite Hp in He.
  destruct (H e He) as [Hr Hh]. unfold plan_entity, lacks_companion. rewrite Hr.
  destruct (decide (s = Postgres)) as [Hs|Hs]; [|by rewrite bool_decide_eq_false_2].
  destruct (history (generate e)); [|by rewrite !andb_false_r].
  by rewrite (Hh Hs eq_refl).
Qed.

Lemma read_columns_same {S} (read : S → Live) c st :
  same_reading c Postgres (read_columns read (postgres_relations c) st) (read st).
Proof.
  intros e He. unfold read_columns.
  assert (∀ r, r ∈ postgres_relations c →
            filter (λ p : string * list LiveColumn, p.1 ∈ postgres_relations c) (read st) !! r
            = read st !! r) as Hl.
  { intros r Hr. apply option_eq. intros cols. rewrite map_lookup_filter_Some. naive_solver. }
  split; [|intros _ Hh]; apply Hl; apply list_elem_of_bind; exists e; (split; [|done]); [left|].
  rewrite Hh. right. left.
Qed.

Lemma read_columns_lake {S} (read : S → Live) c st :
  same_reading c Duckdb (read_columns read (relation_ <$> for_store c Duckdb) st) (read st).
Proof.
  intros e He. split; [|done]. unfold read_columns. apply option_eq. intros cols.
  rewrite map_lookup_filter_Some. split; [by intros [? _]|]. intros H. split; [done|].
  cbn [fst]. by apply list_elem_of_fmap_2.
Qed.

(** *** The texts of a plan's operations *)

(** The store runs the text of each operation a plan can hold as the operation. *)
Definition implements (data_type : Store → ColumnType → string) (prelude : string)
    (c : Catalog) (s : Store) (run : string → StoreDb → option StoreDb) : Prop :=
  ∀ op db, op_of c s op → run (sql (render prelude s op)) db = exec data_type s op db.

Lemma run_all_exec data_type prelude c s run ops db :
  implements data_type prelude c s run → (∀ op, op ∈ ops → op_of c s op) →
  run_all run (render prelude s <$> ops) db = exec_all data_type s ops db.
Proof.
  intros Hi. revert db. induction ops as [|op ops IH]; intros db Hops; [done|]. simpl.
  rewrite Hi by (apply Hops; left). destruct (exec data_type s op db); [|done]. simpl.
  apply IH. intros op' Hop. apply Hops. by right.
Qed.

(** *** A second reconciliation *)

Section twice.
Context (sha256 : string → list Z) (prelude : string) (run : string → StoreDb → option StoreDb).

Lemma reconcile_again l c by_ now ids st lg p :
  from_entities l = Ok c → plan_migration prelude c Postgres (tables st) = Some p →
  is_empty p = true → is_current (catalog_hash sha256 c Postgres) lg = true →
  reconcile_postgres tables run sha256 prelude c by_ now ids (mkReconcileDb st lg)
  = Some (Ok (mkReconciled (catalog_hash sha256 c Postgres) [] (ahead p) true), mkReconcileDb st lg).
Proof.
  intros Hc Hp He Hl. unfold reconcile_postgres. simpl.
  rewrite (plan_migration_ext prelude l c Postgres _ (tables st) Hc) by apply read_columns_same.
  rewrite Hp. simpl. unfold is_empty in He.
  destruct (statements p), (breaking p); try discriminate He. simpl. by rewrite Hl.
Qed.

Lemma recorded_current hash by_ now snapshot ids lg stmts :
  (∀ r, r ∈ lg → g_created_at r < now) →
  is_current hash (lg ++ ledger_rows hash by_ now snapshot ids (is_current hash lg) stmts) = true.
Proof.
  intros Hlg. destruct (decide (ledger_rows hash by_ now snapshot ids (is_current hash lg) stmts = []))
    as [E|Hne].
  - rewrite E, app_nil_r. unfold ledger_rows in E. destruct stmts; [|done].
    by destruct (is_current hash lg).
  - destruct (latest_new lg _ now Hne Hlg) as (r & Hr & Hin).
    { intros r Hr. by apply ledger_rows_created in Hr as [? _]. }
    unfold is_current at 1. rewrite Hr. simpl. apply ledger_rows_created in Hin as [_ ->].
    by apply bool_decide_eq_true.
Qed.
End twice.

(** ** Properties *)

(** C13: a reconciliation of the control database settles it: when nothing is
    breaking and its clock is past the ledger's, it succeeds, the store conforms,
    every statement it ran has its row in the ledger under the catalog's version
    (a verification when there was none to run and the version is new), and every
    later reconciliation finds the store current and writes nothing. *)
Theorem reconcile_postgres_settles data_type sha256 prelude run l c by_ now ids db p :
  reads_back data_type → from_entities l = Ok c → plannable c Postgres →
  implements data_type prelude c Postgres run →
  plan_migration prelude c Postgres (tables (store db)) = Some p → breaking p = [] →
  (∀ r, r ∈ ledger db → g_created_at r < now) →
  (∀ i j, ids i = ids j → i = j) → (∀ i, ids i ∉ g_id <$> ledger db) →
  let hash := catalog_hash sha256 c Postgres in
  ∃ r db',
    reconcile_postgres tables run sha256 prelude c by_ now ids db = Some (Ok r, db')
    ∧ conforms c Postgres (tables (store db'))
    ∧ r_applied r = statements p
    ∧ ledger db' = ledger db ++ ledger_rows hash by_ now None ids (is_current hash (ledger db))
                                  (statements p)
    ∧ ∀ by' now' ids', ∃ r',
        reconcile_postgres tables run sha256 prelude c by' now' ids' db' = Some (Ok r', db')
        ∧ r_applied r' = [] ∧ ledger_was_current r' = true.
Proof.
  intros Hback Hc Hpl Hrun Hp Hb Hnow Hinj Hfresh hash.
  destruct (plan_applies_spec data_type prelude l c Postgres (tables (store db))
              (has_er_history (store db)) Hback Hc Hpl)
    as (p0 & ops & Hops & Hp0 & Hst & Happ).
  rewrite Hp in Hp0. injection Hp0 as <-.
  destruct (Happ Hb) as (st & p' & Hexec & Hconf & Hp' & Hempty & _).
  assert (run_all run (statements p) (store db) = Some st) as Hra.
  { rewrite Hst, (run_all_exec data_type prelude c Postgres) by done.
    by destruct (store db). }
  set (rows := ledger_rows hash by_ now None ids (is_current hash (ledger db)) (statements p)).
  destruct (record_all_spec rows (ledger db)) as (_ & Hlg & Hok).
  assert ((record_all rows (ledger db)).1 = true) as Hrec.
  { apply Hok; unfold rows; rewrite ledger_rows_ids.
    - apply NoDup_fmap_2_strong; [by auto|apply NoDup_seq].
    - by intros i (j & -> & _)%list_elem_of_fmap. }
  exists (mkReconciled hash (statements p) (ahead p) (is_current hash (ledger db))),
    (mkReconcileDb st (ledger db ++ rows)).
  split_and!; [|done|done|done|].
  - unfold reconcile_postgres.
    rewrite (plan_migration_ext prelude l c Postgres _ (tables (store db)) Hc) by apply read_columns_same.
    rewrite Hp. simpl. rewrite Hb, Hra. fold hash rows.
    rewrite <- (Hlg Hrec). destruct (record_all rows (ledger db)) as [b lg]. simpl in *. by subst b.
  - intros by' now' ids'. exists (mkReconciled hash [] (ahead p') true). split; [|by split].
    apply (reconcile_again sha256 prelude run l c by' now' ids' _ _ p'); [done|done|done|].
    by apply recorded_current.
Qed.

(** A refused or failed reconciliation of the control database leaves it as
    it was; of a lake, it leaves the store and its ledger as they were, unless
    the failure is the ledger's own: then the statements are committed and the
    ledger holds a first part of their rows. *)
Theorem reconcile_atomic {S} (read : S → Live) run sha256 prelude stage snapshot_of c by_ now ids
    (db db' : ReconcileDb (S := S)) e :
  (reconcile_postgres read run sha256 prelude c by_ now ids db = Some (Err e, db') → db' = db)
  ∧ (reconcile_lake read run sha256 prelude stage snapshot_of c by_ now ids db = Some (Err e, db') →
     db' = db
     ∨ e = EDuckdb ∧ ∃ stmts rows rest,
         run_all run stmts (store db) = Some (store db')
         ∧ ledger_rows (catalog_hash sha256 c Duckdb) by_ now (snapshot_of (store db')) ids
             (is_current (catalog_hash sha256 c Duckdb) (ledger db)) stmts = rows ++ rest
         ∧ ledger db' = ledger db ++ rows).
Proof.
  split.
  - unfold reconcile_postgres. intros (p & Hp & H)%bind_Some.
    destruct (breaking p); [|by injection H as _ <-].
    destruct (run_all _ _ _); [|by injection H as _ <-].
    destruct (record_all _ _) as [[] lg]; [discriminate H|by injection H as _ <-].
  - unfold reconcile_lake. destruct (catalog_without _ _ _) as [owned|err]; [|by intros [= _ <-]; left].
    intros (p & Hp & H)%bind_Some. destruct (breaking p); [|injection H as _ <-; by left].
    destruct (run_all _ _ _) as [st|] eqn:Hr; [|injection H as _ <-; by left].
    match type of H with context [record_all ?rows ?lg] =>
      destruct (record_all_spec rows lg) as ((l1 & [rest Hpre] & E) & _ & _);
      destruct (record_all rows lg) as [[] lg'] end; [discriminate H|].
    injection H as <- <-. right. split; [done|]. exists (statements p), l1, rest. by split_and!.
Qed.

(** *** The catalog's version *)

(** What a version stands for: the statement of every relation. *)
Definition rendered (s : Store) (l : list Entity) : list (string * string) :=
  (λ e, (relation_ e, ddl_of s e)) <$> l.

Fixpoint encode (l : list (string * string)) : string :=
  match l with
  | [] => ""
  | (r, d) :: l => r +:+ String Ascii.zero (d +:+ String Ascii.zero (encode l))
  end.

Definition nul_free (l : list (string * string)) : Prop :=
  Forall (λ p, contains Ascii.zero p.1 = false ∧ contains Ascii.zero p.2 = false) l.

Lemma hash_preimage_encode s l : hash_preimage s l = encode (rendered s l).
Proof.
  assert (∀ acc, foldl (λ acc e, acc +:+ relation_ e +:+ NUL +:+ ddl_of s e +:+ NUL) acc l
                 = acc +:+ encode (rendered s l)) as H.
  { induction l as [|e l IH]; intros acc; simpl; [by rewrite str_app_nil_r|].
    rewrite IH. rewrite <- !str_app_assoc. done. }
  apply (H "").
Qed.

Lemma encode_inj l l' : nul_free l → nul_free l' → encode l = encode l' → l = l'.
Proof.
  intros Hl. revert l'. induction Hl as [|[r d] l [Hr Hd] Hl IH]; intros [|[r' d'] l'] Hl' E; simpl in *.
  - done.
  - by destruct r'.
  - by destruct r.
  - apply Forall_cons in Hl' as [[Hr' Hd'] Hl']. simpl in *.
    apply (f_equal (split_once Ascii.zero)) in E.
    rewrite !split_once_app in E by done. injection E as -> E.
    apply (f_equal (split_once Ascii.zero)) in E.
    rewrite !split_once_app in E by done. injection E as -> E. f_equal. by apply IH.
Qed.

#[global] Instance relation_le_total : Total relation_le.
Proof. intros a b. unfold relation_le. apply (total String.le). Qed.

#[global] Instance relation_le_trans : Transitive relation_le.
Proof. intros a b c. unfold relation_le. apply transitivity. Qed.

Definition pair_le (a b : string * string) : Prop := String.le a.1 b.1.

Lemma rendered_sorted s l : StronglySorted pair_le (rendered s (merge_sort relation_le l)).
Proof.
  pose proof (StronglySorted_merge_sort relation_le l) as H. unfold rendered.
  induction H as [|e l' _ IH Hall]; simpl; constructor; [done|].
  apply Forall_fmap. eapply Forall_impl; [exact Hall|]. done.
Qed.

Lemma rendered_unique s l l' :
  NoDup (relation_ <$> l) → rendered s l ≡ₚ rendered s l' →
  rendered s (merge_sort relation_le l) = rendered s (merge_sort relation_le l').
Proof.
  intros Hnd Hp. apply (StronglySorted_unique_strong pair_le); [|apply rendered_sorted..|].
  - intros [x1 d1] [x2 d2]. unfold rendered. rewrite !merge_sort_Permutation. fold (rendered s l) (rendered s l').
    rewrite <- Hp. intros H1 H2 L1 L2.
    assert (x1 = x2) as -> by (by apply (anti_symm String.le)).
    apply list_elem_of_fmap in H1 as (e1 & [= -> ->] & He1).
    apply list_elem_of_fmap in H2 as (e2 & [= E ->] & He2).
    by rewrite (Sql.NoDup_fmap_eq relation_ l e1 e2).
  - unfold rendered. by rewrite !merge_sort_Permutation.
Qed.

(** Two catalogs have one version exactly when they render the same
    statement for the same relations of the store, in whatever order their
    entities come, as long as SHA-256 does not collide on the two and no name or
    statement holds a NUL. *)
Theorem catalog_hash_correct sha256 l l' c c' s :
  Hash.digest_ok sha256 → from_entities l = Ok c → from_entities l' = Ok c' →
  nul_free (rendered s (for_store c s)) → nul_free (rendered s (for_store c' s)) →
  Hash.collision_free sha256 [hash_preimage s (merge_sort relation_le (for_store c s));
                              hash_preimage s (merge_sort relation_le (for_store c' s))] →
  catalog_hash sha256 c s = catalog_hash sha256 c' s
  ↔ rendered s (for_store c s) ≡ₚ rendered s (for_store c' s).
Proof.
  intros Hd Hc Hc' Hn Hn' Hcf.
  assert (∀ l, nul_free (rendered s l) → nul_free (rendered s (merge_sort relation_le l))) as Hns.
  { intros es. unfold nul_free, rendered. by rewrite merge_sort_Permutation. }
  split.
  - intros E. apply (Hash.hash_hex_inj sha256 Hd _ _ _ Hcf) in E; [|left|right; left].
    rewrite !hash_preimage_encode in E. apply encode_inj in E; [|by apply Hns..].
    apply (f_equal (λ l, l)) in E. unfold rendered in *.
    rewrite <- (merge_sort_Permutation relation_le (for_store c s)), E.
    by rewrite merge_sort_Permutation.
  - intros Hp. unfold catalog_hash. rewrite !hash_preimage_encode.
    by rewrite (rendered_unique s (for_store c s) (for_store c' s)) by
      (done || by eapply loaded_distinct).
Qed.

(** ** A sample *)

Module SampleReconcile.
Import SampleDiff.

(** The operations a plan for the sample can hold. *)
Definition ops : list Op :=
  [CreatePrelude; CreateTable tickets; CreateTable tenants; CreateCompanion tickets]
  ++ (AddColumn tickets <$> columns tickets) ++ (AddColumn tenants <$> columns tenants).

Definition texts : list string := (λ op, sql (render "fn" Postgres op)) <$> ops.

(** A store that runs the texts of those operations and no other. *)
Definition run (text : string) (db : StoreDb) : option StoreDb :=
  op ← find_first (λ op, bool_decide (sql (render "fn" Postgres op) = text)) ops;
  exec data_type Postgres op db.

Lemma ops_complete op : op_of catalog Postgres op → op ∈ ops.
Proof.
  assert (∀ e, e ∈ for_store catalog Postgres → e = tickets ∨ e = tenants) as He.
  { intros e H. change (for_store catalog Postgres) with [tickets; tenants] in H. set_solver. }
  unfold ops. destruct op as [|e|e c|e]; intros H.
  - left.
  - apply He in H as [-> | ->]; set_solver.
  - destruct H as [H Hc]. rewrite !elem_of_app. right.
    apply He in H as [-> | ->]; [left|right]; by apply list_elem_of_fmap_2.
  - destruct H as [H Hh]. apply He in H as [-> | ->]; [set_solver|discriminate Hh].
Qed.

Lemma texts_distinct : NoDup texts.
Proof. apply (bool_decide_unpack _). vm_compute. reflexivity. Qed.

Lemma run_implements : implements data_type "fn" catalog Postgres run.
Proof.
  intros op db Hop%ops_complete. unfold run.
  destruct (find_first _ ops) as [op'|] eqn:E; simpl.
  - apply find_first_Some in E as [Hin E%bool_decide_eq_true].
    by rewrite (Sql.NoDup_fmap_eq (λ op, sql (render "fn" Postgres op)) ops op' op texts_distinct Hin Hop E).
  - rewrite find_first_None in E. specialize (E op Hop). by apply bool_decide_eq_false in E.
Qed.

Definition db : ReconcileDb (S := StoreDb) := mkReconcileDb (mkStoreDb live false) [].

Definition ids (i : nat) : string := pretty i.

Definition reordered : Catalog := mkCatalog [tenants; tickets] ∅.

Definition row (id : string) (at_ : Z) (hash : string) : LedgerRow :=
  mkLedgerRow id at_ hash "applied" None None "er" None.
End SampleReconcile.

Lemma reconcile_postgres_settles_witness :
  ∃ p r db',
    plan_migration "fn" SampleDiff.catalog Postgres SampleDiff.live = Some p ∧ breaking p = []
    ∧ reconcile_postgres tables SampleReconcile.run Hash.SampleDigest.sha "fn" SampleDiff.catalog "er" 7
        SampleReconcile.ids SampleReconcile.db = Some (Ok r, db')
    ∧ conforms SampleDiff.catalog Postgres (tables (store db')).
Proof.
  destruct (plan_migration "fn" SampleDiff.catalog Postgres SampleDiff.live) as [p|] eqn:Hp;
    [|by vm_compute in Hp].
  assert (breaking p = []) as Hb.
  { pose proof SampleDiff.planned_relations as E. unfold SampleDiff.planned in E. rewrite Hp in E.
    simpl in E. injection E as _ E _. exact E. }
  destruct (reconcile_postgres_settles SampleDiff.data_type Hash.SampleDigest.sha "fn"
              SampleReconcile.run _ _ "er" 7 SampleReconcile.ids SampleReconcile.db p
              SampleDiff.data_type_ok SampleDiff.catalog_loads SampleDiff.catalog_plannable
              SampleReconcile.run_implements Hp Hb) as (r & db' & H1 & H2 & _).
  - intros r Hr. destruct (not_elem_of_nil r Hr).
  - intros i j E. exact (inj pretty i j E).
  - intros i. exact (not_elem_of_nil (SampleReconcile.ids i)).
  - exists p, r, db'. split; [reflexivity|]. split; [exact Hb|]. split; [exact H1|exact H2].
Defined.

Lemma catalog_hash_correct_witness :
  catalog_hash Hash.SampleDigest.sha SampleDiff.catalog Postgres
  = catalog_hash Hash.SampleDigest.sha SampleReconcile.reordered Postgres.
Proof.
  apply (catalog_hash_correct Hash.SampleDigest.sha [SampleDiff.tickets; SampleDiff.tenants]
           [SampleDiff.tenants; SampleDiff.tickets]).
  - exact Hash.SampleDigest.sha_ok.
  - exact SampleDiff.catalog_loads.
  - reflexivity.
  - apply (bool_decide_unpack _). vm_compute. reflexivity.
  - apply (bool_decide_unpack _). vm_compute. reflexivity.
  - apply Hash.SampleDigest.collision_freeb_sound. vm_compute. reflexivity.
  - apply Permutation_swap.
Defined.

(** The newest row is the one of the transaction that began last, not of the
    one that took the lock last: a reconciliation that waited for the lock
    behind a later one records a version the ledger does not report. *)
Example late_lock_hides_version :
  let first := SampleReconcile.row "a" 5 "new" in
  let second := SampleReconcile.row "b" 4 "old" in
  record_all [second] [first] = (true, [first; second])
  ∧ g_catalog_hash <$> latest [first; second] = Some "new".
Proof. split; reflexivity. Qed.
