(* ===== verification/EntityRules.v ===== *)
(** * The entity rules' own words

    [er-entity-lint/src/rules]: the identity every rule carries, with its
    worked examples, from which [--list], [--explain] and the generated
    reference are read.  The texts are the UTF-8 bytes of the source's. *)

From S2P Require Import Prelude.

(** ** Definitions *)

Inductive LintSeverity := SevError | SevWarning.

#[global] Instance LintSeverity_eq_dec : EqDecision LintSeverity.
Proof. solve_decision. Defined.

Record RuleInfo := mkRuleInfo {
  code : string;
  title : string;
  explain_text : string;
  conforming : string;
  violating : string;
  rule_severity : LintSeverity;
}.

(** A quotation mark. *)
Definition dq : string := String (Ascii.ascii_of_nat 34) EmptyString.

Definition V1_GOOD : string :=
  "columns:
  - name: id
    type: varchar
    nullable: false
    description: " +:+ dq +:+ "The row's unique id (UUIDv7, minted at creation)." +:+ dq +:+ "
".

Definition V1_BAD : string :=
  "columns:
  - name: record_key
    type: varchar
    nullable: false
    description: " +:+ dq +:+ "No id column at all." +:+ dq +:+ "
".

Definition V2_GOOD : string :=
  "key: [id]
natural_key: [record_key]
".

Definition V2_BAD : string :=
  "key: [record_key]
".

Definition V3_GOOD : string :=
  "columns:
  - name: id
    type: varchar
    nullable: false
    description: " +:+ dq +:+ "…" +:+ dq +:+ "
  - name: record_key
    type: varchar
    description: " +:+ dq +:+ "…" +:+ dq +:+ "
".

Definition V3_BAD : string :=
  "columns:
  - name: record_key
    type: varchar
    description: " +:+ dq +:+ "…" +:+ dq +:+ "
  - name: id
    type: varchar
    nullable: false
    description: " +:+ dq +:+ "…" +:+ dq +:+ "
".

Definition V4_GOOD : string :=
  "  - name: created_at
    type: timestamp
    nullable: false
    description: " +:+ dq +:+ "…" +:+ dq +:+ "
  - name: updated_at
    type: timestamp
    nullable: false
    description: " +:+ dq +:+ "…" +:+ dq +:+ "
".

Definition V4_BAD : string :=
  "  - name: created_at
    type: timestamp
    description: " +:+ dq +:+ "Nullable, and no updated_at at all." +:+ dq +:+ "
".

Definition V5_GOOD : string :=
  "  - name: created_at
    type: timestamp
    nullable: false
    default: " +:+ dq +:+ "now()" +:+ dq +:+ "
    volatile: true
    description: " +:+ dq +:+ "…" +:+ dq +:+ "
".

Definition V5_BAD : string :=
  "  - name: created_at
    type: timestamp
    nullable: false
    description: " +:+ dq +:+ "No default, not volatile — but the entity is on postgres." +:+ dq +:+ "
".

Definition V6_GOOD : string :=
  "  - name: created_at
    type: timestamp
    nullable: false
    description: " +:+ dq +:+ "Creation stamp (the run's logical timestamp)." +:+ dq +:+ "
".

Definition V6_BAD : string :=
  "  - name: created_at
    type: timestamp
    nullable: false
    volatile: true
    description: " +:+ dq +:+ "…" +:+ dq +:+ "
".

Definition V7_GOOD : string :=
  "  - name: org_id
    type: varchar
    nullable: false
    references: { relation: orgs, column: id }
    description: " +:+ dq +:+ "…" +:+ dq +:+ "
".

Definition V7_BAD : string :=
  "  - name: tenant
    type: varchar
    nullable: false
    references: { relation: orgs, column: id }
    description: " +:+ dq +:+ "…" +:+ dq +:+ "
".

Definition V8_GOOD : string :=
  "    references: { relation: orgs, column: id }
".

Definition V8_BAD : string :=
  "    references: { relation: orgs, column: name }
".

Definition IdColumnExists_info : RuleInfo :=
  mkRuleInfo "V1"
    ("an entity declares a NOT NULL `id` column, either varchar or bigint+serial")
    ("`id` is the one way any row in the system is addressed, so it cannot be absent or null. Two shapes are allowed and no more: varchar, holding a UUIDv7 the application mints or a sha256 text the SQL mints, and bigint with `serial: true` for a database-minted ledger such as audit_log or ddl_log. The history trigger keys row images by `id`, so an entity without one cannot carry history either.")
    V1_GOOD V1_BAD SevError.

Definition KeyIsId_info : RuleInfo :=
  mkRuleInfo "V2"
    ("the primary key is exactly `[id]`")
    ("Natural identity — what makes two rows the same thing — belongs in `natural_key`, where MERGE statements read it (E015) and where it can change without rewriting every foreign key that points here. Keeping the primary key uniformly `[id]` is what lets the generator emit one row-image trigger, one by-id read and one FK shape for every entity in the tree.")
    V2_GOOD V2_BAD SevError.

Definition IdLeads_info : RuleInfo :=
  mkRuleInfo "V3"
    ("`id` is the first declared column")
    ("Column order is declaration order everywhere downstream — the generated struct, the DDL, the Arrow schema, the TypeScript interface. Pinning `id` first gives every one of those a uniform shape, so a reader who knows one entity can read the next without re-learning where identity lives.")
    V3_GOOD V3_BAD SevError.

Definition TimestampsExist_info : RuleInfo :=
  mkRuleInfo "V4"
    ("an entity declares `created_at` and `updated_at` as NOT NULL timestamps")
    ("Every row can answer when it appeared and when it last changed, with no per-entity exceptions to remember. Universality is the point: it lets the analyser demand that mutations advance `updated_at` (E014) and lets `created_at` be treated as immutable (E005) without consulting the entity first. Nullable would reintroduce exactly the per-row doubt the rule removes.")
    V4_GOOD V4_BAD SevError.

Definition ControlTimestampsAreWallClock_info : RuleInfo :=
  mkRuleInfo "V5"
    ("a Postgres entity's timestamps carry a default and are `volatile: true`")
    ("Control-plane rows are written by the server as things happen, so their timestamps are wall-clock: `default: " +:+ dq +:+ "now()" +:+ dq +:+ "` means an INSERT need not pass one, and `volatile: true` excludes them from determinism comparisons, which would otherwise fail purely because time passed between two runs. This is the mirror of V6 — the store decides which of the two a timestamp is.")
    V5_GOOD V5_BAD SevError.

Definition LakeTimestampsAreRunLogical_info : RuleInfo :=
  mkRuleInfo "V6"
    ("a lake entity's timestamps are not `volatile`")
    ("Lake rows are written by a run, from the run's own logical clock, and are part of the determinism contract: the same inputs must reproduce the same timestamps, which is exactly what a determinism comparison checks. Marking one volatile would exempt it from that comparison and quietly surrender the guarantee. The mirror of V5. (A genuinely wall-clock lake column — an assembly stamp — is a separate column, free to be volatile.)")
    V6_GOOD V6_BAD SevError.

Definition ForeignKeyNaming_info : RuleInfo :=
  mkRuleInfo "V7"
    ("a foreign-key column is named `<singular relation>_id`, optionally role-prefixed")
    ("The column name alone should say where it points, so a reader never has to open the referenced entity to find out. `orgs` is referenced by `org_id`; a role-prefixed form (`parent_org_id`) is allowed for the case where one entity references the same relation twice and the names have to differ. The singular is mechanical — see `singular()` in er-entity-spec.")
    V7_GOOD V7_BAD SevError.

Definition ForeignKeyTargetsId_info : RuleInfo :=
  mkRuleInfo "V8"
    ("a foreign key references `id`, never another column")
    ("V2 makes `id` the primary key of every entity, so it is the only column guaranteed unique and stable enough to be pointed at. Referencing a natural-key column instead would couple this entity to a value the other entity is free to redefine.")
    V8_GOOD V8_BAD SevError.

Definition V9_GOOD : string :=
  "# with entities/org declaring `relation: orgs` and an `id` column:
    references: { relation: orgs, column: id }
".

Definition V9_BAD : string :=
  "    references: { relation: parents, column: id }  # no such relation
".

Definition V10_GOOD : string :=
  "natural_key: [org_id, source_name]
".

Definition V10_BAD : string :=
  "natural_key: [created_at]
".

Definition V14_GOOD : string :=
  "# orgs declares `history: true`, and nothing else declares `orgs_history`.
".

Definition V14_BAD : string :=
  "# orgs declares `history: true`, and some other entity declares
# `relation: orgs_history`.
".

Definition ReferencesResolve_info : RuleInfo :=
  mkRuleInfo "V9"
    ("every `references` target is a declared Postgres relation and a real column of it")
    ("References used to be taken on faith: the generator emitted the FK clause and a typo surfaced as a Postgres error at schema-apply time, in a different process on a different day. Resolving the target against the catalog moves that failure to the moment the YAML is edited. This is a property of the whole tree, so a deliberately partial catalog (the differ's tests, a focused tool) can load without it and check later.")
    V9_GOOD V9_BAD SevError.

Definition NaturalKeyIsWellFormed_info : RuleInfo :=
  mkRuleInfo "V10"
    ("a declared `natural_key` names real columns, without repeats, and never `id`/`created_at`/`updated_at`")
    ("`natural_key` answers what makes two rows the same thing, and the analyser holds MERGE statements to it (E015), so a typo here silently changes what a merge considers a match. The universal columns are excluded because they are row identity and bookkeeping, not natural identity — keying on `id` would make the merge a no-op and keying on a timestamp would make it nondeterministic. Nullable columns are allowed: a merge identity can be partial.")
    V10_GOOD V10_BAD SevError.

Definition HistoryCompanionNameIsFree_info : RuleInfo :=
  mkRuleInfo "V14"
    ("no declared relation collides with a `history: true` entity's `<relation>_history` companion")
    ("`history: true` makes the generator emit a `<relation>_history` table and a trigger that writes row images into it. If some other entity already declares that relation, the two definitions of the same table fight: whichever DDL applies last wins, and the row images land in a shape nothing expects. Catching the name collision in the catalog is the only place it is still cheap.")
    V14_GOOD V14_BAD SevError.

Definition V11_GOOD : string :=
  "generate:
  stores: [duckdb]
  languages: [rust]
columns:
  - name: status
    type: varchar
    nullable: false
    description: " +:+ dq +:+ "…" +:+ dq +:+ "
".

Definition V11_BAD : string :=
  "generate:
  stores: [duckdb]
  languages: [rust]
columns:
  - name: status
    type: varchar
    nullable: false
    default: " +:+ dq +:+ "'active'" +:+ dq +:+ "
    accepted_values: [active, closed]
    description: " +:+ dq +:+ "…" +:+ dq +:+ "
".

Definition V12_GOOD : string :=
  "generate:
  stores: [duckdb]
  languages: [rust, typescript]
  wire: [arrow, json]
".

Definition V12_BAD : string :=
  "generate:
  stores: [duckdb]
  languages: [typescript]
  wire: [json]
".

Definition V16_GOOD : string :=
  "generate:
  stores: [postgres]
  languages: [rust, typescript]
  wire: [json]
".

Definition V16_BAD : string :=
  "generate:
  stores: [postgres]
  languages: [rust, typescript]
".

Definition V13_GOOD : string :=
  "generate:
  stores: [postgres]
  languages: [rust]
  history: true
".

Definition V13_BAD : string :=
  "generate:
  stores: [duckdb]
  languages: [rust]
  history: true
".

Definition LakeEnforcesOnlyNotNull_info : RuleInfo :=
  mkRuleInfo "V11"
    ("a DuckLake entity declares no default, reference, `accepted_values`, `serial` or index")
    ("DuckLake enforces NOT NULL and nothing else — no defaults, no foreign keys, no CHECK constraints, no indexes. Declaring one would generate DDL the lake silently ignores, which is worse than an error: the YAML would promise a guarantee no layer actually provides, and a reader would be entitled to rely on it. Control-plane features belong on `stores: [postgres]` entities.")
    V11_GOOD V11_BAD SevError.

Definition WireRequiresRust_info : RuleInfo :=
  mkRuleInfo "V12"
    ("an entity with an arrow or json `wire` also generates for `rust`")
    ("A wire format is how this entity crosses a process boundary, and every such boundary in this system has Rust on at least one end — the engine writes the Arrow batch, the server serialises the JSON. Declaring a wire without Rust describes a shape nothing can read or produce.")
    V12_GOOD V12_BAD SevError.

Definition TypescriptRequiresWire_info : RuleInfo :=
  mkRuleInfo "V16"
    ("an entity generating for `typescript` declares an arrow or json `wire`")
    ("The TypeScript binding emitter is gated on a wire: with none declared, `languages: [typescript]` emits nothing at all and no gate notices, so the YAML claims a frontend type that does not exist and the frontend hand-writes one instead — which is the drift the generated bindings were introduced to stop. This was found the honest way: a new entity declared `typescript`, no binding appeared, and `verify` was perfectly happy. V12 covers the other direction (a wire needs a Rust end); together they make the stores/languages/wire triple consistent.")
    V16_GOOD V16_BAD SevError.

Definition HistoryIsControlPlaneOnly_info : RuleInfo :=
  mkRuleInfo "V13"
    ("`history: true` appears only on an entity with a `postgres` store")
    ("Row-image history is implemented by a Postgres AFTER trigger writing into a generated `<relation>_history` companion. The lake has no triggers — its history is DuckLake snapshots, which it keeps whether or not anything is declared. So `history: true` on a lake entity cannot be honoured, and asking for it suggests the author expected a companion table that will never exist.")
    V13_GOOD V13_BAD SevError.

Definition V15_GOOD : string :=
  "columns:
  - name: org_id
    type: varchar
    nullable: false
    references: { relation: orgs, column: id }
    description: " +:+ dq +:+ "…" +:+ dq +:+ "
indexes:
  - name: staged_pending
    columns: [org_id, state]
".

Definition V15_BAD : string :=
  "columns:
  - name: org_id
    type: varchar
    nullable: false
    references: { relation: orgs, column: id }
    description: " +:+ dq +:+ "…" +:+ dq +:+ "
# …and either no indexes at all, or only partial ones:
indexes:
  - name: jobs_one_active_per_org
    columns: [org_id]
    unique: true
    where: " +:+ dq +:+ "state IN ('running')" +:+ dq +:+ "
".

Definition V17_GOOD : string :=
  "columns:
  - name: org_id
    type: varchar
    nullable: false
    references: { relation: orgs, column: id }
    description: " +:+ dq +:+ "…" +:+ dq +:+ "
  - name: dataset_id
    type: varchar
    references: { relation: datasets, column: id }
    description: " +:+ dq +:+ "…" +:+ dq +:+ "
indexes:
  - name: things_dataset_state
    columns: [dataset_id, state]
".

Definition V17_BAD : string :=
  "columns:
  - name: dataset_id
    type: varchar
    description: " +:+ dq +:+ "…" +:+ dq +:+ "
# no references, no org_id beside it, and no dataset_id-leading index
".

Definition TenantScopeIsIndexed_info : RuleInfo :=
  mkRuleInfo "V15"
    ("a control-plane entity with an `org_id` column declares a non-partial index leading with `org_id`")
    ("`org_id` is how the control plane scopes a row to a tenant, so essentially every read of such a table filters on it. Postgres can only use an index for that filter if `org_id` is the index's leading column — a composite like `[org_id, state]` serves it, `[state, org_id]` does not — and only if the index is not partial, since a `where` predicate narrows it to rows the general lookup cannot assume. Without one, every tenant-scoped query is a sequential scan over every tenant's rows, which degrades as tenants are added rather than as any one tenant grows. Note that a unique partial index such as `jobs_one_active_per_org` enforces a real invariant and should stay: this rule asks for a plain index in addition, not instead.")
    V15_GOOD V15_BAD SevWarning.

Definition DatasetScopeIsDeclared_info : RuleInfo :=
  mkRuleInfo "V17"
    ("a control-plane entity with a `dataset_id` column references `datasets(id)`, keeps `org_id` beside it, and declares a non-partial index leading with `dataset_id`")
    ("`dataset_id` scopes a row to one resolution domain inside a tenant. Three things keep that scope honest. The reference to `datasets(id)` makes it a real foreign key rather than a string that drifts when a dataset is purged. `org_id` stays beside it, denormalized on purpose: handlers resolve the org first, V15's index keeps that read cheap, and history rows stay legible without a join through `datasets`. And as with V15, essentially every read of such a table filters on `dataset_id`, which Postgres can only serve from a non-partial index whose leading column is `dataset_id` — a partial unique like one-active-per-dataset enforces an invariant and should stay, but it cannot serve the general lookup.")
    V17_GOOD V17_BAD SevWarning.
