(* ===== verification/EntityLint.v ===== *)
(** * The entity conventions

    [er-entity-lint]: the checks of the V-rules ([rules/*.rs]), the registry
    and the pass that collects every finding ([lib.rs]), and what a tree that
    passes is known to be.  An entity file's path is its text. *)

From S2P Require Dag Cron.
From S2P Require Import Prelude Ids LakeClock Versions Text EntitySpec EntityGen EntityDiff EntityRules.
From Stdlib Require Import Ascii.

(** ** Definitions *)

(** *** Findings *)

Record Violation := mkViolation { v_entity : string; v_message : string }.

Record Diagnostic := mkDiagnostic {
  dg_code : string;
  dg_severity : LintSeverity;
  dg_entity : string;
  dg_path : string;
  dg_message : string;
}.

(** [str::split_at] the first digit. *)
Fixpoint split_digits (s : string) : string * string :=
  match s with
  | EmptyString => (EmptyString, EmptyString)
  | String c s' =>
      if is_digit c then (EmptyString, s)
      else let '(p, d) := split_digits s' in (String c p, d)
  end.

Definition sort_key (c : string) : string * Z :=
  let '(prefix, digits) := split_digits c in (prefix, default 0%Z (Cron.parse_u32 digits)).

Definition then_with (a b : comparison) : comparison := match a with Eq => b | _ => a end.

Definition code_cmp (a b : string) : comparison :=
  then_with (String.compare (sort_key a).1 (sort_key b).1)
    (Z.compare (sort_key a).2 (sort_key b).2).

Definition debug_strings (l : list string) : string :=
  "[" +:+ join_with ", " (Dag.debug_str <$> l) +:+ "]".

(** [str::ends_with]. *)
Definition ends_with (suffix s : string) : bool := bool_decide (is_Some (strip_suffix suffix s)).

(** *** Identity and timestamps *)

(** A finding about an entity, if there is something to find. *)
Definition finding (e : Entity) (found : bool) (msg : string) : list Violation :=
  if found then [mkViolation (e_name e) msg] else [].

Definition is_none {A} (o : option A) : bool := match o with None => true | Some _ => false end.

Definition IdColumnExists (e : Entity) : list Violation :=
  match column e "id" with
  | None => [mkViolation (e_name e) "an entity must declare an id column"]
  | Some id =>
      let minted_by_app_or_sql := bool_decide (col_type id = Varchar) in
      let minted_by_database := bool_decide (col_type id = Bigint) && serial id in
      finding e (nullable id) "id must be NOT NULL"
      ++ finding e (negb minted_by_app_or_sql && negb minted_by_database)
           "id must be varchar (UUIDv7/sha256 text) or bigint with serial: true (a database-minted ledger)"
  end.

Definition KeyIsId (e : Entity) : list Violation :=
  finding e (negb (bool_decide (key e = ["id"])))
    ("key must be exactly [id], got " +:+ debug_strings (key e)).

Definition IdLeads (e : Entity) : list Violation :=
  if is_none (column e "id") then []
  else finding e (negb (bool_decide (c_name <$> head (columns e) = Some "id")))
         "id must be the first declared column".

Definition TIMESTAMPS : list string := ["created_at"; "updated_at"].

Definition TimestampsExist (e : Entity) : list Violation :=
  name ← TIMESTAMPS;
  match column e name with
  | None =>
      [mkViolation (e_name e) ("an entity must declare " +:+ name +:+ " (timestamp, NOT NULL)")]
  | Some c =>
      finding e (negb (bool_decide (col_type c = Timestamp)) || nullable c)
        (name +:+ " must be a NOT NULL timestamp")
  end.

(** A check of the timestamps that are declared. *)
Definition each_timestamp (e : Entity) (bad : Column → bool) (msg : string → string) :
    list Violation :=
  name ← TIMESTAMPS;
  match column e name with None => [] | Some c => finding e (bad c) (msg name) end.

Definition ControlTimestampsAreWallClock (e : Entity) : list Violation :=
  if negb (has_store e Postgres) then []
  else each_timestamp e (λ c, is_none (c_default c) || negb (volatile c))
         (λ name, "control-plane " +:+ name
                  +:+ " must carry a default (now()) and be volatile (wall-clock)").

Definition LakeTimestampsAreRunLogical (e : Entity) : list Violation :=
  if has_store e Postgres then []
  else each_timestamp e volatile
         (λ name, "lake " +:+ name +:+ " is run-logical and must not be volatile").

(** A check of every column that references. *)
Definition each_reference (e : Entity) (f : Column → Reference → list Violation) :
    list Violation :=
  c ← columns e; match references c with None => [] | Some r => f c r end.

Definition ForeignKeyNaming (e : Entity) : list Violation :=
  each_reference e (λ c r,
    let expected := singular (r_relation r) +:+ "_id" in
    finding e (negb (bool_decide (c_name c = expected)) && negb (ends_with ("_" +:+ expected) (c_name c)))
      ("foreign-key column " +:+ Dag.debug_str (c_name c) +:+ " must be named "
       +:+ Dag.debug_str expected +:+ " (or <role>_" +:+ expected
       +:+ ") after the relation it references")).

Definition ForeignKeyTargetsId (e : Entity) : list Violation :=
  each_reference e (λ c r,
    finding e (negb (bool_decide (r_column r = "id")))
      ("foreign keys reference id, not " +:+ r_relation r +:+ "(" +:+ r_column r +:+ ")")).

(** *** Shape *)

(** [{relation}({column})]. *)
Definition target_text (r : Reference) : string := r_relation r +:+ "(" +:+ r_column r +:+ ")".

Definition ReferencesResolve (c : Catalog) : list Violation :=
  e ← entities c;
  each_reference e (λ col r,
    match find_first (λ t, bool_decide (relation_ t = r_relation r) && has_store t Postgres)
            (entities c) with
    | None =>
        [mkViolation (e_name e)
           ("column " +:+ Dag.debug_str (c_name col) +:+ " references " +:+ target_text r
            +:+ ", but no Postgres entity declares that relation")]
    | Some t =>
        finding e (is_none (column t (r_column r)))
          ("column " +:+ Dag.debug_str (c_name col) +:+ " references " +:+ target_text r
           +:+ ", but the target declares no such column")
    end).

(** The loop over the natural key; [seen] are the columns before. *)
Fixpoint natural_key_loop (e : Entity) (seen : gset string) (l : list string) : list Violation :=
  match l with
  | [] => []
  | k :: l =>
      finding e (bool_decide (k ∈ seen)) ("natural_key repeats column " +:+ Dag.debug_str k)
      ++ finding e (is_none (column e k))
           ("natural_key column " +:+ Dag.debug_str k +:+ " is not a column")
      ++ finding e (bool_decide (k ∈ ["id"; "created_at"; "updated_at"]))
           ("natural_key may not include " +:+ Dag.debug_str k
            +:+ " — the universal columns are row identity and bookkeeping, not natural identity")
      ++ natural_key_loop e ({[k]} ∪ seen) l
  end.

Definition NaturalKeyIsWellFormed (e : Entity) : list Violation :=
  natural_key_loop e ∅ (natural_key e).

Definition HistoryCompanionNameIsFree (c : Catalog) : list Violation :=
  e ← entities c;
  if negb (history (generate e)) then []
  else
    let companion := history_relation (relation_ e) in
    finding e (existsb (λ t, bool_decide (relation_ t = companion)) (entities c))
      ("history companion " +:+ Dag.debug_str companion +:+ " collides with a declared relation").

(** *** Stores *)

Definition declared_features (c : Column) : list string :=
  (if is_none (c_default c) then [] else ["default"])
  ++ (if is_none (references c) then [] else ["references"])
  ++ (if is_none (accepted_values c) then [] else ["accepted_values"])
  ++ (if serial c then ["serial"] else []).

Definition LakeEnforcesOnlyNotNull (e : Entity) : list Violation :=
  if negb (has_store e Duckdb) then []
  else
    (c ← columns e;
     finding e (negb (bool_decide (declared_features c = [])))
       ("column " +:+ Dag.debug_str (c_name c) +:+ " carries the control-plane feature(s) "
        +:+ join_with "/" (declared_features c)
        +:+ " but the entity is on the lake, which enforces only NOT NULL"))
    ++ finding e (negb (bool_decide (indexes e = [])))
         "indexes are a control-plane feature; the lake has none".

Definition WireRequiresRust (e : Entity) : list Violation :=
  finding e (negb (bool_decide (wire (generate e) = []) || has_language e Rust))
    "a wire (arrow/json) requires generate.languages to include rust".

Definition TypescriptRequiresWire (e : Entity) : list Violation :=
  finding e (negb (negb (has_language e Typescript) || negb (bool_decide (wire (generate e) = []))))
    "generate.languages includes typescript but no wire is declared, so no binding is emitted — add `wire: [json]` (or drop typescript)".

Definition HistoryIsControlPlaneOnly (e : Entity) : list Violation :=
  finding e (negb (negb (history (generate e)) || has_store e Postgres))
    "history: true is control-plane only (lake history is DuckLake snapshots)".

(** *** Tenancy *)

(** A non-partial index that leads with a column. *)
Definition leads (name : string) (i : Index) : bool :=
  is_none (where_ i) && bool_decide (head (i_columns i) = Some name).

Definition TenantScopeIsIndexed (e : Entity) : list Violation :=
  if negb (has_store e Postgres) || is_none (column e "org_id") then []
  else finding e (negb (existsb (leads "org_id") (indexes e)))
         "org_id is tenant scope but no non-partial index leads with it, so every tenant-scoped read is a full scan".

Definition DatasetScopeIsDeclared (e : Entity) : list Violation :=
  if negb (has_store e Postgres) then []
  else
    match column e "dataset_id" with
    | None => []
    | Some c =>
        finding e (negb (match references c with
                         | Some r => bool_decide (r_relation r = "datasets")
                                     && bool_decide (r_column r = "id")
                         | None => false
                         end))
          "dataset_id does not declare `references: { relation: datasets, column: id }`, so the scope is a loose string rather than a foreign key"
        ++ finding e (is_none (column e "org_id"))
             "dataset_id without org_id beside it: the tenant scope is resolved first and must not require a join through datasets"
        ++ finding e (negb (existsb (leads "dataset_id") (indexes e)))
             "dataset_id is dataset scope but no non-partial index leads with it, so every dataset-scoped read is a full scan"
    end.

(** *** The registry *)

Definition ENTITY_RULES : list (RuleInfo * (Entity → list Violation)) :=
  [(IdColumnExists_info, IdColumnExists); (KeyIsId_info, KeyIsId); (IdLeads_info, IdLeads);
   (TimestampsExist_info, TimestampsExist);
   (ControlTimestampsAreWallClock_info, ControlTimestampsAreWallClock);
   (LakeTimestampsAreRunLogical_info, LakeTimestampsAreRunLogical);
   (ForeignKeyNaming_info, ForeignKeyNaming); (ForeignKeyTargetsId_info, ForeignKeyTargetsId);
   (NaturalKeyIsWellFormed_info, NaturalKeyIsWellFormed);
   (LakeEnforcesOnlyNotNull_info, LakeEnforcesOnlyNotNull);
   (WireRequiresRust_info, WireRequiresRust);
   (HistoryIsControlPlaneOnly_info, HistoryIsControlPlaneOnly);
   (TenantScopeIsIndexed_info, TenantScopeIsIndexed);
   (TypescriptRequiresWire_info, TypescriptRequiresWire);
   (DatasetScopeIsDeclared_info, DatasetScopeIsDeclared)].

Definition CATALOG_RULES : list (RuleInfo * (Catalog → list Violation)) :=
  [(ReferencesResolve_info, ReferencesResolve);
   (HistoryCompanionNameIsFree_info, HistoryCompanionNameIsFree)].

Definition info_le (a b : RuleInfo) : Prop := code_cmp (code a) (code b) ≠ Gt.

#[global] Instance info_le_dec : RelDecision info_le.
Proof. intros a b. unfold info_le. apply _. Defined.

Definition rules : list RuleInfo :=
  merge_sort info_le (ENTITY_RULES.*1 ++ CATALOG_RULES.*1).

Definition explain (c : string) : option RuleInfo :=
  find_first (λ i, bool_decide (to_ascii_lowercase (code i) = to_ascii_lowercase c)) rules.

Definition entity_path (dir entity : string) : string :=
  dir +:+ "/" +:+ entity +:+ "/entity.yaml".

Definition stamp (dir : string) (i : RuleInfo) (v : Violation) : Diagnostic :=
  mkDiagnostic (code i) (rule_severity i) (v_entity v) (entity_path dir (v_entity v)) (v_message v).

(** The findings in the order they are collected. *)
Definition findings (c : Catalog) (dir : string) : list Diagnostic :=
  ('(i, check) ← ENTITY_RULES; e ← entities c; stamp dir i <$> check e)
  ++ ('(i, check) ← CATALOG_RULES; stamp dir i <$> check c).

Definition diagnostic_cmp (a b : Diagnostic) : comparison :=
  then_with (String.compare (dg_entity a) (dg_entity b))
    (then_with (code_cmp (dg_code a) (dg_code b)) (String.compare (dg_message a) (dg_message b))).

Definition diagnostic_le (a b : Diagnostic) : Prop := diagnostic_cmp a b ≠ Gt.

#[global] Instance diagnostic_le_dec : RelDecision diagnostic_le.
Proof. intros a b. unfold diagnostic_le. apply _. Defined.

Definition lint_catalog (c : Catalog) (dir : string) : list Diagnostic :=
  merge_sort diagnostic_le (findings c dir).

Inductive LintError :=
| Load (source : SpecError)
| Rules (diagnostics : list Diagnostic).

Definition load_linted (from_yaml : string → option Entity) (dir : string)
    (listing : option (list DirEntry)) : result Catalog LintError :=
  match load_dir from_yaml dir listing with
  | Err e => Err (Load e)
  | Ok c =>
      match filter (λ d, dg_severity d = SevError) (lint_catalog c dir) with
      | [] => Ok c
      | errors => Err (Rules errors)
      end
  end.

(** *** The rule reference *)

Definition severity_str (s : LintSeverity) : string :=
  match s with SevError => "error" | SevWarning => "warning" end.

(** [str::trim_matches('\n')]. *)
Fixpoint trim_start_newlines (s : string) : string :=
  match s with
  | String c s' => if decide (c = ascii_of_nat 10) then trim_start_newlines s' else s
  | EmptyString => EmptyString
  end.

Fixpoint trim_end_newlines (s : string) : string :=
  match s with
  | EmptyString => EmptyString
  | String c s =>
      match trim_end_newlines s with
      | EmptyString => if decide (c = ascii_of_nat 10) then EmptyString else String c EmptyString
      | s => String c s
      end
  end.

Definition trim_newlines (s : string) : string := trim_end_newlines (trim_start_newlines s).

(** The newlines of the source's text are written out. *)
Fixpoint lines_text (l : list string) : string :=
  match l with [] => EmptyString | s :: l => s +:+ newline +:+ lines_text l end.

Definition reference_head : string :=
  lines_text
    ["# Entity lint rules"; "";
     "Generated by `er-entity lint --docs` from the `er-entity-lint` registry — do not hand-edit.";
     "`er-entity verify` fails if this file and the registry disagree."; "";
     "These are the **entity** conventions, checked against `entities/*/entity.yaml`. The";
     "**statement** diagnostics (`E0xx`), which need a query planner, are a separate family";
     "in `er-sql-check`."; "";
     "| Code | Severity | Invariant |"; "|---|---|---|"].

Definition reference_row (i : RuleInfo) : string :=
  "| [" +:+ code i +:+ "](#" +:+ to_ascii_lowercase (code i) +:+ ") | "
  +:+ severity_str (rule_severity i) +:+ " | " +:+ title i +:+ " |" +:+ newline.

Definition reference_section (i : RuleInfo) : string :=
  lines_text
    [""; "## " +:+ code i; ""; title i; ""; explain_text i; "";
     "Severity: **" +:+ severity_str (rule_severity i) +:+ "**"; "";
     "Conforming:"; ""; "```yaml"; trim_newlines (conforming i); "```"; "";
     "Violating:"; ""; "```yaml"; trim_newlines (violating i); "```"].

Definition rules_markdown : string :=
  reference_head +:+ join_with "" (reference_row <$> rules) +:+ join_with "" (reference_section <$> rules).

(** ** Specification *)

(** A timestamp as the store of its entity wants it: wall-clock on the control
    plane, the run's logical time on the lake. *)
Definition timestamp_ok (e : Entity) (name : string) : Prop :=
  ∃ c, column e name = Some c ∧ col_type c = Timestamp ∧ nullable c = false
    ∧ if has_store e Postgres then is_Some (c_default c) ∧ volatile c = true
      else volatile c = false.

Definition reference_conforms (es : list Entity) (c : Column) (r : Reference) : Prop :=
  let expected := singular (r_relation r) +:+ "_id" in
  (c_name c = expected ∨ is_Some (strip_suffix ("_" +:+ expected) (c_name c)))
  ∧ r_column r = "id"
  ∧ ∃ t, t ∈ es ∧ relation_ t = r_relation r ∧ has_store t Postgres = true
         ∧ is_Some (column t (r_column r)).

(** The conventions whose breach is an error, for one entity of a tree. *)
Record conventions (es : list Entity) (e : Entity) : Prop := {
  cv_id : ∃ id, column e "id" = Some id ∧ nullable id = false
    ∧ (col_type id = Varchar ∨ col_type id = Bigint ∧ serial id = true);
  cv_key : key e = ["id"];
  cv_leads : c_name <$> head (columns e) = Some "id";
  cv_timestamps : ∀ name, name ∈ TIMESTAMPS → timestamp_ok e name;
  cv_references : ∀ c r, c ∈ columns e → references c = Some r → reference_conforms es c r;
  cv_natural : NoDup (natural_key e) ∧ ∀ k, k ∈ natural_key e →
    is_Some (column e k) ∧ k ∉ ["id"; "created_at"; "updated_at"];
  cv_lake : has_store e Duckdb = true →
    indexes e = [] ∧ ∀ c, c ∈ columns e →
      c_default c = None ∧ references c = None ∧ accepted_values c = None ∧ serial c = false;
  cv_wire : wire (generate e) = [] ∨ has_language e Rust = true;
  cv_typescript : has_language e Typescript = false ∨ wire (generate e) ≠ [];
  cv_history : history (generate e) = false ∨ has_store e Postgres = true;
  cv_companion : history (generate e) = true → ∀ t, t ∈ es → relation_ t ≠ history_relation (relation_ e);
}.

(** ** Lemmas *)

Lemma finding_nil e b msg : finding e b msg = [] ↔ b = false.
Proof. by destruct b. Qed.

Lemma bind_nil {A B} (f : A → list B) l : l ≫= f = [] ↔ ∀ x, x ∈ l → f x = [].
Proof.
  induction l as [|x l IH]; [by split; [intros _ x []%not_elem_of_nil|]|].
  rewrite bind_cons, app_nil, IH. split.
  - intros [Hx Hl] y [->|Hy]%elem_of_cons; auto.
  - intros H. split; [apply H; left|]. intros y Hy. apply H. by right.
Qed.

Lemma is_none_false {A} (o : option A) : is_none o = false ↔ is_Some o.
Proof. destruct o; simpl; split; [by eexists|done|done|by intros []]. Qed.

Lemma is_none_true {A} (o : option A) : is_none o = true ↔ o = None.
Proof. by destruct o. Qed.

Lemma IdColumnExists_nil e :
  IdColumnExists e = [] ↔ ∃ id, column e "id" = Some id ∧ nullable id = false
    ∧ (col_type id = Varchar ∨ col_type id = Bigint ∧ serial id = true).
Proof.
  unfold IdColumnExists. destruct (column e "id") as [id|]; [|naive_solver].
  rewrite app_nil, !finding_nil, andb_false_iff, !negb_false_iff, andb_true_iff, !bool_decide_eq_true.
  naive_solver.
Qed.

Lemma KeyIsId_nil e : KeyIsId e = [] ↔ key e = ["id"].
Proof. unfold KeyIsId. by rewrite finding_nil, negb_false_iff, bool_decide_eq_true. Qed.

Lemma IdLeads_nil e :
  is_Some (column e "id") → IdLeads e = [] ↔ c_name <$> head (columns e) = Some "id".
Proof.
  intros H%is_none_false. unfold IdLeads. by rewrite H, finding_nil, negb_false_iff, bool_decide_eq_true.
Qed.

Lemma each_timestamp_nil e bad msg :
  each_timestamp e bad msg = []
  ↔ ∀ name c, name ∈ TIMESTAMPS → column e name = Some c → bad c = false.
Proof.
  unfold each_timestamp. rewrite bind_nil. split.
  - intros H name c Hn Hc. specialize (H name Hn). rewrite Hc in H. by apply finding_nil in H.
  - intros H name Hn. destruct (column e name) as [c|] eqn:Hc; [|done]. apply finding_nil. eauto.
Qed.

Lemma timestamps_nil e :
  TimestampsExist e = [] ∧ ControlTimestampsAreWallClock e = [] ∧ LakeTimestampsAreRunLogical e = []
  ↔ ∀ name, name ∈ TIMESTAMPS → timestamp_ok e name.
Proof.
  unfold TimestampsExist, ControlTimestampsAreWallClock, LakeTimestampsAreRunLogical, timestamp_ok.
  rewrite bind_nil. split.
  - intros (H4 & H5 & H6) name Hn. specialize (H4 name Hn).
    destruct (column e name) as [c|] eqn:Hc; [|done]. exists c. split; [done|].
    rewrite finding_nil, orb_false_iff, negb_false_iff, bool_decide_eq_true in H4.
    destruct H4 as [Ht Hnull]. split_and!; [done|done|]. destruct (has_store e Postgres); simpl in *.
    + rewrite each_timestamp_nil in H5. specialize (H5 name c Hn Hc).
      by rewrite orb_false_iff, is_none_false, negb_false_iff in H5.
    + rewrite each_timestamp_nil in H6. by apply (H6 name).
  - intros H. split_and!.
    + intros name Hn. destruct (H name Hn) as (c & -> & Ht & Hnull & _).
      by rewrite finding_nil, Hnull, orb_false_r, negb_false_iff, bool_decide_eq_true.
    + destruct (has_store e Postgres); [|done]. simpl. apply each_timestamp_nil.
      intros name c Hn Hc. destruct (H name Hn) as (c' & Hc' & _ & _ & Hd). simplify_eq.
      by rewrite orb_false_iff, is_none_false, negb_false_iff.
    + destruct (has_store e Postgres); [done|]. apply each_timestamp_nil.
      intros name c Hn Hc. destruct (H name Hn) as (c' & Hc' & _ & _ & Hd). by simplify_eq.
Qed.

Lemma each_reference_nil e f :
  each_reference e f = [] ↔ ∀ c r, c ∈ columns e → references c = Some r → f c r = [].
Proof.
  unfold each_reference. rewrite bind_nil. split.
  - intros H c r Hc Hr. specialize (H c Hc). by rewrite Hr in H.
  - intros H c Hc. destruct (references c) eqn:Hr; [by eapply H|done].
Qed.

Lemma ReferencesResolve_nil c :
  ReferencesResolve c = []
  ↔ ∀ e col r, e ∈ entities c → col ∈ columns e → references col = Some r →
      ∃ t, find_first (λ t, bool_decide (relation_ t = r_relation r) && has_store t Postgres)
             (entities c) = Some t ∧ is_Some (column t (r_column r)).
Proof.
  unfold ReferencesResolve. rewrite bind_nil. setoid_rewrite each_reference_nil.
  split; intros H e.
  - intros col r He Hcol Hr. specialize (H e He col r Hcol Hr).
    destruct (find_first _ _) as [t|]; [|done]. exists t. split; [done|].
    by apply finding_nil, is_none_false in H.
  - intros He col r Hcol Hr. destruct (H e col r He Hcol Hr) as (t & -> & Ht).
    by apply finding_nil, is_none_false.
Qed.

Lemma natural_key_loop_nil e seen l :
  natural_key_loop e seen l = []
  ↔ NoDup l ∧ ∀ k, k ∈ l → k ∉ seen ∧ is_Some (column e k) ∧ k ∉ ["id"; "created_at"; "updated_at"].
Proof.
  revert seen. induction l as [|k l IH]; intros seen; simpl.
  { split; [|done]. intros _. split; [constructor|]. by intros k []%not_elem_of_nil. }
  rewrite !app_nil, !finding_nil, !bool_decide_eq_false, is_none_false, IH, NoDup_cons. split.
  - intros (Hs & Hc & Hn & Hnd & H). split_and!; [|done|].
    + intros Hk. destruct (H k Hk) as [? _]. set_solver.
    + intros k' [->|Hk]%elem_of_cons; [done|]. destruct (H k' Hk) as (? & ? & ?).
      split_and!; [set_solver|done|done].
  - intros [[Hk Hnd] H]. destruct (H k) as (? & ? & ?); [left|]. split_and!; [done..|].
    intros k' Hk'. destruct (H k') as (? & ? & ?); [by right|]. split_and!; [|done|done].
    rewrite elem_of_union, elem_of_singleton. intros [->|?]; done.
Qed.

Lemma declared_features_nil c :
  declared_features c = []
  ↔ c_default c = None ∧ references c = None ∧ accepted_values c = None ∧ serial c = false.
Proof.
  unfold declared_features. rewrite !app_nil.
  destruct (c_default c), (references c), (accepted_values c), (serial c); simpl; naive_solver.
Qed.

Lemma LakeEnforcesOnlyNotNull_nil e :
  LakeEnforcesOnlyNotNull e = [] ↔ (has_store e Duckdb = true →
    indexes e = [] ∧ ∀ c, c ∈ columns e →
      c_default c = None ∧ references c = None ∧ accepted_values c = None ∧ serial c = false).
Proof.
  unfold LakeEnforcesOnlyNotNull. destruct (has_store e Duckdb); simpl; [|naive_solver].
  rewrite app_nil, bind_nil, finding_nil, negb_false_iff, bool_decide_eq_true.
  setoid_rewrite finding_nil. setoid_rewrite negb_false_iff. setoid_rewrite bool_decide_eq_true.
  setoid_rewrite declared_features_nil. naive_solver.
Qed.

Lemma HistoryCompanionNameIsFree_nil c :
  HistoryCompanionNameIsFree c = []
  ↔ ∀ e, e ∈ entities c → history (generate e) = true →
      ∀ t, t ∈ entities c → relation_ t ≠ history_relation (relation_ e).
Proof.
  unfold HistoryCompanionNameIsFree. rewrite bind_nil. split; intros H e He.
  - intros Hh t Ht E. specialize (H e He). rewrite Hh in H. simpl in H. apply finding_nil in H.
    apply not_true_iff_false in H. apply H, existsb_exists. exists t.
    split; [by apply list_elem_of_In|by apply bool_decide_eq_true].
  - destruct (history (generate e)) eqn:Hh; [|done]. simpl. apply finding_nil, not_true_iff_false.
    intros (t & Ht & E%bool_decide_eq_true)%existsb_exists.
    by apply (H e He Hh t); [apply list_elem_of_In|].
Qed.

(** What makes the error rules silent on a tree. *)
Lemma errors_nil c dir :
  filter (λ d, dg_severity d = SevError) (lint_catalog c dir) = []
  ↔ (∀ i check, (i, check) ∈ ENTITY_RULES → rule_severity i = SevError →
       ∀ e, e ∈ entities c → check e = [])
    ∧ (∀ i check, (i, check) ∈ CATALOG_RULES → rule_severity i = SevError → check c = []).
Proof.
  rewrite filter_nil_iff. unfold lint_catalog. setoid_rewrite merge_sort_Permutation.
  unfold findings. setoid_rewrite elem_of_app.
  assert (∀ i (vs : list Violation), (∀ d, d ∈ stamp dir i <$> vs → dg_severity d ≠ SevError)
            ↔ (rule_severity i = SevError → vs = [])) as Hst.
  { intros i vs. split.
    - intros H Hs. destruct vs as [|v vs]; [done|]. destruct (H (stamp dir i v)); [left|done].
    - intros H d (v & -> & Hv)%list_elem_of_fmap Hs. rewrite (H Hs) in Hv. by apply not_elem_of_nil in Hv. }
  split.
  - intros H. split.
    + intros i check Hr Hs e He. apply (proj1 (Hst i (check e))); [|done]. intros d Hd. apply H. left.
      apply list_elem_of_bind. exists (i, check). split; [|done]. apply list_elem_of_bind. by exists e.
    + intros i check Hr Hs. apply (proj1 (Hst i (check c))); [|done]. intros d Hd. apply H. right.
      apply list_elem_of_bind. by exists (i, check).
  - intros [He Hc] d [Hd|Hd]; apply list_elem_of_bind in Hd as ([i check] & Hd & Hr).
    + apply list_elem_of_bind in Hd as (e & Hd & Hin). revert d Hd. apply Hst. eauto.
    + revert d Hd. apply Hst. eauto.
Qed.

Lemma entity_rules_error (P : (Entity → list Violation) → Prop) :
  (∀ i check, (i, check) ∈ ENTITY_RULES → rule_severity i = SevError → P check)
  ↔ P IdColumnExists ∧ P KeyIsId ∧ P IdLeads ∧ P TimestampsExist ∧ P ControlTimestampsAreWallClock
    ∧ P LakeTimestampsAreRunLogical ∧ P ForeignKeyNaming ∧ P ForeignKeyTargetsId
    ∧ P NaturalKeyIsWellFormed ∧ P LakeEnforcesOnlyNotNull ∧ P WireRequiresRust
    ∧ P HistoryIsControlPlaneOnly ∧ P TypescriptRequiresWire.
Proof.
  split.
  - intros H. split_and!; (eapply H;
      [unfold ENTITY_RULES; repeat (apply list_elem_of_here || apply list_elem_of_further)|reflexivity]).
  - intros (? & ? & ? & ? & ? & ? & ? & ? & ? & ? & ? & ? & ?) i check Hr Hs. unfold ENTITY_RULES in Hr.
    repeat (apply elem_of_cons in Hr as [[= -> ->]|Hr]; [done || discriminate Hs|]).
    by apply not_elem_of_nil in Hr.
Qed.

Lemma catalog_rules_error c :
  (∀ i check, (i, check) ∈ CATALOG_RULES → rule_severity i = SevError → check c = [])
  ↔ ReferencesResolve c = [] ∧ HistoryCompanionNameIsFree c = [].
Proof.
  split.
  - intros H. split; (eapply H;
      [unfold CATALOG_RULES; repeat (apply list_elem_of_here || apply list_elem_of_further)|reflexivity]).
  - intros [? ?] i check Hr Hs. unfold CATALOG_RULES in Hr.
    repeat (apply elem_of_cons in Hr as [[= -> ->]|Hr]; [done|]). by apply not_elem_of_nil in Hr.
Qed.

Lemma column_is_Some e k : is_Some (column e k) ↔ k ∈ column_names e.
Proof.
  unfold column, column_names. rewrite list_elem_of_fmap. split.
  - intros [c [Hc E%bool_decide_eq_true]%find_first_Some]. by exists c.
  - intros (c & -> & Hc). destruct (find_first _ _) as [x|] eqn:E; [by eexists|].
    rewrite find_first_None in E. specialize (E c Hc). by apply bool_decide_eq_false in E.
Qed.

(** The one Postgres entity of a relation. *)
Lemma postgres_target l c r e :
  from_entities l = Ok c → e ∈ entities c → relation_ e = r → has_store e Postgres = true →
  find_first (λ t, bool_decide (relation_ t = r) && has_store t Postgres) (entities c) = Some e.
Proof.
  intros Hc He Hr Hs. destruct (find_first _ _) as [t|] eqn:E.
  - apply find_first_Some in E as [Ht Hb]. apply andb_true_iff in Hb as [Hrt%bool_decide_eq_true Hst].
    f_equal. pose proof (loaded_distinct l c Postgres Hc) as Hnd.
    apply (Sql.NoDup_fmap_eq relation_ (for_store c Postgres)); [done| | |congruence];
      unfold for_store; by apply list_elem_of_filter.
  - rewrite find_first_None in E. specialize (E e He). rewrite Hs, andb_true_r in E.
    by apply bool_decide_eq_false in E.
Qed.

Lemma references_nil l c e :
  from_entities l = Ok c → e ∈ entities c →
  ForeignKeyNaming e = [] ∧ ForeignKeyTargetsId e = []
  ∧ (∀ col r, col ∈ columns e → references col = Some r →
      ∃ t, find_first (λ t, bool_decide (relation_ t = r_relation r) && has_store t Postgres)
             (entities c) = Some t ∧ is_Some (column t (r_column r)))
  ↔ ∀ col r, col ∈ columns e → references col = Some r → reference_conforms (entities c) col r.
Proof.
  intros Hc He. unfold ForeignKeyNaming, ForeignKeyTargetsId, reference_conforms, ends_with.
  rewrite !each_reference_nil. setoid_rewrite finding_nil. setoid_rewrite andb_false_iff.
  setoid_rewrite negb_false_iff. setoid_rewrite bool_decide_eq_true. split.
  - intros (H7 & H8 & H9) col r Hcol Hr. split_and!; [by apply H7|by apply (H8 col)|].
    destruct (H9 col r Hcol Hr) as (t & Ht & Hcolumn). apply find_first_Some in Ht as [Ht Hb].
    apply andb_true_iff in Hb as [?%bool_decide_eq_true ?%bool_decide_eq_true]. by exists t.
  - intros H. split_and!; intros col r Hcol Hr; destruct (H col r Hcol Hr) as (Hn & Hid & t & Ht & Hrel & Hs & Hcolumn);
      [done|done|]. exists t.
    split; [eapply postgres_target; [done..|by apply bool_decide_eq_true]|done].
Qed.

Lemma lint_clean l c dir :
  from_entities l = Ok c →
  filter (λ d, dg_severity d = SevError) (lint_catalog c dir) = []
  ↔ ∀ e, e ∈ entities c → conventions (entities c) e.
Proof.
  intros Hc. rewrite errors_nil, catalog_rules_error, ReferencesResolve_nil, HistoryCompanionNameIsFree_nil.
  rewrite (entity_rules_error (λ check, ∀ e, e ∈ entities c → check e = [])). split.
  - intros [(H1 & H2 & H3 & H4 & H5 & H6 & H7 & H8 & H10 & H11 & H12 & H13 & H16) [H9 H14]] e He.
    pose proof (proj1 (IdColumnExists_nil e) (H1 e He)) as Hid. split.
    + done.
    + by apply KeyIsId_nil, H2.
    + apply IdLeads_nil; [|by apply H3]. destruct Hid as (id & -> & _). by eexists.
    + apply timestamps_nil. auto.
    + apply (references_nil l c e Hc He). split_and!; [auto|auto|]. intros col r. by apply H9.
    + specialize (H10 e He). unfold NaturalKeyIsWellFormed in H10.
      apply natural_key_loop_nil in H10 as [Hnd H10]. split; [done|]. intros k Hk. by apply H10.
    + by apply LakeEnforcesOnlyNotNull_nil, H11.
    + specialize (H12 e He). unfold WireRequiresRust in H12.
      by rewrite finding_nil, negb_false_iff, orb_true_iff, bool_decide_eq_true in H12.
    + specialize (H16 e He). unfold TypescriptRequiresWire in H16.
      by rewrite finding_nil, negb_false_iff, orb_true_iff, !negb_true_iff, bool_decide_eq_false in H16.
    + specialize (H13 e He). unfold HistoryIsControlPlaneOnly in H13.
      by rewrite finding_nil, negb_false_iff, orb_true_iff, negb_true_iff in H13.
    + intros Hh. by apply H14.
  - intros H. split; [split_and!|split].
    + intros e He. apply IdColumnExists_nil, (cv_id _ _ (H e He)).
    + intros e He. apply KeyIsId_nil, (cv_key _ _ (H e He)).
    + intros e He. apply IdLeads_nil; [|apply (cv_leads _ _ (H e He))].
      destruct (cv_id _ _ (H e He)) as (id & -> & _). by eexists.
    + intros e He. apply timestamps_nil, (cv_timestamps _ _ (H e He)).
    + intros e He. apply timestamps_nil, (cv_timestamps _ _ (H e He)).
    + intros e He. apply timestamps_nil, (cv_timestamps _ _ (H e He)).
    + intros e He. apply (references_nil l c e Hc He), (cv_references _ _ (H e He)).
    + intros e He. apply (references_nil l c e Hc He), (cv_references _ _ (H e He)).
    + intros e He. apply natural_key_loop_nil. destruct (cv_natural _ _ (H e He)) as [Hnd Hk].
      split; [done|]. intros k Hin. split; [set_solver|by apply Hk].
    + intros e He. apply LakeEnforcesOnlyNotNull_nil, (cv_lake _ _ (H e He)).
    + intros e He. unfold WireRequiresRust.
      rewrite finding_nil, negb_false_iff, orb_true_iff, bool_decide_eq_true. apply (cv_wire _ _ (H e He)).
    + intros e He. unfold HistoryIsControlPlaneOnly.
      rewrite finding_nil, negb_false_iff, orb_true_iff, negb_true_iff. apply (cv_history _ _ (H e He)).
    + intros e He. unfold TypescriptRequiresWire.
      rewrite finding_nil, negb_false_iff, orb_true_iff, !negb_true_iff, bool_decide_eq_false.
      apply (cv_typescript _ _ (H e He)).
    + intros e col r He. apply (references_nil l c e Hc He), (cv_references _ _ (H e He)).
    + intros e He. apply (cv_companion _ _ (H e He)).
Qed.

(** ** Properties *)

(** A tree is accepted exactly when it loads and every entity of it keeps
    the conventions; a refusal carries the error-severity findings, which are
    never none, and the warnings never refuse. *)
Theorem load_linted_correct from_yaml dir listing :
  (∀ c, load_linted from_yaml dir listing = Ok c ↔
     load_dir from_yaml dir listing = Ok c ∧ ∀ e, e ∈ entities c → conventions (entities c) e)
  ∧ (∀ ds, load_linted from_yaml dir listing = Err (Rules ds) →
      ds ≠ [] ∧ ∃ c, load_dir from_yaml dir listing = Ok c
        ∧ ∀ d, d ∈ ds ↔ d ∈ findings c dir ∧ dg_severity d = SevError).
Proof.
  assert (∀ c, load_dir from_yaml dir listing = Ok c → from_entities (entities c) = Ok (mkCatalog (entities c) ∅))
    as Hfrom.
  { intros c. unfold load_dir. destruct listing; [|done]. destruct (load_loop _ _ _ _ _) as [[es srcs]|]; [|done].
    simpl. destruct (from_entities es) as [c'|] eqn:E; [|done]. intros [= <-]. simpl.
    pose proof E as E'. apply from_entities_Ok in E' as (-> & _ & _). exact E. }
  unfold load_linted. destruct (load_dir from_yaml dir listing) as [c|err] eqn:Hl; [|naive_solver].
  specialize (Hfrom c eq_refl).
  pose proof (lint_clean _ _ dir Hfrom) as Hclean. simpl in Hclean.
  assert (lint_catalog (mkCatalog (entities c) ∅) dir = lint_catalog c dir) as E by (by destruct c).
  rewrite E in Hclean.
  destruct (filter _ _) as [|d ds] eqn:Hd.
  - split; [|done]. intros c'. split.
    + intros [= <-]. split; [done|]. by apply Hclean.
    + by intros [[= ->] _].
  - split.
    + intros c'. split; [done|]. intros [[= <-] H]. apply Hclean in H. discriminate H.
    + intros ds' [= <-]. split; [done|]. exists c. split; [done|]. intros d'.
      rewrite <- Hd, list_elem_of_filter. unfold lint_catalog. rewrite merge_sort_Permutation. tauto.
Qed.

Lemma loaded_from from_yaml dir listing c :
  load_dir from_yaml dir listing = Ok c →
  ∃ l, from_entities l = Ok (mkCatalog (entities c) ∅).
Proof.
  unfold load_dir. destruct listing; [|done]. destruct (load_loop _ _ _ _ _) as [[es srcs]|]; [|done].
  simpl. destruct (from_entities es) as [c'|] eqn:E; [|done]. intros [= <-]. exists es.
  pose proof E as E'. by apply from_entities_Ok in E' as (-> & _ & _).
Qed.

(** A tree the conventions accept is one the reconciler can bring any store
    to: its references resolve, the names of its companions are free and its
    lake statements exist.  For the lake that is all; for the control plane one
    thing is left that no rule checks, that references have no cycle. *)
Theorem linted_plannable from_yaml dir listing c :
  load_linted from_yaml dir listing = Ok c →
  plannable c Duckdb
  ∧ (acyclic (by_relation (for_store c Postgres)) → plannable c Postgres).
Proof.
  unfold load_linted. destruct (load_dir from_yaml dir listing) as [c'|] eqn:Hl; [|done].
  destruct (filter _ _) as [|d ds] eqn:Hd; [|done]. intros [= ->].
  destruct (loaded_from _ _ _ _ Hl) as [l Hfrom].
  assert (∀ e, e ∈ entities c → conventions (entities c) e) as Hcv.
  { apply (lint_clean _ _ dir Hfrom). by destruct c. }
  assert (∀ s e, e ∈ for_store c s → e ∈ entities c ∧ has_store e s = true) as Hin.
  { intros s e [? ?]%list_elem_of_filter. done. }
  assert (∀ s e e', e ∈ for_store c s → e' ∈ for_store c s → history (generate e) = true →
            history_relation (relation_ e) ≠ relation_ e') as Hfree.
  { intros s e e' He He' Hh E. destruct (Hin _ _ He), (Hin _ _ He').
    by apply (cv_companion _ _ (Hcv e ltac:(done)) Hh e'). }
  assert (∀ s e, e ∈ for_store c s → natural_key_ok e) as Hnat.
  { intros s e He k Hk. destruct (Hin _ _ He) as [Hc _].
    by apply column_is_Some, (cv_natural _ _ (Hcv e Hc)). }
  assert (∀ s r e, by_relation (for_store c s) !! r = Some e ↔ e ∈ for_store c s ∧ relation_ e = r) as Hby.
  { intros s r e. apply by_relation_lookup. by eapply (loaded_distinct l (mkCatalog (entities c) ∅)). }
  split.
  - split; [done| |by apply Hfree|intros _; by apply Hnat].
    intros x Hx. assert (known (by_relation (for_store c Duckdb)) x) as Hkx.
    { eapply tc_known; [|exact Hx]. by intros r e [_ ?]%Hby. }
    apply Hby in Hkx as [Hkx _]. destruct (Hin _ _ Hkx) as [Hc Hs].
    destruct (cv_lake _ _ (Hcv x Hc) Hs) as [_ Hcols].
    assert (∀ a b, tc (dep (by_relation (for_store c Duckdb))) a b →
              ∃ y, dep (by_relation (for_store c Duckdb)) a y) as Hstep by (intros a b []; eauto).
    destruct (Hstep _ _ Hx) as (y & col & r & Hcol & Hr & _).
    destruct (Hcols col Hcol) as (_ & Hn & _). congruence.
  - intros Ha. split; [|done|by apply Hfree|done]. intros _ e col r He Hcol Hr.
    destruct (Hin _ _ He) as [Hc _].
    destruct (cv_references _ _ (Hcv e Hc) col r Hcol Hr) as (_ & _ & t & Ht & Hrel & Hs & Hcolumn).
    exists t. split_and!; [by apply list_elem_of_filter|done|by apply column_is_Some].
Qed.

(** ** A sample *)

Module SampleLint.
Import SampleSpec.

Definition stamp_column (name : string) : Column :=
  mkColumn name Timestamp false "A time." true (Some "now()") false None None.

Definition tenants : Entity :=
  entity "org" "orgs"
    [col "id" Varchar false; col "name" Varchar true; stamp_column "created_at"; stamp_column "updated_at"].

Definition yaml (text : string) : option Entity :=
  if decide (text = "orgs") then Some tenants else None.

Lemma tenants_accepted :
  load_linted yaml "entities" (Some [("org", Some (Some "orgs"))])
  = Ok (mkCatalog [tenants] {["org" := "orgs"]}).
Proof. vm_compute. reflexivity. Qed.

(** A breach of the tenancy convention is reported and does not refuse. *)
Lemma warning_reported :
  lint_catalog (mkCatalog [mkEntity "entity" 1 "ticket" "tickets" "A table." ["id"] []
      (mkGenerate [Postgres] [Rust] [] false false)
      [col "id" Varchar false; col "org_id" Varchar false; stamp_column "created_at"; stamp_column "updated_at"]
      []] ∅) "entities"
  = [mkDiagnostic "V15" SevWarning "ticket" "entities/ticket/entity.yaml"
       "org_id is tenant scope but no non-partial index leads with it, so every tenant-scoped read is a full scan"].
Proof. vm_compute. reflexivity. Qed.
End SampleLint.

Lemma linted_plannable_witness :
  plannable (mkCatalog [SampleLint.tenants] {["org" := "orgs"]}) Duckdb.
Proof.
  destruct (linted_plannable SampleLint.yaml "entities" _ _ SampleLint.tenants_accepted) as [H _].
  exact H.
Defined.
