(* ===== verification/SqlColumns.v ===== *)
(** * Columns of a SQL condition

    [dedupe-core/src/sql/columns.rs].  The SQL parser is a parameter; of its
    tree [Expr] keeps the nodes the file tells apart, any other node being its
    children in the order the visitor meets them.  [to_lowercase] is the
    Unicode lower case of a string. *)

From S2P Require Import Prelude F64 Text.

#[local] Open Scope rust_scope.

(** ** Definitions *)

Inductive BinaryOperator := OpAnd | OpEq | OpOther.

Inductive Expr :=
| Identifier (value : string)
| CompoundIdentifier (parts : list string)
| Nested (inner : Expr)
| BinaryOp (lhs : Expr) (op : BinaryOperator) (rhs : Expr)
| Lambda (body : Expr)
| OtherExpr (children : list Expr).

(** [error.rs]: the errors of the engine that carry a text of their own. *)
Inductive DedupeError :=
| Settings_ (message : string)
| SqlParse (context message : string)
| JsonError.

Record ColumnRef := mkRef { ref_table : option string; ref_column : string }.

#[global] Instance ColumnRef_eq_dec : EqDecision ColumnRef.
Proof. solve_decision. Defined.

(** The nodes [visit_expressions] calls its closure on, in order. *)
Fixpoint visited (e : Expr) : list Expr :=
  e :: match e with
       | Identifier _ | CompoundIdentifier _ => []
       | Nested inner => visited inner
       | BinaryOp l _ r => visited l ++ visited r
       | Lambda body => visited body
       | OtherExpr children => flat_map visited children
       end.

Definition column_of (e : Expr) : option ColumnRef :=
  match e with
  | Identifier v => Some (mkRef None v)
  | CompoundIdentifier parts =>
      column ← last parts;
      Some (mkRef (last (removelast parts)) column)
  | _ => None
  end.

Definition collect_columns (e : Expr) : list ColumnRef := omap column_of (visited e).

(** [Vec::remove] at the first position of a value. *)
Fixpoint remove_first (c : ColumnRef) (l : list ColumnRef) : list ColumnRef :=
  match l with
  | [] => []
  | x :: l => if decide (x = c) then l else x :: remove_first c l
  end.

Definition lambda_columns (e : Expr) : list ColumnRef :=
  e' ← visited e; match e' with Lambda body => collect_columns body | _ => [] end.

Definition used_columns (e : Expr) : list ColumnRef :=
  foldl (λ all lc, remove_first lc all) (collect_columns e) (lambda_columns e).

Definition strip_lr_suffix (name : string) : string :=
  let n := String.length name in
  let tail := to_ascii_lowercase (String.substring (n - 2) 2 name) in
  if decide ((tail = "_l" ∨ tail = "_r") ∧ 2 ≤ n) then String.substring 0 (n - 2) name else name.

Definition is_else_condition (sql : string) : bool :=
  bool_decide (to_ascii_lowercase (trim sql) = "else").

(** [Vec::push] unless the value is there. *)
Definition push_new {A} `{EqDecision A} (out : list A) (x : A) : list A :=
  if decide (x ∈ out) then out else out ++ [x].

Definition dedup_ordered {A} `{EqDecision A} (l : list A) : list A := foldl push_new [] l.

Fixpoint conjuncts (e : Expr) : list Expr :=
  match e with
  | Nested inner => conjuncts inner
  | BinaryOp l OpAnd r => conjuncts l ++ conjuncts r
  | other => [other]
  end.

Fixpoint as_bare_column (e : Expr) : option string :=
  match e with
  | Identifier v => Some v
  | Nested inner => as_bare_column inner
  | _ => None
  end.

Definition col_name (e : Expr) : option string :=
  match e with
  | Identifier v | Nested (Identifier v) => Some v
  | CompoundIdentifier parts | Nested (CompoundIdentifier parts) => last parts
  | _ => None
  end.

Section columns.
Context (parse : string → result Expr string) (to_lowercase : string → string).

Definition parse_expr (sql context : string) : result Expr DedupeError :=
  match parse sql with Ok e => Ok e | Err m => Err (SqlParse context m) end.

Definition columns_used (sql context : string) : result (list ColumnRef) DedupeError :=
  expr <-? parse_expr sql context;
  Ok (used_columns expr).

Definition input_columns (sql context : string) : result (list string) DedupeError :=
  if is_else_condition sql then Ok []
  else
    cols <-? columns_used sql context;
    Ok (dedup_ordered (strip_lr_suffix ∘ ref_column <$> cols)).

(** [s[..s.len() - 2]], a panic inside a character. *)
Definition cut2 (s : string) : option string := truncate s (String.length s - 2).

(** The loop over the conjuncts: [None] is the panic, [Some None] the answer no. *)
Fixpoint exact_loop (cols : list string) (l : list Expr) : option (option (list string)) :=
  match l with
  | [] => Some (Some cols)
  | BinaryOp lhs OpEq rhs :: l =>
      match as_bare_column lhs, as_bare_column rhs with
      | Some lc, Some rc =>
          if decide (String.length lc < 2 ∨ String.length rc < 2) then Some None
          else
            l_base ← to_lowercase <$> cut2 lc;
            r_base ← to_lowercase <$> cut2 rc;
            if decide (l_base = r_base) then exact_loop (push_new cols l_base) l else Some None
      | _, _ => Some None
      end
  | _ => Some None
  end.

Definition exact_match_columns (sql context : string) :
    option (result (option (list string)) DedupeError) :=
  if is_else_condition sql then Some (Ok None)
  else
    match parse_expr sql context with
    | Err err => Some (Err err)
    | Ok expr => Ok <$> exact_loop [] (conjuncts expr)
    end.

Fixpoint equi_loop (cols : list string) (l : list Expr) : option (list string) :=
  match l with
  | [] => Some cols
  | BinaryOp lhs OpEq rhs :: l =>
      lc ← col_name lhs;
      rc ← col_name rhs;
      if decide (lc = rc) then equi_loop (push_new cols lc) l else None
  | _ => None
  end.

Definition equi_join_columns (sql context : string) : result (option (list string)) DedupeError :=
  expr <-? parse_expr sql context;
  Ok (equi_loop [] (conjuncts expr)).
End columns.

(** ** Specification *)

(** The columns outside every lambda body. *)
Fixpoint outside (e : Expr) : list ColumnRef :=
  match e with
  | Identifier _ | CompoundIdentifier _ => option_list (column_of e)
  | Nested inner => outside inner
  | BinaryOp l _ r => outside l ++ outside r
  | Lambda _ => []
  | OtherExpr children => flat_map outside children
  end.

Fixpoint lambda_free (e : Expr) : bool :=
  match e with
  | Identifier _ | CompoundIdentifier _ => true
  | Nested inner => lambda_free inner
  | BinaryOp l _ r => lambda_free l && lambda_free r
  | Lambda _ => false
  | OtherExpr children => forallb lambda_free children
  end.

(** No lambda is inside another. *)
Fixpoint flat_lambdas (e : Expr) : bool :=
  match e with
  | Identifier _ | CompoundIdentifier _ => true
  | Nested inner => flat_lambdas inner
  | BinaryOp l _ r => flat_lambdas l && flat_lambdas r
  | Lambda body => lambda_free body
  | OtherExpr children => forallb flat_lambdas children
  end.

(** An equality of two bare columns with one base. *)
Definition bare_equality (lower : string → string) (e : Expr) (base : string) : Prop :=
  ∃ lhs rhs lc rc lb rb,
    e = BinaryOp lhs OpEq rhs ∧ as_bare_column lhs = Some lc ∧ as_bare_column rhs = Some rc
    ∧ 2 ≤ String.length lc ∧ 2 ≤ String.length rc
    ∧ cut2 lc = Some lb ∧ cut2 rc = Some rb ∧ lower lb = base ∧ lower rb = base.

(** ** Lemmas *)

Section Expr_ind.
Context (P : Expr → Prop)
  (Hid : ∀ v, P (Identifier v)) (Hco : ∀ ps, P (CompoundIdentifier ps))
  (Hne : ∀ e, P e → P (Nested e)) (Hbi : ∀ l op r, P l → P r → P (BinaryOp l op r))
  (Hla : ∀ e, P e → P (Lambda e)) (Hot : ∀ es, Forall P es → P (OtherExpr es)).

Fixpoint Expr_nested_ind (e : Expr) : P e :=
  match e with
  | Identifier v => Hid v
  | CompoundIdentifier ps => Hco ps
  | Nested e => Hne e (Expr_nested_ind e)
  | BinaryOp l op r => Hbi l op r (Expr_nested_ind l) (Expr_nested_ind r)
  | Lambda e => Hla e (Expr_nested_ind e)
  | OtherExpr es =>
      Hot es ((fix go (l : list Expr) : Forall P l :=
                 match l with
                 | [] => Forall_nil_2 P
                 | e :: l => Forall_cons_2 P e l (Expr_nested_ind e) (go l)
                 end) es)
  end.
End Expr_ind.

Lemma remove_first_Permutation c l l' : l ≡ₚ c :: l' → remove_first c l ≡ₚ l'.
Proof.
  revert l'. induction l as [|x l IH]; intros l' H; simpl.
  { by apply Permutation_nil_cons in H. }
  destruct (decide (x = c)) as [->|Hne]; [by apply Permutation_cons_inv in H|].
  assert (c ∈ l) as Hc.
  { assert (c ∈ x :: l) as [->|?]%elem_of_cons by (rewrite H; left); [done|done]. }
  apply elem_of_Permutation in Hc as [k Hk].
  rewrite (IH k Hk). rewrite Hk in H. apply (Permutation_cons_inv (a := c)).
  rewrite <- H. apply Permutation_swap.
Qed.

Lemma foldl_remove_Permutation rem l l' :
  l ≡ₚ rem ++ l' → foldl (λ all lc, remove_first lc all) l rem ≡ₚ l'.
Proof.
  revert l. induction rem as [|c rem IH]; intros l H; [done|]. simpl.
  apply IH. by apply remove_first_Permutation.
Qed.

Lemma omap_flat_map {A B C} (f : B → option C) (g : A → list B) l :
  omap f (flat_map g l) = flat_map (omap f ∘ g) l.
Proof. induction l as [|x l IH]; [done|]. simpl. by rewrite omap_app, IH. Qed.

Lemma flat_map_Permutation {A B} (f g h : A → list B) l :
  Forall (λ x, f x ≡ₚ g x ++ h x) l → flat_map f l ≡ₚ flat_map g l ++ flat_map h l.
Proof.
  induction 1 as [|x l Hx _ IH]; [done|]. simpl. rewrite Hx, IH.
  rewrite <- !(assoc_L (++)). apply Permutation_app_head.
  rewrite !(assoc_L (++)). apply Permutation_app_tail. apply Permutation_app_comm.
Qed.

Definition lambda_body_columns (e : Expr) : list ColumnRef :=
  match e with Lambda body => collect_columns body | _ => [] end.

Lemma lambda_columns_unfold e :
  lambda_columns e = flat_map lambda_body_columns (visited e).
Proof. unfold lambda_columns. induction (visited e) as [|x l IH]; [done|]. simpl. by rewrite <- IH. Qed.

Lemma flat_map_flat_map {A B C} (f : B → list C) (g : A → list B) l :
  flat_map f (flat_map g l) = flat_map (λ x, flat_map f (g x)) l.
Proof. induction l as [|x l IH]; [done|]. simpl. by rewrite flat_map_app, IH. Qed.

Lemma lambda_free_columns e : lambda_free e = true → lambda_columns e = [].
Proof.
  rewrite lambda_columns_unfold.
  induction e as [v|ps|e IH|l op r IHl IHr|e IH|es IH] using Expr_nested_ind; simpl; intros H; try done.
  - by apply IH.
  - apply andb_true_iff in H as [H1 H2]. by rewrite flat_map_app, IHl, IHr.
  - rewrite flat_map_flat_map. induction IH as [|e es He _ IHes]; [done|]. simpl in *.
    apply andb_true_iff in H as [H1 H2]. by rewrite He, IHes.
Qed.

Lemma collect_split e :
  flat_lambdas e = true → collect_columns e ≡ₚ lambda_columns e ++ outside e.
Proof.
  rewrite lambda_columns_unfold. unfold collect_columns.
  induction e as [v|ps|e IH|l op r IHl IHr|e IH|es IH] using Expr_nested_ind; simpl; intros H.
  - done.
  - destruct (last ps); done.
  - by apply IH.
  - apply andb_true_iff in H as [H1 H2]. rewrite omap_app, flat_map_app, IHl, IHr by done.
    rewrite <- !(assoc_L (++)). apply Permutation_app_head.
    rewrite !(assoc_L (++)). apply Permutation_app_tail. apply Permutation_app_comm.
  - pose proof (lambda_free_columns e H) as E. rewrite lambda_columns_unfold in E.
    rewrite E, !app_nil_r. done.
  - rewrite omap_flat_map, flat_map_flat_map. apply flat_map_Permutation.
    induction IH as [|e es He _ IHes]; [constructor|]. simpl in H. apply andb_true_iff in H as [H1 H2].
    constructor; [by apply He|by apply IHes].
Qed.

Lemma elem_of_push_new {A} `{EqDecision A} (out : list A) x y :
  y ∈ push_new out x ↔ y ∈ out ∨ y = x.
Proof. unfold push_new. destruct (decide _); set_solver. Qed.

Lemma elem_of_dedup_ordered {A} `{EqDecision A} (l : list A) x : x ∈ dedup_ordered l ↔ x ∈ l.
Proof.
  unfold dedup_ordered. assert (∀ out, x ∈ foldl push_new out l ↔ x ∈ out ∨ x ∈ l) as H.
  { induction l as [|y l IH]; intros out; simpl; [set_solver|].
    rewrite IH, elem_of_push_new. set_solver. }
  rewrite H. set_solver.
Qed.

Lemma NoDup_push_new {A} `{EqDecision A} (out : list A) x : NoDup out → NoDup (push_new out x).
Proof.
  unfold push_new. intros H. destruct (decide _); [done|]. apply NoDup_app. split_and!; [done| |by apply NoDup_singleton].
  set_solver.
Qed.

Lemma NoDup_dedup_ordered {A} `{EqDecision A} (l : list A) : NoDup (dedup_ordered l).
Proof.
  unfold dedup_ordered. assert (∀ out, NoDup out → NoDup (foldl push_new out l)) as H.
  { induction l as [|y l IH]; intros out Ho; simpl; [done|]. by apply IH, NoDup_push_new. }
  apply H. constructor.
Qed.

(** ** Properties *)

(** The columns of a condition are those outside its lambda bodies, each as
    often as it is written there, whatever names the bodies share with the rest,
    as long as no lambda is inside another. *)
Theorem columns_used_correct parse sql context e :
  parse sql = Ok e → flat_lambdas e = true →
  ∃ cols, columns_used parse sql context = Ok cols ∧ cols ≡ₚ outside e.
Proof.
  intros Hp Hf. unfold columns_used, parse_expr. rewrite Hp. eexists. split; [done|].
  by apply foldl_remove_Permutation, collect_split.
Qed.

Lemma columns_used_correct_witness :
  ∃ cols, columns_used (λ _, Ok (BinaryOp (OtherExpr [Identifier "xs"; Lambda (Identifier "a")]) OpAnd
                                   (Identifier "a"))) "sql" "rule" = Ok cols
    ∧ cols ≡ₚ [mkRef None "xs"; mkRef None "a"].
Proof.
  exact (columns_used_correct
           (λ _, Ok (BinaryOp (OtherExpr [Identifier "xs"; Lambda (Identifier "a")]) OpAnd (Identifier "a")))
           "sql" "rule" _ eq_refl eq_refl).
Defined.

(** A lambda inside another has its columns taken away twice, once from the
    rest of the condition. *)
Example nested_lambda_loses_column :
  let inner := Lambda (Identifier "city") in
  let e := BinaryOp (OtherExpr [Identifier "xs"; Lambda (OtherExpr [Identifier "ys"; inner])]) OpAnd
             (BinaryOp (Identifier "city") OpEq (Identifier "zip")) in
  ref_column <$> outside e = ["xs"; "city"; "zip"]
  ∧ ref_column <$> used_columns e = ["xs"; "zip"].
Proof. split; vm_compute; reflexivity. Qed.

(** The cut of the last two bytes panics inside a character. *)
Example exact_match_cuts_character :
  exact_match_columns
    (λ _, Ok (BinaryOp (Identifier ("a" +:+ "é" +:+ "1")) OpEq (Identifier "a_r"))) id "sql" "level" = None.
Proof. vm_compute. reflexivity. Qed.
