(* ===== verification/EngineSettings.v ===== *)
(** * Settings of the record-linkage engine

    [dedupe-core]: the settings document ([settings/json.rs]), its compiled form
    ([settings/mod.rs], [comparison.rs], [blocking.rs]) and the scores read off a
    level ([scoring.rs]).  [log2] and [pow2], the power of two, are the
    platform's; [display] is the shortest text of an [f64].  A panic is [None]:
    the only one is the default u of a comparison with one level. *)

From S2P Require Import Prelude Json F64 Text SqlColumns.
From stdpp Require Import pretty.
From Stdlib Require Import Ascii.

#[local] Open Scope rust_scope.

(** ** Definitions *)

(** *** The document *)

Inductive LinkType := DedupeOnly | LinkOnly | LinkAndDedupe.

#[global] Instance LinkType_eq_dec : EqDecision LinkType.
Proof. solve_decision. Defined.

Record ComparisonLevelJson := mkLevelJson {
  lj_sql_condition : string;
  lj_label_for_charts : option string;
  lj_m_probability : option spec_float;
  lj_u_probability : option spec_float;
  lj_fix_m : bool;
  lj_fix_u : bool;
  lj_is_null_level : bool;
  lj_tf_column : option string;
  lj_tf_weight : option spec_float;
  lj_tf_minimum_u : option spec_float;
  lj_disable_tf_exact : bool;
  lj_extra : list (string * json);
}.

Record ComparisonJson := mkComparisonJson {
  cj_output_column_name : string;
  cj_levels : list ComparisonLevelJson;
  cj_description : option string;
  cj_extra : list (string * json);
}.

Inductive BlockingRuleJson :=
| BrSql (sql : string)
| BrDetailed (blocking_rule : string) (sql_dialect : option string)
    (arrays : list string) (extra : list (string * json)).

Definition br_sql (b : BlockingRuleJson) : string :=
  match b with BrSql s | BrDetailed s _ _ _ => s end.

Definition br_arrays (b : BlockingRuleJson) : list string :=
  match b with BrSql _ => [] | BrDetailed _ _ a _ => a end.

Record SettingsJson := mkSettingsJson {
  sj_link_type : LinkType;
  sj_prior : spec_float;
  sj_retain_matching : bool;
  sj_retain_intermediate : bool;
  sj_additional_columns : list string;
  sj_sql_dialect : option string;
  sj_linker_uid : option string;
  sj_em_convergence : spec_float;
  sj_max_iterations : Z;
  sj_mw_prefix : string;
  sj_tf_prefix : string;
  sj_gamma_prefix : string;
  sj_unique_id : string;
  sj_source_dataset : string;
  sj_blocking_rules : list BlockingRuleJson;
  sj_comparisons : list ComparisonJson;
  sj_extra : list (string * json);
}.

(** *** Probabilities *)

(** [1e-300], [1e-6]. *)
Definition M_U_CLAMP_MIN : spec_float := lit64 6032057205060441 (-1049).
Definition LEVEL_NOT_OBSERVED_VALUE : spec_float := lit64 4722366482869645 (-72).

Inductive ProbabilitySlot := Unset_ | Value_ (v : spec_float).

Definition resolve (s : ProbabilitySlot) (default : spec_float) : spec_float :=
  match s with Unset_ => default | Value_ v => v end.

Definition raw (s : ProbabilitySlot) : option spec_float :=
  match s with Unset_ => None | Value_ v => Some v end.

Record TfSpec := mkTf {
  tf_column : string;
  tf_weight : spec_float;
  tf_minimum_u_value : spec_float;
  tf_disable_exact : bool;
}.

Record ComparisonLevel := mkLevel {
  sql_condition : string;
  label_for_charts : string;
  gamma : Z;
  is_null_level : bool;
  is_else : bool;
  m : ProbabilitySlot;
  u : ProbabilitySlot;
  default_m : spec_float;
  default_u : spec_float;
  fix_m : bool;
  fix_u : bool;
  tf : option TfSpec;
  l_input_columns : list string;
  l_exact_match_columns : option (list string);
}.

Definition has_tf_adjustments (l : ComparisonLevel) : bool :=
  match tf l with Some _ => true | None => false end.

Record Comparison := mkComparison {
  output_column_name : string;
  comparison_description : option string;
  levels : list ComparisonLevel;
  c_input_columns : list string;
  gamma_prefix : string;
  mw_prefix : string;
  tf_prefix : string;
}.

Record BlockingRule := mkBlockingRule {
  b_index : nat;
  b_sql : string;
  arrays_to_explode : list string;
}.

Definition is_exploding (b : BlockingRule) : bool :=
  match arrays_to_explode b with [] => false | _ => true end.

Record Settings := mkSettings {
  s_json : SettingsJson;
  link_type : LinkType;
  unique_id_column : string;
  source_dataset_column : string;
  retain_matching_columns : bool;
  retain_intermediate : bool;
  additional_columns_to_retain : list string;
  s_gamma_prefix : string;
  s_mw_prefix : string;
  s_tf_prefix : string;
  prior : spec_float;
  em_convergence : spec_float;
  max_iterations : Z;
  comparisons : list Comparison;
  blocking_rules : list BlockingRule;
}.

(** *** Names of the generated columns *)

Fixpoint sanitise (s : string) : string :=
  match s with
  | EmptyString => EmptyString
  | String c s => String (if decide (c = " "%char) then "_"%char else c) (sanitise s)
  end.

Definition sanitised_name (c : Comparison) : string := sanitise (output_column_name c).
Definition gamma_column_name (c : Comparison) : string := gamma_prefix c +:+ sanitised_name c.
Definition mw_column_name (c : Comparison) : string := mw_prefix c +:+ sanitised_name c.
Definition mw_tf_adj_column_name (c : Comparison) : string :=
  mw_prefix c +:+ tf_prefix c +:+ "adj_" +:+ sanitised_name c.

Definition comparison_has_tf (c : Comparison) : bool := existsb has_tf_adjustments (levels c).

Definition tf_input_columns (c : Comparison) : list string :=
  dedup_ordered (omap (λ l, tf_column <$> tf l) (levels c)).

Definition tf_columns (s : Settings) : list string :=
  dedup_ordered (comparisons s ≫= tf_input_columns).

Definition source_dataset_required (s : Settings) : bool :=
  negb (bool_decide (link_type s = DedupeOnly)).

Definition one : spec_float := f64_of 1.
Definition P95 : spec_float := lit64 8556839292003942 (-53).

(** [default_m_values] of at least one level; the vector by its length. *)
Definition default_m_values (n : nat) : list spec_float :=
  let split := f64_div (f64_sub one P95) (f64_sub (f64_of (Z.of_nat n)) one) in
  replicate (n - 1) split ++ [P95].

(** [None] is the underflow of [num_elements - 1]. *)
Definition interpolate (start stop : spec_float) (n : nat) : option (list spec_float) :=
  match n with
  | 0 => None
  | S k =>
      let step := f64_div (f64_sub stop start) (f64_of (Z.of_nat k)) in
      Some ((λ i, f64_add start (f64_mul (f64_of (Z.of_nat i)) step)) <$> seq 0 n)
  end.

Section engine.
Context (parse : string → result Expr string) (to_lowercase : string → string)
        (pow2 log2 : spec_float → spec_float) (display : spec_float → string).

Definition default_u_values (n : nat) : option (list spec_float) :=
  match_weights ← (if decide (n = 2) then Some [f64_of (-5)]
                   else interpolate (f64_of (-5)) (f64_of 3) (n - 1));
  Some (zip_with (λ m w, f64_div m (pow2 w)) (default_m_values n) (match_weights ++ [f64_of 10])).

(** *** Compiling *)

Definition validate_probability (p : option spec_float) (what ctx : string) :
    result ProbabilitySlot DedupeError :=
  match p with
  | None => Ok Unset_
  | Some v =>
      if in_range M_U_CLAMP_MIN one v then Ok (Value_ v)
      else Err (Settings_ (ctx +:+ ": " +:+ what +:+ " must be in [1e-300, 1.0], got " +:+ display v))
  end.

Definition level_ctx (comparison_name : string) (lj : ComparisonLevelJson) : string :=
  "comparison '" +:+ comparison_name +:+ "' level '" +:+ lj_sql_condition lj +:+ "'".

Definition tf_of (lj : ComparisonLevelJson) : option TfSpec :=
  (λ col, mkTf col (default one (lj_tf_weight lj)) (default (f64_of 0) (lj_tf_minimum_u lj))
            (lj_disable_tf_exact lj)) <$> lj_tf_column lj.

(** The exact columns are read after the input columns. *)
Definition level_exact (ctx : string) (lj : ComparisonLevelJson) :
    option (result (option (list string)) DedupeError) :=
  if is_else_condition (lj_sql_condition lj) || lj_is_null_level lj then Some (Ok None)
  else exact_match_columns parse to_lowercase (lj_sql_condition lj) ctx.

Definition compile_level (comparison_name : string) (lj : ComparisonLevelJson) :
    option (result ComparisonLevel DedupeError) :=
  let ctx := level_ctx comparison_name lj in
  let is_else := is_else_condition (lj_sql_condition lj) in
  if is_else && lj_is_null_level lj then
    Some (Err (Settings_ (ctx +:+ ": ELSE level cannot be a null level")))
  else
    match input_columns parse (lj_sql_condition lj) ctx with
    | Err e => Some (Err e)
    | Ok cols =>
        exact ← level_exact ctx lj;
        Some (exact <-? exact;
              m <-? validate_probability (lj_m_probability lj) "m_probability" ctx;
              u <-? validate_probability (lj_u_probability lj) "u_probability" ctx;
              Ok (mkLevel (lj_sql_condition lj)
                    (default (lj_sql_condition lj) (lj_label_for_charts lj)) 0
                    (lj_is_null_level lj) is_else m u (f64_of 0) (f64_of 0)
                    (lj_fix_m lj) (lj_fix_u lj) (tf_of lj) cols exact))
    end.

(** [collect] into a [Result]: the first error ends it. *)
Fixpoint collect_results {A B} (f : A → option (result B DedupeError)) (l : list A) :
    option (result (list B) DedupeError) :=
  match l with
  | [] => Some (Ok [])
  | x :: l =>
      y ← f x;
      match y with
      | Err e => Some (Err e)
      | Ok y =>
          rest ← collect_results f l;
          Some (ys <-? rest; Ok (y :: ys))
      end
  end.

Definition set_gamma (l : ComparisonLevel) (g : Z) (dm du : spec_float) : ComparisonLevel :=
  mkLevel (sql_condition l) (label_for_charts l) g (is_null_level l) (is_else l) (m l) (u l)
    dm du (fix_m l) (fix_u l) (tf l) (l_input_columns l) (l_exact_match_columns l).

(** The loop that numbers the levels; [counter] counts down. *)
Fixpoint assign_gammas (dm du : list spec_float) (counter : Z) (l : list ComparisonLevel) :
    option (list ComparisonLevel) :=
  match l with
  | [] => Some []
  | level :: l =>
      if is_null_level level then
        rest ← assign_gammas dm du counter l;
        Some (set_gamma level (-1) (default_m level) (default_u level) :: rest)
      else
        a ← dm !! Z.to_nat counter;
        b ← du !! Z.to_nat counter;
        rest ← assign_gammas dm du (counter - 1) l;
        Some (set_gamma level counter a b :: rest)
  end.

Definition is_nonnull (l : ComparisonLevel) : bool := negb (is_null_level l).

Definition compile_comparison (gamma_prefix mw_prefix tf_prefix : string) (j : ComparisonJson) :
    option (result Comparison DedupeError) :=
  let name := cj_output_column_name j in
  match cj_levels j with
  | [] => Some (Err (Settings_ ("comparison '" +:+ name +:+ "' has no comparison_levels")))
  | _ =>
      compiled ← collect_results (compile_level name) (cj_levels j);
      match compiled with
      | Err e => Some (Err e)
      | Ok compiled =>
          let n := length (filter (λ l, is_nonnull l = true) compiled) in
          if decide (n = 0) then
            Some (Err (Settings_ ("comparison '" +:+ name +:+ "' has only null levels")))
          else
            du ← default_u_values n;
            numbered ← assign_gammas (default_m_values n) du (Z.of_nat n - 1) compiled;
            let n_else := length (filter (λ l, is_else l = true) numbered) in
            if negb (bool_decide (n_else = 1)) then
              Some (Err (Settings_ ("comparison '" +:+ name
                +:+ "' must have exactly one ELSE level (found " +:+ pretty n_else +:+ ")")))
            else if negb (match last numbered with Some l => is_else l | None => false end) then
              Some (Err (Settings_ ("comparison '" +:+ name
                +:+ "': the ELSE level must be declared last")))
            else
              Some (Ok (mkComparison name (cj_description j) numbered
                          (dedup_ordered (numbered ≫= l_input_columns))
                          gamma_prefix mw_prefix tf_prefix))
      end
  end.

Definition compile_blocking_rule (i : nat) (b : BlockingRuleJson) : BlockingRule :=
  mkBlockingRule i (br_sql b) (br_arrays b).

(** [(0.0..1.0).contains(&prior)] and not zero. *)
Definition prior_ok (p : spec_float) : bool :=
  SFleb (f64_of 0) p && SFltb p one && negb (SFeqb p (f64_of 0)).

Definition compile (j : SettingsJson) : option (result Settings DedupeError) :=
  if negb (prior_ok (sj_prior j)) then
    Some (Err (Settings_ ("probability_two_random_records_match must be in (0, 1), got "
                          +:+ display (sj_prior j))))
  else
    cs ← collect_results
           (compile_comparison (sj_gamma_prefix j) (sj_mw_prefix j) (sj_tf_prefix j))
           (sj_comparisons j);
    Some (cs <-? cs;
          Ok (mkSettings j (sj_link_type j) (sj_unique_id j) (sj_source_dataset j)
                (sj_retain_matching j) (sj_retain_intermediate j) (sj_additional_columns j)
                (sj_gamma_prefix j) (sj_mw_prefix j) (sj_tf_prefix j) (sj_prior j)
                (sj_em_convergence j) (sj_max_iterations j) cs
                (imap compile_blocking_rule (sj_blocking_rules j)))).

Definition referenced_columns (b : BlockingRule) : result (list string) DedupeError :=
  cols <-? columns_used parse (b_sql b) ("blocking rule " +:+ pretty (b_index b));
  Ok (dedup_ordered (ref_column <$> cols)).

(** *** Scoring *)

Definition match_weight (m u : spec_float) : spec_float :=
  log2 (f64_div (f64_max m M_U_CLAMP_MIN) (f64_max u M_U_CLAMP_MIN)).

Definition prior_log2_odds (lambda : spec_float) : spec_float :=
  log2 (f64_div lambda (f64_sub one lambda)).

Definition prob_to_match_weight (p : spec_float) : spec_float := prior_log2_odds p.

Definition match_weight_to_prob (w : spec_float) : spec_float :=
  if SFleb (f64_of 0) w then f64_div one (f64_add one (pow2 (SFopp w)))
  else let p := pow2 w in f64_div p (f64_add one p).

Definition level_m_u (l : ComparisonLevel) : spec_float * spec_float :=
  (resolve (m l) (default_m l), resolve (u l) (default_u l)).

(** [None] is the [expect] on a level without term frequencies. *)
Definition u_probability_for_tf_base (c : Comparison) (level : ComparisonLevel) :
    option (result spec_float DedupeError) :=
  t ← tf level;
  Some (if tf_disable_exact t then Ok (level_m_u level).2
        else
          match find_first (λ s, bool_decide (l_exact_match_columns s = Some [to_lowercase (tf_column t)]))
                  (levels c) with
          | Some sibling => Ok (level_m_u sibling).2
          | None =>
              Err (Settings_ ("comparison '" +:+ output_column_name c +:+ "': tf adjustment on level '"
                +:+ sql_condition level +:+ "' requires an exact-match level on column '"
                +:+ tf_column t +:+ "' (or disable_tf_exact_match_detection)"))
          end).
End engine.

(** *** Writing the state back *)

Definition write_level (lj : ComparisonLevelJson) (l : ComparisonLevel) : ComparisonLevelJson :=
  if is_null_level l then lj
  else
    mkLevelJson (lj_sql_condition lj) (lj_label_for_charts lj)
      (match m l with Value_ v => Some v | Unset_ => lj_m_probability lj end)
      (match u l with Value_ v => Some v | Unset_ => lj_u_probability lj end)
      (lj_fix_m lj) (lj_fix_u lj) (lj_is_null_level lj) (lj_tf_column lj) (lj_tf_weight lj)
      (lj_tf_minimum_u lj) (lj_disable_tf_exact lj) (lj_extra lj).

(** A [zip] over the first vector's own elements: those past the second's end
    stay as they are. *)
Fixpoint zip_update {A B} (f : A → B → A) (l : list A) (k : list B) : list A :=
  match l, k with
  | x :: l, y :: k => f x y :: zip_update f l k
  | l, _ => l
  end.

Definition write_comparison (cj : ComparisonJson) (c : Comparison) : ComparisonJson :=
  mkComparisonJson (cj_output_column_name cj) (zip_update write_level (cj_levels cj) (levels c))
    (cj_description cj) (cj_extra cj).

Definition to_settings_json (s : Settings) : SettingsJson :=
  let j := s_json s in
  mkSettingsJson (sj_link_type j) (prior s) (sj_retain_matching j) (sj_retain_intermediate j)
    (sj_additional_columns j) (sj_sql_dialect j) (sj_linker_uid j) (sj_em_convergence j)
    (sj_max_iterations j) (sj_mw_prefix j) (sj_tf_prefix j) (sj_gamma_prefix j) (sj_unique_id j)
    (sj_source_dataset j) (sj_blocking_rules j)
    (zip_update write_comparison (sj_comparisons j) (comparisons s)) (sj_extra j).

(** ** Specification *)

Definition prob_ok (p : option spec_float) : Prop :=
  ∀ v, p = Some v → in_range M_U_CLAMP_MIN one v = true.

Definition slot (p : option spec_float) : ProbabilitySlot :=
  match p with Some v => Value_ v | None => Unset_ end.

Definition nonnull_count (l : list ComparisonLevel) : nat :=
  length (filter (λ l, is_nonnull l = true) l).

Section spec.
Context (parse : string → result Expr string) (to_lowercase : string → string).

(** A level the engine takes. *)
Record level_accepted (lj : ComparisonLevelJson) : Prop := {
  la_else : is_else_condition (lj_sql_condition lj) && lj_is_null_level lj = false;
  la_parses : is_else_condition (lj_sql_condition lj) = true
    ∨ ∃ e, parse (lj_sql_condition lj) = Ok e
        ∧ (lj_is_null_level lj = true ∨ exact_loop to_lowercase [] (conjuncts e) ≠ None);
  la_m : prob_ok (lj_m_probability lj);
  la_u : prob_ok (lj_u_probability lj);
}.

(** A comparison the engine takes: the catch-all is its last level and no
    other, and some level before it can be observed. *)
Record comparison_accepted (cj : ComparisonJson) : Prop := {
  ca_levels : Forall level_accepted (cj_levels cj);
  ca_else : ∃ init lj, cj_levels cj = init ++ [lj]
    ∧ is_else_condition (lj_sql_condition lj) = true
    ∧ Forall (λ lj, is_else_condition (lj_sql_condition lj) = false) init
    ∧ Exists (λ lj, lj_is_null_level lj = false) init;
}.

Definition settings_accepted (j : SettingsJson) : Prop :=
  prior_ok (sj_prior j) = true ∧ Forall comparison_accepted (sj_comparisons j).

(** What a compiled level keeps of the document. *)
Record compiled_level (lj : ComparisonLevelJson) (l : ComparisonLevel) : Prop := {
  cl_sql : sql_condition l = lj_sql_condition lj;
  cl_label : label_for_charts l = default (lj_sql_condition lj) (lj_label_for_charts lj);
  cl_null : is_null_level l = lj_is_null_level lj;
  cl_else : is_else l = is_else_condition (lj_sql_condition lj);
  cl_m : m l = slot (lj_m_probability lj);
  cl_u : u l = slot (lj_u_probability lj);
  cl_fix_m : fix_m l = lj_fix_m lj;
  cl_fix_u : fix_u l = lj_fix_u lj;
  cl_tf : tf l = tf_of lj;
  cl_exact : ∀ ctx, level_exact parse to_lowercase ctx lj = Some (Ok (l_exact_match_columns l));
  cl_columns : ∀ ctx, input_columns parse (lj_sql_condition lj) ctx = Ok (l_input_columns l);
}.
End spec.

(** Every level is numbered by the levels below it that can be observed, its
    defaults are those of its number, and a null level is [-1]. *)
Definition numbered (dm du : list spec_float) (l : list ComparisonLevel) : Prop :=
  ∀ l1 x l2, l = l1 ++ x :: l2 →
    if is_null_level x then gamma x = (-1)%Z
    else gamma x = Z.of_nat (nonnull_count l2)
         ∧ dm !! nonnull_count l2 = Some (default_m x) ∧ du !! nonnull_count l2 = Some (default_u x).

(** ** Lemmas *)

Lemma validate_probability_Ok display p what ctx s :
  validate_probability display p what ctx = Ok s ↔ prob_ok p ∧ s = slot p.
Proof.
  unfold validate_probability, prob_ok, slot. destruct p as [v|]; [|naive_solver].
  destruct (in_range _ _ v) eqn:E; split.
  - intros [= <-]. split; [|done]. by intros ? [= <-].
  - by intros [_ ->].
  - done.
  - intros [H _]. specialize (H v eq_refl). congruence.
Qed.

Lemma collect_results_Ok {A B} (f : A → option (result B DedupeError)) l ys :
  collect_results f l = Some (Ok ys) ↔ Forall2 (λ x y, f x = Some (Ok y)) l ys.
Proof.
  revert ys. induction l as [|x l IH]; intros ys; simpl.
  { split; [intros [= <-]; constructor|]. by intros ->%Forall2_nil_inv_l. }
  destruct (f x) as [[y|e]|] eqn:E; simpl.
  - destruct (collect_results f l) as [[rest|e]|] eqn:Er; simpl.
    + split.
      * intros [= <-]. constructor; [done|]. by apply IH.
      * intros (y' & ys' & Hy & Hr & ->)%Forall2_cons_inv_l. apply IH in Hr. congruence.
    + split; [done|]. intros (y' & ys' & _ & Hr & ->)%Forall2_cons_inv_l. apply IH in Hr. congruence.
    + split; [done|]. intros (y' & ys' & _ & Hr & ->)%Forall2_cons_inv_l. apply IH in Hr. congruence.
  - split; [done|]. intros (y' & ys' & Hy & _)%Forall2_cons_inv_l. congruence.
  - split; [done|]. intros (y' & ys' & Hy & _)%Forall2_cons_inv_l. congruence.
Qed.

Section lemmas.
Context (parse : string → result Expr string) (to_lowercase : string → string)
        (pow2 log2 : spec_float → spec_float) (display : spec_float → string).

Lemma input_columns_Ok sql ctx :
  (∃ cols, input_columns parse sql ctx = Ok cols)
  ↔ is_else_condition sql = true ∨ ∃ e, parse sql = Ok e.
Proof.
  unfold input_columns, columns_used, parse_expr. destruct (is_else_condition sql); [naive_solver|].
  destruct (parse sql); naive_solver.
Qed.

Lemma input_columns_ctx sql ctx ctx' cols :
  input_columns parse sql ctx = Ok cols → input_columns parse sql ctx' = Ok cols.
Proof.
  unfold input_columns, columns_used, parse_expr. destruct (is_else_condition sql); [done|].
  by destruct (parse sql).
Qed.

Lemma level_exact_ctx ctx ctx' lj x :
  level_exact parse to_lowercase ctx lj = Some (Ok x) →
  level_exact parse to_lowercase ctx' lj = Some (Ok x).
Proof.
  unfold level_exact, exact_match_columns, parse_expr. destruct (_ || _); [done|].
  destruct (is_else_condition _); [done|]. by destruct (parse _).
Qed.

Lemma level_exact_Ok ctx lj :
  (is_else_condition (lj_sql_condition lj) = true ∨ ∃ e, parse (lj_sql_condition lj) = Ok e) →
  (∃ x, level_exact parse to_lowercase ctx lj = Some (Ok x))
  ↔ is_else_condition (lj_sql_condition lj) = true ∨ lj_is_null_level lj = true
    ∨ ∃ e, parse (lj_sql_condition lj) = Ok e ∧ exact_loop to_lowercase [] (conjuncts e) ≠ None.
Proof.
  intros Hp. unfold level_exact, exact_match_columns, parse_expr.
  destruct (is_else_condition _) eqn:Ee; simpl; [naive_solver|].
  destruct (lj_is_null_level lj) eqn:En; simpl; [naive_solver|].
  destruct Hp as [?|[e ->]]; [done|]. destruct (exact_loop _ _ _) eqn:Ex; simpl; naive_solver.
Qed.

Lemma compile_level_Ok name lj l :
  compile_level parse to_lowercase display name lj = Some (Ok l) →
  level_accepted parse to_lowercase lj ∧ compiled_level parse to_lowercase lj l.
Proof.
  unfold compile_level. destruct (_ && _) eqn:Ee; [done|].
  destruct (input_columns _ _ _) as [cols|] eqn:Ei; [|done].
  destruct (level_exact _ _ _ _) as [[ex|]|] eqn:Ex; simpl; [|done..].
  destruct (validate_probability display (lj_m_probability lj) _ _) as [ms|] eqn:Em; [|done].
  destruct (validate_probability display (lj_u_probability lj) _ _) as [us|] eqn:Eu; [|done].
  apply validate_probability_Ok in Em as [Hm ->]. apply validate_probability_Ok in Eu as [Hu ->].
  intros [= <-]. split.
  - split; [done| |done|done].
    assert (∃ cols, input_columns parse (lj_sql_condition lj) (level_ctx name lj) = Ok cols) as Hc by eauto.
    apply input_columns_Ok in Hc. destruct Hc as [?|[e He]]; [by left|].
    assert (∃ x, level_exact parse to_lowercase (level_ctx name lj) lj = Some (Ok x)) as Hx by eauto.
    apply level_exact_Ok in Hx; [|naive_solver]. naive_solver.
  - split; try done; intros ctx; [by eapply level_exact_ctx|by eapply input_columns_ctx].
Qed.

Lemma compile_level_accepted name lj :
  level_accepted parse to_lowercase lj →
  ∃ l, compile_level parse to_lowercase display name lj = Some (Ok l).
Proof.
  intros [He Hp Hm Hu]. unfold compile_level. rewrite He.
  destruct (proj2 (input_columns_Ok (lj_sql_condition lj) (level_ctx name lj))) as [cols ->]; [naive_solver|].
  destruct (proj2 (level_exact_Ok (level_ctx name lj) lj ltac:(naive_solver))) as [x ->]; [naive_solver|].
  simpl. rewrite (proj2 (validate_probability_Ok display _ "m_probability" (level_ctx name lj) _) (conj Hm eq_refl)).
  rewrite (proj2 (validate_probability_Ok display _ "u_probability" (level_ctx name lj) _) (conj Hu eq_refl)).
  eauto.
Qed.

Lemma length_default_m_values n : n ≠ 0 → length (default_m_values n) = n.
Proof. unfold default_m_values. rewrite length_app, length_replicate. simpl. lia. Qed.

Lemma default_u_values_Some n du :
  default_u_values pow2 n = Some du → 2 ≤ n ∧ length du = n.
Proof.
  unfold default_u_values. destruct (decide (n = 2)) as [->|Hn]; simpl.
  { intros [= <-]. split; [lia|done]. }
  destruct (n - 1) as [|k] eqn:Ek; simpl; [done|]. intros [= <-].
  rewrite length_zip_with, length_default_m_values by lia.
  simpl. rewrite length_app, length_fmap, length_seq. simpl. lia.
Qed.

Lemma default_u_values_total n : 2 ≤ n → ∃ du, default_u_values pow2 n = Some du.
Proof.
  intros Hn. unfold default_u_values. destruct (decide (n = 2)); simpl; [eauto|].
  destruct (n - 1) eqn:E; [lia|]. simpl. eauto.
Qed.

(** Numbering keeps all of a level but its number and defaults. *)
Definition renumbered (l l' : ComparisonLevel) : Prop :=
  l' = set_gamma l (gamma l') (default_m l') (default_u l').

Lemma nonnull_count_cons l ls :
  nonnull_count (l :: ls) = (if is_null_level l then 0 else 1) + nonnull_count ls.
Proof. unfold nonnull_count, is_nonnull. rewrite filter_cons. by destruct (is_null_level l). Qed.

Lemma renumbered_null l l' : renumbered l l' → is_null_level l' = is_null_level l.
Proof. by intros ->. Qed.

Lemma renumbered_count l l' : Forall2 renumbered l l' → nonnull_count l' = nonnull_count l.
Proof.
  induction 1 as [|x y l l' Hr _ IH]; [done|].
  by rewrite !nonnull_count_cons, IH, (renumbered_null _ _ Hr).
Qed.

Lemma assign_gammas_spec dm du l :
  nonnull_count l ≤ length dm → nonnull_count l ≤ length du →
  ∃ l', assign_gammas dm du (Z.of_nat (nonnull_count l) - 1) l = Some l'
    ∧ Forall2 renumbered l l' ∧ numbered dm du l'.
Proof.
  induction l as [|x l IH]; intros Hm Hu; simpl.
  { exists []. split_and!; [done|constructor|]. intros [|] ? ? E; discriminate E. }
  rewrite nonnull_count_cons in *. destruct (is_null_level x) eqn:Ex; simpl in *.
  - destruct (IH Hm Hu) as (l' & -> & HF & Hn). simpl. eexists. split; [done|]. split.
    + constructor; [by unfold renumbered|done].
    + intros [|y l1] z l2 [= <- E]; [simpl; by rewrite Ex|by apply (Hn l1)].
  - assert (Z.of_nat (S (nonnull_count l)) - 1 = Z.of_nat (nonnull_count l))%Z as -> by lia.
    rewrite Nat2Z.id. destruct (lookup_lt_is_Some_2 dm (nonnull_count l)) as [a Ha]; [lia|].
    destruct (lookup_lt_is_Some_2 du (nonnull_count l)) as [b Hb]; [lia|].
    rewrite Ha, Hb. simpl. destruct IH as (l' & -> & HF & Hn); [lia..|]. simpl.
    eexists. split; [done|]. split.
    + constructor; [by unfold renumbered|done].
    + intros [|y l1] z l2 [= <- E]; [|by apply (Hn l1)]. simpl. rewrite Ex, <- E.
      by rewrite (renumbered_count _ _ HF).
Qed.

Lemma compiled_renumbered lj l l' :
  compiled_level parse to_lowercase lj l → renumbered l l' → compiled_level parse to_lowercase lj l'.
Proof. intros [] ->. by split. Qed.

(** The count of the non-null levels, on the document. *)
Lemma compiled_count ljs ls :
  Forall2 (compiled_level parse to_lowercase) ljs ls →
  nonnull_count ls = length (filter (λ lj, lj_is_null_level lj = false) ljs).
Proof.
  induction 1 as [|lj l ljs ls Hc _ IH]; [done|]. rewrite nonnull_count_cons, filter_cons, IH, (cl_null _ _ _ _ Hc).
  by destruct (lj_is_null_level lj).
Qed.

Lemma Forall2_trans_r {A B C} (R : A → B → Prop) (S : B → C → Prop) (T : A → C → Prop) l k m :
  (∀ x y z, R x y → S y z → T x z) → Forall2 R l k → Forall2 S k m → Forall2 T l m.
Proof.
  intros H HR. revert m. induction HR; intros m HS; inversion HS; subst; constructor; eauto.
Qed.

Lemma else_count ljs ls :
  Forall2 (compiled_level parse to_lowercase) ljs ls →
  length (filter (λ l, is_else l = true) ls)
  = length (filter (λ lj, is_else_condition (lj_sql_condition lj) = true) ljs).
Proof.
  induction 1 as [|lj l ljs ls Hc _ IH]; [done|]. rewrite !filter_cons, (cl_else _ _ _ _ Hc).
  by destruct (is_else_condition _); simpl; rewrite IH.
Qed.
End lemmas.

(** What a compiled comparison keeps of the document. *)
Record compiled_comparison parse to_lowercase pow2 (cj : ComparisonJson) (c : Comparison) : Prop := {
  cc_name : output_column_name c = cj_output_column_name cj;
  cc_levels : Forall2 (compiled_level parse to_lowercase) (cj_levels cj) (levels c);
  cc_numbered : ∃ du, default_u_values pow2 (nonnull_count (levels c)) = Some du
    ∧ numbered (default_m_values (nonnull_count (levels c))) du (levels c);
}.

Section comparison_lemmas.
Context (parse : string → result Expr string) (to_lowercase : string → string)
        (pow2 : spec_float → spec_float) (display : spec_float → string).
#[local] Abbreviation accepted := (comparison_accepted parse to_lowercase).
#[local] Abbreviation else_lj := (λ lj, is_else_condition (lj_sql_condition lj)).

(** One catch-all, and it is the last level. *)
Lemma else_last {A} (p : A → bool) l :
  length (filter (λ x, p x = true) l) = 1 ∧ (∃ x, last l = Some x ∧ p x = true)
  ↔ ∃ init x, l = init ++ [x] ∧ p x = true ∧ Forall (λ y, p y = false) init.
Proof.
  split.
  - intros [Hlen (x & Hx & Hp)]. apply last_Some in Hx as [init ->]. exists init, x. split_and!; [done..|].
    rewrite filter_app, length_app, filter_cons, Hp in Hlen. simpl in Hlen.
    assert (filter (λ x, p x = true) init = []) as E by (apply nil_length_inv; lia).
    apply Forall_forall. intros y Hy. destruct (p y) eqn:Ey; [|done].
    rewrite filter_nil_iff in E. by destruct (E y Hy).
  - intros (init & x & -> & Hp & HF). split; [|exists x; by rewrite last_snoc].
    rewrite filter_app, length_app, filter_cons, Hp. simpl.
    assert (filter (λ x, p x = true) init = []) as ->; [|done].
    apply filter_nil_iff. intros y Hy. rewrite Forall_forall in HF. by rewrite (HF y Hy).
Qed.

Lemma accepted_nonnull cj ls :
  Forall2 (compiled_level parse to_lowercase) (cj_levels cj) ls →
  Forall (level_accepted parse to_lowercase) (cj_levels cj) →
  (∃ init lj, cj_levels cj = init ++ [lj] ∧ else_lj lj = true
    ∧ Forall (λ lj, else_lj lj = false) init) →
  2 ≤ nonnull_count ls ↔ accepted cj.
Proof.
  intros HF Ha (init & lj & E & He & Hi). rewrite (compiled_count _ _ _ _ HF), E.
  rewrite filter_app, length_app, filter_cons.
  assert (lj_is_null_level lj = false) as Hn.
  { rewrite E, Forall_app, Forall_singleton in Ha. destruct Ha as [_ [H _ _ _]].
    rewrite He in H. by destruct (lj_is_null_level lj). }
  rewrite Hn. simpl. split.
  - intros Hlen. split; [done|]. exists init, lj. split_and!; [done..|].
    destruct (filter _ init) as [|x l] eqn:Ef; [simpl in Hlen; lia|].
    assert (x ∈ filter (λ lj, lj_is_null_level lj = false) init) as [Hx Hin]%list_elem_of_filter
      by (rewrite Ef; left).
    apply Exists_exists. eauto.
  - intros [_ (init' & lj' & E' & _ & _ & Hex)]. rewrite E in E'.
    apply app_inj_tail in E' as [<- <-]. apply Exists_exists in Hex as (x & Hin & Hx).
    assert (x ∈ filter (λ lj, lj_is_null_level lj = false) init) as Hxf by (by apply list_elem_of_filter).
    destruct (filter _ init); [by apply not_elem_of_nil in Hxf|simpl; lia].
Qed.

Lemma collected_levels name ljs ls :
  collect_results (compile_level parse to_lowercase display name) ljs = Some (Ok ls) →
  Forall (level_accepted parse to_lowercase) ljs ∧ Forall2 (compiled_level parse to_lowercase) ljs ls.
Proof.
  intros HF%collect_results_Ok. split.
  - apply Forall2_length in HF as Hlen. induction HF as [|lj l ljs ls Hc _ IH]; constructor.
    + by apply compile_level_Ok in Hc as [? _].
    + apply IH. by injection Hlen.
  - eapply Forall2_impl; [exact HF|]. intros lj l Hc. by apply compile_level_Ok in Hc as [_ ?].
Qed.

Lemma collect_levels_accepted name ljs :
  Forall (level_accepted parse to_lowercase) ljs →
  ∃ ls, collect_results (compile_level parse to_lowercase display name) ljs = Some (Ok ls).
Proof.
  induction 1 as [|lj ljs Ha _ [ls IH]]; [by eexists|].
  destruct (compile_level_accepted parse to_lowercase display name lj Ha) as [l Hl].
  exists (l :: ls). simpl. by rewrite Hl, IH.
Qed.

Lemma compile_comparison_Ok gp mp tp cj c :
  compile_comparison parse to_lowercase pow2 display gp mp tp cj = Some (Ok c) →
  accepted cj ∧ compiled_comparison parse to_lowercase pow2 cj c
  ∧ gamma_prefix c = gp ∧ mw_prefix c = mp ∧ tp = tf_prefix c.
Proof.
  unfold compile_comparison. intros H.
  assert (match cj_levels cj with [] => False | _ => True end) as Hne by (by destruct (cj_levels cj)).
  destruct (cj_levels cj) as [|lj0 ljs0] eqn:El; [done|]. rewrite <- El in *. clear Hne.
  destruct (collect_results _ _) as [[ls|]|] eqn:Ec; simpl in H; [|done..].
  apply collected_levels in Ec as [Ha HF].
  destruct (decide _) as [|Hn0]; [done|].
  fold (nonnull_count ls) in H, Hn0.
  destruct (default_u_values pow2 (nonnull_count ls)) as [du|] eqn:Eu; simpl in H; [|done].
  destruct (default_u_values_Some _ _ _ Eu) as [Hn2 Hdu].
  destruct (assign_gammas_spec (default_m_values (nonnull_count ls)) du ls)
    as (ls' & Hg & Hr & Hnum); [by rewrite length_default_m_values|by rewrite Hdu|].
  rewrite Hg in H. simpl in H.
  assert (Forall2 (compiled_level parse to_lowercase) (cj_levels cj) ls') as HF'.
  { eapply Forall2_trans_r; [|exact HF|exact Hr]. intros ???. apply compiled_renumbered. }
  destruct (negb (bool_decide _)) eqn:E1; [done|]. apply negb_false_iff, bool_decide_eq_true in E1.
  destruct (negb (match _ with _ => _ end)) eqn:E2; [done|]. apply negb_false_iff in E2.
  injection H as <-. split.
  - apply (accepted_nonnull cj ls'); [done|done| |by rewrite (renumbered_count _ _ Hr)].
    apply else_last. split; [by rewrite <- (else_count _ _ _ _ HF')|].
    destruct (last ls') as [l|] eqn:Elast; [|done].
    apply last_Some in Elast as [init Elast]. rewrite Elast in HF'.
    apply Forall2_app_inv_r in HF' as (k1 & k2 & _ & Hk & E).
    apply Forall2_cons_inv_r in Hk as (lj & ? & Hlj & ->%Forall2_nil_inv_r & ->).
    exists lj. rewrite E, last_snoc. split; [done|]. by rewrite <- (cl_else _ _ _ _ Hlj).
  - split; [|by repeat split]. split; [done|done|]. cbn [levels].
    rewrite (renumbered_count _ _ Hr). exists du. by split.
Qed.

Lemma compile_comparison_accepted gp mp tp cj :
  accepted cj → ∃ c, compile_comparison parse to_lowercase pow2 display gp mp tp cj = Some (Ok c).
Proof.
  intros [Ha (init & lj & E & He & Hi & Hex)].
  destruct (collect_levels_accepted (cj_output_column_name cj) _ Ha) as [ls Hc].
  pose proof (collected_levels _ _ _ Hc) as [_ HF].
  assert (2 ≤ nonnull_count ls) as Hn.
  { apply (accepted_nonnull cj ls); [done|done|eauto|]. split; [done|]. eauto 10. }
  destruct (default_u_values_total pow2 _ Hn) as [du Hdu].
  destruct (default_u_values_Some _ _ _ Hdu) as [_ Hlen].
  destruct (assign_gammas_spec (default_m_values (nonnull_count ls)) du ls)
    as (ls' & Hg & Hr & _); [rewrite length_default_m_values; lia|by rewrite Hlen|].
  assert (Forall2 (compiled_level parse to_lowercase) (cj_levels cj) ls') as HF'.
  { eapply Forall2_trans_r; [|exact HF|exact Hr]. intros ???. apply compiled_renumbered. }
  destruct (proj2 (else_last else_lj (cj_levels cj)) ltac:(eauto)) as [Hone _].
  unfold compile_comparison.
  assert (∃ x xs, cj_levels cj = x :: xs) as (x & xs & Ex).
  { rewrite E. destruct init; simpl; eauto. }
  rewrite Ex. rewrite <- Ex. rewrite Hc. simpl. fold (nonnull_count ls).
  destruct (decide _) as [|_]; [lia|]. rewrite Hdu. simpl. rewrite Hg. simpl.
  rewrite (else_count _ _ _ _ HF'), Hone. simpl.
  rewrite E in HF'. apply Forall2_app_inv_l in HF' as (k1 & k2 & _ & Hk & ->).
  apply Forall2_cons_inv_l in Hk as (l & ? & Hl & ->%Forall2_nil_inv_l & ->).
  rewrite last_snoc, (cl_else _ _ _ _ Hl), He. simpl. eauto.
Qed.
End comparison_lemmas.

(** ** Properties *)

Lemma compile_accepted parse to_lowercase pow2 display j :
  (∃ s, compile parse to_lowercase pow2 display j = Some (Ok s)) ↔ settings_accepted parse to_lowercase j.
Proof.
  unfold compile, settings_accepted. destruct (prior_ok (sj_prior j)) eqn:Hp; simpl.
  2:{ split; [by intros [s Hs]|by intros [? _]]. }
  set (f := compile_comparison parse to_lowercase pow2 display _ _ _).
  split.
  - intros [s Hs]. destruct (collect_results f _) as [[cs|]|] eqn:Ec; simpl in Hs; [|done..].
    split; [done|]. apply collect_results_Ok in Ec. clear Hs.
    induction Ec as [|cj c cjs cs Hc _ IH]; constructor; [|done]. by apply compile_comparison_Ok in Hc as [? _].
  - intros [_ HF]. assert (∃ cs, collect_results f (sj_comparisons j) = Some (Ok cs)) as [cs ->].
    { induction HF as [|cj cjs Hc _ [cs IH]]; [by eexists|].
      destruct (compile_comparison_accepted parse to_lowercase pow2 display (sj_gamma_prefix j)
                  (sj_mw_prefix j) (sj_tf_prefix j) cj Hc) as [c Hcc].
      exists (c :: cs). simpl. change (f cj) with (compile_comparison parse to_lowercase pow2 display
        (sj_gamma_prefix j) (sj_mw_prefix j) (sj_tf_prefix j) cj). by rewrite Hcc, IH. }
    by eexists.
Qed.

Lemma compile_compiled parse to_lowercase pow2 display j s :
  compile parse to_lowercase pow2 display j = Some (Ok s) →
  Forall2 (compiled_comparison parse to_lowercase pow2) (sj_comparisons j) (comparisons s).
Proof.
  unfold compile. destruct (prior_ok (sj_prior j)); simpl; [|done].
  destruct (collect_results _ _) as [[cs|]|] eqn:Ec; simpl; [|done..]. intros [= <-]. simpl.
  apply collect_results_Ok in Ec. eapply Forall2_impl; [exact Ec|].
  intros cj c Hc. by apply compile_comparison_Ok in Hc as (_ & ? & _).
Qed.


(** A comparison whose only level is the catch-all is not refused: the default
    u of its single number underflows. *)
Example only_else_panics :
  compile (λ _, Err "") id id (λ _, "")
    (mkSettingsJson DedupeOnly (lit64 7378697629483821 (-66)) true false [] None None one 25
       "mw_" "tf_" "gamma_" "id" "source" []
       [mkComparisonJson "name" [mkLevelJson "ELSE" None None None false false false None None None false []]
          None []] []) = None.
Proof. vm_compute. reflexivity. Qed.
