(* ===== verification/EngineModel.v ===== *)
(** * Trained models of the record-linkage engine

    [dedupe-core/src/model.rs]: the estimates a training collects per level, the
    medians written into the compiled levels, and the reports read off a model.
    [median] panics ([None]) when it sorts a NaN. *)

From S2P Require Import Prelude Json F64 Text SqlColumns EngineSettings.

(** ** Definitions *)

Inductive EstimateSource :=
| DeterministicPrior (recall : spec_float)
| USampling
| Em (blocking_rule : string).

(** A trained estimate: a value, or "level not observed". *)
Inductive ProbEstimate := EValue (v : spec_float) | NotObserved.

Record ParamEstimate := mkEstimate { value : ProbEstimate; source : EstimateSource }.

Record DetailedRecord := mkDetailed {
  d_comparison_name : string;
  d_vector_value : Z;
  d_label : string;
  d_sql_condition : string;
  d_is_null_level : bool;
  d_m : option spec_float;
  d_u : option spec_float;
  bayes_factor : spec_float;
  log2_bayes_factor : spec_float;
}.

Definition float_le (a b : spec_float) : Prop := SFleb a b = true.

#[global] Instance float_le_dec : RelDecision float_le.
Proof. intros a b. unfold float_le. apply _. Defined.

(** [sort_by] compares every element once there are two. *)
Definition sort_floats (l : list spec_float) : option (list spec_float) :=
  match l with
  | _ :: _ :: _ => if existsb is_nan l then None else Some (merge_sort float_le l)
  | _ => Some l
  end.

(** The outer [None] is the panic. *)
Definition median (values : list spec_float) : option (option spec_float) :=
  match values with
  | [] => Some None
  | _ =>
      v ← sort_floats values;
      let n := length v in
      if Nat.odd n then x ← v !! (n / 2)%nat; Some (Some x)
      else
        a ← v !! (n / 2 - 1)%nat;
        b ← v !! (n / 2)%nat;
        Some (Some (f64_div (f64_add a b) (f64_of 2)))
  end.

Definition LevelKey : Type := nat * Z.

#[local] Abbreviation History := (gmap LevelKey (list ParamEstimate)).

Record TrainedModel := mkModel {
  settings : Settings;
  m_history : History;
  u_history : History;
}.

Definition new (s : Settings) : TrainedModel := mkModel s ∅ ∅.

Definition set_comparisons (s : Settings) (cs : list Comparison) : Settings :=
  mkSettings (s_json s) (link_type s) (unique_id_column s) (source_dataset_column s)
    (retain_matching_columns s) (retain_intermediate s) (additional_columns_to_retain s)
    (s_gamma_prefix s) (s_mw_prefix s) (s_tf_prefix s) (prior s) (em_convergence s)
    (max_iterations s) cs (blocking_rules s).

Definition settings_with_prior (s : Settings) (p : spec_float) : Settings :=
  mkSettings (s_json s) (link_type s) (unique_id_column s) (source_dataset_column s)
    (retain_matching_columns s) (retain_intermediate s) (additional_columns_to_retain s)
    (s_gamma_prefix s) (s_mw_prefix s) (s_tf_prefix s) p (em_convergence s)
    (max_iterations s) (comparisons s) (blocking_rules s).

Definition set_prior (t : TrainedModel) (p : spec_float) : TrainedModel :=
  mkModel (settings_with_prior (settings t) p) (m_history t) (u_history t).

Definition push_estimate (h : History) (k : LevelKey) (e : ParamEstimate) : History :=
  <[k := default [] (h !! k) ++ [e]]> h.

Definition add_u_estimate (t : TrainedModel) (k : LevelKey) (v : ProbEstimate) (s : EstimateSource) :
    TrainedModel :=
  mkModel (settings t) (m_history t) (push_estimate (u_history t) k (mkEstimate v s)).

Definition add_m_estimate (t : TrainedModel) (k : LevelKey) (v : ProbEstimate) (s : EstimateSource) :
    TrainedModel :=
  mkModel (settings t) (push_estimate (m_history t) k (mkEstimate v s)) (u_history t).

(** The concrete values among some estimates. *)
Definition numeric (l : list ParamEstimate) : list spec_float :=
  omap (λ e, match value e with EValue v => Some v | NotObserved => None end) l.

(** The slot a history gives a level, if any. *)
Definition combine (h : History) (k : LevelKey) : option (option ProbabilitySlot) :=
  match h !! k with
  | None => Some None
  | Some estimates =>
      match median (numeric estimates) with
      | Some (Some v) => Some (Some (Value_ v))
      | Some None => Some None
      | None => None
      end
  end.

Definition with_slots (l : ComparisonLevel) (ms us : ProbabilitySlot) : ComparisonLevel :=
  mkLevel (sql_condition l) (label_for_charts l) (gamma l) (is_null_level l) (is_else l) ms us
    (default_m l) (default_u l) (fix_m l) (fix_u l) (tf l) (l_input_columns l)
    (l_exact_match_columns l).

(** One turn of the inner loop. *)
Definition populate_level (t : TrainedModel) (ci : nat) (l : ComparisonLevel) : option ComparisonLevel :=
  if is_null_level l then Some l
  else
    let key := (ci, gamma l) in
    us ← (if fix_u l then Some (u l) else s ← combine (u_history t) key; Some (default (u l) s));
    ms ← (if fix_m l then Some (m l) else s ← combine (m_history t) key; Some (default (m l) s));
    Some (with_slots l ms us).

Definition set_levels (c : Comparison) (ls : list ComparisonLevel) : Comparison :=
  mkComparison (output_column_name c) (comparison_description c) ls (c_input_columns c)
    (gamma_prefix c) (mw_prefix c) (tf_prefix c).

Definition populate_comparison (t : TrainedModel) (ci : nat) (c : Comparison) : option Comparison :=
  set_levels c <$> mapM (populate_level t ci) (levels c).

Definition populate_from_trained_values (t : TrainedModel) : option TrainedModel :=
  cs ← mapM (λ '(ci, c), populate_comparison t ci c) (enumerate (comparisons (settings t)));
  Some (mkModel (set_comparisons (settings t) cs) (m_history t) (u_history t)).

Definition model_settings_json (t : TrainedModel) : SettingsJson := to_settings_json (settings t).

(** *** Reports *)

Record DefaultedLevel := mkDefaulted {
  dl_comparison_name : string;
  dl_vector_value : Z;
  dl_label : string;
  m_defaulted : bool;
  u_defaulted : bool;
}.

Definition is_unset (s : ProbabilitySlot) : bool :=
  match raw s with None => true | Some _ => false end.

Definition defaulted_level (c : Comparison) (l : ComparisonLevel) : list DefaultedLevel :=
  if is_null_level l then []
  else if is_unset (m l) || is_unset (u l) then
    [mkDefaulted (output_column_name c) (gamma l) (label_for_charts l)
       (is_unset (m l)) (is_unset (u l))]
  else [].

Definition defaulted_levels (t : TrainedModel) : list DefaultedLevel :=
  c ← comparisons (settings t); l ← levels c; defaulted_level c l.

Definition describe (d : DefaultedLevel) : string :=
  let which :=
    match m_defaulted d, u_defaulted d with
    | true, true => "m and u"
    | true, false => "m"
    | false, true => "u"
    | false, false => "nothing"
    end in
  dl_comparison_name d +:+ " / " +:+ dl_label d +:+ " (" +:+ which +:+ ")".

Record FieldBits := mkBits { fb_name : string; fb_label : string; bits : spec_float }.

Record FullAgreement := mkAgreement { total_bits : spec_float; per_field : list FieldBits }.

Section reports.
Context (log2 : spec_float → spec_float).

Definition detailed_level (c : Comparison) (l : ComparisonLevel) : DetailedRecord :=
  let '(dm, du) := level_m_u l in
  if is_null_level l then
    mkDetailed (output_column_name c) (gamma l) (label_for_charts l) (sql_condition l) true
      None None one (f64_of 0)
  else
    mkDetailed (output_column_name c) (gamma l) (label_for_charts l) (sql_condition l) false
      (Some dm) (Some du) (f64_div dm du) (match_weight log2 dm du).

Definition detailed_records (t : TrainedModel) : list DetailedRecord :=
  let odds := f64_div (prior (settings t)) (f64_sub one (prior (settings t))) in
  (c ← comparisons (settings t); detailed_level c <$> levels c)
  ++ [mkDetailed "probability_two_random_records_match" 0 "" "" false None None odds (log2 odds)].

(** The strongest level, the first of several. *)
Definition best_level (ls : list ComparisonLevel) : option (spec_float * string) :=
  foldl (λ best l,
           if is_null_level l then best
           else
             let b := match_weight log2 (level_m_u l).1 (level_m_u l).2 in
             match best with
             | Some (b', _) => if SFltb b' b then Some (b, label_for_charts l) else best
             | None => Some (b, label_for_charts l)
             end) None ls.

Definition field_bits (c : Comparison) : option FieldBits :=
  (λ '(b, label), mkBits (output_column_name c) label b) <$> best_level (levels c).

(** [sum] starts from negative zero. *)
Definition sum_floats (l : list spec_float) : spec_float := foldl f64_add (S754_zero true) l.

Definition full_agreement_bits (t : TrainedModel) : FullAgreement :=
  let fields := omap field_bits (comparisons (settings t)) in
  mkAgreement (sum_floats (bits <$> fields)) fields.
End reports.

(** ** Specification *)

(** What training may change of a model's settings: the prior and the slots of
    the levels that are not null. *)
Record level_trained (l l' : ComparisonLevel) : Prop := {
  lt_rest : l' = with_slots l (m l') (u l');
  lt_null : is_null_level l = true → m l' = m l ∧ u l' = u l;
  lt_set : (m l' = Unset_ → m l = Unset_) ∧ (u l' = Unset_ → u l = Unset_);
}.

Definition comparison_trained (c c' : Comparison) : Prop :=
  c' = set_levels c (levels c') ∧ Forall2 level_trained (levels c) (levels c').

Definition settings_trained (s s' : Settings) : Prop :=
  s' = settings_with_prior (set_comparisons s (comparisons s')) (prior s')
  ∧ Forall2 comparison_trained (comparisons s) (comparisons s').

Definition slot_ok (s : ProbabilitySlot) : Prop :=
  ∀ v, s = Value_ v → in_range M_U_CLAMP_MIN one v = true.

Definition slots_ok (s : Settings) : Prop :=
  ∀ c l, c ∈ comparisons s → l ∈ levels c → slot_ok (m l) ∧ slot_ok (u l).

(** The settings, reading [j] as their document. *)
Definition with_json (s : Settings) (j : SettingsJson) : Settings :=
  mkSettings j (link_type s) (unique_id_column s) (source_dataset_column s)
    (retain_matching_columns s) (retain_intermediate s) (additional_columns_to_retain s)
    (s_gamma_prefix s) (s_mw_prefix s) (s_tf_prefix s) (prior s) (em_convergence s)
    (max_iterations s) (comparisons s) (blocking_rules s).

(** What a level reads as after training: the median of its observations, and
    its former value when it is pinned, null, or was never observed. *)
Definition trained_slot (fixed : bool) (before : ProbabilitySlot) (h : History) (k : LevelKey)
    (after : ProbabilitySlot) : Prop :=
  if fixed then after = before
  else match numeric (default [] (h !! k)) with
       | [] => after = before
       | values => ∃ v, median values = Some (Some v) ∧ after = Value_ v
       end.

(** ** Lemmas *)

Lemma median_total values :
  values ≠ [] → existsb is_nan values = false → ∃ v, median values = Some (Some v).
Proof.
  intros Hne Hn. unfold median. destruct values as [|x l]; [done|].
  assert (∃ v, sort_floats (x :: l) = Some v ∧ length v = length (x :: l)) as (v & -> & Hlen).
  { unfold sort_floats. destruct l; [by eexists|]. rewrite Hn. eexists. split; [done|].
    by rewrite merge_sort_Permutation. }
  cbn [mbind option_bind]. cbv zeta. rewrite Hlen. set (n := length (x :: l)). assert (0 < n) as Hpos by (unfold n; simpl; lia).
  destruct (lookup_lt_is_Some_2 v (n / 2)%nat) as [b Hb].
  { rewrite Hlen. apply Nat.div_lt; lia. }
  destruct (Nat.odd n); [rewrite Hb; simpl; eauto|].
  destruct (lookup_lt_is_Some_2 v (n / 2 - 1)%nat) as [a Ha].
  { rewrite Hlen. fold n. pose proof (Nat.div_lt n 2 Hpos). lia. }
  rewrite Ha, Hb. simpl. eauto.
Qed.

(** No concrete estimate of a history is a NaN. *)
Definition history_ok (h : History) : Prop :=
  ∀ k l v, h !! k = Some l → v ∈ numeric l → is_nan v = false.

Lemma combine_trained h k before (fixed : bool) :
  history_ok h →
  ∃ after, (if fixed then Some before else s ← combine h k; Some (default before s)) = Some after
    ∧ trained_slot fixed before h k after ∧ (after = Unset_ → before = Unset_).
Proof.
  intros Hh. destruct fixed; [by exists before|]. unfold combine, trained_slot.
  destruct (h !! k) as [l|] eqn:Hk; simpl; [|by exists before].
  destruct (decide (numeric l = [])) as [->|Hne]; simpl; [by exists before|].
  destruct (median_total (numeric l) Hne) as [v Hv].
  { apply not_true_iff_false. intros (v & Hin & Hv)%existsb_exists.
    apply list_elem_of_In in Hin. by rewrite (Hh k l v Hk Hin) in Hv. }
  rewrite Hv. simpl. exists (Value_ v). split_and!; [done| |done].
  destruct (numeric l); [done|]. eauto.
Qed.

Definition level_populated (t : TrainedModel) (ci : nat) (l l' : ComparisonLevel) : Prop :=
  l' = with_slots l (m l') (u l')
  ∧ if is_null_level l then l' = l
    else trained_slot (fix_m l) (m l) (m_history t) (ci, gamma l) (m l')
         ∧ trained_slot (fix_u l) (u l) (u_history t) (ci, gamma l) (u l').

Lemma populate_level_spec t ci l :
  history_ok (m_history t) → history_ok (u_history t) →
  ∃ l', populate_level t ci l = Some l' ∧ level_populated t ci l l' ∧ level_trained l l'.
Proof.
  intros Hm Hu. unfold populate_level, level_populated. destruct (is_null_level l) eqn:Hn.
  { exists l. split_and!; [done|by destruct l|done|]. split; [by destruct l|done|done]. }
  destruct (combine_trained (u_history t) (ci, gamma l) (u l) (fix_u l) Hu) as (us & -> & Hus & Hu0).
  destruct (combine_trained (m_history t) (ci, gamma l) (m l) (fix_m l) Hm) as (ms & -> & Hms & Hm0).
  simpl. exists (with_slots l ms us). split_and!; [done..|]. split; [done| |done].
  simpl. congruence.
Qed.

Lemma mapM_spec {A B} (f : A → option B) (R : A → B → Prop) l :
  (∀ x, x ∈ l → ∃ y, f x = Some y ∧ R x y) → ∃ k, mapM f l = Some k ∧ Forall2 R l k.
Proof.
  induction l as [|x l IH]; intros H; [by exists []|].
  destruct (H x) as (y & Hy & HR); [left|]. destruct IH as (k & Hk & HF).
  { intros z Hz. apply H. by right. }
  exists (y :: k). simpl. rewrite Hy. simpl. rewrite Hk. by split; [|constructor].
Qed.

Definition comparison_populated (t : TrainedModel) (ci : nat) (c c' : Comparison) : Prop :=
  c' = set_levels c (levels c') ∧ Forall2 (level_populated t ci) (levels c) (levels c').

Lemma populate_comparison_spec t ci c :
  history_ok (m_history t) → history_ok (u_history t) →
  ∃ c', populate_comparison t ci c = Some c'
    ∧ comparison_populated t ci c c' ∧ comparison_trained c c'.
Proof.
  intros Hm Hu. unfold populate_comparison.
  destruct (mapM_spec (populate_level t ci) (λ l l', level_populated t ci l l' ∧ level_trained l l') (levels c))
    as (ls & -> & HF).
  { intros l _. destruct (populate_level_spec t ci l Hm Hu) as (l' & ? & ? & ?). eauto. }
  eexists. split; [done|]. split; (split; [done|]); simpl; (eapply Forall2_impl; [exact HF|]); by intros ?? [? ?].
Qed.

Section reload.
Context (parse : string → result Expr string) (to_lowercase : string → string)
        (pow2 log2 : spec_float → spec_float) (display : spec_float → string).

(** Levels that differ in their slots alone. *)
Definition reslotted (l k : ComparisonLevel) : Prop := k = with_slots l (m k) (u k).

Lemma reslotted_same {B} (f : ComparisonLevel → B) l k :
  (∀ l ms us, f (with_slots l ms us) = f l) → reslotted l k → f k = f l.
Proof. intros H ->. by rewrite H. Qed.

Lemma assign_reslotted dm du z ls ls' ks ks' :
  assign_gammas dm du z ls = Some ls' → Forall2 reslotted ls ks →
  Forall2 reslotted ls' ks' → (m <$> ks = m <$> ks') → (u <$> ks = u <$> ks') →
  assign_gammas dm du z ks = Some ks'.
Proof.
  intros Ha HF. revert z ls' ks' Ha. induction HF as [|l k ls ks Hr HF IH]; intros z ls' ks' Ha HF' Em Eu; simpl in *.
  { injection Ha as <-. by apply Forall2_nil_inv_l in HF' as ->. }
  rewrite (reslotted_same is_null_level l k) by done. destruct (is_null_level l).
  - destruct (assign_gammas dm du z ls) as [rest|] eqn:Er; simpl in Ha; [|done]. injection Ha as <-.
    apply Forall2_cons_inv_l in HF' as (k' & ks'' & Hk & HF' & ->). simpl in Em, Eu.
    injection Em as Em1 Em. injection Eu as Eu1 Eu.
    rewrite (IH z rest ks'') by done. simpl. f_equal. f_equal. rewrite Hk, Hr, <- Em1, <- Eu1. done.
  - destruct (dm !! Z.to_nat z) as [a|]; simpl in *; [|done].
    destruct (du !! Z.to_nat z) as [b|]; simpl in *; [|done].
    destruct (assign_gammas dm du (z - 1) ls) as [rest|] eqn:Er; simpl in Ha; [|done]. injection Ha as <-.
    apply Forall2_cons_inv_l in HF' as (k' & ks'' & Hk & HF' & ->). simpl in Em, Eu.
    injection Em as Em1 Em. injection Eu as Eu1 Eu.
    rewrite (IH (z - 1)%Z rest ks'') by done. simpl. f_equal. f_equal. rewrite Hk, Hr, <- Em1, <- Eu1. done.
Qed.

Lemma compile_level_written name lj l k :
  compile_level parse to_lowercase display name lj = Some (Ok l) →
  is_null_level k = is_null_level l →
  level_trained (with_slots k (m l) (u l)) k → slot_ok (m k) → slot_ok (u k) →
  compile_level parse to_lowercase display name (write_level lj k) = Some (Ok (with_slots l (m k) (u k))).
Proof.
  intros Hc Hn [_ Ht [Hm0 Hu0]] Hm Hu. simpl in Ht, Hm0, Hu0. unfold compile_level in Hc.
  destruct (_ && _) eqn:Ee; [done|].
  destruct (input_columns _ _ _) as [cols|] eqn:Ei; [|done].
  destruct (level_exact _ _ _ _) as [[ex|]|] eqn:Ex; simpl in Hc; [|done..].
  destruct (validate_probability display (lj_m_probability lj) _ _) as [ms|] eqn:Em; [|done].
  destruct (validate_probability display (lj_u_probability lj) _ _) as [us|] eqn:Eu; [|done].
  injection Hc as <-. simpl in *.
  apply validate_probability_Ok in Em as [Hpm ->]. apply validate_probability_Ok in Eu as [Hpu ->].
  unfold write_level. rewrite Hn. destruct (lj_is_null_level lj) eqn:Enull; unfold compile_level.
  - rewrite Enull, Ee, Ei, Ex. simpl.
    rewrite (proj2 (validate_probability_Ok display _ "m_probability" (level_ctx name lj) _) (conj Hpm eq_refl)).
    rewrite (proj2 (validate_probability_Ok display _ "u_probability" (level_ctx name lj) _) (conj Hpu eq_refl)).
    destruct (Ht Hn) as [-> ->]. done.
  - simpl. rewrite Ee.
    change (level_ctx name (mkLevelJson _ _ _ _ _ _ _ _ _ _ _ _)) with (level_ctx name lj).
    rewrite Ei. unfold level_exact in *. simpl. rewrite Enull in Ex. rewrite Ex. simpl.
    assert (∀ lp sl, prob_ok lp → slot_ok sl → (sl = Unset_ → slot lp = Unset_) →
      prob_ok (match sl with Value_ v => Some v | Unset_ => lp end)
      ∧ slot (match sl with Value_ v => Some v | Unset_ => lp end) = sl) as Hslot.
    { intros lp sl Hlp Hsl H0. destruct sl as [|v]; [split; [done|by apply H0]|].
      split; [|done]. intros ? [= <-]. by apply Hsl. }
    destruct (Hslot _ _ Hpm Hm Hm0) as [Ham Hbm]. destruct (Hslot _ _ Hpu Hu Hu0) as [Hau Hbu].
    rewrite (proj2 (validate_probability_Ok display _ "m_probability" (level_ctx name lj) _) (conj Ham eq_refl)).
    rewrite (proj2 (validate_probability_Ok display _ "u_probability" (level_ctx name lj) _) (conj Hau eq_refl)).
    by rewrite Hbm, Hbu.
Qed.

Lemma compile_comparison_inv gp mp tp cj c :
  compile_comparison parse to_lowercase pow2 display gp mp tp cj = Some (Ok c)
  ↔ cj_levels cj ≠ [] ∧ ∃ ls du ls',
      collect_results (compile_level parse to_lowercase display (cj_output_column_name cj)) (cj_levels cj)
        = Some (Ok ls)
      ∧ nonnull_count ls ≠ 0 ∧ default_u_values pow2 (nonnull_count ls) = Some du
      ∧ assign_gammas (default_m_values (nonnull_count ls)) du (Z.of_nat (nonnull_count ls) - 1) ls = Some ls'
      ∧ length (filter (λ l, is_else l = true) ls') = 1
      ∧ (∃ l, last ls' = Some l ∧ is_else l = true)
      ∧ c = mkComparison (cj_output_column_name cj) (cj_description cj) ls'
              (dedup_ordered (ls' ≫= l_input_columns)) gp mp tp.
Proof.
  unfold compile_comparison. destruct (cj_levels cj) as [|x xs] eqn:El; [naive_solver|].
  rewrite <- El. destruct (collect_results _ _) as [[ls|]|] eqn:Ec; simpl; [|naive_solver..].
  fold (nonnull_count ls). destruct (decide _) as [|Hn]; [split; [done|naive_solver]|].
  destruct (default_u_values pow2 (nonnull_count ls)) as [du|] eqn:Eu; simpl; [|naive_solver].
  destruct (assign_gammas _ _ _ _) as [ls'|] eqn:Ea; simpl; [|naive_solver].
  destruct (negb (bool_decide _)) eqn:E1; simpl.
  { apply negb_true_iff, bool_decide_eq_false in E1. split; [done|naive_solver]. }
  apply negb_false_iff, bool_decide_eq_true in E1.
  destruct (last ls') as [l|] eqn:E2; simpl.
  2:{ split; [done|]. intros (_ & ls0 & du0 & ls0' & ? & _ & ? & ? & _ & (l & ? & _) & _). simplify_option_eq; congruence. }
  destruct (is_else l) eqn:E3; simpl.
  2:{ split; [done|]. intros (_ & ls0 & du0 & ls0' & ? & _ & ? & ? & _ & (l0 & ? & ?) & _). simplify_option_eq; congruence. }
  split.
  - intros [= <-]. rewrite El. split; [done|]. exists ls, du, ls'. split_and!; by eauto.
  - intros (_ & ls0 & du0 & ls0' & ? & ? & ? & ? & ? & ? & ->). simplify_option_eq; congruence.
Qed.

(** A trained comparison, as the raw levels it comes from. *)
Definition reslot (l k : ComparisonLevel) : ComparisonLevel := with_slots l (m k) (u k).

Lemma collect_written name ljs ls ks :
  Forall2 (λ lj l, compile_level parse to_lowercase display name lj = Some (Ok l)) ljs ls →
  Forall2 (λ l k, is_null_level k = is_null_level l ∧ level_trained (with_slots k (m l) (u l)) k
                  ∧ slot_ok (m k) ∧ slot_ok (u k)) ls ks →
  Forall2 (λ lj l, compile_level parse to_lowercase display name lj = Some (Ok l))
    (zip_update write_level ljs ks) (zip_with reslot ls ks).
Proof.
  intros HF. revert ks. induction HF as [|lj l ljs ls Hc HF IH]; intros ks Hk; simpl.
  { apply Forall2_nil_inv_l in Hk as ->. constructor. }
  apply Forall2_cons_inv_l in Hk as (k & ks' & (Hn & Ht & Hm & Hu) & Hk & ->). simpl.
  constructor; [|by apply IH]. by apply compile_level_written.
Qed.

Lemma trained_raw ls ls' ks :
  Forall2 renumbered ls ls' → Forall2 level_trained ls' ks →
  Forall (λ k, slot_ok (m k) ∧ slot_ok (u k)) ks →
  Forall2 (λ l k, is_null_level k = is_null_level l ∧ level_trained (with_slots k (m l) (u l)) k
                  ∧ slot_ok (m k) ∧ slot_ok (u k)) ls ks
  ∧ Forall2 reslotted ls (zip_with reslot ls ks) ∧ Forall2 reslotted ls' ks
  ∧ m <$> zip_with reslot ls ks = m <$> ks ∧ u <$> zip_with reslot ls ks = u <$> ks
  ∧ is_else <$> ks = is_else <$> ls' ∧ l_input_columns <$> ks = l_input_columns <$> ls'
  ∧ nonnull_count (zip_with reslot ls ks) = nonnull_count ls.
Proof.
  intros HF. revert ks. induction HF as [|l l' ls ls' Hr HF IH]; intros ks Ht Hok; simpl.
  { apply Forall2_nil_inv_l in Ht as ->. by repeat split. }
  apply Forall2_cons_inv_l in Ht as (k & ks' & Htk & Ht & ->).
  apply Forall_cons in Hok as [Hk Hok]. destruct (IH ks' Ht Hok) as (H1 & H2 & H3 & H4 & H5 & H6 & H7 & H8).
  destruct Htk as [Erest Hnull [Hm Hu]]. rewrite Hr in Hnull, Hm, Hu. simpl in Hnull, Hm, Hu.
  simpl. rewrite !nonnull_count_cons, H8. split_and!.
  - constructor; [|done]. rewrite Erest, Hr. split; [done|]. split; [|by rewrite <- Hr, <- Erest].
    rewrite <- Hr, <- Erest. split; simpl; [by destruct k| |done]. rewrite Erest, Hr. done.
  - constructor; [done|done].
  - by constructor.
  - by f_equal.
  - by f_equal.
  - f_equal; [by rewrite Erest|done].
  - f_equal; [by rewrite Erest|done].
  - done.
Qed.

Lemma filter_fmap_length {A} (f : A → bool) l k :
  f <$> k = f <$> l → length (filter (λ x, f x = true) k) = length (filter (λ x, f x = true) l).
Proof.
  revert k. induction l as [|x l IH]; intros [|y k] E; try done.
  injection E as Ex E. rewrite !filter_cons, Ex. by destruct (f x); simpl; rewrite (IH k E).
Qed.

Lemma zip_update_nil {A B} (f : A → B → A) l k : zip_update f l k = [] → l = [].
Proof. by destruct l, k. Qed.

Lemma bind_fmap_eq {A B C} (f : A → B) (g : B → list C) l k :
  f <$> l = f <$> k → (l ≫= λ x, g (f x)) = (k ≫= λ x, g (f x)).
Proof.
  revert k. induction l as [|x l IH]; intros [|y k] E; try done.
  injection E as Ex E. simpl. rewrite Ex. f_equal. by apply IH.
Qed.

Lemma comparison_reloads gp mp tp cj c c' :
  compile_comparison parse to_lowercase pow2 display gp mp tp cj = Some (Ok c) →
  comparison_trained c c' → Forall (λ k, slot_ok (m k) ∧ slot_ok (u k)) (levels c') →
  compile_comparison parse to_lowercase pow2 display gp mp tp (write_comparison cj c') = Some (Ok c').
Proof.
  intros Hc [Hc' Ht] Hok. apply compile_comparison_inv in Hc
    as (Hne & ls & du & ls' & Hcol & Hn0 & Hdu & Ha & Hone & (le & Hlast & Hle) & ->).
  simpl in Hc', Ht. pose proof (default_u_values_Some _ _ _ Hdu) as [_ Hlen].
  destruct (assign_gammas_spec (default_m_values (nonnull_count ls)) du ls) as (lz & Ha' & Hr & _);
    [by rewrite length_default_m_values|by rewrite Hlen|].
  rewrite Ha in Ha'. injection Ha' as <-.
  destruct (trained_raw ls ls' (levels c') Hr Ht Hok) as (H1 & H2 & H3 & H4 & H5 & H6 & H7 & H8).
  apply compile_comparison_inv. simpl. split; [by intros E%zip_update_nil|].
  exists (zip_with reslot ls (levels c')), du, (levels c'). rewrite H8. split_and!; try done.
  - apply collect_results_Ok. apply collect_results_Ok in Hcol. by apply collect_written.
  - by eapply assign_reslotted.
  - by rewrite (filter_fmap_length is_else _ _ H6).
  - apply last_Some in Hlast as [init ->]. rewrite fmap_app in H6.
    change (is_else <$> [le]) with [is_else le] in H6.
    assert (last (is_else <$> levels c') = Some true) as Hl.
    { by rewrite H6, last_snoc, Hle. }
    rewrite fmap_last in Hl. destruct (last (levels c')) as [k|]; [|done]. simpl in Hl. injection Hl as Hl. eauto.
  - rewrite Hc'. cbn [levels set_levels output_column_name comparison_description c_input_columns gamma_prefix mw_prefix tf_prefix].
    unfold set_levels. simpl. f_equal. f_equal.
    exact (eq_sym (bind_fmap_eq l_input_columns id _ _ H7)).
Qed.
End reload.

(** ** Properties *)

(** When no estimate is a NaN, combining a training's estimates succeeds and
    changes the slots alone: a level that is null, pinned or never observed
    keeps what it had, and any other reads the median of its observations. *)
Theorem populate_correct t :
  history_ok (m_history t) → history_ok (u_history t) →
  ∃ t', populate_from_trained_values t = Some t'
    ∧ settings_trained (settings t) (settings t') ∧ prior (settings t') = prior (settings t)
    ∧ ∀ ci c, comparisons (settings t) !! ci = Some c →
        ∃ c', comparisons (settings t') !! ci = Some c' ∧ comparison_populated t ci c c'.
Proof.
  intros Hm Hu. unfold populate_from_trained_values.
  destruct (mapM_spec (λ '(ci, c), populate_comparison t ci c)
              (λ p c', comparison_populated t p.1 p.2 c' ∧ comparison_trained p.2 c')
              (enumerate (comparisons (settings t)))) as (cs & -> & HF).
  { intros [ci c] _. destruct (populate_comparison_spec t ci c Hm Hu) as (c' & ? & ? & ?). eauto. }
  simpl. eexists. split; [done|]. simpl. split_and!; [|done|].
  - split; [by destruct (settings t)|]. simpl. unfold enumerate in HF.
    assert (∀ k cs, Forall2 (λ p c', comparison_populated t p.1 p.2 c' ∧ comparison_trained p.2 c')
                      (imap (λ i, pair (k + i)) (comparisons (settings t))) cs →
              Forall2 comparison_trained (comparisons (settings t)) cs) as H.
    { clear HF. induction (comparisons (settings t)) as [|c l IH]; intros k cs' HF'; simpl in HF'.
      - apply Forall2_nil_inv_l in HF' as ->. constructor.
      - apply Forall2_cons_inv_l in HF' as (c' & cs'' & [_ Hc] & HF' & ->). constructor; [done|].
        apply (IH (S k)). erewrite imap_ext; [exact HF'|]. intros i x _. simpl. by rewrite Nat.add_succ_r. }
    by apply (H 0).
  - intros ci c Hc. assert (enumerate (comparisons (settings t)) !! ci = Some (ci, c)) as He.
    { unfold enumerate. by rewrite list_lookup_imap, Hc. }
    destruct (Forall2_lookup_l _ _ _ _ _ HF He) as (c' & Hc' & [Hp _]). eauto.
Qed.

(** The document of a trained model compiles to that model. *)
Lemma saved_document_compiles parse to_lowercase pow2 display j s s' :
  compile parse to_lowercase pow2 display j = Some (Ok s) →
  settings_trained s s' → slots_ok s' → prior_ok (prior s') = true →
  compile parse to_lowercase pow2 display (to_settings_json s')
  = Some (Ok (with_json s' (to_settings_json s'))).
Proof.
  unfold compile. destruct (negb (prior_ok (sj_prior j))); [done|].
  destruct (collect_results _ (sj_comparisons j)) as [[cs|]|] eqn:Ec; simpl; [|done..].
  intros [= <-] [Hs' Ht] Hok Hp. simpl in Hs', Ht.
  rewrite Hp. simpl.
  assert (s_json s' = j) as Hj by (by rewrite Hs').
  unfold to_settings_json. simpl. rewrite Hj.
  apply collect_results_Ok in Ec.
  assert (∀ cjs cs cs', Forall2 (λ cj c, compile_comparison parse to_lowercase pow2 display
              (sj_gamma_prefix j) (sj_mw_prefix j) (sj_tf_prefix j) cj = Some (Ok c)) cjs cs →
            Forall2 comparison_trained cs cs' →
            (∀ c l, c ∈ cs' → l ∈ levels c → slot_ok (m l) ∧ slot_ok (u l)) →
            Forall2 (λ cj c, compile_comparison parse to_lowercase pow2 display
              (sj_gamma_prefix j) (sj_mw_prefix j) (sj_tf_prefix j) cj = Some (Ok c))
              (zip_update write_comparison cjs cs') cs') as H.
  { clear. intros cjs cs cs' HF. revert cs'.
    induction HF as [|cj c cjs cs Hc _ IH]; intros cs' Ht Hok.
    - apply Forall2_nil_inv_l in Ht as ->. constructor.
    - apply Forall2_cons_inv_l in Ht as (c' & cs'' & Htc & Ht & ->). simpl. constructor.
      + eapply comparison_reloads; [done..|]. apply Forall_forall. intros l Hl. apply (Hok c'); [left|done].
      + apply IH; [done|]. intros x l Hx. apply Hok. by right. }
  rewrite (proj2 (collect_results_Ok _ _ _) (H _ _ _ Ec Ht Hok)). simpl.
  rewrite Hs'. done.
Qed.

(** ** A sample *)

Module SampleModel.
Definition parse (sql : string) : result Expr string :=
  Ok (if decide (sql = "name_l = name_r") then BinaryOp (Identifier "name_l") OpEq (Identifier "name_r")
      else OtherExpr []).

Definition level (sql : string) (null : bool) : ComparisonLevelJson :=
  mkLevelJson sql None None None false false null None None None false [].

Definition document : SettingsJson :=
  mkSettingsJson DedupeOnly (lit64 7378697629483821 (-66)) true false [] None None one 25
    "mw_" "tf_" "gamma_" "id" "source" [BrSql "l.name = r.name"]
    [mkComparisonJson "name"
       [level "name_l IS NULL" true; level "name_l = name_r" false; level "ELSE" false] None []] [].

Definition loaded : option Settings :=
  match compile parse to_ascii_lowercase id (λ _, "") document with Some (Ok s) => Some s | _ => None end.

Definition half : spec_float := lit64 4503599627370496 (-53).

(** Two EM sessions: one observes the exact level, one does not. *)
Definition trained (s : Settings) : TrainedModel :=
  add_m_estimate (add_m_estimate (set_prior (new s) half) (0, 1%Z) (EValue half) (Em "a"))
    (0, 1%Z) NotObserved (Em "b").

Definition populated : option TrainedModel := s ← loaded; populate_from_trained_values (trained s).

Lemma trained_history s : history_ok (m_history (trained s)) ∧ history_ok (u_history (trained s)).
Proof.
  split; intros k l v Hl Hv; [|done]. cbn in Hl.
  destruct (decide (k = (0, 1%Z))) as [->|Hne].
  - vm_compute in Hl. injection Hl as <-. simpl in Hv. by apply list_elem_of_singleton in Hv as ->.
  - unfold push_estimate in Hl. by rewrite !lookup_insert_ne in Hl by congruence.
Qed.

Lemma loaded_Some : ∃ s, loaded = Some s ∧ compile parse to_ascii_lowercase id (λ _, "") document = Some (Ok s).
Proof. eexists. split; vm_compute; reflexivity. Qed.

(** The sample is one the trained numbers of which load. *)
Lemma loaded_slots s : loaded = Some s → slots_ok s ∧ prior_ok (prior s) = true.
Proof.
  intros Hs. vm_compute in Hs. injection Hs as <-. split; [|vm_compute; reflexivity].
  intros c l Hl Hin. apply list_elem_of_singleton in Hl as ->.
  simpl in Hin. repeat (apply elem_of_cons in Hin as [->|Hin]; [done|]). by apply not_elem_of_nil in Hin.
Qed.

Lemma trained_refl s : settings_trained s s.
Proof.
  split; [by destruct s|]. apply Forall_Forall2_diag, Forall_forall. intros c _.
  split; [by destruct c|]. apply Forall_Forall2_diag, Forall_forall. intros l _. by split; [destruct l| |].
Qed.
End SampleModel.

Lemma populate_correct_witness :
  match SampleModel.populated with
  | Some t => (λ c, m <$> levels c) <$> comparisons (settings t)
              = [[Unset_; Value_ SampleModel.half; Unset_]]
  | None => False
  end
  ∧ ∀ s, ∃ t', populate_from_trained_values (SampleModel.trained s) = Some t'.
Proof.
  split; [vm_compute; reflexivity|]. intros s. destruct (SampleModel.trained_history s) as [Hm Hu].
  destruct (populate_correct (SampleModel.trained s) Hm Hu) as (t' & H & _). exists t'. exact H.
Defined.
