(* ===== verification/EngineDocument.v ===== *)
(** * The text of a settings document

    The serde reading and writing of [dedupe-core/src/settings/json.rs].  An
    object is the list of its fields in the order of the text; a field of no
    known name goes to the [extra] map of its level, which is written back.  The
    texts themselves are a parameter. *)

From S2P Require Import Prelude Json F64 Text SqlColumns EngineSettings EngineModel.

(** ** Definitions *)

Definition strings (l : list string) : json := JArray (JString <$> l).

Definition link_type_json (l : LinkType) : json :=
  JString (match l with
           | DedupeOnly => "dedupe_only" | LinkOnly => "link_only" | LinkAndDedupe => "link_and_dedupe"
           end).

Definition level_json (l : ComparisonLevelJson) : json :=
  JObject (present
    [("sql_condition", Some (JString (lj_sql_condition l)));
     ("label_for_charts", JString <$> lj_label_for_charts l);
     ("m_probability", f64_json <$> lj_m_probability l);
     ("u_probability", f64_json <$> lj_u_probability l);
     ("fix_m_probability", Some (JBool (lj_fix_m l))); ("fix_u_probability", Some (JBool (lj_fix_u l)));
     ("is_null_level", skip_if (negb (lj_is_null_level l)) (JBool (lj_is_null_level l)));
     ("tf_adjustment_column", JString <$> lj_tf_column l);
     ("tf_adjustment_weight", f64_json <$> lj_tf_weight l);
     ("tf_minimum_u_value", f64_json <$> lj_tf_minimum_u l);
     ("disable_tf_exact_match_detection",
        skip_if (negb (lj_disable_tf_exact l)) (JBool (lj_disable_tf_exact l)))] ++ lj_extra l).

Definition comparison_json (c : ComparisonJson) : json :=
  JObject (present
    [("output_column_name", Some (JString (cj_output_column_name c)));
     ("comparison_levels", Some (JArray (level_json <$> cj_levels c)));
     ("comparison_description", JString <$> cj_description c)] ++ cj_extra c).

Definition blocking_rule_json (b : BlockingRuleJson) : json :=
  match b with
  | BrSql s => JString s
  | BrDetailed rule dialect arrays extra =>
      JObject (present
        [("blocking_rule", Some (JString rule)); ("sql_dialect", JString <$> dialect);
         ("arrays_to_explode", skip_if (bool_decide (arrays = [])) (strings arrays))] ++ extra)
  end.

Definition settings_json (s : SettingsJson) : json :=
  JObject (present
    [("link_type", Some (link_type_json (sj_link_type s)));
     ("probability_two_random_records_match", Some (f64_json (sj_prior s)));
     ("retain_matching_columns", Some (JBool (sj_retain_matching s)));
     ("retain_intermediate_calculation_columns", Some (JBool (sj_retain_intermediate s)));
     ("additional_columns_to_retain", Some (strings (sj_additional_columns s)));
     ("sql_dialect", JString <$> sj_sql_dialect s);
     ("linker_uid", JString <$> sj_linker_uid s);
     ("em_convergence", Some (f64_json (sj_em_convergence s)));
     ("max_iterations", Some (JInt (sj_max_iterations s)));
     ("match_weight_column_prefix", Some (JString (sj_mw_prefix s)));
     ("term_frequency_adjustment_column_prefix", Some (JString (sj_tf_prefix s)));
     ("comparison_vector_value_column_prefix", Some (JString (sj_gamma_prefix s)));
     ("unique_id_column_name", Some (JString (sj_unique_id s)));
     ("source_dataset_column_name", Some (JString (sj_source_dataset s)));
     ("blocking_rules_to_generate_predictions", Some (JArray (blocking_rule_json <$> sj_blocking_rules s)));
     ("comparisons", Some (JArray (comparison_json <$> sj_comparisons s)))] ++ sj_extra s).

(** *** Reading

    [None] is an error of the reader. *)

Definition read_f64 (v : json) : option spec_float :=
  match v with JFloat f => Some f | JInt z => Some (f64_of z) | _ => None end.

Definition read_u32 (v : json) : option Z :=
  match v with JInt z => if decide (0 ≤ z < 2 ^ 32)%Z then Some z else None | _ => None end.

Definition read_array {A} (f : json → option A) (v : json) : option (list A) :=
  l ← as_array v; mapM f l.

(** An [Option<T>]: [null] is [None]. *)
Definition read_option {A} (f : json → option A) (v : json) : option (option A) :=
  match v with JNull => Some None | _ => Some <$> f v end.

(** The value of a key; a key written twice is refused. *)
Definition once (k : string) (fields : list (string * json)) : option (option json) :=
  match filter (λ p, p.1 = k) fields with
  | [] => Some None
  | [(_, v)] => Some (Some v)
  | _ => None
  end.

Definition required {A} (f : json → option A) (k : string) (fields : list (string * json)) : option A :=
  v ← once k fields;
  match v with Some v => f v | None => None end.

Definition defaulted {A} (d : A) (f : json → option A) (k : string) (fields : list (string * json)) :
    option A :=
  v ← once k fields;
  match v with Some v => f v | None => Some d end.

Definition optional {A} (f : json → option A) : string → list (string * json) → option (option A) :=
  defaulted None (read_option f).

(** The fields of no known name, as the map they are collected into. *)
Definition extra_of (known : list string) (fields : list (string * json)) : list (string * json) :=
  map_sorted (map_collect (filter (λ p, p.1 ∉ known) fields)).

Definition LEVEL_KEYS : list string :=
  ["sql_condition"; "label_for_charts"; "m_probability"; "u_probability"; "fix_m_probability";
   "fix_u_probability"; "is_null_level"; "tf_adjustment_column"; "tf_adjustment_weight";
   "tf_minimum_u_value"; "disable_tf_exact_match_detection"].

Definition read_level (v : json) : option ComparisonLevelJson :=
  match v with
  | JObject f =>
      sql ← required as_str "sql_condition" f;
      label ← optional as_str "label_for_charts" f;
      m ← optional read_f64 "m_probability" f;
      u ← optional read_f64 "u_probability" f;
      fm ← defaulted false as_bool "fix_m_probability" f;
      fu ← defaulted false as_bool "fix_u_probability" f;
      null ← defaulted false as_bool "is_null_level" f;
      tc ← optional as_str "tf_adjustment_column" f;
      tw ← optional read_f64 "tf_adjustment_weight" f;
      tm ← optional read_f64 "tf_minimum_u_value" f;
      dis ← defaulted false as_bool "disable_tf_exact_match_detection" f;
      Some (mkLevelJson sql label m u fm fu null tc tw tm dis (extra_of LEVEL_KEYS f))
  | _ => None
  end.

Definition COMPARISON_KEYS : list string :=
  ["output_column_name"; "comparison_levels"; "comparison_description"].

Definition read_comparison (v : json) : option ComparisonJson :=
  match v with
  | JObject f =>
      name ← required as_str "output_column_name" f;
      levels ← required (read_array read_level) "comparison_levels" f;
      description ← optional as_str "comparison_description" f;
      Some (mkComparisonJson name levels description (extra_of COMPARISON_KEYS f))
  | _ => None
  end.

Definition BLOCKING_KEYS : list string := ["blocking_rule"; "sql_dialect"; "arrays_to_explode"].

(** Untagged: a string, or else an object. *)
Definition read_blocking_rule (v : json) : option BlockingRuleJson :=
  match v with
  | JString s => Some (BrSql s)
  | JObject f =>
      rule ← required as_str "blocking_rule" f;
      dialect ← optional as_str "sql_dialect" f;
      arrays ← defaulted [] (read_array as_str) "arrays_to_explode" f;
      Some (BrDetailed rule dialect arrays (extra_of BLOCKING_KEYS f))
  | _ => None
  end.

Definition read_link_type (v : json) : option LinkType :=
  s ← as_str v;
  if decide (s = "dedupe_only") then Some DedupeOnly
  else if decide (s = "link_only") then Some LinkOnly
  else if decide (s = "link_and_dedupe") then Some LinkAndDedupe
  else None.

Definition SETTINGS_KEYS : list string :=
  ["link_type"; "probability_two_random_records_match"; "retain_matching_columns";
   "retain_intermediate_calculation_columns"; "additional_columns_to_retain"; "sql_dialect"; "linker_uid";
   "em_convergence"; "max_iterations"; "match_weight_column_prefix";
   "term_frequency_adjustment_column_prefix"; "comparison_vector_value_column_prefix";
   "unique_id_column_name"; "source_dataset_column_name"; "blocking_rules_to_generate_predictions";
   "comparisons"].

(** [0.0001], the default of the prior and of the convergence. *)
Definition d_prior : spec_float := lit64 7378697629483821 (-66).
Definition d_em_convergence : spec_float := lit64 7378697629483821 (-66).

Definition read_settings (v : json) : option SettingsJson :=
  match v with
  | JObject f =>
      lt ← required read_link_type "link_type" f;
      prior ← defaulted d_prior read_f64 "probability_two_random_records_match" f;
      rm ← defaulted true as_bool "retain_matching_columns" f;
      ri ← defaulted false as_bool "retain_intermediate_calculation_columns" f;
      ac ← defaulted [] (read_array as_str) "additional_columns_to_retain" f;
      dialect ← optional as_str "sql_dialect" f;
      uid ← optional as_str "linker_uid" f;
      conv ← defaulted d_em_convergence read_f64 "em_convergence" f;
      iters ← defaulted 25%Z read_u32 "max_iterations" f;
      mw ← defaulted "mw_" as_str "match_weight_column_prefix" f;
      tf ← defaulted "tf_" as_str "term_frequency_adjustment_column_prefix" f;
      gamma ← defaulted "gamma_" as_str "comparison_vector_value_column_prefix" f;
      id ← defaulted "unique_id" as_str "unique_id_column_name" f;
      sd ← defaulted "source_dataset" as_str "source_dataset_column_name" f;
      rules ← defaulted [] (read_array read_blocking_rule) "blocking_rules_to_generate_predictions" f;
      cs ← defaulted [] (read_array read_comparison) "comparisons" f;
      Some (mkSettingsJson lt prior rm ri ac dialect uid conv iters mw tf gamma id sd rules cs
              (extra_of SETTINGS_KEYS f))
  | _ => None
  end.

Section text.
(** The text of a document, and its reading. *)
Context (pretty_text : json → string) (json_of_text : string → option json).
Context (parse : string → result Expr string) (to_lowercase : string → string)
        (pow2 : spec_float → spec_float) (display : spec_float → string).

Definition to_json_string_pretty (s : SettingsJson) : string := pretty_text (settings_json s).

(** [Settings::from_json_str]. *)
Definition from_json_str (text : string) : option (result Settings DedupeError) :=
  match json_of_text text ≫= read_settings with
  | Some j => compile parse to_lowercase pow2 display j
  | None => Some (Err JsonError)
  end.
End text.

(** ** Specification *)

(** An [extra] map: its keys ascend and none is a known name. *)
Definition extra_ok (known : list string) (extra : list (string * json)) : Prop :=
  StronglySorted str_lt extra.*1 ∧ ∀ k, k ∈ extra.*1 → k ∉ known.

Definition finite_opt (o : option spec_float) : Prop := ∀ x, o = Some x → is_finite x = true.

Record level_document (l : ComparisonLevelJson) : Prop := {
  ld_m : finite_opt (lj_m_probability l);
  ld_u : finite_opt (lj_u_probability l);
  ld_weight : finite_opt (lj_tf_weight l);
  ld_minimum : finite_opt (lj_tf_minimum_u l);
  ld_extra : extra_ok LEVEL_KEYS (lj_extra l);
}.

Definition comparison_document (c : ComparisonJson) : Prop :=
  Forall level_document (cj_levels c) ∧ extra_ok COMPARISON_KEYS (cj_extra c).

Definition blocking_document (b : BlockingRuleJson) : Prop :=
  match b with BrSql _ => True | BrDetailed _ _ _ extra => extra_ok BLOCKING_KEYS extra end.

Record settings_document (s : SettingsJson) : Prop := {
  sd_prior : is_finite (sj_prior s) = true;
  sd_convergence : is_finite (sj_em_convergence s) = true;
  sd_iterations : (0 ≤ sj_max_iterations s < 2 ^ 32)%Z;
  sd_rules : Forall blocking_document (sj_blocking_rules s);
  sd_comparisons : Forall comparison_document (sj_comparisons s);
  sd_extra : extra_ok SETTINGS_KEYS (sj_extra s);
}.

(** ** Lemmas *)

Lemma once_app k l extra : k ∉ extra.*1 → once k (l ++ extra) = once k l.
Proof.
  intros Hk. unfold once. rewrite filter_app.
  assert (filter (λ p, p.1 = k) extra = []) as ->; [|by rewrite app_nil_r].
  apply filter_nil_iff. intros p Hp <-. by apply Hk, list_elem_of_fmap_2.
Qed.

Lemma filter_present_none k l : k ∉ l.*1 → filter (λ p, p.1 = k) (present l) = [].
Proof. intros Hk. apply filter_nil_iff. intros [k' x] Hp E. simpl in E. subst. by eapply present_keys. Qed.

Lemma once_present k v l : NoDup l.*1 → (k, v) ∈ l → once k (present l) = Some v.
Proof.
  unfold once. intros Hnd Hin. enough (filter (λ p, p.1 = k) (present l) = match v with Some x => [(k, x)] | None => [] end) as ->
    by (by destruct v).
  induction l as [|[k' v'] l IH]; [by apply not_elem_of_nil in Hin|].
  rewrite fmap_cons in Hnd. apply NoDup_cons in Hnd as [Hk Hnd]. rewrite present_cons.
  apply elem_of_cons in Hin as [[= <- <-]|Hin].
  - simpl in Hk. destruct v; [rewrite filter_cons_True by done|]; by rewrite filter_present_none.
  - assert (k' ≠ k) as Hne by (intros ->; apply Hk; by apply (list_elem_of_fmap_2 fst) in Hin).
    destruct v'; [rewrite filter_cons_False by done|]; by apply IH.
Qed.

Lemma once_document k v l known extra :
  bool_decide (NoDup l.*1) = true → (k, v) ∈ l → k ∈ known → extra_ok known extra →
  once k (present l ++ extra) = Some v.
Proof.
  intros Hnd%bool_decide_eq_true Hin Hk [_ He]. rewrite once_app; [by apply once_present|].
  intros Hx. by apply (He k).
Qed.

Lemma present_known l known k x :
  l.*1 = known → (k, x) ∈ present l → k ∈ known.
Proof.
  intros <- ([k0 v0] & Hin & Hx)%list_elem_of_omap. destruct v0; simpl in Hx; [|done].
  injection Hx as -> ->. by apply (list_elem_of_fmap_2 fst) in Hin.
Qed.

Lemma map_sorted_StronglySorted {V} (l : list (string * V)) :
  StronglySorted str_lt l.*1 → map_sorted (map_collect l) = l.
Proof.
  intros Hs. assert (NoDup l.*1) as Hnd.
  { clear -Hs. induction Hs as [|x ks ? IH HF]; constructor; [|done]. intros Hx.
    rewrite Forall_forall in HF. by apply (str_lt_irrefl x), HF. }
  assert ((map_sorted (map_collect l)).*1 = l.*1) as Hk.
  { rewrite map_sorted_fst. symmetry. apply set_sorted_unique; [done|]. intros k.
    rewrite elem_of_dom. split.
    - intros ([k' v] & -> & Hin)%list_elem_of_fmap. exists v. by apply map_collect_lookup.
    - intros [v Hv%map_collect_lookup]; [|done]. by apply (list_elem_of_fmap_2 fst) in Hv. }
  apply list_eq. intros i. apply option_eq. intros [k v]. split; intros Hi.
  - assert ((k, v) ∈ l) as Hin.
    { apply map_collect_lookup; [done|]. apply elem_of_map_sorted. by eapply list_elem_of_lookup_2. }
    assert (l.*1 !! i = Some k) as Hlk.
    { rewrite <- Hk, list_lookup_fmap, Hi. done. }
    rewrite list_lookup_fmap in Hlk. destruct (l !! i) as [[k' v']|] eqn:E; [|done]. injection Hlk as ->.
    apply list_elem_of_lookup_2 in E. f_equal. f_equal.
    apply (map_collect_lookup l _ _ Hnd) in E, Hin. congruence.
  - assert ((map_sorted (map_collect l)).*1 !! i = Some k) as Hlk.
    { rewrite Hk, list_lookup_fmap, Hi. done. }
    rewrite list_lookup_fmap in Hlk. destruct (map_sorted _ !! i) as [[k' v']|] eqn:E; [|done].
    injection Hlk as ->. apply list_elem_of_lookup_2, elem_of_map_sorted in E.
    apply list_elem_of_lookup_2, (map_collect_lookup l _ _ Hnd) in Hi. congruence.
Qed.

Lemma extra_of_document l known extra :
  l.*1 = known → extra_ok known extra → extra_of known (present l ++ extra) = extra.
Proof.
  intros Hl [Hs He]. unfold extra_of. rewrite filter_app.
  assert (filter (λ p, p.1 ∉ known) (present l) = []) as ->.
  { apply filter_nil_iff. intros [k x] Hin Hn. by apply Hn, (present_known l known k x). }
  assert (filter (λ p, p.1 ∉ known) extra = extra) as ->.
  { clear Hs. induction extra as [|[k x] extra IH]; [done|]. rewrite filter_cons_True.
    - f_equal. apply IH. intros k' Hk'. apply He. by right.
    - simpl. apply He. left. }
  simpl. by apply map_sorted_StronglySorted.
Qed.

(** Reading one field of a document. *)
Ltac once_field :=
  match goal with
  | He : extra_ok ?known _ |- once _ ?f = _ =>
      unfold f; erewrite (once_document _ _ _ known);
      [reflexivity
      |vm_compute; reflexivity
      |repeat (apply list_elem_of_here || apply list_elem_of_further)
      |apply (bool_decide_unpack _); vm_compute; reflexivity
      |exact He]
  end.

Lemma read_f64_finite x : is_finite x = true → read_f64 (f64_json x) = Some x.
Proof. by destruct x. Qed.

Lemma read_opt_string k o f :
  once k f = Some (JString <$> o) → optional as_str k f = Some o.
Proof. unfold optional, defaulted. intros ->. by destruct o. Qed.

Lemma read_opt_f64 k o f :
  finite_opt o → once k f = Some (f64_json <$> o) → optional read_f64 k f = Some o.
Proof.
  unfold optional, defaulted. intros Ho ->. destruct o as [x|]; [|done]. simpl.
  specialize (Ho x eq_refl). by destruct x.
Qed.

Lemma read_flag k b f :
  once k f = Some (skip_if (negb b) (JBool b)) → defaulted false as_bool k f = Some b.
Proof. unfold defaulted. intros ->. by destruct b. Qed.

Lemma read_required {A} (dec : json → option A) k v x f :
  once k f = Some (Some v) → dec v = Some x → required dec k f = Some x.
Proof. unfold required. by intros ->. Qed.

Lemma read_defaulted {A} (d : A) (dec : json → option A) k v x f :
  once k f = Some (Some v) → dec v = Some x → defaulted d dec k f = Some x.
Proof. unfold defaulted. by intros ->. Qed.

Lemma read_bool k b f : once k f = Some (Some (JBool b)) → defaulted false as_bool k f = Some b.
Proof. unfold defaulted. by intros ->. Qed.

Lemma mapM_read {A} (enc : A → json) (dec : json → option A) l :
  Forall (λ x, dec (enc x) = Some x) l → mapM dec (enc <$> l) = Some l.
Proof.
  induction 1 as [|x l Hx _ IH]; [done|]. rewrite fmap_cons. simpl. rewrite Hx. simpl.
  change (list_fmap _ _ enc l) with (enc <$> l). by rewrite IH.
Qed.

Lemma read_strings l : read_array as_str (strings l) = Some l.
Proof. unfold read_array, strings. simpl. apply mapM_read. by apply Forall_forall. Qed.

Lemma read_level_json l : level_document l → read_level (level_json l) = Some l.
Proof.
  intros [Hm Hu Hw Hn He]. unfold level_json, read_level.
  set (f := present _ ++ _). unfold required.
  assert (once "sql_condition" f = Some (Some (JString (lj_sql_condition l)))) as -> by once_field. simpl.
  rewrite (read_opt_string "label_for_charts" (lj_label_for_charts l) f) by once_field. simpl.
  rewrite (read_opt_f64 "m_probability" (lj_m_probability l) f Hm) by once_field. simpl.
  rewrite (read_opt_f64 "u_probability" (lj_u_probability l) f Hu) by once_field. simpl.
  rewrite (read_bool "fix_m_probability" (lj_fix_m l) f) by once_field. simpl.
  rewrite (read_bool "fix_u_probability" (lj_fix_u l) f) by once_field. simpl.
  rewrite (read_flag "is_null_level" (lj_is_null_level l) f) by once_field. simpl.
  rewrite (read_opt_string "tf_adjustment_column" (lj_tf_column l) f) by once_field. simpl.
  rewrite (read_opt_f64 "tf_adjustment_weight" (lj_tf_weight l) f Hw) by once_field. simpl.
  rewrite (read_opt_f64 "tf_minimum_u_value" (lj_tf_minimum_u l) f Hn) by once_field. simpl.
  rewrite (read_flag "disable_tf_exact_match_detection" (lj_disable_tf_exact l) f) by once_field. simpl.
  unfold f. rewrite extra_of_document by done. by destruct l.
Qed.

Lemma read_comparison_json c : comparison_document c → read_comparison (comparison_json c) = Some c.
Proof.
  intros [Hl He]. unfold comparison_json, read_comparison. set (f := present _ ++ _). unfold required.
  assert (once "output_column_name" f = Some (Some (JString (cj_output_column_name c)))) as -> by once_field. simpl.
  assert (once "comparison_levels" f = Some (Some (JArray (level_json <$> cj_levels c)))) as -> by once_field.
  unfold read_array. simpl. rewrite mapM_read.
  2:{ eapply Forall_impl; [exact Hl|]. intros l. apply read_level_json. }
  simpl. rewrite (read_opt_string "comparison_description" (cj_description c) f) by once_field. simpl.
  unfold f. rewrite extra_of_document by done. by destruct c.
Qed.

Lemma read_blocking_json b : blocking_document b → read_blocking_rule (blocking_rule_json b) = Some b.
Proof.
  destruct b as [s|rule dialect arrays extra]; [done|]. intros He. simpl in He.
  unfold blocking_rule_json, read_blocking_rule. set (f := present _ ++ _). unfold required.
  assert (once "blocking_rule" f = Some (Some (JString rule))) as -> by once_field. simpl.
  rewrite (read_opt_string "sql_dialect" dialect f) by once_field. simpl.
  assert (defaulted [] (read_array as_str) "arrays_to_explode" f = Some arrays) as ->.
  { unfold defaulted. assert (once "arrays_to_explode" f
      = Some (skip_if (bool_decide (arrays = [])) (strings arrays))) as -> by once_field.
    unfold skip_if. simpl. case_bool_decide as Ha; [by subst|]. apply (read_strings arrays). }
  simpl. unfold f. by rewrite extra_of_document.
Qed.

Lemma read_settings_json s : settings_document s → read_settings (settings_json s) = Some s.
Proof.
  intros [Hp Hc Hi Hr Hcs He]. unfold settings_json, read_settings.
  set (f := present _ ++ _).
  assert (read_array read_blocking_rule (JArray (blocking_rule_json <$> sj_blocking_rules s))
          = Some (sj_blocking_rules s)) as Hrules.
  { apply mapM_read. eapply Forall_impl; [exact Hr|]. intros b. apply read_blocking_json. }
  assert (read_array read_comparison (JArray (comparison_json <$> sj_comparisons s))
          = Some (sj_comparisons s)) as Hcomps.
  { apply mapM_read. eapply Forall_impl; [exact Hcs|]. intros c. apply read_comparison_json. }
  erewrite (read_required _ "link_type" _ (sj_link_type s) f); [|once_field|by destruct (sj_link_type s)].
  erewrite (read_defaulted _ _ "probability_two_random_records_match" _ (sj_prior s) f); [|once_field|by apply read_f64_finite].
  erewrite (read_defaulted _ _ "retain_matching_columns" _ (sj_retain_matching s) f); [|once_field|done].
  erewrite (read_defaulted _ _ "retain_intermediate_calculation_columns" _ (sj_retain_intermediate s) f); [|once_field|done].
  erewrite (read_defaulted _ _ "additional_columns_to_retain" _ (sj_additional_columns s) f); [|once_field|apply read_strings].
  rewrite (read_opt_string "sql_dialect" (sj_sql_dialect s) f) by once_field.
  rewrite (read_opt_string "linker_uid" (sj_linker_uid s) f) by once_field.
  erewrite (read_defaulted _ _ "em_convergence" _ (sj_em_convergence s) f); [|once_field|by apply read_f64_finite].
  erewrite (read_defaulted _ _ "max_iterations" _ (sj_max_iterations s) f); [|once_field|simpl; by rewrite decide_True].
  erewrite (read_defaulted _ _ "match_weight_column_prefix" _ (sj_mw_prefix s) f); [|once_field|done].
  erewrite (read_defaulted _ _ "term_frequency_adjustment_column_prefix" _ (sj_tf_prefix s) f); [|once_field|done].
  erewrite (read_defaulted _ _ "comparison_vector_value_column_prefix" _ (sj_gamma_prefix s) f); [|once_field|done].
  erewrite (read_defaulted _ _ "unique_id_column_name" _ (sj_unique_id s) f); [|once_field|done].
  erewrite (read_defaulted _ _ "source_dataset_column_name" _ (sj_source_dataset s) f); [|once_field|done].
  erewrite (read_defaulted _ _ "blocking_rules_to_generate_predictions" _ (sj_blocking_rules s) f); [|once_field|exact Hrules].
  erewrite (read_defaulted _ _ "comparisons" _ (sj_comparisons s) f); [|once_field|exact Hcomps].
  cbn [mbind option_bind]. unfold f. rewrite extra_of_document by done. by destruct s.
Qed.

Lemma in_range_finite x : in_range M_U_CLAMP_MIN one x = true → is_finite x = true.
Proof. by destruct x as [|[]| |]. Qed.

Lemma written_document s :
  settings_document (s_json s) → slots_ok s → is_finite (prior s) = true →
  settings_document (to_settings_json s).
Proof.
  intros [Hp Hc Hi Hr Hcs He] Hok Hprior. split; try done. simpl.
  assert (∀ c, c ∈ comparisons s → ∀ l, l ∈ levels c → slot_ok (m l) ∧ slot_ok (u l)) as Hall
    by (intros c Hcin l; by apply Hok).
  clear Hok. revert Hall. generalize (comparisons s). induction Hcs as [|cj cjs Hcj Hcjs IH]; intros [|c cs] Hall; simpl.
  - constructor.
  - constructor.
  - by constructor.
  - constructor; [|apply IH; intros c' Hc'; apply Hall; by right].
    destruct Hcj as [Hl Hx]. split; [|done]. simpl.
    assert (∀ l, l ∈ levels c → slot_ok (m l) ∧ slot_ok (u l)) as Hc' by (apply Hall; left).
    revert Hc'. generalize (levels c). clear -Hl. induction Hl as [|lj ljs Hlj Hljs IH]; intros [|l ls] Hok; simpl.
    + constructor.
    + constructor.
    + by constructor.
    + constructor; [|apply IH; intros l' Hl'; apply Hok; by right].
      destruct (Hok l) as [Hm Hu]; [left|]. unfold write_level. destruct (is_null_level l); [done|].
      destruct Hlj as [Lm Lu Lw Ln Le]. split; try done; simpl.
      * destruct (m l) as [|v]; [done|]. intros ? [= <-]. by apply in_range_finite, Hm.
      * destruct (u l) as [|v]; [done|]. intros ? [= <-]. by apply in_range_finite, Hu.
Qed.

(** ** Properties *)

(** C19: a model saved after training loads from its text, and what loads is the
    model that was saved: the trained prior and slots, the levels in order, and
    the keys the engine does not know, as long as the trained numbers are ones
    the loader takes and the text of the document reads as the document. *)
Theorem saved_model_reloads pretty_text json_of_text parse to_lowercase pow2 display j s s' :
  settings_document j → compile parse to_lowercase pow2 display j = Some (Ok s) →
  settings_trained s s' → slots_ok s' → prior_ok (prior s') = true →
  let saved := to_settings_json s' in
  json_of_text (pretty_text (settings_json saved)) = Some (settings_json saved) →
  from_json_str json_of_text parse to_lowercase pow2 display (to_json_string_pretty pretty_text saved)
  = Some (Ok (with_json s' saved)).
Proof.
  intros Hj Hc Ht Hok Hp saved Htext. unfold from_json_str, to_json_string_pretty. rewrite Htext. cbn [mbind option_bind].
  assert (s_json s' = j) as Hsj.
  { destruct Ht as [-> _]. simpl. unfold compile in Hc. destruct (negb _); [done|].
    destruct (collect_results _ _) as [[cs|]|]; simpl in Hc; [|done..]. by injection Hc as <-. }
  rewrite read_settings_json.
  - by eapply saved_document_compiles.
  - apply written_document; [by rewrite Hsj|done|].
    unfold prior_ok in Hp. destruct (prior s') as [|[]| |]; done.
Qed.

Module SampleDocument.
Import SampleModel.
Lemma document_ok : settings_document document.
Proof.
  split; try done; try (by split; [|by vm_compute]).
  - repeat constructor.
  - constructor; [|constructor]. split; [|by split; [constructor|intros ? []%not_elem_of_nil]].
    repeat (constructor; [split; try done; by split; [constructor|intros ? []%not_elem_of_nil]|]). constructor.
  - by split; [constructor|intros ? []%not_elem_of_nil].
Qed.
End SampleDocument.

Lemma saved_model_reloads_witness :
  ∃ s, SampleModel.loaded = Some s
    ∧ from_json_str (λ _, Some (settings_json (to_settings_json s))) SampleModel.parse to_ascii_lowercase id
        (λ _, "") (to_json_string_pretty (λ _, "saved") (to_settings_json s))
      = Some (Ok (with_json s (to_settings_json s))).
Proof.
  destruct SampleModel.loaded_Some as (s & Hs & Hc). exists s. split; [exact Hs|].
  destruct (SampleModel.loaded_slots s Hs) as [Hok Hp].
  exact (saved_model_reloads (λ _, "saved") (λ _, Some (settings_json (to_settings_json s)))
           SampleModel.parse to_ascii_lowercase id (λ _, "") SampleModel.document s s
           SampleDocument.document_ok Hc (SampleModel.trained_refl s) Hok Hp eq_refl).
Defined.
