(* ===== verification/Config.v ===== *)
(** * The tenant's configuration

    [er-config/src/lib.rs]: the document, its normalisation, the canonical
    document and its hash, and the SQL of the cleanse rules.  A [BTreeMap] is a
    [gmap] listed in key order; the [IndexMap] of a source's columns is a list
    in the order declared.  The YAML parser, the text of a JSON value and
    SHA-256 are parameters. *)

From S2P Require Import Prelude Ids Json F64 Text Hash.
From stdpp Require Import pretty.
From Stdlib Require Import Ascii.

(** ** Definitions *)

Definition TERMINAL_SURVIVORSHIP_RULE : string := "record_key ASC".
Definition RESERVED_SOURCE_PREFIX : string := "_".

Definition CONFIG_BLOCKS : list string :=
  ["tenant"; "thresholds"; "models"; "standardization"; "transforms"; "sources"; "features";
   "blocking"; "constraints"; "comparisons"; "segments"; "data_quality"; "survivorship"; "training";
   "storage"; "versions"; "generator"; "clustering"; "coherence"; "correction_pass"].

(** *** Cleanse rules *)

Inductive TransformRule :=
| Lower
| Upper
| Trim
| Replace (from to_ : string)
| RegexReplace (pattern replacement : string)
| Strip (chars : string)
| Substring (start length_ : Z)
| Default (value : string)
| Dictionary (map_ : gmap string string).

Definition Transforms : Type := gmap string (list TransformRule).

Definition QUOTE : ascii := "'".

(** [replace('\'', "''")]. *)
Fixpoint double_quotes (s : string) : string :=
  match s with
  | EmptyString => EmptyString
  | String c s =>
      if decide (c = QUOTE) then String c (String c (double_quotes s)) else String c (double_quotes s)
  end.

Definition lit (v : string) : string := "'" +:+ double_quotes v +:+ "'".

(** The characters of a UTF-8 string, each by its bytes. *)
Definition char_bytes (c : ascii) : nat :=
  if byte_in 0 127 c then 1 else if byte_in 192 223 c then 2
  else if byte_in 224 239 c then 3 else if byte_in 240 255 c then 4 else 1.

Fixpoint chars_of (pending : nat) (cur s : string) : list string :=
  match s with
  | EmptyString => match cur with EmptyString => [] | _ => [cur] end
  | String c s =>
      match pending with
      | S (S n) => chars_of (S n) (cur +:+ String c "") s
      | S 0 => (cur +:+ String c "") :: chars_of 0 "" s
      | 0 =>
          match char_bytes c with
          | S (S n) => chars_of (S n) (String c "") s
          | _ => String c "" :: chars_of 0 "" s
          end
      end
  end.

Definition chars (s : string) : list string := chars_of 0 "" s.

Definition apply_sql (rule : TransformRule) (expr : string) : string :=
  match rule with
  | Lower => "lower(" +:+ expr +:+ ")"
  | Upper => "upper(" +:+ expr +:+ ")"
  | Trim => "trim(" +:+ expr +:+ ")"
  | Replace from to_ => "replace(" +:+ expr +:+ ", " +:+ lit from +:+ ", " +:+ lit to_ +:+ ")"
  | RegexReplace pattern replacement =>
      "regexp_replace(" +:+ expr +:+ ", " +:+ lit pattern +:+ ", " +:+ lit replacement +:+ ", 'g')"
  | Strip cs => foldl (λ acc c, "replace(" +:+ acc +:+ ", " +:+ lit c +:+ ", '')") expr (chars cs)
  | Substring start length_ =>
      "substr(" +:+ expr +:+ ", " +:+ pretty start +:+ ", " +:+ pretty length_ +:+ ")"
  | Default v => "coalesce(nullif(trim(" +:+ expr +:+ "), ''), " +:+ lit v +:+ ")"
  | Dictionary m =>
      let arms := foldl (λ acc '(from, to_), acc +:+ " when " +:+ lit from +:+ " then " +:+ lit to_)
                    "" (map_sorted m) in
      "case " +:+ expr +:+ arms +:+ " else " +:+ expr +:+ " end"
  end.

(** *** The document *)

Definition CANONICAL_ATTRIBUTES : list string :=
  ["given_name"; "family_name"; "email"; "phone"; "address_line"; "addr_city"; "addr_region";
   "addr_postal"; "birth_date"].

Inductive EntityType := Person | Account.

#[global] Instance EntityType_eq_dec : EqDecision EntityType.
Proof. solve_decision. Defined.

Definition is_person (e : EntityType) : bool := bool_decide (e = Person).

Definition ACCOUNT_CANONICAL_ATTRIBUTES : list string :=
  ["company_name"; "domain"; "phone"; "addr_street"; "addr_city"; "addr_region"; "addr_postal"].

Definition canonical_attributes (e : EntityType) : list string :=
  match e with Person => CANONICAL_ATTRIBUTES | Account => ACCOUNT_CANONICAL_ATTRIBUTES end.

Record Thresholds := mkThresholds {
  auto_merge : spec_float;
  review_low : spec_float;
  th_full_agreement_bits : option spec_float;
  th_disagreement_ratio : option spec_float;
}.

Inductive CombineMode := AndRun | ThenRun.

Definition mode_is_default (m : CombineMode) : bool :=
  match m with AndRun => true | ThenRun => false end.

Record ModelSpec := mkModelSpec {
  ms_name : string;
  ms_threshold : option spec_float;
  ms_mode : CombineMode;
}.

Record Standardization := mkStandardization {
  email_strip_plus_addressing : bool;
  email_placeholders : list string;
  phone_default_region : string;
}.

Record SourceSpec := mkSource {
  adapter : string;
  priority_rank : Z;
  record_id_column : string;
  updated_at_column : string;
  date_format : string;
  src_columns : list (string * string);
}.

Record BlockingRule := mkBlocking { key_type : string; expr : string }.

Inductive NullPolicy := Never | BothBlankMatches | EitherBlankMatches.

#[global] Instance NullPolicy_eq_dec : EqDecision NullPolicy.
Proof. solve_decision. Defined.

Definition is_default_null_policy (p : NullPolicy) : bool := bool_decide (p = Never).

Record MatchConstraints := mkConstraints {
  required_match : list string;
  veto : list string;
  exclude_when_equal : list string;
}.

Definition constraints_is_empty (c : MatchConstraints) : bool :=
  bool_decide (required_match c = [] ∧ veto c = [] ∧ exclude_when_equal c = []).

Definition constraint_columns (c : MatchConstraints) : list string :=
  required_match c ++ veto c ++ exclude_when_equal c.

Record ComparisonSpec := mkComparisonSpec {
  cs_levels : list (option string);
  cs_tf : bool;
  cs_weight : option spec_float;
  cs_null_policy : NullPolicy;
}.

Record TrainingEm := mkTrainingEm { fix_u_probabilities : bool; max_pairs : option Z }.

Record Training := mkTraining {
  deterministic_rules : list string;
  t_recall : spec_float;
  u_max_pairs : Z;
  u_seed : Z;
  u_sampling_method : string;
  u_min_count_per_level : option Z;
  u_num_chunks : Z;
  em_blocking_rules : list string;
  em : TrainingEm;
}.

Definition default_sampling_method : string := "bernoulli".
Definition default_num_chunks : Z := 10.

Record Storage := mkStorage { data_path : string; drop_dir : string; model_uri_prefix : string }.

Record Versions := mkVersions {
  std_version : string;
  survivorship_version : string;
  address_parser_version : string;
}.

Record Clustering := mkClustering {
  cl_max_iterations : Z;
  cl_cut_protect_probability : spec_float;
}.

Definition Segments : Type := gmap string string.

Record DataQualityWeights := mkDqWeights {
  dq_completeness_weight : spec_float;
  dq_validity_weight : spec_float;
  dq_freshness_weight : spec_float;
}.

Record DataQuality := mkDataQuality {
  completeness : gmap string spec_float;
  dq_weights : DataQualityWeights;
  fresh_days : Z;
  stale_days : Z;
}.

Definition default_dq_weights : DataQualityWeights := mkDqWeights (f64_of 1) (f64_of 1) (f64_of 1).
Definition default_fresh_days : Z := 90.
Definition default_stale_days : Z := 1095.

Definition data_quality_is_unset (d : DataQuality) : bool := bool_decide (completeness d = ∅).

Definition data_quality_default : DataQuality :=
  mkDataQuality ∅ default_dq_weights default_fresh_days default_stale_days.

Record SurvivorshipGroup := mkGroup { fields : list string; controlling : option string }.

Definition approval_is_empty (tag : string) : bool := bool_decide (trim tag = "").

Record RelatedFeature := mkRelated {
  prefix : string;
  key_column : string;
  target_source : string;
  attributes : list string;
}.

Definition column_for (f : RelatedFeature) (attribute : string) : string :=
  prefix f +:+ "_" +:+ attribute.

Definition feature_columns (f : RelatedFeature) : list string := column_for f <$> attributes f.

Definition features_is_empty (related : list RelatedFeature) : bool := bool_decide (length related = 0).

(** The one-field blocks, [approval], [features], [generator], [coherence] and
    [correction_pass], are their field. *)
Record Config := mkConfig {
  entity_type : EntityType;
  approval_tag : string;
  tenant : string;
  thresholds : Thresholds;
  models : list ModelSpec;
  standardization : Standardization;
  transforms : Transforms;
  sources : gmap string SourceSpec;
  blocking : list BlockingRule;
  constraints : MatchConstraints;
  comparisons : gmap string ComparisonSpec;
  segments : Segments;
  features_related : list RelatedFeature;
  data_quality : DataQuality;
  survivorship : gmap string (list string);
  survivorship_groups : gmap string SurvivorshipGroup;
  training : Training;
  storage : Storage;
  versions : Versions;
  generator_seed : Z;
  clustering : Clustering;
  coherence_scorer : string;
  correction_cadence : string;
}.

(** *** Normalisation *)

Definition normalize_comparison (c : ComparisonSpec) : ComparisonSpec :=
  mkComparisonSpec (filter (λ l, is_Some l) (cs_levels c)) (cs_tf c) (cs_weight c) (cs_null_policy c).

Definition normalize_chain (chain : list string) : list string :=
  if decide (last chain = Some TERMINAL_SURVIVORSHIP_RULE) then chain
  else chain ++ [TERMINAL_SURVIVORSHIP_RULE].

Definition normalize (c : Config) : Config :=
  mkConfig (entity_type c) (approval_tag c) (tenant c) (thresholds c) (models c) (standardization c)
    (transforms c) (sources c) (blocking c) (constraints c) (normalize_comparison <$> comparisons c)
    (segments c) (features_related c) (data_quality c) (normalize_chain <$> survivorship c)
    (survivorship_groups c) (training c) (storage c) (versions c) (generator_seed c) (clustering c)
    (coherence_scorer c) (correction_cadence c).

(** *** The canonical document

    An object in key order; a field that is skipped is [None], and a number
    that is not finite is [null]. *)

Definition object (l : list (string * option json)) : json := JObject (present l).

Definition opt_json {A} (f : A → json) (o : option A) : json :=
  match o with Some x => f x | None => JNull end.

Definition map_json {A} (f : A → json) (m : gmap string A) : json :=
  JObject (prod_map id f <$> map_sorted m).

Definition list_json {A} (f : A → json) (l : list A) : json := JArray (f <$> l).

Definition strings_json : list string → json := list_json JString.

Definition rule_json (r : TransformRule) : json :=
  match r with
  | Lower => object [("op", Some (JString "lower"))]
  | Upper => object [("op", Some (JString "upper"))]
  | Trim => object [("op", Some (JString "trim"))]
  | Replace from to_ =>
      object [("from", Some (JString from)); ("op", Some (JString "replace")); ("to", Some (JString to_))]
  | RegexReplace p r =>
      object [("op", Some (JString "regex_replace")); ("pattern", Some (JString p));
              ("replacement", Some (JString r))]
  | Strip cs => object [("chars", Some (JString cs)); ("op", Some (JString "strip"))]
  | Substring s n =>
      object [("length", Some (JInt n)); ("op", Some (JString "substring")); ("start", Some (JInt s))]
  | Default v => object [("op", Some (JString "default")); ("value", Some (JString v))]
  | Dictionary m => object [("map", Some (map_json JString m)); ("op", Some (JString "dictionary"))]
  end.

Definition thresholds_json (t : Thresholds) : json :=
  object [("auto_merge", Some (f64_json (auto_merge t)));
          ("disagreement_ratio", f64_json <$> th_disagreement_ratio t);
          ("full_agreement_bits", f64_json <$> th_full_agreement_bits t);
          ("review_low", Some (f64_json (review_low t)))].

Definition mode_json (m : CombineMode) : json :=
  JString (match m with AndRun => "and_run" | ThenRun => "then_run" end).

Definition model_json (m : ModelSpec) : json :=
  object [("mode", skip_if (mode_is_default (ms_mode m)) (mode_json (ms_mode m)));
          ("name", Some (JString (ms_name m))); ("threshold", f64_json <$> ms_threshold m)].

Definition standardization_json (s : Standardization) : json :=
  object [("email_placeholders", Some (strings_json (email_placeholders s)));
          ("email_strip_plus_addressing", Some (JBool (email_strip_plus_addressing s)));
          ("phone_default_region", Some (JString (phone_default_region s)))].

Definition source_json (s : SourceSpec) : json :=
  object [("adapter", Some (JString (adapter s)));
          ("columns", Some (map_json JString (map_collect (src_columns s))));
          ("date_format", Some (JString (date_format s)));
          ("priority_rank", Some (JInt (priority_rank s)));
          ("record_id_column", Some (JString (record_id_column s)));
          ("updated_at_column", Some (JString (updated_at_column s)))].

Definition blocking_json (b : BlockingRule) : json :=
  object [("expr", Some (JString (expr b))); ("key_type", Some (JString (key_type b)))].

Definition constraints_json (c : MatchConstraints) : json :=
  let opt l := skip_if (bool_decide (length l = 0)) (strings_json l) in
  object [("exclude_when_equal", opt (exclude_when_equal c));
          ("required_match", opt (required_match c)); ("veto", opt (veto c))].

Definition policy_json (p : NullPolicy) : json :=
  JString (match p with
           | Never => "never" | BothBlankMatches => "both_blank_matches"
           | EitherBlankMatches => "either_blank_matches"
           end).

Definition comparison_json (c : ComparisonSpec) : json :=
  object [("levels", Some (list_json (opt_json JString) (cs_levels c)));
          ("null_policy", skip_if (is_default_null_policy (cs_null_policy c)) (policy_json (cs_null_policy c)));
          ("tf", Some (JBool (cs_tf c))); ("weight", f64_json <$> cs_weight c)].

Definition training_json (t : Training) : json :=
  object [("deterministic_rules", Some (strings_json (deterministic_rules t)));
          ("em", Some (object [("fix_u_probabilities", Some (JBool (fix_u_probabilities (em t))));
                               ("max_pairs", Some (opt_json JInt (max_pairs (em t))))]));
          ("em_blocking_rules", Some (strings_json (em_blocking_rules t)));
          ("recall", Some (f64_json (t_recall t)));
          ("u_max_pairs", Some (JInt (u_max_pairs t)));
          ("u_min_count_per_level", Some (opt_json JInt (u_min_count_per_level t)));
          ("u_num_chunks", Some (JInt (u_num_chunks t)));
          ("u_sampling_method", Some (JString (u_sampling_method t)));
          ("u_seed", Some (JInt (u_seed t)))].

Definition storage_json (s : Storage) : json :=
  object [("data_path", Some (JString (data_path s))); ("drop_dir", Some (JString (drop_dir s)));
          ("model_uri_prefix", Some (JString (model_uri_prefix s)))].

Definition versions_json (v : Versions) : json :=
  object [("address_parser_version", Some (JString (address_parser_version v)));
          ("std_version", Some (JString (std_version v)));
          ("survivorship_version", Some (JString (survivorship_version v)))].

Definition clustering_json (c : Clustering) : json :=
  object [("cut_protect_probability", Some (f64_json (cl_cut_protect_probability c)));
          ("max_iterations", Some (JInt (cl_max_iterations c)))].

Definition weights_json (w : DataQualityWeights) : json :=
  object [("completeness", Some (f64_json (dq_completeness_weight w)));
          ("freshness", Some (f64_json (dq_freshness_weight w)));
          ("validity", Some (f64_json (dq_validity_weight w)))].

Definition data_quality_json (d : DataQuality) : json :=
  object [("completeness", Some (map_json f64_json (completeness d)));
          ("fresh_days", Some (JInt (fresh_days d))); ("stale_days", Some (JInt (stale_days d)));
          ("weights", Some (weights_json (dq_weights d)))].

Definition related_json (f : RelatedFeature) : json :=
  object [("attributes", Some (strings_json (attributes f))); ("key_column", Some (JString (key_column f)));
          ("prefix", Some (JString (prefix f))); ("target_source", Some (JString (target_source f)))].

Definition group_json (g : SurvivorshipGroup) : json :=
  object [("controlling", JString <$> controlling g); ("fields", Some (strings_json (fields g)))].

Definition entity_type_json (e : EntityType) : json :=
  JString (match e with Person => "person" | Account => "account" end).

Definition config_value (c : Config) : json :=
  object
    [("approval", skip_if (approval_is_empty (approval_tag c))
        (object [("tag", skip_if (bool_decide (approval_tag c = "")) (JString (approval_tag c)))]));
     ("blocking", Some (list_json blocking_json (blocking c)));
     ("clustering", Some (clustering_json (clustering c)));
     ("coherence", Some (object [("scorer", Some (JString (coherence_scorer c)))]));
     ("comparisons", Some (map_json comparison_json (comparisons c)));
     ("constraints", skip_if (constraints_is_empty (constraints c)) (constraints_json (constraints c)));
     ("correction_pass", Some (object [("cadence", Some (JString (correction_cadence c)))]));
     ("data_quality", skip_if (data_quality_is_unset (data_quality c)) (data_quality_json (data_quality c)));
     ("entity_type", skip_if (is_person (entity_type c)) (entity_type_json (entity_type c)));
     ("features", skip_if (features_is_empty (features_related c))
        (object [("related", skip_if (bool_decide (length (features_related c) = 0))
                               (list_json related_json (features_related c)))]));
     ("generator", Some (object [("seed", Some (JInt (generator_seed c)))]));
     ("models", skip_if (bool_decide (length (models c) = 0)) (list_json model_json (models c)));
     ("segments", skip_if (bool_decide (segments c = ∅)) (map_json JString (segments c)));
     ("sources", Some (map_json source_json (sources c)));
     ("standardization", Some (standardization_json (standardization c)));
     ("storage", Some (storage_json (storage c)));
     ("survivorship", Some (map_json strings_json (survivorship c)));
     ("survivorship_groups", skip_if (bool_decide (dom (survivorship_groups c) = ∅))
        (map_json group_json (survivorship_groups c)));
     ("tenant", Some (JString (tenant c)));
     ("thresholds", Some (thresholds_json (thresholds c)));
     ("training", Some (training_json (training c)));
     ("transforms", skip_if (bool_decide (dom (transforms c) = ∅))
        (map_json (list_json rule_json) (transforms c)));
     ("versions", Some (versions_json (versions c)))].

(** *** Loading and hashing *)

Section hash.
Context (from_yaml : string → option Config) (json_text : json → string) (sha256 : string → list Z).

Inductive ConfigError := ParseError.

Definition code (e : ConfigError) : Z := 2.

Definition load_config_str (yaml : string) : result Config ConfigError :=
  match from_yaml yaml with Some c => Ok (normalize c) | None => Err ParseError end.

Definition canonical_document (c : Config) : string := json_text (config_value c).

Definition config_hash (c : Config) : string := hash_hex sha256 (canonical_document c).
End hash.

(** ** Specification *)

(** A number the canonical document tells from no other. *)
Definition canon_f64 (x : spec_float) : spec_float := if is_finite x then x else S754_nan.

Definition effective_thresholds (t : Thresholds) : Thresholds :=
  mkThresholds (canon_f64 (auto_merge t)) (canon_f64 (review_low t))
    (canon_f64 <$> th_full_agreement_bits t) (canon_f64 <$> th_disagreement_ratio t).

Definition effective_model (m : ModelSpec) : ModelSpec :=
  mkModelSpec (ms_name m) (canon_f64 <$> ms_threshold m) (ms_mode m).

Definition effective_source (s : SourceSpec) : SourceSpec :=
  mkSource (adapter s) (priority_rank s) (record_id_column s) (updated_at_column s) (date_format s)
    (map_sorted (map_collect (src_columns s))).

Definition effective_comparison (c : ComparisonSpec) : ComparisonSpec :=
  mkComparisonSpec (cs_levels c) (cs_tf c) (canon_f64 <$> cs_weight c) (cs_null_policy c).

Definition effective_weights (w : DataQualityWeights) : DataQualityWeights :=
  mkDqWeights (canon_f64 (dq_completeness_weight w)) (canon_f64 (dq_validity_weight w))
    (canon_f64 (dq_freshness_weight w)).

Definition effective_quality (d : DataQuality) : DataQuality :=
  if data_quality_is_unset d then data_quality_default
  else mkDataQuality (canon_f64 <$> completeness d) (effective_weights (dq_weights d)) (fresh_days d) (stale_days d).

Definition effective_training (t : Training) : Training :=
  mkTraining (deterministic_rules t) (canon_f64 (t_recall t)) (u_max_pairs t) (u_seed t)
    (u_sampling_method t) (u_min_count_per_level t) (u_num_chunks t) (em_blocking_rules t) (em t).

Definition effective_clustering (c : Clustering) : Clustering :=
  mkClustering (cl_max_iterations c) (canon_f64 (cl_cut_protect_probability c)).

(** What of a configuration its hash depends on: all of it but a blank approval
    tag, the order of a source's columns, the settings of a quality block that
    scores nothing, and which number that is not finite a field holds. *)
Definition effective (c : Config) : Config :=
  mkConfig (entity_type c) (if approval_is_empty (approval_tag c) then "" else approval_tag c) (tenant c)
    (effective_thresholds (thresholds c)) (effective_model <$> models c) (standardization c) (transforms c)
    (effective_source <$> sources c) (blocking c) (constraints c) (effective_comparison <$> comparisons c)
    (segments c) (features_related c) (effective_quality (data_quality c)) (survivorship c)
    (survivorship_groups c) (effective_training (training c)) (storage c) (versions c) (generator_seed c)
    (effective_clustering (clustering c)) (coherence_scorer c) (correction_cadence c).

(** [enc] writes of a value what [eff] keeps of it. *)
Class Faithful {A} (enc : A → json) (eff : A → A) : Prop := {
  faithful_eff x : enc (eff x) = enc x;
  faithful_inj x y : enc x = enc y → eff x = eff y;
}.

(** ** Lemmas *)

Lemma object_inj l l' :
  l.*1 = l'.*1 → bool_decide (NoDup l.*1) = true → object l = object l' → l = l'.
Proof. intros E Hnd%bool_decide_eq_true Ho. injection Ho. by apply present_inj. Qed.

(** Two objects over the same keys, field by field. *)
Ltac fields_of E := apply object_inj in E; [|reflexivity|vm_compute; reflexivity]; injection E; clear E; intros.

#[export] Instance faithful_string : Faithful JString id.
Proof. split; [done|]. by intros x y [= ->]. Qed.

#[export] Instance faithful_int : Faithful JInt id.
Proof. split; [done|]. by intros x y [= ->]. Qed.

#[export] Instance faithful_f64 : Faithful f64_json canon_f64.
Proof.
  split; intros x; [by destruct x|]. intros y. unfold canon_f64. destruct x, y; simpl; congruence.
Qed.

Lemma opt_f64_inj (o o' : option spec_float) :
  f64_json <$> o = f64_json <$> o' → canon_f64 <$> o = canon_f64 <$> o'.
Proof. destruct o, o'; simpl; try done. intros [= E%faithful_inj]. by f_equal. Qed.

Lemma opt_f64_eff (o : option spec_float) : f64_json <$> (canon_f64 <$> o) = f64_json <$> o.
Proof. destruct o; simpl; [by rewrite faithful_eff|done]. Qed.

Lemma opt_string_inj (o o' : option string) : JString <$> o = JString <$> o' → o = o'.
Proof. destruct o, o'; simpl; congruence. Qed.

#[export] Instance faithful_opt_string : Faithful (opt_json JString) id.
Proof. split; [done|]. intros [x|] [y|]; simpl; congruence. Qed.

#[export] Instance faithful_opt_int : Faithful (opt_json JInt) id.
Proof. split; [done|]. intros [x|] [y|]; simpl; congruence. Qed.

Lemma fmap_inj_eff {A} (enc : A → json) (eff : A → A) `{!Faithful enc eff} (l k : list A) :
  enc <$> l = enc <$> k → eff <$> l = eff <$> k.
Proof.
  revert k. induction l as [|x l IH]; intros [|y k] E; try done.
  injection E as E1 E2. simpl. f_equal; [by apply faithful_inj|by apply IH].
Qed.

#[export] Instance faithful_list {A} (enc : A → json) eff `{!Faithful enc eff} :
  Faithful (list_json enc) (fmap eff).
Proof.
  split; unfold list_json; intros l.
  - f_equal. rewrite <- list_fmap_compose. apply list_fmap_ext. intros ? x _. apply faithful_eff.
  - intros k [= E]. by eapply fmap_inj_eff.
Qed.

Lemma faithful_id {A} (enc : A → json) (eff : A → A) :
  Faithful enc eff → (∀ x, eff x = x) → Faithful enc id.
Proof. intros [H1 H2] He. split; [done|]. intros x y E%H2. by rewrite !He in E. Qed.

#[export] Instance faithful_strings : Faithful strings_json id.
Proof. eapply faithful_id; [apply (faithful_list JString id)|]. intros l. apply list_fmap_id. Qed.

Lemma map_json_sorted {A} (f : A → json) m : map_json f m = JObject (map_sorted (f <$> m)).
Proof.
  unfold map_json, map_sorted. f_equal. rewrite dom_fmap_L.
  induction (set_sorted (dom m)) as [|k l IH]; [done|]. cbn [omap list_omap]. rewrite lookup_fmap.
  destruct (m !! k); cbn [fmap option_fmap option_map]; [rewrite fmap_cons; f_equal|]; exact IH.
Qed.

Lemma map_sorted_inj {A} (m m' : gmap string A) : map_sorted m = map_sorted m' → m = m'.
Proof.
  intros E. apply map_eq. intros k. apply option_eq. intros v.
  by rewrite <- !elem_of_map_sorted, E.
Qed.

#[export] Instance faithful_map {A} (enc : A → json) eff `{!Faithful enc eff} :
  Faithful (map_json enc) (fmap eff).
Proof.
  split; intros m; rewrite !map_json_sorted.
  - rewrite <- map_fmap_compose. f_equal. f_equal. apply map_fmap_ext. intros k x _. apply faithful_eff.
  - intros m'. rewrite map_json_sorted. intros [= E%map_sorted_inj]. apply map_eq. intros k.
    apply (f_equal (lookup k)) in E. rewrite !lookup_fmap in *.
    destruct (m !! k), (m' !! k); simpl in *; try done. injection E as E. f_equal. by apply faithful_inj.
Qed.

#[export] Instance faithful_map_id {A} (enc : A → json) `{!Faithful enc id} : Faithful (map_json enc) id.
Proof. eapply faithful_id; [apply (faithful_map enc id)|]. intros m. apply map_fmap_id. Qed.

#[export] Instance faithful_list_id {A} (enc : A → json) `{!Faithful enc id} : Faithful (list_json enc) id.
Proof. eapply faithful_id; [apply (faithful_list enc id)|]. intros l. apply list_fmap_id. Qed.

Lemma fmap_inj_id {A} (enc : A → json) `{!Faithful enc id} (l k : list A) : enc <$> l = enc <$> k → l = k.
Proof. intros E. by apply (fmap_inj_eff enc id) in E; rewrite !list_fmap_id in E. Qed.

Lemma map_fields_inj {A} (enc : A → json) `{!Faithful enc id} (m m' : gmap string A) :
  prod_map id enc <$> map_sorted m = prod_map id enc <$> map_sorted m' → m = m'.
Proof. intros E. apply (faithful_inj (enc := map_json enc) (eff := id)). unfold map_json. by f_equal. Qed.

#[export] Instance faithful_rule : Faithful rule_json id.
Proof.
  split; [done|]. intros x y E. unfold rule_json, object, present in E.
  destruct x, y; simpl in E; try discriminate E; try done; injection E; intros; subst; try done.
  match goal with H : prod_map id JString <$> _ = _ |- _ => rename H into Hm end.
  unfold id. f_equal. by apply (map_fields_inj JString).
Qed.

#[export] Instance faithful_thresholds : Faithful thresholds_json effective_thresholds.
Proof.
  split.
  - intros [a r b d]. unfold thresholds_json. simpl. by rewrite !(faithful_eff (enc := f64_json)), !opt_f64_eff.
  - intros x y E. unfold thresholds_json in E. fields_of E. unfold effective_thresholds.
    f_equal; by (apply (faithful_inj (enc := f64_json)) || apply opt_f64_inj).
Qed.

#[export] Instance faithful_model : Faithful model_json effective_model.
Proof.
  split.
  - intros [n t md]. unfold model_json. simpl. by rewrite opt_f64_eff.
  - intros [n t md] [n' t' md'] E. unfold model_json in E. fields_of E. simpl in *. subst.
    unfold effective_model. simpl. f_equal; [by apply opt_f64_inj|]. by destruct md, md'.
Qed.

#[export] Instance faithful_standardization : Faithful standardization_json id.
Proof.
  split; [done|]. intros [] [] E. unfold standardization_json in E. fields_of E. simpl in *.
  unfold id. f_equal; [done| |done]. by apply (fmap_inj_id JString).
Qed.

Lemma map_sorted_collect {A} (m : gmap string A) : map_collect (map_sorted m) = m.
Proof.
  apply map_eq. intros k. apply option_eq. intros v.
  rewrite map_collect_lookup; [apply elem_of_map_sorted|].
  rewrite map_sorted_fst. apply NoDup_set_sorted.
Qed.

#[export] Instance faithful_source : Faithful source_json effective_source.
Proof.
  split.
  - intros []. unfold source_json. simpl. by rewrite map_sorted_collect.
  - intros [] [] E. unfold source_json in E. fields_of E. simpl in *. subst. unfold effective_source. simpl.
    f_equal. f_equal. by apply (map_fields_inj JString).
Qed.

#[export] Instance faithful_blocking : Faithful blocking_json id.
Proof. split; [done|]. intros [] [] E. unfold blocking_json in E. fields_of E. simpl in *. by subst. Qed.

Lemma skip_nil_inj {A} (enc : A → json) `{!Faithful enc id} (l k : list A) :
  skip_if (bool_decide (length l = 0)) (list_json enc l)
  = skip_if (bool_decide (length k = 0)) (list_json enc k) → l = k.
Proof.
  intros [E Hv]%skip_if_eq. destruct (bool_decide (length l = 0)) eqn:El.
  - symmetry in E. apply bool_decide_eq_true in E, El. apply nil_length_inv in E, El. congruence.
  - by apply (faithful_inj (enc := list_json enc) (eff := id)), Hv.
Qed.

#[export] Instance faithful_constraints : Faithful constraints_json id.
Proof.
  split; [done|]. intros [] [] E. unfold constraints_json in E. fields_of E. simpl in *.
  unfold id. f_equal; by apply (skip_nil_inj JString).
Qed.

#[export] Instance faithful_comparison : Faithful comparison_json effective_comparison.
Proof.
  split.
  - intros []. unfold comparison_json. simpl. by rewrite opt_f64_eff.
  - intros [l tf w p] [l' tf' w' p'] E. unfold comparison_json in E. fields_of E. simpl in *. subst.
    unfold effective_comparison. simpl. f_equal.
    + by apply (fmap_inj_id (opt_json JString)).
    + by apply opt_f64_inj.
    + by destruct p, p'.
Qed.

#[export] Instance faithful_training : Faithful training_json effective_training.
Proof.
  split.
  - intros []. unfold training_json. simpl. by rewrite (faithful_eff (enc := f64_json)).
  - intros [? ? ? ? ? ? ? ? [? ?]] [? ? ? ? ? ? ? ? [? ?]] E. unfold training_json in E. fields_of E.
    simpl in *. subst. unfold effective_training. simpl.
    f_equal; try (by apply (fmap_inj_id JString)); try (by apply (faithful_inj (enc := f64_json)));
      try (by apply (faithful_inj (enc := opt_json JInt) (eff := id))).
    f_equal. by apply (faithful_inj (enc := opt_json JInt) (eff := id)).
Qed.

#[export] Instance faithful_storage : Faithful storage_json id.
Proof. split; [done|]. intros [] [] E. unfold storage_json in E. fields_of E. simpl in *. by subst. Qed.

#[export] Instance faithful_versions : Faithful versions_json id.
Proof. split; [done|]. intros [] [] E. unfold versions_json in E. fields_of E. simpl in *. by subst. Qed.

#[export] Instance faithful_clustering : Faithful clustering_json effective_clustering.
Proof.
  split.
  - intros []. unfold clustering_json. simpl. by rewrite (faithful_eff (enc := f64_json)).
  - intros [] [] E. unfold clustering_json in E. fields_of E. simpl in *. subst.
    unfold effective_clustering. simpl. f_equal. by apply (faithful_inj (enc := f64_json)).
Qed.

#[export] Instance faithful_weights : Faithful weights_json effective_weights.
Proof.
  split.
  - intros []. unfold weights_json. simpl. by rewrite !(faithful_eff (enc := f64_json)).
  - intros [] [] E. unfold weights_json in E. fields_of E. simpl in *.
    unfold effective_weights. simpl. f_equal; by apply (faithful_inj (enc := f64_json)).
Qed.

#[export] Instance faithful_related : Faithful related_json id.
Proof.
  split; [done|]. intros [] [] E. unfold related_json in E. fields_of E. simpl in *. subst.
  unfold id. f_equal. by apply (fmap_inj_id JString).
Qed.

#[export] Instance faithful_group : Faithful group_json id.
Proof.
  split; [done|]. intros [] [] E. unfold group_json in E. fields_of E. simpl in *. subst.
  unfold id. f_equal; [by apply (fmap_inj_id JString)|by apply opt_string_inj].
Qed.

Lemma is_unset_canon (m : gmap string spec_float) : canon_f64 <$> m = ∅ ↔ m = ∅.
Proof. apply fmap_empty_iff. Qed.

(** The optional blocks. *)
Definition quality_field (d : DataQuality) : option json :=
  skip_if (data_quality_is_unset d) (data_quality_json d).

Lemma quality_field_inj d d' : quality_field d = quality_field d' → effective_quality d = effective_quality d'.
Proof.
  unfold quality_field, effective_quality. intros [E Hv]%skip_if_eq. rewrite <- E.
  destruct (data_quality_is_unset d); [done|]. specialize (Hv eq_refl).
  unfold data_quality_json in Hv. fields_of Hv. subst.
  f_equal; try done; [|unfold effective_weights; f_equal; by apply (faithful_inj (enc := f64_json))].
  apply (faithful_inj (enc := map_json f64_json) (eff := fmap canon_f64)). unfold map_json. by f_equal.
Qed.

Lemma quality_field_eff d : quality_field (effective_quality d) = quality_field d.
Proof.
  unfold effective_quality, quality_field. destruct (data_quality_is_unset d) eqn:E; [done|].
  unfold data_quality_is_unset in *. cbn [completeness]. apply bool_decide_eq_false in E.
  rewrite bool_decide_eq_false_2 by (by rewrite is_unset_canon). simpl. unfold data_quality_json. simpl.
  by rewrite (faithful_eff (enc := map_json f64_json)), (faithful_eff (enc := weights_json)).
Qed.

Definition approval_field (tag : string) : option json :=
  skip_if (approval_is_empty tag) (object [("tag", skip_if (bool_decide (tag = "")) (JString tag))]).

Definition effective_tag (tag : string) : string := if approval_is_empty tag then "" else tag.

Lemma effective_tag_empty tag : approval_is_empty (effective_tag tag) = approval_is_empty tag.
Proof. unfold effective_tag. destruct (approval_is_empty tag) eqn:E; [vm_compute; reflexivity|done]. Qed.

Lemma approval_field_inj tag tag' :
  approval_field tag = approval_field tag' → effective_tag tag = effective_tag tag'.
Proof.
  unfold approval_field, effective_tag. intros [E Hv]%skip_if_eq. rewrite <- E.
  destruct (approval_is_empty tag); [done|]. specialize (Hv eq_refl).
  fields_of Hv. match goal with H : skip_if _ _ = _ |- _ => apply skip_if_eq in H as [H1 H2] end.
  destruct (bool_decide (tag = "")) eqn:Et.
  - symmetry in H1. apply bool_decide_eq_true in H1, Et. congruence.
  - by injection (H2 eq_refl).
Qed.

Lemma approval_field_eff tag : approval_field (effective_tag tag) = approval_field tag.
Proof.
  unfold approval_field. rewrite effective_tag_empty. unfold effective_tag.
  by destruct (approval_is_empty tag).
Qed.

Lemma skip_empty_map_inj {A} (enc : A → json) `{!Faithful enc id} (m m' : gmap string A) :
  skip_if (bool_decide (dom m = ∅)) (map_json enc m) = skip_if (bool_decide (dom m' = ∅)) (map_json enc m') →
  m = m'.
Proof.
  intros [E Hv]%skip_if_eq. destruct (bool_decide (dom m = ∅)) eqn:Em.
  - symmetry in E. apply bool_decide_eq_true in E, Em. apply dom_empty_inv_L in E, Em. congruence.
  - by apply (faithful_inj (enc := map_json enc) (eff := id)), Hv.
Qed.

Lemma skip_models_inj (l k : list ModelSpec) :
  skip_if (bool_decide (length l = 0)) (list_json model_json l)
  = skip_if (bool_decide (length k = 0)) (list_json model_json k) →
  effective_model <$> l = effective_model <$> k.
Proof.
  intros [E Hv]%skip_if_eq. destruct (bool_decide (length l = 0)) eqn:El.
  - symmetry in E. apply bool_decide_eq_true in E, El. apply nil_length_inv in E, El. congruence.
  - by apply (faithful_inj (enc := list_json model_json)), Hv.
Qed.

#[export] Instance faithful_config : Faithful config_value effective.
Proof.
  split.
  - intros c. unfold config_value. cbn [effective entity_type approval_tag tenant thresholds models standardization
      transforms sources blocking constraints comparisons segments features_related data_quality survivorship
      survivorship_groups training storage versions generator_seed clustering coherence_scorer correction_cadence].
    pose proof (approval_field_eff (approval_tag c)) as Ha. unfold approval_field, effective_tag in Ha. rewrite Ha.
    pose proof (quality_field_eff (data_quality c)) as Hq. unfold quality_field in Hq. rewrite Hq.
    rewrite length_fmap, (faithful_eff (enc := list_json model_json)), (faithful_eff (enc := map_json source_json)),
      (faithful_eff (enc := map_json comparison_json)), (faithful_eff (enc := thresholds_json)),
      (faithful_eff (enc := training_json)), (faithful_eff (enc := clustering_json)). done.
  - intros x y E. unfold config_value in E.
    apply object_inj in E; [|reflexivity|vm_compute; reflexivity].
    repeat (apply (inj2 cons) in E as [?Ef E]). clear E.
    repeat match goal with H : (_, _) = (_, _) |- _ => apply (f_equal snd) in H; cbn [snd] in H end.
    repeat match goal with H : Some _ = Some _ |- _ => apply (inj Some) in H end.
    unfold effective. f_equal.
    + apply skip_if_eq in Ef7 as [E _]. destruct (entity_type x), (entity_type y); done.
    + by apply approval_field_inj.
    + by injection Ef17.
    + by apply (faithful_inj (enc := thresholds_json)).
    + by apply skip_models_inj.
    + by apply (faithful_inj (enc := standardization_json) (eff := id)).
    + by apply (skip_empty_map_inj (list_json rule_json)).
    + by apply (faithful_inj (enc := map_json source_json)).
    + by apply (faithful_inj (enc := list_json blocking_json) (eff := id)).
    + apply skip_if_eq in Ef4 as [E Hv]. destruct (constraints_is_empty (constraints x)) eqn:Ec.
      * symmetry in E. apply bool_decide_eq_true in Ec as (? & ? & ?), E as (? & ? & ?).
        destruct (constraints x), (constraints y). simpl in *. congruence.
      * by apply (faithful_inj (enc := constraints_json) (eff := id)), Hv.
    + by apply (faithful_inj (enc := map_json comparison_json)).
    + apply skip_if_eq in Ef11 as [E Hv]. destruct (bool_decide (segments x = ∅)) eqn:Es.
      * symmetry in E. apply bool_decide_eq_true in Es, E. congruence.
      * by apply (faithful_inj (enc := map_json JString) (eff := id)), Hv.
    + apply skip_if_eq in Ef8 as [E Hv]. unfold features_is_empty in E, Hv.
      destruct (bool_decide (length (features_related x) = 0)) eqn:Ex.
      * symmetry in E. apply bool_decide_eq_true in Ex, E. apply nil_length_inv in Ex, E. congruence.
      * rewrite <- E in Hv. specialize (Hv eq_refl). simpl in Hv.
        apply object_inj in Hv; [|reflexivity|vm_compute; reflexivity].
        apply (f_equal head) in Hv. simpl in Hv. apply (inj Some), (f_equal snd) in Hv.
        cbn [snd] in Hv. apply (inj Some) in Hv.
        by apply (faithful_inj (enc := list_json related_json) (eff := id)).
    + by apply quality_field_inj.
    + by apply (faithful_inj (enc := map_json strings_json) (eff := id)).
    + by apply (skip_empty_map_inj group_json).
    + by apply (faithful_inj (enc := training_json)).
    + by apply (faithful_inj (enc := storage_json) (eff := id)).
    + by apply (faithful_inj (enc := versions_json) (eff := id)).
    + by injection Ef9.
    + by apply (faithful_inj (enc := clustering_json)).
    + by injection Ef2.
    + by injection Ef5.
Qed.

(** *** Normalisation *)

Lemma normalize_chain_last chain : last (normalize_chain chain) = Some TERMINAL_SURVIVORSHIP_RULE.
Proof. unfold normalize_chain. destruct (decide _); [done|apply last_snoc]. Qed.

Lemma normalize_comparison_levels c l : l ∈ cs_levels (normalize_comparison c) ↔ l ∈ cs_levels c ∧ is_Some l.
Proof. unfold normalize_comparison. simpl. rewrite list_elem_of_filter. tauto. Qed.

Lemma normalize_idemp c : normalize (normalize c) = normalize c.
Proof.
  unfold normalize. simpl. f_equal; rewrite <- map_fmap_compose; apply map_fmap_ext; intros k x _; simpl.
  - unfold normalize_comparison. simpl. f_equal. induction (cs_levels x) as [|[l|] ls IH]; [done| |].
    + rewrite !filter_cons_True by done. by f_equal.
    + by rewrite !(filter_cons_False _ None) by by intros [].
  - unfold normalize_chain at 1. by rewrite normalize_chain_last, decide_True.
Qed.

(** A tenant's document is read as a configuration normalised. *)
Lemma load_config_Ok from_yaml yaml c :
  load_config_str from_yaml yaml = Ok c → ∃ c0, from_yaml yaml = Some c0 ∧ c = normalize c0.
Proof. unfold load_config_str. destruct (from_yaml yaml); naive_solver. Qed.

(** *** SQL literals *)

(** How SQL reads a quoted literal: two quotes are one, a single one ends it. *)
Fixpoint read_body (s : string) : option (string * string) :=
  match s with
  | EmptyString => None
  | String c s' =>
      if decide (c = QUOTE) then
        match s' with
        | String c' s'' =>
            if decide (c' = QUOTE) then prod_map (String QUOTE) id <$> read_body s'' else Some ("", s')
        | EmptyString => Some ("", s')
        end
      else prod_map (String c) id <$> read_body s'
  end.

Definition read_literal (s : string) : option (string * string) :=
  match s with
  | String c s => if decide (c = QUOTE) then read_body s else None
  | EmptyString => None
  end.

Definition starts_with_quote (s : string) : bool :=
  match s with String c _ => bool_decide (c = QUOTE) | EmptyString => false end.

Lemma read_body_doubled v rest :
  starts_with_quote rest = false →
  read_body (double_quotes v +:+ String QUOTE rest) = Some (v, rest).
Proof.
  intros Hr. induction v as [|c v IH].
  - simpl. destruct rest as [|c rest]; [done|]. simpl in Hr. apply bool_decide_eq_false in Hr.
    by rewrite decide_False.
  - simpl. destruct (decide (c = QUOTE)) as [->|Hc].
    + simpl. by rewrite IH.
    + simpl. rewrite decide_False by done. by rewrite IH.
Qed.

Lemma read_lit v rest :
  starts_with_quote rest = false → read_literal (lit v +:+ rest) = Some (v, rest).
Proof.
  intros Hr. unfold lit. rewrite <- !str_app_assoc. simpl. by apply read_body_doubled.
Qed.

(** ** Properties *)

(** C21: two documents have one hash exactly when they agree on everything the
    pipeline reads of them, whatever null levels and closing survivorship rules
    they spell out: a blank approval tag, the order of a source's columns, the
    settings of a quality block that scores nothing and which non-number a
    number is do not count.  SHA-256 must not collide on the two, and the text
    of a JSON value must determine it. *)
Theorem config_hash_correct from_yaml json_text sha256 yaml yaml' c c' :
  digest_ok sha256 → (∀ v v', json_text v = json_text v' → v = v') →
  load_config_str from_yaml yaml = Ok c → load_config_str from_yaml yaml' = Ok c' →
  collision_free sha256 [canonical_document json_text c; canonical_document json_text c'] →
  (config_hash json_text sha256 c = config_hash json_text sha256 c' ↔ effective c = effective c')
  ∧ normalize c = c
  ∧ (∀ k s l, comparisons c !! k = Some s → l ∈ cs_levels s → is_Some l)
  ∧ (∀ k chain, survivorship c !! k = Some chain → last chain = Some TERMINAL_SURVIVORSHIP_RULE).
Proof.
  intros Hd Ht (c0 & _ & ->)%load_config_Ok _ Hcf. split_and!.
  - split.
    + intros E. apply (hash_hex_inj sha256 Hd _ _ _ Hcf) in E; [|left|right; left].
      apply Ht in E. by apply faithful_inj.
    + intros E. unfold config_hash, canonical_document. f_equal. f_equal.
      rewrite <- (faithful_eff (enc := config_value) (normalize c0)), E. apply faithful_eff.
  - apply normalize_idemp.
  - intros k s l Hk Hl. simpl in Hk. rewrite lookup_fmap in Hk.
    destruct (comparisons c0 !! k) as [s0|]; simpl in Hk; [|done]. injection Hk as <-.
    by apply normalize_comparison_levels in Hl as [_ ?].
  - intros k chain Hk. simpl in Hk. rewrite lookup_fmap in Hk.
    destruct (survivorship c0 !! k) as [ch|]; simpl in Hk; [|done]. injection Hk as <-.
    apply normalize_chain_last.
Qed.

(** ** A sample *)

(** A text that determines its value. *)
Module SampleText.
Definition leaf : Type := bool + Z + string + (bool + bool + (bool * positive * Z) + unit).

Definition float_leaf (f : spec_float) : bool + bool + (bool * positive * Z) + unit :=
  match f with
  | S754_zero s => inl (inl (inl s))
  | S754_infinity s => inl (inl (inr s))
  | S754_finite s m e => inl (inr (s, m, e))
  | S754_nan => inr ()
  end.

Fixpoint tree (v : json) : gen_tree leaf :=
  match v with
  | JNull => GenNode 0 []
  | JBool b => GenLeaf (inl (inl (inl b)))
  | JInt z => GenLeaf (inl (inl (inr z)))
  | JFloat f => GenLeaf (inr (float_leaf f))
  | JString s => GenLeaf (inl (inr s))
  | JArray l => GenNode 1 (map tree l)
  | JObject fields => GenNode 2 (map (λ p, GenNode 3 [GenLeaf (inl (inr p.1)); tree p.2]) fields)
  end.

Definition text (v : json) : string := pretty (encode (tree v)).

Lemma float_leaf_inj f f' : float_leaf f = float_leaf f' → f = f'.
Proof. destruct f, f'; simpl; congruence. Qed.

Fixpoint tree_inj (v v' : json) {struct v} : tree v = tree v' → v = v'.
Proof.
  destruct v as [|b|z|f|s|l|fields], v' as [|b'|z'|f'|s'|l'|fields']; simpl; intros E;
    try discriminate E; try (injection E as E; by f_equal).
  - done.
  - injection E as E. f_equal. by apply float_leaf_inj.
  - injection E as E. f_equal. revert l' E. induction l as [|x l IH]; intros [|x' l'] E; try discriminate E.
    + done.
    + simpl in E. injection E as E1 E2. f_equal; [by apply tree_inj|by apply IH].
  - injection E as E. f_equal. revert fields' E.
    induction fields as [|[k x] fs IH]; intros [|[k' x'] fs'] E; try discriminate E.
    + done.
    + simpl in E. injection E as E1 E2 E3. f_equal; [f_equal; [done|by apply tree_inj]|by apply IH].
Qed.

Lemma document_text_inj v v' : text v = text v' → v = v'.
Proof. unfold text. intros E%(inj pretty)%(inj encode). by apply tree_inj. Qed.
End SampleText.

Module SampleConfig.
Definition config (levels : list (option string)) (chain : list string) (tag : string) : Config :=
  mkConfig Person tag "acme" (mkThresholds (f64_of 1) (f64_of 0) None None) []
    (mkStandardization true [] "US") ∅
    {["crm" := mkSource "csv" 1 "id" "updated" "%Y" [("email", "mail"); ("phone", "tel")]]}
    [mkBlocking "email_exact" "email"] (mkConstraints [] [] [])
    {["email" := mkComparisonSpec levels true None Never]} ∅ [] data_quality_default
    {["email" := chain]} ∅
    (mkTraining [] (f64_of 1) 1000 7 default_sampling_method None default_num_chunks [] (mkTrainingEm true None))
    (mkStorage "data" "drop" "models") (mkVersions "1" "1" "1") 7 (mkClustering 10 (f64_of 1)) "noop" "weekly".

(** One text spells out a null level, the terminal rule and a blank tag. *)
Definition from_yaml (yaml : string) : option Config :=
  if decide (yaml = "short") then Some (config [Some "exact"] [] "")
  else if decide (yaml = "long")
  then Some (config [None; Some "exact"] [TERMINAL_SURVIVORSHIP_RULE] "  ")
  else None.
End SampleConfig.

Lemma config_hash_correct_witness :
  match load_config_str SampleConfig.from_yaml "short", load_config_str SampleConfig.from_yaml "long" with
  | Ok c, Ok c' =>
      config_hash SampleText.text SampleDigest.sha c = config_hash SampleText.text SampleDigest.sha c'
  | _, _ => False
  end.
Proof.
  destruct (load_config_str SampleConfig.from_yaml "short") as [c|] eqn:E; [|discriminate E].
  destruct (load_config_str SampleConfig.from_yaml "long") as [c'|] eqn:E'; [|discriminate E'].
  assert (canonical_document SampleText.text c = canonical_document SampleText.text c') as Hdoc.
  { assert (config_value c = config_value c') as Hv; [|unfold canonical_document; rewrite Hv; reflexivity].
    unfold load_config_str in E, E'. cbn in E, E'. injection E as <-. injection E' as <-. vm_compute. reflexivity. }
  apply (config_hash_correct SampleConfig.from_yaml SampleText.text SampleDigest.sha "short" "long" c c'
           SampleDigest.sha_ok SampleText.document_text_inj E E').
  - rewrite Hdoc. repeat constructor.
  - unfold load_config_str in E, E'. cbn in E, E'. injection E as <-. injection E' as <-. vm_compute. reflexivity.
Defined.
