(* ===== verification/Compile.v ===== *)
(** * The compiler of a tenant's matching rules

    [er-compile/src/lib.rs]: a configuration's comparisons, weights, null
    policies and constraints become the settings document the engine loads.
    [parse_f64] and [display] are the reading and the shortest text of an [f64],
    [exp2] the power of two. *)

From S2P Require Config Cron Dag.
From S2P Require Import Prelude Ids Json F64 F64Range Text SqlColumns EngineSettings EngineDocument.
From stdpp Require Import pretty.
From Stdlib Require Import Ascii.

#[local] Open Scope rust_scope.

(** ** Definitions *)

Inductive CompileError :=
| NoLevels (column : string)
| UnknownLevel (column level : string)
| BadLevelParameter (column level reason : string)
| WeightsNotHundred (total : string)
| WeightOutOfRange (column weight : string)
| ScaleOutOfRange (field value range reason : string).

(** [60.0], [0.2], [0.9]. *)
Definition DEFAULT_FULL_AGREEMENT_BITS : spec_float := f64_of 60.
Definition DEFAULT_DISAGREEMENT_RATIO : spec_float := lit64 7205759403792794 (-55).
Definition BASE_P : spec_float := lit64 8106479329266893 (-53).

Record CompileOptions := mkOptions { full_agreement_bits : spec_float; disagreement_ratio : spec_float }.

Definition default_options : CompileOptions :=
  mkOptions DEFAULT_FULL_AGREEMENT_BITS DEFAULT_DISAGREEMENT_RATIO.

Definition from_config (c : Config.Config) : CompileOptions :=
  mkOptions
    (default (full_agreement_bits default_options) (Config.th_full_agreement_bits (Config.thresholds c)))
    (default (disagreement_ratio default_options) (Config.th_disagreement_ratio (Config.thresholds c))).

(** *** Blocking predicates *)

Definition SQL_WORDS : list string :=
  ["and"; "or"; "not"; "null"; "case"; "when"; "then"; "else"; "end"; "true"; "false"; "is"; "like"; "between"].

Definition QUOTE : ascii := "'".
Definition DQUOTE : ascii := "034".

(** [out.push(byte as char)]: a byte past 127 is the character of that number,
    two bytes of UTF-8. *)
Definition push_char (c : ascii) : string :=
  let n := N_of_ascii c in
  if (n <? 128)%N then String c ""
  else String (ascii_of_N (192 + n / 64)) (String (ascii_of_N (128 + n mod 64)) "").

(** From inside a literal to past its closing quote: what is copied, what is
    left. *)
Fixpoint copy_literal (s : string) : string * string :=
  match s with
  | EmptyString => ("", "")
  | String c s' =>
      if decide (c = QUOTE) then
        match s' with
        | String c' s'' =>
            if decide (c' = QUOTE) then
              let '(copied, rest) := copy_literal s'' in (String c (String c' copied), rest)
            else (String c "", s')
        | EmptyString => (String c "", "")
        end
      else let '(copied, rest) := copy_literal s' in (push_char c +:+ copied, rest)
  end.

(** From inside a quoted identifier to past its closing quote. *)
Fixpoint span_quoted (s : string) : string * string :=
  match s with
  | EmptyString => ("", "")
  | String c s =>
      if decide (c = DQUOTE) then (String c "", s)
      else let '(taken, rest) := span_quoted s in (String c taken, rest)
  end.

Definition is_alpha (c : ascii) : bool := byte_in 65 90 c || byte_in 97 122 c.
Definition is_digit (c : ascii) : bool := byte_in 48 57 c.
Definition is_word_start (c : ascii) : bool := is_alpha c || bool_decide (c = "_"%char).
Definition is_word_char (c : ascii) : bool := is_alpha c || is_digit c || bool_decide (c = "_"%char).

Fixpoint span_word (s : string) : string * string :=
  match s with
  | EmptyString => ("", "")
  | String c s' =>
      if is_word_char c then let '(taken, rest) := span_word s' in (String c taken, rest) else ("", s)
  end.

Definition starts_with (c : ascii) (s : string) : bool :=
  match s with String c' _ => bool_decide (c' = c) | EmptyString => false end.

(** The word as it is written out; [after_dot] is whether a dot precedes it. *)
Definition qualify_word (side : ascii) (after_dot : bool) (word rest : string) : string :=
  let already_qualified := after_dot || starts_with "." rest in
  let is_call := starts_with "(" (trim_start 0 rest) in
  if already_qualified || is_call || bool_decide (to_ascii_lowercase word ∈ SQL_WORDS) then word
  else String side (String "." word).

(** The loop over the expression; every turn takes a byte at least. *)
Fixpoint qualify_loop (fuel : nat) (side : ascii) (after_dot : bool) (s : string) : option string :=
  match s, fuel with
  | EmptyString, _ => Some ""
  | _, 0 => None
  | String c s', S fuel =>
      if decide (c = QUOTE) then
        let '(copied, rest) := copy_literal s' in
        out ← qualify_loop fuel side false rest; Some (String c (copied +:+ out))
      else if decide (c = DQUOTE) then
        let '(taken, rest) := span_quoted s' in
        out ← qualify_loop fuel side false rest;
        Some (String side (String "." (String c (taken +:+ out))))
      else if is_word_start c then
        let '(word, rest) := span_word s in
        out ← qualify_loop fuel side false rest;
        Some (qualify_word side after_dot word rest +:+ out)
      else
        out ← qualify_loop fuel side (bool_decide (c = "."%char)) s';
        Some (push_char c +:+ out)
  end.

Definition qualify (expr : string) (side : ascii) : option string :=
  qualify_loop (String.length expr) side false expr.

Definition blocking_predicate (expr : string) : option string :=
  l ← qualify expr "l";
  r ← qualify expr "r";
  Some (l +:+ " = " +:+ r).

(** *** Constraints *)

Definition required_text (c : string) : string :=
  "(l." +:+ c +:+ " = r." +:+ c +:+ " AND l." +:+ c +:+ " IS NOT NULL AND r." +:+ c +:+ " IS NOT NULL)".

Definition veto_text (c : string) : string :=
  "NOT (l." +:+ c +:+ " IS NOT NULL AND r." +:+ c +:+ " IS NOT NULL AND l." +:+ c +:+ " <> r." +:+ c +:+ ")".

Definition exclude_text (c : string) : string :=
  "NOT (l." +:+ c +:+ " = r." +:+ c +:+ " AND l." +:+ c +:+ " IS NOT NULL AND r." +:+ c +:+ " IS NOT NULL)".

Definition constraint_conjuncts (c : Config.MatchConstraints) : list string :=
  (required_text <$> Config.required_match c) ++ (veto_text <$> Config.veto c)
  ++ (exclude_text <$> Config.exclude_when_equal c).

(** *** Levels *)

Record Level := mkCompiledLevel { level_sql : string; level_label : string }.

Definition side (column : string) (suffix : ascii) : string :=
  String DQUOTE (column +:+ "_" +:+ String suffix (String DQUOTE "")).

Definition parameter (column level : string) : result string CompileError :=
  match trim ∘ snd <$> split_once ":"%char level with
  | Some arg => if decide (arg = "") then Err (BadLevelParameter column level "expected a value after ':'") else Ok arg
  | None => Err (BadLevelParameter column level "expected a value after ':'")
  end.

Definition has_prefix (p s : string) : bool := match Text.strip_prefix p s with Some _ => true | None => false end.

(** [1e-300], [0.999_999_999], [0.001]. *)
Definition FLOOR : spec_float := lit64 6032057205060441 (-1049).
Definition CEIL : spec_float := lit64 9007199245733793 (-53).
Definition THOUSANDTH : spec_float := lit64 4611686018427388 (-62).

Section compile.
Context (parse_f64 : string → option spec_float) (display : spec_float → string)
        (exp2 : spec_float → spec_float).

Definition bad (column token reason : string) : CompileError := BadLevelParameter column token reason.

Definition f64_parameter (column token : string) : result spec_float CompileError :=
  arg <-? parameter column token;
  match parse_f64 arg with
  | Some x => Ok x
  | None => Err (bad column token (Dag.debug_str arg +:+ " is not a number"))
  end.

Definition u32_parameter (column token what : string) : result Z CompileError :=
  arg <-? parameter column token;
  match Cron.parse_u32 arg with
  | Some n => Ok n
  | None => Err (bad column token (Dag.debug_str arg +:+ " is not a whole number of " +:+ what))
  end.

Definition try_cast (x : string) : string := "try_cast(" +:+ x +:+ " AS DOUBLE)".

Definition numeric_present (l r : string) : string :=
  try_cast l +:+ " IS NOT NULL AND " +:+ try_cast r +:+ " IS NOT NULL AND ".

Definition difference (l r : string) : string := "abs(" +:+ try_cast l +:+ " - " +:+ try_cast r +:+ ")".

Definition largest (l r : string) : string :=
  "greatest(abs(" +:+ try_cast l +:+ "), abs(" +:+ try_cast r +:+ "))".

(** An equality that is its own label. *)
Definition self_labelled (sql : string) : Level := mkCompiledLevel sql sql.

Definition resolve_level (column token : string) : result Level CompileError :=
  let l := side column "l" in
  let r := side column "r" in
  if decide (token = "exact") then
    Ok (mkCompiledLevel (l +:+ " = " +:+ r) ("Exact match on " +:+ column))
  else if decide (token = "variant_match") then
    Ok (mkCompiledLevel ("array_length(list_intersect(" +:+ side "name_variants" "l" +:+ ", "
          +:+ side "name_variants" "r" +:+ ")) >= 1") "Array intersection size >= 1")
  else if decide (token = "username_exact") then
    Ok (self_labelled ("split_part(" +:+ column +:+ "_l,'@',1) = split_part(" +:+ column +:+ "_r,'@',1)"))
  else if decide (token = "domain_exact") then
    Ok (self_labelled ("split_part(" +:+ column +:+ "_l,'@',2) = split_part(" +:+ column +:+ "_r,'@',2)"))
  else if decide (token = "dob_same_year_month") then
    Ok (self_labelled ("date_trunc('month', " +:+ column +:+ "_l) = date_trunc('month', " +:+ column +:+ "_r)"))
  else if has_prefix "jaro_winkler:" token then
    threshold <-? f64_parameter column token;
    if negb (in_range (f64_of 0) (f64_of 1) threshold) then
      Err (bad column token "a Jaro-Winkler threshold is between 0 and 1")
    else
      Ok (mkCompiledLevel
            ("jaro_winkler_similarity(" +:+ l +:+ ", " +:+ r +:+ ") >= " +:+ display threshold)
            ("Jaro-Winkler distance of " +:+ column +:+ " >= " +:+ display threshold))
  else if has_prefix "levenshtein:" token then
    max <-? u32_parameter column token "edits";
    Ok (mkCompiledLevel ("levenshtein(" +:+ l +:+ ", " +:+ r +:+ ") <= " +:+ pretty max)
          ("Levenshtein distance of " +:+ column +:+ " <= " +:+ pretty max))
  else if has_prefix "first_n:" token then
    n <-? u32_parameter column token "characters";
    if (n =? 0)%Z then Err (bad column token "comparing the first 0 characters would match everything")
    else
      Ok (mkCompiledLevel
            ("substr(" +:+ l +:+ ", 1, " +:+ pretty n +:+ ") = substr(" +:+ r +:+ ", 1, " +:+ pretty n +:+ ")")
            ("First " +:+ pretty n +:+ " characters of " +:+ column +:+ " agree"))
  else if has_prefix "date_within_days:" token then
    days <-? u32_parameter column token "days";
    Ok (mkCompiledLevel ("abs(date_diff('day', " +:+ l +:+ ", " +:+ r +:+ ")) <= " +:+ pretty days)
          (column +:+ " within " +:+ pretty days +:+ " day(s)"))
  else if decide (token = "date_transposed") then
    Ok (mkCompiledLevel
          ("extract(year from " +:+ l +:+ ") = extract(year from " +:+ r
           +:+ ") AND extract(month from " +:+ l +:+ ") = extract(day from " +:+ r
           +:+ ") AND extract(day from " +:+ l +:+ ") = extract(month from " +:+ r +:+ ")")
          (column +:+ " with day and month transposed"))
  else if has_prefix "numeric_within:" token then
    tolerance <-? f64_parameter column token;
    if SFltb tolerance (f64_of 0) then Err (bad column token "a tolerance cannot be negative")
    else
      Ok (mkCompiledLevel (numeric_present l r +:+ difference l r +:+ " <= " +:+ display tolerance)
            (column +:+ " within " +:+ display tolerance))
  else if has_prefix "numeric_within_pct:" token then
    pct <-? f64_parameter column token;
    if negb (in_range (f64_of 0) (f64_of 100) pct) then
      Err (bad column token "a percentage tolerance is between 0 and 100")
    else
      Ok (mkCompiledLevel
            (numeric_present l r +:+ largest l r +:+ " > 0 AND " +:+ difference l r +:+ " / "
             +:+ largest l r +:+ " <= " +:+ display (f64_div pct (f64_of 100)))
            (column +:+ " within " +:+ display pct +:+ "%"))
  else if decide (token = "address_components") then
    Ok (mkCompiledLevel
          ("l.addr_number = r.addr_number AND l.addr_street = r.addr_street AND l.addr_postal = r.addr_postal"
           +:+ " AND l.addr_number IS NOT NULL AND l.addr_street IS NOT NULL")
          "Address number, street and postal code all agree")
  else Err (UnknownLevel column token).

(** *** Weights *)

Definition weights_to_probabilities (bits : spec_float) : spec_float * spec_float :=
  if SFleb (f64_of 0) bits then (BASE_P, f64_clamp (f64_div BASE_P (exp2 bits)) FLOOR CEIL)
  else (f64_clamp (f64_mul BASE_P (exp2 bits)) FLOOR CEIL, BASE_P).

Definition blank_level (sql label : string) (null : bool) : ComparisonLevelJson :=
  mkLevelJson sql (Some label) None None true true null None None None false [].

Definition weighted_level (sql label : string) (bits : spec_float) (tf : option string) :
    ComparisonLevelJson :=
  let '(m, u) := weights_to_probabilities bits in
  mkLevelJson sql (Some label) (Some m) (Some u) true true false tf None None false [].

(** [f64::from(u32::try_from(n).unwrap_or(1))]. *)
Definition f64_of_count (n : nat) : spec_float :=
  if (Z.of_nat n <? 2 ^ 32)%Z then f64_of (Z.of_nat n) else f64_of 1.

(** The levels of the null policy. *)
Definition null_levels (column : string) (policy : Config.NullPolicy) (weight : spec_float) (tokens : nat) :
    list ComparisonLevelJson :=
  let l := side column "l" in
  let r := side column "r" in
  let either := l +:+ " IS NULL OR " +:+ r +:+ " IS NULL" in
  let blank := f64_div weight (f64_of_count (tokens + 1)) in
  match policy with
  | Config.Never => [blank_level either (column +:+ " is NULL") true]
  | Config.BothBlankMatches =>
      [weighted_level (l +:+ " IS NULL AND " +:+ r +:+ " IS NULL") (column +:+ " blank on both sides") blank None;
       blank_level either (column +:+ " is NULL") true]
  | Config.EitherBlankMatches => [weighted_level either (column +:+ " blank on either side") blank None]
  end.

Definition level_bits (options : CompileOptions) (weight : spec_float) (n i : nat) : spec_float :=
  let share := f64_div (f64_sub (f64_of (Z.of_nat n)) (f64_of (Z.of_nat i))) (f64_of (Z.of_nat n)) in
  f64_mul (f64_mul (full_agreement_bits options) (f64_div weight (f64_of 100))) share.

(** The loop over the declared tokens, [i] of [n]. *)
Fixpoint token_levels (column : string) (tf : bool) (weight : spec_float) (options : CompileOptions)
    (n i : nat) (tokens : list string) : result (list ComparisonLevelJson) CompileError :=
  match tokens with
  | [] => Ok []
  | token :: tokens =>
      resolved <-? resolve_level column token;
      rest <-? token_levels column tf weight options n (S i) tokens;
      Ok (weighted_level (level_sql resolved) (level_label resolved) (level_bits options weight n i)
            (if tf && (i =? 0)%nat then Some column else None) :: rest)
  end.

Definition against_bits (options : CompileOptions) (weight : spec_float) : spec_float :=
  f64_mul (f64_mul (SFopp (full_agreement_bits options)) (f64_div weight (f64_of 100)))
    (disagreement_ratio options).

Definition compile_comparison (column : string) (spec : Config.ComparisonSpec) (weight : spec_float)
    (options : CompileOptions) : result ComparisonJson CompileError :=
  let tokens := omap id (Config.cs_levels spec) in
  match tokens with
  | [] => Err (NoLevels column)
  | _ =>
      declared <-? token_levels column (Config.cs_tf spec) weight options (length tokens) 0 tokens;
      Ok (mkComparisonJson column
            (null_levels column (Config.cs_null_policy spec) weight (length tokens) ++ declared
             ++ [weighted_level "ELSE" "All other comparisons" (against_bits options weight) None])
            (Some (column +:+ " (compiled from the tenant config)")) [])
  end.

Definition check_scale (options : CompileOptions) : result unit CompileError :=
  let bits := full_agreement_bits options in
  let ratio := disagreement_ratio options in
  if negb (is_finite bits && SFltb (f64_of 0) bits) then
    Err (ScaleOutOfRange "full_agreement_bits" (display bits) "0 exclusive to 1000"
           "at zero no pair ever accumulates enough evidence to merge, and the run reports no duplicates rather than a miscalibration")
  else if SFltb (f64_of 1000) bits then
    Err (ScaleOutOfRange "full_agreement_bits" (display bits) "0 exclusive to 1000"
           "the calibrating grid search found 120 bits already merging distinct records, so this would merge the whole corpus")
  else if negb (is_finite ratio && SFleb (f64_of 0) ratio) then
    Err (ScaleOutOfRange "disagreement_ratio" (display ratio) "0 to 1 inclusive"
           "a negative cost would make a MISMATCHED field evidence in favour of the pair, so the model would work backwards")
  else if SFltb (f64_of 1) ratio then
    Err (ScaleOutOfRange "disagreement_ratio" (display ratio) "0 to 1 inclusive"
           "above 1 a single mismatch outweighs the agreement it is weighed against, so no record with one bad field can ever match")
  else Ok tt.

(** The declared weights, in key order. *)
Definition declared_weights (cs : gmap string Config.ComparisonSpec) : list (string * spec_float) :=
  omap (λ '(c, s), (c,.) <$> Config.cs_weight s) (map_sorted cs).

Fixpoint weights_in_range (l : list (string * spec_float)) : result unit CompileError :=
  match l with
  | [] => Ok tt
  | (c, w) :: l =>
      if in_range (f64_of 0) (f64_of 100) w then weights_in_range l else Err (WeightOutOfRange c (display w))
  end.

(** [iter().sum()], which starts from negative zero. *)
Definition sum_weights (l : list spec_float) : spec_float := foldl f64_add (S754_zero true) l.

Definition resolve_weights (cs : gmap string Config.ComparisonSpec) :
    result (gmap string spec_float) CompileError :=
  match declared_weights cs with
  | [] => Ok ((λ _, f64_div (f64_of 100) (f64_of (Z.of_nat (size cs)))) <$> cs)
  | declared =>
      _ <-? weights_in_range declared;
      let total := sum_weights (snd <$> declared) in
      if negb (bool_decide (length declared = size cs))
         || SFltb THOUSANDTH (SFabs (f64_sub total (f64_of 100)))
      then Err (WeightsNotHundred (display total))
      else Ok (map_collect declared)
  end.

(** *** The model *)

Record Compiled := mkCompiled { model_json : string; notes : list string }.

Fixpoint compile_comparisons (weights : gmap string spec_float) (options : CompileOptions)
    (l : list (string * Config.ComparisonSpec)) : result (list ComparisonJson) CompileError :=
  match l with
  | [] => Ok []
  | (column, spec) :: l =>
      c <-? compile_comparison column spec (default (f64_of 0) (weights !! column)) options;
      cs <-? compile_comparisons weights options l;
      Ok (c :: cs)
  end.

Definition compile_rule (conjuncts : list string) (b : Config.BlockingRule) : option BlockingRuleJson :=
  predicate ← blocking_predicate (Config.expr b);
  Some (BrDetailed (String.concat " AND " (predicate :: conjuncts)) (Some "duckdb") [] []).

Definition compiled_settings (rules : list BlockingRuleJson) (cs : list ComparisonJson) : SettingsJson :=
  mkSettingsJson DedupeOnly d_prior true false [] (Some "duckdb") None d_em_convergence 25 "mw_" "tf_" "gamma_"
    "record_key" "source_dataset" rules cs [].

Definition policy_debug (p : Config.NullPolicy) : string :=
  match p with
  | Config.Never => "Never" | Config.BothBlankMatches => "BothBlankMatches"
  | Config.EitherBlankMatches => "EitherBlankMatches"
  end.

Definition scale_note (c : Config.Config) (options : CompileOptions) : string :=
  let t := Config.thresholds c in
  let provenance :=
    match Config.th_full_agreement_bits t, Config.th_disagreement_ratio t with
    | None, None =>
        "a global default calibrated on the person reference model, not a measurement of your data — `er train` reports the bits your own corpus supports, and `thresholds.full_agreement_bits` is where to set them"
    | _, _ => "declared by this config"
    end in
  "score scale: a field at full agreement is worth " +:+ fmt_fixed 0 (full_agreement_bits options)
  +:+ " bits of evidence, divided among the " +:+ pretty (size (Config.comparisons c))
  +:+ " comparison(s), and a disagreement costs "
  +:+ fmt_fixed 0 (f64_mul (disagreement_ratio options) (f64_of 100))
  +:+ "% of what an agreement earns. This is " +:+ provenance.

Definition share_note (c : Config.Config) : list string :=
  let n := size (Config.comparisons c) in
  if forallb (λ p, match Config.cs_weight p.2 with None => true | Some _ => false end)
       (map_sorted (Config.comparisons c))
  then ["no weights declared: the " +:+ pretty n +:+ " comparisons share the score equally ("
        +:+ fmt_fixed 1 (f64_div (f64_of 100) (f64_of (Z.of_nat n))) +:+ "% each)"]
  else [].

Definition policy_notes (c : Config.Config) : list string :=
  omap (λ '(column, spec),
          if decide (Config.cs_null_policy spec = Config.Never) then None
          else Some ("comparisons." +:+ column +:+ " treats blanks as evidence ("
                     +:+ policy_debug (Config.cs_null_policy spec)
                     +:+ "); the default is to treat a missing value as no evidence at all"))
    (map_sorted (Config.comparisons c)).

Definition constraint_note (conjuncts : list string) : list string :=
  match conjuncts with
  | [] => []
  | _ => [pretty (length conjuncts)
          +:+ " hard constraint(s) are enforced during candidate generation, so a violating pair is never scored at all: "
          +:+ String.concat " AND " conjuncts]
  end.

Definition declared_note : string :=
  "parameters are DECLARED, not estimated: every level is pinned (fix_m/fix_u) so a later training pass mints a new version instead of moving this one's numbers".

(** [compile_with]'s settings, and [None] for fuel that runs out. *)
Definition settings_of (c : Config.Config) (options : CompileOptions) :
    option (result SettingsJson CompileError) :=
  rules ← mapM (compile_rule (constraint_conjuncts (Config.constraints c))) (Config.blocking c);
  Some (_ <-? check_scale options;
        weights <-? resolve_weights (Config.comparisons c);
        cs <-? compile_comparisons weights options (map_sorted (Config.comparisons c));
        Ok (compiled_settings rules cs)).

Definition compile_with (pretty_text : json → string) (c : Config.Config) (options : CompileOptions) :
    option (result Compiled CompileError) :=
  settings ← settings_of c options;
  Some (s <-? settings;
        Ok (mkCompiled (to_json_string_pretty pretty_text s)
              (share_note c ++ [scale_note c options] ++ policy_notes c
               ++ constraint_note (constraint_conjuncts (Config.constraints c)) ++ [declared_note]))).

Definition compile (pretty_text : json → string) (c : Config.Config) :
    option (result Compiled CompileError) :=
  compile_with pretty_text c (from_config c).
End compile.

(** ** Specification *)

(** *** SQL's conditions on a pair *)

(** [true] is the left record. *)
Inductive Cond :=
| Equal (column : string)
| Differ (column : string)
| NotNull (on_left : bool) (column : string)
| All (first : Cond) (rest : list Cond)
| Neg (c : Cond).

Definition alias (on_left : bool) : string := if on_left then "l." else "r.".

Fixpoint render (c : Cond) : string :=
  match c with
  | Equal x => "l." +:+ x +:+ " = r." +:+ x
  | Differ x => "l." +:+ x +:+ " <> r." +:+ x
  | NotNull on_left x => alias on_left +:+ x +:+ " IS NOT NULL"
  | All c cs => "(" +:+ render c +:+ foldr (λ c s, " AND " +:+ render c +:+ s) "" cs +:+ ")"
  | Neg c => "NOT " +:+ render c
  end.

(** The conjunction and the negation of SQL, [None] for its null. *)
Definition sql_and (a b : option bool) : option bool :=
  match a, b with
  | Some false, _ | _, Some false => Some false
  | Some true, Some true => Some true
  | _, _ => None
  end.

Section conditions.
Context {V : Type} `{EqDecision V}.

(** A record: the value of a column, none for a null. *)
Definition row : Type := string → option V.

Definition sql_eq (a b : option V) : option bool :=
  match a, b with Some x, Some y => Some (bool_decide (x = y)) | _, _ => None end.

Fixpoint holds (l r : row) (c : Cond) : option bool :=
  match c with
  | Equal x => sql_eq (l x) (r x)
  | Differ x => negb <$> sql_eq (l x) (r x)
  | NotNull on_left x => Some (match (if on_left then l else r) x with Some _ => true | None => false end)
  | All c cs => foldl (λ a c, sql_and a (holds l r c)) (holds l r c) cs
  | Neg c => negb <$> holds l r c
  end.

(** What the constraints of a configuration allow. *)
Record allowed (c : Config.MatchConstraints) (l r : row) : Prop := {
  al_required : ∀ x, x ∈ Config.required_match c → ∃ v, l x = Some v ∧ r x = Some v;
  al_veto : ∀ x v w, x ∈ Config.veto c → l x = Some v → r x = Some w → v = w;
  al_exclude : ∀ x v, x ∈ Config.exclude_when_equal c → l x = Some v → r x ≠ Some v;
}.
End conditions.

Arguments row : clear implicits.

Definition present_both (x : string) : list Cond := [NotNull true x; NotNull false x].
Definition required_cond (x : string) : Cond := All (Equal x) (present_both x).
Definition veto_cond (x : string) : Cond := Neg (All (NotNull true x) [NotNull false x; Differ x]).
Definition exclude_cond (x : string) : Cond := Neg (All (Equal x) (present_both x)).

Definition conditions (c : Config.MatchConstraints) : list Cond :=
  (required_cond <$> Config.required_match c) ++ (veto_cond <$> Config.veto c)
  ++ (exclude_cond <$> Config.exclude_when_equal c).

(** *** Numbers *)

(** The numbers of a configuration are the hardware's and its vectors fit in
    memory. *)
Record representable (c : Config.Config) (options : CompileOptions) : Prop := {
  re_bits : fits64 (full_agreement_bits options);
  re_ratio : fits64 (disagreement_ratio options);
  re_weight : ∀ x spec w, Config.comparisons c !! x = Some spec → Config.cs_weight spec = Some w → fits64 w;
  re_size : (Z.of_nat (size (Config.comparisons c)) < 2 ^ 53)%Z;
  re_levels : ∀ x spec, Config.comparisons c !! x = Some spec →
    (Z.of_nat (length (Config.cs_levels spec)) < 2 ^ 53)%Z;
}.

Definition scale_ok (o : CompileOptions) : Prop :=
  SFltb (f64_of 0) (full_agreement_bits o) = true ∧ SFleb (full_agreement_bits o) (f64_of 1000) = true
  ∧ in_range (f64_of 0) (f64_of 1) (disagreement_ratio o) = true.

(** No weight is declared, or every one is and they total a hundred. *)
Definition weights_ok (cs : gmap string Config.ComparisonSpec) : Prop :=
  declared_weights cs = []
  ∨ Forall (λ p, in_range (f64_of 0) (f64_of 100) p.2 = true) (declared_weights cs)
    ∧ length (declared_weights cs) = size cs
    ∧ SFltb THOUSANDTH (SFabs (f64_sub (sum_weights (snd <$> declared_weights cs)) (f64_of 100))) = false.

Definition comparison_ok (parse_f64 : string → option spec_float) (display : spec_float → string)
    (x : string) (spec : Config.ComparisonSpec) : Prop :=
  omap id (Config.cs_levels spec) ≠ []
  ∧ ∀ token, Some token ∈ Config.cs_levels spec →
      ∃ l, resolve_level parse_f64 display x token = Ok l.

(** The parser reads the text of every level. *)
Definition readable (parse : string → result Expr string) (to_lowercase : string → string)
    (s : SettingsJson) : Prop :=
  ∀ cj lj, cj ∈ sj_comparisons s → lj ∈ cj_levels cj → lj_sql_condition lj ≠ "ELSE" →
    ∃ e, parse (lj_sql_condition lj) = Ok e ∧ exact_loop to_lowercase [] (SqlColumns.conjuncts e) ≠ None.

(** ** Lemmas *)

(** *** The blocking predicate *)

Lemma copy_literal_length n : ∀ s, String.length s ≤ n → String.length (copy_literal s).2 ≤ String.length s.
Proof.
  induction n as [|n IH]; intros [|c s] Hn; simpl in *; [lia..|lia|].
  destruct (decide _).
  - destruct s as [|c' s]; simpl in *; [lia|]. destruct (decide _); simpl; [|lia].
    specialize (IH s ltac:(lia)). destruct (copy_literal s); simpl in *; lia.
  - specialize (IH s ltac:(lia)). destruct (copy_literal s); simpl in *; lia.
Qed.

Lemma span_quoted_length s : String.length (span_quoted s).2 ≤ String.length s.
Proof.
  induction s as [|c s IH]; simpl; [lia|]. destruct (decide _); simpl; [lia|].
  destruct (span_quoted s); simpl in *; lia.
Qed.

Lemma span_word_length s : String.length (span_word s).2 ≤ String.length s.
Proof.
  induction s as [|c s IH]; simpl; [lia|]. destruct (is_word_char c); simpl; [|lia].
  destruct (span_word s); simpl in *; lia.
Qed.

Lemma word_start_char c : is_word_start c = true → is_word_char c = true.
Proof. unfold is_word_start, is_word_char. destruct (is_alpha c), (is_digit c); simpl; done. Qed.

Lemma qualify_loop_total sd n : ∀ dot s, String.length s ≤ n → is_Some (qualify_loop n sd dot s).
Proof.
  induction n as [|n IH]; intros dot [|c s] Hn; simpl in *; try solve [by eexists|lia].
  destruct (decide _).
  { pose proof (copy_literal_length _ s (le_n _)). destruct (copy_literal s) as [t rest]; simpl in *.
    destruct (IH false rest) as [out ->]; [lia|]. by eexists. }
  destruct (decide _).
  { pose proof (span_quoted_length s). destruct (span_quoted s) as [t rest]; simpl in *.
    destruct (IH false rest) as [out ->]; [lia|]. by eexists. }
  destruct (is_word_start c) eqn:Ew.
  { rewrite (word_start_char c Ew). pose proof (span_word_length s).
    destruct (span_word s) as [t rest]; simpl in *. destruct (IH false rest) as [out ->]; [lia|]. by eexists. }
  destruct (IH (bool_decide (c = "."%char)) s) as [out ->]; [lia|]. by eexists.
Qed.

Lemma blocking_predicate_total e : is_Some (blocking_predicate e).
Proof.
  unfold blocking_predicate, qualify.
  destruct (qualify_loop_total "l" _ false e (le_n _)) as [l ->].
  destruct (qualify_loop_total "r" _ false e (le_n _)) as [r ->]. by eexists.
Qed.

Lemma settings_of_total parse_f64 display exp2 c options :
  is_Some (settings_of parse_f64 display exp2 c options).
Proof.
  unfold settings_of. set (ks := constraint_conjuncts _).
  assert (is_Some (mapM (compile_rule ks) (Config.blocking c))) as [rules ->]; [|by eexists].
  apply mapM_is_Some_2, Forall_true. intros b. unfold compile_rule. simpl.
  destruct (blocking_predicate_total (Config.expr b)) as [p ->]. by eexists.
Qed.

(** *** The texts of the levels *)

(** A text that is not [ELSE] by its first character, or by its second. *)
Lemma not_else a s : word_char a → ascii_lower a ≠ "e"%char → is_else_condition (String a s) = false.
Proof.
  intros Ha Hne. unfold is_else_condition, trim. rewrite trim_start_word by done.
  cbn [trim_end]. rewrite trim_start_word by done. apply bool_decide_eq_false.
  cbn [to_ascii_lowercase]. congruence.
Qed.

Lemma not_else_second a b s :
  word_char a → ascii_lower b ≠ "l"%char → is_else_condition (String a (String b s)) = false.
Proof.
  intros Ha Hb. unfold is_else_condition, trim. rewrite trim_start_word by done.
  cbn [trim_end]. rewrite trim_start_word by done. apply bool_decide_eq_false. intros H.
  cbn [to_ascii_lowercase] in H. injection H as _ H.
  destruct (match _ with EmptyString => _ | _ => _ end) as [|d t] eqn:E; [done|].
  cbn [to_ascii_lowercase] in H. injection H as H _.
  destruct (match _ with 0 => _ | S _ => _ end); [done|]. injection E as <- _. congruence.
Qed.

Ltac not_else_text :=
  first [apply not_else; [by split|by vm_compute]|apply not_else_second; [by split|by vm_compute]].

Lemma resolve_level_text parse_f64 display x token l :
  resolve_level parse_f64 display x token = Ok l → is_else_condition (level_sql l) = false.
Proof.
  unfold resolve_level, self_labelled. intros H.
  repeat match type of H with
         | (if ?d then _ else _) = _ => destruct d
         | (_ <-? ?m; _) = _ => destruct m; [|done]
         | Err _ = Ok _ => done
         | Ok _ = Ok _ => injection H as <-; cbn; not_else_text
         end.
Qed.

(** *** The numbers of the levels *)

Lemma weights_to_probabilities_range exp2 bits :
  (∀ x, is_nan x = false → is_nan (exp2 x) = false) → is_nan bits = false →
  in_range M_U_CLAMP_MIN EngineSettings.one (weights_to_probabilities exp2 bits).1 = true
  ∧ in_range M_U_CLAMP_MIN EngineSettings.one (weights_to_probabilities exp2 bits).2 = true.
Proof.
  intros He Hb. unfold weights_to_probabilities.
  assert (∀ x, is_nan x = false → in_range M_U_CLAMP_MIN EngineSettings.one (f64_clamp x FLOOR CEIL) = true) as Hc.
  { intros x Hx. apply (in_range_widen FLOOR CEIL); [|by vm_compute..]. by apply f64_clamp_range; [|vm_compute]. }
  assert (in_range M_U_CLAMP_MIN EngineSettings.one BASE_P = true) as Hp by by vm_compute.
  destruct (SFleb _ bits); (split; simpl; [try exact Hp|try exact Hp]); apply Hc.
  - apply div_lit_not_nan, He, Hb.
  - apply mul_lit_not_nan, He, Hb.
Qed.

(** A weight: no more than two to the sixtieth. *)
Definition weight_below : spec_float → Prop := below 60.

Lemma count_exact c options x spec :
  representable c options → Config.comparisons c !! x = Some spec →
  ∃ m e, f64_of (Z.of_nat (size (Config.comparisons c))) = S754_finite false m e ∧ (-52 ≤ e)%Z.
Proof.
  intros Hr Hx. destruct (f64_of_exact (Z.of_nat (size (Config.comparisons c)))) as (m & e & E & He & _).
  { split; [|by apply re_size in Hr]. enough (size (Config.comparisons c) ≠ 0) by lia.
    intros Hs%map_size_empty_iff. by rewrite Hs in Hx. }
  by exists m, e.
Qed.

Lemma declared_weight_in cs x w :
  (x, w) ∈ declared_weights cs → ∃ spec, cs !! x = Some spec ∧ Config.cs_weight spec = Some w.
Proof.
  unfold declared_weights. rewrite list_elem_of_omap. intros ([y spec] & Hin & H).
  apply elem_of_map_sorted in Hin. destruct (Config.cs_weight spec) eqn:E; [|done].
  simplify_eq/=. by exists spec.
Qed.

Lemma weights_in_range_Ok display l :
  weights_in_range display l = Ok tt ↔ Forall (λ p, in_range (f64_of 0) (f64_of 100) p.2 = true) l.
Proof.
  induction l as [|[x w] l IH]; simpl; [split; [constructor|done]|].
  rewrite Forall_cons. simpl. destruct (in_range _ _ w); [rewrite IH; naive_solver|naive_solver].
Qed.

Lemma resolve_weights_Ok display cs :
  (∃ ws, resolve_weights display cs = Ok ws) ↔ weights_ok cs.
Proof.
  unfold resolve_weights, weights_ok. destruct (declared_weights cs) as [|p l] eqn:Ed; [naive_solver|].
  rewrite <-(weights_in_range_Ok display).
  destruct (weights_in_range _ _) as [[]|] eqn:Ew; [|naive_solver].
  destruct (bool_decide (length (p :: l) = size cs)) eqn:En; [apply bool_decide_eq_true in En|apply bool_decide_eq_false in En];
    destruct (SFltb _ _) eqn:Et; simpl; naive_solver.
Qed.

Lemma resolve_weights_below display c options ws x :
  representable c options → resolve_weights display (Config.comparisons c) = Ok ws →
  weight_below (default (f64_of 0) (ws !! x)).
Proof.
  intros Hr Hw. unfold weight_below. destruct (ws !! x) as [w|] eqn:Ex; [|by vm_compute].
  unfold resolve_weights in Hw. cbn [default].
  destruct (declared_weights _) as [|p l] eqn:Ed.
  - injection Hw as <-. apply lookup_fmap_Some in Ex as (spec & <- & Hx).
    destruct (count_exact c options x spec Hr Hx) as (m & e & -> & He).
    by apply (div_below 7 (-52) (f64_of 100)).
  - destruct (weights_in_range _ _) as [[]|] eqn:Ew; [|done]. apply weights_in_range_Ok in Ew.
    simpl in Hw. destruct (_ || _); [done|]. injection Hw as <-.
    apply map_collect_elem_of in Ex. rewrite <-Ed in Ex, Ew.
    destruct (declared_weight_in _ _ _ Ex) as (spec & Hx & Hs).
    rewrite Forall_forall in Ew. specialize (Ew _ Ex). simpl.
    apply (below_mono (53 + -46)); [|done].
    apply (in_range_below 7036874417766400 (-46)); [exact Ew|]. by eapply re_weight.
Qed.

#[local] Arguments f64_of : simpl never.

Lemma check_scale_Ok display o : check_scale display o = Ok tt ↔ scale_ok o.
Proof.
  unfold check_scale, scale_ok, in_range. set (b := full_agreement_bits o). generalize (disagreement_ratio o). clearbody b. intros r.
  assert (∀ x k, is_nan x = false → (SFleb x (f64_of k) = true ↔ SFltb (f64_of k) x = false)) as Hge.
  { intros x k Hx. symmetry. apply SFltb_ge; [|done].
    unfold f64_of, binary_normalize, binary_round. destruct k; [done|..]; destruct (shl_align _ _ _);
      apply round_aux_not_nan; lia. }
  destruct (is_finite b && SFltb (f64_of 0) b) eqn:Eb; simpl.
  2:{ split; [done|]. intros (H0 & H1 & _). rewrite H0, andb_true_r in Eb.
      destruct b as [| [] | |]; done || by vm_compute in H0, H1. }
  apply andb_true_iff in Eb as [Hb ->]. rewrite Hge by by apply is_finite_not_nan.
  destruct (SFltb (f64_of 1000) b); simpl; [naive_solver|].
  destruct (is_finite r && SFleb (f64_of 0) r) eqn:Er; simpl.
  2:{ split; [done|]. intros (_ & _ & H). destruct (SFleb (f64_of 0) r) eqn:E0; [|done].
      rewrite andb_true_r in Er. destruct r as [| [] | |]; done || by vm_compute in E0, H. }
  apply andb_true_iff in Er as [Hr ->]. simpl. rewrite Hge by by apply is_finite_not_nan.
  destruct (SFltb _ r); naive_solver.
Qed.

Lemma full_bits_below o : scale_ok o → fits64 (full_agreement_bits o) → below 10 (full_agreement_bits o).
Proof.
  intros (H0 & H1 & _) Hf. apply (in_range_below 8796093022208000 (-43)); [|done].
  unfold in_range. rewrite (SFltb_le _ _ H0). exact H1.
Qed.

Lemma ratio_below o : scale_ok o → fits64 (disagreement_ratio o) → below 1 (disagreement_ratio o).
Proof. intros (_ & _ & H) Hf. by apply (in_range_below 4503599627370496 (-52)). Qed.

Lemma field_bits_below b w : below 10 b → weight_below w → below 118 (f64_mul b (f64_div w (f64_of 100))).
Proof.
  intros Hb Hw. apply (mul_below 10 107); [done| |done]. by apply (div_below 60 (-46)).
Qed.

Lemma level_bits_finite o w n i :
  scale_ok o → fits64 (full_agreement_bits o) → weight_below w → i < n → (Z.of_nat n < 2 ^ 53)%Z →
  is_nan (level_bits o w n i) = false.
Proof.
  intros Hs Hf Hw Hi Hn. destruct (f64_of_exact (Z.of_nat n)) as (m & e & En & He & Hd); [lia|].
  apply is_finite_not_nan, (below_finite (118 + 108 + 1)). unfold level_bits. rewrite En.
  apply mul_below; [|apply (div_below 55 (-52)); [|done..]|done].
  - by apply field_bits_below; [apply full_bits_below|].
  - apply (sub_below 53); [|apply f64_of_below; lia|done]. exact Hd.
Qed.

Lemma against_bits_finite o w :
  scale_ok o → fits64 (full_agreement_bits o) → fits64 (disagreement_ratio o) → weight_below w →
  is_nan (against_bits o w) = false.
Proof.
  intros Hs Hf Hr Hw. apply is_finite_not_nan, (below_finite (118 + 1 + 1)). unfold against_bits.
  apply mul_below; [|by apply ratio_below|done].
  apply field_bits_below; [|done]. by apply below_opp, full_bits_below.
Qed.

Lemma blank_bits_finite w n : weight_below w → is_nan (f64_div w (f64_of_count (S n))) = false.
Proof.
  intros Hw. apply is_finite_not_nan, (below_finite (60 - -52 + 1)). unfold f64_of_count.
  destruct (Z.ltb_spec (Z.of_nat (S n)) (2 ^ 32)) as [Hn|Hn].
  - destruct (f64_of_exact (Z.of_nat (S n))) as (m & e & -> & He & _); [lia|]. by apply div_below.
  - by apply (div_below 60 (-52)).
Qed.

(** *** The comparisons *)

(** A level with the numbers the engine takes, pinned. *)
Record sound_level (lj : ComparisonLevelJson) : Prop := {
  so_m : prob_ok (lj_m_probability lj);
  so_u : prob_ok (lj_u_probability lj);
  so_fix_m : lj_fix_m lj = true;
  so_fix_u : lj_fix_u lj = true;
  so_document : level_document lj;
}.

Lemma extra_ok_nil known : extra_ok known [].
Proof. split; [constructor|]. by intros k ?%elem_of_nil. Qed.

Lemma prob_ok_finite o : prob_ok o → finite_opt o.
Proof. intros H x Hx. by apply in_range_finite, H. Qed.

Lemma blank_level_sound sql label null : sound_level (blank_level sql label null).
Proof. split; [done..|]. split; try done. apply extra_ok_nil. Qed.

Lemma weighted_level_fields exp2 sql label bits tf :
  lj_sql_condition (weighted_level exp2 sql label bits tf) = sql
  ∧ lj_is_null_level (weighted_level exp2 sql label bits tf) = false.
Proof. unfold weighted_level. by destruct (weights_to_probabilities exp2 bits). Qed.

(** The levels of a comparison but the last. *)
Record sound_init (init : list ComparisonLevelJson) : Prop := {
  si_sound : Forall sound_level init;
  si_else : Forall (λ lj, is_else_condition (lj_sql_condition lj) = false) init;
}.

(** A comparison the engine takes: the catch-all is its last level. *)
Record sound_comparison (cj : ComparisonJson) : Prop := {
  sc_levels : ∃ init last, cj_levels cj = init ++ [last]
    ∧ sound_init init ∧ Exists (λ lj, lj_is_null_level lj = false) init
    ∧ sound_level last ∧ lj_sql_condition last = "ELSE" ∧ lj_is_null_level last = false;
  sc_extra : cj_extra cj = [];
}.

Lemma sound_init_app l k : sound_init l → sound_init k → sound_init (l ++ k).
Proof. intros [] []. split; by apply Forall_app. Qed.

Lemma sound_init_cons lj l :
  sound_level lj → is_else_condition (lj_sql_condition lj) = false → sound_init l → sound_init (lj :: l).
Proof. intros ?? []. by split; constructor. Qed.

Section comparisons.
Context (parse_f64 : string → option spec_float) (display : spec_float → string)
        (exp2 : spec_float → spec_float).
Context (Hexp2 : ∀ x, is_nan x = false → is_nan (exp2 x) = false).

Lemma weighted_level_sound sql label bits tf :
  is_nan bits = false → sound_level (weighted_level exp2 sql label bits tf).
Proof.
  intros Hb. destruct (weights_to_probabilities_range exp2 bits Hexp2 Hb) as [Hm Hu].
  unfold weighted_level. destruct (weights_to_probabilities exp2 bits) as [m u].
  assert (prob_ok (Some m) ∧ prob_ok (Some u)) as [Pm Pu]
    by (split; [intros v [= <-]; exact Hm|intros v [= <-]; exact Hu]).
  split; [done..|]. split; [by apply prob_ok_finite..|done|done|apply extra_ok_nil].
Qed.

Lemma null_levels_sound x policy w n :
  weight_below w → sound_init (null_levels exp2 x policy w n).
Proof.
  intros Hw. pose proof (blank_bits_finite w n Hw) as Hb. unfold null_levels.
  rewrite Nat.add_1_r. set (either := _ +:+ " IS NULL OR " +:+ _).
  assert (is_else_condition either = false) as He by (cbn; not_else_text).
  destruct policy; repeat first
    [apply sound_init_cons|by split; constructor|apply blank_level_sound|by apply weighted_level_sound];
    rewrite ?(proj1 (weighted_level_fields _ _ _ _ _)); first [exact He|cbn; not_else_text].
Qed.

Lemma token_levels_Ok x tf w o n i tokens :
  (∃ ls, token_levels parse_f64 display exp2 x tf w o n i tokens = Ok ls)
  ↔ Forall (λ t, ∃ l, resolve_level parse_f64 display x t = Ok l) tokens.
Proof.
  revert i. induction tokens as [|t tokens IH]; intros i; simpl; [split; [constructor|by eexists]|].
  rewrite Forall_cons, <-(IH (S i)). destruct (resolve_level _ _ _ _); [|naive_solver].
  destruct (token_levels _ _ _ _ _ _ _ _ _ _); naive_solver.
Qed.

Lemma token_levels_sound x tf w o n i tokens ls :
  scale_ok o → fits64 (full_agreement_bits o) → weight_below w → (Z.of_nat n < 2 ^ 53)%Z →
  i + length tokens ≤ n → token_levels parse_f64 display exp2 x tf w o n i tokens = Ok ls →
  sound_init ls ∧ length ls = length tokens ∧ Forall (λ lj, lj_is_null_level lj = false) ls.
Proof.
  intros Hs Hf Hw Hn. revert i ls. induction tokens as [|t tokens IH]; intros i ls Hi; simpl.
  { intros [= <-]. split_and!; by constructor. }
  destruct (resolve_level _ _ _ t) as [l|] eqn:Et; [|done]. simpl in Hi.
  destruct (token_levels _ _ _ _ _ _ _ _ (S i) _) as [rest|] eqn:Er; [|done]. intros [= <-].
  destruct (IH (S i) rest ltac:(lia) Er) as (Hrest & Hl & Hnull). split_and!; [|simpl; lia|].
  - apply sound_init_cons; [| |done].
    + apply weighted_level_sound, level_bits_finite; [done..|lia|done].
    + rewrite (proj1 (weighted_level_fields _ _ _ _ _)). by eapply resolve_level_text.
  - constructor; [apply weighted_level_fields|done].
Qed.

Lemma comparison_compiles x spec w o :
  (∃ cj, compile_comparison parse_f64 display exp2 x spec w o = Ok cj)
  ↔ comparison_ok parse_f64 display x spec.
Proof.
  unfold compile_comparison, comparison_ok.
  assert ((∀ token, Some token ∈ Config.cs_levels spec → ∃ l, resolve_level parse_f64 display x token = Ok l)
          ↔ Forall (λ t, ∃ l, resolve_level parse_f64 display x t = Ok l) (omap id (Config.cs_levels spec)))
    as ->.
  { rewrite Forall_forall. setoid_rewrite list_elem_of_omap. simpl. naive_solver. }
  destruct (omap id _) as [|t ts] eqn:Et; [naive_solver|].
  rewrite <-(token_levels_Ok x (Config.cs_tf spec) w o (length (t :: ts)) 0).
  destruct (token_levels _ _ _ _ _ _ _ _ _ _); naive_solver.
Qed.

Lemma compile_comparison_sound x spec w o cj :
  scale_ok o → fits64 (full_agreement_bits o) → fits64 (disagreement_ratio o) → weight_below w →
  (Z.of_nat (length (Config.cs_levels spec)) < 2 ^ 53)%Z →
  compile_comparison parse_f64 display exp2 x spec w o = Ok cj →
  cj_output_column_name cj = x ∧ sound_comparison cj.
Proof.
  intros Hs Hf Hr Hw Hn. unfold compile_comparison.
  assert (length (omap id (Config.cs_levels spec)) ≤ length (Config.cs_levels spec)) as Hl.
  { clear Hn. induction (Config.cs_levels spec) as [|[t|] l IH]; [done|apply (le_n_S _ _ IH)|apply (le_S _ _ IH)]. }
  destruct (omap id _) as [|t ts]; [done|].
  destruct (token_levels _ _ _ _ _ _ _ _ _ _) as [ls|] eqn:El; [|done]. intros [= <-].
  apply token_levels_sound in El as (Hi & Hlen & Hnull); [|done..|lia|done].
  split; [done|]. split; [|done]. eexists _, _. split; [by rewrite app_assoc|].
  split_and!; [apply sound_init_app; [by apply null_levels_sound|done]| |
    by apply weighted_level_sound, against_bits_finite|apply weighted_level_fields..].
  apply Exists_app. right. destruct ls as [|lj ls]; [done|]. left. by inversion Hnull.
Qed.
End comparisons.

(** *** The settings *)

Lemma compile_comparisons_Forall2 parse_f64 display exp2 ws o l cs :
  compile_comparisons parse_f64 display exp2 ws o l = Ok cs
  ↔ Forall2 (λ p c, compile_comparison parse_f64 display exp2 p.1 p.2 (default (f64_of 0) (ws !! p.1)) o = Ok c)
      l cs.
Proof.
  revert cs. induction l as [|[x spec] l IH]; intros cs; simpl.
  { split; [intros [= <-]; constructor|by intros ->%Forall2_nil_inv_l]. }
  destruct (compile_comparison _ _ _ _ _ _ _) as [c|] eqn:Ec; simpl.
  - destruct (compile_comparisons _ _ _ _ _ l) as [rest|] eqn:Er.
    + split.
      * intros [= <-]. constructor; [done|]. by apply IH.
      * intros (c' & cs' & Hc & Hr & ->)%Forall2_cons_inv_l. apply IH in Hr. simpl in Hc. congruence.
    + split; [done|]. intros (c' & cs' & _ & Hr & ->)%Forall2_cons_inv_l. apply IH in Hr. congruence.
  - split; [done|]. intros (c' & cs' & Hc & _ & ->)%Forall2_cons_inv_l. simpl in Hc. congruence.
Qed.

Lemma compile_comparisons_Ok parse_f64 display exp2 ws o l :
  (∃ cs, compile_comparisons parse_f64 display exp2 ws o l = Ok cs)
  ↔ ∀ x spec, (x, spec) ∈ l → comparison_ok parse_f64 display x spec.
Proof.
  induction l as [|[x spec] l IH]; simpl.
  { split; [set_solver|by eexists]. }
  pose proof (comparison_compiles parse_f64 display exp2 x spec (default (f64_of 0) (ws !! x)) o) as Hc.
  transitivity (comparison_ok parse_f64 display x spec
    ∧ ∀ y k, (y, k) ∈ l → comparison_ok parse_f64 display y k).
  - rewrite <-Hc, <-IH. destruct (compile_comparison _ _ _ _ _ _ _); [|naive_solver].
    destruct (compile_comparisons _ _ _ _ _ l); naive_solver.
  - setoid_rewrite elem_of_cons. naive_solver.
Qed.

Lemma compile_comparisons_sound parse_f64 display exp2 c o ws l cs :
  (∀ x, is_nan x = false → is_nan (exp2 x) = false) →
  representable c o → scale_ok o → resolve_weights display (Config.comparisons c) = Ok ws →
  (∀ x spec, (x, spec) ∈ l → Config.comparisons c !! x = Some spec) →
  compile_comparisons parse_f64 display exp2 ws o l = Ok cs →
  Forall2 (λ p cj, cj_output_column_name cj = p.1 ∧ sound_comparison cj) l cs.
Proof.
  intros Hexp2 Hr Hs Hw Hl Hc%compile_comparisons_Forall2.
  induction Hc as [|[x spec] cj l cs Hcj Hc IH]; constructor.
  - eapply compile_comparison_sound; [exact Hexp2|exact Hs|by eapply re_bits|by eapply re_ratio| | |exact Hcj].
    + by eapply resolve_weights_below.
    + eapply re_levels; [exact Hr|]. apply (Hl x spec). left.
  - apply IH. intros y k Hin. apply Hl. by right.
Qed.

(** *** The levels of a comparison *)

Lemma token_levels_tf parse_f64 display exp2 x tf w o n i tokens ls :
  token_levels parse_f64 display exp2 x tf w o n i tokens = Ok ls →
  (∀ lj y, lj ∈ ls → lj_tf_column lj = Some y → y = x ∧ tf = true)
  ∧ ("exact" ∈ tokens → ∃ lj, lj ∈ ls ∧ lj_is_null_level lj = false
       ∧ lj_sql_condition lj = side x "l" +:+ " = " +:+ side x "r").
Proof.
  revert i ls. induction tokens as [|t tokens IH]; intros i ls; simpl.
  { intros [= <-]. split; [by intros ?? ?%elem_of_nil|by intros ?%elem_of_nil]. }
  destruct (resolve_level _ _ _ t) as [l|] eqn:Et; [|done].
  destruct (token_levels _ _ _ _ _ _ _ _ (S i) _) as [rest|] eqn:Er; [|done]. intros [= <-].
  destruct (IH _ _ Er) as [Htf Hex]. set (lj := weighted_level _ _ _ _ _). split.
  - intros lj' y [->|Hin]%elem_of_cons Hy; [|by eapply Htf]. unfold lj, weighted_level in Hy.
    destruct (weights_to_probabilities _ _) in Hy. simpl in Hy.
    destruct tf, (i =? 0); simplify_eq/=; by split.
  - intros [<-|Hin]%elem_of_cons.
    + injection Et as <-. exists lj. split; [left|]. split; apply weighted_level_fields.
    + destruct (Hex Hin) as (lj' & ? & ?). exists lj'. split; [by right|done].
Qed.

Lemma null_levels_tf exp2 x policy w n lj : lj ∈ null_levels exp2 x policy w n → lj_tf_column lj = None.
Proof.
  unfold null_levels, weighted_level. destruct (weights_to_probabilities _ _).
  destruct policy; rewrite ?elem_of_cons, elem_of_nil; naive_solver.
Qed.

(** Only a comparison that asks for term frequencies has them, on its own
    column, and a declared [exact] is an equality of the two sides. *)
Lemma compile_comparison_tf parse_f64 display exp2 x spec w o cj :
  compile_comparison parse_f64 display exp2 x spec w o = Ok cj →
  (∀ lj y, lj ∈ cj_levels cj → lj_tf_column lj = Some y → y = x ∧ Config.cs_tf spec = true)
  ∧ (Some "exact" ∈ Config.cs_levels spec → ∃ lj, lj ∈ cj_levels cj ∧ lj_is_null_level lj = false
       ∧ lj_sql_condition lj = side x "l" +:+ " = " +:+ side x "r").
Proof.
  unfold compile_comparison. assert (∀ t, Some t ∈ Config.cs_levels spec → t ∈ omap id (Config.cs_levels spec)) as Ht.
  { intros t Hin. apply list_elem_of_omap. by exists (Some t). }
  destruct (omap id _) as [|t ts]; [done|].
  destruct (token_levels _ _ _ _ _ _ _ _ _ _) as [ls|] eqn:El; [|done]. intros [= <-].
  apply token_levels_tf in El as [Htf Hex]. cbn [cj_levels].
  setoid_rewrite elem_of_app. setoid_rewrite elem_of_app. split.
  - intros lj y [Hin|[Hin|Hin]] Hy; [by rewrite (null_levels_tf _ _ _ _ _ _ Hin) in Hy|by eapply Htf|].
    apply list_elem_of_singleton in Hin as ->. unfold weighted_level in Hy.
    by destruct (weights_to_probabilities _ _) in Hy.
  - intros Hin. destruct (Hex (Ht _ Hin)) as (lj & ? & ?). exists lj. auto.
Qed.

Lemma settings_of_comparisons parse_f64 display exp2 c options s :
  settings_of parse_f64 display exp2 c options = Some (Ok s) →
  ∀ cj, cj ∈ sj_comparisons s → ∃ x spec w, Config.comparisons c !! x = Some spec
    ∧ compile_comparison parse_f64 display exp2 x spec w options = Ok cj.
Proof.
  unfold settings_of. destruct (mapM _ _) as [rules|]; [|done]. cbn [mbind option_bind].
  destruct (check_scale _ _) as [[]|]; [|done]. destruct (resolve_weights _ _) as [ws|]; [|done].
  destruct (compile_comparisons _ _ _ _ _ _) as [cs|] eqn:Ec; [|done]. intros [= <-] cj Hin.
  apply compile_comparisons_Forall2 in Ec. cbn [sj_comparisons compiled_settings] in Hin.
  apply list_elem_of_lookup in Hin as [i Hi].
  destruct (Forall2_lookup_r _ _ _ _ _ Ec Hi) as ([x spec] & Hx & Hc).
  apply list_elem_of_lookup_2, elem_of_map_sorted in Hx. eauto.
Qed.

Lemma is_else_ELSE : is_else_condition "ELSE" = true.
Proof. by vm_compute. Qed.

Lemma sound_comparison_levels cj : sound_comparison cj → Forall sound_level (cj_levels cj).
Proof.
  intros [(init & last & -> & [Hi _] & _ & Hl & _) _]. apply Forall_app. split; [done|by constructor].
Qed.

Lemma compiled_settings_document cs bs rules :
  mapM (compile_rule cs) bs = Some rules → ∀ comps, Forall sound_comparison comps →
  settings_document (compiled_settings rules comps).
Proof.
  intros Hrules comps Hc. split; [done|done|done| | |apply extra_ok_nil].
  - apply mapM_Some_1 in Hrules. cbn [sj_blocking_rules compiled_settings].
    induction Hrules as [|b r bs' rs Hb _ IH]; constructor; [|done]. unfold compile_rule in Hb.
    destruct (blocking_predicate _); [|done]. injection Hb as <-. apply extra_ok_nil.
  - eapply Forall_impl; [exact Hc|]. intros cj Hcj. split.
    + eapply Forall_impl; [by apply sound_comparison_levels|]. by intros lj ?%so_document.
    + rewrite (sc_extra _ Hcj). apply extra_ok_nil.
Qed.

(** The engine takes a sound comparison whose texts its parser reads. *)
Lemma sound_comparison_accepted parse to_lowercase cj :
  sound_comparison cj →
  (∀ lj, lj ∈ cj_levels cj → lj_sql_condition lj ≠ "ELSE" →
     ∃ e, parse (lj_sql_condition lj) = Ok e ∧ exact_loop to_lowercase [] (SqlColumns.conjuncts e) ≠ None) →
  comparison_accepted parse to_lowercase cj.
Proof.
  intros [(init & last & Hcj & [Hi He] & Hex & Hl & Htext & Hnull) _] Hread. split.
  - rewrite Hcj. apply Forall_app. split.
    + apply Forall_forall. intros lj Hin. rewrite Forall_forall in Hi, He.
      pose proof (He lj Hin) as Hne. destruct (Hi lj Hin) as [Hm Hu _ _ _].
      split; [by rewrite Hne| |done|done]. right.
      destruct (Hread lj) as (e & ? & ?); [rewrite Hcj; set_solver| |by eauto].
      intros E. by rewrite E, is_else_ELSE in Hne.
    + constructor; [|done]. destruct Hl as [Hm Hu _ _ _].
      split; [by rewrite Hnull, andb_false_r|left; by rewrite Htext|done|done].
  - exists init, last. by rewrite Htext.
Qed.

Lemma allowed_sym {V} (c : Config.MatchConstraints) (l r : row V) : allowed c l r → allowed c r l.
Proof.
  intros [Hq Hv He]. split.
  - intros x Hx. destruct (Hq x Hx) as (v & ? & ?). by exists v.
  - intros x v w Hx Hr Hl. symmetry. by eapply Hv.
  - intros x v Hx Hr Hl. by eapply He.
Qed.

(** ** Theorems *)


(** C15: a configuration compiles exactly when its scale is sound, its weights
    are none or in range and total a hundred, and each comparison has a level
    and every level it names is known; what it compiles to is a document the
    engine loads, whatever the engine's platform, when its parser reads the
    levels and its text as the document: comparisons in the order of their
    columns, every level pinned. *)
Theorem compile_loads parse_f64 display exp2 c options :
  (∀ x, is_nan x = false → is_nan (exp2 x) = false) →
  ((∃ s, settings_of parse_f64 display exp2 c options = Some (Ok s))
   ↔ scale_ok options ∧ weights_ok (Config.comparisons c)
     ∧ ∀ x spec, Config.comparisons c !! x = Some spec → comparison_ok parse_f64 display x spec)
  ∧ ∀ s, representable c options → settings_of parse_f64 display exp2 c options = Some (Ok s) →
      (cj_output_column_name <$> sj_comparisons s = set_sorted (dom (Config.comparisons c))
       ∧ Forall (λ cj, Forall sound_level (cj_levels cj)) (sj_comparisons s))
      ∧ ∀ parse to_lowercase pow2 shown pretty_text json_of_text, readable parse to_lowercase s →
          json_of_text (pretty_text (settings_json s)) = Some (settings_json s) →
          ∃ loaded, from_json_str json_of_text parse to_lowercase pow2 shown
                      (to_json_string_pretty pretty_text s) = Some (Ok loaded).
Proof.
  intros Hexp2.
  destruct (settings_of_total parse_f64 display exp2 c options) as [res Hres].
  unfold settings_of in Hres |- *. destruct (mapM _ _) as [rules|] eqn:Erules; [|done]. cbn [mbind option_bind] in Hres |- *.
  clear Hres res. split.
  - rewrite <-(check_scale_Ok display), <-(resolve_weights_Ok display).
    destruct (check_scale _ _) as [[]|]; [|naive_solver].
    destruct (resolve_weights _ _) as [ws|]; [|naive_solver].
    setoid_rewrite <-elem_of_map_sorted. rewrite <-(compile_comparisons_Ok parse_f64 display exp2 ws options).
    destruct (compile_comparisons _ _ _ _ _ _) as [cs|]; naive_solver.
  - intros s Hr. destruct (check_scale _ _) as [[]|] eqn:Es; [|done]. apply check_scale_Ok in Es.
    destruct (resolve_weights _ _) as [ws|] eqn:Ew; [|done].
    destruct (compile_comparisons _ _ _ _ _ _) as [cs|] eqn:Ec; [|done]. intros [= <-].
    cbn [sj_comparisons compiled_settings].
    apply (compile_comparisons_sound _ _ _ c) in Ec as HF; [|done..|by intros ??; rewrite elem_of_map_sorted].
    assert (Forall sound_comparison cs) as Hsound.
    { clear -HF. by induction HF as [|? ? ? ? []]; constructor. }
    split; [split|].
    + rewrite <-map_sorted_fst. clear -HF. induction HF as [|p cj l cs [E _] _ IH]; [done|].
      rewrite !fmap_cons, E. f_equal. exact IH.
    + eapply Forall_impl; [exact Hsound|]. by intros cj ?%sound_comparison_levels.
    + intros parse to_lowercase pow2 shown pretty_text json_of_text Hread Htext.
      unfold from_json_str, to_json_string_pretty. rewrite Htext. cbn [mbind option_bind].
      rewrite read_settings_json by (by eapply compiled_settings_document).
      apply compile_accepted. split; [by vm_compute|].
      apply Forall_forall. intros cj Hin. rewrite Forall_forall in Hsound.
      apply sound_comparison_accepted; [by apply Hsound|]. intros lj. by apply Hread.
Qed.

(** ** A sample *)

Module SampleRules.
Definition config : Config.Config :=
  Config.SampleConfig.config [Some "exact"; Some "jaro_winkler:0.9"; None] [] "".

Definition number (s : string) : option spec_float := Some BASE_P.

Definition settings : option SettingsJson :=
  match settings_of number (λ _, "0.9") (λ _, f64_of 1) config default_options with
  | Some (Ok s) => Some s
  | _ => None
  end.

Lemma email_only x spec :
  Config.comparisons config !! x = Some spec →
  spec = Config.mkComparisonSpec [Some "exact"; Some "jaro_winkler:0.9"; None] true None Config.Never.
Proof.
  change (Config.comparisons config) with ({["email" := Config.mkComparisonSpec
    [Some "exact"; Some "jaro_winkler:0.9"; None] true None Config.Never]} : gmap string Config.ComparisonSpec).
  by intros [_ <-]%lookup_singleton_Some.
Qed.

Lemma config_representable : representable config default_options.
Proof.
  split; [done|done| |by vm_compute|].
  - intros x spec w Hx%email_only. by subst.
  - intros x spec Hx%email_only. by subst.
Qed.
End SampleRules.

Lemma constraints_enforced_sample :
  render <$> conditions (Config.mkConstraints ["tax_id"] ["birth_date"] ["household_id"])
  = ["(l.tax_id = r.tax_id AND l.tax_id IS NOT NULL AND r.tax_id IS NOT NULL)";
     "NOT (l.birth_date IS NOT NULL AND r.birth_date IS NOT NULL AND l.birth_date <> r.birth_date)";
     "NOT (l.household_id = r.household_id AND l.household_id IS NOT NULL AND r.household_id IS NOT NULL)"].
Proof. reflexivity. Qed.

Lemma compile_loads_witness :
  ∃ s loaded, SampleRules.settings = Some s
    ∧ from_json_str (λ _, Some (settings_json s)) (λ _, Ok (Identifier "x")) to_ascii_lowercase id (λ _, "")
        (to_json_string_pretty (λ _, "stored") s) = Some (Ok loaded).
Proof.
  assert (∀ x : spec_float, is_nan x = false → is_nan ((λ _, f64_of 1) x) = false) as He by (intros x _; by vm_compute).
  destruct (compile_loads SampleRules.number (λ _, "0.9") (λ _, f64_of 1) SampleRules.config default_options He)
    as [_ H].
  destruct SampleRules.settings as [s|] eqn:Es; [|by vm_compute in Es].
  assert (settings_of SampleRules.number (λ _, "0.9") (λ _, f64_of 1) SampleRules.config default_options
          = Some (Ok s)) as Hs.
  { unfold SampleRules.settings in Es. destruct (settings_of _ _ _ _ _) as [[s'|]|]; [|done..]. congruence. }
  destruct (H s SampleRules.config_representable Hs) as [_ Hload].
  destruct (Hload (λ _, Ok (Identifier "x")) to_ascii_lowercase id (λ _, "") (λ _, "stored")
              (λ _, Some (settings_json s))) as [loaded Hl].
  - intros cj lj _ _ _. exists (Identifier "x"). split; [reflexivity|discriminate].
  - reflexivity.
  - exists s, loaded. exact (conj eq_refl Hl).
Defined.

(** ** Where the compiler departs from what it means *)

#[local] Definition quoted (s : string) : string := String DQUOTE (s +:+ String DQUOTE "").

(** A quoted identifier after a dot gets a second qualifier. *)
Example qualified_quote_doubled :
  qualify ("l." +:+ quoted "zip") "l" = Some ("l.l." +:+ quoted "zip").
Proof. reflexivity. Qed.

(** The exponent of a number, and the words of a cast, are taken for columns. *)
Example exponent_and_cast_qualified :
  qualify "amount * 1e5" "l" = Some "l.amount * 1l.e5"
  ∧ qualify "cast(zip as varchar)" "l" = Some "cast(l.zip l.as l.varchar)".
Proof. by split. Qed.

(** A letter past ASCII is written out as two characters. *)
Example literal_mangled : qualify "'é'" "l" = Some "'Ã©'".
Proof. reflexivity. Qed.

(** The key is not put in parentheses: an [or] in it leaves the constraints to
    its last operand. *)
Example or_escapes_constraints :
  br_sql <$> compile_rule ["NOT (veto)"] (Config.mkBlocking "k" "vip or zip = '0'")
  = Some "l.vip or l.zip = '0' = r.vip or r.zip = '0' AND NOT (veto)".
Proof. reflexivity. Qed.

(** Two blanks earn [weight / 2] bits whatever the scale: at twenty bits they
    outweigh an exact match. *)
Example blanks_outweigh_exact :
  SFltb (level_bits (mkOptions (f64_of 20) DEFAULT_DISAGREEMENT_RATIO) (f64_of 100) 1 0)
    (f64_div (f64_of 100) (f64_of_count 2)) = true.
Proof. vm_compute. reflexivity. Qed.
