(* ===== verification/ConfigCheck.v ===== *)
(** * The publish-time check of a configuration

    [er-server/src/config_check.rs] with [er-cli/src/related.rs]: the problems
    that refuse a publish, the advice a profile gives, and the query that borrows
    columns of related records.  The parser of SQL, the regular expressions of
    [regex_lite] (its error for a pattern) and [log2] are parameters. *)

From S2P Require Config Compile.
From S2P Require Import Prelude Ids F64 Text SqlColumns EngineSettings.
From stdpp Require Import pretty.
From Stdlib Require Import Ascii.

#[local] Open Scope rust_scope.

(** ** Definitions *)

(** *** The standardized columns *)

Definition std_payload : list string :=
  ["source_system"; "source_record_id"; "content_hash"; "std_version"; "given_name"; "family_name";
   "name_variants"; "email"; "email_valid"; "phone_e164"; "phone_valid"; "addr_number"; "addr_street";
   "addr_unit"; "addr_city"; "addr_region"; "addr_postal"; "birth_date"; "metadata"; "updated_at_source";
   "ingest_batch_id"; "ingested_at"].

Definition acct_std_payload : list string :=
  ["source_system"; "source_record_id"; "content_hash"; "std_version"; "company_name"; "company_name_norm";
   "company_variants"; "domain"; "domain_norm"; "phone_e164"; "phone_valid"; "addr_street"; "addr_city";
   "addr_region"; "addr_postal"; "metadata"; "updated_at_source"; "ingest_batch_id"; "ingested_at"].

Definition int_std_record_columns (account : bool) : list string :=
  ["id"; "record_key"] ++ (if account then acct_std_payload else std_payload) ++ ["created_at"; "updated_at"].

Definition SCALAR_ATTRIBUTES : list string := ["given_name"; "family_name"; "email"; "phone_e164"; "birth_date"].
Definition ACCT_SCALAR_ATTRIBUTES : list string := ["company_name"; "domain"; "phone_e164"].

(** *** Related records *)

Definition STANDARD : list string :=
  ["record_key"; "source_system"; "source_record_id"; "given_name"; "family_name"; "name_variants"; "email";
   "email_valid"; "phone_e164"; "phone_valid"; "addr_number"; "addr_street"; "addr_unit"; "addr_city";
   "addr_region"; "addr_postal"].

Definition is_standard_column (name : string) : bool := bool_decide (name ∈ STANDARD).

Definition DQUOTE : string := String "034" "".

(** [Config.double_quotes] is the [replace] of a quote by two. *)
Definition read_column (alias name : string) : string :=
  if is_standard_column name then alias +:+ "." +:+ DQUOTE +:+ name +:+ DQUOTE
  else "(" +:+ alias +:+ ".metadata ->> '" +:+ Config.double_quotes name +:+ "')".

Definition prefix_char (c : ascii) : bool :=
  byte_in 48 57 c || byte_in 65 90 c || byte_in 97 122 c || bool_decide (c = "_"%char).

Fixpoint all_chars (p : ascii → bool) (s : string) : bool :=
  match s with EmptyString => true | String c s => p c && all_chars p s end.

Definition valid_prefix (prefix : string) : bool :=
  negb (bool_decide (prefix = "")) && all_chars prefix_char prefix
  && match prefix with String c _ => negb (byte_in 48 57 c) | EmptyString => true end.

Definition unless (b : bool) (problem : string) : list string := if b then [] else [problem].

Definition feature_problems (sources : list string) (seen : list string) (f : Config.RelatedFeature) :
    list string :=
  let p := Config.prefix f in
  unless (valid_prefix p)
    ("features.related: prefix '" +:+ p
     +:+ "' is not a usable column-name prefix (letters, digits and underscores, not starting with a digit)")
  ++ unless (negb (bool_decide (p ∈ seen)))
    ("features.related: prefix '" +:+ p +:+ "' is declared twice; the second would overwrite the first's columns")
  ++ unless (negb (bool_decide (Config.attributes f = [])))
    ("features.related['" +:+ p
     +:+ "']: borrows no attributes, so it would join the corpus to itself and produce nothing")
  ++ unless (negb (bool_decide (trim (Config.key_column f) = "")))
    ("features.related['" +:+ p +:+ "']: key_column is required")
  ++ unless (bool_decide (Config.target_source f ∈ sources))
    ("features.related['" +:+ p +:+ "']: target_source '" +:+ Config.target_source f
     +:+ "' is not in sources (known: " +:+ String.concat ", " sources +:+ ")")
  ++ (Config.attributes f ≫= λ a, unless (valid_prefix a)
       ("features.related['" +:+ p +:+ "']: attribute '" +:+ a +:+ "' is not a usable column name")).

(** [seen] grows by every prefix, a repeated one too. *)
Fixpoint related_problems (sources : list string) (seen : list string) (l : list Config.RelatedFeature) :
    list string :=
  match l with
  | [] => []
  | f :: l => feature_problems sources seen f ++ related_problems sources (seen ++ [Config.prefix f]) l
  end.

Definition validate (c : Config.Config) : list string :=
  related_problems (set_sorted (dom (Config.sources c))) [] (Config.features_related c).

Definition NEWLINE : string := String "010" "".

Definition widen_join (std_qual : string) (index : nat) (f : Config.RelatedFeature) : string :=
  let alias := "r" +:+ pretty index in
  "left join " +:+ std_qual +:+ " " +:+ alias +:+ NEWLINE +:+ "       on " +:+ alias +:+ ".record_key = '"
  +:+ Config.double_quotes (Config.target_source f) +:+ "' || ':' || " +:+ read_column "s" (Config.key_column f).

Definition widen_selects (index : nat) (f : Config.RelatedFeature) : list string :=
  (λ a, read_column ("r" +:+ pretty index) a +:+ " as " +:+ DQUOTE +:+ Config.column_for f a +:+ DQUOTE)
    <$> Config.attributes f.

Definition widen_sql (c : Config.Config) (std_qual : string) : option string :=
  match Config.features_related c with
  | [] => None
  | features =>
      let selects := "s.*" :: concat (imap widen_selects features) in
      Some ("select" +:+ NEWLINE +:+ "    " +:+ String.concat ("," +:+ NEWLINE +:+ "    ") selects
            +:+ NEWLINE +:+ "  from " +:+ std_qual +:+ " s" +:+ NEWLINE +:+ "  "
            +:+ String.concat (NEWLINE +:+ "  ") (imap (widen_join std_qual) features))
  end.

Definition derived_columns (c : Config.Config) : list string :=
  Config.features_related c ≫= Config.feature_columns.

(** *** The references *)

(** The [Display] of the engine's errors. *)
Definition error_text (e : DedupeError) : string :=
  match e with
  | Settings_ m => "settings error: " +:+ m
  | SqlParse context m => "SQL parse error in " +:+ context +:+ ": " +:+ m
  | JsonError => "JSON error"
  end.

Definition valid_columns (c : Config.Config) : gset string :=
  list_to_set (int_std_record_columns (negb (Config.is_person (Config.entity_type c))) ++ derived_columns c).

(** [seen] is a set: a name that is there is not put in again. *)
Fixpoint model_problems (i : nat) (seen : gset string) (l : list Config.ModelSpec) : list string :=
  match l with
  | [] => []
  | m :: l =>
      let name := trim (Config.ms_name m) in
      let '(first, seen) :=
        if decide (name = "") then (["models[" +:+ pretty i +:+ "] has an empty name"], seen)
        else if decide (name ∈ seen) then
          (["models[" +:+ pretty i +:+ "] repeats `" +:+ name
            +:+ "`; each member must name a distinct model"], seen)
        else ([], {[name]} ∪ seen) in
      first
      ++ unless (bool_decide (name = Config.ms_name m))
           ("models[" +:+ pretty i +:+ "] name `" +:+ Config.ms_name m +:+ "` has leading or trailing whitespace; it must match a                  registry name exactly")
      ++ model_problems (S i) seen l
  end.

Section checks.
Context (parse : string → result Expr string) (regex : string → option string)
        (log2 : spec_float → spec_float).

(** A blocking key or a segment: it parses and reads known columns. *)
Definition sql_problems (valid : gset string) (context subject sql : string) : list string :=
  match columns_used parse sql context with
  | Err e => [subject +:+ " has invalid SQL (`" +:+ sql +:+ "`): " +:+ error_text e]
  | Ok refs =>
      refs ≫= λ col, unless (bool_decide (ref_column col ∈ valid))
        (subject +:+ " references unknown standardized column `" +:+ ref_column col +:+ "`")
  end.

Definition blocking_problems (valid : gset string) (b : Config.BlockingRule) : list string :=
  sql_problems valid "blocking" ("blocking key `" +:+ Config.key_type b +:+ "`") (Config.expr b).

Definition comparison_problems (valid : gset string) (key : string) : list string :=
  unless (bool_decide (key ∈ valid)) ("comparison column `" +:+ key +:+ "` is not a standardized column").

Definition has_exact (spec : Config.ComparisonSpec) : bool := bool_decide (Some "exact" ∈ Config.cs_levels spec).

Definition tf_problems (key : string) (spec : Config.ComparisonSpec) : list string :=
  unless (negb (Config.cs_tf spec && negb (has_exact spec)))
    ("comparison `" +:+ key +:+ "` sets `tf: true` but declares no `exact` level. Term-frequency adjustment scales against the exact-match level's u probability, so there has to be one — without it the scoring stage fails on every run. Add `exact` to the levels, or drop `tf`").

Definition constraint_problems (valid : gset string) (column : string) : list string :=
  unless (bool_decide (column ∈ valid)) ("constraint column `" +:+ column +:+ "` is not a standardized column").

Definition rule_problems (attribute : string) (r : Config.TransformRule) : list string :=
  let on := "transform on `" +:+ attribute +:+ "`: " in
  match r with
  | Config.RegexReplace pattern _ =>
      if decide (pattern = "") then [on +:+ "regex_replace needs a pattern"]
      else match regex pattern with
           | Some e => [on +:+ "regex_replace pattern `" +:+ pattern +:+ "` is invalid: " +:+ e]
           | None => []
           end
  | Config.Substring start length_ =>
      unless (negb ((start <? 1)%Z || (length_ <? 1)%Z))
        (on +:+ "substring is 1-based and needs a positive length, got start=" +:+ pretty start
         +:+ " length=" +:+ pretty length_)
  | Config.Strip cs => unless (negb (bool_decide (cs = ""))) (on +:+ "strip needs characters to remove")
  | Config.Dictionary m =>
      unless (negb (bool_decide (m = ∅))) (on +:+ "dictionary needs at least one mapping")
  | _ => []
  end.

Definition transform_problems (canonical : list string) (attribute : string) (rules : list Config.TransformRule) :
    list string :=
  unless (bool_decide (attribute ∈ canonical))
    ("transform on `" +:+ attribute +:+ "` is not a canonical attribute (one of: "
     +:+ String.concat ", " (set_sorted (list_to_set canonical)) +:+ ")")
  ++ unless (negb (bool_decide (length rules = 0)))
    ("transform on `" +:+ attribute +:+ "` declares no rules, so it does nothing")
  ++ (rules ≫= rule_problems attribute).

Definition segment_problems (valid : gset string) (name predicate : string) : list string :=
  sql_problems valid "segment" ("segment `" +:+ name +:+ "`") predicate.

(** *** Survivorship groups *)

(** One field of a group; [claimed_by] is the group a field is in. *)
Definition field_problems (c : Config.Config) (valid : gset string) (token : string)
    (claimed_by : gmap string string) (field : string) : list string * gmap string string :=
  let group := "survivorship_groups `" +:+ token +:+ "`" in
  if decide (field ∉ valid) then
    ([group +:+ " references unknown standardized column `" +:+ field +:+ "`"], claimed_by)
  else
    (match claimed_by !! field with
     | Some other =>
         ["`" +:+ field +:+ "` is in both survivorship_groups `" +:+ other +:+ "` and `" +:+ token
          +:+ "`; two decisions writing one column is the ambiguity groups exist to remove"]
     | None => []
     end
     ++ unless (negb (bool_decide (is_Some (Config.survivorship c !! field))))
          ("`" +:+ field +:+ "` is in " +:+ group +:+ " and also has its own `survivorship." +:+ field
           +:+ "` chain; the group decides it, so that chain would never be read"),
     <[field := token]> claimed_by).

Fixpoint fields_problems (c : Config.Config) (valid : gset string) (token : string)
    (claimed_by : gmap string string) (l : list string) : list string * gmap string string :=
  match l with
  | [] => ([], claimed_by)
  | f :: l =>
      let '(problems, claimed_by) := field_problems c valid token claimed_by f in
      let '(rest, claimed_by) := fields_problems c valid token claimed_by l in
      (problems ++ rest, claimed_by)
  end.

Definition group_problems (c : Config.Config) (valid : gset string) (claimed_by : gmap string string)
    (token : string) (g : Config.SurvivorshipGroup) : list string * gmap string string :=
  let group := "survivorship_groups `" +:+ token +:+ "`" in
  let vocabulary := if Config.is_person (Config.entity_type c) then SCALAR_ATTRIBUTES else ACCT_SCALAR_ATTRIBUTES in
  let '(of_fields, claimed_by) := fields_problems c valid token claimed_by (Config.fields g) in
  (unless (negb (length (Config.fields g) <? 2))
     (group +:+ " lists " +:+ pretty (length (Config.fields g))
      +:+ " field(s); a group needs at least two, or it is just that field's own survivorship chain")
   ++ unless (bool_decide (is_Some (Config.survivorship c !! token)))
     (group +:+ " has no survivorship chain; a group is decided once, under its own name — add `survivorship."
      +:+ token +:+ "`")
   ++ of_fields
   ++ match Config.controlling g with
      | Some x =>
          unless (bool_decide (x ∈ Config.fields g))
            (group +:+ " ranks on `" +:+ x +:+ "`, which is not one of its own fields")
      | None => []
      end
   ++ unless (negb (bool_decide (token ∈ vocabulary) && negb (bool_decide (token ∈ Config.fields g))))
     (group +:+ " collides with the attribute `" +:+ token
      +:+ "`, which is still elected on its own; name the group something else or put `" +:+ token +:+ "` in it"),
   claimed_by).

Fixpoint groups_problems (c : Config.Config) (valid : gset string) (claimed_by : gmap string string)
    (l : list (string * Config.SurvivorshipGroup)) : list string :=
  match l with
  | [] => []
  | (token, g) :: l =>
      let '(problems, claimed_by) := group_problems c valid claimed_by token g in
      problems ++ groups_problems c valid claimed_by l
  end.

(** *** Everything that refuses a publish *)

Definition reference_problems (c : Config.Config) : list string :=
  let valid := valid_columns c in
  validate c
  ++ model_problems 0 ∅ (Config.models c)
  ++ (Config.blocking c ≫= blocking_problems valid)
  ++ (set_sorted (dom (Config.comparisons c)) ≫= comparison_problems valid)
  ++ (map_sorted (Config.comparisons c) ≫= λ p, tf_problems p.1 p.2)
  ++ (Config.constraint_columns (Config.constraints c) ≫= constraint_problems valid)
  ++ (map_sorted (Config.transforms c) ≫= λ p,
        transform_problems (Config.canonical_attributes (Config.entity_type c)) p.1 p.2)
  ++ (map_sorted (Config.segments c) ≫= λ p, segment_problems valid p.1 p.2)
  ++ groups_problems c valid ∅ (map_sorted (Config.survivorship_groups c)).

Definition config_reference_problems (c : Config.Config) : list string :=
  dedup (sort_strings (reference_problems c)).

(** *** Advice from a profile *)

Record ProfiledColumn := mkProfiled {
  column_name : string;
  row_count : Z;
  non_null_count : Z;
  blank_count : Z;
  top_share : option spec_float;
  distinct_exact : option Z;
}.

Definition fill_rate (p : ProfiledColumn) : option spec_float :=
  if (row_count p =? 0)%Z then None
  else Some (f64_div (f64_of (non_null_count p - blank_count p)) (f64_of (row_count p))).

(** [0.5], [0.2], [0.8], [3.0] and the sampler's least number of observations. *)
Definition ADVISE_PAIR_LOSS_ABOVE : spec_float := lit64 4503599627370496 (-53).
Definition ADVISE_MODE_SHARE_ABOVE : spec_float := lit64 7205759403792794 (-55).
Definition ADVISE_DUPLICATE_RATIO : spec_float := lit64 7205759403792794 (-53).
Definition ADVISE_TF_SPREAD_BITS : spec_float := f64_of 3.
Definition MIN_COUNT_PER_LEVEL : Z := 100.

Definition one_ : spec_float := f64_of 1.
Definition two : spec_float := f64_of 2.
Definition percent (x : spec_float) : string := fmt_fixed 0 (f64_mul x (f64_of 100)).

(** [rows * (rows - 1.0) / 2.0]. *)
Definition pairs_of (rows : spec_float) : spec_float := f64_div (f64_mul rows (f64_sub rows one_)) two.

Definition fill_advice (key_type column : string) (fill : spec_float) : list string :=
  let pair_loss := f64_sub one_ (f64_mul fill fill) in
  if SFltb ADVISE_PAIR_LOSS_ABOVE pair_loss then
    ["blocking key `" +:+ key_type +:+ "` reads `" +:+ column +:+ "`, which is " +:+ percent fill
     +:+ "% populated — an equality is never true of a NULL, so this rule cannot reach " +:+ percent pair_loss
     +:+ "% of all pairs"]
  else [].

Definition mode_advice (key_type column : string) (stats : ProfiledColumn) : list string :=
  match top_share stats with
  | Some share =>
      let rows := f64_round (f64_mul share (f64_of (non_null_count stats))) in
      if SFltb ADVISE_MODE_SHARE_ABOVE share && SFleb two rows then
        ["blocking key `" +:+ key_type +:+ "` reads `" +:+ column +:+ "`, whose most common value covers "
         +:+ percent share +:+ "% of its populated rows (" +:+ fmt_fixed 0 rows
         +:+ " of them) — that one block alone is about " +:+ fmt_fixed 0 (pairs_of rows) +:+ " comparisons"]
      else []
  | None => []
  end.

Definition blocking_advice (by_name : gmap string ProfiledColumn) (b : Config.BlockingRule) : list string :=
  match columns_used parse (Config.expr b) "blocking" with
  | Err _ => []
  | Ok refs =>
      refs ≫= λ col,
        match by_name !! ref_column col with
        | Some stats =>
            match fill_rate stats with
            | Some fill =>
                fill_advice (Config.key_type b) (ref_column col) fill
                ++ mode_advice (Config.key_type b) (ref_column col) stats
            | None => []
            end
        | None => []
        end
  end.

(** A compared column, its floor, its present rows and its distinct values. *)
Definition floor_of (by_name : gmap string ProfiledColumn) (key : string) : option (string * Z * Z * Z) :=
  stats ← by_name !! key;
  distinct ← distinct_exact stats;
  let present := (non_null_count stats - blank_count stats)%Z in
  let floor := (present - distinct)%Z in
  if (present <=? 0)%Z || (distinct <=? 0)%Z then None
  else if SFltb (f64_div (f64_of distinct) (f64_of present)) ADVISE_DUPLICATE_RATIO then None
  else if (0 <? floor)%Z then Some (key, floor, present, distinct) else None.

Definition floor_count (f : string * Z * Z * Z) : Z := f.1.1.2.

(** [max_by_key]: the last of the largest. *)
Definition largest_floor (l : list (string * Z * Z * Z)) : option (string * Z * Z * Z) :=
  match l with
  | [] => None
  | x :: l => Some (foldl (λ best y, if (floor_count best <=? floor_count y)%Z then y else best) x l)
  end.

Definition floor_advice (by_name : gmap string ProfiledColumn) (c : Config.Config) : list string :=
  match largest_floor (omap (floor_of by_name) (set_sorted (dom (Config.comparisons c)))) with
  | Some (column, floor, present, distinct) =>
      ["at least " +:+ pretty floor +:+ " records share an `" +:+ column +:+ "` with another record ("
       +:+ pretty present +:+ " rows carry " +:+ pretty distinct
       +:+ " distinct values) — a floor measured with no model, so the real count is usually higher"]
  | None => []
  end.

Definition remedy_text (collision corpus_pairs min_count : spec_float) : string :=
  if SFleb collision (f64_of 0) then
    "no two records share a value on it at all, so no `u_max_pairs` can reach it — its u stays at the default until the data repeats"
  else
    let needed := f64_div min_count collision in
    if SFltb corpus_pairs needed then
      "the corpus holds only about " +:+ fmt_fixed 0 corpus_pairs
      +:+ " pairs in total, so no `u_max_pairs` can reach it — its u stays at the default until the corpus grows"
    else "reaching it would take a `u_max_pairs` of at least about " +:+ fmt_fixed 0 needed.

Definition unmeasurable_level (by_name : gmap string ProfiledColumn) (max_pairs : spec_float) (key : string)
    (spec : Config.ComparisonSpec) : option string :=
  if negb (has_exact spec) then None
  else
    stats ← by_name !! key;
    distinct ← distinct_exact stats;
    share ← top_share stats;
    let rows := f64_of (row_count stats) in
    let present := f64_of (non_null_count stats) in
    let min_count := f64_of MIN_COUNT_PER_LEVEL in
    if SFltb rows two || SFleb present (f64_of 0) || (distinct <=? 0)%Z || SFleb share (f64_of 0) then None
    else
      let corpus_pairs := pairs_of rows in
      let examined := f64_min max_pairs corpus_pairs in
      let mode_count := f64_round (f64_mul share present) in
      let agreeing :=
        if SFleb mode_count one_ then f64_of 0 else f64_mul present (f64_sub mode_count one_) in
      let collision := f64_div agreeing (f64_mul rows (f64_sub rows one_)) in
      let expected := f64_mul examined collision in
      if SFleb min_count expected then None
      else Some ("comparison `" +:+ key +:+ "` declares an `exact` level, and at `u_max_pairs = "
        +:+ fmt_fixed 0 max_pairs +:+ "` the u-sample examines about " +:+ fmt_fixed 0 examined
        +:+ " pairs — with " +:+ pretty distinct +:+ " distinct values over " +:+ fmt_fixed 0 present
        +:+ " populated rows, an exact agreement is expected at most " +:+ fmt_fixed 0 expected
        +:+ " times, short of the " +:+ fmt_fixed 0 min_count
        +:+ " observations the sampler asks for. Its u-probability will fall back to a built-in default rather than being measured on your data; "
        +:+ remedy_text collision corpus_pairs min_count).

Definition unmeasurable_exact_levels (c : Config.Config) (by_name : gmap string ProfiledColumn) : list string :=
  omap (λ p, unmeasurable_level by_name (f64_of (Config.u_max_pairs (Config.training c))) p.1 p.2)
    (map_sorted (Config.comparisons c)).

Definition tf_payoff (by_name : gmap string ProfiledColumn) (key : string) (spec : Config.ComparisonSpec) :
    option string :=
  if Config.cs_tf spec || negb (has_exact spec) then None
  else
    stats ← by_name !! key;
    share ← top_share stats;
    distinct ← distinct_exact stats;
    let present := f64_of (non_null_count stats) in
    if SFleb present (f64_of 0) || (distinct <=? 0)%Z then None
    else
      let mode_count := f64_round (f64_mul share present) in
      let average_count := f64_div present (f64_of distinct) in
      if SFltb mode_count two || SFleb average_count (f64_of 0) then None
      else
        let spread := log2 (f64_div mode_count average_count) in
        if SFltb spread ADVISE_TF_SPREAD_BITS then None
        else Some ("comparison `" +:+ key
          +:+ "` has an `exact` level with `tf: false`, and its values are lopsided: the commonest covers "
          +:+ fmt_fixed 0 mode_count +:+ " of " +:+ fmt_fixed 0 present
          +:+ " populated rows while the average of its " +:+ pretty distinct +:+ " distinct values covers "
          +:+ fmt_fixed 1 average_count
          +:+ " — turning on `tf` would spread the evidence for an exact agreement across up to "
          +:+ fmt_fixed 1 spread
          +:+ " bits, counting a rare value that much more than a common one. At present every exact agreement on `"
          +:+ key +:+ "` is worth the same, however common the value").

Definition unused_tf_payoff (c : Config.Config) (by_name : gmap string ProfiledColumn) : list string :=
  omap (λ p, tf_payoff by_name p.1 p.2) (map_sorted (Config.comparisons c)).

Definition profile_advisories (c : Config.Config) (profiled : list ProfiledColumn) : list string :=
  let by_name := map_collect ((λ p, (column_name p, p)) <$> profiled) in
  (Config.blocking c ≫= blocking_advice by_name)
  ++ floor_advice by_name c
  ++ unmeasurable_exact_levels c by_name
  ++ unused_tf_payoff c by_name.
End checks.

(** ** Specification *)

(** A related feature the corpus can be widened by. *)
Record feature_sound (c : Config.Config) (f : Config.RelatedFeature) : Prop := {
  fs_prefix : valid_prefix (Config.prefix f) = true;
  fs_attributes : Config.attributes f ≠ [] ∧ Forall (λ a, valid_prefix a = true) (Config.attributes f);
  fs_key : trim (Config.key_column f) ≠ "";
  fs_target : Config.target_source f ∈ dom (Config.sources c);
}.

Definition sql_sound (parse : string → result Expr string) (c : Config.Config) (context sql : string) : Prop :=
  ∃ refs, columns_used parse sql context = Ok refs ∧ ∀ col, col ∈ refs → ref_column col ∈ valid_columns c.

Definition rule_sound (regex : string → option string) (r : Config.TransformRule) : Prop :=
  match r with
  | Config.RegexReplace pattern _ => pattern ≠ "" ∧ regex pattern = None
  | Config.Substring start length_ => (1 ≤ start)%Z ∧ (1 ≤ length_)%Z
  | Config.Strip cs => cs ≠ ""
  | Config.Dictionary m => m ≠ ∅
  | _ => True
  end.

Record group_sound (c : Config.Config) (token : string) (g : Config.SurvivorshipGroup) : Prop := {
  gs_fields : 2 ≤ length (Config.fields g);
  gs_chain : is_Some (Config.survivorship c !! token);
  gs_known : ∀ f, f ∈ Config.fields g → f ∈ valid_columns c;
  gs_owned : ∀ f, f ∈ Config.fields g → Config.survivorship c !! f = None;
  gs_controlling : ∀ x, Config.controlling g = Some x → x ∈ Config.fields g;
  gs_name : token ∈ (if Config.is_person (Config.entity_type c) then SCALAR_ATTRIBUTES else ACCT_SCALAR_ATTRIBUTES) →
    token ∈ Config.fields g;
}.

(** What a publish demands of a configuration. *)
Record references_sound (parse : string → result Expr string) (regex : string → option string)
    (c : Config.Config) : Prop := {
  rs_features : ∀ f, f ∈ Config.features_related c → feature_sound c f;
  rs_prefixes : NoDup (Config.prefix <$> Config.features_related c);
  rs_models : ∀ m, m ∈ Config.models c → Config.ms_name m ≠ "" ∧ trim (Config.ms_name m) = Config.ms_name m;
  rs_distinct : NoDup (Config.ms_name <$> Config.models c);
  rs_blocking : ∀ b, b ∈ Config.blocking c → sql_sound parse c "blocking" (Config.expr b);
  rs_comparisons : dom (Config.comparisons c) ⊆ valid_columns c;
  rs_tf : ∀ x spec, Config.comparisons c !! x = Some spec → Config.cs_tf spec = true →
    Some "exact" ∈ Config.cs_levels spec;
  rs_constraints : ∀ x, x ∈ Config.constraint_columns (Config.constraints c) → x ∈ valid_columns c;
  rs_transforms : ∀ x rules, Config.transforms c !! x = Some rules →
    x ∈ Config.canonical_attributes (Config.entity_type c) ∧ rules ≠ []
    ∧ ∀ r, r ∈ rules → rule_sound regex r;
  rs_segments : ∀ x sql, Config.segments c !! x = Some sql → sql_sound parse c "segment" sql;
  rs_groups : ∀ token g, Config.survivorship_groups c !! token = Some g → group_sound c token g;
  rs_claims : NoDup (map_sorted (Config.survivorship_groups c) ≫= λ p, Config.fields p.2);
}.

(** The values of a column that are neither null nor blank. *)
Definition present_values (blank : string → bool) (rows : list (option string)) : list string :=
  filter (λ v, blank v = false) (omap id rows).

Definition occurrences (v : string) (l : list string) : nat := length (filter (λ w, w = v) l).

(** The rows whose value some other row carries too. *)
Definition repeated (l : list string) : list string := filter (λ v, 2 ≤ occurrences v l) l.

(** A profile of the rows, exact. *)
Record measures (blank : string → bool) (rows : list (option string)) (p : ProfiledColumn) : Prop := {
  me_rows : row_count p = Z.of_nat (length rows);
  me_non_null : non_null_count p = Z.of_nat (length (omap id rows));
  me_blank : blank_count p = Z.of_nat (length (filter (λ v, blank v = true) (omap id rows)));
  me_distinct : ∀ d, distinct_exact p = Some d →
    d = Z.of_nat (size (list_to_set (omap id rows) : gset string));
}.

(** ** Lemmas *)

Lemma unless_nil b p : unless b p = [] ↔ b = true.
Proof. by destruct b. Qed.

Lemma app_nil_iff {A} (l k : list A) : l ++ k = [] ↔ l = [] ∧ k = [].
Proof. split; [apply app_eq_nil|]. by intros [-> ->]. Qed.

Lemma bind_nil_iff {A B} (f : A → list B) l : l ≫= f = [] ↔ ∀ x, x ∈ l → f x = [].
Proof.
  induction l as [|x l IH]; simpl; [split; [by intros _ x ?%elem_of_nil|done]|].
  rewrite app_nil_iff, IH. setoid_rewrite elem_of_cons. naive_solver.
Qed.

Lemma dedup_sort_nil l : dedup (sort_strings l) = [] ↔ l = [].
Proof.
  split; [|by intros ->]. intros H. destruct l as [|x l]; [done|].
  assert (x ∈ dedup (sort_strings (x :: l))) as Hx by (rewrite elem_of_dedup, elem_of_sort_strings; left).
  rewrite H in Hx. by apply elem_of_nil in Hx.
Qed.

#[local] Ltac problems := rewrite ?app_nil_iff, ?unless_nil, ?negb_true_iff, ?bool_decide_eq_true, ?bool_decide_eq_false.

(** *** Features and models *)

Lemma feature_problems_nil c seen f :
  feature_problems (set_sorted (dom (Config.sources c))) seen f = []
  ↔ feature_sound c f ∧ Config.prefix f ∉ seen.
Proof.
  unfold feature_problems. problems. rewrite bind_nil_iff, elem_of_set_sorted. setoid_rewrite unless_nil.
  split.
  - intros (? & ? & ? & ? & ? & ?). split; [|done]. split; try done. split; [done|]. by apply Forall_forall.
  - intros [[? [? Ha] ? ?] ?]. rewrite Forall_forall in Ha. done.
Qed.

Lemma related_problems_nil c l : ∀ seen,
  related_problems (set_sorted (dom (Config.sources c))) seen l = []
  ↔ (∀ f, f ∈ l → feature_sound c f) ∧ NoDup (Config.prefix <$> l)
    ∧ ∀ f, f ∈ l → Config.prefix f ∉ seen.
Proof.
  induction l as [|f l IH]; intros seen; simpl.
  { split; [|done]. intros _. split_and!; [by intros ? ?%elem_of_nil|constructor|by intros ? ?%elem_of_nil]. }
  rewrite app_nil_iff, feature_problems_nil, IH, NoDup_cons, list_elem_of_fmap.
  setoid_rewrite elem_of_cons. setoid_rewrite elem_of_app. setoid_rewrite list_elem_of_singleton.
  split.
  - intros ([? ?] & Hs & Hn & Hseen). split_and!; [naive_solver| |done|naive_solver].
    intros (g & E & Hg). apply (Hseen g Hg). auto.
  - intros (Hs & [Hf Hn] & Hseen). split_and!; [naive_solver..|done|].
    intros g Hg [?|E]; [by eapply Hseen; eauto|]. apply Hf. eauto.
Qed.

Lemma model_problems_nil l : ∀ i seen,
  model_problems i seen l = []
  ↔ (∀ m, m ∈ l → Config.ms_name m ≠ "" ∧ trim (Config.ms_name m) = Config.ms_name m)
    ∧ NoDup (Config.ms_name <$> l) ∧ ∀ m, m ∈ l → Config.ms_name m ∉ seen.
Proof.
  induction l as [|m l IH]; intros i seen; simpl.
  { split; [|done]. intros _. split_and!; [by intros ? ?%elem_of_nil|constructor|by intros ? ?%elem_of_nil]. }
  rewrite NoDup_cons, list_elem_of_fmap. setoid_rewrite elem_of_cons. set (n := Config.ms_name m) in *.
  destruct (decide (trim n = "")) as [E|E]; [|destruct (decide (trim n ∈ seen)) as [E'|E']].
  - split; [done|]. intros (Hm & _). destruct (Hm m) as [Hne Htrim]; [by left|]. fold n in Hne, Htrim. congruence.
  - split; [done|]. intros (Hm & _ & Hs). destruct (Hm m) as [Hne Htrim]; [by left|].
    destruct (Hs m); [by left|]. fold n in Htrim |- *. congruence.
  - cbn [app]. rewrite app_nil_iff, unless_nil, bool_decide_eq_true, IH.
    setoid_rewrite elem_of_union. setoid_rewrite elem_of_singleton. split.
    + intros (Htrim & Hm & Hn & Hs). rewrite Htrim in *. split_and!; [|..|done|].
      * intros x [->|Hx]; [by split|by apply Hm].
      * intros (x & En & Hx). apply (Hs x Hx). by left.
      * intros x [->|Hx] Hin; [by apply E'|]. by apply (Hs x Hx); right.
    + intros (Hm & [Hf Hn] & Hs). destruct (Hm m) as [_ Htrim]; [by left|]. fold n in Htrim. rewrite Htrim in *.
      split_and!; [done|by auto|done|]. intros x Hx [En|Hin]; [|by apply (Hs x); auto].
      apply Hf. by exists x.
Qed.

(** *** Columns, transforms and groups *)

Lemma sql_problems_nil parse c context subject sql :
  sql_problems parse (valid_columns c) context subject sql = [] ↔ sql_sound parse c context sql.
Proof.
  unfold sql_problems, sql_sound. destruct (columns_used parse sql context) as [refs|]; [|naive_solver].
  rewrite bind_nil_iff. setoid_rewrite unless_nil. setoid_rewrite bool_decide_eq_true. naive_solver.
Qed.

Lemma rule_problems_nil regex attribute r : rule_problems regex attribute r = [] ↔ rule_sound regex r.
Proof.
  destruct r as [| | | |pattern ?|cs|start len| |m]; simpl; try done.
  - destruct (decide _); [naive_solver|]. destruct (regex pattern); naive_solver.
  - problems. done.
  - problems. rewrite orb_false_iff, !Z.ltb_ge. done.
  - problems. done.
Qed.

Lemma fields_problems_spec c token l : ∀ claimed,
  let r := fields_problems c (valid_columns c) token claimed l in
  (r.1 = [] ↔ (∀ f, f ∈ l → f ∈ valid_columns c ∧ Config.survivorship c !! f = None)
              ∧ NoDup l ∧ ∀ f, f ∈ l → f ∉ dom claimed)
  ∧ (r.1 = [] → dom r.2 = dom claimed ∪ list_to_set l).
Proof.
  induction l as [|f l IH]; intros claimed; simpl.
  { split; [|set_solver]. split; [|done]. intros _.
    split_and!; [by intros ? ?%elem_of_nil|constructor|by intros ? ?%elem_of_nil]. }
  rewrite NoDup_cons. setoid_rewrite elem_of_cons. unfold field_problems.
  destruct (decide (f ∉ valid_columns c)) as [Hv|Hv].
  { specialize (IH claimed). destruct (fields_problems _ _ _ _ _) as [ps cl]. simpl. split; [|done].
    split; [done|]. intros (H & _). by destruct (H f); [left|]. }
  apply dec_stable in Hv. specialize (IH (<[f:=token]> claimed)).
  destruct (fields_problems _ _ _ _ _) as [ps cl]. simpl in IH |- *. destruct IH as [IH1 IH2].
  rewrite !app_nil_iff, unless_nil, negb_true_iff, bool_decide_eq_false, <-eq_None_not_Some.
  destruct (claimed !! f) as [other|] eqn:Ec.
  { split; [|by intros [[? _] _]]. split; [by intros [[? _] _]|].
    intros (_ & _ & Hd). destruct (Hd f); [by left|]. by apply elem_of_dom_2 in Ec. }
  apply not_elem_of_dom in Ec. rewrite IH1. setoid_rewrite dom_insert_L. split.
  - split.
    + intros ([_ Hs] & Hl & Hn & Hd). split_and!; [naive_solver| |done|].
      * intros Hin. by apply (Hd f Hin), elem_of_union_l, elem_of_singleton.
      * intros g [->|Hg]; [done|]. specialize (Hd g Hg). set_solver.
    + intros (Hl & [Hf Hn] & Hd). split_and!; [done|by apply Hl; left|by intros g Hg; apply Hl; right|done|].
      intros g Hg. specialize (Hd g (or_intror Hg)). assert (g ≠ f) by (by intros ->). set_solver.
  - intros (_ & H). rewrite IH2; [rewrite dom_insert_L; set_solver|]. apply IH1. setoid_rewrite dom_insert_L. exact H.
Qed.

Lemma group_problems_spec c token g claimed :
  let r := group_problems c (valid_columns c) claimed token g in
  (r.1 = [] ↔ group_sound c token g ∧ NoDup (Config.fields g) ∧ ∀ f, f ∈ Config.fields g → f ∉ dom claimed)
  ∧ (r.1 = [] → dom r.2 = dom claimed ∪ list_to_set (Config.fields g)).
Proof.
  unfold group_problems. pose proof (fields_problems_spec c token (Config.fields g) claimed) as [H1 H2].
  destruct (fields_problems _ _ _ _ _) as [ps cl]. cbn [fst snd] in *.
  rewrite !app_nil_iff, !unless_nil, negb_true_iff, Nat.ltb_ge, bool_decide_eq_true.
  assert (∀ b b', negb (b && negb b') = true ↔ (b = true → b' = true)) as Hb by (intros [] []; simpl; naive_solver).
  rewrite Hb, !bool_decide_eq_true.
  split.
  - rewrite H1. split.
    + intros (? & ? & (Hf & ? & ?) & Hx & ?). split_and!; [|done..].
      split; [done|done|by apply Hf|by apply Hf| |done].
      destruct (Config.controlling g) as [x|]; [|done]. apply unless_nil, bool_decide_eq_true in Hx. naive_solver.
    + intros ([] & ? & ?). split_and!; try done; [by auto|].
      destruct (Config.controlling g) as [x|]; [|done]. apply unless_nil, bool_decide_eq_true. auto.
  - intros (_ & _ & ? & _). by apply H2.
Qed.

Lemma groups_problems_nil c l : ∀ claimed,
  groups_problems c (valid_columns c) claimed l = []
  ↔ (∀ token g, (token, g) ∈ l → group_sound c token g)
    ∧ NoDup (l ≫= λ p, Config.fields p.2)
    ∧ ∀ f, f ∈ (l ≫= λ p, Config.fields p.2) → f ∉ dom claimed.
Proof.
  induction l as [|[token g] l IH]; intros claimed; simpl.
  { split; [|done]. intros _. split_and!; [by intros ?? ?%elem_of_nil|constructor|by intros ? ?%elem_of_nil]. }
  pose proof (group_problems_spec c token g claimed) as [H1 H2].
  destruct (group_problems _ _ _ _ _) as [ps cl]. cbn [fst snd] in *.
  rewrite app_nil_iff, NoDup_app. setoid_rewrite elem_of_cons. setoid_rewrite elem_of_app. split.
  - intros [Hp Hl]. pose proof (H2 Hp) as Hd. apply H1 in Hp as (Hg & Hn & Hc).
    apply IH in Hl as (Hs & Hn' & Hc'). rewrite Hd in Hc'. split_and!; [naive_solver|done| |done|].
    + intros f Hf Hf'. apply (Hc' f Hf'). set_solver.
    + intros f [Hf|Hf]; [by apply Hc|]. specialize (Hc' f Hf). set_solver.
  - intros (Hs & (Hn & Hx & Hn') & Hc). assert (ps = []) as Hp.
    { apply H1. split_and!; [by apply Hs; left|done|by intros; apply Hc; left]. }
    split; [done|]. apply IH. rewrite (H2 Hp). split_and!; [by intros; apply Hs; right|done|].
    intros f Hf. specialize (Hc f (or_intror Hf)). assert (f ∉ Config.fields g) by (by intros ?; apply (Hx f)). set_solver.
Qed.

(** ** Theorems *)

(** C17: a publish is refused exactly when the configuration breaks a rule: the
    check reports no problem if and only if the features can be joined and name
    distinct prefixes, the models are distinct trimmed names, every key, segment,
    comparison and constraint reads columns of the entity type or borrowed ones,
    every term-frequency comparison has its exact level, the transforms are
    well-formed over canonical attributes, and the survivorship groups are
    disjoint, owned and named apart. *)
Theorem config_reference_correct parse regex c :
  config_reference_problems parse regex c = [] ↔ references_sound parse regex c.
Proof.
  unfold config_reference_problems, reference_problems, validate. rewrite dedup_sort_nil, !app_nil_iff.
  rewrite related_problems_nil, model_problems_nil, groups_problems_nil, !bind_nil_iff.
  setoid_rewrite unless_nil. setoid_rewrite bool_decide_eq_true. setoid_rewrite elem_of_set_sorted.
  unfold blocking_problems, segment_problems, transform_problems. setoid_rewrite sql_problems_nil.
  split.
  - intros ((Hf & Hp & _) & (Hm & Hd & _) & Hb & Hc & Htf & Hk & Ht & Hs & Hg & Hn & _).
    split; [exact Hf|exact Hp|exact Hm|exact Hd|exact Hb|exact Hc| |exact Hk| | | |exact Hn].
    + intros x spec Hx%elem_of_map_sorted Hon. specialize (Htf (x, spec) Hx). simpl in Htf.
      unfold has_exact in Htf. rewrite Hon in Htf. simpl in Htf.
      by rewrite negb_involutive, bool_decide_eq_true in Htf.
    + intros x rules Hx%elem_of_map_sorted. specialize (Ht (x, rules) Hx). simpl in Ht.
      rewrite !app_nil_iff, !unless_nil, negb_true_iff, bool_decide_eq_true, bool_decide_eq_false, bind_nil_iff in Ht.
      setoid_rewrite rule_problems_nil in Ht. destruct Ht as (? & Hl & ?). split_and!; [done| |done].
      by intros ->.
    + intros x sql Hx%elem_of_map_sorted. by specialize (Hs (x, sql) Hx).
    + intros token g Hx%elem_of_map_sorted. by apply Hg.
  - intros [Hf Hp Hm Hd Hb Hc Htf Hk Ht Hs Hg Hn].
    split_and!; [exact Hf|exact Hp|by intros ? _ ?%elem_of_nil|exact Hm|exact Hd|by intros ? _ ?%elem_of_empty
      |exact Hb|exact Hc| |exact Hk| | | |exact Hn|by intros ? _; rewrite dom_empty_L; apply not_elem_of_empty].
    + intros [x spec] Hx%elem_of_map_sorted. simpl. unfold has_exact.
      specialize (Htf x spec Hx). destruct (Config.cs_tf spec); [|done]. simpl.
      rewrite bool_decide_true; [done|by apply Htf].
    + intros [x rules] Hx%elem_of_map_sorted. simpl.
      rewrite !app_nil_iff, !unless_nil, negb_true_iff, bool_decide_eq_true, bool_decide_eq_false, bind_nil_iff.
      setoid_rewrite rule_problems_nil. destruct (Ht x rules Hx) as (? & Hl & ?). split_and!; [done| |done].
      by destruct rules.
    + intros [x sql] Hx%elem_of_map_sorted. by eapply Hs.
    + intros token g Hx%elem_of_map_sorted. by apply Hg.
Qed.

(** *** Term frequencies *)

Lemma boundary_before_ascii s c t : byte_in 128 191 c = false →
  is_char_boundary (s +:+ String c t) (String.length s) = true.
Proof.
  intros Hc. unfold is_char_boundary. assert (String.get (String.length s) (s +:+ String c t) = Some c) as ->.
  { induction s as [|d s IH]; [done|]. exact IH. }
  rewrite Hc. by rewrite !orb_true_r.
Qed.

Lemma cut2_suffix x c : cut2 (x +:+ String "_" (String c "")) = Some x.
Proof.
  unfold cut2, truncate. rewrite str_length_app. change (String.length (String "_" (String c ""))) with 2.
  rewrite (proj2 (Nat.ltb_ge _ _)) by lia. replace (String.length x + 2 - 2) with (String.length x) by lia.
  rewrite boundary_before_ascii by done. f_equal.
  induction x as [|d x IH]; [done|]. simpl. by f_equal.
Qed.

(** The equality of the two sides of [x] is an exact match on [x]. *)
Lemma exact_sides to_lowercase x :
  exact_loop to_lowercase []
    (SqlColumns.conjuncts (BinaryOp (Identifier (x +:+ "_l")) OpEq (Identifier (x +:+ "_r"))))
  = Some (Some [to_lowercase x]).
Proof.
  cbn [SqlColumns.conjuncts exact_loop as_bare_column].
  rewrite decide_False by (rewrite !str_length_app; simpl; lia).
  rewrite (cut2_suffix x "l"), (cut2_suffix x "r"). cbn [fmap option_fmap option_map mbind option_bind].
  by rewrite decide_True.
Qed.

(** The lookup finds a level that is an exact match on the column. *)
Lemma tf_base_by_sibling to_lowercase comparison level t sibling :
  tf level = Some t → sibling ∈ levels comparison →
  l_exact_match_columns sibling = Some [to_lowercase (tf_column t)] →
  ∃ u, u_probability_for_tf_base to_lowercase comparison level = Some (Ok u).
Proof.
  intros Ht Hin Hex. unfold u_probability_for_tf_base. rewrite Ht. simpl.
  destruct (tf_disable_exact t); [by eexists|].
  destruct (find_first _ _) as [l|] eqn:E; [by eexists|].
  exfalso. rewrite find_first_None in E. specialize (E _ Hin). simpl in E.
  by rewrite Hex, bool_decide_true in E.
Qed.

Lemma no_problem_tf parse regex c x spec :
  config_reference_problems parse regex c = [] → Config.comparisons c !! x = Some spec →
  Config.cs_tf spec = true → Some "exact" ∈ Config.cs_levels spec.
Proof.
  unfold config_reference_problems, reference_problems. rewrite dedup_sort_nil, !app_nil_iff.
  intros (_ & _ & _ & _ & Htf & _) Hx%elem_of_map_sorted Hon. rewrite bind_nil_iff in Htf.
  specialize (Htf _ Hx). apply unless_nil in Htf. unfold has_exact in Htf. simpl in Htf. rewrite Hon in Htf. simpl in Htf.
  by rewrite negb_involutive, bool_decide_eq_true in Htf.
Qed.

(** C16: a configuration the publish check lets through cannot fail in scoring
    for want of a base for its term frequencies: whatever it compiles and loads
    to, the u of the base of every level that adjusts by term frequency is
    found, when the parser reads the equality of two quoted columns as such. *)
Theorem tf_base_found parse regex parse_f64 display exp2 to_lowercase pow2 shown c options s loaded :
  config_reference_problems parse regex c = [] →
  Compile.settings_of parse_f64 display exp2 c options = Some (Ok s) →
  compile parse to_lowercase pow2 shown s = Some (Ok loaded) →
  (∀ x, x ∈ dom (Config.comparisons c) →
     parse (Compile.side x "l" +:+ " = " +:+ Compile.side x "r")
     = Ok (BinaryOp (Identifier (x +:+ "_l")) OpEq (Identifier (x +:+ "_r")))) →
  ∀ comparison level, comparison ∈ comparisons loaded → level ∈ levels comparison →
    has_tf_adjustments level = true →
    ∃ u, u_probability_for_tf_base to_lowercase comparison level = Some (Ok u).
Proof.
  intros Hok Hs Hl Hparse comparison level Hc Hlevel Htf.
  apply compile_compiled in Hl. apply list_elem_of_lookup in Hc as [i Hi].
  destruct (Forall2_lookup_r _ _ _ _ _ Hl Hi) as (cj & Hcj & [_ Hlevels _]).
  apply list_elem_of_lookup_2 in Hcj.
  destruct (Compile.settings_of_comparisons _ _ _ _ _ _ Hs cj Hcj) as (x & spec & w & Hx & Hcomp).
  destruct (Compile.compile_comparison_tf _ _ _ _ _ _ _ _ Hcomp) as [Hcol Hexact].
  apply list_elem_of_lookup in Hlevel as [k Hk].
  destruct (Forall2_lookup_r _ _ _ _ _ Hlevels Hk) as (lj & Hlj & Hcl).
  unfold has_tf_adjustments in Htf. destruct (tf level) as [t|] eqn:Et; [|done].
  pose proof (cl_tf _ _ _ _ Hcl) as Htfof. rewrite Et in Htfof. unfold tf_of in Htfof.
  destruct (lj_tf_column lj) as [y|] eqn:Ey; [|done]. injection Htfof as ->.
  apply list_elem_of_lookup_2 in Hlj. destruct (Hcol lj y Hlj Ey) as [-> Hon].
  destruct (Hexact (no_problem_tf _ _ _ _ _ Hok Hx Hon)) as (lj' & Hlj' & Hnull & Hsql).
  apply list_elem_of_lookup in Hlj' as [k' Hk'].
  destruct (Forall2_lookup_l _ _ _ _ _ Hlevels Hk') as (sibling & Hsib & Hcl').
  eapply tf_base_by_sibling; [exact Et|by eapply list_elem_of_lookup_2|].
  pose proof (cl_exact _ _ _ _ Hcl' "") as He. unfold level_exact in He. rewrite Hsql, Hnull in He.
  assert (is_else_condition (Compile.side x "l" +:+ " = " +:+ Compile.side x "r") = false) as Helse
    by (cbn; Compile.not_else_text).
  rewrite Helse in He. cbn [orb] in He. unfold exact_match_columns, parse_expr in He.
  rewrite Helse, Hparse in He by (apply elem_of_dom; by eexists). rewrite exact_sides in He. by simplify_eq/=.
Qed.

(** *** The floor *)

Lemma NoDup_occurrences l : (∀ v, occurrences v l ≤ 1) → NoDup l.
Proof.
  induction l as [|x l IH]; intros H; constructor.
  - intros Hin. specialize (H x). unfold occurrences in H. rewrite filter_cons_True in H by done. simpl in H.
    assert (x ∈ filter (λ w, w = x) l) as Hx by by apply list_elem_of_filter.
    destruct (filter (λ w, w = x) l); [by apply elem_of_nil in Hx|simpl in H; lia].
  - apply IH. intros v. specialize (H v). unfold occurrences in *. rewrite filter_cons in H.
    destruct (decide (x = v)); simpl in H; lia.
Qed.

Lemma length_filter_le {A} (P : A → Prop) `{∀ x, Decision (P x)} l : length (filter P l) ≤ length l.
Proof. induction l as [|x l IH]; [done|]. rewrite filter_cons. destruct (decide _); simpl; lia. Qed.

Lemma occurrences_filter (P : string → Prop) `{∀ x, Decision (P x)} v l :
  occurrences v (filter P l) ≤ occurrences v l ∧ (¬ P v → occurrences v (filter P l) = 0).
Proof.
  unfold occurrences. induction l as [|x l [IH1 IH2]]; [by split|].
  rewrite !(filter_cons _ x). destruct (decide (P x)); [rewrite filter_cons|];
    destruct (decide (x = v)); simpl; split; subst; try lia; try done; intros Hn; by apply IH2.
Qed.

(** Values in excess of the distinct ones are repeats. *)
Lemma repeats_bound l :
  length l ≤ size (list_to_set l : gset string) + length (repeated l).
Proof.
  set (P := λ v, 2 ≤ occurrences v l). assert (length l = length (filter (λ v, ¬ P v) l) + length (repeated l)) as ->.
  { unfold repeated. fold P. generalize l at 1 3 5. intros k. induction k as [|x k IH]; [done|].
    rewrite !filter_cons. destruct (decide (P x)), (decide (¬ P x)); simpl; try lia; tauto. }
  enough (length (filter (λ v, ¬ P v) l) ≤ size (list_to_set l : gset string)) by lia.
  assert (NoDup (filter (λ v, ¬ P v) l)) as Hn.
  { apply NoDup_occurrences. intros v. destruct (occurrences_filter (λ v, ¬ P v) v l) as [H1 H2].
    destruct (decide (P v)) as [Hp|Hp]; [rewrite H2 by auto; lia|]. unfold P in Hp. lia. }
  apply NoDup_length_set; [exact Hn|]. intros v. rewrite elem_of_list_to_set, list_elem_of_filter. tauto.
Qed.

Lemma length_complement (f : string → bool) l :
  length l = length (filter (λ v, f v = false) l) + length (filter (λ v, f v = true) l).
Proof.
  induction l as [|x l IH]; [done|]. rewrite !filter_cons. simpl. rewrite IH.
  destruct (f x) eqn:E; rewrite ?decide_True, ?decide_False by congruence; simpl; lia.
Qed.

(** The floor the publish notes give on duplicates is one: when the profile
    measured the rows, at least that many of them carry a value, not blank, that
    another row carries too. *)
Theorem duplicate_floor_sound by_name key column floor present distinct p blank rows :
  floor_of by_name key = Some (column, floor, present, distinct) →
  by_name !! key = Some p → measures blank rows p →
  column = key ∧ present = Z.of_nat (length (present_values blank rows))
  ∧ (0 < floor ≤ Z.of_nat (length (repeated (present_values blank rows))))%Z.
Proof.
  intros Hf Hp [Hr Hn Hb Hd]. unfold floor_of in Hf. rewrite Hp in Hf. simpl in Hf.
  destruct (distinct_exact p) as [d|]; [|done]. specialize (Hd d eq_refl). simpl in Hf.
  destruct (_ || _); [done|]. destruct (SFltb _ _); [done|].
  destruct (Z.ltb_spec 0 (non_null_count p - blank_count p - d)) as [Hpos|]; [|done]. injection Hf as <- <- <- <-.
  pose proof (length_complement blank (omap id rows)) as Hl. fold (present_values blank rows) in Hl.
  pose proof (repeats_bound (present_values blank rows)) as Hrep.
  assert (size (list_to_set (present_values blank rows) : gset string)
          ≤ size (list_to_set (omap id rows) : gset string)) as Hs.
  { apply subseteq_size. intros v. rewrite !elem_of_list_to_set. unfold present_values.
    rewrite list_elem_of_filter. tauto. }
  split_and!; [done|lia|done|lia].
Qed.

(** ** A sample *)

Module SampleCheck.
Import Compile.SampleRules.
Definition parse (sql : string) : result Expr string :=
  if decide (sql = "email") then Ok (Identifier "email")
  else if decide (sql = Compile.side "email" "l" +:+ " = " +:+ Compile.side "email" "r")
  then Ok (BinaryOp (Identifier "email_l") OpEq (Identifier "email_r"))
  else Ok (Identifier "x").

Definition loaded : option (SettingsJson * Settings) :=
  s ← settings;
  match compile parse to_ascii_lowercase (λ _, f64_of 1) (λ _, "") s with
  | Some (Ok l) => Some (s, l)
  | _ => None
  end.

Lemma reference_loaded_Some : ∃ s l, loaded = Some (s, l)
  ∧ Compile.settings_of number (λ _, "0.9") (λ _, f64_of 1) config Compile.default_options = Some (Ok s)
  ∧ compile parse to_ascii_lowercase (λ _, f64_of 1) (λ _, "") s = Some (Ok l).
Proof.
  destruct loaded as [[s l]|] eqn:E; [|by vm_compute in E]. exists s, l. split; [done|].
  unfold loaded in E. destruct settings as [s'|] eqn:Es; [|done]. cbn [mbind option_bind] in E.
  destruct (compile _ _ _ _ s') as [[l'|]|] eqn:El; [|done..]. injection E as <- <-. split; [|exact El].
  unfold settings in Es. destruct (Compile.settings_of _ _ _ _ _) as [[?|]|]; [|done..]. congruence.
Qed.

Definition rows : list (option string) := [Some "ann"; Some "ann"; Some "bob"; Some "cyd"; None; Some "dot"].

Definition profiled : ProfiledColumn := mkProfiled "email" 6 5 0 (Some (f64_of 1)) (Some 4%Z).
End SampleCheck.

Lemma tf_base_found_witness :
  ∃ s l, SampleCheck.loaded = Some (s, l)
    ∧ ∀ comparison level, comparison ∈ comparisons l → level ∈ levels comparison →
        has_tf_adjustments level = true →
        ∃ u, u_probability_for_tf_base to_ascii_lowercase comparison level = Some (Ok u).
Proof.
  destruct SampleCheck.reference_loaded_Some as (s & l & Hl & Hs & Hc). exists s, l. split; [exact Hl|].
  assert (config_reference_problems SampleCheck.parse (λ _, None) Compile.SampleRules.config = []) as Hok
    by (vm_compute; reflexivity).
  refine (tf_base_found SampleCheck.parse (λ _, None) Compile.SampleRules.number (λ _, "0.9") (λ _, f64_of 1)
            to_ascii_lowercase (λ _, f64_of 1) (λ _, "") Compile.SampleRules.config Compile.default_options s l
            Hok Hs Hc _).
  intros x Hx. assert (x = "email") as ->; [|by vm_compute].
  apply elem_of_dom in Hx as [spec Hx]. revert Hx.
  change (Config.comparisons Compile.SampleRules.config) with ({["email" := Config.mkComparisonSpec
    [Some "exact"; Some "jaro_winkler:0.9"; None] true None Config.Never]} : gmap string Config.ComparisonSpec).
  by intros [<- _]%lookup_singleton_Some.
Defined.

Lemma duplicate_floor_sound_witness :
  "email" = "email" ∧ 5%Z = Z.of_nat (length (present_values (λ v, bool_decide (v = "")) SampleCheck.rows))
  ∧ (0 < 1 ≤ Z.of_nat (length (repeated (present_values (λ v, bool_decide (v = "")) SampleCheck.rows))))%Z.
Proof.
  apply (duplicate_floor_sound {["email" := SampleCheck.profiled]} "email" "email" 1 5 4 SampleCheck.profiled
           (λ v, bool_decide (v = "")) SampleCheck.rows).
  - vm_compute. reflexivity.
  - vm_compute. reflexivity.
  - split; [done|done|done|]. intros d [= <-]. vm_compute. reflexivity.
Defined.

(** ** Where the check lets through what it means to refuse *)

#[local] Definition with_features (c : Config.Config) (l : list Config.RelatedFeature) : Config.Config :=
  Config.mkConfig (Config.entity_type c) (Config.approval_tag c) (Config.tenant c) (Config.thresholds c)
    (Config.models c) (Config.standardization c) (Config.transforms c) (Config.sources c) (Config.blocking c)
    (Config.constraints c) (Config.comparisons c) (Config.segments c) l (Config.data_quality c)
    (Config.survivorship c) (Config.survivorship_groups c) (Config.training c) (Config.storage c)
    (Config.versions c) (Config.generator_seed c) (Config.clustering c) (Config.coherence_scorer c)
    (Config.correction_cadence c).

(** A borrowed column may bear the name of a standardized one, or of another
    feature's: the prefixes are compared, the columns are not. *)
Example borrowed_columns_collide :
  let c := with_features Compile.SampleRules.config
             [Config.mkRelated "addr" "employer_id" "crm" ["city"; "city_code"];
              Config.mkRelated "addr_city" "employer_id" "crm" ["code"]] in
  config_reference_problems SampleCheck.parse (λ _, None) c = []
  ∧ derived_columns c = ["addr_city"; "addr_city_code"; "addr_city_code"]
  ∧ "addr_city" ∈ int_std_record_columns false.
Proof. split; [vm_compute; reflexivity|]. split; [reflexivity|]. by apply (bool_decide_unpack _). Qed.
