(* ===== verification/Webhooks.v ===== *)
(** * Webhooks: subscriptions, the delivery outbox and its drain

    [er-server/src/webhook.rs] and the five handlers of [lib.rs], over the
    statements of [er-entities/src/webhook.rs] and [webhook_delivery.rs].  An
    event is recorded for every subscriber first ([emit]) and posted later by a
    drain ([drain_once]), which claims a due row, reads the subscriber's
    endpoint, checks the destination, posts and settles.  The MAC, the HTTP
    exchange, the URL parser, the resolver, the clock's text and the wording of
    a refusal are parameters. *)

From stdpp Require Import pretty.
From S2P Require Import Prelude Ids Text Json Sql UrlGuard Auth.
From Stdlib Require Import Ascii.

#[local] Open Scope Z_scope.

(** ** Definitions *)

(** *** The catalog *)

Definition EVENT_CATALOG : list (string * string) :=
  [("job.succeeded",
    "A queued job finished successfully. Fired once per OUTCOME, not per attempt — a job " +:+
    "that failed twice and then succeeded delivers one success.");
   ("job.failed",
    "A job failed terminally, after exhausting retries if its failure was retryable. The " +:+
    "payload carries the job's `error_class`, so a subscriber can tell a missing input " +:+
    "(precondition) from a real fault.");
   ("job.canceled",
    "An operator canceled the job. Until this release cancel delivered nothing at all, so" +:+
    " a system waiting on an outcome waited forever.");
   ("config.published",
    "A config version became the active one. Carries the version, the change TIER and the" +:+
    " blocks that moved, so a subscriber can tell a threshold tweak (tier A, which re-" +:+
    "reads existing scores) from a comparison change (tier C, which retrains and re-" +:+
    "resolves the corpus) without diffing YAML.");
   ("import.received",
    "A delivery landed and its run was queued. Fired when the file is committed to the " +:+
    "drop root, not when the run finishes — those are different questions, and " +:+
    "`job.succeeded` already answers the second, keyed by the `job_id` this payload " +:+
    "carries.");
   ("review.resolved",
    "A steward resolved a review and the decision was APPLIED to the lake. Not fired at " +:+
    "the moment of resolution: a resolution is staged and drained later, and a subscriber" +:+
    " acting on an intent the engine has not enforced yet would read a corpus that " +:+
    "disagrees with the event. Carries the verdict, including a dismissal.");
   ("entity.created",
    "A run created entities that did not exist before. AGGREGATED: one event per kind per" +:+
    " run, carrying the count and `detail_path`, not one event per entity — a run over a " +:+
    "large corpus writes millions of ledger rows and a POST each would be worse than " +:+
    "none.");
   ("entity.member_added",
    "Records joined entities that already existed. Aggregated per run like every " +:+
    "`entity.*` event. This is the kind that tells a downstream system a golden record it" +:+
    " already holds has changed underneath it, without it having to diff the whole " +:+
    "corpus.");
   ("entity.member_removed",
    "Records left entities that survived. Aggregated per run. Paired with `member_added` " +:+
    "this is the honest description of a re-resolution: the partition moved, and these " +:+
    "are the two directions it moved in.");
   ("entity.merged",
    "Entities were merged into one. Aggregated per run. The event a subscriber most often" +:+
    " wants, and the one a tenant could previously subscribe to and wait forever for — it" +:+
    " was the worked example in this catalog's own reason for existing.");
   ("entity.split",
    "An entity separated into several. Aggregated per run. Fires for a steward `never` " +:+
    "assertion taking effect and for a re-resolution the corpus no longer supports, which" +:+
    " are the same fact to a subscriber.");
   ("entity.retired",
    "Entities stopped existing — every member moved elsewhere. Aggregated per run. A " +:+
    "subscriber holding a reference to one needs to know it is now a tombstone rather " +:+
    "than absent.");
   ("entity.write_back",
    "A steward's resolution was applied and this is the resulting master record, with its" +:+
    " members — the outbound write-back (O4). Deliberately NOT aggregated, unlike the " +:+
    "`entity.*` events above: a write-back's volume is bounded by resolutions a human " +:+
    "applied rather than by corpus size, and the receiving system needs the RECORD, not a" +:+
    " count it would then have to fetch. Fires once per affected entity, so a `no_match` " +:+
    "that separates a pair delivers both.")].

Definition is_known_event (event_type : string) : bool :=
  existsb (λ '(name, _), bool_decide (name = event_type)) EVENT_CATALOG.

Definition catalog_json : json :=
  JArray ((λ '(name, description),
    JObject [("description", JString description); ("event", JString name)]) <$> EVENT_CATALOG).

Definition MAX_DELIVERY_ATTEMPTS : Z := 6.

(** *** The tables *)

Record Webhook := mkWebhook {
  w_id : string;
  w_org_id : string;
  w_dataset_id : option string;
  w_url : string;
  w_events : json;
  w_secret : string;
  w_active : bool;
  w_created_at : Z;
  w_updated_at : Z;
}.

#[global] Instance Webhook_eta : Etable Webhook :=
  λ w, mkWebhook (w_id w) (w_org_id w) (w_dataset_id w) (w_url w) (w_events w) (w_secret w)
    (w_active w) (w_created_at w) (w_updated_at w).

Record WebhookDelivery := mkDelivery {
  d_id : string;
  d_org_id : string;
  d_dataset_id : option string;
  d_webhook_id : string;
  d_event_type : string;
  d_payload : json;
  d_state : string;
  d_attempt : Z;
  d_max_attempts : Z;
  d_next_attempt_at : option Z;
  d_response_code : option Z;
  d_error : option string;
  d_delivered_at : option Z;
  d_created_at : Z;
  d_updated_at : Z;
}.

#[global] Instance WebhookDelivery_eta : Etable WebhookDelivery :=
  λ d, mkDelivery (d_id d) (d_org_id d) (d_dataset_id d) (d_webhook_id d) (d_event_type d)
    (d_payload d) (d_state d) (d_attempt d) (d_max_attempts d) (d_next_attempt_at d)
    (d_response_code d) (d_error d) (d_delivered_at d) (d_created_at d) (d_updated_at d).

(** The two tables, beside the tenants they refer to and the identifiers of
    the datasets. *)
Record HookDb := mkHooks {
  control : ControlDb;
  dataset_ids : list string;
  webhooks : list Webhook;
  deliveries : list WebhookDelivery;
}.

#[global] Instance HookDb_eta : Etable HookDb :=
  λ h, mkHooks (control h) (dataset_ids h) (webhooks h) (deliveries h).

Definition DELIVERY_STATES : list string := ["pending"; "delivered"; "failed"].

Definition bigint (z : Z) : bool := bool_decide (- 2 ^ 63 ≤ z < 2 ^ 63).

(** What a row refers to. *)
Definition refers (h : HookDb) (org_id : string) (dataset_id : option string) : bool :=
  bool_decide (org_id ∈ o_id <$> orgs (control h))
  && match dataset_id with Some ds => bool_decide (ds ∈ dataset_ids h) | None => true end.

(** [CREATE TABLE public.webhooks], [public.webhook_deliveries]. *)
Definition webhooks_valid (h : HookDb) (l : list Webhook) : bool :=
  forallb (λ w, refers h (w_org_id w) (w_dataset_id w)) l.

Definition webhooks_unique (l : list Webhook) : bool := unique (λ _, true) w_id l.

Definition deliveries_valid (h : HookDb) (l : list WebhookDelivery) : bool :=
  forallb (λ d, refers h (d_org_id d) (d_dataset_id d)
                && bool_decide (d_webhook_id d ∈ w_id <$> webhooks h)
                && bool_decide (d_state d ∈ DELIVERY_STATES)
                && bigint (d_attempt d) && bigint (d_max_attempts d)) l.

Definition deliveries_unique (l : list WebhookDelivery) : bool := unique (λ _, true) d_id l.

(** *** Statements *)

(** [events @> to_jsonb($2) OR jsonb_array_length(events) = 0]; what is not
    an array has no length, which is an error. *)
Definition subscribed (event_type : string) (w : Webhook) : bool :=
  match w_events w with
  | JArray l => existsb (λ v, bool_decide (as_str v = Some event_type)) l || (length l =? 0)%nat
  | _ => false
  end.

Definition is_array (v : json) : bool := match v with JArray _ => true | _ => false end.

Definition oldest_webhook (a b : Webhook) : Prop := w_created_at a ≤ w_created_at b.

#[global] Instance oldest_webhook_dec a b : Decision (oldest_webhook a b).
Proof. unfold oldest_webhook. apply _. Defined.

(** [ORDER BY d.created_at, d.id]. *)
Definition delivery_cmp (a b : WebhookDelivery) : comparison :=
  match Z.compare (d_created_at a) (d_created_at b) with
  | Eq => String.compare (d_id a) (d_id b)
  | c => c
  end.

(** [ORDER BY created_at DESC, id DESC]. *)
Definition newest_delivery (a b : WebhookDelivery) : Prop :=
  d_created_at b < d_created_at a
  ∨ d_created_at a = d_created_at b ∧ String.le (d_id b) (d_id a).

#[global] Instance newest_delivery_dec a b : Decision (newest_delivery a b).
Proof. unfold newest_delivery. apply _. Defined.

Section statements.
Context (now : Z).

Definition update_deliveries (where_ : WebhookDelivery → bool)
    (set : WebhookDelivery → WebhookDelivery) : stmt HookDb (list WebhookDelivery) := λ h,
  let '(l, ret) := update_rows where_ set (deliveries h) in
  install (deliveries_valid h l) (deliveries_unique l) ret (h <| deliveries := l |>).

(** [webhook_delivery/create/enqueue]. *)
Definition enqueue_delivery (id org_id : string) (dataset_id : option string)
    (webhook_id event_type : string) (payload : json) (max_attempts : Z) :
    stmt HookDb (list WebhookDelivery) := λ h,
  let row := mkDelivery id org_id dataset_id webhook_id event_type payload "pending" 0
               max_attempts None None None None now now in
  let l := deliveries h ++ [row] in
  install (deliveries_valid h l) (deliveries_unique l) [row] (h <| deliveries := l |>).

(** [webhook_delivery/read/page]. *)
Definition page (org_id : string) (webhook_id state : option string) (limit : Z) (h : HookDb) :
    list WebhookDelivery :=
  take (Z.to_nat limit) (merge_sort newest_delivery
    (filter (λ d, d_org_id d = org_id
                  ∧ (webhook_id = None ∨ webhook_id = Some (d_webhook_id d))
                  ∧ (state = None ∨ state = Some (d_state d))) (deliveries h))).

Definition due (d : WebhookDelivery) : bool :=
  bool_decide (d_state d = "pending")
  && match d_next_attempt_at d with None => true | Some t => t <=? now end.

(** The [SELECT d.id .. FOR UPDATE SKIP LOCKED LIMIT 1] of a claim; the rows
    locked are those a concurrent statement holds at this instant. *)
Definition claim_pick (locked : gset string) (h : HookDb) : option WebhookDelivery :=
  min_by delivery_cmp
    (filter (λ d, Is_true (due d && bool_decide (d_id d ∉ locked))) (deliveries h)).

(** [webhook_delivery/update/claim]. *)
Definition claim_delivery (locked : gset string) : stmt HookDb (list WebhookDelivery) :=
  h ← get;
  update_deliveries (λ d, bool_decide (d_id <$> claim_pick locked h = Some (d_id d)))
    (λ d, d <| d_attempt := d_attempt d + 1 |> <| d_updated_at := now |>).

(** [least(300, 5 * power(2, greatest(attempt - 1, 0)))]. *)
Definition backoff_secs (attempt : Z) : Z := Z.min 300 (5 * 2 ^ Z.max (attempt - 1) 0).

(** [webhook_delivery/update/settle]. *)
Definition settled_row (delivered retryable : bool) (response_code : option Z)
    (error : option string) (d : WebhookDelivery) : WebhookDelivery :=
  let again := retryable && (d_attempt d <? d_max_attempts d) in
  d <| d_state := if delivered then "delivered" else if again then "pending" else "failed" |>
    <| d_next_attempt_at :=
         if negb delivered && again then Some (after_secs now (backoff_secs (d_attempt d)))
         else d_next_attempt_at d |>
    <| d_response_code := response_code |> <| d_error := error |>
    <| d_delivered_at := if delivered then Some now else d_delivered_at d |>
    <| d_updated_at := now |>.

Definition settle_delivery (delivered retryable : bool) (response_code : option Z)
    (error : option string) (delivery_id : string) : stmt HookDb (list WebhookDelivery) :=
  update_deliveries (λ d, bool_decide (d_id d = delivery_id))
    (settled_row delivered retryable response_code error).

(** [webhook/create/create]. *)
Definition insert_webhook (webhook_id org_id : string) (dataset_id : option string) (url : string)
    (events : json) (secret : string) : stmt HookDb nat := λ h,
  let l := webhooks h ++ [mkWebhook webhook_id org_id dataset_id url events secret true now now] in
  install (webhooks_valid h l) (webhooks_unique l) 1%nat (h <| webhooks := l |>).

(** [webhook/read/by_id], [for_delivery], [list_active]. *)
Definition webhook_by_id (webhook_id : string) (h : HookDb) : list Webhook :=
  filter (λ w, w_id w = webhook_id ∧ w_active w = true) (webhooks h).

Definition active_of (org_id : string) (h : HookDb) : list Webhook :=
  filter (λ w, w_org_id w = org_id ∧ w_active w = true) (webhooks h).

Definition for_delivery (org_id event_type : string) (h : HookDb) :
    result (list Webhook) DbError :=
  if forallb (λ w, is_array (w_events w)) (active_of org_id h) then
    Ok (merge_sort oldest_webhook
          (filter (λ w, Is_true (subscribed event_type w)) (active_of org_id h)))
  else Err OtherError.

Definition list_active (org_id : string) (h : HookDb) : list Webhook :=
  merge_sort oldest_webhook (active_of org_id h).

(** [webhook/update/deactivate]. *)
Definition deactivate (org_id webhook_id : string) : stmt HookDb nat := λ h,
  let '(l, ret) := update_rows
    (λ w, bool_decide (w_org_id w = org_id) && bool_decide (w_id w = webhook_id) && w_active w)
    (λ w, w <| w_active := false |> <| w_updated_at := now |>) (webhooks h) in
  install (webhooks_valid h l) (webhooks_unique l) (length ret) (h <| webhooks := l |>).
End statements.

(** *** [pg.rs] *)

(** The identifier is minted by the caller. *)
Definition pg_create_webhook (now : Z) (webhook_id org_id : string) (dataset_id : option string)
    (url : string) (events : json) (secret : string) : stmt HookDb string :=
  _ ← insert_webhook now webhook_id org_id dataset_id url events secret; mret webhook_id.

Definition list_webhooks (org_id : string) (h : HookDb) : list (string * string * json * bool) :=
  (λ w, (w_id w, w_url w, w_events w, w_active w)) <$> list_active org_id h.

Definition webhooks_for_delivery (org_id event_type : string) (h : HookDb) :
    result (list (string * string * string)) DbError :=
  match for_delivery org_id event_type h with
  | Ok l => Ok ((λ w, (w_id w, w_url w, w_secret w)) <$> l)
  | Err e => Err e
  end.

Definition webhook_endpoint (webhook_id : string) (h : HookDb) : option (string * string) :=
  (λ w, (w_url w, w_secret w)) <$> head (webhook_by_id webhook_id h).

Definition pg_delete_webhook (now : Z) (org_id webhook_id : string) : stmt HookDb bool :=
  n ← deactivate now org_id webhook_id; mret (n =? 1)%nat.

(** *** Recording an event *)

(** [Map::insert] on an object in key order. *)
Fixpoint obj_insert (k : string) (v : json) (fields : list (string * json)) :
    list (string * json) :=
  match fields with
  | [] => [(k, v)]
  | (k', v') :: rest =>
      match String.compare k k' with
      | Lt => (k, v) :: fields
      | Eq => (k, v) :: rest
      | Gt => (k', v') :: obj_insert k v rest
      end
  end.

Definition event_body (event_type org_name : string) (data : json) : json :=
  let doc := [("event", JString event_type); ("org", JString org_name)] in
  JObject (match data with
           | JObject extra => foldl (λ obj '(k, v), obj_insert k v obj) doc extra
           | _ => doc
           end).

(** One row per target; each insert commits, and the first failure ends the
    loop.  [ids] are the identifiers it mints. *)
Fixpoint emit_rows (now : Z) (ids : nat → string) (org_id : string) (dataset_id : option string)
    (event_type : string) (body : json) (targets : list (string * string * string))
    (queued : list WebhookDelivery) (h : HookDb) :
    result (list WebhookDelivery) DbError * HookDb :=
  match targets with
  | [] => (Ok queued, h)
  | (webhook_id, _, _) :: targets =>
      match transaction (enqueue_delivery now (ids 0%nat) org_id dataset_id webhook_id event_type
                           body MAX_DELIVERY_ATTEMPTS) h with
      | (Ok row, h) => emit_rows now (λ i, ids (S i)) org_id dataset_id event_type body targets
                         (queued ++ row) h
      | (Err e, h) => (Err e, h)
      end
  end.

Definition emit (now : Z) (ids : nat → string) (org_id : string) (dataset_id : option string)
    (org_name event_type : string) (data : json) (h : HookDb) :
    result (list WebhookDelivery) DbError * HookDb :=
  match webhooks_for_delivery org_id event_type h with
  | Err e => (Err e, h)
  | Ok [] => (Ok [], h)
  | Ok targets =>
      emit_rows now ids org_id dataset_id event_type (event_body event_type org_name data) targets
        [] h
  end.

(** *** Draining *)

(** A request a delivery makes: its URL, its body, its signature header. *)
Record Request := mkRequest { r_url : string; r_body : string; r_signature : string }.

(** What the network answers at one moment: the resolver, and the status of a
    request or its transport error. *)
Record Network := mkNetwork {
  resolve : string → Z → option (list IpAddr);
  send : Request → result Z string;
}.

Record Verdict := mkVerdict {
  v_delivered : bool;
  v_retryable : bool;
  v_status : option Z;
  v_error : option string;
}.

Record Delivered := mkDelivered {
  del_delivery_id : string;
  del_webhook_id : string;
  del_state : string;
  del_status : option Z;
  del_error : option string;
}.

Section drain.
Context (parse_url : string → option Url).
Context (rejection_text : UrlRejection → string).
Context (hmac_sha256 : string → string → list Z) (to_vec : json → string).

Definition sign (secret body : string) : string :=
  "sha256=" +:+ hex_of (hmac_sha256 secret body).

Definition in_range (lo hi z : Z) : bool := (lo <=? z) && (z <? hi).

(** What the answer to a post means. *)
Definition classify_answer (answer : result Z string) : Verdict :=
  match answer with
  | Ok code =>
      if in_range 200 300 code then mkVerdict true false (Some code) None
      else mkVerdict false ((code =? 408) || (code =? 429) || in_range 500 600 code) (Some code)
             (Some ("HTTP " +:+ pretty code))
  | Err e => mkVerdict false true None (Some e)
  end.

(** Everything between the claim of a row and its settlement: the verdict, and
    the request that was made. *)
Definition attempt (egress : Egress) (net : Network) (endpoint : option (string * string))
    (payload : json) : Verdict * option Request :=
  match endpoint with
  | None => (mkVerdict false false None (Some "the subscription no longer exists"), None)
  | Some (url, secret) =>
      let body := to_vec payload in
      match check parse_url (resolve net) url egress with
      | Err rejection =>
          (mkVerdict false false None (Some ("refused: " +:+ rejection_text rejection)), None)
      | Ok _ =>
          let request := mkRequest url body (sign secret body) in
          (classify_answer (send net request), Some request)
      end
  end.

(** [settle]: the resulting state, [failed] when the row is gone. *)
Definition settle (now : Z) (delivery_id : string) (v : Verdict) : stmt HookDb string :=
  rows ← settle_delivery now (v_delivered v) (v_retryable v) (v_status v) (v_error v) delivery_id;
  mret (default "failed" (d_state <$> head rows)).

(** When the claim and the settlement of one attempt happen, and what the
    network answers in between. *)
Record Moment := mkMoment { claim_at : Z; settle_at : Z; network : Network; locks : gset string }.

(** The endpoint is read after the claim. *)
Definition drain_once_with_egress (egress : Egress) (m : Moment) (h : HookDb) :
    result (option Delivered) DbError * HookDb :=
  match transaction (claim_delivery (claim_at m) (locks m)) h with
  | (Err e, h) => (Err e, h)
  | (Ok rows, h) =>
      match head rows with
      | None => (Ok None, h)
      | Some d =>
          let v := (attempt egress (network m) (webhook_endpoint (d_webhook_id d) h)
                      (d_payload d)).1 in
          match transaction (settle (settle_at m) (d_id d) v) h with
          | (Err e, h) => (Err e, h)
          | (Ok state, h) =>
              (Ok (Some (mkDelivered (d_id d) (d_webhook_id d) state (v_status v) (v_error v))), h)
          end
      end
  end.

Definition drain_once : Moment → HookDb → result (option Delivered) DbError * HookDb :=
  drain_once_with_egress Guarded.

(** [drain]: [at_] is when each attempt of the pass happens. *)
Fixpoint drain (budget : nat) (at_ : nat → Moment) (settled : nat) (h : HookDb) :
    result nat DbError * HookDb :=
  match budget with
  | O => (Ok settled, h)
  | S budget =>
      match drain_once (at_ 0%nat) h with
      | (Err e, h) => (Err e, h)
      | (Ok None, h) => (Ok settled, h)
      | (Ok (Some _), h) => drain budget (λ i, at_ (S i)) (S settled) h
      end
  end.
End drain.

(** *** The handlers *)

Section handlers.
Context (connect : string → result unit string) (db_text : DbError → string).
Context (parse_url : string → option Url) (rejection_text : UrlRejection → string).
Context (rfc3339 : Z → string).

#[local] Open Scope rust_scope.

(** The best-effort audit row of a request. *)
Definition audited (trace : option string) (p : Principal) (org action : string) (detail : json)
    (h : HookDb) : HookDb :=
  h <| control := audit trace p org action detail (control h) |>.

Definition respond (checked : result (Response * HookDb) Response) (h : HookDb) :
    Response * HookDb :=
  match checked with Ok rh => rh | Err r => (r, h) end.

Definition webhook_events_catalog (p : Principal) (org : string) : Response :=
  match guard p org Viewer with
  | Err r => r
  | Ok _ => (200, JObject [("events", catalog_json)])
  end.

Record WebhookIn := mkWebhookIn {
  in_url : string;
  in_events : list string;
  in_secret : option string;
}.

(** [buf] is the 24 random bytes of [gen_webhook_secret]. *)
Definition chosen_secret (body : WebhookIn) (buf : list Z) : string :=
  match in_secret body with
  | Some s => if decide (s = "") then hex_of buf else s
  | None => hex_of buf
  end.

Definition unknown_events (body : WebhookIn) : list string :=
  filter (λ e, is_known_event e = false) (in_events body).

Definition unknown_refusal (unknown : list string) : Response :=
  detail_err 422 ("unknown event type(s) " +:+ String.concat ", " unknown
    +:+ "; this system emits " +:+ String.concat ", " (EVENT_CATALOG.*1)
    +:+ " (see GET /v1/orgs/{org}/webhooks/events)").

Definition create_webhook (now : Z) (trace : option string) (mint_id : string) (buf : list Z)
    (lookup_host : string → Z → option (list IpAddr)) (st : AppState) (p : Principal)
    (org : string) (body : WebhookIn) (h : HookDb) : Response * HookDb :=
  respond
    (_ <-? guard p org Admin;
     _ <-? (if decide (trim (in_url body) = "") then Err (detail_err 422 "url is required")
            else Ok tt);
     _ <-? match check parse_url lookup_host (in_url body) Guarded with
           | Ok _ => Ok tt
           | Err rejection => Err (detail_err 422 (rejection_text rejection))
           end;
     _ <-? connected connect st "webhooks require Postgres";
     org_row <-? org_or_404 org (control h);
     let secret := chosen_secret body buf in
     _ <-? match unknown_events body with
           | [] => Ok tt
           | unknown => Err (unknown_refusal unknown)
           end;
     let events := json_keys (in_events body) in
     match transaction (pg_create_webhook now mint_id (o_id org_row) None (in_url body) events
                          secret) h with
     | (Ok webhook_id, h) =>
         Ok ((201, JObject [("active", JBool true); ("events", events);
                            ("id", JString webhook_id); ("secret", JString secret);
                            ("url", JString (in_url body))]),
             audited trace p org "webhook.create"
               (JObject [("url", JString (in_url body)); ("webhook_id", JString webhook_id)]) h)
     | (Err e, h) => Ok (pg_err db_text e, h)
     end) h.

Definition webhooks_index (st : AppState) (p : Principal) (org : string) (h : HookDb) : Response :=
  match (_ <-? guard p org Viewer;
         _ <-? connected connect st "webhooks require Postgres";
         org_or_404 org (control h)) with
  | Err r => r
  | Ok org_row =>
      (200, JArray ((λ '(id, url, events, active),
         JObject [("active", JBool active); ("events", events); ("id", JString id);
                  ("url", JString url)]) <$> list_webhooks (o_id org_row) h))
  end.

Definition delete_webhook (now : Z) (trace : option string) (st : AppState) (p : Principal)
    (org webhook_id : string) (h : HookDb) : Response * HookDb :=
  respond
    (_ <-? guard p org Admin;
     _ <-? connected connect st "webhooks require Postgres";
     org_row <-? org_or_404 org (control h);
     match transaction (pg_delete_webhook now (o_id org_row) webhook_id) h with
     | (Ok deleted, h) =>
         Ok ((200, JObject [("deleted", JBool deleted)]),
             if deleted : bool
             then audited trace p org "webhook.delete"
                    (JObject [("webhook_id", JString webhook_id)]) h
             else h)
     | (Err e, h) => Ok (pg_err db_text e, h)
     end) h.

Definition opt_json {A} (f : A → json) (o : option A) : json :=
  match o with Some x => f x | None => JNull end.

Definition time_json (t : Z) : json := JString (rfc3339 t).

Definition delivery_json (d : WebhookDelivery) : json :=
  JObject [("attempt", JInt (d_attempt d)); ("created_at", time_json (d_created_at d));
           ("dataset_id", opt_json JString (d_dataset_id d));
           ("delivered_at", opt_json time_json (d_delivered_at d));
           ("error", opt_json JString (d_error d)); ("event_type", JString (d_event_type d));
           ("id", JString (d_id d)); ("max_attempts", JInt (d_max_attempts d));
           ("next_attempt_at", opt_json time_json (d_next_attempt_at d));
           ("org_id", JString (d_org_id d)); ("payload", d_payload d);
           ("response_code", opt_json JInt (d_response_code d)); ("state", JString (d_state d));
           ("updated_at", time_json (d_updated_at d)); ("webhook_id", JString (d_webhook_id d))].

(** The query of the delivery log. *)
Record DeliveryQuery := mkDeliveryQuery {
  q_webhook_id : option string;
  q_state : option string;
  q_limit : option Z;
}.

Definition clamp (lo hi z : Z) : Z := Z.max lo (Z.min hi z).

Definition webhook_deliveries (st : AppState) (p : Principal) (org : string) (q : DeliveryQuery)
    (h : HookDb) : Response :=
  match (_ <-? guard p org Viewer;
         _ <-? connected connect st "webhooks require Postgres";
         org_row <-? org_or_404 org (control h);
         match q_state q with
         | Some bad =>
             if decide (bad ∈ DELIVERY_STATES) then Ok org_row
             else Err (detail_err 422
                         ("unknown state '" +:+ bad +:+ "' (pending, delivered, failed)"))
         | None => Ok org_row
         end) with
  | Err r => r
  | Ok org_row =>
      (200, JObject [("deliveries", JArray (delivery_json <$>
         page (o_id org_row) (q_webhook_id q) (q_state q) (clamp 1 200 (default 50 (q_limit q))) h))])
  end.
End handlers.

(** ** The outbox as a transition system

    Requests, the commits of the control tables, and the halves of the drains
    of any number of dispatchers, in any order.  A drain holds the row it
    claimed, then its verdict; it may die with either. *)

Record Outbox := mkOutbox {
  db : HookDb;
  claimed : list WebhookDelivery;
  judged : list (string * Verdict);
  posted : list (string * Request);
}.

#[global] Instance Outbox_eta : Etable Outbox :=
  λ s, mkOutbox (db s) (claimed s) (judged s) (posted s).

(** How the control plane is configured, and what it runs on. *)
Record Setting := mkSetting {
  g_sha256 : string → list Z;
  g_connect : string → result unit string;
  g_db_text : DbError → string;
  g_parse_url : string → option Url;
  g_rejection_text : UrlRejection → string;
  g_hmac_sha256 : string → string → list Z;
  g_to_vec : json → string;
}.

Section steps.
Context (g : Setting).

(** What is done to the tables but for draining. *)
Inductive request_step (h : HookDb) : HookDb → Prop :=
| step_control c' :
    control_step (g_sha256 g) (g_db_text g) (g_connect g) (control h) c' →
    request_step h (h <| control := c' |>)
| step_dataset ds : request_step h (h <| dataset_ids := dataset_ids h ++ [ds] |>)
| step_create now trace id buf lookup st p org body :
    request_step h (create_webhook (g_connect g) (g_db_text g) (g_parse_url g) (g_rejection_text g)
                      now trace id buf lookup st p org body h).2
| step_delete now trace st p org id :
    request_step h (delete_webhook (g_connect g) (g_db_text g) now trace st p org id h).2
| step_emit now ids org_id ds org_name event_type data :
    request_step h (emit now ids org_id ds org_name event_type data h).2.

Definition attempt_of (net : Network) (d : WebhookDelivery) (h : HookDb) :
    Verdict * option Request :=
  attempt (g_parse_url g) (g_rejection_text g) (g_hmac_sha256 g) (g_to_vec g)
    Guarded net (webhook_endpoint (d_webhook_id d) h) (d_payload d).

Inductive outbox_step (s : Outbox) : Outbox → Prop :=
| step_request h' : request_step (db s) h' → outbox_step s (s <| db := h' |>)
| step_claim now locked rows h' :
    claim_delivery now locked (db s) = Ok (rows, h') →
    outbox_step s (s <| db := h' |> <| claimed := rows ++ claimed s |>)
| step_attempt d l1 l2 net :
    claimed s = l1 ++ d :: l2 →
    outbox_step s (s <| claimed := l1 ++ l2 |>
      <| judged := (d_id d, (attempt_of net d (db s)).1) :: judged s |>
      <| posted := option_list (pair (d_id d) <$> (attempt_of net d (db s)).2) ++ posted s |>)
| step_settle now id v l1 l2 :
    judged s = l1 ++ (id, v) :: l2 →
    outbox_step s (s <| db := (transaction (settle now id v) (db s)).2 |>
      <| judged := l1 ++ l2 |>)
| step_die l l' :
    sublist l (claimed s) → sublist l' (judged s) →
    outbox_step s (s <| claimed := l |> <| judged := l' |>).

(** One dispatcher, which finishes each attempt before the next. *)
Inductive serial_step (h : HookDb) : HookDb → Prop :=
| serial_request h' : request_step h h' → serial_step h h'
| serial_drain m :
    serial_step h (drain_once (g_parse_url g) (g_rejection_text g)
                     (g_hmac_sha256 g) (g_to_vec g) m h).2.

(** The tables of a new deployment: no subscription, nothing recorded. *)
Definition fresh (c : ControlDb) (ds : list string) : HookDb := mkHooks c ds [] [].

Definition reachable (s : Outbox) : Prop :=
  ∃ c ds, control_ok c ∧ rtc outbox_step (mkOutbox (fresh c ds) [] [] []) s.

Definition serially_reachable (h : HookDb) : Prop :=
  ∃ c ds, control_ok c ∧ rtc serial_step (fresh c ds) h.
End steps.

(** ** Lemmas *)

(** What no statement changes in a row. *)
Definition static_w (w : Webhook) :=
  (w_id w, w_org_id w, w_dataset_id w, w_url w, w_events w, w_secret w, w_created_at w).

Definition static_d (d : WebhookDelivery) :=
  (d_id d, d_org_id d, d_dataset_id d, d_webhook_id d, d_event_type d, d_payload d,
   d_max_attempts d, d_created_at d).

(** The event and the tenant of a delivery are those of its subscription. *)
Definition targets (d : WebhookDelivery) (w : Webhook) : Prop :=
  w_id w = d_webhook_id d ∧ w_org_id w = d_org_id d ∧ subscribed (d_event_type d) w = true.

(** A subscription as registration leaves it. *)
Definition registered (parse_url : string → option Url) (w : Webhook) : Prop :=
  (∃ es, w_events w = json_keys es ∧ Forall (λ e, is_known_event e = true) es)
  ∧ ∃ lookup, check parse_url lookup (w_url w) Guarded = Ok tt.

Record hooks_ok (g : Setting) (h : HookDb) : Prop := {
  ho_control : control_ok (control h);
  ho_webhooks : webhooks_valid h (webhooks h) = true ∧ NoDup (w_id <$> webhooks h);
  ho_deliveries : deliveries_valid h (deliveries h) = true ∧ NoDup (d_id <$> deliveries h);
  ho_registered : ∀ w, w ∈ webhooks h → registered (g_parse_url g) w;
  ho_targets : ∀ d, d ∈ deliveries h → ∃ w, w ∈ webhooks h ∧ targets d w;
  ho_bounds : ∀ d, d ∈ deliveries h → d_max_attempts d = MAX_DELIVERY_ATTEMPTS ∧ 0 ≤ d_attempt d;
}.

Lemma refers_mono h h' org ds :
  (∀ o, o ∈ o_id <$> orgs (control h) → o ∈ o_id <$> orgs (control h')) →
  dataset_ids h ⊆ dataset_ids h' → refers h org ds = true → refers h' org ds = true.
Proof.
  intros Ho Hd. unfold refers. rewrite !andb_true_iff, !bool_decide_eq_true.
  intros [? Hds]. split; [auto|]. destruct ds; [|done].
  rewrite bool_decide_eq_true in Hds |- *. auto.
Qed.

Lemma keeps_org_ids c c' o :
  keeps c c' → o ∈ o_id <$> orgs c → o ∈ o_id <$> orgs c'.
Proof.
  intros [Ho _] (r & -> & (r' & Hr' & <- & _)%Ho)%list_elem_of_fmap. by apply list_elem_of_fmap_2.
Qed.

Lemma webhooks_valid_mono h h' l :
  (∀ o, o ∈ o_id <$> orgs (control h) → o ∈ o_id <$> orgs (control h')) →
  dataset_ids h ⊆ dataset_ids h' → webhooks_valid h l = true → webhooks_valid h' l = true.
Proof.
  intros Ho Hd. unfold webhooks_valid. rewrite !forallb_forall. intros Hl w Hw.
  by apply (refers_mono h), Hl.
Qed.

Lemma deliveries_valid_spec h l :
  deliveries_valid h l = true ↔ ∀ d, d ∈ l →
    refers h (d_org_id d) (d_dataset_id d) = true ∧ d_webhook_id d ∈ w_id <$> webhooks h
    ∧ d_state d ∈ DELIVERY_STATES ∧ - 2 ^ 63 ≤ d_attempt d < 2 ^ 63
    ∧ - 2 ^ 63 ≤ d_max_attempts d < 2 ^ 63.
Proof.
  unfold deliveries_valid, bigint. rewrite forallb_forall.
  split; intros Hl d Hd; apply list_elem_of_In in Hd; specialize (Hl d Hd);
    rewrite !andb_true_iff, !bool_decide_eq_true in *; tauto.
Qed.

Lemma deliveries_valid_mono h h' l :
  (∀ o, o ∈ o_id <$> orgs (control h) → o ∈ o_id <$> orgs (control h')) →
  dataset_ids h ⊆ dataset_ids h' →
  (∀ w, w ∈ w_id <$> webhooks h → w ∈ w_id <$> webhooks h') →
  deliveries_valid h l = true → deliveries_valid h' l = true.
Proof.
  intros Ho Hd Hw. rewrite !deliveries_valid_spec. intros Hl d (Hr & Hwh & Hrest)%Hl.
  split; [by apply (refers_mono h)|]. split; [by apply Hw|exact Hrest].
Qed.

(** A row of a table whose fixed columns are kept. *)
Lemma static_row {R T} (st : R → T) (l l' : list R) r :
  st <$> l `prefix_of` st <$> l' → r ∈ l → ∃ r', r' ∈ l' ∧ st r' = st r.
Proof.
  intros [k Hk] Hr. assert (st r ∈ st <$> l') as (r' & Hst & Hr')%list_elem_of_fmap; [|by exists r'].
  rewrite Hk. apply elem_of_app. left. by apply list_elem_of_fmap_2.
Qed.

Lemma static_key {R T K} (st : R → T) (key : R → K) (l l' : list R) :
  (∀ r s, st r = st s → key r = key s) → st <$> l = st <$> l' → key <$> l = key <$> l'.
Proof.
  intros Hk. revert l'. induction l as [|r l IH]; intros [|s l'] E; try done.
  rewrite !fmap_cons in *. injection E as E1 E2. f_equal; auto.
Qed.

(** The only thing to know of a webhook is its fixed columns. *)
Lemma targets_static d d' w w' :
  static_d d = static_d d' → static_w w = static_w w' → targets d w → targets d' w'.
Proof.
  unfold static_d, static_w, targets, subscribed. intros Hd Hw.
  injection Hd as _ Ho _ Hi He _ _ _. injection Hw as Hwi Hwo _ _ Hwe _ _.
  by rewrite <-Ho, <-Hi, <-He, <-Hwi, <-Hwo, <-Hwe.
Qed.

Lemma registered_static parse_url w w' :
  static_w w = static_w w' → registered parse_url w → registered parse_url w'.
Proof.
  unfold static_w, registered. intros Hw. injection Hw as _ _ _ Hu He _ _. by rewrite <-Hu, <-He.
Qed.

(** *** Statements and the invariant *)

Lemma update_deliveries_Ok p f h ret h' :
  update_deliveries p f h = Ok (ret, h') →
  h' = h <| deliveries := (λ d, if p d then f d else d) <$> deliveries h |>
  ∧ ret = f <$> filter (λ d, Is_true (p d)) (deliveries h)
  ∧ deliveries_valid h (deliveries h') = true ∧ NoDup (d_id <$> deliveries h').
Proof.
  unfold update_deliveries, update_rows. intros (Hv & Hu & <- & <-)%install_ok.
  unfold deliveries_unique in Hu. by rewrite unique_all in Hu.
Qed.

Lemma static_if (p : WebhookDelivery → bool) f (l : list WebhookDelivery) :
  (∀ d, static_d (f d) = static_d d) →
  static_d <$> ((λ d, if p d then f d else d) <$> l) = static_d <$> l.
Proof.
  intros Hf. rewrite <-list_fmap_compose. apply list_fmap_ext. intros i d _. simpl.
  by destruct (p d).
Qed.

Lemma hooks_ok_update g p f h ret h' :
  (∀ d, static_d (f d) = static_d d) → (∀ d, 0 ≤ d_attempt d → 0 ≤ d_attempt (f d)) →
  hooks_ok g h → update_deliveries p f h = Ok (ret, h') → hooks_ok g h'.
Proof.
  intros Hst Hat [Hc Hw Hd Hr Ht Hb] (-> & _ & Hv & Hu)%update_deliveries_Ok.
  split; simpl in *; [done|done|done|done| |].
  - intros d' (d & -> & Hin)%list_elem_of_fmap. destruct (Ht d Hin) as (w & Hw' & Hdw).
    exists w. split; [done|]. apply (targets_static d _ w w); [|done|done]. by destruct (p d).
  - intros d' (d & -> & Hin)%list_elem_of_fmap. destruct (Hb d Hin) as [Hm Ha].
    pose proof (Hst d) as Hs. unfold static_d in Hs. injection Hs as _ _ _ _ _ _ Hsm _.
    destruct (p d); [|done]. split; [by rewrite Hsm|by apply Hat].
Qed.

Lemma claim_delivery_eq now locked h :
  claim_delivery now locked h
  = update_deliveries (λ d, bool_decide (d_id <$> claim_pick now locked h = Some (d_id d)))
      (λ d, d <| d_attempt := d_attempt d + 1 |> <| d_updated_at := now |>) h.
Proof. reflexivity. Qed.

Lemma claim_ok g now locked h rows h' :
  hooks_ok g h → claim_delivery now locked h = Ok (rows, h') → hooks_ok g h'.
Proof.
  intros Hok Hcl. rewrite claim_delivery_eq in Hcl. eapply hooks_ok_update; [| |exact Hok|exact Hcl].
  - done.
  - intros d. simpl. lia.
Qed.

Lemma settle_inv now id v h state h' :
  settle now id v h = Ok (state, h') →
  ∃ rows, settle_delivery now (v_delivered v) (v_retryable v) (v_status v) (v_error v) id h
          = Ok (rows, h') ∧ state = default "failed" (d_state <$> head rows).
Proof. unfold settle. intros (rows & h1 & ? & [= <- <-])%bind_stmt. by exists rows. Qed.

Lemma settle_ok g now id v h state h' :
  hooks_ok g h → settle now id v h = Ok (state, h') → hooks_ok g h'.
Proof.
  intros Hok (rows & Hs & _)%settle_inv. eapply hooks_ok_update; [| |exact Hok|exact Hs]; done.
Qed.

(** The row of a recorded event. *)
Definition fresh_row (now : Z) (id org_id : string) (dataset_id : option string)
    (webhook_id event_type : string) (payload : json) : WebhookDelivery :=
  mkDelivery id org_id dataset_id webhook_id event_type payload "pending" 0
    MAX_DELIVERY_ATTEMPTS None None None None now now.

Lemma enqueue_ok g now id org ds w ev body h :
  hooks_ok g h → w ∈ webhooks h → w_org_id w = org → subscribed ev w = true →
  refers h org ds = true → id ∉ d_id <$> deliveries h →
  enqueue_delivery now id org ds (w_id w) ev body MAX_DELIVERY_ATTEMPTS h
  = Ok ([fresh_row now id org ds (w_id w) ev body],
        h <| deliveries := deliveries h ++ [fresh_row now id org ds (w_id w) ev body] |>).
Proof.
  intros [_ _ [Hv Hu] _ _ _] Hw Ho Hs Hr Hid. unfold enqueue_delivery, install.
  fold (fresh_row now id org ds (w_id w) ev body).
  assert (deliveries_valid h (deliveries h ++ [fresh_row now id org ds (w_id w) ev body]) = true)
    as ->.
  { rewrite deliveries_valid_spec in *. intros d [Hd| ->%list_elem_of_singleton]%elem_of_app; [auto|].
    simpl. split_and!; [exact Hr|by apply list_elem_of_fmap_2|unfold DELIVERY_STATES; set_solver|by vm_compute..]. }
  unfold deliveries_unique. rewrite (proj2 (unique_all _ _)); [done|].
  rewrite fmap_app. apply NoDup_app. split_and!; [done| |apply NoDup_singleton].
  intros x Hx ->%list_elem_of_singleton. done.
Qed.

Lemma enqueue_inv g now id org ds w ev body h rows h' :
  hooks_ok g h → w ∈ webhooks h → w_org_id w = org → subscribed ev w = true →
  enqueue_delivery now id org ds (w_id w) ev body MAX_DELIVERY_ATTEMPTS h = Ok (rows, h') →
  rows = [fresh_row now id org ds (w_id w) ev body]
  ∧ h' = h <| deliveries := deliveries h ++ rows |> ∧ hooks_ok g h'.
Proof.
  intros [Hc Hw [Hv Hu] Hr Ht Hb] Hwin Ho Hs.
  unfold enqueue_delivery. intros (Hv' & Hu' & <- & <-)%install_ok. split_and!; [done..|].
  unfold deliveries_unique in Hu'. rewrite unique_all in Hu'. split; simpl in *; [done..| |].
  - intros d [Hd| ->%list_elem_of_singleton]%elem_of_app; [auto|]. exists w. done.
  - intros d [Hd| ->%list_elem_of_singleton]%elem_of_app; [auto|]. done.
Qed.

Definition emitted (now : Z) (ids : nat → string) (org_id : string) (dataset_id : option string)
    (event_type : string) (body : json) (targets : list (string * string * string)) :
    list WebhookDelivery :=
  imap (λ i t, fresh_row now (ids i) org_id dataset_id t.1.1 event_type body) targets.

(** The targets are live subscriptions of the tenant to the event. *)
Definition target_ok (h : HookDb) (org event_type : string) (t : string * string * string) : Prop :=
  ∃ w, w ∈ webhooks h ∧ w_org_id w = org ∧ subscribed event_type w = true
       ∧ t = (w_id w, w_url w, w_secret w).

Lemma emitted_cons now ids org ds ev body t ts :
  emitted now ids org ds ev body (t :: ts)
  = fresh_row now (ids 0%nat) org ds t.1.1 ev body
    :: emitted now (λ i, ids (S i)) org ds ev body ts.
Proof. reflexivity. Qed.

Lemma emit_rows_inv g now org ds ev body ts : ∀ ids queued h,
  hooks_ok g h → Forall (target_ok h org ev) ts →
  ∃ k, let rows := take k (emitted now ids org ds ev body ts) in
    (emit_rows now ids org ds ev body ts queued h).2 = h <| deliveries := deliveries h ++ rows |>
    ∧ hooks_ok g (h <| deliveries := deliveries h ++ rows |>)
    ∧ ∀ q, (emit_rows now ids org ds ev body ts queued h).1 = Ok q →
        rows = emitted now ids org ds ev body ts ∧ q = queued ++ rows.
Proof.
  induction ts as [|t ts IH]; intros ids queued h Hok Hts.
  { exists 0%nat. simpl. rewrite app_nil_r. destruct h. split_and!; try done.
    intros q [= <-]. by rewrite app_nil_r. }
  apply Forall_cons in Hts as [(w & Hw & Ho & Hs & ->) Hts].
  destruct (enqueue_delivery now (ids 0%nat) org ds (w_id w) ev body MAX_DELIVERY_ATTEMPTS h)
    as [[row h1]|e] eqn:E.
  - destruct (enqueue_inv g now _ org ds w ev body h row h1 Hok Hw Ho Hs E) as (Hrow & Hh1 & Hok1).
    destruct (IH (λ i, ids (S i)) (queued ++ row) h1 Hok1) as (k & Hk & Hokk & Hq).
    { eapply Forall_impl; [exact Hts|]. intros t. rewrite Hh1. done. }
    subst row. exists (S k). cbv zeta. rewrite emitted_cons. cbn [emit_rows take].
    unfold transaction. rewrite E.
    assert (∀ l, h1 <| deliveries := deliveries h1 ++ l |>
                 = h <| deliveries := deliveries h ++ fresh_row now (ids 0%nat) org ds (w_id w) ev body
                                      :: l |>) as Hl.
    { intros l. rewrite Hh1. destruct h. cbn. by rewrite <-app_assoc. }
    rewrite Hl in Hk, Hokk. split_and!; [exact Hk|exact Hokk|].
    intros q [Hr ->]%Hq. split; [by rewrite Hr|]. by rewrite <-app_assoc.
  - exists 0%nat. simpl. unfold transaction. rewrite E, app_nil_r.
    destruct h. split_and!; try done.
Qed.

Lemma for_delivery_ok g org ev h :
  hooks_ok g h →
  for_delivery org ev h
  = Ok (merge_sort oldest_webhook (filter (λ w, Is_true (subscribed ev w)) (active_of org h))).
Proof.
  intros Hok. unfold for_delivery.
  destruct (forallb _ _) eqn:E; [done|]. exfalso. revert E. apply not_false_iff_true.
  apply forallb_forall. intros w [_ Hw]%list_elem_of_In%list_elem_of_filter.
  by destruct (ho_registered _ _ Hok w Hw) as [(es & -> & _) _].
Qed.

(** The subscriptions an event is recorded for. *)
Definition subscribers (org event_type : string) (h : HookDb) : list Webhook :=
  merge_sort oldest_webhook
    (filter (λ w, Is_true (subscribed event_type w)) (active_of org h)).

Lemma elem_of_subscribers org ev h w :
  w ∈ subscribers org ev h ↔
  w ∈ webhooks h ∧ w_org_id w = org ∧ w_active w = true ∧ subscribed ev w = true.
Proof.
  unfold subscribers, active_of.
  rewrite (merge_sort_Permutation oldest_webhook), !list_elem_of_filter, Is_true_true. naive_solver.
Qed.

Lemma webhooks_for_delivery_ok g org ev h :
  hooks_ok g h →
  webhooks_for_delivery org ev h
  = Ok ((λ w, (w_id w, w_url w, w_secret w)) <$> subscribers org ev h).
Proof. intros Hok. unfold webhooks_for_delivery. by rewrite (for_delivery_ok g). Qed.

Lemma subscribers_targets org ev h :
  Forall (target_ok h org ev) ((λ w, (w_id w, w_url w, w_secret w)) <$> subscribers org ev h).
Proof.
  apply Forall_fmap, Forall_forall. intros w (Hw & Ho & _ & Hs)%elem_of_subscribers. by exists w.
Qed.

(** Rows that were only recorded. *)
Definition is_fresh (d : WebhookDelivery) : Prop :=
  d_state d = "pending" ∧ d_attempt d = 0 ∧ d_next_attempt_at d = None ∧ d_delivered_at d = None.

Lemma emitted_fresh now ids org ds ev body ts : Forall is_fresh (emitted now ids org ds ev body ts).
Proof.
  revert ids. induction ts as [|t ts IH]; intros ids; [done|]. rewrite emitted_cons. by constructor.
Qed.

Lemma emit_inv g now ids org ds name ev data h :
  hooks_ok g h →
  ∃ rows, (emit now ids org ds name ev data h).2 = h <| deliveries := deliveries h ++ rows |>
    ∧ hooks_ok g (h <| deliveries := deliveries h ++ rows |>) ∧ Forall is_fresh rows.
Proof.
  intros Hok. unfold emit. rewrite (webhooks_for_delivery_ok g) by done.
  pose proof (subscribers_targets org ev h) as Hts.
  destruct (_ <$> _) as [|t ts].
  - exists []. simpl. rewrite app_nil_r. by destruct h.
  - destruct (emit_rows_inv g now org ds ev (event_body ev name data) (t :: ts) ids [] h Hok Hts)
      as (k & -> & Hok' & _). eexists. split_and!; [done..|]. apply Forall_take, emitted_fresh.
Qed.

(** *** The handlers *)

Lemma connected_err connect st missing e :
  connected connect st missing = Err e → e.1 ≠ 201.
Proof.
  unfold connected, db_connect. destruct (dsn st) as [d|]; [destruct (connect d)|];
    intros [= <-]; simpl; lia.
Qed.

Lemma guard_err p org minimum e : guard p org minimum = Err e → e.1 ≠ 201.
Proof.
  unfold guard, no_org. repeat case_match; try done; intros [= <-]; simpl; lia.
Qed.

Lemma org_found_name org c o : org_or_404 org c = Ok o → o ∈ orgs c ∧ o_name o = org.
Proof.
  unfold org_or_404, get_org, org_by_name. destruct (head _) as [r|] eqn:E; [|done].
  intros [= <-]. apply (head_filter_Some (λ o, o_name o = org)) in E. tauto.
Qed.

(** When a registration is accepted. *)
Definition accepts (g : Setting) (lookup : string → Z → option (list IpAddr)) (st : AppState)
    (p : Principal) (org : string) (body : WebhookIn) (h : HookDb) (o : OrgRow) : Prop :=
  guard p org Admin = Ok tt ∧ trim (in_url body) ≠ ""
  ∧ check (g_parse_url g) lookup (in_url body) Guarded = Ok tt
  ∧ (∃ d, dsn st = Some d ∧ g_connect g d = Ok tt)
  ∧ org_or_404 org (control h) = Ok o
  ∧ Forall (λ e, is_known_event e = true) (in_events body).

Definition created_webhook (now : Z) (id : string) (buf : list Z) (body : WebhookIn)
    (o : OrgRow) : Webhook :=
  mkWebhook id (o_id o) None (in_url body) (json_keys (in_events body)) (chosen_secret body buf)
    true now now.

Lemma unknown_events_nil body :
  unknown_events body = [] ↔ Forall (λ e, is_known_event e = true) (in_events body).
Proof.
  unfold unknown_events. induction (in_events body) as [|e l IH]; [done|].
  rewrite filter_cons, Forall_cons. case_decide as He; rewrite <- ?IH.
  - rewrite He. naive_solver.
  - apply not_false_iff_true in He. naive_solver.
Qed.

Lemma insert_webhook_inv now id org ds url ev secret h n h' :
  insert_webhook now id org ds url ev secret h = Ok (n, h') →
  h' = h <| webhooks := webhooks h ++ [mkWebhook id org ds url ev secret true now now] |>
  ∧ webhooks_valid h (webhooks h') = true ∧ NoDup (w_id <$> webhooks h').
Proof.
  unfold insert_webhook. intros (Hv & Hu & _ & <-)%install_ok. unfold webhooks_unique in Hu.
  by rewrite unique_all in Hu.
Qed.

(** The answer, and what it leaves. *)
Lemma create_webhook_inv g now trace id buf lookup st p org body h :
  let '(r, h') := create_webhook (g_connect g) (g_db_text g) (g_parse_url g) (g_rejection_text g)
                    now trace id buf lookup st p org body h in
  (r.1 = 201 ∧ ∃ o, accepts g lookup st p org body h o
     ∧ let h1 := h <| webhooks := webhooks h ++ [created_webhook now id buf body o] |> in
       webhooks_valid h (webhooks h1) = true ∧ NoDup (w_id <$> webhooks h1)
       ∧ ∃ detail, h' = audited trace p org "webhook.create" detail h1)
  ∨ (r.1 ≠ 201 ∧ h' = h
     ∧ ∀ o, accepts g lookup st p org body h o →
         insert_webhook now id (o_id o) None (in_url body) (json_keys (in_events body))
           (chosen_secret body buf) h = Err UniqueViolation
         ∨ insert_webhook now id (o_id o) None (in_url body) (json_keys (in_events body))
           (chosen_secret body buf) h = Err OtherError).
Proof.
  unfold create_webhook, respond, accepts.
  destruct (guard p org Admin) as [[]|e] eqn:Hg;
    [|right; split_and!; [by eapply guard_err|done|naive_solver]].
  case_decide as Hu; [right; split_and!; [done|done|naive_solver]|].
  destruct (check _ _ _ _) as [[]|e] eqn:Hc; [|right; split_and!; [done|done|naive_solver]].
  destruct (connected _ _ _) as [u|e] eqn:Hcn.
  2:{ right. split_and!; [by eapply connected_err|done|]. intros o (_ & _ & _ & (d & Hd & Hcd) & _).
      unfold connected in Hcn. by rewrite Hd, Hcd in Hcn. }
  destruct (org_or_404 org (control h)) as [o|e] eqn:Ho.
  2:{ right. unfold org_or_404 in Ho. destruct (get_org _ _); [done|]. injection Ho as <-.
      split_and!; [done|done|naive_solver]. }
  destruct (unknown_events body) as [|e0 es] eqn:Hun.
  2:{ right. split_and!; [done|done|]. intros o' (_ & _ & _ & _ & _ & Hk).
      apply unknown_events_nil in Hk. congruence. }
  assert (∃ d, dsn st = Some d ∧ g_connect g d = Ok tt) as Hd.
  { unfold connected in Hcn. destruct (dsn st) as [d|]; [|done]. exists d. split; [done|].
    by destruct (g_connect g d) as [[]|]. }
  apply unknown_events_nil in Hun. unfold transaction, pg_create_webhook.
  destruct (insert_webhook now id (o_id o) None (in_url body) (json_keys (in_events body))
              (chosen_secret body buf) h) as [[n h1]|e] eqn:Hi.
  - rewrite (bind_stmt_ok _ _ _ _ _ Hi). simpl. left. split; [done|]. exists o.
    apply insert_webhook_inv in Hi as (-> & Hv & Hnd).
    split; [by split_and!|]. split; [exact Hv|]. split; [exact Hnd|]. by eexists.
  - rewrite (bind_stmt_err _ _ _ _ Hi). simpl. right. split_and!; [done|done|].
    intros o' (_ & _ & _ & _ & Ho' & _). injection Ho' as <-. rewrite Hi. destruct e; auto.
Qed.

Lemma hooks_ok_control g h c' :
  hooks_ok g h → control_ok c' → keeps (control h) c' → hooks_ok g (h <| control := c' |>).
Proof.
  intros [Hc [Hw Hwn] [Hd Hdn] Hr Ht Hb] Hc' Hk.
  assert (∀ o, o ∈ o_id <$> orgs (control h) → o ∈ o_id <$> orgs c') as Ho
    by (intros; by eapply keeps_org_ids).
  split; simpl; [done| | |done|done|done].
  - split; [|done]. by eapply (webhooks_valid_mono h).
  - split; [|done]. by eapply (deliveries_valid_mono h).
Qed.

Lemma hooks_ok_audited g trace p org action detail h :
  hooks_ok g h → hooks_ok g (audited trace p org action detail h).
Proof.
  intros Hok. destruct (append_safe (mkAudit (actor p) (Some org) None action detail trace)
    (control h) (ho_control _ _ Hok)). by apply hooks_ok_control.
Qed.

Lemma static_w_deactivated (p : Webhook → bool) now (l : list Webhook) :
  static_w <$> ((λ w, if p w then w <| w_active := false |> <| w_updated_at := now |> else w) <$> l)
  = static_w <$> l.
Proof.
  rewrite <-list_fmap_compose. apply list_fmap_ext. intros i w _. simpl. by destruct (p w).
Qed.

(** The subscriptions after a request: the fixed columns are kept and what was
    retired stays so. *)
Definition hooks_grow (h h' : HookDb) : Prop :=
  ∀ w, w ∈ webhooks h → ∃ w', w' ∈ webhooks h' ∧ static_w w' = static_w w
    ∧ (w_active w = false → w_active w' = false).

Lemma hooks_grow_eq h h' : webhooks h' = webhooks h → hooks_grow h h'.
Proof. intros E w Hw. exists w. by rewrite E. Qed.

#[global] Instance hooks_grow_preorder : PreOrder hooks_grow.
Proof.
  split.
  - intros h. by apply hooks_grow_eq.
  - intros a b c Hab Hbc w (w1 & Hw1 & Hs1 & Ha1)%Hab.
    destruct (Hbc w1 Hw1) as (w2 & Hw2 & Hs2 & Ha2). exists w2. split_and!; [done|congruence|auto].
Qed.

Lemma hooks_ok_webhooks g h l :
  hooks_ok g h → webhooks_valid h l = true → NoDup (w_id <$> l) →
  (∀ w, w ∈ l → registered (g_parse_url g) w) → hooks_grow h (h <| webhooks := l |>) →
  hooks_ok g (h <| webhooks := l |>).
Proof.
  intros [Hc Hw [Hd Hdn] Hr Ht Hb] Hv Hnd Hreg Hgr. split; simpl; try done.
  - split; [|done]. apply (deliveries_valid_mono h); try done.
    intros i (w & -> & (w' & Hw' & Hs & _)%Hgr)%list_elem_of_fmap. simpl in Hw'.
    unfold static_w in Hs. injection Hs as <- _ _ _ _ _ _. by apply list_elem_of_fmap_2.
  - intros d (w & Hwin & Hdw)%Ht. destruct (Hgr w Hwin) as (w' & Hw' & Hs & _). exists w'.
    split; [done|]. by eapply targets_static; [|symmetry; exact Hs|exact Hdw].
Qed.

Lemma created_ok g now id buf lookup st p org body h o :
  hooks_ok g h → accepts g lookup st p org body h o →
  let l := webhooks h ++ [created_webhook now id buf body o] in
  webhooks_valid h l = true → NoDup (w_id <$> l) → hooks_ok g (h <| webhooks := l |>).
Proof.
  intros Hok (_ & _ & Hch & _ & _ & Hk) l Hv Hnd. apply hooks_ok_webhooks; try done.
  - intros w [Hw| ->%list_elem_of_singleton]%elem_of_app; [by apply (ho_registered _ _ Hok)|].
    split; [by eexists|by exists lookup].
  - intros w Hw. exists w. split_and!; [|done..]. simpl. unfold l. set_solver.
Qed.

Lemma delete_webhook_inv g now trace st p org id h :
  hooks_ok g h →
  let h' := (delete_webhook (g_connect g) (g_db_text g) now trace st p org id h).2 in
  hooks_ok g h' ∧ hooks_grow h h' ∧ deliveries h' = deliveries h.
Proof.
  intros Hok. unfold delete_webhook, respond.
  destruct (guard p org Admin); [|done]. destruct (connected _ _ _); [|done].
  destruct (org_or_404 org (control h)) as [o|]; [|done].
  unfold transaction, pg_delete_webhook.
  destruct (deactivate now (o_id o) id h) as [[n h1]|e] eqn:E;
    [|by rewrite (bind_stmt_err _ _ _ _ E)].
  rewrite (bind_stmt_ok _ _ _ _ _ E). simpl.
  unfold deactivate, update_rows in E. apply install_ok in E as (Hv & Hu & _ & <-).
  unfold webhooks_unique in Hu. rewrite unique_all in Hu.
  match type of Hv with webhooks_valid _ ?l = _ => set (l1 := l) in * end.
  assert (hooks_grow h (h <| webhooks := l1 |>)) as Hg.
  { intros w Hw. eexists. split; [by apply list_elem_of_fmap_2, Hw|]. simpl.
    by destruct (_ && _ && _). }
  assert (hooks_ok g (h <| webhooks := l1 |>)) as Hok1.
  { apply hooks_ok_webhooks; try done. intros w' (w & -> & Hw)%list_elem_of_fmap.
    eapply registered_static; [|by apply (ho_registered _ _ Hok)]. by destruct (_ && _ && _). }
  destruct (n =? 1)%nat; split_and!; try done. by apply hooks_ok_audited.
Qed.

Lemma hooks_ok_datasets g h ds :
  hooks_ok g h → hooks_ok g (h <| dataset_ids := dataset_ids h ++ [ds] |>).
Proof.
  intros [Hc [Hw Hwn] [Hd Hdn] Hr Ht Hb].
  assert (dataset_ids h ⊆ dataset_ids h ++ [ds]) as Hs by set_solver.
  split; simpl; [done| | |done|done|done].
  - split; [|done]. by eapply (webhooks_valid_mono h).
  - split; [|done]. by eapply (deliveries_valid_mono h).
Qed.

Lemma request_step_inv g h h' :
  hooks_ok g h → request_step g h h' →
  hooks_ok g h' ∧ hooks_grow h h'
  ∧ ∃ rows, deliveries h' = deliveries h ++ rows ∧ Forall is_fresh rows.
Proof.
  intros Hok [c' Hc|ds|now trace id buf lookup st p org body|now trace st p org id
             |now ids org ds name ev data].
  - apply control_step_safe in Hc as [Hc' Hk]; [|apply (ho_control _ _ Hok)].
    split; [by apply hooks_ok_control|]. split; [by apply hooks_grow_eq|].
    exists []. by rewrite app_nil_r.
  - split; [by apply hooks_ok_datasets|]. split; [by apply hooks_grow_eq|].
    exists []. by rewrite app_nil_r.
  - pose proof (create_webhook_inv g now trace id buf lookup st p org body h) as Hcr.
    destruct (create_webhook _ _ _ _ _ _ _ _ _ _ _ _ _ _) as [r h1]. simpl.
    destruct Hcr as [(_ & o & Ha & Hv & Hnd & detail & ->)|(_ & -> & _)].
    + split; [apply hooks_ok_audited; by eapply created_ok|]. split.
      * intros w Hw. exists w. split_and!; [simpl; set_solver|done..].
      * exists []. by rewrite app_nil_r.
    + split; [done|]. split; [done|]. exists []. by rewrite app_nil_r.
  - destruct (delete_webhook_inv g now trace st p org id h Hok) as (? & ? & ?).
    split; [done|]. split; [done|]. exists []. by rewrite app_nil_r.
  - destruct (emit_inv g now ids org ds name ev data h Hok) as (rows & -> & Hok' & Hf).
    split; [done|]. split; [by apply hooks_grow_eq|]. by exists rows.
Qed.

(** *** Any number of drains *)

Definition request_of (g : Setting) (d : WebhookDelivery) (w : Webhook) : Request :=
  let body := g_to_vec g (d_payload d) in
  mkRequest (w_url w) body (sign (g_hmac_sha256 g) (w_secret w) body).

Definition posted_ok (g : Setting) (h : HookDb) (post : string * Request) : Prop :=
  ∃ d w, d ∈ deliveries h ∧ w ∈ webhooks h ∧ targets d w ∧ post = (d_id d, request_of g d w).

(** The delivery rows are kept and the subscriptions only grow. *)
Record evolves (h h' : HookDb) : Prop := {
  ev_deliveries : static_d <$> deliveries h `prefix_of` static_d <$> deliveries h';
  ev_webhooks : hooks_grow h h';
}.

#[global] Instance evolves_preorder : PreOrder evolves.
Proof.
  split.
  - intros h. split; [by exists []; rewrite app_nil_r|done].
  - intros a b c [] []. split; by etrans.
Qed.

Lemma request_step_evolves g h h' :
  hooks_ok g h → request_step g h h' → hooks_ok g h' ∧ evolves h h'.
Proof.
  intros Hok Hst. destruct (request_step_inv g h h' Hok Hst) as (Hok' & Hg & rows & Hd & _).
  split; [done|]. split; [|done]. rewrite Hd, fmap_app. by eexists.
Qed.

Lemma update_evolves p f h ret h' :
  (∀ d, static_d (f d) = static_d d) → update_deliveries p f h = Ok (ret, h') → evolves h h'.
Proof.
  intros Hst (-> & _)%update_deliveries_Ok. split; [|by apply hooks_grow_eq].
  simpl. rewrite static_if by done. by exists []; rewrite app_nil_r.
Qed.

Lemma claim_evolves now locked h rows h' :
  claim_delivery now locked h = Ok (rows, h') →
  evolves h h' ∧ ∀ d, d ∈ rows → static_d d ∈ static_d <$> deliveries h.
Proof.
  rewrite claim_delivery_eq. intros E. split; [by eapply update_evolves; [|exact E]|].
  apply update_deliveries_Ok in E as (_ & -> & _).
  intros d (d0 & -> & [_ Hd0]%list_elem_of_filter)%list_elem_of_fmap.
  by apply (list_elem_of_fmap_2 static_d) in Hd0.
Qed.

Lemma settle_evolves now id v h : evolves h (transaction (settle now id v) h).2.
Proof.
  unfold transaction. destruct (settle now id v h) as [[state h']|e] eqn:E; [|done].
  apply settle_inv in E as (rows & E & _). by eapply update_evolves; [|exact E].
Qed.

Lemma settle_txn_ok g now id v h :
  hooks_ok g h → hooks_ok g (transaction (settle now id v) h).2.
Proof.
  intros Hok. unfold transaction. destruct (settle now id v h) as [[state h']|e] eqn:E; [|done].
  by eapply settle_ok.
Qed.

Lemma posted_ok_evolves g h h' post : evolves h h' → posted_ok g h post → posted_ok g h' post.
Proof.
  intros [Hd Hw] (d & w & Hdin & Hwin & Ht & ->).
  destruct (static_row static_d _ _ d Hd Hdin) as (d' & Hd' & Es).
  destruct (Hw w Hwin) as (w' & Hw' & Ew & _). exists d', w'. split_and!; [done..| |].
  - by eapply targets_static; [symmetry; exact Es|symmetry; exact Ew|].
  - unfold static_d in Es. unfold static_w in Ew. unfold request_of.
    injection Es as -> _ _ _ _ -> _ _. by injection Ew as _ _ _ -> _ -> _.
Qed.

(** What holds of every reachable outbox. *)
Record outbox_ok (g : Setting) (s : Outbox) : Prop := {
  oo_db : hooks_ok g (db s);
  oo_claimed : ∀ d, d ∈ claimed s → static_d d ∈ static_d <$> deliveries (db s);
  oo_posted : ∀ post, post ∈ posted s → posted_ok g (db s) post;
}.

Lemma outbox_ok_evolves g s s' :
  outbox_ok g s → hooks_ok g (db s') → evolves (db s) (db s') →
  (∀ d, d ∈ claimed s' → d ∈ claimed s ∨ static_d d ∈ static_d <$> deliveries (db s)) →
  (∀ post, post ∈ posted s' → post ∈ posted s ∨ posted_ok g (db s) post) → outbox_ok g s'.
Proof.
  intros [_ Hcl Hpo] Hok Hev Hcl' Hpo'. split; [done| |].
  - intros d Hd. eapply elem_of_prefix; [|by apply ev_deliveries].
    destruct (Hcl' d Hd) as [?%Hcl|?]; done.
  - intros post Hp. eapply posted_ok_evolves; [done|]. destruct (Hpo' post Hp) as [?%Hpo|?]; done.
Qed.

(** A request is the one of the delivery's row and its live subscription. *)
Lemma attempt_of_request g net d h r :
  hooks_ok g h → static_d d ∈ static_d <$> deliveries h → (attempt_of g net d h).2 = Some r →
  ∃ d' w, d' ∈ deliveries h ∧ static_d d' = static_d d ∧ w ∈ webhooks h ∧ w_active w = true
    ∧ targets d' w ∧ check (g_parse_url g) (resolve net) (w_url w) Guarded = Ok tt
    ∧ r = request_of g d' w.
Proof.
  intros Hok (d' & Hst & Hd')%list_elem_of_fmap. unfold attempt_of, attempt, webhook_endpoint.
  destruct (head _) as [w|] eqn:Hw; [|done]. cbn [fmap option_fmap option_map].
  apply (head_filter_Some (λ w, w_id w = d_webhook_id d ∧ w_active w = true)) in Hw
    as [[Hid Hact] Hw].
  destruct (check _ _ _ _) as [[]|] eqn:Hc; [|done]. intros [= <-].
  exists d', w. pose proof Hst as Es. unfold static_d in Es. injection Es as _ Ho _ Hi _ Hp _ _.
  destruct (ho_targets _ _ Hok d' Hd') as (w' & Hw' & Ht).
  assert (w' = w) as ->.
  { apply (NoDup_fmap_eq w_id (webhooks h)); [apply (ho_webhooks _ _ Hok)|done|done|].
    destruct Ht as [-> _]. congruence. }
  split_and!; try done. unfold request_of. by rewrite <-Hp.
Qed.

Lemma outbox_step_ok g s s' : outbox_ok g s → outbox_step g s s' → outbox_ok g s'.
Proof.
  intros Hok Hst. pose proof (oo_db _ _ Hok) as Hdb.
  destruct Hst as [h' Hr|now locked rows h' Hc|d l1 l2 net Hc|now id v l1 l2 Hj|l l' Hl Hl'].
  - destruct (request_step_evolves g _ _ Hdb Hr) as [? ?].
    apply (outbox_ok_evolves g s); auto.
  - destruct (claim_evolves _ _ _ _ _ Hc) as [Hev Hrows].
    apply (outbox_ok_evolves g s); simpl; auto; [by eapply claim_ok|].
    intros d [?|?]%elem_of_app; auto.
  - assert (d ∈ claimed s) as Hd by (rewrite Hc; set_solver).
    apply (outbox_ok_evolves g s); simpl; auto; [done| |].
    + intros d' Hd'. left. rewrite Hc. set_solver.
    + intros post [Hp|?]%elem_of_app; [|by left]. right.
      destruct (attempt_of g net d (db s)).2 as [r|] eqn:E; [|by apply elem_of_nil in Hp].
      apply list_elem_of_singleton in Hp as ->.
      destruct (attempt_of_request g net d (db s) r Hdb (oo_claimed _ _ Hok d Hd) E)
        as (d' & w & ? & Es & ? & _ & ? & _ & ->). exists d', w. split_and!; try done.
      unfold static_d in Es. by injection Es as -> _ _ _ _ _ _ _.
  - apply (outbox_ok_evolves g s); simpl; auto; [by apply settle_txn_ok|by apply settle_evolves].
  - apply (outbox_ok_evolves g s); simpl; auto; [done|].
    intros d Hd. left. by eapply elem_of_sublist.
Qed.

Lemma fresh_hooks_ok g c ds : control_ok c → hooks_ok g (fresh c ds).
Proof. intros Hc. split; simpl; [done|split; [done|constructor]..|set_solver|set_solver|set_solver]. Qed.

Lemma reachable_ok g s : reachable g s → outbox_ok g s.
Proof.
  intros (c & ds & Hc & Hrun). assert (outbox_ok g (mkOutbox (fresh c ds) [] [] [])) as H0.
  { split; simpl; [by apply fresh_hooks_ok|set_solver|set_solver]. }
  revert H0. induction Hrun; [done|]. eauto using outbox_step_ok.
Qed.

(** C24: whatever requests, drains and deaths interleave, every POST the outbox
    ever made is the request of a recorded delivery to the subscription it was
    recorded for: one its own tenant registered for that event (or for all), at
    the URL registered, carrying exactly the recorded body, signed with the
    subscription's secret; so all the attempts of one delivery are one request.
    And when a POST is made the subscription is still active and the guard
    accepts its URL with what the resolver answers then. *)
Theorem outbox_posts g s :
  reachable g s →
  (∀ id r, (id, r) ∈ posted s → ∃ d w, d ∈ deliveries (db s) ∧ w ∈ webhooks (db s)
     ∧ d_id d = id ∧ targets d w ∧ registered (g_parse_url g) w ∧ r = request_of g d w)
  ∧ (∀ id r r', (id, r) ∈ posted s → (id, r') ∈ posted s → r = r')
  ∧ (∀ s', outbox_step g s s' →
       posted s' = posted s
       ∨ ∃ d w net, posted s' = (d_id d, request_of g d w) :: posted s
           ∧ d ∈ deliveries (db s) ∧ w ∈ webhooks (db s) ∧ w_active w = true ∧ targets d w
           ∧ check (g_parse_url g) (resolve net) (w_url w) Guarded = Ok tt).
Proof.
  intros Hok%reachable_ok. pose proof (oo_db _ _ Hok) as Hdb. split_and!.
  - intros id r (d & w & Hd & Hw & Ht & [= -> ->])%(oo_posted _ _ Hok). exists d, w.
    split_and!; try done. by apply (ho_registered _ _ Hdb).
  - intros id r r' (d & w & Hd & Hw & Ht & [= -> ->])%(oo_posted _ _ Hok)
      (d' & w' & Hd' & Hw' & Ht' & [= Hid ->])%(oo_posted _ _ Hok).
    assert (d = d') as <- by (apply (NoDup_fmap_eq d_id (deliveries (db s)));
      [apply (ho_deliveries _ _ Hdb)|done..]).
    assert (w = w') as <-; [|done].
    apply (NoDup_fmap_eq w_id (webhooks (db s))); [apply (ho_webhooks _ _ Hdb)|done..|].
    destruct Ht as [-> _], Ht' as [-> _]. done.
  - intros s' [h' Hr|now locked rows h' Hc|d l1 l2 net Hc|now id v l1 l2 Hj|l l' Hl Hl'];
      [by left|by left| |by left|by left].
    destruct (attempt_of g net d (db s)).2 as [r|] eqn:E; simpl; [right|by left].
    assert (d ∈ claimed s) as Hd by (rewrite Hc; set_solver).
    destruct (attempt_of_request g net d (db s) r Hdb (oo_claimed _ _ Hok d Hd) E)
      as (d' & w & Hd' & Es & Hw & Ha & Ht & Hch & ->). exists d', w, net.
    split_and!; try done. unfold static_d in Es. by injection Es as -> _ _ _ _ _ _ _.
Qed.

(** *** One drain *)

Lemma filter_key {R K} `{EqDecision K} (key : R → K) (l : list R) r :
  NoDup (key <$> l) → r ∈ l → filter (λ s, Is_true (bool_decide (key r = key s))) l = [r].
Proof.
  induction l as [|s l IH]; intros Hnd Hr; [by apply elem_of_nil in Hr|].
  rewrite fmap_cons in Hnd. apply NoDup_cons in Hnd as [Hs Hnd]. rewrite filter_cons.
  apply elem_of_cons in Hr as [->|Hr].
  - rewrite decide_True by (by rewrite Is_true_true, bool_decide_eq_true). f_equal.
    apply filter_nil_iff. intros x Hx. rewrite Is_true_true, bool_decide_eq_true. intros E.
    apply Hs. rewrite E. by apply list_elem_of_fmap_2.
  - rewrite decide_False; [auto|]. rewrite Is_true_true, bool_decide_eq_true. intros E. apply Hs.
    rewrite <-E. by apply list_elem_of_fmap_2.
Qed.

(** An update of the row of one identifier. *)
Definition set_row (id : string) (f : WebhookDelivery → WebhookDelivery) (h : HookDb) : HookDb :=
  h <| deliveries := (λ d, if bool_decide (id = d_id d) then f d else d) <$> deliveries h |>.

Lemma update_row g p f h d :
  hooks_ok g h → d ∈ deliveries h → (∀ x, p x = bool_decide (d_id d = d_id x)) →
  (∀ x, static_d (f x) = static_d x) →
  d_state (f d) ∈ DELIVERY_STATES → - 2 ^ 63 ≤ d_attempt (f d) < 2 ^ 63 →
  update_deliveries p f h = Ok ([f d], set_row (d_id d) f h).
Proof.
  intros Hok Hd Hp Hst Hs Ha. destruct (ho_deliveries _ _ Hok) as [Hv Hnd].
  unfold update_deliveries, update_rows, install, set_row.
  assert (f <$> filter (λ x, Is_true (p x)) (deliveries h) = [f d]) as ->.
  { rewrite (list_filter_iff _ (λ x, Is_true (bool_decide (d_id d = d_id x)))) by (intros; by rewrite Hp).
    by rewrite (filter_key d_id) by done. }
  assert ((λ r, if p r then f r else r) <$> deliveries h
          = (λ x, if bool_decide (d_id d = d_id x) then f x else x) <$> deliveries h) as ->.
  { apply list_fmap_ext. intros i x _. by rewrite Hp. }
  set (l := (λ x, if bool_decide (d_id d = d_id x) then f x else x) <$> deliveries h).
  assert (static_d <$> l = static_d <$> deliveries h) as Hl by (by apply static_if).
  assert (deliveries_valid h l = true) as ->.
  { rewrite deliveries_valid_spec in Hv |- *. intros x' (x & -> & Hx)%list_elem_of_fmap.
    destruct (Hv x Hx) as (Hr & Hw & Hrest). case_bool_decide as E; [|done].
    assert (x = d) as -> by (by apply (NoDup_fmap_eq d_id (deliveries h))).
    pose proof (Hst d) as Es. unfold static_d in Es. injection Es as _ -> -> -> _ _ -> _.
    split_and!; tauto. }
  unfold deliveries_unique. rewrite (proj2 (unique_all _ _)); [done|].
  rewrite (static_key static_d d_id _ (deliveries h)); [done| |done].
  intros r s Es. unfold static_d in Es. by injection Es.
Qed.

(** The row a claim takes, and what the claim makes of it. *)
Definition counted (now : Z) (d : WebhookDelivery) : WebhookDelivery :=
  d <| d_attempt := d_attempt d + 1 |> <| d_updated_at := now |>.

Lemma claim_pick_Some now locked h d :
  claim_pick now locked h = Some d → d ∈ deliveries h ∧ due now d = true ∧ d_id d ∉ locked.
Proof.
  unfold claim_pick. intros [Hp Hd]%min_by_elem%list_elem_of_filter.
  rewrite Is_true_true, andb_true_iff, bool_decide_eq_true in Hp. tauto.
Qed.

Lemma claim_pick_None now h :
  claim_pick now ∅ h = None → ∀ d, d ∈ deliveries h → due now d = false.
Proof.
  unfold claim_pick. intros Hn%min_by_None d Hd. apply not_true_iff_false. intros Hdue.
  rewrite filter_nil_iff in Hn. apply (Hn d Hd). rewrite Hdue. simpl.
  apply Is_true_true, bool_decide_eq_true. set_solver.
Qed.

Lemma update_no_row g p f h :
  hooks_ok g h → (∀ x, p x = false) → update_deliveries p f h = Ok ([], h).
Proof.
  intros Hok Hp. destruct (ho_deliveries _ _ Hok) as [Hv Hnd].
  unfold update_deliveries, update_rows, install.
  assert ((λ r, if p r then f r else r) <$> deliveries h = deliveries h) as ->.
  { rewrite <-(list_fmap_id (deliveries h)) at 2. apply list_fmap_ext. intros i x _. by rewrite Hp. }
  rewrite Hv. unfold deliveries_unique. rewrite (proj2 (unique_all _ _)) by done. simpl.
  rewrite (proj2 (filter_nil_iff _ _)) by (intros x _; rewrite Hp; by intros []). by destruct h.
Qed.

Lemma claim_none g now locked h :
  hooks_ok g h → claim_pick now locked h = None → claim_delivery now locked h = Ok ([], h).
Proof.
  intros Hok Hn. rewrite claim_delivery_eq, Hn. apply (update_no_row g); [done|]. intros x.
  by apply bool_decide_eq_false_2.
Qed.

(** A drained attempt, as one change of one row. *)
Definition drained (g : Setting) (m : Moment) (h : HookDb) (d : WebhookDelivery) :
    WebhookDelivery :=
  let v := (attempt_of g (network m) d h).1 in
  settled_row (settle_at m) (v_delivered v) (v_retryable v) (v_status v) (v_error v)
    (counted (claim_at m) d).

Definition drain_of (g : Setting) : Moment → HookDb → result (option Delivered) DbError * HookDb :=
  drain_once (g_parse_url g) (g_rejection_text g) (g_hmac_sha256 g) (g_to_vec g).

Lemma settled_state now b r c e d :
  d_state (settled_row now b r c e d) ∈ DELIVERY_STATES.
Proof. unfold DELIVERY_STATES. simpl. destruct b, (r && (d_attempt d <? d_max_attempts d)); set_solver. Qed.

Lemma set_row_twice id f f' h :
  (∀ d, d_id (f d) = d_id d) →
  set_row id f' (set_row id f h) = set_row id (λ d, f' (f d)) h.
Proof.
  intros Hf. unfold set_row.
  transitivity (h <| deliveries := (λ d, if bool_decide (id = d_id d) then f' d else d)
    <$> ((λ d, if bool_decide (id = d_id d) then f d else d) <$> deliveries h) |>); [done|].
  f_equal. rewrite <-list_fmap_compose. apply list_fmap_ext. intros i d _. simpl.
  destruct (decide (id = d_id d)) as [E|E].
  - rewrite !(bool_decide_eq_true_2 (id = d_id d)), Hf, bool_decide_eq_true_2; done.
  - rewrite !(bool_decide_eq_false_2 (id = d_id d)); done.
Qed.

Lemma set_row_ext id f f' h :
  (∀ d, d ∈ deliveries h → d_id d = id → f d = f' d) → set_row id f h = set_row id f' h.
Proof.
  intros Hf. unfold set_row. f_equal.
  apply list_fmap_ext. intros i d Hd%list_elem_of_lookup_2. case_bool_decide; [|done]. by apply Hf.
Qed.

Lemma drain_once_spec g m h :
  hooks_ok g h → (∀ d, d ∈ deliveries h → d_attempt d ≤ MAX_DELIVERY_ATTEMPTS) →
  match claim_pick (claim_at m) (locks m) h with
  | None => drain_of g m h = (Ok None, h)
  | Some d =>
      let h' := set_row (d_id d) (drained g m h) h in
      (∃ out, drain_of g m h = (Ok (Some out), h') ∧ del_delivery_id out = d_id d
              ∧ del_state out = d_state (drained g m h d))
      ∧ hooks_ok g h'
  end.
Proof.
  intros Hok Hmax. destruct (claim_pick (claim_at m) (locks m) h) as [d|] eqn:Hp.
  2:{ unfold drain_of, drain_once, drain_once_with_egress, transaction.
      by rewrite (claim_none g) by done. }
  destruct (claim_pick_Some _ _ _ _ Hp) as (Hd & Hdue & _).
  destruct (ho_bounds _ _ Hok d Hd) as [_ Ha]. pose proof (Hmax d Hd) as Ha'.
  unfold MAX_DELIVERY_ATTEMPTS in Ha'.
  assert (- 2 ^ 63 ≤ d_attempt d + 1 < 2 ^ 63) as Hb by lia.
  destruct (ho_deliveries _ _ Hok) as [Hv Hnd].
  pose proof (proj1 (deliveries_valid_spec _ _) Hv d Hd) as (_ & _ & Hs & _).
  assert (claim_delivery (claim_at m) (locks m) h
          = Ok ([counted (claim_at m) d], set_row (d_id d) (counted (claim_at m)) h)) as Hcl.
  { rewrite claim_delivery_eq. apply (update_row g); [done|done| |done|done|exact Hb].
    intros x. rewrite Hp. simpl. apply bool_decide_ext. split; [by intros [= ->]|by intros ->]. }
  set (h1 := set_row (d_id d) (counted (claim_at m)) h) in *.
  assert (hooks_ok g h1) as Hok1 by (by eapply claim_ok).
  assert (counted (claim_at m) d ∈ deliveries h1) as Hd1.
  { apply list_elem_of_fmap. exists d. by rewrite bool_decide_eq_true_2. }
  set (v := (attempt_of g (network m) d h).1).
  assert (settle (settle_at m) (d_id d) v h1
          = Ok (d_state (drained g m h d), set_row (d_id d) (drained g m h) h)) as Hse.
  { assert (settle_delivery (settle_at m) (v_delivered v) (v_retryable v) (v_status v) (v_error v)
              (d_id d) h1
            = Ok ([drained g m h d],
                  set_row (d_id d) (settled_row (settle_at m) (v_delivered v) (v_retryable v)
                    (v_status v) (v_error v)) h1)) as E.
    { apply (update_row g _ _ h1 (counted (claim_at m) d)); try done.
      - intros x. by apply bool_decide_ext.
      - apply settled_state. }
    unfold settle. rewrite (bind_stmt_ok _ _ _ _ _ E). cbn [head fmap option_fmap option_map default].
    unfold mret, stmt_ret, h1. rewrite set_row_twice by done. f_equal. f_equal.
    apply set_row_ext. intros x Hx Hid.
    assert (x = d) as -> by (by apply (NoDup_fmap_eq d_id (deliveries h))). done. }
  split.
  - exists (mkDelivered (d_id d) (d_webhook_id d) (d_state (drained g m h d)) (v_status v) (v_error v)).
    split_and!; [|done..]. unfold drain_of, drain_once, drain_once_with_egress, transaction.
    rewrite Hcl. cbn [head].
    transitivity (match settle (settle_at m) (d_id d) v h1 with
                  | Ok (state, h') => (Ok (Some (mkDelivered (d_id d) (d_webhook_id d) state
                                                   (v_status v) (v_error v))), h')
                  | Err e => (Err e, h1)
                  end); [|by rewrite Hse].
    change (attempt _ _ _ _ _ _ _ _) with (attempt_of g (network m) d h).
    change (d_id (counted (claim_at m) d)) with (d_id d). fold v.
    by destruct (settle (settle_at m) (d_id d) v h1) as [[]|].
  - by eapply settle_ok.
Qed.

(** *** One dispatcher *)

(** How far a delivery has come. *)
Inductive progress (d : WebhookDelivery) : Prop :=
| progress_waiting :
    d_state d = "pending" → 0 ≤ d_attempt d < MAX_DELIVERY_ATTEMPTS → d_delivered_at d = None →
    (if decide (d_attempt d = 0) then d_next_attempt_at d = None
     else (∃ t, d_next_attempt_at d = Some (after_secs t (backoff_secs (d_attempt d))))
          ∧ is_Some (d_error d)) →
    progress d
| progress_delivered code :
    d_state d = "delivered" → 1 ≤ d_attempt d ≤ MAX_DELIVERY_ATTEMPTS →
    is_Some (d_delivered_at d) → d_error d = None → d_response_code d = Some code →
    200 ≤ code < 300 → progress d
| progress_failed :
    d_state d = "failed" → 1 ≤ d_attempt d ≤ MAX_DELIVERY_ATTEMPTS →
    d_delivered_at d = None → is_Some (d_error d) → progress d.

Lemma attempt_verdict g net d h :
  let v := (attempt_of g net d h).1 in
  (v_delivered v = true ∧ v_error v = None ∧ ∃ code, v_status v = Some code ∧ 200 ≤ code < 300)
  ∨ (v_delivered v = false ∧ is_Some (v_error v)).
Proof.
  unfold attempt_of, attempt. destruct (webhook_endpoint _ _) as [[url secret]|]; [|right; by eexists].
  destruct (check _ _ _ _) as [[]|]; [|right; by eexists].
  unfold classify_answer. cbn [fst]. destruct (send net _) as [code|]; [|right; by eexists].
  destruct (in_range 200 300 code) eqn:E; [|right; by eexists].
  left. split_and!; [done..|]. exists code. split; [done|]. unfold in_range in E.
  apply andb_true_iff in E as [?%Z.leb_le ?%Z.ltb_lt]. lia.
Qed.

Lemma progress_fresh d : is_fresh d → progress d.
Proof.
  intros (Hs & Ha & Hn & Hd). apply progress_waiting; [done|rewrite Ha; by split|done|].
  by rewrite decide_True.
Qed.

Lemma progress_bound d : progress d → d_attempt d ≤ MAX_DELIVERY_ATTEMPTS.
Proof. intros [? []|? ? []|? []]; lia. Qed.

Lemma progress_drained g m h d :
  progress d → d_state d = "pending" → d_max_attempts d = MAX_DELIVERY_ATTEMPTS →
  progress (drained g m h d) ∧ d_attempt (drained g m h d) = d_attempt d + 1
  ∧ (d_state (drained g m h d) = "pending" →
     d_attempt d + 1 < MAX_DELIVERY_ATTEMPTS
     ∧ d_next_attempt_at (drained g m h d)
       = Some (after_secs (settle_at m) (backoff_secs (d_attempt d + 1)))).
Proof.
  intros [_ Ha Hd _|code Hs|Hs] Hp Hm; [|congruence..].
  pose proof (attempt_verdict g (network m) d h) as Hv. simpl in Hv.
  unfold drained. set (v := (attempt_of g (network m) d h).1) in *.
  assert (d_attempt (settled_row (settle_at m) (v_delivered v) (v_retryable v) (v_status v) (v_error v)
            (counted (claim_at m) d)) = d_attempt d + 1) as Hat by done.
  destruct Hv as [(Hv & He & code & Hc & Hr)|[Hv He]].
  - split_and!; [|done|].
    + apply (progress_delivered _ code); rewrite ?Hat; unfold settled_row; cbn; rewrite ?Hv; try done.
      unfold MAX_DELIVERY_ATTEMPTS in *. lia.
    + unfold settled_row. cbn. by rewrite Hv.
  - destruct (v_retryable v && (d_attempt d + 1 <? d_max_attempts d)) eqn:E.
    + pose proof E as [_ Hlt%Z.ltb_lt]%andb_true_iff. rewrite Hm in Hlt. split_and!; [|done|].
      * apply progress_waiting; rewrite ?Hat; [unfold settled_row; cbn; by rewrite Hv, E|lia| |].
        { unfold settled_row; cbn; by rewrite Hv. }
        rewrite decide_False by lia. split; [|done]. exists (settle_at m). unfold settled_row; cbn.
        by rewrite Hv, E.
      * intros _. split; [done|]. unfold settled_row; cbn. by rewrite Hv, E.
    + split_and!; [|done|].
      * apply progress_failed; rewrite ?Hat; [unfold settled_row; cbn; by rewrite Hv, E|lia| |done].
        unfold settled_row; cbn. by rewrite Hv.
      * unfold settled_row; cbn. by rewrite Hv, E.
Qed.

(** What holds of every outbox one dispatcher drains. *)
Record serial_ok (g : Setting) (h : HookDb) : Prop := {
  so_hooks : hooks_ok g h;
  so_progress : ∀ d, d ∈ deliveries h → progress d;
}.

Lemma drain_serial g m h :
  serial_ok g h →
  match claim_pick (claim_at m) (locks m) h with
  | None => drain_of g m h = (Ok None, h)
  | Some d =>
      let h' := set_row (d_id d) (drained g m h) h in
      d ∈ deliveries h ∧ d_state d = "pending" ∧ serial_ok g h'
      ∧ ∃ out, drain_of g m h = (Ok (Some out), h')
  end.
Proof.
  intros [Hok Hp]. pose proof (drain_once_spec g m h Hok) as Hsp.
  destruct (claim_pick _ _ _) as [d|] eqn:E.
  2:{ apply Hsp. intros d Hd. by apply progress_bound, Hp. }
  destruct Hsp as [(out & Hout & _) Hok']; [intros x Hx; by apply progress_bound, Hp|].
  destruct (claim_pick_Some _ _ _ _ E) as (Hd & Hdue & _).
  unfold due in Hdue. apply andb_true_iff in Hdue as [Hst%bool_decide_eq_true _].
  split_and!; [done|done| |by exists out]. split; [done|].
  intros x' (x & -> & Hx)%list_elem_of_fmap. case_bool_decide as Hid; [|by apply Hp].
  assert (x = d) as -> by (apply (NoDup_fmap_eq d_id (deliveries h)); [apply (ho_deliveries _ _ Hok)|done..]).
  apply progress_drained; [by apply Hp|done|]. by apply (ho_bounds _ _ Hok).
Qed.

Lemma serial_step_ok g h h' :
  serial_ok g h → serial_step g h h' →
  serial_ok g h' ∧ ∀ d, d ∈ deliveries h → ∃ d', d' ∈ deliveries h' ∧ static_d d' = static_d d
    ∧ d_attempt d ≤ d_attempt d' ∧ (d_state d ≠ "pending" → d' = d).
Proof.
  intros Hso [h1 Hr|m].
  - destruct Hso as [Hok Hp]. destruct (request_step_inv g h h1 Hok Hr) as (Hok' & _ & rows & Hd & Hf).
    split.
    + split; [done|]. rewrite Hd. intros d [?|Hd']%elem_of_app; [auto|].
      apply progress_fresh. rewrite Forall_forall in Hf. auto.
    + intros d Hd'. exists d. rewrite Hd. split_and!; [set_solver|done|lia|done].
  - pose proof (drain_serial g m h Hso) as Hdr. fold (drain_of g m h).
    destruct (claim_pick _ _ _) as [d|].
    + destruct Hdr as (Hd & Hst & Hso' & out & ->). split; [exact Hso'|]. intros x Hx.
      eexists. split; [by apply list_elem_of_fmap_2, Hx|]. simpl.
      case_bool_decide as E; [|split_and!; [done|lia|done]].
      assert (x = d) as -> by (apply (NoDup_fmap_eq d_id (deliveries h));
        [apply (ho_deliveries _ _ (so_hooks _ _ Hso))|done..]).
      split_and!; [done|unfold drained, settled_row, counted; cbn; lia|congruence].
    + rewrite Hdr. split; [done|]. intros d Hd. exists d. split_and!; [done|done|lia|done].
Qed.

Lemma serially_reachable_ok g h : serially_reachable g h → serial_ok g h.
Proof.
  intros (c & ds & Hc & Hrun). assert (serial_ok g (fresh c ds)) as H0.
  { split; [by apply fresh_hooks_ok|]. simpl. set_solver. }
  revert H0. induction Hrun as [|h h1 h2 Hst _ IH]; [done|]. intros Hso. apply IH.
  by apply (serial_step_ok g h h1 Hso Hst).
Qed.

(** C26: with one dispatcher draining, whatever the endpoints answer and
    whatever is registered, retired and recorded meanwhile: a delivery is
    attempted at most six times, waits with the backoff of its last attempt
    while it is pending, is delivered on a 2xx alone and otherwise fails with
    the reason recorded; and once it is delivered or failed its row never
    changes again. *)
Theorem serial_outbox g h :
  serially_reachable g h →
  (∀ d, d ∈ deliveries h → progress d)
  ∧ ∀ h', serial_step g h h' → ∀ d, d ∈ deliveries h → ∃ d', d' ∈ deliveries h'
      ∧ static_d d' = static_d d ∧ d_attempt d ≤ d_attempt d' ∧ (d_state d ≠ "pending" → d' = d).
Proof.
  intros Hso%serially_reachable_ok. split; [apply Hso|]. intros h' Hst.
  by apply (serial_step_ok g h h' Hso Hst).
Qed.

(** *** The drain empties the outbox *)

(** The attempts a delivery may still be given. *)
Definition remaining (d : WebhookDelivery) : nat :=
  if decide (d_state d = "pending") then Z.to_nat (MAX_DELIVERY_ATTEMPTS - d_attempt d) else 0.

Definition backlog (h : HookDb) : nat := sum_list (remaining <$> deliveries h).

Definition settled_all (h : HookDb) : Prop := ∀ d, d ∈ deliveries h → d_state d ≠ "pending".

(** The attempts of a pass that comes back when the last retry is due, with no
    other drain beside it. *)
Definition spaced (at_ : nat → Moment) : Prop :=
  ∀ i, locks (at_ i) = ∅ ∧ claim_at (at_ i) ≤ settle_at (at_ i)
       ∧ after_secs (settle_at (at_ i)) 300 ≤ claim_at (at_ (S i)).

Definition all_due (t : Z) (h : HookDb) : Prop :=
  ∀ d u, d ∈ deliveries h → d_next_attempt_at d = Some u → u ≤ t.

Lemma sum_list_lt {R K} `{EqDecision K} (key : R → K) (f : R → R) (n : R → nat) (l : list R) r :
  NoDup (key <$> l) → r ∈ l → (n (f r) < n r)%nat →
  (sum_list (n <$> ((λ s, if bool_decide (key r = key s) then f s else s) <$> l))
   < sum_list (n <$> l))%nat.
Proof.
  induction l as [|s l IH]; intros Hnd Hr Hlt; [by apply elem_of_nil in Hr|].
  rewrite !fmap_cons in *. apply NoDup_cons in Hnd as [Hs Hnd]. simpl.
  apply elem_of_cons in Hr as [->|Hr].
  - rewrite (bool_decide_eq_true_2 (key s = key s)) by done.
    assert ((λ x, if bool_decide (key s = key x) then f x else x) <$> l = l) as ->; [|lia].
    rewrite <-(list_fmap_id l) at 2. apply list_fmap_ext. intros i x Hx%list_elem_of_lookup_2.
    rewrite bool_decide_eq_false_2; [done|]. intros E. apply Hs. rewrite E. by apply list_elem_of_fmap_2.
  - rewrite (bool_decide_eq_false_2 (key r = key s)); [specialize (IH Hnd Hr Hlt); lia|].
    intros E. apply Hs. rewrite <-E. by apply list_elem_of_fmap_2.
Qed.

Lemma backlog_pending h d :
  d ∈ deliveries h → progress d → d_state d = "pending" → (1 ≤ backlog h)%nat.
Proof.
  intros Hd [_ Ha _ _|code Hs|Hs] Hp; [|congruence..].
  assert (1 ≤ remaining d)%nat as H1.
  { unfold remaining. rewrite decide_True by done. lia. }
  unfold backlog. apply list_elem_of_split in Hd as (l1 & l2 & ->).
  rewrite fmap_app, fmap_cons, sum_list_with_app. simpl. lia.
Qed.

Lemma backoff_le a : backoff_secs a ≤ 300.
Proof. unfold backoff_secs. lia. Qed.

Lemma drained_next g m h d u :
  d_next_attempt_at (drained g m h d) = Some u →
  d_next_attempt_at d = Some u ∨ u ≤ after_secs (settle_at m) 300.
Proof.
  unfold drained, settled_row, counted. cbn. destruct (_ && _); [|by left]. intros [= <-]. right.
  unfold after_secs. pose proof (backoff_le (d_attempt d + 1)). lia.
Qed.

Lemma backlog_drained g m h d :
  serial_ok g h → d ∈ deliveries h → d_state d = "pending" →
  (backlog (set_row (d_id d) (drained g m h) h) < backlog h)%nat.
Proof.
  intros [Hok Hp] Hd Hst. apply (sum_list_lt d_id); [apply (ho_deliveries _ _ Hok)|done|].
  destruct (progress_drained g m h d) as (_ & Ha & _); [by apply Hp|done|by apply (ho_bounds _ _ Hok)|].
  destruct (Hp d Hd) as [_ Hb _ _|code Hs|Hs]; [|congruence..].
  unfold remaining. rewrite (decide_True (P:=d_state d = "pending")) by done.
  case_decide; rewrite ?Ha; lia.
Qed.

Lemma drain_settles_from g budget : ∀ at_ done_ h,
  serial_ok g h → spaced at_ → all_due (claim_at (at_ 0%nat)) h → (backlog h ≤ budget)%nat →
  ∃ n h', drain (g_parse_url g) (g_rejection_text g) (g_hmac_sha256 g) (g_to_vec g)
            budget at_ done_ h = (Ok n, h')
    ∧ settled_all h' ∧ (n ≤ done_ + backlog h)%nat
    ∧ static_d <$> deliveries h' = static_d <$> deliveries h ∧ webhooks h' = webhooks h.
Proof.
  induction budget as [|budget IH]; intros at_ done_ h Hso Hsp Hdue Hb.
  { exists done_, h. split_and!; [done| |lia|done|done]. intros d Hd Hst.
    pose proof (backlog_pending h d Hd (so_progress _ _ Hso d Hd) Hst). lia. }
  destruct (Hsp 0%nat) as (Hl & Hcs & Hsc). simpl.
  pose proof (drain_serial g (at_ 0%nat) h Hso) as Hdr. rewrite Hl in Hdr.
  fold (drain_of g (at_ 0%nat) h).
  destruct (claim_pick (claim_at (at_ 0%nat)) ∅ h) as [d|] eqn:E.
  - destruct Hdr as (Hd & Hst & Hso' & out & ->).
    pose proof (backlog_drained g (at_ 0%nat) h d Hso Hd Hst) as Hlt.
    destruct (IH (λ i, at_ (S i)) (S done_) (set_row (d_id d) (drained g (at_ 0%nat) h) h))
      as (n & h' & Hdrain & Hset & Hn & Hstat & Hw); [done|intros i; apply Hsp| |lia|].
    + intros x' u (x & -> & Hx)%list_elem_of_fmap Hu. unfold after_secs in Hsc.
      assert (d_next_attempt_at x = Some u ∨ u ≤ after_secs (settle_at (at_ 0%nat)) 300) as [Hn|Hn].
      { case_bool_decide; [by eapply drained_next|by left]. }
      * pose proof (Hdue x u Hx Hn). lia.
      * unfold after_secs in Hn. lia.
    + exists n, h'. split_and!; [exact Hdrain|done|lia| |done]. rewrite Hstat. by apply static_if.
  - rewrite Hdr. exists done_, h. split_and!; [done| |lia|done|done]. intros d Hd Hst.
    pose proof (claim_pick_None _ _ E d Hd) as Hn. unfold due in Hn.
    rewrite bool_decide_eq_true_2 in Hn by done. simpl in Hn.
    destruct (d_next_attempt_at d) as [u|] eqn:Hu; [|done].
    apply Z.leb_gt in Hn. pose proof (Hdue d u Hd Hu). lia.
Qed.


(** *** Recording and registering *)

#[global] Instance oldest_webhook_total : Total oldest_webhook.
Proof. intros a b. unfold oldest_webhook. lia. Qed.

#[global] Instance oldest_webhook_trans : Transitive oldest_webhook.
Proof. intros a b c. unfold oldest_webhook. lia. Qed.

Lemma field_insert k k' v l :
  field k (obj_insert k' v l) = if decide (k = k') then Some v else field k l.
Proof.
  induction l as [|[k0 v0] l IH]; simpl.
  { repeat case_decide; congruence. }
  destruct (String.compare k' k0) eqn:E; simpl.
  - apply String.compare_eq_iff in E as ->. repeat case_decide; congruence.
  - repeat case_decide; congruence.
  - rewrite IH. assert (k' ≠ k0).
    { intros ->. by rewrite str_compare_refl in E. }
    repeat case_decide; congruence.
Qed.

Lemma field_insert_all k extra : NoDup (extra.*1) → ∀ doc,
  field k (foldl (λ obj '(k, v), obj_insert k v obj) doc extra)
  = match field k extra with Some v => Some v | None => field k doc end.
Proof.
  induction extra as [|[k0 v0] extra IH]; intros Hnd doc; [done|].
  rewrite fmap_cons in Hnd. apply NoDup_cons in Hnd as [Hk Hnd]. simpl in Hk |- *. rewrite IH by done.
  rewrite field_insert. destruct (decide (k0 = k)) as [->|Hne].
  - rewrite decide_True by done. destruct (field k extra) as [v|] eqn:E; [|done].
    destruct Hk. clear -E. induction extra as [|[k1 v1] extra IH]; [done|]. simpl in *.
    case_decide; set_solver.
  - by rewrite (decide_False (P:=k = k0)) by congruence.
Qed.

(** Recording an event adds one pending delivery for each active
    subscription of the tenant to that event (or to all), oldest subscription
    first, and for no other, before anything is sent; its body has every field
    of the data, and besides them the event and the tenant's name.  Nothing
    else in the tables changes. *)
Theorem emit_correct g now ids org ds name ev extra h :
  hooks_ok g h → refers h org ds = true →
  (∀ i, ids i ∉ d_id <$> deliveries h) → (∀ i j, ids i = ids j → i = j) → NoDup (extra.*1) →
  let body := event_body ev name (JObject extra) in
  let rows := imap (λ i w, fresh_row now (ids i) org ds (w_id w) ev body) (subscribers org ev h) in
  emit now ids org ds name ev (JObject extra) h
  = (Ok rows, h <| deliveries := deliveries h ++ rows |>)
  ∧ (∀ w, w ∈ subscribers org ev h ↔
       w ∈ webhooks h ∧ w_org_id w = org ∧ w_active w = true ∧ subscribed ev w = true)
  ∧ StronglySorted oldest_webhook (subscribers org ev h)
  ∧ ∀ k, json_get body k
         = match field k extra with
           | Some v => Some v
           | None => if decide (k = "event") then Some (JString ev)
                     else if decide (k = "org") then Some (JString name) else None
           end.
Proof.
  intros Hok Hr Hids Hinj Hnd body rows. split_and!.
  - unfold emit. rewrite (webhooks_for_delivery_ok g) by done.
    assert (∀ ws ids queued h0, hooks_ok g h0 → refers h0 org ds = true →
      (∀ w, w ∈ ws → w ∈ webhooks h0 ∧ w_org_id w = org ∧ subscribed ev w = true) →
      (∀ i, ids i ∉ d_id <$> deliveries h0) → (∀ i j, ids i = ids j → i = j) →
      emit_rows now ids org ds ev body ((λ w, (w_id w, w_url w, w_secret w)) <$> ws) queued h0
      = (Ok (queued ++ imap (λ i w, fresh_row now (ids i) org ds (w_id w) ev body) ws),
         h0 <| deliveries := deliveries h0
               ++ imap (λ i w, fresh_row now (ids i) org ds (w_id w) ev body) ws |>)) as Hall.
    { clear. induction ws as [|w ws IH]; intros ids queued h0 Hok Hr Hws Hids Hinj.
      { simpl. rewrite !app_nil_r. by destruct h0. }
      destruct (Hws w) as (Hw & Ho & Hs); [left|]. rewrite fmap_cons. cbn [emit_rows].
      unfold transaction. pose proof (enqueue_ok g now (ids 0%nat) org ds w ev body h0 Hok Hw Ho Hs Hr
        (Hids 0%nat)) as E. rewrite E.
      destruct (enqueue_inv g now (ids 0%nat) org ds w ev body h0 _ _ Hok Hw Ho Hs E) as (_ & _ & Hok').
      rewrite IH; [|done|done| | |].
      - rewrite imap_cons. rewrite <-app_assoc. f_equal. destruct h0. simpl.
        by rewrite <-app_assoc.
      - intros w' Hw'. destruct (Hws w'); [by right|]. done.
      - intros i. simpl. rewrite fmap_app. intros [Hi|Hi%list_elem_of_singleton]%elem_of_app.
        + by apply (Hids (S i)).
        + by apply Hinj in Hi.
      - intros i j Hij. apply Hinj in Hij. lia. }
    fold body. transitivity (emit_rows now ids org ds ev body
      ((λ w, (w_id w, w_url w, w_secret w)) <$> subscribers org ev h) [] h);
      [by destruct (_ <$> subscribers org ev h)|].
    rewrite (Hall (subscribers org ev h) ids [] h Hok Hr); [done| |done|done].
    intros w (? & ? & _ & ?)%elem_of_subscribers. done.
  - intros w. apply elem_of_subscribers.
  - apply (StronglySorted_merge_sort oldest_webhook).
  - intros k. unfold body, event_body, json_get. rewrite field_insert_all by done.
    destruct (field k extra); [done|]. simpl. repeat case_decide; congruence.
Qed.


(** ** Concrete outboxes *)

Module SampleHooks.

Definition setting : Setting :=
  {| g_sha256 := λ _, []; g_connect := λ _, Ok tt; g_db_text := λ _, "db error";
     g_parse_url := λ _, Some (mkUrl "https" "" None (Some "hooks.example") None);
     g_rejection_text := λ _, "refused"; g_hmac_sha256 := λ _ _, [1; 2]; g_to_vec := λ _, "{}" |}.

Definition acme : OrgRow :=
  mkOrg "o1" "acme" "/configs/acme.yaml" (JObject []) None None None None "active" None 0 0.

Definition tables : ControlDb := mkControl [acme] [] [].

Definition operator : Principal := mkPrincipal "operator" None Operator None.

Definition hook : WebhookIn := mkWebhookIn "https://hooks.example/er" ["job.succeeded"] None.

(** The host resolves to a public address. *)
Definition public : string → Z → option (list IpAddr) := λ _ _, Some [V4 1572395042].

Definition answering (r : result Z string) : Network := mkNetwork public (λ _, r).

(** One subscription, then one recorded event. *)
Definition subscribed_at (h : HookDb) : HookDb :=
  (create_webhook (g_connect setting) (g_db_text setting) (g_parse_url setting)
     (g_rejection_text setting) 1 None "w1" [7] public (mkState "" (Some "dsn")) operator "acme" hook
     h).2.

Definition with_hook : HookDb := subscribed_at (fresh tables []).

Definition recorded : HookDb :=
  (emit 2 (λ _, "d1") "o1" None "acme" "job.succeeded" (JObject [("job_id", JString "j1")])
     with_hook).2.

(** A claim of the one row, at 5. *)
Definition claim (h : HookDb) : list WebhookDelivery * HookDb :=
  match claim_delivery 5 ∅ h with Ok rh => rh | Err _ => ([], h) end.

Definition once : HookDb := (claim recorded).2.
Definition twice : HookDb := (claim once).2.

Definition ok200 : Network := answering (Ok 200).
Definition bad400 : Network := answering (Ok 400).

Lemma tables_ok : control_ok tables.
Proof. by split; vm_compute. Qed.

Lemma recorded_serially : serially_reachable setting recorded.
Proof.
  exists tables, []. split; [apply tables_ok|].
  eapply rtc_l; [apply serial_request, (step_create setting _ 1 None "w1" [7] public
    (mkState "" (Some "dsn")) operator "acme" hook)|].
  eapply rtc_l; [|apply rtc_refl]. apply serial_request.
  exact (step_emit setting with_hook 2 (λ _, "d1") "o1" None "acme" "job.succeeded"
    (JObject [("job_id", JString "j1")])).
Qed.

Definition outbox (h : HookDb) (c : list WebhookDelivery) (j : list (string * Verdict))
    (p : list (string * Request)) : Outbox := mkOutbox h c j p.

Lemma recorded_reachable : reachable setting (outbox recorded [] [] []).
Proof.
  exists tables, []. split; [apply tables_ok|].
  eapply rtc_l; [apply step_request, (step_create setting _ 1 None "w1" [7] public
    (mkState "" (Some "dsn")) operator "acme" hook)|].
  eapply rtc_l; [|apply rtc_refl]. apply (step_request setting (outbox with_hook [] [] [])).
  exact (step_emit setting with_hook 2 (λ _, "d1") "o1" None "acme" "job.succeeded"
    (JObject [("job_id", JString "j1")])).
Qed.

Lemma reach_step s s1 s' :
  reachable setting s → outbox_step setting s s1 → s1 = s' → reachable setting s'.
Proof.
  intros (c & ds & Hc & Hrun) Hst <-. exists c, ds. split; [done|].
  etrans; [exact Hrun|]. by apply rtc_once.
Qed.

Lemma step_to s s1 s' : outbox_step setting s s1 → s1 = s' → outbox_step setting s s'.
Proof. by intros Hst <-. Qed.

(** Two drains, each claiming before the other settles. *)
Definition held : list WebhookDelivery := (claim once).1 ++ (claim recorded).1.

Lemma held_reachable : reachable setting (outbox twice held [] []).
Proof.
  eapply reach_step; [eapply reach_step; [apply recorded_reachable| |]| |].
  - apply (step_claim setting _ 5 ∅ (claim recorded).1 once). vm_compute. reflexivity.
  - vm_compute. reflexivity.
  - apply (step_claim setting _ 5 ∅ (claim once).1 twice). vm_compute. reflexivity.
  - vm_compute. reflexivity.
Qed.

Definition d2 : WebhookDelivery := default (fresh_row 0 "" "" None "" "" JNull) (held !! 0%nat).
Definition d1 : WebhookDelivery := default (fresh_row 0 "" "" None "" "" JNull) (held !! 1%nat).

Definition v2 := (attempt_of setting ok200 d2 twice).1.
Definition v1 := (attempt_of setting bad400 d1 twice).1.

Definition post : Request :=
  mkRequest "https://hooks.example/er" "{}" "sha256=0102".

(** The state once both have posted. *)
Definition both : Outbox :=
  outbox twice [] [("d1", v1); ("d1", v2)] [("d1", post); ("d1", post)].

Lemma both_reachable : reachable setting both.
Proof.
  eapply reach_step; [eapply reach_step; [apply held_reachable| |]| |].
  - apply (step_attempt setting _ d2 [] [d1] ok200). vm_compute. reflexivity.
  - vm_compute. reflexivity.
  - apply (step_attempt setting _ d1 [] [] bad400). vm_compute. reflexivity.
  - vm_compute. reflexivity.
Qed.

(** Then the first settles as delivered, and the second as failed. *)
Definition delivered : HookDb := (transaction (settle 6 "d1" v2) twice).2.
Definition overwritten : HookDb := (transaction (settle 7 "d1" v1) delivered).2.

End SampleHooks.

Import SampleHooks.

(** The claim leaves a row pending and due, so a second dispatcher takes it too
    while the first is posting: [claim]'s own documentation says that several
    replicas drain the outbox without delivering twice. *)
Example delivered_twice :
  reachable setting both ∧ posted both = [("d1", post); ("d1", post)].
Proof. split; [apply both_reachable|done]. Qed.

(** And a settlement does not look at the state it replaces: the loser of the
    race turns a delivered row into a failed one. *)
Example delivered_then_failed :
  ∃ s s', reachable setting s ∧ outbox_step setting s s'
    ∧ d_state <$> deliveries (db s) = ["delivered"] ∧ d_state <$> deliveries (db s') = ["failed"].
Proof.
  exists (outbox delivered [] [("d1", v1)] (posted both)), (outbox overwritten [] [] (posted both)).
  split_and!; [| |vm_compute; reflexivity|vm_compute; reflexivity].
  - eapply reach_step; [apply both_reachable| |].
    + apply (step_settle setting _ 6 "d1" v2 [("d1", v1)] []). reflexivity.
    + vm_compute. reflexivity.
  - eapply step_to; [apply (step_settle setting _ 7 "d1" v1 [] [])|]; vm_compute; reflexivity.
Qed.

(** A drain that dies leaves its attempt counted and the row as due as before,
    and [claim] does not compare the count with its limit: seven drains that
    die make a seventh attempt of a delivery whose limit is six. *)
Example dying_drains_pass_the_limit :
  let h7 := Nat.iter 7 (λ h, (claim h).2) recorded in
  d_attempt <$> deliveries h7 = [7] ∧ d_max_attempts <$> deliveries h7 = [6]
  ∧ d_state <$> deliveries h7 = ["pending"].
Proof. vm_compute. done. Qed.

(** The waits between the six attempts: two and a half minutes in all, where
    the documentation of the limit says about ten, and the cap is never met. *)
Example retries_span :
  backoff_secs <$> [1; 2; 3; 4; 5] = [5; 10; 20; 40; 80]
  ∧ foldr Z.add 0 (backoff_secs <$> [1; 2; 3; 4; 5]) = 155.
Proof. vm_compute. done. Qed.

(** A subscription may name a dataset, and its documentation calls it a filter;
    an event of another dataset reaches it all the same. *)
Example dataset_is_no_filter :
  let w := mkWebhook "w1" "o1" (Some "ds1") "https://hooks.example" (JArray []) "s" true 0 0 in
  let h := mkHooks tables ["ds1"; "ds2"] [w] [] in
  d_webhook_id <$> deliveries
    (emit 2 (λ _, "d1") "o1" (Some "ds2") "acme" "job.failed" (JObject []) h).2 = ["w1"].
Proof. vm_compute. done. Qed.

Lemma outbox_posts_witness :
  length (posted both) = 2%nat
  ∧ ∀ id r r', (id, r) ∈ posted both → (id, r') ∈ posted both → r = r'.
Proof. split; [vm_compute; reflexivity|apply (outbox_posts setting both), both_reachable]. Defined.

Lemma serial_outbox_witness :
  length (deliveries recorded) = 1%nat ∧ ∀ d, d ∈ deliveries recorded → progress d.
Proof.
  split; [vm_compute; reflexivity|apply (serial_outbox setting recorded), recorded_serially].
Defined.

(** An endpoint that is down, asked every ten minutes. *)
Definition down : nat → Moment := λ i,
  let t := 600000000 * Z.of_nat i + 10 in mkMoment t t (answering (Ok 503)) ∅.


Lemma emit_correct_witness :
  (emit 2 pretty "o1" None "acme" "job.succeeded"
     (JObject [("job_id", JString "j1")]) with_hook).1
  = Ok (imap (λ i w, fresh_row 2 (pretty i) "o1" None (w_id w)
                       "job.succeeded" (event_body "job.succeeded" "acme"
                                          (JObject [("job_id", JString "j1")])))
          (subscribers "o1" "job.succeeded" with_hook)).
Proof.
  destruct (emit_correct setting 2 pretty "o1" None "acme"
    "job.succeeded" [("job_id", JString "j1")] with_hook) as [E _]; [| | | | |by rewrite E].
  - pose proof (fresh_hooks_ok setting tables [] tables_ok) as Hok.
    pose proof (step_create setting (fresh tables []) 1 None "w1" [7] public
      (mkState "" (Some "dsn")) operator "acme" hook) as Hst.
    by apply (request_step_inv setting _ _ Hok Hst).
  - vm_compute. reflexivity.
  - intros i Hi. vm_compute in Hi. by apply elem_of_nil in Hi.
  - intros i j. by apply (inj pretty).
  - apply NoDup_singleton.
Defined.

