(* ===== verification/Provision.v ===== *)
(** * Provisioning profiles and plans

    [er-server/src/provision.rs]: where a tenant's and a dataset's lake,
    configuration and drop directory are put.  The environment is a function
    from names to values, the file system a set of directories and a map of
    files whose refusals are a parameter, the JSON parser a parameter. *)

From S2P Require Import Prelude Ids Text Json Sql Auth Webhooks.
From Stdlib Require Import Ascii.

#[local] Open Scope Z_scope.

(** ** Definitions *)

(** *** Strings and paths *)

(** [str::replace], of a pattern that is not empty; [skip] counts the bytes of
    an occurrence still to pass. *)
Fixpoint replace_from (pat to_ : string) (skip : nat) (s : string) : string :=
  match s with
  | EmptyString => EmptyString
  | String c s' =>
      match skip with
      | S skip => replace_from pat to_ skip s'
      | O =>
          match strip_prefix pat s with
          | Some _ => to_ +:+ replace_from pat to_ (String.length pat - 1) s'
          | None => String c (replace_from pat to_ 0 s')
          end
      end
  end.

Definition str_replace (pat to_ s : string) : string := replace_from pat to_ 0 s.

(** [str::contains(&str)]. *)
Fixpoint str_contains (pat s : string) : bool :=
  match strip_prefix pat s with
  | Some _ => true
  | None => match s with EmptyString => false | String _ s => str_contains pat s end
  end.

Fixpoint ends_with (c : ascii) (s : string) : bool :=
  match s with
  | EmptyString => false
  | String c' EmptyString => bool_decide (c' = c)
  | String _ s => ends_with c s
  end.

(** [trim_end_matches(char)]. *)
Fixpoint trim_end_of (c : ascii) (s : string) : string :=
  match s with
  | EmptyString => EmptyString
  | String c' s =>
      match trim_end_of c s with
      | EmptyString => if decide (c' = c) then EmptyString else String c' EmptyString
      | t => String c' t
      end
  end.

(** [Path::join]. *)
Definition path_join (dir p : string) : string :=
  match p with
  | String "/" _ => p
  | _ => if bool_decide (dir = "") then p
         else if ends_with "/" dir then dir +:+ p else dir +:+ "/" +:+ p
  end.

(** What stands before and after the last [c]. *)
Fixpoint rsplit_once (c : ascii) (s : string) : option (string * string) :=
  match s with
  | EmptyString => None
  | String c' s =>
      match rsplit_once c s with
      | Some (a, b) => Some (String c' a, b)
      | None => if decide (c' = c) then Some (EmptyString, s) else None
      end
  end.

(** *** The profile *)

Inductive Mode := Local | Postgres.

#[global] Instance Mode_eq_dec : EqDecision Mode.
Proof. solve_decision. Defined.

Definition parse_mode (raw : string) : option Mode :=
  let m := to_ascii_lowercase (trim raw) in
  if decide (m = "local") then Some Local
  else if decide (m = "postgres") then Some Postgres else None.

Record Profile := mkProfile {
  mode : Mode;
  root : string;
  config_template : string;
  maint_dsn : option string;
  data_template : option string;
  env_extra : list (string * json);
}.

Inductive ProfileError :=
| UnknownMode (got : string)
| Missing (key : string)
| BadEnvJson (why : string).

Definition kind_of (v : json) : string :=
  match v with
  | JNull => "null"
  | JBool _ => "a boolean"
  | JInt _ | JFloat _ => "a number"
  | JString _ => "a string"
  | JArray _ => "an array"
  | JObject _ => "an object"
  end.

#[local] Open Scope rust_scope.

Section from_env.
Context (parse_json : string → result json string).

Definition non_blank (o : option string) : option string :=
  v ← o; if decide (trim v = "") then None else Some v.

Definition required (env : string → option string) (key : string) : result string ProfileError :=
  match non_blank (env key) with Some v => Ok v | None => Err (Missing key) end.

Definition from_env (env : string → option string) : result (option Profile) ProfileError :=
  match non_blank (env "ER_PROVISION_MODE") with
  | None => Ok None
  | Some raw =>
      m <-? match parse_mode raw with Some m => Ok m | None => Err (UnknownMode raw) end;
      extra <-? match env "ER_PROVISION_ENV_JSON" with
                | None | Some EmptyString => Ok []
                | Some text =>
                    match parse_json text with
                    | Ok (JObject map) => Ok map
                    | Ok other => Err (BadEnvJson ("expected an object, got " +:+ kind_of other))
                    | Err e => Err (BadEnvJson e)
                    end
                end;
      root <-? required env "ER_PROVISION_ROOT";
      template <-? required env "ER_PROVISION_CONFIG_TEMPLATE";
      maint <-? match m with
                | Postgres => dsn <-? required env "ER_PROVISION_MAINT_DSN"; Ok (Some dsn)
                | Local => Ok None
                end;
      data <-? match m with
               | Postgres => t <-? required env "ER_PROVISION_DATA_TEMPLATE"; Ok (Some t)
               | Local => Ok None
               end;
      Ok (Some (mkProfile m root template maint data extra))
  end.
End from_env.

(** *** Plans *)

Record Plan := mkPlan {
  pl_org : string;
  pl_dir : string;
  pl_config_path : string;
  pl_drop_root : string;
  pl_tenant : option string;
  pl_env : list (string * json);
}.

Definition env_json (p : Plan) : json := JObject (pl_env p).

Definition is_ascii_alphanumeric (c : ascii) : bool :=
  byte_in 48 57 c || byte_in 65 90 c || byte_in 97 122 c.

(** [chars().map(..)]: a character that is not an ASCII letter or digit becomes
    one underscore, whatever its bytes. *)
Fixpoint fold_name (s : string) : string :=
  match s with
  | EmptyString => EmptyString
  | String c s =>
      if is_ascii_alphanumeric c then String (ascii_lower c) (fold_name s)
      else if byte_in 128 191 c then fold_name s
      else String "_" (fold_name s)
  end.

Definition tenant_database (org : string) : string := "er_t_" +:+ fold_name org.
Definition dataset_schema (dataset : string) : string := "ds_" +:+ fold_name dataset.

Definition catalog_dsn (maint database : string) : string :=
  let '(base, query) := match split_once "?" maint with
                        | Some (b, q) => (b, Some q)
                        | None => (maint, None)
                        end in
  let trimmed := trim_end_of "/" base in
  let replaced :=
    match rsplit_once "/" trimmed with
    | Some (before, _) =>
        if negb (ends_with ":" before) && negb (ends_with "/" before)
        then before +:+ "/" +:+ database else trimmed +:+ "/" +:+ database
    | None => trimmed +:+ "/" +:+ database
    end in
  match query with Some q => replaced +:+ "?" +:+ q | None => replaced end.

(** [env.insert] of each entry. *)
Definition insert_all (entries : list (string * string)) (env : list (string * json)) :
    list (string * json) :=
  foldl (λ env '(k, v), obj_insert k (JString v) env) env entries.

Definition derived (config_path catalog data_path : string) : list (string * string) :=
  [("ER_CONFIG_PATH", config_path); ("ER_LAKE_CATALOG", catalog);
   ("ER_LAKE_DATA_PATH", data_path)].

Definition local_catalog (dir : string) : string :=
  path_join (path_join dir "lake") "catalog.ducklake".
Definition local_data (dir : string) : string := path_join (path_join dir "lake") "data".

Definition plan (p : Profile) (org : string) : Plan :=
  let dir := path_join (root p) org in
  let config_path := path_join dir "config.yaml" in
  let '(catalog, data_path, tenant) :=
    match mode p with
    | Local => (local_catalog dir, local_data dir, None)
    | Postgres =>
        let database := tenant_database org in
        (catalog_dsn (default "" (maint_dsn p)) database,
         str_replace "{org}" org (default "" (data_template p)), Some database)
    end in
  mkPlan org dir config_path (path_join dir "drop") tenant
    (insert_all (derived config_path catalog data_path) (env_extra p)).

(** The placeholders of a declared value. *)
Definition substituted (org dataset : string) (v : json) : json :=
  match v with
  | JString text => JString (str_replace "{dataset}" dataset (str_replace "{org}" org text))
  | v => v
  end.

Definition dataset_data (template org dataset : string) : string :=
  if str_contains "{dataset}" template
  then str_replace "{dataset}" dataset (str_replace "{org}" org template)
  else trim_end_of "/" (str_replace "{org}" org template) +:+ "/" +:+ dataset.

Definition plan_dataset (p : Profile) (org dataset : string) : Plan :=
  let dir := path_join (path_join (root p) org) dataset in
  let config_path := path_join dir "config.yaml" in
  let '(catalog, data_path, tenant, catalog_schema) :=
    match mode p with
    | Local => (local_catalog dir, local_data dir, None, None)
    | Postgres =>
        let database := tenant_database org in
        (catalog_dsn (default "" (maint_dsn p)) database,
         dataset_data (default "" (data_template p)) org dataset, Some database,
         Some (dataset_schema dataset))
    end in
  mkPlan org dir config_path (path_join dir "drop") tenant
    (insert_all
       (derived config_path catalog data_path
        ++ match catalog_schema with
           | Some schema => [("ER_LAKE_CATALOG_SCHEMA", schema)]
           | None => []
           end)
       (prod_map id (substituted org dataset) <$> env_extra p)).

(** *** What is created *)

Record Fs := mkFs { dirs : gset string; files : gmap string string }.

Section filesystem.
(** The refusal of an operation on a path, as text. *)
Context (refuses : string → string → option string).

Definition create_dir_all (path : string) (fs : Fs) : result Fs string :=
  match refuses "mkdir" path with
  | Some e => Err ("create " +:+ path +:+ ": " +:+ e)
  | None => Ok (mkFs ({[path]} ∪ dirs fs) (files fs))
  end.

Definition read_template (template : string) (fs : Fs) : result string string :=
  match refuses "read" template, files fs !! template with
  | None, Some yaml => Ok yaml
  | Some e, _ => Err ("read starter config " +:+ template +:+ ": " +:+ e)
  | None, None => Err ("read starter config " +:+ template +:+ ": not found")
  end.

Definition starter_config : string → Fs → result string string := read_template.

(** What was created before a failure stays. *)
Definition create_workspace (p : Plan) (template : string) (fs : Fs) : result unit string * Fs :=
  match create_dir_all (pl_dir p) fs with
  | Err e => (Err e, fs)
  | Ok fs =>
      match create_dir_all (pl_drop_root p) fs with
      | Err e => (Err e, fs)
      | Ok fs =>
          match read_template template fs with
          | Err e => (Err e, fs)
          | Ok yaml =>
              match files fs !! pl_config_path p with
              | Some _ => (Ok tt, fs)
              | None =>
                  match refuses "write" (pl_config_path p) with
                  | Some e => (Err ("write " +:+ pl_config_path p +:+ ": " +:+ e), fs)
                  | None => (Ok tt, mkFs (dirs fs) (<[pl_config_path p := yaml]> (files fs)))
                  end
              end
          end
      end
  end.

(** [Path::parent]. *)
Definition parent (path : string) : option string :=
  match rsplit_once "/" (trim_end_of "/" path) with
  | Some (dir, _) => Some dir
  | None => if decide (path = "") then None else Some ""
  end.

Definition create_local_lake (p : Plan) (fs : Fs) : result unit string * Fs :=
  match field "ER_LAKE_CATALOG" (pl_env p) ≫= as_str, field "ER_LAKE_DATA_PATH" (pl_env p) ≫= as_str with
  | None, _ => (Err "plan is missing ER_LAKE_CATALOG", fs)
  | Some _, None => (Err "plan is missing ER_LAKE_DATA_PATH", fs)
  | Some catalog, Some data =>
      let after :=
        match parent catalog with
        | Some dir => create_dir_all dir fs
        | None => Ok fs
        end in
      match after with
      | Err e => (Err e, fs)
      | Ok fs =>
          match create_dir_all data fs with
          | Err e => (Err e, fs)
          | Ok fs => (Ok tt, fs)
          end
      end
  end.
End filesystem.

Example paths_known :
  path_join "/srv/tenants" "acme" = "/srv/tenants/acme" ∧ path_join "/srv/" "x" = "/srv/x"
  ∧ str_replace "{org}" "acme" "s3://lake/{org}/" = "s3://lake/acme/"
  ∧ tenant_database "ACME-Corp" = "er_t_acme_corp" ∧ tenant_database "a.b c" = "er_t_a_b_c"
  ∧ catalog_dsn "postgresql://u:p@h:5432/ducklake" "er_t_x" = "postgresql://u:p@h:5432/er_t_x"
  ∧ catalog_dsn "postgresql://u:p@h:5432/" "er_t_x" = "postgresql://u:p@h:5432/er_t_x"
  ∧ catalog_dsn "postgresql://u:p@h:5432" "er_t_x" = "postgresql://u:p@h:5432/er_t_x"
  ∧ catalog_dsn "postgresql://u:p@h/ducklake?sslmode=require" "er_t_x"
    = "postgresql://u:p@h/er_t_x?sslmode=require".
Proof. vm_compute. repeat split. Qed.

(** ** Lemmas *)

Lemma str_app_tail (a a' b : string) : a +:+ b = a' +:+ b → a = a'.
Proof.
  intros E. assert (String.length a = String.length a') as Hl.
  { apply (f_equal String.length) in E. rewrite !str_length_app in E. lia. }
  by apply (str_app_inj _ _ _ _ Hl) in E as [-> _].
Qed.

Lemma ends_with_app c s d t : ends_with c (s +:+ String d t) = ends_with c (String d t).
Proof.
  induction s as [|e s IH]; [done|].
  change ((String e s +:+ String d t)) with (String e (s +:+ String d t)).
  destruct s as [|f s]; [done|]. exact IH.
Qed.

Lemma valid_org_name_tail s :
  valid_org_name s = true →
  s ≠ "" ∧ ends_with "/" s = false ∧ (∀ p, path_join p s = path_join p "" +:+ s).
Proof.
  destruct s as [|c s]; [done|]. unfold valid_org_name. intros H. split; [done|].
  apply andb_true_iff in H as [H Ht]. apply andb_true_iff in H as [_ Hc]. split.
  - clear Hc. remember (String c s) as t eqn:Et. clear Et c s. induction t as [|c t IH]; [done|].
    simpl in *. apply andb_true_iff in Ht as [Hc Ht]. destruct t as [|d t]; [|auto].
    apply bool_decide_eq_false. by intros ->.
  - intros p. unfold path_join. destruct c as [[] [] [] [] [] [] [] []]; try done;
      simpl; (case_bool_decide; [done|]); case_match; by rewrite ?str_app_assoc, ?str_app_nil_r.
Qed.

(** A path below a directory named by a valid name: the name, whole, between a
    prefix of the directory's and the rest. *)
Lemma path_below p s t c :
  valid_org_name s = true → c ≠ "/"%char →
  path_join (path_join p s) (String c t) = path_join p "" +:+ (s +:+ ("/" +:+ String c t)).
Proof.
  intros Hs Hc. destruct (valid_org_name_tail s Hs) as (Hne & Hend & Hp). rewrite Hp.
  unfold path_join at 1.
  rewrite bool_decide_eq_false_2.
  2:{ intros E%(f_equal String.length). rewrite str_length_app in E. destruct s; simpl in E; [done|lia]. }
  destruct s as [|d s]; [done|]. rewrite ends_with_app, Hend, <-!str_app_assoc.
  destruct c as [[] [] [] [] [] [] [] []]; done.
Qed.

Lemma path_below_dir p s :
  valid_org_name s = true → path_join (path_join p s) "" = path_join p "" +:+ (s +:+ "/").
Proof.
  intros Hs. destruct (valid_org_name_tail s Hs) as (Hne & Hend & Hp). rewrite Hp.
  unfold path_join at 1.
  rewrite bool_decide_eq_false_2.
  2:{ intros E%(f_equal String.length). rewrite str_length_app in E. destruct s; simpl in E; [done|lia]. }
  destruct s as [|d s]; [done|]. by rewrite ends_with_app, Hend, <-!str_app_assoc.
Qed.

Lemma path_below_inj p a b t c :
  valid_org_name a = true → valid_org_name b = true → c ≠ "/"%char →
  path_join (path_join p a) (String c t) = path_join (path_join p b) (String c t) → a = b.
Proof.
  intros Ha Hb Hc. rewrite !path_below by done. intros [_ E]%str_app_inj; [|done].
  by apply str_app_tail in E.
Qed.

Lemma field_derived k entries env :
  field k (insert_all entries env)
  = match last (filter (λ kv : string * string, kv.1 = k) entries) with
    | Some (_, v) => Some (JString v)
    | None => field k env
    end.
Proof.
  revert env. unfold insert_all. induction entries as [|[k' v] l IH]; intros env; [done|].
  change (foldl ?f env ((k', v) :: l)) with (foldl f (obj_insert k' (JString v) env) l).
  rewrite IH, field_insert, filter_cons. simpl.
  destruct (decide (k' = k)) as [->|Hk].
  - rewrite decide_True by done. destruct (filter _ l) as [|x l'] eqn:E; [done|].
    change (last ((k, v) :: x :: l')) with (last (x :: l')). simpl.
    by destruct (last (x :: l')) as [[]|] eqn:El; [|apply last_None in El].
  - by rewrite decide_False by congruence.
Qed.

Lemma replace_length pat s k :
  ∃ c n, (∀ t, String.length (replace_from pat t k s) = c + n * String.length t)%nat
         ∧ (k = O → str_contains pat s = true → pat ≠ "" → n ≠ O).
Proof.
  revert k. induction s as [|d s IH]; intros k; simpl.
  { exists O, O. split; [done|]. intros _. destruct pat; done. }
  destruct k as [|k].
  - destruct (strip_prefix pat (String d s)) eqn:E.
    + destruct (IH (String.length pat - 1)%nat) as (c & n & H & _). exists c, (S n).
      split; [|done]. intros t. rewrite str_length_app, H. lia.
    + destruct (IH O) as (c & n & H & Hn). exists (S c), n. split; [|done].
      intros t. simpl. by rewrite H.
  - destruct (IH k) as (c & n & H & _). exists c, n. split; [done|]. intros [=].
Qed.

(** A template that has the placeholder gives each name its own text. *)
Lemma str_replace_inj pat a b s :
  pat ≠ "" → str_contains pat s = true → str_replace pat a s = str_replace pat b s → a = b.
Proof.
  intros Hp Hs E. assert (String.length a = String.length b) as Hl.
  { destruct (replace_length pat s 0) as (c & n & H & Hn).
    apply (f_equal String.length) in E. unfold str_replace in E. rewrite !H in E.
    specialize (Hn eq_refl Hs Hp). nia. }
  unfold str_replace in E. induction s as [|d s IH]; simpl in *.
  { by destruct pat. }
  destruct (strip_prefix pat (String d s)).
  - by apply str_app_inj in E as [-> _].
  - injection E as E. auto.
Qed.

Lemma str_replace_none pat a s : str_contains pat s = false → str_replace pat a s = s.
Proof.
  unfold str_replace. induction s as [|d s IH]; [done|]. simpl.
  destruct (strip_prefix pat (String d s)); [done|]. intros H. by rewrite IH.
Qed.

Lemma catalog_dsn_inj maint a b : catalog_dsn maint a = catalog_dsn maint b → a = b.
Proof.
  assert (∀ p q : string, p +:+ a +:+ q = p +:+ b +:+ q → a = b) as H.
  { intros p q [_ E]%str_app_inj; [|done]. by apply str_app_tail in E. }
  assert (∀ p : string, p +:+ a = p +:+ b → a = b) as H'.
  { intros p [_ E]%str_app_inj; done. }
  unfold catalog_dsn. repeat case_match; simplify_eq/=; rewrite <- ?str_app_assoc; intros E;
    (apply str_app_inj in E as [_ E]; [|done]); change ("/" +:+ a) with (String "/" a) in E;
    change ("/" +:+ b) with (String "/" b) in E; try (by injection E);
    (change (String "/" a) with ("/" +:+ a) in E; change (String "/" b) with ("/" +:+ b) in E;
     rewrite <- ?str_app_assoc in E; by apply (H "/") in E).
Qed.

Lemma plan_declared p org :
  let l := match mode p with
           | Local => (local_catalog (path_join (root p) org), local_data (path_join (root p) org))
           | Postgres => (catalog_dsn (default "" (maint_dsn p)) (tenant_database org),
                          str_replace "{org}" org (default "" (data_template p)))
           end in
  field "ER_CONFIG_PATH" (pl_env (plan p org)) = Some (JString (pl_config_path (plan p org)))
  ∧ field "ER_LAKE_CATALOG" (pl_env (plan p org)) = Some (JString l.1)
  ∧ field "ER_LAKE_DATA_PATH" (pl_env (plan p org)) = Some (JString l.2)
  ∧ pl_dir (plan p org) = path_join (root p) org
  ∧ pl_config_path (plan p org) = path_join (path_join (root p) org) "config.yaml"
  ∧ pl_drop_root (plan p org) = path_join (path_join (root p) org) "drop"
  ∧ ∀ k, k ∉ ["ER_CONFIG_PATH"; "ER_LAKE_CATALOG"; "ER_LAKE_DATA_PATH"] →
         field k (pl_env (plan p org)) = field k (env_extra p).
Proof.
  unfold plan. destruct (mode p); cbn zeta beta iota; cbn [pl_env pl_config_path pl_dir pl_drop_root fst snd];
    (split_and!; [by rewrite field_derived..|done|done|done|]);
    (intros k Hk; rewrite field_derived; unfold derived;
     rewrite !elem_of_cons in Hk; rewrite !filter_cons_False by (simpl; intros <-; tauto); done).
Qed.

Lemma local_lake_inj p a b :
  valid_org_name a = true → valid_org_name b = true →
  (local_catalog (path_join p a) = local_catalog (path_join p b) → a = b)
  ∧ (local_data (path_join p a) = local_data (path_join p b) → a = b).
Proof.
  intros Ha Hb. unfold local_catalog, local_data.
  assert (∀ s, valid_org_name s = true → ∀ c t, c ≠ "/"%char →
            path_join (path_join (path_join p s) "lake") (String c t)
            = path_join p "" +:+ (s +:+ ("/lake/" +:+ String c t))) as H.
  { intros s Hs c t Hc. rewrite (path_below (path_join p s) "lake" t c) by done.
    rewrite (path_below_dir p s) by done. by rewrite <- !str_app_assoc. }
  rewrite !H by done.
  split; (intros [_ E]%str_app_inj; [|done]; by apply str_app_tail in E).
Qed.

Lemma tenant_database_inj a b : tenant_database a = tenant_database b ↔ fold_name a = fold_name b.
Proof.
  unfold tenant_database. split; [|by intros ->]. by intros [_ E]%str_app_inj.
Qed.

(** C28: two tenants never share a directory, a configuration file or a drop
    directory, whatever the operator's root is; on local lakes they never share
    a catalog file or a data directory, and on Postgres they share a catalog
    database exactly when their names fold to the same identifier and a data
    path exactly when the template has no placeholder.  The three derived
    variables win over the operator's declared environment, whose other entries
    are kept. *)
Theorem plan_isolates p a b :
  valid_org_name a = true → valid_org_name b = true → a ≠ b →
  let A := plan p a in
  let B := plan p b in
  pl_dir A ≠ pl_dir B ∧ pl_config_path A ≠ pl_config_path B ∧ pl_drop_root A ≠ pl_drop_root B
  ∧ field "ER_CONFIG_PATH" (pl_env A) ≠ field "ER_CONFIG_PATH" (pl_env B)
  ∧ match mode p with
    | Local =>
        field "ER_LAKE_CATALOG" (pl_env A) ≠ field "ER_LAKE_CATALOG" (pl_env B)
        ∧ field "ER_LAKE_DATA_PATH" (pl_env A) ≠ field "ER_LAKE_DATA_PATH" (pl_env B)
    | Postgres =>
        (field "ER_LAKE_CATALOG" (pl_env A) = field "ER_LAKE_CATALOG" (pl_env B)
         ↔ fold_name a = fold_name b)
        ∧ (field "ER_LAKE_DATA_PATH" (pl_env A) = field "ER_LAKE_DATA_PATH" (pl_env B)
           ↔ str_contains "{org}" (default "" (data_template p)) = false)
    end
  ∧ (∀ k, k ∉ ["ER_CONFIG_PATH"; "ER_LAKE_CATALOG"; "ER_LAKE_DATA_PATH"] →
          field k (pl_env A) = field k (env_extra p)).
Proof.
  intros Ha Hb Hab.
  destruct (plan_declared p a) as (Ca & La & Da & Dira & Cfa & Dra & Ka).
  destruct (plan_declared p b) as (Cb & Lb & Db & Dirb & Cfb & Drb & _).
  cbv zeta. rewrite Dira, Dirb, Cfa, Cfb, Dra, Drb, Ca, Cb, La, Lb, Da, Db, Cfa, Cfb.
  destruct (valid_org_name_tail a Ha) as (_ & _ & Ja).
  destruct (valid_org_name_tail b Hb) as (_ & _ & Jb).
  split_and!; [|by intros E%(path_below_inj _ _ _ "onfig.yaml" "c")|by intros E%(path_below_inj _ _ _ "rop" "d")| | |done].
  - rewrite Ja, Jb. by intros [_ ?]%str_app_inj.
  - by intros [= E%(path_below_inj _ _ _ "onfig.yaml" "c")].
  - destruct (mode p); cbn [fst snd].
    + destruct (local_lake_inj (root p) a b Ha Hb) as [Hc Hd].
      split; intros [= E]; auto.
    + split.
      * rewrite <-tenant_database_inj. split; [by intros [= ?%catalog_dsn_inj]|by intros ->].
      * split.
        -- intros [= E]. apply not_true_iff_false. intros Ht.
           by apply (str_replace_inj "{org}") in E.
        -- intros E. by rewrite !str_replace_none.
Qed.

Definition postgres : Profile :=
  mkProfile Postgres "/srv/tenants" "/etc/starter.yaml" (Some "postgresql://u:p@h:5432/ducklake")
    (Some "s3://lake/{org}/") [("ER_LAKE_CATALOG", JString "/shared"); ("ER_DUCKDB_THREADS", JString "4")].

Lemma plan_isolates_witness :
  let A := plan postgres "alpha" in let B := plan postgres "beta" in
  pl_config_path A ≠ pl_config_path B
  ∧ field "ER_LAKE_DATA_PATH" (pl_env A) ≠ field "ER_LAKE_DATA_PATH" (pl_env B)
  ∧ field "ER_DUCKDB_THREADS" (pl_env A) = Some (JString "4").
Proof.
  destruct (plan_isolates postgres "alpha" "beta") as (_ & Hc & _ & _ & [_ Hd] & Hk);
    [by vm_compute..|done|].
  split_and!; [exact Hc| |].
  - intros E%Hd. vm_compute in E. discriminate E.
  - rewrite Hk by (rewrite !elem_of_cons, elem_of_nil; by intros [|[|[|[]]]]). vm_compute. reflexivity.
Defined.

(** Two valid tenant names whose catalogs are one database: the second tenant's
    provisioning finds the database and adopts it. *)
Example shared_catalog :
  valid_org_name "acme-corp" = true ∧ valid_org_name "acme_corp" = true
  ∧ tenant_database "acme-corp" = tenant_database "acme_corp"
  ∧ field "ER_LAKE_CATALOG" (pl_env (plan postgres "acme-corp"))
    = field "ER_LAKE_CATALOG" (pl_env (plan postgres "acme_corp"))
  ∧ field "ER_LAKE_CATALOG" (pl_env (plan postgres "acme-corp"))
    = Some (JString "postgresql://u:p@h:5432/er_t_acme_corp").
Proof. vm_compute. by repeat split. Qed.

(** Two datasets of one tenant whose catalog tables are one schema. *)
Example shared_schema :
  dataset_schema "people-eu" = dataset_schema "people_eu"
  ∧ field "ER_LAKE_CATALOG_SCHEMA" (pl_env (plan_dataset postgres "acme" "people-eu"))
    = field "ER_LAKE_CATALOG_SCHEMA" (pl_env (plan_dataset postgres "acme" "people_eu"))
  ∧ field "ER_LAKE_CATALOG" (pl_env (plan_dataset postgres "acme" "people-eu"))
    = field "ER_LAKE_CATALOG" (pl_env (plan_dataset postgres "acme" "people_eu")).
Proof. vm_compute. by repeat split. Qed.

(** A repeated [provision] job: what the first run made is kept, the
    configuration a tenant has published over included; a failure leaves every
    file as it was. *)
Lemma create_workspace_idempotent refuses p template fs r fs' :
  create_workspace refuses p template fs = (r, fs') →
  dirs fs ⊆ dirs fs'
  ∧ (∀ path, path ≠ pl_config_path p → files fs' !! path = files fs !! path)
  ∧ (∀ yaml, files fs !! pl_config_path p = Some yaml → files fs' !! pl_config_path p = Some yaml)
  ∧ match r with
    | Err _ => files fs' = files fs
    | Ok _ =>
        pl_dir p ∈ dirs fs' ∧ pl_drop_root p ∈ dirs fs'
        ∧ (files fs !! pl_config_path p = None →
           files fs' !! pl_config_path p = files fs !! template)
        ∧ (template ≠ pl_config_path p →
           create_workspace refuses p template fs' = (Ok tt, fs'))
    end.
Proof.
  unfold create_workspace, create_dir_all, read_template.
  destruct (refuses "mkdir" (pl_dir p)) eqn:E1; [intros [= <- <-]; split_and!; done || set_solver|].
  destruct (refuses "mkdir" (pl_drop_root p)) eqn:E2;
    [intros [= <- <-]; simpl; split_and!; try done; set_solver|]. simpl.
  destruct (refuses "read" template) eqn:E3;
    [intros [= <- <-]; simpl; split_and!; try done; set_solver|].
  destruct (files fs !! template) as [yaml|] eqn:E4;
    [|intros [= <- <-]; simpl; split_and!; try done; set_solver].
  destruct (files fs !! pl_config_path p) as [old|] eqn:E5.
  - intros [= <- <-]. simpl.
    split_and!; [set_solver|done|by intros ? [= ->]|set_solver|set_solver|by intros [=]|].
    intros _. rewrite E4, E5. apply (f_equal (λ d, (_, mkFs d _))). set_solver.
  - destruct (refuses "write" (pl_config_path p)) eqn:E6; intros [= <- <-]; simpl.
    + split_and!; try done; set_solver.
    + split_and!; [set_solver| |done|set_solver|set_solver| |].
      * intros path Hp. by rewrite lookup_insert_ne.
      * intros _. by rewrite lookup_insert_eq.
      * intros Ht. rewrite lookup_insert_ne, E4, lookup_insert_eq by done. apply (f_equal (λ d, (_, mkFs d _))). set_solver.
Qed.

Lemma dataset_data_inj template org a b :
  str_contains "{dataset}" (str_replace "{org}" org template) = str_contains "{dataset}" template →
  dataset_data template org a = dataset_data template org b → a = b.
Proof.
  unfold dataset_data. intros Hs. destruct (str_contains "{dataset}" template).
  - by apply str_replace_inj.
  - rewrite !str_app_assoc. by intros [_ E]%str_app_inj.
Qed.

(** Two datasets of one tenant never share a directory, a configuration file or
    a drop directory; on local lakes not a catalog file either, and on Postgres
    they share the tenant's database and not the data path, and share the schema
    of their catalog tables exactly when their names fold to one identifier. *)
Lemma plan_dataset_isolates p org a b :
  valid_org_name a = true → valid_org_name b = true → a ≠ b →
  let A := plan_dataset p org a in
  let B := plan_dataset p org b in
  pl_dir A ≠ pl_dir B ∧ pl_config_path A ≠ pl_config_path B ∧ pl_drop_root A ≠ pl_drop_root B
  ∧ match mode p with
    | Local =>
        field "ER_LAKE_CATALOG" (pl_env A) ≠ field "ER_LAKE_CATALOG" (pl_env B)
        ∧ field "ER_LAKE_DATA_PATH" (pl_env A) ≠ field "ER_LAKE_DATA_PATH" (pl_env B)
    | Postgres =>
        field "ER_LAKE_CATALOG" (pl_env A) = field "ER_LAKE_CATALOG" (pl_env B)
        ∧ (field "ER_LAKE_CATALOG_SCHEMA" (pl_env A) = field "ER_LAKE_CATALOG_SCHEMA" (pl_env B)
           ↔ fold_name a = fold_name b)
        ∧ (str_contains "{dataset}" (str_replace "{org}" org (default "" (data_template p)))
           = str_contains "{dataset}" (default "" (data_template p)) →
           field "ER_LAKE_DATA_PATH" (pl_env A) ≠ field "ER_LAKE_DATA_PATH" (pl_env B))
    end.
Proof.
  intros Ha Hb Hab. unfold plan_dataset.
  destruct (valid_org_name_tail a Ha) as (_ & _ & Ja).
  destruct (valid_org_name_tail b Hb) as (_ & _ & Jb).
  destruct (mode p); cbv zeta; cbn [pl_dir pl_config_path pl_drop_root pl_env];
    (split_and!;
     [rewrite Ja, Jb; by intros [_ ?]%str_app_inj
     |by intros E%(path_below_inj _ _ _ "onfig.yaml" "c")
     |by intros E%(path_below_inj _ _ _ "rop" "d")|..]);
    rewrite !field_derived; cbn [app filter list_filter derived fst last]; simpl.
  - destruct (local_lake_inj (path_join (root p) org) a b Ha Hb) as [Hc _]. intros [= E]; auto.
  - destruct (local_lake_inj (path_join (root p) org) a b Ha Hb) as [_ Hd]. intros [= E]; auto.
  - done.
  - unfold dataset_schema. split; [|by intros ->]. intros [= E]. done.
  - intros Hs [= E%dataset_data_inj]; done.
Qed.
