(* ===== verification/Plane.v ===== *)
(** * Datasets, configuration versions and schedules: the tables

    The rest of the control plane's tables, their constraints and statements
    ([er-entities/src/dataset.rs], [config_version.rs], [schedule.rs]) and the
    functions of [er-server/src/pg.rs] over them.  A [Plane] is every table of
    the control database a request of the control plane reads or writes, with
    the files it writes; the tenants' table, the webhooks and the task ledger
    are their own files'. *)

From S2P Require Import Prelude Ids Text Json Sql Ledger Auth Webhooks Provision.

#[local] Open Scope Z_scope.

(** ** Definitions *)

(** *** Rows *)

Record Dataset := mkDataset {
  ds_id : string;
  ds_org_id : string;
  ds_name : string;
  ds_display_name : option string;
  ds_entity_type : string;
  ds_config_path : string;
  ds_env : json;
  ds_drop_root : option string;
  ds_s3_ingest_bucket : option string;
  ds_s3_ingest_prefix : option string;
  ds_active_config_version : option Z;
  ds_state : string;
  ds_created_at : Z;
  ds_updated_at : Z;
}.

#[global] Instance Dataset_eta : Etable Dataset :=
  λ d, mkDataset (ds_id d) (ds_org_id d) (ds_name d) (ds_display_name d) (ds_entity_type d)
    (ds_config_path d) (ds_env d) (ds_drop_root d) (ds_s3_ingest_bucket d) (ds_s3_ingest_prefix d)
    (ds_active_config_version d) (ds_state d) (ds_created_at d) (ds_updated_at d).

Record ConfigVersion := mkVersion {
  v_id : string;
  v_org_id : string;
  v_dataset_id : string;
  v_version : Z;
  v_yaml : string;
  v_config_hash : string;
  v_state : string;
  v_tier : option string;
  v_created_by : string;
  v_created_at : Z;
  v_published_at : option Z;
  v_updated_at : Z;
}.

#[global] Instance ConfigVersion_eta : Etable ConfigVersion :=
  λ v, mkVersion (v_id v) (v_org_id v) (v_dataset_id v) (v_version v) (v_yaml v) (v_config_hash v)
    (v_state v) (v_tier v) (v_created_by v) (v_created_at v) (v_published_at v) (v_updated_at v).

Record Schedule := mkSchedule {
  s_id : string;
  s_org_id : string;
  s_dataset_id : string;
  s_kind : string;
  s_params : json;
  s_cron : string;
  s_enabled : bool;
  s_source : string;
  s_last_enqueued_at : option Z;
  s_created_at : Z;
  s_updated_at : Z;
}.

#[global] Instance Schedule_eta : Etable Schedule :=
  λ s, mkSchedule (s_id s) (s_org_id s) (s_dataset_id s) (s_kind s) (s_params s) (s_cron s)
    (s_enabled s) (s_source s) (s_last_enqueued_at s) (s_created_at s) (s_updated_at s).

Record Plane := mkPlane {
  pl_control : ControlDb;
  pl_datasets : list Dataset;
  pl_versions : list ConfigVersion;
  pl_schedules : list Schedule;
  pl_webhooks : list Webhook;
  pl_deliveries : list WebhookDelivery;
  pl_ledger : Ledger.Db;
  pl_files : Fs;
}.

#[global] Instance Plane_eta : Etable Plane :=
  λ p, mkPlane (pl_control p) (pl_datasets p) (pl_versions p) (pl_schedules p) (pl_webhooks p)
    (pl_deliveries p) (pl_ledger p) (pl_files p).

(** The webhooks' share of the tables. *)
Definition hooks_of (p : Plane) : HookDb :=
  mkHooks (pl_control p) (ds_id <$> pl_datasets p) (pl_webhooks p) (pl_deliveries p).

Definition with_hooks (h : HookDb) (p : Plane) : Plane :=
  p <| pl_control := control h |> <| pl_webhooks := webhooks h |>
    <| pl_deliveries := deliveries h |>.

(** A statement of the tenants' table, of the ledger. *)
Definition on_control {A} (m : stmt ControlDb A) : stmt Plane A := λ p,
  match m (pl_control p) with Ok (x, c) => Ok (x, p <| pl_control := c |>) | Err e => Err e end.

Definition on_ledger {A} (m : stmt Ledger.Db A) : stmt Plane A := λ p,
  match m (pl_ledger p) with Ok (x, d) => Ok (x, p <| pl_ledger := d |>) | Err e => Err e end.

(** *** Constraints *)

Definition ENTITY_TYPES : list string := ["person"; "account"].
Definition VERSION_STATES : list string := ["draft"; "published"].

Definition has_org (p : Plane) (org_id : string) : bool :=
  bool_decide (org_id ∈ o_id <$> orgs (pl_control p)).

Definition has_dataset (p : Plane) (dataset_id : string) : bool :=
  bool_decide (dataset_id ∈ ds_id <$> pl_datasets p).

Definition dataset_ok (d : Dataset) : bool :=
  bool_decide (ds_entity_type d ∈ ENTITY_TYPES) && bool_decide (ds_state d ∈ ORG_STATES).

(** [CREATE TABLE public.datasets]. *)
Definition datasets_valid (p : Plane) (l : list Dataset) : bool :=
  forallb (λ d, dataset_ok d && has_org p (ds_org_id d)) l.

Definition datasets_unique (l : list Dataset) : bool :=
  unique (λ _, true) ds_id l && unique (λ _, true) (λ d, (ds_org_id d, ds_name d)) l.

(** [CREATE TABLE public.config_versions]. *)
Definition versions_valid (p : Plane) (l : list ConfigVersion) : bool :=
  forallb (λ v, bool_decide (v_state v ∈ VERSION_STATES) && Webhooks.bigint (v_version v)
                && has_org p (v_org_id v) && has_dataset p (v_dataset_id v)) l.

Definition versions_unique (l : list ConfigVersion) : bool :=
  unique (λ _, true) v_id l && unique (λ _, true) (λ v, (v_dataset_id v, v_version v)) l.

Definition CORRECTION_PASS_SOURCE : string := "config:correction_pass".
Definition MAINTENANCE_SOURCE : string := "system:lake_maintain".

(** [CREATE TABLE public.schedules], with its two partial unique indexes. *)
Definition schedules_valid (p : Plane) (l : list Schedule) : bool :=
  forallb (λ s, has_org p (s_org_id s) && has_dataset p (s_dataset_id s)) l.

Definition schedules_unique (l : list Schedule) : bool :=
  unique (λ _, true) s_id l
  && unique (λ s, bool_decide (s_source s = CORRECTION_PASS_SOURCE)) s_org_id l
  && unique (λ s, bool_decide (s_source s = MAINTENANCE_SOURCE)) s_org_id l.

(** *** Orders *)

Definition name_le (a b : Dataset) : Prop := String.le (ds_name a) (ds_name b).
#[global] Instance name_le_dec a b : Decision (name_le a b).
Proof. unfold name_le. apply _. Defined.

Definition newest_version (a b : ConfigVersion) : Prop := v_version b ≤ v_version a.
#[global] Instance newest_version_dec a b : Decision (newest_version a b).
Proof. unfold newest_version. apply _. Defined.

Definition oldest_schedule (a b : Schedule) : Prop := s_created_at a ≤ s_created_at b.
#[global] Instance oldest_schedule_dec a b : Decision (oldest_schedule a b).
Proof. unfold oldest_schedule. apply _. Defined.

Definition schedule_id_le (a b : Schedule) : Prop := String.le (s_id a) (s_id b).
#[global] Instance schedule_id_le_dec a b : Decision (schedule_id_le a b).
Proof. unfold schedule_id_le. apply _. Defined.

(** *** Statements *)

Section statements.
Context (now : Z).

Definition update_datasets (where_ : Dataset → bool) (set : Dataset → Dataset) : stmt Plane nat :=
  λ p, let '(l, ret) := update_rows where_ set (pl_datasets p) in
       install (datasets_valid p l) (datasets_unique l) (length ret) (p <| pl_datasets := l |>).

Definition update_versions (where_ : ConfigVersion → bool) (set : ConfigVersion → ConfigVersion) :
    stmt Plane nat :=
  λ p, let '(l, ret) := update_rows where_ set (pl_versions p) in
       install (versions_valid p l) (versions_unique l) (length ret) (p <| pl_versions := l |>).

Definition update_schedules (where_ : Schedule → bool) (set : Schedule → Schedule) :
    stmt Plane nat :=
  λ p, let '(l, ret) := update_rows where_ set (pl_schedules p) in
       install (schedules_valid p l) (schedules_unique l) (length ret) (p <| pl_schedules := l |>).

(** [dataset/create/ensure]: [ON CONFLICT (org_id, name) DO NOTHING]; the checks
    of the row come before the conflict. *)
Definition ensure (id org_id name : string) (display_name : option string)
    (entity_type config_path : string) (env : json)
    (drop_root s3_ingest_bucket s3_ingest_prefix : option string)
    (active_config_version : option Z) (state : string) : stmt Plane nat := λ p,
  let row := mkDataset id org_id name display_name entity_type config_path env drop_root
               s3_ingest_bucket s3_ingest_prefix active_config_version state now now in
  if negb (dataset_ok row) then Err OtherError
  else if existsb (λ d, bool_decide (ds_org_id d = org_id) && bool_decide (ds_name d = name))
            (pl_datasets p)
  then Ok (0%nat, p)
  else
    let l := pl_datasets p ++ [row] in
    install (datasets_valid p l) (datasets_unique l) 1%nat (p <| pl_datasets := l |>).

Definition dataset_by_id (id : string) (p : Plane) : list Dataset :=
  filter (λ d, ds_id d = id) (pl_datasets p).

Definition by_org_and_name (org_id name : string) (p : Plane) : list Dataset :=
  filter (λ d, ds_org_id d = org_id ∧ ds_name d = name) (pl_datasets p).

Definition list_for_org (org_id : string) (p : Plane) : list Dataset :=
  merge_sort name_le (filter (λ d, ds_org_id d = org_id) (pl_datasets p)).

(** [env || $1] is [jsonb]'s. *)
Definition merge_dataset_env (concat : json → json → json) (patch : json) (org_id : string) :
    stmt Plane nat :=
  update_datasets (λ d, bool_decide (ds_org_id d = org_id))
    (λ d, d <| ds_env := concat (ds_env d) patch |> <| ds_updated_at := now |>).

Definition set_dataset_active_config (version : Z) (dataset_id : string) : stmt Plane nat :=
  update_datasets (λ d, bool_decide (ds_id d = dataset_id))
    (λ d, d <| ds_active_config_version := Some version |> <| ds_updated_at := now |>).

Definition set_display_name (display_name : option string) (org_id name : string) :
    stmt Plane nat :=
  update_datasets (λ d, bool_decide (ds_org_id d = org_id) && bool_decide (ds_name d = name))
    (λ d, d <| ds_display_name := display_name |> <| ds_updated_at := now |>).

Definition set_state_of_dataset (new_state org_id name expected : string) : stmt Plane nat :=
  update_datasets (λ d, bool_decide (ds_org_id d = org_id) && bool_decide (ds_name d = name)
                        && bool_decide (ds_state d = expected))
    (λ d, d <| ds_state := new_state |> <| ds_updated_at := now |>).

(** [config_version/create/draft]: [coalesce(max(version), 0) + 1] among the
    dataset's; no row has a null dataset, and none may. *)
Definition max_version (l : list ConfigVersion) : option Z :=
  foldr (λ v m, Some (match m with Some n => Z.max (v_version v) n | None => v_version v end)) None l.

Definition next_version (dataset_id : string) (p : Plane) : Z :=
  default 0 (max_version (filter (λ v, v_dataset_id v = dataset_id) (pl_versions p))) + 1.

Definition draft (id org_id : string) (dataset_id : option string)
    (yaml config_hash created_by : string) : stmt Plane (list ConfigVersion) := λ p,
  match dataset_id with
  | None => Err OtherError
  | Some ds =>
      let row := mkVersion id org_id ds (next_version ds p) yaml config_hash "draft" None
                   created_by now None now in
      let l := pl_versions p ++ [row] in
      install (versions_valid p l) (versions_unique l) [row] (p <| pl_versions := l |>)
  end.

Definition by_version (dataset_id : string) (version : Z) (p : Plane) : list ConfigVersion :=
  filter (λ v, v_dataset_id v = dataset_id ∧ v_version v = version) (pl_versions p).

Definition version_list (dataset_id : string) (p : Plane) : list ConfigVersion :=
  merge_sort newest_version (filter (λ v, v_dataset_id v = dataset_id) (pl_versions p)).

Definition publish (tier : option string) (dataset_id : string) (version : Z) : stmt Plane nat :=
  update_versions (λ v, bool_decide (v_dataset_id v = dataset_id) && bool_decide (v_version v = version))
    (λ v, v <| v_state := "published" |> <| v_tier := tier |> <| v_published_at := Some now |>
            <| v_updated_at := now |>).

(** [schedule/create/create], [create/ensure_config_owned]. *)
Definition insert_schedule (row : Schedule) : stmt Plane nat := λ p,
  let l := pl_schedules p ++ [row] in
  install (schedules_valid p l) (schedules_unique l) 1%nat (p <| pl_schedules := l |>).

Definition schedule_create (schedule_id org_id : string) (dataset_id : option string)
    (kind : string) (params : json) (cron : string) : stmt Plane nat :=
  match dataset_id with
  | None => fail_with OtherError
  | Some ds => insert_schedule (mkSchedule schedule_id org_id ds kind params cron true "api" None now now)
  end.

Definition ensure_config_owned (schedule_id org_id : string) (dataset_id : option string)
    (kind cron source : string) : stmt Plane nat := λ p,
  match dataset_id with
  | None => Err OtherError
  | Some ds =>
      if existsb (λ s, bool_decide (s_dataset_id s = ds) && bool_decide (s_source s = source))
           (pl_schedules p)
      then Ok (0%nat, p)
      else insert_schedule
             (mkSchedule schedule_id org_id ds kind (JObject []) cron true source None now now) p
  end.

Definition schedule_delete (dataset_id schedule_id : string) : stmt Plane nat := λ p,
  let gone s := s_dataset_id s = dataset_id ∧ s_id s = schedule_id in
  Ok (length (filter gone (pl_schedules p)),
      p <| pl_schedules := filter (λ s, ¬ gone s) (pl_schedules p) |>).

(** [JOIN public.orgs o ON o.id = s.org_id WHERE s.enabled AND o.state = 'active']. *)
Definition schedules_due (p : Plane) : list Schedule :=
  merge_sort schedule_id_le
    (s ← pl_schedules p;
     o ← orgs (pl_control p);
     if bool_decide (o_id o = s_org_id s) && s_enabled s && bool_decide (o_state o = "active")
     then [s] else []).

Definition schedule_list (dataset_id : string) (p : Plane) : list Schedule :=
  merge_sort oldest_schedule (filter (λ s, s_dataset_id s = dataset_id) (pl_schedules p)).

Definition mark_enqueued (schedule_id : string) : stmt Plane nat :=
  update_schedules (λ s, bool_decide (s_id s = schedule_id))
    (λ s, s <| s_last_enqueued_at := Some now |> <| s_updated_at := now |>).

Definition set_config_cron (cron dataset_id source : string) : stmt Plane nat :=
  update_schedules (λ s, bool_decide (s_dataset_id s = dataset_id) && bool_decide (s_source s = source)
                         && negb (bool_decide (s_cron s = cron)))
    (λ s, s <| s_cron := cron |> <| s_updated_at := now |>).

Definition set_enabled (enabled : bool) (schedule_id dataset_id : string) : stmt Plane nat :=
  update_schedules (λ s, bool_decide (s_id s = schedule_id) && bool_decide (s_dataset_id s = dataset_id)
                         && bool_decide (s_source s = "api"))
    (λ s, s <| s_enabled := enabled |> <| s_updated_at := now |>).

(** *** [pg.rs] *)

Definition get_dataset (org_id name : string) (p : Plane) : option Dataset :=
  head (by_org_and_name org_id name p).

Definition default_dataset_id (org_id : string) (p : Plane) : option string :=
  ds_id <$> head (by_org_and_name org_id "default" p).

Definition get_dataset_by_id (id : string) (p : Plane) : option Dataset :=
  head (dataset_by_id id p).

(** [None] for a dataset that is not there. *)
Definition lake_env_for_job (org : OrgRow) (dataset_id : option string) (p : Plane) :
    option (json * option string) :=
  match dataset_id with
  | Some id => (λ d, (ds_env d, ds_drop_root d)) <$> get_dataset_by_id id p
  | None => Some (o_env org, o_drop_root org)
  end.

Definition create_dataset_byo (id org_id name : string) (display_name : option string)
    (entity_type config_path : string) (env : json)
    (drop_root s3_ingest_bucket s3_ingest_prefix : option string) : stmt Plane bool :=
  n ← ensure id org_id name display_name entity_type config_path env drop_root s3_ingest_bucket
        s3_ingest_prefix None "active";
  mret (n =? 1)%nat.

Definition set_dataset_state (org_id name new_state expected : string) : stmt Plane bool :=
  n ← set_state_of_dataset new_state org_id name expected; mret (n =? 1)%nat.

Definition set_dataset_display_name (org_id name : string) (display_name : option string) :
    stmt Plane unit :=
  _ ← set_display_name display_name org_id name; mret tt.

(** The [RETURNING] yields exactly one row. *)
Definition pg_create_config_version (id org_id : string) (dataset_id : option string)
    (yaml config_hash created_by : string) : stmt Plane Z :=
  rows ← draft id org_id dataset_id yaml config_hash created_by;
  match rows with row :: _ => mret (v_version row) | [] => fail_with OtherError end.

Definition pg_list_config_versions : string → Plane → list ConfigVersion := version_list.

Definition pg_get_config_version (dataset_id : string) (version : Z) (p : Plane) :
    option ConfigVersion := head (by_version dataset_id version p).

Definition org_publish_context (org : string) (p : Plane) : option (string * string * option Z) :=
  (λ o, (o_config_path o, o_state o, o_active_config_version o))
    <$> head (org_by_name org (pl_control p)).

(** Three statements, each committing by itself. *)
Definition pg_publish_config_version (org_name dataset_id : string) (version : Z)
    (tier : option string) (p : Plane) : result unit DbError * Plane :=
  match transaction (publish tier dataset_id version) p with
  | (Err e, p) => (Err e, p)
  | (Ok _, p) =>
      match transaction (set_dataset_active_config version dataset_id) p with
      | (Err e, p) => (Err e, p)
      | (Ok _, p) =>
          match transaction (on_control (set_active_config now version org_name)) p with
          | (Err e, p) => (Err e, p)
          | (Ok _, p) => (Ok tt, p)
          end
      end
  end.

Definition pg_create_schedule (schedule_id org_id : string) (dataset_id : option string)
    (kind cron : string) (params : json) : stmt Plane string :=
  _ ← schedule_create schedule_id org_id dataset_id kind params cron; mret schedule_id.

Definition pg_list_schedules : string → Plane → list Schedule := schedule_list.

(** The job and whether this call inserted it. *)
Definition pg_enqueue_scheduled (job_id_ org_id : string) (dataset_id : option string)
    (kind idempotency_key : string) (params : option json) (schedule_id : string)
    (trace_context : option string) : stmt Plane (Job * bool) :=
  rows ← on_ledger (Ledger.enqueue_scheduled now job_id_ org_id dataset_id kind 0
                      (Some idempotency_key) params schedule_id trace_context);
  match rows with
  | job :: _ => mret (job, bool_decide (job_id job = job_id_))
  | [] => fail_with OtherError
  end.

(** Two statements, each committing by itself. *)
Definition ensure_correction_schedule (schedule_id org_id : string) (dataset_id : option string)
    (cadence : string) (p : Plane) : result unit DbError * Plane :=
  match transaction (set_config_cron cadence (default org_id dataset_id) CORRECTION_PASS_SOURCE) p with
  | (Err e, p) => (Err e, p)
  | (Ok _, p) =>
      match transaction (ensure_config_owned schedule_id org_id dataset_id "correct" cadence
                           CORRECTION_PASS_SOURCE) p with
      | (Err e, p) => (Err e, p)
      | (Ok _, p) => (Ok tt, p)
      end
  end.

Definition due_schedules : Plane → list Schedule := schedules_due.

Definition mark_schedule_enqueued (schedule_id : string) : stmt Plane unit :=
  _ ← mark_enqueued schedule_id; mret tt.

Definition set_schedule_enabled (dataset_id schedule_id : string) (enabled : bool) :
    stmt Plane bool :=
  n ← set_enabled enabled schedule_id dataset_id; mret (n =? 1)%nat.

Definition pg_delete_schedule (dataset_id schedule_id : string) : stmt Plane bool :=
  n ← schedule_delete dataset_id schedule_id; mret (n =? 1)%nat.

(** [pg::enqueue]: the first row of the upsert. *)
Definition pg_enqueue (job_id_ org_id : string) (dataset_id : option string) (kind : string)
    (priority : Z) (idempotency_key : option string) (params : option json)
    (created_by trace_context : option string) : stmt Plane Job :=
  rows ← on_ledger (Ledger.enqueue now job_id_ org_id dataset_id kind priority idempotency_key
                      params created_by trace_context);
  match rows with job :: _ => mret job | [] => fail_with OtherError end.
End statements.

(** [pg::audit] of a request; the dataset's name where the handler gives it. *)
Definition pg_audit (trace : option string) (p : Principal) (org : string)
    (dataset : option string) (action : string) (detail : json) (pl : Plane) : Plane :=
  pl <| pl_control := append (mkAudit (actor p) (Some org) dataset action detail trace)
                        (pl_control pl) |>.
