(* ===== verification/Datasets.v ===== *)
(** * Datasets and configuration versions: the requests

    The handlers of [er-server/src/lib.rs] that list, create, rename, suspend
    and resume a tenant's datasets, draft and read configuration versions, and
    the readers of the active configuration.  A handler is an [action]: it reads
    and writes the tables and the files, and an early return keeps what was
    already committed.  The YAML reader, the hash, the wording of failures and
    the refusals of the file system are parameters. *)

From S2P Require Import Prelude Ids Text LakeClock Json Sql Config Ledger Auth Webhooks Provision Plane.

#[local] Open Scope Z_scope.

(** ** Definitions *)

(** *** Actions *)

Definition action (A : Type) : Type := Plane → result A Response * Plane.

#[global] Instance action_ret : MRet action := λ A x pl, (Ok x, pl).
#[global] Instance action_bind : MBind action := λ A B k m pl,
  match m pl with (Ok x, pl) => k x pl | (Err r, pl) => (Err r, pl) end.

(** An early return, a read, a write. *)
Definition check {A} (r : result A Response) : action A := λ pl, (r, pl).
Definition reads {A} (f : Plane → result A Response) : action A := λ pl, (f pl, pl).
Definition modify (f : Plane → Plane) : action unit := λ pl, (Ok tt, f pl).
Definition refuse {A} (code : Z) (msg : string) : action A := check (Err (detail_err code msg)).

Definition serve (m : action Response) (pl : Plane) : Response * Plane :=
  match m pl with (Ok r, pl) => (r, pl) | (Err r, pl) => (r, pl) end.

(** *** Shared checks *)

(** The answer when nothing is found behind a name. *)
Definition dataset_or_404 (org_row : OrgRow) (ds : string) (pl : Plane) : result Dataset Response :=
  match get_dataset (o_id org_row) ds pl with
  | Some row => Ok row
  | None => Err (detail_err 404 ("no dataset '" +:+ ds +:+ "' in org '" +:+ o_name org_row +:+ "'"))
  end.

(** A best-effort stamp. *)
Definition stamp_dataset (org_id : string) (pl : Plane) : option string :=
  default_dataset_id org_id pl.

Definition refuse_unless_active_dataset (org : OrgRow) (d : Dataset) (what : string) :
    result unit Response :=
  match refuse_unless_active org what with
  | Err r => Err r
  | Ok _ =>
      if decide (ds_state d = "active") then Ok tt
      else Err (detail_err 409 ("dataset '" +:+ ds_name d +:+ "' is " +:+ ds_state d +:+ "; "
                                +:+ what +:+ " are accepted only when active"))
  end.

Definition RESERVED_DATASET_NAMES : list string := ["datasets"; "settings"].
Definition ER_CONFIG_PATH_KEY : string := "ER_CONFIG_PATH".

(** *** Bodies *)

Record DatasetIn := mkDatasetIn {
  in_name : string;
  in_display_name : option string;
  in_entity_type : option string;
  in_config_path : option string;
  in_env : gmap string string;
  in_drop_root : option string;
  in_s3_ingest_bucket : option string;
  in_s3_ingest_prefix : option string;
}.

(** The provisioning part of the server's state. *)
Record Provisioning := mkProvisioning {
  provision : option Profile;
  provision_error : option string;
}.

Definition env_map_json (m : gmap string string) : json :=
  JObject (prod_map id JString <$> map_sorted m).

Section handlers.
Context (connect : string → result unit string) (db_text : DbError → string) (ts : Z → string).
Context (from_yaml : string → option Config.Config) (json_text : json → string).
Context (sha256 : string → list Z) (error_text error_chain : Config.ConfigError → string).
Context (refuses : string → string → option string).

(** A request's statement, in its own transaction. *)
Definition run {A} (m : stmt Plane A) : action A := λ pl,
  match transaction m pl with (Ok x, pl) => (Ok x, pl) | (Err e, pl) => (Err (pg_err db_text e), pl) end.

(** Several statements that commit one by one. *)
Definition run_all {A} (m : Plane → result A DbError * Plane) : action A := λ pl,
  match m pl with (Ok x, pl) => (Ok x, pl) | (Err e, pl) => (Err (pg_err db_text e), pl) end.

Definition load (yaml : string) : result Config.Config Config.ConfigError :=
  Config.load_config_str from_yaml yaml.

Definition hash (c : Config.Config) : string := Config.config_hash json_text sha256 c.

(** The tenant behind a name, and its dataset. *)
Definition tenant (st : AppState) (missing org : string) : action OrgRow :=
  _ ← check (connected connect st missing);
  reads (λ pl, org_or_404 org (pl_control pl)).

Definition scoped (st : AppState) (missing org ds : string) : action (OrgRow * Dataset) :=
  org_row ← tenant st missing org;
  d ← reads (dataset_or_404 org_row ds);
  mret (org_row, d).

Definition no_registry : string := "org registry requires Postgres".
Definition config_registry_unavailable : string := "config registry requires Postgres".

Definition dataset_json (d : Dataset) : json :=
  JObject [("active_config_version", opt_json JInt (ds_active_config_version d));
           ("created_at", JString (ts (ds_created_at d)));
           ("display_name", opt_json JString (ds_display_name d));
           ("entity_type", JString (ds_entity_type d)); ("name", JString (ds_name d));
           ("state", JString (ds_state d)); ("updated_at", JString (ts (ds_updated_at d)))].

(** *** Datasets *)

Definition list_datasets_route (st : AppState) (p : Principal) (org : string) : action Response :=
  _ ← check (guard p org Viewer);
  org_row ← tenant st no_registry org;
  reads (λ pl, Ok (200, JArray (dataset_json <$> list_for_org (o_id org_row) pl))).

Definition get_dataset_route (st : AppState) (p : Principal) (org ds : string) : action Response :=
  _ ← check (guard p org Viewer);
  '(_, d) ← scoped st no_registry org ds;
  mret (200, dataset_json d).

Definition already_exists (name org : string) : string :=
  "dataset '" +:+ name +:+ "' already exists in org '" +:+ org +:+ "'".

(** A file system step of a request. *)
Definition on_files (f : Fs → result unit string * Fs) : action unit := λ pl,
  match f (pl_files pl) with
  | (Ok _, fs) => (Ok tt, pl <| pl_files := fs |>)
  | (Err e, fs) => (Err (detail_err 500 e), pl <| pl_files := fs |>)
  end.

Definition entity_type_of (body : DatasetIn) : string := default "person" (in_entity_type body).

(** The branch that derives the dataset's lake; [ids] are the identifiers it
    mints. *)
Definition create_dataset_auto (now : Z) (trace : option string) (ids : nat → string)
    (st : AppState) (pr : Provisioning) (p : Principal) (org : string) (body : DatasetIn) :
    action Response :=
  profile ← match provision pr, provision_error pr with
            | Some profile, _ => mret profile
            | None, Some e => refuse 500 ("auto-provisioning is misconfigured: " +:+ e)
            | None, None =>
                refuse 503 ("dataset auto-provisioning not configured (set ER_PROVISION_MODE); "
                            +:+ "operators may pass config_path and the lake env instead")
            end;
  org_row ← tenant st no_registry org;
  _ ← check (refuse_unless_active org_row "create a dataset");
  _ ← reads (λ pl, match get_dataset (o_id org_row) (in_name body) pl with
                   | Some _ => Err (detail_err 409 (already_exists (in_name body) org))
                   | None => Ok tt
                   end);
  let plan := plan_dataset profile org (in_name body) in
  _ ← on_files (create_workspace refuses plan (config_template profile));
  _ ← (if decide (mode profile = Local) then on_files (create_local_lake refuses plan) else mret tt);
  starter ← reads (λ pl, match starter_config refuses (config_template profile) (pl_files pl) with
                         | Ok yaml => Ok yaml
                         | Err e => Err (detail_err 500 e)
                         end);
  starter_hash ← check match load starter with
                       | Ok config => Ok (hash config)
                       | Err e => Err (detail_err 500 ("the starter config template does not load: "
                                                       +:+ error_chain e))
                       end;
  let id := ids 0%nat in
  _ ← run (ensure now id (o_id org_row) (in_name body) (in_display_name body) (entity_type_of body)
             (pl_config_path plan) (env_json plan) (Some (pl_drop_root plan)) None None None
             "provisioning");
  version ← run (pg_create_config_version now (ids 1%nat) (o_id org_row) (Some id) starter
                   starter_hash (actor p));
  _ ← run (publish now (Some "C") (o_id org_row) version);
  _ ← run (set_dataset_active_config now version id);
  job ← run (pg_enqueue now (ids 2%nat) (o_id org_row) (Some id) "dataset_provision" 0
               (Some ("dataset-provision:" +:+ org +:+ ":" +:+ in_name body)) None
               (Some (actor p)) None);
  _ ← modify (pg_audit trace p org (Some (in_name body)) "dataset.provision"
                (JObject [("dataset", JString (in_name body));
                          ("entity_type", JString (entity_type_of body));
                          ("job_id", JString (job_id job))]));
  mret (202, JObject [("job_id", JString (job_id job)); ("name", JString (in_name body));
                      ("state", JString "provisioning")]).

(** The environment of a dataset an operator brings: the configuration's path is
    stated once. *)
Definition agreed_env (config_path : string) (env : gmap string string) :
    result (gmap string string) Response :=
  match env !! ER_CONFIG_PATH_KEY with
  | None => Ok (<[ER_CONFIG_PATH_KEY := config_path]> env)
  | Some from_env =>
      if decide (from_env = config_path) then Ok env
      else Err (detail_err 422 ("config_path '" +:+ config_path +:+ "' and env." +:+ ER_CONFIG_PATH_KEY
             +:+ " '" +:+ from_env +:+ "' must name the same file"))
  end.

Definition create_dataset (now : Z) (trace : option string) (ids : nat → string) (st : AppState)
    (pr : Provisioning) (p : Principal) (org : string) (body : DatasetIn) : action Response :=
  _ ← check match in_config_path body with
            | Some _ => operator_only p
            | None => guard p org Admin
            end;
  _ ← (if valid_org_name (in_name body) then mret tt
       else refuse 422 ("invalid dataset name '" +:+ in_name body +:+ "'"));
  _ ← (if decide (in_name body ∈ RESERVED_DATASET_NAMES)
       then refuse 422 ("'" +:+ in_name body +:+ "' is a reserved dataset name") else mret tt);
  _ ← (if decide (entity_type_of body ∈ ENTITY_TYPES) then mret tt
       else refuse 422 ("entity_type must be 'person' or 'account', not '" +:+ entity_type_of body
                        +:+ "'"));
  _ ← (match dsn st with Some _ => mret tt | None => refuse 501 no_registry end);
  match in_config_path body with
  | None => create_dataset_auto now trace ids st pr p org body
  | Some config_path =>
      env_map ← check (agreed_env config_path (in_env body));
      org_row ← tenant st no_registry org;
      _ ← check (refuse_unless_active org_row "create a dataset");
      created ← run (create_dataset_byo now (ids 0%nat) (o_id org_row) (in_name body)
                       (in_display_name body) (entity_type_of body) config_path
                       (env_map_json env_map) (in_drop_root body) (in_s3_ingest_bucket body)
                       (in_s3_ingest_prefix body));
      if created : bool then
        _ ← modify (pg_audit trace p org (Some (in_name body)) "dataset.create"
                      (JObject [("dataset", JString (in_name body));
                                ("entity_type", JString (entity_type_of body))]));
        mret (201, JObject [("name", JString (in_name body)); ("state", JString "active")])
      else refuse 409 (already_exists (in_name body) org)
  end.

(** [PATCH] of the label; [None] clears it. *)
Definition update_dataset (now : Z) (st : AppState) (p : Principal) (org ds : string)
    (display_name : option string) : action Response :=
  _ ← check (guard p org Admin);
  '(org_row, _) ← scoped st no_registry org ds;
  _ ← run (set_dataset_display_name now (o_id org_row) ds display_name);
  d ← reads (dataset_or_404 org_row ds);
  mret (200, dataset_json d).

Definition transition_dataset (now : Z) (trace : option string) (st : AppState) (p : Principal)
    (org ds new_state expected not_in_expected : string) : action Response :=
  _ ← check (guard p org Admin);
  '(org_row, _) ← scoped st no_registry org ds;
  changed ← run (set_dataset_state now (o_id org_row) ds new_state expected);
  if changed : bool then
    _ ← modify (pg_audit trace p org (Some ds)
                  (if decide (new_state = "suspended") then "dataset.suspend" else "dataset.resume")
                  (JObject [("dataset", JString ds)]));
    mret (200, JObject [("name", JString ds); ("state", JString new_state)])
  else refuse 409 not_in_expected.

Definition suspend_dataset (now : Z) (trace : option string) (st : AppState) (p : Principal)
    (org ds : string) : action Response :=
  transition_dataset now trace st p org ds "suspended" "active"
    ("dataset '" +:+ ds +:+ "' is not active; only active datasets suspend").

Definition resume_dataset (now : Z) (trace : option string) (st : AppState) (p : Principal)
    (org ds : string) : action Response :=
  transition_dataset now trace st p org ds "active" "suspended"
    ("dataset '" +:+ ds +:+ "' is not suspended; nothing to resume").

(** *** Configuration versions *)

Definition config_invalid (e : Config.ConfigError) : Response :=
  detail_err 422 ("config error: " +:+ error_text e).

Definition create_config_version (now : Z) (mint_id : string) (st : AppState) (p : Principal)
    (org ds yaml : string) : action Response :=
  _ ← check (guard p org Admin);
  config ← check match load yaml with Ok c => Ok c | Err e => Err (config_invalid e) end;
  '(org_row, d) ← scoped st config_registry_unavailable org ds;
  version ← run (pg_create_config_version now mint_id (o_id org_row) (Some (ds_id d)) yaml
                   (hash config) (actor p));
  mret (201, JObject [("config_hash", JString (hash config)); ("org", JString org);
                      ("state", JString "draft"); ("version", JInt version)]).

Definition version_fields (v : ConfigVersion) : list (string * json) :=
  [("config_hash", JString (v_config_hash v)); ("created_at", JString (ts (v_created_at v)));
   ("created_by", JString (v_created_by v));
   ("published_at", opt_json (λ t, JString (ts t)) (v_published_at v));
   ("state", JString (v_state v)); ("tier", opt_json JString (v_tier v));
   ("version", JInt (v_version v))].

Definition list_config_versions (st : AppState) (p : Principal) (org ds : string) :
    action Response :=
  _ ← check (guard p org Viewer);
  '(_, d) ← scoped st config_registry_unavailable org ds;
  reads (λ pl, Ok (200, JArray ((λ v, JObject (version_fields v))
                                  <$> pg_list_config_versions (ds_id d) pl))).

Definition parse_version (s : string) : option Z := parse_i64 s.

Definition config_version_missing (org version : string) : Response :=
  detail_err 404 ("no config version " +:+ version +:+ " for org '" +:+ org +:+ "'").

Definition config_detail_json (v : ConfigVersion) : json :=
  JObject (version_fields v ++ [("yaml", JString (v_yaml v))]).

(** An integer as [Display] writes it. *)
Definition int_text (z : Z) : string :=
  if z <? 0 then "-" +:+ decimal 20 (- z) "" else decimal 20 z "".

Definition get_config_version (st : AppState) (p : Principal) (org ds version : string) :
    action Response :=
  _ ← check (guard p org Viewer);
  version ← check match parse_version version with
                  | Some v => Ok v
                  | None => Err (config_version_missing org version)
                  end;
  '(_, d) ← scoped st config_registry_unavailable org ds;
  reads (λ pl, match pg_get_config_version (ds_id d) version pl with
               | Some v => Ok (200, config_detail_json v)
               | None => Ok (config_version_missing org (int_text version))
               end).

(** *** The active configuration *)

Definition dataset_active_config (d : Dataset) (pl : Plane) : result Config.Config Response :=
  match ds_active_config_version d with
  | None => Err (detail_err 422 "no published config; publish a config version first")
  | Some active =>
      match pg_get_config_version (ds_id d) active pl with
      | None => Err (detail_err 500 ("active config version " +:+ int_text active +:+ " is missing"))
      | Some v =>
          match load (v_yaml v) with
          | Ok c => Ok c
          | Err e => Err (detail_err 500 ("active config does not load: " +:+ error_chain e))
          end
      end
  end.

Definition org_active_config (org_row : OrgRow) (pl : Plane) : result Config.Config Response :=
  match o_active_config_version org_row with
  | None => Err (detail_err 422 "no published config; publish a config version first")
  | Some active =>
      match default_dataset_id (o_id org_row) pl with
      | None => Err (detail_err 422 "the org has no default dataset to read a config from")
      | Some id =>
          match pg_get_config_version id active pl with
          | None => Err (detail_err 422 ("config version " +:+ int_text active +:+ " is missing for org '"
                                         +:+ o_name org_row +:+ "'"))
          | Some v =>
              match load (v_yaml v) with Ok c => Ok c | Err e => Err (config_invalid e) end
          end
      end
  end.
End handlers.
