(* ===== verification/Publish.v ===== *)
(** * Publishing a configuration version

    [publish_config_version] of [er-server/src/lib.rs]: the checks, the change
    tier against the active configuration, the file the runs read, the two
    pointers, the correction schedule, the rebuild jobs, the audit row and the
    event.  The model registry's active names and the advice read off a profile
    are parameters. *)

From S2P Require Import Prelude F64 Ids Text LakeClock Json Sql Config ConfigCheck Ledger Auth Webhooks Provision Plane Datasets.
From Stdlib Require Import Ascii SpecFloat.

#[local] Open Scope Z_scope.

(** ** Definitions *)

(** *** Equal values

    [Value]'s equality: numbers of one kind compare as numbers, an object's
    fields are listed in key order. *)

Definition f64_eqb (x y : spec_float) : bool := SFeqb x y.

Fixpoint json_eqb (v w : json) : bool :=
  let fix list_eqb (l k : list json) : bool :=
    match l, k with
    | [], [] => true
    | x :: l, y :: k => json_eqb x y && list_eqb l k
    | _, _ => false
    end in
  let fix fields_eqb (l k : list (string * json)) : bool :=
    match l, k with
    | [], [] => true
    | (a, x) :: l, (b, y) :: k => bool_decide (a = b) && json_eqb x y && fields_eqb l k
    | _, _ => false
    end in
  match v, w with
  | JNull, JNull => true
  | JBool a, JBool b => bool_decide (a = b)
  | JInt a, JInt b => bool_decide (a = b)
  | JFloat a, JFloat b => f64_eqb a b
  | JString a, JString b => bool_decide (a = b)
  | JArray l, JArray k => list_eqb l k
  | JObject l, JObject k => fields_eqb l k
  | _, _ => false
  end.

Definition opt_json_eqb (v w : option json) : bool :=
  match v, w with
  | None, None => true
  | Some v, Some w => json_eqb v w
  | _, _ => false
  end.

(** *** Tiers *)

Definition TIER_C_BLOCKS : list string := ["comparisons"; "standardization"; "sources"].
Definition TIER_B_BLOCKS : list string := ["blocking"; "constraints"; "models"].
Definition TIER_A_BLOCKS : list string := ["thresholds"; "survivorship"].
Definition OPERATOR_ONLY_BLOCKS : list string :=
  ["tenant"; "storage"; "versions"; "training"; "clustering"; "coherence"; "generator"].

Definition object_keys (v : json) : list string :=
  match v with JObject l => l.*1 | _ => [] end.

Definition config_changed_blocks (old new : Config.Config) : list string :=
  let old_v := Config.config_value old in
  let new_v := Config.config_value new in
  filter (λ k, opt_json_eqb (json_get old_v k) (json_get new_v k) = false)
    (dedup (sort_strings (object_keys old_v ++ object_keys new_v))).

Definition hits (changed blocks : list string) : bool :=
  existsb (λ b, bool_decide (b ∈ blocks)) changed.

Definition tier_for (changed : list string) : option string :=
  if hits changed TIER_C_BLOCKS then Some "C"
  else if hits changed TIER_B_BLOCKS then Some "B"
  else if hits changed TIER_A_BLOCKS then Some "A"
  else None.

(** *** The file *)

(** A failure to rename leaves the file written beside. *)
Definition write_config_file (refuses : string → string → option string) (path yaml : string)
    (fs : Fs) : result unit string * Fs :=
  let tmp := path +:+ ".tmp" in
  match refuses "write" tmp with
  | Some e => (Err e, fs)
  | None =>
      let written := <[tmp := yaml]> (files fs) in
      match refuses "rename" tmp with
      | Some e => (Err e, mkFs (dirs fs) written)
      | None => (Ok tt, mkFs (dirs fs) (<[path := yaml]> (delete tmp written)))
      end
  end.

(** [{:?}] of a list of block names. *)
Definition debug_names (l : list string) : string :=
  "[" +:+ String.concat ", " ((λ s, String "034"%char (s +:+ String "034"%char "")) <$> l) +:+ "]".

(** *** The handler *)

Section publish.
Context (connect : string → result unit string) (db_text : DbError → string).
Context (from_yaml : string → option Config.Config) (error_text : Config.ConfigError → string).
Context (refuses : string → string → option string).
(** The publish check's two parameters. *)
Context (parse : string → result SqlColumns.Expr string) (regex : string → option string).
(** The names with an active version in a dataset's registry; the profile's
    advice. *)
Context (active_models : string → Plane → list string).
Context (advisories : string → string → Config.Config → list string).

Definition checked_config (yaml : string) : result Config.Config Response :=
  match load from_yaml yaml with
  | Err e => Err (config_invalid error_text e)
  | Ok c =>
      match config_reference_problems parse regex c with
      | [] => Ok c
      | problems => Err (detail_err 422 ("the config cannot be published as written: "
                                         +:+ String.concat "; " problems))
      end
  end.

Definition missing_models (c : Config.Config) (have : list string) : list string :=
  filter (λ n, n ∉ have) (Config.ms_name <$> Config.models c).

Definition models_refusal (missing have : list string) : Response :=
  let known := dedup (sort_strings have) in
  detail_err 422 ("`models:` names " +:+ String.concat ", " missing
    +:+ " with no ACTIVE version in the registry (active: "
    +:+ (if decide (known = []) then "none" else String.concat ", " known) +:+ ")").

Definition models_known (d : Dataset) (c : Config.Config) (pl : Plane) : result unit Response :=
  match Config.models c with
  | [] => Ok tt
  | _ =>
      let have := active_models (ds_id d) pl in
      match missing_models c have with
      | [] => Ok tt
      | missing => Err (models_refusal missing have)
      end
  end.

(** The tier and the changed blocks: the version the TENANT points at, looked
    up among the dataset's. *)
Definition classify (d : Dataset) (active_v : option Z) (new_config : Config.Config) (pl : Plane) :
    option string * list string :=
  match active_v with
  | None => (Some "C", [])
  | Some av =>
      let old_yaml := match pg_get_config_version (ds_id d) av pl with
                      | Some v => v_yaml v
                      | None => ""
                      end in
      match load from_yaml old_yaml with
      | Ok old_config =>
          let changed := config_changed_blocks old_config new_config in
          (tier_for changed, changed)
      | Err _ => (Some "C", [])
      end
  end.

Definition operator_blocks (changed : list string) : list string :=
  filter (λ b, b ∈ OPERATOR_ONLY_BLOCKS) changed.

Definition train_key (version : Z) : string := "publish:" +:+ int_text version +:+ ":train".
Definition rebuild_key (version : Z) : string := "publish:" +:+ int_text version +:+ ":rebuild".
Definition rebuild_params : json := JObject [("skip_ingest", JBool true)].

(** The jobs a tier asks for. *)
Definition rebuild (now : Z) (ids : nat → string) (p : Principal) (org_id dataset_id : string)
    (version : Z) (tier : option string) : action (list string) :=
  let full i :=
    j ← run db_text (pg_enqueue now (ids i) org_id (Some dataset_id) "run_all_full" 0
                       (Some (rebuild_key version)) (Some rebuild_params) (Some (actor p))
                       (trace_context p));
    mret (job_id j) in
  match tier with
  | Some t =>
      if decide (t = "C") then
        j ← run db_text (pg_enqueue now (ids 1%nat) org_id (Some dataset_id) "train" 0
                           (Some (train_key version)) None (Some (actor p)) (trace_context p));
        r ← full 2%nat;
        mret [job_id j; r]
      else if decide (t = "A" ∨ t = "B") then r ← full 1%nat; mret [r]
      else mret []
  | None => mret []
  end.

(** The event of a publish, best-effort. *)
Definition emit_published (now : Z) (ids : nat → string) (org_row : OrgRow) (dataset_id org : string)
    (data : json) (pl : Plane) : Plane :=
  with_hooks (emit now ids (o_id org_row) (Some dataset_id) org "config.published" data
                (hooks_of pl)).2 pl.

Definition publish_config_version (now : Z) (trace : option string) (ids mints : nat → string)
    (st : AppState) (p : Principal) (org ds version : string) : action Response :=
  _ ← check (guard p org Admin);
  version ← check match parse_version version with
                  | Some v => Ok v
                  | None => Err (config_version_missing org version)
                  end;
  '(org_row, d) ← scoped connect st config_registry_unavailable org ds;
  detail ← reads (λ pl, match pg_get_config_version (ds_id d) version pl with
                        | Some v => Ok v
                        | None => Err (config_version_missing org (int_text version))
                        end);
  new_config ← check (checked_config (v_yaml detail));
  _ ← reads (models_known d new_config);
  '(config_path, org_state, active_v) ← reads (λ pl, match org_publish_context org pl with
                                                     | Some ctx => Ok ctx
                                                     | None => Err (no_org org)
                                                     end);
  '(tier, changed) ← reads (λ pl, Ok (classify d active_v new_config pl));
  _ ← (if decide (operator_blocks changed ≠ [] ∧ p_role p ≠ Operator)
       then refuse 403 ("blocks " +:+ debug_names (operator_blocks changed)
                        +:+ " are operator-only; publish refused")
       else mret tt);
  _ ← (if decide (org_state = "active") then mret tt
       else refuse 409 ("org '" +:+ org +:+ "' is not active"));
  _ ← (λ pl, match write_config_file refuses config_path (v_yaml detail) (pl_files pl) with
             | (Ok _, fs) => (Ok tt, pl <| pl_files := fs |>)
             | (Err e, fs) => (Err (detail_err 500 ("config write: " +:+ e)), pl <| pl_files := fs |>)
             end);
  _ ← run_all db_text (pg_publish_config_version now org (ds_id d) version tier);
  _ ← (match load from_yaml (v_yaml detail) with
       | Ok config =>
           run_all db_text (ensure_correction_schedule now (ids 0%nat) (o_id org_row) (Some (ds_id d))
                              (Config.correction_cadence config))
       | Err _ => mret tt
       end);
  jobs_enqueued ← rebuild now ids p (o_id org_row) (ds_id d) version tier;
  _ ← modify (pg_audit trace p org None "config.publish"
                (JObject [("tier", opt_json JString tier); ("version", JInt version)]));
  _ ← modify (emit_published now mints org_row (ds_id d) org
                (JObject [("changed_blocks", json_keys changed); ("jobs_enqueued", json_keys jobs_enqueued);
                          ("published_by", JString (actor p)); ("tier", opt_json JString tier);
                          ("version", JInt version)]));
  mret (200, JObject [("advisories", json_keys (advisories org ds new_config));
                      ("changed_blocks", json_keys changed); ("jobs_enqueued", json_keys jobs_enqueued);
                      ("org", JString org); ("published_by", JString (actor p));
                      ("tier", opt_json JString tier); ("version", JInt version)]).

End publish.
