(* ===== verification/Schedules.v ===== *)
(** * Schedules: the requests and the dispatcher's tick

    The schedule handlers of [er-server/src/lib.rs] and [schedule_tick] of
    [er-server/src/dispatcher.rs].  chrono's calendar accessors and its
    rendering of a minute are parameters. *)

From stdpp Require Import pretty.
From S2P Require Import Prelude Ids Text Json Sql Cron Config Ledger Auth Webhooks Provision Plane Datasets.

#[local] Open Scope Z_scope.

(** ** Definitions *)

(** *** Requests *)

Definition SCHEDULABLE_KINDS : list string :=
  ["run_all_full"; "run_all_incremental"; "correct"; "train"; "lake_maintain"; "apply_approved";
   "profile"].

(** [None] where the parser overflows. *)
Definition valid_cron (s : string) : option bool :=
  match Cron.parse s with
  | Some (Ok _) => Some true
  | Some (Err _) => Some false
  | None => None
  end.

Section handlers.
Context (connect : string → result unit string) (db_text : DbError → string) (ts : Z → string).

Definition no_schedules : string := "schedules require Postgres".

(** [None] is a panic, before anything is done. *)
Definition create_schedule (now : Z) (mint_id : string) (st : AppState) (p : Principal)
    (org ds kind cron : string) (params : option json) : option (action Response) :=
  let refused : option (result unit Response) :=
    match guard p org Admin with
    | Err r => Some (Err r)
    | Ok _ =>
        if decide (kind ∈ SCHEDULABLE_KINDS) then
          valid ← valid_cron cron;
          Some (if valid : bool then Ok tt
                else Err (detail_err 422 ("invalid cron expression: '" +:+ cron +:+ "'")))
        else Some (Err (detail_err 422 ("kind '" +:+ kind +:+ "' is not schedulable")))
    end in
  checked ← refused;
  Some (_ ← check checked;
        '(org_row, d) ← scoped connect st no_schedules org ds;
        id ← run db_text (pg_create_schedule now mint_id (o_id org_row) (Some (ds_id d)) kind cron
                            (default (JObject []) params));
        mret (201, JObject [("cron", JString cron); ("id", JString id); ("kind", JString kind)])).

Definition schedule_json (s : Schedule) : json :=
  JObject [("cron", JString (s_cron s)); ("enabled", JBool (s_enabled s)); ("id", JString (s_id s));
           ("kind", JString (s_kind s));
           ("last_enqueued_at", opt_json (λ t, JString (ts t)) (s_last_enqueued_at s));
           ("source", JString (s_source s))].

Definition schedules_index (st : AppState) (p : Principal) (org ds : string) : action Response :=
  _ ← check (guard p org Viewer);
  '(_, d) ← scoped connect st no_schedules org ds;
  reads (λ pl, Ok (200, JArray (schedule_json <$> pg_list_schedules (ds_id d) pl))).

Definition update_schedule (now : Z) (st : AppState) (p : Principal) (org ds schedule_id : string)
    (enabled : bool) : action Response :=
  _ ← check (guard p org Admin);
  '(_, d) ← scoped connect st no_schedules org ds;
  changed ← run db_text (set_schedule_enabled now (ds_id d) schedule_id enabled);
  if changed : bool
  then mret (200, JObject [("enabled", JBool enabled); ("id", JString schedule_id)])
  else refuse 409 "schedule is unknown, belongs to another org, or is config-owned".

Definition delete_schedule (st : AppState) (p : Principal) (org ds schedule_id : string) :
    action Response :=
  _ ← check (guard p org Admin);
  '(_, d) ← scoped connect st no_schedules org ds;
  deleted ← run db_text (pg_delete_schedule (ds_id d) schedule_id);
  mret (200, JObject [("deleted", JBool deleted)]).
End handlers.

(** *** The tick *)

Inductive TickError := TickDb (e : DbError) | TickPanic.

Definition schedule_key (schedule_id minute_key : string) : string :=
  "sched:" +:+ (schedule_id +:+ (":" +:+ minute_key)).

Section tick.
Context {DateTime : Type}.
Context (at_minute at_hour at_day at_month at_weekday : DateTime → Z) (minute_key : DateTime → string).

Definition runs_at (expr : Cron.Cron) (at_ : DateTime) : bool :=
  Cron.matches_at at_minute at_hour at_day at_month at_weekday expr at_.

(** The loop; [ids] are the identifiers it mints, one per enqueue. *)
Fixpoint tick_loop (now : Z) (at_ : DateTime) (ids : nat → string) (l : list Schedule)
    (enqueued : nat) (pl : Plane) : result nat TickError * Plane :=
  match l with
  | [] => (Ok enqueued, pl)
  | s :: l =>
      match Cron.parse (s_cron s) with
      | None => (Err TickPanic, pl)
      | Some (Err _) => tick_loop now at_ ids l enqueued pl
      | Some (Ok expr) =>
          if negb (runs_at expr at_) then tick_loop now at_ ids l enqueued pl
          else
            match transaction (pg_enqueue_scheduled now (ids 0%nat) (s_org_id s) (Some (s_dataset_id s))
                                 (s_kind s) (schedule_key (s_id s) (minute_key at_))
                                 (Some (s_params s)) (s_id s) None) pl with
            | (Err e, pl) => (Err (TickDb e), pl)
            | (Ok (_, false), pl) => tick_loop now at_ (ids ∘ S) l enqueued pl
            | (Ok (_, true), pl) =>
                match transaction (mark_schedule_enqueued now (s_id s)) pl with
                | (Err e, pl) => (Err (TickDb e), pl)
                | (Ok _, pl) => tick_loop now at_ (ids ∘ S) l (S enqueued) pl
                end
            end
      end
  end.

Definition schedule_tick (now : Z) (at_ : DateTime) (ids : nat → string) (pl : Plane) :
    result nat TickError * Plane :=
  tick_loop now at_ ids (due_schedules pl) 0 pl.
End tick.

(** ** Lemmas *)

(** *** The ledger's upsert *)

Definition same_key (row j : Job) : bool :=
  bool_decide (job_org_id j = job_org_id row) && bool_decide (is_Some (job_idempotency_key row))
  && bool_decide (job_idempotency_key j = job_idempotency_key row).

(** A job but for its clock. *)
Definition unclocked (j : Job) : Job := j <| job_updated_at := 0 |>.

Lemma jobs_ok_touched (f : Job → Job) l :
  (∀ j, unclocked (f j) = unclocked j) → jobs_ok l = true → jobs_ok (f <$> l) = true.
Proof.
  intros Hf. assert (∀ {A} (g : Job → A), (∀ j, g j = g (unclocked j)) → ∀ j, g (f j) = g j) as H.
  { intros A g Hg j. by rewrite Hg, Hf, <- Hg. }
  unfold jobs_ok. rewrite !andb_true_iff. intros [[[H1 H2] H3] H4].
  split_and!; (eapply unique_fmap; [eassumption|]; intros r _; simpl).
  - rewrite (H _ job_id) by done. done.
  - rewrite (H _ job_org_id), (H _ job_idempotency_key) by done. done.
  - unfold active_job. rewrite (H _ job_state), (H _ job_dataset_id) by done. done.
  - unfold active_job. rewrite (H _ job_state), (H _ job_dataset_id), (H _ job_org_id) by done. done.
Qed.

Lemma jobs_ok_snoc l row :
  jobs_ok l = true → active_job row = false → job_id row ∉ job_id <$> l →
  existsb (same_key row) l = false → jobs_ok (l ++ [row]) = true.
Proof.
  unfold jobs_ok. rewrite !andb_true_iff. intros [[[H1 H2] H3] H4] Ha Hid Hk.
  split_and!; (apply unique_snoc; [done|]); rewrite ?Ha; try done.
  - intros _ r Hr _ E. apply Hid. rewrite <- E. by apply list_elem_of_fmap_2.
  - intros Hs r Hr _ [= E1 E2]. enough (existsb (same_key row) l = true) by congruence.
    apply existsb_exists. exists r. split; [by apply list_elem_of_In|]. unfold same_key.
    rewrite Hs. by rewrite E1, E2, !bool_decide_true.
Qed.

Lemma insert_job_spec now row d :
  jobs_ok (jobs d) = true → active_job row = false → job_id row ∉ job_id <$> jobs d →
  insert_job now row d
  = if existsb (same_key row) (jobs d) then
      Ok (job_touch now <$> filter (λ j, Is_true (same_key row j)) (jobs d),
          d <| jobs := (λ j, if same_key row j then job_touch now j else j) <$> jobs d |>)
    else Ok ([row], d <| jobs := jobs d ++ [row] |>).
Proof.
  intros Hok Ha Hid. unfold insert_job. cbv [mbind stmt_bind get]. fold (same_key row).
  destruct (existsb (same_key row) (jobs d)) eqn:E.
  - unfold update_jobs, update_rows, install. simpl. rewrite jobs_ok_touched; [done| |done].
    intros j. by case_match.
  - unfold install. simpl. by rewrite jobs_ok_snoc.
Qed.

(** *** A firing *)

(** The row of a firing. *)
Definition firing (now : Z) (id mk : string) (s : Schedule) : Job :=
  new_job now id (s_org_id s) (Some (s_dataset_id s)) (s_kind s) 0 (Some (schedule_key (s_id s) mk))
    (Some (s_params s)) (Some "scheduler") (Some (s_id s)) None.

Definition is_firing (mk : string) (s : Schedule) (j : Job) : bool :=
  bool_decide (job_org_id j = s_org_id s)
  && bool_decide (job_idempotency_key j = Some (schedule_key (s_id s) mk)).

Definition fired_before (mk : string) (s : Schedule) (l : list Job) : bool := existsb (is_firing mk s) l.

Lemma same_key_firing now id mk s j : same_key (firing now id mk s) j = is_firing mk s j.
Proof. unfold same_key, is_firing. simpl. by rewrite andb_true_r. Qed.

Lemma same_key_before now id mk s l :
  existsb (same_key (firing now id mk s)) l = fired_before mk s l.
Proof.
  unfold fired_before. induction l as [|j l IH]; [done|]. cbn [existsb].
  by rewrite same_key_firing, IH.
Qed.

Lemma schedule_key_inj a b mk : schedule_key a mk = schedule_key b mk → a = b.
Proof.
  unfold schedule_key. intros [_ E]%str_app_inj; [|done]. by apply str_app_tail in E.
Qed.

Lemma is_firing_unclocked mk s j : is_firing mk s (unclocked j) = is_firing mk s j.
Proof. done. Qed.

Lemma fired_before_unclocked mk s l l' :
  unclocked <$> l = unclocked <$> l' → fired_before mk s l = fired_before mk s l'.
Proof.
  intros E. assert (∀ k, fired_before mk s k = existsb (is_firing mk s) (unclocked <$> k)) as H.
  { induction k as [|j k IH]; [done|]. unfold fired_before in *. simpl. by rewrite IH. }
  by rewrite !H, E.
Qed.

Lemma fired_before_snoc mk s l j :
  fired_before mk s (l ++ [j]) = fired_before mk s l || is_firing mk s j.
Proof. unfold fired_before. rewrite existsb_app. simpl. by rewrite orb_false_r. Qed.

(** *** The tables a tick touches *)

(** A schedule but for its stamps. *)
Definition unstamped (s : Schedule) : Schedule :=
  s <| s_last_enqueued_at := None |> <| s_updated_at := 0 |>.

Record tick_ok (pl : Plane) : Prop := {
  to_jobs : jobs_ok (jobs (pl_ledger pl)) = true;
  to_valid : schedules_valid pl (pl_schedules pl) = true;
  to_unique : schedules_unique (pl_schedules pl) = true;
}.

Definition with_jobs (l : list Job) (pl : Plane) : Plane :=
  pl <| pl_ledger := pl_ledger pl <| jobs := l |> |>.

Lemma tick_ok_with_jobs l pl : tick_ok pl → jobs_ok l = true → tick_ok (with_jobs l pl).
Proof. intros []. by constructor. Qed.

Lemma mark_schedule_enqueued_spec now id pl :
  tick_ok pl →
  ∃ l, mark_schedule_enqueued now id pl = Ok (tt, pl <| pl_schedules := l |>)
       ∧ tick_ok (pl <| pl_schedules := l |>)
       ∧ unstamped <$> l = unstamped <$> pl_schedules pl.
Proof.
  intros [Hj Hv Hu].
  set (f := λ s, if bool_decide (s_id s = id)
                 then s <| s_last_enqueued_at := Some now |> <| s_updated_at := now |> else s).
  assert (∀ {A} (g : Schedule → A), (∀ s, g s = g (unstamped s)) → ∀ s, g (f s) = g s) as H.
  { intros A g Hg s. unfold f. case_match; [|done]. by rewrite Hg, (Hg s). }
  assert (schedules_valid pl (f <$> pl_schedules pl) = true) as Hv'.
  { unfold schedules_valid in Hv |- *. rewrite forallb_forall in Hv |- *.
    intros s (s0 & <- & Hs)%List.in_map_iff. rewrite (H _ s_org_id), (H _ s_dataset_id) by done. auto. }
  assert (schedules_unique (f <$> pl_schedules pl) = true) as Hu'.
  { unfold schedules_unique in Hu |- *. rewrite !andb_true_iff in Hu |- *. destruct Hu as [[H1 H2] H3].
    split_and!; (eapply unique_fmap; [eassumption|]; intros r _; simpl).
    - by rewrite (H _ s_id).
    - by rewrite (H _ s_source), (H _ s_org_id).
    - by rewrite (H _ s_source), (H _ s_org_id). }
  exists (f <$> pl_schedules pl). split_and!.
  - unfold mark_schedule_enqueued, mark_enqueued, update_schedules, update_rows, install.
    cbv [mbind stmt_bind mret stmt_ret]. fold f. by rewrite Hv', Hu'.
  - constructor; [done| |done]. exact Hv'.
  - rewrite <- list_fmap_compose. apply list_fmap_ext. intros _ s _. simpl. unfold f. by case_match.
Qed.

Lemma pg_enqueue_scheduled_spec now id mk s pl :
  tick_ok pl → id ∉ job_id <$> jobs (pl_ledger pl) →
  ∃ j l,
    pg_enqueue_scheduled now id (s_org_id s) (Some (s_dataset_id s)) (s_kind s)
      (schedule_key (s_id s) mk) (Some (s_params s)) (s_id s) None pl
    = Ok ((j, negb (fired_before mk s (jobs (pl_ledger pl)))), with_jobs l pl)
    ∧ jobs_ok l = true
    ∧ unclocked <$> l
      = (unclocked <$> jobs (pl_ledger pl))
        ++ (if fired_before mk s (jobs (pl_ledger pl)) then [] else [unclocked (firing now id mk s)]).
Proof.
  intros [Hj _ _] Hid. unfold pg_enqueue_scheduled, on_ledger, enqueue_scheduled.
  cbv [mbind stmt_bind mret stmt_ret]. fold (firing now id mk s).
  rewrite insert_job_spec by done.
  assert (existsb (same_key (firing now id mk s)) (jobs (pl_ledger pl))
          = fired_before mk s (jobs (pl_ledger pl))) as Hk.
  { apply same_key_before. }
  rewrite Hk. destruct (fired_before mk s (jobs (pl_ledger pl))) eqn:E.
  - destruct (filter (λ j, Is_true (same_key (firing now id mk s) j)) (jobs (pl_ledger pl))) as [|j l] eqn:El.
    { exfalso. unfold fired_before in E. apply existsb_exists in E as (j & Hin & Hjk).
      apply list_elem_of_In in Hin. apply (not_elem_of_nil j). rewrite <- El.
      apply list_elem_of_filter. rewrite same_key_firing, Is_true_true. done. }
    exists (job_touch now j). eexists. split; [|split].
    + simpl. assert (j ∈ jobs (pl_ledger pl)) as Hin.
      { eapply (list_elem_of_filter (λ j, Is_true (same_key (firing now id mk s) j))). rewrite El. left. }
      rewrite bool_decide_eq_false_2; [reflexivity|]. intros Ejid. apply Hid. rewrite <- Ejid.
      by apply (list_elem_of_fmap_2 job_id) in Hin.
    + apply jobs_ok_touched; [|done]. intros k. by case_match.
    + rewrite app_nil_r, <- list_fmap_compose. apply list_fmap_ext. intros _ k _. simpl. by case_match.
  - exists (firing now id mk s). eexists. split; [|split].
    + simpl. rewrite bool_decide_eq_true_2 by done. reflexivity.
    + apply jobs_ok_snoc; [done|done|done|]. by rewrite Hk.
    + by rewrite fmap_app.
Qed.

(** *** The loop *)

Section loop.
Context {DateTime : Type}.
Context (at_minute at_hour at_day at_month at_weekday : DateTime → Z) (minute_key : DateTime → string).
#[local] Notation runs := (runs_at at_minute at_hour at_day at_month at_weekday).
#[local] Notation tick_loop := (tick_loop at_minute at_hour at_day at_month at_weekday minute_key).
#[local] Notation schedule_tick := (schedule_tick at_minute at_hour at_day at_month at_weekday minute_key).

(** The schedule's expression is runnable and matches. *)
Definition fires (at_ : DateTime) (s : Schedule) : bool :=
  match Cron.parse (s_cron s) with Some (Ok expr) => runs expr at_ | _ => false end.

(** The schedules of a list whose firing at this minute has no job yet. *)
Definition to_enqueue (at_ : DateTime) (l : list Schedule) (js : list Job) : list Schedule :=
  filter (λ s, Is_true (fires at_ s && negb (fired_before (minute_key at_) s js))) l.

Lemma to_enqueue_jobs at_ l js js' :
  (∀ s, s ∈ l → fired_before (minute_key at_) s js = fired_before (minute_key at_) s js') →
  to_enqueue at_ l js = to_enqueue at_ l js'.
Proof.
  unfold to_enqueue. induction l as [|s l IH]; intros H; [done|].
  rewrite !filter_cons, (H s) by set_solver. rewrite IH by set_solver. done.
Qed.

(** The jobs of a tick, in order. *)
Definition scheduled_as (now : Z) (at_ : DateTime) (ids : nat → string) (s : Schedule) (j : Job) : Prop :=
  ∃ i, j = unclocked (firing now (ids i) (minute_key at_) s).

Lemma tick_loop_spec now at_ l : ∀ ids n pl,
  tick_ok pl → NoDup (s_id <$> l) →
  (∀ s, s ∈ l → Cron.parse (s_cron s) ≠ None) →
  Inj (=) (=) ids → (∀ i, ids i ∉ job_id <$> jobs (pl_ledger pl)) →
  ∃ pl' js,
    tick_loop now at_ ids l n pl
    = (Ok (n + length (to_enqueue at_ l (jobs (pl_ledger pl))))%nat, pl')
    ∧ tick_ok pl'
    ∧ unclocked <$> jobs (pl_ledger pl') = (unclocked <$> jobs (pl_ledger pl)) ++ js
    ∧ Forall2 (scheduled_as now at_ ids) (to_enqueue at_ l (jobs (pl_ledger pl))) js
    ∧ unstamped <$> pl_schedules pl' = unstamped <$> pl_schedules pl
    ∧ pl_control pl' = pl_control pl.
Proof.
  induction l as [|s l IH]; intros ids n pl Hok Hnd Hp Hinj Hids.
  { exists pl, []. simpl. rewrite Nat.add_0_r, app_nil_r. by split_and!. }
  rewrite fmap_cons in Hnd. apply NoDup_cons in Hnd as [Hs Hnd].
  assert (∀ s', s' ∈ l → Cron.parse (s_cron s') ≠ None) as Hp' by (intros s' ?; apply Hp; by right).
  assert (Inj (=) (=) (ids ∘ S)) as Hinj' by (intros i i' E; apply Hinj in E; lia).
  simpl. assert (Cron.parse (s_cron s) ≠ None) as Hps by (apply Hp; left). unfold to_enqueue. rewrite filter_cons.
  destruct (Cron.parse (s_cron s)) as [[expr|e]|] eqn:E; [| |done].
  2:{ rewrite decide_False by (unfold fires; rewrite E; simpl; tauto). by apply IH. }
  destruct (runs expr at_) eqn:Er; simpl.
  2:{ rewrite decide_False by (unfold fires; rewrite E, Er; simpl; tauto). by apply IH. }
  destruct (pg_enqueue_scheduled_spec now (ids 0%nat) (minute_key at_) s pl Hok (Hids 0%nat))
    as (j & jl & Hrun & Hjl & Hun).
  unfold transaction at 1. rewrite Hrun.
  assert (∀ s', s' ∈ l → fired_before (minute_key at_) s' jl
                         = fired_before (minute_key at_) s' (jobs (pl_ledger pl))) as Hother.
  { intros s' Hs'. destruct (fired_before (minute_key at_) s (jobs (pl_ledger pl))) eqn:Ef.
    - rewrite app_nil_r in Hun. by apply fired_before_unclocked.
    - transitivity (fired_before (minute_key at_) s' (jobs (pl_ledger pl) ++ [firing now (ids 0%nat) (minute_key at_) s])).
      + apply fired_before_unclocked. by rewrite fmap_app, Hun.
      + rewrite fired_before_snoc. unfold is_firing. simpl.
        rewrite (bool_decide_eq_false_2 (Some _ = _)); [by rewrite andb_false_r, orb_false_r|].
        intros Ek. apply (inj Some), schedule_key_inj in Ek. apply Hs. rewrite Ek. by apply list_elem_of_fmap_2. }
  assert (∀ i, ids (S i) ∉ job_id <$> jl) as Hids'.
  { intros i Hin. assert (job_id <$> jl = job_id <$> (unclocked <$> jl)) as Ej
      by (rewrite <- list_fmap_compose; by apply list_fmap_ext).
    rewrite Ej, Hun, fmap_app, elem_of_app, <- list_fmap_compose in Hin. destruct Hin as [Hin|Hin].
    - apply (Hids (S i)). by rewrite (list_fmap_ext job_id (job_id ∘ unclocked)).
    - destruct (fired_before (minute_key at_) s (jobs (pl_ledger pl))); [by apply elem_of_nil in Hin|].
      apply list_elem_of_singleton in Hin. simpl in Hin. by apply Hinj in Hin. }
  assert (fires at_ s = true) as Hf by (unfold fires; by rewrite E, Er). rewrite Hf. simpl.
  destruct (fired_before (minute_key at_) s (jobs (pl_ledger pl))) eqn:Ef; simpl.
  - destruct (IH (ids ∘ S) n (with_jobs jl pl)) as (pl' & js & Hrun' & Hok' & Hj & Hf2 & Hsch & Hc);
      [by apply tick_ok_with_jobs|done|done|done|exact Hids'|].
    simpl in Hrun', Hj, Hf2. rewrite (to_enqueue_jobs at_ l jl (jobs (pl_ledger pl))) in Hrun', Hf2 by done.
    exists pl', js. rewrite Hun, app_nil_r in Hj. split_and!; try done.
    eapply Forall2_impl; [exact Hf2|]. intros s' j' [i ->]. by exists (S i).
  - destruct (mark_schedule_enqueued_spec now (s_id s) (with_jobs jl pl)) as (sl & Hm & Hokm & Hsl);
      [by apply tick_ok_with_jobs|].
    unfold transaction at 1. rewrite Hm.
    destruct (IH (ids ∘ S) (S n) (with_jobs jl pl <| pl_schedules := sl |>))
      as (pl' & js & Hrun' & Hok' & Hj & Hf2 & Hsch & Hc); [done|done|done|done|exact Hids'|].
    simpl in Hrun', Hj, Hf2, Hsch, Hc.
    rewrite (to_enqueue_jobs at_ l jl (jobs (pl_ledger pl))) in Hrun', Hf2 by done.
    exists pl', (unclocked (firing now (ids 0%nat) (minute_key at_) s) :: js).
    rewrite Hun, <- app_assoc in Hj. split_and!; try done.
    + rewrite Hrun'. f_equal. f_equal. unfold to_enqueue. lia.
    + constructor; [by exists 0%nat|]. eapply Forall2_impl; [exact Hf2|]. intros s' j' [i ->]. by exists (S i).
    + by rewrite Hsch, Hsl.
Qed.

(** *** What is due *)

Definition due_now (os : list OrgRow) (s : Schedule) : bool :=
  s_enabled s && existsb (λ o, bool_decide (o_id o = s_org_id s) && bool_decide (o_state o = "active")) os.

Lemma due_rows os s :
  NoDup (o_id <$> os) →
  (o ← os; if bool_decide (o_id o = s_org_id s) && s_enabled s && bool_decide (o_state o = "active")
           then [s] else [])
  = if due_now os s then [s] else [].
Proof.
  unfold due_now. intros Hnd. induction os as [|o os IH]; [by rewrite andb_false_r|].
  rewrite fmap_cons in Hnd. apply NoDup_cons in Hnd as [Ho Hnd]. rewrite bind_cons, IH by done.
  simpl. destruct (s_enabled s); simpl; rewrite ?andb_false_r, ?andb_true_r; simpl; [|done].
  destruct (bool_decide_reflect (o_id o = s_org_id s)) as [E|E]; simpl; [|done].
  assert (existsb (λ o, bool_decide (o_id o = s_org_id s) && bool_decide (o_state o = "active")) os = false) as ->;
    [|by rewrite orb_false_r, app_nil_r].
  apply not_true_iff_false. rewrite existsb_exists. intros (o' & Hin & [Eo%bool_decide_eq_true _]%andb_true_iff).
  apply Ho. rewrite E, <- Eo. apply list_elem_of_fmap_2. by apply list_elem_of_In.
Qed.

Lemma due_filter pl :
  NoDup (o_id <$> orgs (pl_control pl)) →
  due_schedules pl = merge_sort schedule_id_le
    (filter (λ s, Is_true (due_now (orgs (pl_control pl)) s)) (pl_schedules pl)).
Proof.
  intros Hnd. unfold due_schedules, schedules_due. f_equal.
  induction (pl_schedules pl) as [|s l IH]; [done|].
  rewrite bind_cons, due_rows, IH, filter_cons by done. by destruct (due_now _ s).
Qed.

Lemma elem_of_due pl s :
  NoDup (o_id <$> orgs (pl_control pl)) →
  s ∈ due_schedules pl ↔ due_now (orgs (pl_control pl)) s = true ∧ s ∈ pl_schedules pl.
Proof.
  intros Hnd. rewrite due_filter, merge_sort_Permutation, list_elem_of_filter, Is_true_true by done. done.
Qed.

Lemma NoDup_due pl :
  NoDup (o_id <$> orgs (pl_control pl)) → schedules_unique (pl_schedules pl) = true →
  NoDup (s_id <$> due_schedules pl).
Proof.
  intros Hnd Hu. rewrite due_filter, merge_sort_Permutation by done.
  unfold schedules_unique in Hu. rewrite !andb_true_iff in Hu. destruct Hu as [[Hu _] _].
  unfold unique in Hu. rewrite filter_is_true, bool_decide_eq_true in Hu.
  eapply sublist_NoDup; [exact Hu|]. apply fmap_sublist, sublist_filter.
Qed.

End loop.

(** ** Examples *)

Module SampleSchedules.

(** The clock counts minutes. *)
Definition at_minute (t : Z) : Z := t mod 60.
Definition at_hour (t : Z) : Z := t / 60 mod 24.
Definition first (_ : Z) : Z := 1.
Definition zero (_ : Z) : Z := 0.

Definition fired_at : Z → Schedule → bool := fires at_minute at_hour first first zero.
Definition tick : Z → Z → (nat → string) → Plane → result nat TickError * Plane :=
  schedule_tick at_minute at_hour first first zero pretty.

Definition acme : OrgRow :=
  mkOrg "o1" "acme" "/srv/acme.yaml" (JObject []) None None None None "active" None 0 0.

Definition people : Dataset :=
  mkDataset "d1" "o1" "people" None "person" "/srv/people.yaml" (JObject []) None None None None
    "active" 0 0.

Definition hourly : Schedule :=
  mkSchedule "s1" "o1" "d1" "run_all_incremental" (JObject []) "5 * * * *" true "api" None 0 0.

(** Every hour, two minutes past it; a disabled one. *)
Definition plane : Plane :=
  mkPlane (mkControl [acme] [] []) [people] []
    [hourly; hourly <| s_id := "s2" |> <| s_cron := "7 * * * *" |>;
     hourly <| s_id := "s3" |> <| s_enabled := false |>]
    [] [] (mkDb [] [] (λ _, None)) (mkFs ∅ ∅).

Lemma plane_ok_tick : tick_ok plane.
Proof. split; vm_compute; reflexivity. Qed.

End SampleSchedules.

Import SampleSchedules.

(** Sixty-five minutes in: one schedule of three fires, once. *)
Example tick_known :
  let '(r, pl) := tick 10 65 pretty plane in
  let '(r', pl') := tick 11 65 (λ i, pretty (S i)) pl in
  r = Ok 1%nat ∧ job_idempotency_key <$> jobs (pl_ledger pl) = [Some "sched:s1:65"]
  ∧ s_last_enqueued_at <$> pl_schedules pl = [Some 10; None; None]
  ∧ r' = Ok 0%nat ∧ job_id <$> jobs (pl_ledger pl') = job_id <$> jobs (pl_ledger pl).
Proof. vm_compute. by repeat split. Qed.

