(* ===== verification/ActiveConfig.v ===== *)
(** * What the control plane's tables keep

    The invariant of the datasets, the configuration versions and the
    schedules under every request of [Datasets], [Publish] and [Schedules] and
    under whatever the rest of the server does to the other tables; and what it
    gives: a dataset's active configuration is always there and loads. *)

From S2P Require Import Prelude F64 Ids Text LakeClock Json Sql Cron Config Compile ConfigCheck Ledger Auth Webhooks Provision Plane Datasets Publish Schedules.

#[local] Open Scope Z_scope.

(** ** Lemmas on the tables *)

Definition of_dataset (ds : string) (l : list ConfigVersion) : list ConfigVersion :=
  filter (λ v, v_dataset_id v = ds) l.

(** A version of a dataset. *)
Definition has_version (ds : string) (z : Z) (pl : Plane) : Prop :=
  ∃ v, v ∈ pl_versions pl ∧ v_dataset_id v = ds ∧ v_version v = z.

Record plane_ok (from_yaml : string → option Config.Config) (pl : Plane) : Prop := {
  po_control : control_ok (pl_control pl);
  po_datasets : datasets_valid pl (pl_datasets pl) = true ∧ datasets_unique (pl_datasets pl) = true;
  po_versions : versions_valid pl (pl_versions pl) = true ∧ versions_unique (pl_versions pl) = true;
  po_schedules :
    schedules_valid pl (pl_schedules pl) = true ∧ schedules_unique (pl_schedules pl) = true;
  po_loads : ∀ v, v ∈ pl_versions pl → ∃ c, load from_yaml (v_yaml v) = Ok c;
  po_active : ∀ d a, d ∈ pl_datasets pl → ds_active_config_version d = Some a →
    has_version (ds_id d) a pl;
  po_numbers : ∀ ds, v_version <$> of_dataset ds (pl_versions pl)
    = seqZ 1 (Z.of_nat (length (of_dataset ds (pl_versions pl))));
}.

Lemma has_org_mono c' pl id :
  keeps (pl_control pl) c' → has_org pl id = true → has_org (pl <| pl_control := c' |>) id = true.
Proof. unfold has_org. rewrite !bool_decide_eq_true. simpl. intros. by eapply keeps_org_ids. Qed.

Lemma forallb_impl {A} (f g : A → bool) l :
  (∀ x, x ∈ l → f x = true → g x = true) → forallb f l = true → forallb g l = true.
Proof.
  rewrite !forallb_forall. intros H Hf x Hx. apply H; [by apply list_elem_of_In|auto].
Qed.

(** The references still hold where there are more tenants and datasets. *)
Lemma versions_valid_mono pl pl' l :
  (∀ id, has_org pl id = true → has_org pl' id = true) →
  (∀ id, has_dataset pl id = true → has_dataset pl' id = true) →
  versions_valid pl l = true → versions_valid pl' l = true.
Proof.
  intros Ho Hd. apply forallb_impl. intros v _. rewrite !andb_true_iff. intros [[[? ?] ?] ?]. auto.
Qed.

Lemma schedules_valid_mono pl pl' l :
  (∀ id, has_org pl id = true → has_org pl' id = true) →
  (∀ id, has_dataset pl id = true → has_dataset pl' id = true) →
  schedules_valid pl l = true → schedules_valid pl' l = true.
Proof. intros Ho Hd. apply forallb_impl. intros v _. rewrite !andb_true_iff. intros [? ?]. auto. Qed.

Lemma datasets_valid_mono pl pl' l :
  (∀ id, has_org pl id = true → has_org pl' id = true) →
  datasets_valid pl l = true → datasets_valid pl' l = true.
Proof. intros Ho. apply forallb_impl. intros v _. rewrite !andb_true_iff. intros [? ?]. auto. Qed.

Lemma of_dataset_fmap ds (g : ConfigVersion → ConfigVersion) l :
  (∀ v, v_dataset_id (g v) = v_dataset_id v) → of_dataset ds (g <$> l) = g <$> of_dataset ds l.
Proof.
  unfold of_dataset. intros Hg. induction l as [|v l IH]; [done|].
  rewrite fmap_cons, !filter_cons, Hg, IH. by destruct (decide (v_dataset_id v = ds)).
Qed.

(** *** The next version *)

Lemma seqZ_one m : seqZ m 1 = [m].
Proof. done. Qed.

Lemma max_version_seq l n :
  v_version <$> l = seqZ 1 (Z.of_nat n) → default 0 (max_version l) = Z.of_nat n.
Proof.
  intros E. assert (∀ k m, v_version <$> k = seqZ m (Z.of_nat (length k)) →
    max_version k = if decide (k = []) then None else Some (m + Z.of_nat (length k) - 1)) as H.
  { clear. induction k as [|v k IH]; intros m E; [done|].
    rewrite seqZ_cons in E by (simpl; lia). injection E as Ev Ek. simpl.
    rewrite (IH (Z.succ m)) by (etransitivity; [exact Ek|f_equal; lia]).
    destruct k as [|w k]; simpl; f_equal; [lia|]. rewrite Ev. lia. }
  assert (length l = n) as Hn.
  { apply (f_equal length) in E. rewrite length_fmap, length_seqZ in E. lia. }
  rewrite (H l 1) by (rewrite Hn; exact E). destruct (decide (l = [])) as [->|Hne]; simpl; [by subst|lia].
Qed.

Lemma next_version_eq from_yaml ds pl :
  plane_ok from_yaml pl → next_version ds pl = Z.of_nat (length (of_dataset ds (pl_versions pl))) + 1.
Proof. intros Hok. unfold next_version. erewrite max_version_seq; [done|]. apply (po_numbers _ _ Hok). Qed.

(** ** The invariant, table by table *)

Section invariant.
Context (from_yaml : string → option Config.Config).
#[local] Notation ok := (plane_ok from_yaml).

Lemma ok_same pl pl' :
  ok pl → pl_control pl' = pl_control pl → pl_datasets pl' = pl_datasets pl →
  pl_versions pl' = pl_versions pl → pl_schedules pl' = pl_schedules pl → ok pl'.
Proof.
  destruct pl, pl'. simpl. intros [] -> -> -> ->. split; try done.
Qed.

Lemma ok_control pl c' :
  ok pl → control_ok c' → keeps (pl_control pl) c' → ok (pl <| pl_control := c' |>).
Proof.
  intros [Hc [Hd Hdu] [Hv Hvu] [Hs Hsu] Hl Ha Hn] Hc' Hk.
  assert (∀ id, has_org pl id = true → has_org (pl <| pl_control := c' |>) id = true) as Ho
    by (intros; by eapply has_org_mono).
  split; simpl; try done; split; try done.
  - by apply (datasets_valid_mono pl).
  - by apply (versions_valid_mono pl).
  - by apply (schedules_valid_mono pl).
Qed.

Lemma ok_datasets pl l :
  ok pl → datasets_valid pl l = true → datasets_unique l = true →
  (∀ d, d ∈ pl_datasets pl → ds_id d ∈ ds_id <$> l) →
  (∀ d a, d ∈ l → ds_active_config_version d = Some a → has_version (ds_id d) a pl) →
  ok (pl <| pl_datasets := l |>).
Proof.
  intros [Hc [Hd Hdu] [Hv Hvu] [Hs Hsu] Hl Ha Hn] Hd' Hu' Hids Ha'.
  assert (∀ id, has_dataset pl id = true → has_dataset (pl <| pl_datasets := l |>) id = true) as Ho.
  { intros id. unfold has_dataset. rewrite !bool_decide_eq_true. simpl.
    intros (d & -> & Hin)%list_elem_of_fmap. auto. }
  split; simpl; try done; split; try done.
  - by apply (versions_valid_mono pl).
  - by apply (schedules_valid_mono pl).
Qed.

Lemma ok_versions pl l :
  ok pl → versions_valid pl l = true → versions_unique l = true →
  (∀ v, v ∈ l → ∃ c, load from_yaml (v_yaml v) = Ok c) →
  (∀ v, v ∈ pl_versions pl →
     ∃ v', v' ∈ l ∧ v_dataset_id v' = v_dataset_id v ∧ v_version v' = v_version v) →
  (∀ ds, v_version <$> of_dataset ds l = seqZ 1 (Z.of_nat (length (of_dataset ds l)))) →
  ok (pl <| pl_versions := l |>).
Proof.
  intros [Hc Hd Hv Hs Hl Ha Hn] Hv' Hu' Hl' Hm Hn'. split; simpl; try done.
  intros d a Hin Hact. destruct (Ha d a Hin Hact) as (v & Hvin & E1 & E2).
  destruct (Hm v Hvin) as (v' & ? & ? & ?). exists v'. simpl. split_and!; [done|congruence..].
Qed.

Lemma ok_schedules pl l :
  ok pl → schedules_valid pl l = true → schedules_unique l = true →
  ok (pl <| pl_schedules := l |>).
Proof. intros []. split; try done. Qed.

(** *** Statements *)

(** From a state where [P] holds, a statement that succeeds keeps the invariant
    and establishes [Q]. *)
Definition keeps_ok {A} (P : Plane → Prop) (m : stmt Plane A) (Q : A → Plane → Prop) : Prop :=
  ∀ pl x pl', ok pl → P pl → m pl = Ok (x, pl') → ok pl' ∧ Q x pl'.

Definition always : Plane → Prop := λ _, True.

(** What only grows. *)
Definition stable (P : Plane → Prop) : Prop :=
  ∀ pl pl', (∀ ds z, has_version ds z pl → has_version ds z pl') → P pl → P pl'.

Lemma stable_has_version ds z : stable (has_version ds z).
Proof. intros pl pl' H. apply H. Qed.

Lemma stable_always : stable always.
Proof. by intros ???. Qed.

Lemma keeps_bind {A B} P (m : stmt Plane A) Q (k : A → stmt Plane B) R :
  keeps_ok P m Q → (∀ x, keeps_ok (Q x) (k x) R) → keeps_ok P (m ≫= k) R.
Proof.
  intros Hm Hk pl y pl'' Hok HP (x & pl' & Hx & Hy)%bind_stmt.
  destruct (Hm pl x pl' Hok HP Hx) as [Hok' HQ]. by apply (Hk x pl' y pl'').
Qed.

Lemma keeps_ret {A} P (x : A) : keeps_ok P (mret x) (λ _, P).
Proof. by intros pl y pl' Hok HP [= _ <-]. Qed.

Lemma keeps_update_datasets P where_ set :
  stable P →
  (∀ d, ds_id (set d) = ds_id d) →
  (∀ pl d a, P pl → ds_active_config_version (set d) = Some a → where_ d = true →
     ds_active_config_version d = Some a ∨ has_version (ds_id d) a pl) →
  keeps_ok P (update_datasets where_ set) (λ _, P).
Proof.
  intros HP Hid Hact pl n pl' Hok Hpl. unfold update_datasets, update_rows.
  intros (Hv & Hu & _ & <-)%install_ok. split; [|by apply (HP pl)].
  apply ok_datasets; [done..| |].
  - intros d Hd. apply list_elem_of_fmap. exists (if where_ d then set d else d).
    split; [by destruct (where_ d)|].
    by apply (list_elem_of_fmap_2 (λ r, if where_ r then set r else r)).
  - intros d' a (d & -> & Hd)%list_elem_of_fmap. destruct (where_ d) eqn:E.
    + rewrite Hid. intros Ha. destruct (Hact pl d a Hpl Ha E); [|done]. by apply (po_active _ _ Hok).
    + by apply (po_active _ _ Hok).
Qed.

Lemma keeps_ensure P now id org name dn et path env root b pre state :
  stable P → keeps_ok P (ensure now id org name dn et path env root b pre None state) (λ _, P).
Proof.
  intros HP pl n pl' Hok Hpl. unfold ensure. destruct (negb _); [done|].
  destruct (existsb _ _); [by intros [= <- <-]|].
  intros (Hv & Hu & _ & <-)%install_ok. split; [|by apply (HP pl)].
  apply ok_datasets; [done..| |].
  - intros d Hd. rewrite fmap_app. apply elem_of_app. left. by apply list_elem_of_fmap_2.
  - intros d a [Hd| ->%list_elem_of_singleton]%elem_of_app; [by apply (po_active _ _ Hok)|done].
Qed.

Lemma keeps_draft P now id org ds yaml hash_ by_ c :
  stable P → load from_yaml yaml = Ok c →
  keeps_ok P (pg_create_config_version now id org (Some ds) yaml hash_ by_)
    (λ z pl, P pl ∧ has_version ds z pl).
Proof.
  intros HP Hl pl z pl' Hok Hpl. unfold pg_create_config_version, draft.
  cbv [mbind stmt_bind mret stmt_ret].
  set (row := mkVersion _ _ _ _ _ _ _ _ _ _ _ _).
  destruct (install _ _ _ _) as [[rows pl1]|] eqn:E; [|done].
  apply install_ok in E as (Hv & Hu & <- & <-). intros [= <- <-].
  assert (∀ ds z, has_version ds z pl → has_version ds z (pl <| pl_versions := pl_versions pl ++ [row] |>)) as Hg.
  { intros ds' z' (v & Hin & ? & ?). exists v. simpl. split_and!; [set_solver|done..]. }
  split; [|split].
  - apply ok_versions; [done..| | |].
    + intros v [Hin| ->%list_elem_of_singleton]%elem_of_app; [by apply (po_loads _ _ Hok)|by exists c].
    + intros v Hin. exists v. set_solver.
    + intros ds'. unfold of_dataset. rewrite filter_app, filter_cons, filter_nil. subst row. simpl.
      pose proof (po_numbers _ _ Hok ds') as Hn. unfold of_dataset in Hn.
      case_decide as Ed; [|by rewrite app_nil_r].
      rewrite fmap_app, Hn, length_app. simpl. rewrite <- Ed.
      rewrite (next_version_eq from_yaml) by done. unfold of_dataset.
      rewrite Nat2Z.inj_add, seqZ_app by lia. f_equal. change (Z.of_nat 1) with 1.
      rewrite seqZ_one. f_equal. lia.
  - by apply (HP pl).
  - exists row. simpl. split_and!; [set_solver|done|done].
Qed.

Lemma keeps_publish P now tier ds z :
  stable P → keeps_ok P (publish now tier ds z) (λ _, P).
Proof.
  intros HP pl n pl' Hok Hpl. unfold publish, update_versions, update_rows.
  set (w := λ v, bool_decide (v_dataset_id v = ds) && bool_decide (v_version v = z)).
  set (f := λ v, v <| v_state := "published" |> <| v_tier := tier |> <| v_published_at := Some now |>
              <| v_updated_at := now |>).
  intros (Hv & Hu & _ & <-)%install_ok.
  set (g := λ v, if w v then f v else v) in *.
  assert (∀ v, v_dataset_id (g v) = v_dataset_id v ∧ v_version (g v) = v_version v
               ∧ v_yaml (g v) = v_yaml v) as Hg by (intros v; unfold g; by destruct (w v)).
  split.
  - apply ok_versions; [done..| | |].
    + intros v' (v & -> & Hin)%list_elem_of_fmap. destruct (Hg v) as (_ & _ & Hy).
      change (∃ c, load from_yaml (v_yaml (g v)) = Ok c). rewrite Hy. by apply (po_loads _ _ Hok).
    + intros v Hin. exists (g v).
      split; [by apply (list_elem_of_fmap_2 g)|]. by destruct (Hg v) as (-> & -> & _).
    + intros ds'. change (v_version <$> of_dataset ds' (g <$> pl_versions pl)
              = seqZ 1 (Z.of_nat (length (of_dataset ds' (g <$> pl_versions pl))))).
      assert (of_dataset ds' (g <$> pl_versions pl) = g <$> of_dataset ds' (pl_versions pl)) as ->.
      { apply of_dataset_fmap. apply Hg. }
      rewrite length_fmap, <- list_fmap_compose, <- (po_numbers _ _ Hok). apply list_fmap_ext.
      intros _ v _. simpl. apply Hg.
  - apply (HP pl); [|done]. intros ds' z' (v & Hin & <- & <-). exists (g v). simpl.
    split; [by apply (list_elem_of_fmap_2 g)|]. destruct (Hg v) as (-> & -> & _). done.
Qed.

Lemma keeps_update_schedules P where_ set :
  stable P → keeps_ok P (update_schedules where_ set) (λ _, P).
Proof.
  intros HP pl n pl' Hok Hpl. unfold update_schedules. destruct (update_rows _ _ _) as [l ret].
  intros (Hv & Hu & _ & <-)%install_ok. split; [by apply ok_schedules|by apply (HP pl)].
Qed.

Lemma keeps_insert_schedule P row : stable P → keeps_ok P (insert_schedule row) (λ _, P).
Proof.
  intros HP pl n pl' Hok Hpl. unfold insert_schedule. intros (Hv & Hu & _ & <-)%install_ok.
  split; [by apply ok_schedules|by apply (HP pl)].
Qed.

Lemma keeps_on_ledger {A} P (m : stmt Ledger.Db A) : stable P → keeps_ok P (on_ledger m) (λ _, P).
Proof.
  intros HP pl x pl' Hok Hpl. unfold on_ledger. destruct (m _) as [[y d]|]; [|done].
  intros [= _ <-]. split; [by eapply ok_same|by apply (HP pl)].
Qed.

Lemma keeps_on_control {A} P (m : stmt ControlDb A) :
  stable P → control_safe m → keeps_ok P (on_control m) (λ _, P).
Proof.
  intros HP Hm pl x pl' Hok Hpl. unfold on_control. destruct (m _) as [[y c]|] eqn:E; [|done].
  intros [= _ <-]. destruct (Hm _ _ _ (po_control _ _ Hok) E). split; [by apply ok_control|by apply (HP pl)].
Qed.

(** *** Actions *)

(** From a state where [P] holds, an action keeps the invariant however it ends,
    and establishes [Q] when it goes on. *)
Definition triple {A} (P : Plane → Prop) (m : action A) (Q : A → Plane → Prop) : Prop :=
  ∀ pl, ok pl → P pl →
    match m pl with (Ok x, pl') => ok pl' ∧ Q x pl' | (Err _, pl') => ok pl' end.

Definition safe {A} (m : action A) : Prop := triple always m (λ _, always).

Lemma triple_bind {A B} P (m : action A) Q (k : A → action B) R :
  triple P m Q → (∀ x, triple (Q x) (k x) R) → triple P (m ≫= k) R.
Proof.
  intros Hm Hk pl Hok HP. specialize (Hm pl Hok HP). unfold mbind, action_bind.
  destruct (m pl) as [[x|r] pl']; [|done]. destruct Hm as [Hok' HQ]. by apply Hk.
Qed.

Lemma triple_weaken {A} (P P' : Plane → Prop) (m : action A) (Q Q' : A → Plane → Prop) :
  triple P m Q → (∀ pl, P' pl → P pl) → (∀ x pl, Q x pl → Q' x pl) → triple P' m Q'.
Proof.
  intros Hm HP HQ pl Hok Hpl. specialize (Hm pl Hok (HP pl Hpl)).
  destruct (m pl) as [[x|r] pl']; [|done]. destruct Hm. auto.
Qed.

(** A fact about the state found on the way. *)
Lemma triple_known {A} (P : Plane → Prop) (F : Prop) (m : action A) Q :
  (F → triple P m Q) → triple (λ pl, P pl ∧ F) m Q.
Proof. intros H pl Hok [HP HF]. by apply H. Qed.

Lemma triple_ret {A} P (x : A) : triple P (mret x) (λ y pl, P pl ∧ y = x).
Proof. done. Qed.

Lemma triple_check {A} P (r : result A Response) : triple P (check r) (λ x pl, P pl ∧ r = Ok x).
Proof. intros pl Hok HP. unfold check. by destruct r. Qed.

Lemma triple_reads {A} P (f : Plane → result A Response) :
  triple P (reads f) (λ x pl, P pl ∧ f pl = Ok x).
Proof. intros pl Hok HP. unfold reads. by destruct (f pl). Qed.

Lemma triple_run {A} db_text P (m : stmt Plane A) Q : keeps_ok P m Q → triple P (run db_text m) Q.
Proof.
  intros Hm pl Hok HP. unfold run. pose proof (transaction_spec m pl) as Ht.
  destruct (transaction m pl) as [[x|e] pl']; [by apply (Hm pl)|]. by destruct Ht as [_ ->].
Qed.

Lemma triple_modify P f :
  (∀ pl, ok pl → P pl → ok (f pl) ∧ P (f pl)) → triple P (modify f) (λ _, P).
Proof. intros Hf pl Hok HP. by apply Hf. Qed.

Lemma triple_end {A} P (x : A) : triple P (mret x) (λ _, always).
Proof. intros pl Hok _. by split. Qed.

Lemma triple_keep {A} P (x : A) : triple P (mret x) (λ _, P).
Proof. intros pl Hok HP. by split. Qed.

Lemma safe_serve m pl : safe m → ok pl → ok (serve m pl).2.
Proof.
  intros Hm Hok. specialize (Hm pl Hok I). unfold serve.
  destruct (m pl) as [[r|r] pl']; simpl; [by destruct Hm|done].
Qed.

Lemma safe_bind {A B} (m : action A) (k : A → action B) : safe m → (∀ x, safe (k x)) → safe (m ≫= k).
Proof. apply triple_bind. Qed.

Lemma safe_ret {A} (x : A) : safe (mret x).
Proof. by intros pl Hok _. Qed.

Lemma safe_check {A} (r : result A Response) : safe (check r).
Proof. intros pl Hok _. unfold check. by destruct r. Qed.

Lemma safe_reads {A} (f : Plane → result A Response) : safe (reads f).
Proof. intros pl Hok _. unfold reads. by destruct (f pl). Qed.

Lemma safe_scoped connect st missing org ds : safe (scoped connect st missing org ds).
Proof.
  repeat (apply safe_bind; [|intros ?]); auto using @safe_check, @safe_reads, @safe_ret.
Qed.

Lemma safe_tenant connect st missing org : safe (tenant connect st missing org).
Proof. apply safe_bind; [apply safe_check|intros _; apply safe_reads]. Qed.

Lemma safe_run {A} db_text (m : stmt Plane A) : keeps_ok always m (λ _, always) → safe (run db_text m).
Proof. apply triple_run. Qed.

Lemma audit_ok P trace p org ds action detail :
  stable P → ∀ pl, ok pl → P pl →
  ok (pg_audit trace p org ds action detail pl) ∧ P (pg_audit trace p org ds action detail pl).
Proof.
  intros HP pl Hok Hpl. unfold pg_audit. split; [|by apply (HP pl)].
  destruct (append_safe (mkAudit (actor p) (Some org) ds action detail trace) _ (po_control _ _ Hok)).
  by apply ok_control.
Qed.

Lemma safe_audit trace p org ds action detail : safe (modify (pg_audit trace p org ds action detail)).
Proof. apply triple_modify, audit_ok, stable_always. Qed.

Lemma keeps_pg_enqueue P now id org ds kind pri key params by_ tc :
  stable P → keeps_ok P (pg_enqueue now id org ds kind pri key params by_ tc) (λ _, P).
Proof.
  intros HP. unfold pg_enqueue. eapply keeps_bind; [by apply keeps_on_ledger|].
  intros [|j l]; [by intros ????|apply keeps_ret].
Qed.

Lemma triple_on_files P f : stable P → triple P (on_files f) (λ _, P).
Proof.
  intros HP pl Hok Hpl. unfold on_files. destruct (f _) as [[u|e] fs].
  - split; [by eapply ok_same|by apply (HP pl)].
  - by eapply ok_same.
Qed.
End invariant.

(** Recording an event writes no other table. *)
Lemma emit_control now ids org ds name ev data pl :
  pl_control (with_hooks (emit now ids org ds name ev data (hooks_of pl)).2 pl) = pl_control pl.
Proof.
  assert (∀ ev body ts ids q h, control (emit_rows now ids org ds ev body ts q h).2 = control h) as H.
  { clear. intros ev body ts. induction ts as [|[[w u] s] ts IH]; intros ids q h; [done|]. simpl.
    unfold transaction. destruct (enqueue_delivery _ _ _ _ _ _ _ _ h) as [[row h']|] eqn:E; [|done].
    rewrite IH. unfold enqueue_delivery in E. apply install_ok in E as (_ & _ & _ & <-). done. }
  simpl. unfold emit. destruct (webhooks_for_delivery _ _ _) as [[|t ts]|]; [done| |done]. by rewrite H.
Qed.

(** *** The tables' own statements *)

Lemma keeps_set_display_name from_yaml now dn org name :
  keeps_ok from_yaml always (set_dataset_display_name now org name dn) (λ _, always).
Proof.
  eapply keeps_bind; [|intros; apply keeps_ret].
  apply keeps_update_datasets; [apply stable_always|done|]. intros pl d a _ Ha _. by left.
Qed.

Lemma keeps_set_dataset_state from_yaml now org name new expected :
  keeps_ok from_yaml always (set_dataset_state now org name new expected) (λ _, always).
Proof.
  eapply keeps_bind; [|intros; apply keeps_ret].
  apply keeps_update_datasets; [apply stable_always|done|]. intros pl d a _ Ha _. by left.
Qed.

Lemma keeps_set_active from_yaml now ds z :
  keeps_ok from_yaml (has_version ds z) (set_dataset_active_config now z ds) (λ _, has_version ds z).
Proof.
  apply keeps_update_datasets; [apply stable_has_version|done|].
  intros pl d a Hv [= <-] E%bool_decide_eq_true. right. by rewrite E.
Qed.

Lemma keeps_merge_env from_yaml now concat patch org :
  keeps_ok from_yaml always (merge_dataset_env now concat patch org) (λ _, always).
Proof.
  apply keeps_update_datasets; [apply stable_always|done|]. intros pl d a _ Ha _. by left.
Qed.

Lemma ok_schedule_delete from_yaml ds id :
  keeps_ok from_yaml always (schedule_delete ds id) (λ _, always).
Proof.
  intros pl n pl' Hok _ [= _ <-]. split; [|done]. destruct (po_schedules _ _ Hok) as [Hv Hu].
  set (P := λ s : Schedule, ¬ (s_dataset_id s = ds ∧ s_id s = id)).
  assert (∀ {K} `{EqDecision K} (p : Schedule → bool) (key : Schedule → K),
            unique p key (pl_schedules pl) = true → unique p key (filter P (pl_schedules pl)) = true) as H.
  { intros K ? q key. unfold unique. rewrite !bool_decide_eq_true. intros Hnd.
    eapply sublist_NoDup; [exact Hnd|]. apply fmap_sublist. clear. set (l := pl_schedules pl).
    induction l as [|s l IH]; [done|]. rewrite (filter_cons P). case_decide.
    - rewrite !(filter_cons (λ r, Is_true (q r))). case_decide; [by constructor|done].
    - rewrite (filter_cons (λ r, Is_true (q r))). case_decide; [by constructor|done]. }
  apply ok_schedules; [done| |].
  - unfold schedules_valid in *. rewrite forallb_forall in Hv |- *. intros s Hs. apply Hv.
    apply list_elem_of_In in Hs. apply (list_elem_of_filter P) in Hs as [_ Hs]. by apply list_elem_of_In.
  - unfold schedules_unique in *. rewrite !andb_true_iff in Hu |- *. destruct Hu as [[? ?] ?].
    split_and!; by apply H.
Qed.

Section requests.
Context (connect : string → result unit string) (db_text : DbError → string) (ts : Z → string).
Context (from_yaml : string → option Config.Config) (json_text : json → string).
Context (sha256 : string → list Z) (error_text error_chain : Config.ConfigError → string).
Context (refuses : string → string → option string).
Context (parse : string → result SqlColumns.Expr string) (regex : string → option string).
Context (active_models : string → Plane → list string).
Context (advisories : string → string → Config.Config → list string).
#[local] Notation ok := (plane_ok from_yaml).
#[local] Notation safe := (safe from_yaml).
#[local] Notation triple := (triple from_yaml).

#[local] Hint Resolve safe_ret safe_check safe_reads safe_scoped safe_tenant safe_audit : core.

Lemma safe_update_dataset now st p org ds dn : safe (update_dataset connect db_text ts now st p org ds dn).
Proof.
  apply safe_bind; [auto|intros _]. apply safe_bind; [auto|intros [o d]].
  apply safe_bind; [apply safe_run, keeps_set_display_name|intros _].
  apply safe_bind; [auto|intros d']. auto.
Qed.

Lemma safe_transition_dataset now trace st p org ds new expected msg :
  safe (transition_dataset connect db_text now trace st p org ds new expected msg).
Proof.
  apply safe_bind; [auto|intros _]. apply safe_bind; [auto|intros [o d]].
  apply safe_bind; [apply safe_run, keeps_set_dataset_state|intros []].
  - apply safe_bind; [auto|intros _]. auto.
  - apply safe_check.
Qed.

Lemma safe_create_config_version now id st p org ds yaml :
  safe (create_config_version connect db_text from_yaml json_text sha256 error_text now id st p org ds yaml).
Proof.
  apply safe_bind; [auto|intros _]. unfold create_config_version.
  eapply triple_bind; [apply triple_check|intros c].
  apply triple_known. intros Hc. destruct (load from_yaml yaml) as [c'|e] eqn:El; [|done].
  apply safe_bind; [auto|intros [o d]].
  apply safe_bind; [|auto]. eapply triple_weaken; [eapply triple_run, keeps_draft; [apply stable_always|exact El]|done|done].
Qed.

Lemma safe_create_dataset now trace ids st pr p org body :
  safe (create_dataset connect db_text from_yaml json_text sha256 error_chain refuses now trace ids st pr p
          org body).
Proof.
  apply safe_bind; [auto|intros _].
  apply safe_bind; [case_match; auto; apply safe_check|intros _].
  apply safe_bind; [case_match; auto; apply safe_check|intros _].
  apply safe_bind; [case_match; auto; apply safe_check|intros _].
  apply safe_bind; [case_match; auto; apply safe_check|intros _].
  destruct (in_config_path body) as [path|].
  - apply safe_bind; [auto|intros env]. apply safe_bind; [auto|intros o].
    apply safe_bind; [auto|intros _]. apply safe_bind.
    { apply safe_run. eapply keeps_bind; [apply keeps_ensure, stable_always|intros; apply keeps_ret]. }
    intros [].
    + apply safe_bind; [auto|intros _]. auto.
    + apply safe_check.
  - unfold create_dataset_auto. apply safe_bind; [repeat case_match; auto; apply safe_check|intros profile].
    apply safe_bind; [auto|intros o]. apply safe_bind; [auto|intros _]. apply safe_bind; [auto|intros _].
    apply safe_bind; [apply triple_on_files, stable_always|intros _].
    apply safe_bind; [case_match; [apply triple_on_files, stable_always|auto]|intros _].
    apply safe_bind; [auto|intros starter].
    eapply triple_bind; [apply triple_check|intros h]. apply triple_known. intros Hc.
    destruct (load from_yaml starter) as [c|e] eqn:El; [|done].
    eapply triple_bind; [apply triple_run, keeps_ensure, stable_always|intros ?].
    eapply triple_bind; [eapply triple_run, keeps_draft; [apply stable_always|exact El]|intros z].
    eapply (triple_weaken _ (has_version (ids 0%nat) z)); [|intros pl [_ ?]; done|done].
    eapply triple_bind; [apply triple_run, keeps_publish, stable_has_version|intros ?].
    eapply triple_bind; [apply triple_run, keeps_set_active|intros ?].
    eapply triple_bind; [apply triple_run, keeps_pg_enqueue, stable_has_version|intros j].
    eapply triple_bind; [apply triple_modify, audit_ok, stable_has_version|intros ?].
    apply triple_end.
Qed.

(** The writes of a publish. *)
Lemma triple_run_all {A} P (m : Plane → result A DbError * Plane) Q :
  (∀ pl, ok pl → P pl →
     match m pl with (Ok x, pl') => ok pl' ∧ Q x pl' | (Err _, pl') => ok pl' end) →
  triple P (run_all db_text m) Q.
Proof. intros Hm pl Hok HP. specialize (Hm pl Hok HP). unfold run_all. by destruct (m pl) as [[] ?]. Qed.

(** A statement in its own transaction. *)
Lemma keeps_transaction {A} P (m : stmt Plane A) Q pl :
  keeps_ok from_yaml P m Q → ok pl → P pl →
  match transaction m pl with (Ok x, pl') => ok pl' ∧ Q x pl' | (Err _, pl') => ok pl' end.
Proof.
  intros Hm Hok HP. pose proof (transaction_spec m pl) as Ht.
  destruct (transaction m pl) as [[x|e] pl']; [by apply (Hm pl)|]. by destruct Ht as [_ ->].
Qed.

Lemma publish_writes now org ds z tier pl :
  ok pl → has_version ds z pl →
  match pg_publish_config_version now org ds z tier pl with
  | (Ok _, pl') => ok pl' ∧ has_version ds z pl'
  | (Err _, pl') => ok pl'
  end.
Proof.
  intros Hok Hv. unfold pg_publish_config_version.
  pose proof (keeps_transaction _ _ _ pl (keeps_publish from_yaml _ now tier ds z (stable_has_version ds z)) Hok Hv) as H.
  destruct (transaction (publish _ _ _ _) pl) as [[n|e] pl1]; [|done]. destruct H as [Hok1 Hv1].
  pose proof (keeps_transaction _ _ _ pl1 (keeps_set_active from_yaml now ds z) Hok1 Hv1) as H.
  destruct (transaction (set_dataset_active_config _ _ _) pl1) as [[n'|e] pl2]; [|done]. destruct H as [Hok2 Hv2].
  assert (control_safe (set_active_config now z org)) as Hs.
  { apply control_safe_bind; [by apply update_orgs_safe|intros; apply control_safe_ret]. }
  pose proof (keeps_transaction _ _ _ pl2 (keeps_on_control from_yaml _ _ (stable_has_version ds z) Hs) Hok2 Hv2) as H.
  by destruct (transaction (on_control _) pl2) as [[n''|e] pl3].
Qed.

Lemma schedule_writes now id org ds cadence P pl :
  stable P → ok pl → P pl →
  match ensure_correction_schedule now id org (Some ds) cadence pl with
  | (Ok _, pl') => ok pl' ∧ P pl'
  | (Err _, pl') => ok pl'
  end.
Proof.
  intros HP Hok Hpl. unfold ensure_correction_schedule, set_config_cron.
  pose proof (keeps_transaction _ _ _ pl (keeps_update_schedules from_yaml P
    (λ s, bool_decide (s_dataset_id s = default org (Some ds)) && bool_decide (s_source s = CORRECTION_PASS_SOURCE)
          && negb (bool_decide (s_cron s = cadence)))
    (λ s, s <| s_cron := cadence |> <| s_updated_at := now |>) HP) Hok Hpl) as H.
  destruct (transaction (update_schedules _ _) pl) as [[n|e] pl1]; [|done]. destruct H as [Hok1 Hpl1].
  assert (keeps_ok from_yaml P (ensure_config_owned now id org (Some ds) "correct" cadence CORRECTION_PASS_SOURCE)
            (λ _, P)) as Hk.
  { intros q x q' Hq HPq. unfold ensure_config_owned. destruct (existsb _ _); [by intros [= _ <-]|].
    by apply keeps_insert_schedule. }
  pose proof (keeps_transaction _ _ _ pl1 Hk Hok1 Hpl1) as H.
  by destruct (transaction (ensure_config_owned _ _ _ _ _ _ _) pl1) as [[n'|e] pl2].
Qed.

Lemma triple_rebuild P now ids p org ds z tier :
  stable P → triple P (rebuild db_text now ids p org ds z tier) (λ _, P).
Proof.
  intros HP. assert (∀ i k key params, triple P (run db_text (pg_enqueue now (ids i) org (Some ds) k 0 (Some key)
    params (Some (actor p)) (trace_context p))) (λ _, P)) as He by (intros; by apply triple_run, keeps_pg_enqueue).
  assert (∀ i, triple P (j ← run db_text (pg_enqueue now (ids i) org (Some ds) "run_all_full" 0 (Some (rebuild_key z))
    (Some rebuild_params) (Some (actor p)) (trace_context p)); mret (job_id j)) (λ _, P)) as Hf.
  { intros i. eapply triple_bind; [apply He|intros ?; apply triple_keep]. }
  unfold rebuild. destruct tier as [t|]; [|apply triple_keep]. case_decide; [|case_decide; [|apply triple_keep]].
  - eapply triple_bind; [apply He|intros ?]. eapply triple_bind; [apply Hf|intros ?; apply triple_keep].
  - eapply triple_bind; [apply Hf|intros ?; apply triple_keep].
Qed.

Lemma safe_publish now trace ids mints st p org ds version :
  safe (publish_config_version connect db_text from_yaml error_text refuses parse regex active_models
          advisories now trace ids mints st p org ds version).
Proof.
  apply safe_bind; [auto|intros _]. apply safe_bind; [auto|intros z]. apply safe_bind; [auto|intros [o d]].
  eapply triple_bind; [apply triple_reads|intros row].
  eapply (triple_weaken _ (has_version (ds_id d) z)); [| |done].
  2:{ intros pl [_ H]. destruct (pg_get_config_version (ds_id d) z pl) as [v|] eqn:E; [|done].
      unfold pg_get_config_version, by_version in E.
      apply (head_filter_Some (λ v, v_dataset_id v = ds_id d ∧ v_version v = z)) in E as [[? ?] ?]. by exists v. }
  assert (∀ {A} (r : result A Response), triple (has_version (ds_id d) z) (check r) (λ _, has_version (ds_id d) z)) as Hc.
  { intros A r. eapply triple_weaken; [apply triple_check|done|by intros ?? []]. }
  assert (∀ {A} (f : Plane → result A Response), triple (has_version (ds_id d) z) (reads f) (λ _, has_version (ds_id d) z)) as Hr.
  { intros A f. eapply triple_weaken; [apply triple_reads|done|by intros ?? []]. }
  eapply triple_bind; [apply Hc|intros c]. eapply triple_bind; [apply Hr|intros ?].
  eapply triple_bind; [apply Hr|intros [[path state] active]]. eapply triple_bind; [apply Hr|intros [tier changed]].
  eapply (triple_bind _ _ _ (λ _, has_version (ds_id d) z)); [case_match; [apply Hc|apply triple_keep]|intros ?].
  eapply (triple_bind _ _ _ (λ _, has_version (ds_id d) z)); [case_match; [apply triple_keep|apply Hc]|intros ?].
  eapply (triple_bind _ _ _ (λ _, has_version (ds_id d) z)).
  { intros pl Hok Hv. destruct (write_config_file _ _ _ _) as [[u|e] fs]; [split; [by eapply ok_same|done]|by eapply ok_same]. }
  intros ?. eapply (triple_bind _ _ _ (λ _, has_version (ds_id d) z)).
  { apply triple_run_all. intros pl. apply publish_writes. }
  intros ?. eapply (triple_bind _ _ _ (λ _, has_version (ds_id d) z)).
  { case_match; [|apply triple_keep]. apply triple_run_all. intros pl. apply schedule_writes, stable_has_version. }
  intros ?. eapply triple_bind; [apply triple_rebuild, stable_has_version|intros js].
  eapply triple_bind; [apply triple_modify, audit_ok, stable_has_version|intros ?].
  eapply (triple_bind _ _ _ (λ _, always)); [|intros ?; apply triple_end].
  intros pl Hok Hv. split; [|done]. simpl. unfold emit_published.
  eapply ok_same; [done|by apply emit_control|done..].
Qed.

Lemma safe_create_schedule now id st p org ds kind cron params m :
  create_schedule connect db_text now id st p org ds kind cron params = Some m → safe m.
Proof.
  unfold create_schedule. intros (r & _ & [= <-])%bind_Some.
  apply safe_bind; [auto|intros ?]. apply safe_bind; [auto|intros [o d]].
  apply safe_bind; [|auto]. apply safe_run. eapply keeps_bind; [|intros; apply keeps_ret].
  apply keeps_insert_schedule, stable_always.
Qed.

Lemma safe_update_schedule now st p org ds id b :
  safe (update_schedule connect db_text now st p org ds id b).
Proof.
  apply safe_bind; [auto|intros ?]. apply safe_bind; [auto|intros [o d]].
  apply safe_bind; [|intros []; [auto|apply safe_check]]. apply safe_run.
  eapply keeps_bind; [|intros; apply keeps_ret]. apply keeps_update_schedules, stable_always.
Qed.

Lemma safe_delete_schedule st p org ds id : safe (delete_schedule connect db_text st p org ds id).
Proof.
  apply safe_bind; [auto|intros ?]. apply safe_bind; [auto|intros [o d]].
  apply safe_bind; [|auto]. apply safe_run. eapply keeps_bind; [apply ok_schedule_delete|intros; apply keeps_ret].
Qed.

Lemma tick_keeps {DateTime} (at_minute at_hour at_day at_month at_weekday : DateTime → Z) minute_key
    now at_ l : ∀ ids n pl,
  ok pl → ok (tick_loop at_minute at_hour at_day at_month at_weekday minute_key now at_ ids l n pl).2.
Proof.
  induction l as [|s l IH]; intros ids n pl Hok; [done|]. simpl.
  destruct (Cron.parse (s_cron s)) as [[expr|e]|]; [|by apply IH|done].
  destruct (negb _); [by apply IH|].
  pose proof (keeps_transaction always (pg_enqueue_scheduled now (ids 0%nat) (s_org_id s) (Some (s_dataset_id s))
    (s_kind s) (schedule_key (s_id s) (minute_key at_)) (Some (s_params s)) (s_id s) None) (λ _, always) pl) as H.
  destruct (transaction _ pl) as [[[j b]|e] pl1].
  2:{ simpl. apply H; [|done|done]. eapply keeps_bind; [apply keeps_on_ledger, stable_always|].
      intros [|? ?]; [by intros ????|apply keeps_ret]. }
  assert (ok pl1) as Hok1.
  { apply H; [|done|done]. eapply keeps_bind; [apply keeps_on_ledger, stable_always|].
    intros [|? ?]; [by intros ????|apply keeps_ret]. }
  destruct b; [|by apply IH].
  pose proof (keeps_transaction always (mark_schedule_enqueued now (s_id s)) (λ _, always) pl1) as H1.
  assert (keeps_ok from_yaml always (mark_schedule_enqueued now (s_id s)) (λ _, always)) as Hm.
  { eapply keeps_bind; [apply keeps_update_schedules, stable_always|intros; apply keeps_ret]. }
  specialize (H1 Hm Hok1 I).
  destruct (transaction (mark_schedule_enqueued _ _) pl1) as [[u|e] pl2]; [|done].
  apply IH. by destruct H1.
Qed.

(** ** The control plane's steps *)

(** What is done to the tables: a request of this part, a tick, a change of the
    tenants' tables, a fan-out of settings, and anything at all to the
    webhooks, the ledger and the files. *)
Inductive plane_step (pl : Plane) : Plane → Prop :=
| step_create_dataset now trace ids st pr p org body :
    plane_step pl (serve (create_dataset connect db_text from_yaml json_text sha256 error_chain refuses
                            now trace ids st pr p org body) pl).2
| step_update_dataset now st p org ds dn :
    plane_step pl (serve (update_dataset connect db_text ts now st p org ds dn) pl).2
| step_transition_dataset now trace st p org ds new expected msg :
    plane_step pl (serve (transition_dataset connect db_text now trace st p org ds new expected msg) pl).2
| step_draft now id st p org ds yaml :
    plane_step pl (serve (create_config_version connect db_text from_yaml json_text sha256 error_text
                            now id st p org ds yaml) pl).2
| step_publish now trace ids mints st p org ds version :
    plane_step pl (serve (publish_config_version connect db_text from_yaml error_text refuses parse regex
                            active_models advisories now trace ids mints st p org ds version) pl).2
| step_create_schedule now id st p org ds kind cron params m :
    create_schedule connect db_text now id st p org ds kind cron params = Some m →
    plane_step pl (serve m pl).2
| step_update_schedule now st p org ds id b :
    plane_step pl (serve (update_schedule connect db_text now st p org ds id b) pl).2
| step_delete_schedule st p org ds id :
    plane_step pl (serve (delete_schedule connect db_text st p org ds id) pl).2
| step_tick {DateTime} (at_minute at_hour at_day at_month at_weekday : DateTime → Z) minute_key
    now at_ ids :
    plane_step pl (schedule_tick at_minute at_hour at_day at_month at_weekday minute_key now at_ ids pl).2
| step_merge_envs now concat patch org :
    plane_step pl (transaction (merge_dataset_env now concat patch org) pl).2
| step_tenants c' :
    control_step sha256 db_text connect (pl_control pl) c' → plane_step pl (pl <| pl_control := c' |>)
| step_elsewhere w d l f :
    plane_step pl (pl <| pl_webhooks := w |> <| pl_deliveries := d |> <| pl_ledger := l |>
                     <| pl_files := f |>).

(** A fresh database. *)
Definition empty_plane (l : Ledger.Db) (f : Fs) : Plane := mkPlane (mkControl [] [] []) [] [] [] [] [] l f.

Definition reachable_plane (pl : Plane) : Prop := ∃ l f, rtc plane_step (empty_plane l f) pl.

Lemma plane_step_ok pl pl' : ok pl → plane_step pl pl' → ok pl'.
Proof.
  intros Hok Hs. destruct Hs.
  - apply safe_serve; [apply safe_create_dataset|done].
  - apply safe_serve; [apply safe_update_dataset|done].
  - apply safe_serve; [apply safe_transition_dataset|done].
  - apply safe_serve; [apply safe_create_config_version|done].
  - apply safe_serve; [apply safe_publish|done].
  - apply safe_serve; [by eapply safe_create_schedule|done].
  - apply safe_serve; [apply safe_update_schedule|done].
  - apply safe_serve; [apply safe_delete_schedule|done].
  - by apply tick_keeps.
  - pose proof (keeps_transaction _ _ _ pl (keeps_merge_env from_yaml now concat patch org) Hok I) as H.
    destruct (transaction _ pl) as [[] ?]; [by destruct H|done].
  - apply control_step_safe in H as [Hc Hk]; [|apply (po_control _ _ Hok)]. by apply ok_control.
  - by eapply ok_same.
Qed.

Lemma empty_plane_ok l f : ok (empty_plane l f).
Proof. split; simpl; try done; try (by intros ? ?%elem_of_nil); by intros ? ? ?%elem_of_nil. Qed.

Lemma reachable_plane_ok pl : reachable_plane pl → ok pl.
Proof.
  intros (l & f & H). pose proof (empty_plane_ok l f) as Hok. induction H as [|x y z Hs _ IH]; [done|].
  apply IH. by eapply plane_step_ok.
Qed.

End requests.

(** ** A small history *)

Module SamplePlane.

(** Three documents: the second raises a threshold, the third bounds the
    clustering otherwise. *)
Definition base : Config.Config := Compile.SampleRules.config.

Definition document (cadence : string) (t : Config.Thresholds) (c : Config.Clustering) : Config.Config :=
  Config.mkConfig (Config.entity_type base) (Config.approval_tag base) (Config.tenant base) t (Config.models base)
    (Config.standardization base) (Config.transforms base) (Config.sources base) (Config.blocking base)
    (Config.constraints base) (Config.comparisons base) (Config.segments base) (Config.features_related base)
    (Config.data_quality base) (Config.survivorship base) (Config.survivorship_groups base)
    (Config.training base) (Config.storage base) (Config.versions base) (Config.generator_seed base) c
    (Config.coherence_scorer base) cadence.

Definition sunday : string := "0 3 * * 0".

Definition from_yaml (yaml : string) : option Config.Config :=
  if decide (yaml = "people") then Some (document sunday (Config.thresholds base) (Config.clustering base))
  else if decide (yaml = "strict") then
    Some (document sunday (Config.mkThresholds (F64.f64_of 2) (F64.f64_of 1) None None) (Config.clustering base))
  else if decide (yaml = "loops") then
    Some (document sunday (Config.thresholds base) (Config.mkClustering 99 (F64.f64_of 1)))
  else if decide (yaml = "weekly") then
    Some (document "weekly" (Config.thresholds base) (Config.clustering base))
  else None.

Definition connect (_ : string) : result unit string := Ok tt.
Definition db_text (e : DbError) : string :=
  match e with UniqueViolation => "unique" | OtherError => "other" end.
Definition no_text {A} (_ : A) : string := "".
Definition sha (_ : string) : list Z := [].
Definition willing (_ _ : string) : option string := None.
Definition no_models (_ : string) (_ : Plane) : list string := [].
Definition no_advice (_ _ : string) (_ : Config.Config) : list string := [].

Definition st : AppState := mkState "" (Some "dsn").
Definition operator : Principal := mkPrincipal "operator" None Operator None.
Definition admin : Principal := mkPrincipal "key:k1" (Some "acme") Admin None.

Definition step : Plane → Plane → Prop :=
  plane_step connect db_text no_text from_yaml no_text sha no_text no_text willing
    ConfigCheck.SampleCheck.parse (λ _, None) no_models no_advice.

Definition tenants (c : ControlDb) : ControlDb :=
  (transaction (upsert_byo 0 "o1" "acme" "/srv/acme.yaml" (JObject []) None None None) c).2.

Definition acme : Plane :=
  empty_plane (mkDb [] [] (λ _, None)) (mkFs ∅ ∅) <| pl_control := tenants (mkControl [] [] []) |>.

Definition in_plane (name : string) : DatasetIn :=
  mkDatasetIn name None None (Some ("/srv/" +:+ name +:+ ".yaml")) ∅ None None None.

Definition create (name id : string) : action Response :=
  create_dataset connect db_text from_yaml no_text sha no_text willing 1 None (λ _, id) st
    (mkProvisioning None None) operator "acme" (in_plane name).

Definition draft_of (ds id yaml : string) : action Response :=
  create_config_version connect db_text from_yaml no_text sha no_text 2 id st admin "acme" ds yaml.

(** [n] tells the identifiers of one publish from another's. *)
Definition publish_of (n : string) (p : Principal) (ds version : string) : action Response :=
  publish_config_version connect db_text from_yaml no_text willing ConfigCheck.SampleCheck.parse (λ _, None)
    no_models no_advice 3 None (λ i, n +:+ int_text (Z.of_nat i)) (λ _, n) st p "acme" ds version.

Definition after (m : action Response) (pl : Plane) : Plane := (serve m pl).2.

Definition created : Plane := after (create "people" "d1") acme.
Definition drafted : Plane := after (draft_of "people" "v1" "people") created.
Definition published : Plane := after (publish_of "a" admin "people" "1") drafted.

Lemma published_reachable :
  reachable_plane connect db_text no_text from_yaml no_text sha no_text no_text willing
    ConfigCheck.SampleCheck.parse (λ _, None) no_models no_advice published.
Proof.
  exists (mkDb [] [] (λ _, None)), (mkFs ∅ ∅).
  eapply (rtc_l _ _ acme); [unfold acme; apply step_tenants, step_upsert|].
  eapply (rtc_l _ _ created); [unfold created, after, create; apply step_create_dataset|].
  eapply (rtc_l _ _ drafted); [unfold drafted, after, draft_of; apply step_draft|].
  eapply (rtc_l _ _ published); [unfold published, after, publish_of; apply step_publish|]. reflexivity.
Qed.

End SamplePlane.

Import SamplePlane.

