(* ===== verification/PublishRuns.v ===== *)
(** * What a publish does

    The refusals of [publish_config_version] change nothing; an answer of 200 is
    given only past every check, and leaves the file, the version, both
    pointers, the correction schedule and the tier's jobs in place.  The
    examples are histories in which a publish does less than its comments say. *)

From S2P Require Import Prelude F64 Ids Text LakeClock Json Sql Cron Config Compile ConfigCheck Ledger Auth Webhooks Provision Plane Datasets Publish Schedules ActiveConfig.

#[local] Open Scope Z_scope.

(** ** Lemmas *)

(** *** Runs of actions *)

(** An action that reads only, and whose failures are refusals. *)
Definition quiet {A} (m : action A) : Prop :=
  ∀ pl, (m pl).2 = pl ∧ match (m pl).1 with Err r => r.1 ≠ 200 | Ok _ => True end.

(** An action that fails with a 500 only. *)
Definition loud {A} (m : action A) : Prop :=
  ∀ pl, match (m pl).1 with Err r => r.1 = 500 | Ok _ => True end.

(** One whose other failures change nothing. *)
Definition tidy {A} (m : action A) : Prop :=
  ∀ pl, match m pl with (Err r, pl') => r.1 = 500 ∨ (pl' = pl ∧ r.1 ≠ 200) | (Ok _, _) => True end.

Lemma tidy_quiet {A B} (m : action A) (k : A → action B) : quiet m → (∀ x, tidy (k x)) → tidy (m ≫= k).
Proof.
  intros Hm Hk pl. specialize (Hm pl). unfold mbind, action_bind.
  destruct (m pl) as [[x|r] pl'] eqn:E; simpl in Hm; destruct Hm as [-> Hr]; [apply Hk|by right].
Qed.

Lemma loud_tidy {A} (m : action A) : loud m → tidy m.
Proof. intros Hm pl. specialize (Hm pl). destruct (m pl) as [[x|r] pl']; [done|by left]. Qed.

Lemma loud_bind {A B} (m : action A) (k : A → action B) : loud m → (∀ x, loud (k x)) → loud (m ≫= k).
Proof.
  intros Hm Hk pl. specialize (Hm pl). unfold mbind, action_bind.
  destruct (m pl) as [[x|r] pl']; [apply Hk|done].
Qed.

Lemma loud_run {A} db_text (m : stmt Plane A) : loud (run db_text m).
Proof. intros pl. unfold run. by destruct (transaction m pl) as [[] ?]. Qed.

Lemma loud_run_all {A} db_text (m : Plane → result A DbError * Plane) : loud (run_all db_text m).
Proof. intros pl. unfold run_all. by destruct (m pl) as [[] ?]. Qed.

Lemma bind_ok {A B} (m : action A) (k : A → action B) pl y pl'' :
  (m ≫= k) pl = (Ok y, pl'') → ∃ x pl', m pl = (Ok x, pl') ∧ k x pl' = (Ok y, pl'').
Proof. unfold mbind, action_bind. destruct (m pl) as [[x|r] pl']; [eauto|done]. Qed.

Lemma check_ok {A} (r : result A Response) pl x pl' : check r pl = (Ok x, pl') → r = Ok x ∧ pl' = pl.
Proof. unfold check. by intros [= -> ->]. Qed.

Lemma reads_ok {A} (f : Plane → result A Response) pl x pl' :
  reads f pl = (Ok x, pl') → f pl = Ok x ∧ pl' = pl.
Proof. unfold reads. by intros [= -> ->]. Qed.

Lemma run_ok {A} db_text (m : stmt Plane A) pl x pl' : run db_text m pl = (Ok x, pl') → m pl = Ok (x, pl').
Proof. unfold run, transaction. destruct (m pl) as [[y q]|]; [by intros [= -> ->]|done]. Qed.

Lemma run_all_ok {A} db_text (m : Plane → result A DbError * Plane) pl x pl' :
  run_all db_text m pl = (Ok x, pl') → m pl = (Ok x, pl').
Proof. unfold run_all. destruct (m pl) as [[y|e] q]; [by intros [= -> ->]|done]. Qed.

Lemma transaction_ok {S A} (m : stmt S A) s x s' : transaction m s = (Ok x, s') → m s = Ok (x, s').
Proof. unfold transaction. destruct (m s) as [[]|]; by intros [= -> ->]. Qed.

Lemma scoped_ok connect st missing org ds pl o d pl' :
  scoped connect st missing org ds pl = (Ok (o, d), pl') →
  get_org org (pl_control pl) = Some o ∧ get_dataset (o_id o) ds pl = Some d ∧ pl' = pl.
Proof.
  unfold scoped, tenant. intros (o1 & pl1 & H & H2)%bind_ok.
  apply bind_ok in H as (u & pl2 & [_ ->]%check_ok & [Ho ->]%reads_ok).
  apply bind_ok in H2 as (d1 & pl3 & [Hd ->]%reads_ok & H3). injection H3 as -> -> ->.
  unfold org_or_404 in Ho. unfold dataset_or_404 in Hd. repeat case_match; by simplify_eq.
Qed.

Lemma quiet_check {A} (r : result A Response) :
  (∀ e, r = Err e → e.1 ≠ 200) → quiet (check r).
Proof. intros Hr pl. split; [done|]. simpl. destruct r; [done|by apply Hr]. Qed.

Lemma quiet_reads {A} (f : Plane → result A Response) :
  (∀ pl e, f pl = Err e → e.1 ≠ 200) → quiet (reads f).
Proof. intros Hf pl. split; [done|]. simpl. destruct (f pl) eqn:E; [done|by eapply Hf]. Qed.

Lemma quiet_bind {A B} (m : action A) (k : A → action B) : quiet m → (∀ x, quiet (k x)) → quiet (m ≫= k).
Proof.
  intros Hm Hk pl. specialize (Hm pl). unfold mbind, action_bind.
  destruct (m pl) as [[x|r] pl']; simpl in Hm; destruct Hm as [-> Hr]; [apply Hk|done].
Qed.

Lemma guard_refuses p org minimum e : guard p org minimum = Err e → e.1 ≠ 200.
Proof. unfold guard. repeat case_match; by intros [= <-]. Qed.

Lemma quiet_scoped connect st missing org ds : quiet (scoped connect st missing org ds).
Proof.
  unfold scoped, tenant. repeat apply quiet_bind; try (intros ?; apply quiet_bind).
  - apply quiet_check. unfold connected. intros e. by repeat case_match; intros [= <-].
  - intros _. apply quiet_reads. unfold org_or_404. intros pl e. case_match; by intros [= <-].
  - apply quiet_reads. unfold dataset_or_404. intros pl e. case_match; by intros [= <-].
  - by intros ? pl.
Qed.

(** *** The statements of a publish *)

Lemma set_active_config_orgs now z name c n c' :
  set_active_config now z name c = Ok (n, c') →
  orgs c' = (λ o, if bool_decide (o_name o = name)
                  then o <| o_active_config_version := Some z |> <| o_updated_at := now |> else o) <$> orgs c.
Proof.
  unfold set_active_config, update_orgs, update_rows. cbv [mbind stmt_bind mret stmt_ret].
  destruct (install _ _ _ _) as [[x c1]|] eqn:E; [|done]. apply install_ok in E as (_ & _ & _ & <-).
  by intros [= _ <-].
Qed.

Lemma publish_writes_eq now org ds z tier pl pl' :
  pg_publish_config_version now org ds z tier pl = (Ok tt, pl') →
  ∃ c',
    pl' = pl <| pl_versions := (λ v, if bool_decide (v_dataset_id v = ds) && bool_decide (v_version v = z)
              then v <| v_state := "published" |> <| v_tier := tier |> <| v_published_at := Some now |>
                     <| v_updated_at := now |> else v) <$> pl_versions pl |>
            <| pl_datasets := (λ d, if bool_decide (ds_id d = ds)
              then d <| ds_active_config_version := Some z |> <| ds_updated_at := now |> else d)
                <$> pl_datasets pl |>
            <| pl_control := c' |>
    ∧ orgs c' = (λ o, if bool_decide (o_name o = org)
        then o <| o_active_config_version := Some z |> <| o_updated_at := now |> else o)
          <$> orgs (pl_control pl).
Proof.
  unfold pg_publish_config_version.
  destruct (transaction (publish now tier ds z) pl) as [[n|e] pl1] eqn:E1; [|done].
  destruct (transaction (set_dataset_active_config now z ds) pl1) as [[n2|e] pl2] eqn:E2; [|done].
  destruct (transaction (on_control _) pl2) as [[n3|e] pl3] eqn:E3; [|done]. intros [= <-].
  apply transaction_ok in E1, E2, E3.
  unfold publish, update_versions, update_rows in E1. apply install_ok in E1 as (_ & _ & _ & <-).
  unfold set_dataset_active_config, update_datasets, update_rows in E2. apply install_ok in E2 as (_ & _ & _ & <-).
  unfold on_control in E3. destruct (set_active_config _ _ _ _) as [[n4 c]|] eqn:Ec; [|done].
  injection E3 as _ <-. exists c. split; [done|]. by apply set_active_config_orgs in Ec.
Qed.

Lemma ensure_correction_eq now id org ds cadence pl pl' :
  ensure_correction_schedule now id org (Some ds) cadence pl = (Ok tt, pl') →
  ∃ l, pl' = pl <| pl_schedules := l |>
    ∧ ∃ s, s ∈ l ∧ s_dataset_id s = ds ∧ s_source s = CORRECTION_PASS_SOURCE ∧ s_cron s = cadence.
Proof.
  unfold ensure_correction_schedule.
  destruct (transaction (set_config_cron _ _ _ _) pl) as [[n|e] pl1] eqn:E1; [|done].
  destruct (transaction (ensure_config_owned _ _ _ _ _ _ _) pl1) as [[n2|e] pl2] eqn:E2; [|done].
  intros [= <-]. apply transaction_ok in E1, E2.
  unfold set_config_cron, update_schedules, update_rows in E1. apply install_ok in E1 as (_ & _ & _ & <-).
  unfold ensure_config_owned in E2. destruct (existsb _ _) eqn:Ex.
  - injection E2 as _ <-. eexists. split; [reflexivity|]. apply existsb_exists in Ex as (s & Hin & Hs).
    apply list_elem_of_In in Hin. rewrite andb_true_iff, !bool_decide_eq_true in Hs. destruct Hs as [Hds Hsrc].
    exists s. split_and!; [done..|]. simpl in Hin. apply list_elem_of_fmap in Hin as (s0 & -> & Hin).
    destruct (bool_decide (s_dataset_id s0 = ds) && bool_decide (s_source s0 = CORRECTION_PASS_SOURCE)
              && negb (bool_decide (s_cron s0 = cadence))) eqn:Eb; [done|].
    rewrite bool_decide_true, bool_decide_true in Eb by done. simpl in Eb.
    by rewrite negb_false_iff, bool_decide_eq_true in Eb.
  - unfold insert_schedule in E2. apply install_ok in E2 as (_ & _ & _ & <-). eexists. split; [reflexivity|].
    eexists. split; [apply elem_of_app; right; apply list_elem_of_here|done].
Qed.

(** A job of the tenant under a key. *)
Definition has_job (org key : string) (d : Ledger.Db) : Prop :=
  ∃ j, j ∈ jobs d ∧ job_org_id j = org ∧ job_idempotency_key j = Some key.

Lemma has_job_insert now row org key d rows d' :
  insert_job now row d = Ok (rows, d') → has_job org key d → has_job org key d'.
Proof.
  unfold insert_job. cbv [mbind stmt_bind get]. fold (same_key row). destruct (existsb _ _).
  - unfold update_jobs, update_rows. intros (_ & _ & _ & <-)%install_ok (j & Hj & Ho & Hk).
    exists (if same_key row j then job_touch now j else j). simpl.
    split; [by apply (list_elem_of_fmap_2 (λ r, if same_key row r then job_touch now r else r))|].
    by case_match.
  - intros (_ & _ & _ & <-)%install_ok (j & Hj & ?). exists j. simpl. split; [set_solver|done].
Qed.

Lemma pg_enqueue_ok now id org ds kind pri key params by_ tc pl j pl' :
  pg_enqueue now id org ds kind pri (Some key) params by_ tc pl = Ok (j, pl') →
  ∃ d, pl' = pl <| pl_ledger := d |> ∧ has_job org key d
       ∧ ∀ o k, has_job o k (pl_ledger pl) → has_job o k d.
Proof.
  unfold pg_enqueue, on_ledger. cbv [mbind stmt_bind mret stmt_ret].
  destruct (Ledger.enqueue _ _ _ _ _ _ _ _ _ _ _) as [[rows d]|] eqn:E; [|done].
  destruct rows as [|j0 rows]; [done|]. intros [= _ <-]. exists d. split; [done|]. split.
  - unfold Ledger.enqueue, insert_job in E. cbv [mbind stmt_bind get] in E.
    set (row := new_job _ _ _ _ _ _ _ _ _ _ _) in E. fold (same_key row) in E. destruct (existsb _ _) eqn:Ex.
    + unfold update_jobs, update_rows in E. apply install_ok in E as (_ & _ & _ & <-).
      apply existsb_exists in Ex as (x & Hx & Hs). apply list_elem_of_In in Hx.
      exists (job_touch now x). simpl. split.
      * apply list_elem_of_fmap. exists x. by rewrite Hs.
      * unfold same_key in Hs. simpl in Hs. rewrite !andb_true_iff, !bool_decide_eq_true in Hs. tauto.
    + apply install_ok in E as (_ & _ & _ & <-). exists row. simpl. split; [set_solver|done].
  - intros o k. by eapply has_job_insert.
Qed.

(** The keys of the jobs a tier asks for. *)
Definition tier_keys (z : Z) (tier : option string) : list string :=
  match tier with
  | Some t => if decide (t = "C") then [train_key z; rebuild_key z]
              else if decide (t = "A" ∨ t = "B") then [rebuild_key z] else []
  | None => []
  end.

Lemma rebuild_ok db_text now ids p org ds z tier pl js pl' :
  rebuild db_text now ids p org ds z tier pl = (Ok js, pl') →
  ∃ d, pl' = pl <| pl_ledger := d |> ∧ (∀ k, k ∈ tier_keys z tier → has_job org k d)
       ∧ length js = length (tier_keys z tier).
Proof.
  assert (∀ q, q <| pl_ledger := pl_ledger q |> = q) as Hself by (by intros []).
  unfold rebuild, tier_keys. destruct tier as [t|].
  2:{ intros [= <- <-]. exists (pl_ledger pl). rewrite Hself. split_and!; [done|set_solver|done]. }
  case_decide; [|case_decide].
  - intros (j1 & pl1 & (d1 & -> & Hj1 & _)%run_ok%pg_enqueue_ok & H2)%bind_ok.
    apply bind_ok in H2 as (r & pl2 & H2 & [= <- <-]).
    apply bind_ok in H2 as (j2 & pl3 & (d2 & -> & Hj2 & Hm)%run_ok%pg_enqueue_ok & [= <- <-]).
    exists d2. split_and!; [done| |done]. intros k [->|[->|[]%elem_of_nil]%elem_of_cons]%elem_of_cons; auto.
  - intros (r & pl2 & H2 & [= <- <-])%bind_ok.
    apply bind_ok in H2 as (j2 & pl3 & (d2 & -> & Hj2 & Hm)%run_ok%pg_enqueue_ok & [= <- <-]).
    exists d2. split_and!; [done| |done]. intros k [->|[]%elem_of_nil]%elem_of_cons; auto.
  - intros [= <- <-]. exists (pl_ledger pl). rewrite Hself. split_and!; [done|set_solver|done].
Qed.

Lemma loud_rebuild db_text now ids p org ds z tier : loud (rebuild db_text now ids p org ds z tier).
Proof.
  unfold rebuild. destruct tier as [t|]; [|by intros pl].
  repeat case_decide; repeat (apply loud_bind; [|intros ?]); try apply loud_run;
    try (by intros pl); apply loud_bind; try (intros ?; by intros pl); apply loud_run.
Qed.

(** ** The publish *)

Section publish.
Context (connect : string → result unit string) (db_text : DbError → string).
Context (from_yaml : string → option Config.Config) (error_text : Config.ConfigError → string).
Context (refuses : string → string → option string).
Context (parse : string → result SqlColumns.Expr string) (regex : string → option string).
Context (active_models : string → Plane → list string).
Context (advisories : string → string → Config.Config → list string).

(** What a publish that answers 200 was let through by. *)
Record admitted (st : AppState) (p : Principal) (org ds version : string) (pl : Plane) (z : Z) (o : OrgRow)
    (d : Dataset) (v : ConfigVersion) (c : Config.Config) (tier : option string) (changed : list string) : Prop := {
  ad_guard : guard p org Admin = Ok tt;
  ad_version : parse_version version = Some z;
  ad_org : get_org org (pl_control pl) = Some o;
  ad_active : o_state o = "active";
  ad_dataset : get_dataset (o_id o) ds pl = Some d;
  ad_row : pg_get_config_version (ds_id d) z pl = Some v;
  ad_loads : load from_yaml (v_yaml v) = Ok c;
  ad_sound : config_reference_problems parse regex c = [];
  ad_models : ∀ m, m ∈ Config.ms_name <$> Config.models c → m ∈ active_models (ds_id d) pl;
  ad_tier : classify from_yaml d (o_active_config_version o) c pl = (tier, changed);
  ad_operator : operator_blocks changed = [] ∨ p_role p = Operator;
}.

(** What it leaves. *)
Record released (org : string) (pl pl' : Plane) (z : Z) (o : OrgRow) (d : Dataset) (v : ConfigVersion)
    (c : Config.Config) (tier : option string) : Prop := {
  re_file : files (pl_files pl') !! o_config_path o = Some (v_yaml v);
  re_version : ∃ v', v' ∈ pl_versions pl' ∧ v_id v' = v_id v ∧ v_dataset_id v' = ds_id d ∧ v_version v' = z
    ∧ v_yaml v' = v_yaml v ∧ v_state v' = "published" ∧ v_tier v' = tier;
  re_others : ∀ v', v' ∈ pl_versions pl → v_dataset_id v' ≠ ds_id d ∨ v_version v' ≠ z → v' ∈ pl_versions pl';
  re_dataset : ∃ d', d' ∈ pl_datasets pl' ∧ ds_id d' = ds_id d ∧ ds_active_config_version d' = Some z;
  re_org : ∃ o', o' ∈ orgs (pl_control pl') ∧ o_id o' = o_id o ∧ o_active_config_version o' = Some z;
  re_schedule : ∃ s, s ∈ pl_schedules pl' ∧ s_dataset_id s = ds_id d
    ∧ s_source s = CORRECTION_PASS_SOURCE ∧ s_cron s = Config.correction_cadence c;
  re_jobs : ∀ k, k ∈ tier_keys z tier → has_job (o_id o) k (pl_ledger pl');
}.

Lemma models_known_ok d c pl :
  models_known active_models d c pl = Ok tt →
  ∀ m, m ∈ Config.ms_name <$> Config.models c → m ∈ active_models (ds_id d) pl.
Proof.
  unfold models_known. intros H m Hm. destruct (Config.models c) as [|s l] eqn:E; [by apply elem_of_nil in Hm|].
  rewrite <- E in Hm. destruct (missing_models c (active_models (ds_id d) pl)) as [|x k] eqn:Em; [|done].
  destruct (decide (m ∈ active_models (ds_id d) pl)) as [|Hn]; [done|].
  exfalso. apply (not_elem_of_nil m). rewrite <- Em. by apply list_elem_of_filter.
Qed.

Lemma write_config_ok path yaml fs fs' :
  write_config_file refuses path yaml fs = (Ok tt, fs') → files fs' !! path = Some yaml.
Proof.
  unfold write_config_file. repeat case_match; [done..|]. intros [= <-]. simpl. by rewrite lookup_insert_eq.
Qed.

Lemma emit_other now ids o ds org data pl :
  let pl' := emit_published now ids o ds org data pl in
  pl_control pl' = pl_control pl ∧ pl_datasets pl' = pl_datasets pl ∧ pl_versions pl' = pl_versions pl
  ∧ pl_schedules pl' = pl_schedules pl ∧ pl_ledger pl' = pl_ledger pl ∧ pl_files pl' = pl_files pl.
Proof. simpl. split; [by apply emit_control|done]. Qed.

Lemma publish_tidy now trace ids mints st p org ds version :
  tidy (publish_config_version connect db_text from_yaml error_text refuses parse regex active_models
          advisories now trace ids mints st p org ds version).
Proof.
  unfold publish_config_version.
  apply tidy_quiet; [apply quiet_check, guard_refuses|intros ?].
  apply tidy_quiet; [apply quiet_check; intros e; case_match; by intros [= <-]|intros z].
  apply tidy_quiet; [apply quiet_scoped|intros [o d]].
  apply tidy_quiet; [apply quiet_reads; intros ? e; case_match; by intros [= <-]|intros row].
  apply tidy_quiet; [apply quiet_check; unfold checked_config; intros e; repeat case_match; by intros [= <-]|intros c].
  apply tidy_quiet; [apply quiet_reads; unfold models_known; intros ? e; repeat case_match; by intros [= <-]|intros ?].
  apply tidy_quiet; [apply quiet_reads; intros ? e; case_match; by intros [= <-]|intros [[path state] active]].
  apply tidy_quiet; [by apply quiet_reads|intros [tier changed]].
  apply tidy_quiet; [case_match; [by apply quiet_check; intros e [= <-]|by intros pl]|intros ?].
  apply tidy_quiet; [case_match; [by intros pl|by apply quiet_check; intros e [= <-]]|intros ?]. apply loud_tidy.
  apply loud_bind; [intros pl; by destruct (write_config_file _ _ _ _) as [[] ?]|intros ?].
  apply loud_bind; [apply loud_run_all|intros ?].
  apply loud_bind; [case_match; [apply loud_run_all|by intros pl]|intros ?].
  apply loud_bind; [apply loud_rebuild|intros ?]. apply loud_bind; [by intros pl|intros ?].
  by apply loud_bind; [intros pl|intros ? pl].
Qed.

End publish.

(** ** Histories *)

Import SamplePlane.

Module SampleHistory.

(** Datasets and keys of the jobs; the datasets' pointers. *)
Definition keys (pl : Plane) : list (option string * option string) :=
  (λ j, (job_dataset_id j, job_idempotency_key j)) <$> jobs (pl_ledger pl).

Definition pointers (pl : Plane) : list (string * option Z) :=
  (λ d, (ds_name d, ds_active_config_version d)) <$> pl_datasets pl.

Definition code (m : action Response) (pl : Plane) : Z := (serve m pl).1.1.
Definition body (m : action Response) (pl : Plane) (k : string) : option json :=
  json_get (serve m pl).1.2 k.

(** A second version, with another threshold. *)
Definition strict : Plane :=
  after (publish_of "b" admin "people" "2") (after (draft_of "people" "v2" "strict") published).

(** A second dataset of the tenant, with a version of its own. *)
Definition two (pl : Plane) : Plane :=
  after (draft_of "orders" "w1" "people") (after (create "orders" "d2") pl).

(** The first dataset's correction schedule is deleted through the API. *)
Definition freed (pl : Plane) : Plane :=
  after (delete_schedule connect db_text st admin "acme" "people" "a0") pl.

(** The first dataset goes to its version 2, the second to its version 1, the
    first to 2 again; then the second drafts a change of its clustering. *)
Definition shadowed : Plane :=
  after (draft_of "orders" "w2" "loops")
    (after (publish_of "g" admin "people" "2")
       (after (publish_of "f" admin "orders" "1") (two strict))).

End SampleHistory.

Import SampleHistory.

(** The first publish: everything is rebuilt. *)
Example first_publish :
  code (publish_of "a" admin "people" "1") drafted = 200
  ∧ pointers published = [("people", Some 1)]
  ∧ keys published = [(Some "d1", Some "publish:1:train"); (Some "d1", Some "publish:1:rebuild")]
  ∧ s_cron <$> pl_schedules published = [sunday].
Proof. vm_compute. by repeat split. Qed.

(** Publishing an earlier version again moves the pointers back and names the
    rebuild of its first publish: no new job runs it. *)
Example rollback_runs_nothing :
  let m := publish_of "c" admin "people" "1" in
  code m strict = 200 ∧ body m strict "tier" = Some (JString "A")
  ∧ body m strict "jobs_enqueued" = Some (JArray [JString "a2"])
  ∧ pointers (after m strict) = [("people", Some 1)] ∧ keys (after m strict) = keys strict.
Proof. vm_compute. by repeat split. Qed.

(** One correction schedule to a tenant: a second dataset's publish fails past
    the point where its version is published, and before any job of its. *)
Example second_dataset_half_published :
  let m := publish_of "d" admin "orders" "1" in
  code m (two published) = 500
  ∧ pointers (after m (two published)) = [("people", Some 1); ("orders", Some 1)]
  ∧ keys (after m (two published)) = keys published.
Proof. vm_compute. by repeat split. Qed.

(** With the index out of the way: the version the tenant points at is looked
    up among the second dataset's, found to be the one published, and nothing
    is built for its first publish. *)
Example second_dataset_not_built :
  let m := publish_of "d" admin "orders" "1" in
  let pl := freed (two published) in
  code m pl = 200 ∧ body m pl "tier" = Some JNull ∧ body m pl "jobs_enqueued" = Some (JArray [])
  ∧ pointers (after m pl) = [("people", Some 1); ("orders", Some 1)]
  ∧ keys (after m pl) = keys published.
Proof. vm_compute. by repeat split. Qed.

(** By the same lookup an administrator publishes a structural change, which
    is refused where the dataset is alone. *)
Example operator_block_unchecked :
  let m := publish_of "h" admin "orders" "2" in
  code (publish_of "e" admin "people" "2") (after (draft_of "people" "v2" "loops") published) = 403
  ∧ pointers shadowed = [("people", Some 2); ("orders", Some 1)]
  ∧ code m (freed shadowed) = 200
  ∧ pointers (after m (freed shadowed)) = [("people", Some 2); ("orders", Some 2)]
  ∧ (v_yaml <$> pg_get_config_version "d2" 1 shadowed) = Some "people"
  ∧ (v_yaml <$> pg_get_config_version "d2" 2 shadowed) = Some "loops".
Proof. vm_compute. by repeat split. Qed.

(** The rebuild of one dataset is taken for another's of the same version. *)
Example shared_rebuild_key :
  let pl := after (draft_of "orders" "w2" "strict")
              (after (publish_of "f" admin "orders" "1") (freed (two strict))) in
  let m := publish_of "i" admin "orders" "2" in
  code m pl = 200 ∧ body m pl "tier" = Some (JString "A")
  ∧ body m pl "jobs_enqueued" = Some (JArray [JString "b1"])
  ∧ (job_dataset_id <$> jobs (pl_ledger (after m pl))) = [Some "d1"; Some "d1"; Some "d1"].
Proof. vm_compute. by repeat split. Qed.

(** The published text goes to the tenant's file; the dataset's own path, the
    one its runs are given, is left as it was. *)
Example publish_misses_the_dataset :
  files (pl_files published) !! "/srv/acme.yaml" = Some "people"
  ∧ (d ← head (pl_datasets published); field ER_CONFIG_PATH_KEY
       (match ds_env d with JObject l => l | _ => [] end)) = Some (JString "/srv/people.yaml")
  ∧ files (pl_files published) !! "/srv/people.yaml" = None.
Proof. vm_compute. by repeat split. Qed.

(** A cadence that is no schedule is published, and its schedule never fires. *)
Example cadence_never_fires :
  let m := publish_of "w" admin "people" "2" in
  let pl := after (draft_of "people" "v2" "weekly") published in
  code m pl = 200 ∧ s_cron <$> pl_schedules (after m pl) = ["weekly"]
  ∧ ∀ at_, (SampleSchedules.tick 9 at_ (λ _, "j") (after m pl)).1 = Ok 0%nat.
Proof. vm_compute. by repeat split. Qed.

(** An auto-provisioned dataset points at a starter version that was never
    marked published: the mark goes to the tenant's identifier. *)
Example starter_stays_draft :
  let pr := mkProvisioning (Some (mkProfile Local "/srv" "/etc/starter.yaml" None None [])) None in
  let pl := acme <| pl_files := mkFs ∅ {["/etc/starter.yaml" := "people"]} |> in
  let m := create_dataset connect db_text from_yaml no_text sha no_text willing 1 None
             (λ i, "n" +:+ int_text (Z.of_nat i)) st pr admin "acme"
             (mkDatasetIn "people" None None None ∅ None None None) in
  code m pl = 202 ∧ pointers (after m pl) = [("people", Some 1)]
  ∧ (λ v, (v_version v, v_state v)) <$> pl_versions (after m pl) = [(1, "draft")]
  ∧ files (pl_files (after m pl)) !! "/srv/acme/people/config.yaml" = Some "people".
Proof. vm_compute. by repeat split. Qed.

